(* ===== verification/_CoqProject ===== *)
-Q . S2P
Prelude.v
RaftTypes.v
RaftMembership.v
RaftLog.v
RaftMachine.v
RaftNode.v
RaftElection.v
RaftFacts.v
RaftReplication.v
RaftMerge.v
RaftScenarios.v
Crc32c.v
WireFrame.v
RaftWal.v
RaftWalScenarios.v
Text.v
TimeHlc.v
TimeDuration.v
TimeInterval.v
WireMetadata.v
SchedQueue.v
SchedMux.v
SchedWheel.v
SchedMonitor.v
Utf8.v
Ordered.v
Tarjan.v
TypeUrn.v
Manifest.v
Graph.v
GraphLaws.v
GraphScenarios.v
Expand.v
ExpandLaws.v
ExpandScenarios.v
Supervise.v
Daemon.v
DaemonLaws.v
DaemonScenarios.v
MuxHeader.v
MuxCompress.v
Recording.v
RecordingLaws.v
RecordingScenarios.v
MuxState.v
MuxSched.v
MuxFlow.v
MuxLink.v
MuxScenarios.v
Cdr.v
CdrLaws.v
RtpsTypes.v
RtpsCache.v
RtpsProxy.v
RtpsFragment.v
RtpsMessage.v
RtpsWire.v
RtpsWireLaws.v
RtpsReplay.v
RtpsWriter.v
RtpsReader.v
RtpsLink.v
RtpsRepair.v
RtpsScenarios.v
