(* ===== verification/Prelude.v ===== *)
(** * AstRS: a verification development

    AstRS is a dataflow middleware for robots.  Its cluster coordinator is
    replicated with a Raft implementation of its own ([crates/astrs-raft]),
    whose messages, like every message of the system, travel in frames of
    [crates/astrs-wire] protected by that crate's CRC-32C, and whose log is
    stored in a write-ahead log that uses the same checksum.  Between
    machines the frames of many routes share one connection through the
    multiplexer of [crates/astrs-transport].  In a node, [crates/astrs-time]
    stamps messages with a hybrid logical clock, and [crates/astrs-scheduler]
    queues them by input and fires its timers.  Towards ROS 2 the system
    speaks DDS through an RTPS stack of its own ([crates/astrs-rtps]) over a
    CDR serialization of its own ([crates/astrs-cdr]).  What runs is
    described by a manifest ([crates/astrs-manifest]) whose ports carry the
    type names of [crates/astrs-data] and from which the dataflow graph and its
    placement are derived ([crates/astrs-graph]).  On each machine a daemon
    ([crates/astrs-daemon]) starts the nodes, restarts those that fail and
    stops those that should end.  What a run exchanged can be recorded in a
    container of its own ([crates/astrs-recording]).  This development
    models the core of those twelve crates and proves what they promise.

    ** How the parts fit

    [RaftNode] ([astrs-raft/src/core/]) is a deterministic state machine: the
    host calls [tick], [step] (with a received message), [propose],
    [propose_membership] and [take_snapshot], and collects outgoing messages
    and applied commands.  It reads and writes its log through the trait
    [LogStore] ([log/store.rs]), implemented in memory ([MemoryLog]) and by the
    write-ahead log ([WalLog], [log/wal.rs]); it drives the application
    through the trait [StateMachine].  [WalLog] frames each record with a
    CRC-32C of [astrs-wire/src/crc32c/] and encodes payloads with the wire
    codec ([astrs-wire/src/codec.rs]); messages are framed by
    [astrs-wire/src/frame/].

    [MuxShared] ([astrs-transport/src/mux/state.rs]) keeps the routes of a
    connection.  Applications hold handles on routes; a writer task takes
    frames from it in the order its scheduler chooses, a reader task hands it
    the peer's frames; both ends agree on credit per route.

    A message in a node is stamped by [HlcClock] ([astrs-time/src/hlc.rs]) and
    carries [Metadata] ([astrs-wire/src/metadata/]), from which the input
    queues of [astrs-scheduler/src/queue.rs] read whether it may be dropped.
    [EventMux] picks the next message over all inputs, [TimerWheel] fires on
    the grid of a [TimerInterval], and the monitors watch for late or silent
    inputs.

    An RTPS participant ([astrs-rtps/src/behavior/state.rs]) interprets a
    datagram and hands its submessages to its [RtpsReader]s and
    [RtpsWriter]s.  A writer keeps a [HistoryCache] and a [ReaderProxy] per
    matched reader, a reader a [WriterProxy] per writer and a [Reassembler];
    [DATA], [DATA_FRAG], [GAP] and [HEARTBEAT] go one way, [ACKNACK] and
    [NACK_FRAG] the other, over a network that may do anything to a datagram
    but forge it.  A protected session refuses replays by [ReplayWindow].

    A [Manifest] that includes modules is flattened by [expand]
    ([astrs-manifest/src/expand/]), checked by [validate] and turned into a [DataflowGraph] by
    [from_manifest] ([astrs-graph/src/graph.rs]); the graph is checked for
    types, patterns and cycles ([diagnostics]), placed on machines
    ([plan_placement]), and edited at run time by the operations that [diff]
    computes and [apply] carries out.

    The daemon ([astrs-daemon/src/server/]) is one loop over events: requests
    of nodes, exits of processes, expired timers, stops.  It keeps a record per
    node ([NodeState]) whose incarnations are numbered; an exit is classified,
    the restart policy consulted, and the outcome recorded for the result of
    the dataflow; a node that does not leave is signalled by a ladder of
    deadlines.

    A recording [Writer] ([astrs-recording/src/writer.rs]) appends a frame per
    message to a file, keeps an index of them and writes it as the footer when
    the file is closed, which happens at a size, at an age or at the end; a
    [Reader] finds the footer by the trailer, or the entries by scanning.

    ** The files

    - [Prelude] (this file): machine integers, [Result] and its [?], the
      state-and-error monad in which a [&mut self] method is written, the
      [keeps] logic (a method relates the state before to the state after,
      composed by automation), lemmas on sorted lists and counting.
    - [RaftTypes]: [types.rs] and [error.rs] (terms, indices, roles, the
      xorshift generator, errors).
    - [RaftMembership]: [membership.rs] (voters, quorum, single-server
      changes) and the durable shapes of [log/entry.rs].
    - [RaftLog]: [log/store.rs].  [LogStore] is a type class of operations;
      [LogStoreLaws] is the contract: a store shows the reads of a
      [MemoryLog], its [view], and a call changes the view as [MemoryLog]
      does, or fails and leaves it as it was or completed.  Everything about
      [RaftNode] is proved against the contract.
    - [RaftMachine]: [state_machine.rs].
    - [RaftNode]: [config.rs], [message.rs], [core/mod.rs],
      [core/election.rs], [core/replication.rs], [core/apply.rs]: one
      definition per method, in the order the code calls them.
    - [RaftElection]: a cluster as a transition system (ticks, deliveries of
      any message ever sent, proposals, compactions, restarts from the
      durable half), an invariant of it by induction on reachability, and
      election safety.
    - [RaftFacts]: what every public call keeps in one replica, in any order
      and with any failure.
    - [RaftReplication]: the commit rule, the apply loop, the leader's lease.
    - [RaftMerge]: the log merge of a follower against its description, and
      the two searches behind a conflict answer.
    - [RaftScenarios]: executions of small clusters, evaluated: witnesses for
      the theorems above and three counter-intuitive executions.
    - [Crc32c]: [crc32c/]: the slice-by-8 kernel, the GF(2) combine, the
      three-way hardware kernel, dispatch, the streaming interface.
    - [WireFrame]: [codec.rs] and [frame/].
    - [RaftWal]: [log/wal.rs] over a model of the two files it owns, with an
      oracle for failing system calls.
    - [RaftWalScenarios]: a concrete payload encoding, so that [RaftWal]
      runs, with its witnesses and two damaged logs.
    - [Text]: strings as lists of characters, decimal numbers, and what Rust's
      standard library does to them; [Utf8]: their encoding.
    - [TimeHlc]: [timestamp.rs], [hlc.rs], [stamped.rs] and the manual clock
      of [clock.rs]; [TimeDuration]: [duration.rs]; [TimeInterval]:
      [interval.rs] and [deadline.rs].
    - [WireMetadata]: names and ports of [astrs-wire/src/ids/], parameters,
      keys and goal statuses of [astrs-wire/src/metadata/].
    - [SchedQueue]: [queue.rs] and [metadata_view.rs]; [SchedMux]: [mux.rs];
      [SchedWheel]: [timer/wheel.rs]; [SchedMonitor]: [deadline.rs] and
      [idle.rs].
    - [MuxHeader]: [mux/header.rs]; [MuxCompress]: [compress.rs] with its
      settings; [MuxState]: [mux/state.rs], the handles of [mux/handle.rs] and
      one turn of each loop of [mux/driver.rs].
    - [MuxSched]: the scheduler in any history of calls; [MuxFlow]: what each
      call does to credit; [MuxLink]: two ends and the streams between them
      as an executable transition system, with its invariant; [MuxScenarios]:
      executions of it.
    - [Cdr]: the CDR writer, reader and implementations of [astrs-cdr]; the
      trait is a record of operations.  [CdrLaws]: its law as a type class,
      [Lawful], with an instance for every implementation, the universe of the
      types they make, and the round trip of whole values.
    - [RtpsTypes]: names, sequence numbers and the 256-bit sets of
      [structure/]; [RtpsCache]: [behavior/cache.rs]; [RtpsProxy]:
      [behavior/proxy.rs]; [RtpsFragment]: [structure/fragment.rs] and
      [behavior/fragment.rs]; [RtpsMessage]: the submessages of [messages/] and
      the packing of datagrams; [RtpsWire]: their octets, written and read
      with [Cdr]; [RtpsWireLaws]: that both agree; [RtpsWriter], [RtpsReader]: the two endpoints
      and the participant's dispatch.
    - [RtpsLink]: one writer, one reader and the datagrams between them as a
      transition system, its invariant and what follows for deliveries and
      acknowledgements; [RtpsRepair]: what one [produce] call sends, and that
      it does not fail; [RtpsScenarios]: runs of the link, witnesses and
      counter-intuitive executions; [RtpsReplay]: [security/replay.rs].
    - [Ordered]: ordered keys as a type class and the order in which a
      [BTreeMap] or [BTreeSet] is walked; that strings compare as their bytes.
    - [Tarjan]: the search of [astrs-graph/src/scc.rs] over any graph, with
      its invariant and its correctness.
    - [TypeUrn]: [astrs-data/src/urn/parse.rs].
    - [Manifest]: the records of [astrs-manifest/src/] that validation reads,
      [virtual_source.rs], [urn.rs] and the whole of [validate.rs].
    - [Graph]: [astrs-graph/src/]: construction, type check, patterns,
      components, report, placement, differences; [GraphLaws]: what they
      promise; [GraphScenarios]: a small pipeline, witnesses and an
      execution that editing lets through.
    - [Expand]: [astrs-manifest/src/expand/] with paths as lists of
      components; [ExpandLaws]: what flattening promises; [ExpandScenarios]: a
      pipeline with a module, witnesses and a captured reference.
    - [Supervise]: [astrs-daemon/src/supervise/]: restart policy, history,
      exit causes, deadlines, ladders, and their theorems; [Daemon]: the
      records of [state/] and the handlers of [server/] that supervise nodes;
      [DaemonLaws]: the handlers cut into small steps, and what holds of every
      run; [DaemonScenarios]: runs of one and two nodes, witnesses and seven
      runs that end badly.
    - [Recording]: [astrs-recording/src/]: frames, writer, reader, recovery,
      merge, statistics, over files whose calls can fail; [RecordingLaws]:
      what they promise; [RecordingScenarios]: witnesses and four runs in
      which a recording is lost.

    ** What the theorems show

    - Consensus: at most one leader per term, in every execution of a cluster
      with a fixed configuration ([election_safety]); any majorities before
      and after a single-server change intersect; a replica's term never
      decreases and its vote in a term never changes, whatever it is asked to
      do; the commit index of a leader moves only onto an entry of its own
      term held by a majority, as far as majorities allow, and does move when
      they do; committed entries are applied in order, once, one outcome
      each; the lease is a recently heard majority.
    - The log: reads return the entry of the index asked for after any
      history; appends, truncations and compactions change exactly what they
      should; a follower's merge is "keep what agrees, overwrite from the
      first disagreement", idempotent, and does not fail in memory.
    - Durability: [WalLog] does to what can be read of it what [LogStore] asks
      whatever system call fails, so the consensus theorems hold over it; a
      log reopened after successful operations, with records the reader takes,
      is the log that was closed; a record cut short is repaired on the next
      open with nothing else lost; whatever call the disk fails, what was
      acknowledged before is on it, and a vote, an append or a truncation that
      fails leaves the log before it, after it, or with a prefix of its
      entries ([acknowledged_calls_are_durable]).
    - The wire: every CRC kernel computes the CRC of the polynomial (the
      table and combine kernels for every input, the hardware kernel given
      what the processor manuals say of the instructions), streaming equals
      one-shot, a change within four consecutive bytes is always detected;
      what is encoded decodes to itself and a decoded frame re-encodes to its
      bytes; truncated and damaged frames are rejected; a failed write
      restores the buffer.
    - Time: in every distributed execution the hybrid clock respects
      causality, it is one scalar clock packed in two fields, and it stays
      near the wall clocks; durations print and parse to themselves; a timer
      walks its grid without drift.
    - The scheduler: a queue loses no immune message, keeps order and
      accounts for every message; control inputs go first and no input of a
      lane starves; an advance of the wheel delivers nothing early, leaves
      nothing that is due, and accounts for every tick, in one order whatever
      order a hash map is walked in; silence is reported once.
    - The connection: two ends that follow the code never overrun a route's
      window, whatever the interleaving ([flow_control_is_never_violated]);
      no ready route starves behind control frames or other routes; headers,
      bodies and compressed payloads come back as they were sent.
    - The RTPS link: whatever the network loses, repeats, reorders or delays,
      a reader hands over each sample at most once and exactly as written, and
      those that wait to be taken are the last it was handed;
      what the writer counts as acknowledged, and so what it may reclaim, was
      delivered, predates the reader or was given up by the history policy,
      and under [KEEP_ALL] without a lifespan was delivered; a request for
      repair of an active reliable reader is answered by the next [produce],
      which never fails for samples within the limits;
      fragments reassemble in any order with any duplicates; and the octets of
      a datagram decode to the message the link exchanges, in number as the
      packing assumes ([datagrams_carry_messages]).
    - CDR: for every type the crate's implementations make (a closed universe,
      [CdrTy], in which sequences have elements of at least one octet), in
      every encapsulation, what is written is read back with nothing left
      over, and the measured size is the size ([cdr_roundtrip]); an older
      reader reads its part of a grown appendable type.
    - The graph: a manifest that passes validation always builds, into a graph
      whose edges join ports that exist and whose inputs are wired as written
      ([validated_manifest_builds]); the reported components are the classes of
      mutual reachability, by a search that always ends; the cycle and the type
      report name exactly the edges that lie on an uncorrelated cycle or whose
      types do not fit; a difference applied yields the graph it was computed
      for ([diff_then_apply]), and a batch of edits does exactly what it says
      and leaves no dangling reference or, in strict mode, new ill-typed edge,
      both stated without the code's own tests; a plan spawns each
      node that needs a process on its machine and routes exactly the edges
      between machines.
    - Type names: what was built parses from its own text, and the order in
      which parameters are written does not matter.
    - Modules: expansion returns for every loader and parser; what it returns
      is precisely the inlining of the modules, each plain node once under its
      dotted name with its program and environment; and when the manifests it
      opens are valid and differ in their ids from those around them, the
      result builds.
    - Supervision: a node that was told to stop is not started again by the
      daemon ([stopped_nodes_stay_down]); SIGTERM reaches only processes whose
      incarnation was told to stop, as long as dataflows share no node id; when
      the loop ends every node has its result; restarts keep within their
      budget in every window and back off exponentially; the ladder sends each
      signal once, on schedule.
    - Recordings: whatever the rotation policy, what was appended is in the
      files returned, in order, and is read back by timestamp
      ([recording_is_lossless]); a file cut at any byte gives back exactly the
      entries before the cut; a failing append loses nothing acknowledged; a
      merge is the sorted union of its sources.
    - The replay window gives the verdicts of the set of accepted counters.
    - Divergences from the code's own comments, each with an execution or a
      general statement: a duplicated [AppendEntries] moves a follower's
      commit index back; a leader accepts a membership change before its term
      has committed; a snapshot records an uncommitted configuration; a
      granted pre-vote of a lower-term voter is dropped; a log whose creation
      was interrupted, whose compaction was interrupted, or that holds a
      record over 64 MiB cannot be opened; conflicting compression flags are
      written into frames nobody can parse; data can overtake the opening of
      its route; a payload that compresses below the ceiling can close the
      connection; a zstd frame is expanded before its length is compared; a
      refused opening leaks its route; the notices of a closing connection
      are never sent; an RTPS best-effort reader can
      stall for good after a burst; a volatile late joiner asks in vain for
      what predates it; samples just below the fragment size reach no reader;
      a fragmented disposal arrives alive; a fragment size of zero blocks a
      writer; a long last PAD is misread; the extension of a fragment joins its
      payload; sequences of empty elements are written and refused; mutable
      structs have no member headers; an edit can store a node under an id that
      is not its own, and the plan then spawns an id the graph does not have; a
      module's node captures a reference that was supplied from outside; a node
      stopped while it waits for its restart never ends, and one stopped while
      its exit is drained is restarted; a missed spawn deadline spends two
      restarts and its cause is overwritten; a shared node id sends the signal
      to the wrong dataflow; the reaped flag of a process is not the one the
      ladder tests; the exit of a producer never completes the closure of a
      consumer's inputs; a recording whose next segment cannot be opened, or
      whose finish is repeated after a failure, is replaced by an empty one; an
      entry appended after the finish cannot be found; a failed append shifts
      the index.

    ** Modelling choices

    A [u64], [u32], [u16], [u8] or [usize] is an [N]; an operation that
    saturates, wraps or truncates in the source is written so, and statements
    carry the width where it matters (terms below [u64::MAX], buffers below
    2^64 bytes).  A [Vec] or slice is a list, a [BTreeMap]/[BTreeSet] a
    [gmap]/[gset] (iteration order is restored by sorting where the code
    iterates).  A [&mut self] method returns the state an early return
    leaves behind along with the error.  Loops that are not structural take
    fuel; the fuel is the number of entries, bytes or bits the loop can
    consume, and the theorems about them are equalities with a fuel-free
    specification, so running out cannot hide in them.  (Of the RTPS loops:
    the evictions of a history take its size, the watermark of a proxy the
    numbers tracked, an [ACKNACK] 256 bits, [produce] 257 numbers, the
    cutting of a sample one more than its fragments; decoding a datagram or a
    parameter list one more than its octets, each turn taking four.  The
    recursion of [Tarjan] takes one more than the vertices, that of [Expand]
    one more than the depth limit, and both are proved to return; the scan of
    a recording takes one more than its bytes.)  [tracing] output is
    left out.  State behind a mutex is a record that each method takes and
    returns; a state shared by handles (queues, channels, permits) lives in a
    store under a location that the handles carry, so that aliasing is kept.
    An asynchronous operation is its attempt that does not wait; a wait is a
    later attempt.  Instants are nanoseconds from an epoch with the
    platform's greatest value as a parameter; readings of clocks are
    arguments.  The order in which a hash map is walked is any permutation.

    External code is a parameter with named laws: the [oxicode] payload
    encoding ([Oxicode], [OxicodeLaws]: decoding what was encoded gives it
    back and consumes exactly its bytes), the processor's CRC instructions
    ([CrcInstructions]), the application's [StateMachine], the channels and
    semaphores of [tokio] ([Mpsc], [Semaphore] and their laws), the codecs of
    [oxiarc] ([OxiArc], [OxiArcLaws]).  The file system of
    [RaftWal] is two files and a list of failures; what a page cache loses in
    a machine crash is not modelled, so fsync policies differ only in their
    counters.  The file system of [Recording] is a map from paths to bytes
    with such a list, and [BufWriter] is modelled with its buffer; reading an
    instant advances a clock by any amount.

    ** Not modelled

    Of [astrs-raft]: the asynchronous driver and transports ([driver.rs],
    [tcp.rs], [transport.rs]) and the simulator ([sim/]).  Of [astrs-wire]:
    tokens, handshakes, the message catalogue and the asynchronous readers.
    Of [astrs-transport]: sockets, QUIC, handshake and reconnection, waking of
    tasks, and the statistics per route, which nothing reads back.  Of
    [astrs-rtps]: discovery, liveliness, sockets and security; the link has
    one writer and one reader that stay matched.  Of [astrs-cdr]: member
    headers of mutable types.  Of
    [astrs-scheduler]: the timer task and its floating-point jitter
    estimates.  Of [astrs-manifest]: YAML, the substitution of environment
    variables and the generated schema; of [astrs-graph]: drawings; of
    [astrs-data]: the registry and the arrays.  Of [astrs-daemon]: mailboxes,
    shared-memory and peer planes, sessions, the coordinator's orders, node
    replacement and the start of processes.  The other crates (coordinator,
    stores, shared memory, ROS 2 bridge, transforms, tools,
    bindings) are outside this development: shared memory needs a weak-memory
    model, transforms are floating point, and the rest is input and output
    around the parts above. *)

From Stdlib Require Import Lia.
From stdpp Require Import base tactics list gmap strings numbers sorting.

(** ** Machine integers

    A [u64]/[usize] of the source is an [N]; an operation that can leave the
    64-bit range is written with its Rust semantics ([saturating_*],
    [wrapping_*]).  [saturating_sub] is [N]'s own truncated subtraction. *)

Definition u64_max : N := 18446744073709551615.
Definition two64 : N := 18446744073709551616.

Definition saturating_add (a b : N) : N := N.min (a + b) u64_max.
Definition saturating_sub (a b : N) : N := (a - b)%N.
Definition wrapping_mul (a b : N) : N := ((a * b) mod two64)%N.

Definition is_u64 (n : N) : Prop := (n <= u64_max)%N.

#[global] Instance is_u64_dec n : Decision (is_u64 n).
Proof. unfold is_u64. apply _. Defined.

(** ** Results *)

Inductive result (E A : Type) : Type :=
  | Ok (a : A)
  | Err (e : E).
Arguments Ok {E A} _.
Arguments Err {E A} _.

Declare Scope astrs_scope.
Delimit Scope astrs_scope with astrs.
Open Scope astrs_scope.

(** The [?] operator on a pure result. *)
Definition rbind {E A B} (m : result E A) (k : A → result E B) : result E B :=
  match m with Ok a => k a | Err e => Err e end.

Notation "'let?' x ':=' m 'in' k" := (rbind m (λ x, k))
  (at level 200, x pattern, m at level 200, k at level 200) : astrs_scope.

#[global] Instance result_eq_dec {E A} `{EqDecision E, EqDecision A} :
  EqDecision (result E A).
Proof. solve_decision. Defined.

Definition map_err {E F A} (f : E → F) (r : result E A) : result F A :=
  match r with Ok a => Ok a | Err e => Err (f e) end.

Definition is_ok {E A} (r : result E A) : Prop :=
  match r with Ok _ => True | Err _ => False end.

(** ** The state-and-error monad

    A method [fn f(&mut self) -> Result<A, E>] is a function from the state
    to the new state and a result: the state an early return ([?]) leaves
    behind is kept, as it is in the source. *)

Definition stM (S E A : Type) : Type := S → S * result E A.

Definition ret {S E A} (a : A) : stM S E A := λ s, (s, Ok a).
Definition sbind {S E A B} (m : stM S E A) (k : A → stM S E B) : stM S E B := λ s,
  match m s with
  | (s', Ok a) => k a s'
  | (s', Err e) => (s', Err e)
  end.

Notation "x <- m ;; k" := (sbind m (λ x, k))
  (at level 100, m at next level, right associativity) : astrs_scope.
Notation "m ;; k" := (sbind m (λ _, k))
  (at level 100, right associativity) : astrs_scope.

Definition gets {S E A} (f : S → A) : stM S E A := λ s, (s, Ok (f s)).
Definition modify {S E} (f : S → S) : stM S E unit := λ s, (f s, Ok tt).
Definition fail {S E A} (e : E) : stM S E A := λ s, (s, Err e).
Definition lift_result {S E A} (r : result E A) : stM S E A := λ s, (s, r).

(** [for x in l { f(x)?; }] *)
Fixpoint for_each {S E A} (f : A → stM S E unit) (l : list A) : stM S E unit :=
  match l with
  | [] => ret tt
  | x :: l' => f x ;; for_each f l'
  end.

Lemma sbind_ok {S E A B} (m : stM S E A) (k : A → stM S E B) s s' b :
  sbind m k s = (s', Ok b) → ∃ s1 a, m s = (s1, Ok a) ∧ k a s1 = (s', Ok b).
Proof. unfold sbind. destruct (m s) as [s1 [a|e]]; [eauto|done]. Qed.

Lemma sbind_eq {S E A B} (m : stM S E A) (k : A → stM S E B) s :
  sbind m k s = match m s with (s', Ok a) => k a s' | (s', Err e) => (s', Err e) end.
Proof. reflexivity. Qed.

Lemma sbind_assoc {S E A B C} (m : stM S E A) (k : A → stM S E B) (h : B → stM S E C) s :
  sbind (sbind m k) h s = sbind m (λ a, sbind (k a) h) s.
Proof. unfold sbind. by destruct (m s) as [s' [a|e]]. Qed.

(** ** Reasoning about state-passing code

    [keeps R m]: running [m] relates the state before and after by [R],
    whether it succeeds or fails.  With [R] a preorder, [keeps] composes
    through every combinator, so an invariant or a two-state property of a
    whole handler follows from the same property of its parts. *)

Definition keeps {S E A} (R : S → S → Prop) (m : stM S E A) : Prop :=
  ∀ s, R s (m s).1.

Create HintDb keeps.

Section keeps.
Context {S E : Type} (R : S → S → Prop) `{!PreOrder R}.

Lemma keeps_ret {A} (a : A) : keeps (E:=E) R (ret a).
Proof. intros s. simpl. reflexivity. Qed.

Lemma keeps_gets {A} (f : S → A) : keeps (E:=E) R (gets f).
Proof. intros s. simpl. reflexivity. Qed.

Lemma keeps_fail {A} (e : E) : keeps (A:=A) R (fail e).
Proof. intros s. simpl. reflexivity. Qed.

Lemma keeps_lift_result {A} (r : result E A) : keeps R (lift_result r).
Proof. intros s. simpl. reflexivity. Qed.

Lemma keeps_modify (f : S → S) : (∀ s, R s (f s)) → keeps (E:=E) R (modify f).
Proof. intros H s. apply H. Qed.

Lemma keeps_bind {A B} (m : stM S E A) (k : A → stM S E B) :
  keeps R m → (∀ a, keeps R (k a)) → keeps R (sbind m k).
Proof.
  intros Hm Hk s. unfold sbind. specialize (Hm s).
  destruct (m s) as [s' [a|e]]; simpl in *; [|done].
  etrans; [done|apply Hk].
Qed.

Lemma keeps_for_each {A} (f : A → stM S E unit) l :
  (∀ x, keeps R (f x)) → keeps R (for_each f l).
Proof.
  intros Hf. induction l as [|x l IH]; simpl; [apply keeps_ret|].
  apply keeps_bind; auto.
Qed.

Lemma keeps_bind_gets {A B} (f : S → A) (k : A → stM S E B) :
  (∀ s, R s (k (f s) s).1) → keeps R (sbind (gets f) k).
Proof. intros H s. apply H. Qed.
End keeps.

(** Walks a computation with the [keeps] rules: binds, branches, loops and
    the lemmas of the [keeps] hint database. *)
Ltac keeps_step :=
  match goal with
  | |- keeps _ (match ?x with _ => _ end) => destruct x eqn:?
  | |- keeps _ (sbind _ _) => apply keeps_bind; [apply _| |intros ?]
  | |- keeps _ (for_each _ _) => apply keeps_for_each; [apply _|intros ?]
  | |- keeps _ (ret _) => apply keeps_ret; apply _
  | |- keeps _ (gets _) => apply keeps_gets; apply _
  | |- keeps _ (fail _) => apply keeps_fail; apply _
  | |- keeps _ (lift_result _) => apply keeps_lift_result; apply _
  | |- keeps _ _ => solve [eauto with keeps]
  end.
Ltac keeps_auto := repeat keeps_step.

(** ** Ordered iteration

    A [BTreeSet<u64>] is a finite set; iterating it visits the elements in
    ascending order. *)

Definition ascending (s : gset N) : list N := merge_sort N.le (elements s).

Lemma elem_of_ascending x s : x ∈ ascending s ↔ x ∈ s.
Proof.
  unfold ascending. rewrite (merge_sort_Permutation N.le (elements s)).
  apply elem_of_elements.
Qed.

Lemma ascending_perm s : ascending s ≡ₚ elements s.
Proof. apply merge_sort_Permutation. Qed.

Lemma NoDup_ascending s : NoDup (ascending s).
Proof. rewrite ascending_perm. apply NoDup_elements. Qed.

Lemma length_ascending s : length (ascending s) = size s.
Proof. by rewrite ascending_perm. Qed.

(** ** Lists *)

Lemma filter_all {A} (P : A → Prop) `{∀ x, Decision (P x)} l :
  Forall P l → filter P l = l.
Proof. induction 1; [done|]. rewrite filter_cons_True by done. by f_equal. Qed.

#[global] Instance N_ge_transitive : Transitive N.ge.
Proof. intros x y z ? ?. lia. Qed.
#[global] Instance N_ge_total : Total N.ge.
Proof. intros x y. lia. Qed.

(** How many elements of a list are at least [c]. *)
Definition count_ge (c : N) (l : list N) : nat := length (filter (λ x, (c <= x)%N) l).

#[global] Instance count_ge_perm c : Proper ((≡ₚ) ==> (=)) (count_ge c).
Proof. intros l l' Hp. unfold count_ge. by rewrite Hp. Qed.

Lemma count_ge_cons c x l :
  count_ge c (x :: l) = if decide (c <= x)%N then S (count_ge c l) else count_ge c l.
Proof. unfold count_ge. rewrite filter_cons. by case_decide. Qed.

(** In a descending list, the element at position [k] is the greatest bound
    that more than [k] elements reach. *)
Lemma count_ge_descending l k x c :
  StronglySorted N.ge l → l !! k = Some x → k < count_ge c l ↔ (c <= x)%N.
Proof.
  intros Hs. revert k. induction Hs as [|y l Hs IH Hall]; intros k Hk; [done|].
  rewrite count_ge_cons. rewrite Forall_forall in Hall.
  destruct k as [|k]; simpl in Hk.
  - injection Hk as ->. case_decide as Hd; [split; [done|lia]|].
    split; [|done]. intros Hp. exfalso. unfold count_ge in Hp.
    destruct (filter _ l) as [|z fl] eqn:E; [simpl in Hp; lia|].
    assert (z ∈ filter (λ x, (c <= x)%N) l) as Hz by (rewrite E; left).
    apply list_elem_of_filter in Hz as [Hcz Hz]. specialize (Hall z Hz). lia.
  - specialize (IH k Hk). case_decide as Hd; [rewrite <-IH; lia|].
    assert (x <= y)%N by (apply N.ge_le, Hall; by eapply list_elem_of_lookup_2).
    split; [|lia]. intros Hc. apply IH. lia.
Qed.

(** ** Shared tactics *)

(** Splits the [if]s and [match]es of the goal one at a time. *)
Ltac split_match :=
  match goal with
  | |- context [match ?x with _ => _ end] => destruct x eqn:?
  end.

(** Unfolds the 64-bit arithmetic and calls [lia]. *)
Ltac u64_lia :=
  unfold is_u64, saturating_add, saturating_sub, u64_max in *; lia.

(** Turns boolean comparisons of [N] into propositions. *)
Ltac bool_to_prop :=
  repeat match goal with
  | H : _ && _ = true |- _ => apply andb_true_iff in H; destruct H
  | H : N.ltb _ _ = true |- _ => apply N.ltb_lt in H
  | H : N.ltb _ _ = false |- _ => apply N.ltb_ge in H
  | H : N.leb _ _ = true |- _ => apply N.leb_le in H
  | H : N.leb _ _ = false |- _ => apply N.leb_gt in H
  | H : N.eqb _ _ = true |- _ => apply N.eqb_eq in H
  | H : N.eqb _ _ = false |- _ => apply N.eqb_neq in H
  | H : bool_decide _ = true |- _ => apply bool_decide_eq_true in H
  | H : bool_decide _ = false |- _ => apply bool_decide_eq_false in H
  | H : negb _ = true |- _ => apply negb_true_iff in H
  | H : negb _ = false |- _ => apply negb_false_iff in H
  end.

(** [lia] with division and remainder by constants. *)
Ltac divmod_lia := zify; Z.to_euclidean_division_equations; lia.
