(* ===== verification/RaftTypes.v ===== *)
(** * Raft scalars: terms, indices, peers, roles, randomness

    Models [src/crates/astrs-raft/src/types.rs] and the error type of
    [src/crates/astrs-raft/src/error.rs]. *)

From Stdlib Require Import Lia.
From stdpp Require Import base tactics list gmap strings numbers.
From S2P Require Import Prelude.

(** ** [Term], [LogIndex], [PeerId]: the three [u64] newtypes *)

Abbreviation Term := N.
Abbreviation LogIndex := N.
Abbreviation PeerId := N.

Definition INITIAL : Term := 0%N.
Definition ZERO : LogIndex := 0%N.
Definition FIRST : LogIndex := 1%N.

Definition term_next (t : Term) : Term := saturating_add t 1.
Definition is_stale_against (t observed : Term) : bool := N.ltb t observed.
Definition rejects (t incoming : Term) : bool := N.ltb incoming t.

Definition is_empty_sentinel (i : LogIndex) : bool := N.eqb i 0.
Definition next (i : LogIndex) : LogIndex := saturating_add i 1.
Definition previous (i : LogIndex) : LogIndex := saturating_sub i 1.
Definition index_saturating_add (i : LogIndex) (delta : N) : LogIndex :=
  saturating_add i delta.
Definition distance_to (i other : LogIndex) : N := saturating_sub other i.

(** ** [Role] *)

Inductive Role : Set :=
  | Follower
  | PreCandidate
  | Candidate
  | Leader.

#[global] Instance role_eq_dec : EqDecision Role.
Proof. solve_decision. Defined.

Definition is_leader (r : Role) : bool :=
  match r with Leader => true | _ => false end.

Definition is_campaigning (r : Role) : bool :=
  match r with PreCandidate | Candidate => true | _ => false end.

(** ** [Rng]: xorshift64*

    The generator's state is one [u64].  Left shifts drop the bits that leave
    the word. *)

Definition Rng : Set := N.

Definition rng_new (seed : N) : Rng :=
  if N.eqb seed 0 then 0x9E3779B97F4A7C15%N else seed.

Definition next_u64 (state : Rng) : Rng * N :=
  let x := state in
  let x := N.lxor x (N.shiftr x 12) in
  let x := N.lxor x (N.shiftl x 25 mod two64)%N in
  let x := N.lxor x (N.shiftr x 27) in
  (x, wrapping_mul x 0x2545F4914F6CDD1D).

Definition in_range (state : Rng) (low high : N) : Rng * N :=
  if N.leb high low then (state, low)
  else let '(state', v) := next_u64 state in
       (state', low + v mod (high - low))%N.

(** ** [RaftError] *)

Inductive RaftError : Set :=
  | NotLeader (leader : option PeerId)
  | LeaseExpired
  | ConfigChangeInFlight (pending : LogIndex)
  | InvalidMembership (reason : string)
  | Compacted (index first : LogIndex)
  | Unavailable (index last : LogIndex)
  | InvalidConfig (reason : string)
  | Io (what : string)
  | Corrupt (offset : N) (reason : string)
  | Codec (reason : string)
  | Apply (index : LogIndex) (reason : string)
  | SnapshotError (what reason : string)
  | Transport (peer : PeerId) (reason : string)
  | UnknownPeer (peer : PeerId)
  | UnsupportedVersion (found supported : N)
  | ProposalLost (index : LogIndex) (term : Term)
  | ShuttingDown.

#[global] Instance raft_error_eq_dec : EqDecision RaftError.
Proof. solve_decision. Defined.

(** ** Facts *)

Lemma next_lt i : (i < u64_max)%N → next i = (i + 1)%N.
Proof. unfold next. u64_lia. Qed.

Lemma term_next_lt t : (t < u64_max)%N → term_next t = (t + 1)%N.
Proof. unfold term_next. u64_lia. Qed.

Lemma previous_next i : (i < u64_max)%N → previous (next i) = i.
Proof. unfold previous, next. u64_lia. Qed.

Lemma next_previous i : (0 < i)%N → is_u64 i → next (previous i) = i.
Proof. unfold previous, next. u64_lia. Qed.

Lemma term_next_le t : is_u64 t → (t <= term_next t)%N.
Proof. unfold term_next. u64_lia. Qed.

Lemma lxor_u64 a b : (a < two64)%N → (b < two64)%N → (N.lxor a b < two64)%N.
Proof.
  intros Ha Hb. destruct (decide (N.lxor a b = 0%N)) as [->|Hne]; [done|].
  change two64 with (2 ^ 64)%N in *.
  apply N.log2_lt_pow2; [lia|].
  eapply N.le_lt_trans; [apply N.log2_lxor|].
  apply N.max_lub_lt.
  - destruct (decide (a = 0%N)) as [->|]; [done|]. apply N.log2_lt_pow2; lia.
  - destruct (decide (b = 0%N)) as [->|]; [done|]. apply N.log2_lt_pow2; lia.
Qed.

Lemma shiftr_u64 a k : (a < two64)%N → (N.shiftr a k < two64)%N.
Proof.
  intros Ha. rewrite N.shiftr_div_pow2.
  eapply N.le_lt_trans; [|exact Ha].
  apply N.Div0.div_le_upper_bound.
  assert (1 <= 2 ^ k)%N by (apply N.neq_0_le_1, N.pow_nonzero; lia).
  rewrite <-(N.mul_1_l a) at 1. by apply N.mul_le_mono_r.
Qed.

(** A draw keeps the generator's state inside the word. *)
Lemma next_u64_range s :
  (s < two64)%N → ((next_u64 s).1 < two64)%N ∧ ((next_u64 s).2 < two64)%N.
Proof.
  intros Hs. unfold next_u64. split.
  - cbv zeta. apply lxor_u64; [|apply shiftr_u64];
      (apply lxor_u64; [|by apply N.mod_lt]);
      (apply lxor_u64; [done|by apply shiftr_u64]).
  - apply N.mod_lt. done.
Qed.

(** [in_range] stays in the half-open interval, or answers [low] when it is
    empty. *)
Lemma in_range_bounds s low high :
  (low < high)%N → (low <= (in_range s low high).2 < high)%N.
Proof.
  intros H. unfold in_range. destruct (N.leb_spec high low); [lia|].
  destruct (next_u64 s) as [s' v]. cbn [snd].
  pose proof (N.mod_lt v (high - low) ltac:(lia)) as Hr.
  generalize dependent (v mod (high - low))%N. lia.
Qed.

Lemma in_range_empty s low high :
  (high <= low)%N → in_range s low high = (s, low).
Proof. intros H. unfold in_range. by rewrite (proj2 (N.leb_le _ _)). Qed.

Lemma saturating_succ j :
  (0 < saturating_add j 1)%N ∧ (saturating_add j 1 <= j + 1)%N.
Proof. split; u64_lia. Qed.

(** The draw of an election timeout: [in_range(0, jitter.saturating_add(1))]
    never exceeds the jitter. *)
Lemma jitter_bounds s jitter :
  ((in_range s 0 (saturating_add jitter 1)).2 <= jitter)%N.
Proof.
  destruct (saturating_succ jitter) as [Hpos Hle].
  assert (∀ a b c : N, (0 <= a < b)%N → (b <= c + 1)%N → (a <= c)%N) as Hstep by lia.
  exact (Hstep _ _ _ (in_range_bounds s 0 _ Hpos) Hle).
Qed.
