(* ===== verification/RaftMembership.v ===== *)
(** * Raft membership, quorums and the durable record types

    Models [src/crates/astrs-raft/src/membership.rs] (who votes, quorum
    arithmetic, single-server changes) and the durable shapes of
    [src/crates/astrs-raft/src/log/entry.rs] ([LogEntry], [HardState],
    [SnapshotMeta], [Snapshot]). *)

From Stdlib Require Import Lia.
From stdpp Require Import base tactics list gmap strings numbers fin_sets.
From S2P Require Import Prelude RaftTypes.

(** ** [Membership]: a [BTreeSet] of voters *)

Record Membership := mkMembership { voters : gset PeerId }.

#[global] Instance membership_eq_dec : EqDecision Membership.
Proof. solve_decision. Defined.

Definition membership_new (ids : list PeerId) : Membership :=
  mkMembership (list_to_set ids).

Definition membership_len (m : Membership) : N := N.of_nat (size (voters m)).

Definition membership_is_empty (m : Membership) : bool :=
  bool_decide (voters m = ∅).

Definition contains (m : Membership) (peer : PeerId) : bool :=
  bool_decide (peer ∈ voters m).

Definition quorum (m : Membership) : N := (membership_len m / 2 + 1)%N.

Definition is_quorum (m : Membership) (votes : N) : bool :=
  negb (membership_is_empty m) && N.leb (quorum m) votes.

(** ** [MembershipChange] *)

Inductive MembershipChange : Set :=
  | Add (peer : PeerId)
  | Remove (peer : PeerId).

Definition change_peer (c : MembershipChange) : PeerId :=
  match c with Add p | Remove p => p end.

Definition apply_change (m : Membership) (change : MembershipChange) :
    result RaftError Membership :=
  match change with
  | Add peer =>
      if bool_decide (peer ∈ voters m)
      then Err (InvalidMembership "that peer is already a voter")
      else Ok (mkMembership ({[peer]} ∪ voters m))
  | Remove peer =>
      if bool_decide (peer ∈ voters m) then
        let next := voters m ∖ {[peer]} in
        if bool_decide (next = ∅)
        then Err (InvalidMembership "removing the last voter would leave no cluster")
        else Ok (mkMembership next)
      else Err (InvalidMembership "that peer is not a voter")
  end.

(** ** [EntryPayload] and [LogEntry] *)

Inductive EntryPayload :=
  | Command (command : list N)
  | Noop
  | Config (membership : Membership).

#[global] Instance payload_eq_dec : EqDecision EntryPayload.
Proof. solve_decision. Defined.

Record LogEntry := mkEntry {
  e_term : Term;
  e_index : LogIndex;
  e_payload : EntryPayload
}.

#[global] Instance entry_eq_dec : EqDecision LogEntry.
Proof. solve_decision. Defined.

Definition entry_config (e : LogEntry) : option Membership :=
  match e_payload e with Config m => Some m | _ => None end.

Definition is_config (e : LogEntry) : bool :=
  match e_payload e with Config _ => true | _ => false end.

(** [Membership::from_entries]: the last configuration entry wins. *)
Definition from_entries (base : Membership) (entries : list LogEntry) : Membership :=
  foldl (λ current entry,
           match e_payload entry with Config m => m | _ => current end)
        base entries.

(** ** [HardState] *)

Record HardState := mkHard {
  h_term : Term;
  h_voted_for : option PeerId
}.

#[global] Instance hard_eq_dec : EqDecision HardState.
Proof. solve_decision. Defined.

Definition hard_default : HardState := mkHard INITIAL None.

Definition has_voted_for (h : HardState) (candidate : PeerId) : bool :=
  bool_decide (h_voted_for h = Some candidate).

Definition can_vote (h : HardState) : bool :=
  match h_voted_for h with None => true | Some _ => false end.

(** ** [SnapshotMeta] and [Snapshot] *)

Record SnapshotMeta := mkMeta {
  s_last_index : LogIndex;
  s_last_term : Term;
  s_membership : Membership
}.

#[global] Instance meta_eq_dec : EqDecision SnapshotMeta.
Proof. solve_decision. Defined.

Definition covers (m : SnapshotMeta) (index : LogIndex) : bool :=
  N.leb index (s_last_index m).

Record Snapshot := mkSnapshot {
  s_meta : SnapshotMeta;
  s_data : list N
}.

#[global] Instance snapshot_eq_dec : EqDecision Snapshot.
Proof. solve_decision. Defined.

(** ** Quorum facts *)

(** A set of voters large enough to decide. *)
Definition majority (m : Membership) (Q : gset PeerId) : Prop :=
  Q ⊆ voters m ∧ is_quorum m (N.of_nat (size Q)) = true.

Lemma is_quorum_spec m votes :
  is_quorum m votes = true ↔ voters m ≠ ∅ ∧ (quorum m <= votes)%N.
Proof.
  unfold is_quorum, membership_is_empty.
  rewrite andb_true_iff, negb_true_iff, bool_decide_eq_false, N.leb_le. done.
Qed.

Lemma quorum_strict m : (membership_len m < 2 * quorum m)%N.
Proof. unfold quorum. divmod_lia. Qed.

Lemma quorum_pos m : (0 < quorum m)%N.
Proof. unfold quorum. generalize (membership_len m / 2)%N. lia. Qed.

Lemma quorum_le_len m : (0 < membership_len m)%N → (quorum m <= membership_len m)%N.
Proof. unfold quorum. divmod_lia. Qed.

(** Two subsets of a finite set whose sizes add up to more than the set's
    size share an element. *)
Lemma subsets_intersect (V A B : gset PeerId) :
  A ⊆ V → B ⊆ V → size V < size A + size B → ∃ x, x ∈ A ∧ x ∈ B.
Proof.
  intros HA HB Hs. destruct (decide (A ∩ B = ∅)) as [E|NE].
  - exfalso. assert (A ## B) as Hd by set_solver.
    pose proof (size_union A B Hd) as Hu.
    pose proof (subseteq_size (A ∪ B) V ltac:(set_solver)). lia.
  - apply set_choose_L in NE as [x Hx]. exists x. set_solver.
Qed.

Lemma majority_size m Q : majority m Q → size (voters m) < 2 * size Q.
Proof.
  intros [_ H]. apply is_quorum_spec in H as [_ H].
  pose proof (quorum_strict m) as Hq. unfold membership_len in Hq. lia.
Qed.

Lemma majorities_intersect m A B :
  majority m A → majority m B → ∃ x, x ∈ A ∧ x ∈ B.
Proof.
  intros HA HB. pose proof (majority_size _ _ HA). pose proof (majority_size _ _ HB).
  destruct HA as [HA _], HB as [HB _]. eapply subsets_intersect; eauto. lia.
Qed.

(** What a successful single-server change does to the voter set. *)
Lemma apply_change_ok m c m' :
  apply_change m c = Ok m' →
  match c with
  | Add p => p ∉ voters m ∧ voters m' = {[p]} ∪ voters m
  | Remove p => p ∈ voters m ∧ voters m' = voters m ∖ {[p]} ∧ voters m' ≠ ∅
  end.
Proof.
  destruct c as [p|p]; simpl; repeat case_bool_decide; intros ?; simplify_eq; done.
Qed.

Lemma apply_change_size m c m' :
  apply_change m c = Ok m' →
  match c with
  | Add _ => size (voters m') = S (size (voters m))
  | Remove _ => size (voters m) = S (size (voters m'))
  end.
Proof.
  intros H%apply_change_ok. destruct c as [p|p].
  - destruct H as [Hn ->]. rewrite size_union by set_solver.
    by rewrite size_singleton.
  - destruct H as (Hi & -> & _).
    rewrite size_difference by set_solver. rewrite size_singleton.
    assert (0 < size (voters m)); [|lia].
    apply Nat.neq_0_lt_0. intros E%size_empty_inv. set_solver.
Qed.

Lemma majority_quorum m Q : majority m Q → (quorum m <= N.of_nat (size Q))%N.
Proof. intros [_ H]. by apply is_quorum_spec in H as [_ H]. Qed.

Lemma majorities_overlap_larger m m' A B :
  voters m ⊆ voters m' → size (voters m') = S (size (voters m)) →
  majority m A → majority m' B → ∃ x, x ∈ A ∧ x ∈ B.
Proof.
  intros Hsub Hsz HA HB.
  pose proof (majority_size _ _ HA). pose proof (majority_size _ _ HB).
  pose proof (majority_quorum _ _ HA) as QA. pose proof (majority_quorum _ _ HB) as QB.
  destruct HA as [HA _], HB as [HB _].
  apply (subsets_intersect (voters m')); [set_solver|done|].
  unfold quorum, membership_len in *. divmod_lia.
Qed.

(** Replaying a configuration-free suffix leaves the base in force. *)
Lemma from_entries_no_config base es :
  Forall (λ e, is_config e = false) es → from_entries base es = base.
Proof.
  unfold from_entries. intros H. revert base.
  induction H as [|e es He _ IH]; intros base; simpl; [done|].
  rewrite IH. unfold is_config in He. by destruct (e_payload e).
Qed.

Lemma from_entries_app base es es' :
  from_entries base (es ++ es') = from_entries (from_entries base es) es'.
Proof. unfold from_entries. by rewrite foldl_app. Qed.

(** C10. A single-server change is safe without joint consensus: any majority
    of the configuration before the change and any majority of the one after
    it share a voter, so two leaders cannot be elected by the two
    configurations independently. *)
Theorem single_server_change_overlaps m c m' A B :
  apply_change m c = Ok m' → majority m A → majority m' B → ∃ x, x ∈ A ∧ x ∈ B.
Proof.
  intros E HA HB. pose proof (apply_change_ok _ _ _ E) as Hok.
  pose proof (apply_change_size _ _ _ E) as Hsz. destruct c as [p|p].
  - destruct Hok as [_ Hv]. apply (majorities_overlap_larger m m'); [set_solver|done..].
  - destruct Hok as (_ & Hv & _).
    destruct (majorities_overlap_larger m' m B A) as (x & ? & ?); [set_solver|done..|].
    by exists x.
Qed.

Lemma single_server_change_overlaps_witness :
  ∃ x : PeerId, x ∈ ({[1; 2]} : gset PeerId)%N ∧ x ∈ ({[2; 3; 4]} : gset PeerId)%N.
Proof.
  apply (single_server_change_overlaps (membership_new [1; 2; 3]%N) (Add 4)
           (membership_new [4; 1; 2; 3]%N)).
  - by vm_compute.
  - split; [|by vm_compute]. intros x. unfold membership_new. simpl. set_solver.
  - split; [|by vm_compute]. intros x. unfold membership_new. simpl. set_solver.
Defined.
