(* ===== verification/RaftLog.v ===== *)
(** * The replicated log: the [LogStore] contract and [MemoryLog]

    Models [src/crates/astrs-raft/src/log/store.rs].  [LogStore] is the trait
    the consensus code is written against, as a type class; [MemoryLog] is
    the in-memory implementation, and at the same time the reference model:
    [LogStoreLaws] says that a store shows the behaviour of a [MemoryLog]
    (its [view]), so the theorems about [RaftNode] hold for every store that
    meets the contract. *)

From Stdlib Require Import Lia.
From stdpp Require Import base tactics list gmap strings numbers.
From S2P Require Import Prelude RaftTypes RaftMembership.

Abbreviation Res := (result RaftError).

(** ** [check_contiguous] *)

Fixpoint check_contiguous_from (expected : LogIndex) (entries : list LogEntry) : Res unit :=
  match entries with
  | [] => Ok tt
  | entry :: rest =>
      if negb (N.eqb (e_index entry) expected)
      then Err (Unavailable (e_index entry) (previous expected))
      else check_contiguous_from (next expected) rest
  end.

Definition check_contiguous (last_idx : LogIndex) (entries : list LogEntry) : Res unit :=
  check_contiguous_from (next last_idx) entries.

(** ** [MemoryLog] *)

Record MemoryLog := mkLog {
  l_hard_state : HardState;
  l_entries : list LogEntry;
  l_snapshot : option Snapshot
}.

Definition memory_log_new : MemoryLog := mkLog hard_default [] None.

Module Mem.

Definition first_index (l : MemoryLog) : LogIndex :=
  match l_snapshot l with
  | Some s => next (s_last_index (s_meta s))
  | None => FIRST
  end.

Definition last_index (l : MemoryLog) : LogIndex :=
  match list.last (l_entries l) with
  | Some entry => e_index entry
  | None =>
      match l_snapshot l with
      | Some s => s_last_index (s_meta s)
      | None => ZERO
      end
  end.

Definition last_term (l : MemoryLog) : Term :=
  match list.last (l_entries l) with
  | Some entry => e_term entry
  | None =>
      match l_snapshot l with
      | Some s => s_last_term (s_meta s)
      | None => INITIAL
      end
  end.

(** The position of an index in the held entries; a [usize] holds every
    [u64] on the 64-bit targets. *)
Definition position (l : MemoryLog) (index : LogIndex) : option nat :=
  if N.ltb index (first_index l) then None
  else Some (N.to_nat (distance_to (first_index l) index)).

Definition hard_state (l : MemoryLog) : HardState := l_hard_state l.

Definition save_hard_state (l : MemoryLog) (state : HardState) : MemoryLog * Res unit :=
  (mkLog state (l_entries l) (l_snapshot l), Ok tt).

Definition append (l : MemoryLog) (entries : list LogEntry) : MemoryLog * Res unit :=
  match check_contiguous (last_index l) entries with
  | Ok _ => (mkLog (l_hard_state l) (l_entries l ++ entries) (l_snapshot l), Ok tt)
  | Err e => (l, Err e)
  end.

Definition truncate_from (l : MemoryLog) (index : LogIndex) : MemoryLog * Res unit :=
  let first := first_index l in
  if N.ltb index first then (l, Err (Compacted index first))
  else match position l index with
       | Some p => (mkLog (l_hard_state l) (take p (l_entries l)) (l_snapshot l), Ok tt)
       | None => (l, Ok tt)
       end.

Definition entry (l : MemoryLog) (index : LogIndex) : Res (option LogEntry) :=
  Ok (position l index ≫= λ p, l_entries l !! p).

Definition entries (l : MemoryLog) (from : LogIndex) (max_entries : N) :
    Res (list LogEntry) :=
  let first := first_index l in
  if N.ltb from first then Err (Compacted from first)
  else match position l from with
       | None => Ok []
       | Some p => Ok (take (N.to_nat max_entries) (drop p (l_entries l)))
       end.

Definition term_at (l : MemoryLog) (index : LogIndex) : Res (option Term) :=
  if is_empty_sentinel index then Ok (Some INITIAL)
  else match l_snapshot l with
       | Some s =>
           if N.eqb (s_last_index (s_meta s)) index
           then Ok (Some (s_last_term (s_meta s)))
           else let? e := entry l index in Ok (e_term <$> e)
       | None => let? e := entry l index in Ok (e_term <$> e)
       end.

Definition snapshot_meta (l : MemoryLog) : option SnapshotMeta :=
  s_meta <$> l_snapshot l.

Definition snapshot (l : MemoryLog) : Res (option Snapshot) := Ok (l_snapshot l).

Definition save_snapshot (l : MemoryLog) (s : Snapshot) : MemoryLog * Res unit :=
  let boundary := s_last_index (s_meta s) in
  let stale := match l_snapshot l with
               | Some existing => N.ltb boundary (s_last_index (s_meta existing))
               | None => false
               end in
  if stale then (l, Err (InvalidConfig "a newer snapshot is already held"))
  else
    let keep_from := next boundary in
    (mkLog (l_hard_state l)
           (filter (λ e, (keep_from <= e_index e)%N) (l_entries l))
           (Some s), Ok tt).

Definition install_snapshot (l : MemoryLog) (s : Snapshot) : MemoryLog * Res unit :=
  (mkLog (l_hard_state l) [] (Some s), Ok tt).

Definition sync (l : MemoryLog) : MemoryLog * Res unit := (l, Ok tt).

End Mem.

(** ** The [LogStore] trait *)

Class LogStore (L : Type) := {
  hard_state : L → HardState;
  save_hard_state : L → HardState → L * Res unit;
  append : L → list LogEntry → L * Res unit;
  truncate_from : L → LogIndex → L * Res unit;
  entry : L → LogIndex → Res (option LogEntry);
  entries : L → LogIndex → N → Res (list LogEntry);
  term_at : L → LogIndex → Res (option Term);
  first_index : L → LogIndex;
  last_index : L → LogIndex;
  last_term : L → Term;
  snapshot_meta : L → option SnapshotMeta;
  snapshot : L → Res (option Snapshot);
  save_snapshot : L → Snapshot → L * Res unit;
  install_snapshot : L → Snapshot → L * Res unit;
  sync : L → L * Res unit
}.

#[global] Instance MemoryLog_LogStore : LogStore MemoryLog := {
  hard_state := Mem.hard_state;
  save_hard_state := Mem.save_hard_state;
  append := Mem.append;
  truncate_from := Mem.truncate_from;
  entry := Mem.entry;
  entries := Mem.entries;
  term_at := Mem.term_at;
  first_index := Mem.first_index;
  last_index := Mem.last_index;
  last_term := Mem.last_term;
  snapshot_meta := Mem.snapshot_meta;
  snapshot := Mem.snapshot;
  save_snapshot := Mem.save_snapshot;
  install_snapshot := Mem.install_snapshot;
  sync := Mem.sync
}.

(** ** The contract of a store

    [mutates v op ov]: a mutating call either did what the reference does and
    reported what it reports, or failed (an I/O error) having left the view
    unchanged or already updated. *)

Definition mutates (v : MemoryLog) (view' : MemoryLog) (r : Res unit)
    (reference : MemoryLog * Res unit) : Prop :=
  (view' = reference.1 ∧ r = reference.2) ∨
  ((view' = v ∨ view' = reference.1) ∧ ∃ e, r = Err e).

Class LogStoreLaws (L : Type) `{LogStore L} := {
  view : L → MemoryLog;
  view_hard_state l : hard_state l = Mem.hard_state (view l);
  view_entry l i : entry l i = Mem.entry (view l) i;
  view_entries l i n : entries l i n = Mem.entries (view l) i n;
  view_term_at l i : term_at l i = Mem.term_at (view l) i;
  view_first_index l : first_index l = Mem.first_index (view l);
  view_last_index l : last_index l = Mem.last_index (view l);
  view_last_term l : last_term l = Mem.last_term (view l);
  view_snapshot_meta l : snapshot_meta l = Mem.snapshot_meta (view l);
  view_snapshot l : snapshot l = Mem.snapshot (view l);
  save_hard_state_law l h :
    mutates (view l) (view (save_hard_state l h).1) (save_hard_state l h).2
            (Mem.save_hard_state (view l) h);
  append_law l es :
    mutates (view l) (view (append l es).1) (append l es).2 (Mem.append (view l) es);
  truncate_from_law l i :
    mutates (view l) (view (truncate_from l i).1) (truncate_from l i).2
            (Mem.truncate_from (view l) i);
  save_snapshot_law l s :
    mutates (view l) (view (save_snapshot l s).1) (save_snapshot l s).2
            (Mem.save_snapshot (view l) s);
  install_snapshot_law l s :
    mutates (view l) (view (install_snapshot l s).1) (install_snapshot l s).2
            (Mem.install_snapshot (view l) s)
}.

#[global] Instance MemoryLog_laws : LogStoreLaws MemoryLog.
Proof.
  refine {| view := id |}; intros; try reflexivity; left; done.
Defined.

(** ** Well-formed logs

    Entries are contiguous from the compaction boundary, terms never decrease
    along the log, and every index is a representable one. *)

Definition boundary_index (l : MemoryLog) : LogIndex :=
  match l_snapshot l with Some s => s_last_index (s_meta s) | None => 0%N end.

Fixpoint contiguous_from (i : N) (es : list LogEntry) : Prop :=
  match es with
  | [] => True
  | e :: es' => e_index e = i ∧ contiguous_from (i + 1) es'
  end.

Definition log_wf (l : MemoryLog) : Prop :=
  contiguous_from (boundary_index l + 1) (l_entries l) ∧
  (boundary_index l + N.of_nat (length (l_entries l)) < u64_max)%N.

(** *** Contiguity *)

Lemma contiguous_from_lookup i es k e :
  contiguous_from i es → es !! k = Some e → e_index e = (i + N.of_nat k)%N.
Proof.
  revert i k. induction es as [|x es IH]; intros i k Hc Hk; [done|].
  destruct Hc as [Hx Hc]. destruct k as [|k]; simpl in Hk; simplify_eq; [lia|].
  rewrite (IH _ _ Hc Hk). lia.
Qed.

Lemma contiguous_from_app i es es' :
  contiguous_from i (es ++ es') ↔
  contiguous_from i es ∧ contiguous_from (i + N.of_nat (length es)) es'.
Proof.
  revert i. induction es as [|x es IH]; intros i; simpl.
  - rewrite N.add_0_r. tauto.
  - rewrite IH. replace (i + N.of_nat (S (length es)))%N
      with (i + 1 + N.of_nat (length es))%N by lia. tauto.
Qed.

Lemma contiguous_from_take i es k : contiguous_from i es → contiguous_from i (take k es).
Proof.
  intros H. rewrite <-(take_drop k es) in H. by apply contiguous_from_app in H as [H _].
Qed.

Lemma check_contiguous_from_spec x es :
  (x + N.of_nat (length es) <= u64_max)%N →
  check_contiguous_from x es = Ok tt ↔ contiguous_from x es.
Proof.
  revert x. induction es as [|e es IH]; intros x Hb; simpl in *; [done|].
  destruct (N.eqb_spec (e_index e) x) as [->|]; simpl.
  - rewrite next_lt by lia. rewrite IH by lia. tauto.
  - split; [done|tauto].
Qed.

Lemma last_index_wf l :
  log_wf l → Mem.last_index l = (boundary_index l + N.of_nat (length (l_entries l)))%N.
Proof.
  intros [Hc Hb]. unfold Mem.last_index.
  destruct (list.last (l_entries l)) as [e|] eqn:E.
  - rewrite list.last_lookup in E. rewrite (contiguous_from_lookup _ _ _ _ Hc E).
    apply lookup_lt_Some in E. lia.
  - apply list.last_None in E. rewrite E. unfold boundary_index, ZERO. destruct (l_snapshot l); simpl; lia.
Qed.

Lemma first_index_wf l : log_wf l → Mem.first_index l = (boundary_index l + 1)%N.
Proof.
  intros [_ Hb]. unfold Mem.first_index, boundary_index in *.
  destruct (l_snapshot l); [|done]. apply next_lt. lia.
Qed.

(** The entry at an index of a well-formed log, as list lookup. *)
Lemma entry_wf l i :
  log_wf l →
  Mem.entry l i =
    Ok (if N.leb i (boundary_index l) then None
        else l_entries l !! N.to_nat (i - boundary_index l - 1)).
Proof.
  intros Hwf. unfold Mem.entry, Mem.position, distance_to, saturating_sub.
  rewrite (first_index_wf _ Hwf).
  destruct (N.ltb_spec i (boundary_index l + 1)), (N.leb_spec i (boundary_index l));
    try lia; simpl; [done|]. do 2 f_equal. lia.
Qed.

Lemma entry_index_wf l i e :
  log_wf l → Mem.entry l i = Ok (Some e) → e_index e = i.
Proof.
  intros Hwf. rewrite (entry_wf _ _ Hwf). intros [= H].
  destruct (N.leb_spec i (boundary_index l)); [done|].
  rewrite (contiguous_from_lookup _ _ _ _ (proj1 Hwf) H). lia.
Qed.

(** *** Every operation keeps a log well-formed *)

Lemma save_hard_state_wf l h : log_wf l → log_wf (Mem.save_hard_state l h).1.
Proof. done. Qed.

Lemma append_wf l es :
  log_wf l → (Mem.last_index l + N.of_nat (length es) < u64_max)%N →
  log_wf (Mem.append l es).1.
Proof.
  intros Hwf Hb. unfold Mem.append.
  destruct (check_contiguous _ es) as [[]|] eqn:E; [|done].
  rewrite (last_index_wf _ Hwf) in *. unfold check_contiguous in E.
  rewrite next_lt in E by lia.
  apply check_contiguous_from_spec in E; [|lia].
  destruct Hwf as [Hc _]. split; simpl; unfold boundary_index in *; simpl.
  - apply contiguous_from_app. split; [done|].
    by replace (_ + 1 + N.of_nat (length (l_entries l)))%N
      with (match l_snapshot l with Some s => s_last_index (s_meta s) | None => 0 end +
            N.of_nat (length (l_entries l)) + 1)%N by lia.
  - rewrite length_app. lia.
Qed.

Lemma truncate_from_wf l i : log_wf l → log_wf (Mem.truncate_from l i).1.
Proof.
  intros Hwf. unfold Mem.truncate_from. destruct (N.ltb _ _); [done|].
  destruct (Mem.position l i) as [p|]; [|done].
  destruct Hwf as [Hc Hb]. split; simpl.
  - by apply contiguous_from_take.
  - unfold boundary_index in *. simpl. rewrite length_take. lia.
Qed.

(** Keeping the entries past a boundary of a contiguous run is dropping a
    prefix of it. *)
Lemma filter_contiguous i es k :
  contiguous_from i es → (i <= k)%N →
  filter (λ e, (k <= e_index e)%N) es = drop (N.to_nat (k - i)) es.
Proof.
  revert i. induction es as [|e es IH]; intros i Hc Hk; [by rewrite drop_nil|].
  destruct Hc as [He Hc]. rewrite filter_cons. case_decide as Hd.
  - replace k with i by lia. rewrite N.sub_diag. simpl. f_equal.
    destruct (decide (i = k)) as [<-|]; [|lia].
    clear IH Hd He Hk. assert (∀ j, (i < j)%N → contiguous_from j es →
      filter (λ e, (i <= e_index e)%N) es = es) as Hall.
    { clear Hc. induction es as [|e' es IH']; intros j Hj Hc; [done|].
      destruct Hc as [He' Hc]. rewrite filter_cons_True by lia. f_equal.
      eapply (IH' (j + 1)%N); [lia|done]. }
    eapply (Hall (i + 1)%N); [lia|done].
  - rewrite (IH _ Hc) by lia.
    replace (N.to_nat (k - i)) with (S (N.to_nat (k - (i + 1)))) by lia. done.
Qed.

Lemma contiguous_from_drop i es k :
  contiguous_from i es → contiguous_from (i + N.of_nat k) (drop k es).
Proof.
  revert i k. induction es as [|e es IH]; intros i k Hc; [by destruct k|].
  destruct k as [|k]; simpl drop; [by rewrite N.add_0_r|].
  destruct Hc as [_ Hc]. replace (i + N.of_nat (S k))%N with (i + 1 + N.of_nat k)%N by lia.
  by apply IH.
Qed.

Lemma save_snapshot_wf l s :
  log_wf l → (s_last_index (s_meta s) <= Mem.last_index l)%N →
  log_wf (Mem.save_snapshot l s).1.
Proof.
  intros Hwf Hle. rewrite (last_index_wf _ Hwf) in Hle.
  unfold Mem.save_snapshot. split_match; [done|].
  assert (boundary_index l <= s_last_index (s_meta s))%N as Hge.
  { unfold boundary_index. destruct (l_snapshot l); [|lia]. by bool_to_prop. }
  destruct Hwf as [Hc Hb]. rewrite next_lt by lia.
  split; cbn [fst l_entries boundary_index l_snapshot].
  - rewrite (filter_contiguous _ _ _ Hc) by lia.
    pose proof (contiguous_from_drop _ _
      (N.to_nat (s_last_index (s_meta s) + 1 - (boundary_index l + 1))) Hc) as Hd.
    by replace (boundary_index l + 1 + N.of_nat _)%N
      with (s_last_index (s_meta s) + 1)%N in Hd by lia.
  - rewrite (filter_contiguous _ _ _ Hc) by lia. rewrite length_drop. lia.
Qed.

Lemma install_snapshot_wf l s :
  (s_last_index (s_meta s) < u64_max)%N → log_wf (Mem.install_snapshot l s).1.
Proof. intros H. split; simpl; [done|]. unfold boundary_index. simpl. lia. Qed.

#[export] Hint Resolve save_hard_state_wf append_wf truncate_from_wf
  save_snapshot_wf install_snapshot_wf : keeps.

(** *** Term lookup on a well-formed log *)

Definition boundary_term (l : MemoryLog) : Term :=
  match l_snapshot l with Some s => s_last_term (s_meta s) | None => INITIAL end.

Lemma term_at_wf l i :
  log_wf l →
  Mem.term_at l i =
    Ok (if N.eqb i 0 then Some INITIAL
        else if N.eqb i (boundary_index l) then Some (boundary_term l)
        else if N.ltb i (boundary_index l) then None
        else e_term <$> l_entries l !! N.to_nat (i - boundary_index l - 1)).
Proof.
  intros Hwf. unfold Mem.term_at, is_empty_sentinel.
  rewrite (entry_wf _ _ Hwf). unfold boundary_index, boundary_term.
  destruct (N.eqb_spec i 0); [done|].
  destruct (l_snapshot l) as [s|]; simpl.
  - rewrite (N.eqb_sym i). destruct (N.eqb_spec (s_last_index (s_meta s)) i); [done|].
    destruct (N.leb_spec i (s_last_index (s_meta s))),
      (N.ltb_spec i (s_last_index (s_meta s))); try lia; done.
  - destruct (N.eqb_spec i 0), (N.leb_spec i 0), (N.ltb_spec i 0); try lia. done.
Qed.

Lemma term_at_none_past_end l i :
  log_wf l → (Mem.last_index l < i)%N → Mem.term_at l i = Ok None.
Proof.
  intros Hwf Hi. rewrite (term_at_wf _ _ Hwf). rewrite (last_index_wf _ Hwf) in Hi.
  destruct (N.eqb_spec i 0); [lia|]. destruct (N.eqb_spec i (boundary_index l)); [lia|].
  destruct (N.ltb_spec i (boundary_index l)); [done|].
  rewrite lookup_ge_None_2 by lia. done.
Qed.

(** ** Contiguity without a bound on the log

    Indices saturate at the top of the [u64] range.  [log_contiguous] is the
    code's own check applied to everything the log holds; it needs no bound
    and every operation keeps it. *)

Definition log_contiguous (l : MemoryLog) : Prop :=
  check_contiguous (boundary_index l) (l_entries l) = Ok tt.

(** The index [k] steps after [x]. *)
Definition advance (x : LogIndex) (k : nat) : LogIndex := Nat.iter k next x.

Lemma advance_next x k : advance (next x) k = next (advance x k).
Proof. unfold advance. by rewrite <-Nat.iter_succ_r. Qed.

Lemma advance_bound x k :
  is_u64 x → advance x k = N.min (x + N.of_nat k) u64_max.
Proof.
  intros Hx. induction k as [|k IH]; simpl; [u64_lia|].
  fold (advance x k). rewrite IH. unfold next. u64_lia.
Qed.

Lemma check_from_cons x e es :
  check_contiguous_from x (e :: es) = Ok tt ↔
  e_index e = x ∧ check_contiguous_from (next x) es = Ok tt.
Proof.
  simpl. destruct (N.eqb_spec (e_index e) x); simpl; [tauto|]. split; [done|tauto].
Qed.

Lemma check_from_app x es es' :
  check_contiguous_from x (es ++ es') = Ok tt ↔
  check_contiguous_from x es = Ok tt ∧
  check_contiguous_from (advance x (length es)) es' = Ok tt.
Proof.
  revert x. induction es as [|e es IH]; intros x; [simpl; tauto|].
  change ((e :: es) ++ es') with (e :: (es ++ es')).
  rewrite !check_from_cons, IH. cbn [length].
  change (advance x (S (length es))) with (next (advance x (length es))).
  rewrite advance_next. tauto.
Qed.

Lemma check_from_lookup x es k e :
  check_contiguous_from x es = Ok tt → es !! k = Some e → e_index e = advance x k.
Proof.
  intros Hc Hk. rewrite <-(take_drop_middle _ _ _ Hk) in Hc.
  apply check_from_app in Hc as [_ Hc]. apply check_from_cons in Hc as [-> _].
  rewrite length_take_le; [done|]. apply lookup_lt_Some in Hk. lia.
Qed.

Lemma check_from_ge x es :
  check_contiguous_from x es = Ok tt → is_u64 x → Forall (λ e, (x <= e_index e)%N) es.
Proof.
  intros Hc Hx. apply Forall_lookup. intros k e Hk.
  rewrite (check_from_lookup _ _ _ _ Hc Hk), advance_bound by done. u64_lia.
Qed.

(** Keeping the entries from an index on is keeping a suffix. *)
Lemma check_from_filter x k es :
  check_contiguous_from x es = Ok tt → is_u64 k → (x <= k)%N →
  check_contiguous_from k (filter (λ e, (k <= e_index e)%N) es) = Ok tt.
Proof.
  revert x. induction es as [|e es IH]; intros x Hc Hk Hle; [done|].
  pose proof Hc as Hall. apply check_from_cons in Hc as [He Hc]. rewrite filter_cons.
  case_decide as Hd.
  - assert (x = k) as -> by lia. apply check_from_cons. split; [done|].
    rewrite filter_all; [done|].
    apply check_from_ge in Hall; [|done]. by apply Forall_cons_1 in Hall as [_ ?].
  - apply (IH (next x)); [done|done|]. unfold next. u64_lia.
Qed.

Lemma next_last_index l :
  log_contiguous l →
  next (Mem.last_index l) = advance (next (boundary_index l)) (length (l_entries l)).
Proof.
  intros Hc. unfold Mem.last_index. destruct (list.last (l_entries l)) as [e|] eqn:E.
  - rewrite list.last_lookup in E. rewrite (check_from_lookup _ _ _ _ Hc E).
    apply lookup_lt_Some in E. destruct (length (l_entries l)); [lia|done].
  - apply list.last_None in E. rewrite E. unfold boundary_index. simpl.
    by destruct (l_snapshot l).
Qed.

(** The operations of the store, as data. *)
Inductive LogOp :=
  | OpSaveHardState (h : HardState)
  | OpAppend (es : list LogEntry)
  | OpTruncateFrom (i : LogIndex)
  | OpSaveSnapshot (s : Snapshot)
  | OpInstallSnapshot (s : Snapshot).

Definition run_log_op (l : MemoryLog) (o : LogOp) : MemoryLog * Res unit :=
  match o with
  | OpSaveHardState h => Mem.save_hard_state l h
  | OpAppend es => Mem.append l es
  | OpTruncateFrom i => Mem.truncate_from l i
  | OpSaveSnapshot s => Mem.save_snapshot l s
  | OpInstallSnapshot s => Mem.install_snapshot l s
  end.

(** A snapshot's boundary is a [u64]. *)
Definition log_op_ok (o : LogOp) : Prop :=
  match o with
  | OpSaveSnapshot s | OpInstallSnapshot s => is_u64 (s_last_index (s_meta s))
  | _ => True
  end.

Definition log_ok (l : MemoryLog) : Prop := log_contiguous l ∧ is_u64 (boundary_index l).

Lemma run_log_op_ok l o : log_op_ok o → log_ok l → log_ok (run_log_op l o).1.
Proof.
  intros Ho [Hc Hu]. destruct o as [h|es|i|s|s]; simpl in *.
  - done.
  - unfold Mem.append. destruct (check_contiguous _ es) as [[]|] eqn:E; [|done].
    split; [|done]. apply check_from_app. split; [done|].
    unfold check_contiguous in E. by rewrite next_last_index in E.
  - unfold Mem.truncate_from. destruct (N.ltb _ _); [done|].
    destruct (Mem.position l i) as [p|]; [|done]. split; [|done].
    unfold log_contiguous, check_contiguous in *. simpl.
    rewrite <-(take_drop p (l_entries l)) in Hc. by apply check_from_app in Hc as [Hc _].
  - unfold Mem.save_snapshot. split_match; [done|]. split; [|done].
    eapply check_from_filter; [exact Hc|unfold next; u64_lia|].
    unfold boundary_index, next. destruct (l_snapshot l); bool_to_prop; u64_lia.
  - done.
Qed.

Definition run_log_ops (l : MemoryLog) (ops : list LogOp) : MemoryLog :=
  foldl (λ l o, (run_log_op l o).1) l ops.

Lemma run_log_ops_ok ops l : Forall log_op_ok ops → log_ok l → log_ok (run_log_ops l ops).
Proof.
  intros Hops. revert l. induction Hops as [|o ops Ho _ IH]; intros l Hl; [done|].
  apply IH. by apply run_log_op_ok.
Qed.

Lemma log_ok_new : log_ok memory_log_new.
Proof. by vm_compute. Qed.

Lemma first_index_next l : Mem.first_index l = next (boundary_index l).
Proof. unfold Mem.first_index, boundary_index. by destruct (l_snapshot l). Qed.

Lemma entry_reads_index l i e :
  log_ok l → is_u64 i → Mem.entry l i = Ok (Some e) → e_index e = i.
Proof.
  intros [Hc Hu] Hi. unfold Mem.entry, Mem.position. rewrite first_index_next.
  destruct (N.ltb_spec i (next (boundary_index l))); [done|]. intros [= He].
  rewrite (check_from_lookup _ _ _ _ Hc He), advance_bound by (unfold next; u64_lia).
  unfold distance_to. u64_lia.
Qed.

(** Whatever sequence of appends, truncations, compactions and snapshot
    installations a log goes through, failed ones included, a read of index
    [i] returns an entry that carries index [i]. *)
Theorem log_reads_its_index ops i e :
  Forall log_op_ok ops → is_u64 i →
  Mem.entry (run_log_ops memory_log_new ops) i = Ok (Some e) → e_index e = i.
Proof. intros Hops. apply entry_reads_index. apply run_log_ops_ok; [done|apply log_ok_new]. Qed.

Definition sample_entries : list LogEntry :=
  (λ i, mkEntry 1 i (Command [i])) <$> [1; 2; 3; 4]%N.

Definition sample_snapshot : Snapshot :=
  mkSnapshot (mkMeta 2 1 (membership_new [1; 2; 3]%N)) [].

Lemma log_reads_its_index_witness : e_index (mkEntry 1 3 (Command [3%N])) = 3%N.
Proof.
  apply (log_reads_its_index
           [OpAppend sample_entries; OpSaveSnapshot sample_snapshot; OpTruncateFrom 4]).
  - repeat constructor; vm_compute; discriminate.
  - vm_compute. discriminate.
  - vm_compute. reflexivity.
Defined.

(** ** What each mutation does to reads *)

Lemma boundary_snapshot h es s :
  boundary_index (mkLog h es (Some s)) = s_last_index (s_meta s).
Proof. reflexivity. Qed.

Lemma wf_entry_last l i e : log_wf l → Mem.entry l i = Ok (Some e) → (i <= Mem.last_index l)%N.
Proof.
  intros Hwf. rewrite (entry_wf _ _ Hwf), (last_index_wf _ Hwf). intros [= H].
  destruct (N.leb_spec i (boundary_index l)); [done|]. apply lookup_lt_Some in H. lia.
Qed.

Lemma append_ok_contiguous l es l' :
  log_wf l → (Mem.last_index l + N.of_nat (length es) < u64_max)%N →
  Mem.append l es = (l', Ok tt) →
  contiguous_from (Mem.last_index l + 1) es ∧
  l' = mkLog (l_hard_state l) (l_entries l ++ es) (l_snapshot l) ∧ log_wf l'.
Proof.
  intros Hwf Hb E. pose proof (append_wf l es Hwf Hb) as Hwf'. rewrite E in Hwf'.
  unfold Mem.append, check_contiguous in E. rewrite next_lt in E by lia.
  destruct (check_contiguous_from _ es) as [[]|] eqn:Ec; [|done]. simplify_eq.
  split; [|done]. apply check_contiguous_from_spec in Ec; [done|lia].
Qed.

(** A successful append extends the log by exactly the entries given:
    each of them is read back under its own index, every index the log
    already covered reads as before, and the last index moves by their
    number. *)
Theorem append_reads_back l es l' :
  log_wf l → (Mem.last_index l + N.of_nat (length es) < u64_max)%N →
  Mem.append l es = (l', Ok tt) →
  Mem.last_index l' = (Mem.last_index l + N.of_nat (length es))%N ∧
  (∀ e, e ∈ es → Mem.entry l' (e_index e) = Ok (Some e)) ∧
  (∀ i, (i <= Mem.last_index l)%N →
     Mem.entry l' i = Mem.entry l i ∧ Mem.term_at l' i = Mem.term_at l i).
Proof.
  intros Hwf Hb E. destruct (append_ok_contiguous _ _ _ Hwf Hb E) as (Hc & -> & Hwf').
  pose proof (last_index_wf _ Hwf) as HL. pose proof (last_index_wf _ Hwf') as HL'.
  unfold boundary_index in HL'. simpl in HL'. rewrite length_app in HL'.
  fold (boundary_index l) in HL'.
  split; [rewrite HL', HL; lia|]. split.
  - intros e [k Hk]%list_elem_of_lookup_1.
    pose proof (contiguous_from_lookup _ _ _ _ Hc Hk) as Ek.
    rewrite (entry_wf _ _ Hwf'). unfold boundary_index. simpl. fold (boundary_index l).
    rewrite HL in Ek. destruct (N.leb_spec (e_index e) (boundary_index l)); [lia|].
    f_equal. rewrite lookup_app_r by lia.
    by replace (N.to_nat _ - length (l_entries l)) with k by lia.
  - intros i Hi. rewrite (term_at_wf _ _ Hwf), (term_at_wf _ _ Hwf').
    rewrite (entry_wf _ _ Hwf), (entry_wf _ _ Hwf').
    unfold boundary_index, boundary_term. simpl.
    fold (boundary_index l) (boundary_term l).
    destruct (N.leb_spec i (boundary_index l)).
    + split; [done|]. destruct (N.eqb_spec i 0); [done|].
      destruct (N.eqb_spec i (boundary_index l)); [done|].
      destruct (N.ltb_spec i (boundary_index l)); [done|lia].
    + by rewrite lookup_app_l by lia.
Qed.

Lemma append_reads_back_witness :
  Mem.entry (mkLog hard_default sample_entries None) 2
    = Ok (Some (mkEntry 1 2 (Command [2%N]))).
Proof.
  refine (proj1 (proj2 (append_reads_back memory_log_new sample_entries
            (mkLog hard_default sample_entries None) _ _ _)) (mkEntry 1 2 (Command [2%N])) _).
  - by vm_compute.
  - by vm_compute.
  - by vm_compute.
  - vm_compute. right. left.
Defined.

(** Truncating from an uncompacted index removes exactly the entries
    from that index on; truncating at or below the compaction boundary is
    refused and changes nothing. *)
Theorem truncate_removes_the_suffix l i :
  log_wf l →
  let '(l', r) := Mem.truncate_from l i in
  if N.leb i (boundary_index l)
  then l' = l ∧ r = Err (Compacted i (boundary_index l + 1))
  else r = Ok tt ∧ Mem.last_index l' = N.min (Mem.last_index l) (i - 1) ∧
       ∀ j, Mem.entry l' j = if N.ltb j i then Mem.entry l j else Ok None.
Proof.
  intros Hwf. pose proof (truncate_from_wf l i Hwf) as Hwf'. revert Hwf'.
  unfold Mem.truncate_from, Mem.position. rewrite (first_index_wf _ Hwf).
  destruct (N.leb_spec i (boundary_index l)), (N.ltb_spec i (boundary_index l + 1));
    try lia; intros Hwf'; simpl in Hwf'; [done|].
  split; [done|]. unfold distance_to, saturating_sub in *.
  rewrite (last_index_wf _ Hwf), (last_index_wf _ Hwf').
  split; [unfold boundary_index; simpl; fold (boundary_index l); rewrite length_take; lia|].
  intros j. rewrite (entry_wf _ _ Hwf), (entry_wf _ _ Hwf').
  unfold boundary_index; simpl; fold (boundary_index l).
  destruct (N.leb_spec j (boundary_index l)), (N.ltb_spec j i); try lia; try done; f_equal.
  - rewrite lookup_take_lt by lia. done.
  - rewrite lookup_take_ge by lia. done.
Qed.

Lemma truncate_removes_the_suffix_witness :
  (Mem.truncate_from (mkLog hard_default sample_entries None) 3).2 = Ok tt.
Proof.
  pose proof (truncate_removes_the_suffix (mkLog hard_default sample_entries None) 3) as H.
  apply H. by vm_compute.
Defined.

(** Compacting a prefix of the log leaves every later index readable as
    before, answers the snapshot's term at its boundary, and refuses reads
    below it as compacted; a snapshot older than the one held is refused. *)
Theorem save_snapshot_keeps_the_suffix l s :
  log_wf l → (s_last_index (s_meta s) <= Mem.last_index l)%N →
  let '(l', r) := Mem.save_snapshot l s in
  let b := s_last_index (s_meta s) in
  if N.ltb b (boundary_index l) then l' = l ∧ ∃ e, r = Err e
  else r = Ok tt ∧ Mem.last_index l' = Mem.last_index l ∧
       (∀ i, (b < i)%N → Mem.entry l' i = Mem.entry l i) ∧
       ((0 < b)%N → Mem.term_at l' b = Ok (Some (s_last_term (s_meta s)))) ∧
       (∀ i k, (i <= b)%N → Mem.entries l' i k = Err (Compacted i (b + 1))).
Proof.
  intros Hwf Hle. pose proof (save_snapshot_wf l s Hwf Hle) as Hwf'. revert Hwf'.
  pose proof Hwf as [Hc Hb]. rewrite (last_index_wf _ Hwf) in Hle |- *.
  assert (match l_snapshot l with
          | Some ex => N.ltb (s_last_index (s_meta s)) (s_last_index (s_meta ex))
          | None => false end = N.ltb (s_last_index (s_meta s)) (boundary_index l)) as Est.
  { unfold boundary_index. destruct (l_snapshot l); [done|].
    by destruct (N.ltb_spec (s_last_index (s_meta s)) 0); [lia|]. }
  unfold Mem.save_snapshot. rewrite Est.
  destruct (N.ltb_spec (s_last_index (s_meta s)) (boundary_index l)) as [Hlt|Hge]; intros Hwf'.
  { split; [done|eauto]. }
  simpl in Hwf'. rewrite next_lt in * by lia.
  rewrite (filter_contiguous _ _ _ Hc) in * by lia.
  split; [done|]. split.
  { rewrite (last_index_wf _ Hwf'). unfold boundary_index at 1. simpl. rewrite length_drop. lia. }
  split; [|split].
  - intros i Hi. rewrite (entry_wf _ _ Hwf), (entry_wf _ _ Hwf').
    rewrite boundary_snapshot. cbn [l_entries].
    destruct (N.leb_spec i (s_last_index (s_meta s))), (N.leb_spec i (boundary_index l));
      try lia. f_equal. rewrite lookup_drop. f_equal. lia.
  - intros Hpos. rewrite (term_at_wf _ _ Hwf'). unfold boundary_index, boundary_term. simpl.
    destruct (N.eqb_spec (s_last_index (s_meta s)) 0); [lia|].
    by rewrite N.eqb_refl.
  - intros i k Hi. unfold Mem.entries. rewrite (first_index_wf _ Hwf').
    unfold boundary_index. simpl.
    destruct (N.ltb_spec i (s_last_index (s_meta s) + 1)); [done|lia].
Qed.

Lemma save_snapshot_keeps_the_suffix_witness :
  (Mem.save_snapshot (mkLog hard_default sample_entries None) sample_snapshot).2 = Ok tt.
Proof.
  pose proof (save_snapshot_keeps_the_suffix
                (mkLog hard_default sample_entries None) sample_snapshot) as H.
  apply H; vm_compute; [done|discriminate].
Defined.
