(* ===== verification/RaftMachine.v ===== *)
(** * The replicated state machine

    Models [src/crates/astrs-raft/src/state_machine.rs]: the [StateMachine]
    trait a caller plugs into a replica, as a type class, and the in-memory
    implementation.  The byte encoding of a snapshot belongs to the external
    [oxicode] crate and is a parameter. *)

From Stdlib Require Import Lia.
From stdpp Require Import base tactics list gmap strings numbers.
From S2P Require Import Prelude RaftTypes.

(** ** The trait *)

Class StateMachine (M : Type) := {
  sm_apply : M → LogIndex → list N → M * result string (list N);
  sm_snapshot : M → result string (list N);
  sm_restore : M → list N → M * result string unit;
  sm_applied_index : M → LogIndex
}.

(** ** [MemoryStateMachine] *)

Record MemoryStateMachine := mkMachine {
  m_commands : list (list N);
  m_last_applied : LogIndex
}.

Definition machine_new : MemoryStateMachine := mkMachine [] ZERO.

(** The codec of a snapshot body: [oxicode]'s encoding of a
    [(u64, Vec<Vec<u8>>)]. *)
Class SnapshotCodec := {
  encode_snapshot : N * list (list N) → result string (list N);
  decode_snapshot : list N → result string (N * list (list N))
}.

(** What the state machine relies on: a decoded encoding is the original. *)
Class SnapshotCodecLaws `{SnapshotCodec} := {
  decode_encode v bytes : encode_snapshot v = Ok bytes → decode_snapshot bytes = Ok v
}.

Section memory_machine.
Context `{SnapshotCodec}.

Definition machine_apply_command (m : MemoryStateMachine) (index : LogIndex)
    (command : list N) : MemoryStateMachine * result string (list N) :=
  (mkMachine (m_commands m ++ [command]) index, Ok command).

Definition machine_snapshot (m : MemoryStateMachine) : result string (list N) :=
  encode_snapshot (m_last_applied m, m_commands m).

Definition machine_restore_from (m : MemoryStateMachine) (bytes : list N) :
    MemoryStateMachine * result string unit :=
  match decode_snapshot bytes with
  | Ok (last_applied, commands) => (mkMachine commands last_applied, Ok tt)
  | Err e => (m, Err e)
  end.

#[global] Instance MemoryStateMachine_StateMachine : StateMachine MemoryStateMachine := {
  sm_apply := machine_apply_command;
  sm_snapshot := machine_snapshot;
  sm_restore := machine_restore_from;
  sm_applied_index := m_last_applied
}.
End memory_machine.

(** ** A concrete codec

    Length-prefixed lists of numbers: an instance of the codec interface, for
    evaluating the model. *)

Definition plain_encode (v : N * list (list N)) : list N :=
  v.1 :: mjoin ((λ c, N.of_nat (length c) :: c) <$> v.2).

Fixpoint plain_decode_chunks (fuel : nat) (bytes : list N) : option (list (list N)) :=
  match fuel, bytes with
  | _, [] => Some []
  | O, _ :: _ => None
  | S fuel, len :: rest =>
      let k := N.to_nat len in
      if bool_decide (k <= length rest) then
        cons (take k rest) <$> plain_decode_chunks fuel (drop k rest)
      else None
  end.

#[global] Instance plain_codec : SnapshotCodec := {
  encode_snapshot v := Ok (plain_encode v);
  decode_snapshot bytes :=
    match bytes with
    | [] => Err "empty snapshot"%string
    | i :: rest =>
        match plain_decode_chunks (length rest) rest with
        | Some cs => Ok (i, cs)
        | None => Err "truncated snapshot"%string
        end
    end
}.

Lemma plain_decode_encode_chunks cs fuel :
  length (mjoin ((λ c : list N, N.of_nat (length c) :: c) <$> cs)) ≤ fuel →
  plain_decode_chunks fuel (mjoin ((λ c : list N, N.of_nat (length c) :: c) <$> cs)) = Some cs.
Proof.
  revert fuel. induction cs as [|c cs IH]; intros fuel Hf; [by destruct fuel|].
  rewrite fmap_cons in *.
  set (rest := mjoin (_ <$> cs)) in *. simpl in Hf. rewrite length_app in Hf.
  destruct fuel as [|fuel]; [lia|]. simpl. fold rest in Hf |- *.
  replace (N.to_nat (N.of_nat (length c))) with (length c) by lia.
  rewrite bool_decide_true by (rewrite length_app; lia).
  rewrite take_app_length, drop_app_length. by rewrite IH by lia.
Qed.

#[global] Instance plain_codec_laws : SnapshotCodecLaws.
Proof.
  constructor. intros [i cs] bytes [= <-]. unfold plain_encode. simpl.
  by rewrite plain_decode_encode_chunks by lia.
Qed.

(** Restoring a machine's snapshot into any machine reproduces it,
    given that the codec decodes what it encoded. *)
Lemma snapshot_restore_roundtrip `{SnapshotCodecLaws} (m other : MemoryStateMachine) bytes :
  machine_snapshot m = Ok bytes → machine_restore_from other bytes = (m, Ok tt).
Proof.
  intros E. unfold machine_restore_from.
  rewrite (decode_encode _ _ E). by destruct m.
Qed.

Example plain_snapshot_restores :
  machine_restore_from machine_new [7; 2; 10; 20; 0]%N
    = (mkMachine [[10; 20]; []]%N 7, Ok tt).
Proof. apply snapshot_restore_roundtrip. vm_compute. reflexivity. Qed.
