(* ===== verification/RaftNode.v ===== *)
(** * [RaftNode]: the consensus state machine

    Models [src/crates/astrs-raft/src/config.rs], [message.rs]
    and the whole of [core/]: [mod.rs] (term handling, the
    tick loop, proposals, membership), [election.rs], [replication.rs] and
    [apply.rs].  A [RaftNode] performs no I/O: its methods are functions on
    the node record in the state-and-error monad of [Prelude], generic in the
    log store [L] and the state machine [M] as in the source.  Log lines
    ([tracing]) have no effect on the state and are left out. *)

From Stdlib Require Import Lia.
From stdpp Require Import base tactics list gmap strings numbers sorting.
From S2P Require Import Prelude RaftTypes RaftMembership RaftLog RaftMachine.

(** ** [RaftConfig] *)

(** [peers] maps a peer to its socket address, which the consensus code
    never reads; [tick_interval] is in nanoseconds. *)
Record RaftConfig := mkConfig {
  c_id : PeerId;
  c_peers : gmap PeerId string;
  c_election_timeout_ticks : N;
  c_election_jitter_ticks : N;
  c_heartbeat_ticks : N;
  c_tick_interval : N;
  c_max_entries_per_append : N;
  c_snapshot_threshold : N;
  c_pre_vote : bool;
  c_seed : N
}.

Definition config_new (id : PeerId) : RaftConfig :=
  mkConfig id ∅ 10 10 2 50000000 256 4096 true
    (N.lor (wrapping_mul id 0x9E3779B97F4A7C15) 1).

Definition with_peer (c : RaftConfig) (id : PeerId) (address : string) : RaftConfig :=
  mkConfig (c_id c) (<[id:=address]> (c_peers c)) (c_election_timeout_ticks c)
    (c_election_jitter_ticks c) (c_heartbeat_ticks c) (c_tick_interval c)
    (c_max_entries_per_append c) (c_snapshot_threshold c) (c_pre_vote c) (c_seed c).

Definition initial_membership (c : RaftConfig) : Membership :=
  mkMembership (dom (c_peers c)).

Definition lease_ticks (c : RaftConfig) : N := c_election_timeout_ticks c.

Definition validate (c : RaftConfig) : Res unit :=
  if bool_decide (c_peers c = ∅) then
    Err (InvalidConfig "a Raft replica needs at least one peer, itself included")
  else if bool_decide (c_peers c !! c_id c = None) then
    Err (InvalidConfig "this replica's own id must appear in its peer set")
  else if N.eqb (c_election_timeout_ticks c) 0 then
    Err (InvalidConfig "the election timeout must be at least one tick")
  else if N.eqb (c_heartbeat_ticks c) 0 then
    Err (InvalidConfig "the heartbeat interval must be at least one tick")
  else if N.leb (c_election_timeout_ticks c) (c_heartbeat_ticks c) then
    Err (InvalidConfig "heartbeats must be sent well inside the election timeout")
  else if N.eqb (c_tick_interval c) 0 then
    Err (InvalidConfig "a tick must have a non-zero duration")
  else if N.eqb (c_max_entries_per_append c) 0 then
    Err (InvalidConfig "an AppendEntries must be allowed to carry at least one entry")
  else Ok tt.

(** ** [RaftMessage] and [Envelope] *)

Inductive RaftMessage :=
  | PreVoteRequest (term : Term) (last_log_index : LogIndex) (last_log_term : Term)
  | PreVoteResponse (term : Term) (granted : bool)
  | VoteRequest (term : Term) (last_log_index : LogIndex) (last_log_term : Term)
  | VoteResponse (term : Term) (granted : bool)
  | AppendEntries (term : Term) (prev_log_index : LogIndex) (prev_log_term : Term)
      (entries : list LogEntry) (leader_commit : LogIndex)
  | AppendEntriesResponse (term : Term) (success : bool) (match_index : LogIndex)
      (conflict_index : LogIndex) (conflict_term : Term)
  | InstallSnapshot (term : Term) (snap : Snapshot)
  | InstallSnapshotResponse (term : Term) (last_idx : LogIndex)
  | TimeoutNow (term : Term).

#[global] Instance message_eq_dec : EqDecision RaftMessage.
Proof. solve_decision. Defined.

Definition message_term (m : RaftMessage) : Term :=
  match m with
  | PreVoteRequest term _ _ | PreVoteResponse term _ | VoteRequest term _ _
  | VoteResponse term _ | AppendEntries term _ _ _ _
  | AppendEntriesResponse term _ _ _ _ | InstallSnapshot term _
  | InstallSnapshotResponse term _ | TimeoutNow term => term
  end.

Record Envelope := mkEnvelope {
  env_from : PeerId;
  env_to : PeerId;
  env_message : RaftMessage
}.

#[global] Instance envelope_eq_dec : EqDecision Envelope.
Proof. solve_decision. Defined.

(** ** [Progress], [Applied] and the node *)

Record Progress := mkProgress {
  p_next_index : LogIndex;
  p_match_index : LogIndex;
  p_last_contact : N;
  p_snapshot_in_flight : bool
}.

Definition progress_new (next_index : LogIndex) (now : N) : Progress :=
  mkProgress next_index ZERO now false.

Record Applied := mkApplied {
  a_index : LogIndex;
  a_term : Term;
  a_result : option (list N)
}.

Record RaftNode (L M : Type) := mkNode {
  n_config : RaftConfig;
  n_role : Role;
  n_hard : HardState;
  n_leader : option PeerId;
  n_log : L;
  n_machine : M;
  n_commit_index : LogIndex;
  n_last_applied : LogIndex;
  n_membership : Membership;
  n_progress : gmap PeerId Progress;
  n_votes : gmap PeerId bool;
  n_election_elapsed : N;
  n_heartbeat_elapsed : N;
  n_randomized_timeout : N;
  n_rng : Rng;
  n_outbox : list Envelope;
  n_applied : list Applied;
  n_pending_config : option LogIndex;
  n_ticks : N
}.
Arguments mkNode {L M}.
Arguments n_config {L M} _.
Arguments n_role {L M} _.
Arguments n_hard {L M} _.
Arguments n_leader {L M} _.
Arguments n_log {L M} _.
Arguments n_machine {L M} _.
Arguments n_commit_index {L M} _.
Arguments n_last_applied {L M} _.
Arguments n_membership {L M} _.
Arguments n_progress {L M} _.
Arguments n_votes {L M} _.
Arguments n_election_elapsed {L M} _.
Arguments n_heartbeat_elapsed {L M} _.
Arguments n_randomized_timeout {L M} _.
Arguments n_rng {L M} _.
Arguments n_outbox {L M} _.
Arguments n_applied {L M} _.
Arguments n_pending_config {L M} _.
Arguments n_ticks {L M} _.

(** Field updates. *)

Definition set_role {L M} (v : Role) (n : RaftNode L M) : RaftNode L M :=
  mkNode (n_config n) v (n_hard n) (n_leader n) (n_log n) (n_machine n) (n_commit_index n) (n_last_applied n) (n_membership n) (n_progress n) (n_votes n) (n_election_elapsed n) (n_heartbeat_elapsed n) (n_randomized_timeout n) (n_rng n) (n_outbox n) (n_applied n) (n_pending_config n) (n_ticks n).
Definition set_hard {L M} (v : HardState) (n : RaftNode L M) : RaftNode L M :=
  mkNode (n_config n) (n_role n) v (n_leader n) (n_log n) (n_machine n) (n_commit_index n) (n_last_applied n) (n_membership n) (n_progress n) (n_votes n) (n_election_elapsed n) (n_heartbeat_elapsed n) (n_randomized_timeout n) (n_rng n) (n_outbox n) (n_applied n) (n_pending_config n) (n_ticks n).
Definition set_leader {L M} (v : option PeerId) (n : RaftNode L M) : RaftNode L M :=
  mkNode (n_config n) (n_role n) (n_hard n) v (n_log n) (n_machine n) (n_commit_index n) (n_last_applied n) (n_membership n) (n_progress n) (n_votes n) (n_election_elapsed n) (n_heartbeat_elapsed n) (n_randomized_timeout n) (n_rng n) (n_outbox n) (n_applied n) (n_pending_config n) (n_ticks n).
Definition set_log {L M} (v : L) (n : RaftNode L M) : RaftNode L M :=
  mkNode (n_config n) (n_role n) (n_hard n) (n_leader n) v (n_machine n) (n_commit_index n) (n_last_applied n) (n_membership n) (n_progress n) (n_votes n) (n_election_elapsed n) (n_heartbeat_elapsed n) (n_randomized_timeout n) (n_rng n) (n_outbox n) (n_applied n) (n_pending_config n) (n_ticks n).
Definition set_machine {L M} (v : M) (n : RaftNode L M) : RaftNode L M :=
  mkNode (n_config n) (n_role n) (n_hard n) (n_leader n) (n_log n) v (n_commit_index n) (n_last_applied n) (n_membership n) (n_progress n) (n_votes n) (n_election_elapsed n) (n_heartbeat_elapsed n) (n_randomized_timeout n) (n_rng n) (n_outbox n) (n_applied n) (n_pending_config n) (n_ticks n).
Definition set_commit_index {L M} (v : LogIndex) (n : RaftNode L M) : RaftNode L M :=
  mkNode (n_config n) (n_role n) (n_hard n) (n_leader n) (n_log n) (n_machine n) v (n_last_applied n) (n_membership n) (n_progress n) (n_votes n) (n_election_elapsed n) (n_heartbeat_elapsed n) (n_randomized_timeout n) (n_rng n) (n_outbox n) (n_applied n) (n_pending_config n) (n_ticks n).
Definition set_last_applied {L M} (v : LogIndex) (n : RaftNode L M) : RaftNode L M :=
  mkNode (n_config n) (n_role n) (n_hard n) (n_leader n) (n_log n) (n_machine n) (n_commit_index n) v (n_membership n) (n_progress n) (n_votes n) (n_election_elapsed n) (n_heartbeat_elapsed n) (n_randomized_timeout n) (n_rng n) (n_outbox n) (n_applied n) (n_pending_config n) (n_ticks n).
Definition set_membership {L M} (v : Membership) (n : RaftNode L M) : RaftNode L M :=
  mkNode (n_config n) (n_role n) (n_hard n) (n_leader n) (n_log n) (n_machine n) (n_commit_index n) (n_last_applied n) v (n_progress n) (n_votes n) (n_election_elapsed n) (n_heartbeat_elapsed n) (n_randomized_timeout n) (n_rng n) (n_outbox n) (n_applied n) (n_pending_config n) (n_ticks n).
Definition set_progress {L M} (v : gmap PeerId Progress) (n : RaftNode L M) : RaftNode L M :=
  mkNode (n_config n) (n_role n) (n_hard n) (n_leader n) (n_log n) (n_machine n) (n_commit_index n) (n_last_applied n) (n_membership n) v (n_votes n) (n_election_elapsed n) (n_heartbeat_elapsed n) (n_randomized_timeout n) (n_rng n) (n_outbox n) (n_applied n) (n_pending_config n) (n_ticks n).
Definition set_votes {L M} (v : gmap PeerId bool) (n : RaftNode L M) : RaftNode L M :=
  mkNode (n_config n) (n_role n) (n_hard n) (n_leader n) (n_log n) (n_machine n) (n_commit_index n) (n_last_applied n) (n_membership n) (n_progress n) v (n_election_elapsed n) (n_heartbeat_elapsed n) (n_randomized_timeout n) (n_rng n) (n_outbox n) (n_applied n) (n_pending_config n) (n_ticks n).
Definition set_election_elapsed {L M} (v : N) (n : RaftNode L M) : RaftNode L M :=
  mkNode (n_config n) (n_role n) (n_hard n) (n_leader n) (n_log n) (n_machine n) (n_commit_index n) (n_last_applied n) (n_membership n) (n_progress n) (n_votes n) v (n_heartbeat_elapsed n) (n_randomized_timeout n) (n_rng n) (n_outbox n) (n_applied n) (n_pending_config n) (n_ticks n).
Definition set_heartbeat_elapsed {L M} (v : N) (n : RaftNode L M) : RaftNode L M :=
  mkNode (n_config n) (n_role n) (n_hard n) (n_leader n) (n_log n) (n_machine n) (n_commit_index n) (n_last_applied n) (n_membership n) (n_progress n) (n_votes n) (n_election_elapsed n) v (n_randomized_timeout n) (n_rng n) (n_outbox n) (n_applied n) (n_pending_config n) (n_ticks n).
Definition set_randomized_timeout {L M} (v : N) (n : RaftNode L M) : RaftNode L M :=
  mkNode (n_config n) (n_role n) (n_hard n) (n_leader n) (n_log n) (n_machine n) (n_commit_index n) (n_last_applied n) (n_membership n) (n_progress n) (n_votes n) (n_election_elapsed n) (n_heartbeat_elapsed n) v (n_rng n) (n_outbox n) (n_applied n) (n_pending_config n) (n_ticks n).
Definition set_rng {L M} (v : Rng) (n : RaftNode L M) : RaftNode L M :=
  mkNode (n_config n) (n_role n) (n_hard n) (n_leader n) (n_log n) (n_machine n) (n_commit_index n) (n_last_applied n) (n_membership n) (n_progress n) (n_votes n) (n_election_elapsed n) (n_heartbeat_elapsed n) (n_randomized_timeout n) v (n_outbox n) (n_applied n) (n_pending_config n) (n_ticks n).
Definition set_outbox {L M} (v : list Envelope) (n : RaftNode L M) : RaftNode L M :=
  mkNode (n_config n) (n_role n) (n_hard n) (n_leader n) (n_log n) (n_machine n) (n_commit_index n) (n_last_applied n) (n_membership n) (n_progress n) (n_votes n) (n_election_elapsed n) (n_heartbeat_elapsed n) (n_randomized_timeout n) (n_rng n) v (n_applied n) (n_pending_config n) (n_ticks n).
Definition set_applied {L M} (v : list Applied) (n : RaftNode L M) : RaftNode L M :=
  mkNode (n_config n) (n_role n) (n_hard n) (n_leader n) (n_log n) (n_machine n) (n_commit_index n) (n_last_applied n) (n_membership n) (n_progress n) (n_votes n) (n_election_elapsed n) (n_heartbeat_elapsed n) (n_randomized_timeout n) (n_rng n) (n_outbox n) v (n_pending_config n) (n_ticks n).
Definition set_pending_config {L M} (v : option LogIndex) (n : RaftNode L M) : RaftNode L M :=
  mkNode (n_config n) (n_role n) (n_hard n) (n_leader n) (n_log n) (n_machine n) (n_commit_index n) (n_last_applied n) (n_membership n) (n_progress n) (n_votes n) (n_election_elapsed n) (n_heartbeat_elapsed n) (n_randomized_timeout n) (n_rng n) (n_outbox n) (n_applied n) v (n_ticks n).
Definition set_ticks {L M} (v : N) (n : RaftNode L M) : RaftNode L M :=
  mkNode (n_config n) (n_role n) (n_hard n) (n_leader n) (n_log n) (n_machine n) (n_commit_index n) (n_last_applied n) (n_membership n) (n_progress n) (n_votes n) (n_election_elapsed n) (n_heartbeat_elapsed n) (n_randomized_timeout n) (n_rng n) (n_outbox n) (n_applied n) (n_pending_config n) v.

(** ** The methods *)

Section node.
Context {L M : Type} `{LogStore L} `{StateMachine M}.

Abbreviation Node := (RaftNode L M).
Abbreviation RM := (stM Node RaftError).

(** A mutating call on the log store, with its error propagated. *)
Definition on_log {A} (f : L → L * Res A) : RM A := λ n,
  let '(l', r) := f (n_log n) in (set_log l' n, r).

(** A read of the log store, with its error propagated. *)
Definition read_log {A} (f : L → Res A) : RM A := λ n, (n, f (n_log n)).

Definition id (n : Node) : PeerId := c_id (n_config n).

Definition send (to : PeerId) (message : RaftMessage) : RM unit :=
  modify (λ n, set_outbox (n_outbox n ++ [mkEnvelope (id n) to message]) n).

Definition other_voters (n : Node) : list PeerId :=
  filter (λ peer, peer ≠ id n) (ascending (voters (n_membership n))).

(** [if let Some(progress) = self.progress.get_mut(&peer) { .. }] *)
Definition update_progress (peer : PeerId) (f : Progress → Progress) : RM unit :=
  modify (λ n, set_progress (alter f peer (n_progress n)) n).

(** *** Term, vote and timers ([core/mod.rs]) *)

Definition node_save_hard_state (term : Term) (voted_for : option PeerId) : RM unit :=
  hard <- gets n_hard ;;
  let state := mkHard term voted_for in
  if bool_decide (state = hard) then ret tt
  else
    on_log (λ l, save_hard_state l state) ;;
    modify (set_hard state).

(** The two configured numbers are taken to add up below [2^64], as the
    source's plain addition does. *)
Definition reset_election_timer : RM unit :=
  modify (λ n,
    let '(rng', extra) :=
      in_range (n_rng n) 0 (saturating_add (c_election_jitter_ticks (n_config n)) 1) in
    set_randomized_timeout (c_election_timeout_ticks (n_config n) + extra)%N
      (set_rng rng' (set_election_elapsed 0%N n))).

Definition become_follower (term : Term) (leader : option PeerId) : RM unit :=
  hard <- gets n_hard ;;
  (if negb (N.eqb term (h_term hard)) then node_save_hard_state term None else ret tt) ;;
  modify (set_role Follower) ;;
  modify (set_leader leader) ;;
  modify (set_progress ∅) ;;
  modify (set_votes ∅) ;;
  reset_election_timer.

Definition recompute_membership : RM unit :=
  n <- gets (λ n, n) ;;
  let base := match snapshot_meta (n_log n) with
              | Some meta => s_membership meta
              | None => initial_membership (n_config n)
              end in
  let first := first_index (n_log n) in
  let count := saturating_add (distance_to first (last_index (n_log n))) 1 in
  held <- read_log (λ l, entries l first count) ;;
  modify (set_membership (from_entries base held)) ;;
  modify (set_pending_config
    (match List.find is_config (reverse held) with
     | Some e => if N.ltb (n_commit_index n) (e_index e) then Some (e_index e) else None
     | None => None
     end)).

Definition has_quorum_contact (within : N) (n : Node) : bool :=
  let cutoff := saturating_sub (n_ticks n) within in
  let fresh := foldl (λ fresh voter,
    if N.eqb voter (id n) then (fresh + 1)%N
    else match n_progress n !! voter with
         | Some progress =>
             if N.leb cutoff (p_last_contact progress) then (fresh + 1)%N else fresh
         | None => fresh
         end) 0%N (ascending (voters (n_membership n))) in
  is_quorum (n_membership n) fresh.

Definition has_lease (n : Node) : bool :=
  is_leader (n_role n) && has_quorum_contact (lease_ticks (n_config n)) n.

Definition is_ready (n : Node) : bool :=
  is_leader (n_role n) &&
  bool_decide (term_at (n_log n) (n_commit_index n) = Ok (Some (h_term (n_hard n)))).

Definition note_contact (peer : PeerId) : RM unit :=
  now <- gets n_ticks ;;
  update_progress peer (λ p,
    mkProgress (p_next_index p) (p_match_index p) now (p_snapshot_in_flight p)).

Definition reset_progress : RM unit :=
  modify (λ n,
    let next_index := next (last_index (n_log n)) in
    let now := n_ticks n in
    let rebuilt := foldl (λ rebuilt voter,
      <[voter := default (progress_new next_index now) (n_progress n !! voter)]> rebuilt)
      ∅ (ascending (voters (n_membership n))) in
    let rebuilt := alter (λ own,
      mkProgress next_index (last_index (n_log n)) now (p_snapshot_in_flight own))
      (id n) rebuilt in
    set_progress rebuilt n).

(** *** Snapshots and the apply loop ([core/apply.rs]) *)

Definition take_snapshot : RM unit :=
  last_idx <- gets n_last_applied ;;
  if is_empty_sentinel last_idx then ret tt
  else
    t <- read_log (λ l, term_at l last_idx) ;;
    match t with
    | None => ret tt
    | Some last_trm =>
        n <- gets (λ n, n) ;;
        data <- lift_result (map_err (SnapshotError "capture") (sm_snapshot (n_machine n))) ;;
        let meta := mkMeta last_idx last_trm (n_membership n) in
        on_log (λ l, save_snapshot l (mkSnapshot meta data))
    end.

Definition maybe_compact : RM unit :=
  n <- gets (λ n, n) ;;
  let threshold := c_snapshot_threshold (n_config n) in
  if N.eqb threshold 0 || is_empty_sentinel (n_last_applied n) then ret tt
  else if N.ltb (distance_to (first_index (n_log n)) (n_last_applied n)) threshold
  then ret tt
  else take_snapshot.

(** [self.machine.apply(index, command)] *)
Definition machine_apply (index : LogIndex) (command : list N) : RM (list N) := λ n,
  let '(m', r) := sm_apply (n_machine n) index command in
  (set_machine m' n, map_err (Apply index) r).

(** One iteration of the [while] of [apply_committed]. *)
Definition apply_one : RM unit :=
  applied <- gets n_last_applied ;;
  let index := next applied in
  found <- read_log (λ l, entry l index) ;;
  match found with
  | None => modify (set_last_applied index)
  | Some e =>
      res <- (match e_payload e with
              | Command command => r <- machine_apply index command ;; ret (Some r)
              | Noop | Config _ => ret None
              end) ;;
      modify (set_last_applied index) ;;
      modify (λ n, set_applied (n_applied n ++ [mkApplied index (e_term e) res]) n)
  end.

(** The [while] loop; the distance to the commit index is enough fuel. *)
Fixpoint apply_loop (fuel : nat) : RM unit :=
  match fuel with
  | O => ret tt
  | S fuel =>
      n <- gets (λ n, n) ;;
      if N.ltb (n_last_applied n) (n_commit_index n)
      then apply_one ;; apply_loop fuel
      else ret tt
  end.

Definition apply_committed : RM unit :=
  n <- gets (λ n, n) ;;
  apply_loop (N.to_nat (n_commit_index n - n_last_applied n)) ;;
  maybe_compact.

Definition send_snapshot (peer : PeerId) : RM unit :=
  s <- read_log snapshot ;;
  match s with
  | None =>
      first <- gets (λ n, first_index (n_log n)) ;;
      update_progress peer (λ p,
        mkProgress first (p_match_index p) (p_last_contact p) (p_snapshot_in_flight p))
  | Some snap =>
      let last_idx := s_last_index (s_meta snap) in
      update_progress peer (λ p,
        mkProgress (next last_idx) (p_match_index p) (p_last_contact p) true) ;;
      hard <- gets n_hard ;;
      send peer (InstallSnapshot (h_term hard) snap)
  end.

(** *** Replication ([core/replication.rs]) *)

Definition send_append (peer : PeerId) : RM unit :=
  n <- gets (λ n, n) ;;
  match n_progress n !! peer with
  | None => ret tt
  | Some progress =>
      let first := first_index (n_log n) in
      if N.ltb (p_next_index progress) first then send_snapshot peer
      else
        let prev_log_index := previous (p_next_index progress) in
        t <- read_log (λ l, term_at l prev_log_index) ;;
        match t with
        | None => send_snapshot peer
        | Some prev_log_term =>
            es <- read_log (λ l, entries l (p_next_index progress)
                                  (c_max_entries_per_append (n_config n))) ;;
            send peer (AppendEntries (h_term (n_hard n)) prev_log_index prev_log_term
                         es (n_commit_index n))
        end
  end.

Definition broadcast_append : RM unit :=
  peers <- gets other_voters ;;
  for_each send_append peers.

(** The [while index > floor] of [first_index_of_term]. *)
Fixpoint first_index_loop (l : L) (floor : LogIndex) (term : Term)
    (fuel : nat) (index : LogIndex) : Res LogIndex :=
  match fuel with
  | O => Ok index
  | S fuel =>
      if N.ltb floor index then
        let candidate := previous index in
        let? found := term_at l candidate in
        match found with
        | Some t => if N.eqb t term then first_index_loop l floor term fuel candidate
                    else Ok index
        | None => Ok index
        end
      else Ok index
  end.

Definition first_index_of_term (l : L) (from : LogIndex) (term : Term) : Res LogIndex :=
  let floor := first_index l in
  first_index_loop l floor term (N.to_nat (from - floor)) from.

(** The [while index >= floor && !index.is_empty_sentinel()] of
    [last_index_of_term]. *)
Fixpoint last_index_loop (l : L) (floor : LogIndex) (term : Term)
    (fuel : nat) (index : LogIndex) : Res (option LogIndex) :=
  match fuel with
  | O => Ok None
  | S fuel =>
      if N.leb floor index && negb (is_empty_sentinel index) then
        let? found := term_at l index in
        match found with
        | Some t =>
            if N.eqb t term then Ok (Some index)
            else if N.ltb t term then Ok None
            else last_index_loop l floor term fuel (previous index)
        | None => last_index_loop l floor term fuel (previous index)
        end
      else Ok None
  end.

Definition last_index_of_term (l : L) (term : Term) : Res (option LogIndex) :=
  last_index_loop l (first_index l) term (S (N.to_nat (last_index l))) (last_index l).

(** The scan of [merge_entries]: where to append from, and whether the log
    has to be truncated there. *)
Fixpoint merge_scan (l : L) (offset : nat) (es : list LogEntry) :
    Res (nat * option LogIndex) :=
  match es with
  | [] => Ok (offset, None)
  | e :: rest =>
      let? found := term_at l (e_index e) in
      match found with
      | Some existing =>
          if N.eqb existing (e_term e) then merge_scan l (S offset) rest
          else Ok (offset, Some (e_index e))
      | None => Ok (offset, None)
      end
  end.

Definition merge_entries (es : list LogEntry) : RM unit :=
  scan <- read_log (λ l, merge_scan l 0 es) ;;
  let '(append_from, conflict) := scan in
  (match conflict with
   | Some index => on_log (λ l, truncate_from l index)
   | None => ret tt
   end) ;;
  let appended := drop append_from es in
  (match appended with
   | [] => ret tt
   | _ => on_log (λ l, append l appended)
   end) ;;
  if (match conflict with Some _ => true | None => false end) || existsb is_config appended
  then recompute_membership
  else ret tt.

Definition handle_append_entries (from : PeerId) (term : Term)
    (prev_log_index : LogIndex) (prev_log_term : Term) (es : list LogEntry)
    (leader_commit : LogIndex) : RM unit :=
  role <- gets n_role ;;
  (if is_campaigning role then become_follower term (Some from) else ret tt) ;;
  modify (set_leader (Some from)) ;;
  reset_election_timer ;;
  boundary <- gets (λ n, previous (first_index (n_log n))) ;;
  hard <- gets n_hard ;;
  if N.ltb prev_log_index boundary then
    send from (AppendEntriesResponse (h_term hard) true boundary ZERO INITIAL)
  else
    last_idx <- gets (λ n, last_index (n_log n)) ;;
    if N.ltb last_idx prev_log_index then
      send from (AppendEntriesResponse (h_term hard) false ZERO (next last_idx) INITIAL)
    else
      held <- read_log (λ l, term_at l prev_log_index) ;;
      let held_term := default INITIAL held in
      if negb (N.eqb held_term prev_log_term) then
        conflict_index <- read_log (λ l, first_index_of_term l prev_log_index held_term) ;;
        send from (AppendEntriesResponse (h_term hard) false ZERO conflict_index held_term)
      else
        merge_entries es ;;
        let last_new := index_saturating_add prev_log_index (N.of_nat (length es)) in
        commit <- gets n_commit_index ;;
        (if N.ltb commit leader_commit then
           modify (set_commit_index (N.min leader_commit last_new)) ;;
           apply_committed
         else ret tt) ;;
        hard' <- gets n_hard ;;
        send from (AppendEntriesResponse (h_term hard') true last_new ZERO INITIAL).

(** The match index a leader credits each voter with, in voter order. *)
Definition matched_indices (n : Node) : list LogIndex :=
  (λ voter,
     if N.eqb voter (id n) then last_index (n_log n)
     else match n_progress n !! voter with
          | Some progress => p_match_index progress
          | None => ZERO
          end) <$> ascending (voters (n_membership n)).

Definition descending (l : list N) : list N := merge_sort N.ge l.

Definition maybe_advance_commit : RM unit :=
  n <- gets (λ n, n) ;;
  if negb (is_leader (n_role n)) then ret tt
  else
    let matched := descending (matched_indices n) in
    match matched !! N.to_nat (saturating_sub (quorum (n_membership n)) 1) with
    | None => ret tt
    | Some candidate =>
        if N.leb candidate (n_commit_index n) then ret tt
        else
          t <- read_log (λ l, term_at l candidate) ;;
          if negb (bool_decide (t = Some (h_term (n_hard n)))) then ret tt
          else
            modify (set_commit_index candidate) ;;
            match n_pending_config n with
            | Some pending =>
                if N.leb pending candidate then modify (set_pending_config None) else ret tt
            | None => ret tt
            end
    end.

Definition handle_append_response (from : PeerId) (term : Term) (success : bool)
    (match_index conflict_index : LogIndex) (conflict_term : Term) : RM unit :=
  n <- gets (λ n, n) ;;
  if negb (is_leader (n_role n)) || negb (N.eqb term (h_term (n_hard n))) then ret tt
  else
    note_contact from ;;
    if success then
      last_idx <- gets (λ n, last_index (n_log n)) ;;
      progress <- gets (λ n, n_progress n !! from) ;;
      match progress with
      | None => ret tt
      | Some p =>
          let matched := N.max match_index (p_match_index p) in
          update_progress from (λ p, mkProgress (next matched) matched (p_last_contact p) false) ;;
          let behind := N.leb (next matched) last_idx in
          maybe_advance_commit ;;
          apply_committed ;;
          if behind then send_append from else ret tt
      end
    else
      hint <- (if negb (N.eqb conflict_term INITIAL)
               then read_log (λ l, last_index_of_term l conflict_term) else ret None) ;;
      let next_idx := match hint with Some i => next i | None => conflict_index end in
      progress <- gets (λ n, n_progress n !! from) ;;
      match progress with
      | None => ret tt
      | Some p =>
          update_progress from (λ p,
            mkProgress (N.max (N.max next_idx (next (p_match_index p))) FIRST)
              (p_match_index p) (p_last_contact p) (p_snapshot_in_flight p)) ;;
          send_append from
      end.

(** *** Proposals ([core/mod.rs]) *)

Definition append_local (payload : EntryPayload) : RM LogIndex :=
  n <- gets (λ n, n) ;;
  if negb (is_leader (n_role n)) then fail (NotLeader (n_leader n))
  else
    let index := next (last_index (n_log n)) in
    let e := mkEntry (h_term (n_hard n)) index payload in
    (match entry_config e with
     | Some membership => modify (set_membership membership) ;; reset_progress
     | None => ret tt
     end) ;;
    on_log (λ l, append l [e]) ;;
    update_progress (id n) (λ p,
      mkProgress (next index) index (p_last_contact p) (p_snapshot_in_flight p)) ;;
    broadcast_append ;;
    maybe_advance_commit ;;
    apply_committed ;;
    ret index.

Definition propose (command : list N) : RM LogIndex := append_local (Command command).

Definition propose_membership (change : MembershipChange) : RM LogIndex :=
  n <- gets (λ n, n) ;;
  if negb (is_leader (n_role n)) then fail (NotLeader (n_leader n))
  else
    match n_pending_config n with
    | Some pending =>
        if N.ltb (n_commit_index n) pending then fail (ConfigChangeInFlight pending)
        else ret tt
    | None => ret tt
    end ;;
    new_membership <- lift_result (apply_change (n_membership n) change) ;;
    index <- append_local (Config new_membership) ;;
    modify (set_pending_config (Some index)) ;;
    ret index.

(** *** Elections ([core/election.rs]) *)

Definition become_leader : RM unit :=
  modify (set_role Leader) ;;
  modify (λ n, set_leader (Some (id n)) n) ;;
  modify (set_votes ∅) ;;
  modify (set_election_elapsed 0%N) ;;
  modify (set_heartbeat_elapsed 0%N) ;;
  modify (set_progress ∅) ;;
  reset_progress ;;
  append_local Noop ;;
  ret tt.

Definition is_log_up_to_date (l : L) (index : LogIndex) (term : Term) : bool :=
  let own_term := last_term l in
  if negb (N.eqb term own_term) then N.ltb own_term term
  else N.leb (last_index l) index.

Definition campaign : RM unit :=
  n <- gets (λ n, n) ;;
  let term := term_next (h_term (n_hard n)) in
  node_save_hard_state term (Some (id n)) ;;
  modify (set_role Candidate) ;;
  modify (set_leader None) ;;
  modify (set_votes {[id n := true]}) ;;
  reset_election_timer ;;
  n <- gets (λ n, n) ;;
  if is_quorum (n_membership n) 1 then become_leader
  else
    peers <- gets other_voters ;;
    for_each (λ peer,
      send peer (VoteRequest term (last_index (n_log n)) (last_term (n_log n)))) peers.

Definition campaign_pre_vote : RM unit :=
  n <- gets (λ n, n) ;;
  modify (set_role PreCandidate) ;;
  modify (set_leader None) ;;
  modify (set_votes {[id n := true]}) ;;
  reset_election_timer ;;
  n <- gets (λ n, n) ;;
  if is_quorum (n_membership n) 1 then campaign
  else
    let hypothetical := term_next (h_term (n_hard n)) in
    peers <- gets other_voters ;;
    for_each (λ peer,
      send peer (PreVoteRequest hypothetical (last_index (n_log n)) (last_term (n_log n))))
      peers.

Definition handle_vote_request (from : PeerId) (pre_vote : bool) (term : Term)
    (last_log_index : LogIndex) (last_log_term : Term) : RM unit :=
  n <- gets (λ n, n) ;;
  let up_to_date := is_log_up_to_date (n_log n) last_log_index last_log_term in
  let granted :=
    if pre_vote then
      let leader_is_gone :=
        (match n_leader n with None => true | Some _ => false end)
        || N.leb (c_election_timeout_ticks (n_config n)) (n_election_elapsed n) in
      N.ltb (h_term (n_hard n)) term && up_to_date && leader_is_gone
    else
      (can_vote (n_hard n) || has_voted_for (n_hard n) from) && up_to_date in
  (if granted && negb pre_vote then
     node_save_hard_state (h_term (n_hard n)) (Some from) ;;
     reset_election_timer
   else ret tt) ;;
  hard <- gets n_hard ;;
  send from (if pre_vote then PreVoteResponse (h_term hard) granted
             else VoteResponse (h_term hard) granted).

Definition granted_votes (votes : gmap PeerId bool) : N :=
  N.of_nat (size (filter (λ kv, kv.2 = true) votes)).

Definition handle_vote_response (from : PeerId) (pre_vote granted : bool) : RM unit :=
  role <- gets n_role ;;
  let expected := if pre_vote then PreCandidate else Candidate in
  if negb (bool_decide (role = expected)) then ret tt
  else
    modify (λ n, set_votes (<[from := granted]> (n_votes n)) n) ;;
    n <- gets (λ n, n) ;;
    let for_votes := granted_votes (n_votes n) in
    let against := (N.of_nat (size (n_votes n)) - for_votes)%N in
    if is_quorum (n_membership n) for_votes then
      if pre_vote then campaign else become_leader
    else if is_quorum (n_membership n) against then
      modify (set_role Follower) ;;
      modify (set_votes ∅) ;;
      reset_election_timer
    else ret tt.

(** *** Snapshot installation ([core/apply.rs]) *)

(** [self.machine.restore(&snapshot.data)] *)
Definition machine_restore (data : list N) : RM unit := λ n,
  let '(m', r) := sm_restore (n_machine n) data in
  (set_machine m' n, map_err (SnapshotError "restore") r).

Definition handle_install_snapshot (from : PeerId) (snap : Snapshot) : RM unit :=
  n <- gets (λ n, n) ;;
  (if is_campaigning (n_role n)
   then become_follower (h_term (n_hard n)) (Some from) else ret tt) ;;
  modify (set_leader (Some from)) ;;
  reset_election_timer ;;
  let last_idx := s_last_index (s_meta snap) in
  n <- gets (λ n, n) ;;
  if N.leb last_idx (n_commit_index n) then
    send from (InstallSnapshotResponse (h_term (n_hard n)) (last_index (n_log n)))
  else
    machine_restore (s_data snap) ;;
    on_log (λ l, install_snapshot l snap) ;;
    modify (set_commit_index last_idx) ;;
    modify (set_last_applied last_idx) ;;
    modify (set_membership (s_membership (s_meta snap))) ;;
    modify (set_pending_config None) ;;
    hard <- gets n_hard ;;
    send from (InstallSnapshotResponse (h_term hard) last_idx).

Definition handle_install_snapshot_response (from : PeerId) (term : Term)
    (last_idx : LogIndex) : RM unit :=
  n <- gets (λ n, n) ;;
  if negb (is_leader (n_role n)) || negb (N.eqb term (h_term (n_hard n))) then ret tt
  else
    note_contact from ;;
    update_progress from (λ p,
      let matched := N.max last_idx (p_match_index p) in
      mkProgress (N.max (next matched) FIRST) matched (p_last_contact p) false) ;;
    maybe_advance_commit ;;
    apply_committed ;;
    send_append from.

(** *** The three inputs ([core/mod.rs]) *)

Definition tick_leader : RM unit :=
  modify (λ n, set_heartbeat_elapsed (saturating_add (n_heartbeat_elapsed n) 1) n) ;;
  n <- gets (λ n, n) ;;
  (if N.leb (c_heartbeat_ticks (n_config n)) (n_heartbeat_elapsed n) then
     modify (set_heartbeat_elapsed 0%N) ;;
     broadcast_append
   else ret tt) ;;
  modify (λ n, set_election_elapsed (saturating_add (n_election_elapsed n) 1) n) ;;
  n <- gets (λ n, n) ;;
  if N.leb (c_election_timeout_ticks (n_config n)) (n_election_elapsed n)
     && negb (has_quorum_contact (c_election_timeout_ticks (n_config n)) n)
  then become_follower (h_term (n_hard n)) None
  else ret tt.

Definition tick_follower : RM unit :=
  modify (λ n, set_election_elapsed (saturating_add (n_election_elapsed n) 1) n) ;;
  n <- gets (λ n, n) ;;
  if N.ltb (n_election_elapsed n) (n_randomized_timeout n) then ret tt
  else if negb (contains (n_membership n) (id n)) then modify (set_election_elapsed 0%N)
  else if c_pre_vote (n_config n) then campaign_pre_vote
  else campaign.

Definition tick : RM unit :=
  modify (λ n, set_ticks (saturating_add (n_ticks n) 1) n) ;;
  role <- gets n_role ;;
  if is_leader role then tick_leader else tick_follower.

Definition handle_higher_term (env : Envelope) (incoming : Term) : RM unit :=
  match env_message env with
  | PreVoteRequest _ _ _ => ret tt
  | PreVoteResponse _ true => ret tt
  | AppendEntries _ _ _ _ _ | InstallSnapshot _ _ | TimeoutNow _ =>
      become_follower incoming (Some (env_from env))
  | _ => become_follower incoming None
  end.

Definition reject_stale (env : Envelope) : RM unit :=
  hard <- gets n_hard ;;
  match env_message env with
  | PreVoteRequest _ _ _ => send (env_from env) (PreVoteResponse (h_term hard) false)
  | VoteRequest _ _ _ => send (env_from env) (VoteResponse (h_term hard) false)
  | AppendEntries _ _ _ _ _ | InstallSnapshot _ _ =>
      send (env_from env) (AppendEntriesResponse (h_term hard) false ZERO ZERO INITIAL)
  | _ => ret tt
  end.

Definition dispatch (env : Envelope) : RM unit :=
  match env_message env with
  | PreVoteRequest term i t => handle_vote_request (env_from env) true term i t
  | VoteRequest term i t => handle_vote_request (env_from env) false term i t
  | PreVoteResponse _ granted => handle_vote_response (env_from env) true granted
  | VoteResponse _ granted => handle_vote_response (env_from env) false granted
  | AppendEntries term i t es c => handle_append_entries (env_from env) term i t es c
  | AppendEntriesResponse term ok m ci ct =>
      handle_append_response (env_from env) term ok m ci ct
  | InstallSnapshot _ s => handle_install_snapshot (env_from env) s
  | InstallSnapshotResponse term i => handle_install_snapshot_response (env_from env) term i
  | TimeoutNow _ =>
      n <- gets (λ n, n) ;;
      if contains (n_membership n) (id n) then campaign else ret tt
  end.

Definition step (env : Envelope) : RM unit :=
  n <- gets (λ n, n) ;;
  if negb (N.eqb (env_to env) (id n)) then ret tt
  else
    let incoming := message_term (env_message env) in
    if is_stale_against (h_term (n_hard n)) incoming then
      handle_higher_term env incoming ;; dispatch env
    else if rejects (h_term (n_hard n)) incoming then reject_stale env
    else dispatch env.

(** [take_messages]: drains the outbox. *)
Definition take_messages (n : Node) : Node * list Envelope :=
  (set_outbox [] n, n_outbox n).

(** *** Construction and restart *)

Definition initial_node (config : RaftConfig) (log : L) (machine : M) : Node :=
  let '(rng, extra) := in_range (rng_new (c_seed config)) 0
                         (saturating_add (c_election_jitter_ticks config) 1) in
  mkNode config Follower (hard_state log) None log machine ZERO ZERO
    (initial_membership config) ∅ ∅ 0%N 0%N
    (c_election_timeout_ticks config + extra)%N rng [] [] None 0%N.

Definition new_steps : RM unit :=
  s <- read_log snapshot ;;
  (match s with
   | Some snap =>
       machine_restore (s_data snap) ;;
       modify (set_commit_index (s_last_index (s_meta snap))) ;;
       modify (set_last_applied (s_last_index (s_meta snap))) ;;
       modify (set_membership (s_membership (s_meta snap)))
   | None => ret tt
   end) ;;
  modify (λ n,
    let durably_applied := sm_applied_index (n_machine n) in
    if N.ltb (n_last_applied n) durably_applied then
      set_commit_index (N.max (n_commit_index n) durably_applied)
        (set_last_applied durably_applied n)
    else n) ;;
  recompute_membership.

(** [RaftNode::new]. *)
Definition node_new (config : RaftConfig) (log : L) (machine : M) : Res Node :=
  let? _ := validate config in
  match new_steps (initial_node config log machine) with
  | (n, Ok _) => Ok n
  | (_, Err e) => Err e
  end.

(** [RaftNode::into_parts]. *)
Definition into_parts (n : Node) : L * M := (n_log n, n_machine n).

End node.
