(* ===== verification/RaftElection.v ===== *)
(** * Election safety of a cluster with a fixed configuration

    A cluster of replicas exchanging messages over a network that loses,
    duplicates, delays and reorders them, with replicas ticking, receiving,
    accepting proposals and restarting from their durable half: at most one
    replica is ever elected in a term.  The configuration is the bootstrap
    one throughout ([RaftNode::propose_membership] is not among the steps).

    The proof is layered: [quiet] methods leave term, vote, role and vote
    count alone and send only harmless messages; [evolve] is the two-state
    property every input of a replica has; [cluster_inv] is the invariant of
    the cluster, from which election safety follows by quorum
    intersection. *)

From Stdlib Require Import Lia.
From stdpp Require Import base tactics list gmap strings numbers sorting.
From S2P Require Import Prelude RaftTypes RaftMembership RaftLog RaftMachine RaftNode.

(** ** Votes *)

(** The vote a hard state stands for: [voted h t b] says that a peer with
    hard state [h] can no longer vote for anybody but [b] in term [t]. *)
Definition voted (h : HardState) (t : Term) (b : PeerId) : Prop :=
  (t < h_term h)%N ∨ (h_term h = t ∧ h_voted_for h = Some b).

(** Hard states only move forward: the term never decreases, and within a
    term a cast vote stays.  The last term a [u64] can hold is excepted,
    since [Term::next] saturates there. *)
Definition hard_le (h h' : HardState) : Prop :=
  (h_term h <= h_term h')%N ∧
  (h_term h = h_term h' → (h_term h < u64_max)%N →
   ∀ b, h_voted_for h = Some b → h_voted_for h' = Some b).

#[global] Instance hard_le_preorder : PreOrder hard_le.
Proof.
  split.
  - intros h. split; [lia|done].
  - intros h1 h2 h3 [H1 V1] [H2 V2]. split; [lia|].
    intros E Hm b Hb. apply V2; [lia|lia|]. apply V1; [lia|lia|done].
Qed.

Lemma voted_mono h h' t b :
  (t < u64_max)%N → hard_le h h' → voted h t b → voted h' t b.
Proof.
  intros Ht [Hle Hv] [Hlt|[<- Hb]].
  - left. lia.
  - destruct (decide (h_term h = h_term h')) as [E|]; [right|left; lia].
    split; [done|]. by apply Hv.
Qed.

Lemma voted_unique h t b b' :
  h_term h = t → voted h t b → voted h t b' → b = b'.
Proof. intros Ht [?|[_ ?]] [?|[_ ?]]; try lia. congruence. Qed.

Lemma hard_le_next h h' :
  is_u64 (h_term h) → h_term h' = term_next (h_term h) → hard_le h h'.
Proof.
  intros Hu E. split.
  - rewrite E. by apply term_next_le.
  - intros E' Hm. rewrite E in E'. rewrite term_next_lt in E' by done. lia.
Qed.

(** ** Saving the hard state *)

Section hard_state.
Context {L M : Type} `{LogStoreLaws L} `{StateMachine M}.

Lemma save_hard_cases t v (n : RaftNode L M) :
  ∃ l' h' r, node_save_hard_state t v n = (set_hard h' (set_log l' n), r) ∧
    l_entries (view l') = l_entries (view (n_log n)) ∧
    l_snapshot (view l') = l_snapshot (view (n_log n)) ∧
    ((r = Ok tt ∧ h' = mkHard t v ∧
      (l_hard_state (view l') = mkHard t v ∨ (n_hard n = mkHard t v ∧ l' = n_log n))) ∨
     (∃ e, r = Err e ∧ h' = n_hard n ∧
      (l_hard_state (view l') = l_hard_state (view (n_log n)) ∨
       l_hard_state (view l') = mkHard t v))).
Proof.
  unfold node_save_hard_state, sbind, gets. case_bool_decide as Hd.
  - exists (n_log n), (n_hard n), (Ok tt). destruct n; simpl in *.
    do 3 (split; [done|]). left. auto.
  - unfold on_log. pose proof (save_hard_state_law (n_log n) (mkHard t v)) as Hl.
    destruct (save_hard_state (n_log n) (mkHard t v)) as [l' [[]|e]] eqn:E; simpl in *.
    + destruct Hl as [[Hv Hr]|[_ [e He]]]; [|done].
      exists l', (mkHard t v), (Ok tt). rewrite Hv. simpl.
      do 3 (split; [done|]). left. auto.
    + exists l', (n_hard n), (Err e). split; [by destruct n|].
      assert (view l' = view (n_log n) ∨ view l' = mkLog (mkHard t v)
                (l_entries (view (n_log n))) (l_snapshot (view (n_log n))))
        as [-> | ->] by (destruct Hl as [[Hv Hr]|[? _]]; [done|tauto]).
      all: do 2 (split; [done|]); right; eauto.
Qed.
End hard_state.

Section election.
Context {L M : Type} `{LogStoreLaws L} `{StateMachine M}.
(** The configuration, and the votes this replica has been granted. *)
Context (V : Membership) (G : PeerId → Term → Prop).

Abbreviation Node := (RaftNode L M).

Definition no_config (es : list LogEntry) : Prop :=
  Forall (λ e, is_config e = false) es.

Definition log_static (v : MemoryLog) : Prop :=
  no_config (l_entries v) ∧
  ∀ s, l_snapshot v = Some s → s_membership (s_meta s) = V.

(** A granted vote in a message. *)
Definition grants (e : Envelope) (t : Term) : Prop :=
  env_message e = VoteResponse t true.

(** What every message a replica sends satisfies at the moment it is
    sent, given its hard state. *)
Definition message_ok (h : HardState) (to : PeerId) (m : RaftMessage) : Prop :=
  is_u64 (message_term m) ∧
  match m with
  | VoteResponse t true => h_term h = t ∧ h_voted_for h = Some to
  | AppendEntries _ _ _ es _ => no_config es
  | InstallSnapshot _ s => s_membership (s_meta s) = V
  | _ => True
  end.

(** What remains true of it from the hard state [h] at the start of an
    input to the hard state [h'] at its end: a granted vote was cast in
    between and binds from then on. *)
Definition envelope_ok (me : PeerId) (h h' : HardState) (e : Envelope) : Prop :=
  env_from e = me ∧ is_u64 (message_term (env_message e)) ∧
  match env_message e with
  | VoteResponse t true => (t < u64_max)%N →
      voted h' t (env_to e) ∧ (h_term h <= t)%N ∧
      (∀ b, h_term h = t → h_voted_for h = Some b → b = env_to e)
  | AppendEntries _ _ _ es _ => no_config es
  | InstallSnapshot _ s => s_membership (s_meta s) = V
  | _ => True
  end.

(** No two granted votes of one term go to different peers. *)
Definition votes_agree (es : list Envelope) : Prop :=
  ∀ e1 e2 t, e1 ∈ es → e2 ∈ es → env_from e1 = env_from e2 →
    grants e1 t → grants e2 t → (t < u64_max)%N → env_to e1 = env_to e2.

Definition sends (n n' : Node) : Prop :=
  ∃ new, n_outbox n' = n_outbox n ++ new ∧
    Forall (envelope_ok (id n) (n_hard n) (n_hard n')) new ∧ votes_agree new.

Lemma envelope_ok_grant me h h' e t :
  envelope_ok me h h' e → grants e t → (t < u64_max)%N →
  voted h' t (env_to e) ∧ (h_term h <= t)%N ∧
  (∀ b, h_term h = t → h_voted_for h = Some b → b = env_to e).
Proof. intros (_ & _ & Hm) E Ht. rewrite E in Hm. by apply Hm. Qed.

Lemma envelope_ok_later me h1 h2 h3 e :
  hard_le h2 h3 → envelope_ok me h1 h2 e → envelope_ok me h1 h3 e.
Proof.
  intros Hle (Hf & Hu & Hm). split; [done|]. split; [done|].
  destruct (env_message e) as [| | |t [] | | | | |]; try done.
  intros Ht. destruct (Hm Ht) as [Hv Hr]. split; [|done]. by eapply voted_mono.
Qed.

Lemma envelope_ok_earlier me h1 h2 h3 e :
  hard_le h1 h2 → envelope_ok me h2 h3 e → envelope_ok me h1 h3 e.
Proof.
  intros [Hle Hv1] (Hf & Hu & Hm). split; [done|]. split; [done|].
  destruct (env_message e) as [| | |t [] | | | | |]; try done.
  intros Ht. destruct (Hm Ht) as (Hv & Hge & Hb). split; [done|]. split; [lia|].
  intros b E Hvb. apply Hb; [lia|]. apply Hv1; [lia|lia|done].
Qed.

Lemma votes_agree_app me h1 h2 h3 new new' :
  Forall (envelope_ok me h1 h2) new → Forall (envelope_ok me h2 h3) new' →
  votes_agree new → votes_agree new' → votes_agree (new ++ new').
Proof.
  rewrite !Forall_forall. intros F F' A A'.
  assert (∀ e1 e2 t, e1 ∈ new → e2 ∈ new' → grants e1 t → grants e2 t →
            (t < u64_max)%N → env_to e1 = env_to e2) as Hx.
  { intros e1 e2 t Hi1 Hi2 G1 G2 Ht.
    destruct (envelope_ok_grant _ _ _ _ _ (F _ Hi1) G1 Ht) as [[?|[E Hv]] _];
    destruct (envelope_ok_grant _ _ _ _ _ (F' _ Hi2) G2 Ht) as (_ & Hge & Hb); [lia|].
    by apply Hb. }
  intros e1 e2 t [Hi1|Hi1]%elem_of_app [Hi2|Hi2]%elem_of_app Ef G1 G2 Ht; eauto.
  symmetry. eauto.
Qed.

Lemma sends_trans n n' n'' :
  n_config n' = n_config n → hard_le (n_hard n) (n_hard n') →
  hard_le (n_hard n') (n_hard n'') → sends n n' → sends n' n'' → sends n n''.
Proof.
  intros Hc Hh Hh' (new & E & F & A) (new' & E' & F' & A'). exists (new ++ new').
  rewrite E', E, app_assoc. split; [done|].
  assert (id n' = id n) as Eid by (unfold id; by rewrite Hc). rewrite Eid in F'.
  split; [|by eapply votes_agree_app]. apply Forall_app. split.
  - eapply Forall_impl; [exact F|]. intros e. by apply envelope_ok_later.
  - eapply Forall_impl; [exact F'|]. intros e. by apply envelope_ok_earlier.
Qed.

Lemma sends_nothing n n' : n_outbox n' = n_outbox n → sends n n'.
Proof.
  intros E. exists []. rewrite E, app_nil_r. split; [done|]. split; [constructor|].
  intros e1 e2 t Hi. by apply not_elem_of_nil in Hi.
Qed.

(** ** Quiet methods *)

Record calm (n : Node) : Prop := {
  calm_membership : n_membership n = V;
  calm_log : log_static (view (n_log n));
  calm_term : is_u64 (h_term (n_hard n));
  calm_config : initial_membership (n_config n) = V
}.

Record same_ballot (n n' : Node) : Prop := {
  same_config : n_config n' = n_config n;
  same_role : n_role n' = n_role n;
  same_hard : n_hard n' = n_hard n;
  same_votes : n_votes n' = n_votes n;
  same_log_hard : l_hard_state (view (n_log n')) = l_hard_state (view (n_log n));
  same_sends : sends n n'
}.

Definition quiet (n n' : Node) : Prop := calm n → calm n' ∧ same_ballot n n'.

#[local] Instance quiet_preorder : PreOrder quiet.
Proof.
  split.
  - intros n Hn. split; [done|]. by split; [..|apply sends_nothing].
  - intros n1 n2 n3 H12 H23 Hc. destruct (H12 Hc) as [Hc2 [? ? Hh ? ? S]].
    destruct (H23 Hc2) as [Hc3 [? ? Hh' ? ? S']]. split; [done|].
    split; try congruence. eapply sends_trans; eauto; by rewrite ?Hh', Hh.
Qed.

(** A change of fields that elections do not depend on. *)
Lemma quiet_modify f :
  (∀ n, n_config (f n) = n_config n ∧ n_role (f n) = n_role n ∧
        n_hard (f n) = n_hard n ∧ n_votes (f n) = n_votes n ∧
        n_log (f n) = n_log n ∧ n_membership (f n) = n_membership n ∧
        n_outbox (f n) = n_outbox n) →
  keeps (E:=RaftError) quiet (modify f).
Proof.
  intros Hf. apply keeps_modify. intros n [Hm Hl Ht Hi].
  destruct (Hf n) as (E1 & E2 & E3 & E4 & E5 & E6 & E7).
  split; split; try congruence. by apply sends_nothing.
Qed.

Lemma quiet_send to m n :
  (calm n → message_ok (n_hard n) to m) → quiet n (send to m n).1.
Proof.
  intros Hm Hc. split; [by destruct Hc|]. split; try done.
  eexists [_]. split; [done|]. split.
  - apply Forall_singleton. specialize (Hm Hc) as [Hu Hm]. split; [done|]. split; [done|].
    simpl. destruct m as [| | |t [] | | | | |]; try done. intros _. destruct Hm as [E Hv].
    split; [right; done|]. split; [lia|]. intros b _. congruence.
  - intros e1 e2 t ->%list_elem_of_singleton ->%list_elem_of_singleton. done.
Qed.

(** Replies that carry no promise and no entries. *)
Definition harmless (m : RaftMessage) : Prop :=
  match m with
  | VoteResponse _ true | AppendEntries _ _ _ _ _ | InstallSnapshot _ _ => False
  | _ => True
  end.

Lemma quiet_reply to m n :
  harmless m → message_term m = h_term (n_hard n) → quiet n (send to m n).1.
Proof.
  intros Hh Ht. apply quiet_send. intros Hc. split.
  - rewrite Ht. apply Hc.
  - by destruct m as [| | |? []| | | | |].
Qed.

Lemma quiet_on_log (f : L → L * Res unit) (g : MemoryLog → MemoryLog * Res unit) :
  (∀ l, mutates (view l) (view (f l).1) (f l).2 (g (view l))) →
  (∀ v, l_hard_state (g v).1 = l_hard_state v) →
  (∀ v, log_static v → log_static (g v).1) →
  keeps quiet (on_log (M:=M) f).
Proof.
  intros Hf Hg Hs n [Hm Hl Ht Hi]. unfold on_log.
  specialize (Hf (n_log n)). destruct (f (n_log n)) as [l' r] eqn:E. simpl in *.
  assert (view l' = view (n_log n) ∨ view l' = (g (view (n_log n))).1) as Hv.
  { destruct Hf as [[? _]|[? _]]; tauto. }
  assert (log_static (view l') ∧
          l_hard_state (view l') = l_hard_state (view (n_log n))) as [Hl' Hh'].
  { destruct Hv as [->| ->]; [done|]. split; [by apply Hs|apply Hg]. }
  split; [by split|]. split; try done. by apply sends_nothing.
Qed.

Ltac quiet_fields := apply quiet_modify; intros; repeat split; reflexivity.

Lemma quiet_update_progress p f : keeps quiet (update_progress p f : stM Node _ _).
Proof. quiet_fields. Qed.

Lemma quiet_reset_progress : keeps quiet (reset_progress : stM Node _ _).
Proof. quiet_fields. Qed.

Lemma quiet_reset_election_timer : keeps quiet (reset_election_timer : stM Node _ _).
Proof.
  apply quiet_modify. intros n. destruct (in_range _ _ _). repeat split; reflexivity.
Qed.

Lemma quiet_set_commit i : keeps (E:=RaftError) quiet (modify (set_commit_index (M:=M) i)).
Proof. quiet_fields. Qed.
Lemma quiet_set_applied i : keeps (E:=RaftError) quiet (modify (set_last_applied (M:=M) i)).
Proof. quiet_fields. Qed.
Lemma quiet_set_pending i : keeps (E:=RaftError) quiet (modify (set_pending_config (M:=M) i)).
Proof. quiet_fields. Qed.
Lemma quiet_set_leader i : keeps (E:=RaftError) quiet (modify (set_leader (M:=M) i)).
Proof. quiet_fields. Qed.
Lemma quiet_set_heartbeat i :
  keeps (E:=RaftError) quiet (modify (set_heartbeat_elapsed (M:=M) i)).
Proof. quiet_fields. Qed.
Lemma quiet_set_elapsed i :
  keeps (E:=RaftError) quiet (modify (set_election_elapsed (M:=M) i)).
Proof. quiet_fields. Qed.
Lemma quiet_read_log {A} (f : L → Res A) : keeps quiet (read_log (M:=M) f).
Proof. intros n. simpl. reflexivity. Qed.
Lemma quiet_set_progress p : keeps (E:=RaftError) quiet (modify (set_progress (M:=M) p)).
Proof. quiet_fields. Qed.

#[local] Hint Resolve quiet_update_progress quiet_reset_progress
  quiet_reset_election_timer quiet_set_commit quiet_set_applied quiet_set_pending
  quiet_set_leader quiet_set_heartbeat quiet_set_elapsed quiet_read_log
  quiet_set_progress : keeps.

Lemma quiet_note_contact p : keeps quiet (note_contact p : stM Node _ _).
Proof. unfold note_contact. keeps_auto. Qed.

Lemma quiet_machine_apply i c : keeps quiet (machine_apply i c : stM Node _ _).
Proof.
  intros n. unfold machine_apply. destruct (sm_apply _ _ _) as [m' r].
  apply (quiet_modify (set_machine m')). intros; repeat split; reflexivity.
Qed.

Lemma quiet_machine_restore d : keeps quiet (machine_restore d : stM Node _ _).
Proof.
  intros n. unfold machine_restore. destruct (sm_restore _ _) as [m' r].
  apply (quiet_modify (set_machine m')). intros; repeat split; reflexivity.
Qed.

#[local] Hint Resolve quiet_note_contact quiet_machine_apply quiet_machine_restore : keeps.

Lemma quiet_push_applied a :
  keeps (E:=RaftError) quiet (modify (λ n : Node, set_applied (n_applied n ++ [a]) n)).
Proof. quiet_fields. Qed.
#[local] Hint Resolve quiet_push_applied : keeps.

Lemma quiet_apply_one : keeps quiet (apply_one : stM Node _ _).
Proof. unfold apply_one. keeps_auto. Qed.
#[local] Hint Resolve quiet_apply_one : keeps.

Lemma quiet_apply_loop fuel : keeps quiet (apply_loop fuel : stM Node _ _).
Proof. induction fuel; simpl; keeps_auto. Qed.
#[local] Hint Resolve quiet_apply_loop : keeps.

(** *** Log contents *)

Lemma static_append v es : log_static v → no_config es → log_static (Mem.append v es).1.
Proof.
  intros [Hn Hs] He. unfold Mem.append. destruct (check_contiguous _ _); [|done].
  split; [|done]. by apply Forall_app.
Qed.

Lemma static_truncate v i : log_static v → log_static (Mem.truncate_from v i).1.
Proof.
  intros [Hn Hs]. unfold Mem.truncate_from. destruct (N.ltb _ _); [done|].
  destruct (Mem.position _ _); [|done]. split; [|done]. by apply Forall_take.
Qed.

Lemma static_save_snapshot v s :
  s_membership (s_meta s) = V → log_static v → log_static (Mem.save_snapshot v s).1.
Proof.
  intros Hm [Hn Hs]. unfold Mem.save_snapshot. split_match; [done|].
  split; simpl; [|congruence]. apply Forall_forall. intros e He.
  apply list_elem_of_filter in He as [_ He]. unfold no_config in Hn.
  rewrite Forall_forall in Hn. by apply Hn.
Qed.

Lemma static_install_snapshot v s :
  s_membership (s_meta s) = V → log_static (Mem.install_snapshot v s).1.
Proof. intros Hm. split; simpl; [constructor|congruence]. Qed.

Lemma static_entries v i k es : log_static v → Mem.entries v i k = Ok es → no_config es.
Proof.
  intros [Hn _]. unfold Mem.entries. destruct (N.ltb _ _); [done|].
  destruct (Mem.position _ _); intros [= <-]; [|constructor].
  by apply Forall_take, Forall_drop.
Qed.

Lemma quiet_append es : no_config es → keeps quiet (on_log (M:=M) (λ l, append l es)).
Proof.
  intros He. apply (quiet_on_log _ (λ v, Mem.append v es)).
  - intros l. apply append_law.
  - intros v. unfold Mem.append. by destruct (check_contiguous _ _).
  - intros v Hv. by apply static_append.
Qed.

Lemma quiet_truncate i : keeps quiet (on_log (M:=M) (λ l, truncate_from l i)).
Proof.
  apply (quiet_on_log _ (λ v, Mem.truncate_from v i)).
  - intros l. apply truncate_from_law.
  - intros v. unfold Mem.truncate_from. destruct (N.ltb _ _); [done|]. by destruct (Mem.position _ _).
  - intros v Hv. by apply static_truncate.
Qed.

Lemma quiet_save_snapshot s :
  s_membership (s_meta s) = V → keeps quiet (on_log (M:=M) (λ l, save_snapshot l s)).
Proof.
  intros Hm. apply (quiet_on_log _ (λ v, Mem.save_snapshot v s)).
  - intros l. apply save_snapshot_law.
  - intros v. unfold Mem.save_snapshot. split_match; done.
  - intros v. by apply static_save_snapshot.
Qed.

Lemma quiet_install_snapshot s :
  s_membership (s_meta s) = V → keeps quiet (on_log (M:=M) (λ l, install_snapshot l s)).
Proof.
  intros Hm. apply (quiet_on_log _ (λ v, Mem.install_snapshot v s)).
  - intros l. apply install_snapshot_law.
  - done.
  - intros v _. by apply static_install_snapshot.
Qed.

#[local] Hint Resolve quiet_append quiet_truncate quiet_save_snapshot
  quiet_install_snapshot : keeps.

(** *** The replication path *)

(** Reading the state first: what holds of the state can be used in the
    rest of the computation. *)
Lemma quiet_bind_here {A B} (f : Node → A) (k : A → stM Node RaftError B) :
  (∀ n, calm n → keeps quiet (k (f n))) → keeps quiet (sbind (gets f) k).
Proof. intros Hk n Hc. by apply (Hk n). Qed.

Lemma quiet_bind_read {A B} (f : L → Res A) (k : A → stM Node RaftError B) :
  (∀ n a, calm n → f (n_log n) = Ok a → keeps quiet (k a)) →
  keeps quiet (sbind (read_log f) k).
Proof.
  intros Hk n Hc. unfold sbind, read_log.
  destruct (f (n_log n)) as [a|e] eqn:E; [by apply (Hk n a)|]. simpl.
  by apply (reflexivity (R:=quiet)).
Qed.

Lemma quiet_take_snapshot : keeps quiet (take_snapshot : stM Node _ _).
Proof.
  unfold take_snapshot. keeps_step; [keeps_step|].
  keeps_step; [keeps_step|]. keeps_step; [keeps_step|]. keeps_step; [|keeps_step].
  apply quiet_bind_here. intros node Hc. keeps_step; [keeps_step|].
  apply quiet_save_snapshot. simpl. apply Hc.
Qed.
#[local] Hint Resolve quiet_take_snapshot : keeps.

Lemma quiet_maybe_compact : keeps quiet (maybe_compact : stM Node _ _).
Proof. unfold maybe_compact. keeps_auto. Qed.
#[local] Hint Resolve quiet_maybe_compact : keeps.

Lemma quiet_apply_committed : keeps quiet (apply_committed : stM Node _ _).
Proof. unfold apply_committed. keeps_auto. Qed.

Lemma quiet_maybe_advance_commit : keeps quiet (maybe_advance_commit : stM Node _ _).
Proof. unfold maybe_advance_commit. keeps_auto. Qed.
#[local] Hint Resolve quiet_apply_committed quiet_maybe_advance_commit : keeps.

Lemma quiet_send_snapshot p : keeps quiet (send_snapshot p : stM Node _ _).
Proof.
  unfold send_snapshot. apply quiet_bind_read. intros n s Hc Hs.
  destruct s as [s|]; [|keeps_auto].
  keeps_step; [keeps_step|].
  intros n'. apply quiet_send. intros Hc'. split; [apply Hc'|].
  simpl. rewrite view_snapshot in Hs. injection Hs as Hs. by apply Hc.
Qed.
#[local] Hint Resolve quiet_send_snapshot : keeps.

Lemma quiet_send_append p : keeps quiet (send_append p : stM Node _ _).
Proof.
  unfold send_append. apply quiet_bind_here. intros n Hn.
  keeps_step; [|keeps_step]. keeps_step; [keeps_step|]. keeps_step; [keeps_step|].
  keeps_step; [|keeps_step]. apply quiet_bind_read. intros n' es Hc Hes n2.
  apply quiet_send. intros _. split; [apply Hn|]. simpl.
  rewrite view_entries in Hes. eapply static_entries; [|done]. apply Hc.
Qed.
#[local] Hint Resolve quiet_send_append : keeps.

Lemma quiet_broadcast_append : keeps quiet (broadcast_append : stM Node _ _).
Proof. unfold broadcast_append. keeps_auto. Qed.
#[local] Hint Resolve quiet_broadcast_append : keeps.

Lemma quiet_recompute_membership : keeps quiet (recompute_membership : stM Node _ _).
Proof.
  unfold recompute_membership. apply quiet_bind_here. intros n Hn.
  apply quiet_bind_read. intros n' held Hc Hheld.
  rewrite view_entries in Hheld.
  assert (no_config held) as Hnc by (eapply static_entries; [apply Hc|done]).
  rewrite from_entries_no_config by done.
  keeps_step; [|keeps_step].
  assert (match snapshot_meta (n_log n) with
          | Some meta => s_membership meta
          | None => initial_membership (n_config n) end = V) as ->.
  { rewrite view_snapshot_meta. unfold Mem.snapshot_meta.
    destruct (l_snapshot _) as [s|] eqn:E; simpl; [|apply Hn].
    by apply (calm_log _ Hn). }
  intros s [Hm Hl Ht Hi]. simpl. split; [by split|]. split; try done.
  by apply sends_nothing.
Qed.
#[local] Hint Resolve quiet_recompute_membership : keeps.

Lemma no_config_drop k es : no_config es → no_config (drop k es).
Proof. apply Forall_drop. Qed.

Lemma quiet_merge_entries es : no_config es → keeps quiet (merge_entries es : stM Node _ _).
Proof.
  intros He. unfold merge_entries. keeps_step; [keeps_step|].
  destruct a as [from conflict].
  keeps_step; [keeps_auto|]. cbv zeta.
  pose proof (no_config_drop from es He) as Hd.
  keeps_step; [|keeps_auto].
  destruct (drop from es) eqn:E; [keeps_step|by apply quiet_append].
Qed.
#[local] Hint Resolve quiet_merge_entries : keeps.

Lemma quiet_append_local p :
  (∀ m, p ≠ Config m) → keeps quiet (append_local p : stM Node _ _).
Proof.
  intros Hp. unfold append_local. keeps_step; [keeps_step|]. keeps_step; [keeps_step|].
  cbv zeta. unfold entry_config; cbn [e_payload].
  destruct p; [| |by edestruct Hp].
  all: keeps_step; [keeps_step|]. all: keeps_step; [|keeps_auto].
  all: apply quiet_append, Forall_singleton; done.
Qed.
#[local] Hint Resolve quiet_append_local : keeps.

(** ** The invariant of one replica *)

(** A majority granted this replica its current term. *)
Definition elected (n : Node) : Prop :=
  ∃ Q, majority V Q ∧ ∀ a, a ∈ Q → a = id n ∨ G a (h_term (n_hard n)).

Record node_core (n : Node) : Prop := {
  core_calm : calm n;
  core_voter : id n ∈ voters V;
  core_durable : hard_le (n_hard n) (l_hard_state (view (n_log n)));
  core_durable_u64 : is_u64 (h_term (l_hard_state (view (n_log n))))
}.

Record ballot_ok (n : Node) : Prop := {
  ballot_own_vote : n_role n = Candidate ∨ n_role n = Leader →
    h_voted_for (n_hard n) = Some (id n);
  ballot_votes : n_role n = Candidate → ∀ a, n_votes n !! a = Some true →
    a ∈ voters V ∧ (a = id n ∨ G a (h_term (n_hard n)));
  ballot_elected : n_role n = Leader → elected n
}.

Definition node_inv (n : Node) : Prop := node_core n ∧ ballot_ok n.

(** The two-state property of every input of a replica. *)
Definition evolve (n n' : Node) : Prop :=
  node_inv n →
  node_inv n' ∧ n_config n' = n_config n ∧
  hard_le (n_hard n) (n_hard n') ∧ sends n n'.

#[global] Instance evolve_preorder : PreOrder evolve.
Proof.
  split.
  - intros n Hn. split; [done|]. split; [done|].
    split; [reflexivity|by apply sends_nothing].
  - intros n1 n2 n3 H12 H23 Hi. destruct (H12 Hi) as (Hi2 & C & Hh & S).
    destruct (H23 Hi2) as (Hi3 & C' & Hh' & S'). split; [done|].
    split; [congruence|]. split; [by etrans|]. by eapply sends_trans.
Qed.

Lemma quiet_evolve n n' : quiet n n' → evolve n n'.
Proof.
  intros Hq [[Hc Hv Hd Hu] [Ho Hvo He]].
  destruct (Hq Hc) as [Hc' [C R E W LH S]]. unfold node_inv, elected, id in *.
  split; [split; split|].
  all: unfold elected, id in *; rewrite ?C, ?R, ?E, ?W, ?LH; try done.
Qed.

Lemma keeps_quiet_evolve {A} (m : stM Node RaftError A) : keeps quiet m → keeps evolve m.
Proof. intros Hm n. apply quiet_evolve, Hm. Qed.

Lemma evolve_bind {A B} (m : stM Node RaftError A) (k : A → stM Node RaftError B) n :
  evolve n (m n).1 →
  (∀ a, (m n).2 = Ok a → evolve (m n).1 (k a (m n).1).1) →
  evolve n (sbind m k n).1.
Proof.
  intros Hm Hk. unfold sbind. destruct (m n) as [n' [a|e]]; simpl in *; [|done].
  etrans; [done|]. by apply Hk.
Qed.

Lemma evolve_gets {A B} (f : Node → A) (k : A → stM Node RaftError B) n :
  evolve n (k (f n) n).1 → evolve n (sbind (gets f) k n).1.
Proof. done. Qed.

Lemma evolve_intro n n' : (node_inv n → evolve n n') → evolve n n'.
Proof. intros Hi Hn. by apply Hi. Qed.

(** What a handler does after a quiet prefix: only the fields the election
    does not look at have moved. *)
Lemma evolve_after_quiet {A B} (m : stM Node RaftError A) (k : A → stM Node RaftError B) n :
  keeps quiet m →
  (∀ a n', (m n).2 = Ok a → quiet n n' → evolve n' (k a n').1) →
  evolve n (sbind m k n).1.
Proof.
  intros Hm Hk. apply evolve_bind; [by apply keeps_quiet_evolve|].
  intros a Ha. apply Hk; [done|apply Hm].
Qed.

(** *** Saving the hard state *)

Lemma save_hard_core t v (n : Node) :
  node_core n → is_u64 t → hard_le (n_hard n) (mkHard t v) →
  let n' := (node_save_hard_state t v n).1 in
  node_core n' ∧ n_config n' = n_config n ∧ n_role n' = n_role n ∧
  n_votes n' = n_votes n ∧ n_outbox n' = n_outbox n ∧ n_leader n' = n_leader n ∧
  match (node_save_hard_state t v n).2 with
  | Ok _ => n_hard n' = mkHard t v
  | Err _ => n_hard n' = n_hard n
  end.
Proof.
  intros [[Hm Hl Ht Hi] Hv Hd Hu] Hut Hle.
  destruct (save_hard_cases t v n) as (l' & h' & r & -> & El & Es & Hc). simpl.
  split; [|by destruct Hc as [(-> & -> & _)|(e & -> & -> & _)]].
  split; [split; simpl; [done| |by destruct Hc as [(_ & -> & _)|(e & _ & -> & _)]|done]
         |done| |]; simpl.
  - split; [unfold no_config; rewrite El; apply Hl|]. intros s. rewrite Es. apply Hl.
  - destruct Hc as [(_ & -> & [-> |[E ->]])|(e & _ & -> & [-> | ->])];
      [reflexivity|by rewrite <-E|done|done].
  - by destruct Hc as [(_ & -> & [-> |[E ->]])|(e & _ & -> & [-> | ->])].
Qed.

(** A failed save leaves the replica's view of the election alone. *)
Lemma ballot_same n n' :
  n_config n' = n_config n → n_role n' = n_role n → n_votes n' = n_votes n →
  n_hard n' = n_hard n → ballot_ok n → ballot_ok n'.
Proof.
  intros C R W E [Ho Hv He]. split; unfold elected, id in *; rewrite ?C, ?R, ?W, ?E; done.
Qed.

Lemma demoted_inv n ld :
  node_core n →
  node_inv (set_votes ∅ (set_progress ∅ (set_leader ld (set_role Follower n)))).
Proof.
  intros [[Hm Hl Ht Hi] Hv Hd Hu]. split; [split; [split|..]|split]; simpl; try done.
  by intros [?|?].
Qed.

(** The first half of [become_follower]: adopting the term. *)
Definition adopt (t : Term) (n : Node) : Node * Res unit :=
  (if negb (N.eqb t (h_term (n_hard n))) then node_save_hard_state t None else ret tt) n.

Lemma become_follower_eq t ld (n : Node) :
  become_follower t ld n =
  match adopt t n with
  | (n1, Ok _) => reset_election_timer
      (set_votes ∅ (set_progress ∅ (set_leader ld (set_role Follower n1))))
  | (n1, Err e) => (n1, Err e)
  end.
Proof. reflexivity. Qed.

Lemma adopt_core t n :
  node_core n → (h_term (n_hard n) <= t)%N → is_u64 t →
  let n1 := (adopt t n).1 in
  node_core n1 ∧ n_config n1 = n_config n ∧ n_outbox n1 = n_outbox n ∧
  match (adopt t n).2 with
  | Ok _ => h_term (n_hard n1) = t ∧ hard_le (n_hard n) (n_hard n1)
  | Err _ => n_hard n1 = n_hard n ∧ n_role n1 = n_role n ∧ n_votes n1 = n_votes n
  end.
Proof.
  intros Hcore Hle Hu. unfold adopt.
  destruct (N.eqb_spec t (h_term (n_hard n))) as [E|E]; simpl.
  - do 3 (split; [done|]). split; [done|reflexivity].
  - assert (hard_le (n_hard n) (mkHard t None)) as Hh.
    { split; [done|]. simpl. lia. }
    pose proof (save_hard_core t None n Hcore Hu Hh) as Hs.
    destruct (node_save_hard_state t None n) as [n1 r]; simpl in *.
    destruct Hs as (Hc1 & C & R & W & O & _ & Hr).
    do 3 (split; [done|]). destruct r; [by rewrite Hr|done].
Qed.

(** A replica whose ballot is as before, up to a quiet change. *)
Lemma evolve_same_ballot n n' :
  node_core n' → n_config n' = n_config n → n_outbox n' = n_outbox n →
  n_hard n' = n_hard n → n_role n' = n_role n → n_votes n' = n_votes n → evolve n n'.
Proof.
  intros Hc C O E R W [_ Hb]. split; [split; [done|by eapply ballot_same]|].
  split; [done|]. rewrite E. split; [reflexivity|by apply sends_nothing].
Qed.

Lemma become_follower_evolve t ld n :
  node_inv n → (h_term (n_hard n) <= t)%N → is_u64 t →
  evolve n (become_follower t ld n).1 ∧
  ((become_follower t ld n).2 = Ok tt →
   h_term (n_hard (become_follower t ld n).1) = t ∧
   n_role (become_follower t ld n).1 = Follower).
Proof.
  intros [Hcore Hb] Hle Hu. rewrite become_follower_eq.
  pose proof (adopt_core t n Hcore Hle Hu) as Ha.
  destruct (adopt t n) as [n1 [[]|e]]; simpl in Ha; destruct Ha as (Hc1 & C & O & Hr).
  - destruct Hr as [Et Hh].
    set (n2 := set_votes ∅ (set_progress ∅ (set_leader ld (set_role Follower n1)))).
    pose proof (quiet_reset_election_timer n2) as Hq.
    pose proof (demoted_inv n1 ld Hc1) as Hi2. fold n2 in Hi2.
    split.
    + transitivity n2; [|by apply quiet_evolve]. intros _.
      do 3 (split; [done|]). by apply sends_nothing.
    + intros _. destruct Hq as [_ [_ R E _ _ _]]; [apply Hi2|]. by rewrite E, R.
  - split; [|done]. destruct Hr as (? & ? & ?). by apply evolve_same_ballot.
Qed.

(** *** Taking office and campaigning *)

Lemma become_leader_evolve n :
  h_voted_for (n_hard n) = Some (id n) → elected n → evolve n (become_leader n).1.
Proof.
  intros Hv Hel.
  set (n2 := set_progress ∅ (set_heartbeat_elapsed 0%N (set_election_elapsed 0%N
               (set_votes ∅ (set_leader (Some (id n)) (set_role Leader n)))))).
  change (become_leader n) with
    ((reset_progress ;; append_local Noop ;; ret tt) n2).
  transitivity n2.
  - intros [[[Hm Hl Ht Hi] Hvo Hd Hu] _]. split; [|].
    + split; [split; [split|..]|split]; simpl; done.
    + split; [done|]. split; [reflexivity|by apply sends_nothing].
  - apply keeps_quiet_evolve. keeps_auto.
Qed.

Lemma quiet_request_votes (m : RaftMessage) peers :
  harmless m → is_u64 (message_term m) →
  keeps quiet (for_each (λ p, send p m) peers : stM Node _ _).
Proof.
  intros Hm Hu. keeps_step. intros n. apply quiet_send. intros _. split; [done|].
  by destruct m as [| | |? []| | | | |].
Qed.

(** A campaign whose first vote is the replica's own. *)
Lemma majority_self n :
  calm n → id n ∈ voters V → is_quorum (n_membership n) 1 = true → elected n.
Proof.
  intros Hc Hv Hq. exists {[id n]}. split; [|set_solver]. split; [set_solver|].
  rewrite size_singleton. by rewrite <-(calm_membership _ Hc).
Qed.

Lemma campaign_evolve n : node_inv n → evolve n (campaign n).1.
Proof.
  intros [Hcore Hb].
  set (t := term_next (h_term (n_hard n))).
  assert (is_u64 t) as Hut by (unfold t, term_next; u64_lia).
  assert (hard_le (n_hard n) (mkHard t (Some (id n)))) as Hh.
  { apply hard_le_next; [apply Hcore|done]. }
  change (campaign n) with
    (match node_save_hard_state t (Some (id n)) n with
     | (n1, Ok _) =>
         (reset_election_timer ;;
          n' <- gets (λ n, n) ;;
          if is_quorum (n_membership n') 1 then become_leader
          else peers <- gets other_voters ;;
               for_each (λ peer, send peer
                 (VoteRequest t (last_index (n_log n')) (last_term (n_log n')))) peers)
         (set_votes {[id n := true]} (set_leader None (set_role Candidate n1)))
     | (n1, Err e) => (n1, Err e)
     end).
  pose proof (save_hard_core t (Some (id n)) n Hcore Hut Hh) as Hs.
  destruct (node_save_hard_state t (Some (id n)) n) as [n1 r]; simpl in Hs.
  destruct Hs as (Hc1 & C & R & W & O & _ & Hr). destruct r as [[]|e].
  2: { simpl. by apply evolve_same_ballot. }
  set (n2 := set_votes {[id n := true]} (set_leader None (set_role Candidate n1))).
  assert (id n2 = id n) as Eid by (unfold id, n2; simpl; by rewrite C).
  transitivity n2.
  - intros _. split; [split|].
    + destruct Hc1 as [[? ? ? ?] ? ? ?]. split; [split|..]; simpl; done.
    + split; rewrite ?Eid; simpl; try done; [by rewrite Hr|].
      intros _ a. rewrite lookup_singleton_Some. intros [<- _].
      split; [|by left]. by apply Hcore.
    + split; [done|]. simpl. rewrite Hr. split; [done|by apply sends_nothing].
  - apply evolve_after_quiet; [apply quiet_reset_election_timer|].
    intros _ n3 _ Hq. apply evolve_intro. intros Hi3. apply evolve_gets.
    destruct (is_quorum (n_membership n3) 1) eqn:Eq.
    + assert (Hc2 : calm n2) by (destruct Hc1 as [[? ? ? ?] _ _ _]; by split).
      destruct (Hq Hc2) as [Hc3 [C3 R3 E3 W3 _ _]].
      apply become_leader_evolve.
      * unfold id. rewrite E3, C3. unfold n2. simpl. rewrite Hr. simpl.
        unfold id. by rewrite C.
      * apply majority_self; [done|by apply (core_voter _ (proj1 Hi3))|done].
    + apply keeps_quiet_evolve. keeps_step; [keeps_step|].
      by apply quiet_request_votes.
Qed.

Lemma campaign_pre_vote_evolve n : node_inv n → evolve n (campaign_pre_vote n).1.
Proof.
  intros [Hcore Hb].
  set (n2 := set_votes {[id n := true]} (set_leader None (set_role PreCandidate n))).
  transitivity n2.
  - intros _. split; [split|].
    + destruct Hcore as [[? ? ? ?] ? ? ?]. split; [split|..]; simpl; done.
    + split; simpl; try done. by intros [?|?].
    + split; [done|]. split; [reflexivity|by apply sends_nothing].
  - change (campaign_pre_vote n) with
      ((reset_election_timer ;; n' <- gets (λ n, n) ;;
        if is_quorum (n_membership n') 1 then campaign
        else peers <- gets other_voters ;;
             for_each (λ peer, send peer
               (PreVoteRequest (term_next (h_term (n_hard n')))
                  (last_index (n_log n')) (last_term (n_log n')))) peers) n2).
    apply evolve_after_quiet; [apply quiet_reset_election_timer|].
    intros _ n3 _ Hq. apply evolve_intro. intros Hi3. apply evolve_gets.
    destruct (is_quorum (n_membership n3) 1).
    + by apply campaign_evolve.
    + apply keeps_quiet_evolve. keeps_step; [keeps_step|].
      apply quiet_request_votes; [done|]. unfold message_term, term_next. u64_lia.
Qed.

(** *** Votes *)

Lemma handle_vote_request_evolve from pre t i lt n :
  evolve n (handle_vote_request from pre t i lt n).1.
Proof.
  apply evolve_intro. intros [Hcore Hb]. unfold handle_vote_request. apply evolve_gets.
  cbv zeta. set (granted := if pre then _ else _).
  destruct (granted && negb pre) eqn:Eg.
  - destruct pre; [by rewrite andb_false_r in Eg|]. rewrite andb_true_r in Eg.
    unfold granted in Eg. apply andb_true_iff in Eg as [Ev _].
    assert (∀ b, h_voted_for (n_hard n) = Some b → from = b) as Hfree.
    { intros b Hvb. unfold can_vote, has_voted_for in Ev. rewrite Hvb in Ev. simpl in Ev.
      by apply bool_decide_eq_true in Ev as [=]. }
    set (h' := mkHard (h_term (n_hard n)) (Some from)).
    assert (hard_le (n_hard n) h') as Hh.
    { split; [done|]. intros _ _ b Hvb. simpl. by rewrite (Hfree b Hvb). }
    pose proof (save_hard_core (h_term (n_hard n)) (Some from) n Hcore
                  (calm_term _ (core_calm _ Hcore)) Hh) as Hs.
    unfold sbind at 1. unfold sbind at 1.
    destruct (node_save_hard_state _ _ n) as [n1 [[]|e]]; simpl in Hs;
      destruct Hs as (Hc1 & C & R & W & O & _ & Hr); [|by apply evolve_same_ballot].
    assert (evolve n n1) as Hev.
    { intros _. split; [split; [done|]|].
      - destruct Hb as [Ho Hvo He].
        split; unfold elected, id in *; rewrite ?C, ?R, ?W, ?Hr; simpl; try done.
        intros Hrole. f_equal. apply Hfree. by apply Ho.
      - split; [done|]. rewrite Hr. split; [done|by apply sends_nothing]. }
    etrans; [exact Hev|]. clear Hev.
    pose proof (quiet_reset_election_timer n1) as Hq.
    pose proof (core_calm _ Hc1) as Hcalm. destruct (Hq Hcalm) as [_ [_ _ Eh _ _ _]].
    destruct (reset_election_timer n1) as [n2 [[]|e2]]; simpl in *;
      [|by apply quiet_evolve].
    etrans; [apply quiet_evolve, Hq|]. apply quiet_evolve, quiet_send. intros Hc2.
    split; [apply Hc2|]. unfold granted. rewrite Ev. simpl.
    destruct (is_log_up_to_date _ _ _); [|done]. rewrite Eh, Hr. done.
  - apply keeps_quiet_evolve. keeps_step; [keeps_step|]. apply quiet_bind_here.
    intros n1 Hc1 n2. apply quiet_send. intros _.
    split; [destruct pre; apply Hc1|].
    destruct pre; [done|]. destruct granted; [done|]. done.
Qed.

Lemma granted_majority n :
  calm n → (∀ a, n_votes n !! a = Some true →
                 a ∈ voters V ∧ (a = id n ∨ G a (h_term (n_hard n)))) →
  is_quorum (n_membership n) (granted_votes (n_votes n)) = true → elected n.
Proof.
  intros Hc Hv Hq. exists (dom (filter (λ kv : PeerId * bool, kv.2 = true) (n_votes n))).
  assert (∀ a, a ∈ dom (filter (λ kv : PeerId * bool, kv.2 = true) (n_votes n)) →
               n_votes n !! a = Some true) as Hd.
  { intros a [b Hb]%elem_of_dom. apply map_lookup_filter_Some in Hb as [Hb Eb].
    simpl in Eb. by subst. }
  split.
  - split; [intros a Ha; by apply Hv, Hd|].
    rewrite size_dom. by rewrite <-(calm_membership _ Hc).
  - intros a Ha. by apply Hv, Hd.
Qed.

Lemma handle_vote_response_evolve from pre granted n :
  (pre = false → n_role n = Candidate → granted = true →
   from ∈ voters V ∧ G from (h_term (n_hard n))) →
  evolve n (handle_vote_response from pre granted n).1.
Proof.
  intros Hg. apply evolve_intro. intros [Hcore Hb]. unfold handle_vote_response.
  apply evolve_gets.
  destruct (bool_decide (n_role n = if pre then PreCandidate else Candidate)) eqn:Er;
    simpl negb; cbv iota; [|reflexivity].
  apply bool_decide_eq_true in Er.
  set (n1 := set_votes (<[from:=granted]> (n_votes n)) n).
  assert (n_role n = Candidate → ∀ a, n_votes n1 !! a = Some true →
          a ∈ voters V ∧ (a = id n ∨ G a (h_term (n_hard n)))) as Hvotes.
  { intros Hr a. simpl. rewrite lookup_insert. case_decide as Ea.
    - intros [= ->]. subst a. destruct pre; [congruence|].
      destruct (Hg eq_refl Hr eq_refl). auto.
    - by apply Hb. }
  assert (node_inv n1) as Hi1.
  { destruct Hcore as [[? ? ? ?] ? ? ?], Hb as [Ho Hvo He].
    split; [split; [split|..]|split]; simpl; done. }
  transitivity n1.
  { intros _. split; [done|]. split; [done|]. split; [reflexivity|by apply sends_nothing]. }
  apply (evolve_gets (λ n, n) _ n1). cbv zeta.
  destruct (is_quorum (n_membership n1) (granted_votes (n_votes n1))) eqn:Eq.
  - destruct pre; [by apply campaign_evolve|]. apply become_leader_evolve.
    + apply Hb. left. done.
    + apply granted_majority; [apply (core_calm _ (proj1 Hi1))| |done]. by apply Hvotes.
  - destruct (is_quorum (n_membership n1) (_ - _)%N).
    + transitivity (set_votes ∅ (set_role Follower n1)).
      * intros _. destruct Hcore as [[? ? ? ?] ? ? ?]. split; [split|].
        -- split; [split|..]; done.
        -- split; simpl; try done. by intros [?|?].
        -- split; [done|]. split; [reflexivity|by apply sends_nothing].
      * apply quiet_evolve. apply quiet_reset_election_timer.
    + reflexivity.
Qed.

(** *** Replication handlers *)

Lemma quiet_send_u64 to m :
  harmless m → is_u64 (message_term m) → keeps quiet (send to m : stM Node _ _).
Proof.
  intros Hm Hu n. apply quiet_send. intros _. split; [done|].
  by destruct m as [| | |? []| | | | |].
Qed.

Lemma quiet_append_entries_tail from i pt es c :
  no_config es →
  keeps quiet (boundary <- gets (λ n : Node, previous (first_index (n_log n))) ;;
    hard <- gets n_hard ;;
    if N.ltb i boundary then
      send from (AppendEntriesResponse (h_term hard) true boundary ZERO INITIAL)
    else
      last_idx <- gets (λ n, last_index (n_log n)) ;;
      if N.ltb last_idx i then
        send from (AppendEntriesResponse (h_term hard) false ZERO (next last_idx) INITIAL)
      else
        held <- read_log (λ l, term_at l i) ;;
        let held_term := default INITIAL held in
        if negb (N.eqb held_term pt) then
          conflict_index <- read_log (λ l, first_index_of_term l i held_term) ;;
          send from (AppendEntriesResponse (h_term hard) false ZERO conflict_index held_term)
        else
          merge_entries es ;;
          let last_new := index_saturating_add i (N.of_nat (length es)) in
          commit <- gets n_commit_index ;;
          (if N.ltb commit c then
             modify (set_commit_index (N.min c last_new)) ;;
             apply_committed
           else ret tt) ;;
          hard' <- gets n_hard ;;
          send from (AppendEntriesResponse (h_term hard') true last_new ZERO INITIAL)).
Proof.
  intros He. keeps_step; [keeps_step|]. apply quiet_bind_here. intros n Hc.
  pose proof (calm_term _ Hc) as Hu.
  keeps_step; [by apply quiet_send_u64|]. keeps_step; [keeps_step|].
  keeps_step; [by apply quiet_send_u64|]. keeps_step; [keeps_step|]. cbv zeta.
  keeps_step; [keeps_step; [keeps_step|by apply quiet_send_u64]|].
  keeps_step; [by apply quiet_merge_entries|]. keeps_step; [keeps_step|].
  keeps_step; [keeps_auto|]. apply quiet_bind_here. intros n' Hc'.
  apply quiet_send_u64; [done|apply Hc'].
Qed.

Lemma handle_append_entries_evolve from t i pt es c n :
  (h_term (n_hard n) <= t)%N → is_u64 t → no_config es →
  evolve n (handle_append_entries from t i pt es c n).1.
Proof.
  intros Hle Hu He. apply evolve_intro. intros Hi. unfold handle_append_entries.
  apply evolve_gets. apply evolve_bind.
  - destruct (is_campaigning (n_role n)); [by apply become_follower_evolve|reflexivity].
  - intros _ _. apply keeps_quiet_evolve. keeps_step; [keeps_step|].
    keeps_step; [keeps_step|]. by apply quiet_append_entries_tail.
Qed.

Lemma quiet_handle_append_response from t ok m ci ct :
  keeps quiet (handle_append_response from t ok m ci ct : stM Node _ _).
Proof. unfold handle_append_response. keeps_auto. Qed.

Lemma quiet_handle_install_snapshot_response from t i :
  keeps quiet (handle_install_snapshot_response from t i : stM Node _ _).
Proof. unfold handle_install_snapshot_response. keeps_auto. Qed.

Lemma quiet_set_membership : keeps (E:=RaftError) quiet (modify (set_membership (M:=M) V)).
Proof.
  intros n [Hm Hl Ht Hi]. simpl. split; [by split|]. split; try done.
  by apply sends_nothing.
Qed.

Lemma handle_install_snapshot_evolve from s n :
  s_membership (s_meta s) = V → evolve n (handle_install_snapshot from s n).1.
Proof.
  intros Hs. apply evolve_intro. intros Hi. unfold handle_install_snapshot.
  apply evolve_gets. apply evolve_bind.
  - destruct (is_campaigning (n_role n)); [|reflexivity].
    apply become_follower_evolve; [done|done|]. apply (calm_term _ (core_calm _ (proj1 Hi))).
  - intros _ _. apply keeps_quiet_evolve. rewrite Hs. pose proof quiet_set_membership.
    keeps_step; [keeps_step|]. keeps_step; [keeps_step|]. cbv zeta.
    apply quiet_bind_here. intros n1 Hc1.
    keeps_step; [apply quiet_send_u64; [done|apply Hc1]|].
    do 6 (keeps_step; [keeps_step|]). apply quiet_bind_here. intros n2 Hc2.
    apply quiet_send_u64; [done|apply Hc2].
Qed.

(** *** Inputs *)

Lemma tick_evolve : keeps evolve (tick : stM Node _ _).
Proof.
  intros n. apply evolve_intro. intros Hi. unfold tick.
  apply evolve_after_quiet; [quiet_fields|]. intros _ n1 _ _. apply evolve_gets.
  destruct (is_leader (n_role n1)).
  - unfold tick_leader. apply evolve_after_quiet; [quiet_fields|]. intros _ n2 _ _.
    apply evolve_gets. apply evolve_after_quiet; [keeps_auto|]. intros _ n3 _ _.
    apply evolve_after_quiet; [quiet_fields|]. intros _ n4 _ _. apply evolve_gets.
    destruct (_ && _); [|reflexivity]. apply evolve_intro. intros Hi4.
    apply become_follower_evolve; [done|done|].
    apply (calm_term _ (core_calm _ (proj1 Hi4))).
  - unfold tick_follower. apply evolve_after_quiet; [quiet_fields|]. intros _ n2 _ _.
    apply evolve_gets. destruct (N.ltb _ _); [reflexivity|].
    destruct (negb _); [apply quiet_evolve, quiet_set_elapsed|].
    apply evolve_intro. intros Hi2.
    destruct (c_pre_vote _); [by apply campaign_pre_vote_evolve|by apply campaign_evolve].
Qed.

(** What a delivered message has to satisfy. *)
Definition delivery_ok (e : Envelope) : Prop :=
  is_u64 (message_term (env_message e)) ∧ env_from e ∈ voters V ∧
  match env_message e with
  | VoteResponse t true => G (env_from e) t
  | AppendEntries _ _ _ es _ => no_config es
  | InstallSnapshot _ s => s_membership (s_meta s) = V
  | _ => True
  end.

(** The term of a message that is dispatched: never above the replica's
    own, except for the hypothetical term of a pre-vote; and a vote counts
    only in the term it was cast in. *)
Definition dispatchable (e : Envelope) (n : Node) : Prop :=
  match env_message e with
  | VoteResponse t _ => h_term (n_hard n) = t ∨ n_role n ≠ Candidate
  | AppendEntries t _ _ _ _ => h_term (n_hard n) = t
  | _ => True
  end.

Lemma dispatch_evolve e n :
  delivery_ok e → dispatchable e n → evolve n (dispatch e n).1.
Proof.
  intros (Hu & Hf & Hm) Hd. unfold dispatch, dispatchable in *.
  destruct (env_message e) as [t i lt|t g|t i lt|t g|t i pt es c|t ok m ci ct|t s|t i|t] eqn:Em.
  - apply handle_vote_request_evolve.
  - by apply handle_vote_response_evolve.
  - apply handle_vote_request_evolve.
  - apply handle_vote_response_evolve. intros _ Hr ->. split; [done|].
    destruct Hd as [-> |?]; done.
  - apply handle_append_entries_evolve; [by rewrite Hd|done|done].
  - apply quiet_evolve, quiet_handle_append_response.
  - by apply handle_install_snapshot_evolve.
  - apply quiet_evolve, quiet_handle_install_snapshot_response.
  - apply evolve_gets. destruct (contains _ _); [|reflexivity].
    apply evolve_intro. intros Hi. by apply campaign_evolve.
Qed.

Lemma handle_higher_term_evolve e n :
  node_inv n → delivery_ok e → (h_term (n_hard n) < message_term (env_message e))%N →
  evolve n (handle_higher_term e (message_term (env_message e)) n).1 ∧
  ((handle_higher_term e (message_term (env_message e)) n).2 = Ok tt →
   dispatchable e (handle_higher_term e (message_term (env_message e)) n).1).
Proof.
  intros Hi (Hu & _) Hlt. unfold handle_higher_term, dispatchable.
  pose proof (λ ld, become_follower_evolve _ ld n Hi (N.lt_le_incl _ _ Hlt) Hu) as Hbf.
  destruct (env_message e) as [t i lt|t g|t i lt|t g|t i pt es c|t ok m ci ct|t s|t i|t];
    simpl in *.
  1: by split; [reflexivity|].
  1: destruct g; [by split; [reflexivity|]|].
  all: split; [apply Hbf|intros E; apply Hbf in E as [Et Er]]; try done.
  right. by rewrite Er.
Qed.

Lemma step_evolve e : delivery_ok e → keeps evolve (step e : stM Node _ _).
Proof.
  intros Hd n. apply evolve_intro. intros Hi. unfold step. apply evolve_gets.
  destruct (negb _); [reflexivity|]. cbv zeta. unfold is_stale_against, rejects.
  destruct (N.ltb_spec (h_term (n_hard n)) (message_term (env_message e))) as [Hlt|Hge].
  - destruct (handle_higher_term_evolve e n Hi Hd Hlt) as [Hev Hok].
    apply evolve_bind; [done|]. intros [] E. apply dispatch_evolve; auto.
  - destruct (N.ltb_spec (message_term (env_message e)) (h_term (n_hard n))) as [Hlt|Hge'].
    + unfold reject_stale. apply keeps_quiet_evolve. apply quiet_bind_here. intros n1 Hc1.
      pose proof (calm_term _ Hc1).
      destruct (env_message e); try (by apply quiet_send_u64); keeps_step.
    + apply dispatch_evolve; [done|]. unfold dispatchable.
      destruct (env_message e); simpl in *; try done; [left|]; lia.
Qed.

Lemma propose_evolve c : keeps evolve (propose c : stM Node _ _).
Proof. apply keeps_quiet_evolve. by apply quiet_append_local. Qed.

Lemma take_snapshot_evolve : keeps evolve (take_snapshot : stM Node _ _).
Proof. apply keeps_quiet_evolve, quiet_take_snapshot. Qed.

(** *** Construction *)

Lemma node_new_inv config l m n :
  initial_membership config = V → log_static (view l) →
  is_u64 (h_term (l_hard_state (view l))) →
  node_new config l m = Ok n →
  node_inv n ∧ n_config n = config ∧ n_hard n = l_hard_state (view l) ∧
  Forall (envelope_ok (c_id config) (n_hard n) (n_hard n)) (n_outbox n) ∧
  votes_agree (n_outbox n) ∧ n_role n = Follower.
Proof.
  intros HV Hl Hu. unfold node_new.
  destruct (validate config) as [[]|] eqn:Ev; [|done]. simpl.
  assert (c_id config ∈ voters V) as Hid.
  { rewrite <-HV. simpl. apply elem_of_dom. unfold validate in Ev.
    repeat case_bool_decide; try done. by destruct (c_peers config !! c_id config). }
  set (n0 := initial_node config l m).
  assert (n_config n0 = config ∧ n_role n0 = Follower ∧ n_hard n0 = hard_state l ∧
          n_log n0 = l ∧ n_membership n0 = V ∧ n_outbox n0 = [])
    as (C & R & E & EL & Mm & O).
  { unfold n0, initial_node. destruct (in_range _ _ _). repeat split; done. }
  rewrite view_hard_state in E.
  assert (calm n0) as Hc by (split; rewrite ?Mm, ?EL, ?E, ?C; done).
  assert (keeps quiet (new_steps : stM Node _ _)) as Hq.
  { unfold new_steps. apply quiet_bind_read. intros n1 s Hc1 Hs.
    rewrite view_snapshot in Hs. injection Hs as Hs.
    pose proof quiet_set_membership.
    keeps_step; [destruct s as [s|]; [|keeps_step]|].
    { rewrite (proj2 (calm_log _ Hc1) s Hs). keeps_auto. }
    keeps_step; [|keeps_step]. apply quiet_modify. intros n2.
    destruct (N.ltb _ _); repeat split; reflexivity. }
  specialize (Hq n0 Hc). destruct (new_steps n0) as [n1 [[]|]]; [|done].
  simpl in Hq. intros [= <-].
  destruct Hq as [Hc1 [C1 R1 E1 W1 LH1 (new & O1 & F1 & A1)]].
  assert (n_hard n1 = l_hard_state (view l)) as E2 by (by rewrite E1, E).
  split; [split|].
  - split; [done| | |]; unfold id; rewrite ?C1, ?C, ?LH1, ?EL, ?E2; done.
  - split; rewrite R1, R; [by intros [?|?]|done|done].
  - split; [by rewrite C1, C|]. split; [done|]. rewrite O in O1. simpl in O1.
    rewrite O1. unfold id in F1. rewrite C in F1. rewrite E2.
    rewrite E1, E in F1. by rewrite R1, R.
Qed.
End election.

(** ** The cluster *)

Section cluster.
Context {L M : Type} `{LogStoreLaws L} `{StateMachine M}.
Context (V : Membership).

Abbreviation Node := (RaftNode L M).

(** The replicas by id; every message ever sent (a network that duplicates,
    delays, reorders or drops messages delivers any of them any number of
    times, or never); and the history of who led which term. *)
Record Cluster := mkCluster {
  cl_nodes : gmap PeerId Node;
  cl_net : list Envelope;
  cl_elected : list (Term * PeerId)
}.

(** The inputs of a replica: a tick, a delivered message, a client's
    command, a request to compact. *)
Inductive Input :=
  | Tick
  | Deliver (e : Envelope)
  | Propose (command : list N)
  | Compact.

Definition run_input (i : Input) (n : Node) : Node :=
  match i with
  | Tick => (tick n).1
  | Deliver e => (step e n).1
  | Propose c => (propose c n).1
  | Compact => (take_snapshot n).1
  end.

(** The replica [i] is now [n]: its messages go out, and its leadership, if
    it leads, is recorded. *)
Definition update_cluster (c : Cluster) (i : PeerId) (n : Node) : Cluster :=
  let '(n', messages) := take_messages n in
  mkCluster (<[i := n']> (cl_nodes c)) (cl_net c ++ messages)
    (if is_leader (n_role n) then (h_term (n_hard n), i) :: cl_elected c
     else cl_elected c).

Inductive cluster_step (c : Cluster) : Cluster → Prop :=
  | step_input i n inp :
      cl_nodes c !! i = Some n →
      (∀ e, inp = Deliver e → e ∈ cl_net c) →
      cluster_step c (update_cluster c i (run_input inp n))
  | step_restart i n machine n' :
      cl_nodes c !! i = Some n →
      node_new (n_config n) (into_parts n).1 machine = Ok n' →
      cluster_step c (update_cluster c i n').

(** Freshly constructed replicas of one configuration, over logs without
    configuration entries. *)
Definition cluster_init (c : Cluster) : Prop :=
  cl_net c = [] ∧ cl_elected c = [] ∧
  ∀ i n, cl_nodes c !! i = Some n →
    n_outbox n = [] ∧ ∃ config l machine,
      node_new config l machine = Ok n ∧ c_id config = i ∧
      initial_membership config = V ∧ log_static V (view l) ∧
      is_u64 (h_term (l_hard_state (view l))).

Inductive reachable : Cluster → Prop :=
  | reachable_init c : cluster_init c → reachable c
  | reachable_step c c' : reachable c → cluster_step c c' → reachable c'.

(** *** The invariant *)

(** The votes granted to [me] in the messages of [net]. *)
Definition granted_in (net : list Envelope) (me : PeerId) (a : PeerId) (t : Term) : Prop :=
  ∃ e, e ∈ net ∧ env_from e = a ∧ env_to e = me ∧ grants e t.

Definition bound (c : Cluster) (a : PeerId) (t : Term) (b : PeerId) : Prop :=
  ∀ n, cl_nodes c !! a = Some n → voted (n_hard n) t b.

Record envelope_inv (c : Cluster) (e : Envelope) : Prop := {
  env_u64 : is_u64 (message_term (env_message e));
  env_sender : env_from e ∈ voters V;
  env_static : match env_message e with
    | AppendEntries _ _ _ es _ => no_config es
    | InstallSnapshot _ s => s_membership (s_meta s) = V
    | _ => True
    end;
  env_bound : ∀ t, grants e t → (t < u64_max)%N → bound c (env_from e) t (env_to e)
}.

Record leader_inv (c : Cluster) (t : Term) (b : PeerId) : Prop := {
  led_majority : ∃ Q, majority V Q ∧ ∀ a, a ∈ Q → a = b ∨ granted_in (cl_net c) b a t;
  led_bound : bound c b t b;
  led_votes : ∀ e, e ∈ cl_net c → env_from e = b → grants e t → env_to e = b
}.

Record cluster_inv (c : Cluster) : Prop := {
  inv_nodes : ∀ i n, cl_nodes c !! i = Some n →
    id n = i ∧ n_outbox n = [] ∧ node_inv V (granted_in (cl_net c) i) n;
  inv_net : ∀ e, e ∈ cl_net c → envelope_inv c e;
  inv_votes : votes_agree (cl_net c);
  inv_elected : ∀ t b, (t, b) ∈ cl_elected c → (t < u64_max)%N → leader_inv c t b;
  inv_recorded : ∀ i n, cl_nodes c !! i = Some n → n_role n = Leader →
    (h_term (n_hard n), i) ∈ cl_elected c
}.

Lemma node_inv_mono (G G' : PeerId → Term → Prop) (n : Node) :
  (∀ a t, G a t → G' a t) → node_inv V G n → node_inv V G' n.
Proof.
  intros HG [[Hc Hv Hd Hu] [Ho Hvo He]]. split; [by split|]. split; [done| |].
  - intros Hr a Ha. destruct (Hvo Hr a Ha) as [? [?|?]]; auto.
  - intros Hr. destruct (He Hr) as (Q & HQ & Ha). exists Q. split; [done|].
    intros a Hq. destruct (Ha a Hq); auto.
Qed.

Lemma granted_in_app net new me a t :
  granted_in net me a t → granted_in (net ++ new) me a t.
Proof. intros (e & He & ?). exists e. split; [|done]. set_solver. Qed.

Lemma node_inv_drained G (n : Node) : node_inv V G n → node_inv V G (set_outbox [] n).
Proof.
  intros [[[? ? ? ?] ? ? ?] [? ? ?]]. split; [split; [split|..]|split]; done.
Qed.

Section update.
(** One replica moves from [n] to [n'] and its messages go out. *)
Context (c : Cluster) (i : PeerId) (n n' : Node).
Context (Hinv : cluster_inv c) (Hi : cl_nodes c !! i = Some n).
Context (Hid : id n' = i) (Hle : hard_le (n_hard n) (n_hard n')).
Context (Hn' : node_inv V (granted_in (cl_net c) i) n').
Context (Hsent : Forall (envelope_ok V i (n_hard n) (n_hard n')) (n_outbox n')).
Context (Hagree : votes_agree (n_outbox n')).

Let c' := update_cluster c i n'.

Lemma sent_ok e : e ∈ n_outbox n' → envelope_ok V i (n_hard n) (n_hard n') e.
Proof. rewrite Forall_forall in Hsent. auto. Qed.

Lemma bound_update a t b : (t < u64_max)%N → bound c a t b → bound c' a t b.
Proof.
  intros Ht Hb m. simpl. rewrite lookup_insert. case_decide as E; [|by apply Hb].
  intros [= <-]. subst a. eapply voted_mono; eauto.
Qed.

(** A vote granted before pins down every vote granted now. *)
Lemma bound_pins e t b :
  (t < u64_max)%N → bound c i t b → e ∈ n_outbox n' → grants e t → env_to e = b.
Proof.
  intros Ht Hb He Hg.
  destruct (envelope_ok_grant _ _ _ _ _ _ (sent_ok _ He) Hg Ht) as (_ & Hge & Hv).
  destruct (Hb _ Hi) as [?|[E Hvb]]; [lia|]. symmetry. by apply Hv.
Qed.

Lemma update_net e : e ∈ cl_net c' → envelope_inv c' e.
Proof.
  simpl. intros [He|He]%elem_of_app.
  - destruct (inv_net _ Hinv e He) as [Hu Hs Hst Hb]. split; try done.
    intros t Hg Ht. by apply bound_update, Hb.
  - pose proof (sent_ok _ He) as (Hf & Hu & Hm). split; try done.
    + rewrite Hf, <-Hid. apply (core_voter _ _ (proj1 Hn')).
    + destruct (env_message e) as [| | |? []| | | | |]; done.
    + intros t Hg Ht m. rewrite Hf. simpl. rewrite lookup_insert_eq. intros [= <-].
      by apply (envelope_ok_grant _ _ _ _ _ _ (sent_ok _ He) Hg Ht).
Qed.

Lemma update_votes : votes_agree (cl_net c').
Proof.
  assert (∀ e1 e2 t, e1 ∈ cl_net c → e2 ∈ n_outbox n' → env_from e1 = env_from e2 →
            grants e1 t → grants e2 t → (t < u64_max)%N → env_to e1 = env_to e2) as Hx.
  { intros e1 e2 t H1e H2e Ef G1 G2 Ht. symmetry.
    apply (bound_pins e2 t); try done.
    assert (env_from e1 = i) as Ei by (rewrite Ef; apply (sent_ok _ H2e)).
    rewrite <-Ei. by apply (env_bound _ _ (inv_net _ Hinv e1 H1e)). }
  intros e1 e2 t. simpl. intros [?|?]%elem_of_app [?|?]%elem_of_app Ef G1 G2 Ht.
  - by eapply (inv_votes _ Hinv).
  - by eapply Hx.
  - symmetry. by eapply Hx.
  - by eapply Hagree.
Qed.

Lemma update_led_before t b : (t < u64_max)%N → leader_inv c t b → leader_inv c' t b.
Proof.
  intros Ht [(Q & HQ & Ha) Hb Hv]. split.
  - exists Q. split; [done|]. intros a Hq.
    destruct (Ha a Hq); [by left|right; by apply granted_in_app].
  - by apply bound_update.
  - simpl. intros e [He|He]%elem_of_app Ef Hg; [by apply Hv|].
    assert (b = i) as -> by (rewrite <-Ef; apply (sent_ok _ He)).
    by eapply bound_pins.
Qed.

Lemma update_led_now :
  n_role n' = Leader → (h_term (n_hard n') < u64_max)%N →
  leader_inv c' (h_term (n_hard n')) i.
Proof.
  intros Hr Ht. destruct Hn' as [Hcore [Ho _ He]].
  assert (h_voted_for (n_hard n') = Some i) as Hvote by (rewrite <-Hid; auto).
  assert (∀ b, voted (n_hard n') (h_term (n_hard n')) b → b = i) as Huniq.
  { intros b [?|[_ Hb]]; [lia|congruence]. }
  split.
  - destruct (He Hr) as (Q & HQ & Ha). exists Q. split; [done|]. intros a Hq.
    rewrite <-Hid at 1. destruct (Ha a Hq); [by left|right; by apply granted_in_app].
  - intros m. simpl. rewrite lookup_insert_eq. intros [= <-]. right. done.
  - simpl. intros e [Hin|Hin]%elem_of_app Ef Hg; apply Huniq.
    + eapply voted_mono; [done|exact Hle|].
      apply (env_bound _ _ (inv_net _ Hinv e Hin) _ Hg Ht). by rewrite Ef.
    + by apply (envelope_ok_grant _ _ _ _ _ _ (sent_ok _ Hin) Hg Ht).
Qed.

Lemma update_inv : cluster_inv c'.
Proof.
  split.
  - intros j m. simpl. rewrite lookup_insert. case_decide as E.
    + intros [= <-]. subst j. split; [done|]. split; [done|].
      apply node_inv_drained. eapply node_inv_mono; [|exact Hn'].
      intros a t. apply granted_in_app.
    + intros Hj. destruct (inv_nodes _ Hinv j m Hj) as (? & ? & Hm).
      do 2 (split; [done|]). eapply node_inv_mono; [|exact Hm].
      intros a t. apply granted_in_app.
  - apply update_net.
  - apply update_votes.
  - intros t b. simpl. destruct (is_leader (n_role n')) eqn:Er.
    + intros [[= -> ->]|Hin]%elem_of_cons Ht.
      * apply update_led_now; [by destruct (n_role n')|done].
      * by apply update_led_before, (inv_elected _ Hinv).
    + intros Hin Ht. by apply update_led_before, (inv_elected _ Hinv).
  - intros j m. simpl. rewrite lookup_insert. case_decide as E.
    + intros [= <-] Hr. simpl in *. rewrite Hr. subst j. left.
    + intros Hj Hr. pose proof (inv_recorded _ Hinv j m Hj Hr).
      destruct (is_leader (n_role n')); [by right|done].
Qed.
End update.

Lemma init_inv c : cluster_init c → cluster_inv c.
Proof.
  intros (En & Ee & Hn). split.
  - intros i n Hi. destruct (Hn i n Hi) as (Ho & cfg & l & m & Hnew & Hid & HV & Hl & Hu).
    pose proof (node_new_inv V (granted_in (cl_net c) i) cfg l m n HV Hl Hu Hnew)
      as (Hni & C & _). split; [unfold id; by rewrite C|]. done.
  - rewrite En. intros e He. by apply not_elem_of_nil in He.
  - rewrite En. intros e1 e2 t He. by apply not_elem_of_nil in He.
  - rewrite Ee. intros t b He. by apply not_elem_of_nil in He.
  - intros i n Hi Hr. destruct (Hn i n Hi) as (Ho & cfg & l & m & Hnew & Hid & HV & Hl & Hu).
    pose proof (node_new_inv V (granted_in (cl_net c) i) cfg l m n HV Hl Hu Hnew)
      as (_ & _ & _ & _ & _ & R). congruence.
Qed.

Lemma run_input_evolve G inp :
  (∀ e, inp = Deliver e → delivery_ok V G e) →
  ∀ n : Node, evolve V G n (run_input inp n).
Proof.
  intros Hd n. destruct inp as [|e|cmd|]; simpl.
  - apply tick_evolve.
  - apply step_evolve. by apply Hd.
  - apply propose_evolve.
  - apply take_snapshot_evolve.
Qed.

Lemma deliverable c i e :
  cluster_inv c → e ∈ cl_net c → env_to e = i → delivery_ok V (granted_in (cl_net c) i) e.
Proof.
  intros Hinv He Ei. destruct (inv_net _ Hinv e He) as [Hu Hs Hst _].
  split; [done|]. split; [done|].
  destruct (env_message e) as [| | |t []| | | | |] eqn:Em; try done.
  exists e. unfold grants. by rewrite Em.
Qed.

(** A message for somebody else is ignored, so it needs no justification. *)
Lemma misrouted_evolve G e (n : Node) : env_to e ≠ id n → evolve V G n (step e n).1.
Proof.
  intros Hne. unfold step. apply evolve_gets.
  destruct (N.eqb_spec (env_to e) (id n)); [done|]. simpl. reflexivity.
Qed.

Lemma step_inv c c' : cluster_inv c → cluster_step c c' → cluster_inv c'.
Proof.
  intros Hinv [i n inp Hi Hd|i n machine n' Hi Hnew].
  - destruct (inv_nodes _ Hinv i n Hi) as (Hid & Ho & Hni).
    assert (evolve V (granted_in (cl_net c) i) n (run_input inp n)) as Hev.
    { destruct inp as [|e|cmd|]; try (by apply run_input_evolve).
      destruct (decide (env_to e = i)) as [E|E].
      - apply run_input_evolve. intros e' [= <-]. apply deliverable; auto.
      - apply misrouted_evolve. by rewrite Hid. }
    destruct (Hev Hni) as (Hni' & C & Hle & new & Enew & F & A).
    rewrite Ho in Enew. simpl in Enew. rewrite Hid in F.
    apply (update_inv c i n); try done; rewrite ?Enew; try done.
    unfold id. by rewrite C.
  - destruct (inv_nodes _ Hinv i n Hi) as (Hid & Ho & [Hcore _]).
    destruct Hcore as [[Hm Hl Ht HV] Hv Hd Hu]. simpl in Hnew.
    pose proof (node_new_inv V (granted_in (cl_net c) i) _ _ _ _ HV Hl Hu Hnew)
      as (Hni' & C & E & F & A & R).
    apply (update_inv c i n); try done.
    + unfold id. by rewrite C.
    + by rewrite E.
    + eapply Forall_impl; [exact F|]. intros e. rewrite <-Hid.
      apply envelope_ok_earlier. by rewrite E.
Qed.

Lemma reachable_inv c : reachable c → cluster_inv c.
Proof. induction 1; [by apply init_inv|by eapply step_inv]. Qed.

Lemma leader_unique c t b1 b2 :
  cluster_inv c → (t < u64_max)%N → leader_inv c t b1 → leader_inv c t b2 → b1 = b2.
Proof.
  intros Hinv Ht [(Q1 & HQ1 & HA1) _ Hv1] [(Q2 & HQ2 & HA2) _ Hv2].
  destruct (majorities_intersect V Q1 Q2 HQ1 HQ2) as (a & H1a & H2a).
  destruct (HA1 a H1a) as [-> |(e1 & He1 & Ef1 & Et1 & Hg1)];
  destruct (HA2 _ H2a) as [E|(e2 & He2 & Ef2 & Et2 & Hg2)]; try done.
  - rewrite <-Et2. symmetry. by apply Hv1.
  - subst b2. rewrite <-Et1. by apply Hv2.
  - rewrite <-Et1, <-Et2. eapply (inv_votes _ Hinv); eauto. congruence.
Qed.

(** C1. election safety.  In every execution of a cluster with a fixed
    configuration, over an unreliable network and with restarts, no two
    replicas are ever leaders of the same term (below the saturation point
    of the term counter): the history of elections names one leader per
    term, and every replica that leads now is in that history. *)
Theorem election_safety c :
  reachable c →
  (∀ t b1 b2, (t < u64_max)%N →
     (t, b1) ∈ cl_elected c → (t, b2) ∈ cl_elected c → b1 = b2) ∧
  (∀ i n, cl_nodes c !! i = Some n → n_role n = Leader →
     (h_term (n_hard n), i) ∈ cl_elected c).
Proof.
  intros Hr%reachable_inv. split.
  - intros t b1 b2 Ht H1e H2e. eapply leader_unique; eauto; by apply (inv_elected _ Hr).
  - apply (inv_recorded _ Hr).
Qed.
End cluster.
