(* ===== verification/RaftFacts.v ===== *)
(** * What every call on a replica keeps

    For every log store that meets the [LogStore] contract and every sequence
    of public calls, membership changes and failures included: terms and votes
    ([src/crates/astrs-raft/src/core/mod.rs], [election.rs]) and the
    randomized election timeout; and what happens to a pre-vote of a
    lower-term voter. *)

From Stdlib Require Import Lia.
From stdpp Require Import base tactics list gmap strings numbers sorting.
From S2P Require Import Prelude RaftTypes RaftMembership RaftLog RaftMachine RaftNode.
From S2P Require Import RaftElection.

Section facts.
Context {L M : Type} `{LogStoreLaws L} `{StateMachine M}.
Abbreviation Node := (RaftNode L M).

(** ** What every call keeps

    No hypothesis on the configuration: this covers membership changes
    too. *)

(** The randomised timeout lies between the floor and the floor plus the
    jitter. *)
Definition timer_ok (n : Node) : Prop :=
  (c_election_timeout_ticks (n_config n) <= n_randomized_timeout n
   <= c_election_timeout_ticks (n_config n) + c_election_jitter_ticks (n_config n))%N.

(** The node's own copy of its configuration is fixed, terms and votes
    never move back, and the timer stays randomised. *)
Record stays (n n' : Node) : Prop := {
  stays_config : n_config n' = n_config n;
  stays_timer : timer_ok n → timer_ok n';
  stays_u64 : is_u64 (h_term (n_hard n'));
  stays_hard : hard_le (n_hard n) (n_hard n')
}.

Definition forward (n n' : Node) : Prop := is_u64 (h_term (n_hard n)) → stays n n'.

#[local] Instance forward_preorder : PreOrder forward.
Proof.
  split.
  - intros n Hu. split; [done|done|done|reflexivity].
  - intros n1 n2 n3 H12 H23 Hu. destruct (H12 Hu) as [C1 T1 U1 L1].
    destruct (H23 U1) as [C2 T2 U2 L2]. split; [congruence|auto|done|by etrans].
Qed.

(** The fields [forward] looks at. *)
Definition same_core (n n' : Node) : Prop :=
  n_config n' = n_config n ∧ n_randomized_timeout n' = n_randomized_timeout n ∧
  n_hard n' = n_hard n.

Lemma forward_same n n' : same_core n n' → forward n n'.
Proof.
  intros (C & T & E) Hu. split; [done| |by rewrite E|by rewrite E].
  unfold timer_ok. by rewrite C, T.
Qed.

Lemma forward_modify f :
  (∀ n : Node, same_core n (f n)) → keeps (E:=RaftError) forward (modify f).
Proof. intros Hf. apply keeps_modify. intros n. by apply forward_same. Qed.

Lemma forward_on_log {A} (f : L → L * Res A) : keeps forward (on_log (M:=M) f).
Proof. intros n. unfold on_log. destruct (f _). by apply forward_same. Qed.

Lemma forward_read_log {A} (f : L → Res A) : keeps forward (read_log (M:=M) f).
Proof. intros n. simpl. reflexivity. Qed.

Lemma forward_machine_apply i c : keeps forward (machine_apply i c : stM Node _ _).
Proof. intros n. unfold machine_apply. destruct (sm_apply _ _ _). by apply forward_same. Qed.

Lemma forward_machine_restore d : keeps forward (machine_restore d : stM Node _ _).
Proof. intros n. unfold machine_restore. destruct (sm_restore _ _). by apply forward_same. Qed.

Lemma forward_reset_election_timer : keeps forward (reset_election_timer : stM Node _ _).
Proof.
  intros n. unfold reset_election_timer, modify. simpl.
  pose proof (jitter_bounds (n_rng n) (c_election_jitter_ticks (n_config n))) as Hj.
  destruct (in_range _ _ _) as [r x]. simpl in *.
  intros Hu. split; [done| |done|reflexivity]. intros _. unfold timer_ok. simpl. lia.
Qed.

#[local] Hint Resolve forward_on_log forward_read_log forward_machine_apply
  forward_machine_restore forward_reset_election_timer : keeps.
#[local] Hint Extern 1 (keeps forward (modify _)) =>
  (apply forward_modify; intros; done) : keeps.
#[local] Hint Extern 1 (keeps forward (update_progress _ _)) =>
  (apply forward_modify; intros; done) : keeps.
#[local] Hint Extern 1 (keeps forward (send _ _)) =>
  (apply forward_modify; intros; done) : keeps.
#[local] Hint Extern 1 (keeps forward reset_progress) =>
  (apply forward_modify; intros; done) : keeps.

Lemma forward_apply_one : keeps forward (apply_one : stM Node _ _).
Proof. unfold apply_one. keeps_auto. Qed.
#[local] Hint Resolve forward_apply_one : keeps.

Lemma forward_apply_loop fuel : keeps forward (apply_loop fuel : stM Node _ _).
Proof. induction fuel; simpl; keeps_auto. Qed.
#[local] Hint Resolve forward_apply_loop : keeps.

Lemma forward_take_snapshot : keeps forward (take_snapshot : stM Node _ _).
Proof. unfold take_snapshot. keeps_auto. Qed.
#[local] Hint Resolve forward_take_snapshot : keeps.

Lemma forward_apply_committed : keeps forward (apply_committed : stM Node _ _).
Proof. unfold apply_committed, maybe_compact. keeps_auto. Qed.

Lemma forward_maybe_advance_commit : keeps forward (maybe_advance_commit : stM Node _ _).
Proof. unfold maybe_advance_commit. keeps_auto. Qed.

Lemma forward_send_append p : keeps forward (send_append p : stM Node _ _).
Proof. unfold send_append, send_snapshot. keeps_auto. Qed.
#[local] Hint Resolve forward_apply_committed forward_maybe_advance_commit
  forward_send_append : keeps.

Lemma forward_append_local p : keeps forward (append_local p : stM Node _ _).
Proof. unfold append_local, broadcast_append. keeps_auto. Qed.
#[local] Hint Resolve forward_append_local : keeps.

Lemma forward_become_leader : keeps forward (become_leader : stM Node _ _).
Proof. unfold become_leader. keeps_auto. Qed.
#[local] Hint Resolve forward_become_leader : keeps.

(** Saving a hard state that is ahead of the current one. *)
Lemma forward_save t v (n : Node) :
  is_u64 t → hard_le (n_hard n) (mkHard t v) → forward n (node_save_hard_state t v n).1.
Proof.
  intros Ht Hle Hu.
  destruct (save_hard_cases t v n) as (l' & h' & r & -> & _ & _ & Hc). simpl.
  destruct Hc as [(_ & -> & _)|(e & _ & -> & _)]; split; done.
Qed.

Lemma forward_bind {A B} (m : stM Node RaftError A) (k : A → stM Node RaftError B) n :
  forward n (m n).1 → (∀ a, keeps forward (k a)) → forward n (sbind m k n).1.
Proof.
  intros Hm Hk. unfold sbind. destruct (m n) as [n' [a|e]]; simpl in *; [|done].
  etrans; [done|apply Hk].
Qed.

Lemma forward_become_follower t ld (n : Node) :
  is_u64 t → (h_term (n_hard n) <= t)%N → forward n (become_follower t ld n).1.
Proof.
  intros Ht Hle. rewrite become_follower_eq. unfold adopt.
  assert (forward n ((if negb (t =? h_term (n_hard n))%N
    then node_save_hard_state t None else ret tt) n).1) as Hs.
  { destruct (N.eqb_spec t (h_term (n_hard n))); simpl negb; cbv iota; [reflexivity|].
    apply forward_save; [done|]. split; [done|]. simpl. lia. }
  destruct ((if negb (t =? h_term (n_hard n))%N then node_save_hard_state t None
             else ret tt) n) as [n1 [[]|e]]; simpl in *; [|done].
  etrans; [exact Hs|].
  transitivity (set_votes ∅ (set_progress ∅ (set_leader ld (set_role Follower n1)))).
  - by apply forward_same.
  - apply forward_reset_election_timer.
Qed.

Lemma forward_campaign : keeps forward (campaign : stM Node _ _).
Proof.
  intros n Hu. revert Hu. unfold campaign.
  change (forward n ((node_save_hard_state (term_next (h_term (n_hard n))) (Some (id n)) ;;
    modify (set_role Candidate) ;; modify (set_leader None) ;;
    modify (set_votes {[id n := true]}) ;; reset_election_timer ;;
    n' <- gets (λ n, n) ;;
    if is_quorum (n_membership n') 1 then become_leader
    else peers <- gets other_voters ;;
      for_each (λ peer, send peer (VoteRequest (term_next (h_term (n_hard n)))
        (last_index (n_log n')) (last_term (n_log n')))) peers) n).1).
  intros Hu. revert Hu. apply forward_bind; [|intros _; keeps_auto].
  intros Hu. apply forward_save; [unfold term_next; u64_lia| |done].
  by apply hard_le_next.
Qed.
#[local] Hint Resolve forward_campaign : keeps.

Lemma forward_handle_vote_request from pre t i lt :
  keeps forward (handle_vote_request from pre t i lt : stM Node _ _).
Proof.
  intros n. unfold handle_vote_request.
  unfold sbind at 1. unfold gets at 1.
  cbv beta iota zeta. set (granted := if pre then _ else _).
  destruct (granted && negb pre) eqn:Eg.
  2: { apply forward_bind; [reflexivity|]. intros _. keeps_auto. }
  apply forward_bind; [|intros; keeps_auto].
  destruct pre; [by rewrite andb_false_r in Eg|]. rewrite andb_true_r in Eg.
  apply andb_true_iff in Eg as [Ev _].
  intros Hu. revert Hu. apply forward_bind; [|intros; keeps_auto].
  intros Hu. apply forward_save; [done| |done]. split; [done|]. intros _ _ b Hb. simpl.
  unfold can_vote, has_voted_for in Ev. rewrite Hb in Ev. simpl in Ev.
  apply bool_decide_eq_true in Ev. congruence.
Qed.

Lemma forward_handle_vote_response from pre g :
  keeps forward (handle_vote_response from pre g : stM Node _ _).
Proof. unfold handle_vote_response. keeps_auto. Qed.

Lemma forward_recompute : keeps forward (recompute_membership : stM Node _ _).
Proof. unfold recompute_membership. keeps_auto. Qed.
#[local] Hint Resolve forward_recompute : keeps.

Lemma forward_merge_entries es : keeps forward (merge_entries es : stM Node _ _).
Proof. unfold merge_entries. keeps_auto. Qed.
#[local] Hint Resolve forward_merge_entries : keeps.

Lemma forward_dispatch e (n : Node) :
  is_u64 (message_term (env_message e)) →
  (∀ t i pt es c, env_message e = AppendEntries t i pt es c → (h_term (n_hard n) <= t)%N) →
  forward n (dispatch e n).1.
Proof.
  intros Hu Ha. unfold dispatch.
  destruct (env_message e) as [t i lt|t g|t i lt|t g|t i pt es c|t ok m ci ct|t s|t i|t].
  - apply forward_handle_vote_request.
  - apply forward_handle_vote_response.
  - apply forward_handle_vote_request.
  - apply forward_handle_vote_response.
  - unfold handle_append_entries. unfold sbind at 1. unfold gets at 1. cbv beta iota.
    apply forward_bind; [|intros _; keeps_auto].
    destruct (is_campaigning _); [|reflexivity].
    by eapply forward_become_follower, Ha.
  - unfold handle_append_response, note_contact.
    assert (keeps forward (handle_append_response (env_from e) t ok m ci ct : stM Node _ _))
      as Hk by (unfold handle_append_response, note_contact; keeps_auto). apply Hk.
  - unfold handle_install_snapshot. unfold sbind at 1. unfold gets at 1. cbv beta iota.
    intros Hun. revert Hun. apply forward_bind; [|intros _; keeps_auto].
    destruct (is_campaigning _); [|reflexivity].
    intros Hun. by apply forward_become_follower.
  - assert (keeps forward (handle_install_snapshot_response (env_from e) t i : stM Node _ _))
      as Hk by (unfold handle_install_snapshot_response, note_contact; keeps_auto). apply Hk.
  - assert (keeps forward (n <- gets (λ n : Node, n) ;;
      if contains (n_membership n) (id n) then campaign else ret tt)) as Hk by keeps_auto.
    apply Hk.
Qed.

Lemma become_follower_term t ld (n : Node) :
  (become_follower t ld n).2 = Ok tt →
  h_term (n_hard (become_follower t ld n).1) = t.
Proof.
  rewrite become_follower_eq.
  assert (match adopt t n with (n1, Ok _) => h_term (n_hard n1) = t | _ => True end) as Ha.
  { unfold adopt. destruct (N.eqb_spec t (h_term (n_hard n))) as [E|E]; [done|].
    cbn [negb]. destruct (save_hard_cases t None n) as (l' & h' & r & Es & _ & _ & Hc).
    rewrite Es. destruct r as [[]|e]; [|done]. simpl.
    by destruct Hc as [(_ & -> & _)|(e & ? & _)]. }
  destruct (adopt t n) as [n1 [[]|e]]; [|done]. simpl. by destruct (in_range _ _ _).
Qed.

Lemma forward_step e :
  is_u64 (message_term (env_message e)) → keeps forward (step e : stM Node _ _).
Proof.
  intros Hu n. unfold step. unfold sbind at 1. unfold gets at 1. cbv beta iota zeta.
  destruct (negb _); [reflexivity|]. unfold is_stale_against, rejects.
  destruct (N.ltb_spec (h_term (n_hard n)) (message_term (env_message e))) as [Hlt|Hge].
  - assert (∀ ld, forward n (become_follower (message_term (env_message e)) ld n).1) as Hf.
    { intros ld. apply forward_become_follower; [done|lia]. }
    pose proof (λ ld, become_follower_term (message_term (env_message e)) ld n) as Ht.
    unfold sbind, handle_higher_term.
    destruct (env_message e) as [t i lt|t []|t i lt|t g|t i pt es c|t ok m ci ct|t s|t i|t]
      eqn:Em; simpl in Hf, Ht; try (apply forward_dispatch; rewrite Em; done).
    all: match goal with
         | |- context [become_follower _ ?ld _] => specialize (Hf ld); specialize (Ht ld)
         end; destruct (become_follower _ _ n) as [n1 [[]|err]]; simpl in *; try done;
         etrans; try exact Hf; apply forward_dispatch; rewrite ?Em; try done.
    intros ? ? ? ? ? [= <- _ _ _ _]. by rewrite Ht.
  - destruct (N.ltb_spec (message_term (env_message e)) (h_term (n_hard n))).
    + assert (keeps forward (reject_stale e : stM Node _ _)) as Hk
        by (unfold reject_stale; keeps_auto). apply Hk.
    + apply forward_dispatch; [done|]. intros t i pt es c E. rewrite E in *. simpl in *. lia.
Qed.

(** The two places a leader or a candidate acts on its own term. *)
Lemma forward_step_down ld (n : Node) :
  forward n (become_follower (h_term (n_hard n)) ld n).1.
Proof. intros Hu. by apply forward_become_follower. Qed.

Lemma forward_broadcast_append : keeps forward (broadcast_append : stM Node _ _).
Proof. unfold broadcast_append. keeps_auto. Qed.
#[local] Hint Resolve forward_broadcast_append : keeps.

Lemma forward_tick_leader : keeps forward (tick_leader : stM Node _ _).
Proof.
  unfold tick_leader. do 4 (apply keeps_bind; [apply _|keeps_auto|intros ?]).
  apply keeps_bind_gets. intros n. destruct (_ && _); [apply forward_step_down|reflexivity].
Qed.

Lemma forward_tick : keeps forward (tick : stM Node _ _).
Proof.
  pose proof forward_tick_leader. unfold tick, tick_follower, campaign_pre_vote.
  keeps_auto.
Qed.

Lemma forward_propose c : keeps forward (propose c : stM Node _ _).
Proof. apply forward_append_local. Qed.

Lemma forward_propose_membership c : keeps forward (propose_membership c : stM Node _ _).
Proof. unfold propose_membership. keeps_auto. Qed.

(** ** Sequences of calls *)

(** Every public method that changes a replica. *)
Inductive Call :=
  | CallInput (i : Input)
  | CallMembership (c : MembershipChange)
  | CallTakeMessages.

Definition run_call (n : Node) (c : Call) : Node :=
  match c with
  | CallInput i => run_input i n
  | CallMembership c => (propose_membership c n).1
  | CallTakeMessages => (take_messages n).1
  end.

Definition run_calls (n : Node) (cs : list Call) : Node := foldl run_call n cs.

(** The term of a delivered message is a [u64]. *)
Definition call_u64 (c : Call) : Prop :=
  match c with
  | CallInput (Deliver e) => is_u64 (message_term (env_message e))
  | _ => True
  end.

Lemma forward_call c n : call_u64 c → forward n (run_call n c).
Proof.
  destruct c as [[|e|cmd|]|c|]; simpl; intros Hc.
  - apply forward_tick.
  - by apply forward_step.
  - apply forward_propose.
  - apply forward_take_snapshot.
  - apply forward_propose_membership.
  - by apply forward_same.
Qed.

Lemma forward_calls cs n : Forall call_u64 cs → forward n (run_calls n cs).
Proof.
  intros Hcs. revert n. induction Hcs as [|c cs Hc _ IH]; intros n; [reflexivity|].
  etrans; [by apply forward_call|apply IH].
Qed.

(** C9. Whatever a replica is asked to do, in any order, failing calls
    and membership changes included, its term never decreases and within a
    term a vote once cast is never changed (short of the last [u64]
    term). *)
Theorem term_and_vote_never_move_back n cs :
  is_u64 (h_term (n_hard n)) → Forall call_u64 cs →
  (h_term (n_hard n) <= h_term (n_hard (run_calls n cs)))%N ∧
  (h_term (n_hard n) = h_term (n_hard (run_calls n cs)) →
   (h_term (n_hard n) < u64_max)%N →
   ∀ b, h_voted_for (n_hard n) = Some b →
        h_voted_for (n_hard (run_calls n cs)) = Some b).
Proof. intros Hu Hcs. by apply (forward_calls cs n Hcs Hu). Qed.

Lemma forward_new_steps : keeps forward (new_steps : stM Node _ _).
Proof.
  unfold new_steps. keeps_auto. apply forward_modify. intros n. by split_match.
Qed.

Lemma initial_node_timer config l machine : timer_ok (initial_node config l machine : Node).
Proof.
  unfold initial_node.
  pose proof (jitter_bounds (rng_new (c_seed config)) (c_election_jitter_ticks config)) as Hj.
  destruct (in_range _ _ _) as [r x]. unfold timer_ok. simpl in *. lia.
Qed.

(** The election timeout of a replica is between the configured floor
    and the floor plus the jitter, from construction on and after every
    call. *)
Theorem election_timeout_is_randomized config l machine n cs :
  is_u64 (h_term (hard_state l)) → Forall call_u64 cs →
  node_new config l machine = Ok n →
  (c_election_timeout_ticks config <= n_randomized_timeout (run_calls n cs)
   <= c_election_timeout_ticks config + c_election_jitter_ticks config)%N.
Proof.
  intros Hu Hcs. unfold node_new. destruct (validate config); [|done]. simpl.
  pose proof (forward_new_steps (initial_node config l machine)) as Hf.
  pose proof (initial_node_timer config l machine) as Ht.
  assert (n_config (initial_node config l machine) = config ∧
          is_u64 (h_term (n_hard (initial_node config l machine)))) as [Ec Hui]
    by (unfold initial_node; by destruct (in_range _ _ _)).
  destruct (new_steps _) as [n' [[]|e]]; [|done]. intros [= <-]. simpl in Hf.
  destruct (Hf Hui) as [C T U _]. destruct (forward_calls cs n' Hcs U) as [C' T' _ _].
  pose proof (T' (T Ht)) as Hr. unfold timer_ok in Hr. rewrite C', C, Ec in Hr. done.
Qed.

(** ** Pre-votes *)

(** A pre-vote granted by a peer whose term is lower than the
    candidate's is thrown away: the answer carries the voter's own term, and
    [step] drops messages of lower terms before they are counted. *)
Theorem pre_vote_of_a_lower_term_is_dropped (n : Node) from t :
  (t < h_term (n_hard n))%N →
  step (mkEnvelope from (id n) (PreVoteResponse t true)) n = (n, Ok tt).
Proof.
  intros Ht. unfold step, sbind, gets. cbn [env_to env_message message_term].
  rewrite N.eqb_refl. cbn [negb]. unfold is_stale_against, rejects.
  destruct (N.ltb_spec (h_term (n_hard n)) t); [lia|].
  by destruct (N.ltb_spec t (h_term (n_hard n))); [|lia].
Qed.
End facts.
