(* ===== verification/RaftReplication.v ===== *)
(** * Replication and commit in one replica

    Theorems about [src/crates/astrs-raft/src/core/replication.rs] and
    [core/apply.rs], for every log store that meets the [LogStore] contract:
    the commit rule, the apply loop, and the leader's contact with a
    quorum. *)

From Stdlib Require Import Lia.
From stdpp Require Import base tactics list gmap strings numbers sorting fin_sets.
From S2P Require Import Prelude RaftTypes RaftMembership RaftLog RaftMachine RaftNode.

(** ** Counting voters *)

(** The voters of a configuration that satisfy a test. *)
Definition voters_with (m : Membership) (P : PeerId → bool) : gset PeerId :=
  filter (λ v, P v = true) (voters m).

Lemma voters_with_count m (P : PeerId → bool) :
  size (voters_with m P) = length (filter (λ v, P v = true) (ascending (voters m))).
Proof.
  rewrite (filter_Permutation _ _ _ (ascending_perm (voters m))).
  unfold voters_with. rewrite <-(list_to_set_elements_L (voters m)) at 1.
  rewrite <-(size_list_to_set (C:=gset PeerId)
    (filter (λ v, P v = true) (elements (voters m)))).
  - f_equal. apply set_eq. intros x.
    by rewrite elem_of_filter, !elem_of_list_to_set, list_elem_of_filter.
  - apply NoDup_filter, NoDup_elements.
Qed.

(** A quorum of passing voters is a majority that passes, and conversely. *)
Lemma quorum_voters_with m P :
  is_quorum m (N.of_nat (size (voters_with m P))) = true ↔
  ∃ Q, majority m Q ∧ ∀ v, v ∈ Q → P v = true.
Proof.
  split.
  - intros Hq. exists (voters_with m P). split.
    + split; [|done]. intros v. unfold voters_with. rewrite elem_of_filter. tauto.
    + intros v. unfold voters_with. rewrite elem_of_filter. tauto.
  - intros (Q & [Hsub Hq] & HP). apply is_quorum_spec in Hq as [Hne Hq].
    apply is_quorum_spec. split; [done|].
    assert (size Q <= size (voters_with m P)); [|lia].
    apply subseteq_size. intros v Hv. unfold voters_with. rewrite elem_of_filter. auto.
Qed.

Section replication.
Context {L M : Type} `{LogStoreLaws L} `{StateMachine M}.
Abbreviation Node := (RaftNode L M).

(** ** The commit rule *)

(** The index a leader knows a voter to hold. *)
Definition credited (n : Node) (voter : PeerId) : LogIndex :=
  if N.eqb voter (id n) then last_index (n_log n)
  else match n_progress n !! voter with
       | Some progress => p_match_index progress
       | None => ZERO
       end.

(** A majority is known to hold the log up to [c]. *)
Definition held_by_majority (n : Node) (c : LogIndex) : Prop :=
  ∃ Q, majority (n_membership n) Q ∧ ∀ v, v ∈ Q → (c <= credited n v)%N.

Lemma count_credited n c :
  count_ge c (descending (matched_indices n)) =
  size (voters_with (n_membership n) (λ v, N.leb c (credited n v))).
Proof.
  unfold descending. rewrite (merge_sort_Permutation N.ge (matched_indices n)).
  rewrite voters_with_count. unfold matched_indices, count_ge. fold (credited n).
  induction (ascending _) as [|v vs IH]; [done|]. simpl.
  rewrite !filter_cons. destruct (N.leb_spec c (credited n v)).
  - rewrite !decide_True by done. simpl. by f_equal.
  - rewrite decide_False by lia. by rewrite decide_False by done.
Qed.

Lemma held_by_majority_count n c :
  held_by_majority n c ↔
  voters (n_membership n) ≠ ∅ ∧
  (quorum (n_membership n) <= N.of_nat (count_ge c (descending (matched_indices n))))%N.
Proof.
  rewrite count_credited, <-is_quorum_spec, quorum_voters_with.
  unfold held_by_majority. by setoid_rewrite N.leb_le.
Qed.

(** The candidate the leader picks is the greatest index a majority
    holds. *)
Lemma commit_candidate n candidate :
  voters (n_membership n) ≠ ∅ →
  descending (matched_indices n)
    !! N.to_nat (saturating_sub (quorum (n_membership n)) 1) = Some candidate →
  ∀ c, held_by_majority n c ↔ (c <= candidate)%N.
Proof.
  intros Hne Hk c. rewrite held_by_majority_count.
  assert (StronglySorted N.ge (descending (matched_indices n))) as Hs.
  { apply (Sorted_StronglySorted N.ge), Sorted_merge_sort. apply _. }
  rewrite <-(count_ge_descending _ _ _ c Hs Hk).
  pose proof (quorum_pos (n_membership n)) as Hq.
  unfold saturating_sub. split; [intros [_ ?]|intros ?; split; [done|]]; lia.
Qed.

(** What an advance of the commit index needs: a majority holds the log up
    to it, and the entry there is of the leader's own term. *)
Definition committable (n : Node) (c : LogIndex) : Prop :=
  n_role n = Leader ∧ (n_commit_index n < c)%N ∧ held_by_majority n c ∧
  term_at (n_log n) c = Ok (Some (h_term (n_hard n))).

Lemma advance_commit_cases n :
  n_commit_index (maybe_advance_commit n).1 = n_commit_index n ∨
  ∃ c', n_commit_index (maybe_advance_commit n).1 = c' ∧ committable n c' ∧
    ∀ c, held_by_majority n c → (c <= c')%N.
Proof.
  unfold maybe_advance_commit, sbind, gets. cbv beta iota zeta.
  destruct (n_role n) eqn:Er; try (by left). cbn [is_leader negb].
  destruct (descending _ !! _) as [candidate|] eqn:Ek; [|by left].
  destruct (N.leb_spec candidate (n_commit_index n)); [by left|].
  unfold read_log. destruct (term_at (n_log n) candidate) as [t|] eqn:Et; [|by left].
  case_bool_decide as Ht; cbn [negb]; [subst t|by left]. right. exists candidate.
  split; [destruct (n_pending_config n) as [p|]; [destruct (N.leb p candidate)|]; done|].
  assert (voters (n_membership n) ≠ ∅) as Hne.
  { intros Hv. unfold descending, matched_indices in Ek. by rewrite Hv in Ek. }
  pose proof (commit_candidate n candidate Hne Ek) as Hc.
  split; [|intros c; apply Hc]. do 2 (split; [done|]). split; [by apply Hc|done].
Qed.

(** C2. A leader moves its commit index only forward, only onto an entry of
    its own term, only when a majority of the configuration is known to
    hold the log that far, and then as far as any majority allows. *)
Theorem commit_needs_own_term_majority n :
  let c' := n_commit_index (maybe_advance_commit n).1 in
  c' = n_commit_index n ∨
  n_role n = Leader ∧ (n_commit_index n < c')%N ∧
  term_at (n_log n) c' = Ok (Some (h_term (n_hard n))) ∧
  held_by_majority n c' ∧
  (∀ c, held_by_majority n c → (c <= c')%N).
Proof.
  destruct (advance_commit_cases n) as [->|(c' & -> & (Hr & Hlt & Hm & Ht) & Hmax)];
    [by left|]. right. done.
Qed.

(** And it does move: when the entry at the greatest index some
    majority holds is of the leader's own term and not yet committed, one
    call commits exactly that index. *)
Theorem commit_advances n c :
  committable n c → (∀ c', held_by_majority n c' → (c' <= c)%N) →
  maybe_advance_commit n =
    (let n' := set_commit_index c n in
     match n_pending_config n with
     | Some pending => if N.leb pending c then set_pending_config None n' else n'
     | None => n'
     end, Ok tt).
Proof.
  intros (Hr & Hlt & Hm & Ht) Hmax. unfold maybe_advance_commit, sbind, gets, read_log.
  cbv beta iota zeta. rewrite Hr. cbn [is_leader negb].
  destruct Hm as (Q & HQ & Hcr).
  assert (voters (n_membership n) ≠ ∅) as Hne
    by (destruct HQ as [_ Hq]; by apply is_quorum_spec in Hq as [? _]).
  destruct (descending _ !! _) as [candidate|] eqn:Ek.
  - pose proof (commit_candidate n candidate Hne Ek) as Hc.
    assert (candidate = c) as ->.
    { apply N.le_antisymm; [apply Hmax, Hc; lia|]. apply Hc. by exists Q. }
    destruct (N.leb_spec c (n_commit_index n)); [lia|]. rewrite Ht.
    rewrite bool_decide_true by done. cbn [negb]. unfold modify at 1. cbv beta iota.
    destruct (n_pending_config n) as [p|]; [by destruct (N.leb p c)|done].
  - exfalso. apply lookup_ge_None in Ek. unfold descending in Ek.
    rewrite merge_sort_Permutation in Ek. unfold matched_indices in Ek.
    rewrite length_fmap, length_ascending in Ek.
    pose proof (quorum_le_len (n_membership n)) as Hl. unfold membership_len, saturating_sub in *.
    assert (size (voters (n_membership n)) ≠ 0) by (by intros ?%size_empty_inv%leibniz_equiv).
    pose proof (quorum_pos (n_membership n)). lia.
Qed.

(** ** The apply loop *)

(** Applying one entry to the machine: only commands reach it. *)
Definition apply_entry (m : M) (e : LogEntry) : M * result string (option (list N)) :=
  match e_payload e with
  | Command c =>
      let '(m', r) := sm_apply m (e_index e) c in
      (m', match r with Ok out => Ok (Some out) | Err s => Err s end)
  | Noop | Config _ => (m, Ok None)
  end.

(** The specification of the loop: apply the entries in order, collecting
    outcomes, and stop at the first the machine refuses. *)
Fixpoint apply_entries (m : M) (es : list LogEntry) :
    M * list Applied * option (LogIndex * string) :=
  match es with
  | [] => (m, [], None)
  | e :: es' =>
      match apply_entry m e with
      | (m', Ok r) =>
          let '(m'', out, failed) := apply_entries m' es' in
          (m'', mkApplied (e_index e) (e_term e) r :: out, failed)
      | (m', Err s) => (m', [], Some (e_index e, s))
      end
  end.

(** The committed entries not yet applied. *)
Definition pending_entries (n : Node) : list LogEntry :=
  let v := view (n_log n) in
  take (N.to_nat (n_commit_index n - n_last_applied n))
    (drop (N.to_nat (n_last_applied n - boundary_index v)) (l_entries v)).

(** The state between calls that [apply_committed] relies on. *)
Record applicable (n : Node) : Prop := {
  applicable_wf : log_wf (view (n_log n));
  applicable_low : (boundary_index (view (n_log n)) <= n_last_applied n)%N;
  applicable_high : (n_commit_index n <= Mem.last_index (view (n_log n)))%N
}.

Definition after_apply (n : Node) (m : M) (out : list Applied) : Node :=
  set_applied (n_applied n ++ out)
    (set_last_applied (n_last_applied n + N.of_nat (length out))%N (set_machine m n)).

Definition apply_result (failed : option (LogIndex * string)) : Res unit :=
  match failed with Some (i, s) => Err (Apply i s) | None => Ok tt end.

Lemma applicable_entry n :
  applicable n → (n_last_applied n < n_commit_index n)%N →
  ∃ e, entry (n_log n) (next (n_last_applied n)) = Ok (Some e) ∧
    e_index e = (n_last_applied n + 1)%N ∧ next (n_last_applied n) = e_index e ∧
    pending_entries n = e :: pending_entries (set_last_applied (n_last_applied n + 1)%N n).
Proof.
  intros [Hwf Hlo Hhi] Hlt. pose proof Hwf as [Hc Hb]. rewrite (last_index_wf _ Hwf) in Hhi.
  assert (next (n_last_applied n) = n_last_applied n + 1)%N as En by (apply next_lt; lia).
  destruct (lookup_lt_is_Some_2 (l_entries (view (n_log n)))
    (N.to_nat (n_last_applied n - boundary_index (view (n_log n))))) as [e He]; [lia|].
  pose proof (contiguous_from_lookup _ _ _ _ Hc He) as Hi.
  exists e. rewrite view_entry, En, (entry_wf _ _ Hwf).
  destruct (N.leb_spec (n_last_applied n + 1) (boundary_index (view (n_log n)))); [lia|].
  split; [rewrite <-He; do 2 f_equal; lia|]. split; [lia|]. split; [lia|].
  unfold pending_entries. cbn [set_last_applied n_last_applied n_commit_index n_log].
  replace (N.to_nat (n_commit_index n - n_last_applied n))
    with (S (N.to_nat (n_commit_index n - (n_last_applied n + 1)))) by lia.
  rewrite (drop_S _ _ _ He). simpl. do 3 f_equal. lia.
Qed.

Lemma apply_one_entry n e :
  entry (n_log n) (next (n_last_applied n)) = Ok (Some e) →
  next (n_last_applied n) = e_index e → e_index e = (n_last_applied n + 1)%N →
  apply_one n =
    match apply_entry (n_machine n) e with
    | (m', Ok r) => (after_apply n m' [mkApplied (e_index e) (e_term e) r], Ok tt)
    | (m', Err s) => (after_apply n m' [], Err (Apply (e_index e) s))
    end.
Proof.
  intros He En Ei. unfold apply_one, sbind, gets, read_log. cbv beta iota zeta.
  rewrite He. unfold apply_entry, after_apply. rewrite En, Ei.
  destruct (e_payload e) as [c| |m]; [|by destruct n..].
  unfold machine_apply. destruct (sm_apply _ _ c) as [m' [out|s]]; [by destruct n|].
  destruct n; simpl. by rewrite app_nil_r, N.add_0_r.
Qed.

Lemma after_apply_app n m m' out out' :
  after_apply (after_apply n m out) m' out' = after_apply n m' (out ++ out').
Proof.
  destruct n. unfold after_apply. cbn -[length]. rewrite length_app, app_assoc.
  replace (N.of_nat (length out + length out'))
    with (N.of_nat (length out) + N.of_nat (length out'))%N by lia.
  by rewrite N.add_assoc.
Qed.

Lemma apply_loop_refines fuel n :
  applicable n → N.to_nat (n_commit_index n - n_last_applied n) <= fuel →
  apply_loop fuel n =
    let '(m', out, failed) := apply_entries (n_machine n) (pending_entries n) in
    (after_apply n m' out, apply_result failed).
Proof.
  revert n. induction fuel as [|fuel IH]; intros n Ha Hf.
  - unfold pending_entries. replace (N.to_nat _) with 0 by lia. simpl.
    destruct n; unfold after_apply; simpl. by rewrite app_nil_r, N.add_0_r.
  - cbn [apply_loop]. unfold sbind at 1. unfold gets at 1. cbv beta iota.
    destruct (N.ltb_spec (n_last_applied n) (n_commit_index n)) as [Hlt|Hge].
    + destruct (applicable_entry n Ha Hlt) as (e & He & Ei & En & ->).
      unfold sbind. rewrite (apply_one_entry n e He En Ei). simpl.
      destruct (apply_entry (n_machine n) e) as [m' [r|s]]; [|done].
      rewrite IH; [| |simpl; lia].
      * cbn [n_machine]. unfold after_apply at 1. simpl.
        replace (pending_entries (after_apply n m' [mkApplied (e_index e) (e_term e) r]))
          with (pending_entries (set_last_applied (n_last_applied n + 1) n)) by done.
        destruct (apply_entries m' _) as [[m'' out] failed].
        f_equal. apply after_apply_app.
      * destruct Ha. split; simpl; [done|lia|done].
    + unfold pending_entries. replace (N.to_nat (n_commit_index n - _)) with 0 by lia.
      simpl. destruct n; unfold after_apply; simpl. by rewrite app_nil_r, N.add_0_r.
Qed.

(** C8. [apply_committed] applies every committed entry not applied yet,
    in log order and each exactly once, reports one outcome per entry, and
    stops at the first entry the machine refuses, which it names; only when
    all are applied does it consider compacting. *)
Theorem apply_committed_refines n :
  applicable n →
  apply_committed n =
    let '(m', out, failed) := apply_entries (n_machine n) (pending_entries n) in
    match failed with
    | None => maybe_compact (after_apply n m' out)
    | Some (i, s) => (after_apply n m' out, Err (Apply i s))
    end.
Proof.
  intros Ha. unfold apply_committed. unfold sbind at 1. unfold gets at 1. cbv beta iota.
  unfold sbind. rewrite (apply_loop_refines _ _ Ha) by done.
  destruct (apply_entries _ _) as [[m' out] [[i s]|]]; done.
Qed.

Lemma apply_entries_outcomes m es :
  let '(_, out, failed) := apply_entries m es in
  (λ a, (a_index a, a_term a)) <$> out
    = (λ e, (e_index e, e_term e)) <$> take (length out) es ∧
  match failed with
  | None => length out = length es
  | Some (i, _) => ∃ e, es !! length out = Some e ∧ e_index e = i
  end.
Proof.
  revert m. induction es as [|e es IH]; intros m; simpl; [done|].
  destruct (apply_entry m e) as [m' [r|s]]; [|simpl; split; [done|by exists e]].
  specialize (IH m'). destruct (apply_entries m' es) as [[m'' out] failed].
  destruct IH as [E F]. cbn [length take]. rewrite !fmap_cons, E. split; [done|].
  destruct failed as [[i s]|]; [done|]. by rewrite F.
Qed.

(** On success the outcomes reported are exactly the committed entries
    that were pending, in log order, and the applied index reaches the
    commit index; on a refusal the applied index stays just below the entry
    the error names. *)
Theorem apply_loop_outcomes n :
  applicable n → (n_last_applied n <= n_commit_index n)%N →
  let '(n', r) := apply_loop (N.to_nat (n_commit_index n - n_last_applied n)) n in
  ∃ out, n_applied n' = n_applied n ++ out ∧
    (λ a, (a_index a, a_term a)) <$> out
      = (λ e, (e_index e, e_term e)) <$> take (length out) (pending_entries n) ∧
    (∀ k a, out !! k = Some a → a_index a = (n_last_applied n + 1 + N.of_nat k)%N) ∧
    match r with
    | Ok _ => n_last_applied n' = n_commit_index n ∧ length out = length (pending_entries n)
    | Err e => ∃ s, e = Apply (n_last_applied n' + 1)%N s
    end.
Proof.
  intros Ha Hle. rewrite (apply_loop_refines _ _ Ha) by done.
  pose proof (apply_entries_outcomes (n_machine n) (pending_entries n)) as Ho.
  destruct (apply_entries _ _) as [[m' out] failed]. destruct Ho as [E F].
  destruct Ha as [[Hc Hb] Hlo Hhi].
  assert (∀ k e, pending_entries n !! k = Some e →
            e_index e = (n_last_applied n + 1 + N.of_nat k)%N) as Hidx.
  { intros k e. unfold pending_entries. rewrite lookup_take_Some, lookup_drop.
    intros [Hk _]. rewrite (contiguous_from_lookup _ _ _ _ Hc Hk). lia. }
  exists out. split; [done|]. split; [done|]. split.
  { intros k a Hk. assert (((λ a, (a_index a, a_term a)) <$> out) !! k
      = Some (a_index a, a_term a)) as Hk' by (by rewrite list_lookup_fmap, Hk).
    rewrite E, list_lookup_fmap in Hk'. apply fmap_Some in Hk' as (e & He & Ee).
    apply lookup_take_Some in He as [He _]. injection Ee as -> _. by apply Hidx. }
  destruct failed as [[i s]|]; simpl.
  - destruct F as (e & He & <-). exists s. f_equal. rewrite (Hidx _ _ He). lia.
  - split; [|done]. rewrite F. unfold pending_entries.
    rewrite (last_index_wf _ (conj Hc Hb)) in Hhi.
    rewrite length_take, length_drop. lia.
Qed.

(** ** Contact with a quorum *)

(** A voter heard from within [within] ticks; a replica always hears
    itself. *)
Definition in_contact (within : N) (n : Node) (voter : PeerId) : bool :=
  N.eqb voter (id n)
  || match n_progress n !! voter with
     | Some progress => N.leb (saturating_sub (n_ticks n) within) (p_last_contact progress)
     | None => false
     end.

Lemma contact_count within n acc vs :
  foldl (λ fresh voter,
    if N.eqb voter (id n) then (fresh + 1)%N
    else match n_progress n !! voter with
         | Some progress =>
             if N.leb (saturating_sub (n_ticks n) within) (p_last_contact progress)
             then (fresh + 1)%N else fresh
         | None => fresh
         end) acc vs
  = (acc + N.of_nat (length (filter (λ v, in_contact within n v = true) vs)))%N.
Proof.
  revert acc. induction vs as [|v vs IH]; intros acc; simpl; [lia|].
  rewrite IH, filter_cons. destruct (in_contact within n v) eqn:E; unfold in_contact in E.
  - rewrite decide_True by done. destruct (N.eqb v (id n)); simpl in *; [lia|].
    destruct (n_progress n !! v) as [p|]; [|done]. rewrite E. lia.
  - rewrite decide_False by done. destruct (N.eqb v (id n)); [done|]. simpl in E.
    destruct (n_progress n !! v) as [p|]; [by rewrite E|done].
Qed.

Lemma has_quorum_contact_spec within n :
  has_quorum_contact within n = true ↔
  ∃ Q, majority (n_membership n) Q ∧ ∀ v, v ∈ Q → in_contact within n v = true.
Proof.
  unfold has_quorum_contact. cbv zeta. rewrite contact_count, N.add_0_l.
  rewrite <-voters_with_count. apply quorum_voters_with.
Qed.

(** A leader holds its lease exactly while a majority of the current
    configuration, itself included, has answered within the lease. *)
Theorem lease_is_a_recent_majority (n : Node) :
  has_lease n = true ↔
  n_role n = Leader ∧
  ∃ Q, majority (n_membership n) Q ∧ ∀ v, v ∈ Q →
    v = id n ∨ ∃ p, n_progress n !! v = Some p ∧
      (n_ticks n <= p_last_contact p + c_election_timeout_ticks (n_config n))%N.
Proof.
  unfold has_lease. rewrite andb_true_iff, has_quorum_contact_spec.
  assert (is_leader (n_role n) = true ↔ n_role n = Leader) as -> by (by destruct (n_role n)).
  apply and_iff_compat_l. unfold in_contact, lease_ticks, saturating_sub.
  assert (∀ v, (N.eqb v (id n) || match n_progress n !! v with
      | Some p => N.leb (n_ticks n - c_election_timeout_ticks (n_config n)) (p_last_contact p)
      | None => false end) = true ↔
    v = id n ∨ ∃ p, n_progress n !! v = Some p ∧
      (n_ticks n <= p_last_contact p + c_election_timeout_ticks (n_config n))%N) as Hv.
  { intros v. rewrite orb_true_iff, N.eqb_eq. apply or_iff_compat_l.
    destruct (n_progress n !! v) as [p|]; [|split; [done|naive_solver]].
    rewrite N.leb_le. split; [intros ?; exists p; split; [done|lia]|].
    intros (p' & [= <-] & ?). lia. }
  by setoid_rewrite Hv.
Qed.
End replication.
