(* ===== verification/RaftMerge.v ===== *)
(** * Merging a leader's entries into a follower's log

    [RaftNode::merge_entries] of [src/crates/astrs-raft/src/core/replication.rs]
    against the textbook description of the log merge, and the two searches a
    conflict response is built from. *)

From Stdlib Require Import Lia.
From stdpp Require Import base tactics list gmap strings numbers.
From S2P Require Import Prelude RaftTypes RaftMembership RaftLog RaftMachine RaftNode.

(** ** The specification *)

(** Keep what agrees; from the first disagreement on, take the leader's
    entries; keep what follows when there is no disagreement. *)
Fixpoint merge (old es : list LogEntry) : list LogEntry :=
  match es, old with
  | [], _ => old
  | _ :: _, [] => es
  | e :: es', o :: old' =>
      if N.eqb (e_term o) (e_term e) then o :: merge old' es' else es
  end.

(** How many leading entries agree on their terms. *)
Fixpoint agreeing (old es : list LogEntry) : nat :=
  match old, es with
  | o :: old', e :: es' => if N.eqb (e_term o) (e_term e) then S (agreeing old' es') else 0
  | _, _ => 0
  end.

Lemma agreeing_le old es : agreeing old es <= length old ∧ agreeing old es <= length es.
Proof.
  revert es. induction old as [|o old IH]; intros [|e es]; simpl; try lia.
  destruct (N.eqb _ _); [|lia]. specialize (IH es). lia.
Qed.

Lemma merge_agreeing old es :
  merge old es =
    match drop (agreeing old es) es with
    | [] => old
    | rest => take (agreeing old es) old ++ rest
    end.
Proof.
  revert es. induction old as [|o old IH]; intros [|e es]; simpl; try done.
  destruct (N.eqb _ _); simpl; [|done]. rewrite IH. by destruct (drop _ es).
Qed.

(** A second delivery of the same entries changes nothing. *)
Lemma merge_idempotent old es : merge (merge old es) es = merge old es.
Proof.
  revert old. induction es as [|e es IH]; intros [|o old]; simpl; try done.
  - rewrite N.eqb_refl. f_equal. specialize (IH []). by destruct es.
  - destruct (N.eqb_spec (e_term o) (e_term e)) as [E|E]; simpl.
    + destruct (N.eqb_spec (e_term o) (e_term e)); [|done]. by rewrite IH.
    + rewrite N.eqb_refl. f_equal. specialize (IH []). by destruct es.
Qed.

(** After a merge, the log carries the leader's terms over its entries. *)
Lemma merge_terms old es k e :
  es !! k = Some e → e_term <$> merge old es !! k = Some (e_term e).
Proof.
  revert old k. induction es as [|x es IH]; intros [|o old] k Hk; [done|done|..].
  - simpl merge. by rewrite Hk.
  - simpl. destruct (N.eqb_spec (e_term o) (e_term x)) as [E|E]; [|by rewrite Hk].
    destruct k as [|k]; simpl in *; [by simplify_eq/=; rewrite E|by apply IH].
Qed.

Lemma merge_contiguous i old es :
  contiguous_from i old → contiguous_from i es → contiguous_from i (merge old es).
Proof.
  revert i old. induction es as [|e es IH]; intros i [|o old] Ho He; try done.
  simpl. destruct (N.eqb _ _); [|done]. destruct Ho as [? Ho], He as [_ He].
  split; [done|]. by apply IH.
Qed.

Lemma length_merge old es : length (merge old es) <= Nat.max (length old) (length es).
Proof.
  revert old. induction es as [|e es IH]; intros [|o old]; simpl; try lia.
  destruct (N.eqb _ _); simpl; [|lia]. specialize (IH old). lia.
Qed.

(** ** The code *)

Section merging.
Context {L M : Type} `{LogStoreLaws L} `{StateMachine M}.
Abbreviation Node := (RaftNode L M).

Lemma mutates_ok v v' (ref : MemoryLog * Res unit) :
  mutates v v' (Ok tt) ref → v' = ref.1 ∧ ref.2 = Ok tt.
Proof. intros [[-> <-]|[_ [e ?]]]; done. Qed.

(** Terms above the boundary, by position. *)
Lemma term_at_position v k :
  log_wf v →
  Mem.term_at v (boundary_index v + 1 + N.of_nat k) = Ok (e_term <$> l_entries v !! k).
Proof.
  intros Hwf. rewrite (term_at_wf _ _ Hwf).
  destruct (N.eqb_spec (boundary_index v + 1 + N.of_nat k) 0); [lia|].
  destruct (N.eqb_spec (boundary_index v + 1 + N.of_nat k) (boundary_index v)); [lia|].
  destruct (N.ltb_spec (boundary_index v + 1 + N.of_nat k) (boundary_index v)); [lia|].
  do 3 f_equal. lia.
Qed.

(** Where the scan stops, and whether it met a disagreement there. *)
Lemma merge_scan_spec (l : L) off k es :
  log_wf (view l) → contiguous_from (boundary_index (view l) + 1 + N.of_nat k) es →
  let old := drop k (l_entries (view l)) in
  let j := agreeing old es in
  merge_scan l off es =
    Ok (off + j,
        if bool_decide (j < length old ∧ j < length es)
        then Some (boundary_index (view l) + 1 + N.of_nat (k + j))%N else None).
Proof.
  intros Hwf. revert off k. induction es as [|e es IH]; intros off k Hc; cbn zeta.
  - rewrite bool_decide_false by (simpl; lia). simpl.
    by destruct (drop k _); simpl; rewrite Nat.add_0_r.
  - destruct Hc as [He Hc]. cbn [merge_scan]. rewrite view_term_at, He.
    rewrite (term_at_position _ k Hwf). simpl.
    destruct (l_entries (view l) !! k) as [o|] eqn:Ek; simpl.
    + rewrite (drop_S _ _ _ Ek). cbn [agreeing length].
      destruct (N.eqb (e_term o) (e_term e)).
      * rewrite (IH (S off) (S k)); [|by replace (N.of_nat (S k)) with (N.of_nat k + 1)%N
                                         by lia; rewrite N.add_assoc].
        cbn zeta. set (j := agreeing _ es). f_equal. f_equal; [lia|].
        rewrite (bool_decide_ext (j < length (drop (S k) (l_entries (view l))) ∧ j < length es)
          (S j < S (length (drop (S k) (l_entries (view l)))) ∧ S j < S (length es))) by lia.
        case_bool_decide; [|done]. do 2 f_equal. lia.
      * rewrite bool_decide_true by lia. by rewrite !Nat.add_0_r.
    + apply lookup_ge_None in Ek. rewrite drop_ge by done. cbn [agreeing].
      rewrite bool_decide_false by (simpl; lia). by rewrite Nat.add_0_r.
Qed.

Lemma on_log_ok (f : L → L * Res unit) (g : MemoryLog → MemoryLog * Res unit) n n' :
  (∀ l, mutates (view l) (view (f l).1) (f l).2 (g (view l))) →
  on_log (M:=M) f n = (n', Ok tt) →
  view (n_log n') = (g (view (n_log n))).1 ∧ (g (view (n_log n))).2 = Ok tt.
Proof.
  intros Hf. unfold on_log. specialize (Hf (n_log n)).
  destruct (f (n_log n)) as [l' r]. intros [= <- ->]. by apply mutates_ok in Hf.
Qed.

Lemma recompute_log n : n_log (recompute_membership n : Node * _).1 = n_log n.
Proof.
  unfold recompute_membership, sbind, gets, read_log, modify.
  by destruct (entries _ _ _).
Qed.

(** The log a merge at position [k] leaves. *)
Definition merged (v : MemoryLog) (k : nat) (es : list LogEntry) : MemoryLog :=
  mkLog (l_hard_state v) (take k (l_entries v) ++ merge (drop k (l_entries v)) es)
    (l_snapshot v).

Lemma merged_same v k es :
  merge (drop k (l_entries v)) es = drop k (l_entries v) → merged v k es = v.
Proof. intros E. unfold merged. rewrite E, take_drop. by destruct v. Qed.

Lemma truncate_at v j :
  log_wf v → Mem.truncate_from v (boundary_index v + 1 + N.of_nat j)
    = (mkLog (l_hard_state v) (take j (l_entries v)) (l_snapshot v), Ok tt).
Proof.
  intros Hwf. unfold Mem.truncate_from, Mem.position. rewrite (first_index_wf _ Hwf).
  destruct (N.ltb_spec (boundary_index v + 1 + N.of_nat j) (boundary_index v + 1)); [lia|].
  unfold distance_to, saturating_sub. by replace (N.to_nat _) with j by lia.
Qed.

(** The reference run of the truncation and the append of a merge. *)
Definition merge_ops (v : MemoryLog) (from : nat) (conflict : option LogIndex)
    (es : list LogEntry) : MemoryLog :=
  let v1 := match conflict with
            | Some i => (Mem.truncate_from v i).1
            | None => v
            end in
  match drop from es with
  | [] => v1
  | rest => (Mem.append v1 rest).1
  end.

Lemma merge_entries_ops es (n n' : Node) from conflict :
  merge_scan (n_log n) 0 es = Ok (from, conflict) →
  merge_entries es n = (n', Ok tt) →
  view (n_log n') = merge_ops (view (n_log n)) from conflict es ∧
  (drop from es = [] ∨
   (Mem.append (match conflict with
                | Some i => (Mem.truncate_from (view (n_log n)) i).1
                | None => view (n_log n) end) (drop from es)).2 = Ok tt).
Proof.
  intros Hs. unfold merge_entries. intros (n0 & scan & E0 & Hm)%sbind_ok.
  unfold read_log in E0. rewrite Hs in E0. injection E0 as <- <-.
  apply sbind_ok in Hm as (n1 & [] & E1 & Hm). apply sbind_ok in Hm as (n2 & [] & E2 & Hm).
  assert (view (n_log n1) = match conflict with
    | Some i => (Mem.truncate_from (view (n_log n)) i).1 | None => view (n_log n) end) as V1.
  { destruct conflict as [i|]; [|by injection E1 as <-].
    by eapply (on_log_ok _ (λ v, Mem.truncate_from v i)) in E1 as [V1 _];
      [|intros l; apply truncate_from_law]. }
  assert (view (n_log n') = view (n_log n2)) as V3.
  { destruct (_ || _); [|by injection Hm as <-].
    pose proof (recompute_log n2) as Hr. rewrite Hm in Hr. simpl in Hr. by rewrite Hr. }
  unfold merge_ops. rewrite V3, <-V1.
  destruct (drop from es) as [|e rest]; [split; [by injection E2 as <-|by left]|].
  eapply (on_log_ok _ (λ v, Mem.append v (e :: rest))) in E2 as [V2 R2];
    [|intros l; apply append_law]. auto.
Qed.

(** What a merge at consistency point [p] relies on. *)
Record mergeable (v : MemoryLog) (p : LogIndex) (es : list LogEntry) : Prop := {
  mergeable_wf : log_wf v;
  mergeable_low : (boundary_index v <= p)%N;
  mergeable_high : (p <= Mem.last_index v)%N;
  mergeable_run : contiguous_from (p + 1) es;
  mergeable_fits : (p + N.of_nat (length es) < u64_max)%N
}.

Definition merge_at (v : MemoryLog) (p : LogIndex) (es : list LogEntry) : MemoryLog :=
  merged v (N.to_nat (p - boundary_index v)) es.

Lemma merge_entries_view (n n' : Node) es p :
  mergeable (view (n_log n)) p es → merge_entries es n = (n', Ok tt) →
  view (n_log n') = merge_at (view (n_log n)) p es.
Proof.
  intros [Hwf Hlo Hhi Hc Hb] Hm. unfold merge_at.
  set (v := view (n_log n)) in *. set (k := N.to_nat (p - boundary_index v)).
  rewrite (last_index_wf _ Hwf) in Hhi.
  replace (p + 1)%N with (boundary_index v + 1 + N.of_nat k)%N in Hc by lia.
  pose proof (merge_scan_spec (n_log n) 0 k es Hwf Hc) as Hs. cbn zeta in Hs.
  fold v in Hs. set (old := drop k (l_entries v)) in *. set (j := agreeing old es) in *.
  destruct (merge_entries_ops _ _ _ _ _ Hs Hm) as [-> Ha]. fold v in Ha |- *.
  unfold merge_ops. simpl plus in *. unfold merged. fold old.
  rewrite merge_agreeing. fold j. pose proof (agreeing_le old es) as [Hj1 Hj2]. fold j in Hj1, Hj2.
  assert (length (l_entries v) = k + length old) as Hlen
    by (unfold old; rewrite length_drop; lia).
  destruct (drop j es) as [|e rest] eqn:Ed.
  - rewrite bool_decide_false; [|apply (f_equal length) in Ed; rewrite length_drop in Ed;
                                  simpl in Ed; lia].
    unfold old. rewrite take_drop. by destruct v.
  - destruct Ha as [?|Ha]; [done|].
    assert (j < length es) by (apply (f_equal length) in Ed; rewrite length_drop in Ed;
                               simpl in Ed; lia).
    assert (take k (l_entries v) ++ take j old = take (k + j) (l_entries v)) as Et.
    { unfold old. rewrite <-(take_drop k (l_entries v)) at 3.
      rewrite take_app_ge by (rewrite length_take; lia).
      rewrite length_take_le by lia. by replace (k + j - k) with j by lia. }
    rewrite app_assoc, Et.
    case_bool_decide as Hd.
    + rewrite (truncate_at v (k + j) Hwf) in Ha |- *. simpl in *.
      unfold Mem.append in Ha |- *. by destruct (check_contiguous _ _).
    + assert (j = length old) as Ej by lia. rewrite take_ge by lia.
      unfold Mem.append in Ha |- *. destruct (check_contiguous _ _); [|done]. by simpl.
Qed.

Lemma boundary_merge_at v p es : boundary_index (merge_at v p es) = boundary_index v.
Proof. reflexivity. Qed.

Lemma take_merge_at v p es i :
  mergeable v p es → (i <= p)%N → Mem.entry (merge_at v p es) i = Mem.entry v i.
Proof.
  intros [Hwf Hlo Hhi Hc Hb] Hi. rewrite (last_index_wf _ Hwf) in Hhi.
  unfold Mem.entry, Mem.position, merge_at, merged. cbn [l_entries].
  change (Mem.first_index (mkLog _ _ (l_snapshot v))) with (Mem.first_index v).
  rewrite (first_index_wf _ Hwf). destruct (N.ltb_spec i (boundary_index v + 1)); [done|].
  unfold distance_to, saturating_sub. simpl. f_equal.
  rewrite lookup_app_l by (rewrite length_take; lia).
  rewrite lookup_take_lt by lia. done.
Qed.

Lemma mergeable_offset v p es :
  mergeable v p es →
  let k := N.to_nat (p - boundary_index v) in
  k <= length (l_entries v) ∧ contiguous_from (boundary_index v + 1 + N.of_nat k) es.
Proof.
  intros [Hwf Hlo Hhi Hc Hb]. rewrite (last_index_wf _ Hwf) in Hhi. split; [lia|].
  by replace (boundary_index v + 1 + N.of_nat _)%N with (p + 1)%N by lia.
Qed.

Lemma merge_at_wf v p es : mergeable v p es → log_wf (merge_at v p es).
Proof.
  intros Hm. destruct (mergeable_offset _ _ _ Hm) as [Hk Hes].
  destruct Hm as [[Hc Hb] Hlo Hhi _ Hf]. unfold merge_at, merged. split.
  - change (boundary_index (mkLog _ _ (l_snapshot v))) with (boundary_index v).
    cbn [l_entries]. apply contiguous_from_app. split; [by apply contiguous_from_take|].
    rewrite length_take_le by done. apply merge_contiguous; [|done].
    by apply contiguous_from_drop.
  - change (boundary_index (mkLog _ _ (l_snapshot v))) with (boundary_index v).
    cbn [l_entries]. rewrite length_app, length_take_le by done.
    pose proof (length_merge (drop (N.to_nat (p - boundary_index v)) (l_entries v)) es) as Hl.
    rewrite length_drop in Hl. lia.
Qed.

Lemma merge_at_terms v p es e :
  mergeable v p es → e ∈ es →
  Mem.term_at (merge_at v p es) (e_index e) = Ok (Some (e_term e)).
Proof.
  intros Hm [j Hj]%list_elem_of_lookup_1.
  destruct (mergeable_offset _ _ _ Hm) as [Hk Hes].
  pose proof (merge_at_wf _ _ _ Hm) as Hwf'.
  set (k := N.to_nat (p - boundary_index v)) in *.
  assert (e_index e = boundary_index (merge_at v p es) + 1 + N.of_nat (k + j))%N as ->
    by (rewrite (contiguous_from_lookup _ _ _ _ Hes Hj), boundary_merge_at; lia).
  rewrite (term_at_position _ _ Hwf'). f_equal. unfold merge_at, merged. cbn [l_entries].
  fold k. rewrite lookup_app_r by (rewrite length_take; lia).
  rewrite length_take_le by done. replace (k + j - k) with j by lia.
  by apply merge_terms.
Qed.

Lemma last_index_merge_at v p es :
  mergeable v p es →
  (p + N.of_nat (length es) <= Mem.last_index (merge_at v p es))%N.
Proof.
  intros Hm. destruct es as [|e es _] using rev_ind.
  - simpl. destruct Hm as [_ _ Hhi _ _]. unfold merge_at, merged.
    rewrite (merge_agreeing _ []). rewrite drop_nil, take_drop. simpl.
    destruct v. simpl in *. lia.
  - pose proof (merge_at_terms _ _ _ e Hm) as Ht. pose proof (merge_at_wf _ _ _ Hm) as Hwf'.
    destruct (N.ltb_spec (Mem.last_index (merge_at v p (es ++ [e])))
      (p + N.of_nat (length (es ++ [e])))) as [Hlt|]; [|done].
    assert (e_index e = p + N.of_nat (length (es ++ [e])))%N as Ei.
    { destruct Hm as [_ _ _ Hc _].
      assert ((es ++ [e]) !! length es = Some e) as Hl by (by rewrite list_lookup_middle).
      rewrite (contiguous_from_lookup _ _ _ _ Hc Hl), length_app. simpl. lia. }
    rewrite <-Ei in Hlt. rewrite (term_at_none_past_end _ _ Hwf' Hlt) in Ht.
    discriminate Ht. apply elem_of_app. right. left.
Qed.

Lemma mergeable_again v p es : mergeable v p es → mergeable (merge_at v p es) p es.
Proof.
  intros Hm. pose proof (merge_at_wf _ _ _ Hm). pose proof (last_index_merge_at _ _ _ Hm).
  destruct Hm. split; rewrite ?boundary_merge_at; try done. lia.
Qed.

Lemma merge_at_idempotent v p es :
  mergeable v p es → merge_at (merge_at v p es) p es = merge_at v p es.
Proof.
  intros Hm. destruct (mergeable_offset _ _ _ Hm) as [Hk _].
  unfold merge_at. change (boundary_index (merged v _ es)) with (boundary_index v).
  unfold merged. cbn [l_entries l_hard_state l_snapshot]. f_equal.
  rewrite take_app_le by (rewrite length_take; lia).
  rewrite take_take, Nat.min_id. f_equal.
  rewrite drop_app_ge by (rewrite length_take; lia). rewrite length_take_le by done.
  rewrite Nat.sub_diag. apply merge_idempotent.
Qed.

(** C3. Merging is the textbook merge: the follower's log keeps every entry
    up to the consistency point, keeps later entries as long as they agree
    with the leader's, and is overwritten from the first disagreement on;
    afterwards it carries the leader's term at each of the leader's
    entries, and the log is well-formed. *)
Theorem merge_entries_refines (n n' : Node) es p :
  mergeable (view (n_log n)) p es → merge_entries es n = (n', Ok tt) →
  let v := view (n_log n) in
  let k := N.to_nat (p - boundary_index v) in
  view (n_log n') = mkLog (l_hard_state v)
    (take k (l_entries v) ++ merge (drop k (l_entries v)) es) (l_snapshot v) ∧
  log_wf (view (n_log n')) ∧
  (∀ e, e ∈ es → term_at (n_log n') (e_index e) = Ok (Some (e_term e))) ∧
  (∀ i, (i <= p)%N → entry (n_log n') i = entry (n_log n) i).
Proof.
  intros Hm E. pose proof (merge_entries_view _ _ _ _ Hm E) as Hv. cbn zeta.
  split; [done|]. rewrite Hv. split; [by apply merge_at_wf|]. split.
  - intros e He. rewrite view_term_at, Hv. by apply merge_at_terms.
  - intros i Hi. rewrite !view_entry, Hv. by apply take_merge_at.
Qed.

(** Delivering the same entries again leaves the log as the first
    delivery left it. *)
Theorem duplicate_merge_is_harmless (n n1 n2 : Node) es p :
  mergeable (view (n_log n)) p es →
  merge_entries es n = (n1, Ok tt) → merge_entries es n1 = (n2, Ok tt) →
  view (n_log n2) = view (n_log n1).
Proof.
  intros Hm E1 E2. pose proof (merge_entries_view _ _ _ _ Hm E1) as V1.
  rewrite (merge_entries_view n1 n2 es p); [|rewrite V1; by apply mergeable_again|done].
  rewrite V1. by apply merge_at_idempotent.
Qed.
End merging.

(** ** Merging into a [MemoryLog] never fails *)

Section memory_merge.
Context {M : Type} `{StateMachine M}.
Abbreviation MemNode := (RaftNode MemoryLog M).

Lemma memory_recompute_ok (n : MemNode) :
  ∃ n', recompute_membership n = (n', Ok tt).
Proof.
  unfold recompute_membership, sbind, gets, read_log, modify. simpl. unfold Mem.entries.
  rewrite N.ltb_irrefl. by destruct (Mem.position _ _); eauto.
Qed.

Lemma append_rest_ok v es :
  log_wf v → (Mem.last_index v + N.of_nat (length es) < u64_max)%N →
  contiguous_from (Mem.last_index v + 1) es → (Mem.append v es).2 = Ok tt.
Proof.
  intros Hwf Hb Hc. unfold Mem.append, check_contiguous. rewrite next_lt by lia.
  apply check_contiguous_from_spec in Hc; [by rewrite Hc|lia].
Qed.

Lemma merge_append_ok v p es :
  mergeable v p es →
  let k := N.to_nat (p - boundary_index v) in
  let j := agreeing (drop k (l_entries v)) es in
  let v1 := if bool_decide (j < length (drop k (l_entries v)) ∧ j < length es)
            then (Mem.truncate_from v (boundary_index v + 1 + N.of_nat (k + j))%N).1 else v in
  drop j es = [] ∨ (Mem.append v1 (drop j es)).2 = Ok tt.
Proof.
  intros Hm. destruct (mergeable_offset _ _ _ Hm) as [Hk Hes]. cbn zeta.
  set (k := N.to_nat (p - boundary_index v)) in *.
  set (old := drop k (l_entries v)). set (j := agreeing old es).
  pose proof (agreeing_le old es) as [Hj1 Hj2]. fold j in Hj1, Hj2.
  assert (length (l_entries v) = k + length old) as Hlen
    by (unfold old; rewrite length_drop; lia).
  destruct (decide (j = length es)) as [E|NE]; [left; rewrite E; apply drop_all|right].
  pose proof (contiguous_from_drop _ _ j Hes) as Hd.
  destruct Hm as [Hwf Hlo _ _ Hf].
  assert (∀ v1, log_wf v1 → Mem.last_index v1 = (boundary_index v + N.of_nat (k + j))%N →
    (Mem.append v1 (drop j es)).2 = Ok tt) as Hdone.
  { intros v1 Hwf1 El. apply append_rest_ok; rewrite ?El; [done|rewrite length_drop; lia|].
    by replace (_ + 1)%N with (boundary_index v + 1 + N.of_nat k + N.of_nat j)%N by lia. }
  case_bool_decide as Hc; apply Hdone.
  - by apply truncate_from_wf.
  - rewrite (last_index_wf _ (truncate_from_wf _ _ Hwf)), (truncate_at v _ Hwf).
    cbn [fst l_entries]. rewrite length_take_le by lia. done.
  - done.
  - rewrite (last_index_wf _ Hwf). lia.
Qed.

(** Over the in-memory log a merge always succeeds: the truncation is
    never refused and what is left to append always continues the log. *)
Theorem memory_merge_succeeds (n : MemNode) es p :
  mergeable (n_log n) p es →
  ∃ n', merge_entries es n = (n', Ok tt) ∧ n_log n' = merge_at (n_log n) p es.
Proof.
  intros Hm.
  assert (∃ n', merge_entries es n = (n', Ok tt)) as [n' E]; [|exists n'; split; [done|];
    exact (merge_entries_view n n' es p Hm E)].
  pose proof (merge_append_ok _ _ _ Hm) as Ha. cbn zeta in Ha.
  destruct (mergeable_offset _ _ _ Hm) as [Hk Hes].
  set (k := N.to_nat (p - boundary_index (n_log n))) in *.
  pose proof (merge_scan_spec (n_log n) 0 k es (mergeable_wf _ _ _ Hm) Hes) as Hs.
  cbn zeta in Hs. simpl view in Hs. unfold Datatypes.id in Hs.
  set (j := agreeing (drop k (l_entries (n_log n))) es) in *.
  unfold merge_entries, sbind at 1. unfold read_log. rewrite Hs. simpl plus. cbv beta iota.
  set (conflict := if bool_decide _ then _ else None) in *.
  assert (∃ n1, (match conflict with
    | Some i => on_log (λ l, truncate_from l i) | None => ret tt end) n = (n1, Ok tt) ∧
    n_log n1 = (if bool_decide (j < length (drop k (l_entries (n_log n))) ∧ j < length es)
      then (Mem.truncate_from (n_log n) (boundary_index (n_log n) + 1 + N.of_nat (k + j))%N).1
      else n_log n)) as (n1 & E1 & L1).
  { unfold conflict. case_bool_decide; [|by eexists].
    unfold on_log. simpl. rewrite (truncate_at _ _ (mergeable_wf _ _ _ Hm)). by eexists. }
  rewrite <-L1 in Ha. unfold sbind. rewrite E1.
  assert (∃ n2, (match drop j es with
    | [] => ret tt | _ :: _ => on_log (λ l, append l (drop j es)) end) n1 = (n2, Ok tt))
    as (n2 & E2).
  { destruct Ha as [->|Ha]; [by eexists|]. destruct (drop j es) as [|e rest]; [by eexists|].
    unfold on_log. simpl. destruct (Mem.append (n_log n1) (e :: rest)) as [l2 r2].
    simpl in Ha. subst r2. by eexists. }
  destruct (drop j es); rewrite E2; (destruct (_ || _); [apply memory_recompute_ok|by eexists]).
Qed.
End memory_merge.

(** ** Conflict search *)

Section conflict.
Context {L : Type} `{LogStoreLaws L}.

Lemma term_at_total (l : L) i : ∃ t, term_at l i = Ok t.
Proof.
  rewrite view_term_at. unfold Mem.term_at, Mem.entry, rbind.
  destruct (is_empty_sentinel i); [eauto|]. destruct (l_snapshot _); [|eauto].
  destruct (N.eqb _ _); eauto.
Qed.

Lemma first_index_loop_spec (l : L) floor term fuel index :
  (floor <= index)%N → N.to_nat (index - floor) <= fuel →
  term_at l index = Ok (Some term) →
  ∃ i, first_index_loop l floor term fuel index = Ok i ∧ (floor <= i <= index)%N ∧
    (∀ j, (i <= j <= index)%N → term_at l j = Ok (Some term)) ∧
    (i = floor ∨ term_at l (i - 1) ≠ Ok (Some term)).
Proof.
  revert index. induction fuel as [|fuel IH]; intros index Hle Hf Ht; simpl.
  - exists index. split; [done|]. split; [lia|]. split; [|left; lia].
    intros j Hj. by replace j with index by lia.
  - destruct (N.ltb_spec floor index) as [Hlt|Hge].
    2: { exists index. split; [done|]. split; [lia|]. split; [|left; lia].
         intros j Hj. by replace j with index by lia. }
    unfold previous, saturating_sub. destruct (term_at_total l (index - 1)) as [t Et].
    rewrite Et. simpl.
    assert (t ≠ Some term → ∃ i, Ok (E:=RaftError) index = Ok i ∧ (floor <= i <= index)%N ∧
      (∀ j, (i <= j <= index)%N → term_at l j = Ok (Some term)) ∧
      (i = floor ∨ term_at l (i - 1) ≠ Ok (Some term))) as Hstop.
    { intros Hne. exists index. split; [done|]. split; [lia|].
      split; [|right; congruence]. intros j Hj. by replace j with index by lia. }
    destruct t as [t|]; [|by apply Hstop].
    destruct (N.eqb_spec t term) as [->|Hne]; [|apply Hstop; congruence].
    destruct (IH (index - 1)%N) as (i & E & Hi & Hall & Hend); [lia|lia|done|].
    exists i. split; [done|]. split; [lia|]. split; [|done]. intros j Hj.
    destruct (decide (j = index)) as [->|]; [done|]. apply Hall. lia.
Qed.

(** The conflict index a follower answers with is the first index of
    the whole run of entries of the conflicting term it still holds. *)
Theorem first_index_of_term_is_first (l : L) from term :
  (first_index l <= from)%N → term_at l from = Ok (Some term) →
  ∃ i, first_index_of_term l from term = Ok i ∧ (first_index l <= i <= from)%N ∧
    (∀ j, (i <= j <= from)%N → term_at l j = Ok (Some term)) ∧
    (i = first_index l ∨ term_at l (i - 1) ≠ Ok (Some term)).
Proof. intros Hle Ht. unfold first_index_of_term. by apply first_index_loop_spec. Qed.

(** Terms never decrease along the log. *)
Definition terms_ascend (l : L) : Prop :=
  ∀ i j ti tj, (first_index l <= i)%N → (i <= j)%N →
    term_at l i = Ok (Some ti) → term_at l j = Ok (Some tj) → (ti <= tj)%N.

Lemma last_index_loop_spec (l : L) term fuel index :
  terms_ascend l → (0 < first_index l)%N → N.to_nat index < fuel →
  ∃ r, last_index_loop l (first_index l) term fuel index = Ok r ∧
    match r with
    | Some i => (first_index l <= i <= index)%N ∧ term_at l i = Ok (Some term) ∧
        ∀ j, (i < j <= index)%N → term_at l j ≠ Ok (Some term)
    | None => ∀ j, (first_index l <= j <= index)%N → term_at l j ≠ Ok (Some term)
    end.
Proof.
  intros Hasc Hpos. revert index. induction fuel as [|fuel IH]; intros index Hf; [lia|].
  cbn [last_index_loop]. unfold is_empty_sentinel.
  destruct (N.leb_spec (first_index l) index) as [Hle|Hgt].
  2: { exists None. split; [done|]. intros j Hj. lia. }
  destruct (N.eqb_spec index 0) as [E0|_]; [lia|]. simpl.
  destruct (term_at_total l index) as [t Et]. rewrite Et. simpl.
  assert (t ≠ Some term →
    ∃ r, last_index_loop l (first_index l) term fuel (previous index) = Ok r ∧
    match r with
    | Some i => (first_index l <= i <= index)%N ∧ term_at l i = Ok (Some term) ∧
        ∀ j, (i < j <= index)%N → term_at l j ≠ Ok (Some term)
    | None => ∀ j, (first_index l <= j <= index)%N → term_at l j ≠ Ok (Some term)
    end) as Hgo.
  { intros Hne. destruct (IH (previous index)) as (r & E & Hr);
      [unfold previous, saturating_sub; lia|]. exists r. split; [done|].
    unfold previous, saturating_sub in Hr.
    assert (∀ j, (j = index ∨ term_at l j ≠ Ok (Some term)) →
                 term_at l j ≠ Ok (Some term)) as Hj by (intros j [->|?]; congruence).
    destruct r as [i|].
    - destruct Hr as (Hi & Hti & Hlast). split; [lia|]. split; [done|].
      intros j Hji. apply Hj. destruct (decide (j = index)); [by left|right].
      apply Hlast. lia.
    - intros j Hji. apply Hj. destruct (decide (j = index)); [by left|right].
      apply Hr. lia. }
  destruct t as [t|]; [|by apply Hgo].
  destruct (N.eqb_spec t term) as [->|Hne].
  - exists (Some index). split; [done|]. split; [lia|]. split; [done|]. intros j Hj. lia.
  - destruct (N.ltb_spec t term) as [Hlt|]; [|apply Hgo; congruence].
    exists None. split; [done|]. intros j Hj Hjt.
    pose proof (Hasc j index term t ltac:(lia) ltac:(lia) Hjt Et). lia.
Qed.

(** The leader's answer to a conflict hint is exact: it finds the last
    entry of the hinted term in its log, and says so when there is none. *)
Theorem last_index_of_term_is_last (l : L) term :
  terms_ascend l → (0 < first_index l)%N →
  ∃ r, last_index_of_term l term = Ok r ∧
    match r with
    | Some i => (first_index l <= i <= last_index l)%N ∧ term_at l i = Ok (Some term) ∧
        ∀ j, (i < j <= last_index l)%N → term_at l j ≠ Ok (Some term)
    | None => ∀ j, (first_index l <= j <= last_index l)%N → term_at l j ≠ Ok (Some term)
    end.
Proof. intros Ha Hp. unfold last_index_of_term. apply last_index_loop_spec; [done|done|lia]. Qed.
End conflict.
