(* ===== verification/RaftScenarios.v ===== *)
(** * Concrete executions of the Raft model

    The model run on small clusters: executions that witness the theorems of
    [RaftElection], [RaftFacts], [RaftReplication] and [RaftMerge], and three
    behaviours that differ from what the code's comments promise. *)

From Stdlib Require Import Lia.
From stdpp Require Import base tactics list gmap strings numbers sorting.
From S2P Require Import Prelude RaftTypes RaftMembership RaftLog RaftMachine RaftNode.
From S2P Require Import RaftElection RaftFacts RaftReplication RaftMerge.

Open Scope N_scope.

Abbreviation DemoNode := (RaftNode MemoryLog MemoryStateMachine).
Abbreviation DemoCluster := (@Cluster MemoryLog MemoryStateMachine).

(** ** Running a cluster *)

(** One input per step; a message is delivered only if it was sent. *)
Definition was_sent (c : DemoCluster) (i : Input) : bool :=
  match i with Deliver e => bool_decide (e ∈ cl_net c) | _ => true end.

Definition exec_step (c : DemoCluster) (s : PeerId * Input) : option DemoCluster :=
  match cl_nodes c !! s.1 with
  | None => None
  | Some n =>
      if was_sent c s.2 then Some (update_cluster c s.1 (run_input s.2 n)) else None
  end.

Fixpoint exec (sched : list (PeerId * Input)) (c : DemoCluster) : option DemoCluster :=
  match sched with
  | [] => Some c
  | s :: rest => match exec_step c s with Some c' => exec rest c' | None => None end
  end.

Lemma exec_step_sound c s c' : exec_step c s = Some c' → cluster_step c c'.
Proof.
  unfold exec_step. destruct (cl_nodes c !! s.1) as [n|] eqn:En; [|done].
  destruct (was_sent c s.2) eqn:Ed; [|done]. intros [= <-].
  apply step_input; [done|]. intros e He. rewrite He in Ed.
  by apply bool_decide_eq_true in Ed.
Qed.

Lemma exec_reachable V sched c c' :
  reachable V c → exec sched c = Some c' → reachable V c'.
Proof.
  revert c. induction sched as [|s sched IH]; intros c Hr; simpl; [by intros [= <-]|].
  destruct (exec_step c s) as [c1|] eqn:E; [|done]. apply IH.
  eapply reachable_step; [done|]. by eapply exec_step_sound.
Qed.

(** ** Three replicas *)

Definition three : Membership := membership_new [1; 2; 3].

(** The default timing, with a cap on the entries of one [AppendEntries]. *)
Definition demo_config (cap : N) (i : PeerId) : RaftConfig :=
  let c := with_peer (with_peer (with_peer (config_new i) 1 "10.0.0.1:7500")
             2 "10.0.0.2:7500") 3 "10.0.0.3:7500" in
  mkConfig (c_id c) (c_peers c) (c_election_timeout_ticks c) (c_election_jitter_ticks c)
    (c_heartbeat_ticks c) (c_tick_interval c) cap (c_snapshot_threshold c)
    (c_pre_vote c) (c_seed c).

Definition demo_node (cap : N) (i : PeerId) : DemoNode :=
  match node_new (demo_config cap i) memory_log_new machine_new with
  | Ok n => n
  | Err _ => initial_node (demo_config cap i) memory_log_new machine_new
  end.

Definition demo_start (cap : N) : DemoCluster :=
  mkCluster (<[1 := demo_node cap 1]> (<[2 := demo_node cap 2]>
              (<[3 := demo_node cap 3]> ∅))) [] [].

Lemma demo_node_new cap i :
  cap = 1 ∨ cap = 256 → i ∈ [1; 2; 3] →
  node_new (demo_config cap i) memory_log_new machine_new = Ok (demo_node cap i) ∧
  n_outbox (demo_node cap i) = [] ∧ initial_membership (demo_config cap i) = three ∧
  c_id (demo_config cap i) = i.
Proof.
  intros Hcap Hi. repeat (apply elem_of_cons in Hi as [-> |Hi];
    [destruct Hcap as [-> | ->]; (split; [vm_compute; reflexivity|];
       split; [vm_compute; reflexivity|]; split; [vm_compute; reflexivity|reflexivity])|]).
  by apply not_elem_of_nil in Hi.
Qed.

Lemma demo_start_lookup cap i n :
  cl_nodes (demo_start cap) !! i = Some n → i ∈ [1; 2; 3] ∧ n = demo_node cap i.
Proof.
  unfold demo_start; cbn [cl_nodes]. intros Hi.
  repeat (apply lookup_insert_Some in Hi as [[<- <-]|[_ Hi]]; [split; [set_solver|done]|]).
  by rewrite lookup_empty in Hi.
Qed.

Lemma demo_start_reachable cap : cap = 1 ∨ cap = 256 → reachable three (demo_start cap).
Proof.
  intros Hcap. apply reachable_init.
  split; [done|]. split; [done|]. intros i n [Hi ->]%demo_start_lookup.
  destruct (demo_node_new cap i Hcap Hi) as (Hnew & Ho & HV & Hid). split; [done|].
  exists (demo_config cap i), memory_log_new, machine_new.
  do 3 (split; [done|]). split; [split; [constructor|done]|]. done.
Qed.

(** Replica 1 times out, wins its pre-vote and its election, and replicates
    its first entry. *)
Definition ticks (i : PeerId) (k : nat) : list (PeerId * Input) := replicate k (i, Tick).

Definition env (from to : PeerId) (m : RaftMessage) : PeerId * Input :=
  (to, Deliver (mkEnvelope from to m)).

Definition demo_election : list (PeerId * Input) :=
  ticks 1 20 ++
  [ env 1 2 (PreVoteRequest 1 0 0);
    env 2 1 (PreVoteResponse 0 true);
    env 1 2 (VoteRequest 1 0 0);
    env 1 3 (VoteRequest 1 0 0);
    env 2 1 (VoteResponse 1 true);
    env 3 1 (VoteResponse 1 true) ].

Definition demo_elected : DemoCluster :=
  default (demo_start 256) (exec demo_election (demo_start 256)).

Example demo_elects : cl_elected demo_elected = [(1, 1); (1, 1)].
Proof. vm_compute. reflexivity. Qed.

Lemma demo_reachable : reachable three demo_elected.
Proof.
  apply (exec_reachable three demo_election (demo_start 256)).
  - apply demo_start_reachable. by right.
  - unfold demo_elected. vm_compute. reflexivity.
Qed.

(** Election safety at an execution that elects a leader. *)
Lemma election_safety_witness :
  reachable three demo_elected ∧ (1, 1) ∈ cl_elected demo_elected ∧
  (∀ b, (1, b) ∈ cl_elected demo_elected → b = 1).
Proof.
  split; [exact demo_reachable|].
  assert ((1, 1) ∈ cl_elected demo_elected) as Hin.
  { rewrite demo_elects. left. }
  split; [exact Hin|]. intros b Hb.
  apply (proj1 (election_safety three demo_elected demo_reachable) 1 b 1);
    [reflexivity|exact Hb|exact Hin].
Defined.

(** ** Scripts: deliver the [k]-th message ever sent *)

Inductive Cmd :=
  | CTick (i : PeerId)
  | CNth (k : nat)
  | CPropose (i : PeerId) (command : list N).

Definition resolve (c : DemoCluster) (s : Cmd) : option (PeerId * Input) :=
  match s with
  | CTick i => Some (i, Tick)
  | CNth k => (λ e, (env_to e, Deliver e)) <$> cl_net c !! k
  | CPropose i command => Some (i, Propose command)
  end.

Fixpoint play (script : list Cmd) (c : DemoCluster) : option DemoCluster :=
  match script with
  | [] => Some c
  | s :: rest => (resolve c s ≫= exec_step c) ≫= play rest
  end.

Lemma play_reachable V script c c' :
  reachable V c → play script c = Some c' → reachable V c'.
Proof.
  revert c. induction script as [|s script IH]; intros c Hr; simpl; [by intros [= <-]|].
  destruct (resolve c s) as [i|]; simpl; [|done].
  destruct (exec_step c i) as [c1|] eqn:E; simpl; [|done]. apply IH.
  eapply reachable_step; [done|]. by eapply exec_step_sound.
Qed.

(** ** Witnesses for one replica *)

(** The elected replica 1, before anything of its term is committed. *)
Definition new_leader : DemoNode :=
  default (demo_node 256 1) (cl_nodes demo_elected !! 1).

(** A follower that has voted, then hears a leader of a later term. *)
Definition demo_calls : list Call :=
  [CallInput (Deliver (mkEnvelope 1 2 (VoteRequest 1 0 0)));
   CallInput (Deliver (mkEnvelope 3 2 (VoteRequest 1 0 0)));
   CallInput Tick; CallMembership (Add 4); CallTakeMessages;
   CallInput (Deliver (mkEnvelope 3 2 (AppendEntries 4 0 0 [mkEntry 4 1 Noop] 1)))].

Lemma demo_calls_u64 : Forall call_u64 demo_calls.
Proof. repeat constructor; vm_compute; discriminate. Qed.

Lemma term_and_vote_never_move_back_witness :
  let n := run_call (demo_node 256 2) (CallInput (Deliver (mkEnvelope 1 2 (VoteRequest 1 0 0)))) in
  h_voted_for (n_hard n) = Some 1 ∧ h_term (n_hard n) <= h_term (n_hard (run_calls n demo_calls)).
Proof.
  cbv zeta. split; [vm_compute; reflexivity|].
  apply (term_and_vote_never_move_back
    (run_call (demo_node 256 2) (CallInput (Deliver (mkEnvelope 1 2 (VoteRequest 1 0 0)))))
    demo_calls); [vm_compute; discriminate|exact demo_calls_u64].
Defined.

Lemma election_timeout_is_randomized_witness :
  10 <= n_randomized_timeout (run_calls (demo_node 256 2) demo_calls) <= 10 + 10.
Proof.
  apply (election_timeout_is_randomized (demo_config 256 2) memory_log_new machine_new
           (demo_node 256 2) demo_calls);
    [vm_compute; discriminate|exact demo_calls_u64|vm_compute; reflexivity].
Defined.

Lemma pre_vote_of_a_lower_term_is_dropped_witness :
  step (mkEnvelope 2 1 (PreVoteResponse 0 true)) new_leader = (new_leader, Ok tt).
Proof.
  apply (pre_vote_of_a_lower_term_is_dropped new_leader 2 0). vm_compute. reflexivity.
Defined.

(** The leader of term 1, peer 2 known to hold its first entry. *)
Definition acked_leader : DemoNode :=
  set_progress (<[2 := mkProgress 2 1 20 false]> (n_progress new_leader)) new_leader.

Lemma acked_majority c : held_by_majority acked_leader c ↔ c <= 1.
Proof.
  apply (commit_candidate acked_leader 1); [|vm_compute; reflexivity].
  intros E%(f_equal size). by vm_compute in E.
Qed.

Lemma commit_advances_witness :
  committable acked_leader 1 ∧ maybe_advance_commit acked_leader = (set_commit_index 1 acked_leader, Ok tt).
Proof.
  assert (committable acked_leader 1) as Hc.
  { split; [vm_compute; reflexivity|]. split; [vm_compute; reflexivity|].
    split; [by apply acked_majority|vm_compute; reflexivity]. }
  split; [exact Hc|].
  apply (commit_advances acked_leader 1 Hc). intros c' Hm. by apply acked_majority.
Defined.

(** A follower with two entries of term 1 and two of term 2, three
    committed and one applied. *)
Definition two_terms : MemoryLog :=
  mkLog (mkHard 2 None)
    [mkEntry 1 1 Noop; mkEntry 1 2 (Command [5]); mkEntry 2 3 Noop; mkEntry 2 4 (Command [6])] None.

Definition behind_follower : DemoNode :=
  set_last_applied 1 (set_commit_index 3 (set_log two_terms (demo_node 256 2))).

Lemma two_terms_wf : log_wf two_terms.
Proof. by repeat split. Qed.

Lemma behind_applicable : applicable behind_follower.
Proof. split; [exact two_terms_wf|vm_compute; discriminate|vm_compute; discriminate]. Qed.

Lemma apply_committed_refines_witness :
  apply_committed behind_follower =
  maybe_compact (after_apply behind_follower
    (apply_entries (n_machine behind_follower) (pending_entries behind_follower)).1.1
    (apply_entries (n_machine behind_follower) (pending_entries behind_follower)).1.2).
Proof.
  rewrite (apply_committed_refines behind_follower behind_applicable). vm_compute. reflexivity.
Defined.

Lemma apply_loop_outcomes_witness :
  ∃ out, n_applied (apply_loop 2 behind_follower).1 = n_applied behind_follower ++ out ∧
    length out = 2%nat.
Proof.
  pose proof (apply_loop_outcomes behind_follower behind_applicable) as Ho.
  assert (n_last_applied behind_follower <= n_commit_index behind_follower) as Hle
    by (vm_compute; discriminate).
  specialize (Ho Hle). change (N.to_nat _) with 2%nat in Ho.
  destruct (apply_loop 2 behind_follower) as [n' r] eqn:E.
  destruct Ho as (out & Ha & _ & _ & Hr). exists out. split; [exact Ha|].
  assert (r = Ok tt) as -> by (change r with (n', r).2; rewrite <-E; vm_compute; reflexivity).
  destruct Hr as [_ ->]. vm_compute. reflexivity.
Defined.

(** The leader of term 3 overwrites from index 3. *)
Definition leader_entries : list LogEntry := [mkEntry 1 2 (Command [5]); mkEntry 3 3 Noop].

Lemma two_terms_mergeable : mergeable two_terms 1 leader_entries.
Proof.
  split; [exact two_terms_wf|vm_compute; discriminate|vm_compute; discriminate|by repeat split|
          vm_compute; reflexivity].
Qed.

Lemma behind_mergeable : mergeable (view (n_log behind_follower)) 1 leader_entries.
Proof. exact two_terms_mergeable. Qed.

Definition merged_follower : DemoNode := (merge_entries leader_entries behind_follower).1.

Lemma merge_entries_refines_witness :
  n_log merged_follower =
    mkLog (mkHard 2 None) [mkEntry 1 1 Noop; mkEntry 1 2 (Command [5]); mkEntry 3 3 Noop] None.
Proof.
  exact (proj1 (merge_entries_refines behind_follower merged_follower leader_entries 1
                  behind_mergeable ltac:(vm_compute; reflexivity))).
Defined.

Lemma duplicate_merge_is_harmless_witness :
  n_log (merge_entries leader_entries merged_follower).1 = n_log merged_follower.
Proof.
  apply (duplicate_merge_is_harmless behind_follower merged_follower
           (merge_entries leader_entries merged_follower).1 leader_entries 1 behind_mergeable);
    vm_compute; reflexivity.
Defined.

Lemma memory_merge_succeeds_witness :
  ∃ n', merge_entries leader_entries behind_follower = (n', Ok tt) ∧
    n_log n' = merge_at two_terms 1 leader_entries.
Proof. exact (memory_merge_succeeds behind_follower leader_entries 1 two_terms_mergeable). Defined.

Lemma first_index_of_term_is_first_witness :
  ∃ i, first_index_of_term two_terms 4 2 = Ok i ∧ i = 3.
Proof.
  destruct (first_index_of_term_is_first two_terms 4 2) as (i & E & _);
    [vm_compute; discriminate|vm_compute; reflexivity|].
  exists i. split; [exact E|]. vm_compute in E. congruence.
Defined.

(** A log whose entries' terms are sorted. *)
Lemma sorted_terms_ascend l :
  log_wf l → StronglySorted N.le (e_term <$> l_entries l) → terms_ascend l.
Proof.
  intros Hwf Hs i j ti tj Hi Hij. simpl in *. rewrite (first_index_wf _ Hwf) in Hi.
  assert (∃ a b : nat, i = boundary_index l + 1 + N.of_nat a ∧
    j = boundary_index l + 1 + N.of_nat b ∧ (a <= b)%nat) as (a & b & -> & -> & Hab).
  { exists (N.to_nat (i - boundary_index l - 1)), (N.to_nat (j - boundary_index l - 1)). lia. }
  rewrite !(term_at_position _ _ Hwf), <-!list_lookup_fmap. intros [= Ha] [= Hb].
  destruct (decide (a = b)) as [->|]; [simplify_eq; done|].
  rewrite <-(take_drop b (e_term <$> l_entries l)) in Hs.
  apply (StronglySorted_app_1_elem_of N.le _ _ _ _ Hs).
  - apply elem_of_take. exists a. split; [done|lia].
  - by rewrite (drop_S _ _ _ Hb), elem_of_cons; left.
Qed.

Lemma two_terms_ascend : terms_ascend two_terms.
Proof. apply sorted_terms_ascend; [exact two_terms_wf|]. repeat constructor; by vm_compute. Qed.

Lemma last_index_of_term_is_last_witness :
  ∃ r, last_index_of_term two_terms 1 = Ok r ∧ r = Some 2.
Proof.
  destruct (last_index_of_term_is_last two_terms 1 two_terms_ascend) as (r & E & _);
    [vm_compute; reflexivity|].
  exists r. split; [exact E|]. vm_compute in E. congruence.
Defined.

(** ** Findings *)

Definition commit_of (c : DemoCluster) (i : PeerId) : option LogIndex :=
  n_commit_index <$> cl_nodes c !! i.

(** Replica 1 leads, with one entry per message; replica 3 acknowledges
    everything first, then replica 2 catches up to index 3. *)
Definition lagging_script : list Cmd :=
  replicate 20 (CTick 1) ++ [CNth 0; CNth 2; CNth 4; CNth 5] ++
  [CPropose 1 [7]; CPropose 1 [8]; CPropose 1 [9]] ++
  [CNth 7] ++ (CNth <$> seq 14 7) ++
  [CTick 1; CTick 1; CNth 21; CNth 23; CNth 24; CNth 25; CNth 26].

Definition lagging : DemoCluster :=
  default (demo_start 1) (play lagging_script (demo_start 1)).

(** The cluster after the message replica 2 received first arrives again. *)
Definition after_duplicate : DemoCluster :=
  default lagging (play [CNth 21] lagging).

Lemma lagging_reachable : reachable three lagging.
Proof.
  apply (play_reachable three lagging_script (demo_start 1)).
  - apply demo_start_reachable. by left.
  - vm_compute. reflexivity.
Qed.

(** a duplicated [AppendEntries] moves the commit index back.  In a
    reachable state of a three-replica cluster replica 2 has committed and
    applied index 3; delivering once more a message it has already received
    leaves it with commit index 1, below what it has applied. *)
Theorem duplicate_append_moves_commit_back :
  reachable three lagging ∧ reachable three after_duplicate ∧
  commit_of lagging 2 = Some 3 ∧ commit_of after_duplicate 2 = Some 1 ∧
  (n_last_applied <$> cl_nodes after_duplicate !! 2) = Some 3.
Proof.
  split; [exact lagging_reachable|]. split.
  - apply (play_reachable three [CNth 21] lagging); [exact lagging_reachable|].
    vm_compute. reflexivity.
  - repeat split; vm_compute; reflexivity.
Qed.

(** a leader that has committed nothing of its own term still accepts a
    membership change, although the comment in [propose_membership] says it
    must not: the reachable leader [new_leader] is not ready, and a proposal
    to add a peer is appended and takes effect at once. *)
Theorem membership_change_before_own_term_commits :
  reachable three demo_elected ∧
  is_leader (n_role new_leader) = true ∧ is_ready new_leader = false ∧
  (propose_membership (Add 4) new_leader).2 = Ok 2 ∧
  n_membership (propose_membership (Add 4) new_leader).1 = membership_new [1; 2; 3; 4].
Proof.
  split; [exact demo_reachable|]. repeat split; vm_compute; reflexivity.
Qed.

(** A leader whose first entry is committed, with a membership change
    appended but not committed, compacts its log; then the leader of a later
    term overwrites the configuration entry. *)
Definition committed_leader : DemoNode :=
  (step (mkEnvelope 2 1 (AppendEntriesResponse 1 true 1 0 0)) new_leader).1.

Definition compacted_leader : DemoNode :=
  (take_snapshot (propose_membership (Add 4) committed_leader).1).1.

Definition overwritten_leader : DemoNode :=
  (step (mkEnvelope 2 1 (AppendEntries 2 1 1 [mkEntry 2 2 Noop] 1)) compacted_leader).1.

(** a snapshot records the configuration in force when it is taken, not
    the one in force as of its last index.  Compacting at index 1 while the
    addition of peer 4 (at index 2) is uncommitted stores the enlarged
    configuration, and when index 2 is overwritten by another leader the
    replica keeps counting peer 4 as a voter. *)
Theorem snapshot_keeps_uncommitted_membership :
  n_last_applied committed_leader = 1 ∧
  (s_last_index <$> Mem.snapshot_meta (n_log compacted_leader)) = Some 1 ∧
  (s_membership <$> Mem.snapshot_meta (n_log compacted_leader)) =
    Some (membership_new [1; 2; 3; 4]) ∧
  Forall (λ e, is_config e = false) (l_entries (n_log overwritten_leader)) ∧
  n_membership overwritten_leader = membership_new [1; 2; 3; 4].
Proof.
  split; [vm_compute; reflexivity|]. split; [vm_compute; reflexivity|].
  split; [vm_compute; reflexivity|]. split; [|vm_compute; reflexivity].
  apply Forall_fold_right. vm_compute. done.
Qed.
