(* ===== verification/Crc32c.v ===== *)
(** * CRC-32C

    Models [src/crates/astrs-wire/src/crc32c/]: the slice-by-8 table kernel
    ([scalar.rs]), the GF(2) combine of two registers ([combine.rs]), the
    three-way interleaved hardware kernel ([x86.rs], [aarch64.rs]), the
    dispatch between them ([dispatch.rs]) and the public interface
    ([mod.rs]).  A [u32] register is an [N] below [2^32], a byte an [N]
    below 256.

    The theorems: every kernel computes the bit-at-a-time CRC of the
    polynomial, streaming agrees with one-shot use, and a checksum detects
    every change confined to four consecutive bytes. *)

From Stdlib Require Import Lia Btauto.
From stdpp Require Import base tactics list numbers.
From S2P Require Import Prelude.

Open Scope N_scope.

(** ** The bit-at-a-time definition *)

Definition CRC32C_POLYNOMIAL : N := 0x82F63B78.
Definition CRC32C_CHECK : N := 0xE3069283.

Definition u32_max : N := 0xFFFFFFFF.
Definition is_u32 (x : N) : Prop := x < 2 ^ 32.
Definition is_byte (x : N) : Prop := x < 256.

(** Bitwise complement of a [u32]. *)
Definition not32 (x : N) : N := N.lxor x u32_max.

Definition bit_step (crc : N) : N :=
  if negb (N.eqb (N.land crc 1) 0)
  then N.lxor (N.shiftr crc 1) CRC32C_POLYNOMIAL
  else N.shiftr crc 1.

(** Eight bit steps: folding a byte that has been added to the register. *)
Definition eight_steps (crc : N) : N := Nat.iter 8 bit_step crc.

Definition byte_step (state byte : N) : N := eight_steps (N.lxor state byte).

(** The register after a run of bytes: the definition every kernel is
    compared with. *)
Definition reference (state : N) (data : list N) : N := foldl byte_step state data.

(** ** [scalar.rs] *)

Definition SLICE : nat := 8.

Definition table0 : list N := (λ i, eight_steps (N.of_nat i)) <$> seq 0 256.

(** Table [k] from table [k - 1]. *)
Definition next_table (previous : list N) : list N :=
  (λ p, N.lxor (N.shiftr p 8) (nth (N.to_nat (N.land p 0xFF)) table0 0)) <$> previous.

Definition build_tables : list (list N) :=
  (λ level, Nat.iter level next_table table0) <$> seq 0 SLICE.

Definition TABLES : list (list N) := build_tables.

(** [TABLES[level][index & 0xFF]] *)
Definition table (level : nat) (index : N) : N :=
  nth (N.to_nat (N.land index 0xFF)) (nth level TABLES []) 0.

Definition split_chunk (data : list N) : option (list N * list N) :=
  if bool_decide (length data < SLICE)%nat then None
  else Some (take SLICE data, drop SLICE data).

(** [from_le_bytes] *)
Fixpoint from_le_bytes (bytes : list N) : N :=
  match bytes with
  | [] => 0
  | b :: rest => N.lor b (N.shiftl (from_le_bytes rest) 8)
  end.

(** [while let Some((chunk, tail)) = split_chunk(rest) { .. }]: each
    iteration takes eight bytes, so the length is enough fuel. *)
Fixpoint fold_chunks (f : N → list N → N) (fuel : nat) (state : N) (rest : list N) :
    N * list N :=
  match fuel with
  | O => (state, rest)
  | S fuel =>
      match split_chunk rest with
      | Some (chunk, tail) => fold_chunks f fuel (f state chunk) tail
      | None => (state, rest)
      end
  end.

Definition scalar_chunk (state : N) (chunk : list N) : N :=
  let low := N.lxor (from_le_bytes (take 4 chunk)) state in
  let high := from_le_bytes (drop 4 chunk) in
  N.lxor (table 7 low)
    (N.lxor (table 6 (N.shiftr low 8))
    (N.lxor (table 5 (N.shiftr low 16))
    (N.lxor (table 4 (N.shiftr low 24))
    (N.lxor (table 3 high)
    (N.lxor (table 2 (N.shiftr high 8))
    (N.lxor (table 1 (N.shiftr high 16))
            (table 0 (N.shiftr high 24)))))))).

Definition scalar_byte (state byte : N) : N :=
  N.lxor (N.shiftr state 8) (table 0 (N.lxor state byte)).

Definition update_state_scalar (state : N) (data : list N) : N :=
  let '(state, rest) := fold_chunks scalar_chunk (length data) state data in
  foldl scalar_byte state rest.

(** ** [combine.rs] *)

(** The images of the 32 basis vectors. *)
Definition Matrix : Type := list N.
Definition CHAIN_LEN : nat := 64.

Definition one_zero_byte_operator : Matrix :=
  (λ bit, update_state_scalar (N.shiftl 1 (N.of_nat bit)) [0]) <$> seq 0 32.

(** The loop of [apply]: 32 bits of [remaining] are enough fuel. *)
Fixpoint apply_loop (fuel : nat) (matrix : Matrix) (remaining : N) (bit : nat) (sum : N) : N :=
  match fuel with
  | O => sum
  | S fuel =>
      if N.eqb remaining 0 then sum
      else
        let sum := if negb (N.eqb (N.land remaining 1) 0)
                   then N.lxor sum (nth bit matrix 0) else sum in
        apply_loop fuel matrix (N.shiftr remaining 1) (S bit) sum
  end.

Definition apply (matrix : Matrix) (vector : N) : N := apply_loop 32 matrix vector 0 0.

Definition square (matrix : Matrix) : Matrix :=
  (λ bit, apply matrix (nth bit matrix 0)) <$> seq 0 32.

(** The doubling chain, each matrix the square of the one before. *)
Fixpoint chain_from (matrix : Matrix) (n : nat) : list Matrix :=
  match n with
  | O => []
  | S n => matrix :: chain_from (square matrix) n
  end.

Definition doubling_chain : list Matrix := chain_from one_zero_byte_operator CHAIN_LEN.

(** The loop of [shift_zero_bytes]: 64 bits of [n] are enough fuel. *)
Fixpoint shift_loop (fuel : nat) (chain : list Matrix) (n : N) (bit : nat) (result : N) : N :=
  match fuel with
  | O => result
  | S fuel =>
      if N.eqb n 0 then result
      else
        let result := if negb (N.eqb (N.land n 1) 0)
                      then apply (nth bit chain []) result else result in
        shift_loop fuel chain (N.shiftr n 1) (S bit) result
  end.

Definition shift_zero_bytes (reg n : N) : N := shift_loop CHAIN_LEN doubling_chain n 0 reg.

Definition combine (head tail_from_zero tail_len : N) : N :=
  N.lxor (shift_zero_bytes head tail_len) tail_from_zero.

(** ** [x86.rs] and [aarch64.rs]: the hardware kernels

    The two files hold the same algorithm over different instructions.  The
    instructions are parameters: [crc32_u64] and [crc32_u8]. *)

Class CrcInstructions := {
  crc32_u64 : N → N → N;
  crc32_u8 : N → N → N
}.

(** What the processor manuals say of them: they fold the operand's bytes,
    least significant first, into the register. *)
Class CrcInstructionsLaws `{CrcInstructions} := {
  crc32_u8_law state byte :
    is_u32 state → is_byte byte → crc32_u8 state byte = byte_step state byte;
  crc32_u64_law state bytes :
    is_u32 state → Forall is_byte bytes → length bytes = 8%nat →
    crc32_u64 state (from_le_bytes bytes) = reference state bytes
}.

Definition THREE_WAY_THRESHOLD : N := 32 * 1024.

Section hardware.
Context `{CrcInstructions}.

Definition hw_chunk (state : N) (chunk : list N) : N :=
  crc32_u64 state (from_le_bytes chunk).

Definition single_stream (state : N) (data : list N) : N :=
  let '(state, rest) := fold_chunks hw_chunk (length data) state data in
  foldl crc32_u8 state rest.

(** The lockstep loop over the three thirds. *)
Fixpoint three_way (fuel : nat) (states : N * N * N) (ra rb rc : list N) : N * N * N :=
  match fuel with
  | O => states
  | S fuel =>
      match split_chunk ra, split_chunk rb, split_chunk rc with
      | Some (chunk_a, tail_a), Some (chunk_b, tail_b), Some (chunk_c, tail_c) =>
          let '(state_a, state_b, state_c) := states in
          three_way fuel
            (hw_chunk state_a chunk_a, hw_chunk state_b chunk_b, hw_chunk state_c chunk_c)
            tail_a tail_b tail_c
      | _, _, _ => states
      end
  end.

(** [(data.len() / 3) & !7]: the third, rounded down to a multiple of
    eight. *)
Definition third_len (data : list N) : nat :=
  N.to_nat (N.ldiff (N.of_nat (length data) / 3) 7).

Definition interleaved (state : N) (data : list N) : N :=
  let third := third_len data in
  if bool_decide (third = 0%nat) then single_stream state data
  else
    let a := take third data in
    let rest := drop third data in
    let b := take third rest in
    let rest := drop third rest in
    let c_head := take third rest in
    let c_tail := drop third rest in
    let '(state_a, state_b, state_c) := three_way (length data) (state, 0, 0) a b c_head in
    let combined := combine state_a state_b (N.of_nat third) in
    let combined := combine combined state_c (N.of_nat third) in
    single_stream combined c_tail.

Definition update_state_hw (state : N) (data : list N) : N :=
  if N.leb THREE_WAY_THRESHOLD (N.of_nat (length data))
  then interleaved state data
  else single_stream state data.
End hardware.

(** ** [dispatch.rs] and [mod.rs] *)

(** The processor the program runs on: with the CRC instructions, or
    without. *)
Inductive Cpu :=
  | NoCrcInstructions
  | WithCrcInstructions (i : CrcInstructions).

Definition update_state (cpu : Cpu) (state : N) (data : list N) : N :=
  match cpu with
  | WithCrcInstructions i => update_state_hw state data
  | NoCrcInstructions => update_state_scalar state data
  end.

Definition crc32c_append (cpu : Cpu) (previous : N) (data : list N) : N :=
  not32 (update_state cpu (not32 previous) data).

Definition crc32c (cpu : Cpu) (data : list N) : N := crc32c_append cpu 0 data.

Record Crc32c := mkCrc { crc_state : N }.

Definition crc_new : Crc32c := mkCrc u32_max.
Definition crc_resume (checksum : N) : Crc32c := mkCrc (not32 checksum).
Definition crc_update (cpu : Cpu) (h : Crc32c) (data : list N) : Crc32c :=
  mkCrc (update_state cpu (crc_state h) data).
Definition crc_finalize (h : Crc32c) : N := not32 (crc_state h).

Example crc32c_check_value :
  crc32c NoCrcInstructions [49; 50; 51; 52; 53; 54; 55; 56; 57] = CRC32C_CHECK.
Proof. vm_compute. reflexivity. Qed.

(** ** Linearity *)

(** Equalities between exclusive-ors of the same terms. *)
Ltac xor_solve :=
  apply N.bits_inj; intros ?k; rewrite ?N.lxor_spec, ?N.bits_0; btauto.

Lemma odd_lxor a b : N.odd (N.lxor a b) = xorb (N.odd a) (N.odd b).
Proof. rewrite <-!N.bit0_odd. apply N.lxor_spec. Qed.

Lemma land_1_odd a : negb (N.eqb (N.land a 1) 0) = N.odd a.
Proof.
  change 1 with (2 * 0 + 1). rewrite N.land_odd_r, N.land_0_r. by destruct (N.odd a).
Qed.

Definition linear (f : N → N) : Prop := ∀ a b, f (N.lxor a b) = N.lxor (f a) (f b).

Lemma linear_0 f : linear f → f 0 = 0.
Proof. intros Hf. rewrite <-(N.lxor_nilpotent 0) at 1. rewrite Hf. apply N.lxor_nilpotent. Qed.

Lemma linear_iter f n : linear f → linear (Nat.iter n f).
Proof. intros Hf a b. induction n as [|n IH]; simpl; [done|]. by rewrite IH, Hf. Qed.

Lemma bit_step_linear : linear bit_step.
Proof.
  intros a b. unfold bit_step. rewrite !land_1_odd, odd_lxor, N.shiftr_lxor.
  destruct (N.odd a), (N.odd b); cbn [xorb]; xor_solve.
Qed.

(** Folding [k] zero bytes. *)
Definition zeros (k : nat) : N → N := Nat.iter k eight_steps.

Lemma eight_steps_linear : linear eight_steps.
Proof. apply linear_iter, bit_step_linear. Qed.

Lemma zeros_linear k : linear (zeros k).
Proof. apply linear_iter, eight_steps_linear. Qed.

Lemma zeros_add j k x : zeros (j + k) x = zeros j (zeros k x).
Proof. unfold zeros. by rewrite Nat.iter_add. Qed.

Lemma bit_step_shiftl y k : 0 < k → bit_step (N.shiftl y k) = N.shiftl y (N.pred k).
Proof.
  intros Hk. unfold bit_step. rewrite land_1_odd, <-N.bit0_odd, N.shiftl_spec_low by done.
  rewrite N.shiftr_shiftl_l by lia. by rewrite N.sub_1_r.
Qed.

Lemma eight_steps_shiftl y : eight_steps (N.shiftl y 8) = y.
Proof.
  cbv [eight_steps Nat.iter nat_rect]. do 8 rewrite bit_step_shiftl by done.
  apply N.shiftl_0_r.
Qed.

(** A word is its low byte and the rest. *)
Lemma low_byte_split x : x = N.lxor (N.land x 0xFF) (N.shiftl (N.shiftr x 8) 8).
Proof.
  change 0xFF with (N.ones 8). rewrite N.lxor_comm.
  rewrite <-N.ldiff_ones_r. apply N.bits_inj. intros k.
  rewrite N.lxor_spec, N.ldiff_spec, N.land_spec. btauto.
Qed.

Lemma land_ff_byte x : N.land x 0xFF < 256.
Proof. change 0xFF with (N.ones 8). rewrite N.land_ones. by apply N.mod_lt. Qed.

Lemma land_ff_small x : is_byte x → N.land x 0xFF = x.
Proof.
  intros Hx. change 0xFF with (N.ones 8). rewrite N.land_ones. by apply N.mod_small.
Qed.

Lemma shiftr_byte x : is_byte x → N.shiftr x 8 = 0.
Proof. intros Hx. rewrite N.shiftr_div_pow2. by apply N.div_small. Qed.

(** ** The tables *)

Lemma table0_lookup i : i < 256 → table0 !! N.to_nat i = Some (eight_steps i).
Proof.
  intros Hi. unfold table0. rewrite list_lookup_fmap, lookup_seq_lt by lia.
  simpl. by rewrite N2Nat.id.
Qed.

Lemma nth_table0 x : nth (N.to_nat (N.land x 0xFF)) table0 0 = eight_steps (N.land x 0xFF).
Proof. apply nth_lookup_Some, table0_lookup, land_ff_byte. Qed.

(** The byte-wise table step is eight bit steps. *)
Lemma table_step p :
  N.lxor (N.shiftr p 8) (nth (N.to_nat (N.land p 0xFF)) table0 0) = eight_steps p.
Proof.
  rewrite nth_table0. rewrite (low_byte_split p) at 3.
  rewrite eight_steps_linear, eight_steps_shiftl. apply N.lxor_comm.
Qed.

Lemma next_table_zeros l : next_table l = eight_steps <$> l.
Proof. unfold next_table. apply list_fmap_ext. intros _ p _. apply table_step. Qed.

Lemma table_spec level i :
  (level < 8)%nat → table level i = zeros (S level) (N.land i 0xFF).
Proof.
  intros Hl. unfold table.
  assert (nth level TABLES [] = Nat.iter level next_table table0) as ->.
  { apply nth_lookup_Some. unfold TABLES, build_tables.
    rewrite list_lookup_fmap, lookup_seq_lt by done. done. }
  apply nth_lookup_Some. clear Hl.
  assert (∀ k, Nat.iter k next_table table0 = zeros k <$> table0) as ->.
  { intros k. induction k as [|k IH]; [by rewrite list_fmap_id|]. simpl Nat.iter.
    rewrite IH, next_table_zeros, <-list_fmap_compose. done. }
  rewrite list_lookup_fmap, table0_lookup by apply land_ff_byte. simpl. f_equal.
  change (zeros level (zeros 1 (N.land i 0xFF)) = zeros (S level) (N.land i 0xFF)).
  by rewrite <-zeros_add, Nat.add_comm.
Qed.

(** ** The reference, affinely *)

Lemma reference_linear s d data :
  reference (N.lxor s d) data = N.lxor (reference s data) (zeros (length data) d).
Proof.
  unfold reference. revert s d. induction data as [|b data IH]; intros s d; [done|].
  cbn [foldl length]. unfold byte_step at 2 4.
  replace (N.lxor (N.lxor s d) b) with (N.lxor (N.lxor s b) d) by xor_solve.
  rewrite eight_steps_linear, IH. f_equal. unfold zeros. by rewrite <-Nat.iter_succ_r.
Qed.

Lemma reference_app s a b : reference s (a ++ b) = reference (reference s a) b.
Proof. apply foldl_app. Qed.

(** Folding a block from any register, by way of the zero register. *)
Lemma reference_from_zero s data :
  reference s data = N.lxor (zeros (length data) s) (reference 0 data).
Proof. rewrite <-(N.lxor_0_l s) at 1. rewrite reference_linear. apply N.lxor_comm. Qed.

(** ** Width *)

Lemma lxor_u32 a b : is_u32 a → is_u32 b → is_u32 (N.lxor a b).
Proof.
  unfold is_u32. intros Ha Hb.
  destruct (decide (N.lxor a b = 0)) as [->|Hne]; [done|].
  apply N.log2_lt_pow2; [lia|]. eapply N.le_lt_trans; [apply N.log2_lxor|].
  apply N.max_lub_lt.
  - destruct (decide (a = 0)) as [->|]; [done|]. apply N.log2_lt_pow2; lia.
  - destruct (decide (b = 0)) as [->|]; [done|]. apply N.log2_lt_pow2; lia.
Qed.

Lemma byte_u32 b : is_byte b → is_u32 b.
Proof. unfold is_byte, is_u32. lia. Qed.

Lemma bit_step_u32 x : is_u32 x → is_u32 (bit_step x).
Proof.
  intros Hx. assert (is_u32 (N.shiftr x 1)) as Hs.
  { unfold is_u32 in *. rewrite N.shiftr_div_pow2.
    eapply N.le_lt_trans; [|exact Hx]. change (2 ^ 1) with 2.
    apply N.Div0.div_le_upper_bound. lia. }
  unfold bit_step. destruct (negb _); [|done]. by apply lxor_u32.
Qed.

Lemma eight_steps_u32 x : is_u32 x → is_u32 (eight_steps x).
Proof. intros Hx. unfold eight_steps. generalize 8%nat. intros n.
  induction n as [|n IH]; [done|]. by apply bit_step_u32. Qed.

Lemma byte_step_u32 s b : is_u32 s → is_byte b → is_u32 (byte_step s b).
Proof. intros Hs Hb. apply eight_steps_u32, lxor_u32; [done|by apply byte_u32]. Qed.

Lemma reference_u32 s data : is_u32 s → Forall is_byte data → is_u32 (reference s data).
Proof.
  intros Hs Hd. revert s Hs. induction Hd as [|b data Hb _ IH]; intros s Hs; [done|].
  apply IH. by apply byte_step_u32.
Qed.

Lemma zeros_u32 k x : is_u32 x → is_u32 (zeros k x).
Proof. intros Hx. induction k as [|k IH]; [done|]. by apply eight_steps_u32. Qed.

(** ** Little-endian words *)

Lemma byte_above b k : is_byte b → 8 <= k → N.testbit b k = false.
Proof.
  intros Hb Hk. apply N.bits_above_log2. destruct (decide (b = 0)) as [->|]; [simpl; lia|].
  eapply N.lt_le_trans; [|exact Hk]. apply N.log2_lt_pow2; [lia|exact Hb].
Qed.

(** A byte and a word shifted past it share no bit. *)
Lemma byte_disjoint b x : is_byte b → N.land b (N.shiftl x 8) = 0.
Proof.
  intros Hb. apply N.bits_inj. intros k. rewrite N.land_spec, N.bits_0.
  destruct (N.ltb_spec k 8); [by rewrite N.shiftl_spec_low, andb_false_r|].
  by rewrite (byte_above b k).
Qed.

Lemma le_cons b rest :
  is_byte b → from_le_bytes (b :: rest) = N.lxor b (N.shiftl (from_le_bytes rest) 8).
Proof. intros Hb. symmetry. by apply N.lxor_lor, byte_disjoint. Qed.

Lemma le_cons_add b rest :
  is_byte b → from_le_bytes (b :: rest) = b + from_le_bytes rest * 256.
Proof.
  intros Hb. rewrite (le_cons _ _ Hb), <-N.add_nocarry_lxor by (by apply byte_disjoint).
  by rewrite N.shiftl_mul_pow2.
Qed.

Lemma le_bound bytes :
  Forall is_byte bytes → from_le_bytes bytes < 2 ^ (8 * N.of_nat (length bytes)).
Proof.
  induction 1 as [|b rest Hb _ IH]; [done|]. rewrite (le_cons_add _ _ Hb). cbn [length].
  replace (8 * N.of_nat (S (length rest))) with (8 + 8 * N.of_nat (length rest)) by lia.
  rewrite N.pow_add_r. change (2 ^ 8) with 256. unfold is_byte in Hb. nia.
Qed.

Lemma le_u32 bytes : Forall is_byte bytes → (length bytes <= 4)%nat → is_u32 (from_le_bytes bytes).
Proof.
  intros Hb Hl. unfold is_u32. eapply N.lt_le_trans; [by apply le_bound|].
  apply N.pow_le_mono_r; lia.
Qed.

(** The register a block reaches from zero is its word, shifted past its own
    length. *)
Lemma reference_le bytes :
  Forall is_byte bytes → reference 0 bytes = zeros (length bytes) (from_le_bytes bytes).
Proof.
  induction 1 as [|b rest Hb _ IH]; [done|].
  change (reference 0 (b :: rest)) with (reference (eight_steps (N.lxor 0 b)) rest).
  rewrite N.lxor_0_l, reference_from_zero, IH, (le_cons _ _ Hb).
  cbn [length]. rewrite zeros_linear.
  rewrite <-(Nat.add_1_r (length rest)), !zeros_add. f_equal.
  change (zeros 1 (N.shiftl (from_le_bytes rest) 8))
    with (eight_steps (N.shiftl (from_le_bytes rest) 8)).
  by rewrite eight_steps_shiftl.
Qed.

(** ** The slice-by-8 kernel *)

Lemma zeros_peel n x :
  zeros (S n) x = N.lxor (zeros (S n) (N.land x 0xFF)) (zeros n (N.shiftr x 8)).
Proof.
  rewrite (low_byte_split x) at 1. rewrite zeros_linear. f_equal.
  rewrite <-(Nat.add_1_r n), zeros_add.
  change (zeros 1 (N.shiftl (N.shiftr x 8) 8)) with (eight_steps (N.shiftl (N.shiftr x 8) 8)).
  by rewrite eight_steps_shiftl.
Qed.

(** Four table lookups, one per byte of a word. *)
Lemma zeros_word k x :
  is_u32 x → (k <= 4)%nat →
  zeros (4 + k) x =
    N.lxor (table (3 + k) x) (N.lxor (table (2 + k) (N.shiftr x 8))
      (N.lxor (table (1 + k) (N.shiftr x 16)) (table k (N.shiftr x 24)))).
Proof.
  intros Hx Hk. rewrite !table_spec by lia.
  rewrite (zeros_peel (3 + k)), (zeros_peel (2 + k)), (zeros_peel (1 + k)), (zeros_peel k).
  rewrite !N.shiftr_shiftr. change (8 + 8 + 8 + 8) with 32.
  change (8 + 8 + 8) with 24. change (8 + 8) with 16.
  assert (N.shiftr x 32 = 0) as ->
    by (rewrite N.shiftr_div_pow2; by apply N.div_small).
  rewrite (linear_0 _ (zeros_linear k)), N.lxor_0_r. done.
Qed.

Lemma scalar_chunk_reference s chunk :
  is_u32 s → Forall is_byte chunk → length chunk = 8%nat →
  scalar_chunk s chunk = reference s chunk.
Proof.
  intros Hs Hb Hl. unfold scalar_chunk.
  assert (Forall is_byte (take 4 chunk)) as Hlo by (by apply Forall_take).
  assert (Forall is_byte (drop 4 chunk)) as Hhi by (by apply Forall_drop).
  assert (length (take 4 chunk) = 4%nat) as El by (rewrite length_take; lia).
  assert (length (drop 4 chunk) = 4%nat) as Eh by (rewrite length_drop; lia).
  rewrite <-(take_drop 4 chunk) at 9. rewrite reference_app.
  rewrite (reference_from_zero _ (drop 4 chunk)), (reference_from_zero s), !reference_le by done.
  rewrite El, Eh. rewrite <-(zeros_linear 4 s), <-zeros_add.
  set (low := N.lxor (from_le_bytes (take 4 chunk)) s).
  set (high := from_le_bytes (drop 4 chunk)).
  replace (N.lxor s (from_le_bytes (take 4 chunk))) with low by apply N.lxor_comm.
  assert (is_u32 low) as Hlow by (apply lxor_u32; [by apply le_u32; rewrite ?El|done]).
  assert (is_u32 high) as Hhigh by (by apply le_u32; rewrite ?Eh).
  rewrite (zeros_word 4 low Hlow) by lia.
  change (zeros 4 high) with (zeros (4 + 0) high). rewrite (zeros_word 0 high Hhigh) by lia.
  rewrite !N.lxor_assoc. reflexivity.
Qed.

Lemma fold_chunks_reference f fuel s data s' rest :
  (∀ s chunk, is_u32 s → Forall is_byte chunk → length chunk = 8%nat →
     f s chunk = reference s chunk) →
  is_u32 s → Forall is_byte data →
  fold_chunks f fuel s data = (s', rest) →
  is_u32 s' ∧ Forall is_byte rest ∧ reference s' rest = reference s data.
Proof.
  intros Hf. revert s data. induction fuel as [|fuel IH]; intros s data Hs Hd; simpl.
  { intros [= <- <-]. done. }
  unfold split_chunk. case_bool_decide as Hl; [intros [= <- <-]; done|].
  assert (length (take SLICE data) = 8%nat) as E8 by (rewrite length_take; unfold SLICE in *; lia).
  rewrite Hf by (try apply Forall_take; done). intros E.
  apply IH in E as (? & ? & E); [|by apply reference_u32; [|apply Forall_take]|by apply Forall_drop].
  do 2 (split; [done|]). rewrite E, <-reference_app. by rewrite take_drop.
Qed.

Lemma scalar_byte_reference s b : is_byte b → scalar_byte s b = byte_step s b.
Proof.
  intros Hb. unfold scalar_byte, byte_step. rewrite table_spec by lia.
  change (zeros 1 (N.land (N.lxor s b) 0xFF)) with (eight_steps (N.land (N.lxor s b) 0xFF)).
  rewrite <-nth_table0, <-table_step, N.shiftr_lxor, (shiftr_byte b Hb), N.lxor_0_r. done.
Qed.

Lemma scalar_bytes_reference s data :
  Forall is_byte data → foldl scalar_byte s data = reference s data.
Proof.
  intros Hd. revert s. induction Hd as [|b data Hb _ IH]; intros s; [done|].
  simpl. by rewrite scalar_byte_reference, IH.
Qed.

Lemma update_state_scalar_reference s data :
  is_u32 s → Forall is_byte data → update_state_scalar s data = reference s data.
Proof.
  intros Hs Hd. unfold update_state_scalar.
  destruct (fold_chunks scalar_chunk (length data) s data) as [s' rest] eqn:E.
  apply fold_chunks_reference in E as (_ & Hr & <-); [|apply scalar_chunk_reference|done|done].
  by apply scalar_bytes_reference.
Qed.

(** ** Matrices over GF(2) *)

(** [m] lists the images of the basis vectors under [F]. *)
Definition represents (m : Matrix) (F : N → N) : Prop :=
  ∀ i, (i < 32)%nat → nth i m 0 = F (N.shiftl 1 (N.of_nat i)).

Lemma bit_split r : r = N.lxor (if N.odd r then 1 else 0) (N.shiftl (N.shiftr r 1) 1).
Proof.
  apply N.bits_inj. intros k. rewrite N.lxor_spec.
  destruct (N.eqb_spec k 0) as [->|Hk].
  - rewrite N.shiftl_spec_low by lia. rewrite N.bit0_odd. by destruct (N.odd r).
  - rewrite N.shiftl_spec_high' by lia. rewrite N.shiftr_spec'. 
    replace (k - 1 + 1) with k by lia. destruct (N.odd r); [|by rewrite N.bits_0, xorb_false_l].
    assert (N.testbit 1 k = false) as ->; [|by rewrite xorb_false_l].
    apply N.bits_above_log2. simpl. lia.
Qed.

Lemma shiftr_1_bound r k : r < 2 ^ N.of_nat (S k) → N.shiftr r 1 < 2 ^ N.of_nat k.
Proof.
  intros Hr. rewrite N.shiftr_div_pow2. apply N.Div0.div_lt_upper_bound.
  rewrite <-N.pow_add_r. by replace (1 + N.of_nat k) with (N.of_nat (S k)) by lia.
Qed.

Lemma apply_loop_spec F m fuel r bit sum :
  linear F → represents m F → (fuel + bit <= 32)%nat → r < 2 ^ N.of_nat fuel →
  apply_loop fuel m r bit sum = N.lxor sum (F (N.shiftl r (N.of_nat bit))).
Proof.
  intros Hl Hm. revert r bit sum. induction fuel as [|fuel IH]; intros r bit sum Hf Hr; simpl.
  - assert (r = 0) as -> by (simpl in Hr; lia).
    by rewrite N.shiftl_0_l, (linear_0 _ Hl), N.lxor_0_r.
  - destruct (N.eqb_spec r 0) as [->|Hne].
    { by rewrite N.shiftl_0_l, (linear_0 _ Hl), N.lxor_0_r. }
    rewrite IH by (try apply shiftr_1_bound; try done; lia). rewrite land_1_odd.
    rewrite (bit_split r) at 3. rewrite N.shiftl_lxor, N.shiftl_shiftl, Hl.
    replace (1 + N.of_nat bit) with (N.of_nat (S bit)) by lia.
    destruct (N.odd r).
    + rewrite Hm by lia. apply N.lxor_assoc.
    + by rewrite N.shiftl_0_l, (linear_0 _ Hl), N.lxor_0_l.
Qed.

Lemma apply_represents F m v :
  linear F → represents m F → is_u32 v → apply m v = F v.
Proof.
  intros Hl Hm Hv. unfold apply. rewrite (apply_loop_spec F) by done.
  by rewrite N.lxor_0_l, N.shiftl_0_r.
Qed.

Lemma basis_u32 i : (i < 32)%nat → is_u32 (N.shiftl 1 (N.of_nat i)).
Proof.
  intros Hi. unfold is_u32. rewrite N.shiftl_1_l. apply N.pow_lt_mono_r; lia.
Qed.

Lemma square_represents m j : represents m (zeros j) → represents (square m) (zeros (j + j)).
Proof.
  intros Hm i Hi. unfold square. erewrite nth_lookup_Some.
  2: { rewrite list_lookup_fmap, lookup_seq_lt by done. reflexivity. }
  rewrite zeros_add. cbn [Nat.add]. rewrite Hm by done.
  apply apply_represents; [apply zeros_linear|done|]. by apply zeros_u32, basis_u32.
Qed.

Lemma one_zero_byte_represents : represents one_zero_byte_operator (zeros 1).
Proof.
  intros i Hi. unfold one_zero_byte_operator. erewrite nth_lookup_Some.
  2: { rewrite list_lookup_fmap, lookup_seq_lt by done. reflexivity. }
  rewrite update_state_scalar_reference.
  - unfold reference. simpl. unfold byte_step. by rewrite N.lxor_0_r.
  - by apply basis_u32.
  - repeat constructor.
Qed.

Lemma chain_represents m j n k :
  represents m (zeros j) → (k < n)%nat →
  represents (nth k (chain_from m n) []) (zeros (j * 2 ^ k)).
Proof.
  revert m j k. induction n as [|n IH]; intros m j k Hm Hk; [lia|].
  cbn [chain_from]. destruct k as [|k]; cbn [nth].
  - by rewrite Nat.pow_0_r, Nat.mul_1_r.
  - replace (j * 2 ^ S k)%nat with ((j + j) * 2 ^ k)%nat by (rewrite Nat.pow_succ_r'; lia).
    apply IH; [by apply square_represents|lia].
Qed.

Lemma shift_loop_spec fuel n bit r :
  (fuel + bit <= CHAIN_LEN)%nat → n < 2 ^ N.of_nat fuel → is_u32 r →
  shift_loop fuel doubling_chain n bit r = zeros (N.to_nat n * 2 ^ bit) r.
Proof.
  revert n bit r. induction fuel as [|fuel IH]; intros n bit r Hf Hn Hr.
  - assert (n = 0) as -> by (simpl in Hn; lia). done.
  - cbn [shift_loop]. destruct (N.eqb_spec n 0) as [->|Hne]; [done|].
    set (r' := if negb _ then _ else _).
    assert (r' = zeros (N.to_nat (N.b2n (N.odd n)) * 2 ^ bit) r) as Er.
    { unfold r'. rewrite land_1_odd. destruct (N.odd n); simpl N.b2n; [|done].
      rewrite (apply_represents (zeros (1 * 2 ^ bit)));
        [done|apply zeros_linear| |done].
      apply chain_represents; [apply one_zero_byte_represents|lia]. }
    rewrite IH; [|lia|by apply shiftr_1_bound|rewrite Er; by apply zeros_u32].
    rewrite Er, <-zeros_add. f_equal. rewrite Nat.pow_succ_r'.
    assert (N.to_nat n = 2 * N.to_nat (N.shiftr n 1) + N.to_nat (N.b2n (N.odd n)))%nat as ->.
    { rewrite <-N.div2_spec. pose proof (N.div2_odd n) as E. lia. }
    lia.
Qed.

Lemma shift_zero_bytes_spec r n :
  is_u32 r → n < 2 ^ 64 → shift_zero_bytes r n = zeros (N.to_nat n) r.
Proof.
  intros Hr Hn. unfold shift_zero_bytes. rewrite shift_loop_spec by done.
  by rewrite Nat.pow_0_r, Nat.mul_1_r.
Qed.

(** Splicing a block computed from zero after a head register. *)
Lemma combine_reference head data :
  is_u32 head → N.of_nat (length data) < 2 ^ 64 →
  combine head (reference 0 data) (N.of_nat (length data)) = reference head data.
Proof.
  intros Hh Hl. unfold combine. rewrite shift_zero_bytes_spec by done.
  rewrite Nat2N.id. symmetry. apply reference_from_zero.
Qed.

(** ** The hardware kernels *)

Lemma third_len_spec data :
  ∃ q, third_len data = (8 * q)%nat ∧ (3 * third_len data <= length data)%nat.
Proof.
  unfold third_len. set (x := N.of_nat (length data) / 3).
  exists (N.to_nat (N.shiftr x 3)).
  assert (N.ldiff x 7 = N.shiftr x 3 * 8) as ->.
  { change 7 with (N.ones 3). rewrite N.ldiff_ones_r. by rewrite N.shiftl_mul_pow2. }
  split; [lia|].
  assert (N.shiftr x 3 * 8 <= x).
  { rewrite N.shiftr_div_pow2. change (2 ^ 3) with 8. rewrite N.mul_comm.
    apply N.Div0.mul_div_le. }
  assert (3 * x <= N.of_nat (length data)) by apply N.Div0.mul_div_le. lia.
Qed.

#[local] Opaque combine.

Section hardware_proofs.
Context `{CrcInstructionsLaws}.

Lemma hw_chunk_reference s chunk :
  is_u32 s → Forall is_byte chunk → length chunk = 8%nat →
  hw_chunk s chunk = reference s chunk.
Proof. apply crc32_u64_law. Qed.

Lemma hw_bytes_reference s data :
  is_u32 s → Forall is_byte data → foldl crc32_u8 s data = reference s data.
Proof.
  intros Hs Hd. revert s Hs. induction Hd as [|b data Hb _ IH]; intros s Hs; [done|].
  simpl. rewrite (crc32_u8_law s b Hs Hb). apply IH. by apply byte_step_u32.
Qed.

Lemma single_stream_reference s data :
  is_u32 s → Forall is_byte data → single_stream s data = reference s data.
Proof.
  intros Hs Hd. unfold single_stream.
  destruct (fold_chunks hw_chunk (length data) s data) as [s' rest] eqn:E.
  apply fold_chunks_reference in E as (Hs' & Hr & <-); [|apply hw_chunk_reference|done|done].
  by apply hw_bytes_reference.
Qed.

(** The lockstep loop is three independent folds. *)
Lemma three_way_reference q fuel sa sb sc a b c :
  length a = (8 * q)%nat → length b = (8 * q)%nat → length c = (8 * q)%nat →
  (q <= fuel)%nat → is_u32 sa → is_u32 sb → is_u32 sc →
  Forall is_byte a → Forall is_byte b → Forall is_byte c →
  three_way fuel (sa, sb, sc) a b c = (reference sa a, reference sb b, reference sc c).
Proof.
  revert fuel sa sb sc a b c.
  induction q as [|q IH]; intros fuel sa sb sc a b c La Lb Lc Hf Ha Hb Hc Fa Fb Fc.
  - apply nil_length_inv in La, Lb, Lc. subst. by destruct fuel.
  - destruct fuel as [|fuel]; [lia|]. cbn [three_way]. unfold split_chunk, SLICE.
    rewrite !bool_decide_false by lia.
    assert (∀ l, length l = (8 * S q)%nat → Forall is_byte l →
      length (take 8 l) = 8%nat ∧ length (drop 8 l) = (8 * q)%nat ∧
      Forall is_byte (take 8 l) ∧ Forall is_byte (drop 8 l)) as Hsplit.
    { intros l Hl HF. rewrite length_take, length_drop.
      split; [lia|]. split; [lia|]. split; [by apply Forall_take|by apply Forall_drop]. }
    destruct (Hsplit a La Fa) as (?&?&?&?), (Hsplit b Lb Fb) as (?&?&?&?),
      (Hsplit c Lc Fc) as (?&?&?&?).
    rewrite IH by (try lia; try done; rewrite hw_chunk_reference by done;
                   by apply reference_u32).
    rewrite !hw_chunk_reference by done. by rewrite <-!reference_app, !take_drop.
Qed.

Lemma interleaved_reference s data :
  is_u32 s → Forall is_byte data → N.of_nat (length data) < 2 ^ 64 →
  interleaved s data = reference s data.
Proof.
  intros Hs Hd Hl. unfold interleaved. case_bool_decide as Hz;
    [by apply single_stream_reference|].
  destruct (third_len_spec data) as (q & Eq & Hle). set (third := third_len data) in *.
  set (a := take third data). set (b := take third (drop third data)).
  set (rest := drop third (drop third data)).
  assert (length a = third) as La by (unfold a; rewrite length_take; lia).
  assert (length b = third) as Lb by (unfold b; rewrite length_take, length_drop; lia).
  assert (length (take third rest) = third) as Lc
    by (unfold rest; rewrite length_take, !length_drop; lia).
  assert (Forall is_byte a ∧ Forall is_byte b ∧ Forall is_byte (take third rest) ∧
          Forall is_byte (drop third rest)) as (Fa & Fb & Fc & Ft)
    by (unfold a, b, rest; split_and!; repeat first [apply Forall_take|apply Forall_drop]; done).
  assert (data = a ++ b ++ take third rest ++ drop third rest) as Ed
    by (unfold a, b, rest; by rewrite !take_drop).
  rewrite (three_way_reference q) by (done || lia).
  clearbody a b rest third.
  assert (is_u32 (reference s a)) by (by apply reference_u32).
  assert (∀ h l, length l = third → is_u32 h →
    combine h (reference 0 l) (N.of_nat third) = reference h l) as Hcomb.
  { intros h l Hll Hh. rewrite <-Hll. apply combine_reference; [done|lia]. }
  rewrite (Hcomb (reference s a) b Lb) by done.
  rewrite (Hcomb (reference (reference s a) b) (take third rest) Lc)
    by (by apply reference_u32).
  rewrite single_stream_reference; [|by repeat apply reference_u32|done].
  rewrite Ed. by rewrite !reference_app.
Qed.

Lemma update_state_hw_reference s data :
  is_u32 s → Forall is_byte data → N.of_nat (length data) < 2 ^ 64 →
  update_state_hw s data = reference s data.
Proof.
  intros Hs Hd Hl. unfold update_state_hw.
  destruct (N.leb _ _); [by apply interleaved_reference|by apply single_stream_reference].
Qed.
End hardware_proofs.

(** ** Every backend *)

(** A processor whose instructions, if it has any, are as documented. *)
Definition cpu_ok (cpu : Cpu) : Prop :=
  match cpu with
  | NoCrcInstructions => True
  | WithCrcInstructions i => CrcInstructionsLaws
  end.

(** The bytes of a buffer that fits in memory. *)
Definition buffer (data : list N) : Prop :=
  Forall is_byte data ∧ N.of_nat (length data) < 2 ^ 64.

Lemma update_state_reference cpu s data :
  cpu_ok cpu → is_u32 s → buffer data → update_state cpu s data = reference s data.
Proof.
  intros Hc Hs [Hd Hl]. destruct cpu as [|i]; simpl.
  - by apply update_state_scalar_reference.
  - simpl in Hc. by apply update_state_hw_reference.
Qed.

Lemma not32_involutive x : not32 (not32 x) = x.
Proof. unfold not32. by rewrite N.lxor_assoc, N.lxor_nilpotent, N.lxor_0_r. Qed.

Lemma not32_u32 x : is_u32 x → is_u32 (not32 x).
Proof. intros Hx. by apply lxor_u32. Qed.

Lemma not32_inj x y : not32 x = not32 y → x = y.
Proof. intros E. rewrite <-(not32_involutive x), E. apply not32_involutive. Qed.

Lemma crc32c_reference cpu data :
  cpu_ok cpu → buffer data → crc32c cpu data = not32 (reference u32_max data).
Proof.
  intros Hc Hd. unfold crc32c, crc32c_append.
  rewrite update_state_reference; [done|done| |done]. by apply not32_u32.
Qed.

(** The instructions as an interpreter would run them. *)
Definition interpreted_instructions : CrcInstructions := {|
  crc32_u64 state word :=
    foldl (λ s i, byte_step s (N.land (N.shiftr word (8 * N.of_nat i)) 0xFF)) state (seq 0 8);
  crc32_u8 := byte_step
|}.

Lemma le_low_byte b rest : is_byte b → N.land (from_le_bytes (b :: rest)) 0xFF = b.
Proof.
  intros Hb. change 0xFF with (N.ones 8). rewrite N.land_ones, (le_cons_add _ _ Hb).
  change (2 ^ 8) with 256. rewrite N.Div0.mod_add. by apply N.mod_small.
Qed.

Lemma le_shift_byte b rest :
  is_byte b → N.shiftr (from_le_bytes (b :: rest)) 8 = from_le_bytes rest.
Proof.
  intros Hb. rewrite (le_cons _ _ Hb), N.shiftr_lxor, (shiftr_byte b Hb), N.lxor_0_l.
  by rewrite N.shiftr_shiftl_l, N.shiftl_0_r.
Qed.

Lemma le_byte_at bytes i b :
  Forall is_byte bytes → bytes !! i = Some b →
  N.land (N.shiftr (from_le_bytes bytes) (8 * N.of_nat i)) 0xFF = b.
Proof.
  intros Hb. revert i. induction Hb as [|x rest Hx _ IH]; intros i Hi; [done|].
  destruct i as [|i]; simpl in Hi.
  - simplify_eq. rewrite N.shiftr_0_r. by apply le_low_byte.
  - replace (8 * N.of_nat (S i)) with (8 + 8 * N.of_nat i) by lia.
    rewrite <-N.shiftr_shiftr, le_shift_byte by done. by apply IH.
Qed.

Lemma interpreted_laws : @CrcInstructionsLaws interpreted_instructions.
Proof.
  split; [done|]. intros s bytes Hs Hb Hl.
  destruct bytes as [|b0 [|b1 [|b2 [|b3 [|b4 [|b5 [|b6 [|b7 [|]]]]]]]]]; try done.
  pose proof (λ i b, le_byte_at _ i b Hb) as Hat.
  unfold reference. cbn [crc32_u64 interpreted_instructions seq foldl].
  rewrite (Hat 0%nat b0 eq_refl), (Hat 1%nat b1 eq_refl), (Hat 2%nat b2 eq_refl),
    (Hat 3%nat b3 eq_refl), (Hat 4%nat b4 eq_refl), (Hat 5%nat b5 eq_refl),
    (Hat 6%nat b6 eq_refl), (Hat 7%nat b7 eq_refl). done.
Qed.

(** ** Error detection *)

(** The polynomial's top bit is set, so no step loses a bit. *)
Lemma bit_step_zero x : is_u32 x → bit_step x = 0 → x = 0.
Proof.
  intros Hx. unfold bit_step. rewrite land_1_odd.
  destruct (N.odd x) eqn:Eo.
  - intros E%N.lxor_eq. exfalso. assert (N.shiftr x 1 < 2 ^ 31) as Hs.
    { change 31 with (N.of_nat 31). by apply shiftr_1_bound. }
    rewrite E in Hs. vm_compute in Hs. done.
  - intros E. by rewrite (bit_split x), Eo, E.
Qed.

Lemma iter_zero (f : N → N) n x :
  (∀ y, is_u32 y → is_u32 (f y)) → (∀ y, is_u32 y → f y = 0 → y = 0) →
  is_u32 x → Nat.iter n f x = 0 → x = 0.
Proof.
  intros Hu Hz Hx. assert (∀ k, is_u32 (Nat.iter k f x)) as Hk
    by (intros k; induction k; [done|by apply Hu]).
  induction n as [|n IH]; [done|]. intros E. apply IH, Hz; [apply Hk|exact E].
Qed.

Lemma zeros_zero k x : is_u32 x → zeros k x = 0 → x = 0.
Proof.
  apply iter_zero; [apply eight_steps_u32|].
  intros y. apply iter_zero; [apply bit_step_u32|apply bit_step_zero].
Qed.

Lemma reference_difference s s' data :
  N.lxor (reference s data) (reference s' data) = zeros (length data) (N.lxor s s').
Proof.
  rewrite (reference_from_zero s), (reference_from_zero s'), zeros_linear. 
  generalize (zeros (length data) s) (zeros (length data) s') (reference 0 data).
  intros a b c. xor_solve.
Qed.

Lemma reference_inj s s' data :
  is_u32 s → is_u32 s' → reference s data = reference s' data → s = s'.
Proof.
  intros Hs Hs' E. apply N.lxor_eq. apply (zeros_zero (length data)); [by apply lxor_u32|].
  rewrite <-reference_difference, E. apply N.lxor_nilpotent.
Qed.

Lemma le_inj xs ys :
  Forall is_byte xs → Forall is_byte ys → length xs = length ys →
  from_le_bytes xs = from_le_bytes ys → xs = ys.
Proof.
  intros Hx. revert ys. induction Hx as [|x xs Hx _ IH]; intros [|y ys] Hy Hl E; try done.
  apply Forall_cons_1 in Hy as [Hy Hys]. f_equal.
  - rewrite <-(le_low_byte x xs Hx), E. by apply le_low_byte.
  - apply IH; [done|by injection Hl|].
    rewrite <-(le_shift_byte x xs Hx), E. by apply le_shift_byte.
Qed.

(** Two blocks of at most four bytes reach different registers. *)
Lemma reference_block_inj s xs ys :
  Forall is_byte xs → Forall is_byte ys → length xs = length ys → (length xs <= 4)%nat →
  reference s xs = reference s ys → xs = ys.
Proof.
  intros Hx Hy Hl H4. rewrite (reference_from_zero s xs), (reference_from_zero s ys), Hl.
  rewrite !reference_le, Hl by done. intros E. apply le_inj; [done..|].
  apply N.lxor_eq, (zeros_zero (length ys)).
  - apply lxor_u32; apply le_u32; (done || lia).
  - rewrite zeros_linear. revert E.
    generalize (zeros (length ys) s) (zeros (length ys) (from_le_bytes xs))
      (zeros (length ys) (from_le_bytes ys)).
    intros a b c E. rewrite <-(N.lxor_0_l c), <-(N.lxor_nilpotent a), N.lxor_assoc, <-E.
    xor_solve.
Qed.

Lemma crc32c_burst cpu pre xs ys post :
  cpu_ok cpu → buffer (pre ++ xs ++ post) → buffer (pre ++ ys ++ post) →
  length xs = length ys → (length xs <= 4)%nat → xs ≠ ys →
  crc32c cpu (pre ++ xs ++ post) ≠ crc32c cpu (pre ++ ys ++ post).
Proof.
  intros Hc Hb Hb' Hl H4 Hne. rewrite !crc32c_reference by done.
  destruct Hb as [Hb _], Hb' as [Hb' _].
  apply Forall_app in Hb as [Hpre [Hx Hpost]%Forall_app].
  apply Forall_app in Hb' as [_ [Hy _]%Forall_app].
  intros E%not32_inj. apply Hne. rewrite !reference_app in E.
  assert (is_u32 (reference u32_max pre)) by (by apply reference_u32).
  apply reference_inj in E; [|by apply reference_u32..].
  by eapply reference_block_inj.
Qed.

(** ** The properties *)

(** C6. Whatever the processor, [crc32c] is the bit-at-a-time CRC-32C of the
    data: the slice-by-8 tables, the hardware stream and the three-way
    interleaved kernel with its GF(2) combine all agree with the
    polynomial. *)
Theorem crc32c_is_the_polynomial_crc cpu data :
  cpu_ok cpu → buffer data →
  crc32c cpu data = not32 (foldl byte_step u32_max data).
Proof. apply crc32c_reference. Qed.

Lemma crc32c_is_the_polynomial_crc_witness :
  crc32c (WithCrcInstructions interpreted_instructions) [49; 50; 51; 52; 53; 54; 55; 56; 57]
    = CRC32C_CHECK.
Proof.
  rewrite crc32c_is_the_polynomial_crc.
  - vm_compute. reflexivity.
  - exact interpreted_laws.
  - split; [repeat constructor|]; vm_compute; reflexivity.
Defined.

(** The table kernel alone, from any register: eight bytes per step and
    the byte-wise tail give the polynomial's register. *)
Theorem slice_by_8_is_the_polynomial_crc s data :
  is_u32 s → Forall is_byte data → update_state_scalar s data = foldl byte_step s data.
Proof. apply update_state_scalar_reference. Qed.

Lemma slice_by_8_is_the_polynomial_crc_witness :
  update_state_scalar 7 [1; 2; 3; 4; 5; 6; 7; 8; 9; 10]
    = foldl byte_step 7 [1; 2; 3; 4; 5; 6; 7; 8; 9; 10].
Proof.
  apply slice_by_8_is_the_polynomial_crc; [vm_compute; reflexivity|].
  repeat constructor; vm_compute; reflexivity.
Defined.

(** [combine] stitches two independently hashed blocks: a head register
    and the register the tail reaches from zero give the register of the
    concatenation. *)
Theorem combine_is_concatenation initial a b :
  is_u32 initial → Forall is_byte a → buffer b →
  combine (update_state_scalar initial a) (update_state_scalar 0 b) (N.of_nat (length b))
    = update_state_scalar initial (a ++ b).
Proof.
  intros Hi Ha [Hb Hl].
  rewrite !update_state_scalar_reference by (try apply Forall_app; done).
  rewrite combine_reference by (done || by apply reference_u32). by rewrite reference_app.
Qed.

Lemma combine_is_concatenation_witness :
  combine (update_state_scalar 5 [1; 2; 3]) (update_state_scalar 0 [4; 5]) 2
    = update_state_scalar 5 [1; 2; 3; 4; 5].
Proof.
  apply (combine_is_concatenation 5 [1; 2; 3] [4; 5]).
  - vm_compute. reflexivity.
  - repeat constructor; vm_compute; reflexivity.
  - split; [repeat constructor|]; vm_compute; reflexivity.
Defined.

(** Streaming: feeding a hasher piece by piece, resuming from a finished
    checksum, and appending to a checksum all give the checksum of the
    concatenation. *)
Theorem streaming_is_one_shot cpu a b :
  cpu_ok cpu → buffer a → buffer b → buffer (a ++ b) →
  crc_finalize (crc_update cpu (crc_update cpu crc_new a) b) = crc32c cpu (a ++ b) ∧
  crc_finalize (crc_update cpu (crc_resume (crc32c cpu a)) b) = crc32c cpu (a ++ b) ∧
  crc32c_append cpu (crc32c cpu a) b = crc32c cpu (a ++ b).
Proof.
  intros Hc Ha Hb Hab. assert (is_u32 u32_max) as Hm by done.
  assert (is_u32 (reference u32_max a)) by (apply reference_u32; [done|apply Ha]).
  unfold crc_finalize, crc_update, crc_resume, crc_new, crc32c_append. cbn [crc_state].
  rewrite !crc32c_reference, not32_involutive, reference_app by done.
  rewrite (update_state_reference cpu u32_max a) by done.
  by rewrite (update_state_reference cpu _ b) by done.
Qed.

Lemma streaming_is_one_shot_witness :
  crc32c_append NoCrcInstructions (crc32c NoCrcInstructions [49; 50]) [51]
    = crc32c NoCrcInstructions [49; 50; 51].
Proof.
  apply (streaming_is_one_shot NoCrcInstructions [49; 50] [51]);
    [exact I|..]; (split; [repeat constructor|]; vm_compute; reflexivity).
Defined.

(** A checksum detects every change confined to four consecutive
    bytes. *)
Theorem crc32c_detects_bursts cpu pre xs ys post :
  cpu_ok cpu → buffer (pre ++ xs ++ post) → buffer (pre ++ ys ++ post) →
  length xs = length ys → (length xs <= 4)%nat → xs ≠ ys →
  crc32c cpu (pre ++ xs ++ post) ≠ crc32c cpu (pre ++ ys ++ post).
Proof. apply crc32c_burst. Qed.

Lemma crc32c_detects_bursts_witness :
  crc32c NoCrcInstructions [1; 2; 3] ≠ crc32c NoCrcInstructions [1; 6; 3].
Proof.
  apply (crc32c_detects_bursts NoCrcInstructions [1] [2] [6] [3]); [exact I|..];
    try (split; [repeat constructor|]; vm_compute; reflexivity).
  - reflexivity.
  - simpl. lia.
  - discriminate.
Defined.
