(* ===== verification/WireFrame.v ===== *)
(** * The framed wire codec

    Models [src/crates/astrs-wire/src/codec.rs] (the payload codec's rules)
    and [src/crates/astrs-wire/src/frame/]: the flags byte ([flags.rs]), the
    message families ([kind.rs]), the size and integrity policy
    ([limits.rs]), the ten-byte header ([header.rs]) and whole frames
    ([mod.rs]).  A buffer is a list of bytes ([N] below 256); [oxicode], the
    external payload encoding, is a parameter.

    The theorems: what is encoded decodes to itself, also from the front of a
    longer stream; a decoded frame re-encodes to the bytes it came from;
    truncated, oversized and damaged input is rejected; a failed write leaves
    the output buffer as it was. *)

From Stdlib Require Import Lia.
From stdpp Require Import base tactics list strings numbers.
From S2P Require Import Prelude Crc32c.

Open Scope N_scope.

(** ** Little-endian bytes *)

(** [to_le_bytes] of a [k]-byte integer. *)
Fixpoint to_le_bytes (k : nat) (x : N) : list N :=
  match k with
  | O => []
  | S k => N.land x 0xFF :: to_le_bytes k (N.shiftr x 8)
  end.

(** [slice.get(from..to)] *)
Definition get_range (from to : nat) (l : list N) : option (list N) :=
  if bool_decide (from ≤ to ∧ to ≤ length l)%nat
  then Some (take (to - from) (drop from l)) else None.

(** ** [flags.rs] *)

Inductive Compression : Set := NoCompression | Lz4 | Zstd.

#[global] Instance compression_eq_dec : EqDecision Compression.
Proof. solve_decision. Defined.

Definition is_enabled (c : Compression) : bool :=
  match c with NoCompression => false | _ => true end.

(** [FrameFlags]: a byte. *)
Definition FrameFlags : Set := N.
Definition EMPTY : FrameFlags := 0.
Definition CRC : FrameFlags := 1.
Definition LZ4 : FrameFlags := 2.
Definition ZSTD : FrameFlags := 4.
Definition KNOWN_MASK : N := 7.
Definition COMPRESSION_MASK : N := 6.

(** Complement of a byte. *)
Definition not8 (x : N) : N := N.lxor x 0xFF.

Inductive FrameKind : Set :=
  | Control | ControlReply | CoordinatorEvent | DaemonEvent | NodeRequest
  | NodeEvent | PeerEvent | Data | Log | Telemetry.

#[global] Instance kind_eq_dec : EqDecision FrameKind.
Proof. solve_decision. Defined.

(** [WireError], less the variants of parts outside the frame codec. *)
Inductive WireError : Set :=
  | BadMagic (expected found : list N)
  | UnsupportedFrameVersion (found supported : N)
  | UnknownKind (found : N)
  | ReservedFlags (bits reserved : N)
  | ConflictingCompression
  | CompressedPayload (compression : Compression)
  | MissingCrc
  | FrameTooLarge (len max : N)
  | Truncated (expected found : nat)
  | CrcMismatch (expected computed : N)
  | TrailingBytes (consumed trailing : nat)
  | SizeHintMismatch (hint written : nat)
  | KindMismatch (expected found : FrameKind)
  | Codec (reason : string).

Abbreviation WireResult := (result WireError).

Definition from_bits (bits : N) : WireResult FrameFlags :=
  let reserved := N.land bits (not8 KNOWN_MASK) in
  if negb (N.eqb reserved 0) then Err (ReservedFlags bits reserved)
  else if N.eqb (N.land bits COMPRESSION_MASK) COMPRESSION_MASK
  then Err ConflictingCompression
  else Ok bits.

Definition from_bits_truncate (bits : N) : FrameFlags := N.land bits KNOWN_MASK.

Definition flags_contains (f other : FrameFlags) : bool := N.eqb (N.land f other) other.

Definition flags_has_crc (f : FrameFlags) : bool := flags_contains f CRC.

Definition with_crc (f : FrameFlags) (enabled : bool) : FrameFlags :=
  if enabled then N.lor f CRC else N.land f (not8 CRC).

Definition flags_compression (f : FrameFlags) : Compression :=
  if negb (N.eqb (N.land f LZ4) 0) then Lz4
  else if negb (N.eqb (N.land f ZSTD) 0) then Zstd
  else NoCompression.

Definition with_compression (f : FrameFlags) (c : Compression) : FrameFlags :=
  let cleared := N.land f (not8 COMPRESSION_MASK) in
  match c with
  | NoCompression => cleared
  | Lz4 => N.lor cleared LZ4
  | Zstd => N.lor cleared ZSTD
  end.

(** [BitOr] on flags. *)
Definition flags_or (f g : FrameFlags) : FrameFlags := N.lor f g.

(** ** [kind.rs] *)

Definition as_u16 (k : FrameKind) : N :=
  match k with
  | Control => 0 | ControlReply => 1 | CoordinatorEvent => 2 | DaemonEvent => 3
  | NodeRequest => 4 | NodeEvent => 5 | PeerEvent => 6 | Data => 7 | Log => 8
  | Telemetry => 9
  end.

Definition from_u16 (value : N) : WireResult FrameKind :=
  match value with
  | 0 => Ok Control | 1 => Ok ControlReply | 2 => Ok CoordinatorEvent
  | 3 => Ok DaemonEvent | 4 => Ok NodeRequest | 5 => Ok NodeEvent
  | 6 => Ok PeerEvent | 7 => Ok Data | 8 => Ok Log | 9 => Ok Telemetry
  | found => Err (UnknownKind found)
  end.

Definition is_bulk (k : FrameKind) : bool :=
  match k with Data | Log | Telemetry => true | _ => false end.

Definition is_control_plane (k : FrameKind) : bool := negb (is_bulk k).

(** ** [limits.rs] *)

Definition DEFAULT_MAX_PAYLOAD_BYTES : N := 64 * 1024 * 1024.
Definition MAX_SUPPORTED_PAYLOAD_BYTES : N := u32_max.

Record FrameLimits := mkLimits { max_payload_bytes : N; require_crc : bool }.

Definition limits_new : FrameLimits := mkLimits DEFAULT_MAX_PAYLOAD_BYTES false.
Definition limits_network : FrameLimits := mkLimits DEFAULT_MAX_PAYLOAD_BYTES true.
Definition limits_uds : FrameLimits := limits_new.

Definition with_max_payload_bytes (l : FrameLimits) (bytes : N) : FrameLimits :=
  mkLimits (if N.ltb MAX_SUPPORTED_PAYLOAD_BYTES bytes
            then MAX_SUPPORTED_PAYLOAD_BYTES else bytes) (require_crc l).

Definition with_require_crc (l : FrameLimits) (required : bool) : FrameLimits :=
  mkLimits (max_payload_bytes l) required.

Definition check_payload_len (l : FrameLimits) (len : N) : WireResult unit :=
  if N.ltb (max_payload_bytes l) len
  then Err (FrameTooLarge len (max_payload_bytes l)) else Ok tt.

Definition intersect (a b : FrameLimits) : FrameLimits :=
  mkLimits (if N.ltb (max_payload_bytes a) (max_payload_bytes b)
            then max_payload_bytes a else max_payload_bytes b)
    (require_crc a || require_crc b).

(** ** [header.rs] *)

Definition MAGIC : list N := [65; 83].
Definition FRAME_VERSION : N := 1.
Definition HEADER_LEN : nat := 10.
Definition CRC_LEN : nat := 4.

Record FrameHeader := mkHeader {
  hd_version : N;
  hd_flags : FrameFlags;
  hd_kind : FrameKind;
  hd_payload_len : N
}.

Definition header_new (kind : FrameKind) (flags : FrameFlags) (payload_len : N) :
    FrameHeader :=
  mkHeader FRAME_VERSION flags kind payload_len.

Definition has_crc (h : FrameHeader) : bool := flags_has_crc (hd_flags h).

Definition trailer_len (h : FrameHeader) : nat := if has_crc h then CRC_LEN else 0%nat.

Definition total_len (h : FrameHeader) : nat :=
  (HEADER_LEN + N.to_nat (hd_payload_len h) + trailer_len h)%nat.

Definition to_bytes (h : FrameHeader) : list N :=
  MAGIC ++ [hd_version h; hd_flags h] ++ to_le_bytes 2 (as_u16 (hd_kind h))
    ++ to_le_bytes 4 (hd_payload_len h).

(** [write_into]: overwrites the first ten bytes of a slice. *)
Definition write_into (h : FrameHeader) (dst : list N) : list N * WireResult unit :=
  if bool_decide (length dst < HEADER_LEN)%nat
  then (dst, Err (Truncated HEADER_LEN (length dst)))
  else (to_bytes h ++ drop HEADER_LEN dst, Ok tt).

Definition parse (bytes : list N) : WireResult FrameHeader :=
  match bytes with
  | m0 :: m1 :: version :: flags :: k0 :: k1 :: l0 :: l1 :: l2 :: l3 :: _ =>
      if negb (bool_decide ([m0; m1] = MAGIC)) then Err (BadMagic MAGIC [m0; m1])
      else if negb (N.eqb version FRAME_VERSION)
      then Err (UnsupportedFrameVersion version FRAME_VERSION)
      else
        let? flags := from_bits flags in
        let? kind := from_u16 (from_le_bytes [k0; k1]) in
        Ok (mkHeader version flags kind (from_le_bytes [l0; l1; l2; l3]))
  | _ => Err (Truncated HEADER_LEN (length bytes))
  end.

(** ** [codec.rs] *)

(** The external encoding of a type: its size, the bytes it writes (also
    those written before a failure), and decoding from the front of a
    slice. *)
Class Oxicode (T : Type) := {
  ox_size : T → result string nat;
  ox_encode : T → list N * result string unit;
  ox_decode : list N → result string (T * nat)
}.

(** What the wire codec relies on: decoding what was encoded gives it back
    and consumes exactly its bytes, and the size pass counts them. *)
Class OxicodeLaws (T : Type) `{Oxicode T} := {
  ox_decode_encode v bytes rest :
    ox_encode v = (bytes, Ok tt) → ox_decode (bytes ++ rest) = Ok (v, length bytes);
  ox_size_exact v bytes : ox_encode v = (bytes, Ok tt) → ox_size v = Ok (length bytes);
  ox_bytes v : Forall is_byte (ox_encode v).1;
  ox_consumed bytes v k : ox_decode bytes = Ok (v, k) → (k ≤ length bytes)%nat
}.

Section codec.
Context {T : Type} `{Oxicode T}.

Definition encode_size_hint (v : T) : WireResult nat := map_err Codec (ox_size v).

Definition encode_presized (v : T) (out : list N) : list N * WireResult nat :=
  match encode_size_hint v with
  | Err e => (out, Err e)
  | Ok hint =>
      let start := length out in
      let '(written_bytes, r) := ox_encode v in
      let out := out ++ written_bytes in
      match r with
      | Err e => (take start out, Err (Codec e))
      | Ok _ =>
          let written := (length out - start)%nat in
          if negb (Nat.eqb written hint)
          then (take start out, Err (SizeHintMismatch hint written))
          else (out, Ok written)
      end
  end.

Definition encode_to_vec (v : T) : WireResult (list N) :=
  let? _ := encode_size_hint v in
  match encode_presized v [] with
  | (out, Ok _) => Ok out
  | (_, Err e) => Err e
  end.

Definition decode_prefix (bytes : list N) : WireResult (T * nat) :=
  map_err Codec (ox_decode bytes).

Definition decode_exact (bytes : list N) : WireResult T :=
  let? p := decode_prefix bytes in
  let '(value, consumed) := p in
  if negb (Nat.eqb consumed (length bytes))
  then Err (TrailingBytes consumed (length bytes - consumed))
  else Ok value.
End codec.

(** ** Frames ([mod.rs]) *)

(** A frame: owned ([Frame]) or borrowed ([FrameView]), a header and a
    payload. *)
Record Frame := mkFrame { fr_header : FrameHeader; fr_payload : list N }.

Definition expect_kind (f : Frame) (expected : FrameKind) : WireResult unit :=
  let found := hd_kind (fr_header f) in
  if bool_decide (found = expected) then Ok tt else Err (KindMismatch expected found).

Definition reject_compression (flags : FrameFlags) : WireResult unit :=
  let compression := flags_compression flags in
  if is_enabled compression then Err (CompressedPayload compression) else Ok tt.

Definition frame_decode {T} `{Oxicode T} (f : Frame) : WireResult T :=
  let compression := flags_compression (hd_flags (fr_header f)) in
  if is_enabled compression then Err (CompressedPayload compression)
  else decode_exact (fr_payload f).

Definition decode_as {T} `{Oxicode T} (f : Frame) (expected : FrameKind) : WireResult T :=
  let? _ := expect_kind f expected in frame_decode f.

(** [u32::try_from(len)] of a payload length. *)
Definition payload_u32 (len : nat) : WireResult N :=
  if N.ltb u32_max (N.of_nat len)
  then Err (FrameTooLarge (N.of_nat len) MAX_SUPPORTED_PAYLOAD_BYTES)
  else Ok (N.of_nat len).

Definition frame_new (kind : FrameKind) (flags : FrameFlags) (payload : list N) :
    WireResult Frame :=
  let? len := payload_u32 (length payload) in
  Ok (mkFrame (header_new kind flags len) payload).

Section framing.
Context (cpu : Cpu).

Definition write_frame (out : list N) (kind : FrameKind) (flags : FrameFlags)
    (payload : list N) (limits : FrameLimits) : list N * WireResult nat :=
  match check_payload_len limits (N.of_nat (length payload)) with
  | Err e => (out, Err e)
  | Ok _ =>
      match payload_u32 (length payload) with
      | Err e => (out, Err e)
      | Ok len =>
          let header := header_new kind flags len in
          let header_bytes := to_bytes header in
          let out := out ++ header_bytes ++ payload in
          let out :=
            if flags_has_crc flags then
              out ++ to_le_bytes 4
                (crc_finalize (crc_update cpu (crc_update cpu crc_new header_bytes) payload))
            else out in
          (out, Ok (total_len header))
      end
  end.

Definition write_message {T} `{Oxicode T} (out : list N) (kind : FrameKind)
    (flags : FrameFlags) (message : T) (limits : FrameLimits) : list N * WireResult nat :=
  match (let? _ := reject_compression flags in
         let? hint := encode_size_hint message in
         check_payload_len limits (N.of_nat hint)) with
  | Err e => (out, Err e)
  | Ok _ =>
      let start := length out in
      let '(out, encoded) := encode_presized message (out ++ replicate HEADER_LEN 0) in
      match (let? payload_len := encoded in
             let? _ := check_payload_len limits (N.of_nat payload_len) in
             let? len := payload_u32 payload_len in Ok (payload_len, len)) with
      | Err e => (take start out, Err e)
      | Ok (payload_len, len) =>
          match write_into (header_new kind flags len) (drop start out) with
          | (_, Err e) => (take start out, Err e)
          | (framed, Ok _) =>
              let out := take start out ++ framed in
              if flags_has_crc flags then
                match get_range start (start + HEADER_LEN + payload_len) out with
                | Some checked =>
                    let out := out ++ to_le_bytes 4 (crc32c cpu checked) in
                    (out, Ok (length out - start)%nat)
                | None =>
                    (take start out,
                     Err (Truncated (HEADER_LEN + payload_len) (length out - start)))
                end
              else (out, Ok (length out - start)%nat)
          end
      end
  end.

Definition encode_frame (kind : FrameKind) (flags : FrameFlags) (payload : list N)
    (limits : FrameLimits) : WireResult (list N) :=
  match write_frame [] kind flags payload limits with
  | (out, Ok _) => Ok out
  | (_, Err e) => Err e
  end.

Definition encode_message {T} `{Oxicode T} (kind : FrameKind) (flags : FrameFlags)
    (message : T) (limits : FrameLimits) : WireResult (list N) :=
  match write_message [] kind flags message limits with
  | (out, Ok _) => Ok out
  | (_, Err e) => Err e
  end.

Definition decode_frame_prefix (buf : list N) (limits : FrameLimits) : WireResult Frame :=
  let? header := parse buf in
  let payload_len := N.to_nat (hd_payload_len header) in
  let? _ := check_payload_len limits (N.of_nat payload_len) in
  if require_crc limits && negb (has_crc header) then Err MissingCrc
  else
    let total := total_len header in
    let truncated := Err (Truncated total (length buf)) in
    if bool_decide (length buf < total)%nat then truncated
    else
      match get_range HEADER_LEN (HEADER_LEN + payload_len) buf with
      | None => truncated
      | Some payload =>
          if has_crc header then
            match get_range 0 (HEADER_LEN + payload_len) buf,
                  get_range (HEADER_LEN + payload_len) total buf with
            | Some checked, Some trailer =>
                let expected := from_le_bytes trailer in
                let computed := crc32c cpu checked in
                if negb (N.eqb expected computed) then Err (CrcMismatch expected computed)
                else Ok (mkFrame header payload)
            | _, _ => truncated
            end
          else Ok (mkFrame header payload)
      end.

Definition decode_frame (buf : list N) (limits : FrameLimits) : WireResult Frame :=
  let? view := decode_frame_prefix buf limits in
  let consumed := total_len (fr_header view) in
  if negb (Nat.eqb consumed (length buf))
  then Err (TrailingBytes consumed (length buf - consumed))
  else Ok view.

Definition frame_from_message {T} `{Oxicode T} (kind : FrameKind) (flags : FrameFlags)
    (message : T) (limits : FrameLimits) : WireResult Frame :=
  let? _ := reject_compression flags in
  let? hint := encode_size_hint message in
  let? _ := check_payload_len limits (N.of_nat hint) in
  match encode_presized message [] with
  | (payload, Ok _) => frame_new kind flags payload
  | (_, Err e) => Err e
  end.

Definition frame_encode (f : Frame) (limits : FrameLimits) : WireResult (list N) :=
  match write_frame [] (hd_kind (fr_header f)) (hd_flags (fr_header f)) (fr_payload f) limits with
  | (out, Ok _) => Ok out
  | (_, Err e) => Err e
  end.
End framing.

(** ** Little-endian round trips *)

Lemma length_to_le k x : length (to_le_bytes k x) = k.
Proof. revert x. induction k as [|k IH]; intros x; simpl; [done|]. by rewrite IH. Qed.

Lemma to_le_is_byte k x : Forall is_byte (to_le_bytes k x).
Proof.
  revert x. induction k as [|k IH]; intros x; simpl; constructor; [|apply IH].
  apply land_ff_byte.
Qed.

Lemma from_to_le k x : x < 2 ^ (8 * N.of_nat k) → from_le_bytes (to_le_bytes k x) = x.
Proof.
  revert x. induction k as [|k IH]; intros x Hx; [simpl in *; lia|].
  cbn [to_le_bytes]. rewrite le_cons by apply land_ff_byte. rewrite IH.
  - symmetry. apply low_byte_split.
  - rewrite N.shiftr_div_pow2. apply N.Div0.div_lt_upper_bound.
    rewrite <-N.pow_add_r. by replace (8 + 8 * N.of_nat k) with (8 * N.of_nat (S k)) by lia.
Qed.

Lemma to_from_le bytes :
  Forall is_byte bytes → to_le_bytes (length bytes) (from_le_bytes bytes) = bytes.
Proof.
  induction 1 as [|b rest Hb _ IH]; [done|]. cbn [length to_le_bytes].
  rewrite le_low_byte, le_shift_byte by done. by rewrite IH.
Qed.

Lemma get_range_app a b c :
  get_range (length a) (length a + length b) (a ++ b ++ c) = Some b.
Proof.
  unfold get_range. rewrite bool_decide_true by (rewrite !length_app; lia).
  rewrite drop_app_length. replace (length a + length b - length a)%nat with (length b) by lia.
  by rewrite take_app_length.
Qed.

Lemma get_range_split from to l s :
  get_range from to l = Some s →
  l = take from l ++ s ++ drop to l ∧ length s = (to - from)%nat ∧ (from ≤ to ≤ length l)%nat.
Proof.
  unfold get_range. case_bool_decide as Hb; [|done]. intros [= <-].
  split; [|split; [rewrite length_take, length_drop; lia|lia]].
  rewrite <-(take_drop from l) at 1. f_equal.
  rewrite <-(take_drop (to - from) (drop from l)) at 1. f_equal.
  rewrite drop_drop. f_equal. lia.
Qed.

(** ** Headers *)

(** A header this build can write: known flags, at most one compression. *)
Definition header_ok (h : FrameHeader) : Prop :=
  hd_version h = FRAME_VERSION ∧ from_bits (hd_flags h) = Ok (hd_flags h) ∧
  is_byte (hd_flags h) ∧ hd_payload_len h <= u32_max.

Lemma length_to_bytes h : length (to_bytes h) = HEADER_LEN.
Proof. reflexivity. Qed.

Lemma as_u16_bound k : as_u16 k < 2 ^ 16.
Proof. by destruct k. Qed.

Lemma from_as_u16 k : from_u16 (as_u16 k) = Ok k.
Proof. by destruct k. Qed.

Lemma from_u16_inv v k : from_u16 v = Ok k → as_u16 k = v.
Proof.
  destruct v as [|p]; [by intros [= <-]|].
  repeat (destruct p as [p|p|]; try (by intros [= <-]); try done).
Qed.

Lemma parse_to_bytes h rest : header_ok h → parse (to_bytes h ++ rest) = Ok h.
Proof.
  destruct h as [v f k len]. intros (Hv & Hf & _ & Hl). simpl in *. subst v.
  transitivity (let? flags := from_bits f in
    let? kind := from_u16 (from_le_bytes (to_le_bytes 2 (as_u16 k))) in
    Ok (mkHeader FRAME_VERSION flags kind (from_le_bytes (to_le_bytes 4 len)))); [done|].
  rewrite Hf, (from_to_le 2) by apply as_u16_bound. cbn [rbind]. rewrite from_as_u16.
  cbn [rbind]. rewrite (from_to_le 4); [done|].
  change (2 ^ (8 * N.of_nat 4)) with 4294967296. unfold u32_max in Hl. lia.
Qed.

Lemma parse_short bytes :
  (length bytes < HEADER_LEN)%nat → parse bytes = Err (Truncated HEADER_LEN (length bytes)).
Proof.
  unfold HEADER_LEN. intros H.
  do 10 (destruct bytes as [|? bytes]; [done|]). simpl in H. lia.
Qed.

Lemma from_bits_inv b f : from_bits b = Ok f → f = b.
Proof. unfold from_bits. split_match; [done|]. split_match; [done|]. by intros [= <-]. Qed.

Lemma parse_fields m0 m1 version flags k0 k1 l0 l1 l2 l3 rest :
  parse (m0 :: m1 :: version :: flags :: k0 :: k1 :: l0 :: l1 :: l2 :: l3 :: rest) =
  if negb (bool_decide ([m0; m1] = MAGIC)) then Err (BadMagic MAGIC [m0; m1])
  else if negb (N.eqb version FRAME_VERSION)
  then Err (UnsupportedFrameVersion version FRAME_VERSION)
  else
    let? flags := from_bits flags in
    let? kind := from_u16 (from_le_bytes [k0; k1]) in
    Ok (mkHeader version flags kind (from_le_bytes [l0; l1; l2; l3])).
Proof. reflexivity. Qed.

Lemma parse_inv bytes h :
  Forall is_byte bytes → parse bytes = Ok h →
  header_ok h ∧ bytes = to_bytes h ++ drop HEADER_LEN bytes.
Proof.
  intros Hb.
  destruct bytes as [|m0 [|m1 [|v [|f [|k0 [|k1 [|l0 [|l1 [|l2 [|l3 rest]]]]]]]]]]; try done.
  rewrite parse_fields.
  case_bool_decide as Hm; cbn [negb]; [|done].
  destruct (N.eqb_spec v FRAME_VERSION) as [->|]; [|done]. cbn [negb].
  destruct (from_bits f) as [f'|] eqn:Ef; [|done]. cbn [rbind].
  destruct (from_u16 _) as [k|] eqn:Ek; [|done]. cbn [rbind]. intros Hh.
  assert (h = mkHeader FRAME_VERSION f' k (from_le_bytes [l0; l1; l2; l3])) as -> by congruence.
  clear Hh. pose proof (from_bits_inv _ _ Ef) as ->. apply from_u16_inv in Ek.
  repeat (apply Forall_cons_1 in Hb as [? Hb]).
  assert (Forall is_byte [k0; k1]) as Hk by (repeat constructor; done).
  assert (Forall is_byte [l0; l1; l2; l3]) as Hl by (repeat constructor; done).
  split.
  - split; [done|]. split; [done|]. split; [done|]. cbn [hd_payload_len].
    apply N.lt_succ_r. apply (le_u32 [l0; l1; l2; l3] Hl). simpl. lia.
  - unfold to_bytes. cbn [hd_version hd_flags hd_kind hd_payload_len].
    rewrite Ek. pose proof (to_from_le _ Hk) as E1. pose proof (to_from_le _ Hl) as E2.
    cbn [length] in E1, E2. rewrite E1, E2.
    by rewrite <-Hm.
Qed.

(** ** Frames *)

(** The bytes of a frame. *)
Definition frame_bytes (cpu : Cpu) (h : FrameHeader) (payload : list N) : list N :=
  to_bytes h ++ payload ++
  (if has_crc h then to_le_bytes 4 (crc32c cpu (to_bytes h ++ payload)) else []).

Section frames.
Context (cpu : Cpu) (Hcpu : cpu_ok cpu).

Lemma to_bytes_is_byte h : header_ok h → Forall is_byte (to_bytes h).
Proof.
  intros (Hv & _ & Hf & _). unfold to_bytes. rewrite Hv.
  repeat apply Forall_app_2; try apply to_le_is_byte; repeat constructor; done.
Qed.

Lemma check_len_ok l len : check_payload_len l len = Ok tt ↔ len <= max_payload_bytes l.
Proof.
  unfold check_payload_len. destruct (N.ltb_spec (max_payload_bytes l) len); split; (done || lia).
Qed.

Lemma payload_u32_ok len n : payload_u32 len = Ok n ↔ n = N.of_nat len ∧ N.of_nat len <= u32_max.
Proof.
  unfold payload_u32. destruct (N.ltb_spec u32_max (N.of_nat len)); split; try done.
  - intros [_ ?]. lia.
  - by intros [= <-].
  - by intros [-> _].
Qed.

(** A header and a payload that belong together. *)
Definition frame_ok (h : FrameHeader) (payload : list N) : Prop :=
  header_ok h ∧ Forall is_byte payload ∧ hd_payload_len h = N.of_nat (length payload).

Lemma frame_buffer h payload : frame_ok h payload → buffer (to_bytes h ++ payload).
Proof.
  intros (Hh & Hp & Hl). split.
  - apply Forall_app_2; [by apply to_bytes_is_byte|done].
  - rewrite length_app, length_to_bytes. destruct Hh as (_ & _ & _ & Hlen).
    rewrite Hl in Hlen. unfold u32_max in Hlen. change (2 ^ 64) with 18446744073709551616.
    unfold HEADER_LEN. lia.
Qed.

Lemma length_frame_bytes h payload :
  frame_ok h payload → length (frame_bytes cpu h payload) = total_len h.
Proof.
  intros (_ & _ & Hl). unfold frame_bytes, total_len, trailer_len.
  rewrite Hl, !length_app, length_to_bytes, Nat2N.id.
  destruct (has_crc h); [rewrite length_to_le|]; unfold CRC_LEN; simpl; lia.
Qed.

Lemma crc32c_u32 data : buffer data → crc32c cpu data < 2 ^ 32.
Proof.
  intros Hb. rewrite (crc32c_reference cpu data Hcpu Hb).
  apply not32_u32, reference_u32; [done|apply Hb].
Qed.

(** What [write_frame] appends. *)
Lemma write_frame_bytes out kind flags payload limits out' n :
  header_ok (header_new kind flags 0) → Forall is_byte payload →
  write_frame cpu out kind flags payload limits = (out', Ok n) →
  let h := header_new kind flags (N.of_nat (length payload)) in
  frame_ok h payload ∧ out' = out ++ frame_bytes cpu h payload ∧ n = total_len h ∧
  N.of_nat (length payload) <= max_payload_bytes limits.
Proof.
  intros Hh Hp. unfold write_frame.
  destruct (check_payload_len _ _) as [[]|] eqn:Ec; [|done]. apply check_len_ok in Ec.
  destruct (payload_u32 _) as [len|] eqn:El; [|done]. apply payload_u32_ok in El as [-> Hl].
  cbv zeta. set (h := header_new kind flags (N.of_nat (length payload))).
  assert (frame_ok h payload) as Hok.
  { split; [|done]. destruct Hh as (? & ? & ? & _). by split_and!. }
  intros [= <- <-]. split; [done|]. split; [|done].
  unfold frame_bytes. change (has_crc h) with (flags_has_crc flags).
  assert (crc_finalize (crc_update cpu (crc_update cpu crc_new (to_bytes h)) payload)
    = crc32c cpu (to_bytes h ++ payload)) as ->.
  { pose proof (frame_buffer h payload Hok) as Hbuf. pose proof Hbuf as [Hbb Hbl].
    apply Forall_app in Hbb as [Hb1 Hb2]. rewrite length_app in Hbl.
    unfold crc_finalize, crc_update, crc_new. cbn [crc_state].
    rewrite crc32c_reference, reference_app by done. f_equal.
    rewrite (update_state_reference cpu u32_max (to_bytes h)); [|done|done|split; [done|lia]].
    rewrite update_state_reference; [done|done| |split; [done|lia]].
    apply reference_u32; done. }
  destruct (flags_has_crc flags); by rewrite ?app_nil_r, <-?app_assoc.
Qed.

(** Decoding a frame at the front of a buffer. *)
Lemma decode_prefix_frame h payload rest limits :
  frame_ok h payload → hd_payload_len h <= max_payload_bytes limits →
  (require_crc limits = true → has_crc h = true) →
  decode_frame_prefix cpu (frame_bytes cpu h payload ++ rest) limits = Ok (mkFrame h payload).
Proof.
  intros Hok Hmax Hreq. pose proof (frame_buffer _ _ Hok) as Hbuf.
  pose proof (length_frame_bytes _ _ Hok) as Hlen. destruct Hok as (Hh & Hp & Hl).
  unfold decode_frame_prefix. unfold frame_bytes at 1. rewrite <-!app_assoc, parse_to_bytes by done.
  cbn [rbind]. rewrite N2Nat.id, (proj2 (check_len_ok _ _) Hmax). cbn [rbind].
  destruct (require_crc limits && negb (has_crc h)) eqn:Er.
  { apply andb_true_iff in Er as [Er1 Er2]. rewrite (Hreq Er1) in Er2. done. }
  rewrite bool_decide_false by (rewrite length_app, Hlen; lia).
  rewrite Hl, Nat2N.id. unfold frame_bytes. rewrite <-!app_assoc.
  rewrite <-(length_to_bytes h). rewrite get_range_app.
  unfold total_len, trailer_len. rewrite Hl, Nat2N.id, <-(length_to_bytes h).
  destruct (has_crc h); [|done]. rewrite !(app_assoc (to_bytes h) payload).
  set (body := to_bytes h ++ payload) in *. set (trailer := to_le_bytes 4 _).
  assert (length (to_bytes h) + length payload = length body)%nat as ->
    by (unfold body; by rewrite length_app).
  pose proof (get_range_app [] body (trailer ++ rest)) as G1.
  cbn [length Nat.add app] in G1. rewrite G1.
  pose proof (get_range_app body trailer rest) as G2.
  assert (length trailer = CRC_LEN) as Et by apply length_to_le. rewrite Et in G2.
rewrite G2. unfold trailer.
  rewrite from_to_le by (by apply crc32c_u32). by rewrite N.eqb_refl.
Qed.

Lemma get_range_take n l s : get_range 0 n l = Some s → s = take n l ∧ (n ≤ length l)%nat.
Proof.
  unfold get_range. case_bool_decide as Hb; [|done]. intros [= <-].
  rewrite Nat.sub_0_r, drop_0. split; [done|lia].
Qed.

(** What a successful decode says about the buffer. *)
Lemma decode_prefix_inv buf limits f :
  Forall is_byte buf → decode_frame_prefix cpu buf limits = Ok f →
  let h := fr_header f in
  frame_ok h (fr_payload f) ∧ hd_payload_len h <= max_payload_bytes limits ∧
  (require_crc limits = true → has_crc h = true) ∧
  buf = frame_bytes cpu h (fr_payload f) ++ drop (total_len h) buf.
Proof.
  intros Hb. unfold decode_frame_prefix.
  destruct (parse buf) as [h|] eqn:Ep; [|done]. apply parse_inv in Ep as [Hh Ebuf]; [|done].
  cbn [rbind]. rewrite N2Nat.id. destruct (check_payload_len _ _) as [[]|] eqn:Ec; [|done].
  apply check_len_ok in Ec. cbn [rbind].
  destruct (require_crc limits && negb (has_crc h)) eqn:Er; [done|].
  assert (require_crc limits = true → has_crc h = true) as Hreq
    by (intros E; rewrite E in Er; by destruct (has_crc h)).
  case_bool_decide as Ht; [done|]. set (len := N.to_nat (hd_payload_len h)).
  destruct (get_range HEADER_LEN _ buf) as [payload|] eqn:Eg; [|done].
  apply get_range_split in Eg as (Esplit & Hplen & Hrange).
  assert (length payload = len) as Hpl by lia.
  assert (Forall is_byte payload) as Hp.
  { rewrite Esplit in Hb. apply Forall_app in Hb as [_ [Hp _]%Forall_app]. done. }
  assert (take HEADER_LEN buf = to_bytes h) as Ehead
    by (rewrite Ebuf; by rewrite take_app_length').
  assert (frame_ok h payload) as Hok by (split; [done|split; [done|unfold len in Hpl; lia]]).
  rewrite Ehead in Esplit. unfold total_len, trailer_len in *. fold len in Ht |- *.
  destruct (has_crc h) eqn:Eh.
  - destruct (get_range 0 _ buf) as [checked|] eqn:E0; [|done].
    apply get_range_take in E0 as [-> _].
    destruct (get_range (HEADER_LEN + len) _ buf) as [trailer|] eqn:E1; [|done].
    destruct (N.eqb_spec (from_le_bytes trailer)
      (crc32c cpu (take (HEADER_LEN + len) buf))) as [Ecrc|]; [|done].
    intros [= <-]. cbn [fr_header fr_payload negb]. rewrite Eh. do 3 (split; [done|]).
    apply get_range_split in E1 as (Es1 & Ht1 & Hr1).
    assert (take (HEADER_LEN + len) buf = to_bytes h ++ payload) as Ebody.
    { rewrite Esplit, app_assoc. apply take_app_length'.
      by rewrite length_app, length_to_bytes, Hpl. }
    rewrite Ebody in Es1, Ecrc. unfold frame_bytes.
    rewrite Eh, <-Ecrc. assert (length trailer = 4%nat) as El by (unfold CRC_LEN in Ht1; lia).
    rewrite <-El, to_from_le; [|rewrite Es1 in Hb;
      by apply Forall_app in Hb as [_ [? _]%Forall_app]].
    fold len. rewrite Es1 at 1. rewrite <-!app_assoc. done.
  - intros [= <-]. cbn [fr_header fr_payload]. rewrite Eh.
    do 3 (split; [done|]). unfold frame_bytes. rewrite Eh, app_nil_r. fold len.
    rewrite Nat.add_0_r, <-app_assoc. done.
Qed.

(** A buffer that ends inside a frame is reported as truncated, with the
    number of bytes it lacks. *)
Lemma decode_prefix_truncated h payload limits k :
  frame_ok h payload → hd_payload_len h <= max_payload_bytes limits →
  (require_crc limits = true → has_crc h = true) → (k < total_len h)%nat →
  decode_frame_prefix cpu (take k (frame_bytes cpu h payload)) limits =
    Err (Truncated (if bool_decide (k < HEADER_LEN)%nat then HEADER_LEN else total_len h) k).
Proof.
  intros Hok Hmax Hreq Hk. pose proof (length_frame_bytes _ _ Hok) as Hlen.
  assert (length (take k (frame_bytes cpu h payload)) = k) as Hl by (rewrite length_take; lia).
  destruct Hok as (Hh & _ & _). unfold decode_frame_prefix. case_bool_decide as Hd.
  - rewrite parse_short by (rewrite Hl; done). by rewrite Hl.
  - assert (take k (frame_bytes cpu h payload) =
      to_bytes h ++ take (k - HEADER_LEN) (drop HEADER_LEN (frame_bytes cpu h payload))) as Es.
    { unfold frame_bytes. rewrite take_app_ge by (rewrite length_to_bytes; lia).
      rewrite length_to_bytes, drop_app_length'; done. }
    rewrite Es at 1. rewrite parse_to_bytes by done. cbn [rbind].
    rewrite N2Nat.id, (proj2 (check_len_ok _ _) Hmax). cbn [rbind].
    destruct (require_crc limits && negb (has_crc h)) eqn:Er.
    { apply andb_true_iff in Er as [Er1 Er2]. rewrite (Hreq Er1) in Er2. done. }
    rewrite bool_decide_true by lia. by rewrite Hl.
Qed.

(** A damaged payload under the original header and trailer. *)
Lemma decode_prefix_damaged h payload payload' rest limits :
  frame_ok h payload → frame_ok h payload' → has_crc h = true →
  hd_payload_len h <= max_payload_bytes limits →
  crc32c cpu (to_bytes h ++ payload) ≠ crc32c cpu (to_bytes h ++ payload') →
  decode_frame_prefix cpu
    (to_bytes h ++ payload' ++ to_le_bytes 4 (crc32c cpu (to_bytes h ++ payload)) ++ rest) limits
  = Err (CrcMismatch (crc32c cpu (to_bytes h ++ payload))
           (crc32c cpu (to_bytes h ++ payload'))).
Proof.
  intros Hok Hok' Hcrc Hmax Hne. pose proof (frame_buffer _ _ Hok) as Hbuf.
  destruct Hok' as (Hh & Hp & Hl). unfold decode_frame_prefix. rewrite parse_to_bytes by done.
  cbn [rbind]. rewrite N2Nat.id, (proj2 (check_len_ok _ _) Hmax). cbn [rbind].
  rewrite Hcrc, andb_false_r. unfold total_len, trailer_len. rewrite Hcrc, Hl, Nat2N.id.
  set (trailer := to_le_bytes 4 _).
  assert (length trailer = CRC_LEN) as Et by apply length_to_le.
  rewrite bool_decide_false by (rewrite !length_app, length_to_bytes, Et; lia).
  rewrite <-(length_to_bytes h), get_range_app. rewrite !(app_assoc (to_bytes h) payload').
  set (body := to_bytes h ++ payload') in *.
  assert (length (to_bytes h) + length payload' = length body)%nat as ->
    by (unfold body; by rewrite length_app).
  pose proof (get_range_app [] body (trailer ++ rest)) as G1.
  cbn [length Nat.add app] in G1. rewrite G1.
  pose proof (get_range_app body trailer rest) as G2. rewrite Et in G2. rewrite G2.
  unfold trailer. rewrite from_to_le by (by apply crc32c_u32).
  destruct (N.eqb_spec (crc32c cpu (to_bytes h ++ payload)) (crc32c cpu body)); done.
Qed.
End frames.

(** ** Messages *)

Section messages.
Context {T : Type} `{OxicodeLaws T}.

Lemma encode_presized_ok (v : T) out bytes :
  ox_encode v = (bytes, Ok tt) → encode_presized v out = (out ++ bytes, Ok (length bytes)).
Proof.
  intros E. unfold encode_presized, encode_size_hint. rewrite (ox_size_exact v bytes E), E.
  cbn [map_err]. rewrite length_app. rewrite Nat.add_comm, Nat.add_sub, Nat.eqb_refl. done.
Qed.

Lemma decode_exact_encode (v : T) bytes :
  ox_encode v = (bytes, Ok tt) → decode_exact bytes = Ok v.
Proof.
  intros E. unfold decode_exact, decode_prefix.
  pose proof (ox_decode_encode v bytes [] E) as Ed. rewrite app_nil_r in Ed. rewrite Ed.
  cbn [map_err rbind]. by rewrite Nat.eqb_refl.
Qed.

Lemma encode_to_vec_ok (v : T) bytes :
  encode_to_vec v = Ok bytes ↔ ox_encode v = (bytes, Ok tt).
Proof.
  unfold encode_to_vec. split.
  - intros E. destruct (ox_encode v) as [w [[]|e]] eqn:Ew.
    + rewrite (encode_presized_ok v [] w Ew) in E.
      destruct (encode_size_hint v); simpl in E; [|done]. by simplify_eq.
    + unfold encode_presized in E. rewrite Ew in E.
      destruct (encode_size_hint v); done.
  - intros E. rewrite (encode_presized_ok v [] bytes E). unfold encode_size_hint.
    by rewrite (ox_size_exact v bytes E).
Qed.
End messages.

(** Without any assumption on the encoding: a failed encode restores the
    buffer. *)
Lemma encode_presized_err {T} `{Oxicode T} (v : T) out out' e :
  encode_presized v out = (out', Err e) → out' = out.
Proof.
  unfold encode_presized. destruct (encode_size_hint v); [|by intros [= <- _]].
  destruct (ox_encode v) as [w [[]|e']].
  - split_match; intros E; simplify_eq. apply take_app_length.
  - intros [= <- _]. apply take_app_length.
Qed.

Lemma encode_presized_extends {T} `{Oxicode T} (v : T) out out' r :
  encode_presized v out = (out', r) → ∃ w, out' = out ++ w.
Proof.
  destruct r as [n|e]; intros E.
  - unfold encode_presized in E. destruct (encode_size_hint v); [|done].
    destruct (ox_encode v) as [w [[]|e']]; [|done].
    revert E. split_match; [done|]. intros [= <- _]. by exists w.
  - apply encode_presized_err in E as ->. exists []. by rewrite app_nil_r.
Qed.

Section message_frames.
Context (cpu : Cpu) (Hcpu : cpu_ok cpu) {T : Type} `{OxicodeLaws T}.

(** Backfilling a placeholder header. *)
Lemma write_into_placeholder h payload :
  write_into h (replicate HEADER_LEN 0 ++ payload) = (to_bytes h ++ payload, Ok tt).
Proof.
  unfold write_into. rewrite bool_decide_false by (rewrite length_app, length_replicate; lia).
  by rewrite drop_app_length' by (by rewrite length_replicate).
Qed.

(** Encoding in place is encoding the payload first and framing it. *)
Lemma write_message_frame out kind flags (m : T) bytes limits :
  header_ok (header_new kind flags 0) → ox_encode m = (bytes, Ok tt) →
  is_enabled (flags_compression flags) = false →
  write_message cpu out kind flags m limits = write_frame cpu out kind flags bytes limits.
Proof.
  intros Hh E Hc. assert (Forall is_byte bytes) as Hb by (pose proof (ox_bytes m) as Hb; by rewrite E in Hb).
  unfold write_message, reject_compression. rewrite Hc. unfold encode_size_hint.
  rewrite (ox_size_exact m bytes E). cbn [rbind map_err].
  destruct (write_frame cpu out kind flags bytes limits) as [out' r] eqn:Ew.
  pose proof Ew as Ew'. unfold write_frame in Ew'.
  destruct (check_payload_len _ _) as [[]|] eqn:Ec; [|by simplify_eq].
  rewrite (encode_presized_ok m _ bytes E). cbn [rbind]. rewrite Ec. cbn [rbind].
  destruct (payload_u32 (length bytes)) as [len|] eqn:El.
  2: { simplify_eq. cbn [rbind]. rewrite <-app_assoc. by rewrite take_app_length. }
  destruct r as [n|]; [|done]. clear Ew'.
  apply (write_frame_bytes cpu Hcpu) in Ew as (Hok & -> & -> & _); [|done|done].
  apply payload_u32_ok in El as [-> Hl]. cbn [rbind].
  rewrite <-!app_assoc, drop_app_length, take_app_length, write_into_placeholder.
  cbv zeta. pose proof (length_frame_bytes cpu _ _ Hok) as Hlen.
  set (h := header_new kind flags (N.of_nat (length bytes))) in *.
  assert (∀ l, length (out ++ l) - length out = length l)%nat as Hlo
    by (intros l; rewrite length_app; lia).
  change (flags_has_crc flags) with (has_crc h). unfold frame_bytes in *.
  destruct (has_crc h); [|by rewrite app_nil_r in *; rewrite Hlo, Hlen].
  pose proof (get_range_app out (to_bytes h ++ bytes) []) as G.
  rewrite app_nil_r, length_app, length_to_bytes, Nat.add_assoc in G. rewrite G.
  rewrite <-!app_assoc. by rewrite Hlo, Hlen.
Qed.
End message_frames.

(** ** The properties *)

(** A concrete encoding, for evaluating the model: a [bool] is one byte. *)
#[global] Instance bool_oxicode : Oxicode bool := {
  ox_size _ := Ok 1%nat;
  ox_encode b := ([if b : bool then 1 else 0], Ok tt);
  ox_decode bytes :=
    match bytes with
    | 0 :: _ => Ok (false, 1%nat)
    | 1 :: _ => Ok (true, 1%nat)
    | _ => Err "not a bool"%string
    end
}.

#[global] Instance bool_oxicode_laws : OxicodeLaws bool.
Proof.
  split.
  - intros [] bytes rest [= <-]; done.
  - intros v bytes [= <-]. done.
  - intros []; repeat constructor.
  - intros [|[|[]] rest] v k; simpl; try done; intros [= _ <-]; lia.
Qed.

(** The flags a frame can carry under a connection's policy. *)
Definition flags_ok (flags : FrameFlags) (limits : FrameLimits) : Prop :=
  from_bits flags = Ok flags ∧ is_byte flags ∧
  (require_crc limits = true → flags_has_crc flags = true).

Lemma flags_ok_header kind flags limits :
  flags_ok flags limits → header_ok (header_new kind flags 0).
Proof. intros (Hf & Hb & _). by split_and!. Qed.

(** C7. A message written as a frame is read back from the front of any
    stream that starts with it: same kind, same message, and the reader
    advances exactly over the frame. *)
Theorem message_roundtrip cpu {T} `{OxicodeLaws T} kind flags (m : T) limits bytes rest :
  cpu_ok cpu → flags_ok flags limits →
  encode_message cpu kind flags m limits = Ok bytes →
  ∃ f, decode_frame_prefix cpu (bytes ++ rest) limits = Ok f ∧
    total_len (fr_header f) = length bytes ∧ decode_as f kind = Ok m.
Proof.
  intros Hcpu Hf. pose proof (flags_ok_header kind _ _ Hf) as Hh.
  destruct Hf as (Hb & Hbyte & Hreq). unfold encode_message.
  destruct (write_message cpu [] kind flags m limits) as [out [n|]] eqn:Ew; [|done].
  intros [= <-]. destruct (ox_encode m) as [w r] eqn:Em.
  assert (is_enabled (flags_compression flags) = false ∧ r = Ok tt) as [Hc ->].
  { unfold write_message, reject_compression in Ew.
    destruct (is_enabled _); [done|]. split; [done|]. destruct r as [[]|e]; [done|].
    unfold encode_presized in Ew. rewrite Em in Ew.
    destruct (encode_size_hint m) as [hint|]; [|done]. cbn [rbind] in Ew.
    by destruct (check_payload_len _ _). }
  rewrite (write_message_frame cpu Hcpu [] kind flags m w limits Hh Em Hc) in Ew.
  assert (Forall is_byte w) as Hw by (pose proof (ox_bytes m) as Hw; by rewrite Em in Hw).
  apply (write_frame_bytes cpu Hcpu) in Ew as (Hok & -> & -> & Hmax); [|done|done].
  eexists. split; [by apply decode_prefix_frame|]. simpl.
  split; [symmetry; by apply length_frame_bytes|].
  unfold decode_as, expect_kind. cbn [fr_header hd_kind header_new].
  rewrite bool_decide_true by done. cbn [rbind]. unfold frame_decode. cbn [fr_header hd_flags header_new fr_payload].
  rewrite Hc. by apply decode_exact_encode.
Qed.

Lemma message_roundtrip_witness :
  ∃ f, decode_frame_prefix NoCrcInstructions
         ([65; 83; 1; 1; 7; 0; 1; 0; 0; 0; 1; 181; 172; 63; 204] ++ [1; 2]) limits_network = Ok f ∧
    total_len (fr_header f) = 15%nat ∧ decode_as f Data = Ok true.
Proof.
  apply (message_roundtrip NoCrcInstructions Data CRC true limits_network).
  - exact I.
  - split; [reflexivity|]. split; [vm_compute; reflexivity|]. intros _. reflexivity.
  - vm_compute. reflexivity.
Defined.

(** The frame format is canonical and its limits are enforced: a buffer
    that decodes is exactly the encoding of what it decodes to, within the
    size limit and the checksum policy. *)
Theorem decoded_frame_reencodes cpu buf limits f :
  cpu_ok cpu → Forall is_byte buf → decode_frame cpu buf limits = Ok f →
  frame_encode cpu f limits = Ok buf ∧
  N.of_nat (length (fr_payload f)) <= max_payload_bytes limits ∧
  (require_crc limits = true → has_crc (fr_header f) = true).
Proof.
  intros Hcpu Hb. unfold decode_frame.
  destruct (decode_frame_prefix cpu buf limits) as [g|] eqn:Ed; [|done]. cbn [rbind].
  destruct (Nat.eqb_spec (total_len (fr_header g)) (length buf)) as [Et|]; [|done].
  cbn [negb]. intros [= <-].
  apply (decode_prefix_inv cpu) in Ed as (Hok & Hmax & Hreq & Ebuf); [|done].
  rewrite Et, drop_all, app_nil_r in Ebuf.
  pose proof Hok as (Hh & Hp & Hl). rewrite Hl in Hmax. split; [|done].
  unfold frame_encode. destruct (write_frame _ _ _ _ _ _) as [out r] eqn:Ew.
  assert (∃ n, r = Ok n) as [n ->].
  { revert Ew. unfold write_frame. rewrite (proj2 (check_len_ok _ _) Hmax).
    destruct (payload_u32 _) as [?|] eqn:Ep; [intros [= _ <-]; eauto|].
    destruct Hh as (_ & _ & _ & Hu). unfold payload_u32 in Ep. rewrite Hl in Hu.
    destruct (N.ltb_spec u32_max (N.of_nat (length (fr_payload g)))); [lia|done]. }
  apply (write_frame_bytes cpu Hcpu) in Ew as (_ & -> & _ & _); [|by destruct Hh as (?&?&?&?)|done].
  simpl. rewrite Ebuf. do 2 f_equal. destruct (fr_header g) as [v fl k len].
  destruct Hh as (Hv & _). simpl in *. by subst.
Qed.

Lemma decoded_frame_reencodes_witness :
  frame_encode NoCrcInstructions (mkFrame (mkHeader 1 1 Data 1) [1]) limits_network
    = Ok [65; 83; 1; 1; 7; 0; 1; 0; 0; 0; 1; 181; 172; 63; 204].
Proof.
  apply (decoded_frame_reencodes NoCrcInstructions).
  - exact I.
  - repeat constructor; vm_compute; reflexivity.
  - vm_compute. reflexivity.
Defined.

(** A frame cut short anywhere is reported as truncated, never as
    another frame, with the length the reader has to wait for. *)
Theorem cut_frame_is_truncated cpu kind flags payload limits bytes k :
  cpu_ok cpu → flags_ok flags limits → Forall is_byte payload →
  encode_frame cpu kind flags payload limits = Ok bytes → (k < length bytes)%nat →
  decode_frame_prefix cpu (take k bytes) limits =
    Err (Truncated (if bool_decide (k < HEADER_LEN)%nat then HEADER_LEN else length bytes) k).
Proof.
  intros Hcpu Hf Hp. unfold encode_frame.
  destruct (write_frame _ _ _ _ _ _) as [out [n|]] eqn:Ew; [|done]. intros [= <-] Hk.
  apply (write_frame_bytes cpu Hcpu) in Ew as (Hok & -> & _ & Hmax);
    [|by eapply flags_ok_header|done].
  cbn [app] in *. pose proof (length_frame_bytes cpu _ _ Hok) as Hlen. rewrite Hlen in *.
  apply decode_prefix_truncated; [done|done|apply Hf|done].
Qed.

Lemma cut_frame_is_truncated_witness :
  decode_frame_prefix NoCrcInstructions
    (take 12 [65; 83; 1; 1; 7; 0; 1; 0; 0; 0; 1; 181; 172; 63; 204]) limits_network
    = Err (Truncated 15 12).
Proof.
  apply (cut_frame_is_truncated NoCrcInstructions Data CRC [1] limits_network).
  - exact I.
  - split; [reflexivity|]. split; [vm_compute; reflexivity|]. intros _. reflexivity.
  - repeat constructor; vm_compute; reflexivity.
  - vm_compute. reflexivity.
  - simpl. lia.
Defined.

(** On a link with checksums, damage to up to four consecutive payload
    bytes is caught: the frame is rejected with a checksum mismatch. *)
Theorem damaged_payload_is_rejected cpu kind flags pre xs ys post limits bytes rest :
  cpu_ok cpu → flags_ok flags limits → flags_has_crc flags = true →
  Forall is_byte (pre ++ xs ++ post) → Forall is_byte ys →
  length xs = length ys → (length xs <= 4)%nat → xs ≠ ys →
  encode_frame cpu kind flags (pre ++ xs ++ post) limits = Ok bytes →
  let at_damage := (HEADER_LEN + length pre)%nat in
  ∃ expected computed,
    decode_frame_prefix cpu
      (take at_damage bytes ++ ys ++ drop (at_damage + length xs) bytes ++ rest) limits
    = Err (CrcMismatch expected computed).
Proof.
  intros Hcpu Hf Hcrc Hp Hy Hl H4 Hne. unfold encode_frame.
  destruct (write_frame _ _ _ _ _ _) as [out [n|]] eqn:Ew; [|done]. intros [= <-].
  apply (write_frame_bytes cpu Hcpu) in Ew as (Hok & -> & _ & Hmax);
    [|by eapply flags_ok_header|done].
  set (payload := pre ++ xs ++ post) in *. set (payload' := pre ++ ys ++ post).
  set (h := header_new kind flags (N.of_nat (length payload))) in *. cbv zeta.
  assert (length payload' = length payload) as El
    by (unfold payload, payload'; rewrite !length_app; lia).
  assert (frame_ok h payload') as Hok'.
  { pose proof Hok as (Hh & _ & Hlen). split; [done|]. rewrite El. split; [|done].
    unfold payload, payload' in *. rewrite !Forall_app in Hp |- *. tauto. }
  unfold frame_bytes. change (has_crc h) with (flags_has_crc flags). rewrite Hcrc. cbn [app].
  set (trailer := to_le_bytes 4 _).
  assert (take (HEADER_LEN + length pre) (to_bytes h ++ payload ++ trailer) = to_bytes h ++ pre) as ->.
  { unfold payload. rewrite <-!app_assoc, app_assoc.
    apply take_app_length'. by rewrite length_app, length_to_bytes. }
  assert (drop (HEADER_LEN + length pre + length xs) (to_bytes h ++ payload ++ trailer)
          = post ++ trailer) as ->.
  { unfold payload. rewrite <-!app_assoc. rewrite (app_assoc (to_bytes h)), (app_assoc _ xs).
    apply drop_app_length'. by rewrite !length_app, length_to_bytes. }
  replace ((to_bytes h ++ pre) ++ ys ++ (post ++ trailer) ++ rest)
    with (to_bytes h ++ payload' ++ trailer ++ rest) by (unfold payload'; by rewrite <-!app_assoc).
  eexists _, _. apply decode_prefix_damaged; [done|done|done|done|done|].
  unfold payload, payload'. rewrite !(app_assoc (to_bytes h) pre).
  apply crc32c_burst; [done| |  |done|done|done];
    rewrite <-app_assoc; [by apply (frame_buffer h payload)|by apply (frame_buffer h payload')].
Qed.

Lemma damaged_payload_is_rejected_witness :
  ∃ expected computed,
    decode_frame_prefix NoCrcInstructions
      [65; 83; 1; 1; 7; 0; 1; 0; 0; 0; 3; 181; 172; 63; 204] limits_network
    = Err (CrcMismatch expected computed).
Proof.
  apply (damaged_payload_is_rejected NoCrcInstructions Data CRC [] [1] [3] [] limits_network
           [65; 83; 1; 1; 7; 0; 1; 0; 0; 0; 1; 181; 172; 63; 204] []).
  - exact I.
  - split; [reflexivity|]. split; [vm_compute; reflexivity|]. intros _. reflexivity.
  - reflexivity.
  - repeat constructor; vm_compute; reflexivity.
  - repeat constructor; vm_compute; reflexivity.
  - reflexivity.
  - simpl. lia.
  - discriminate.
  - vm_compute. reflexivity.
Defined.

(** A failed write leaves the output buffer exactly as it was, whatever
    the encoding does. *)
Theorem failed_write_restores_the_buffer cpu {T} `{Oxicode T} out kind flags (m : T) limits out' e :
  write_message cpu out kind flags m limits = (out', Err e) → out' = out.
Proof.
  unfold write_message. destruct (rbind _ _) as [[]|]; [|by intros [= <- _]].
  destruct (encode_presized m (out ++ replicate HEADER_LEN 0)) as [o r] eqn:Ee.
  apply encode_presized_extends in Ee as [w ->].
  rewrite <-app_assoc, take_app_length.
  destruct (rbind r _) as [[plen len]|]; [|by intros [= <- _]].
  destruct (write_into _ _) as [framed [[]|]]; [|by intros [= <- _]].
  destruct (flags_has_crc flags); [|done].
  destruct (get_range _ _ _); [done|]. intros [= <- _]. apply take_app_length.
Qed.

Lemma failed_write_restores_the_buffer_witness :
  (write_message NoCrcInstructions [7] Data CRC true (mkLimits 0 true)).1 = [7].
Proof.
  apply (failed_write_restores_the_buffer NoCrcInstructions [7] Data CRC true (mkLimits 0 true)
           _ (FrameTooLarge 1 0)).
  vm_compute. reflexivity.
Defined.

(** The two compression bits can be combined with [|], and a frame with
    both is written without complaint; no reader accepts it. *)
Theorem conflicting_compression_is_written_unreadable cpu kind payload limits bytes rest :
  encode_frame cpu kind (flags_or LZ4 ZSTD) payload limits = Ok bytes →
  decode_frame_prefix cpu (bytes ++ rest) limits = Err ConflictingCompression.
Proof.
  unfold encode_frame, write_frame.
  destruct (check_payload_len _ _) as [[]|]; [|done]. destruct (payload_u32 _) as [len|]; [|done].
  intros E. assert (bytes = to_bytes (header_new kind (flags_or LZ4 ZSTD) len) ++ payload) as ->
    by (injection E as <-; reflexivity).
  unfold decode_frame_prefix. rewrite <-app_assoc. unfold to_bytes, MAGIC.
  cbn [header_new hd_version hd_flags hd_kind hd_payload_len app to_le_bytes].
  rewrite parse_fields. reflexivity.
Qed.

Lemma conflicting_compression_is_written_unreadable_witness :
  decode_frame_prefix NoCrcInstructions ([65; 83; 1; 6; 7; 0; 1; 0; 0; 0; 5] ++ []) limits_new
    = Err ConflictingCompression.
Proof.
  apply (conflicting_compression_is_written_unreadable NoCrcInstructions Data [5] limits_new).
  vm_compute. reflexivity.
Defined.
