(* ===== verification/RaftWal.v ===== *)
(** * [WalLog]: the file-backed log store

    Models [src/crates/astrs-raft/src/log/wal.rs]: record framing, the
    write-ahead log's operations, snapshot sidecar and regeneration, and
    recovery on open.

    The file system is the part of it the code touches: the bytes of the log
    file and of the sidecar, and an oracle that says which upcoming system
    call fails and how many bytes a failing write got out.  Temporary files
    are only ever renamed into place, so they appear as the rename's effect.
    What the page cache loses in a machine crash is not modelled: a completed
    write stays.

    The theorems: [WalLog] does to its mirror what [LogStore] asks whatever
    fails, so the consensus theorems hold over it; a log reopened after
    successful operations is the log that was closed; a write cut short is
    repaired without losing anything; whatever system call fails, what calls
    have acknowledged is on disk, and the first call that fails leaves the log
    from before it, or with part of its work done; and a record over the
    reader's bound makes the log unreadable. *)

From Stdlib Require Import Lia.
From stdpp Require Import base tactics list gmap strings numbers.
From S2P Require Import Prelude RaftTypes RaftMembership RaftLog Crc32c WireFrame.

Open Scope N_scope.

(** ** Constants *)

(** "ASTRSWAL" *)
Definition FILE_MAGIC : list N := [65; 83; 84; 82; 83; 87; 65; 76].
Definition FORMAT_VERSION : N := 1.
Definition PROLOGUE_LEN : nat := 10.
Definition RECORD_OVERHEAD : nat := 12.
Definition MAX_RECORD_BODY : N := 64 * 1024 * 1024.

(** "AWe1", "AWh1", "AWt1", "AWs1" *)
Definition TAG_ENTRY : N := from_le_bytes [65; 87; 101; 49].
Definition TAG_HARD_STATE : N := from_le_bytes [65; 87; 104; 49].
Definition TAG_TRUNCATE : N := from_le_bytes [65; 87; 116; 49].
Definition TAG_SNAPSHOT : N := from_le_bytes [65; 87; 115; 49].

(** ** [FsyncPolicy] and [RecoveryOutcome] *)

Inductive FsyncPolicy : Set :=
  | Always
  | EveryN (n : N)
  | Never.

Definition is_crash_safe (p : FsyncPolicy) : bool :=
  match p with Always => true | _ => false end.

Definition should_sync (p : FsyncPolicy) (writes : N) : bool :=
  match p with
  | Always => true
  | EveryN n => if N.leb n 1 then true else N.leb n writes
  | Never => false
  end.

Inductive RecoveryOutcome : Set :=
  | Intact
  | TornTail
  | CorruptTail.

Definition was_repaired (o : RecoveryOutcome) : bool :=
  match o with Intact => false | _ => true end.

(** ** The files and the calls on them *)

Record Io := mkIo {
  io_wal : option (list N);
  io_sidecar : option (list N);
  io_faults : list (option nat)
}.

(** The next system call's fate: [None] succeeds, [Some k] fails, a write
    after [k] bytes. Past the end of the oracle everything succeeds. *)
Definition next_fault (io : Io) : option nat * Io :=
  match io_faults io with
  | [] => (None, io)
  | f :: fs => (f, mkIo (io_wal io) (io_sidecar io) fs)
  end.

Abbreviation IoM := (stM Io RaftError).

(** A system call with no effect on the two files. *)
Definition sys (what : string) : IoM unit := λ io,
  let '(f, io) := next_fault io in
  (io, match f with None => Ok tt | Some _ => Err (RaftTypes.Io what) end).

(** A system call with an effect when it succeeds. *)
Definition sys_effect (what : string) (effect : Io → Io) : IoM unit :=
  sys what ;; modify effect.

Definition set_wal (file : option (list N)) (io : Io) : Io :=
  mkIo file (io_sidecar io) (io_faults io).
Definition set_sidecar (file : option (list N)) (io : Io) : Io :=
  mkIo (io_wal io) file (io_faults io).

(** [write_all] on the append handle. *)
Definition sys_append (what : string) (bytes : list N) : IoM unit := λ io,
  let '(f, io) := next_fault io in
  let write l := set_wal (Some (default [] (io_wal io) ++ l)) io in
  match f with
  | None => (write bytes, Ok tt)
  | Some k => (write (take k bytes), Err (RaftTypes.Io what))
  end.

(** ** The store *)

Record WalLog := mkWal {
  w_io : Io;
  (** Whether the append handle is the file at the log's path: a rename
      leaves the old handle on the old file until the reopen. *)
  w_attached : bool;
  w_mirror : MemoryLog;
  w_policy : FsyncPolicy;
  w_unsynced : N;
  w_recovered_bytes : N;
  w_outcome : RecoveryOutcome
}.

Abbreviation WM := (stM WalLog RaftError).

Definition set_io (io : Io) (w : WalLog) : WalLog :=
  mkWal io (w_attached w) (w_mirror w) (w_policy w) (w_unsynced w) (w_recovered_bytes w) (w_outcome w).
Definition set_attached (a : bool) (w : WalLog) : WalLog :=
  mkWal (w_io w) a (w_mirror w) (w_policy w) (w_unsynced w) (w_recovered_bytes w) (w_outcome w).
Definition set_mirror (m : MemoryLog) (w : WalLog) : WalLog :=
  mkWal (w_io w) (w_attached w) m (w_policy w) (w_unsynced w) (w_recovered_bytes w) (w_outcome w).
Definition set_unsynced (n : N) (w : WalLog) : WalLog :=
  mkWal (w_io w) (w_attached w) (w_mirror w) (w_policy w) n (w_recovered_bytes w) (w_outcome w).
Definition set_recovered (n : N) (w : WalLog) : WalLog :=
  mkWal (w_io w) (w_attached w) (w_mirror w) (w_policy w) (w_unsynced w) n (w_outcome w).

(** A system call made by the store. *)
Definition io {A} (m : IoM A) : WM A := λ w,
  let '(io', r) := m (w_io w) in (set_io io' w, r).

(** A call on the mirror. *)
Definition on_mirror (f : MemoryLog → MemoryLog * Res unit) : WM unit := λ w,
  let '(m', r) := f (w_mirror w) in (set_mirror m' w, r).

(** The payload encodings the log uses, of the external codec. *)
Class WalCodec := {
  wc_entry :: Oxicode LogEntry;
  wc_hard :: Oxicode HardState;
  wc_index :: Oxicode LogIndex;
  wc_meta :: Oxicode SnapshotMeta;
  wc_snapshot :: Oxicode Snapshot
}.

Section wal.
Context (cpu : Cpu) `{WalCodec}.

(** [?] on a wire error. *)
Definition wire {A} (r : WireResult A) : Res A :=
  map_err (λ _, RaftTypes.Codec "payload") r.

(** *** Framing *)

Definition record_crc (tag : N) (body : list N) : N :=
  let hasher := crc_update cpu crc_new (to_le_bytes 4 tag) in
  let hasher := crc_update cpu hasher (to_le_bytes 4 (N.of_nat (length body))) in
  crc_finalize (crc_update cpu hasher body).

(** The bytes of a record. *)
Definition record_bytes (tag : N) (body : list N) : list N :=
  to_le_bytes 4 tag ++ to_le_bytes 4 (N.of_nat (length body)) ++ body
    ++ to_le_bytes 4 (record_crc tag body).

(** [u32::try_from(body.len())?], then the bytes. *)
Definition framed (tag : N) (body : list N) : Res (list N) :=
  if N.ltb u32_max (N.of_nat (length body))
  then Err (Corrupt 0 "a record body larger than 4 GiB cannot be framed")
  else Ok (record_bytes tag body).

Definition append_framed (out : list N) (tag : N) (body : list N) : Res (list N) :=
  let? bytes := framed tag body in Ok (out ++ bytes).

Inductive RecordRead :=
  | Complete (tag : N) (body : list N) (total_len : nat)
  | Incomplete
  | CorruptRecord.

Definition read_record (bytes : list N) (offset : N) : Res RecordRead :=
  match get_range 0 8 bytes with
  | None => Ok Incomplete
  | Some header =>
      let tag := from_le_bytes (take 4 header) in
      let declared := from_le_bytes (drop 4 header) in
      if N.ltb MAX_RECORD_BODY declared
      then Err (Corrupt offset "a record declares a body larger than this build will read")
      else
        let body_len := N.to_nat declared in
        match get_range 8 (8 + body_len) bytes with
        | None => Ok Incomplete
        | Some body =>
            match get_range (8 + body_len) (8 + body_len + 4) bytes with
            | None => Ok Incomplete
            | Some crc_bytes =>
                if negb (N.eqb (from_le_bytes crc_bytes) (record_crc tag body))
                then Ok CorruptRecord
                else Ok (Complete tag body (8 + body_len + 4))
            end
        end
  end.

(** *** Recovery *)

(** A call on the mirror whose error ends the replay. *)
Definition mirrored (r : MemoryLog * Res unit) : Res MemoryLog :=
  match r with (m, Ok _) => Ok m | (_, Err e) => Err e end.

Definition apply_record (tag : N) (body : list N) (mirror : MemoryLog) (offset : N) :
    Res MemoryLog :=
  if N.eqb tag TAG_ENTRY then
    let? entry := wire (decode_exact (T:=LogEntry) body) in
    let? mirror :=
      if N.leb (e_index entry) (Mem.last_index mirror)
         && negb (is_empty_sentinel (e_index entry))
      then mirrored (Mem.truncate_from mirror (e_index entry)) else Ok mirror in
    mirrored (Mem.append mirror [entry])
  else if N.eqb tag TAG_HARD_STATE then
    let? state := wire (decode_exact (T:=HardState) body) in
    mirrored (Mem.save_hard_state mirror state)
  else if N.eqb tag TAG_TRUNCATE then
    let? index := wire (decode_exact (T:=LogIndex) body) in
    if N.ltb index (Mem.first_index mirror) then Ok mirror
    else mirrored (Mem.truncate_from mirror index)
  else if N.eqb tag TAG_SNAPSHOT then
    let? meta := wire (decode_exact (T:=SnapshotMeta) body) in
    match Mem.snapshot_meta mirror with
    | Some existing =>
        if N.leb (s_last_index meta) (s_last_index existing) then Ok mirror
        else mirrored (Mem.save_snapshot mirror (mkSnapshot meta []))
    | None => mirrored (Mem.save_snapshot mirror (mkSnapshot meta []))
    end
  else Err (Corrupt offset "unknown record tag").

(** The loop of [replay]: a record is at least twelve bytes, so the number
    of bytes is enough fuel. *)
Fixpoint replay_loop (fuel : nat) (remaining : list N) (cursor : N) (mirror : MemoryLog) :
    Res (N * RecoveryOutcome * MemoryLog) :=
  match fuel with
  | O => Ok (cursor, Intact, mirror)
  | S fuel =>
      match remaining with
      | [] => Ok (cursor, Intact, mirror)
      | _ :: _ =>
          let? read := read_record remaining cursor in
          match read with
          | Complete tag body total_len =>
              let? mirror := apply_record tag body mirror cursor in
              replay_loop fuel (drop total_len remaining) (cursor + N.of_nat total_len) mirror
          | Incomplete => Ok (cursor, TornTail, mirror)
          | CorruptRecord => Ok (cursor, CorruptTail, mirror)
          end
      end
  end.

Definition replay (bytes : list N) (mirror : MemoryLog) :
    Res (N * RecoveryOutcome * MemoryLog) :=
  match get_range 0 PROLOGUE_LEN bytes with
  | None => Ok (0, TornTail, mirror)
  | Some prologue =>
      if negb (bool_decide (take 8 prologue = FILE_MAGIC))
      then Err (Corrupt 0 "the file does not start with the ASTRSWAL magic")
      else
        let version := from_le_bytes (drop 8 prologue) in
        if N.ltb FORMAT_VERSION version
        then Err (UnsupportedVersion version FORMAT_VERSION)
        else
          let records := drop PROLOGUE_LEN bytes in
          replay_loop (S (length records)) records (N.of_nat PROLOGUE_LEN) mirror
  end.

Definition parse_snapshot (bytes : list N) : Res (option Snapshot) :=
  match get_range 0 2 bytes with
  | None => Ok None
  | Some version_bytes =>
      let version := from_le_bytes version_bytes in
      if N.ltb FORMAT_VERSION version
      then Err (UnsupportedVersion version FORMAT_VERSION)
      else
        let? read := read_record (drop 2 bytes) 2 in
        match read with
        | Complete tag body _ =>
            if N.eqb tag TAG_SNAPSHOT
            then let? s := wire (decode_exact (T:=Snapshot) body) in Ok (Some s)
            else Ok None
        | _ => Ok None
        end
  end.

Definition read_snapshot : IoM (option Snapshot) :=
  file <- gets io_sidecar ;;
  sys "reading the snapshot" ;;
  match file with
  | None => ret None
  | Some bytes => lift_result (parse_snapshot bytes)
  end.

Definition prologue : list N := FILE_MAGIC ++ to_le_bytes 2 FORMAT_VERSION.

Definition wal_open (policy : FsyncPolicy) : IoM WalLog :=
  sys "creating the log directory" ;;
  existing <- gets io_wal ;;
  sys "reading the log" ;;
  snap <- read_snapshot ;;
  let mirror := match snap with
                | Some s => (Mem.install_snapshot memory_log_new s).1
                | None => memory_log_new
                end in
  found <- (match existing with
            | Some bytes => lift_result (replay bytes mirror)
            | None => ret (N.of_nat PROLOGUE_LEN, Intact, mirror)
            end) ;;
  let '(recovered_bytes, outcome, mirror) := found in
  sys_effect "opening the log" (λ io, set_wal (Some (default [] (io_wal io))) io) ;;
  (match existing with
   | None => sys_append "writing the prologue" prologue ;; sys "syncing the prologue"
   | Some _ =>
       if was_repaired outcome then
         sys_effect "truncating a torn tail"
           (λ io, set_wal (take (N.to_nat recovered_bytes) <$> io_wal io) io) ;;
         sys "syncing a repaired log"
       else ret tt
   end) ;;
  λ io, (io, Ok (mkWal io true mirror policy 0 recovered_bytes outcome)).

(** *** Writing *)

Definition wal_sync : WM unit :=
  io (sys "syncing the log") ;;
  modify (set_unsynced 0).

Definition write_record (tag : N) (body : list N) : WM unit :=
  bytes <- lift_result (framed tag body) ;;
  (λ w, if w_attached w then io (sys_append "appending a record" bytes) w
        else io (sys "appending a record") w) ;;
  modify (λ w, set_unsynced (N.min (w_unsynced w + 1) u32_max) w) ;;
  w <- gets (λ w, w) ;;
  if should_sync (w_policy w) (w_unsynced w) then wal_sync else ret tt.

(** The bytes of a regenerated log. *)
Fixpoint append_entries (out : list N) (es : list LogEntry) : Res (list N) :=
  match es with
  | [] => Ok out
  | e :: es =>
      let? body := wire (encode_to_vec e) in
      let? out := append_framed out TAG_ENTRY body in
      append_entries out es
  end.

Definition regenerated (m : MemoryLog) : Res (list N) :=
  let? out := match Mem.snapshot_meta m with
              | Some meta =>
                  let? body := wire (encode_to_vec meta) in
                  append_framed prologue TAG_SNAPSHOT body
              | None => Ok prologue
              end in
  let? body := wire (encode_to_vec (Mem.hard_state m)) in
  let? out := append_framed out TAG_HARD_STATE body in
  append_entries out (l_entries m).

Definition regenerate : WM unit :=
  io (sys "creating a regenerated log") ;;
  m <- gets w_mirror ;;
  buffer <- lift_result (regenerated m) ;;
  io (sys "writing a regenerated log") ;;
  io (sys "syncing a regenerated log") ;;
  io (sys_effect "installing a regenerated log" (set_wal (Some buffer))) ;;
  modify (set_attached false) ;;
  io (sys "reopening a regenerated log") ;;
  modify (set_attached true) ;;
  modify (set_unsynced 0) ;;
  modify (set_recovered (N.of_nat (length buffer))).

Definition sidecar_bytes (s : Snapshot) : Res (list N) :=
  let? body := wire (encode_to_vec s) in
  append_framed (to_le_bytes 2 FORMAT_VERSION) TAG_SNAPSHOT body.

Definition write_snapshot_sidecar (s : Snapshot) : WM unit :=
  bytes <- lift_result (sidecar_bytes s) ;;
  io (sys "creating the snapshot") ;;
  io (sys "writing the snapshot") ;;
  io (sys "syncing the snapshot") ;;
  io (sys_effect "installing the snapshot" (set_sidecar (Some bytes))).

(** *** The [LogStore] operations *)

Definition wal_save_hard_state (state : HardState) : WM unit :=
  body <- lift_result (wire (encode_to_vec state)) ;;
  write_record TAG_HARD_STATE body ;;
  on_mirror (λ m, Mem.save_hard_state m state).

Definition wal_append (entries : list LogEntry) : WM unit :=
  m <- gets w_mirror ;;
  lift_result (check_contiguous (Mem.last_index m) entries) ;;
  for_each (λ e,
    body <- lift_result (wire (encode_to_vec e)) ;;
    write_record TAG_ENTRY body) entries ;;
  on_mirror (λ m, Mem.append m entries).

Definition wal_truncate_from (index : LogIndex) : WM unit :=
  on_mirror (λ m, Mem.truncate_from m index) ;;
  body <- lift_result (wire (encode_to_vec index)) ;;
  write_record TAG_TRUNCATE body.

Definition wal_save_snapshot (s : Snapshot) : WM unit :=
  on_mirror (λ m, Mem.save_snapshot m s) ;;
  write_snapshot_sidecar s ;;
  regenerate.

Definition wal_install_snapshot (s : Snapshot) : WM unit :=
  on_mirror (λ m, Mem.install_snapshot m s) ;;
  write_snapshot_sidecar s ;;
  regenerate.

#[global] Instance WalLog_LogStore : LogStore WalLog := {
  hard_state w := Mem.hard_state (w_mirror w);
  save_hard_state w h := wal_save_hard_state h w;
  append w es := wal_append es w;
  truncate_from w i := wal_truncate_from i w;
  entry w i := Mem.entry (w_mirror w) i;
  entries w i n := Mem.entries (w_mirror w) i n;
  term_at w i := Mem.term_at (w_mirror w) i;
  first_index w := Mem.first_index (w_mirror w);
  last_index w := Mem.last_index (w_mirror w);
  last_term w := Mem.last_term (w_mirror w);
  snapshot_meta w := Mem.snapshot_meta (w_mirror w);
  snapshot w := Mem.snapshot (w_mirror w);
  save_snapshot w s := wal_save_snapshot s w;
  install_snapshot w s := wal_install_snapshot s w;
  sync w := wal_sync w
}.
End wal.

(** ** The store meets its contract *)

Definition same_mirror (w w' : WalLog) : Prop := w_mirror w' = w_mirror w.

#[global] Instance same_mirror_preorder : PreOrder same_mirror.
Proof. split; [intros ?; done|]. intros w1 w2 w3 E1 E2. unfold same_mirror in *. congruence. Qed.

Section contract.
Context (cpu : Cpu) `{WalCodec}.

Lemma io_mirror {A} (m : IoM A) : keeps same_mirror (io m).
Proof. intros w. unfold io. by destruct (m (w_io w)). Qed.

Lemma modify_mirror f :
  (∀ w, w_mirror (f w) = w_mirror w) → keeps (E:=RaftError) same_mirror (modify f).
Proof. intros Hf. apply keeps_modify. intros w. apply Hf. Qed.

#[local] Hint Resolve io_mirror : keeps.
#[local] Hint Extern 1 (keeps same_mirror (modify _)) =>
  (apply modify_mirror; intros; reflexivity) : keeps.

Lemma write_record_mirror tag body : keeps same_mirror (write_record cpu tag body).
Proof.
  unfold write_record, wal_sync. keeps_auto.
  intros w. destruct (w_attached w); apply io_mirror.
Qed.
#[local] Hint Resolve write_record_mirror : keeps.

Lemma sidecar_mirror s : keeps same_mirror (write_snapshot_sidecar cpu s).
Proof. unfold write_snapshot_sidecar. keeps_auto. Qed.

Lemma regenerate_mirror : keeps same_mirror (regenerate cpu).
Proof. unfold regenerate. keeps_auto. Qed.
#[local] Hint Resolve sidecar_mirror regenerate_mirror : keeps.

(** The file first, then the mirror. *)
Lemma file_then_mirror (m : stM WalLog RaftError unit) f w :
  keeps same_mirror m →
  mutates (w_mirror w) (w_mirror ((m ;; on_mirror f) w).1) ((m ;; on_mirror f) w).2
    (f (w_mirror w)).
Proof.
  intros Hm. specialize (Hm w). unfold sbind. destruct (m w) as [w' [[]|e]]; simpl in *.
  - left. unfold on_mirror. rewrite Hm. by destruct (f (w_mirror w)).
  - right. split; [by left|eauto].
Qed.

(** The mirror first, then the file. *)
Lemma mirror_then_file (m : stM WalLog RaftError unit) f w :
  keeps same_mirror m →
  mutates (w_mirror w) (w_mirror ((on_mirror f ;; m) w).1) ((on_mirror f ;; m) w).2
    (f (w_mirror w)).
Proof.
  intros Hm. unfold sbind, on_mirror. destruct (f (w_mirror w)) as [m' [[]|e]] eqn:Ef; simpl.
  - specialize (Hm (set_mirror m' w)). destruct (m (set_mirror m' w)) as [w' [[]|e]]; simpl in *.
    + by left.
    + right. split; [by right|eauto].
  - by left.
Qed.

Lemma wal_append_eq es w :
  wal_append cpu es w =
    match check_contiguous (Mem.last_index (w_mirror w)) es with
    | Ok _ => (for_each (λ e,
        body <- lift_result (wire (encode_to_vec e)) ;;
        write_record cpu TAG_ENTRY body) es ;;
        on_mirror (λ m, Mem.append m es)) w
    | Err e => (w, Err e)
    end.
Proof.
  unfold wal_append. unfold sbind at 1, gets. unfold sbind at 1, lift_result at 1.
  by destruct (check_contiguous _ es).
Qed.

#[global] Instance WalLog_laws : @LogStoreLaws WalLog (WalLog_LogStore cpu).
Proof.
  refine (@Build_LogStoreLaws _ _ w_mirror _ _ _ _ _ _ _ _ _ _ _ _ _ _); intros;
    try reflexivity; simpl.
  - unfold wal_save_hard_state. rewrite <-sbind_assoc. apply file_then_mirror. keeps_auto.
  - rewrite wal_append_eq. destruct (check_contiguous _ es) as [[]|e] eqn:Ec.
    + apply file_then_mirror. keeps_auto.
    + left. unfold Mem.append. by rewrite Ec.
  - apply mirror_then_file. keeps_auto.
  - apply mirror_then_file. keeps_auto.
  - apply mirror_then_file. keeps_auto.
Defined.

End contract.

(** ** Reading what was written *)

Lemma get_range_mono from to l x s :
  get_range from to l = Some s → get_range from to (l ++ x) = Some s.
Proof.
  unfold get_range. case_bool_decide as Hb; [|done]. intros [= <-].
  rewrite bool_decide_true by (rewrite length_app; lia). f_equal.
  rewrite drop_app_le by lia. apply take_app_le. rewrite length_drop. lia.
Qed.

Lemma get_range_at a b c from to :
  from = length a → to = (length a + length b)%nat →
  get_range from to (a ++ b ++ c) = Some b.
Proof. intros -> ->. apply get_range_app. Qed.

Lemma get_range_head b c n : n = length b → get_range 0 n (b ++ c) = Some b.
Proof. intros ->. apply (get_range_app []). Qed.

Lemma get_range_short from to l : (length l < to)%nat → get_range from to l = None.
Proof. intros Hl. unfold get_range. by rewrite bool_decide_false by lia. Qed.

Section framing.
Context (cpu : Cpu) (Hcpu : cpu_ok cpu).

(** A record this build writes and reads back. *)
Definition record_fits (tag : N) (body : list N) : Prop :=
  tag < 2 ^ 32 ∧ Forall is_byte body ∧ N.of_nat (length body) <= MAX_RECORD_BODY.

Lemma length_record_bytes tag body :
  length (record_bytes cpu tag body) = (12 + length body)%nat.
Proof. unfold record_bytes. rewrite !length_app, !length_to_le. lia. Qed.

Lemma record_crc_u32 tag body :
  Forall is_byte body → N.of_nat (length body) < 2 ^ 64 → record_crc cpu tag body < 2 ^ 32.
Proof.
  intros Hb Hl. unfold record_crc, crc_finalize, crc_update, crc_new. cbn [crc_state].
  apply not32_u32.
  assert (buffer (to_le_bytes 4 tag)) as B1 by (split; [apply to_le_is_byte|by rewrite length_to_le]).
  assert (buffer (to_le_bytes 4 (N.of_nat (length body)))) as B2
    by (split; [apply to_le_is_byte|by rewrite length_to_le]).
  rewrite (update_state_reference cpu u32_max (to_le_bytes 4 tag)) by done.
  assert (is_u32 (reference u32_max (to_le_bytes 4 tag))) as U1
    by (apply reference_u32; [done|apply B1]).
  rewrite (update_state_reference cpu _ (to_le_bytes 4 (N.of_nat (length body)))) by done.
  rewrite update_state_reference; [|done| |done].
  - apply reference_u32; [|done]. apply reference_u32; [done|apply B2].
  - apply reference_u32; [done|apply B2].
Qed.

Lemma record_len_u32 tag body : record_fits tag body → N.of_nat (length body) < 2 ^ 32.
Proof.
  intros (_ & _ & Hl). eapply N.le_lt_trans; [exact Hl|]. by vm_compute.
Qed.

Lemma record_len_max tag body : record_fits tag body → N.of_nat (length body) <= u32_max.
Proof. intros (_ & _ & Hl). eapply N.le_trans; [exact Hl|]. by vm_compute. Qed.

Lemma framed_ok tag body :
  record_fits tag body → framed cpu tag body = Ok (record_bytes cpu tag body).
Proof.
  intros Hf%record_len_max. unfold framed.
  destruct (N.ltb_spec u32_max (N.of_nat (length body))); [lia|done].
Qed.

(** A record over the reader's bound. *)
Lemma read_record_oversized tag body rest offset :
  tag < 2 ^ 32 → MAX_RECORD_BODY < N.of_nat (length body) → N.of_nat (length body) < 2 ^ 32 →
  read_record cpu (record_bytes cpu tag body ++ rest) offset
    = Err (Corrupt offset "a record declares a body larger than this build will read").
Proof.
  intros Ht Hl Hu. unfold record_bytes. set (len := to_le_bytes 4 (N.of_nat (length body))).
  assert (length len = 4%nat) as L1 by apply length_to_le.
  assert (length (to_le_bytes 4 tag) = 4%nat) as L0 by apply length_to_le.
  unfold read_record. rewrite <-!app_assoc, (app_assoc (to_le_bytes 4 tag) len).
  rewrite (get_range_head (to_le_bytes 4 tag ++ len)) by (rewrite length_app; lia).
  rewrite drop_app_length' by done.
  assert (from_le_bytes len = N.of_nat (length body)) as El by (by apply from_to_le).
  rewrite El. destruct (N.ltb_spec MAX_RECORD_BODY (N.of_nat (length body))); [done|lia].
Qed.

Lemma read_record_bytes tag body rest offset :
  record_fits tag body →
  read_record cpu (record_bytes cpu tag body ++ rest) offset
    = Ok (Complete tag body (12 + length body)).
Proof.
  intros Hf. pose proof (record_len_u32 _ _ Hf) as Hu. destruct Hf as (Ht & Hb & Hl).
  unfold record_bytes. set (len := to_le_bytes 4 (N.of_nat (length body))).
  set (crc := to_le_bytes 4 (record_crc cpu tag body)).
  assert (length len = 4%nat ∧ length crc = 4%nat) as [L1 L2] by (split; apply length_to_le).
  assert (length (to_le_bytes 4 tag) = 4%nat) as L0 by apply length_to_le.
  unfold read_record. rewrite <-!app_assoc.
  rewrite (app_assoc (to_le_bytes 4 tag) len).
  rewrite (get_range_head (to_le_bytes 4 tag ++ len)) by (rewrite length_app; lia).
  rewrite take_app_length', drop_app_length' by done.
  assert (from_le_bytes len = N.of_nat (length body)) as El by (by apply from_to_le).
  rewrite El, (from_to_le 4 tag) by done.
  destruct (N.ltb_spec MAX_RECORD_BODY (N.of_nat (length body))); [lia|].
  rewrite Nat2N.id.
  rewrite (get_range_at (to_le_bytes 4 tag ++ len) body)
    by (rewrite length_app; lia).
  rewrite (app_assoc _ body).
  rewrite (get_range_at ((to_le_bytes 4 tag ++ len) ++ body) crc)
    by (rewrite !length_app; lia).
  unfold crc. rewrite from_to_le; [rewrite N.eqb_refl; cbn [negb]; do 2 f_equal; lia|].
  apply record_crc_u32; [done|]. eapply N.lt_trans; [exact Hu|]. by vm_compute.
Qed.

(** A record cut short anywhere reads as incomplete. *)
Lemma read_record_cut tag body k offset :
  record_fits tag body → (k < 12 + length body)%nat →
  read_record cpu (take k (record_bytes cpu tag body)) offset = Ok Incomplete.
Proof.
  intros Hf Hk. pose proof (record_len_u32 _ _ Hf) as Hu.
  pose proof (length_record_bytes tag body) as Hlen.
  assert (length (take k (record_bytes cpu tag body)) = k) as Hkl by (rewrite length_take; lia).
  pose proof (read_record_bytes tag body [] offset Hf) as Hr. rewrite app_nil_r in Hr.
  unfold read_record. destruct (get_range 0 8 (take k _)) as [hd|] eqn:E0; [|done].
  pose proof (get_range_mono _ _ _ (drop k (record_bytes cpu tag body)) _ E0) as E0'.
  rewrite take_drop in E0'. unfold read_record in Hr. rewrite E0' in Hr.
  destruct (N.ltb _ _); [done|]. set (n := N.to_nat _) in *.
  destruct (get_range 8 (8 + n) (take k _)) as [b|] eqn:E1; [|done].
  apply (get_range_mono _ _ _ (drop k (record_bytes cpu tag body))) in E1 as E1'.
  rewrite take_drop in E1'. rewrite E1' in Hr.
  destruct (get_range (8 + n) (8 + n + 4) (record_bytes cpu tag body)); [|done].
  rewrite get_range_short; [done|]. rewrite Hkl.
  destruct (negb _); [done|]. assert (8 + n + 4 = 12 + length body)%nat by congruence. lia.
Qed.
End framing.

(** ** Durability *)

Class WalCodecLaws `{WalCodec} := {
  wl_entry :: OxicodeLaws LogEntry;
  wl_hard :: OxicodeLaws HardState;
  wl_index :: OxicodeLaws LogIndex;
  wl_meta :: OxicodeLaws SnapshotMeta;
  wl_snapshot :: OxicodeLaws Snapshot
}.

Section durability.
Context (cpu : Cpu) (Hcpu : cpu_ok cpu) `{WalCodecLaws}.

(** *** Values that fit a record *)

Definition fits {T} `{Oxicode T} (v : T) : Prop :=
  ∃ body, encode_to_vec v = Ok body ∧ N.of_nat (length body) <= MAX_RECORD_BODY.

Definition body_of {T} `{Oxicode T} (v : T) : list N :=
  match encode_to_vec v with Ok body => body | Err _ => [] end.

Lemma fits_body {T} `{OxicodeLaws T} (v : T) :
  fits v →
  encode_to_vec v = Ok (body_of v) ∧ decode_exact (body_of v) = Ok v ∧
  Forall is_byte (body_of v) ∧ N.of_nat (length (body_of v)) <= MAX_RECORD_BODY.
Proof.
  intros (body & E & Hl). unfold body_of. rewrite E. split; [done|].
  apply encode_to_vec_ok in E. split; [by apply decode_exact_encode|]. split; [|done].
  pose proof (ox_bytes v) as Hb. by rewrite E in Hb.
Qed.

(** *** Replaying records *)

Definition Record_ : Type := N * list N.

Definition records_bytes (rs : list Record_) : list N :=
  mjoin ((λ r, record_bytes cpu r.1 r.2) <$> rs).

Definition all_fit (rs : list Record_) : Prop := Forall (λ r, record_fits r.1 r.2) rs.

(** Folding records into a log, in order. *)
Fixpoint apply_records (rs : list Record_) (m : MemoryLog) : Res MemoryLog :=
  match rs with
  | [] => Ok m
  | r :: rs => let? m := apply_record r.1 r.2 m 0 in apply_records rs m
  end.

Lemma apply_record_offset tag body m o o' m' :
  apply_record tag body m o = Ok m' → apply_record tag body m o' = Ok m'.
Proof. unfold apply_record. by repeat (destruct (N.eqb _ _); [done|]). Qed.

Lemma apply_records_app rs rs' m :
  apply_records (rs ++ rs') m = let? m' := apply_records rs m in apply_records rs' m'.
Proof.
  revert m. induction rs as [|r rs IH]; intros m; simpl; [done|].
  destruct (apply_record _ _ m 0); simpl; [apply IH|done].
Qed.

Lemma records_bytes_app rs rs' :
  records_bytes (rs ++ rs') = records_bytes rs ++ records_bytes rs'.
Proof. unfold records_bytes. by rewrite fmap_app, join_app. Qed.

Lemma records_bytes_one tag body : records_bytes [(tag, body)] = record_bytes cpu tag body.
Proof. apply app_nil_r. Qed.

(** A run of good records followed by a tail: the loop folds them and goes
    on with the tail. *)
Lemma replay_records rs fuel tail cursor m m' :
  all_fit rs → (length rs <= fuel)%nat → apply_records rs m = Ok m' →
  replay_loop cpu fuel (records_bytes rs ++ tail) cursor m =
  replay_loop cpu (fuel - length rs) tail
    (cursor + N.of_nat (length (records_bytes rs))) m'.
Proof.
  intros Hf. revert fuel cursor m. induction Hf as [|[tag body] rs Hr Hf IH];
    intros fuel cursor m Hl Ha.
  - simpl in *. injection Ha as ->. by rewrite N.add_0_r, Nat.sub_0_r.
  - destruct fuel as [|fuel]; [simpl in Hl; lia|]. simpl in Ha.
    destruct (apply_record tag body m 0) as [m1|] eqn:E1; [|done]. simpl in Ha.
    change (records_bytes ((tag, body) :: rs)) with (record_bytes cpu tag body ++ records_bytes rs).
    rewrite <-app_assoc. cbn [replay_loop].
    destruct (record_bytes cpu tag body ++ records_bytes rs ++ tail) as [|b bs] eqn:Eb.
    { apply (f_equal length) in Eb. rewrite length_app, length_record_bytes in Eb.
      simpl in Eb. lia. }
    rewrite <-Eb, (read_record_bytes cpu Hcpu tag body _ cursor Hr). cbn [rbind].
    rewrite (apply_record_offset _ _ _ 0 cursor _ E1). cbn [rbind].
    rewrite drop_app_length' by (by rewrite length_record_bytes).
    rewrite (IH fuel _ m1) by (simpl in Hl; (lia || done)).
    rewrite length_app, length_record_bytes. f_equal. lia.
Qed.

Lemma replay_loop_nil fuel cursor m : replay_loop cpu fuel [] cursor m = Ok (cursor, Intact, m).
Proof. by destruct fuel. Qed.

Lemma length_records rs : (length rs <= length (records_bytes rs))%nat.
Proof.
  induction rs as [|[tag body] rs IH]; [done|].
  change (records_bytes ((tag, body) :: rs)) with (record_bytes cpu tag body ++ records_bytes rs).
  rewrite length_app, length_record_bytes. simpl. lia.
Qed.

Lemma replay_prologue records m :
  replay cpu (prologue ++ records) m =
  replay_loop cpu (S (length records)) records (N.of_nat PROLOGUE_LEN) m.
Proof. reflexivity. Qed.

(** A whole file of good records. *)
Lemma replay_file rs m m' :
  all_fit rs → apply_records rs m = Ok m' →
  replay cpu (prologue ++ records_bytes rs) m =
    Ok (N.of_nat (length (prologue ++ records_bytes rs)), Intact, m').
Proof.
  intros Hf Ha. rewrite replay_prologue. rewrite <-(app_nil_r (records_bytes rs)) at 2.
  rewrite (replay_records rs _ [] _ m m') by (try done; pose proof (length_records rs); lia).
  rewrite replay_loop_nil, length_app. do 4 f_equal. unfold PROLOGUE_LEN. simpl length. lia.
Qed.

(** The same with a record cut short at the end. *)
Lemma replay_torn rs m m' tag body k :
  all_fit rs → apply_records rs m = Ok m' → record_fits tag body →
  (0 < k < 12 + length body)%nat →
  replay cpu (prologue ++ records_bytes rs ++ take k (record_bytes cpu tag body)) m =
    Ok (N.of_nat (length (prologue ++ records_bytes rs)), TornTail, m').
Proof.
  intros Hf Ha Hr Hk. rewrite replay_prologue. set (tail := take k _).
  assert (length tail = k) as Hlt by (unfold tail; rewrite length_take, length_record_bytes; lia).
  pose proof (length_records rs). rewrite length_app.
  rewrite (replay_records rs _ tail _ m m') by (done || lia).
  replace (S (length (records_bytes rs) + length tail) - length rs)%nat
    with (S (length (records_bytes rs) + length tail - length rs)) by lia.
  cbn [replay_loop]. destruct tail as [|t0 ts] eqn:Et; [simpl in Hlt; lia|].
  rewrite <-Et. unfold tail. rewrite (read_record_cut cpu Hcpu) by (done || lia).
  cbn [rbind]. rewrite length_app. do 4 f_equal. unfold PROLOGUE_LEN. simpl length. lia.
Qed.

(** The same with a record over the reader's bound. *)
Lemma replay_oversized rs m m' tag body :
  all_fit rs → apply_records rs m = Ok m' →
  tag < 2 ^ 32 → MAX_RECORD_BODY < N.of_nat (length body) → N.of_nat (length body) < 2 ^ 32 →
  replay cpu (prologue ++ records_bytes rs ++ record_bytes cpu tag body) m =
    Err (Corrupt (N.of_nat (length (prologue ++ records_bytes rs)))
           "a record declares a body larger than this build will read").
Proof.
  intros Hf Ha Ht Hl Hu. rewrite replay_prologue. set (tail := record_bytes cpu tag body).
  assert (0 < length tail)%nat as Hlt by (unfold tail; rewrite length_record_bytes; lia).
  pose proof (length_records rs). rewrite length_app.
  rewrite (replay_records rs _ tail _ m m') by (done || lia).
  replace (S (length (records_bytes rs) + length tail) - length rs)%nat
    with (S (length (records_bytes rs) + length tail - length rs)) by lia.
  cbn [replay_loop]. destruct tail as [|t0 ts] eqn:Et; [simpl in Hlt; lia|].
  rewrite <-Et. unfold tail. rewrite <-(app_nil_r (record_bytes cpu tag body)).
  rewrite read_record_oversized by done.
  cbn [rbind]. rewrite length_app. do 2 f_equal. unfold PROLOGUE_LEN. simpl length. lia.
Qed.

(** *** What the files hold *)

(** The log before replay: the sidecar's snapshot, if there is one. *)
Definition sidecar_base (sidecar : option (list N)) : Res MemoryLog :=
  match sidecar with
  | None => Ok memory_log_new
  | Some bytes =>
      let? s := parse_snapshot cpu bytes in
      Ok (match s with
          | Some s => (Mem.install_snapshot memory_log_new s).1
          | None => memory_log_new
          end)
  end.

(** The files hold log [m]: the sidecar and a clean run of records replay
    to it; the handle is on the log file and no call is about to fail. *)
Record holds (w : WalLog) (m : MemoryLog) : Prop := {
  holds_attached : w_attached w = true;
  holds_calm : io_faults (w_io w) = [];
  holds_file : ∃ rs base,
    io_wal (w_io w) = Some (prologue ++ records_bytes rs) ∧ all_fit rs ∧
    sidecar_base (io_sidecar (w_io w)) = Ok base ∧ apply_records rs base = Ok m
}.

(** The store and its files agree. *)
Definition durable (w : WalLog) : Prop := holds w (w_mirror w).

(** Opening an existing log when no call fails. *)
Lemma wal_open_existing policy disk file base n o m :
  io_faults disk = [] → io_wal disk = Some file →
  sidecar_base (io_sidecar disk) = Ok base → replay cpu file base = Ok (n, o, m) →
  let disk' := if was_repaired o then set_wal (Some (take (N.to_nat n) file)) disk else disk in
  wal_open cpu policy disk = (disk', Ok (mkWal disk' true m policy 0 n o)).
Proof.
  destruct disk as [wal sidecar faults]. simpl. intros -> -> Hs Hr.
  unfold wal_open, read_snapshot, sys_effect, sys, sbind, gets, ret, lift_result, modify. simpl.
  destruct sidecar as [bytes|]; simpl in Hs.
  - destruct (parse_snapshot cpu bytes) as [[s|]|]; simpl in *; [..|done];
      injection Hs as <-; rewrite Hr; simpl; by destruct (was_repaired o).
  - injection Hs as <-. rewrite Hr. simpl. by destruct (was_repaired o).
Qed.

(** Opening a log whose replay fails. *)
Lemma wal_open_fails policy disk file base e :
  io_faults disk = [] → io_wal disk = Some file →
  sidecar_base (io_sidecar disk) = Ok base → replay cpu file base = Err e →
  wal_open cpu policy disk = (disk, Err e).
Proof.
  destruct disk as [wal sidecar faults]. simpl. intros -> -> Hs Hr.
  unfold wal_open, read_snapshot, sys, sbind, gets, ret, lift_result. simpl.
  destruct sidecar as [bytes|]; simpl in Hs.
  - destruct (parse_snapshot cpu bytes) as [[s|]|]; simpl in *; [..|done];
      injection Hs as <-; by rewrite Hr.
  - injection Hs as <-. by rewrite Hr.
Qed.

Lemma holds_reopens w m policy :
  holds w m →
  wal_open cpu policy (w_io w) =
    (w_io w, Ok (mkWal (w_io w) true m policy 0
      (N.of_nat (length (default [] (io_wal (w_io w))))) Intact)).
Proof.
  intros [_ Hc (rs & base & Hf & Hfit & Hb & Ha)]. rewrite Hf.
  exact (wal_open_existing policy (w_io w) _ base _ Intact m Hc Hf Hb
           (replay_file _ _ _ Hfit Ha)).
Qed.

(** *** Writing one record *)

Lemma write_record_calm tag body w :
  w_attached w = true → io_faults (w_io w) = [] → N.of_nat (length body) <= u32_max →
  ∃ u, write_record cpu tag body w =
    (set_unsynced u (set_io (set_wal
       (Some (default [] (io_wal (w_io w)) ++ record_bytes cpu tag body)) (w_io w)) w), Ok tt).
Proof.
  intros Ha Hc Hf. destruct w as [[wal sc faults] att mir pol uns rec out]. simpl in *. subst.
  unfold write_record, wal_sync, sbind, lift_result, framed.
  destruct (N.ltb_spec u32_max (N.of_nat (length body))); [lia|].
  simpl. destruct (should_sync _ _); by eexists.
Qed.

Lemma write_holds tag body w m m' :
  holds w m → record_fits tag body → apply_record tag body m 0 = Ok m' →
  ∃ w', write_record cpu tag body w = (w', Ok tt) ∧ holds w' m' ∧ w_mirror w' = w_mirror w.
Proof.
  intros [Ha Hc (rs & base & Hf & Hfit & Hb & Hr)] Hfits Happ.
  destruct (write_record_calm tag body w Ha Hc (record_len_max _ _ Hfits)) as [u ->].
  eexists. split; [done|]. split; [|done]. split; [done|done|].
  exists (rs ++ [(tag, body)]), base.
  cbn [set_unsynced set_io set_wal w_io io_wal io_sidecar]. rewrite Hf.
  split; [by rewrite records_bytes_app, records_bytes_one, app_assoc|].
  split; [apply Forall_app_2; [done|by apply Forall_singleton]|]. split; [done|].
  rewrite apply_records_app, Hr. simpl. by rewrite Happ.
Qed.

(** *** Records of the four kinds *)

Lemma fits_record {T} `{OxicodeLaws T} tag (v : T) :
  tag < 2 ^ 32 → fits v → record_fits tag (body_of v).
Proof. intros Ht Hv%fits_body. by destruct Hv as (_ & _ & ? & ?). Qed.

Lemma apply_hard_record m h o :
  fits h → apply_record TAG_HARD_STATE (body_of h) m o = Ok (Mem.save_hard_state m h).1.
Proof.
  intros (_ & Hd & _)%fits_body. unfold apply_record.
  change (N.eqb TAG_HARD_STATE TAG_ENTRY) with false. rewrite N.eqb_refl. by rewrite Hd.
Qed.

Lemma apply_entry_record m e o :
  fits e → log_wf m → e_index e = (Mem.last_index m + 1)%N → (e_index e < u64_max)%N →
  apply_record TAG_ENTRY (body_of e) m o =
    Ok (mkLog (l_hard_state m) (l_entries m ++ [e]) (l_snapshot m)).
Proof.
  intros (_ & Hd & _)%fits_body Hwf Hi Hb. unfold apply_record. rewrite N.eqb_refl, Hd.
  cbn [wire map_err rbind]. destruct (N.leb_spec (e_index e) (Mem.last_index m)); [lia|].
  cbn [andb rbind]. unfold Mem.append, check_contiguous. simpl.
  rewrite next_lt, <-Hi, N.eqb_refl by lia. done.
Qed.

Lemma apply_truncate_record m i o m' :
  fits (T:=LogIndex) i → Mem.truncate_from m i = (m', Ok tt) →
  apply_record TAG_TRUNCATE (body_of (T:=LogIndex) i) m o = Ok m'.
Proof.
  intros (_ & Hd & _)%fits_body Ht. unfold apply_record.
  change (N.eqb TAG_TRUNCATE TAG_ENTRY) with false.
  change (N.eqb TAG_TRUNCATE TAG_HARD_STATE) with false. rewrite N.eqb_refl, Hd.
  cbn [wire map_err rbind]. rewrite Ht.
  destruct (N.ltb i (Mem.first_index m)) eqn:E; [|done].
  unfold Mem.truncate_from in Ht. by rewrite E in Ht.
Qed.

(** A boundary record that restates the sidecar's. *)
Lemma apply_snapshot_record m s o :
  fits (s_meta s) → l_snapshot m = Some s →
  apply_record TAG_SNAPSHOT (body_of (s_meta s)) m o = Ok m.
Proof.
  intros (_ & Hd & _)%fits_body Hs. unfold apply_record.
  change (N.eqb TAG_SNAPSHOT TAG_ENTRY) with false.
  change (N.eqb TAG_SNAPSHOT TAG_HARD_STATE) with false.
  change (N.eqb TAG_SNAPSHOT TAG_TRUNCATE) with false. rewrite N.eqb_refl, Hd.
  cbn [wire map_err rbind]. unfold Mem.snapshot_meta. rewrite Hs. simpl.
  by rewrite N.leb_refl.
Qed.

(** *** The operations *)

Lemma wf_snoc m e :
  log_wf m → e_index e = (Mem.last_index m + 1)%N → (e_index e < u64_max)%N →
  log_wf (mkLog (l_hard_state m) (l_entries m ++ [e]) (l_snapshot m)) ∧
  Mem.last_index (mkLog (l_hard_state m) (l_entries m ++ [e]) (l_snapshot m)) = e_index e.
Proof.
  intros Hwf Hi Hb. pose proof (last_index_wf _ Hwf) as Hl. destruct Hwf as [Hc Hb'].
  assert (log_wf (mkLog (l_hard_state m) (l_entries m ++ [e]) (l_snapshot m))) as Hwf'.
  { split; change (boundary_index (mkLog _ _ (l_snapshot m))) with (boundary_index m);
      cbn [l_entries].
    - apply contiguous_from_app. split; [done|]. split; [lia|done].
    - rewrite length_app. simpl. lia. }
  split; [done|]. unfold Mem.last_index. cbn [l_entries]. by rewrite last_snoc.
Qed.

(** Entry after entry, as [append] and [regenerate] write them. *)
Lemma apply_entry_records es m :
  Forall fits es → log_wf m → contiguous_from (Mem.last_index m + 1) es →
  (Mem.last_index m + N.of_nat (length es) < u64_max)%N →
  apply_records ((λ e, (TAG_ENTRY, body_of e)) <$> es) m =
    Ok (mkLog (l_hard_state m) (l_entries m ++ es) (l_snapshot m)).
Proof.
  intros Hf. revert m. induction Hf as [|e es He Hf IH]; intros m Hwf Hc Hb.
  - simpl. rewrite app_nil_r. by destruct m.
  - destruct Hc as [Hi Hc]. cbn [length] in Hb. rewrite fmap_cons. cbn [apply_records fst snd].
    rewrite (apply_entry_record m e 0 He Hwf Hi) by lia. cbn [rbind].
    destruct (wf_snoc m e Hwf Hi ltac:(lia)) as [Hwf' Hl'].
    rewrite IH by (rewrite ?Hl', ?Hi; (done || lia)).
    cbn [l_entries l_hard_state l_snapshot]. by rewrite <-app_assoc.
Qed.

Lemma tag_entry_u32 : TAG_ENTRY < 2 ^ 32. Proof. by vm_compute. Qed.
Lemma tag_hard_u32 : TAG_HARD_STATE < 2 ^ 32. Proof. by vm_compute. Qed.
Lemma tag_truncate_u32 : TAG_TRUNCATE < 2 ^ 32. Proof. by vm_compute. Qed.
Lemma tag_snapshot_u32 : TAG_SNAPSHOT < 2 ^ 32. Proof. by vm_compute. Qed.

Lemma entries_fit (es : list LogEntry) : Forall fits es → all_fit ((λ e, (TAG_ENTRY, body_of e)) <$> es).
Proof.
  induction 1 as [|e es He _ IH]; [constructor|]. constructor; [|done].
  apply fits_record; [apply tag_entry_u32|done].
Qed.

Lemma write_entries es w m :
  holds w m → Forall fits es → log_wf m → contiguous_from (Mem.last_index m + 1) es →
  (Mem.last_index m + N.of_nat (length es) < u64_max)%N →
  ∃ w', for_each (λ e, body <- lift_result (wire (encode_to_vec e)) ;;
                       write_record cpu TAG_ENTRY body) es w = (w', Ok tt) ∧
    holds w' (mkLog (l_hard_state m) (l_entries m ++ es) (l_snapshot m)) ∧
    w_mirror w' = w_mirror w.
Proof.
  intros Hh Hf. revert w m Hh. induction Hf as [|e es He Hf IH]; intros w m Hh Hwf Hc Hb.
  - exists w. split; [done|]. rewrite app_nil_r. by destruct m.
  - destruct Hc as [Hi Hc]. cbn [length] in Hb. cbn [for_each]. unfold sbind, lift_result.
    pose proof (fits_body e He) as (-> & _). cbn [wire map_err].
    destruct (write_holds TAG_ENTRY (body_of e) w m _ Hh
      (fits_record _ _ tag_entry_u32 He) (apply_entry_record m e 0 He Hwf Hi ltac:(lia)))
      as (w1 & -> & Hh1 & Hm1).
    destruct (wf_snoc m e Hwf Hi ltac:(lia)) as [Hwf' Hl'].
    destruct (IH w1 _ Hh1 Hwf') as (w2 & E2 & Hh2 & Hm2);
      [rewrite Hl', Hi; done|rewrite Hl', Hi; lia|].
    exists w2. split; [exact E2|]. cbn [l_entries l_hard_state l_snapshot] in Hh2.
    rewrite <-app_assoc in Hh2. split; [done|congruence].
Qed.

Lemma durable_save_hard_state h w :
  durable w → fits h →
  let w' := (wal_save_hard_state cpu h w).1 in
  durable w' ∧ w_mirror w' = (Mem.save_hard_state (w_mirror w) h).1.
Proof.
  intros Hd Hf. unfold wal_save_hard_state, sbind, lift_result.
  pose proof (fits_body h Hf) as (-> & _). cbn [wire map_err].
  destruct (write_holds _ _ w _ _ Hd (fits_record _ _ tag_hard_u32 Hf)
    (apply_hard_record (w_mirror w) h 0 Hf)) as (w' & -> & [Ha Hc Hfile] & Hm).
  unfold on_mirror. rewrite Hm. split; [by split|done].
Qed.

Lemma durable_append es w :
  durable w → log_wf (w_mirror w) → Forall fits es →
  (Mem.last_index (w_mirror w) + N.of_nat (length es) < u64_max)%N →
  let w' := (wal_append cpu es w).1 in
  durable w' ∧ w_mirror w' = (Mem.append (w_mirror w) es).1.
Proof.
  intros Hd Hwf Hf Hb. rewrite wal_append_eq. unfold Mem.append.
  destruct (check_contiguous _ es) as [[]|] eqn:Ec; [|done].
  pose proof Ec as Ec'. unfold check_contiguous in Ec'. rewrite next_lt in Ec' by lia.
  apply check_contiguous_from_spec in Ec'; [|lia].
  rewrite sbind_eq.
  destruct (write_entries es w _ Hd Hf Hwf Ec' Hb) as (w' & -> & [Ha Hc Hfile] & Hm).
  unfold on_mirror, Mem.append. rewrite Hm, Ec. split; [by split|done].
Qed.

Lemma durable_truncate i w :
  durable w → fits (T:=LogIndex) i →
  let w' := (wal_truncate_from cpu i w).1 in
  durable w' ∧ w_mirror w' = (Mem.truncate_from (w_mirror w) i).1.
Proof.
  intros Hd Hf. unfold wal_truncate_from. rewrite sbind_eq. unfold on_mirror.
  destruct (Mem.truncate_from (w_mirror w) i) as [m' [[]|e]] eqn:Et.
  - unfold sbind, lift_result.
    pose proof (fits_body (T:=LogIndex) i Hf) as (-> & _). cbn [wire map_err].
    assert (holds (set_mirror m' w) (w_mirror w)) as Hh by (destruct Hd; by split).
    destruct (write_holds _ _ _ _ _ Hh (fits_record (T:=LogIndex) _ _ tag_truncate_u32 Hf)
      (apply_truncate_record _ i 0 m' Hf Et)) as (w' & -> & Hh' & Hm).
    unfold durable. cbn [fst]. by rewrite Hm.
  - assert (m' = w_mirror w) as ->; [|split; [by destruct w|done]].
    unfold Mem.truncate_from in Et. destruct (N.ltb _ _); [by simplify_eq|].
    by destruct (Mem.position _ _).
Qed.

(** *** Compaction *)

Definition log_fits (m : MemoryLog) : Prop :=
  Forall fits (l_entries m) ∧ fits (l_hard_state m) ∧
  ∀ s, l_snapshot m = Some s → fits (s_meta s).

(** The records a regenerated log holds. *)
Definition regenerated_records (m : MemoryLog) : list Record_ :=
  (match l_snapshot m with
   | Some s => [(TAG_SNAPSHOT, body_of (s_meta s))]
   | None => []
   end) ++ (TAG_HARD_STATE, body_of (l_hard_state m))
  :: ((λ e, (TAG_ENTRY, body_of e)) <$> l_entries m).

Lemma append_framed_value {T} `{OxicodeLaws T} out tag (v : T) :
  tag < 2 ^ 32 → fits v →
  append_framed cpu out tag (body_of v) = Ok (out ++ record_bytes cpu tag (body_of v)).
Proof.
  intros Ht Hv. unfold append_framed. rewrite framed_ok by (by apply fits_record). done.
Qed.

Lemma append_entries_bytes (es : list LogEntry) out :
  Forall fits es →
  append_entries cpu out es =
    Ok (out ++ records_bytes ((λ e, (TAG_ENTRY, body_of e)) <$> es)).
Proof.
  intros Hf. revert out. induction Hf as [|e es He Hf IH]; intros out.
  - simpl. by rewrite app_nil_r.
  - cbn [append_entries]. pose proof (fits_body e He) as (-> & _). cbn [wire map_err rbind].
    rewrite (append_framed_value out TAG_ENTRY e tag_entry_u32 He). cbn [rbind].
    rewrite IH, <-app_assoc. done.
Qed.

Lemma regenerated_bytes m :
  log_fits m → regenerated cpu m = Ok (prologue ++ records_bytes (regenerated_records m)).
Proof.
  intros (He & Hh & Hs). unfold regenerated, regenerated_records, Mem.snapshot_meta.
  assert (∀ out, (let? body := wire (encode_to_vec (Mem.hard_state m)) in
    let? out := append_framed cpu out TAG_HARD_STATE body in
    append_entries cpu out (l_entries m)) =
    Ok (out ++ records_bytes ((TAG_HARD_STATE, body_of (l_hard_state m))
         :: ((λ e, (TAG_ENTRY, body_of e)) <$> l_entries m)))) as Htail.
  { intros out. unfold Mem.hard_state. pose proof (fits_body _ Hh) as (-> & _).
    cbn [wire map_err rbind].
    rewrite (append_framed_value out TAG_HARD_STATE _ tag_hard_u32 Hh). cbn [rbind].
    rewrite append_entries_bytes by done. by rewrite <-app_assoc. }
  destruct (l_snapshot m) as [s|]; cbn [fmap option_fmap option_map].
  - pose proof (fits_body _ (Hs s eq_refl)) as (-> & _). cbn [wire map_err rbind].
    rewrite (append_framed_value _ TAG_SNAPSHOT _ tag_snapshot_u32 (Hs s eq_refl)).
    cbn [rbind]. rewrite Htail, <-app_assoc. done.
  - cbn [rbind]. rewrite Htail. done.
Qed.

Lemma regenerated_records_fit m : log_fits m → all_fit (regenerated_records m).
Proof.
  intros (He & Hh & Hs). apply Forall_app_2.
  - destruct (l_snapshot m) as [s|]; [|constructor]. apply Forall_singleton.
    apply fits_record; [apply tag_snapshot_u32|by apply Hs].
  - constructor; [apply fits_record; [apply tag_hard_u32|done]|by apply entries_fit].
Qed.

(** Over the snapshot's own base, a regenerated log replays to the log it
    was made from. *)
Lemma regenerated_replays m s :
  log_fits m → log_wf m → l_snapshot m = Some s →
  apply_records (regenerated_records m) (Mem.install_snapshot memory_log_new s).1 = Ok m.
Proof.
  intros (He & Hh & Hs) Hwf Es. unfold regenerated_records. rewrite Es.
  rewrite apply_records_app. cbn [apply_records fst snd].
  rewrite (apply_snapshot_record _ s 0 (Hs s Es)) by done. cbn [rbind].
  rewrite (apply_hard_record _ _ 0 Hh). cbn [rbind fst Mem.install_snapshot Mem.save_hard_state
    l_entries l_snapshot].
  set (m0 := mkLog (l_hard_state m) [] (Some s)).
  assert (boundary_index m = s_last_index (s_meta s)) as Eb
    by (unfold boundary_index; by rewrite Es).
  pose proof Hwf as [Hc Hb]. rewrite Eb in Hc, Hb.
  assert (log_wf m0) as Hwf0 by (split; [done|]; unfold m0; rewrite boundary_snapshot; simpl; lia).
  assert (Mem.last_index m0 = s_last_index (s_meta s)) as El by done.
  rewrite apply_entry_records by (rewrite ?El; done).
  simpl. destruct m as [h es sn]. simpl in *. by rewrite Es.
Qed.

Lemma parse_sidecar s :
  fits s →
  parse_snapshot cpu (to_le_bytes 2 FORMAT_VERSION ++ record_bytes cpu TAG_SNAPSHOT (body_of s))
    = Ok (Some s).
Proof.
  intros Hf. unfold parse_snapshot.
  rewrite (get_range_head (to_le_bytes 2 FORMAT_VERSION)) by done.
  rewrite (from_to_le 2 FORMAT_VERSION) by done.
  change (N.ltb FORMAT_VERSION FORMAT_VERSION) with false. cbv iota.
  rewrite drop_app_length' by done. rewrite <-(app_nil_r (record_bytes _ _ _)).
  rewrite (read_record_bytes cpu Hcpu) by (apply fits_record; [apply tag_snapshot_u32|done]).
  cbn [rbind]. rewrite N.eqb_refl. pose proof (fits_body s Hf) as (_ & -> & _). done.
Qed.

(** The sidecar, then the regenerated log: the files hold the compacted
    log. *)
Lemma compaction_holds s w :
  io_faults (w_io w) = [] → fits s → log_fits (w_mirror w) → log_wf (w_mirror w) →
  l_snapshot (w_mirror w) = Some s →
  ∃ w', (write_snapshot_sidecar cpu s ;; regenerate cpu) w = (w', Ok tt) ∧
    durable w' ∧ w_mirror w' = w_mirror w.
Proof.
  intros Hc Hf Hfits Hwf Es.
  pose proof (regenerated_bytes _ Hfits) as Hr.
  assert (sidecar_bytes cpu s = Ok (to_le_bytes 2 FORMAT_VERSION ++
    record_bytes cpu TAG_SNAPSHOT (body_of s))) as Hsc.
  { unfold sidecar_bytes. pose proof (fits_body s Hf) as (-> & _). cbn [wire map_err rbind].
    by apply append_framed_value; [apply tag_snapshot_u32|]. }
  set (sc := to_le_bytes 2 FORMAT_VERSION ++ _) in *. set (buf := prologue ++ _) in *.
  exists (mkWal (mkIo (Some buf) (Some sc) []) true (w_mirror w) (w_policy w) 0
    (N.of_nat (length buf)) (w_outcome w)).
  destruct w as [[wal side faults] att m pol uns rec out]. simpl in Hc, Hr, Es. subst faults.
  split; [|split; [|done]].
  - unfold write_snapshot_sidecar, sbind at 1 2. unfold lift_result at 1. rewrite Hsc.
    unfold regenerate, sbind, lift_result, gets, modify, io, sys_effect, sys. simpl.
    rewrite Hr. done.
  - split; [done|done|]. exists (regenerated_records m), (Mem.install_snapshot memory_log_new s).1.
    split; [done|]. split; [by apply regenerated_records_fit|]. split.
    + simpl. unfold sc. by rewrite parse_sidecar.
    + by apply regenerated_replays.
Qed.

Lemma durable_save_snapshot s w :
  durable w → fits s → log_wf (w_mirror w) →
  (s_last_index (s_meta s) <= Mem.last_index (w_mirror w))%N →
  log_fits (Mem.save_snapshot (w_mirror w) s).1 →
  let w' := (wal_save_snapshot cpu s w).1 in
  durable w' ∧ w_mirror w' = (Mem.save_snapshot (w_mirror w) s).1.
Proof.
  intros Hd Hf Hwf Hle Hfits. pose proof (save_snapshot_wf _ s Hwf Hle) as Hwf'.
  unfold wal_save_snapshot. rewrite sbind_eq. unfold on_mirror.
  destruct (Mem.save_snapshot (w_mirror w) s) as [m' r] eqn:E.
  unfold Mem.save_snapshot in E. revert E. split_match; intros E; simplify_eq.
  - split; [by destruct w|done].
  - destruct (compaction_holds s (set_mirror (mkLog (l_hard_state (w_mirror w))
      (filter (λ e, next (s_last_index (s_meta s)) <= e_index e) (l_entries (w_mirror w)))
      (Some s)) w)) as (w' & -> & Hd' & Hm'); try done. apply Hd.
Qed.

Lemma durable_install_snapshot s w :
  durable w → fits s → (s_last_index (s_meta s) < u64_max)%N →
  log_fits (Mem.install_snapshot (w_mirror w) s).1 →
  let w' := (wal_install_snapshot cpu s w).1 in
  durable w' ∧ w_mirror w' = (Mem.install_snapshot (w_mirror w) s).1.
Proof.
  intros Hd Hf Hb Hfits. pose proof (install_snapshot_wf (w_mirror w) s Hb) as Hwf'.
  unfold wal_install_snapshot. rewrite sbind_eq. unfold on_mirror. cbn [Mem.install_snapshot] in *.
  destruct (compaction_holds s (set_mirror (mkLog (l_hard_state (w_mirror w)) [] (Some s)) w))
    as (w' & -> & Hd' & Hm'); try done. apply Hd.
Qed.

(** *** Sequences of operations *)

Definition run_wal_op (w : WalLog) (o : LogOp) : WalLog * Res unit :=
  match o with
  | OpSaveHardState h => wal_save_hard_state cpu h w
  | OpAppend es => wal_append cpu es w
  | OpTruncateFrom i => wal_truncate_from cpu i w
  | OpSaveSnapshot s => wal_save_snapshot cpu s w
  | OpInstallSnapshot s => wal_install_snapshot cpu s w
  end.

Definition run_wal_ops (w : WalLog) (ops : list LogOp) : WalLog :=
  foldl (λ w o, (run_wal_op w o).1) w ops.

(** What an operation writes fits its records, and the log stays below the
    top of the index range. *)
Definition op_ok (m : MemoryLog) (o : LogOp) : Prop :=
  match o with
  | OpSaveHardState h => fits h
  | OpAppend es =>
      Forall fits es ∧ (Mem.last_index m + N.of_nat (length es) < u64_max)%N
  | OpTruncateFrom i => fits (T:=LogIndex) i
  | OpSaveSnapshot s =>
      fits s ∧ (s_last_index (s_meta s) <= Mem.last_index m)%N ∧
      log_fits (Mem.save_snapshot m s).1
  | OpInstallSnapshot s =>
      fits s ∧ (s_last_index (s_meta s) < u64_max)%N ∧
      log_fits (Mem.install_snapshot m s).1
  end.

Fixpoint ops_ok (m : MemoryLog) (ops : list LogOp) : Prop :=
  match ops with
  | [] => True
  | o :: ops => op_ok m o ∧ ops_ok (run_log_op m o).1 ops
  end.

Lemma durable_op o w :
  durable w → log_wf (w_mirror w) → op_ok (w_mirror w) o →
  durable (run_wal_op w o).1 ∧
  w_mirror (run_wal_op w o).1 = (run_log_op (w_mirror w) o).1 ∧
  log_wf (run_log_op (w_mirror w) o).1.
Proof.
  intros Hd Hwf Ho. destruct o as [h|es|i|s|s]; simpl in *.
  - destruct (durable_save_hard_state h w Hd Ho) as [? E]. by rewrite E.
  - destruct Ho as [Hf Hb]. destruct (durable_append es w Hd Hwf Hf Hb) as [? E].
    split; [done|]. split; [done|]. by apply append_wf.
  - destruct (durable_truncate i w Hd Ho) as [? E].
    split; [done|]. split; [done|]. by apply truncate_from_wf.
  - destruct Ho as (Hf & Hl & Hfits).
    destruct (durable_save_snapshot s w Hd Hf Hwf Hl Hfits) as [? E].
    split; [done|]. split; [done|]. by apply save_snapshot_wf.
  - destruct Ho as (Hf & Hl & Hfits).
    destruct (durable_install_snapshot s w Hd Hf Hl Hfits) as [? E].
    split; [done|]. split; [done|]. by apply install_snapshot_wf.
Qed.

Lemma durable_ops ops w :
  durable w → log_wf (w_mirror w) → ops_ok (w_mirror w) ops →
  durable (run_wal_ops w ops) ∧ w_mirror (run_wal_ops w ops) = run_log_ops (w_mirror w) ops.
Proof.
  revert w. induction ops as [|o ops IH]; intros w Hd Hwf; [done|]. intros [Ho Hops].
  destruct (durable_op o w Hd Hwf Ho) as (Hd' & Hm & Hwf'). simpl. rewrite <-Hm in *.
  by apply IH.
Qed.

Definition empty_disk : Io := mkIo None None [].

(** A fresh log. *)
Definition fresh_wal (policy : FsyncPolicy) : WalLog :=
  mkWal (mkIo (Some prologue) None []) true memory_log_new policy 0 (N.of_nat PROLOGUE_LEN) Intact.

Lemma fresh_durable policy : durable (fresh_wal policy).
Proof.
  split; [done|done|]. exists [], memory_log_new. split; [done|]. split; [constructor|done].
Qed.

(** C4. A log that was created, went through a sequence of appends,
    truncations, votes and compactions with every system call succeeding
    (operations the store refuses included), and is then reopened, is the
    log that was closed, found intact.  What the operations write is what the
    reader takes: every entry, vote, index and snapshot encodes to a record of
    at most 64 MiB, indices stay below the top of their range, and a snapshot
    of the log's own entries reaches no further than the log. *)
Theorem wal_survives_restart policy policy' ops :
  ops_ok memory_log_new ops →
  ∃ w0, wal_open cpu policy empty_disk = (w_io w0, Ok w0) ∧
    w_mirror (run_wal_ops w0 ops) = run_log_ops memory_log_new ops ∧
    ∃ w', wal_open cpu policy' (w_io (run_wal_ops w0 ops))
            = (w_io (run_wal_ops w0 ops), Ok w') ∧
      w_mirror w' = run_log_ops memory_log_new ops ∧ w_outcome w' = Intact.
Proof.
  intros Hops. exists (fresh_wal policy). split; [done|].
  destruct (durable_ops ops (fresh_wal policy) (fresh_durable policy)) as [Hd Hm]; [done|done|].
  split; [done|]. eexists. split; [by apply holds_reopens|]. done.
Qed.

(** What a process that is killed leaves behind: the two files. *)
Definition killed (disk : Io) : Io := mkIo (io_wal disk) (io_sidecar disk) [].

(** Opening again what is left of the files gives log [m] and clean files. *)
Definition reopens (disk : Io) (m : MemoryLog) : Prop :=
  ∀ policy, ∃ w, wal_open cpu policy (killed disk) = (w_io w, Ok w) ∧ w_mirror w = m ∧ durable w.

(** Files with part of a record behind the log: the part is cut off. *)
Lemma cut_reopens policy rs base m file sidecar tag body k :
  file = prologue ++ records_bytes rs → all_fit rs → sidecar_base sidecar = Ok base → apply_records rs base = Ok m →
  record_fits tag body → (k < length (record_bytes cpu tag body))%nat →
  ∃ w, wal_open cpu policy (mkIo (Some (file ++ take k (record_bytes cpu tag body))) sidecar []) = (w_io w, Ok w) ∧
    w_mirror w = m ∧ io_wal (w_io w) = Some file ∧ durable w.
Proof.
  intros -> Hfit Hb Hr Hfits Hk. rewrite length_record_bytes in Hk. set (file := prologue ++ records_bytes rs).
  set (torn := file ++ take k (record_bytes cpu tag body)).
  assert (∀ o, replay cpu torn base = Ok (N.of_nat (length file), o, m) →
    (if was_repaired o then take (length file) torn else torn) = file →
    ∃ w, wal_open cpu policy (mkIo (Some torn) sidecar []) = (w_io w, Ok w) ∧
      w_mirror w = m ∧ io_wal (w_io w) = Some file ∧ durable w) as Hopen.
  { intros o Hrep Hfile.
    pose proof (wal_open_existing policy (mkIo (Some torn) sidecar []) _ base _ _ _ eq_refl eq_refl Hb Hrep) as E.
    cbv zeta in E. rewrite Nat2N.id in E. rewrite E. eexists (mkWal _ _ _ _ _ _ _). split; [reflexivity|]. split; [done|].
    assert (io_wal (if was_repaired o then set_wal (Some (take (length file) torn)) (mkIo (Some torn) sidecar [])
                    else mkIo (Some torn) sidecar []) = Some file) as Hw
      by (revert Hfile; destruct (was_repaired o); cbn [set_wal io_wal]; by intros ->).
    split; [done|]. split; [done|by destruct (was_repaired o)|].
    exists rs, base. split; [exact Hw|]. split; [done|]. split; [by destruct (was_repaired o)|done]. }
  destruct (decide (k = 0%nat)) as [->|Hk0].
  - apply (Hopen Intact); unfold torn; rewrite take_0, app_nil_r; [|done]. by apply replay_file.
  - apply (Hopen TornTail); unfold torn; [|by rewrite take_app_length].
    unfold file. rewrite <-app_assoc. apply replay_torn; (done || lia).
Qed.

(** C5. A record cut short by a failing write is repaired on the next
    open: the log comes back as it was before that write, and the file is
    again a clean run of records. *)
Theorem torn_write_is_repaired policy w tag body k :
  durable w → record_fits tag body → (k < length (record_bytes cpu tag body))%nat →
  let '(w1, r) := write_record cpu tag body
        (set_io (mkIo (io_wal (w_io w)) (io_sidecar (w_io w)) [Some k]) w) in
  (∃ e, r = Err e) ∧
  ∃ w2, wal_open cpu policy (w_io w1) = (w_io w2, Ok w2) ∧
    w_mirror w2 = w_mirror w ∧ io_wal (w_io w2) = io_wal (w_io w) ∧ durable w2.
Proof.
  intros [Ha Hc (rs & base & Hf & Hfit & Hb & Hr)] Hfits Hk.
  destruct w as [[wal sc faults] att m pol uns rec out]. simpl in *. subst.
  unfold write_record, sbind, lift_result. rewrite (framed_ok cpu tag body Hfits).
  cbn [w_attached set_io]. unfold io, sys_append, next_fault.
  cbn [w_io set_io io_faults set_wal io_wal io_sidecar].
  split; [eauto|]. by apply (cut_reopens policy rs base m).
Qed.

(** The writer frames a body of up to 4 GiB, the reader refuses one
    over 64 MiB: a record in between is accepted and synced, and the log
    can no longer be opened, every entry before it included. *)
Theorem oversized_record_is_written_unreadable policy w tag body :
  durable w → tag < 2 ^ 32 →
  MAX_RECORD_BODY < N.of_nat (length body) → N.of_nat (length body) <= u32_max →
  ∃ w', write_record cpu tag body w = (w', Ok tt) ∧
    wal_open cpu policy (w_io w') = (w_io w', Err (Corrupt
      (N.of_nat (length (default [] (io_wal (w_io w)))))
      "a record declares a body larger than this build will read")).
Proof.
  intros [Ha Hc (rs & base & Hf & Hfit & Hb & Hr)] Ht Hl Hu.
  destruct (write_record_calm tag body w Ha Hc Hu) as [u ->]. eexists. split; [done|].
  cbn [set_unsynced set_io w_io]. rewrite Hf. cbn [from_option].
  apply (wal_open_fails _ _ (prologue ++ records_bytes rs ++ record_bytes cpu tag body) base);
    [done|by rewrite app_assoc|exact Hb|].
  eapply replay_oversized; [done|done|done|done|]. eapply N.le_lt_trans; [exact Hu|by vm_compute].
Qed.

(** *** Calls that fail *)

(** The store with no system call about to fail. *)
Definition calm (w : WalLog) : WalLog := set_io (killed (w_io w)) w.

(** A computation that succeeds meets no fault: it does the same in a calm
    store. *)
Definition calmable {A} (m : WM A) : Prop := ∀ w w' a, m w = (w', Ok a) → m (calm w) = (calm w', Ok a).

Lemma calmable_bind {A B} (m : WM A) (k : A → WM B) : calmable m → (∀ a, calmable (k a)) → calmable (sbind m k).
Proof.
  intros Hm Hk w w' b (w1 & a & E1 & E2)%sbind_ok. rewrite sbind_eq, (Hm _ _ _ E1). by apply Hk.
Qed.

Lemma calmable_lift {A} (r : Res A) : calmable (lift_result r).
Proof. intros w w' a [= <- ->]. done. Qed.

Lemma calmable_modify f : (∀ w, f (calm w) = calm (f w)) → calmable (modify f).
Proof. intros Hf w w' [] [= <-]. unfold modify. by rewrite Hf. Qed.

Lemma calmable_gets {A} (f : WalLog → A) : (∀ w, f (calm w) = f w) → calmable (gets f).
Proof. intros Hf w w' a [= <- <-]. unfold gets. by rewrite Hf. Qed.

Lemma calmable_sys what : calmable (io (sys what)).
Proof.
  intros [[wal sc [|[|] fs]] att m pol uns rec out] w' [] Hrun; cbn in Hrun; by simplify_eq.
Qed.

Lemma calmable_append what bytes : calmable (io (sys_append what bytes)).
Proof.
  intros [[wal sc [|[|] fs]] att m pol uns rec out] w' [] Hrun; cbn in Hrun; by simplify_eq.
Qed.

Lemma calmable_effect what f :
  (∀ disk, killed (f disk) = f (killed disk)) → calmable (io (sys_effect what f)).
Proof.
  intros Hf [[wal sc [|[|] fs]] att m pol uns rec out] w' [] Hrun; cbn in Hrun; simplify_eq;
    unfold calm; cbn [w_io set_io]; rewrite Hf; done.
Qed.

Lemma calmable_on_mirror f : calmable (on_mirror f).
Proof. intros w w' a Hrun. unfold on_mirror in *. cbn. destruct (f (w_mirror w)) as [m r]. by injection Hrun as <- ->. Qed.

Create HintDb calm discriminated.
#[local] Hint Resolve calmable_lift calmable_sys calmable_append calmable_on_mirror : calm.
#[local] Hint Extern 1 (calmable (io (sys_effect _ _))) => (apply calmable_effect; intros; reflexivity) : calm.
#[local] Hint Extern 1 (calmable (modify _)) => (apply calmable_modify; intros; reflexivity) : calm.
#[local] Hint Extern 1 (calmable (gets _)) => (apply calmable_gets; intros; reflexivity) : calm.
#[local] Hint Extern 2 (calmable (sbind _ _)) => (apply calmable_bind; [|intros ?]) : calm.

Lemma write_record_calmable tag body : calmable (write_record cpu tag body).
Proof.
  unfold write_record. apply calmable_bind; [auto with calm|]. intros bytes.
  apply calmable_bind.
  { intros w w' a. change (w_attached (calm w)) with (w_attached w). destruct (w_attached w); [apply calmable_append|apply calmable_sys]. }
  intros []. apply calmable_bind; [auto with calm|]. intros [] w w' []. rewrite !(sbind_eq (gets _)). unfold gets. cbv beta iota.
  change (w_policy (calm w)) with (w_policy w). change (w_unsynced (calm w)) with (w_unsynced w).
  destruct (should_sync _ _); [|by intros [= <-]]. unfold wal_sync. apply calmable_bind; auto with calm.
Qed.
#[local] Hint Resolve write_record_calmable : calm.

Lemma for_each_calmable {A} (f : A → WM unit) l : (∀ x, calmable (f x)) → calmable (for_each f l).
Proof. intros Hf. induction l as [|x l IH]; cbn [for_each]; [by intros w w' [] [= <-]|]. by apply calmable_bind. Qed.

Lemma run_wal_op_calm o : calmable (λ w, run_wal_op w o).
Proof.
  destruct o as [h|es|i|s|s]; cbn [run_wal_op].
  - apply (calmable_bind (lift_result _)); auto with calm.
  - apply (calmable_bind (gets w_mirror)); [auto with calm|]. intros m. apply calmable_bind; [auto with calm|]. intros [].
    apply calmable_bind; [|auto with calm]. apply for_each_calmable. auto with calm.
  - apply (calmable_bind (on_mirror _)); auto with calm.
  - apply (calmable_bind (on_mirror _)); [auto with calm|]. unfold write_snapshot_sidecar, regenerate. intros []. auto 20 with calm.
  - apply (calmable_bind (on_mirror _)); [auto with calm|]. unfold write_snapshot_sidecar, regenerate. intros []. auto 20 with calm.
Qed.

Lemma killed_calm w : w_io (calm w) = killed (w_io w).
Proof. done. Qed.

Lemma holds_calm_reopens w m : holds (calm w) m → reopens (w_io w) m.
Proof.
  intros Hh policy. rewrite <-killed_calm, (holds_reopens (calm w) m policy Hh).
  match goal with |- ∃ _, (_, Ok ?x) = _ ∧ _ => exists x end. split; [reflexivity|]. split; [done|].
  destruct Hh as [Ha Hc Hf]. by split.
Qed.

(** A record that is written, or not written to the end. *)
Lemma write_record_faults tag body w :
  w_attached w = true → N.of_nat (length body) <= u32_max →
  let '(w', r) := write_record cpu tag body w in
  w_mirror w' = w_mirror w ∧ w_attached w' = true ∧ ∃ k,
    killed (w_io w') = mkIo (Some (default [] (io_wal (w_io w)) ++ take k (record_bytes cpu tag body))) (io_sidecar (w_io w)) [].
Proof.
  intros Ha Hl. destruct w as [[wal sc faults] att m pol uns rec out]. cbn in Ha. subst att.
  unfold write_record, sbind, lift_result, framed. rewrite (proj2 (N.ltb_ge _ _)) by done. cbn [w_attached].
  set (bytes := record_bytes cpu tag body). clearbody bytes.
  assert (take (length bytes) bytes = bytes) as Hall by (by rewrite firstn_all).
  destruct faults as [|[k|] fs]; cbn.
  - destruct (should_sync _ _); cbn; split_and!; try done; exists (length bytes); by rewrite Hall.
  - split_and!; try done. by exists k.
  - destruct (should_sync _ _); [|cbn; split_and!; try done; exists (length bytes); by rewrite Hall].
    destruct fs as [|[]]; cbn; split_and!; try done; exists (length bytes); by rewrite Hall.
Qed.

(** The files after a record is written or half written. *)
Lemma write_reopens tag body w w' r m m' :
  holds (calm w) m → record_fits tag body → apply_record tag body m 0 = Ok m' → write_record cpu tag body w = (w', r) →
  w_mirror w' = w_mirror w ∧
  match r with Ok _ => holds (calm w') m' | Err _ => reopens (w_io w') m ∨ reopens (w_io w') m' end.
Proof.
  intros Hh Hfits Happ E. pose proof Hh as [Ha _ (rs & base & Hf & Hfit & Hb & Hr)].
  pose proof (write_record_faults tag body w Ha (record_len_max _ _ Hfits)) as Hw. rewrite E in Hw. destruct Hw as (Hm & Ha' & k & Hk).
  split; [done|]. destruct r as [[]|e].
  { apply write_record_calmable in E. destruct (write_holds tag body (calm w) m m' Hh Hfits Happ) as (w2 & E2 & Hh2 & _).
    rewrite E in E2. by injection E2 as <-. }
  cbn [calm set_io w_io killed io_wal io_sidecar] in Hf, Hb. rewrite Hf in Hk. cbn [default] in Hk.
  destruct (decide (k < length (record_bytes cpu tag body))%nat) as [Hlt|Hge].
  - left. intros policy. rewrite Hk.
    destruct (cut_reopens policy rs base m _ (io_sidecar (w_io w)) tag body k eq_refl Hfit Hb Hr Hfits Hlt) as (w2 & Ho & Hm2 & _ & Hd). by exists w2.
  - right. apply holds_calm_reopens. split; [done|done|]. exists (rs ++ [(tag, body)]), base. rewrite killed_calm, Hk. cbn [io_wal io_sidecar].
    rewrite take_ge by lia. split; [by rewrite records_bytes_app, records_bytes_one, app_assoc|].
    split; [apply Forall_app_2; [done|by apply Forall_singleton]|]. split; [done|]. rewrite apply_records_app, Hr. cbn. by rewrite Happ.
Qed.

(** Entry after entry until one fails: a prefix of them is on disk. *)
Lemma write_entries_reopens es w w' r m :
  holds (calm w) m → Forall fits es → log_wf m → contiguous_from (Mem.last_index m + 1) es →
  (Mem.last_index m + N.of_nat (length es) < u64_max)%N →
  for_each (λ e, body <- lift_result (wire (encode_to_vec e)) ;; write_record cpu TAG_ENTRY body) es w = (w', r) →
  w_mirror w' = w_mirror w ∧
  match r with
  | Ok _ => True
  | Err _ => ∃ k, reopens (w_io w') (mkLog (l_hard_state m) (l_entries m ++ take k es) (l_snapshot m))
  end.
Proof.
  intros Hh Hf. revert w m Hh. induction Hf as [|e es He Hf IH]; intros w m Hh Hwf Hc Hb E; [by injection E as <- <-|].
  destruct Hc as [Hi Hc]. cbn [length] in Hb. cbn [for_each] in E. rewrite !sbind_eq in E. unfold lift_result in E.
  pose proof (fits_body e He) as (Hbody & _). rewrite Hbody in E. cbn [wire map_err] in E.
  pose proof (apply_entry_record m e 0 He Hwf Hi ltac:(lia)) as Happ.
  destruct (write_record cpu TAG_ENTRY (body_of e) w) as [w1 r1] eqn:E1.
  destruct (write_reopens _ _ _ _ _ _ _ Hh (fits_record _ _ tag_entry_u32 He) Happ E1) as [Hm1 H1].
  destruct r1 as [[]|err].
  - destruct (wf_snoc m e Hwf Hi ltac:(lia)) as [Hwf' Hl'].
    pose proof (IH w1 _ H1 Hwf' ltac:(rewrite Hl', Hi; done) ltac:(rewrite Hl', Hi; lia) E) as [Hm Hr].
    rewrite Hm, Hm1. split; [done|]. destruct r; [done|]. destruct Hr as [k Hr]. exists (S k). cbn [take]. cbn [l_entries l_hard_state l_snapshot] in Hr.
    by rewrite <-app_assoc in Hr.
  - injection E as <- <-. split; [done|]. destruct H1 as [H1|H1]; [exists 0%nat; rewrite take_0, app_nil_r; by destruct m|by exists 1%nat].
Qed.

(** Where a call that fails can leave the files. *)
Definition interrupted (o : LogOp) (m found : MemoryLog) : Prop :=
  match o with
  | OpAppend es => ∃ k, found = mkLog (l_hard_state m) (l_entries m ++ take k es) (l_snapshot m)
  | _ => found = m ∨ found = (run_log_op m o).1
  end.

(** The calls that append to the log file, unlike those that replace it. *)
Definition appends (o : LogOp) : bool :=
  match o with OpSaveHardState _ | OpAppend _ | OpTruncateFrom _ => true | _ => false end.

Lemma run_wal_op_mutates o w :
  mutates (w_mirror w) (w_mirror (run_wal_op w o).1) (run_wal_op w o).2 (run_log_op (w_mirror w) o).
Proof.
  destruct o as [h|es|i|s|s]; cbn [run_wal_op run_log_op].
  - apply (save_hard_state_law (LogStoreLaws := WalLog_laws cpu)).
  - apply (append_law (LogStoreLaws := WalLog_laws cpu)).
  - apply (truncate_from_law (LogStoreLaws := WalLog_laws cpu)).
  - apply (save_snapshot_law (LogStoreLaws := WalLog_laws cpu)).
  - apply (install_snapshot_law (LogStoreLaws := WalLog_laws cpu)).
Qed.

Lemma set_mirror_same w : set_mirror (w_mirror w) w = w.
Proof. by destruct w. Qed.

(** What the in-memory log refuses, the store refuses before it touches the
    disk. *)
Lemma refused_op o w e : (run_log_op (w_mirror w) o).2 = Err e → run_wal_op w o = (w, Err e).
Proof.
  destruct o as [h|es|i|s|s]; cbn [run_wal_op run_log_op]; [done| | | |done].
  - rewrite wal_append_eq. unfold Mem.append. by destruct (check_contiguous _ es) as [[]|]; [|intros [= ->]].
  - unfold wal_truncate_from, Mem.truncate_from. rewrite sbind_eq. unfold on_mirror, Mem.truncate_from.
    destruct (N.ltb _ _); [intros [= ->]; by rewrite set_mirror_same|]. by destruct (Mem.position _ _).
  - unfold wal_save_snapshot, Mem.save_snapshot. rewrite sbind_eq. unfold on_mirror, Mem.save_snapshot.
    split_match; cbn [snd]; intros Herr; simplify_eq; by rewrite set_mirror_same.
Qed.

Lemma refused_same o m m' e : run_log_op m o = (m', Err e) → m' = m.
Proof.
  destruct o as [h|es|i|s|s]; cbn [run_log_op]; intros E; [done| | | |done].
  - unfold Mem.append in E. destruct (check_contiguous _ es); by simplify_eq.
  - unfold Mem.truncate_from in E. destruct (N.ltb _ _); [by simplify_eq|]. by destruct (Mem.position _ _).
  - unfold Mem.save_snapshot in E. revert E. split_match; intros E; by simplify_eq.
Qed.

(** A call that the disk fails. *)
Lemma failed_op o w w' e :
  durable (calm w) → log_wf (w_mirror w) → op_ok (w_mirror w) o → appends o = true → run_wal_op w o = (w', Err e) →
  ∃ found, reopens (w_io w') found ∧ interrupted o (w_mirror w) found.
Proof.
  intros Hd Hwf Ho Happ E. destruct (run_log_op (w_mirror w) o) as [m' [[]|e']] eqn:Er.
  2: { rewrite (refused_op o w e') in E by (by rewrite Er). injection E as <- _. exists (w_mirror w).
       split; [by apply holds_calm_reopens|]. destruct o; cbn; try by left. exists 0%nat. rewrite take_0, app_nil_r. by destruct (w_mirror w). }
  destruct o as [h|es|i|s|s]; cbn [run_wal_op run_log_op op_ok interrupted] in *; try done.
  - unfold wal_save_hard_state in E. rewrite !sbind_eq in E. unfold lift_result in E.
    pose proof (fits_body h Ho) as (Hb & _). rewrite Hb in E. cbn [wire map_err] in E. rewrite sbind_eq in E.
    destruct (write_record _ _ _ w) as [w1 r1] eqn:E1.
    destruct (write_reopens _ _ _ _ _ _ _ Hd (fits_record _ _ tag_hard_u32 Ho) (apply_hard_record (w_mirror w) h 0 Ho) E1) as [_ H1].
    destruct r1 as [[]|err]; [done|]. injection E as <- _. destruct H1 as [H1|H1]; (eexists; split; [exact H1|]); [by left|by right].
  - destruct Ho as [Hf Hb]. rewrite wal_append_eq in E. destruct (check_contiguous _ es) as [[]|] eqn:Ec.
    2: { unfold Mem.append in Er. by rewrite Ec in Er. }
    pose proof Ec as Ec'. unfold check_contiguous in Ec'. rewrite next_lt in Ec' by lia. apply check_contiguous_from_spec in Ec'; [|lia].
    rewrite sbind_eq in E. destruct (for_each _ es w) as [w1 r1] eqn:E1.
    pose proof (write_entries_reopens es w w1 r1 _ Hd Hf Hwf Ec' Hb E1) as [Hm H1]. destruct r1 as [[]|err].
    + unfold on_mirror in E. rewrite Hm in E. unfold Mem.append in E. by rewrite Ec in E.
    + injection E as <- _. destruct H1 as [k H1]. eexists. split; [exact H1|]. by exists k.
  - unfold wal_truncate_from in E. rewrite !sbind_eq in E. unfold on_mirror in E. rewrite Er in E.
    rewrite sbind_eq in E. unfold lift_result in E. pose proof (fits_body (T:=LogIndex) i Ho) as (Hb & _). rewrite Hb in E. cbn [wire map_err] in E.
    assert (holds (calm (set_mirror m' w)) (w_mirror w)) as Hh by (destruct Hd; by split).
    destruct (write_reopens _ _ _ _ _ _ _ Hh (fits_record (T:=LogIndex) _ _ tag_truncate_u32 Ho) (apply_truncate_record _ i 0 m' Ho Er) E) as [_ H1].
    rewrite Er. destruct H1 as [H1|H1]; (eexists; split; [exact H1|]); [by left|by right].
Qed.

(** A call with the result the in-memory log gives leaves the store on disk. *)
Lemma settled_op o w :
  durable (calm w) → log_wf (w_mirror w) → op_ok (w_mirror w) o → (run_wal_op w o).2 = (run_log_op (w_mirror w) o).2 →
  durable (calm (run_wal_op w o).1) ∧ w_mirror (run_wal_op w o).1 = (run_log_op (w_mirror w) o).1 ∧
  log_wf (run_log_op (w_mirror w) o).1.
Proof.
  intros Hd Hwf Ho Hr. destruct (durable_op o (calm w) Hd Hwf Ho) as (Hd' & Hm & Hwf').
  destruct (run_log_op (w_mirror w) o) as [m' [[]|e]] eqn:Er.
  - destruct (run_wal_op w o) as [w' r] eqn:Ew. cbn in Hr. subst r.
    pose proof (run_wal_op_calm o _ _ _ Ew) as Ec. cbn beta in Ec. rewrite Ec in Hd', Hm. split; [done|].
    change (w_mirror (calm w)) with (w_mirror w) in Hm, Hwf'. rewrite Er in Hm, Hwf'. by split.
  - rewrite (refused_op o w e) by (by rewrite Er). apply refused_same in Er as ->. done.
Qed.

(** Every call so far gave the in-memory log's result: none was failed by
    the disk. *)
Fixpoint settled (w : WalLog) (ops : list LogOp) : Prop :=
  match ops with
  | [] => True
  | o :: ops => (run_wal_op w o).2 = (run_log_op (w_mirror w) o).2 ∧ settled (run_wal_op w o).1 ops
  end.

Lemma settled_ops ops o w :
  durable (calm w) → log_wf (w_mirror w) → ops_ok (w_mirror w) (ops ++ [o]) → settled w ops →
  let w' := run_wal_ops w ops in
  durable (calm w') ∧ log_wf (w_mirror w') ∧ w_mirror w' = run_log_ops (w_mirror w) ops ∧ op_ok (w_mirror w') o.
Proof.
  revert w. induction ops as [|x ops IH]; intros w Hd Hwf [Ho Hops] Hs; [done|]. destruct Hs as [Hr Hs].
  destruct (settled_op x w Hd Hwf Ho Hr) as (Hd' & Hm & Hwf'). rewrite <-Hm in Hops, Hwf'.
  destruct (IH _ Hd' Hwf' Hops Hs) as (H1 & H2 & H3 & H4). cbn. rewrite <-Hm. done.
Qed.

(** C39. On a disk that may fail any call, and any write at any byte: as
    long as no call has been failed by it, the store and the files hold what an
    in-memory log holds, so that what was acknowledged is there when the
    process is killed and the log reopened.  The next call either succeeds,
    and then its effect too is in the files; or fails, and then the store
    reads as before it or as after it, and, for a vote, an append or a
    truncation, reopening gives the log before the call, or after it, or with
    the first of the entries appended.  What the operations write encodes to
    records of at most 64 MiB, and indices stay in range ([ops_ok]). *)
Theorem acknowledged_calls_are_durable policy faults ops o :
  let w0 := set_io (mkIo (Some prologue) None faults) (fresh_wal policy) in
  ops_ok memory_log_new (ops ++ [o]) → settled w0 ops →
  let w := run_wal_ops w0 ops in
  let m := run_log_ops memory_log_new ops in
  w_mirror w = m ∧ reopens (w_io w) m ∧
  let '(w', r) := run_wal_op w o in
  match r with
  | Ok _ => run_log_op m o = (w_mirror w', Ok tt) ∧ reopens (w_io w') (w_mirror w')
  | Err _ =>
      (w_mirror w' = m ∨ w_mirror w' = (run_log_op m o).1) ∧
      (appends o = true → ∃ found, reopens (w_io w') found ∧ interrupted o m found)
  end.
Proof.
  intros w0 Hops Hs w m.
  destruct (settled_ops ops o w0 (fresh_durable policy) ltac:(done) Hops Hs) as (Hd & Hwf & Hm & Ho). fold w in Hd, Hwf, Hm, Ho.
  change (run_log_ops (w_mirror w0) ops) with m in Hm. split; [done|]. split; [rewrite <-Hm; by apply holds_calm_reopens|].
  pose proof (run_wal_op_mutates o w) as Hmu. rewrite <-Hm. destruct (run_wal_op w o) as [w' r] eqn:E. cbn [fst snd] in Hmu.
  destruct r as [[]|e].
  - destruct Hmu as [[Hv Hr]|[_ [? ?]]]; [|done]. split; [rewrite Hv, Hr; by destruct (run_log_op (w_mirror w) o)|].
    destruct (settled_op o w Hd Hwf Ho) as (Hd' & _); [by rewrite E|]. rewrite E in Hd'. by apply holds_calm_reopens.
  - split; [destruct Hmu as [[Hv _]|[Hv _]]; [by right|done]|]. intros Happ. by eapply failed_op.
Qed.
End durability.
