(* ===== verification/RaftWalScenarios.v ===== *)
(** * The write-ahead log, evaluated

    A concrete payload encoding, so that the model of [RaftWal] runs; the
    executions that witness its theorems; and two interrupted operations
    after which a log cannot be opened. *)

From Stdlib Require Import Lia.
From stdpp Require Import base tactics list gmap strings numbers.
From S2P Require Import Prelude RaftTypes RaftMembership RaftLog Crc32c WireFrame RaftWal.

Open Scope N_scope.

(** ** A plain encoding

    Numbers in unary, lists behind their length.  It has the laws the log
    relies on; nothing else about it matters. *)

Class Bin (T : Type) := {
  bin_enc : T → list N;
  bin_dec : list N → option (T * list N)
}.

Class BinLaws (T : Type) `{Bin T} := {
  bin_roundtrip v rest : bin_dec (bin_enc v ++ rest) = Some (v, rest);
  bin_bytes v : Forall is_byte (bin_enc v)
}.

Fixpoint unary_dec (bytes : list N) : option (N * list N) :=
  match bytes with
  | 0 :: rest => Some (0, rest)
  | 1 :: rest => match unary_dec rest with Some (n, rest) => Some (N.succ n, rest) | None => None end
  | _ => None
  end.

#[global] Instance bin_N : Bin N := {
  bin_enc n := replicate (N.to_nat n) 1 ++ [0];
  bin_dec := unary_dec
}.

#[global] Instance bin_N_laws : BinLaws N.
Proof.
  split.
  - intros v rest. simpl. rewrite <-app_assoc. rewrite <-(N2Nat.id v) at 2.
    cbn [app]. induction (N.to_nat v) as [|k IH]; [done|]. cbn [replicate app unary_dec].
    rewrite IH. do 2 f_equal. lia.
  - intros v. apply Forall_app_2; [|by repeat constructor].
    apply Forall_replicate. by vm_compute.
Qed.

#[global] Instance bin_pair {A B} `{Bin A, Bin B} : Bin (A * B) := {
  bin_enc p := bin_enc p.1 ++ bin_enc p.2;
  bin_dec bytes :=
    match bin_dec bytes with
    | Some (a, rest) =>
        match bin_dec rest with Some (b, rest) => Some ((a, b), rest) | None => None end
    | None => None
    end
}.

#[global] Instance bin_pair_laws {A B} `{BinLaws A, BinLaws B} : BinLaws (A * B).
Proof.
  split.
  - intros [a b] rest. simpl. rewrite <-app_assoc, !bin_roundtrip. done.
  - intros [a b]. apply Forall_app_2; apply bin_bytes.
Qed.

Fixpoint list_dec {A} `{Bin A} (n : nat) (bytes : list N) : option (list A * list N) :=
  match n with
  | O => Some ([], bytes)
  | S n =>
      match bin_dec bytes with
      | Some (a, rest) =>
          match list_dec n rest with Some (l, rest) => Some (a :: l, rest) | None => None end
      | None => None
      end
  end.

#[global] Instance bin_list {A} `{Bin A} : Bin (list A) := {
  bin_enc l := bin_enc (N.of_nat (length l)) ++ mjoin (bin_enc <$> l);
  bin_dec bytes :=
    match bin_dec bytes with
    | Some (n, rest) => list_dec (N.to_nat n) rest
    | None => None
    end
}.

#[global] Instance bin_list_laws {A} `{BinLaws A} : BinLaws (list A).
Proof.
  split.
  - intros l rest. cbn [bin_enc bin_dec bin_list]. rewrite <-app_assoc, (bin_roundtrip (T:=N)).
    rewrite Nat2N.id. induction l as [|a l IH]; [done|].
    change (mjoin (bin_enc <$> a :: l)) with (bin_enc a ++ mjoin (bin_enc <$> l)).
    rewrite <-app_assoc. cbn [length list_dec]. rewrite bin_roundtrip, IH. done.
  - intros l. apply Forall_app_2; [apply bin_bytes|].
    induction l as [|a l IH]; [constructor|]. apply Forall_app_2; [apply bin_bytes|done].
Qed.

(** Encoding through another type. *)
Definition bin_via {A B} `{Bin B} (to : A → B) (from : B → A) : Bin A := {|
  bin_enc a := bin_enc (to a);
  bin_dec bytes := match bin_dec bytes with Some (b, rest) => Some (from b, rest) | None => None end
|}.

Lemma bin_via_laws {A B} `{BinLaws B} (to : A → B) (from : B → A) :
  (∀ a, from (to a) = a) → @BinLaws A (bin_via to from).
Proof.
  intros Hi. split.
  - intros v rest. simpl. by rewrite (bin_roundtrip (T:=B)), Hi.
  - intros v. exact (bin_bytes (to v)).
Qed.

Definition membership_to (m : Membership) : list N := elements (voters m).
Definition membership_from (l : list N) : Membership := mkMembership (list_to_set l).

Lemma membership_iso m : membership_from (membership_to m) = m.
Proof.
  destruct m as [v]. unfold membership_from, membership_to. simpl.
  by rewrite list_to_set_elements_L.
Qed.

#[global] Instance bin_membership : Bin Membership := bin_via membership_to membership_from.
#[global] Instance bin_membership_laws : BinLaws Membership := bin_via_laws _ _ membership_iso.

Definition option_to {A} (o : option A) : list A := match o with Some a => [a] | None => [] end.
Definition option_from {A} (l : list A) : option A := match l with a :: _ => Some a | [] => None end.

Definition hard_to (h : HardState) : N * list N := (h_term h, option_to (h_voted_for h)).
Definition hard_from (p : N * list N) : HardState := mkHard p.1 (option_from p.2).

Lemma hard_iso h : hard_from (hard_to h) = h.
Proof. by destruct h as [t [v|]]. Qed.

#[global] Instance bin_hard : Bin HardState := bin_via hard_to hard_from.
#[global] Instance bin_hard_laws : BinLaws HardState := bin_via_laws _ _ hard_iso.

Definition payload_to (p : EntryPayload) : N * list N :=
  match p with
  | Command c => (0, c)
  | Noop => (1, [])
  | Config m => (2, membership_to m)
  end.
Definition payload_from (p : N * list N) : EntryPayload :=
  match p.1 with 0 => Command p.2 | 1 => Noop | _ => Config (membership_from p.2) end.

Definition entry_to (e : LogEntry) : N * (N * (N * list N)) :=
  (e_term e, (e_index e, payload_to (e_payload e))).
Definition entry_from (p : N * (N * (N * list N))) : LogEntry :=
  mkEntry p.1 p.2.1 (payload_from p.2.2).

Lemma entry_iso e : entry_from (entry_to e) = e.
Proof.
  destruct e as [t i [c| |m]]; [done|done|]. unfold entry_from, entry_to. simpl.
  unfold payload_from. simpl. by rewrite membership_iso.
Qed.

#[global] Instance bin_entry : Bin LogEntry := bin_via entry_to entry_from.
#[global] Instance bin_entry_laws : BinLaws LogEntry := bin_via_laws _ _ entry_iso.

Definition meta_to (m : SnapshotMeta) : N * (N * Membership) :=
  (s_last_index m, (s_last_term m, s_membership m)).
Definition meta_from (p : N * (N * Membership)) : SnapshotMeta := mkMeta p.1 p.2.1 p.2.2.

Lemma meta_iso m : meta_from (meta_to m) = m.
Proof. by destruct m. Qed.

#[global] Instance bin_meta : Bin SnapshotMeta := bin_via meta_to meta_from.
#[global] Instance bin_meta_laws : BinLaws SnapshotMeta := bin_via_laws _ _ meta_iso.

Definition snapshot_to (s : Snapshot) : SnapshotMeta * list N := (s_meta s, s_data s).
Definition snapshot_from (p : SnapshotMeta * list N) : Snapshot := mkSnapshot p.1 p.2.

Lemma snapshot_iso s : snapshot_from (snapshot_to s) = s.
Proof. by destruct s. Qed.

#[global] Instance bin_snapshot : Bin Snapshot := bin_via snapshot_to snapshot_from.
#[global] Instance bin_snapshot_laws : BinLaws Snapshot := bin_via_laws _ _ snapshot_iso.

(** As an instance of the codec's interface. *)
Definition plain_oxicode {T} `{Bin T} : Oxicode T := {|
  ox_size v := Ok (length (bin_enc v));
  ox_encode v := (bin_enc v, Ok tt);
  ox_decode bytes :=
    match bin_dec bytes with
    | Some (v, rest) => Ok (v, (length bytes - length rest)%nat)
    | None => Err "malformed"%string
    end
|}.

Lemma plain_oxicode_laws {T} `{BinLaws T} : @OxicodeLaws T plain_oxicode.
Proof.
  split; simpl.
  - intros v bytes rest [= <-]. rewrite bin_roundtrip, length_app. do 2 f_equal. lia.
  - by intros v bytes [= <-].
  - apply bin_bytes.
  - intros bytes v k. destruct (bin_dec bytes) as [[? rest]|]; [|done]. intros [= _ <-]. lia.
Qed.

#[global] Instance plain_wal_codec : WalCodec := {|
  wc_entry := plain_oxicode;
  wc_hard := plain_oxicode;
  wc_index := plain_oxicode;
  wc_meta := plain_oxicode;
  wc_snapshot := plain_oxicode
|}.

#[global] Instance plain_wal_codec_laws : @WalCodecLaws plain_wal_codec.
Proof. split; apply plain_oxicode_laws. Qed.

(** ** Witnesses *)

(** [ops_ok] for the plain encoding, decided. *)
Definition small {T} `{Bin T} (v : T) : bool :=
  N.leb (N.of_nat (length (bin_enc v))) MAX_RECORD_BODY.

Lemma small_fits {T} `{BinLaws T} (v : T) : small v = true → @fits T plain_oxicode v.
Proof.
  intros Hl%N.leb_le. exists (bin_enc v). split; [|done].
  by apply (@encode_to_vec_ok T plain_oxicode plain_oxicode_laws).
Qed.

Lemma small_all_fit {T} `{BinLaws T} (l : list T) :
  forallb small l = true → Forall (@fits T plain_oxicode) l.
Proof.
  intros Hl. apply List.Forall_forall. intros v Hv. apply small_fits.
  by apply (proj1 (forallb_forall _ _) Hl).
Qed.

Definition log_small (m : MemoryLog) : bool :=
  forallb small (l_entries m) && small (l_hard_state m) &&
  match l_snapshot m with Some s => small (s_meta s) | None => true end.

Lemma log_small_fits m : log_small m = true → log_fits m.
Proof.
  unfold log_small. intros [[He Hh]%andb_prop Hs]%andb_prop.
  split; [by apply small_all_fit|]. split; [by apply small_fits|].
  intros s Es. rewrite Es in Hs. by apply small_fits.
Qed.

Definition op_small (m : MemoryLog) (o : LogOp) : bool :=
  match o with
  | OpSaveHardState h => small h
  | OpAppend es =>
      forallb small es && N.ltb (Mem.last_index m + N.of_nat (length es)) u64_max
  | OpTruncateFrom i => small (T:=N) i
  | OpSaveSnapshot s =>
      small s && N.leb (s_last_index (s_meta s)) (Mem.last_index m) &&
      log_small (Mem.save_snapshot m s).1
  | OpInstallSnapshot s =>
      small s && N.ltb (s_last_index (s_meta s)) u64_max &&
      log_small (Mem.install_snapshot m s).1
  end.

Lemma op_small_ok m o : op_small m o = true → op_ok m o.
Proof.
  destruct o as [h|es|i|s|s]; unfold op_small, op_ok; intros Ho.
  - by apply small_fits.
  - apply andb_prop in Ho as [Hs Hl%N.ltb_lt]. split; [by apply small_all_fit|done].
  - by apply (small_fits (T:=N)).
  - apply andb_prop in Ho as [[Hs Hl%N.leb_le]%andb_prop Hm].
    split; [by apply small_fits|]. split; [done|by apply log_small_fits].
  - apply andb_prop in Ho as [[Hs Hl%N.ltb_lt]%andb_prop Hm].
    split; [by apply small_fits|]. split; [done|by apply log_small_fits].
Qed.

Fixpoint ops_small (m : MemoryLog) (ops : list LogOp) : bool :=
  match ops with
  | [] => true
  | o :: ops => op_small m o && ops_small (run_log_op m o).1 ops
  end.

Lemma ops_small_ok m ops : ops_small m ops = true → ops_ok m ops.
Proof.
  revert m. induction ops as [|o ops IH]; intros m; [done|]. cbn [ops_small ops_ok].
  intros [Ho Hops]%andb_prop. split; [by apply op_small_ok|by apply IH].
Qed.

(** Entries, a vote, a compaction, a truncation, and an operation the store
    refuses. *)
Definition sample_ops : list LogOp :=
  [OpAppend sample_entries; OpSaveHardState (mkHard 3 (Some 2));
   OpSaveSnapshot sample_snapshot; OpTruncateFrom 4; OpTruncateFrom 1].

Lemma sample_ops_ok : ops_ok memory_log_new sample_ops.
Proof. apply ops_small_ok. by vm_compute. Qed.

(** The sequence of [sample_ops], closed and reopened. *)
Lemma wal_survives_restart_witness :
  ∃ w0, wal_open NoCrcInstructions Always empty_disk = (w_io w0, Ok w0) ∧
    w_mirror (run_wal_ops NoCrcInstructions w0 sample_ops) = run_log_ops memory_log_new sample_ops ∧
    ∃ w', wal_open NoCrcInstructions Never (w_io (run_wal_ops NoCrcInstructions w0 sample_ops))
            = (w_io (run_wal_ops NoCrcInstructions w0 sample_ops), Ok w') ∧
      w_mirror w' = run_log_ops memory_log_new sample_ops ∧ w_outcome w' = Intact.
Proof. apply (wal_survives_restart NoCrcInstructions I Always Never sample_ops sample_ops_ok). Defined.

(** A three-byte entry record cut after nine bytes. *)
Lemma torn_write_is_repaired_witness :
  let w := fresh_wal Always in
  let '(w1, r) := write_record NoCrcInstructions TAG_ENTRY [1; 2; 3]
        (set_io (mkIo (io_wal (w_io w)) (io_sidecar (w_io w)) [Some 9%nat]) w) in
  (∃ e, r = Err e) ∧
  ∃ w2, wal_open NoCrcInstructions Never (w_io w1) = (w_io w2, Ok w2) ∧
    w_mirror w2 = w_mirror w ∧ io_wal (w_io w2) = io_wal (w_io w) ∧
    durable NoCrcInstructions w2.
Proof.
  apply (torn_write_is_repaired NoCrcInstructions I Never (fresh_wal Always) TAG_ENTRY [1; 2; 3] 9).
  - apply fresh_durable.
  - split; [by vm_compute|]. split; [by repeat constructor|]. vm_compute. discriminate.
  - rewrite length_record_bytes. simpl. lia.
Defined.

(** A disk that fails a write after nine bytes: the entries, the vote
    and the snapshot are acknowledged, the next append is cut in its second
    record, and the log reopens with part of it. *)
Definition full_disk : list (option nat) := replicate 21 None ++ [Some 9%nat].
Definition later_entries : list LogEntry := [mkEntry 3 5 (Command [5]); mkEntry 3 6 (Command [6])].

Lemma acknowledged_calls_are_durable_witness :
  let w := run_wal_ops NoCrcInstructions (set_io (mkIo (Some prologue) None full_disk) (fresh_wal Always)) (take 3 sample_ops) in
  let m := run_log_ops memory_log_new (take 3 sample_ops) in
  ∃ w' e found, w_mirror w = m ∧ run_wal_op NoCrcInstructions w (OpAppend later_entries) = (w', Err e) ∧
    reopens NoCrcInstructions (w_io w') found ∧ interrupted (OpAppend later_entries) m found.
Proof.
  assert (ops_ok memory_log_new (take 3 sample_ops ++ [OpAppend later_entries])) as Hok by (apply ops_small_ok; by vm_compute).
  destruct (acknowledged_calls_are_durable NoCrcInstructions I Always full_disk (take 3 sample_ops) (OpAppend later_entries) Hok)
    as (Hm & _ & Hlast); [repeat split; by vm_compute|].
  intros w m. fold w m in Hm, Hlast.
  destruct (run_wal_op NoCrcInstructions w (OpAppend later_entries)) as [w' [[]|e]] eqn:E.
  - exfalso. vm_compute in E. discriminate E.
  - destruct Hlast as [_ Hl]. destruct (Hl eq_refl) as (found & Hr & Hi). exists w', e, found. auto.
Defined.

(** ** Interrupted operations *)

(** The store's result of opening, without the store. *)
Definition open_result (disk : Io) : Res RecoveryOutcome :=
  let? w := (wal_open NoCrcInstructions Always disk).2 in Ok (w_outcome w).

(** What a process killed [k] bytes into writing the prologue leaves. *)
Definition torn_prologue (k : nat) : Io :=
  killed (wal_open NoCrcInstructions Always
            (mkIo None None [None; None; None; None; Some k])).1.

(** Open, then append. *)
Definition open_and_append (disk : Io) (es : list LogEntry) : Io * Res unit :=
  (w <- wal_open NoCrcInstructions Always ;;
   λ _, let '(w', r) := wal_append NoCrcInstructions es w in (w_io w', r)) disk.

(** A first start killed anywhere in the prologue: the next open repairs
    the file to nothing and writes no prologue, the log then accepts and syncs
    entries, and the open after that refuses the file. *)
Theorem torn_prologue_loses_the_log :
  Forall (λ k,
    open_result (torn_prologue k) = Ok TornTail ∧
    (open_and_append (torn_prologue k) sample_entries).2 = Ok tt ∧
    open_result (open_and_append (torn_prologue k) sample_entries).1 =
      Err (Corrupt 0 "the file does not start with the ASTRSWAL magic")) (seq 0 10).
Proof. repeat constructor; by vm_compute. Qed.

(** What a process killed at the [j]-th system call of the regeneration
    that follows the sidecar leaves. *)
Definition compaction_killed (j : nat) : Io :=
  let w := run_wal_ops NoCrcInstructions (fresh_wal Always) [OpAppend sample_entries] in
  killed (w_io (wal_save_snapshot NoCrcInstructions sample_snapshot
    (set_io (mkIo (io_wal (w_io w)) (io_sidecar (w_io w))
               (replicate (4 + j) None ++ [Some 0%nat])) w)).1).

(** A compaction killed between the sidecar and the regenerated log:
    the sidecar's boundary is installed first, the first entry of the old log
    is below it, and the open fails. *)
Theorem killed_compaction_loses_the_log :
  Forall (λ j, open_result (compaction_killed j) = Err (Compacted 1 3)) (seq 0 4).
Proof. repeat constructor; by vm_compute. Qed.

(** One byte over the reader's bound. *)
Definition oversized_body : list N := replicate (N.to_nat (MAX_RECORD_BODY + 1)) 0.

Lemma length_oversized : N.of_nat (length oversized_body) = MAX_RECORD_BODY + 1.
Proof. unfold oversized_body. by rewrite length_replicate, N2Nat.id. Qed.

Lemma oversized_record_is_written_unreadable_witness :
  ∃ w', write_record NoCrcInstructions TAG_ENTRY oversized_body (fresh_wal Always) = (w', Ok tt) ∧
    wal_open NoCrcInstructions Always (w_io w') = (w_io w', Err (Corrupt
      (N.of_nat (length prologue))
      "a record declares a body larger than this build will read")).
Proof.
  apply (oversized_record_is_written_unreadable NoCrcInstructions I Always (fresh_wal Always)
           TAG_ENTRY oversized_body).
  - apply fresh_durable.
  - by vm_compute.
  - rewrite length_oversized. by vm_compute.
  - rewrite length_oversized. by vm_compute.
Defined.
