(* ===== verification/Text.v ===== *)
(** * Text: Rust strings and decimal numbers

    A [&str] is the list of its Unicode scalar values.  Models what the
    sources use of [str] and of the integer types' [Display] and [FromStr]
    implementations; shared by the components that read or print text. *)

From Stdlib Require Import Lia.
From stdpp Require Import base tactics list strings numbers.
From S2P Require Import Prelude.

Open Scope N_scope.

(** ** Characters and literals *)

Definition char : Set := N.
Definition str : Set := list char.

Definition char_of_ascii (c : Ascii.ascii) : char := Ascii.N_of_ascii c.

(** A string literal of ASCII characters. *)
Fixpoint lit (s : string) : str :=
  match s with
  | EmptyString => []
  | String c rest => char_of_ascii c :: lit rest
  end.

Definition is_ascii_digit (c : char) : bool := N.leb 48 c && N.leb c 57.

(** [char::is_whitespace]: the [White_Space] property. *)
Definition is_whitespace (c : char) : bool :=
  (N.leb 9 c && N.leb c 13) || N.eqb c 32 || N.eqb c 0x85 || N.eqb c 0xA0
  || N.eqb c 0x1680 || (N.leb 0x2000 c && N.leb c 0x200A) || N.eqb c 0x2028
  || N.eqb c 0x2029 || N.eqb c 0x202F || N.eqb c 0x205F || N.eqb c 0x3000.

(** ** Slicing *)

Fixpoint strip_prefix (p s : str) : option str :=
  match p, s with
  | [], _ => Some s
  | c :: p', d :: s' => if N.eqb c d then strip_prefix p' s' else None
  | _ :: _, [] => None
  end.

(** The text before the first character that satisfies [f], and the rest:
    [s.find(f).unwrap_or(s.len())] and the two slices at it. *)
Fixpoint split_at_first (f : char → bool) (s : str) : str * str :=
  match s with
  | [] => ([], [])
  | c :: s' => if f c then ([], s) else let '(a, b) := split_at_first f s' in (c :: a, b)
  end.

(** [s.split_once(sep)] for a one-character separator. *)
Definition split_once (sep : char) (s : str) : option (str * str) :=
  match split_at_first (N.eqb sep) s with
  | (_, []) => None
  | (a, _ :: b) => Some (a, b)
  end.

(** [s.split(sep)] for a one-character separator. *)
Fixpoint split (sep : char) (s : str) : list str :=
  match s with
  | [] => [[]]
  | c :: s' =>
      if N.eqb sep c then [] :: split sep s'
      else match split sep s' with
           | [] => [[c]]
           | w :: ws => (c :: w) :: ws
           end
  end.

Fixpoint trim_start_matches (f : char → bool) (s : str) : str :=
  match s with
  | [] => []
  | c :: s' => if f c then trim_start_matches f s' else s
  end.

Definition trim (s : str) : str :=
  reverse (trim_start_matches is_whitespace (reverse (trim_start_matches is_whitespace s))).

(** ** Unsigned integers as text *)

(** [to_string] of an unsigned integer; its binary length bounds the number
    of digits. *)
Fixpoint decimal_loop (fuel : nat) (n : N) (acc : str) : str :=
  match fuel with
  | O => acc
  | S fuel =>
      let acc := (48 + n mod 10) :: acc in
      if N.eqb (n / 10) 0 then acc else decimal_loop fuel (n / 10) acc
  end.

Definition decimal (n : N) : str := decimal_loop (S (N.size_nat n)) n [].

Inductive IntErrorKind : Set := EmptyInput | InvalidDigit | PosOverflow.

#[global] Instance int_error_eq_dec : EqDecision IntErrorKind.
Proof. solve_decision. Defined.

(** The loop of [str::parse::<uN>()] for an unsigned type of greatest value
    [max]: at each character the digit is checked first, then the product,
    then the sum. *)
Fixpoint parse_digits (max acc : N) (s : str) : result IntErrorKind N :=
  match s with
  | [] => Ok acc
  | c :: s' =>
      if negb (is_ascii_digit c) then Err InvalidDigit
      else if N.ltb max (acc * 10) then Err PosOverflow
      else if N.ltb max (acc * 10 + (c - 48)) then Err PosOverflow
      else parse_digits max (acc * 10 + (c - 48)) s'
  end.

(** A single sign is not a number, and an unsigned type has no minus. *)
Definition parse_uint (max : N) (s : str) : result IntErrorKind N :=
  match s with
  | [] => Err EmptyInput
  | [c] => if N.eqb c 43 || N.eqb c 45 then Err InvalidDigit else parse_digits max 0 s
  | c :: s' => if N.eqb c 43 then parse_digits max 0 s' else parse_digits max 0 s
  end.

Definition u128_max : N := 340282366920938463463374607431768211455.

(** ** Lemmas *)

(** The number a run of digits denotes, after [acc]. *)
Definition digits_value (acc : N) (s : str) : N := foldl (λ v c, v * 10 + (c - 48)) acc s.

Lemma digits_value_ge s acc : acc <= digits_value acc s.
Proof.
  revert acc. induction s as [|c s IH]; intros acc; cbn; [lia|].
  specialize (IH (acc * 10 + (c - 48))). unfold digits_value in IH. lia.
Qed.

Lemma parse_digits_ok max s acc :
  Forall (λ c, is_ascii_digit c = true) s → digits_value acc s <= max →
  parse_digits max acc s = Ok (digits_value acc s).
Proof.
  intros Hs. revert acc. induction Hs as [|c s Hc Hs IH]; intros acc Hm; [done|].
  cbn [parse_digits]. rewrite Hc. cbn [negb].
  pose proof (digits_value_ge s (acc * 10 + (c - 48))) as Hge.
  change (digits_value acc (c :: s)) with (digits_value (acc * 10 + (c - 48)) s) in *.
  destruct (N.ltb_spec max (acc * 10)); [lia|].
  destruct (N.ltb_spec max (acc * 10 + (c - 48))); [lia|]. by apply IH.
Qed.

Lemma size_nat_div10 n : n ≠ 0 → (N.size_nat (n / 10) < N.size_nat n)%nat.
Proof.
  intros Hn. assert (n / 10 <= N.div2 n) as Hle.
  { rewrite N.div2_div. apply N.div_le_compat_l. lia. }
  assert (N.size_nat (n / 10) <= N.size_nat (N.div2 n))%nat as Hs.
  { assert (∀ a b, a <= b → N.size a <= N.size b) as Hm.
    { intros a b Hab. destruct (decide (a = 0)) as [->|Ha]; [apply N.le_0_l|].
      rewrite !N.size_log2 by lia. apply -> N.succ_le_mono. by apply N.log2_le_mono. }
    specialize (Hm _ _ Hle).
    assert (∀ a, N.size a = N.of_nat (N.size_nat a)) as Hsz.
    { intros [|p]; [done|]. simpl. clear. induction p as [p IH|p IH|]; simpl; [..|done]; lia. }
    rewrite !Hsz in Hm. lia. }
  destruct n as [|[p|p|]]; simpl in *; lia.
Qed.

Lemma decimal_loop_spec fuel n acc :
  (N.size_nat n < fuel)%nat →
  ∃ ds, decimal_loop fuel n acc = ds ++ acc ∧ ds ≠ [] ∧
    Forall (λ c, is_ascii_digit c = true) ds ∧
    ∀ v, digits_value v ds = v * 10 ^ N.of_nat (length ds) + n.
Proof.
  revert n acc. induction fuel as [|fuel IH]; intros n acc Hf; [lia|]. cbn [decimal_loop].
  assert (n mod 10 < 10) as Hm by (apply N.mod_lt; lia).
  pose proof (N.div_mod' n 10) as Hdm.
  pose proof (size_nat_div10 n) as Hs.
  revert Hm Hdm Hs. generalize (n mod 10) (n / 10). intros d q Hm Hdm Hs.
  assert (is_ascii_digit (48 + d) = true) as Hd.
  { unfold is_ascii_digit. apply andb_true_iff. split; apply N.leb_le; lia. }
  destruct (N.eqb_spec q 0) as [E|E].
  - exists [48 + d]. split; [done|]. split; [done|]. split; [by apply Forall_singleton|].
    intros v. cbn -[N.add N.sub N.mul]. lia.
  - destruct (IH q ((48 + d) :: acc) ltac:(lia)) as (ds & -> & Hne & Hds & Hv).
    exists (ds ++ [48 + d]). split; [by rewrite <-app_assoc|].
    split; [by destruct ds|]. split; [apply Forall_app_2; [done|by apply Forall_singleton]|].
    intros v. unfold digits_value in *. rewrite foldl_app, Hv, length_app. cbn [foldl length].
    replace (N.of_nat (length ds + 1)) with (N.succ (N.of_nat (length ds))) by lia.
    rewrite N.pow_succ_r'. lia.
Qed.

Lemma decimal_spec n :
  decimal n ≠ [] ∧ Forall (λ c, is_ascii_digit c = true) (decimal n) ∧
  digits_value 0 (decimal n) = n.
Proof.
  destruct (decimal_loop_spec (S (N.size_nat n)) n [] ltac:(lia)) as (ds & E & Hne & Hd & Hv).
  unfold decimal. rewrite E, app_nil_r. split; [done|]. split; [done|]. rewrite Hv. lia.
Qed.

(** A run of digits whose value fits. *)
Lemma parse_uint_digits max s :
  s ≠ [] → Forall (λ c, is_ascii_digit c = true) s → digits_value 0 s <= max →
  parse_uint max s = Ok (digits_value 0 s).
Proof.
  intros Hne Hd Hm. pose proof (parse_digits_ok max s 0 Hd Hm) as Hp.
  destruct s as [|c [|c' s]]; [done|..];
    apply Forall_cons_1 in Hd as [Hc _]; unfold is_ascii_digit in Hc; bool_to_prop; simpl.
  - destruct (N.eqb_spec c 43); [lia|]. by destruct (N.eqb_spec c 45); [lia|].
  - by destruct (N.eqb_spec c 43); [lia|].
Qed.

(** Printing a number that fits a type and parsing it back. *)
Lemma parse_decimal max n : n <= max → parse_uint max (decimal n) = Ok n.
Proof.
  intros Hn. destruct (decimal_spec n) as (Hne & Hd & Hv).
  rewrite parse_uint_digits by (try done; by rewrite Hv). by rewrite Hv.
Qed.

(** Trimming removes what it should and nothing else. *)
Lemma trim_start_app f a b :
  Forall (λ c, f c = true) a → (match b with [] => True | c :: _ => f c = false end) →
  trim_start_matches f (a ++ b) = b.
Proof.
  induction 1 as [|c a Hc Ha IH]; intros Hb; cbn; [|by rewrite Hc, IH].
  destruct b as [|d b]; [done|]. cbn. by rewrite Hb.
Qed.

Lemma trim_app a b c :
  Forall (λ x, is_whitespace x = true) a → Forall (λ x, is_whitespace x = true) c →
  (match b with [] => True | x :: _ => is_whitespace x = false end) →
  (match reverse b with [] => True | x :: _ => is_whitespace x = false end) →
  b ≠ [] → trim (a ++ b ++ c) = b.
Proof.
  intros Ha Hc Hb Hr Hne. unfold trim. rewrite trim_start_app; [|done|by destruct b].
  rewrite reverse_app, trim_start_app; [by apply reverse_involutive|by apply Forall_reverse|done].
Qed.

(** Splitting after a run that does not meet the test. *)
Lemma split_at_first_app f a b :
  Forall (λ c, f c = false) a → (match b with [] => True | c :: _ => f c = true end) →
  split_at_first f (a ++ b) = (a, b).
Proof.
  induction 1 as [|c a Hc Ha IH]; intros Hb; cbn.
  - destruct b as [|d b]; [done|]. cbn. by rewrite Hb.
  - by rewrite Hc, IH.
Qed.

Lemma split_once_app sep a b :
  Forall (λ c, c ≠ sep) a → split_once sep (a ++ sep :: b) = Some (a, b).
Proof.
  intros Ha. unfold split_once. rewrite split_at_first_app; [done| |apply N.eqb_refl].
  eapply Forall_impl; [|exact Ha]. intros c Hc. apply N.eqb_neq. congruence.
Qed.

Lemma strip_prefix_app p s : strip_prefix p (p ++ s) = Some s.
Proof. induction p as [|c p IH]; [done|]. cbn. by rewrite N.eqb_refl. Qed.
