(* ===== verification/TimeHlc.v ===== *)
(** * Hybrid logical clocks

    Models [src/crates/astrs-time/src/timestamp.rs] (the timestamp, its
    packed and textual forms), [hlc.rs] (the clock's send and receive rules),
    [stamped.rs] and the controllable clock of [clock.rs].

    The clock's state is one timestamp; a wall-clock reading is an argument
    of each operation, so readings may stand still, jump forward or step
    back.  The operations take the state's lock once, after the reading: each
    is one atomic step, and sequences of steps cover every interleaving.

    The theorems: the pair of a physical and a logical component behaves as
    one scalar clock ([hlc_is_a_scalar_clock]); timestamps respect causality
    in every distributed execution ([hlc_respects_causality]); the clock runs
    ahead of the wall clocks it has seen by no more than the accepted drift
    and one unit per call ([hlc_stays_near_wall_time]). *)

From Stdlib Require Import Lia.
From stdpp Require Import base tactics list strings numbers relations.
From S2P Require Import Prelude Text.

Open Scope N_scope.

Definition u32_bound : N := 4294967296.
Definition u32_top : N := 4294967295.

(** ** [HlcTimestamp] *)

Record HlcTimestamp := mkTs { physical_ns : N; logical : N }.

#[global] Instance hlc_eq_dec : EqDecision HlcTimestamp.
Proof. solve_decision. Defined.

Definition EPOCH : HlcTimestamp := mkTs 0 0.
Definition MAX : HlcTimestamp := mkTs u64_max u32_top.

(** The derived [Ord]: physical time first. *)
Definition ts_compare (a b : HlcTimestamp) : comparison :=
  match N.compare (physical_ns a) (physical_ns b) with
  | Eq => N.compare (logical a) (logical b)
  | c => c
  end.

Definition ts_lt (a b : HlcTimestamp) : Prop := ts_compare a b = Lt.

(** Both components at their width. *)
Definition ts_ok (t : HlcTimestamp) : Prop := physical_ns t <= u64_max /\ logical t <= u32_top.

Definition as_u128 (t : HlcTimestamp) : N := N.lor (N.shiftl (physical_ns t) 32) (logical t).

Definition from_u128 (packed : N) : HlcTimestamp :=
  mkTs (N.land (N.shiftr packed 32) u64_max) (N.land packed 0xFFFFFFFF).

Definition physical_duration_since (t earlier : HlcTimestamp) : option N :=
  if N.ltb (physical_ns t) (physical_ns earlier) then None
  else Some (physical_ns t - physical_ns earlier).

(** [Display] and [FromStr] *)
Definition ts_to_string (t : HlcTimestamp) : str :=
  decimal (physical_ns t) ++ lit "-" ++ decimal (logical t).

Inductive HlcTimestampParseError : Set :=
  | MissingSeparator (s : str)
  | InvalidPhysical (s : str) (e : IntErrorKind)
  | InvalidLogical (s : str) (e : IntErrorKind).

Definition ts_from_str (s : str) : result HlcTimestampParseError HlcTimestamp :=
  match split_once 45 s with
  | None => Err (MissingSeparator s)
  | Some (phys_str, logical_str) =>
      let? physical_ns := map_err (InvalidPhysical phys_str) (parse_uint u64_max phys_str) in
      let? logical := map_err (InvalidLogical logical_str) (parse_uint u32_top logical_str) in
      Ok (mkTs physical_ns logical)
  end.

(** ** [Stamped] *)

Record Stamped (T : Type) := mkStamped { st_ts : HlcTimestamp; st_inner : T }.
Arguments mkStamped {T} _ _.
Arguments st_ts {T} _.
Arguments st_inner {T} _.

Definition stamped_map {T U} (f : T → U) (s : Stamped T) : Stamped U :=
  mkStamped (st_ts s) (f (st_inner s)).
Definition with_ts {T} (ts : HlcTimestamp) (s : Stamped T) : Stamped T :=
  mkStamped ts (st_inner s).

(** ** [HlcClock] *)

(** Durations are in nanoseconds. *)
Definition DEFAULT_MAX_CLOCK_DRIFT : N := 500000000.

Record HlcDriftError := mkDrift {
  local_wall_ns : N;
  remote_physical_ns : N;
  drift : N;
  drift_limit : N
}.

Record HlcClock := mkClock { clock_state : HlcTimestamp; max_drift : N }.

Definition clock_with_max_drift (d : N) : HlcClock := mkClock EPOCH d.
Definition clock_new : HlcClock := clock_with_max_drift DEFAULT_MAX_CLOCK_DRIFT.
Definition set_max_drift (d : N) (c : HlcClock) : HlcClock := mkClock (clock_state c) d.

Definition successor (physical logical : N) : HlcTimestamp :=
  if N.ltb logical u32_top then mkTs physical (logical + 1)
  else if N.ltb physical u64_max then mkTs (physical + 1) 0
  else MAX.

(** [now], given the wall-clock reading. *)
Definition now (wall_ns : N) (c : HlcClock) : HlcClock * HlcTimestamp :=
  let guard := clock_state c in
  let new := if N.ltb (physical_ns guard) wall_ns then mkTs wall_ns 0
             else successor (physical_ns guard) (logical guard) in
  (mkClock new (max_drift c), new).

Definition update_with (wall_ns : N) (remote : HlcTimestamp) (c : HlcClock) :
    HlcClock * result HlcDriftError HlcTimestamp :=
  let drift_ns := saturating_sub (physical_ns remote) wall_ns in
  let max_drift_ns := N.min (max_drift c) u64_max in
  if N.ltb max_drift_ns drift_ns
  then (c, Err (mkDrift wall_ns (physical_ns remote) drift_ns (max_drift c)))
  else
    let local := clock_state c in
    let l_new := N.max (N.max wall_ns (physical_ns local)) (physical_ns remote) in
    let new :=
      if N.eqb l_new (physical_ns local) && N.eqb l_new (physical_ns remote)
      then successor l_new (N.max (logical local) (logical remote))
      else if N.eqb l_new (physical_ns local) then successor l_new (logical local)
      else if N.eqb l_new (physical_ns remote) then successor l_new (logical remote)
      else mkTs l_new 0 in
    (mkClock new (max_drift c), Ok new).

Definition stamp {T} (wall_ns : N) (inner : T) (c : HlcClock) : HlcClock * Stamped T :=
  let '(c, ts) := now wall_ns c in (c, mkStamped ts inner).

(** ** [ManualClock] *)

(** The wall reading and the monotonic offset. *)
Record ManualClock := mkManual { wall_ns : N; offset_ns : N }.

Definition manual_new (start_wall_ns : N) : ManualClock := mkManual start_wall_ns 0.
Definition set_wall_ns (w : N) (c : ManualClock) : ManualClock := mkManual w (offset_ns c).
Definition advance_clock (dur : N) (c : ManualClock) : ManualClock :=
  let ns := N.min dur u64_max in
  mkManual (saturating_add (wall_ns c) ns) (saturating_add (offset_ns c) ns).
Definition rewind_wall (dur : N) (c : ManualClock) : ManualClock :=
  let ns := N.min dur u64_max in
  mkManual (saturating_sub (wall_ns c) ns) (offset_ns c).

(** ** The packed view *)

(** A timestamp as one number. *)
Lemma lor_shiftl_add a b n : b < 2 ^ n → N.lor (N.shiftl a n) b = a * 2 ^ n + b.
Proof.
  intros Hb. rewrite <-N.shiftl_mul_pow2. symmetry.
  assert (N.land (N.shiftl a n) b = 0) as Hd.
  { apply N.bits_inj_0. intros k. rewrite N.land_spec.
    destruct (N.lt_ge_cases k n) as [Hk|Hk].
    - by rewrite N.shiftl_spec_low by done.
    - apply andb_false_iff. right. destruct (N.eq_dec b 0) as [->|Hz]; [apply N.bits_0|].
      apply N.bits_above_log2. apply N.log2_lt_pow2; [lia|].
      eapply N.lt_le_trans; [exact Hb|]. apply N.pow_le_mono_r; lia. }
  rewrite <-N.lxor_lor by done. by apply N.add_nocarry_lxor.
Qed.

Lemma as_u128_eq t : ts_ok t → as_u128 t = physical_ns t * u32_bound + logical t.
Proof.
  intros [_ Hl]. unfold as_u128. change u32_bound with (2 ^ 32).
  apply lor_shiftl_add. unfold u32_top in Hl. change (2 ^ 32) with 4294967296. lia.
Qed.

Lemma shift32_eq n : N.shiftl n 32 = n * u32_bound.
Proof. by rewrite N.shiftl_mul_pow2. Qed.

(** The largest packed timestamp. *)
Definition TOP : N := as_u128 MAX.

Lemma TOP_eq : TOP = u64_max * u32_bound + u32_top.
Proof. reflexivity. Qed.

Lemma MAX_ok : ts_ok MAX.
Proof. by split. Qed.

Lemma EPOCH_ok : ts_ok EPOCH.
Proof. by split. Qed.

Lemma as_u128_le_top t : ts_ok t → as_u128 t <= TOP.
Proof. intros Ht. rewrite as_u128_eq, TOP_eq by done. destruct Ht. unfold u32_bound. nia. Qed.

Lemma as_u128_inj a b : ts_ok a → ts_ok b → as_u128 a = as_u128 b → a = b.
Proof.
  intros Ha Hb. rewrite !as_u128_eq by done. destruct a as [p l], b as [q m].
  destruct Ha as [_ Hl], Hb as [_ Hm]; cbn in *. unfold u32_bound, u32_top in *. intros E.
  assert (p = q) as -> by lia. f_equal. lia.
Qed.

(** The order of timestamps is the order of their packed forms. *)
Lemma ts_compare_packed a b :
  ts_ok a → ts_ok b → ts_compare a b = N.compare (as_u128 a) (as_u128 b).
Proof.
  intros Ha Hb. rewrite !as_u128_eq by done. destruct Ha as [_ Hl], Hb as [_ Hm].
  unfold ts_compare, u32_bound, u32_top in *. symmetry.
  destruct (N.compare_spec (physical_ns a) (physical_ns b)) as [E|E|E].
  - rewrite E. destruct (N.compare_spec (logical a) (logical b)).
    + apply N.compare_eq_iff. lia.
    + apply N.compare_lt_iff. lia.
    + apply N.compare_gt_iff. lia.
  - apply N.compare_lt_iff. lia.
  - apply N.compare_gt_iff. lia.
Qed.

Lemma ts_lt_packed a b : ts_ok a → ts_ok b → ts_lt a b ↔ as_u128 a < as_u128 b.
Proof. intros Ha Hb. unfold ts_lt. rewrite ts_compare_packed by done. apply N.compare_lt_iff. Qed.

(** ** One step of the clock *)

Lemma successor_packed p l :
  p <= u64_max → l <= u32_top →
  ts_ok (successor p l) ∧ as_u128 (successor p l) = N.min TOP (p * u32_bound + l + 1).
Proof.
  intros Hp Hl. assert (ts_ok (successor p l)) as Hok.
  { unfold successor. repeat split_match; bool_to_prop; split; cbn; unfold u32_top, u64_max in *; lia. }
  split; [done|]. rewrite as_u128_eq, TOP_eq by done.
  unfold successor. repeat split_match; bool_to_prop; cbn [physical_ns logical MAX];
    unfold u32_bound, u32_top, u64_max in *; lia.
Qed.

Lemma now_packed wall c :
  wall <= u64_max → ts_ok (clock_state c) →
  ts_ok (now wall c).2 ∧
  as_u128 (now wall c).2 = N.min TOP (N.max (wall * u32_bound) (as_u128 (clock_state c) + 1)).
Proof.
  intros Hw Hc. pose proof Hc as [Hp Hl]. unfold now.
  destruct (N.ltb_spec (physical_ns (clock_state c)) wall) as [H|H]; cbn [snd].
  - assert (ts_ok (mkTs wall 0)) as Hok by (split; cbn; [done|apply N.le_0_l]).
    split; [done|]. rewrite !as_u128_eq, TOP_eq by done. cbn [physical_ns logical].
    unfold u32_bound, u32_top, u64_max in *. lia.
  - destruct (successor_packed _ _ Hp Hl) as [Hok E]. split; [done|].
    rewrite E, as_u128_eq by done. unfold u32_bound. lia.
Qed.

(** What a timestamp is merged into. *)
Lemma update_packed wall remote c c' t :
  wall <= u64_max → ts_ok (clock_state c) → ts_ok remote →
  update_with wall remote c = (c', Ok t) →
  ts_ok t ∧ c' = mkClock t (max_drift c) ∧ physical_ns remote <= wall + max_drift c ∧
  as_u128 t =
    N.min TOP (N.max (wall * u32_bound) (N.max (as_u128 (clock_state c)) (as_u128 remote) + 1)).
Proof.
  intros Hw Hc Hr. pose proof Hc as [Hp Hl]. pose proof Hr as [Hq Hm]. unfold update_with.
  destruct (N.ltb_spec (N.min (max_drift c) u64_max) (saturating_sub (physical_ns remote) wall))
    as [Hd|Hd]; [done|]. intros [= <- E]. unfold saturating_sub in Hd.
  assert (physical_ns remote <= wall + max_drift c) as Hdr by (unfold u64_max in *; lia).
  rewrite (as_u128_eq (clock_state c)), (as_u128_eq remote) by done.
  set (l_new := N.max (N.max wall (physical_ns (clock_state c))) (physical_ns remote)) in *.
  assert (l_new <= u64_max) as Hn by lia.
  assert (ts_ok t ∧ as_u128 t =
    N.min TOP (N.max (wall * u32_bound) (N.max (physical_ns (clock_state c) * u32_bound +
      logical (clock_state c)) (physical_ns remote * u32_bound + logical remote) + 1))) as [Hok Ht];
    [|by subst]. subst t.
  destruct (N.eqb_spec l_new (physical_ns (clock_state c))) as [E1|E1],
    (N.eqb_spec l_new (physical_ns remote)) as [E2|E2]; cbn [andb].
  - destruct (successor_packed l_new (N.max (logical (clock_state c)) (logical remote)))
      as [? ->]; [lia..|]. split; [done|]. unfold u32_bound. lia.
  - destruct (successor_packed l_new (logical (clock_state c))) as [? ->]; [lia..|].
    split; [done|]. unfold u32_bound, u32_top in *. lia.
  - destruct (successor_packed l_new (logical remote)) as [? ->]; [lia..|].
    split; [done|]. unfold u32_bound, u32_top in *. lia.
  - assert (ts_ok (mkTs l_new 0)) as Hok by (split; cbn; [done|apply N.le_0_l]).
    split; [done|]. rewrite as_u128_eq, TOP_eq by done. cbn [physical_ns logical].
    unfold u32_bound, u32_top, u64_max in *. lia.
Qed.

Lemma update_rejects wall remote c c' e :
  update_with wall remote c = (c', Err e) → physical_ns remote <= u64_max →
  c' = c ∧ wall + max_drift c < physical_ns remote ∧
  e = mkDrift wall (physical_ns remote) (physical_ns remote - wall) (max_drift c).
Proof.
  unfold update_with.
  destruct (N.ltb_spec (N.min (max_drift c) u64_max) (saturating_sub (physical_ns remote) wall))
    as [Hd|Hd]; [|done]. intros [= <- <-] Hr. unfold saturating_sub in *. split_and!; try done. lia.
Qed.
(** ** Distributed executions

    Processes, each with its own clock, stamp local events and sends with
    [now] and merge the timestamp of an earlier event with [update_with] when
    its message arrives; any message may arrive any number of times, late or
    never, and at any wall-clock reading. *)

Inductive event : Set :=
  | Emit (p : nat) (wall : N)
  | Receive (p : nat) (wall : N) (src : nat).

Record stamped_event := mkEv {
  ev_proc : nat;
  ev_from : option nat;
  ev_ts : option HlcTimestamp
}.

Record world := mkWorld { w_clock : nat → HlcClock; w_events : list stamped_event }.

Definition set_clock (p : nat) (c : HlcClock) (w : nat → HlcClock) : nat → HlcClock :=
  λ q, if Nat.eqb q p then c else w q.

Definition run_event (w : world) (e : event) : world :=
  match e with
  | Emit p wall =>
      let '(c, t) := now wall (w_clock w p) in
      mkWorld (set_clock p c (w_clock w)) (w_events w ++ [mkEv p None (Some t)])
  | Receive p wall src =>
      match w_events w !! src with
      | Some (mkEv _ _ (Some remote)) =>
          match update_with wall remote (w_clock w p) with
          | (c, Ok t) =>
              mkWorld (set_clock p c (w_clock w)) (w_events w ++ [mkEv p (Some src) (Some t)])
          | (c, Err _) =>
              mkWorld (set_clock p c (w_clock w)) (w_events w ++ [mkEv p (Some src) None])
          end
      | _ => w
      end
  end.

Definition run (w : world) (es : list event) : world := foldl run_event w es.

Definition event_wall (e : event) : N :=
  match e with Emit _ w | Receive _ w _ => w end.

(** Two stamped events in program order, or a message and its accepted
    receipt. *)
Definition precedes (l : list stamped_event) (i j : nat) : Prop :=
  ∃ a b, l !! i = Some a ∧ l !! j = Some b ∧ is_Some (ev_ts a) ∧ is_Some (ev_ts b) ∧
    ((i < j)%nat ∧ ev_proc a = ev_proc b ∨ ev_from b = Some i).

Definition happens_before (l : list stamped_event) : nat → nat → Prop := tc (precedes l).

(** The strict order, with the greatest timestamp above itself: there the
    clock has no later value left. *)
Definition before (a b : HlcTimestamp) : Prop := N.min TOP (as_u128 a + 1) <= as_u128 b.

Lemma before_spec a b : ts_ok a → ts_ok b → before a b ↔ ts_lt a b ∨ b = MAX.
Proof.
  intros Ha Hb. rewrite ts_lt_packed by done. unfold before.
  pose proof (as_u128_le_top a Ha). pose proof (as_u128_le_top b Hb). split.
  - intros Hab. destruct (N.lt_ge_cases (as_u128 a) (as_u128 b)); [by left|right].
    apply as_u128_inj; [done|apply MAX_ok|]. fold TOP. lia.
  - intros [Hab| ->]; [lia|]. fold TOP. lia.
Qed.

Definition stamp_of (l : list stamped_event) (i : nat) : option HlcTimestamp := l !! i ≫= ev_ts.

(** What holds of every reachable world. *)
Record good (w : world) : Prop := mkGood {
  good_from j b i : w_events w !! j = Some b → ev_from b = Some i → (i < j)%nat;
  good_clock p : ts_ok (clock_state (w_clock w p));
  good_seen i a t : w_events w !! i = Some a → ev_ts a = Some t →
    ts_ok t ∧ as_u128 t <= as_u128 (clock_state (w_clock w (ev_proc a)));
  good_order i j a b : precedes (w_events w) i j →
    stamp_of (w_events w) i = Some a → stamp_of (w_events w) j = Some b → before a b;
}.

Lemma set_clock_eq p c w : set_clock p c w p = c.
Proof. unfold set_clock. by rewrite Nat.eqb_refl. Qed.

Lemma set_clock_ne p q c w : q ≠ p → set_clock p c w q = w q.
Proof. intros H. unfold set_clock. by destruct (Nat.eqb_spec q p). Qed.

Lemma stamp_of_app l1 l2 i : (i < length l1)%nat → stamp_of (l1 ++ l2) i = stamp_of l1 i.
Proof. intros H. unfold stamp_of. by rewrite lookup_app_l. Qed.

(** A stamp above the process's clock and, for a receipt, above the stamp
    received, keeps a world good. *)
Lemma good_extend w p from t d :
  good w → ts_ok t → before (clock_state (w_clock w p)) t →
  (∀ i, from = Some i → ∃ r, stamp_of (w_events w) i = Some r ∧ before r t) →
  good (mkWorld (set_clock p (mkClock t d) (w_clock w)) (w_events w ++ [mkEv p from (Some t)])).
Proof.
  intros [Hfr Hc Hs Ho] Ht Hb Hf.
  assert (as_u128 (clock_state (w_clock w p)) <= as_u128 t) as Hmono.
  { pose proof (as_u128_le_top _ (Hc p)). unfold before in Hb. lia. }
  split; cbn [w_clock w_events].
  - intros j b i Hb' Hi. apply lookup_app_Some in Hb' as [Hb'|[Hj Hb']]; [by eapply Hfr|].
    apply list_lookup_singleton_Some in Hb' as [_ <-]. cbn in Hi.
    destruct (Hf i Hi) as (r & Hr & _). unfold stamp_of in Hr.
    apply bind_Some in Hr as (a & Ha & _). apply lookup_lt_Some in Ha. lia.
  - intros q. destruct (decide (q = p)) as [->|Hq]; [by rewrite set_clock_eq|].
    by rewrite set_clock_ne.
  - intros i a u Ha Hu. apply lookup_app_Some in Ha as [Ha|[Hi Ha]].
    + destruct (Hs i a u Ha Hu) as [Hou Hle]. split; [done|].
      destruct (decide (ev_proc a = p)) as [E|E]; [|by rewrite set_clock_ne].
      rewrite E, set_clock_eq. rewrite E in Hle. cbn. lia.
    + apply list_lookup_singleton_Some in Ha as [_ <-]. cbn in Hu. injection Hu as <-.
      cbn [ev_proc]. by rewrite set_clock_eq.
  - intros i j a b (x & y & Hx & Hy & Hxs & Hys & Hrel) Ha Hb'.
    assert (i < j)%nat as Hij.
    { destruct Hrel as [[Hij _]|Hyi]; [done|].
      apply lookup_app_Some in Hy as [Hy|[Hj Hy]]; [by eapply Hfr|].
      apply list_lookup_singleton_Some in Hy as [_ <-]. cbn in Hyi.
      destruct (Hf i Hyi) as (r & Hr & _). unfold stamp_of in Hr.
      apply bind_Some in Hr as (z & Hz & _). apply lookup_lt_Some in Hz. lia. }
    assert (j <= length (w_events w))%nat as Hjl.
    { apply lookup_lt_Some in Hy. rewrite length_app in Hy. cbn in Hy. lia. }
    rewrite lookup_app_l in Hx by lia. rewrite stamp_of_app in Ha by lia.
    apply lookup_app_Some in Hy as [Hy|[Hj Hy]].
    + rewrite stamp_of_app in Hb' by (by eapply lookup_lt_Some). apply (Ho i j); [by exists x, y|done..].
    + assert (j = length (w_events w)) as -> by lia.
      unfold stamp_of in Hb'. rewrite lookup_app_r, Nat.sub_diag in Hb' by lia. injection Hb' as <-.
      apply list_lookup_singleton_Some in Hy as [_ <-]. cbn [ev_proc ev_from] in Hrel.
      destruct Hrel as [[_ Hp]|Hfrom].
      * unfold stamp_of in Ha. rewrite Hx in Ha. destruct (Hs i x a Hx Ha) as [_ Hle].
        rewrite Hp in Hle. unfold before in *. lia.
      * destruct (Hf i Hfrom) as (r & Hr & Hbr). rewrite Hr in Ha. by injection Ha as <-.
Qed.

(** A refused message leaves no stamp and no trace in the clock. *)
Lemma good_refused w p src r :
  good w → stamp_of (w_events w) src = Some r →
  good (mkWorld (set_clock p (w_clock w p) (w_clock w)) (w_events w ++ [mkEv p (Some src) None])).
Proof.
  intros [Hfr Hc Hs Ho] Hr.
  assert (∀ q, set_clock p (w_clock w p) (w_clock w) q = w_clock w q) as Hsame.
  { intros q. unfold set_clock. by destruct (Nat.eqb_spec q p) as [->|]. }
  assert (∀ i a, (w_events w ++ [mkEv p (Some src) None]) !! i = Some a → is_Some (ev_ts a) →
            w_events w !! i = Some a) as Hold.
  { intros i a Ha [? Hn]. apply lookup_app_Some in Ha as [?|[_ Ha]]; [done|].
    apply list_lookup_singleton_Some in Ha as [_ <-]. done. }
  split; cbn [w_clock w_events].
  - intros j b i Hb Hi. apply lookup_app_Some in Hb as [Hb|[Hj Hb]]; [by eapply Hfr|].
    apply list_lookup_singleton_Some in Hb as [_ <-]. injection Hi as ->.
    apply bind_Some in Hr as (z & Hz & _). apply lookup_lt_Some in Hz. lia.
  - intros q. by rewrite Hsame.
  - intros i a t Ha Ht. rewrite Hsame. eapply Hs; [|done]. by apply Hold.
  - intros i j a b (x & y & Hx & Hy & Hxs & Hys & Hrel) Ha Hb.
    apply Hold in Hx; [|done]. apply Hold in Hy; [|done].
    rewrite stamp_of_app in Ha, Hb by (by eapply lookup_lt_Some).
    apply (Ho i j); [by exists x, y|done..].
Qed.

Lemma run_event_good w e : event_wall e <= u64_max → good w → good (run_event w e).
Proof.
  intros Hw Hg. pose proof Hg as [_ Hc Hs _]. destruct e as [p wall|p wall src]; cbn in Hw |- *.
  - destruct (now_packed wall (w_clock w p) Hw (Hc p)) as [Hok E].
    unfold now in *. cbn [snd] in *. apply good_extend; [done|done| |done].
    unfold before. rewrite E. lia.
  - destruct (w_events w !! src) as [[q f [r|]]|] eqn:Hsrc; [|done..].
    destruct (Hs src _ r Hsrc eq_refl) as [Hrok _].
    assert (stamp_of (w_events w) src = Some r) as Hst by (unfold stamp_of; by rewrite Hsrc).
    destruct (update_with wall r (w_clock w p)) as [c' [t|e]] eqn:Hu.
    + apply update_packed in Hu as (Hok & -> & _ & E); [|done..].
      apply good_extend; [done|done| |].
      * unfold before. rewrite E. lia.
      * intros i [= <-]. exists r. split; [done|]. unfold before. rewrite E. lia.
    + apply update_rejects in Hu as (-> & _ & _); [|apply Hrok]. by eapply good_refused.
Qed.

Lemma run_good w es : Forall (λ e, event_wall e <= u64_max) es → good w → good (run w es).
Proof.
  revert w. induction es as [|e es IH]; intros w Hw Hg; [done|].
  apply Forall_cons_1 in Hw as [He Hw]. apply IH; [done|]. by apply run_event_good.
Qed.

Lemma start_good clocks : (∀ p, ts_ok (clock_state (clocks p))) → good (mkWorld clocks []).
Proof. intros Hc. split; cbn [w_clock w_events]; [done|done|done|]. intros i j a b (x & y & Hx & _). done. Qed.

Lemma happens_before_stamps l i j :
  happens_before l i j → is_Some (stamp_of l i) ∧ is_Some (stamp_of l j).
Proof.
  assert (∀ i j, precedes l i j → is_Some (stamp_of l i) ∧ is_Some (stamp_of l j)) as H1.
  { intros ?? (x & y & Hx & Hy & Hxs & Hys & _). unfold stamp_of. by rewrite Hx, Hy. }
  induction 1 as [i j Hp|i j k Hp _ IH]; [by apply H1|]. split; [by apply H1 in Hp as [? _]|by apply IH].
Qed.

Lemma good_before w i j a b :
  good w → happens_before (w_events w) i j →
  stamp_of (w_events w) i = Some a → stamp_of (w_events w) j = Some b → before a b.
Proof.
  intros Hg Hh. revert a b. induction Hh as [i j Hp|i j k Hp Hjk IH]; intros a b Ha Hb.
  - by eapply good_order.
  - apply happens_before_stamps in Hjk as [[c Hcs] _].
    pose proof (good_order w Hg i j a c Hp Ha Hcs) as H1. pose proof (IH c b Hcs Hb) as H2.
    unfold before in *. lia.
Qed.

(** ** Round trips *)

Lemma from_as_u128 t : ts_ok t → from_u128 (as_u128 t) = t.
Proof.
  intros Ht. rewrite as_u128_eq by done. destruct t as [p l], Ht as [Hp Hl]. cbn in Hp, Hl.
  unfold from_u128. cbn [physical_ns logical].
  change u64_max with (N.ones 64). change 0xFFFFFFFF with (N.ones 32).
  rewrite !N.land_ones, N.shiftr_div_pow2. change u32_bound with (2 ^ 32).
  rewrite N.div_add_l, N.div_small, N.add_0_r by (try done; unfold u32_top in Hl; change (2 ^ 32) with 4294967296; lia).
  rewrite N.add_comm, N.Div0.mod_add.
  rewrite !N.mod_small; [done| |].
  - unfold u32_top in Hl. change (2 ^ 32) with 4294967296. lia.
  - unfold u64_max in Hp. change (2 ^ 64) with 18446744073709551616. lia.
Qed.

(** ** Drift *)

(** The bound an operation that sees a wall reading of at most [W] keeps. *)
Definition near (W D k : N) (t : HlcTimestamp) : Prop :=
  as_u128 t <= (W + D) * u32_bound + u32_top + k.

Inductive clock_op : Set :=
  | OpNow (wall : N)
  | OpUpdate (wall : N) (remote : HlcTimestamp).

Definition clock_op_ok (W : N) (o : clock_op) : Prop :=
  match o with
  | OpNow wall => wall <= W
  | OpUpdate wall remote => wall <= W ∧ ts_ok remote
  end.

Definition run_op (c : HlcClock) (o : clock_op) : HlcClock :=
  match o with
  | OpNow wall => (now wall c).1
  | OpUpdate wall remote => (update_with wall remote c).1
  end.

Lemma run_op_near W D k c o :
  W <= u64_max → clock_op_ok W o → ts_ok (clock_state c) → max_drift c = D →
  near W D k (clock_state c) →
  ts_ok (clock_state (run_op c o)) ∧ max_drift (run_op c o) = D ∧
  near W D (k + 1) (clock_state (run_op c o)).
Proof.
  intros HW Ho Hc <- Hn. unfold near in *. destruct o as [wall|wall remote]; cbn in Ho |- *.
  - destruct (now_packed wall c) as [Hok E]; [lia|done|]. unfold now in *. cbn [fst snd] in *.
    split_and!; [done|done|]. cbn [clock_state]. rewrite E. unfold u32_bound in *. lia.
  - destruct Ho as [Hw Hr]. destruct (update_with wall remote c) as [c' [t|e]] eqn:Hu; cbn [fst].
    + apply update_packed in Hu as (Hok & -> & Hd & E); [|lia|done|done].
      split_and!; [done|done|]. cbn [clock_state]. rewrite E, (as_u128_eq remote) by done.
      destruct Hr as [_ Hl]. unfold u32_bound, u32_top in *. lia.
    + apply update_rejects in Hu as (-> & _ & _); [|apply Hr]. split_and!; [done|done|lia].
Qed.

Lemma run_ops_near W D os k c :
  W <= u64_max → Forall (clock_op_ok W) os → ts_ok (clock_state c) → max_drift c = D →
  near W D k (clock_state c) →
  ts_ok (clock_state (foldl run_op c os)) ∧
  near W D (k + N.of_nat (length os)) (clock_state (foldl run_op c os)).
Proof.
  intros HW. revert k c. induction os as [|o os IH]; intros k c Hos Hc Hd Hn; cbn [foldl length].
  - by rewrite N.add_0_r.
  - apply Forall_cons_1 in Hos as [Ho Hos].
    destruct (run_op_near W D k c o) as (Hc' & Hd' & Hn'); [done..|].
    destruct (IH _ _ Hos Hc' Hd' Hn') as [? Hf]. split; [done|].
    unfold near in *. lia.
Qed.

(** ** Statements *)

(** The pair of a physical and a logical component is one scalar clock:
    packed into 96 bits, [now] moves it to the larger of the wall reading
    and the next value, an accepted [update_with] to the larger of the wall
    reading and the value next to both clocks, both stopping at the greatest
    timestamp; [update_with] refuses exactly the timestamps whose physical
    part is ahead of the wall reading by more than the accepted drift, and
    then changes nothing.  The packed form keeps the order and loses
    nothing. *)
Theorem hlc_is_a_scalar_clock wall c remote :
  wall <= u64_max → ts_ok (clock_state c) → ts_ok remote →
  let local := clock_state c in
  (let '(c', t) := now wall c in
   ts_ok t ∧ c' = mkClock t (max_drift c) ∧
   as_u128 t = N.min (as_u128 MAX) (N.max (N.shiftl wall 32) (as_u128 local + 1))) ∧
  match update_with wall remote c with
  | (c', Ok t) =>
      ts_ok t ∧ c' = mkClock t (max_drift c) ∧ physical_ns remote <= wall + max_drift c ∧
      as_u128 t = N.min (as_u128 MAX)
        (N.max (N.shiftl wall 32) (N.max (as_u128 local) (as_u128 remote) + 1))
  | (c', Err e) =>
      c' = c ∧ wall + max_drift c < physical_ns remote ∧
      e = mkDrift wall (physical_ns remote) (physical_ns remote - wall) (max_drift c)
  end ∧
  ts_compare local remote = N.compare (as_u128 local) (as_u128 remote) ∧
  from_u128 (as_u128 remote) = remote.
Proof.
  intros Hw Hc Hr local. subst local. rewrite shift32_eq. fold TOP. split_and!.
  - destruct (now_packed wall c) as [Hok E]; [done..|]. unfold now in *. done.
  - destruct (update_with wall remote c) as [c' [t|e]] eqn:Hu.
    + by apply update_packed in Hu as (? & ? & ? & ?).
    + apply update_rejects in Hu; [done|apply Hr].
  - by apply ts_compare_packed.
  - by apply from_as_u128.
Qed.

Lemma hlc_is_a_scalar_clock_witness :
  let c := mkClock (mkTs 1000 4294967295) 500 in
  (now 999 c).2 = mkTs 1001 0 ∧
  (update_with 999 (mkTs 1200 41) c).2 = Ok (mkTs 1200 42) ∧
  (update_with 999 (mkTs 1500 0) c).2 = Err (mkDrift 999 1500 501 500) ∧
  as_u128 (now 999 c).2 = N.min (as_u128 MAX) (N.max (N.shiftl 999 32) (as_u128 (mkTs 1000 4294967295) + 1)).
Proof.
  intros c. split_and!; [reflexivity..|].
  assert (999 <= u64_max) as Hw by done. assert (ts_ok (clock_state c)) as Hc by done.
  assert (ts_ok EPOCH) as Hr by done.
  exact (proj2 (proj2 (proj1 (hlc_is_a_scalar_clock 999 c EPOCH Hw Hc Hr)))).
Defined.

(** C34. In every distributed execution, whatever the wall clocks do, an event
    that happens before another (in its process, or through accepted
    messages) carries a smaller timestamp; only a clock that has reached the
    greatest timestamp repeats it. *)
Theorem hlc_respects_causality clocks es i j a b :
  (∀ p, ts_ok (clock_state (clocks p))) →
  Forall (λ e, event_wall e <= u64_max) es →
  let l := w_events (run (mkWorld clocks []) es) in
  happens_before l i j → stamp_of l i = Some a → stamp_of l j = Some b →
  ts_lt a b ∨ b = MAX.
Proof.
  intros Hc Hes l Hh Ha Hb.
  assert (good (run (mkWorld clocks []) es)) as Hg by (apply run_good; [done|by apply start_good]).
  assert (∀ k t, stamp_of l k = Some t → ts_ok t) as Hok.
  { intros k t Ht. apply bind_Some in Ht as (e & He & Ht). by eapply good_seen in He as [? _]. }
  apply before_spec; [by eapply Hok..|]. by eapply good_before.
Qed.

(** Process 0 stamps at wall time 1000, process 1, a second behind, receives
    it and sends on, process 0 hears back after its wall clock stepped back. *)
Lemma hlc_respects_causality_witness :
  let es := [Emit 0 1000; Receive 1 900 0; Emit 1 901; Receive 0 500 2] in
  let l := w_events (run (mkWorld (λ _, clock_with_max_drift 500) []) es) in
  stamp_of l 0 = Some (mkTs 1000 0) ∧ stamp_of l 3 = Some (mkTs 1000 3) ∧
  (ts_lt (mkTs 1000 0) (mkTs 1000 3) ∨ mkTs 1000 3 = MAX).
Proof.
  intros es l. split_and!; [reflexivity..|].
  apply (hlc_respects_causality (λ _, clock_with_max_drift 500) es 0 3).
  - intros _. done.
  - by repeat constructor.
  - apply (tc_l _ 0%nat 1%nat); [|apply (tc_l _ 1%nat 2%nat); [|apply tc_once]].
    + eexists _, _. split_and!; [reflexivity|reflexivity|by eexists|by eexists|by right].
    + eexists _, _. split_and!; [reflexivity|reflexivity|by eexists|by eexists|left; by split; [lia|]].
    + eexists _, _. split_and!; [reflexivity|reflexivity|by eexists|by eexists|by right].
  - reflexivity.
  - reflexivity.
Defined.

(** A clock that has seen no wall reading above [W] and accepts a drift of
    [D] is, after any calls with any remote timestamps, at most [D] plus one
    nanosecond per 2^32 calls ahead of [W]: a misbehaving peer cannot drag
    it further. *)
Theorem hlc_stays_near_wall_time W D os :
  W <= u64_max → Forall (clock_op_ok W) os →
  let t := clock_state (foldl run_op (clock_with_max_drift D) os) in
  ts_ok t ∧ physical_ns t <= W + D + 1 + N.of_nat (length os) / 4294967296.
Proof.
  intros HW Hos t.
  destruct (run_ops_near W D os 0 (clock_with_max_drift D)) as [Hok Hn]; [done..| |].
  { unfold near. change (as_u128 (clock_state (clock_with_max_drift D))) with 0. apply N.le_0_l. }
  split; [done|]. fold t in Hok, Hn. unfold near in Hn. rewrite as_u128_eq in Hn by done.
  unfold u32_bound, u32_top in Hn.
  pose proof (N.Div0.div_mod (N.of_nat (length os)) 4294967296) as Hdm.
  pose proof (N.mod_lt (N.of_nat (length os)) 4294967296 ltac:(done)) as Hml.
  remember (N.of_nat (length os) mod 4294967296) as r. remember (N.of_nat (length os) / 4294967296) as q.
  lia.
Qed.

Lemma hlc_stays_near_wall_time_witness :
  let os := [OpNow 1000; OpUpdate 1000 (mkTs 1500 4294967295); OpUpdate 1000 MAX; OpNow 0] in
  clock_state (foldl run_op (clock_with_max_drift 500) os) = mkTs 1501 1 ∧
  physical_ns (mkTs 1501 1) <= 1000 + 500 + 1 + 4 / 4294967296.
Proof.
  intros os. split; [reflexivity|].
  apply (proj2 (hlc_stays_near_wall_time 1000 500 os ltac:(done)
    ltac:(repeat constructor; done))).
Defined.

(** Text round trip of a timestamp. *)
Lemma hlc_text_roundtrip t : ts_ok t → ts_from_str (ts_to_string t) = Ok t.
Proof.
  intros [Hp Hl]. unfold ts_from_str, ts_to_string.
  change (lit "-" ++ decimal (logical t)) with (45 :: decimal (logical t)).
  destruct (decimal_spec (physical_ns t)) as (_ & Hd & _).
  rewrite split_once_app by (eapply Forall_impl; [exact Hd|]; cbn; intros c Hc ->; done).
  rewrite !parse_decimal by done. by destruct t.
Qed.
