(* ===== verification/TimeDuration.v ===== *)
(** * Durations as text

    Models [src/crates/astrs-time/src/duration.rs]: the parser of human
    readable durations ("250ms", "1.5h", "1h 30m 5s"), which works in exact
    integer arithmetic on 128 bits, and the printer, which picks the largest
    unit that divides the duration.

    A [Duration] is its number of nanoseconds, below [DURATION_LIMIT].

    The theorems: a text made of tokens parses to the sum of the tokens'
    values, each fraction rounded to the nearest nanosecond
    ([parse_duration_sums_tokens]); what is printed parses back to the same
    duration ([format_duration_roundtrip]). *)

From Stdlib Require Import Lia.
From stdpp Require Import base tactics list strings numbers.
From S2P Require Import Prelude Text.

Open Scope N_scope.

Definition NANOS_PER_SEC : N := 1000000000.

(** [u64] seconds and less than a second of nanoseconds. *)
Definition DURATION_LIMIT : N := two64 * NANOS_PER_SEC.

Inductive DurationParseError : Set :=
  | Empty
  | Negative (s : str)
  | InvalidNumber (s : str)
  | UnknownUnit (s : str)
  | Overflow (s : str).

#[global] Instance duration_parse_error_eq_dec : EqDecision DurationParseError.
Proof. solve_decision. Defined.

Definition checked_add128 (a b : N) : option N := if N.leb (a + b) u128_max then Some (a + b) else None.
Definition checked_mul128 (a b : N) : option N := if N.leb (a * b) u128_max then Some (a * b) else None.
Definition checked_pow128 (a b : N) : option N := if N.leb (a ^ b) u128_max then Some (a ^ b) else None.

Definition ok_or {E A} (e : E) (o : option A) : result E A :=
  match o with Some a => Ok a | None => Err e end.

Definition u32_top_len : N := 4294967295.

(** The unit a text starts with, in the order the prefixes are tried: the
    micro sign (U+00B5) and the Greek letter mu (U+03BC) both introduce
    microseconds. *)
Definition parse_unit (s : str) : option (N * str) :=
  match strip_prefix (lit "ns") s with
  | Some r => Some (1, r)
  | None =>
  match strip_prefix (lit "us") s with
  | Some r => Some (1000, r)
  | None =>
  match strip_prefix [0xB5; 115] s with
  | Some r => Some (1000, r)
  | None =>
  match strip_prefix [0x3BC; 115] s with
  | Some r => Some (1000, r)
  | None =>
  match strip_prefix (lit "ms") s with
  | Some r => Some (1000000, r)
  | None =>
  match strip_prefix (lit "s") s with
  | Some r => Some (1000000000, r)
  | None =>
  match strip_prefix (lit "m") s with
  | Some r => Some (60000000000, r)
  | None =>
  match strip_prefix (lit "h") s with
  | Some r => Some (3600000000000, r)
  | None =>
  match strip_prefix (lit "d") s with
  | Some r => Some (86400000000000, r)
  | None => None
  end end end end end end end end end.

Definition not_digit (c : char) : bool := negb (is_ascii_digit c).

Definition unwrap_or {A} (d : A) (o : option A) : A := match o with Some a => a | None => d end.

(** The digits after a dot, if there is one, and the rest. *)
Definition parse_fraction (input s : str) : result DurationParseError (str * str) :=
  match strip_prefix (lit ".") s with
  | Some after_dot =>
      match split_at_first not_digit after_dot with
      | ([], _) => Err (InvalidNumber input)
      | (frac_str, s) => Ok (frac_str, s)
      end
  | None => Ok ([], s)
  end.

(** The value of a token in nanoseconds. *)
Definition token_value (input int_str frac_str : str) (unit_ns : N) : result DurationParseError N :=
  let overflow := Overflow input in
  let? int_part := map_err (λ _, overflow) (parse_uint u128_max int_str) in
  let? int_ns := ok_or overflow (checked_mul128 int_part unit_ns) in
  match frac_str with
  | [] => Ok int_ns
  | _ =>
      let? frac_value := map_err (λ _, overflow) (parse_uint u128_max frac_str) in
      let frac_len := N.of_nat (length frac_str) in
      let? frac_digits := ok_or overflow (if N.leb frac_len u32_top_len then Some frac_len else None) in
      let? divisor := ok_or overflow (checked_pow128 10 frac_digits) in
      let? numerator := ok_or overflow (checked_mul128 frac_value unit_ns) in
      let half := divisor / 2 in
      let? rounded_numerator := ok_or overflow (checked_add128 numerator half) in
      let frac_ns := rounded_numerator / divisor in
      ok_or overflow (checked_add128 int_ns frac_ns)
  end.

Definition parse_token (input : str) : result DurationParseError (N * str) :=
  match strip_prefix (lit "-") input with
  | Some _ => Err (Negative input)
  | None =>
      let s := unwrap_or input (strip_prefix (lit "+") input) in
      match split_at_first not_digit s with
      | ([], _) => Err (InvalidNumber input)
      | (int_str, s) =>
          let? (frac_str, s) := parse_fraction input s in
          let s := unwrap_or s (strip_prefix (lit " ") s) in
          match parse_unit s with
          | None =>
              Err (UnknownUnit (split_at_first (λ c, is_ascii_digit c || is_whitespace c) s).1)
          | Some (unit_ns, remainder) =>
              let? total_ns := token_value input int_str frac_str unit_ns in
              Ok (total_ns, remainder)
          end
      end
  end.

Definition is_space (c : char) : bool := N.eqb c 32.

(** The loop of [parse_duration]; each token takes at least one character,
    so the text's length is fuel enough ([parse_loop_fuel]). *)
Fixpoint parse_loop (fuel : nat) (s remaining : str) (total_ns : N) : result DurationParseError N :=
  match remaining with
  | [] => Ok total_ns
  | _ =>
      match fuel with
      | O => Err (InvalidNumber remaining)
      | S fuel =>
          let? (token_ns, rest) := parse_token remaining in
          let? total_ns := ok_or (Overflow s) (checked_add128 total_ns token_ns) in
          parse_loop fuel s (trim_start_matches is_space rest) total_ns
      end
  end.

Definition parse_duration (s : str) : result DurationParseError N :=
  let trimmed := trim s in
  match trimmed with
  | [] => Err Empty
  | _ =>
      let? total_ns := parse_loop (length trimmed) s trimmed 0 in
      let secs := total_ns / NANOS_PER_SEC in
      if N.ltb u64_max secs then Err (Overflow s)
      else Ok (secs * NANOS_PER_SEC + total_ns mod NANOS_PER_SEC)
  end.

Definition COARSE_UNITS : list (str * N) :=
  [(lit "d", 86400000000000); (lit "h", 3600000000000); (lit "m", 60000000000);
   (lit "s", 1000000000); (lit "ms", 1000000); (lit "us", 1000)].

Fixpoint format_with (units : list (str * N)) (total_ns : N) : str :=
  match units with
  | [] => decimal total_ns ++ lit "ns"
  | (suffix, unit_ns) :: units =>
      if N.eqb (total_ns mod unit_ns) 0 then decimal (total_ns / unit_ns) ++ suffix
      else format_with units total_ns
  end.

Definition format_duration (d : N) : str :=
  if N.eqb d 0 then lit "0ns" else format_with COARSE_UNITS d.

(** ** The grammar *)

Inductive time_unit : Set := Uns | Uus | Umicro | Umu | Ums | Us | Um | Uh | Ud.

Definition unit_text (u : time_unit) : str :=
  match u with
  | Uns => lit "ns" | Uus => lit "us" | Umicro => [0xB5; 115] | Umu => [0x3BC; 115]
  | Ums => lit "ms" | Us => lit "s" | Um => lit "m" | Uh => lit "h" | Ud => lit "d"
  end.

Definition unit_ns (u : time_unit) : N :=
  match u with
  | Uns => 1 | Uus | Umicro | Umu => 1000 | Ums => 1000000 | Us => 1000000000
  | Um => 60000000000 | Uh => 3600000000000 | Ud => 86400000000000
  end.

(** One number with its unit, and the spaces after it. *)
Record token := mkToken {
  tk_plus : bool;
  tk_int : str;
  tk_frac : str;
  tk_gap : bool;
  tk_unit : time_unit;
  tk_spaces : nat
}.

Definition digits (s : str) : Prop := Forall (λ c, is_ascii_digit c = true) s.

Definition fraction_text (frac : str) : str := match frac with [] => [] | _ => lit "." ++ frac end.

Definition print_token (t : token) : str :=
  (if tk_plus t then lit "+" else []) ++ tk_int t ++ fraction_text (tk_frac t) ++
  (if tk_gap t then lit " " else []) ++ unit_text (tk_unit t).

Fixpoint print_tokens (ts : list token) : str :=
  match ts with
  | [] => []
  | [t] => print_token t
  | t :: ts => print_token t ++ replicate (tk_spaces t) 32 ++ print_tokens ts
  end.

(** The power of ten under a token's fraction. *)
Definition frac_scale (t : token) : N := 10 ^ N.of_nat (length (tk_frac t)).

(** The exact value times [frac_scale]: a whole number. *)
Definition exact_scaled (t : token) : N :=
  (digits_value 0 (tk_int t) * frac_scale t + digits_value 0 (tk_frac t)) * unit_ns (tk_unit t).

(** The nearest number of nanoseconds, halves rounded up. *)
Definition token_ns (t : token) : N := (2 * exact_scaled t + frac_scale t) / (2 * frac_scale t).

Definition tokens_ns (ts : list token) : N := foldr (λ t n, token_ns t + n) 0 ts.

Record token_ok (t : token) : Prop := mkTokenOk {
  tok_int : digits (tk_int t);
  tok_int_ne : tk_int t ≠ [];
  tok_frac : digits (tk_frac t);
  tok_scale : frac_scale t <= u128_max;
  tok_fits : exact_scaled t + frac_scale t / 2 <= u128_max
}.

(** ** Lemmas *)

Definition starts_token (s : str) : Prop :=
  match s with [] => True | c :: _ => is_ascii_digit c = true ∨ c = 43 ∨ c = 32 end.

Lemma parse_unit_text u rest :
  starts_token rest → parse_unit (unit_text u ++ rest) = Some (unit_ns u, rest).
Proof.
  intros Hr. destruct u; try reflexivity.
  destruct rest as [|c rest]; [done|]. cbn in Hr.
  assert (N.eqb 115 c = false) as E.
  { apply N.eqb_neq. intros <-. destruct Hr as [?|[?|?]]; done. }
  assert (strip_prefix (lit "ms") (unit_text Um ++ c :: rest) = None) as Hms.
  { transitivity (if N.eqb 115 c then Some rest else None); [reflexivity|by rewrite E]. }
  unfold parse_unit. rewrite Hms. reflexivity.
Qed.

Lemma split_digits a b :
  digits a → (match b with [] => True | c :: _ => is_ascii_digit c = false end) →
  split_at_first not_digit (a ++ b) = (a, b).
Proof.
  intros Ha Hb. apply split_at_first_app.
  - eapply Forall_impl; [|exact Ha]. intros c Hc. unfold not_digit. by rewrite Hc.
  - destruct b as [|c b]; [done|]. unfold not_digit. by rewrite Hb.
Qed.

Lemma frac_scale_even t : tk_frac t ≠ [] → ∃ h, frac_scale t = 2 * h.
Proof.
  unfold frac_scale. destruct (tk_frac t) as [|c f]; [done|]. intros _. cbn [length].
  rewrite Nat2N.inj_succ, N.pow_succ_r'. exists (5 * 10 ^ N.of_nat (length f)). lia.
Qed.

Lemma token_value_spec input t :
  token_ok t → token_value input (tk_int t) (tk_frac t) (unit_ns (tk_unit t)) = Ok (token_ns t).
Proof.
  intros [Hi Hine Hf Hs Hfit]. unfold token_value.
  assert (1 <= unit_ns (tk_unit t)) as Hu by (by destruct (tk_unit t)).
  unfold exact_scaled, token_ns in *. unfold exact_scaled.
  assert (1 <= frac_scale t) as Hsc by (unfold frac_scale; pose proof (N.pow_nonzero 10 (N.of_nat (length (tk_frac t)))); lia).
  set (iv := digits_value 0 (tk_int t)) in *. set (fv := digits_value 0 (tk_frac t)) in *.
  set (u := unit_ns (tk_unit t)) in *.
  assert (iv * u <= (iv * frac_scale t + fv) * u) by (apply N.mul_le_mono_r; nia).
  assert (iv * u <= u128_max).
  { eapply N.le_trans; [done|]. eapply N.le_trans; [apply N.le_add_r|exact Hfit]. }
  assert (iv <= u128_max) by nia.
  rewrite parse_uint_digits by done. fold iv. cbn [map_err rbind].
  unfold checked_mul128 at 1. rewrite (proj2 (N.leb_le _ _)) by done. cbn [ok_or rbind].
  destruct (tk_frac t) as [|c frac] eqn:Hfrac.
  - f_equal. assert (frac_scale t = 1) as E by (unfold frac_scale; by rewrite Hfrac). rewrite E.
    change fv with 0. rewrite N.add_0_r, N.mul_1_r. apply N.div_unique with 1; lia.
  - assert (digits_value 0 (tk_frac t) = fv) as Hfv by (unfold fv; by rewrite Hfrac).
    rewrite <-Hfrac in *.
    assert (N.of_nat (length (tk_frac t)) < 39) as Hlen.
    { apply (N.pow_lt_mono_r_iff 10); [lia|]. fold (frac_scale t).
      eapply N.le_lt_trans; [exact Hs|]. reflexivity. }
    destruct (frac_scale_even t) as (h & Hh); [by rewrite Hfrac|].
    unfold frac_scale in Hh, Hsc, Hs, Hfit |- *.
    set (k := N.of_nat (length (tk_frac t))) in *. set (d := 10 ^ k) in *.
    assert (d / 2 = h) as Hhalf by (rewrite Hh, N.mul_comm; by apply N.div_mul).
    rewrite Hhalf in *.
    assert ((iv * d + fv) * u = iv * u * d + fv * u) as Hexp by lia. rewrite Hexp in *.
    assert (fv * u <= u128_max) by lia. assert (fv <= u128_max) by nia.
    assert (fv * u + h <= u128_max) by lia.
    assert ((fv * u + h) / d <= fv * u + h) as Hdiv by (apply N.Div0.div_le_upper_bound; nia).
    assert (iv * u <= iv * u * d) by nia.
    assert (iv * u + (fv * u + h) / d <= u128_max) as Hsum by lia.
    rewrite parse_uint_digits by (rewrite ?Hfv; try done; by rewrite Hfrac).
    rewrite Hfv. cbn [map_err rbind].
    rewrite (proj2 (N.leb_le k u32_top_len)) by (unfold u32_top_len; lia). cbn [ok_or rbind].
    unfold checked_pow128. fold d. rewrite (proj2 (N.leb_le d u128_max)) by done. cbn [ok_or rbind].
    unfold checked_mul128. rewrite (proj2 (N.leb_le (fv * u) u128_max)) by done. cbn [ok_or rbind].
    unfold checked_add128. rewrite Hhalf, (proj2 (N.leb_le (fv * u + h) u128_max)) by done.
    cbn [ok_or rbind]. rewrite (proj2 (N.leb_le (iv * u + (fv * u + h) / d) u128_max)) by done.
    cbn [ok_or]. f_equal.
    replace (2 * (iv * u * d + fv * u) + d) with (2 * (iv * u * d + (fv * u + h))) by lia.
    rewrite N.Div0.div_mul_cancel_l by lia. by rewrite N.div_add_l by lia.
Qed.

Lemma digit_bounds c : is_ascii_digit c = true → 48 <= c <= 57.
Proof. unfold is_ascii_digit. intros Hc. bool_to_prop. lia. Qed.

Lemma digit_is_not_space c : is_ascii_digit c = true → is_whitespace c = false.
Proof.
  intros Hc. apply digit_bounds in Hc. unfold is_whitespace.
  repeat (apply orb_false_iff; split); try (apply andb_false_iff);
    rewrite ?N.leb_gt, ?N.eqb_neq; lia.
Qed.

Lemma strip_other p c s : c ≠ p → strip_prefix [p] (c :: s) = None.
Proof. intros H. cbn. destruct (N.eqb_spec p c); [congruence|done]. Qed.

(** The text after the number starts with the gap or the unit. *)
Lemma parse_fraction_text input frac rest :
  digits frac →
  (match rest with [] => True | c :: _ => is_ascii_digit c = false ∧ c ≠ 46 end) →
  parse_fraction input (fraction_text frac ++ rest) = Ok (frac, rest).
Proof.
  intros Hf Hr. unfold parse_fraction, fraction_text. destruct frac as [|c frac].
  - cbn [app]. destruct rest as [|d rest]; [done|]. by rewrite (strip_other 46) by apply Hr.
  - rewrite <-app_assoc, strip_prefix_app.
    rewrite split_digits by (try done; by destruct rest; [|apply Hr]). done.
Qed.

Lemma unit_head u rest : ∃ c s, unit_text u ++ rest = c :: s ∧
  is_ascii_digit c = false ∧ c ≠ 46 ∧ c ≠ 32.
Proof. destruct u; eexists _, _; (split; [reflexivity|done]). Qed.

Lemma parse_token_print t rest :
  token_ok t → starts_token rest → parse_token (print_token t ++ rest) = Ok (token_ns t, rest).
Proof.
  intros Hok Hrest. pose proof Hok as [Hi Hine Hf _ _]. unfold parse_token.
  set (input := print_token t ++ rest : str).
  set (tail := (if tk_gap t then lit " " else []) ++ unit_text (tk_unit t) ++ rest : str).
  assert (match tail with [] => True | c :: _ => is_ascii_digit c = false ∧ c ≠ 46 end) as Htail.
  { subst tail. destruct (tk_gap t); [done|]. cbn [app].
    by destruct (unit_head (tk_unit t) rest) as (c & s & -> & ? & ? & _). }
  assert (input = (if tk_plus t then lit "+" else []) ++ tk_int t ++ fraction_text (tk_frac t) ++ tail)
    as Hin by (subst input tail; unfold print_token; by rewrite <-!app_assoc).
  assert (strip_prefix (lit "-") input = None) as ->.
  { rewrite Hin. destruct (tk_plus t); [done|]. destruct (tk_int t) as [|c i]; [done|]. cbn [app].
    apply Forall_cons_1 in Hi as [Hc _]. apply digit_bounds in Hc. apply (strip_other 45). lia. }
  assert (unwrap_or input (strip_prefix (lit "+") input) =
    tk_int t ++ fraction_text (tk_frac t) ++ tail) as ->.
  { rewrite Hin. destruct (tk_plus t); [done|]. destruct (tk_int t) as [|c i]; [done|]. cbn [app].
    apply Forall_cons_1 in Hi as [Hc _]. apply digit_bounds in Hc. rewrite (strip_other 43) by lia. done. }
  rewrite split_digits; [|done|].
  2:{ destruct (tk_frac t); [|done]. cbn [fraction_text app]. by destruct tail; [|apply Htail]. }
  destruct (tk_int t) as [|c i] eqn:Hti; [done|]. rewrite <-Hti in *.
  rewrite parse_fraction_text by done. cbn [rbind].
  assert (unwrap_or tail (strip_prefix (lit " ") tail) = unit_text (tk_unit t) ++ rest) as ->.
  { subst tail. destruct (tk_gap t); [done|]. cbn [app].
    destruct (unit_head (tk_unit t) rest) as (d & s & -> & _ & _ & ?). by rewrite (strip_other 32). }
  rewrite parse_unit_text by done. by rewrite token_value_spec.
Qed.

Lemma print_token_head t rest : token_ok t → ∃ c s, print_token t ++ rest = c :: s ∧
  (is_ascii_digit c = true ∨ c = 43).
Proof.
  intros [Hi Hine _ _ _]. unfold print_token. destruct (tk_plus t); [eexists _, _; by split; [|right]|].
  destruct (tk_int t) as [|c i]; [done|]. apply Forall_cons_1 in Hi as [Hc _].
  eexists _, _. by split; [|left].
Qed.

Lemma print_tokens_head ts : Forall token_ok ts → ts ≠ [] → ∃ c s, print_tokens ts = c :: s ∧
  (is_ascii_digit c = true ∨ c = 43).
Proof.
  intros Hts Hne. destruct ts as [|t [|t' ts]]; [done|..]; apply Forall_cons_1 in Hts as [Ht _].
  - destruct (print_token_head t [] Ht) as (c & s & E & Hc). rewrite app_nil_r in E. by exists c, s.
  - cbn [print_tokens]. by apply print_token_head.
Qed.

Lemma print_tokens_cons t ts :
  ∃ n, print_tokens (t :: ts) = print_token t ++ replicate n 32 ++ print_tokens ts ∧ (ts = [] → n = 0%nat).
Proof.
  destruct ts as [|t' ts]; [exists 0%nat; cbn; by rewrite app_nil_r|].
  by exists (tk_spaces t).
Qed.

Lemma spaces_starts_token n ts : Forall token_ok ts → starts_token (replicate n 32 ++ print_tokens ts).
Proof.
  intros Hts. destruct n as [|n]; [|by right; right]. cbn [replicate app].
  destruct (decide (ts = [])) as [->|Hne]; [done|].
  destruct (print_tokens_head ts Hts Hne) as (c & s & -> & [?|?]); cbn; auto.
Qed.

Lemma trim_spaces n ts : Forall token_ok ts →
  trim_start_matches is_space (replicate n 32 ++ print_tokens ts) = print_tokens ts.
Proof.
  intros Hts. apply trim_start_app; [by apply Forall_replicate|].
  destruct (decide (ts = [])) as [->|Hne]; [done|].
  destruct (print_tokens_head ts Hts Hne) as (c & s & -> & Hc). unfold is_space.
  apply N.eqb_neq. destruct Hc as [Hc| ->]; [apply digit_bounds in Hc; lia|done].
Qed.

(** The loop over a printed list of tokens. *)
Lemma parse_loop_print fuel s ts total :
  Forall token_ok ts → (length (print_tokens ts) <= fuel)%nat →
  total + tokens_ns ts <= u128_max →
  parse_loop fuel s (print_tokens ts) total = Ok (total + tokens_ns ts).
Proof.
  intros Hts. revert fuel total. induction Hts as [|t ts Ht Hts IH]; intros fuel total Hf Hs.
  - cbn [print_tokens tokens_ns foldr]. rewrite N.add_0_r. by destruct fuel.
  - destruct (print_tokens_cons t ts) as (n & E & _). rewrite E in Hf |- *.
    change (tokens_ns (t :: ts)) with (token_ns t + tokens_ns ts) in *.
    pose proof (parse_token_print t _ Ht (spaces_starts_token n ts Hts)) as Hp.
    destruct (print_token_head t (replicate n 32 ++ print_tokens ts) Ht) as (c & rest & Ec & _).
    destruct fuel as [|fuel]; [rewrite Ec in Hf; cbn in Hf; lia|].
    cbn [parse_loop]. rewrite Ec in Hp |- *. rewrite Hp. cbn [rbind].
    unfold checked_add128. rewrite (proj2 (N.leb_le _ _)) by lia. cbn [ok_or rbind].
    rewrite trim_spaces by done. rewrite IH; [f_equal; lia| |lia].
    destruct (print_token_head t [] Ht) as (d & r & Ed & _). rewrite app_nil_r in Ed.
    rewrite Ed, !length_app in Hf. cbn [length] in Hf. unfold str, char in *. lia.
Qed.

(** The text of a token ends with a letter. *)
Lemma print_tokens_last ts :
  ts ≠ [] → ∃ c s, reverse (print_tokens ts) = c :: s ∧ is_whitespace c = false.
Proof.
  induction ts as [|t ts IH]; [done|]. intros _. destruct (print_tokens_cons t ts) as (n & -> & Hn).
  destruct (decide (ts = [])) as [->|Hne].
  - rewrite (Hn eq_refl). cbn [replicate app print_tokens]. rewrite app_nil_r.
    unfold print_token. rewrite !reverse_app. by destruct (tk_unit t); eexists _, _.
  - destruct (IH Hne) as (c & s & E & Hc). rewrite !reverse_app, E. by eexists _, _.
Qed.

(** Each token takes a character, so more fuel than the text is long changes
    nothing. *)
Lemma split_at_first_length f s : (length (split_at_first f s).2 <= length s)%nat.
Proof.
  induction s as [|c s IH]; cbn; [lia|]. destruct (f c); cbn; [lia|].
  destruct (split_at_first f s) as [a b]. cbn in *. lia.
Qed.

Lemma strip_prefix_length p s r : strip_prefix p s = Some r → (length s = length p + length r)%nat.
Proof.
  revert s. induction p as [|c p IH]; intros s; cbn; [intros [= ->]; done|].
  destruct s as [|d s]; [done|]. destruct (N.eqb c d); [|done]. intros H. apply IH in H. cbn. lia.
Qed.

Lemma unwrap_strip_length p s : (length (unwrap_or s (strip_prefix p s)) <= length s)%nat.
Proof.
  destruct (strip_prefix p s) as [r|] eqn:E; [|done]. apply strip_prefix_length in E. cbn. lia.
Qed.

Lemma parse_unit_length s u r : parse_unit s = Some (u, r) → (length r < length s)%nat.
Proof.
  unfold parse_unit. intros H.
  repeat match type of H with
  | match ?x with _ => _ end = _ => destruct x eqn:?
  end; try done;
  match goal with
  | E : strip_prefix _ _ = Some _ |- _ => apply strip_prefix_length in E; injection H as _ <-; cbn in E; lia
  end.
Qed.

Lemma parse_token_length s n r : parse_token s = Ok (n, r) → (length r < length s)%nat.
Proof.
  unfold parse_token. destruct (strip_prefix (lit "-") s); [done|].
  set (s1 := unwrap_or s (strip_prefix (lit "+") s)).
  assert (length s1 <= length s)%nat as H1 by apply unwrap_strip_length.
  pose proof (split_at_first_length not_digit s1) as H2.
  destruct (split_at_first not_digit s1) as [[|c i] s2]; [done|]. cbn in H2.
  destruct (parse_fraction s s2) as [[f s3]|e] eqn:Hf; cbn [rbind]; [|done].
  assert (length s3 <= length s2)%nat as H3.
  { unfold parse_fraction in Hf. destruct (strip_prefix (lit ".") s2) as [a|] eqn:Ha.
    - pose proof (split_at_first_length not_digit a) as H4. apply strip_prefix_length in Ha. cbn in Ha.
      destruct (split_at_first not_digit a) as [[|d f'] s4]; [done|]. injection Hf as _ <-. cbn in H4. lia.
    - by injection Hf as _ <-. }
  pose proof (unwrap_strip_length (lit " ") s3) as H5.
  destruct (parse_unit _) as [[u rem]|] eqn:Hu; [|done]. apply parse_unit_length in Hu.
  destruct (token_value s (c :: i) f u); cbn [rbind]; [|done]. intros [= _ <-]. lia.
Qed.

Lemma trim_start_length f s : (length (trim_start_matches f s) <= length s)%nat.
Proof. induction s as [|c s IH]; cbn; [lia|]. destruct (f c); cbn; lia. Qed.

Lemma parse_loop_fuel fuel fuel' s rem total :
  (length rem <= fuel)%nat → (length rem <= fuel')%nat →
  parse_loop fuel s rem total = parse_loop fuel' s rem total.
Proof.
  revert fuel' rem total. induction fuel as [|fuel IH]; intros fuel' rem total H1 H2.
  - destruct rem; [by destruct fuel'|cbn in H1; lia].
  - destruct rem as [|c rem]; [by destruct fuel'|]. destruct fuel' as [|fuel']; [cbn in H2; lia|].
    cbn [parse_loop]. destruct (parse_token (c :: rem)) as [[n r]|e] eqn:Hp; cbn [rbind]; [|done].
    apply parse_token_length in Hp. cbn in H1, H2, Hp.
    pose proof (trim_start_length is_space r).
    destruct (ok_or _ _); cbn [rbind]; [|done]. apply IH; lia.
Qed.

Lemma parse_print_tokens lead trail ts :
  Forall (λ c, is_whitespace c = true) lead → Forall (λ c, is_whitespace c = true) trail →
  ts ≠ [] → Forall token_ok ts → tokens_ns ts < DURATION_LIMIT →
  parse_duration (lead ++ print_tokens ts ++ trail) = Ok (tokens_ns ts).
Proof.
  intros Hl Ht Hne Hok Hlim.
  destruct (print_tokens_head ts Hok Hne) as (c & s & E & Hc).
  destruct (print_tokens_last ts Hne) as (d & s' & E' & Hd).
  unfold parse_duration. rewrite trim_app; [|done|done| | |by rewrite E].
  - rewrite parse_loop_print; [|done|done|]; cbn [rbind].
    2:{ unfold DURATION_LIMIT, two64, NANOS_PER_SEC, u128_max in *. lia. }
    rewrite N.add_0_l, E. cbn match.
    assert (tokens_ns ts / NANOS_PER_SEC <= u64_max) as Hq.
    { apply N.lt_succ_r. apply N.Div0.div_lt_upper_bound. unfold DURATION_LIMIT, two64, u64_max in *. lia. }
    destruct (N.ltb_spec u64_max (tokens_ns ts / NANOS_PER_SEC)); [lia|].
    rewrite (N.mul_comm _ NANOS_PER_SEC), <-N.Div0.div_mod. done.
  - rewrite E. destruct Hc as [Hc| ->]; [by apply digit_is_not_space|done].
  - by rewrite E'.
Qed.

(** The rounding is to the nearest. *)
Lemma token_ns_nearest t :
  2 * token_ns t * frac_scale t <= 2 * exact_scaled t + frac_scale t ∧
  2 * exact_scaled t < 2 * token_ns t * frac_scale t + frac_scale t.
Proof.
  unfold token_ns. assert (frac_scale t ≠ 0) as Hs by (by apply N.pow_nonzero).
  pose proof (N.Div0.div_mod (2 * exact_scaled t + frac_scale t) (2 * frac_scale t)) as Hdm.
  pose proof (N.mod_lt (2 * exact_scaled t + frac_scale t) (2 * frac_scale t) ltac:(lia)) as Hml.
  revert Hdm Hml. generalize ((2 * exact_scaled t + frac_scale t) / (2 * frac_scale t)).
  generalize ((2 * exact_scaled t + frac_scale t) mod (2 * frac_scale t)). intros r q Hdm Hml. nia.
Qed.

(** A printed number and unit is one token. *)
Lemma parse_number_unit n u :
  n * unit_ns u < DURATION_LIMIT → parse_duration (decimal n ++ unit_text u) = Ok (n * unit_ns u).
Proof.
  intros Hlim. destruct (decimal_spec n) as (Hne & Hd & Hv).
  set (t := mkToken false (decimal n) [] false u 0).
  assert (exact_scaled t = n * unit_ns u) as He.
  { unfold exact_scaled, frac_scale. cbn [tk_int tk_frac tk_unit t length]. rewrite Hv.
    change (10 ^ N.of_nat 0) with 1. change (digits_value 0 []) with 0. f_equal. lia. }
  assert (token_ns t = n * unit_ns u) as Ht.
  { unfold token_ns. rewrite He. change (frac_scale t) with 1. symmetry. apply N.div_unique with 1; lia. }
  assert (token_ok t) as Hok.
  { split; [done|done|constructor|done|]. rewrite He. change (frac_scale t / 2) with 0.
    unfold DURATION_LIMIT, two64, NANOS_PER_SEC, u128_max in *. lia. }
  assert (tokens_ns [t] = n * unit_ns u) as Hs by (cbn [tokens_ns foldr]; lia).
  pose proof (parse_print_tokens [] [] [t]) as Hp. rewrite Hs, app_nil_r in Hp.
  apply Hp; [constructor..|done|by constructor|done].
Qed.

Lemma div_exact n u : u ≠ 0 → n mod u = 0 → n / u * u = n.
Proof. intros Hu Hm. pose proof (N.Div0.div_mod n u). lia. Qed.

Lemma parse_format_with units n :
  Forall (λ p, ∃ u, p = (unit_text u, unit_ns u)) units → n < DURATION_LIMIT →
  parse_duration (format_with units n) = Ok n.
Proof.
  intros Hu Hn. induction Hu as [|p units (u & ->) Hu IH]; cbn [format_with].
  - rewrite <-(N.mul_1_r n) at 2. apply (parse_number_unit n Uns). cbn [unit_ns]. lia.
  - destruct (N.eqb_spec (n mod unit_ns u) 0) as [E|E]; [|done].
    assert (n / unit_ns u * unit_ns u = n) as Hd by (apply div_exact; [by destruct u|done]).
    rewrite <-Hd at 2. apply parse_number_unit. by rewrite Hd.
Qed.

(** ** Statements *)

(** Text made of tokens, each a whole or decimal number with its unit,
    with any white space around it, parses to the sum of the tokens, each
    rounded to the nearest nanosecond; no digit is lost to floating point. *)
Theorem parse_duration_sums_tokens lead trail ts :
  Forall (λ c, is_whitespace c = true) lead → Forall (λ c, is_whitespace c = true) trail →
  ts ≠ [] → Forall token_ok ts → tokens_ns ts < DURATION_LIMIT →
  parse_duration (lead ++ print_tokens ts ++ trail) = Ok (tokens_ns ts) ∧
  Forall (λ t, 2 * token_ns t * frac_scale t <= 2 * exact_scaled t + frac_scale t ∧
               2 * exact_scaled t < 2 * token_ns t * frac_scale t + frac_scale t) ts.
Proof.
  intros Hl Ht Hne Hok Hlim. split; [by apply parse_print_tokens|].
  apply Forall_forall. intros t _. apply token_ns_nearest.
Qed.

(** " 1h 30m1.0000000005s": the half nanosecond rounds up. *)
Lemma parse_duration_sums_tokens_witness :
  let ts := [mkToken false (lit "1") [] false Uh 1; mkToken false (lit "30") [] false Um 0;
             mkToken true (lit "1") (lit "0000000005") false Us 0] in
  print_tokens ts = lit "1h 30m+1.0000000005s" ∧
  parse_duration (lit " " ++ print_tokens ts ++ lit " ") = Ok 5401000000001.
Proof.
  intros ts. split; [reflexivity|].
  apply (parse_duration_sums_tokens (lit " ") (lit " ") ts).
  - by repeat constructor.
  - by repeat constructor.
  - done.
  - repeat constructor; done.
  - done.
Defined.

(** What [format_duration] prints for a duration parses back to exactly
    that duration, for every duration the type can hold. *)
Theorem format_duration_roundtrip d :
  d < DURATION_LIMIT → parse_duration (format_duration d) = Ok d.
Proof.
  intros Hd. unfold format_duration. destruct (N.eqb_spec d 0) as [->|Hne]; [reflexivity|].
  apply parse_format_with; [|done]. unfold COARSE_UNITS.
  repeat constructor; [by exists Ud|by exists Uh|by exists Um|by exists Us|by exists Ums|by exists Uus].
Qed.

Lemma format_duration_roundtrip_witness :
  format_duration 5400000000000 = lit "90m" ∧ format_duration 1000000001 = lit "1000000001ns" ∧
  parse_duration (format_duration 5400000000000) = Ok 5400000000000.
Proof. split_and!; [reflexivity..|]. by apply (format_duration_roundtrip 5400000000000). Defined.

(** Digits that change nothing make a text invalid: a tenth of a second
    written with 30 decimals parses, with one more zero it is refused as an
    overflow, because the numerator no longer fits in 128 bits. *)
Theorem long_fraction_is_refused :
  let tenth zeros := lit "0.1" ++ replicate zeros 48 ++ lit "s" in
  parse_duration (tenth 29%nat) = Ok 100000000 ∧
  parse_duration (tenth 30%nat) = Err (Overflow (tenth 30%nat)).
Proof. by vm_compute. Qed.

(** Only spaces separate tokens: a tab, which is white space, does not. *)
Example tab_between_tokens :
  parse_duration (lit "1h" ++ [9] ++ lit "30m") = Err (InvalidNumber ([9] ++ lit "30m")).
Proof. reflexivity. Qed.
