(* ===== verification/TimeInterval.v ===== *)
(** * Periodic schedules and deadlines

    Models [src/crates/astrs-time/src/interval.rs] (the grid of ticks a timer
    fires on, and the paths that name timers) and [deadline.rs].

    A [Duration] is its number of nanoseconds.  An [Instant] is the number of
    nanoseconds from the earliest instant the platform can represent; the
    latest one, [instant_max], is a parameter.  The rate given in hertz is a
    floating-point number: what [from_hz] makes of its text is the parameter
    [hz_period].

    The theorems: [next_tick] is the first point of the grid after an
    instant, and walking it never drifts ([next_tick_walks_the_grid]);
    [ticks_between] counts the grid points of an interval, the anchor
    excepted ([ticks_between_counts_the_grid]). *)

From Stdlib Require Import Lia.
From stdpp Require Import base tactics list strings numbers.
From S2P Require Import Prelude Text TimeDuration.

Open Scope N_scope.

Definition DURATION_MAX : N := DURATION_LIMIT - 1.

(** [as u32] keeps the remainder, which is below a second. *)
Definition duration_from_nanos_u128 (nanos : N) : N :=
  let secs := nanos / NANOS_PER_SEC in
  let subsec_nanos := nanos mod NANOS_PER_SEC in
  if N.leb secs u64_max then secs * NANOS_PER_SEC + subsec_nanos else DURATION_MAX.

Definition saturating_add128 (a b : N) : N := N.min (a + b) u128_max.
Definition saturating_mul128 (a b : N) : N := N.min (a * b) u128_max.

Inductive TimerIntervalError : Set := ZeroPeriod | InvalidHz (value : str).

Inductive TimerSourcePathError : Set :=
  | NotATimerPath (path : str)
  | TimerUnknownUnit (path unit : str)
  | MissingValue (path : str)
  | TrailingSegments (path : str)
  | InvalidValue (path value : str) (e : IntErrorKind)
  | Interval (e : TimerIntervalError).

Record TimerInterval := mkInterval { period : N; anchor : N }.

Section interval.
Context (instant_max : N).

(** ** [Instant] *)

Definition instant_checked_add (t d : N) : option N :=
  if N.leb (t + d) instant_max then Some (t + d) else None.
Definition instant_checked_sub (t d : N) : option N :=
  if N.leb d t then Some (t - d) else None.
Definition checked_duration_since (t earlier : N) : option N :=
  if N.leb earlier t then Some (t - earlier) else None.

(** ** [TimerInterval] *)

Definition with_anchor (period anchor : N) : result TimerIntervalError TimerInterval :=
  if N.eqb period 0 then Err ZeroPeriod else Ok (mkInterval period anchor).

(** The constructors that anchor at the present instant, [now]. *)
Definition from_period (now period : N) : result TimerIntervalError TimerInterval :=
  with_anchor period now.
Definition from_millis (now ms : N) : result TimerIntervalError TimerInterval :=
  from_period now (ms * 1000000).
Definition from_secs (now secs : N) : result TimerIntervalError TimerInterval :=
  from_period now (secs * NANOS_PER_SEC).

Definition rebase (t : TimerInterval) (anchor : N) : TimerInterval := mkInterval (period t) anchor.

(** [segments.next().filter(|s| !s.is_empty())] *)
Definition non_empty (segments : list str) : option str :=
  match segments with
  | [] | [] :: _ => None
  | s :: _ => Some s
  end.

Definition from_virtual_source_path
    (hz_period : str → str → result TimerSourcePathError N) (now : N) (path : str) :
    result TimerSourcePathError TimerInterval :=
  let? rest := ok_or (NotATimerPath path) (strip_prefix (lit "astrs/timer/") path) in
  let segments := split 47 rest in
  let? unit := ok_or (MissingValue path) (non_empty segments) in
  let? value := ok_or (MissingValue path) (non_empty (drop 1 segments)) in
  match drop 2 segments with
  | _ :: _ => Err (TrailingSegments path)
  | [] =>
      if bool_decide (unit = lit "millis") then
        let? ms := map_err (InvalidValue path value) (parse_uint u64_max value) in
        map_err Interval (from_millis now ms)
      else if bool_decide (unit = lit "secs") then
        let? secs := map_err (InvalidValue path value) (parse_uint u64_max value) in
        map_err Interval (from_secs now secs)
      else if bool_decide (unit = lit "hz") then
        let? p := hz_period path value in
        map_err Interval (from_period now p)
      else Err (TimerUnknownUnit path unit)
  end.

Definition next_tick (t : TimerInterval) (after : N) : N :=
  match checked_duration_since after (anchor t) with
  | None => anchor t
  | Some elapsed =>
      let period_ns := N.max (period t) 1 in
      let ticks_elapsed := elapsed / period_ns in
      let next_index := saturating_add128 ticks_elapsed 1 in
      let offset_ns := saturating_mul128 next_index period_ns in
      let offset := duration_from_nanos_u128 offset_ns in
      match instant_checked_add (anchor t) offset with
      | Some r => r
      | None =>
          match instant_checked_add after (period t) with
          | Some r => r
          | None => after
          end
      end
  end.

Definition ticks_elapsed (t : TimerInterval) (at_ : N) : N :=
  match checked_duration_since at_ (anchor t) with
  | Some elapsed => N.min (elapsed / N.max (period t) 1) u64_max
  | None => 0
  end.

Definition ticks_between (t : TimerInterval) (from to : N) : N :=
  if N.leb to from then 0 else saturating_sub (ticks_elapsed t to) (ticks_elapsed t from).

(** ** [Deadline] *)

Definition Deadline : Set := N.

Definition deadline_after (start timeout : N) : option Deadline := instant_checked_add start timeout.
Definition remaining (target : Deadline) (now : N) : N :=
  match checked_duration_since target now with Some d => d | None => 0 end.
Definition is_expired (target : Deadline) (now : N) : bool := N.leb target now.
Definition checked_extend (target : Deadline) (extra : N) : option Deadline :=
  instant_checked_add target extra.
Definition checked_shorten (target : Deadline) (less : N) : option Deadline :=
  instant_checked_sub target less.

(** ** The grid *)

(** The instants a timer fires on. *)
Definition grid (t : TimerInterval) (k : N) : N := anchor t + k * period t.

Definition is_next_grid_point (t : TimerInterval) (after r : N) : Prop :=
  after < r ∧ ∃ k, r = grid t k ∧ ∀ k', after < grid t k' → r <= grid t k'.

Lemma duration_from_nanos_exact n : n < DURATION_LIMIT → duration_from_nanos_u128 n = n.
Proof.
  intros Hn. unfold duration_from_nanos_u128.
  assert (n / NANOS_PER_SEC <= u64_max) as Hq.
  { apply N.lt_succ_r, N.Div0.div_lt_upper_bound. unfold DURATION_LIMIT, two64, u64_max in *. lia. }
  rewrite (proj2 (N.leb_le _ _)) by done.
  by rewrite (N.mul_comm _ NANOS_PER_SEC), <-N.Div0.div_mod.
Qed.

Lemma grid_floor t at_ :
  0 < period t → anchor t <= at_ →
  grid t ((at_ - anchor t) / period t) <= at_ < grid t ((at_ - anchor t) / period t + 1).
Proof.
  intros Hp Ha. unfold grid. pose proof (N.Div0.div_mod (at_ - anchor t) (period t)) as Hd.
  pose proof (N.mod_lt (at_ - anchor t) (period t) ltac:(lia)) as Hm.
  revert Hd Hm. generalize ((at_ - anchor t) / period t) ((at_ - anchor t) mod period t).
  intros q r Hd Hm. nia.
Qed.

Lemma grid_le t k k' : 0 < period t → grid t k <= grid t k' ↔ k <= k'.
Proof. intros Hp. unfold grid. nia. Qed.

Lemma grid_lt t k k' : 0 < period t → grid t k < grid t k' ↔ k < k'.
Proof. intros Hp. unfold grid. nia. Qed.

(** An index is beyond the floor exactly when its instant is beyond. *)
Lemma floor_spec t at_ k :
  0 < period t → anchor t <= at_ → (at_ - anchor t) / period t < k ↔ at_ < grid t k.
Proof.
  intros Hp Ha. pose proof (grid_floor t at_ Hp Ha) as [H1 H2].
  set (q := (at_ - anchor t) / period t) in *. split; intros H.
  - assert (grid t (q + 1) <= grid t k) by (apply grid_le; lia). lia.
  - assert (grid t q < grid t k) as H3 by lia. by apply grid_lt in H3.
Qed.

Lemma ticks_elapsed_floor t at_ :
  0 < period t → (at_ - anchor t) / period t <= u64_max → anchor t <= at_ →
  ticks_elapsed t at_ = (at_ - anchor t) / period t.
Proof.
  intros Hp Hu Ha. unfold ticks_elapsed, checked_duration_since.
  rewrite (proj2 (N.leb_le _ _)) by done. rewrite (N.max_l (period t)) by lia. lia.
Qed.

Lemma ticks_elapsed_spec t at_ k :
  0 < period t → (at_ - anchor t) / period t <= u64_max → 1 <= k →
  ticks_elapsed t at_ < k ↔ at_ < grid t k.
Proof.
  intros Hp Hu Hk. destruct (N.le_gt_cases (anchor t) at_) as [Ha|Ha].
  - rewrite ticks_elapsed_floor by done. by apply floor_spec.
  - unfold ticks_elapsed, checked_duration_since. rewrite (proj2 (N.leb_gt _ _)) by done.
    unfold grid. split; [nia|lia].
Qed.
Context (Hmax : instant_max < DURATION_LIMIT).

(** The step from an instant at or after the anchor. *)
Lemma next_tick_eq t after :
  0 < period t → anchor t <= after →
  let k := (after - anchor t) / period t + 1 in
  grid t k <= instant_max → next_tick t after = grid t k.
Proof.
  intros Hp Ha k Hk. unfold next_tick, checked_duration_since.
  rewrite (proj2 (N.leb_le _ _)) by done. rewrite N.max_l by lia.
  fold k. unfold grid in *.
  assert (k * period t < DURATION_LIMIT) as Hkp by lia.
  assert (k <= k * period t) as Hkk by nia.
  assert (DURATION_LIMIT <= u128_max) as Hl by done.
  assert (saturating_add128 ((after - anchor t) / period t) 1 = k) as ->.
  { unfold saturating_add128. fold k. lia. }
  assert (saturating_mul128 k (period t) = k * period t) as ->.
  { unfold saturating_mul128. lia. }
  rewrite duration_from_nanos_exact by done. unfold instant_checked_add.
  by rewrite (proj2 (N.leb_le _ _)) by done.
Qed.

Lemma next_tick_is_next t after :
  0 < period t → grid t ((after - anchor t) / period t + 1) <= instant_max →
  is_next_grid_point t after (next_tick t after).
Proof.
  intros Hp Hk. destruct (N.le_gt_cases (anchor t) after) as [Ha|Ha].
  - rewrite next_tick_eq by done. split; [by apply grid_floor|].
    exists ((after - anchor t) / period t + 1). split; [done|]. intros k' Hk'.
    apply floor_spec in Hk'; [|done..]. apply grid_le; [done|lia].
  - unfold next_tick, checked_duration_since. rewrite (proj2 (N.leb_gt _ _)) by done.
    split; [done|]. exists 0. unfold grid. split; [lia|]. intros k' _. lia.
Qed.

Lemma next_tick_of_grid t k :
  0 < period t → grid t (k + 1) <= instant_max → next_tick t (grid t k) = grid t (k + 1).
Proof.
  intros Hp Hk.
  assert ((grid t k - anchor t) / period t = k) as E.
  { unfold grid. rewrite N.add_comm, N.add_sub. apply N.div_mul. lia. }
  rewrite next_tick_eq by (rewrite ?E; unfold grid in *; try done; lia). by rewrite E.
Qed.

Lemma next_tick_iter t after n :
  0 < period t → anchor t <= after →
  let q := (after - anchor t) / period t in
  grid t (q + N.of_nat (S n)) <= instant_max →
  Nat.iter (S n) (next_tick t) after = grid t (q + N.of_nat (S n)).
Proof.
  intros Hp Ha q. induction n as [|n IH]; intros Hn.
  - change (Nat.iter 1 (next_tick t) after) with (next_tick t after). by apply next_tick_eq.
  - change (Nat.iter (S (S n)) (next_tick t) after) with (next_tick t (Nat.iter (S n) (next_tick t) after)).
    rewrite IH.
    2:{ etrans; [|exact Hn]. apply grid_le; [done|]. lia. }
    rewrite next_tick_of_grid by (try done; rewrite <-N.add_assoc; replace (N.of_nat (S n) + 1) with (N.of_nat (S (S n))) by lia; done).
    f_equal. lia.
Qed.

End interval.

(** ** Statements *)

(** Whatever instant a scheduler asks at, [next_tick] is the first
    instant of the grid strictly after it; and stepping from tick to tick
    reaches, after [n] steps, the tick [n] periods on from the last one
    before the start, to the nanosecond: a late call never shifts the
    schedule. *)
Theorem next_tick_walks_the_grid instant_max t after n :
  instant_max < DURATION_LIMIT → 0 < period t →
  let q := (after - anchor t) / period t in
  grid t (q + N.of_nat (S n)) <= instant_max →
  is_next_grid_point t after (next_tick instant_max t after) ∧
  (anchor t <= after →
   Nat.iter (S n) (next_tick instant_max t) after = grid t (q + N.of_nat (S n))).
Proof.
  intros Hm Hp q Hn. split; [|intros Ha; by apply next_tick_iter].
  apply next_tick_is_next; [done..|]. etrans; [|exact Hn]. apply grid_le; [done|]. fold q. lia.
Qed.

Lemma next_tick_walks_the_grid_witness :
  let t := mkInterval 100 1000 in
  Nat.iter 3 (next_tick 5000 t) 1250 = 1500 ∧ is_next_grid_point t 1250 1300.
Proof.
  intros t.
  destruct (next_tick_walks_the_grid 5000 t 1250 2 ltac:(done) ltac:(done) ltac:(by vm_compute)) as [H1 H2].
  split; [exact (H2 ltac:(done))|exact H1].
Defined.

(** [ticks_between] is the number of grid points after [from] and up to
    [to], the anchor itself not counted: the indices of those points are
    exactly the ones between the two counts of elapsed periods. *)
Theorem ticks_between_counts_the_grid t from to :
  0 < period t → from <= to → (to - anchor t) / period t <= u64_max →
  ticks_between t from to = ticks_elapsed t to - ticks_elapsed t from ∧
  ∀ k, 1 <= k →
    (ticks_elapsed t from < k <= ticks_elapsed t to) ↔ (from < grid t k <= to).
Proof.
  intros Hp Hft Hu.
  assert ((from - anchor t) / period t <= u64_max) as Hu'.
  { etrans; [|exact Hu]. apply N.Div0.div_le_mono. lia. }
  split.
  - unfold ticks_between, saturating_sub. destruct (N.leb_spec to from) as [Hle|Hlt]; [|done].
    assert (from = to) as -> by lia. lia.
  - intros k Hk. pose proof (ticks_elapsed_spec t from k Hp Hu' Hk) as Hfrom.
    pose proof (ticks_elapsed_spec t to k Hp Hu Hk) as Hto.
    split; intros [H1 H2]; split.
    + by apply Hfrom.
    + apply N.le_ngt. intros H. apply Hto in H. lia.
    + by apply Hfrom.
    + apply N.le_ngt. intros H. apply Hto in H. lia.
Qed.

Lemma ticks_between_counts_the_grid_witness :
  let t := mkInterval 100 1000 in
  ticks_between t 1050 1350 = 3 ∧
  (ticks_elapsed t 1050 < 3 <= ticks_elapsed t 1350) ↔ (1050 < grid t 3 <= 1350).
Proof.
  intros t. pose proof (ticks_between_counts_the_grid t 1050 1350 ltac:(done) ltac:(done) ltac:(by vm_compute)) as [E H].
  specialize (H 3 ltac:(done)). split; intros.
  - by apply H.
  - by split.
Defined.

(** A scheduler that last acted before the anchor and acts again in the
    first period has a tick to deliver, the anchor, which [next_tick] names
    and [ticks_between] does not count. *)
Theorem ticks_between_misses_the_anchor instant_max t from to :
  0 < period t → from < anchor t → anchor t <= to → to < anchor t + period t →
  next_tick instant_max t from = anchor t ∧ ticks_between t from to = 0.
Proof.
  intros Hp Hf Ht Hlt. split.
  - unfold next_tick, checked_duration_since. by rewrite (proj2 (N.leb_gt _ _)) by done.
  - unfold ticks_between, ticks_elapsed, checked_duration_since.
    rewrite (proj2 (N.leb_gt to from)), (proj2 (N.leb_le (anchor t) to)), (proj2 (N.leb_gt (anchor t) from)) by lia.
    rewrite (N.max_l (period t)) by lia. rewrite N.div_small by lia. reflexivity.
Qed.

Lemma ticks_between_misses_the_anchor_witness :
  next_tick 5000 (mkInterval 100 1000) 990 = 1000 ∧ ticks_between (mkInterval 100 1000) 990 1010 = 0.
Proof. by apply (ticks_between_misses_the_anchor 5000 (mkInterval 100 1000) 990 1010). Defined.

(** A deadline has expired exactly when nothing remains of it. *)
Lemma expired_iff_none_remains target now : is_expired target now = true ↔ remaining target now = 0.
Proof.
  unfold is_expired, remaining, checked_duration_since.
  destruct (N.leb_spec target now), (N.leb_spec now target); split; intros; try done; lia.
Qed.

Lemma split_no_sep sep s : Forall (λ c, c ≠ sep) s → split sep s = [s].
Proof.
  induction 1 as [|c s Hc Hs IH]; [done|]. cbn [split].
  destruct (N.eqb_spec sep c); [congruence|]. by rewrite IH.
Qed.

Lemma split_app sep a b : Forall (λ c, c ≠ sep) a → split sep (a ++ sep :: b) = a :: split sep b.
Proof.
  induction 1 as [|c a Hc Ha IH]; cbn [app split]; [by rewrite N.eqb_refl|].
  destruct (N.eqb_spec sep c); [congruence|]. by rewrite IH.
Qed.

(** The path of a timer in milliseconds, for every value the type holds. *)
Lemma millis_path_roundtrip hz now ms :
  ms <= u64_max →
  from_virtual_source_path hz now (lit "astrs/timer/millis/" ++ decimal ms) =
    if N.eqb ms 0 then Err (Interval ZeroPeriod) else Ok (mkInterval (ms * 1000000) now).
Proof.
  intros Hms. unfold from_virtual_source_path.
  change (lit "astrs/timer/millis/" ++ decimal ms)
    with (lit "astrs/timer/" ++ lit "millis" ++ 47 :: decimal ms).
  rewrite strip_prefix_app. cbn [ok_or rbind]. destruct (decimal_spec ms) as (Hne & Hd & _).
  assert (Forall (λ c, c ≠ 47) (decimal ms)) as Hns.
  { eapply Forall_impl; [|exact Hd]. intros c Hc. apply digit_bounds in Hc. lia. }
  rewrite split_app by (by repeat constructor). rewrite split_no_sep by done.
  pose proof (parse_decimal u64_max ms Hms) as Hp. destruct (decimal ms) as [|c s]; [done|].
  cbn -[parse_uint from_millis N.eqb]. rewrite Hp. cbn [map_err rbind].
  unfold from_millis, from_period, with_anchor.
  destruct (N.eqb_spec ms 0) as [->|Hz]; [done|].
  destruct (N.eqb_spec (ms * 1000000) 0); [lia|done].
Qed.
