(* ===== verification/WireMetadata.v ===== *)
(** * Names, port references and message metadata

    Models, of [src/crates/astrs-wire/src]: the validated names of
    [ids/name.rs], the port references of [ids/port.rs], and the metadata
    that rides beside every payload, [metadata/mod.rs], [metadata/keys.rs]
    and [metadata/parameter.rs].

    A floating-point parameter is its 64 bits.

    The theorems: the repaired form of any text is a valid name
    ([sanitized_names_are_valid]); port references print and parse back
    ([port_ref_roundtrip]); what the scheduler reads of the metadata survives
    stripping and following ([correlation_survives]); the goal life cycle
    always moves forward and ends ([goal_status_progress]). *)

From Stdlib Require Import Lia ZArith.
From stdpp Require Import base tactics list gmap strings numbers.
From S2P Require Import Prelude Text TimeHlc.

Open Scope N_scope.

(** ** Names *)

Definition MAX_NAME_LEN : N := 255.

Inductive IdKind : Set := KNode | KData | KOperator | KMachine | KParam | KTypeUrn | KName.

Inductive IdError : Set :=
  | IdEmpty (kind : IdKind)
  | IdTooLong (kind : IdKind) (len max : N)
  | IdInvalidChar (kind : IdKind) (value : str) (ch : char) (index : N)
  | IdMalformed (kind : IdKind) (value reason : str).

#[global] Instance id_kind_eq_dec : EqDecision IdKind.
Proof. solve_decision. Defined.
#[global] Instance id_error_eq_dec : EqDecision IdError.
Proof. solve_decision. Defined.

(** [char::len_utf8] and [str::len]. *)
Definition len_utf8 (c : char) : N :=
  if N.ltb c 0x80 then 1 else if N.ltb c 0x800 then 2 else if N.ltb c 0x10000 then 3 else 4.

Definition byte_len (s : str) : N := foldr (λ c n, len_utf8 c + n) 0 s.

Definition ERROR_VALUE_PREVIEW_LEN : nat := 48.

(** At most 48 characters, then an ellipsis (U+2026). *)
Definition preview (value : str) : str :=
  if Nat.ltb ERROR_VALUE_PREVIEW_LEN (length value)
  then take ERROR_VALUE_PREVIEW_LEN value ++ [0x2026] else value.

Definition is_ascii_alphanumeric (c : char) : bool :=
  is_ascii_digit c || (N.leb 65 c && N.leb c 90) || (N.leb 97 c && N.leb c 122).

Definition is_name_char (c : char) : bool :=
  is_ascii_alphanumeric c || N.eqb c 95 || N.eqb c 46 || N.eqb c 45.

(** The loop of [validate_name] over the characters and their byte offsets. *)
Fixpoint check_chars (kind : IdKind) (value : str) (index : N) (s : str) : result IdError unit :=
  match s with
  | [] => Ok tt
  | c :: s =>
      if is_name_char c then check_chars kind value (index + len_utf8 c) s
      else Err (IdInvalidChar kind (preview value) c index)
  end.

Definition validate_name (kind : IdKind) (value : str) (max : N) : result IdError unit :=
  match value with
  | [] => Err (IdEmpty kind)
  | _ =>
      if N.ltb max (byte_len value) then Err (IdTooLong kind (byte_len value) max)
      else check_chars kind value 0 value
  end.

Definition name_new (kind : IdKind) (value : str) : result IdError str :=
  let? _ := validate_name kind value MAX_NAME_LEN in Ok value.

(** The loop of [sanitized]. *)
Fixpoint repair (repaired s : str) : str :=
  match s with
  | [] => repaired
  | c :: s =>
      let c := if is_name_char c then c else 95 in
      if N.ltb MAX_NAME_LEN (byte_len repaired + len_utf8 c) then repaired
      else repair (repaired ++ [c]) s
  end.

Definition sanitized (value : str) : str :=
  match repair [] value with
  | [] => [95]
  | r => r
  end.

(** [ParamKey::is_internal] *)
Definition is_internal (key : str) : bool :=
  match strip_prefix (lit "_") key with Some _ => true | None => false end.

(** ** Port references *)

Record PortRef := mkPort { pr_node : str; pr_port : str }.

Definition port_from_parts (node port : str) : result IdError PortRef :=
  let? node := name_new KNode node in
  let? port := name_new KData port in
  Ok (mkPort node port).

Definition port_to_string (p : PortRef) : str := pr_node p ++ lit "/" ++ pr_port p.

Definition contains (c : char) (s : str) : bool := existsb (N.eqb c) s.

Definition port_from_str (text : str) : result IdError PortRef :=
  match split_once 47 text with
  | None => Err (IdMalformed KName (preview text) (lit "expected the form `node/port`"))
  | Some (node, port) =>
      if contains 47 port
      then Err (IdMalformed KName (preview text) (lit "more than one '/' in a port reference"))
      else port_from_parts node port
  end.

(** ** Parameters *)

Inductive ParameterValue : Set :=
  | PBool (b : bool)
  | PInteger (i : Z)
  | PFloat (bits : N)
  | PString (s : str)
  | PListInt (l : list Z)
  | PListFloat (l : list N)
  | PListString (l : list str)
  | PTimestamp (t : HlcTimestamp).

#[global] Instance parameter_eq_dec : EqDecision ParameterValue.
Proof. solve_decision. Defined.

Definition as_bool (p : ParameterValue) : option bool := match p with PBool b => Some b | _ => None end.
Definition as_integer (p : ParameterValue) : option Z := match p with PInteger i => Some i | _ => None end.
Definition as_str (p : ParameterValue) : option str := match p with PString s => Some s | _ => None end.

(** ** Well-known keys *)

Definition REQUEST_ID : str := lit "request_id".
Definition GOAL_ID : str := lit "goal_id".
Definition GOAL_STATUS : str := lit "goal_status".
Definition SESSION_ID : str := lit "session_id".
Definition SEGMENT_ID : str := lit "segment_id".
Definition SEQ : str := lit "seq".
Definition FIN : str := lit "fin".
Definition FLUSH : str := lit "flush".
Definition SCHEMA_HASH : str := lit "_schema_hash".

Definition CORRELATION : list str := [REQUEST_ID; GOAL_ID; GOAL_STATUS].
Definition STREAM : list str := [SESSION_ID; SEGMENT_ID; SEQ; FIN; FLUSH].

Definition is_correlation_key (key : str) : bool := existsb (λ k, bool_decide (k = key)) CORRELATION.
Definition is_stream_key (key : str) : bool := existsb (λ k, bool_decide (k = key)) STREAM.

(** ** Goals *)

Inductive GoalStatus : Set := Unknown | Accepted | Executing | Canceling | Succeeded | Canceled | Aborted.

#[global] Instance goal_status_eq_dec : EqDecision GoalStatus.
Proof. solve_decision. Defined.

Definition goal_as_i64 (g : GoalStatus) : Z :=
  match g with
  | Unknown => 0 | Accepted => 1 | Executing => 2 | Canceling => 3
  | Succeeded => 4 | Canceled => 5 | Aborted => 6
  end.

Definition goal_from_i64 (code : Z) : option GoalStatus :=
  match code with
  | 0%Z => Some Unknown | 1%Z => Some Accepted | 2%Z => Some Executing | 3%Z => Some Canceling
  | 4%Z => Some Succeeded | 5%Z => Some Canceled | 6%Z => Some Aborted
  | _ => None
  end.

Definition goal_is_terminal (g : GoalStatus) : bool :=
  match g with Succeeded | Canceled | Aborted => true | _ => false end.

Definition goal_is_active (g : GoalStatus) : bool :=
  match g with Accepted | Executing | Canceling => true | _ => false end.

Definition can_transition_to (g next : GoalStatus) : bool :=
  match g, next with
  | Unknown, Accepted => true
  | Accepted, (Executing | Canceling | Succeeded | Canceled | Aborted) => true
  | Executing, (Canceling | Succeeded | Canceled | Aborted) => true
  | Canceling, (Canceled | Succeeded | Aborted) => true
  | _, _ => false
  end.

(** ** Metadata *)

Definition METADATA_VERSION : N := 1.

Record Metadata := mkMeta {
  md_version : N;
  md_timestamp : HlcTimestamp;
  md_parameters : gmap str ParameterValue
}.

Definition metadata_new (t : HlcTimestamp) : Metadata := mkMeta METADATA_VERSION t ∅.

Definition set_parameters (f : gmap str ParameterValue → gmap str ParameterValue) (m : Metadata) : Metadata :=
  mkMeta (md_version m) (md_timestamp m) (f (md_parameters m)).

Definition md_insert_key (key : str) (value : ParameterValue) (m : Metadata) : Metadata * option ParameterValue :=
  (set_parameters (insert key value) m, md_parameters m !! key).

(** [insert]: the key is checked first. *)
Definition md_insert (key : str) (value : ParameterValue) (m : Metadata) :
    result IdError (Metadata * option ParameterValue) :=
  let? key := name_new KParam key in Ok (md_insert_key key value m).

Definition md_get (key : str) (m : Metadata) : option ParameterValue := md_parameters m !! key.
Definition md_remove (key : str) (m : Metadata) : Metadata * option ParameterValue :=
  (set_parameters (delete key) m, md_parameters m !! key).
Definition md_contains_key (key : str) (m : Metadata) : bool := bool_decide (is_Some (md_get key m)).

(** The new metadata, and how many entries went. *)
Definition strip_internal (m : Metadata) : Metadata * nat :=
  let kept := filter (λ kv, is_internal kv.1 = false) (md_parameters m) in
  (mkMeta (md_version m) (md_timestamp m) kept, (size (md_parameters m) - size kept)%nat).

Definition stripped (m : Metadata) : Metadata := (strip_internal m).1.

Definition is_correlated (m : Metadata) : bool := existsb (λ key, md_contains_key key m) CORRELATION.

Definition is_stream_chunk (m : Metadata) : bool := md_contains_key SESSION_ID m.

Definition follow (m : Metadata) : Metadata :=
  mkMeta METADATA_VERSION (md_timestamp m)
    (filter (λ kv, is_correlation_key kv.1 || is_stream_key kv.1 = true) (md_parameters m)).

(** [set_known]: a key the grammar refuses is ignored. *)
Definition set_known (key : str) (value : ParameterValue) (m : Metadata) : Metadata :=
  match name_new KParam key with
  | Ok key => set_parameters (insert key value) m
  | Err _ => m
  end.

Definition md_request_id (m : Metadata) : option str := md_get REQUEST_ID m ≫= as_str.
Definition set_request_id (id : str) : Metadata → Metadata := set_known REQUEST_ID (PString id).
Definition md_goal_id (m : Metadata) : option str := md_get GOAL_ID m ≫= as_str.
Definition set_goal_id (id : str) : Metadata → Metadata := set_known GOAL_ID (PString id).
Definition md_goal_status (m : Metadata) : option GoalStatus :=
  (md_get GOAL_STATUS m ≫= as_integer) ≫= goal_from_i64.
Definition set_goal_status (g : GoalStatus) : Metadata → Metadata :=
  set_known GOAL_STATUS (PInteger (goal_as_i64 g)).
Definition md_session_id (m : Metadata) : option str := md_get SESSION_ID m ≫= as_str.
Definition set_session_id (id : str) : Metadata → Metadata := set_known SESSION_ID (PString id).
Definition md_segment_id (m : Metadata) : option Z := md_get SEGMENT_ID m ≫= as_integer.
Definition set_segment_id (segment : Z) : Metadata → Metadata := set_known SEGMENT_ID (PInteger segment).
Definition md_seq (m : Metadata) : option Z := md_get SEQ m ≫= as_integer.
Definition set_seq (seq : Z) : Metadata → Metadata := set_known SEQ (PInteger seq).
Definition md_fin (m : Metadata) : option bool := md_get FIN m ≫= as_bool.
Definition set_fin (fin : bool) : Metadata → Metadata := set_known FIN (PBool fin).
Definition md_flush (m : Metadata) : option bool := md_get FLUSH m ≫= as_bool.
Definition set_flush (flush : bool) : Metadata → Metadata := set_known FLUSH (PBool flush).
Definition md_schema_hash (m : Metadata) : option str := md_get SCHEMA_HASH m ≫= as_str.
Definition insert_schema_hash (hash : str) : Metadata → Metadata := set_known SCHEMA_HASH (PString hash).

(** ** Lemmas *)

Definition name_chars (s : str) : Prop := Forall (λ c, is_name_char c = true) s.

Lemma name_char_ascii c : is_name_char c = true → c < 128.
Proof.
  unfold is_name_char, is_ascii_alphanumeric, is_ascii_digit. intros H.
  repeat (apply orb_true_iff in H as [H|H]); bool_to_prop; lia.
Qed.

Lemma len_utf8_ascii c : c < 128 → len_utf8 c = 1.
Proof. intros H. unfold len_utf8. by rewrite (proj2 (N.ltb_lt _ _)). Qed.

Lemma byte_len_cons c s : byte_len (c :: s) = len_utf8 c + byte_len s.
Proof. reflexivity. Qed.

Lemma byte_len_app a b : byte_len (a ++ b) = byte_len a + byte_len b.
Proof.
  induction a as [|c a IH]; [done|]. cbn [app]. rewrite !byte_len_cons, IH. lia.
Qed.

Lemma byte_len_names s : name_chars s → byte_len s = N.of_nat (length s).
Proof.
  induction 1 as [|c s Hc Hs IH]; [done|]. rewrite byte_len_cons. cbn [length].
  rewrite IH, len_utf8_ascii by (by apply name_char_ascii). lia.
Qed.

Lemma check_chars_ok kind v i s : check_chars kind v i s = Ok tt ↔ name_chars s.
Proof.
  revert i. induction s as [|c s IH]; intros i; cbn; [split; [constructor|done]|].
  destruct (is_name_char c) eqn:Hc.
  - rewrite IH. split; [by constructor|]. intros H. by apply Forall_cons_1 in H as [_ ?].
  - split; [done|]. intros H. apply Forall_cons_1 in H as [? _]. congruence.
Qed.

(** What a name is. *)
Lemma validate_name_ok kind v max :
  validate_name kind v max = Ok tt ↔ v ≠ [] ∧ byte_len v <= max ∧ name_chars v.
Proof.
  unfold validate_name. destruct v as [|c v]; [naive_solver|].
  destruct (N.ltb_spec max (byte_len (c :: v))); [split; [done|lia]|].
  rewrite check_chars_ok. naive_solver.
Qed.

Lemma name_new_ok kind v w : name_new kind v = Ok w ↔ w = v ∧ validate_name kind v MAX_NAME_LEN = Ok tt.
Proof.
  unfold name_new. destruct (validate_name kind v MAX_NAME_LEN) as [[]|e]; cbn; [|naive_solver].
  split; [intros [= ->]; done|by intros [-> _]].
Qed.

Lemma underscore_is_name_char : is_name_char 95 = true.
Proof. reflexivity. Qed.

Lemma repair_valid r s :
  name_chars r → byte_len r <= MAX_NAME_LEN →
  name_chars (repair r s) ∧ byte_len (repair r s) <= MAX_NAME_LEN.
Proof.
  revert r. induction s as [|c s IH]; intros r Hr Hl; cbn; [done|].
  assert (is_name_char (if is_name_char c then c else 95) = true) as Hd by (by destruct (is_name_char c) eqn:?).
  destruct (N.ltb_spec MAX_NAME_LEN (byte_len r + len_utf8 (if is_name_char c then c else 95))); [done|].
  apply IH; [apply Forall_app_2; [done|by constructor]|].
  rewrite byte_len_app, byte_len_cons. change (byte_len []) with 0. lia.
Qed.

Lemma repair_nonempty r s : r ≠ [] → repair r s ≠ [].
Proof.
  revert r. induction s as [|c s IH]; intros r Hr; cbn; [done|].
  destruct (N.ltb _ _); [done|]. apply IH. by destruct r.
Qed.

Lemma repair_identity r s :
  name_chars s → byte_len (r ++ s) <= MAX_NAME_LEN → repair r s = r ++ s.
Proof.
  intros Hs. revert r. induction Hs as [|c s Hc Hs IH]; intros r Hl; cbn; [by rewrite app_nil_r|].
  rewrite Hc. rewrite byte_len_app, byte_len_cons in Hl.
  destruct (N.ltb_spec MAX_NAME_LEN (byte_len r + len_utf8 c)); [lia|].
  rewrite IH; [by rewrite <-app_assoc|]. rewrite <-app_assoc, byte_len_app. cbn [app].
  rewrite byte_len_cons. lia.
Qed.

Lemma split_once_first sep a b : existsb (N.eqb sep) a = false → split_once sep (a ++ sep :: b) = Some (a, b).
Proof.
  intros H. apply split_once_app. apply Forall_forall. intros c Hc ->.
  assert (existsb (N.eqb sep) a = true) as E; [|congruence].
  apply existsb_exists. exists sep. split; [done|apply N.eqb_refl].
Qed.

Lemma names_without_slash s : name_chars s → contains 47 s = false.
Proof.
  induction 1 as [|c s Hc Hs IH]; [done|]. cbn [contains existsb].
  apply orb_false_iff. split; [|done]. apply N.eqb_neq. intros <-. done.
Qed.

(** ** Statements *)

(** Whatever text it is given, [sanitized] produces a name the validator
    accepts, and it leaves a valid name alone. *)
Theorem sanitized_names_are_valid kind v :
  name_new kind (sanitized v) = Ok (sanitized v) ∧
  (name_new kind v = Ok v → sanitized v = v).
Proof.
  split.
  - apply name_new_ok. split; [done|]. apply validate_name_ok.
    destruct (repair_valid [] v) as [Hc Hl]; [constructor|done|].
    unfold sanitized. destruct (repair [] v) as [|c r]; [|done].
    split_and!; [done|done|by repeat constructor].
  - intros H. apply name_new_ok in H as [_ H]. apply validate_name_ok in H as (Hne & Hl & Hc).
    unfold sanitized. rewrite repair_identity by done. by destruct v.
Qed.

(** A port reference whose two names are valid prints to text that parses
    back to it, and every text that parses prints back to itself. *)
Theorem port_ref_roundtrip text p :
  port_from_str text = Ok p ↔
  text = port_to_string p ∧ name_new KNode (pr_node p) = Ok (pr_node p) ∧
  name_new KData (pr_port p) = Ok (pr_port p).
Proof.
  unfold port_from_str, port_to_string, port_from_parts. split.
  - destruct (split_once 47 text) as [[a b]|] eqn:Hs; [|done].
    destruct (contains 47 b) eqn:Hb; [done|].
    destruct (name_new KNode a) as [a'|] eqn:Ha; [|done]. apply name_new_ok in Ha as Ha'. destruct Ha' as [-> _].
    cbn [rbind]. destruct (name_new KData b) as [b'|] eqn:Hb'; [|done].
    apply name_new_ok in Hb' as Hb''. destruct Hb'' as [-> _]. cbn [rbind]. intros [= <-].
    cbn [pr_node pr_port]. split; [|done].
    revert Hs. unfold split_once. clear. revert a. induction text as [|c t IH]; intros a; [done|].
    cbn [split_at_first]. destruct (N.eqb_spec 47 c) as [<-|Hc]; [by intros [= <- <-]|].
    destruct (split_at_first (N.eqb 47) t) as [x [|y z]]; [done|].
    intros [= <- <-]. cbn. f_equal. by apply IH.
  - intros (-> & Hn & Hp). apply name_new_ok in Hn as Hn'. destruct Hn' as [_ Hn'].
    apply validate_name_ok in Hn' as (_ & _ & Hnc). apply name_new_ok in Hp as Hp'. destruct Hp' as [_ Hp'].
    apply validate_name_ok in Hp' as (_ & _ & Hpc).
    change (lit "/" ++ pr_port p) with (47 :: pr_port p).
    rewrite split_once_first by (by apply names_without_slash).
    rewrite names_without_slash by done. rewrite Hn. cbn [rbind]. rewrite Hp. by destruct p.
Qed.

(** What the scheduler and the reply path read of a message's metadata
    survives: removing the internal entries and deriving a follow-up keep
    every correlation key and its value, and only the internal entries,
    respectively only entries that are neither correlation nor stream keys,
    go. *)
Theorem correlation_survives m key :
  is_correlated (stripped m) = is_correlated m ∧
  is_correlated (follow m) = is_correlated m ∧
  md_get key (stripped m) = (if is_internal key then None else md_get key m) ∧
  md_get key (follow m) = (if is_correlation_key key || is_stream_key key then md_get key m else None).
Proof.
  assert (∀ key, md_get key (stripped m) = if is_internal key then None else md_get key m) as Hst.
  { intros k. unfold md_get, stripped, strip_internal. cbn [md_parameters fst].
    destruct (is_internal k) eqn:E.
    - apply map_lookup_filter_None. right. intros p _. cbn [fst]. by rewrite E.
    - destruct (md_parameters m !! k) as [p|] eqn:Hp.
      + by apply map_lookup_filter_Some.
      + apply map_lookup_filter_None. by left. }
  assert (∀ key, md_get key (follow m) =
    if is_correlation_key key || is_stream_key key then md_get key m else None) as Hfo.
  { intros k. unfold md_get, follow. cbn [md_parameters].
    destruct (is_correlation_key k || is_stream_key k) eqn:E.
    - destruct (md_parameters m !! k) as [p|] eqn:Hp.
      + by apply map_lookup_filter_Some.
      + apply map_lookup_filter_None. by left.
    - apply map_lookup_filter_None. right. intros p _. cbn [fst]. by rewrite E. }
  split_and!; [| |apply Hst|apply Hfo].
  - unfold is_correlated, md_contains_key, CORRELATION. cbn [existsb]. by rewrite !Hst.
  - unfold is_correlated, md_contains_key, CORRELATION. cbn [existsb]. by rewrite !Hfo.
Qed.

(** The goals a transition leads to lie strictly later. *)
Definition goal_rank (g : GoalStatus) : nat :=
  match g with Unknown => 4 | Accepted => 3 | Executing => 2 | Canceling => 1 | _ => 0 end.

(** The goal life cycle always moves forward: a transition lowers the
    number of steps left, so no status repeats and at most four transitions
    follow each other; a status allows no transition exactly when it is
    terminal, and the code of a status reads back as the status. *)
Theorem goal_status_progress g :
  (∀ h, can_transition_to g h = true → (goal_rank h < goal_rank g)%nat) ∧
  (goal_is_terminal g = true ↔ ∀ h, can_transition_to g h = false) ∧
  goal_from_i64 (goal_as_i64 g) = Some g ∧
  (∀ code h, goal_from_i64 code = Some h → goal_as_i64 h = code).
Proof.
  split_and!.
  - by destruct g, h; cbn; (done || lia).
  - split; [by destruct g|]. intros H. pose proof (H Accepted). pose proof (H Aborted). by destruct g.
  - by destruct g.
  - intros code h. unfold goal_from_i64.
    destruct code as [|p|p]; [by intros [= <-]| |done].
    destruct p as [[[p|p|]|[p|p|]|]|[[p|p|]|[p|p|]|]|]; intros E; by inversion E.
Qed.

(** What the setters write the getters read. *)
Lemma set_known_get key v m : name_new KParam key = Ok key → md_get key (set_known key v m) = Some v.
Proof. intros H. unfold set_known, md_get. rewrite H. apply lookup_insert_eq. Qed.

Lemma request_id_reads_back id m : md_request_id (set_request_id id m) = Some id.
Proof. unfold md_request_id, set_request_id. by rewrite set_known_get. Qed.

Lemma goal_status_reads_back g m : md_goal_status (set_goal_status g m) = Some g.
Proof. unfold md_goal_status, set_goal_status. rewrite set_known_get by done. by destruct g. Qed.
