(* ===== verification/SchedQueue.v ===== *)
(** * Input queues

    Models, of [src/crates/astrs-scheduler/src]: the bounded queue of a node
    input ([queue.rs]), the view a queue has of its messages
    ([metadata_view.rs], a type class) and the errors ([error.rs]); and the
    queue policies of [astrs-wire/src/common/node.rs].

    A push or a pop holds the queue's lock while it changes the messages, and
    the counters are only added to: sequences of pushes and pops cover every
    interleaving.  The length is compared after a cast to 32 bits, and the
    counters wrap at 64 bits, as in the code.

    The theorems: over any sequence of pushes and pops, every correlated
    message and every stop signal is delivered or still queued, in order, the
    other messages never exceed the capacity, and the counters account for
    every message ([queue_keeps_its_promises]); what one push does, branch by
    branch ([push_outcomes]). *)

From Stdlib Require Import Lia.
From stdpp Require Import base tactics gmap strings numbers list.
From S2P Require Import Prelude Text TimeHlc WireMetadata.

Open Scope N_scope.

(** ** Messages *)

Class MetadataView (T : Type) := {
  metadata : T → option Metadata;
  is_stop_signal : T → bool
}.

Definition is_evict_immune `{MetadataView T} (t : T) : bool :=
  is_stop_signal t || match metadata t with Some m => is_correlated m | None => false end.

(** A payload with optional metadata and a stop flag. *)
Record Envelope (T : Type) := mkEnvelope { payload : T; env_metadata : option Metadata; env_stop : bool }.
Arguments mkEnvelope {T} _ _ _.
Arguments payload {T} _.
Arguments env_metadata {T} _.
Arguments env_stop {T} _.

Definition envelope_new {T} (payload : T) : Envelope T := mkEnvelope payload None false.
Definition envelope_with_metadata {T} (payload : T) (m : Metadata) : Envelope T :=
  mkEnvelope payload (Some m) false.
Definition stop_signal : Envelope unit := mkEnvelope tt None true.

#[global] Instance envelope_view {T} : MetadataView (Envelope T) :=
  {| metadata := env_metadata; is_stop_signal := env_stop |}.

(** ** Policies *)

Inductive QueuePolicy : Set := DropOldest | Backpressure.

#[global] Instance queue_policy_eq_dec : EqDecision QueuePolicy.
Proof. solve_decision. Defined.

Definition overflow_multiplier (p : QueuePolicy) : N :=
  match p with DropOldest => 1 | Backpressure => 10 end.

Inductive SchedulerError : Set := ZeroCapacity | DuplicateInput (id : str).

Inductive PushOutcome : Set := Enqueued | EnqueuedEvicting | DroppedIncoming.

Inductive QueueSignal : Set :=
  | BackpressureExhausted (queue_size buffered : N)
  | ImmuneOverflow (immune_count capacity : N).

Record PushReport := mkReport { outcome : PushOutcome; signal : option QueueSignal }.

(** ** The queue *)

Definition two32 : N := 4294967296.
Definition as_u32 (n : N) : N := n mod two32.
Definition saturating_mul32 (a b : N) : N := N.min (a * b) (two32 - 1).
(** [fetch_add(1, ..)] on a 64-bit counter. *)
Definition fetch_add1 (n : N) : N := (n + 1) mod two64.

Record InputQueue (T : Type) := mkQueue {
  items : list T;
  immune_count : N;
  capacity : N;
  effective_capacity : N;
  policy : QueuePolicy;
  depth : N;
  immune_count_gauge : N;
  delivered : N;
  dropped : N;
  immune_overflow_events : N
}.
Arguments mkQueue {T} _ _ _ _ _ _ _ _ _ _.
Arguments items {T} _.
Arguments immune_count {T} _.
Arguments capacity {T} _.
Arguments effective_capacity {T} _.
Arguments policy {T} _.
Arguments depth {T} _.
Arguments immune_count_gauge {T} _.
Arguments delivered {T} _.
Arguments dropped {T} _.
Arguments immune_overflow_events {T} _.

Definition queue_new {T} (capacity : N) (policy : QueuePolicy) : result SchedulerError (InputQueue T) :=
  if N.eqb capacity 0 then Err ZeroCapacity
  else Ok (mkQueue [] 0 capacity (saturating_mul32 capacity (overflow_multiplier policy)) policy
             0 0 0 0 0).

Definition len {T} (q : InputQueue T) : N := N.of_nat (length (items q)).

(** The field updates of [push] and [pop]. *)
Definition set_items {T} (l : list T) (immune : N) (q : InputQueue T) : InputQueue T :=
  mkQueue l immune (capacity q) (effective_capacity q) (policy q) (depth q) (immune_count_gauge q)
    (delivered q) (dropped q) (immune_overflow_events q).
Definition sync_gauges {T} (q : InputQueue T) : InputQueue T :=
  mkQueue (items q) (immune_count q) (capacity q) (effective_capacity q) (policy q)
    (len q) (immune_count q) (delivered q) (dropped q) (immune_overflow_events q).
Definition add_dropped {T} (q : InputQueue T) : InputQueue T :=
  mkQueue (items q) (immune_count q) (capacity q) (effective_capacity q) (policy q) (depth q)
    (immune_count_gauge q) (delivered q) (fetch_add1 (dropped q)) (immune_overflow_events q).
Definition add_delivered {T} (q : InputQueue T) : InputQueue T :=
  mkQueue (items q) (immune_count q) (capacity q) (effective_capacity q) (policy q) (depth q)
    (immune_count_gauge q) (fetch_add1 (delivered q)) (dropped q) (immune_overflow_events q).
Definition add_immune_overflow {T} (q : InputQueue T) : InputQueue T :=
  mkQueue (items q) (immune_count q) (capacity q) (effective_capacity q) (policy q) (depth q)
    (immune_count_gauge q) (delivered q) (dropped q) (fetch_add1 (immune_overflow_events q)).

Section queue.
Context `{MetadataView T}.

(** [iter().position(|existing| !existing.is_evict_immune())] *)
Fixpoint position (l : list T) : option nat :=
  match l with
  | [] => None
  | t :: l => if negb (is_evict_immune t) then Some 0%nat else S <$> position l
  end.

(** [VecDeque::remove]: out of range it does nothing. *)
Definition remove_at (n : nat) (l : list T) : list T := take n l ++ drop (S n) l.

Definition push (item : T) (q : InputQueue T) : InputQueue T * PushReport :=
  let immune := is_evict_immune item in
  let at_ceiling := N.leb (effective_capacity q) (as_u32 (len q)) in
  if negb at_ceiling then
    let q := set_items (items q ++ [item]) (if immune then immune_count q + 1 else immune_count q) q in
    (sync_gauges q, mkReport Enqueued None)
  else if immune then
    let q := set_items (items q ++ [item]) (immune_count q + 1) q in
    let overflowed := N.ltb (effective_capacity q) (as_u32 (len q)) in
    let q := sync_gauges q in
    if overflowed
    then (add_immune_overflow q,
          mkReport Enqueued (Some (ImmuneOverflow (immune_count q) (effective_capacity q))))
    else (q, mkReport Enqueued None)
  else
    match policy q with
    | DropOldest =>
        if N.leb (len q) (immune_count q)
        then (add_immune_overflow (add_dropped q),
              mkReport DroppedIncoming (Some (ImmuneOverflow (immune_count q) (effective_capacity q))))
        else
          let victim := match position (items q) with Some v => v | None => 0%nat end in
          let q := set_items (remove_at victim (items q) ++ [item]) (immune_count q) q in
          (sync_gauges (add_dropped q), mkReport EnqueuedEvicting None)
    | Backpressure =>
        let buffered := as_u32 (len q) in
        (add_dropped q,
         mkReport DroppedIncoming (Some (BackpressureExhausted (capacity q) buffered)))
    end.

Definition pop (q : InputQueue T) : InputQueue T * option T :=
  match items q with
  | [] => (q, None)
  | item :: rest =>
      let immune := if is_evict_immune item then saturating_sub (immune_count q) 1 else immune_count q in
      (add_delivered (sync_gauges (set_items rest immune q)), Some item)
  end.

(** ** Invariant *)

Definition immunes (l : list T) : list T := filter (λ t, is_evict_immune t = true) l.
Definition ordinary (l : list T) : list T := filter (λ t, is_evict_immune t = false) l.

Record queue_ok (q : InputQueue T) : Prop := mkQueueOk {
  qo_immune : immune_count q = N.of_nat (length (immunes (items q)));
  qo_depth : depth q = len q;
  qo_gauge : immune_count_gauge q = immune_count q;
  qo_capacity : 1 <= effective_capacity q < two32;
  qo_bound : N.of_nat (length (ordinary (items q))) <= effective_capacity q
}.

Lemma split_lengths l : (length (immunes l) + length (ordinary l) = length l)%nat.
Proof.
  induction l as [|t l IH]; [done|]. unfold immunes, ordinary in *. rewrite !filter_cons.
  destruct (is_evict_immune t); cbn [length]; repeat case_decide; cbn [length]; try done; lia.
Qed.

Lemma immunes_app l l' : immunes (l ++ l') = immunes l ++ immunes l'.
Proof. apply filter_app. Qed.

Lemma ordinary_app l l' : ordinary (l ++ l') = ordinary l ++ ordinary l'.
Proof. apply filter_app. Qed.

Lemma immunes_one t : immunes [t] = if is_evict_immune t then [t] else [].
Proof. unfold immunes. rewrite filter_cons, filter_nil. by destruct (is_evict_immune t). Qed.

Lemma ordinary_one t : ordinary [t] = if is_evict_immune t then [] else [t].
Proof. unfold ordinary. rewrite filter_cons, filter_nil. by destruct (is_evict_immune t). Qed.

Lemma ordinary_nil l : ordinary l = [] → Forall (λ t, is_evict_immune t = true) l.
Proof.
  induction l as [|t l IH]; [constructor|]. unfold ordinary in *. rewrite filter_cons.
  destruct (is_evict_immune t) eqn:E; [|done]. case_decide; [done|]. intros Hl. constructor; auto.
Qed.

(** The victim is the oldest message that is not immune. *)
Lemma position_spec l :
  ordinary l ≠ [] → ∃ a v b, l = a ++ v :: b ∧ Forall (λ t, is_evict_immune t = true) a ∧
    is_evict_immune v = false ∧ position l = Some (length a).
Proof.
  induction l as [|t l IH]; [done|]. intros Ho. cbn [position].
  destruct (is_evict_immune t) eqn:E; cbn [negb]; [|by exists [], t, l].
  destruct IH as (a & v & b & -> & Ha & Hv & Hp).
  { unfold ordinary in *. rewrite filter_cons in Ho. case_decide; [congruence|done]. }
  exists (t :: a), v, b. rewrite Hp. split_and!; [done|by constructor|done|done].
Qed.

Lemma remove_at_app (a : list T) v b : remove_at (length a) (a ++ v :: b) = a ++ b.
Proof.
  unfold remove_at. rewrite take_app_length. f_equal.
  replace (S (length a)) with (length (a ++ [v])) by (rewrite length_app; cbn; lia).
  change (v :: b) with ([v] ++ b). by rewrite (app_assoc a [v] b), drop_app_length.
Qed.

Lemma as_u32_small n : n < two32 → as_u32 n = n.
Proof. intros Hn. by apply N.mod_small. Qed.

(** What a push does, branch by branch. *)
Definition push_spec (t : T) (q q' : InputQueue T) (r : PushReport) : Prop :=
  if N.ltb (len q) (effective_capacity q) then
    items q' = items q ++ [t] ∧ dropped q' = dropped q ∧ r = mkReport Enqueued None
  else if is_evict_immune t then
    items q' = items q ++ [t] ∧ dropped q' = dropped q ∧
    r = mkReport Enqueued (Some (ImmuneOverflow (immune_count q + 1) (effective_capacity q)))
  else
    dropped q' = fetch_add1 (dropped q) ∧
    match policy q with
    | DropOldest =>
        (Forall (λ m, is_evict_immune m = true) (items q) ∧ items q' = items q ∧
         r = mkReport DroppedIncoming (Some (ImmuneOverflow (immune_count q) (effective_capacity q)))) ∨
        (∃ a v b, items q = a ++ v :: b ∧ Forall (λ m, is_evict_immune m = true) a ∧
          is_evict_immune v = false ∧ items q' = a ++ b ++ [t] ∧ r = mkReport EnqueuedEvicting None)
    | Backpressure =>
        items q' = items q ∧
        r = mkReport DroppedIncoming (Some (BackpressureExhausted (capacity q) (len q)))
    end.

Definition same_config (q q' : InputQueue T) : Prop :=
  capacity q' = capacity q ∧ effective_capacity q' = effective_capacity q ∧
  policy q' = policy q ∧ delivered q' = delivered q.

Lemma push_meets_spec t q :
  queue_ok q → len q + 1 < two32 → push_spec t q (push t q).1 (push t q).2 ∧ same_config q (push t q).1.
Proof.
  intros [Hi _ _ Hc Hb] Hl. unfold push, push_spec. rewrite (as_u32_small (len q)) by lia.
  destruct (N.leb_spec (effective_capacity q) (len q)) as [Hfull|Hfree]; cbn [negb];
    [rewrite (proj2 (N.ltb_ge _ _)) by done|by rewrite (proj2 (N.ltb_lt _ _))].
  destruct (is_evict_immune t) eqn:Et.
  - assert (len (set_items (items q ++ [t]) (immune_count q + 1) q) = len q + 1) as El.
    { unfold len. cbn. rewrite length_app. cbn. lia. }
    rewrite El. rewrite as_u32_small by done. cbn [effective_capacity set_items].
    by rewrite (proj2 (N.ltb_lt _ _)) by lia.
  - destruct (policy q) eqn:Hp; [|done].
    pose proof (split_lengths (items q)) as Hsplit.
    destruct (N.leb_spec (len q) (immune_count q)) as [Hall|Hsome]; cbn [fst snd]; (split; [|done]); (split; [done|]).
    + left. split; [|done]. apply ordinary_nil, nil_length_inv. unfold len in *. lia.
    + right. destruct (position_spec (items q)) as (a & v & b & E & Ha & Hv & Hpos).
      { intros E. rewrite E in Hsplit. unfold len in *. cbn in Hsplit. lia. }
      exists a, v, b. split_and!; [done..| |done]. cbn [items sync_gauges add_dropped set_items].
      rewrite Hpos, E, remove_at_app. by rewrite <-app_assoc.
Qed.

Lemma push_ok t q : queue_ok q → len q + 1 < two32 → queue_ok (push t q).1.
Proof.
  intros Hq Hl. pose proof (push_meets_spec t q Hq Hl) as [Hs (_ & He & Hpol & _)].
  destruct Hq as [Hi Hd Hg Hc Hb].
  assert (immune_count (push t q).1 = N.of_nat (length (immunes (items (push t q).1))) ∧
    N.of_nat (length (ordinary (items (push t q).1))) <= effective_capacity q) as [H1 H2].
  { revert Hs. unfold push_spec.
    assert (immune_count (push t q).1 = immune_count q + (if is_evict_immune t then 1 else 0)) as Hcnt.
    { unfold push. repeat split_match; cbn; bool_to_prop; try congruence; lia. }
    rewrite Hcnt. pose proof (split_lengths (items q)) as Hsplit.
    destruct (N.ltb_spec (len q) (effective_capacity q)) as [Hlt|Hge].
    - intros (-> & _). rewrite immunes_app, ordinary_app, !length_app, immunes_one, ordinary_one.
      unfold len in Hlt. destruct (is_evict_immune t); cbn [length]; lia.
    - destruct (is_evict_immune t) eqn:Et.
      + intros (-> & _). rewrite immunes_app, ordinary_app, !length_app, immunes_one, ordinary_one, Et.
        cbn [length]. lia.
      + intros (_ & Hm). destruct (policy q).
        * destruct Hm as [(_ & -> & _)|(a & v & b & E & _ & Hv & -> & _)]; [lia|].
          rewrite E in Hi, Hb. rewrite !immunes_app, !ordinary_app, !length_app, immunes_one, ordinary_one, Et.
          change (v :: b) with ([v] ++ b) in Hi, Hb.
          rewrite !immunes_app, immunes_one, Hv, !length_app in Hi.
          rewrite !ordinary_app, ordinary_one, Hv, !length_app in Hb. cbn [length] in *. lia.
        * destruct Hm as (-> & _). lia. }
  split; [done| | |by rewrite He|by rewrite He].
  - unfold push. repeat split_match; cbn; try done.
  - unfold push. repeat split_match; cbn; try done.
Qed.
Lemma pop_ok q : queue_ok q → queue_ok (pop q).1.
Proof.
  intros [Hi Hd Hg Hc Hb]. unfold pop. destruct (items q) as [|t rest] eqn:E; cbn [fst].
  { split; rewrite ?E; done. }
  change (t :: rest) with ([t] ++ rest) in Hi, Hb.
  rewrite immunes_app, immunes_one, length_app in Hi. rewrite ordinary_app, ordinary_one, length_app in Hb.
  split; cbn [immune_count items depth len effective_capacity add_delivered sync_gauges set_items immune_count_gauge];
    unfold saturating_sub in *; try done; destruct (is_evict_immune t); cbn [length] in *; lia.
Qed.

Lemma pop_spec q :
  match pop q with
  | (q', None) => q' = q ∧ items q = []
  | (q', Some t) =>
      items q = t :: items q' ∧ delivered q' = fetch_add1 (delivered q) ∧ dropped q' = dropped q ∧
      effective_capacity q' = effective_capacity q ∧ policy q' = policy q
  end.
Proof. unfold pop. by destruct (items q). Qed.

(** ** Histories *)

Inductive queue_op := QPush (t : T) | QPop.

(** A queue with everything pushed onto it and popped from it so far. *)
Record ledger := mkLedger { l_queue : InputQueue T; l_pushed : list T; l_popped : list T }.

Definition ledger_step (l : ledger) (o : queue_op) : ledger :=
  match o with
  | QPush t => mkLedger (push t (l_queue l)).1 (l_pushed l ++ [t]) (l_popped l)
  | QPop =>
      match pop (l_queue l) with
      | (q, None) => mkLedger q (l_pushed l) (l_popped l)
      | (q, Some t) => mkLedger q (l_pushed l) (l_popped l ++ [t])
      end
  end.

Definition ledger_run (q : InputQueue T) (os : list queue_op) : ledger :=
  foldl ledger_step (mkLedger q [] []) os.

(** The messages pushed by a sequence of operations. *)
Definition pushed_of (os : list queue_op) : list T :=
  omap (λ o, match o with QPush t => Some t | QPop => None end) os.

Record ledger_ok (cap : N) (l : ledger) : Prop := mkLedgerOk {
  lo_queue : queue_ok (l_queue l);
  lo_cap : effective_capacity (l_queue l) = cap;
  lo_order : l_popped l ++ items (l_queue l) `sublist_of` l_pushed l;
  lo_immune : immunes (l_popped l ++ items (l_queue l)) = immunes (l_pushed l);
  lo_delivered : delivered (l_queue l) = N.of_nat (length (l_popped l));
  lo_dropped : dropped (l_queue l) + N.of_nat (length (l_popped l)) + len (l_queue l) =
               N.of_nat (length (l_pushed l))
}.

Lemma fetch_add1_small n : n + 1 < two32 → fetch_add1 n = n + 1.
Proof. intros Hn. apply N.mod_small. unfold two32, two64 in *. lia. Qed.

Lemma push_ledger_ok cap l t :
  ledger_ok cap l → N.of_nat (length (l_pushed l)) + 1 < two32 → ledger_ok cap (ledger_step l (QPush t)).
Proof.
  intros [Hq Hcap Ho Hi Hdl Hdr] Hn. cbn [ledger_step].
  assert (len (l_queue l) + 1 < two32) as Hl by lia.
  pose proof (push_ok t _ Hq Hl) as Hq'. pose proof (push_meets_spec t _ Hq Hl) as [Hs (_ & He & _ & Hd)].
  destruct (push t (l_queue l)) as [q' r]. cbn [fst snd] in *.
  assert (∀ keep, items q' = keep ++ [t] → keep `sublist_of` items (l_queue l) →
    immunes keep = immunes (items (l_queue l)) →
    l_popped l ++ items q' `sublist_of` l_pushed l ++ [t] ∧
    immunes (l_popped l ++ items q') = immunes (l_pushed l ++ [t])) as Hacc.
  { intros keep -> Hsub Him. rewrite app_assoc. split.
    - apply sublist_app; [|done]. etrans; [|exact Ho]. by apply sublist_app.
    - rewrite !(immunes_app _ [t]), <-Hi, !immunes_app. by rewrite Him. }
  assert (items q' = items (l_queue l) → is_evict_immune t = false →
    l_popped l ++ items q' `sublist_of` l_pushed l ++ [t] ∧
    immunes (l_popped l ++ items q') = immunes (l_pushed l ++ [t])) as Hrej.
  { intros -> Et. split; [by apply sublist_inserts_r|].
    by rewrite (immunes_app (l_pushed l)), <-Hi, immunes_one, Et, app_nil_r. }
  unfold len in Hdr.
  assert ((l_popped l ++ items q' `sublist_of` l_pushed l ++ [t] ∧
    immunes (l_popped l ++ items q') = immunes (l_pushed l ++ [t])) ∧
    dropped q' + N.of_nat (length (items q')) = dropped (l_queue l) + N.of_nat (length (items (l_queue l))) + 1)
    as [[H1 H2] H3].
  { unfold push_spec in Hs. destruct (N.ltb _ _).
    - destruct Hs as (E & -> & _). split; [by apply (Hacc (items (l_queue l)))|]. rewrite E, length_app. cbn. lia.
    - destruct (is_evict_immune t) eqn:Et.
      + destruct Hs as (E & -> & _). split; [by apply (Hacc (items (l_queue l)))|]. rewrite E, length_app. cbn. lia.
      + destruct Hs as (Ed & Hm). rewrite Ed, fetch_add1_small by lia. destruct (policy (l_queue l)).
        * destruct Hm as [(_ & E & _)|(a & v & b & E & _ & Hv & E' & _)]; [split; [by apply Hrej|rewrite E; lia]|].
          split.
          -- apply (Hacc (a ++ b)); [by rewrite <-app_assoc|rewrite E; apply sublist_app; [done|by apply sublist_cons]|].
             rewrite E, !immunes_app. change (v :: b) with ([v] ++ b). by rewrite immunes_app, immunes_one, Hv.
          -- rewrite E', E, !length_app. cbn. lia.
        * destruct Hm as (E & _). split; [by apply Hrej|rewrite E; lia]. }
  split; cbn [l_queue l_pushed l_popped]; [done|congruence|done|done|by rewrite Hd|].
  rewrite length_app. unfold len. cbn [length]. lia.
Qed.

Lemma pop_ledger_ok cap l :
  ledger_ok cap l → N.of_nat (length (l_pushed l)) < two32 → ledger_ok cap (ledger_step l QPop).
Proof.
  intros [Hq Hcap Ho Hi Hdl Hdr] Hn. cbn [ledger_step].
  pose proof (pop_ok _ Hq) as Hq'. pose proof (pop_spec (l_queue l)) as Hs.
  destruct (pop (l_queue l)) as [q' [t|]]; cbn [fst] in *.
  - destruct Hs as (E & Hd & Hdr' & He & Hp). unfold len in *. rewrite E in *.
    split; cbn [l_queue l_pushed l_popped].
    + done.
    + congruence.
    + by rewrite <-app_assoc.
    + by rewrite <-app_assoc.
    + rewrite Hd, length_app. cbn [length] in *. rewrite fetch_add1_small by lia. lia.
    + unfold len. rewrite length_app. cbn [length] in *. lia.
  - destruct Hs as (-> & _). by split.
Qed.

Lemma ledger_run_ok cap os l :
  ledger_ok cap l → N.of_nat (length (l_pushed l) + length (pushed_of os)) + 1 < two32 →
  ledger_ok cap (foldl ledger_step l os) ∧
  l_pushed (foldl ledger_step l os) = l_pushed l ++ pushed_of os.
Proof.
  revert l. induction os as [|o os IH]; intros l Hl Hn; [by rewrite app_nil_r|]. destruct o as [t|].
  - change (pushed_of (QPush t :: os)) with (t :: pushed_of os) in *. cbn [length foldl] in *.
    destruct (IH (ledger_step l (QPush t))) as [H1 H2].
    + apply push_ledger_ok; [done|lia].
    + cbn [ledger_step l_pushed]. rewrite length_app. cbn [length]. lia.
    + split; [done|]. rewrite H2. cbn [ledger_step l_pushed]. by rewrite <-app_assoc.
  - change (pushed_of (QPop :: os)) with (pushed_of os) in *. cbn [foldl].
    assert (l_pushed (ledger_step l QPop) = l_pushed l) as E.
    { cbn. by destruct (pop (l_queue l)) as [q' [t|]]. }
    destruct (IH (ledger_step l QPop)) as [H1 H2].
    + apply pop_ledger_ok; [done|lia].
    + rewrite E. lia.
    + split; [done|]. by rewrite H2, E.
Qed.

Lemma queue_new_ok capacity policy q :
  capacity < two32 → queue_new (T:=T) capacity policy = Ok q →
  ledger_ok (N.min (capacity * overflow_multiplier policy) (two32 - 1)) (mkLedger q [] []).
Proof.
  intros Hc. unfold queue_new. destruct (N.eqb_spec capacity 0) as [|Hne]; [done|]. intros [= <-].
  assert (1 <= saturating_mul32 capacity (overflow_multiplier policy) < two32) as Hcap.
  { unfold saturating_mul32, two32 in *. destruct policy; cbn [overflow_multiplier]; lia. }
  split; [split|..]; try done. cbn. lia.
Qed.
End queue.

(** ** Statements *)

(** C37. Over any sequence of pushes and pops on a new queue: what was popped
    followed by what is queued is, in order, part of what was pushed; every
    correlated message and every stop signal pushed was popped or is queued,
    in order, none lost; at most the effective capacity of other messages is
    queued; and the counters account for every message: pushed is delivered
    plus dropped plus queued. *)
Theorem queue_keeps_its_promises `{MetadataView T} capacity policy (q : InputQueue T) os :
  capacity < two32 → N.of_nat (length (pushed_of os)) + 1 < two32 → queue_new capacity policy = Ok q →
  let l := ledger_run q os in
  let queued := items (l_queue l) in
  let pushed := pushed_of os in
  l_popped l ++ queued `sublist_of` pushed ∧
  immunes (l_popped l ++ queued) = immunes pushed ∧
  N.of_nat (length (ordinary queued)) <= capacity * overflow_multiplier policy ∧
  depth (l_queue l) = N.of_nat (length queued) ∧
  immune_count (l_queue l) = N.of_nat (length (immunes queued)) ∧
  delivered (l_queue l) = N.of_nat (length (l_popped l)) ∧
  delivered (l_queue l) + dropped (l_queue l) + depth (l_queue l) = N.of_nat (length pushed).
Proof.
  intros Hc Hn Hq l queued pushed.
  destruct (ledger_run_ok _ os _ (queue_new_ok _ _ _ Hc Hq)) as [Hok Hp]; [done|].
  cbn [l_pushed app] in Hp. fold (ledger_run q os) in Hok, Hp. fold l in Hok, Hp. fold pushed in Hp.
  destruct Hok as [[Hi Hd Hg _ Hb] Hcap Ho Him Hdl Hdr]. rewrite Hp in Ho, Him, Hdr.
  split_and!; [done|done| |by rewrite Hd|done|done|].
  - unfold queued. etrans; [exact Hb|]. rewrite Hcap. lia.
  - rewrite Hd, Hdl. lia.
Qed.

(** A queue of one message: a plain message is pushed, then a request, then
    two more plain messages. *)
Lemma queue_keeps_its_promises_witness :
  let req := envelope_with_metadata 2%nat (set_request_id (lit "r") (metadata_new EPOCH)) in
  let os := [QPush (envelope_new 1%nat); QPush req; QPush (envelope_new 3%nat); QPush (envelope_new 4%nat); QPop] in
  let q := mkQueue [] 0 1 1 DropOldest 0 0 0 0 0 in
  payload <$> l_popped (ledger_run q os) = [2%nat] ∧
  payload <$> items (l_queue (ledger_run q os)) = [4%nat] ∧
  payload <$> immunes (l_popped (ledger_run q os) ++ items (l_queue (ledger_run q os))) = [2%nat].
Proof.
  intros req os q. split_and!; [by vm_compute..|].
  assert (1 < two32) as H1 by done. assert (N.of_nat (length (pushed_of os)) + 1 < two32) as H2 by done.
  assert (queue_new 1 DropOldest = Ok q) as H3 by done.
  destruct (queue_keeps_its_promises 1 DropOldest q os H1 H2 H3) as (_ & E & _).
  rewrite E. by vm_compute.
Defined.

(** What one push does on every branch: below the effective capacity the
    message is appended; at it, an immune message is appended with an
    overflow signal, and an ordinary one replaces the oldest ordinary message
    or, when there is none or the policy does not evict, is refused with the
    policy's signal.  The queue stays well-formed. *)
Theorem push_outcomes `{MetadataView T} (t : T) (q : InputQueue T) :
  queue_ok q → len q + 1 < two32 →
  queue_ok (push t q).1 ∧ push_spec t q (push t q).1 (push t q).2.
Proof. intros Hq Hl. split; [by apply push_ok|by apply push_meets_spec]. Qed.

Lemma push_outcomes_witness :
  let q := mkQueue [envelope_new 1%nat; mkEnvelope 2%nat None true; envelope_new 3%nat] 1 3 3 DropOldest 3 1 0 0 0 in
  outcome (push (envelope_new 4%nat) q).2 = EnqueuedEvicting ∧ queue_ok (push (envelope_new 4%nat) q).1.
Proof.
  intros q. split; [by vm_compute|]. by apply (push_outcomes (envelope_new 4%nat) q).
Defined.

(** A queue under back-pressure that is full of immune messages refuses
    an ordinary one as if its buffer were exhausted by traffic, and does not
    count it as an immune overflow. *)
Theorem backpressure_hides_immune_overflow `{MetadataView T} (t : T) (q : InputQueue T) :
  queue_ok q → len q + 1 < two32 → policy q = Backpressure →
  Forall (λ m, is_evict_immune m = true) (items q) → effective_capacity q <= len q →
  is_evict_immune t = false →
  signal (push t q).2 = Some (BackpressureExhausted (capacity q) (len q)) ∧
  immune_overflow_events (push t q).1 = immune_overflow_events q.
Proof.
  intros _ Hl Hp _ Hfull Et. unfold push. rewrite as_u32_small by lia.
  rewrite (proj2 (N.leb_le _ _)) by done. cbn [negb]. by rewrite Et, Hp.
Qed.

Lemma backpressure_hides_immune_overflow_witness :
  let q := mkQueue (replicate 10 (mkEnvelope 0%nat None true)) 10 1 10 Backpressure 10 10 0 0 0 in
  signal (push (envelope_new 1%nat) q).2 = Some (BackpressureExhausted 1 10) ∧
  immune_overflow_events (push (envelope_new 1%nat) q).1 = 0.
Proof.
  intros q. apply (backpressure_hides_immune_overflow (envelope_new 1%nat) q); try done.
  by apply Forall_replicate.
Defined.
