(* ===== verification/SchedMux.v ===== *)
(** * The event mux

    Models [src/crates/astrs-scheduler/src/mux.rs]: the merged event stream
    of a node, over the queues of its inputs.

    A queue is shared between the registry and the handle of its producer
    (an [Arc]), and outlives its registration: queues live in a heap, the
    registry and the handles hold locations.  Registration, delivery and a
    push each take their locks once, so histories are sequences of steps.

    The theorems: the control lane pre-empts the data lane and a delivery
    fails only when every queue is empty ([control_lane_preempts]); within a
    lane, an input that stays ready is served before the other inputs of the
    lane have been served as many times as there are of them
    ([mux_is_fair]); the registry stays consistent ([mux_ok_preserved]). *)

From Stdlib Require Import Lia.
From stdpp Require Import base tactics gmap strings numbers list.
From S2P Require Import Prelude Text TimeHlc WireMetadata SchedQueue.

Open Scope nat_scope.

Inductive PriorityLane : Set := LaneData | LaneControl.

(** What [register_from_spec] reads of an [InputSpec]. *)
Record InputSpec := mkSpec {
  spec_id : str;
  queue_size : N;
  queue_policy : QueuePolicy;
  priority_lane : PriorityLane
}.

Record Lane := mkLane { ids : list str; last_served : option str }.

Definition lane_default : Lane := mkLane [] None.

Definition loc : Set := nat.

Record InputHandle := mkHandle { h_id : str; h_queue : loc }.

Record EventMux (T : Type) := mkMux {
  control : Lane;
  data : Lane;
  queues : gmap str loc;
  heap : gmap loc (InputQueue T);
  next_loc : loc
}.
Arguments mkMux {T} _ _ _ _ _.
Arguments control {T} _.
Arguments data {T} _.
Arguments queues {T} _.
Arguments heap {T} _.
Arguments next_loc {T} _.

Definition mux_new {T} : EventMux T := mkMux lane_default lane_default ∅ ∅ 0.

(** [iter().position(|candidate| candidate == id)] *)
Fixpoint index_of (id : str) (l : list str) : option nat :=
  match l with
  | [] => None
  | x :: l => if bool_decide (x = id) then Some 0 else S <$> index_of id l
  end.

Definition push_id (id : str) (l : Lane) : Lane := mkLane (ids l ++ [id]) (last_served l).
Definition retain_not (id : str) (l : Lane) : Lane :=
  mkLane (filter (λ x, x ≠ id) (ids l)) (last_served l).

Section mux.
Context `{MetadataView T}.

Definition register_input (id : str) (capacity : N) (policy : QueuePolicy) (lane : PriorityLane)
    (m : EventMux T) : EventMux T * result SchedulerError InputHandle :=
  match queue_new capacity policy with
  | Err e => (m, Err e)
  | Ok queue =>
      match queues m !! id with
      | Some _ => (m, Err (DuplicateInput id))
      | None =>
          let q := next_loc m in
          (mkMux (match lane with LaneControl => push_id id (control m) | LaneData => control m end)
                 (match lane with LaneControl => data m | LaneData => push_id id (data m) end)
                 (<[id := q]> (queues m)) (<[q := queue]> (heap m)) (S q),
           Ok (mkHandle id q))
      end
  end.

Definition register_from_spec (s : InputSpec) : EventMux T → EventMux T * result SchedulerError InputHandle :=
  register_input (spec_id s) (queue_size s) (queue_policy s) (priority_lane s).

Definition unregister_input (id : str) (m : EventMux T) : EventMux T * bool :=
  match queues m !! id with
  | None => (m, false)
  | Some _ =>
      (mkMux (retain_not id (control m)) (retain_not id (data m)) (delete id (queues m))
         (heap m) (next_loc m), true)
  end.

(** The producer's side: it reaches the queue without the registry. *)
Definition handle_push (h : InputHandle) (item : T) (m : EventMux T) : EventMux T * option PushReport :=
  match heap m !! h_queue h with
  | None => (m, None)
  | Some q =>
      let '(q, report) := push item q in
      (mkMux (control m) (data m) (queues m) (<[h_queue h := q]> (heap m)) (next_loc m), Some report)
  end.

(** The queue an id is registered with. *)
Definition queue_of (qs : gmap str loc) (h : gmap loc (InputQueue T)) (id : str) :
    option (loc * InputQueue T) :=
  match qs !! id with
  | None => None
  | Some q => (λ queue, (q, queue)) <$> h !! q
  end.

(** The loop of [scan] over the offsets. *)
Fixpoint scan_loop (l : Lane) (qs : gmap str loc) (h : gmap loc (InputQueue T)) (start : nat)
    (offsets : list nat) : gmap loc (InputQueue T) * option (str * T) :=
  match offsets with
  | [] => (h, None)
  | offset :: offsets =>
      match ids l !! ((start + offset) mod length (ids l)) with
      | None => (h, None)
      | Some id =>
          match queue_of qs h id with
          | None => scan_loop l qs h start offsets
          | Some (q, queue) =>
              match pop queue with
              | (queue, Some item) => (<[q := queue]> h, Some (id, item))
              | (_, None) => scan_loop l qs h start offsets
              end
          end
      end
  end.

Definition scan_start (l : Lane) : nat :=
  match last_served l with
  | Some id =>
      match index_of id (ids l) with
      | Some p => (p + 1) mod length (ids l)
      | None => 0
      end
  | None => 0
  end.

Definition scan (l : Lane) (qs : gmap str loc) (h : gmap loc (InputQueue T)) :
    Lane * gmap loc (InputQueue T) * option (str * T) :=
  if bool_decide (length (ids l) = 0) then (l, h, None)
  else
    match scan_loop l qs h (scan_start l) (seq 0 (length (ids l))) with
    | (h, Some (id, item)) => (mkLane (ids l) (Some id), h, Some (id, item))
    | (h, None) => (l, h, None)
    end.

Definition try_recv (m : EventMux T) : EventMux T * option (str * T) :=
  match scan (control m) (queues m) (heap m) with
  | (control, heap, Some hit) => (mkMux control (data m) (queues m) heap (next_loc m), Some hit)
  | (control, heap, None) =>
      let '(data, heap, hit) := scan (data m) (queues m) heap in
      (mkMux control data (queues m) heap (next_loc m), hit)
  end.

Definition queue_snapshot (id : str) (m : EventMux T) : option (InputQueue T) :=
  snd <$> queue_of (queues m) (heap m) id.

(** ** Scans *)

(** An input has a message waiting. *)
Definition ready (qs : gmap str loc) (h : gmap loc (InputQueue T)) (id : str) : Prop :=
  ∃ q queue, queue_of qs h id = Some (q, queue) ∧ items queue ≠ [].

(** The input a scan looks at with an offset. *)
Definition at_offset (l : Lane) (start o : nat) : option str := ids l !! ((start + o) mod length (ids l)).

Lemma at_offset_some l start o : ids l ≠ [] → is_Some (at_offset l start o).
Proof.
  intros Hne. apply lookup_lt_is_Some. apply Nat.mod_upper_bound. by destruct (ids l).
Qed.

(** What the loop finds: the first offset whose input is ready. *)
Lemma scan_loop_spec l qs h start offsets :
  ids l ≠ [] →
  match scan_loop l qs h start offsets with
  | (h', None) => h' = h ∧ ∀ o id, o ∈ offsets → at_offset l start o = Some id → ¬ ready qs h id
  | (h', Some (id, item)) =>
      ∃ pre o post q queue rest, offsets = pre ++ o :: post ∧ at_offset l start o = Some id ∧
        (∀ o' id', o' ∈ pre → at_offset l start o' = Some id' → ¬ ready qs h id') ∧
        queue_of qs h id = Some (q, queue) ∧ items queue = item :: rest ∧
        h' = <[q := (pop queue).1]> h
  end.
Proof.
  intros Hne. induction offsets as [|o offsets IH]; cbn [scan_loop].
  { split; [done|]. intros o id Ho. by apply not_elem_of_nil in Ho. }
  destruct (at_offset_some l start o Hne) as [id Hid]. unfold at_offset in Hid. rewrite Hid.
  assert (¬ ready qs h id →
    match scan_loop l qs h start offsets with
    | (h', None) => h' = h ∧ ∀ o' id', o' ∈ o :: offsets → at_offset l start o' = Some id' → ¬ ready qs h id'
    | (h', Some (id', item)) =>
        ∃ pre o' post q queue rest, o :: offsets = pre ++ o' :: post ∧ at_offset l start o' = Some id' ∧
          (∀ o'' id'', o'' ∈ pre → at_offset l start o'' = Some id'' → ¬ ready qs h id'') ∧
          queue_of qs h id' = Some (q, queue) ∧ items queue = item :: rest ∧
          h' = <[q := (pop queue).1]> h
    end) as Hskip.
  { intros Hnr. destruct (scan_loop l qs h start offsets) as [h' [[id' item]|]].
    - destruct IH as (pre & o' & post & q & queue & rest & -> & Ho' & Hpre & Hq).
      exists (o :: pre), o', post, q, queue, rest. split; [done|]. split; [done|]. split; [|done].
      intros o'' id'' Hin E. apply elem_of_cons in Hin as [->|Hin]; [|by eapply Hpre].
      unfold at_offset in E. rewrite Hid in E. by injection E as <-.
    - destruct IH as [-> Hall]. split; [done|]. intros o' id' Hin E.
      apply elem_of_cons in Hin as [->|Hin]; [|by eapply Hall].
      unfold at_offset in E. rewrite Hid in E. by injection E as <-. }
  destruct (queue_of qs h id) as [[q queue]|] eqn:Hq.
  - unfold pop. destruct (items queue) as [|item rest] eqn:Hi.
    + apply Hskip. intros (q' & queue' & E & Hne'). rewrite Hq in E. injection E as <- <-. done.
    + exists [], o, offsets, q, queue, rest. split_and!; [done|done|by intros ?? ?%not_elem_of_nil|done|done|].
      unfold pop. by rewrite Hi.
  - apply Hskip. intros (q' & queue' & E & _). congruence.
Qed.

Lemma scan_start_lt l : ids l ≠ [] → scan_start l < length (ids l).
Proof.
  intros Hne. assert (0 < length (ids l)) by (destruct (ids l); [done|cbn; lia]).
  unfold scan_start. destruct (last_served l) as [id|]; [|done].
  destruct (index_of id (ids l)); [|done]. apply Nat.mod_upper_bound. lia.
Qed.

(** Where an input stands in the rotation: [d] inputs come before it. *)
Definition at_distance (l : Lane) (x : str) (d : nat) : Prop :=
  d < length (ids l) ∧ at_offset l (scan_start l) d = Some x.

Lemma distance_exists l x : x ∈ ids l → ∃ d, at_distance l x d.
Proof.
  intros Hx. apply list_elem_of_lookup_1 in Hx as [p Hp]. pose proof (lookup_lt_Some _ _ _ Hp) as Hlt.
  assert (ids l ≠ []) as Hne by (by destruct (ids l)).
  pose proof (scan_start_lt l Hne) as Hs.
  set (n := length (ids l)) in *. set (start := scan_start l) in *.
  destruct (decide (start <= p)) as [Hle|Hgt].
  - exists (p - start). split; [lia|]. unfold at_offset. fold n start.
    rewrite Nat.mod_small by lia. by replace (start + (p - start)) with p by lia.
  - exists (p + n - start). split; [lia|]. unfold at_offset. fold n start.
    replace (start + (p + n - start)) with (p + 1 * n) by lia.
    by rewrite Nat.Div0.mod_add, Nat.mod_small by lia.
Qed.

Lemma index_of_lookup l id p : NoDup l → l !! p = Some id → index_of id l = Some p.
Proof.
  intros Hnd. revert p. induction Hnd as [|x l Hx Hnd IH]; intros p Hp; [done|]. cbn [index_of].
  destruct p as [|p]; cbn in Hp.
  - injection Hp as ->. by rewrite bool_decide_true.
  - rewrite bool_decide_false; [by rewrite (IH p)|]. intros ->. apply Hx. by eapply list_elem_of_lookup_2.
Qed.

(** The outcome of a scan. *)
Lemma scan_spec l qs h :
  match scan l qs h with
  | (l', h', None) => l' = l ∧ h' = h ∧ ∀ id, id ∈ ids l → ¬ ready qs h id
  | (l', h', Some (id, item)) =>
      l' = mkLane (ids l) (Some id) ∧ id ∈ ids l ∧
      (∃ q queue rest, queue_of qs h id = Some (q, queue) ∧ items queue = item :: rest ∧
        h' = <[q := (pop queue).1]> h) ∧
      ∃ o, at_offset l (scan_start l) o = Some id ∧ o < length (ids l) ∧
        ∀ o' id', o' < o → at_offset l (scan_start l) o' = Some id' → ¬ ready qs h id'
  end.
Proof.
  unfold scan. case_bool_decide as Hz.
  { apply nil_length_inv in Hz. rewrite Hz. split_and!; [done|done|]. by intros id ?%not_elem_of_nil. }
  assert (ids l ≠ []) as Hne by (intros E; by rewrite E in Hz).
  pose proof (scan_loop_spec l qs h (scan_start l) (seq 0 (length (ids l))) Hne) as Hs.
  destruct (scan_loop l qs h (scan_start l) (seq 0 (length (ids l)))) as [h' [[id item]|]].
  - destruct Hs as (pre & o & post & q & queue & rest & E & Ho & Hpre & Hq & Hi & Hh).
    split_and!; [done| | |].
    + unfold at_offset in Ho. by eapply list_elem_of_lookup_2.
    + by exists q, queue, rest.
    + assert (o = length pre) as ->.
      { assert (seq 0 (length (ids l)) !! length pre = Some o) as Ho'
          by (rewrite E; by apply list_lookup_middle).
        apply lookup_seq in Ho' as [Ho' _]. lia. }
      exists (length pre). split; [done|]. split.
      { assert (length (seq 0 (length (ids l))) = length (pre ++ length pre :: post)) as El by (by rewrite E).
        rewrite length_seq, length_app in El. cbn in El. lia. }
      intros o' id' Hlt Ho'. eapply (Hpre o'); [|done].
      assert (seq 0 (length (ids l)) !! o' = Some o') as Hso.
      { apply lookup_seq. split; [lia|].
        assert (length (seq 0 (length (ids l))) = length (pre ++ length pre :: post)) as El by (by rewrite E).
        rewrite length_seq, length_app in El. cbn in El. lia. }
      rewrite E, lookup_app_l in Hso by done. by eapply list_elem_of_lookup_2.
  - destruct Hs as [-> Hall]. split_and!; [done|done|]. intros id Hid.
    destruct (distance_exists l id Hid) as (d & Hd & Hat). apply (Hall d); [|done].
    apply elem_of_seq. lia.
Qed.

(** A scan that serves another input brings a ready one closer. *)
Lemma scan_progress l qs h x d :
  NoDup (ids l) → at_distance l x d → ready qs h x →
  match scan l qs h with
  | (l', _, Some (id, _)) => id = x ∨ ∃ d', d' < d ∧ at_distance l' x d'
  | (_, _, None) => False
  end.
Proof.
  intros Hnd [Hd Hx] Hr. pose proof (scan_spec l qs h) as Hs.
  assert (x ∈ ids l) as Hin by (unfold at_offset in Hx; by eapply list_elem_of_lookup_2).
  destruct (scan l qs h) as [[l' h'] [[id item]|]].
  - destruct Hs as (-> & Hid & _ & o & Ho & Hon & Hbefore).
    assert (o <= d) as Hod.
    { apply Nat.nlt_ge. intros Hlt. by apply (Hbefore d x). }
    destruct (decide (o = d)) as [->|Hne]; [left; congruence|right].
    exists (d - o - 1). split; [lia|]. unfold at_distance, at_offset in *. cbn [ids]. split; [lia|].
    set (n := length (ids l)) in *. set (start := scan_start l) in *.
    assert (scan_start (mkLane (ids l) (Some id)) = ((start + o) mod n + 1) mod n) as ->.
    { unfold scan_start. cbn [last_served ids]. by rewrite (index_of_lookup _ _ _ Hnd Ho). }
    rewrite Nat.Div0.add_mod_idemp_l, <-Nat.add_assoc, Nat.Div0.add_mod_idemp_l.
    by replace (start + o + (1 + (d - o - 1))) with (start + d) by lia.
  - by destruct Hs as (_ & _ & Hall); eapply Hall.
Qed.

(** ** The registry *)

Record mux_ok (m : EventMux T) : Prop := mkMuxOk {
  mo_nodup : NoDup (ids (control m) ++ ids (data m));
  mo_ids id : id ∈ ids (control m) ++ ids (data m) ↔ is_Some (queues m !! id);
  mo_heap id q : queues m !! id = Some q → is_Some (heap m !! q);
  mo_inj id id' q : queues m !! id = Some q → queues m !! id' = Some q → id = id';
  mo_fresh q : is_Some (heap m !! q) → q < next_loc m
}.

Definition lane_of (p : PriorityLane) (m : EventMux T) : Lane :=
  match p with LaneControl => control m | LaneData => data m end.

Lemma lane_nodup p m : mux_ok m → NoDup (ids (lane_of p m)).
Proof. intros [Hn _ _ _ _]. apply NoDup_app in Hn as (? & _ & ?). by destruct p. Qed.

Lemma mux_new_ok : mux_ok mux_new.
Proof.
  split; cbn; try done; [constructor| |intros q [? E]; by rewrite lookup_empty in E].
  intros id. rewrite lookup_empty. split; [by intros ?%not_elem_of_nil|by intros [? ?]].
Qed.

(** What [try_recv] does. *)
Definition delivers (m m' : EventMux T) (id : str) (item : T) : Prop :=
  ∃ q queue rest, queue_of (queues m) (heap m) id = Some (q, queue) ∧ items queue = item :: rest ∧
    heap m' = <[q := (pop queue).1]> (heap m).

Lemma try_recv_spec m :
  match try_recv m with
  | (m', Some (id, item)) =>
      queues m' = queues m ∧ next_loc m' = next_loc m ∧ delivers m m' id item ∧
      (id ∈ ids (control m) ∨
       id ∈ ids (data m) ∧ ∀ c, c ∈ ids (control m) → ¬ ready (queues m) (heap m) c)
  | (m', None) =>
      m' = m ∧ ∀ id, id ∈ ids (control m) ++ ids (data m) → ¬ ready (queues m) (heap m) id
  end.
Proof.
  unfold try_recv. pose proof (scan_spec (control m) (queues m) (heap m)) as Hc.
  destruct (scan (control m) (queues m) (heap m)) as [[lc hc] [[id item]|]].
  - destruct Hc as (-> & Hin & Hd & _). split_and!; [done|done|done|by left].
  - destruct Hc as (-> & -> & Hall). pose proof (scan_spec (data m) (queues m) (heap m)) as Hd.
    destruct (scan (data m) (queues m) (heap m)) as [[ld hd] [[id item]|]].
    + destruct Hd as (-> & Hin & Hd & _). split_and!; [done|done|done|by right].
    + destruct Hd as (-> & -> & Hall'). split; [by destruct m|]. intros id Hid.
      apply elem_of_app in Hid as [?|?]; auto.
Qed.

(** The lanes keep their inputs. *)
Lemma try_recv_ids p m : ids (lane_of p (try_recv m).1) = ids (lane_of p m).
Proof.
  unfold try_recv. pose proof (scan_spec (control m) (queues m) (heap m)) as Hc.
  destruct (scan (control m) (queues m) (heap m)) as [[lc hc] [[id item]|]].
  - destruct Hc as (-> & _). by destruct p.
  - destruct Hc as (-> & -> & _). pose proof (scan_spec (data m) (queues m) (heap m)) as Hd.
    destruct (scan (data m) (queues m) (heap m)) as [[ld hd] [[id item]|]];
      destruct Hd as (-> & _); by destruct p.
Qed.

Lemma heap_update_ok m m' q queue :
  mux_ok m → (∀ p, ids (lane_of p m') = ids (lane_of p m)) → queues m' = queues m →
  is_Some (heap m !! q) → heap m' = <[q := queue]> (heap m) → next_loc m' = next_loc m → mux_ok m'.
Proof.
  intros [Hn Hi Hh Hj Hf] Hl Hq Hs He Hx.
  pose proof (Hl LaneControl) as Hc. pose proof (Hl LaneData) as Hd. cbn in Hc, Hd.
  assert (∀ q', is_Some (heap m' !! q') ↔ is_Some (heap m !! q')) as Hdom.
  { intros q'. rewrite He, lookup_insert_is_Some. split; [|destruct (decide (q = q')); naive_solver].
    intros [<-|[_ ?]]; done. }
  split; rewrite ?Hc, ?Hd, ?Hq, ?Hx; try done.
  - intros id q' E. apply Hdom. by eapply Hh.
  - intros q' ?%Hdom. by apply Hf.
Qed.

Lemma try_recv_ok m : mux_ok m → mux_ok (try_recv m).1.
Proof.
  intros Hm. pose proof (try_recv_spec m) as Hs. pose proof (λ p, try_recv_ids p m) as Hl.
  destruct (try_recv m) as [m' [[id item]|]]; cbn [fst] in *.
  - destruct Hs as (Hq & Hx & (q & queue & rest & Hqo & _ & He) & _).
    eapply (heap_update_ok m m' q); try done.
    unfold queue_of in Hqo. destruct (queues m !! id) as [q'|]; [|done].
    apply fmap_Some in Hqo as (queue' & Hh & [= <- <-]). by exists queue.
  - by destruct Hs as (-> & _).
Qed.

Lemma handle_push_ok h t m : mux_ok m → mux_ok (handle_push h t m).1.
Proof.
  intros Hm. unfold handle_push. destruct (heap m !! h_queue h) as [q|] eqn:E; [|done].
  destruct (push t q) as [q' r]. by eapply (heap_update_ok m _ (h_queue h) q').
Qed.

Lemma register_input_ok id c p lane m : mux_ok m → mux_ok (register_input id c p lane m).1.
Proof.
  intros [Hn Hi Hh Hj Hf]. unfold register_input. destruct (queue_new c p) as [queue|e]; [|done].
  destruct (queues m !! id) as [q|] eqn:Hid; [done|]. cbn [fst].
  assert (id ∉ ids (control m) ++ ids (data m)) as Hnew.
  { intros Hin. apply Hi in Hin as [? E]. congruence. }
  assert (ids (match lane with LaneControl => push_id id (control m) | LaneData => control m end) ++
          ids (match lane with LaneControl => data m | LaneData => push_id id (data m) end) ≡ₚ
          id :: ids (control m) ++ ids (data m)) as Hperm.
  { destruct lane; cbn [push_id ids]; solve_Permutation. }
  assert (∀ id', queues m !! id' ≠ Some (next_loc m)) as Hnl.
  { intros id' E. pose proof (Hf _ (Hh _ _ E)). lia. }
  split; cbn [control data queues heap next_loc].
  - rewrite Hperm. by constructor.
  - intros id'. rewrite Hperm, elem_of_cons, lookup_insert_is_Some, Hi.
    destruct (decide (id = id')); naive_solver.
  - intros id' q'. rewrite lookup_insert_Some, lookup_insert_is_Some.
    intros [[<- <-]|[_ E]]; [by left|]. right. split; [intros <-; by eapply Hnl|by eapply Hh].
  - intros id1 id2 q'. rewrite !lookup_insert_Some.
    intros [[<- <-]|[_ E1]] [[<- E]|[_ E2]]; [done|by destruct (Hnl id2)|subst q'; by destruct (Hnl id1)|by eapply Hj].
  - intros q'. rewrite lookup_insert_is_Some. intros [<-|[_ ?%Hf]]; lia.
Qed.

Lemma unregister_input_ok id m : mux_ok m → mux_ok (unregister_input id m).1.
Proof.
  intros [Hn Hi Hh Hj Hf]. unfold unregister_input. destruct (queues m !! id) as [q|] eqn:Hid; [|done].
  cbn [fst]. split; cbn [control data queues heap next_loc retain_not ids]; [..|done].
  - rewrite <-filter_app. by apply NoDup_filter.
  - intros id'. rewrite <-filter_app, list_elem_of_filter, Hi, lookup_delete_is_Some. naive_solver.
  - intros id' q'. rewrite lookup_delete_Some. intros [_ E]. by eapply Hh.
  - intros id1 id2 q'. rewrite !lookup_delete_Some. intros [_ E1] [_ E2]. by eapply Hj.
Qed.

(** ** Histories *)

Inductive mux_op :=
  | MRegister (id : str) (capacity : N) (policy : QueuePolicy) (lane : PriorityLane)
  | MUnregister (id : str)
  | MPush (h : InputHandle) (t : T)
  | MRecv.

Definition mux_step (m : EventMux T) (o : mux_op) : EventMux T :=
  match o with
  | MRegister id c p l => (register_input id c p l m).1
  | MUnregister id => (unregister_input id m).1
  | MPush h t => (handle_push h t m).1
  | MRecv => (try_recv m).1
  end.

(** The registry stays consistent through every history. *)
Lemma mux_run_ok os m : mux_ok m → mux_ok (foldl mux_step m os).
Proof.
  revert m. induction os as [|o os IH]; intros m Hm; [done|]. apply IH.
  destruct o; cbn [mux_step].
  - by apply register_input_ok.
  - by apply unregister_input_ok.
  - by apply handle_push_ok.
  - by apply try_recv_ok.
Qed.

(** What a history of pushes and deliveries delivers. *)
Fixpoint served (m : EventMux T) (os : list mux_op) : list (str * T) :=
  match os with
  | [] => []
  | o :: os =>
      match o, (try_recv m).2 with
      | MRecv, Some hit => hit :: served (mux_step m o) os
      | _, _ => served (mux_step m o) os
      end
  end.

(** No registration in a history, and [x] has a message before each
    delivery. *)
Fixpoint stays_ready (x : str) (m : EventMux T) (os : list mux_op) : Prop :=
  match os with
  | [] => True
  | o :: os =>
      match o with
      | MRecv => ready (queues m) (heap m) x
      | MPush _ _ => True
      | _ => False
      end ∧ stays_ready x (mux_step m o) os
  end.

Definition from_lane (p : PriorityLane) (m : EventMux T) (hits : list (str * T)) : list (str * T) :=
  filter (λ hit, hit.1 ∈ ids (lane_of p m)) hits.

(** One delivery, seen from an input of the lane that is ready. *)
Lemma try_recv_progress p m x d :
  mux_ok m → at_distance (lane_of p m) x d → ready (queues m) (heap m) x →
  match try_recv m with
  | (m', Some (id, _)) =>
      id = x ∨ (id ∈ ids (lane_of p m) ∧ ∃ d', d' < d ∧ at_distance (lane_of p m') x d') ∨
      (id ∉ ids (lane_of p m) ∧ at_distance (lane_of p m') x d)
  | (_, None) => False
  end.
Proof.
  intros Hm Hd Hr. pose proof (lane_nodup p m Hm) as Hnd. unfold try_recv.
  destruct p; cbn [lane_of] in *.
  - pose proof (scan_spec (control m) (queues m) (heap m)) as Hc.
    destruct (scan (control m) (queues m) (heap m)) as [[lc hc] [[id item]|]].
    + destruct Hc as (_ & Hin & _). right. right. split; [|done]. intros Hin'.
      destruct Hm as [Hn _ _ _ _]. apply NoDup_app in Hn as (_ & Hn & _). by apply (Hn id).
    + destruct Hc as (_ & -> & _). pose proof (scan_progress _ _ _ _ _ Hnd Hd Hr) as Hp.
      pose proof (scan_spec (data m) (queues m) (heap m)) as Hs.
      destruct (scan (data m) (queues m) (heap m)) as [[ld hd] [[id item]|]]; [|done].
      destruct Hp as [->|Hp]; [by left|]. right. left. split; [apply Hs|done].
  - pose proof (scan_progress _ _ _ _ _ Hnd Hd Hr) as Hp.
    pose proof (scan_spec (control m) (queues m) (heap m)) as Hs.
    destruct (scan (control m) (queues m) (heap m)) as [[lc hc] [[id item]|]]; [|done].
    destruct Hp as [->|Hp]; [by left|]. right. left. split; [apply Hs|done].
Qed.

Lemma handle_push_lane p h t m : lane_of p (handle_push h t m).1 = lane_of p m.
Proof.
  unfold handle_push. destruct (heap m !! h_queue h) as [q|]; [|done].
  destruct (push t q). by destruct p.
Qed.

Lemma from_lane_ids p m m' hits :
  ids (lane_of p m') = ids (lane_of p m) → from_lane p m' hits = from_lane p m hits.
Proof. intros E. unfold from_lane. by rewrite E. Qed.

Lemma waits_at_most p m x d os :
  mux_ok m → at_distance (lane_of p m) x d → stays_ready x m os → x ∉ (served m os).*1 →
  length (from_lane p m (served m os)) <= d.
Proof.
  revert m d. induction os as [|o os IH]; intros m d Hm Hd Hr Hx; [cbn; lia|].
  destruct Hr as [Hr Hrs]. destruct o as [| |h t|]; [done|done|..]; cbn [served mux_step] in *.
  - rewrite <-(from_lane_ids p m (handle_push h t m).1) by (by rewrite handle_push_lane).
    apply IH; [by apply handle_push_ok| |done|].
    + by rewrite handle_push_lane.
    + by destruct (try_recv m).2.
  - pose proof (try_recv_progress p m x d Hm Hd Hr) as Hp. pose proof (try_recv_ok m Hm) as Hm'.
    pose proof (try_recv_ids p m) as Hids.
    destruct (try_recv m) as [m' [[id item]|]]; [|done]. cbn [fst snd] in *.
    rewrite fmap_cons, not_elem_of_cons in Hx. destruct Hx as [Hne Hx]. cbn [fst] in Hne.
    unfold from_lane at 1. rewrite filter_cons. cbn [fst]. fold (from_lane p m (served m' os)).
    rewrite <-(from_lane_ids p m m') by done.
    destruct Hp as [->|[(Hin & d' & Hlt & Hd')|(Hnin & Hd')]]; [done|..].
    + specialize (IH m' d' Hm' Hd' Hrs Hx). case_decide; [|done]. cbn [length]. lia.
    + case_decide; [done|]. by apply IH.
Qed.
End mux.

(** ** Statements *)

(** Control pre-empts data: an input of the data lane is served only when
    no input of the control lane has a message; a delivery hands out the
    oldest message of the queue it serves and changes no other queue; and it
    fails only when no registered input has a message, changing nothing. *)
Theorem control_lane_preempts `{MetadataView T} (m : EventMux T) :
  match try_recv m with
  | (m', Some (id, item)) =>
      delivers m m' id item ∧ queues m' = queues m ∧
      (id ∈ ids (control m) ∨
       id ∈ ids (data m) ∧ ∀ c, c ∈ ids (control m) → ¬ ready (queues m) (heap m) c)
  | (m', None) =>
      m' = m ∧ ∀ id, id ∈ ids (control m) ++ ids (data m) → ¬ ready (queues m) (heap m) id
  end.
Proof.
  pose proof (try_recv_spec m) as Hs. destruct (try_recv m) as [m' [[id item]|]]; [|done]. naive_solver.
Qed.

(** No input starves another: in any history of pushes and deliveries in
    which an input of a lane has a message before every delivery and is not
    served, the other inputs of its lane are served fewer times than the lane
    has inputs. *)
Theorem mux_is_fair `{MetadataView T} p (m : EventMux T) x os :
  mux_ok m → x ∈ ids (lane_of p m) → stays_ready x m os → x ∉ (served m os).*1 →
  length (from_lane p m (served m os)) < length (ids (lane_of p m)).
Proof.
  intros Hm Hx Hr Hn. destruct (distance_exists _ _ Hx) as (d & Hd).
  pose proof (waits_at_most p m x d os Hm Hd Hr Hn). destruct Hd. lia.
Qed.

(** Two inputs of the data lane with three messages; the second waits while
    the first is served once. *)
Lemma mux_is_fair_witness :
  let a := lit "a" in let b := lit "b" in
  let m := foldl mux_step (mux_new (T:=Envelope nat))
    [MRegister a 4 DropOldest LaneData; MRegister b 4 DropOldest LaneData;
     MPush (mkHandle a 0) (envelope_new 1); MPush (mkHandle a 0) (envelope_new 2);
     MPush (mkHandle b 1) (envelope_new 3)] in
  (served m [MRecv; MRecv]).*1 = [a; b] ∧
  length (from_lane LaneData m (served m [MRecv])) < length (ids (lane_of LaneData m)).
Proof.
  intros a b m. split; [by vm_compute|].
  apply (mux_is_fair LaneData m b [MRecv]).
  - apply mux_run_ok, mux_new_ok.
  - by vm_compute; right; left.
  - split; [|done]. exists 1, (mkQueue [envelope_new 3] 0 4 4 DropOldest 1 0 0 0 0). by vm_compute.
  - intros Hin. vm_compute in Hin. apply list_elem_of_In in Hin as [E|[]]. done.
Defined.

(** Through every history of registrations, removals, pushes and
    deliveries the registry stays consistent: the lanes name each registered
    input once, in one lane, and every registered input has a queue of its
    own. *)
Theorem mux_ok_preserved `{MetadataView T} os :
  mux_ok (foldl mux_step (mux_new (T:=T)) os).
Proof. apply mux_run_ok, mux_new_ok. Qed.
