(* ===== verification/SchedWheel.v ===== *)
(** * The timing wheel

    Models [src/crates/astrs-scheduler/src/timer/wheel.rs]: the hierarchical
    timing wheel behind every timer subscription, with its five levels of 64
    slots, the cascade, the catch-up of missed ticks and the resynchronization
    after a long gap.

    The array of levels is a finite map from (level, slot) to the ids placed
    there.  The table of entries is a hash map, iterated in an unspecified
    order: the order is the parameter [hash_order].  The jitter statistics an
    entry carries are floating-point estimates and are left out; nothing in
    the wheel reads them.  An addition that could pass 64 bits only does so
    after 584 million years of milliseconds.

    The theorems: a tick is never delivered early ([never_fires_early]);
    after the wheel has advanced, everything due by its millisecond has been
    delivered ([nothing_due_is_left]); every grid point of a timer is
    delivered or counted as skipped, once ([every_tick_is_accounted]); the
    deliveries come in one order, whatever the hash map does
    ([delivery_order_is_deterministic]). *)

From Stdlib Require Import Lia.
From stdpp Require Import base tactics gmap strings numbers list sorting.
From S2P Require Import Prelude TimeDuration TimeInterval.

Open Scope N_scope.

Definition SLOTS_PER_LEVEL : N := 64.
Definition LEVELS : nat := 5.

(** [LEVEL_WIDTHS] *)
Definition level_width (level : nat) : N :=
  match level with
  | 0%nat => 1 | 1%nat => 64 | 2%nat => 4096 | 3%nat => 262144 | _ => 16777216
  end.

Definition MAX_CATCHUP_TICKS_MS : N := 65536.
Definition DEFAULT_BURST_CAP : nat := 1000.

(** The loop of [level_and_slot], with the number of levels left. *)
Fixpoint pick_level (k : nat) (level : nat) (delay : N) : nat :=
  match k with
  | O => level
  | S k => if N.leb (level_width (S level)) delay then pick_level k (S level) delay else level
  end.

Definition level_and_slot (due_ms current_ms : N) : nat * N :=
  let delay := N.max (saturating_sub due_ms current_ms) 1 in
  let level := pick_level (LEVELS - 1) 0 delay in
  (level, (due_ms / level_width level) mod SLOTS_PER_LEVEL).

Definition div_ceil (a b : N) : N := a / b + (if N.eqb (a mod b) 0 then 0 else 1).

Definition saturating_duration_since (t earlier : N) : N := t - earlier.

Definition ceil_ms_since_epoch (epoch at_ : N) : N :=
  N.min (div_ceil (saturating_duration_since at_ epoch) 1000000) u64_max.

Definition floor_ms_since_epoch (epoch at_ : N) : N :=
  N.min (saturating_duration_since at_ epoch / 1000000) u64_max.

Definition TimerId : Set := N.

Inductive MissedTickPolicy : Set := Burst | Skip.

Record TimerSpec := mkTimerSpec { ts_interval : TimerInterval; missed_tick_policy : MissedTickPolicy; ts_tag : N }.

Definition timer_spec_new (i : TimerInterval) (p : MissedTickPolicy) : TimerSpec := mkTimerSpec i p 0.
Definition with_tag (tag : N) (s : TimerSpec) : TimerSpec :=
  mkTimerSpec (ts_interval s) (missed_tick_policy s) tag.

Record TimerFired := mkFired {
  f_id : TimerId;
  scheduled_at : N;
  fired_at : N;
  skipped : N;
  f_tag : N
}.

Record TimerEntry := mkEntry {
  te_interval : TimerInterval;
  te_policy : MissedTickPolicy;
  next_due : N;
  te_tag : N
}.

Definition set_next_due (d : N) (e : TimerEntry) : TimerEntry :=
  mkEntry (te_interval e) (te_policy e) d (te_tag e).

Record TimerWheel := mkWheel {
  epoch : N;
  current_ms : N;
  levels : gmap (nat * N) (list TimerId);
  entries : gmap TimerId TimerEntry;
  next_id : N;
  burst_cap : nat
}.

Definition with_burst_cap (epoch : N) (burst_cap : nat) : TimerWheel := mkWheel epoch 0 ∅ ∅ 0 burst_cap.
Definition wheel_new (epoch : N) : TimerWheel := with_burst_cap epoch DEFAULT_BURST_CAP.

Definition slot_at (w : TimerWheel) (level : nat) (slot : N) : list TimerId :=
  match levels w !! (level, slot) with Some l => l | None => [] end.

Definition set_current_ms (ms : N) (w : TimerWheel) : TimerWheel :=
  mkWheel (epoch w) ms (levels w) (entries w) (next_id w) (burst_cap w).
Definition set_levels (l : gmap (nat * N) (list TimerId)) (w : TimerWheel) : TimerWheel :=
  mkWheel (epoch w) (current_ms w) l (entries w) (next_id w) (burst_cap w).
Definition set_entries (e : gmap TimerId TimerEntry) (w : TimerWheel) : TimerWheel :=
  mkWheel (epoch w) (current_ms w) (levels w) e (next_id w) (burst_cap w).
Definition set_slot (level : nat) (slot : N) (ids : list TimerId) (w : TimerWheel) : TimerWheel :=
  set_levels (<[(level, slot) := ids]> (levels w)) w.

(** [self.levels[level][slot].push(id)] *)
Definition push_slot (p : nat * N) (id : TimerId) (w : TimerWheel) : TimerWheel :=
  set_slot p.1 p.2 (slot_at w p.1 p.2 ++ [id]) w.

Definition schedule_at (id : TimerId) (due : N) (w : TimerWheel) : TimerWheel :=
  let due_ms := N.max (ceil_ms_since_epoch (epoch w) due) (current_ms w + 1) in
  push_slot (level_and_slot due_ms (current_ms w)) id w.

Definition cancel (id : TimerId) (w : TimerWheel) : TimerWheel * bool :=
  (set_entries (delete id (entries w)) w, bool_decide (is_Some (entries w !! id))).

Definition next_deadline (w : TimerWheel) : option N :=
  match next_due <$> (map_to_list (entries w)).*2 with
  | [] => None
  | d :: ds => Some (foldr N.min d ds)
  end.

Section wheel.
Context (instant_max : N).
Context (hash_order : gmap TimerId TimerEntry → list TimerId).

Definition insert_timer (s : TimerSpec) (now : N) (w : TimerWheel) : TimerWheel * TimerId :=
  let first_due := next_tick instant_max (ts_interval s) now in
  let id := next_id w in
  let entry := mkEntry (ts_interval s) (missed_tick_policy s) first_due (ts_tag s) in
  let w := mkWheel (epoch w) (current_ms w) (levels w) (<[id := entry]> (entries w)) (id + 1) (burst_cap w) in
  (schedule_at id first_due w, id).

(** The loop of the burst policy: at most [k] events more. *)
Fixpoint burst_loop (k : nat) (id : TimerId) (now : N) (e : TimerEntry) (fired : list TimerFired) :
    TimerEntry * list TimerFired :=
  match k with
  | O => (e, fired)
  | S k =>
      if N.leb (next_due e) now then
        let at_ := next_due e in
        burst_loop k id now (set_next_due (next_tick instant_max (te_interval e) at_) e)
          (fired ++ [mkFired id at_ now 0 (te_tag e)])
      else (e, fired)
  end.

(** The policies: the entry afterwards and the events. *)
Definition catch_up (cap : nat) (id : TimerId) (now : N) (e : TimerEntry) (fired : list TimerFired) :
    TimerEntry * list TimerFired :=
  match te_policy e with
  | Burst =>
      let '(e, fired) := burst_loop cap id now e fired in
      if N.leb (next_due e) now then
        let at_ := next_due e in
        let remaining := 1 + ticks_between (te_interval e) at_ now in
        (set_next_due (next_tick instant_max (te_interval e) now) e,
         fired ++ [mkFired id at_ now (remaining - 1) (te_tag e)])
      else (e, fired)
  | Skip =>
      let at_ := next_due e in
      (set_next_due (next_tick instant_max (te_interval e) now) e,
       fired ++ [mkFired id at_ now (ticks_between (te_interval e) at_ now) (te_tag e)])
  end.

Definition resolve_due (id : TimerId) (now : N) (st : TimerWheel * list TimerFired) :
    TimerWheel * list TimerFired :=
  let '(w, fired) := st in
  match entries w !! id with
  | None => (w, fired)
  | Some entry =>
      if N.ltb now (next_due entry) then (schedule_at id (next_due entry) w, fired)
      else
        let '(entry, fired) := catch_up (burst_cap w) id now entry fired in
        let w := set_entries (<[id := entry]> (entries w)) w in
        (schedule_at id (next_due entry) w, fired)
  end.

(** Moves one id down from a level whose slot came round. *)
Definition cascade_one (w : TimerWheel) (id : TimerId) : TimerWheel :=
  match entries w !! id with
  | Some entry =>
      let due_ms := ceil_ms_since_epoch (epoch w) (next_due entry) in
      push_slot (level_and_slot due_ms (current_ms w)) id w
  | None => w
  end.

Fixpoint cascade (ls : list nat) (w : TimerWheel) : TimerWheel :=
  match ls with
  | [] => w
  | level :: ls =>
      let width := level_width level in
      if negb (N.eqb (current_ms w mod width) 0) then w
      else
        let slot := (current_ms w / width) mod SLOTS_PER_LEVEL in
        let ids := slot_at w level slot in
        cascade ls (foldl cascade_one (set_slot level slot [] w) ids)
  end.

Definition resolve_all (ids : list TimerId) (now : N) (st : TimerWheel * list TimerFired) :
    TimerWheel * list TimerFired :=
  foldl (λ st id, resolve_due id now st) st ids.

Definition tick_one_ms (now : N) (st : TimerWheel * list TimerFired) : TimerWheel * list TimerFired :=
  let '(w, fired) := st in
  let w := set_current_ms (current_ms w + 1) w in
  let w := cascade [1; 2; 3; 4]%nat w in
  let slot0 := current_ms w mod SLOTS_PER_LEVEL in
  let due_now := slot_at w 0 slot0 in
  resolve_all due_now now (set_slot 0 slot0 [] w, fired).

Definition resync (now now_ms : N) (st : TimerWheel * list TimerFired) : TimerWheel * list TimerFired :=
  let '(w, fired) := st in
  let w := set_levels ∅ (set_current_ms now_ms w) in
  resolve_all (hash_order (entries w)) now (w, fired).

(** The order of [sort_by]. *)
Definition fired_le (a b : TimerFired) : Prop :=
  scheduled_at a < scheduled_at b ∨ scheduled_at a = scheduled_at b ∧ f_id a <= f_id b.

#[global] Instance fired_le_dec a b : Decision (fired_le a b).
Proof. unfold fired_le. apply _. Defined.

(** The [while] loop runs [now_ms - current_ms] times. *)
Definition advance (now : N) (w : TimerWheel) : TimerWheel * list TimerFired :=
  let now_ms := floor_ms_since_epoch (epoch w) now in
  if N.leb now_ms (current_ms w) then (w, [])
  else
    let '(w, fired) :=
      if N.ltb MAX_CATCHUP_TICKS_MS (now_ms - current_ms w)
      then resync now now_ms (w, [])
      else Nat.iter (N.to_nat (now_ms - current_ms w)) (tick_one_ms now) (w, []) in
    (w, merge_sort fired_le fired).
End wheel.

(** ** Placement *)

(** An id due at millisecond [d] sits in slot [s] of level [l] of a wheel that
    stands at [cur]: the slot comes round after [cur], at [d] or before. *)
Definition placed (cur d : N) (p : nat * N) : Prop :=
  (p.1 < LEVELS)%nat ∧ p.2 = (d / level_width p.1) mod SLOTS_PER_LEVEL ∧
  cur / level_width p.1 < d / level_width p.1 ∧
  ((p.1 < LEVELS - 1)%nat → d < cur + SLOTS_PER_LEVEL * level_width p.1).

(** The slot of level [l] the wheel reaches at [cur]. *)
Definition visited (cur : N) (p : nat * N) : Prop :=
  (p.1 < LEVELS)%nat ∧ cur mod level_width p.1 = 0 ∧ p.2 = (cur / level_width p.1) mod SLOTS_PER_LEVEL.

Lemma level_width_pos l : 0 < level_width l.
Proof. by destruct l as [|[|[|[|l]]]]. Qed.

Lemma level_width_step l : (l < LEVELS - 1)%nat → level_width (S l) = SLOTS_PER_LEVEL * level_width l.
Proof. unfold LEVELS. intros Hl. by destruct l as [|[|[|[|l]]]]; [..|lia]. Qed.

Lemma div_lt_of_add cur d w : 0 < w → cur + w <= d → cur / w < d / w.
Proof.
  intros Hw Hd. apply N.lt_le_trans with ((cur + 1 * w) / w).
  - rewrite N.div_add by lia. lia.
  - apply N.Div0.div_le_mono. lia.
Qed.

Lemma div_lt_inv cur d w : cur / w < d / w → cur < d.
Proof. intros H. apply N.nle_gt. intros Hle. pose proof (N.Div0.div_le_mono d cur w Hle). lia. Qed.

Lemma pick_level_spec k l delay :
  level_width l <= delay →
  let r := pick_level k l delay in
  (l <= r <= l + k)%nat ∧ level_width r <= delay ∧ ((r < l + k)%nat → delay < level_width (S r)).
Proof.
  revert l. induction k as [|k IH]; intros l Hl; cbn [pick_level]; [split_and!; [lia..|done|lia]|].
  destruct (N.leb_spec (level_width (S l)) delay) as [Hle|Hgt].
  - destruct (IH (S l) Hle) as (H1 & H2 & H3). split_and!; [lia|lia|done|].
    intros Hr. apply H3. lia.
  - split_and!; [lia|lia|done|done].
Qed.

Lemma level_and_slot_placed cur d : cur < d → placed cur d (level_and_slot d cur).
Proof.
  intros Hd. unfold level_and_slot, saturating_sub. rewrite N.max_l by lia.
  destruct (pick_level_spec (LEVELS - 1) 0 (d - cur)) as (H1 & H2 & H3).
  { change (level_width 0) with 1. lia. }
  set (l := pick_level (LEVELS - 1) 0 (d - cur)) in *.
  split_and!; cbn [fst snd]; [unfold LEVELS in *; lia|done|apply div_lt_of_add; [apply level_width_pos|lia]|].
  intros Hl. specialize (H3 ltac:(lia)). rewrite level_width_step in H3 by done. lia.
Qed.

Lemma level_and_slot_now cur : level_and_slot cur cur = (0%nat, cur mod SLOTS_PER_LEVEL).
Proof.
  unfold level_and_slot, saturating_sub. rewrite N.sub_diag. cbn [N.max].
  change (pick_level (LEVELS - 1) 0 (N.max 0 1)) with 0%nat. cbn [level_width]. by rewrite N.div_1_r.
Qed.

(** One millisecond on, a slot is still to come or has just come round. *)
Lemma placed_tick cur d p :
  placed cur d p → placed (cur + 1) d p ∨ (visited (cur + 1) p ∧ cur + 1 <= d).
Proof.
  intros (Hl & Hs & Hlt & Hd). pose proof (level_width_pos p.1) as Hw.
  set (w := level_width p.1) in *.
  pose proof (N.Div0.div_mod cur w) as E1. pose proof (N.mod_lt cur w ltac:(lia)) as M1.
  pose proof (N.Div0.div_mod (cur + 1) w) as E2. pose proof (N.mod_lt (cur + 1) w ltac:(lia)) as M2.
  pose proof (N.Div0.div_mod d w) as E3. pose proof (N.mod_lt d w ltac:(lia)) as M3.
  destruct (N.lt_ge_cases ((cur + 1) / w) (d / w)) as [Hlt'|Hge].
  - left. unfold placed. fold w. split_and!; [done|done|done|]. intros H. specialize (Hd H). lia.
  - right. assert ((cur + 1) / w = d / w ∧ (cur + 1) mod w = 0 ∧ cur + 1 <= d) as (Hq & Hm & Hle).
    { revert E1 M1 E2 M2 E3 M3 Hlt Hge.
      generalize (cur / w) (cur mod w) ((cur + 1) / w) ((cur + 1) mod w) (d / w) (d mod w).
      intros q r q' r' qd rd E1 M1 E2 M2 E3 M3 Hlt Hge.
      assert (q' <= q + 1) by nia. assert (q' = q + 1) as -> by lia. assert (qd = q + 1) as -> by lia.
      split_and!; [done|nia|nia]. }
    split; [|done]. unfold visited. fold w. rewrite Hq. done.
Qed.

Lemma placed_later cur d p : placed cur d p → cur < d.
Proof. intros (_ & _ & H & _). by eapply div_lt_inv. Qed.

(** The widths divide each other, so a level comes round only when all
    below do. *)
Lemma visited_below cur p k : visited cur p → (k <= p.1)%nat → cur mod level_width k = 0.
Proof.
  intros (Hl & Hm & _) Hk. apply N.Lcm0.mod_divide in Hm. apply N.Lcm0.mod_divide.
  etrans; [|exact Hm]. unfold LEVELS in Hl.
  destruct p as [l s]. cbn [fst] in *. clear Hm.
  destruct l as [|[|[|[|[|l]]]]]; [..|lia]; destruct k as [|[|[|[|[|k]]]]]; try lia;
    first [apply N.divide_refl | by apply N.mod_divide].
Qed.

(** ** Slots *)

(** An id is in a slot. *)
Definition in_slot (w : TimerWheel) (p : nat * N) (id : TimerId) : Prop := id ∈ slot_at w p.1 p.2.

Lemma in_slot_set w p ids q id :
  in_slot (set_slot p.1 p.2 ids w) q id ↔ (if decide (p = q) then id ∈ ids else in_slot w q id).
Proof.
  destruct p as [l s], q as [l' s']. unfold in_slot, slot_at, set_slot, set_levels. cbn [fst snd levels].
  case_decide as E.
  - injection E as <- <-. by rewrite lookup_insert_eq.
  - by rewrite lookup_insert_ne.
Qed.

Lemma in_slot_push w p id q id' :
  in_slot (push_slot p id w) q id' ↔ in_slot w q id' ∨ (q = p ∧ id' = id).
Proof.
  unfold push_slot. rewrite in_slot_set. case_decide as E.
  - subst q. rewrite elem_of_app, list_elem_of_singleton. unfold in_slot. naive_solver.
  - naive_solver.
Qed.

(** What the steps that only move ids keep. *)
Definition same_timers (w w' : TimerWheel) : Prop :=
  epoch w' = epoch w ∧ current_ms w' = current_ms w ∧ entries w' = entries w ∧
  next_id w' = next_id w ∧ burst_cap w' = burst_cap w.

#[global] Instance same_timers_preorder : PreOrder same_timers.
Proof. split; [by intros w|]. intros w1 w2 w3 H1 H2. unfold same_timers in *. intuition congruence. Qed.

Lemma push_slot_same p id w : same_timers w (push_slot p id w).
Proof. done. Qed.

Lemma schedule_at_same id due w : same_timers w (schedule_at id due w).
Proof. done. Qed.

(** The millisecond an entry is due at, rounded up. *)
Definition due_of (w : TimerWheel) (e : TimerEntry) : N := ceil_ms_since_epoch (epoch w) (next_due e).

(** Every timer is placed at the millisecond it is due, or, when it was
    registered behind the wheel's clock, at the next one. *)
Definition wheel_ok (w : TimerWheel) : Prop :=
  ∀ id e, entries w !! id = Some e →
    (∃ p, in_slot w p id ∧ placed (current_ms w) (due_of w e) p) ∨
    (due_of w e <= current_ms w ∧ in_slot w (0%nat, (current_ms w + 1) mod SLOTS_PER_LEVEL) id).

(** Every timer is placed at the millisecond it is due. *)
Definition sharp_at (w : TimerWheel) (id : TimerId) (e : TimerEntry) : Prop :=
  ∃ p, in_slot w p id ∧ placed (current_ms w) (due_of w e) p.

Definition wheel_sharp (w : TimerWheel) : Prop :=
  ∀ id e, entries w !! id = Some e → sharp_at w id e.

Lemma sharp_ok w : wheel_sharp w → wheel_ok w.
Proof. intros Hw id e He. left. by apply Hw. Qed.

Lemma schedule_at_spec id due w :
  let w' := schedule_at id due w in
  (∀ q id', in_slot w q id' → in_slot w' q id') ∧
  (current_ms w < ceil_ms_since_epoch (epoch w) due →
   ∃ p, in_slot w' p id ∧ placed (current_ms w) (ceil_ms_since_epoch (epoch w) due) p) ∧
  (ceil_ms_since_epoch (epoch w) due <= current_ms w →
   in_slot w' (0%nat, (current_ms w + 1) mod SLOTS_PER_LEVEL) id).
Proof.
  cbn zeta. unfold schedule_at. split_and!.
  - intros q id' Hq. apply in_slot_push. by left.
  - intros Hlt. rewrite N.max_l by lia. eexists. split; [apply in_slot_push; right; done|].
    by apply level_and_slot_placed.
  - intros Hle. rewrite N.max_r by lia. apply in_slot_push. right. split; [|done].
    unfold level_and_slot, saturating_sub. rewrite N.add_comm, N.add_sub. cbn [N.max].
    change (pick_level (LEVELS - 1) 0 (N.max 1 1)) with 0%nat. cbn [level_width]. by rewrite N.div_1_r.
Qed.

(** ** The cascade *)

(** During a tick: a timer is placed, or waits in the slot being served, or
    waits in a slot of a level from [k] on that has come round. *)
Definition tick_state (k : nat) (w : TimerWheel) : Prop :=
  ∀ id e, entries w !! id = Some e →
    (∃ p, in_slot w p id ∧ current_ms w <= due_of w e ∧
      (placed (current_ms w) (due_of w e) p ∨ ((k <= p.1)%nat ∧ visited (current_ms w) p))) ∨
    in_slot w (0%nat, current_ms w mod SLOTS_PER_LEVEL) id.

Lemma cascade_one_same w id : same_timers w (cascade_one w id).
Proof. unfold cascade_one. by destruct (entries w !! id). Qed.

Lemma cascade_one_keeps w id q id' : in_slot w q id' → in_slot (cascade_one w id) q id'.
Proof.
  intros Hq. unfold cascade_one. destruct (entries w !! id); [|done]. apply in_slot_push. by left.
Qed.

Lemma cascade_all_same ids w : same_timers w (foldl cascade_one w ids).
Proof.
  revert w. induction ids as [|id ids IH]; intros w; [done|]. cbn [foldl].
  etrans; [apply cascade_one_same|apply IH].
Qed.

Lemma cascade_all_keeps ids w q id' : in_slot w q id' → in_slot (foldl cascade_one w ids) q id'.
Proof.
  revert w. induction ids as [|id ids IH]; intros w Hq; [done|]. by apply IH, cascade_one_keeps.
Qed.

Lemma cascade_all_moves ids w id e :
  id ∈ ids → entries w !! id = Some e →
  in_slot (foldl cascade_one w ids) (level_and_slot (due_of w e) (current_ms w)) id.
Proof.
  revert w. induction ids as [|id0 ids IH]; intros w Hin He; [by apply not_elem_of_nil in Hin|].
  cbn [foldl]. destruct (cascade_one_same w id0) as (E1 & E2 & E3 & _).
  apply elem_of_cons in Hin as [<-|Hin].
  - apply cascade_all_keeps. unfold cascade_one. rewrite He. apply in_slot_push. by right.
  - unfold due_of. rewrite <-E1, <-E2. apply (IH (cascade_one w id0)); [done|by rewrite E3].
Qed.

(** A timer due now or later, moved down, is placed or due now. *)
Lemma moved_state w w' id e k :
  same_timers w w' → current_ms w <= due_of w e →
  in_slot w' (level_and_slot (due_of w e) (current_ms w)) id →
  (∃ p, in_slot w' p id ∧ current_ms w' <= due_of w' e ∧
    (placed (current_ms w') (due_of w' e) p ∨ ((k <= p.1)%nat ∧ visited (current_ms w') p))) ∨
  in_slot w' (0%nat, current_ms w' mod SLOTS_PER_LEVEL) id.
Proof.
  intros (E1 & E2 & _) Hle Hin.
  assert (due_of w' e = due_of w e) as -> by (unfold due_of; by rewrite E1). rewrite E2.
  destruct (N.eq_dec (current_ms w) (due_of w e)) as [E|Hne].
  - right. rewrite <-E in Hin. by rewrite level_and_slot_now in Hin.
  - left. eexists. split; [exact Hin|]. split; [done|]. left. apply level_and_slot_placed. lia.
Qed.

Lemma cascade_level k w :
  (1 <= k)%nat → tick_state k w → current_ms w mod level_width k = 0 →
  let slot := (current_ms w / level_width k) mod SLOTS_PER_LEVEL in
  tick_state (S k) (foldl cascade_one (set_slot k slot [] w) (slot_at w k slot)).
Proof.
  intros Hk Hw Hm slot id e He.
  set (ids := slot_at w k slot) in *. set (w1 := set_slot k slot [] w) in *.
  assert (same_timers w (foldl cascade_one w1 ids)) as Hsame
    by (etrans; [|apply cascade_all_same]; done).
  pose proof Hsame as (E1 & E2 & E3 & E4). rewrite E3 in He.
  assert (∀ q, in_slot w q id → q ≠ (k, slot) → in_slot (foldl cascade_one w1 ids) q id) as Hkeep.
  { intros q Hq Hne. apply cascade_all_keeps. apply (in_slot_set w (k, slot) [] q id).
    by rewrite decide_False by congruence. }
  destruct (Hw id e He) as [(p & Hp & Hle & Hcase)|Hnow].
  - destruct (decide (p = (k, slot))) as [->|Hne].
    + apply (moved_state w); [done..|].
      change (current_ms w) with (current_ms w1). change (due_of w e) with (due_of w1 e).
      by apply cascade_all_moves.
    + left. exists p. unfold due_of. rewrite E1, E2. split; [by apply Hkeep|]. split; [done|].
      destruct Hcase as [Hpl|[Hkp Hv]]; [by left|right]. split; [|done].
      destruct (decide (p.1 = k)) as [E|]; [|lia]. exfalso. apply Hne.
      destruct Hv as (_ & _ & Hs). destruct p as [l s]. cbn in *. by subst.
  - right. rewrite E2. apply Hkeep; [done|]. intros [= E]. lia.
Qed.

Lemma cascade_same ls w : same_timers w (cascade ls w).
Proof.
  revert w. induction ls as [|l ls IH]; intros w; cbn [cascade]; [done|].
  destruct (negb _); [done|]. etrans; [|apply IH]. etrans; [|apply cascade_all_same]. done.
Qed.

(** A state in which no timer waits in a level. *)
Lemma tick_state_done k w :
  tick_state k w → current_ms w mod level_width k ≠ 0 ∨ (LEVELS <= k)%nat → tick_state LEVELS w.
Proof.
  intros Hw Hk id e He. destruct (Hw id e He) as [(p & Hp & Hle & Hcase)|Hnow]; [left|by right].
  exists p. split; [done|]. split; [done|]. destruct Hcase as [?|[Hkp Hv]]; [by left|]. exfalso.
  destruct Hk as [Hk|Hk]; [apply Hk; by eapply visited_below|].
  destruct Hv as (Hl & _). lia.
Qed.

Lemma cascade_spec n k w :
  (1 <= k)%nat → (k + n = LEVELS)%nat → tick_state k w → tick_state LEVELS (cascade (seq k n) w).
Proof.
  revert k w. induction n as [|n IH]; intros k w Hk Hn Hw; cbn [seq cascade].
  - replace LEVELS with k by lia. done.
  - destruct (N.eqb_spec (current_ms w mod level_width k) 0) as [E|E]; cbn [negb].
    + apply IH; [lia|lia|]. by apply cascade_level.
    + eapply tick_state_done; [done|by left].
Qed.

(** ** Catching up *)

Lemma div_ceil_gt a b m : 0 < m → a < b → a / m < div_ceil b m.
Proof.
  intros Hm Hab. unfold div_ceil.
  pose proof (N.Div0.div_mod a m) as E1. pose proof (N.mod_lt a m ltac:(lia)) as M1.
  pose proof (N.Div0.div_mod b m) as E2. pose proof (N.mod_lt b m ltac:(lia)) as M2.
  revert E1 M1 E2 M2. generalize (a / m) (a mod m) (b / m) (b mod m).
  intros q r q' r' E1 M1 E2 M2. destruct (N.eqb_spec r' 0); nia.
Qed.

Lemma ceil_after_floor ep now due :
  ep <= now → now < due → floor_ms_since_epoch ep now < u64_max →
  floor_ms_since_epoch ep now < ceil_ms_since_epoch ep due.
Proof.
  unfold floor_ms_since_epoch, ceil_ms_since_epoch, saturating_duration_since. intros He Hd Hm.
  assert ((now - ep) / 1000000 < div_ceil (due - ep) 1000000) by (apply div_ceil_gt; lia). lia.
Qed.

Lemma floor_pos ep now : 0 < floor_ms_since_epoch ep now → ep <= now.
Proof.
  unfold floor_ms_since_epoch, saturating_duration_since. intros H.
  destruct (N.le_gt_cases ep now) as [|Hlt]; [done|]. exfalso.
  replace (now - ep) with 0 in H by lia. change (0 / 1000000) with 0 in H. lia.
Qed.

Section catch_up.
Context (instant_max : N).
Local Abbreviation burst_loop := (burst_loop instant_max).
Local Abbreviation catch_up := (catch_up instant_max).
Local Abbreviation resolve_due := (resolve_due instant_max).
Local Abbreviation resolve_all := (resolve_all instant_max).
Local Abbreviation tick_one_ms := (tick_one_ms instant_max).

(** A schedule that moves on from every instant up to [now]. *)
Definition ticking (now : N) (i : TimerInterval) : Prop :=
  ∀ a, a <= now → a < next_tick instant_max i a.

Lemma ticking_in_range now i :
  instant_max < DURATION_LIMIT → 0 < period i → anchor i + period i <= instant_max →
  now + period i <= instant_max → ticking now i.
Proof.
  intros Hm Hp Ha Hn a Han. apply next_tick_is_next; [done|done|].
  unfold grid. destruct (N.le_gt_cases (anchor i) a) as [Hle|Hlt].
  - pose proof (grid_floor i a Hp Hle) as [Hg _]. unfold grid in Hg. lia.
  - replace (a - anchor i) with 0 by lia. rewrite N.div_0_l by lia. lia.
Qed.

Definition all_ticking (now : N) (w : TimerWheel) : Prop :=
  ∀ id e, entries w !! id = Some e → ticking now (te_interval e).

Definition same_subscription (e e' : TimerEntry) : Prop :=
  te_interval e' = te_interval e ∧ te_policy e' = te_policy e ∧ te_tag e' = te_tag e.

Lemma burst_loop_same k id now e fired : same_subscription e (burst_loop k id now e fired).1.
Proof.
  revert e fired. induction k as [|k IH]; intros e fired; cbn; [done|].
  destruct (N.leb _ _); [|done]. destruct (IH (set_next_due (next_tick instant_max (te_interval e) (next_due e)) e)
    (fired ++ [mkFired id (next_due e) now 0 (te_tag e)])) as (H1 & H2 & H3). done.
Qed.

Lemma catch_up_spec cap id now e fired :
  ticking now (te_interval e) →
  let '(e', _) := catch_up cap id now e fired in same_subscription e e' ∧ now < next_due e'.
Proof.
  intros Ht. unfold SchedWheel.catch_up. destruct (te_policy e) eqn:Hp.
  - pose proof (burst_loop_same cap id now e fired) as Hs. destruct (burst_loop cap id now e fired) as [e' f'].
    cbn [fst] in Hs. destruct (N.leb_spec (next_due e') now) as [Hle|Hgt]; [|done].
    split; [done|]. cbn [next_due set_next_due]. destruct Hs as (-> & _). by apply Ht.
  - split; [done|]. cbn [next_due set_next_due]. by apply Ht.
Qed.

(** What resolving one id does to the wheel. *)
Definition resolved (now : N) (id : TimerId) (w w' : TimerWheel) : Prop :=
  epoch w' = epoch w ∧ current_ms w' = current_ms w ∧ next_id w' = next_id w ∧ burst_cap w' = burst_cap w ∧
  (∀ q id', in_slot w q id' → in_slot w' q id') ∧
  (∀ id', id' ≠ id → entries w' !! id' = entries w !! id') ∧
  (match entries w !! id with
   | None => entries w' !! id = None
   | Some e => ∃ e', entries w' !! id = Some e' ∧ same_subscription e e' ∧ now < next_due e' ∧ sharp_at w' id e'
   end).

Lemma resolve_due_spec now id w fired :
  all_ticking now w → epoch w <= now → current_ms w <= floor_ms_since_epoch (epoch w) now →
  floor_ms_since_epoch (epoch w) now < u64_max →
  resolved now id w (resolve_due id now (w, fired)).1.
Proof.
  intros Ht Hep Hcur Hmax. unfold SchedWheel.resolve_due.
  destruct (entries w !! id) as [e|] eqn:He; [|by unfold resolved; rewrite He].
  assert (∀ w1 due, epoch w1 = epoch w → current_ms w1 = current_ms w → now < due →
    current_ms w1 < ceil_ms_since_epoch (epoch w1) due) as Hlate.
  { intros w1 due -> -> Hdue. eapply N.le_lt_trans; [exact Hcur|]. by apply ceil_after_floor. }
  destruct (N.ltb_spec now (next_due e)) as [Hlt|Hge]; cbn [fst].
  - destruct (schedule_at_spec id (next_due e) w) as (Hkeep & Hsharp & _).
    unfold resolved. rewrite He. split_and!; try done.
    exists e. split_and!; [done|done|done|]. apply Hsharp. by apply Hlate.
  - pose proof (catch_up_spec (burst_cap w) id now e fired (Ht id e He)) as Hs.
    destruct (catch_up (burst_cap w) id now e fired) as [e' f']. destruct Hs as [Hsub Hdue]. cbn [fst].
    set (w1 := set_entries (<[id := e']> (entries w)) w).
    destruct (schedule_at_spec id (next_due e') w1) as (Hkeep & Hsharp & _).
    unfold resolved. rewrite He. split_and!; try done.
    + intros id' Hne. cbn. by rewrite lookup_insert_ne.
    + exists e'. split_and!; [cbn; apply lookup_insert_eq|done|done|]. apply Hsharp. by apply Hlate.
Qed.

Lemma resolved_ticking now id w w' : resolved now id w w' → all_ticking now w → all_ticking now w'.
Proof.
  intros (_ & _ & _ & _ & _ & Hother & Hid) Ht id' e' He'.
  destruct (decide (id' = id)) as [->|Hne]; [|rewrite Hother in He' by done; by eapply Ht].
  destruct (entries w !! id) as [e|] eqn:He; [|congruence].
  destruct Hid as (e2 & He2 & (Hi & _) & _). rewrite He2 in He'. injection He' as ->.
  rewrite Hi. by eapply Ht.
Qed.

(** A timer is placed, or its id is still to be resolved. *)
Definition pending (ids : list TimerId) (w : TimerWheel) : Prop :=
  ∀ id e, entries w !! id = Some e → sharp_at w id e ∨ id ∈ ids.

Lemma sharp_mono w w' id e :
  epoch w' = epoch w → current_ms w' = current_ms w → (∀ q id', in_slot w q id' → in_slot w' q id') →
  sharp_at w id e → sharp_at w' id e.
Proof.
  intros E1 E2 Hk (p & Hp & Hpl). exists p. split; [by apply Hk|]. unfold due_of in *. by rewrite E1, E2.
Qed.

Definition kept (w w' : TimerWheel) : Prop :=
  epoch w' = epoch w ∧ current_ms w' = current_ms w ∧ next_id w' = next_id w ∧ burst_cap w' = burst_cap w.

Lemma resolve_all_spec now ids w fired :
  all_ticking now w → epoch w <= now → current_ms w <= floor_ms_since_epoch (epoch w) now →
  floor_ms_since_epoch (epoch w) now < u64_max → pending ids w →
  let w' := (resolve_all ids now (w, fired)).1 in
  wheel_sharp w' ∧ all_ticking now w' ∧ kept w w'.
Proof.
  revert w fired. induction ids as [|id ids IH]; intros w fired Ht Hep Hcur Hmax Hp.
  - cbn. split_and!; try done. intros id e He. destruct (Hp id e He) as [?|Hin]; [done|by apply not_elem_of_nil in Hin].
  - unfold SchedWheel.resolve_all. cbn [foldl]. fold (resolve_all ids now (resolve_due id now (w, fired))).
    pose proof (resolve_due_spec now id w fired Ht Hep Hcur Hmax) as Hr.
    destruct (resolve_due id now (w, fired)) as [w1 f1]. cbn [fst] in Hr.
    pose proof (resolved_ticking _ _ _ _ Hr Ht) as Ht1.
    destruct Hr as (E1 & E2 & E3 & E4 & Hk & Hother & Hid).
    destruct (IH w1 f1) as (H1 & H2 & (H3 & H4 & H5 & H6)); [done|by rewrite E1|by rewrite E1, E2|by rewrite E1| |].
    + intros id' e' He'. destruct (decide (id' = id)) as [->|Hne].
      * destruct (entries w !! id) as [e|]; [|congruence].
        destruct Hid as (e2 & He2 & _ & _ & Hs). rewrite He2 in He'. injection He' as ->. by left.
      * rewrite Hother in He' by done. destruct (Hp id' e' He') as [Hs|Hin].
        -- left. by eapply sharp_mono.
        -- apply elem_of_cons in Hin as [?|?]; [done|by right].
    + split; [done|]. split; [done|]. unfold kept. by rewrite H3, H4, H5, H6.
Qed.

(** ** A millisecond *)

Lemma tick_spec now w fired :
  wheel_ok w → all_ticking now w → epoch w <= now →
  current_ms w + 1 <= floor_ms_since_epoch (epoch w) now → floor_ms_since_epoch (epoch w) now < u64_max →
  let w' := (tick_one_ms now (w, fired)).1 in
  wheel_sharp w' ∧ all_ticking now w' ∧ epoch w' = epoch w ∧ current_ms w' = current_ms w + 1 ∧
  next_id w' = next_id w ∧ burst_cap w' = burst_cap w.
Proof.
  intros Hw Ht Hep Hcur Hmax. unfold SchedWheel.tick_one_ms.
  set (w0 := set_current_ms (current_ms w + 1) w).
  assert (tick_state 1 w0) as H0.
  { intros id e He. change (entries w0) with (entries w) in He.
    destruct (Hw id e He) as [(p & Hp & Hpl)|[Hle Hp]]; [|by right].
    pose proof (placed_later _ _ _ Hpl) as Hlt.
    destruct (placed_tick _ _ _ Hpl) as [Hpl'|[Hv Hle]].
    - left. exists p. split; [done|]. split; [|by left]. change (current_ms w0) with (current_ms w + 1).
      change (due_of w0 e) with (due_of w e). lia.
    - destruct (decide (1 <= p.1)%nat) as [Hl|Hl].
      + left. exists p. split; [done|]. split; [done|]. by right.
      + right. destruct p as [l s]. destruct Hv as (_ & _ & Hs). cbn in *.
        assert (l = 0%nat) as -> by lia. cbn [level_width] in Hs. rewrite N.div_1_r in Hs. by rewrite <-Hs. }
  pose proof (cascade_spec 4 1 w0 ltac:(lia) ltac:(done) H0) as H1. cbn [seq] in H1.
  pose proof (cascade_same [1; 2; 3; 4]%nat w0) as (E1 & E2 & E3 & E4 & E5).
  set (w1 := cascade [1; 2; 3; 4]%nat w0) in *.
  set (slot0 := current_ms w1 mod SLOTS_PER_LEVEL).
  change (epoch w0) with (epoch w) in E1. change (current_ms w0) with (current_ms w + 1) in E2.
  change (entries w0) with (entries w) in E3.
  destruct (resolve_all_spec now (slot_at w1 0 slot0) (set_slot 0 slot0 [] w1) fired) as (H2 & H3 & (H4 & H5 & H6 & H7)).
  - intros id e He. change (entries (set_slot 0 slot0 [] w1)) with (entries w1) in He. rewrite E3 in He. by eapply Ht.
  - change (epoch (set_slot 0 slot0 [] w1)) with (epoch w1). by rewrite E1.
  - change (epoch (set_slot 0 slot0 [] w1)) with (epoch w1).
    change (current_ms (set_slot 0 slot0 [] w1)) with (current_ms w1). by rewrite E1, E2.
  - change (epoch (set_slot 0 slot0 [] w1)) with (epoch w1). by rewrite E1.
  - intros id e He. destruct (H1 id e He) as [(p & Hp & _ & [Hpl|[Hl [Hv _]]])|Hnow]; [|lia|by right].
    destruct (decide (p = (0%nat, slot0))) as [->|Hne]; [by right|left].
    exists p. split; [|done]. apply (in_slot_set w1 (0%nat, slot0) [] p id). by rewrite decide_False by congruence.
  - split_and!; [done|done|..].
    + rewrite H4. change (epoch (set_slot 0 slot0 [] w1)) with (epoch w1). done.
    + rewrite H5. change (current_ms (set_slot 0 slot0 [] w1)) with (current_ms w1). done.
    + rewrite H6. by change (next_id (set_slot 0 slot0 [] w1)) with (next_id w1).
    + rewrite H7. by change (burst_cap (set_slot 0 slot0 [] w1)) with (burst_cap w1).
Qed.
(** Ticks up to the millisecond of [now]. *)
Lemma ticks_spec now n w fired :
  wheel_ok w → all_ticking now w → epoch w <= now →
  current_ms w + N.of_nat n <= floor_ms_since_epoch (epoch w) now →
  floor_ms_since_epoch (epoch w) now < u64_max → n ≠ 0%nat →
  let w' := (Nat.iter n (tick_one_ms now) (w, fired)).1 in
  wheel_sharp w' ∧ all_ticking now w' ∧ epoch w' = epoch w ∧
  current_ms w' = current_ms w + N.of_nat n ∧ next_id w' = next_id w ∧ burst_cap w' = burst_cap w.
Proof.
  intros Hw Ht Hep Hcur Hmax. induction n as [|n IH]; [done|]. intros _.
  change (Nat.iter (S n) (tick_one_ms now) (w, fired))
    with (tick_one_ms now (Nat.iter n (tick_one_ms now) (w, fired))).
  destruct n as [|n].
  - cbn [Nat.iter nat_rect]. replace (N.of_nat 1) with 1 by lia. apply tick_spec; [done..|lia|done].
  - destruct IH as (H1 & H2 & H3 & H4 & H5 & H6); [lia|done|].
    destruct (Nat.iter (S n) (tick_one_ms now) (w, fired)) as [w1 f1]. cbn [fst] in *.
    destruct (tick_spec now w1 f1) as (G1 & G2 & G3 & G4 & G5 & G6);
      [by apply sharp_ok|done|by rewrite H3|rewrite H3, H4; lia|by rewrite H3|].
    split_and!; [done|done|congruence|lia|congruence|congruence].
Qed.

(** ** Accounting *)

(** A schedule whose next tick after [now] can be represented. *)
Record in_range (now : N) (i : TimerInterval) : Prop := mkInRange {
  ir_max : instant_max < DURATION_LIMIT;
  ir_period : 0 < period i;
  ir_first : anchor i + period i <= instant_max;
  ir_next : now + period i <= instant_max;
  ir_count : (now - anchor i) / period i <= u64_max
}.

Lemma in_range_ticking now i : in_range now i → ticking now i.
Proof. intros [H1 H2 H3 H4 _]. by apply ticking_in_range. Qed.

(** The events of one timer, one after the other: each stands for its grid
    point and for the [skipped] ones after it. *)
Fixpoint covers (i : TimerInterval) (id : TimerId) (now k : N) (evs : list TimerFired) (k' : N) : Prop :=
  match evs with
  | [] => k' = k
  | f :: evs =>
      f_id f = id ∧ scheduled_at f = grid i k ∧ fired_at f = now ∧
      covers i id now (k + 1 + skipped f) evs k'
  end.

Lemma covers_app i id now k evs k' evs' k'' :
  covers i id now k evs k' → covers i id now k' evs' k'' → covers i id now k (evs ++ evs') k''.
Proof.
  revert k. induction evs as [|f evs IH]; intros k; cbn; [by intros ->|].
  intros (H1 & H2 & H3 & H4) H5. split_and!; auto.
Qed.

Lemma covers_ids i id now k evs k' : covers i id now k evs k' → Forall (λ f, f_id f = id) evs.
Proof. revert k. induction evs as [|f evs IH]; intros k; [constructor|]. intros (? & _ & _ & ?). constructor; eauto. Qed.

Lemma covers_from i id now k evs k' :
  0 < period i → covers i id now k evs k' →
  k <= k' ∧ Forall (λ f, ∃ j, k <= j < k' ∧ scheduled_at f = grid i j) evs.
Proof.
  intros Hp. revert k. induction evs as [|f evs IH]; intros k; cbn; [intros ->; split; [lia|constructor]|].
  intros (_ & Hs & _ & Hc). destruct (IH _ Hc) as [Hle Hall]. split; [lia|]. constructor.
  - exists k. split; [lia|done].
  - eapply Forall_impl; [exact Hall|]. intros g (j & Hj & Hg). exists j. split; [lia|done].
Qed.

(** Events of one timer are told apart by their grid points. *)
Lemma covers_inj i id now k evs k' f g :
  0 < period i → covers i id now k evs k' → f ∈ evs → g ∈ evs →
  scheduled_at f = scheduled_at g → f = g.
Proof.
  intros Hp. revert k. induction evs as [|h evs IH]; intros k; [by intros _ ?%not_elem_of_nil|].
  intros (Hid & Hs & Hn & Hc) Hf Hg E.
  destruct (covers_from _ _ _ _ _ _ Hp Hc) as [_ Hall]. rewrite Forall_forall in Hall.
  assert (∀ x, x ∈ evs → scheduled_at x ≠ scheduled_at h) as Hne.
  { intros x Hx Ex. destruct (Hall x Hx) as (j & Hj & Hg'). rewrite Ex, Hs in Hg'. unfold grid in Hg'. nia. }
  apply elem_of_cons in Hf as [->|Hf]; apply elem_of_cons in Hg as [->|Hg]; [done|..].
  - exfalso. by apply (Hne g Hg).
  - exfalso. by apply (Hne f Hf).
  - by eapply IH.
Qed.

Lemma next_tick_on_grid now i k :
  in_range now i → grid i k <= now → next_tick instant_max i (grid i k) = grid i (k + 1).
Proof.
  intros [H1 H2 _ H4 _] Hk. apply next_tick_of_grid; [done|done|]. unfold grid in *. lia.
Qed.

(** The tick after [now], and how many grid points are passed on the way. *)
Lemma next_tick_now now i k :
  in_range now i → grid i k <= now →
  next_tick instant_max i now = grid i (k + 1 + ticks_between i (grid i k) now) ∧
  now < grid i (k + 1 + ticks_between i (grid i k) now).
Proof.
  intros [H1 H2 _ H4 H5] Hk. assert (anchor i <= now) as Ha by (unfold grid in Hk; lia).
  pose proof (grid_floor i now H2 Ha) as [Hg1 Hg2]. set (q := (now - anchor i) / period i) in *.
  assert (k <= q) as Hkq.
  { apply N.lt_succ_r. rewrite <-N.add_1_r. apply (grid_lt i); [done|lia]. }
  assert (ticks_between i (grid i k) now = q - k) as ->.
  { unfold ticks_between, saturating_sub.
    assert ((grid i k - anchor i) / period i = k) as Eg.
    { unfold grid. rewrite N.add_comm, N.add_sub. apply N.div_mul. lia. }
    assert (ticks_elapsed i (grid i k) = k) as ->
      by (rewrite ticks_elapsed_floor; rewrite ?Eg; [done|done|lia|unfold grid; lia]).
    assert (ticks_elapsed i now = q) as -> by (by apply ticks_elapsed_floor).
    destruct (N.leb_spec now (grid i k)) as [Hle|]; [|done].
    assert (grid i q <= grid i k) as Hqk by lia. apply grid_le in Hqk; [lia|done]. }
  replace (k + 1 + (q - k)) with (q + 1) by lia. split; [|done].
  apply next_tick_eq; [done|done|done|]. fold q. unfold grid in *. lia.
Qed.

Lemma burst_loop_accounts n id now e fired k :
  in_range now (te_interval e) → next_due e = grid (te_interval e) k →
  ∃ evs k', (burst_loop n id now e fired).2 = fired ++ evs ∧
    next_due (burst_loop n id now e fired).1 = grid (te_interval e) k' ∧
    covers (te_interval e) id now k evs k'.
Proof.
  revert e fired k. induction n as [|n IH]; intros e fired k Hr Hk; cbn [SchedWheel.burst_loop].
  - exists [], k. by rewrite app_nil_r.
  - destruct (N.leb_spec (next_due e) now) as [Hle|Hgt]; [|exists [], k; by rewrite app_nil_r].
    set (e1 := set_next_due (next_tick instant_max (te_interval e) (next_due e)) e).
    destruct (IH e1 (fired ++ [mkFired id (next_due e) now 0 (te_tag e)]) (k + 1)) as (evs & k' & E1 & E2 & Hc).
    + done.
    + cbn [e1 set_next_due next_due te_interval]. rewrite Hk in Hle |- *. by apply (next_tick_on_grid now).
    + exists (mkFired id (next_due e) now 0 (te_tag e) :: evs), k'. rewrite E1, <-app_assoc. split; [done|].
      split; [done|]. cbn [covers f_id scheduled_at fired_at skipped]. rewrite N.add_0_r. done.
Qed.

Lemma catch_up_accounts cap id now e fired k :
  in_range now (te_interval e) → next_due e = grid (te_interval e) k → next_due e <= now →
  ∃ evs k', (catch_up cap id now e fired).2 = fired ++ evs ∧
    next_due (catch_up cap id now e fired).1 = grid (te_interval e) k' ∧
    covers (te_interval e) id now k evs k'.
Proof.
  intros Hr Hk Hle. unfold SchedWheel.catch_up. destruct (te_policy e).
  - destruct (burst_loop_accounts cap id now e fired k Hr Hk) as (evs & k1 & E1 & E2 & Hc).
    pose proof (burst_loop_same cap id now e fired) as (Hi & _).
    destruct (burst_loop cap id now e fired) as [e1 f1]. cbn [fst snd] in *. subst f1.
    destruct (N.leb_spec (next_due e1) now) as [Hle1|Hgt]; [|by exists evs, k1].
    rewrite E2 in Hle1. destruct (next_tick_now now (te_interval e) k1 Hr Hle1) as [Hn _].
    exists (evs ++ [mkFired id (next_due e1) now (1 + ticks_between (te_interval e1) (next_due e1) now - 1) (te_tag e1)]).
    eexists. rewrite <-app_assoc. split; [done|]. cbn [fst next_due set_next_due].
    rewrite Hi, Hn, E2. split; [done|]. eapply covers_app; [exact Hc|].
    cbn [covers f_id scheduled_at fired_at skipped].
    by replace (1 + ticks_between (te_interval e) (grid (te_interval e) k1) now - 1)
      with (ticks_between (te_interval e) (grid (te_interval e) k1) now) by lia.
  - rewrite Hk in Hle |- *. destruct (next_tick_now now (te_interval e) k Hr Hle) as [Hn _].
    eexists [_], _. split; [done|]. cbn [fst next_due set_next_due]. by rewrite Hn.
Qed.

Definition events_of (id : TimerId) (fired : list TimerFired) : list TimerFired :=
  filter (λ f, f_id f = id) fired.

(** From [w0] to [w] every timer has moved along its grid as its events say. *)
Definition accounts (now : N) (w0 : TimerWheel) (st : TimerWheel * list TimerFired) : Prop :=
  ∀ id e0 k0, entries w0 !! id = Some e0 → next_due e0 = grid (te_interval e0) k0 →
    ∃ e k, entries st.1 !! id = Some e ∧ same_subscription e0 e ∧
      next_due e = grid (te_interval e0) k ∧ covers (te_interval e0) id now k0 (events_of id st.2) k.

Definition all_in_range (now : N) (w : TimerWheel) : Prop :=
  ∀ id e, entries w !! id = Some e → in_range now (te_interval e).

Lemma events_of_app id l l' : events_of id (l ++ l') = events_of id l ++ events_of id l'.
Proof. apply filter_app. Qed.

Lemma events_of_all id l : Forall (λ f, f_id f = id) l → events_of id l = l.
Proof. apply filter_all. Qed.

Lemma events_of_other id id' l : id ≠ id' → Forall (λ f, f_id f = id') l → events_of id l = [].
Proof.
  intros Hne Hall. induction Hall as [|f l Hf _ IH]; [done|]. unfold events_of in *.
  rewrite filter_cons_False; [done|congruence].
Qed.

Lemma catch_up_ids cap id now e fired :
  ∃ evs, (catch_up cap id now e fired).2 = fired ++ evs ∧ Forall (λ f, f_id f = id) evs.
Proof.
  assert (∀ n e fired, ∃ evs, (burst_loop n id now e fired).2 = fired ++ evs ∧ Forall (λ f, f_id f = id) evs) as Hb.
  { intros n. induction n as [|n IH]; intros e1 f1; cbn [SchedWheel.burst_loop].
    - exists []. by rewrite app_nil_r.
    - destruct (N.leb _ _); [|exists []; by rewrite app_nil_r].
      edestruct IH as (evs & -> & Hall). eexists (_ :: evs). rewrite <-app_assoc. split; [done|]. by constructor. }
  unfold SchedWheel.catch_up. destruct (te_policy e).
  - destruct (Hb cap e fired) as (evs & E & Hall). destruct (burst_loop cap id now e fired) as [e1 f1].
    cbn [snd] in E. subst f1. destruct (N.leb _ _); cbn [snd]; [|by exists evs].
    eexists (evs ++ [_]). rewrite <-app_assoc. split; [done|]. apply Forall_app_2; [done|]. by constructor.
  - eexists [_]. split; [done|]. by constructor.
Qed.

Lemma resolve_due_accounts now w0 id st :
  all_in_range now w0 → (∀ i, is_Some (entries w0 !! i) ↔ is_Some (entries st.1 !! i)) →
  accounts now w0 st →
  accounts now w0 (resolve_due id now st) ∧
  (∀ i, is_Some (entries w0 !! i) ↔ is_Some (entries (resolve_due id now st).1 !! i)).
Proof.
  intros Hr Hdom Ha. destruct st as [w fired]. unfold SchedWheel.resolve_due. cbn [fst snd] in *.
  destruct (entries w !! id) as [e|] eqn:He; [|done].
  destruct (N.ltb_spec now (next_due e)) as [|Hdue]; [done|].
  pose proof (catch_up_ids (burst_cap w) id now e fired) as (evs & Ef & Hall).
  pose proof (catch_up_accounts (burst_cap w) id now e fired) as Hacc.
  assert (same_subscription e (catch_up (burst_cap w) id now e fired).1) as Hsub.
  { unfold SchedWheel.catch_up. destruct (te_policy e); [|done].
    pose proof (burst_loop_same (burst_cap w) id now e fired) as Hs.
    destruct (burst_loop (burst_cap w) id now e fired) as [e1 f1]. by destruct (N.leb _ _). }
  destruct (catch_up (burst_cap w) id now e fired) as [e' f']. cbn [fst snd] in *. subst f'. split.
  - intros id0 e0 k0 He0 Hk0. destruct (Ha id0 e0 k0 He0 Hk0) as (e1 & k1 & He1 & Hs1 & Hk1 & Hc1).
    cbn [fst snd entries schedule_at push_slot set_slot set_levels set_entries] in *. rewrite events_of_app.
    destruct (decide (id0 = id)) as [->|Hne].
    + rewrite He in He1. injection He1 as <-. destruct Hs1 as (Hi1 & Hp1 & Ht1).
      destruct (Hacc k1) as (evs' & k' & E & Hk' & Hc'); [rewrite Hi1; by eapply Hr|by rewrite Hi1|done|].
      apply app_inv_head in E as <-. exists e', k'. rewrite lookup_insert_eq. split; [done|].
      rewrite Hi1 in Hk', Hc'. destruct Hsub as (Hi & Hp & Ht).
      split; [unfold same_subscription; intuition congruence|]. split; [done|].
      rewrite (events_of_all id evs) by done. by eapply covers_app.
    + exists e1, k1. rewrite lookup_insert_ne by done. split_and!; try done.
      by rewrite (events_of_other id0 id evs), app_nil_r.
  - intros i. rewrite Hdom. cbn [entries schedule_at push_slot set_slot set_levels set_entries].
    destruct (decide (id = i)) as [<-|Hne]; [rewrite lookup_insert_eq, He; by split|by rewrite lookup_insert_ne].
Qed.

Lemma resolve_all_accounts now w0 ids st :
  all_in_range now w0 → (∀ i, is_Some (entries w0 !! i) ↔ is_Some (entries st.1 !! i)) →
  accounts now w0 st →
  accounts now w0 (resolve_all ids now st) ∧
  (∀ i, is_Some (entries w0 !! i) ↔ is_Some (entries (resolve_all ids now st).1 !! i)).
Proof.
  intros Hr. unfold SchedWheel.resolve_all. revert st. induction ids as [|id ids IH]; intros st Hd Ha; [done|].
  destruct (resolve_due_accounts now w0 id st Hr Hd Ha) as [Ha' Hd']. by apply IH.
Qed.

Lemma tick_accounts now w0 st :
  all_in_range now w0 → (∀ i, is_Some (entries w0 !! i) ↔ is_Some (entries st.1 !! i)) →
  accounts now w0 st →
  accounts now w0 (tick_one_ms now st) ∧
  (∀ i, is_Some (entries w0 !! i) ↔ is_Some (entries (tick_one_ms now st).1 !! i)).
Proof.
  intros Hr Hd Ha. destruct st as [w fired]. unfold SchedWheel.tick_one_ms.
  pose proof (cascade_same [1; 2; 3; 4]%nat (set_current_ms (current_ms w + 1) w)) as (_ & _ & E & _).
  set (w1 := cascade [1; 2; 3; 4]%nat (set_current_ms (current_ms w + 1) w)) in *.
  change (entries (set_current_ms (current_ms w + 1) w)) with (entries w) in E.
  apply resolve_all_accounts; [done|..].
  - intros i. change (is_Some (entries w0 !! i) ↔ is_Some (entries w1 !! i)). rewrite E. apply Hd.
  - intros id e0 k0 He0 Hk0. destruct (Ha id e0 k0 He0 Hk0) as (e & k & He & H1).
    exists e, k. split; [|done]. change (entries w1 !! id = Some e). by rewrite E.
Qed.

Lemma accounts_refl now w : accounts now w (w, []).
Proof. intros id e0 k0 He0 Hk0. exists e0, k0. by split_and!. Qed.

(** ** Order *)

#[local] Instance fired_le_trans : Transitive fired_le.
Proof. intros a b c. unfold fired_le. lia. Qed.
#[local] Instance fired_le_total : Total fired_le.
Proof. intros a b. unfold fired_le. lia. Qed.

Lemma StronglySorted_filter {A} (R : A → A → Prop) (P : A → Prop) `{∀ x, Decision (P x)} l :
  StronglySorted R l → StronglySorted R (filter P l).
Proof.
  induction 1 as [|x l Hs IH Hall]; [constructor|]. rewrite filter_cons. case_decide; [|done].
  constructor; [done|]. apply Forall_forall. intros y Hy. apply list_elem_of_filter in Hy as [_ Hy].
  rewrite Forall_forall in Hall. by apply Hall.
Qed.

Lemma covers_sorted i id now k evs k' :
  0 < period i → covers i id now k evs k' → StronglySorted fired_le evs.
Proof.
  intros Hp. revert k. induction evs as [|f evs IH]; intros k; [constructor|].
  intros (Hid & Hs & _ & Hc). constructor; [by eapply IH|].
  destruct (covers_from _ _ _ _ _ _ Hp Hc) as [_ Hall]. eapply Forall_impl; [exact Hall|].
  intros g (j & Hj & Hg). left. rewrite Hs, Hg. apply grid_lt; [done|lia].
Qed.

(** Sorting the events leaves those of one timer as they were. *)
Lemma events_of_sorted i id now k fired k' :
  0 < period i → covers i id now k (events_of id fired) k' →
  events_of id (merge_sort fired_le fired) = events_of id fired.
Proof.
  intros Hp Hc. apply StronglySorted_unique_strong with (R := fired_le).
  - intros f g Hf Hg H1 H2.
    assert (events_of id (merge_sort fired_le fired) ≡ₚ events_of id fired) as Hperm
      by (unfold events_of; by rewrite merge_sort_Permutation).
    rewrite Hperm in Hf. eapply covers_inj; [done|exact Hc|done|done|]. unfold fired_le in *. lia.
  - apply StronglySorted_filter, StronglySorted_merge_sort; apply _.
  - by eapply covers_sorted.
  - unfold events_of. by rewrite merge_sort_Permutation.
Qed.

(** The events a timer gives rise to when it is resolved. *)
Definition resolution (now : N) (w : TimerWheel) (id : TimerId) : list TimerFired :=
  match entries w !! id with
  | None => []
  | Some e => if N.ltb now (next_due e) then [] else (catch_up (burst_cap w) id now e []).2
  end.

Lemma burst_loop_acc n id now e fired :
  burst_loop n id now e fired = ((burst_loop n id now e []).1, fired ++ (burst_loop n id now e []).2).
Proof.
  revert e fired. induction n as [|n IH]; intros e fired; cbn; [by rewrite app_nil_r|].
  destruct (N.leb _ _); [|by rewrite app_nil_r].
  rewrite IH. rewrite (IH _ ([mkFired id (next_due e) now 0 (te_tag e)])). cbn [fst snd]. by rewrite app_assoc.
Qed.

Lemma catch_up_acc cap id now e fired :
  catch_up cap id now e fired = ((catch_up cap id now e []).1, fired ++ (catch_up cap id now e []).2).
Proof.
  unfold SchedWheel.catch_up. destruct (te_policy e); [|done]. rewrite burst_loop_acc.
  destruct (burst_loop cap id now e []) as [e1 f1]. cbn [fst snd]. destruct (N.leb _ _); cbn [fst snd]; [|done].
  by rewrite app_assoc.
Qed.

Lemma resolve_due_events now id w fired :
  (resolve_due id now (w, fired)).2 = fired ++ resolution now w id ∧
  (∀ id', id' ≠ id → resolution now (resolve_due id now (w, fired)).1 id' = resolution now w id').
Proof.
  unfold SchedWheel.resolve_due, resolution. destruct (entries w !! id) as [e|] eqn:He.
  2:{ cbn [fst snd]. by rewrite app_nil_r. }
  destruct (N.ltb now (next_due e)); cbn [fst snd]; [by rewrite app_nil_r|].
  rewrite catch_up_acc. destruct (catch_up (burst_cap w) id now e []) as [e' f']. cbn [fst snd]. split; [done|].
  intros id' Hne. cbn [entries schedule_at push_slot set_slot set_levels set_entries burst_cap].
  by rewrite lookup_insert_ne.
Qed.

Lemma resolve_all_events now ids w fired :
  NoDup ids → (resolve_all ids now (w, fired)).2 = fired ++ concat (resolution now w <$> ids).
Proof.
  intros Hnd. revert w fired. induction Hnd as [|id ids Hid Hnd IH]; intros w fired.
  { cbn. by rewrite app_nil_r. }
  unfold SchedWheel.resolve_all. cbn [foldl]. fold (resolve_all ids now (resolve_due id now (w, fired))).
  destruct (resolve_due_events now id w fired) as [E1 E2].
  destruct (resolve_due id now (w, fired)) as [w1 f1]. cbn [fst snd] in *. subst f1.
  rewrite IH, <-app_assoc, fmap_cons. cbn [concat]. do 3 f_equal.
  apply list_fmap_ext. intros j id' Hj. apply E2. intros ->. apply Hid. by eapply list_elem_of_lookup_2.
Qed.

Context (hash_order : gmap TimerId TimerEntry → list TimerId).
Context (Hhash : ∀ m, hash_order m ≡ₚ (map_to_list m).*1).
Local Abbreviation resync := (resync instant_max hash_order).
Local Abbreviation advance := (advance instant_max hash_order).

Lemma hash_order_elem m id : id ∈ hash_order m ↔ is_Some (m !! id).
Proof.
  rewrite Hhash, list_elem_of_fmap. split.
  - intros ((id' & e) & -> & Hin). apply elem_of_map_to_list in Hin. by exists e.
  - intros [e He]. exists (id, e). split; [done|]. by apply elem_of_map_to_list.
Qed.

Lemma resync_spec now w fired :
  all_ticking now w → epoch w <= now → floor_ms_since_epoch (epoch w) now < u64_max →
  let now_ms := floor_ms_since_epoch (epoch w) now in
  let w' := (resync now now_ms (w, fired)).1 in
  wheel_sharp w' ∧ all_ticking now w' ∧ epoch w' = epoch w ∧ current_ms w' = now_ms ∧
  next_id w' = next_id w ∧ burst_cap w' = burst_cap w.
Proof.
  intros Ht Hep Hmax now_ms. unfold SchedWheel.resync.
  set (w0 := set_levels ∅ (set_current_ms now_ms w)).
  destruct (resolve_all_spec now (hash_order (entries w0)) w0 fired) as (H1 & H2 & (H3 & H4 & H5 & H6));
    [done|done|by change (current_ms w0) with now_ms|done| |done].
  intros id e He. right. apply hash_order_elem. by exists e.
Qed.

Lemma advance_spec now w :
  wheel_ok w → all_ticking now w → current_ms w < floor_ms_since_epoch (epoch w) now →
  floor_ms_since_epoch (epoch w) now < u64_max →
  let w' := (advance now w).1 in
  wheel_sharp w' ∧ all_ticking now w' ∧ epoch w' = epoch w ∧
  current_ms w' = floor_ms_since_epoch (epoch w) now.
Proof.
  intros Hw Ht Hlt Hmax. assert (epoch w <= now) as Hep by (apply floor_pos; lia).
  unfold SchedWheel.advance. set (now_ms := floor_ms_since_epoch (epoch w) now) in *.
  destruct (N.leb_spec now_ms (current_ms w)); [lia|].
  destruct (N.ltb_spec MAX_CATCHUP_TICKS_MS (now_ms - current_ms w)).
  - pose proof (resync_spec now w [] Ht Hep Hmax) as Hs. cbn zeta in Hs. fold now_ms in Hs.
    destruct (resync now now_ms (w, [])) as [w' f]. cbn [fst] in *. naive_solver.
  - pose proof (ticks_spec now (N.to_nat (now_ms - current_ms w)) w [] Hw Ht Hep) as Hs.
    destruct (Nat.iter (N.to_nat (now_ms - current_ms w)) (tick_one_ms now) (w, [])) as [w' f].
    cbn [fst] in *. destruct Hs as (H1 & H2 & H3 & H4 & _); [unfold now_ms; lia|done|lia|].
    split_and!; [done|done|done|]. rewrite H4. lia.
Qed.

(** ** Never early *)

Definition on_time (now : N) (fired : list TimerFired) : Prop :=
  Forall (λ f, scheduled_at f <= now ∧ fired_at f = now) fired.

Lemma burst_loop_on_time k id now e fired :
  on_time now fired → on_time now (burst_loop k id now e fired).2.
Proof.
  revert e fired. induction k as [|k IH]; intros e fired Hf; cbn; [done|].
  destruct (N.leb_spec (next_due e) now); [|done]. apply IH. apply Forall_app_2; [done|]. by constructor.
Qed.

Lemma resolve_due_on_time id now st : on_time now st.2 → on_time now (resolve_due id now st).2.
Proof.
  destruct st as [w fired]. cbn [snd]. intros Hf. unfold SchedWheel.resolve_due.
  destruct (entries w !! id) as [e|]; [|done].
  destruct (N.ltb_spec now (next_due e)) as [|Hdue]; [done|]. unfold SchedWheel.catch_up.
  destruct (te_policy e).
  - pose proof (burst_loop_on_time (burst_cap w) id now e fired Hf) as Hb.
    destruct (burst_loop (burst_cap w) id now e fired) as [e' f']. cbn [snd] in Hb.
    destruct (N.leb_spec (next_due e') now); cbn [snd]; [|done]. apply Forall_app_2; [done|]. by constructor.
  - cbn [snd]. apply Forall_app_2; [done|]. by constructor.
Qed.

Lemma resolve_all_on_time ids now st : on_time now st.2 → on_time now (resolve_all ids now st).2.
Proof.
  unfold SchedWheel.resolve_all. revert st. induction ids as [|id ids IH]; intros st Hf; [done|].
  by apply IH, resolve_due_on_time.
Qed.

Lemma tick_on_time now st : on_time now st.2 → on_time now (tick_one_ms now st).2.
Proof. destruct st as [w fired]. intros Hf. by apply resolve_all_on_time. Qed.

Lemma advance_on_time now w : on_time now (advance now w).2.
Proof.
  unfold SchedWheel.advance. destruct (N.leb _ _); [constructor|].
  assert (∀ st : TimerWheel * list TimerFired, on_time now st.2 → on_time now (let '(w, fired) := st in (w, merge_sort fired_le fired)).2) as Hsort.
  { intros [w1 f1] Hf. cbn [snd] in *. unfold on_time. by rewrite merge_sort_Permutation. }
  apply Hsort. destruct (N.ltb _ _).
  - apply resolve_all_on_time. constructor.
  - induction (N.to_nat _) as [|n IH]; [constructor|].
    change (on_time now (tick_one_ms now (Nat.iter n (tick_one_ms now) (w, []))).2). by apply tick_on_time.
Qed.

Lemma advance_accounts now w :
  all_in_range now w →
  accounts now w (advance now w) ∧
  ∀ i, is_Some (entries w !! i) ↔ is_Some (entries (advance now w).1 !! i).
Proof.
  intros Hr. unfold SchedWheel.advance. destruct (N.leb _ _); [split; [apply accounts_refl|done]|].
  assert (∀ st, accounts now w st ∧ (∀ i, is_Some (entries w !! i) ↔ is_Some (entries st.1 !! i)) →
    accounts now w (let '(w, fired) := st in (w, merge_sort fired_le fired)) ∧
    (∀ i, is_Some (entries w !! i) ↔
      is_Some (entries (let '(w, fired) := st in (w, merge_sort fired_le fired)).1 !! i))) as Hsort.
  { intros [w1 f1] [Ha Hd]. split; [|done]. intros id e0 k0 He0 Hk0.
    destruct (Ha id e0 k0 He0 Hk0) as (e & k & He & Hs & Hk & Hc).
    exists e, k. cbn [fst snd] in *. split_and!; try done.
    rewrite (events_of_sorted (te_interval e0) id now k0 f1 k); [done| |done]. by destruct (Hr id e0 He0). }
  apply Hsort. destruct (N.ltb _ _).
  - unfold SchedWheel.resync. apply resolve_all_accounts; [done|done|].
    intros id e0 k0 He0 Hk0. by exists e0, k0.
  - induction (N.to_nat _) as [|n [IH1 IH2]]; [split; [apply accounts_refl|done]|]. by apply tick_accounts.
Qed.

Definition all_on_grid (w : TimerWheel) : Prop :=
  ∀ id e, entries w !! id = Some e → ∃ k, next_due e = grid (te_interval e) k.

Lemma resolution_inj now w f g id id' :
  all_in_range now w → all_on_grid w → f ∈ resolution now w id → g ∈ resolution now w id' →
  fired_le f g → fired_le g f → f = g.
Proof.
  intros Hr Hg Hf Hg' H1 H2.
  assert (∀ x i, x ∈ resolution now w i → f_id x = i) as Hid.
  { intros x i. unfold resolution. destruct (entries w !! i) as [e|]; [|by intros ?%not_elem_of_nil].
    destruct (N.ltb _ _); [by intros ?%not_elem_of_nil|].
    destruct (catch_up_ids (burst_cap w) i now e []) as (evs & -> & Hall). rewrite Forall_forall in Hall. apply Hall. }
  assert (id' = id) as ->.
  { rewrite <-(Hid f id Hf), <-(Hid g id' Hg'). unfold fired_le in *. lia. }
  assert (scheduled_at f = scheduled_at g) as E by (unfold fired_le in *; lia).
  unfold resolution in Hf, Hg'. destruct (entries w !! id) as [e|] eqn:He; [|by apply not_elem_of_nil in Hf].
  destruct (N.ltb_spec now (next_due e)) as [|Hdue]; [by apply not_elem_of_nil in Hf|].
  destruct (Hg id e He) as [k Hk].
  destruct (catch_up_accounts (burst_cap w) id now e [] k (Hr id e He) Hk Hdue) as (evs & k' & E' & _ & Hc).
  rewrite E' in Hf, Hg'. cbn [app] in Hf, Hg'. eapply covers_inj; [|exact Hc|done..]. by destruct (Hr id e He).
Qed.
End catch_up.

(** The order of the hash map does not show. *)
Lemma advance_order instant_max h1 h2 now w :
  (∀ m, h1 m ≡ₚ (map_to_list m).*1) → (∀ m, h2 m ≡ₚ (map_to_list m).*1) →
  all_in_range instant_max now w → all_on_grid w →
  (advance instant_max h1 now w).2 = (advance instant_max h2 now w).2.
Proof.
  intros Hh1 Hh2 Hr Hg. unfold advance. destruct (N.leb _ _); [done|]. destruct (N.ltb _ _); [|done].
  set (now_ms := floor_ms_since_epoch (epoch w) now). unfold resync.
  set (w0 := set_levels ∅ (set_current_ms now_ms w)).
  assert (∀ h, (∀ m, h m ≡ₚ (map_to_list m).*1) →
    (resolve_all instant_max (h (entries w0)) now (w0, [])).2 =
    concat (resolution instant_max now w0 <$> h (entries w0))) as Hev.
  { intros h Hh. rewrite resolve_all_events; [done|]. rewrite Hh. apply NoDup_fst_map_to_list. }
  pose proof (Hev h1 Hh1) as E1. pose proof (Hev h2 Hh2) as E2.
  destruct (resolve_all instant_max (h1 (entries w0)) now (w0, [])) as [w1 f1].
  destruct (resolve_all instant_max (h2 (entries w0)) now (w0, [])) as [w2 f2]. cbn [snd] in *.
  assert (f1 ≡ₚ f2) as Hperm.
  { rewrite E1, E2. rewrite (Hh1 (entries w0)), (Hh2 (entries w0)). done. }
  apply StronglySorted_unique_strong with (R := fired_le).
  - intros f g Hf Hg' H1 H2. rewrite merge_sort_Permutation, E1 in Hf. rewrite merge_sort_Permutation, E2 in Hg'.
    apply list_elem_of_In, in_concat in Hf as (l1 & Hl1 & Hf). apply list_elem_of_In, in_concat in Hg' as (l2 & Hl2 & Hg').
    apply list_elem_of_In, list_elem_of_fmap in Hl1 as (id1 & -> & _). apply list_elem_of_In, list_elem_of_fmap in Hl2 as (id2 & -> & _).
    apply list_elem_of_In in Hf. apply list_elem_of_In in Hg'.
    by eapply (resolution_inj instant_max now w0).
  - apply StronglySorted_merge_sort; [apply fired_le_trans|apply fired_le_total].
  - apply StronglySorted_merge_sort; [apply fired_le_trans|apply fired_le_total].
  - by rewrite !merge_sort_Permutation.
Qed.

(** ** Histories *)

Inductive wheel_op :=
  | WInsert (s : TimerSpec) (now : N)
  | WCancel (id : TimerId)
  | WAdvance (now : N).

Section history.
Context (instant_max horizon ep : N) (hash_order : gmap TimerId TimerEntry → list TimerId).
Context (Hhash : ∀ m, hash_order m ≡ₚ (map_to_list m).*1).

Definition wheel_step (w : TimerWheel) (o : wheel_op) : TimerWheel :=
  match o with
  | WInsert s now => (insert_timer instant_max s now w).1
  | WCancel id => (cancel id w).1
  | WAdvance now => (advance instant_max hash_order now w).1
  end.

Definition wheel_run (w : TimerWheel) (os : list wheel_op) : TimerWheel := foldl wheel_step w os.

(** Readings up to the horizon, schedules that tick beyond it. *)
Definition wheel_op_ok (o : wheel_op) : Prop :=
  match o with
  | WInsert s now => now <= horizon ∧ in_range instant_max horizon (ts_interval s)
  | WCancel _ => True
  | WAdvance now => now <= horizon
  end.

Record wheel_inv (w : TimerWheel) : Prop := mkWheelInv {
  wi_ok : wheel_ok w;
  wi_epoch : epoch w = ep;
  wi_range id e : entries w !! id = Some e → in_range instant_max horizon (te_interval e);
  wi_grid : all_on_grid w
}.

Lemma in_range_earlier now i : now <= horizon → in_range instant_max horizon i → in_range instant_max now i.
Proof.
  intros Hn [H1 H2 H3 H4 H5]. split; [done|done|done|lia|].
  etrans; [|exact H5]. apply N.Div0.div_le_mono. lia.
Qed.

Lemma insert_inv s now w : wheel_op_ok (WInsert s now) → wheel_inv w → wheel_inv (insert_timer instant_max s now w).1.
Proof.
  intros [Hn Hr] [Hok Hep Hrange Hgrid]. unfold insert_timer. cbn [fst].
  set (first_due := next_tick instant_max (ts_interval s) now).
  set (e0 := mkEntry (ts_interval s) (missed_tick_policy s) first_due (ts_tag s)).
  set (w1 := mkWheel (epoch w) (current_ms w) (levels w) (<[next_id w := e0]> (entries w)) (next_id w + 1) (burst_cap w)).
  destruct (schedule_at_spec (next_id w) first_due w1) as (Hkeep & Hsharp & Hlate).
  assert (∀ id e, entries (schedule_at (next_id w) first_due w1) !! id = Some e →
    (id = next_id w ∧ e = e0) ∨ entries w !! id = Some e) as Hent.
  { intros id e He. change (entries (schedule_at (next_id w) first_due w1)) with (<[next_id w := e0]> (entries w)) in He.
    apply lookup_insert_Some in He as [[<- <-]|[_ ?]]; auto. }
  split; [|done|..].
  - intros id e He. destruct (Hent id e He) as [[-> ->]|He'].
    + destruct (N.lt_ge_cases (current_ms w) (ceil_ms_since_epoch (epoch w) first_due)) as [Hlt|Hge].
      * left. destruct (Hsharp Hlt) as (p & Hp & Hpl). by exists p.
      * right. split; [done|by apply Hlate].
    + destruct (Hok id e He') as [(p & Hp & Hpl)|[Hle Hp]].
      * left. exists p. split; [by apply Hkeep|done].
      * right. split; [done|by apply Hkeep].
  - intros id e He. destruct (Hent id e He) as [[-> ->]|He']; [done|by eapply Hrange].
  - intros id e He. destruct (Hent id e He) as [[-> ->]|He']; [|by eapply Hgrid].
    destruct Hr as [H1 H2 H3 H4 _].
    destruct (next_tick_is_next instant_max H1 (ts_interval s) now H2) as (_ & k & Hk & _); [|by exists k].
    unfold grid. destruct (N.le_gt_cases (anchor (ts_interval s)) now) as [Hle|Hlt].
    + pose proof (grid_floor (ts_interval s) now H2 Hle) as [Hg _]. unfold grid in Hg. lia.
    + replace (now - anchor (ts_interval s)) with 0 by lia. rewrite N.div_0_l by lia. lia.
Qed.

Lemma cancel_inv id w : wheel_inv w → wheel_inv (cancel id w).1.
Proof.
  intros [Hok Hep Hrange Hgrid].
  assert (∀ id' e, entries (cancel id w).1 !! id' = Some e → entries w !! id' = Some e) as Hent.
  { intros id' e He. cbn in He. by apply lookup_delete_Some in He as [_ ?]. }
  split; [|done|..].
  - intros id' e He. apply Hent in He. by apply Hok.
  - intros id' e He. apply Hent in He. by eapply Hrange.
  - intros id' e He. apply Hent in He. by eapply Hgrid.
Qed.
Context (Hhorizon : floor_ms_since_epoch ep horizon < u64_max).

Lemma floor_mono now : now <= horizon → floor_ms_since_epoch ep now <= floor_ms_since_epoch ep horizon.
Proof.
  intros Hn. unfold floor_ms_since_epoch, saturating_duration_since.
  assert ((now - ep) / 1000000 <= (horizon - ep) / 1000000) by (apply N.Div0.div_le_mono; lia). lia.
Qed.

Lemma wheel_inv_range now w : now <= horizon → wheel_inv w → all_in_range instant_max now w.
Proof. intros Hn Hw id e He. apply in_range_earlier; [done|]. by eapply wi_range. Qed.

Lemma advance_inv now w : now <= horizon → wheel_inv w → wheel_inv (advance instant_max hash_order now w).1.
Proof.
  intros Hn Hw. pose proof (wheel_inv_range now w Hn Hw) as Hr.
  pose proof (advance_accounts instant_max hash_order now w Hr) as [Ha Hd].
  pose proof Hw as [Hok Hep Hrange Hgrid].
  assert (∀ id e', entries (advance instant_max hash_order now w).1 !! id = Some e' →
    ∃ e k, entries w !! id = Some e ∧ te_interval e' = te_interval e ∧ next_due e' = grid (te_interval e') k) as Hent.
  { intros id e' He'. destruct (proj2 (Hd id)) as [e He]; [by exists e'|].
    destruct (Hgrid id e He) as [k0 Hk0]. destruct (Ha id e k0 He Hk0) as (e1 & k & He1 & (Hi & _) & Hk & _).
    rewrite He' in He1. injection He1 as <-. exists e, k. by rewrite Hi. }
  assert (wheel_ok (advance instant_max hash_order now w).1 ∧ epoch (advance instant_max hash_order now w).1 = ep) as [H1 H2].
  { destruct (N.lt_ge_cases (current_ms w) (floor_ms_since_epoch (epoch w) now)) as [Hlt|Hge].
    - destruct (advance_spec instant_max hash_order Hhash now w Hok) as (Hs & _ & He & _);
        [intros id e He; apply in_range_ticking; by eapply Hr|done| |split; [by apply sharp_ok|congruence]].
      rewrite Hep. eapply N.le_lt_trans; [by apply floor_mono|done].
    - unfold advance. by rewrite (proj2 (N.leb_le _ _)). }
  split; [done|done|..].
  - intros id e' He'. destruct (Hent id e' He') as (e & k & He & -> & _). by eapply Hrange.
  - intros id e' He'. destruct (Hent id e' He') as (e & k & He & _ & Hk). by exists k.
Qed.

Lemma run_inv os w : Forall wheel_op_ok os → wheel_inv w → wheel_inv (wheel_run w os).
Proof.
  intros Hos. revert w. induction Hos as [|o os Ho Hos IH]; intros w Hw; [done|]. apply IH.
  destruct o; cbn [wheel_step wheel_op_ok] in *; [by apply insert_inv|by apply cancel_inv|by apply advance_inv].
Qed.

Lemma new_inv cap : wheel_inv (with_burst_cap ep cap).
Proof. split; [|done|..]; intros id e He; cbn in He; by rewrite lookup_empty in He. Qed.
End history.

(** ** Statements *)

(** C36. Whatever timers were registered and cancelled and however the wheel
    was driven before: when it advances to an instant, no event carries a
    grid point later than that instant, and afterwards the next due point of
    every timer lies beyond the whole milliseconds elapsed, so nothing due is
    left in the wheel, whichever of the two catch-up paths ran. *)
Theorem wheel_is_punctual instant_max horizon ep hash_order cap os now :
  (∀ m, hash_order m ≡ₚ (map_to_list m).*1) → floor_ms_since_epoch ep horizon < u64_max →
  Forall (wheel_op_ok instant_max horizon) os → now <= horizon →
  let w := wheel_run instant_max hash_order (with_burst_cap ep cap) os in
  let now_ms := floor_ms_since_epoch ep now in
  current_ms w < now_ms →
  let '(w', fired) := advance instant_max hash_order now w in
  Forall (λ f, scheduled_at f <= now ∧ fired_at f = now) fired ∧
  current_ms w' = now_ms ∧
  ∀ id e, entries w' !! id = Some e → ep + now_ms * 1000000 < next_due e.
Proof.
  intros Hh Hmax Hos Hn w now_ms Hlt.
  assert (wheel_inv instant_max horizon ep w) as Hw by (apply run_inv; [done|done|done|apply new_inv]).
  pose proof (wheel_inv_range _ _ _ now w Hn Hw) as Hr. destruct Hw as [Hok Hep _ _].
  pose proof (advance_on_time instant_max hash_order now w) as Hon.
  destruct (advance_spec instant_max hash_order Hh now w Hok) as (Hs & _ & He & Hc).
  { intros id e Hid. apply in_range_ticking. by eapply Hr. }
  { by rewrite Hep. }
  { rewrite Hep. eapply N.le_lt_trans; [by apply floor_mono|done]. }
  destruct (advance instant_max hash_order now w) as [w' fired]. cbn [fst snd] in *.
  split; [done|]. split; [by rewrite Hc, Hep|]. intros id e Hid.
  destruct (Hs id e Hid) as (p & _ & Hpl). apply placed_later in Hpl.
  unfold due_of in Hpl. rewrite Hc, He, Hep in Hpl. fold now_ms in Hpl.
  apply N.nle_gt. intros Hle. unfold ceil_ms_since_epoch, saturating_duration_since in Hpl.
  assert (div_ceil (next_due e - ep) 1000000 <= now_ms) as Hdc; [|lia].
  apply N.nlt_ge. intros Hgt. assert (next_due e - ep <= now_ms * 1000000) as Hle' by lia.
  unfold div_ceil in Hgt. pose proof (N.Div0.div_mod (next_due e - ep) 1000000) as E.
  revert Hgt E Hle'. generalize ((next_due e - ep) / 1000000) ((next_due e - ep) mod 1000000).
  intros q r Hgt E Hle'. destruct (N.eqb_spec r 0); lia.
Qed.

Definition key_order (m : gmap TimerId TimerEntry) : list TimerId := (map_to_list m).*1.

Lemma key_order_perm m : key_order m ≡ₚ (map_to_list m).*1.
Proof. done. Qed.

(** A wheel of two timers, of 10 and 25 milliseconds, with an instant in
    nanoseconds; the first skips four ticks when it advances. *)
Definition sample_ops : list wheel_op :=
  [WInsert (timer_spec_new (mkInterval 10000000 0) Skip) 0;
   WInsert (timer_spec_new (mkInterval 25000000 0) Burst) 0].

Lemma sample_wheel_ops_ok : Forall (wheel_op_ok 1000000000000 100000000000) sample_ops.
Proof. by repeat constructor. Qed.

Lemma wheel_is_punctual_witness :
  let w := wheel_run 1000000000000 key_order (with_burst_cap 0 4) sample_ops in
  (advance 1000000000000 key_order 52000000 w).2 =
    [mkFired 0 10000000 52000000 4 0; mkFired 1 25000000 52000000 0 0; mkFired 1 50000000 52000000 0 0] ∧
  ∀ id e, entries (advance 1000000000000 key_order 52000000 w).1 !! id = Some e → 52000000 < next_due e.
Proof.
  intros w. split; [by vm_compute|]. intros id e.
  pose proof (wheel_is_punctual 1000000000000 100000000000 0 key_order 4 sample_ops 52000000
    key_order_perm ltac:(by vm_compute) sample_wheel_ops_ok ltac:(done) ltac:(by vm_compute)) as Hp.
  fold w in Hp. destruct (advance 1000000000000 key_order 52000000 w) as [w' fired].
  destruct Hp as (_ & _ & Hp). apply Hp.
Defined.

(** No tick of a timer is lost or delivered twice: from its next due grid
    point on, the events an advance delivers for a timer stand, one after the
    other, each for its own grid point and for the skipped ones it reports,
    up to the grid point the timer waits for afterwards. *)
Theorem every_tick_is_accounted instant_max horizon ep hash_order cap os now id e :
  (∀ m, hash_order m ≡ₚ (map_to_list m).*1) → floor_ms_since_epoch ep horizon < u64_max →
  Forall (wheel_op_ok instant_max horizon) os → now <= horizon →
  let w := wheel_run instant_max hash_order (with_burst_cap ep cap) os in
  entries w !! id = Some e →
  let '(w', fired) := advance instant_max hash_order now w in
  ∃ k e' k', next_due e = grid (te_interval e) k ∧ entries w' !! id = Some e' ∧
    next_due e' = grid (te_interval e) k' ∧
    covers (te_interval e) id now k (events_of id fired) k'.
Proof.
  intros Hh Hmax Hos Hn w He.
  assert (wheel_inv instant_max horizon ep w) as Hw by (apply run_inv; [done|done|done|apply new_inv]).
  destruct (advance_accounts instant_max hash_order now w (wheel_inv_range _ _ _ now w Hn Hw)) as [Ha _].
  destruct (wi_grid _ _ _ _ Hw id e He) as [k Hk]. destruct (Ha id e k He Hk) as (e' & k' & He' & _ & Hk' & Hc).
  destruct (advance instant_max hash_order now w) as [w' fired]. by exists k, e', k'.
Qed.

Lemma every_tick_is_accounted_witness :
  let w := wheel_run 1000000000000 key_order (with_burst_cap 0 4) sample_ops in
  let '(w', fired) := advance 1000000000000 key_order 52000000 w in
  events_of 0 fired = [mkFired 0 10000000 52000000 4 0] ∧
  ∃ k e' k', 10000000 = grid (mkInterval 10000000 0) k ∧ entries w' !! 0 = Some e' ∧
    next_due e' = grid (mkInterval 10000000 0) k' ∧
    covers (mkInterval 10000000 0) 0 52000000 k (events_of 0 fired) k'.
Proof.
  pose proof (every_tick_is_accounted 1000000000000 100000000000 0 key_order 4 sample_ops 52000000 0
    (mkEntry (mkInterval 10000000 0) Skip 10000000 0) key_order_perm ltac:(by vm_compute) sample_wheel_ops_ok
    ltac:(done) ltac:(by vm_compute)) as H.
  assert (events_of 0 (advance 1000000000000 key_order 52000000
    (wheel_run 1000000000000 key_order (with_burst_cap 0 4) sample_ops)).2 = [mkFired 0 10000000 52000000 4 0]) as E
    by (by vm_compute).
  cbn zeta. destruct (advance _ _ _ _) as [w' fired]. by split.
Defined.

(** The events of an advance come in one order, by grid point and then by
    timer, whatever order the hash map of timers is walked in. *)
Theorem delivery_order_is_deterministic instant_max horizon ep h1 h2 cap os now :
  (∀ m, h1 m ≡ₚ (map_to_list m).*1) → (∀ m, h2 m ≡ₚ (map_to_list m).*1) →
  floor_ms_since_epoch ep horizon < u64_max →
  Forall (wheel_op_ok instant_max horizon) os → now <= horizon →
  let w := wheel_run instant_max h1 (with_burst_cap ep cap) os in
  (advance instant_max h1 now w).2 = (advance instant_max h2 now w).2.
Proof.
  intros Hh1 Hh2 Hmax Hos Hn w.
  assert (wheel_inv instant_max horizon ep w) as Hw by (apply run_inv; [done|done|done|apply new_inv]).
  apply advance_order; [done|done|by eapply wheel_inv_range|by eapply wi_grid].
Qed.

Lemma delivery_order_is_deterministic_witness :
  let w := wheel_run 1000000000000 key_order (with_burst_cap 0 4) sample_ops in
  (advance 1000000000000 key_order 90000000000 w).2 =
  (advance 1000000000000 (λ m, reverse (key_order m)) 90000000000 w).2.
Proof.
  apply (delivery_order_is_deterministic 1000000000000 100000000000).
  - apply key_order_perm.
  - intros m. by rewrite reverse_Permutation.
  - by vm_compute.
  - apply sample_wheel_ops_ok.
  - done.
Defined.
