(* ===== verification/SchedMonitor.v ===== *)
(** * Latency budgets and silence

    Models, of [src/crates/astrs-scheduler/src]: the monitor of input to
    output latencies ([deadline.rs]) and the watchdog over silent inputs
    ([idle.rs]).  Each keeps a table behind a lock taken once per call;
    instants and durations are in nanoseconds.  A sweep of the watchdog walks
    a hash map, in the order [hash_order].

    The theorems: the counters of a key are those of its finished
    measurements, each held to the budget in force when it started
    ([deadline_counters_are_exact]); the watchdog reports a silence once,
    as soon as a sweep sees it is long enough, and its end once
    ([silence_is_reported_once]). *)

From Stdlib Require Import Lia.
From stdpp Require Import base tactics gmap strings numbers list.
From S2P Require Import Prelude TimeInterval.

Open Scope N_scope.

(** ** [DeadlineMonitor] *)

Record DeadlineEntry := mkDeadlineEntry {
  de_budget : N;
  samples : N;
  violations : N;
  last_latency : N;
  max_latency : N
}.

Definition deadline_entry_new (budget : N) : DeadlineEntry := mkDeadlineEntry budget 0 0 0 0.

Definition observe (latency : N) (violated : bool) (e : DeadlineEntry) : DeadlineEntry :=
  mkDeadlineEntry (de_budget e) (samples e + 1) (if violated then violations e + 1 else violations e)
    latency (N.max (max_latency e) latency).

Record DeadlineToken (K : Type) := mkToken { tk_key : K; started_at : N; tk_budget : N }.
Arguments mkToken {K} _ _ _.
Arguments tk_key {K} _.
Arguments started_at {K} _.
Arguments tk_budget {K} _.

Inductive DeadlineOutcome (K : Type) :=
  | Met (key : K) (latency budget : N)
  | Violated (key : K) (latency budget over_by : N).
Arguments Met {K} _ _ _.
Arguments Violated {K} _ _ _ _.

(** ** [IdleWatchdog] *)

Record IdleEntry := mkIdle { timeout : N; last_seen : N; escalated : bool }.

Record IdleViolation (K : Type) := mkViolation { v_key : K; idle_for : N; v_timeout : N }.
Arguments mkViolation {K} _ _ _.
Arguments v_key {K} _.
Arguments idle_for {K} _.
Arguments v_timeout {K} _.

Section monitor.
Context {K : Type} `{Countable K}.

Definition deadline_register (key : K) (budget : N) (m : gmap K DeadlineEntry) : gmap K DeadlineEntry :=
  match m !! key with
  | Some e => <[key := mkDeadlineEntry budget (samples e) (violations e) (last_latency e) (max_latency e)]> m
  | None => <[key := deadline_entry_new budget]> m
  end.

(** [register_from_spec], given the [deadline] of the input's specification. *)
Definition deadline_register_from_spec (key : K) (deadline : option N) (m : gmap K DeadlineEntry) :
    gmap K DeadlineEntry * bool :=
  match deadline with
  | Some d => (deadline_register key d m, true)
  | None => (m, false)
  end.

Definition deadline_unregister (key : K) (m : gmap K DeadlineEntry) : gmap K DeadlineEntry * bool :=
  (delete key m, bool_decide (is_Some (m !! key))).

Definition start (key : K) (now : N) (m : gmap K DeadlineEntry) : option (DeadlineToken K) :=
  match m !! key with
  | Some e => Some (mkToken key now (de_budget e))
  | None => None
  end.

Definition finish (token : DeadlineToken K) (now : N) (m : gmap K DeadlineEntry) :
    gmap K DeadlineEntry * DeadlineOutcome K :=
  let latency := match checked_duration_since now (started_at token) with Some d => d | None => 0 end in
  let violated := N.ltb (tk_budget token) latency in
  (match m !! tk_key token with
   | Some e => <[tk_key token := observe latency violated e]> m
   | None => m
   end,
   if violated then Violated (tk_key token) latency (tk_budget token) (latency - tk_budget token)
   else Met (tk_key token) latency (tk_budget token)).

Context (hash_order : gmap K IdleEntry → list (K * IdleEntry)).

Definition idle_register (key : K) (t now : N) (m : gmap K IdleEntry) : gmap K IdleEntry :=
  match m !! key with
  | Some e => <[key := mkIdle t (last_seen e) (escalated e)]> m
  | None => <[key := mkIdle t now false]> m
  end.

Definition idle_register_from_spec (key : K) (t : option N) (now : N) (m : gmap K IdleEntry) :
    gmap K IdleEntry * bool :=
  match t with
  | Some t => (idle_register key t now m, true)
  | None => (m, false)
  end.

Definition idle_unregister (key : K) (m : gmap K IdleEntry) : gmap K IdleEntry * bool :=
  (delete key m, bool_decide (is_Some (m !! key))).

Definition touch (key : K) (now : N) (m : gmap K IdleEntry) : gmap K IdleEntry * bool :=
  match m !! key with
  | None => (m, false)
  | Some e => (<[key := mkIdle (timeout e) now false]> m, escalated e)
  end.

(** [now.saturating_duration_since(last_seen)] *)
Definition silent_for (e : IdleEntry) (now : N) : N := now - last_seen e.

Definition overdue (e : IdleEntry) (now : N) : bool := N.leb (timeout e) (silent_for e now).

(** The body of the sweep's loop: what becomes of an entry, and what is
    reported of it. *)
Definition sweep_entry (now : N) (e : IdleEntry) : IdleEntry :=
  if escalated e then e
  else if overdue e now then mkIdle (timeout e) (last_seen e) true else e.

Definition sweep_report (now : N) (ke : K * IdleEntry) : option (IdleViolation K) :=
  if escalated ke.2 then None
  else if overdue ke.2 now then Some (mkViolation ke.1 (silent_for ke.2 now) (timeout ke.2)) else None.

Definition poll_all (now : N) (m : gmap K IdleEntry) : gmap K IdleEntry * list (IdleViolation K) :=
  (sweep_entry now <$> m, omap (sweep_report now) (hash_order m)).

(** ** Histories of the monitor *)

Inductive deadline_op :=
  | DRegister (key : K) (budget : N)
  | DUnregister (key : K)
  | DFinish (token : DeadlineToken K) (now : N).

Definition deadline_step (m : gmap K DeadlineEntry) (o : deadline_op) : gmap K DeadlineEntry :=
  match o with
  | DRegister key b => deadline_register key b m
  | DUnregister key => (deadline_unregister key m).1
  | DFinish t now => (finish t now m).1
  end.

(** The latencies and budgets of the measurements finished for a key. *)
Definition finished (x : K) (os : list deadline_op) : list (N * N) :=
  omap (λ o, match o with
    | DFinish t now =>
        if bool_decide (tk_key t = x) then Some (now - started_at t, tk_budget t) else None
    | _ => None
    end) os.

Lemma finish_latency (t : DeadlineToken K) now :
  match checked_duration_since now (started_at t) with Some d => d | None => 0 end = now - started_at t.
Proof. unfold checked_duration_since. destruct (N.leb_spec (started_at t) now); lia. Qed.

Lemma deadline_run x os m e :
  m !! x = Some e → DUnregister x ∉ os →
  ∃ e', foldl deadline_step m os !! x = Some e' ∧
    samples e' = samples e + N.of_nat (length (finished x os)) ∧
    violations e' = violations e + N.of_nat (length (filter (λ lb, lb.2 < lb.1) (finished x os))) ∧
    max_latency e' = foldl N.max (max_latency e) (finished x os).*1.
Proof.
  revert m e. induction os as [|o os IH]; intros m e He Hn.
  { exists e. split_and!; [done|cbn; lia..|done]. }
  rewrite not_elem_of_cons in Hn. destruct Hn as [Hne Hn]. cbn [foldl].
  assert (∀ e1, deadline_step m o !! x = Some e1 →
    samples e1 = samples e + N.of_nat (length (finished x [o])) →
    violations e1 = violations e + N.of_nat (length (filter (λ lb, lb.2 < lb.1) (finished x [o]))) →
    max_latency e1 = foldl N.max (max_latency e) (finished x [o]).*1 →
    ∃ e', foldl deadline_step (deadline_step m o) os !! x = Some e' ∧
      samples e' = samples e + N.of_nat (length (finished x (o :: os))) ∧
      violations e' = violations e + N.of_nat (length (filter (λ lb, lb.2 < lb.1) (finished x (o :: os)))) ∧
      max_latency e' = foldl N.max (max_latency e) (finished x (o :: os)).*1) as Hstep.
  { intros e1 He1 H1 H2 H3. destruct (IH _ e1 He1 Hn) as (e' & He' & G1 & G2 & G3). exists e'.
    assert (finished x (o :: os) = finished x [o] ++ finished x os) as Happ.
    { unfold finished. change (o :: os) with ([o] ++ os). apply omap_app. }
    rewrite Happ, length_app, filter_app, length_app, fmap_app, foldl_app.
    split_and!; [done|lia|lia|]. by rewrite G3, H3. }
  destruct o as [key b|key|t now]; cbn [deadline_step] in *.
  - destruct (decide (key = x)) as [->|Hk].
    + eapply Hstep; [unfold deadline_register; rewrite He; apply lookup_insert_eq|cbn; lia..|done].
    + eapply (Hstep e); [|cbn; lia..|done]. unfold deadline_register.
      destruct (m !! key); by rewrite lookup_insert_ne.
  - assert (key ≠ x) as Hk by congruence. eapply (Hstep e); [|cbn; lia..|done]. cbn. by rewrite lookup_delete_ne.
  - unfold finish. rewrite finish_latency. cbn [fst] in *.
    destruct (decide (tk_key t = x)) as [<-|Hk].
    + assert (finished (tk_key t) [DFinish t now] = [(now - started_at t, tk_budget t)]) as Hf
        by (unfold finished; cbn; by rewrite bool_decide_true).
      rewrite Hf in Hstep. unfold finish in Hstep. rewrite finish_latency, He in Hstep. rewrite He.
      eapply Hstep; [apply lookup_insert_eq|cbn; lia| |done].
      unfold observe. cbn [violations]. rewrite filter_cons, filter_nil. cbn [fst snd].
      destruct (N.ltb_spec (tk_budget t) (now - started_at t)); case_decide; cbn [length]; lia.
    + assert (finished x [DFinish t now] = []) as Hf by (unfold finished; cbn; by rewrite bool_decide_false).
      rewrite Hf in Hstep. unfold finish in Hstep. rewrite finish_latency in Hstep.
      eapply (Hstep e); [|cbn; lia..|done]. cbn [fst]. destruct (m !! tk_key t); [by rewrite lookup_insert_ne|done].
Qed.

(** ** Histories of the watchdog *)

Context (Hhash : ∀ m, hash_order m ≡ₚ map_to_list m).

Inductive idle_op :=
  | IRegister (key : K) (t now : N)
  | IUnregister (key : K)
  | ITouch (key : K) (now : N)
  | IPoll (now : N).

Inductive idle_signal : Set := SClosed | SRecovered.

Definition idle_step (m : gmap K IdleEntry) (o : idle_op) : gmap K IdleEntry :=
  match o with
  | IRegister key t now => idle_register key t now m
  | IUnregister key => (idle_unregister key m).1
  | ITouch key now => (touch key now m).1
  | IPoll now => (poll_all now m).1
  end.

(** What an operation reports of a key. *)
Definition idle_signals (x : K) (m : gmap K IdleEntry) (o : idle_op) : list idle_signal :=
  match o with
  | ITouch key now => if bool_decide (key = x) && (touch key now m).2 then [SRecovered] else []
  | IPoll now => (λ _, SClosed) <$> filter (λ v, v_key v = x) (poll_all now m).2
  | _ => []
  end.

Fixpoint idle_trace (x : K) (m : gmap K IdleEntry) (os : list idle_op) : list idle_signal :=
  match os with
  | [] => []
  | o :: os => idle_signals x m o ++ idle_trace x (idle_step m o) os
  end.

(** A silence and its end in turn; [closed] tells which comes next. *)
Fixpoint alternates (closed : bool) (l : list idle_signal) : Prop :=
  match l with
  | [] => True
  | SClosed :: l => closed = false ∧ alternates true l
  | SRecovered :: l => closed = true ∧ alternates false l
  end.

Definition is_closed (x : K) (m : gmap K IdleEntry) : bool :=
  match m !! x with Some e => escalated e | None => false end.

(** A sweep reports a key at most once. *)
Lemma reports_of_key now x (l : list (K * IdleEntry)) :
  NoDup l.*1 →
  (∀ e, (x, e) ∈ l → filter (λ v, v_key v = x) (omap (sweep_report now) l) = option_list (sweep_report now (x, e))) ∧
  (x ∉ l.*1 → filter (λ v, v_key v = x) (omap (sweep_report now) l) = []).
Proof.
  induction l as [|[k e0] l IH]; [by split; [intros e ?%not_elem_of_nil|]|].
  rewrite fmap_cons, NoDup_cons. intros [Hk Hnd]. destruct (IH Hnd) as [IH1 IH2]. cbn [fst] in Hk.
  assert (filter (λ v, v_key v = x) (omap (sweep_report now) ((k, e0) :: l)) =
    (if bool_decide (k = x) then option_list (sweep_report now (k, e0)) else []) ++
    filter (λ v, v_key v = x) (omap (sweep_report now) l)) as E.
  { cbn [omap list_omap]. destruct (sweep_report now (k, e0)) as [v|] eqn:Hv; [|by destruct (bool_decide _)].
    assert (v_key v = k) as Hvk by (revert Hv; unfold sweep_report; repeat case_match; intros [=]; by subst).
    rewrite filter_cons, Hvk. case_decide as Hd; [by rewrite bool_decide_true|by rewrite bool_decide_false]. }
  rewrite E. split.
  - intros e He. apply elem_of_cons in He as [[= <- <-]|He].
    + rewrite bool_decide_true by done. rewrite IH2, app_nil_r by done. done.
    + rewrite bool_decide_false; [by apply IH1|]. intros ->. apply Hk. apply list_elem_of_fmap. by exists (x, e).
  - rewrite not_elem_of_cons. cbn [fst]. intros [Hne Hx]. rewrite bool_decide_false by congruence. by apply IH2.
Qed.

Lemma poll_reports now x m :
  filter (λ v, v_key v = x) (poll_all now m).2 =
  match m !! x with Some e => option_list (sweep_report now (x, e)) | None => [] end.
Proof.
  unfold poll_all. cbn [snd].
  assert (NoDup (hash_order m).*1) as Hnd by (rewrite Hhash; apply NoDup_fst_map_to_list).
  destruct (reports_of_key now x _ Hnd) as [H1 H2]. destruct (m !! x) as [e|] eqn:He.
  - apply H1. rewrite Hhash. by apply elem_of_map_to_list.
  - apply H2. rewrite Hhash, list_elem_of_fmap. intros ([k e] & -> & Hin).
    apply elem_of_map_to_list in Hin. cbn in He. congruence.
Qed.

Lemma idle_trace_alternates x os m :
  IUnregister x ∉ os → alternates (is_closed x m) (idle_trace x m os).
Proof.
  revert m. induction os as [|o os IH]; intros m Hn; [done|].
  rewrite not_elem_of_cons in Hn. destruct Hn as [Hne Hn]. cbn [idle_trace].
  specialize (IH (idle_step m o) Hn). destruct o as [key t now|key|key now|now]; cbn [idle_signals idle_step] in *.
  - cbn [app]. assert (is_closed x (idle_register key t now m) = is_closed x m) as <-; [|done].
    unfold is_closed, idle_register. destruct (decide (key = x)) as [->|Hk].
    + destruct (m !! x) eqn:E; by rewrite lookup_insert_eq.
    + destruct (m !! key); by rewrite lookup_insert_ne.
  - assert (key ≠ x) as Hk by congruence. cbn [app].
    unfold is_closed in *. cbn [idle_unregister fst] in IH. by rewrite lookup_delete_ne in IH.
  - unfold touch in *. destruct (decide (key = x)) as [->|Hk].
    + rewrite bool_decide_true by done. unfold is_closed in *. destruct (m !! x) as [e|] eqn:E; cbn [fst snd andb] in *; [|by rewrite E in IH].
      rewrite lookup_insert_eq in IH. cbn [escalated] in IH.
      destruct (escalated e); [by split|done].
    + rewrite bool_decide_false by done. cbn [andb app]. unfold is_closed in *.
      destruct (m !! key); cbn [fst] in IH; [by rewrite lookup_insert_ne in IH|done].
  - rewrite poll_reports. unfold is_closed in *. cbn [poll_all fst] in IH. rewrite lookup_fmap in IH.
    destruct (m !! x) as [e|]; [|done]. cbn [fmap option_fmap option_map] in IH.
    unfold sweep_report, sweep_entry in *. cbn [fst snd] in *.
    destruct (escalated e) eqn:Ee; [by rewrite Ee in IH|].
    destruct (overdue e now); [by split|by rewrite Ee in IH].
Qed.
End monitor.

(** ** Statements *)

(** Whatever happens to an input, its silence and the end of its silence
    are reported in turn, each once, starting with the silence; and a sweep
    reports an input exactly when it is registered, has been silent for at
    least its timeout, and this silence has not been reported, with the time
    it has been silent. *)
Theorem silence_is_reported_once `{Countable K} hash_order (x : K) os now :
  (∀ m, hash_order m ≡ₚ map_to_list m) → IUnregister x ∉ os →
  alternates false (idle_trace hash_order x ∅ os) ∧
  let m := foldl (idle_step hash_order) ∅ os in
  ∀ v, v ∈ (poll_all hash_order now m).2 ∧ v_key v = x ↔
    ∃ e, m !! x = Some e ∧ escalated e = false ∧ timeout e <= now - last_seen e ∧
      v = mkViolation x (now - last_seen e) (timeout e).
Proof.
  intros Hh Hn. split.
  - change false with (is_closed x ∅). by apply idle_trace_alternates.
  - intros m v.
    assert (v ∈ (poll_all hash_order now m).2 ∧ v_key v = x ↔
      v ∈ filter (λ v, v_key v = x) (poll_all hash_order now m).2) as ->.
    { rewrite list_elem_of_filter. naive_solver. }
    rewrite (poll_reports hash_order Hh). destruct (m !! x) as [e|].
    + unfold sweep_report, overdue, silent_for. cbn [fst snd]. destruct (escalated e) eqn:Ee.
      { split; [by intros ?%not_elem_of_nil|]. intros (e' & [= <-] & He & _). congruence. }
      destruct (N.leb_spec (timeout e) (now - last_seen e)) as [Hle|Hgt]; unfold option_list; cbn [option_rect].
      * rewrite list_elem_of_singleton. naive_solver.
      * split; [by intros ?%not_elem_of_nil|]. intros (e' & [= <-] & _ & Hle & _). lia.
    + split; [by intros ?%not_elem_of_nil|]. intros (e & ? & _). done.
Qed.

Lemma silence_is_reported_once_witness :
  let os := [IRegister 7%nat 500 0; ITouch 7%nat 100; IPoll 200; IPoll 650; IPoll 700; ITouch 7%nat 900; IPoll 1400] in
  idle_trace map_to_list 7%nat ∅ os = [SClosed; SRecovered; SClosed] ∧
  alternates false (idle_trace map_to_list 7%nat ∅ os).
Proof.
  intros os. split; [by vm_compute|].
  apply (silence_is_reported_once map_to_list 7%nat os 0 (λ m, reflexivity _)).
  intros Hin. apply list_elem_of_In in Hin. cbn in Hin. naive_solver.
Defined.

(** While a key stays registered, its counters are exactly those of the
    measurements finished for it: how many, how many over the budget they
    started with, and the longest, through changes of the budget. *)
Theorem deadline_counters_are_exact `{Countable K} (x : K) budget os m :
  m !! x = None → DUnregister x ∉ os →
  ∃ e, foldl deadline_step (deadline_register x budget m) os !! x = Some e ∧
    samples e = N.of_nat (length (finished x os)) ∧
    violations e = N.of_nat (length (filter (λ lb, lb.2 < lb.1) (finished x os))) ∧
    max_latency e = foldl N.max 0 (finished x os).*1.
Proof.
  intros Hm Hn. destruct (deadline_run x os (deadline_register x budget m) (deadline_entry_new budget)) as (e & He).
  - unfold deadline_register. rewrite Hm. apply lookup_insert_eq.
  - done.
  - exists e. done.
Qed.

Lemma deadline_counters_are_exact_witness :
  let os := [DFinish (mkToken 1%nat 0 50) 10; DRegister 1%nat 20; DFinish (mkToken 1%nat 100 20) 180; DFinish (mkToken 2%nat 0 5) 10] in
  ∃ e, foldl deadline_step (deadline_register 1%nat 50 ∅) os !! 1%nat = Some e ∧
    samples e = N.of_nat (length (finished 1%nat os)) ∧
    violations e = N.of_nat (length (filter (λ lb, lb.2 < lb.1) (finished 1%nat os))) ∧
    max_latency e = foldl N.max 0 (finished 1%nat os).*1.
Proof.
  intros os. apply (deadline_counters_are_exact 1%nat 50 os ∅); [done|].
  intros Hin. apply list_elem_of_In in Hin. cbn in Hin. naive_solver.
Defined.
