(* ===== verification/Utf8.v ===== *)
(** * UTF-8

    Models what the sources use of the encoding of Rust strings:
    [str::as_bytes], and [String::from_utf8_lossy] as the standard library
    documents it: every maximal ill-formed prefix becomes one replacement
    character.  [lossy_as_bytes] is the round trip. *)

From Stdlib Require Import Lia.
From stdpp Require Import base tactics list strings numbers.
From S2P Require Import Prelude Crc32c Text.

Open Scope N_scope.

(** A Unicode scalar value. *)
Definition is_scalar (c : char) : Prop := c < 0xD800 ∨ 0xE000 <= c < 0x110000.

(** The continuation byte with the six bits of [x] from bit [i] on. *)
Definition tail_byte (c i : N) : N := 0x80 + c / 2 ^ i mod 64.

Definition encode_char (c : char) : list N :=
  if N.ltb c 0x80 then [c]
  else if N.ltb c 0x800 then [0xC0 + c / 64; tail_byte c 0]
  else if N.ltb c 0x10000 then [0xE0 + c / 4096; tail_byte c 6; tail_byte c 0]
  else [0xF0 + c / 262144; tail_byte c 12; tail_byte c 6; tail_byte c 0].

(** [s.as_bytes()] *)
Definition as_bytes (s : str) : list N := concat (encode_char <$> s).

Definition REPLACEMENT : char := 0xFFFD.

Definition between (lo hi b : N) : bool := N.leb lo b && N.leb b hi.

(** The second bytes that continue a three-byte and a four-byte sequence. *)
Definition second_of_three (b0 b1 : N) : bool :=
  if N.eqb b0 0xE0 then between 0xA0 0xBF b1
  else if N.eqb b0 0xED then between 0x80 0x9F b1
  else between 0x80 0xBF b1.

Definition second_of_four (b0 b1 : N) : bool :=
  if N.eqb b0 0xF0 then between 0x90 0xBF b1
  else if N.eqb b0 0xF4 then between 0x80 0x8F b1
  else between 0x80 0xBF b1.

Notation is_tail := (between 0x80 0xBF).

(** [String::from_utf8_lossy] *)
Fixpoint from_utf8_lossy (l : list N) : str :=
  match l with
  | [] => []
  | b0 :: l1 =>
      if N.ltb b0 0x80 then b0 :: from_utf8_lossy l1
      else if between 0xC2 0xDF b0 then
        match l1 with
        | b1 :: l2 =>
            if is_tail b1 then (b0 - 0xC0) * 64 + (b1 - 0x80) :: from_utf8_lossy l2
            else REPLACEMENT :: from_utf8_lossy l1
        | [] => [REPLACEMENT]
        end
      else if between 0xE0 0xEF b0 then
        match l1 with
        | b1 :: l2 =>
            if second_of_three b0 b1 then
              match l2 with
              | b2 :: l3 =>
                  if is_tail b2
                  then (b0 - 0xE0) * 4096 + (b1 - 0x80) * 64 + (b2 - 0x80) :: from_utf8_lossy l3
                  else REPLACEMENT :: from_utf8_lossy l2
              | [] => [REPLACEMENT]
              end
            else REPLACEMENT :: from_utf8_lossy l1
        | [] => [REPLACEMENT]
        end
      else if between 0xF0 0xF4 b0 then
        match l1 with
        | b1 :: l2 =>
            if second_of_four b0 b1 then
              match l2 with
              | b2 :: l3 =>
                  if is_tail b2 then
                    match l3 with
                    | b3 :: l4 =>
                        if is_tail b3
                        then (b0 - 0xF0) * 262144 + (b1 - 0x80) * 4096 + (b2 - 0x80) * 64 + (b3 - 0x80)
                             :: from_utf8_lossy l4
                        else REPLACEMENT :: from_utf8_lossy l3
                    | [] => [REPLACEMENT]
                    end
                  else REPLACEMENT :: from_utf8_lossy l2
              | [] => [REPLACEMENT]
              end
            else REPLACEMENT :: from_utf8_lossy l1
        | [] => [REPLACEMENT]
        end
      else REPLACEMENT :: from_utf8_lossy l1
  end.

(** ** The round trip *)

Lemma between_spec lo hi b : between lo hi b = true ↔ lo <= b <= hi.
Proof. unfold between. rewrite andb_true_iff, !N.leb_le. done. Qed.

Lemma between_false lo hi b : between lo hi b = false ↔ b < lo ∨ hi < b.
Proof. unfold between. rewrite andb_false_iff, !N.leb_gt. done. Qed.

Lemma tail_byte_bounds c i : 0x80 <= tail_byte c i <= 0xBF.
Proof.
  unfold tail_byte. assert (c / 2 ^ i mod 64 < 64) as H by (by apply N.mod_lt).
  revert H. generalize (c / 2 ^ i mod 64). lia.
Qed.

Lemma tail_byte_tail c i : is_tail (tail_byte c i) = true.
Proof.
  apply between_spec, tail_byte_bounds.
Qed.

(** A number below [2^22] written in base 64. *)
Lemma base64_digits c :
  ∃ q r2 r1 r0, c / 64 = (q * 64 + r2) * 64 + r1 ∧ c / 4096 = q * 64 + r2 ∧ c / 262144 = q ∧
    c / 2 ^ 0 mod 64 = r0 ∧ c / 2 ^ 6 mod 64 = r1 ∧ c / 2 ^ 12 mod 64 = r2 ∧
    c = ((q * 64 + r2) * 64 + r1) * 64 + r0 ∧ r0 < 64 ∧ r1 < 64 ∧ r2 < 64.
Proof.
  exists (c / 262144), (c / 4096 mod 64), (c / 64 mod 64), (c mod 64).
  change (2 ^ 0) with 1. change (2 ^ 6) with 64. change (2 ^ 12) with 4096. rewrite N.div_1_r.
  assert (c / 4096 = c / 64 / 64) as -> by (rewrite N.Div0.div_div; done).
  assert (c / 262144 = c / 64 / 64 / 64) as -> by (rewrite !N.Div0.div_div; done).
  pose proof (N.Div0.div_mod c 64). assert (c mod 64 < 64) by (by apply N.mod_lt).
  set (d := c / 64) in *. set (m0 := c mod 64) in *. clearbody d m0.
  pose proof (N.Div0.div_mod d 64). assert (d mod 64 < 64) by (by apply N.mod_lt).
  set (e := d / 64) in *. set (m1 := d mod 64) in *. clearbody e m1.
  pose proof (N.Div0.div_mod e 64). assert (e mod 64 < 64) by (by apply N.mod_lt).
  set (g := e / 64) in *. set (m2 := e mod 64) in *. clearbody g m2.
  lia.
Qed.

Lemma between_ok lo hi b : lo <= b <= hi → between lo hi b = true.
Proof. apply between_spec. Qed.

Lemma between_off lo hi b : b < lo ∨ hi < b → between lo hi b = false.
Proof. apply between_false. Qed.

Lemma ltb_off a b : b <= a → N.ltb a b = false.
Proof. apply N.ltb_ge. Qed.

Lemma second_of_three_ok b0 b1 :
  0x80 <= b1 <= 0xBF → (b0 = 0xE0 → 0xA0 <= b1) → (b0 = 0xED → b1 <= 0x9F) →
  second_of_three b0 b1 = true.
Proof.
  intros. unfold second_of_three.
  destruct (N.eqb_spec b0 0xE0); [|destruct (N.eqb_spec b0 0xED)]; apply between_ok; lia.
Qed.

Lemma second_of_four_ok b0 b1 :
  0x80 <= b1 <= 0xBF → (b0 = 0xF0 → 0x90 <= b1) → (b0 = 0xF4 → b1 <= 0x8F) →
  second_of_four b0 b1 = true.
Proof.
  intros. unfold second_of_four.
  destruct (N.eqb_spec b0 0xF0); [|destruct (N.eqb_spec b0 0xF4)]; apply between_ok; lia.
Qed.

Lemma lossy_char c rest :
  is_scalar c → from_utf8_lossy (encode_char c ++ rest) = c :: from_utf8_lossy rest.
Proof.
  intros Hc. unfold is_scalar in Hc.
  destruct (base64_digits c) as (q & r2 & r1 & r0 & E1 & E2 & E3 & F0 & F1 & F2 & Ec & ?&?&?).
  unfold encode_char, tail_byte.
  destruct (N.ltb_spec c 0x80) as [Hlt|].
  { cbn [app from_utf8_lossy]. apply N.ltb_lt in Hlt. by rewrite Hlt. }
  rewrite E1, E2, E3, F0, F1, F2. clear E1 E2 E3 F0 F1 F2.
  destruct (N.ltb_spec c 0x800); [|destruct (N.ltb_spec c 0x10000)]; cbn [app from_utf8_lossy];
    rewrite ltb_off by lia.
  - rewrite !between_ok by lia. f_equal. lia.
  - rewrite between_off, between_ok, second_of_three_ok, between_ok by lia. f_equal. lia.
  - rewrite 2!between_off, between_ok, second_of_four_ok, !between_ok by lia. f_equal. lia.
Qed.

Lemma lossy_as_bytes s : Forall is_scalar s → from_utf8_lossy (as_bytes s) = s.
Proof.
  unfold as_bytes. induction 1 as [|c s Hc _ IH]; [done|].
  cbn [fmap list_fmap concat]. by rewrite lossy_char, IH.
Qed.

Lemma encode_char_bytes c : is_scalar c → Forall is_byte (encode_char c).
Proof.
  intros Hc. unfold is_scalar in Hc. unfold encode_char.
  assert (∀ i, is_byte (tail_byte c i)) as Ht.
  { intros i. pose proof (tail_byte_bounds c i). unfold is_byte. lia. }
  destruct (base64_digits c) as (q & r2 & r1 & r0 & E1 & E2 & E3 & _ & _ & _ & Ec & ?&?&?).
  rewrite E1, E2, E3.
  destruct (N.ltb_spec c 0x80); [|destruct (N.ltb_spec c 0x800); [|destruct (N.ltb_spec c 0x10000)]];
    repeat (constructor; try apply Ht); unfold is_byte; lia.
Qed.

Lemma as_bytes_bytes s : Forall is_scalar s → Forall is_byte (as_bytes s).
Proof.
  unfold as_bytes. induction 1 as [|c s Hc _ IH]; [constructor|].
  cbn [fmap list_fmap concat]. apply Forall_app; auto using encode_char_bytes.
Qed.
