(* ===== verification/Ordered.v ===== *)
(** * Ordered maps and sets

    A [BTreeMap<K, V>] or [BTreeSet<K>] of the source is a finite map or set
    together with the order of its keys: iterating one visits the keys in
    ascending order.  [KeyOrder] is the order a key type derives; [map_entries],
    [map_keys], [map_values] and [sorted_elements] are the iterations.  Strings are
    ordered by their characters, pairs lexicographically. *)

From Stdlib Require Import Lia.
From stdpp Require Import base tactics list gmap numbers sorting.
From S2P Require Import Prelude Text Utf8.

(** ** Total orders on keys *)

Class KeyOrder (K : Type) := {
  key_le : relation K;
  key_le_dec :: RelDecision key_le;
  key_le_order :: PartialOrder key_le;
  key_le_total :: Total key_le;
}.

(** Strictly below. *)
Notation key_lt := (strict key_le).

Section map_entries.
Context {K : Type} `{Countable K} `{!KeyOrder K} {V : Type}.
Implicit Types (m : gmap K V) (k : K) (v : V).

Definition entry_le (p q : K * V) : Prop := key_le p.1 q.1.

#[global] Instance entry_le_dec : RelDecision entry_le.
Proof. intros p q. apply key_le_dec. Defined.

(** [for (k, v) in &map] *)
Definition map_entries m : list (K * V) := merge_sort entry_le (map_to_list m).
(** [map.keys()] and [map.values()] *)
Definition map_keys m : list K := (map_entries m).*1.
Definition map_values m : list V := (map_entries m).*2.

#[local] Instance entry_le_total : Total entry_le.
Proof. intros p q. apply key_le_total. Qed.
#[local] Instance entry_le_trans : Transitive entry_le.
Proof. intros p q r Hpq Hqr. unfold entry_le in *. by etrans. Qed.

Lemma map_entries_perm m : map_entries m ≡ₚ map_to_list m.
Proof. apply merge_sort_Permutation. Qed.

Lemma elem_of_map_entries m k v : (k, v) ∈ map_entries m ↔ m !! k = Some v.
Proof. rewrite map_entries_perm. apply elem_of_map_to_list. Qed.

Lemma elem_of_map_keys m k : k ∈ map_keys m ↔ is_Some (m !! k).
Proof.
  unfold map_keys. rewrite list_elem_of_fmap. split.
  - intros ([k' v] & -> & Hin). exists v. by apply elem_of_map_entries.
  - intros [v Hv]. exists (k, v). split; [done|]. by apply elem_of_map_entries.
Qed.

Lemma elem_of_map_values m v : v ∈ map_values m ↔ ∃ k, m !! k = Some v.
Proof.
  unfold map_values. rewrite list_elem_of_fmap. split.
  - intros ([k v'] & -> & Hin). exists k. by apply elem_of_map_entries.
  - intros [k Hv]. exists (k, v). split; [done|]. by apply elem_of_map_entries.
Qed.

Lemma NoDup_map_keys m : NoDup (map_keys m).
Proof. unfold map_keys. rewrite map_entries_perm. apply NoDup_fst_map_to_list. Qed.

Lemma map_keys_sorted m : StronglySorted key_le (map_keys m).
Proof.
  unfold map_keys, map_entries. apply (StronglySorted_fmap fst entry_le key_le); [done|].
  apply StronglySorted_merge_sort; apply _.
Qed.

Lemma map_entries_empty : map_entries ∅ = [].
Proof. unfold map_entries. by rewrite map_to_list_empty. Qed.
End map_entries.

Section elements.
Context {K : Type} `{Countable K} `{!KeyOrder K}.
Implicit Types (s : gset K) (l : list K).

(** [for k in &set] *)
Definition sorted_elements s : list K := merge_sort key_le (elements s).

Lemma sorted_elements_perm s : sorted_elements s ≡ₚ elements s.
Proof. apply merge_sort_Permutation. Qed.

Lemma elem_of_sorted_elements s k : k ∈ sorted_elements s ↔ k ∈ s.
Proof. rewrite sorted_elements_perm. apply elem_of_elements. Qed.

Lemma NoDup_sorted_elements s : NoDup (sorted_elements s).
Proof. rewrite sorted_elements_perm. apply NoDup_elements. Qed.

(** The keys of a map are the elements of its domain, in order. *)
Lemma map_keys_dom {V} (m : gmap K V) : map_keys m = sorted_elements (dom m).
Proof.
  apply (StronglySorted_unique key_le); [apply map_keys_sorted|apply StronglySorted_merge_sort; apply _|].
  apply NoDup_Permutation; [apply NoDup_map_keys|apply NoDup_sorted_elements|].
  intros k. by rewrite elem_of_map_keys, elem_of_sorted_elements, elem_of_dom.
Qed.

(** A sorted list without duplicates ascends strictly. *)
Lemma sorted_strictly l : NoDup l → StronglySorted key_le l → StronglySorted key_lt l.
Proof.
  intros Hnd Hs. induction Hs as [|k l Hs IH Hall]; [constructor|].
  apply NoDup_cons in Hnd as [Hk Hnd]. constructor; [by apply IH|].
  rewrite Forall_forall in *. intros k' Hk'. split; [by apply Hall|].
  intros Hle. assert (k = k') as -> by (apply (anti_symm key_le); [by apply Hall|done]). done.
Qed.

(** [Vec::sort] on keys *)
Definition sort_keys l : list K := merge_sort key_le l.

Lemma sort_keys_perm l : sort_keys l ≡ₚ l.
Proof. apply merge_sort_Permutation. Qed.

Lemma sort_keys_sorted l : StronglySorted key_le (sort_keys l).
Proof. apply StronglySorted_merge_sort; apply _. Qed.

Lemma elem_of_sort_keys l k : k ∈ sort_keys l ↔ k ∈ l.
Proof. by rewrite sort_keys_perm. Qed.
End elements.

(** ** Lexicographic orders *)

(** Pairs (and records of two fields): the first component decides unless it
    is the same. *)
Section pair_order.
Context {A B : Type} `{EqDecision A} `{!KeyOrder A} `{!KeyOrder B}.

Definition pair_le (p q : A * B) : Prop :=
  key_lt p.1 q.1 ∨ (p.1 = q.1 ∧ key_le p.2 q.2).

#[global] Instance pair_le_dec : RelDecision pair_le.
Proof. intros p q. unfold pair_le. apply _. Defined.

#[global] Instance pair_le_order : PartialOrder pair_le.
Proof.
  split; [split|].
  - intros p. right. done.
  - intros [a b] [a' b'] [a'' b'']. unfold pair_le. simpl.
    intros [H1|[-> H1]] [H2|[<- H2]]; [left; by etrans|by left|by left|right].
    split; [done|by etrans].
  - intros [a b] [a' b'] [H1|[E1 H1]] [H2|[E2 H2]]; simpl in *; subst.
    + destruct H1 as [Ha Hn]. destruct H2 as [Ha' _]. done.
    + by destruct H1.
    + by destruct H2.
    + f_equal. by apply (anti_symm key_le).
Qed.

#[global] Instance pair_le_total : Total pair_le.
Proof.
  intros [a b] [a' b']. unfold pair_le, strict. simpl.
  destruct (decide (a = a')) as [->|Hne].
  - destruct (total key_le b b'); [left|right]; by right.
  - destruct (total key_le a a') as [Ha|Ha]; [left|right]; left; split; try done;
      intros Hb; apply Hne; [|symmetry]; by apply (anti_symm key_le).
Qed.

#[global] Instance pair_key_order : KeyOrder (A * B) := {| key_le := pair_le |}.
End pair_order.

(** An order carried along an injection. *)
Section inj_order.
Context {A B : Type} (f : A → B) `{!Inj (=) (=) f} `{!KeyOrder B}.

Definition inj_le (x y : A) : Prop := key_le (f x) (f y).

Lemma inj_le_order : PartialOrder inj_le.
Proof.
  split; [split|].
  - intros x. by unfold inj_le.
  - intros x y z ??. unfold inj_le in *. by etrans.
  - intros x y ??. apply (inj f). by apply (anti_symm key_le).
Qed.

Lemma inj_le_total : Total inj_le.
Proof. intros x y. apply (total key_le). Qed.

Definition inj_key_order : KeyOrder A :=
  {| key_le := inj_le; key_le_dec := λ x y, key_le_dec (f x) (f y);
     key_le_order := inj_le_order; key_le_total := inj_le_total |}.
End inj_order.

#[global] Instance N_key_order : KeyOrder N := {| key_le := N.le |}.

(** Lists: the first difference decides, a proper prefix comes first. *)
Section list_order.
Context {A : Type} `{EqDecision A} `{!KeyOrder A}.

Fixpoint lex_le (l1 l2 : list A) : Prop :=
  match l1, l2 with
  | [], _ => True
  | _ :: _, [] => False
  | x :: l1', y :: l2' => if decide (x = y) then lex_le l1' l2' else key_le x y
  end.

#[global] Instance lex_le_dec : RelDecision lex_le.
Proof.
  unfold RelDecision. fix go 1. intros l1 l2.
  destruct l1 as [|x l1]; [by left|]. destruct l2 as [|y l2]; [right; intros []|]. simpl.
  destruct (decide (x = y)); [apply go|apply key_le_dec].
Defined.

#[global] Instance lex_le_order : PartialOrder lex_le.
Proof.
  split; [split|].
  - intros l. induction l as [|x l IH]; [done|]. simpl. by rewrite decide_True.
  - intros l1. induction l1 as [|x l1 IH]; intros [|y l2] [|z l3]; simpl; try done.
    destruct (decide (x = y)) as [->|Hxy].
    { case_decide; eauto. }
    destruct (decide (y = z)) as [->|Hyz]; [by rewrite decide_False|].
    intros H1 H2. destruct (decide (x = z)) as [->|]; [|by etrans].
    exfalso. by apply Hxy, (anti_symm key_le).
  - intros l1. induction l1 as [|x l1 IH]; intros [|y l2]; simpl; try done.
    destruct (decide (x = y)) as [->|Hxy].
    + rewrite decide_True by done. intros ??. f_equal. by apply IH.
    + rewrite decide_False by done. intros ??. exfalso. by apply Hxy, (anti_symm key_le).
Qed.

#[global] Instance lex_le_total : Total lex_le.
Proof.
  intros l1. induction l1 as [|x l1 IH]; intros [|y l2]; simpl; [by left|by left|by right|].
  destruct (decide (x = y)) as [->|Hxy].
  - rewrite decide_True by done. apply IH.
  - rewrite decide_False by done. apply (total key_le).
Qed.

#[global] Instance list_key_order : KeyOrder (list A) := {| key_le := lex_le |}.
End list_order.

(** [Ord for str].  The source compares the bytes; UTF-8 keeps the order of
    the characters ([str_order_is_byte_order]). *)
#[global] Instance str_key_order : KeyOrder str := list_key_order.

(** ** Bytes and characters *)

(** At the first difference, the left list has the smaller element. *)
Fixpoint diverges (l1 l2 : list N) : Prop :=
  match l1, l2 with
  | x :: l1', y :: l2' => (x < y)%N ∨ (x = y ∧ diverges l1' l2')
  | _, _ => False
  end.

Lemma diverges_lex (l1 l2 s1 s2 : list N) : diverges l1 l2 → lex_le (l1 ++ s1) (l2 ++ s2) ∧ ¬ lex_le (l2 ++ s2) (l1 ++ s1).
Proof.
  revert l2. induction l1 as [|x l1 IH]; intros [|y l2]; cbn; try done.
  intros [Hlt|[-> Hd]].
  - rewrite !decide_False by lia. cbn. lia.
  - rewrite !decide_True by done. by apply IH.
Qed.

Lemma lex_common (p s1 s2 : list N) : lex_le (p ++ s1) (p ++ s2) ↔ lex_le s1 s2.
Proof. induction p as [|x p IH]; cbn; [done|]. by rewrite decide_True. Qed.

(** A smaller character has the smaller encoding, before either ends. *)
Lemma encode_char_mono c d : (c < d)%N → diverges (encode_char c) (encode_char d).
Proof.
  intros Hcd. unfold encode_char, tail_byte.
  destruct (base64_digits c) as (q & r2 & r1 & r0 & -> & -> & -> & -> & -> & -> & Ec & ? & ? & ?).
  destruct (base64_digits d) as (q' & r2' & r1' & r0' & -> & -> & -> & -> & -> & -> & Ed & ? & ? & ?).
  destruct (N.ltb_spec c 128); [|destruct (N.ltb_spec c 2048); [|destruct (N.ltb_spec c 65536)]];
    (destruct (N.ltb_spec d 128); [|destruct (N.ltb_spec d 2048); [|destruct (N.ltb_spec d 65536)]]); cbn [diverges]; lia.
Qed.

(** Comparing strings by their characters is comparing their bytes. *)
Lemma str_order_is_byte_order (a b : str) : lex_le a b ↔ lex_le (as_bytes a) (as_bytes b).
Proof.
  unfold as_bytes. revert b. induction a as [|c a IH]; intros [|d b]; cbn [fmap list_fmap concat]; [done..| |].
  - split; [done|]. unfold encode_char. by repeat case_match.
  - cbn [lex_le]. destruct (decide (c = d)) as [->|Hne].
    { etrans; [apply IH|]. symmetry. exact (lex_common (encode_char d) _ _). }
    destruct (N.lt_total c d) as [Hlt|[?|Hlt]]; [|done|].
    + pose proof (diverges_lex _ _ (concat (encode_char <$> a)) (concat (encode_char <$> b)) (encode_char_mono _ _ Hlt)).
      cbn. split; [tauto|lia].
    + pose proof (diverges_lex _ _ (concat (encode_char <$> b)) (concat (encode_char <$> a)) (encode_char_mono _ _ Hlt)).
      cbn. split; [lia|tauto].
Qed.
