(* ===== verification/Tarjan.v ===== *)
(** * Strongly connected components

    Models [Tarjan], [strongconnect] and the driver of [compute_sccs] in
    [src/crates/astrs-graph/src/scc.rs], over any ordered vertex type: the
    deduplicated adjacency comes from [Graph.v].

    [run_tarjan_total] and [run_tarjan_spec]: the depth-first search ends, and
    its components are exactly the classes of mutual reachability, each once. *)

From Stdlib Require Import Lia.
From stdpp Require Import base tactics list gmap numbers sorting relations.
From S2P Require Import Prelude Text Ordered.

Section tarjan.
Context {V : Type} `{Countable V} `{!KeyOrder V}.
Implicit Types (v w x y z g : V) (gs s l : list V).

(** ** The search *)

Record Tarjan := mkTarjan {
  adjacency : gmap V (list V);
  next_index : N;
  index : gmap V N;
  lowlink : gmap V N;
  on_stack : gset V;
  (** the top of the stack first *)
  stack : list V;
  sccs : list (list V);
}.
Implicit Type t : Tarjan.

Definition tarjan_new (adj : gmap V (list V)) : Tarjan := mkTarjan adj 0 ∅ ∅ ∅ [] [].

(** The first five statements of [strongconnect]. *)
Definition enter v t : Tarjan :=
  mkTarjan (adjacency t) (next_index t + 1) (<[v := next_index t]> (index t))
    (<[v := next_index t]> (lowlink t)) ({[v]} ∪ on_stack t) (v :: stack t) (sccs t).

(** Lowering the low link of [v] to at most [n], where [v] has one. *)
Definition lower v (n : N) t : Tarjan :=
  mkTarjan (adjacency t) (next_index t) (index t) (alter (N.min n) v (lowlink t))
    (on_stack t) (stack t) (sccs t).

(** [while let Some(w) = self.stack.pop() { ... }] *)
Fixpoint pop_until v (s : list V) (on : gset V) (component : list V) : list V * gset V * list V :=
  match s with
  | [] => ([], on, component)
  | w :: s' =>
      let on := on ∖ {[w]} in
      let component := component ++ [w] in
      if decide (w = v) then (s', on, component) else pop_until v s' on component
  end.

(** The end of [strongconnect]: a root closes its component. *)
Definition close_vertex v t : Tarjan :=
  match index t !! v, lowlink t !! v with
  | Some v_index, Some v_low =>
      if N.eqb v_low v_index then
        let '(s, on, component) := pop_until v (stack t) (on_stack t) [] in
        mkTarjan (adjacency t) (next_index t) (index t) (lowlink t) on s
          (sccs t ++ [sort_keys component])
      else t
  | _, _ => t
  end.

(** The loop over the successors of [v]; [rec] is the recursive call. *)
Fixpoint visit (rec : V → Tarjan → option Tarjan) v (successors : list V) t : option Tarjan :=
  match successors with
  | [] => Some t
  | w :: rest =>
      if decide (index t !! w = None) then
        match rec w t with
        | None => None
        | Some t => visit rec v rest (lower v (default u64_max (lowlink t !! w)) t)
        end
      else if decide (w ∈ on_stack t) then
        visit rec v rest (lower v (default u64_max (index t !! w)) t)
      else visit rec v rest t
  end.

Fixpoint strongconnect (fuel : nat) v t : option Tarjan :=
  match fuel with
  | O => None
  | S fuel =>
      let t := enter v t in
      close_vertex v <$> visit (strongconnect fuel) v (default [] (adjacency t !! v)) t
  end.

(** [for id in adjacency.keys() { ... }] *)
Fixpoint search (fuel : nat) (ids : list V) t : option Tarjan :=
  match ids with
  | [] => Some t
  | id :: ids' =>
      if decide (index t !! id = None) then
        match strongconnect fuel id t with None => None | Some t => search fuel ids' t end
      else search fuel ids' t
  end.

(** Every vertex a search can meet. *)
Definition vertices (adj : gmap V (list V)) : gset V :=
  dom adj ∪ list_to_set (mjoin (map_to_list adj).*2).

(** A search never recurses deeper than there are vertices. *)
Definition depth (adj : gmap V (list V)) : nat := S (size (vertices adj)).

Definition run_tarjan (adj : gmap V (list V)) : option (list (list V)) :=
  sccs <$> search (depth adj) (map_keys adj) (tarjan_new adj).

(** ** Reachability *)

Section search.
Context (adj : gmap V (list V)).

Definition edge x y : Prop := y ∈ default [] (adj !! x).
Definition reaches : relation V := rtc edge.
Definition mutual x y : Prop := reaches x y ∧ reaches y x.

(** A class of mutual reachability. *)
Definition is_scc (c : list V) : Prop :=
  c ≠ [] ∧ ∀ x, x ∈ c → ∀ y, y ∈ c ↔ mutual x y.

Definition visited_set t : gset V := dom (index t).
Definition closed t : list V := mjoin (sccs t).

Lemma edge_vertices x y : edge x y → x ∈ vertices adj ∧ y ∈ vertices adj.
Proof.
  unfold edge, vertices. destruct (adj !! x) as [succ|] eqn:E; simpl; [|by rewrite elem_of_nil].
  intros Hy. split; apply elem_of_union; [left; by apply elem_of_dom|right].
  rewrite elem_of_list_to_set, list_elem_of_join. exists succ. split; [done|].
  apply list_elem_of_fmap. exists (x, succ). split; [done|]. by apply elem_of_map_to_list.
Qed.

(** ** The invariant

    [gs] are the vertices whose calls have begun and not ended. *)

Definition idx t x : N := default 0 (index t !! x).

Record Inv gs t : Prop := {
  inv_adj : adjacency t = adj;
  inv_index_lt : ∀ x, x ∈ visited_set t → (idx t x < next_index t)%N;
  inv_low_dom : dom (lowlink t) = visited_set t;
  inv_on : on_stack t = list_to_set (stack t);
  inv_sorted : StronglySorted (λ x y, (idx t y < idx t x)%N) (stack t);
  inv_visited : ∀ x, x ∈ visited_set t ↔ x ∈ stack t ∨ x ∈ closed t;
  inv_disjoint : ∀ x, x ∈ stack t → x ∈ closed t → False;
  inv_gray : ∀ g, g ∈ gs → g ∈ stack t;
  inv_closed : ∀ x y, x ∈ closed t → edge x y → y ∈ closed t;
  inv_black : ∀ x y, x ∈ visited_set t → x ∉ gs → edge x y → y ∈ visited_set t;
  inv_to_gray : ∀ x, x ∈ stack t → ∃ g, g ∈ gs ∧ (idx t g <= idx t x)%N ∧ reaches x g;
  inv_from_gray : ∀ g x, g ∈ gs → x ∈ stack t → (idx t g <= idx t x)%N → reaches g x;
  inv_sccs : Forall is_scc (sccs t);
  inv_scc_sorted : Forall (StronglySorted key_le) (sccs t);
  inv_once : NoDup (closed t);
  inv_vertices : ∀ x, x ∈ visited_set t → x ∈ vertices adj;
}.

(** What a search adds to a state: the stack grows on top, nothing visited
    changes. *)
Record Grows l t t' : Prop := {
  grow_stack : stack t' = l ++ stack t;
  grow_new : ∀ x, x ∈ l → x ∉ visited_set t;
  grow_visited : visited_set t ⊆ visited_set t';
  grow_index : ∀ x, x ∈ visited_set t → index t' !! x = index t !! x;
  grow_low : ∀ x, x ∈ visited_set t → lowlink t' !! x = lowlink t !! x;
  grow_next : (next_index t <= next_index t')%N;
  grow_fresh : ∀ x, x ∈ visited_set t' → x ∉ visited_set t → (next_index t <= idx t' x)%N;
}.

(** The low link of a vertex. *)
Definition low t x : N := default 0 (lowlink t !! x).

(** What [strongconnect v] leaves: [v]'s low link is the index of a vertex on
    the stack that [v] reaches (or [v]'s own index), and bounds every edge out
    of what it left on the stack. *)
Definition Low l v t t' : Prop :=
  (low t' v = idx t' v ∨ ∃ y, y ∈ stack t' ∧ idx t' y = low t' v ∧ reaches v y) ∧
  ∀ x y, x ∈ l → edge x y → y ∈ stack t → (low t' v <= idx t' y)%N.

(** The state of the loop over the successors of [v]: [l] is what the calls
    left above [v], [s] the stack below it, [seen] the successors met. *)
Record Loop gs v s (seen : list V) l t : Prop := {
  loop_inv : Inv (v :: gs) t;
  loop_stack : stack t = l ++ v :: s;
  loop_gray : ∀ g, g ∈ gs → g ∈ s;
  loop_le : (low t v <= idx t v)%N;
  loop_low : ∃ y, y ∈ stack t ∧ idx t y = low t v ∧ reaches v y;
  loop_above : ∀ x y, x ∈ l → edge x y → y ∈ s → (low t v <= idx t y)%N;
  loop_seen : ∀ y, y ∈ seen → y ∈ visited_set t ∧ (y ∈ s → (low t v <= idx t y)%N);
}.

(** *** Facts about the invariant *)

Lemma not_visited t x : index t !! x = None ↔ x ∉ visited_set t.
Proof. symmetry. apply not_elem_of_dom. Qed.

Lemma stack_visited gs t x : Inv gs t → x ∈ stack t → x ∈ visited_set t.
Proof. intros HI Hx. apply (inv_visited _ _ HI). by left. Qed.

Lemma sorted_NoDup t s : StronglySorted (λ x y, (idx t y < idx t x)%N) s → NoDup s.
Proof.
  induction 1 as [|x s Hs IH Hall]; constructor; [|done].
  intros Hx. rewrite Forall_forall in Hall. specialize (Hall x Hx). simpl in Hall. lia.
Qed.

Lemma stack_NoDup gs t : Inv gs t → NoDup (stack t).
Proof. intros HI. eapply sorted_NoDup, inv_sorted, HI. Qed.

Lemma sorted_idx_ext t t' s :
  (∀ x, x ∈ s → idx t' x = idx t x) →
  StronglySorted (λ x y, (idx t y < idx t x)%N) s → StronglySorted (λ x y, (idx t' y < idx t' x)%N) s.
Proof.
  intros He Hs. induction Hs as [|x s Hs IH Hall]; constructor.
  - apply IH. intros y Hy. apply He. by right.
  - rewrite Forall_forall in *. intros y Hy. specialize (Hall y Hy). simpl in *. rewrite (He y), (He x); [done|by left|by right].
Qed.

(** Above and below a vertex of the stack. *)
Lemma stack_split t l v s :
  StronglySorted (λ x y, (idx t y < idx t x)%N) (l ++ v :: s) →
  (∀ x, x ∈ l → (idx t v < idx t x)%N) ∧ (∀ y, y ∈ s → (idx t y < idx t v)%N).
Proof.
  intros Hs. split.
  - intros x Hx. apply (StronglySorted_app_1_elem_of _ _ _ _ _ Hs Hx). by left.
  - intros y Hy. apply StronglySorted_app_1_r in Hs.
    apply StronglySorted_cons in Hs as [Hall _]. rewrite Forall_forall in Hall. by apply Hall.
Qed.

Lemma grow_idx l t t' x : Grows l t t' → x ∈ visited_set t → idx t' x = idx t x.
Proof. intros HG Hx. unfold idx. by rewrite (grow_index _ _ _ HG). Qed.

Lemma grows_trans l1 l2 t t1 t2 : Grows l1 t t1 → Grows l2 t1 t2 → Grows (l2 ++ l1) t t2.
Proof.
  intros G1 G2. pose proof (grow_visited _ _ _ G1) as Hv1. pose proof (grow_visited _ _ _ G2) as Hv2. split.
  - rewrite (grow_stack _ _ _ G2), (grow_stack _ _ _ G1). by rewrite app_assoc.
  - intros x [Hx|Hx]%elem_of_app; [|by apply (grow_new _ _ _ G1)].
    intros Hn. apply (grow_new _ _ _ G2 x Hx). by apply Hv1.
  - by etrans.
  - intros x Hx. rewrite (grow_index _ _ _ G2) by (by apply Hv1). by apply (grow_index _ _ _ G1).
  - intros x Hx. rewrite (grow_low _ _ _ G2) by (by apply Hv1). by apply (grow_low _ _ _ G1).
  - etrans; [apply (grow_next _ _ _ G1)|apply (grow_next _ _ _ G2)].
  - intros x Hx Hn. destruct (decide (x ∈ visited_set t1)) as [H1|H1].
    + rewrite (grow_idx _ _ _ _ G2) by done. by apply (grow_fresh _ _ _ G1).
    + etrans; [apply (grow_next _ _ _ G1)|by apply (grow_fresh _ _ _ G2)].
Qed.

(** *** Entering a vertex *)

Lemma idx_enter v t x : x ∈ visited_set t → v ∉ visited_set t → idx (enter v t) x = idx t x.
Proof. intros Hx Hv. unfold idx, enter. simpl. by rewrite lookup_insert_ne by (by intros ->). Qed.

Lemma idx_enter_self v t : idx (enter v t) v = next_index t.
Proof. unfold idx, enter. simpl. by rewrite lookup_insert_eq. Qed.

Lemma visited_enter v t x : x ∈ visited_set (enter v t) ↔ x = v ∨ x ∈ visited_set t.
Proof. unfold visited_set, enter. simpl. rewrite dom_insert_L. set_solver. Qed.

Lemma enter_grows v t : v ∉ visited_set t → Grows [v] t (enter v t).
Proof.
  intros Hv. split; simpl.
  - done.
  - by intros x ->%list_elem_of_singleton.
  - intros x Hx. apply visited_enter. by right.
  - intros x Hx. by rewrite lookup_insert_ne by (by intros ->).
  - intros x Hx. by rewrite lookup_insert_ne by (by intros ->).
  - lia.
  - intros x [->|Hx]%visited_enter Hn; [|done]. by rewrite idx_enter_self.
Qed.

Lemma enter_inv gs v t :
  Inv gs t → v ∉ visited_set t → v ∈ vertices adj → (∀ g, g ∈ gs → reaches g v) → Inv (v :: gs) (enter v t).
Proof.
  intros HI Hv Hvv Hg.
  assert (∀ x, x ∈ stack t → x ∈ visited_set t) as Hst by (intros x; by apply (stack_visited gs)).
  assert (∀ x, x ∈ stack t → idx (enter v t) x = idx t x) as Hix.
  { intros x Hx. apply idx_enter; auto. }
  assert (∀ x, x ∈ stack t → (idx t x < next_index t)%N) as Hlt.
  { intros x Hx. apply (inv_index_lt _ _ HI). auto. }
  split; simpl.
  - apply (inv_adj _ _ HI).
  - intros x [->|Hx]%visited_enter; [rewrite idx_enter_self; lia|].
    rewrite idx_enter by done. pose proof (inv_index_lt _ _ HI x Hx). lia.
  - rewrite dom_insert_L, (inv_low_dom _ _ HI). apply set_eq. intros x. rewrite visited_enter. set_solver.
  - by rewrite (inv_on _ _ HI).
  - constructor; [apply (sorted_idx_ext t); [auto|apply HI]|].
    apply Forall_forall. intros x Hx. rewrite idx_enter_self, Hix by done. by apply Hlt.
  - intros x. rewrite visited_enter, (inv_visited _ _ HI), elem_of_cons. unfold closed. simpl. tauto.
  - intros x [->|Hx]%elem_of_cons Hc; [|by eapply inv_disjoint].
    apply Hv, (inv_visited _ _ HI). by right.
  - intros g [->|Hgs]%elem_of_cons; [by left|right]. by apply (inv_gray _ _ HI).
  - apply (inv_closed _ _ HI).
  - intros x y [->|Hx]%visited_enter Hn Hxy; [by destruct Hn; left|].
    apply visited_enter. right. eapply inv_black; [done|done| |done]. intros Hgs. apply Hn. by right.
  - intros x [->|Hx]%elem_of_cons; [exists v; repeat split; [by left|lia|apply rtc_refl]|].
    destruct (inv_to_gray _ _ HI x Hx) as (g & Hgs & Hle & Hr). exists g.
    rewrite !Hix by (done || by apply (inv_gray _ _ HI)). repeat split; [by right|done|done].
  - intros g x [->|Hgs]%elem_of_cons [->|Hx]%elem_of_cons Hle.
    + apply rtc_refl.
    + rewrite idx_enter_self, Hix in Hle by done. specialize (Hlt x Hx). lia.
    + by apply Hg.
    + rewrite !Hix in Hle by (done || by apply (inv_gray _ _ HI)). by apply (inv_from_gray _ _ HI).
  - apply (inv_sccs _ _ HI).
  - apply (inv_scc_sorted _ _ HI).
  - apply (inv_once _ _ HI).
  - intros x [->|Hx]%visited_enter; [done|by apply (inv_vertices _ _ HI)].
Qed.

(** *** Lowering a low link *)

Lemma lower_inv gs v n t : Inv gs t → Inv gs (lower v n t).
Proof.
  intros [A B C D E F G I J K L M N O P Q]. split; try done.
  simpl. by rewrite dom_alter_L.
Qed.

Lemma lower_grows l v n t t' : Grows l t t' → v ∉ visited_set t → Grows l t (lower v n t').
Proof.
  intros HG Hv. destruct HG as [A B C D E F G]. split; try done.
  intros x Hx. simpl. rewrite lookup_alter_ne by (by intros ->). by apply E.
Qed.

Lemma low_lower gs v n t : Inv gs t → v ∈ visited_set t → low (lower v n t) v = N.min n (low t v).
Proof.
  intros HI Hv. unfold low, lower. simpl. rewrite lookup_alter_eq.
  rewrite <-(inv_low_dom _ _ HI) in Hv. apply elem_of_dom in Hv as [m ->]. done.
Qed.

(** Meeting the index or the low link of a vertex the search has visited. *)
Lemma loop_lower gs v s seen l t w n :
  Loop gs v s seen l t → edge v w → w ∈ visited_set t →
  ((low t v <= n)%N ∨ ∃ y, y ∈ stack t ∧ idx t y = n ∧ reaches v y) →
  (w ∈ s → (n <= idx t w)%N) →
  Loop gs v s (w :: seen) l (lower v n t).
Proof.
  intros HL Hw Hvw Hn Hs. pose proof (loop_inv _ _ _ _ _ _ HL) as HI.
  assert (v ∈ visited_set t) as Hv by (eapply stack_visited, inv_gray; [done|done|by left]).
  pose proof (low_lower _ v n _ HI Hv) as Elow.
  split; [by apply lower_inv|apply HL|apply HL|..]; rewrite ?Elow; simpl.
  - change (idx (lower v n t) v) with (idx t v). pose proof (loop_le _ _ _ _ _ _ HL). lia.
  - destruct (decide (low t v <= n)%N) as [Hle|Hle].
    + rewrite N.min_r by done. apply (loop_low _ _ _ _ _ _ HL).
    + rewrite N.min_l by lia. destruct Hn as [Hn|Hn]; [done|apply Hn].
  - intros x y Hx Hxy Hy. change (idx (lower v n t) y) with (idx t y).
    pose proof (loop_above _ _ _ _ _ _ HL x y Hx Hxy Hy). lia.
  - intros y [->|Hy]%elem_of_cons.
    + split; [done|]. intros Hys. change (idx (lower v n t) w) with (idx t w). specialize (Hs Hys). lia.
    + destruct (loop_seen _ _ _ _ _ _ HL y Hy) as [Hyv Hyl]. split; [done|]. intros Hys.
      change (idx (lower v n t) y) with (idx t y). specialize (Hyl Hys). lia.
Qed.

(** After a recursive call. *)
Lemma loop_call gs v s seen l t w l' t' :
  Loop gs v s seen l t → edge v w → w ∉ visited_set t →
  Inv (v :: gs) t' → Grows l' t t' → w ∈ visited_set t' → Low l' w t t' →
  Loop gs v s (w :: seen) (l' ++ l) (lower v (low t' w) t').
Proof.
  intros HL Hw Hnw HI' HG Hwv [Hlow Hab]. pose proof (loop_inv _ _ _ _ _ _ HL) as HI.
  assert (∀ x, x ∈ stack t → x ∈ visited_set t) as Hst by (intros x; by eapply stack_visited).
  assert (v ∈ stack t) as Hv by (apply (inv_gray _ _ HI); by left).
  assert (low t' v = low t v) as Elow by (unfold low; by rewrite (grow_low _ _ _ HG) by auto).
  assert (∀ y, y ∈ stack t → idx t' y = idx t y) as Eidx by (intros y Hy; apply (grow_idx _ _ _ _ HG); auto).
  assert (∀ y, y ∈ s → y ∈ stack t) as Hs.
  { intros y Hy. rewrite (loop_stack _ _ _ _ _ _ HL). apply elem_of_app. right. by right. }
  pose proof (grow_stack _ _ _ HG) as Estk.
  pose proof (loop_le _ _ _ _ _ _ HL) as Hle.
  assert ((idx t v < idx t' w)%N) as Hvw.
  { pose proof (grow_fresh _ _ _ HG w Hwv Hnw). pose proof (inv_index_lt _ _ HI v (Hst _ Hv)). lia. }
  pose proof (low_lower _ v (low t' w) _ HI' ltac:(by apply (grow_visited _ _ _ HG), Hst)) as Elow'.
  split; [by apply lower_inv|..]; rewrite ?Elow', ?Elow; simpl.
  - rewrite Estk, (loop_stack _ _ _ _ _ _ HL). by rewrite app_assoc.
  - apply HL.
  - change (idx (lower v (low t' w) t') v) with (idx t' v). rewrite Eidx by done. lia.
  - destruct (decide (low t v <= low t' w)%N) as [Hd|Hd].
    + rewrite N.min_r by done. destruct (loop_low _ _ _ _ _ _ HL) as (y & Hy & Ey & Hr).
      exists y. rewrite Estk. repeat split; [by apply elem_of_app; right| |done].
      change (idx (lower v (low t' w) t') y) with (idx t' y). by rewrite Eidx.
    + rewrite N.min_l by lia. destruct Hlow as [Ew|(y & Hy & Ey & Hr)]; [lia|].
      exists y. repeat split; [done|done|]. by eapply rtc_l.
  - intros x y [Hx|Hx]%elem_of_app Hxy Hy; change (idx (lower v (low t' w) t') y) with (idx t' y).
    + pose proof (Hab x y Hx Hxy (Hs y Hy)). lia.
    + rewrite Eidx by auto. pose proof (loop_above _ _ _ _ _ _ HL x y Hx Hxy Hy). lia.
  - intros y [->|Hy]%elem_of_cons.
    + split; [done|]. intros Hws. destruct Hnw. auto.
    + destruct (loop_seen _ _ _ _ _ _ HL y Hy) as [Hyv Hyl].
      split; [by apply (grow_visited _ _ _ HG)|]. intros Hys.
      change (idx (lower v (low t' w) t') y) with (idx t' y). rewrite Eidx by auto. specialize (Hyl Hys). lia.
Qed.

(** *** Closing a vertex *)

Lemma pop_until_spec v l s on c :
  v ∉ l → pop_until v (l ++ v :: s) on c = (s, on ∖ list_to_set (l ++ [v]), c ++ l ++ [v]).
Proof.
  revert on c. induction l as [|x l IH]; intros on c Hv; simpl.
  - rewrite decide_True by done. do 2 f_equal. set_solver.
  - rewrite decide_False by (intros ->; apply Hv; by left).
    rewrite IH by (intros Hl; apply Hv; by right). rewrite <-!app_assoc. simpl.
    f_equal. f_equal. set_solver.
Qed.

(** The end of the call of [v]: every successor has been seen. *)
Section root.
Context (gs : list V) (v : V) (s l : list V) (t : Tarjan).
Hypothesis HL : Loop gs v s (default [] (adj !! v)) l t.

Lemma root_inv : Inv (v :: gs) t.
Proof. apply HL. Qed.

Lemma root_stack x : x ∈ stack t ↔ x ∈ l ++ [v] ∨ x ∈ s.
Proof. rewrite (loop_stack _ _ _ _ _ _ HL). set_solver. Qed.

Lemma root_above x : x ∈ l ++ [v] → (idx t v <= idx t x)%N.
Proof.
  pose proof (inv_sorted _ _ root_inv) as Hs. rewrite (loop_stack _ _ _ _ _ _ HL) in Hs.
  apply stack_split in Hs as [Ha _]. intros [Hx| ->%list_elem_of_singleton]%elem_of_app; [|lia].
  specialize (Ha x Hx). lia.
Qed.

Lemma root_below y : y ∈ s → (idx t y < idx t v)%N.
Proof.
  pose proof (inv_sorted _ _ root_inv) as Hs. rewrite (loop_stack _ _ _ _ _ _ HL) in Hs.
  apply stack_split in Hs as [_ Hb]. apply Hb.
Qed.

Lemma root_not_gray x : x ∈ l → x ∉ v :: gs.
Proof.
  pose proof (stack_NoDup _ _ root_inv) as Hnd. rewrite (loop_stack _ _ _ _ _ _ HL) in Hnd.
  apply NoDup_app in Hnd as (_ & Hd & _). intros Hx Hg. apply (Hd x Hx).
  apply elem_of_cons in Hg as [->|Hg]; [by left|right]. by apply (loop_gray _ _ _ _ _ _ HL).
Qed.

(** Every successor of the component has been visited. *)
Lemma root_succ x y : x ∈ l ++ [v] → edge x y → y ∈ visited_set t ∧ (y ∈ s → (low t v <= idx t y)%N).
Proof.
  intros [Hx| ->%list_elem_of_singleton]%elem_of_app Hxy; [|by apply (loop_seen _ _ _ _ _ _ HL)].
  split; [|by apply (loop_above _ _ _ _ _ _ HL x)].
  apply (inv_black _ _ root_inv x y); [|by apply root_not_gray|done].
  eapply stack_visited; [apply root_inv|]. apply root_stack. left. by apply elem_of_app; left.
Qed.

Lemma root_mutual x : x ∈ l ++ [v] → mutual v x.
Proof.
  intros Hx. assert (x ∈ stack t) as Hst by (apply root_stack; by left). split.
  - apply (inv_from_gray _ _ root_inv); [by left|done|by apply root_above].
  - destruct (inv_to_gray _ _ root_inv x Hst) as (g & Hg & _ & Hr).
    apply elem_of_cons in Hg as [->|Hg]; [done|]. etrans; [exact Hr|].
    apply (inv_from_gray _ _ root_inv); [by right| |].
    + apply root_stack. left. apply elem_of_app. right. by left.
    + pose proof (root_below g (loop_gray _ _ _ _ _ _ HL g Hg)). lia.
Qed.

(** A vertex whose low link is below its index stays on the stack, and
    reaches a vertex whose call has not ended. *)
Lemma open_reaches : low t v ≠ idx t v → ∃ g, g ∈ gs ∧ (idx t g < idx t v)%N ∧ reaches v g.
Proof.
  intros Hne. pose proof (loop_le _ _ _ _ _ _ HL) as Hle.
  destruct (loop_low _ _ _ _ _ _ HL) as (y & Hy & Ey & Hr).
  destruct (inv_to_gray _ _ root_inv y Hy) as (g & Hg & Hgy & Hyg).
  apply elem_of_cons in Hg as [->|Hg]; [lia|]. exists g. repeat split; [done|lia|by etrans].
Qed.

Lemma open_inv : low t v ≠ idx t v → Inv gs t.
Proof.
  intros (g' & Hg' & Hlt & Hr)%open_reaches. pose proof root_inv as HI. split; try apply HI.
  - intros g Hg. apply (inv_gray _ _ HI). by right.
  - intros x y Hx Hg Hxy. destruct (decide (x = v)) as [->|Hne]; [by apply (loop_seen _ _ _ _ _ _ HL)|].
    apply (inv_black _ _ HI x y); [done| |done]. by intros [?|?]%elem_of_cons.
  - intros x Hx. destruct (inv_to_gray _ _ HI x Hx) as (g & Hg & Hle & Hxg).
    apply elem_of_cons in Hg as [->|Hg]; [|by exists g]. exists g'. repeat split; [done|lia|by etrans].
  - intros g x Hg. apply (inv_from_gray _ _ HI). by right.
Qed.

Hypothesis Hroot : low t v = idx t v.

(** Nothing of the component has an edge down the stack. *)
Lemma root_edges x y : x ∈ l ++ [v] → edge x y → y ∈ l ++ [v] ∨ y ∈ closed t.
Proof.
  intros Hx Hxy. destruct (root_succ x y Hx Hxy) as [Hv Hy].
  apply (inv_visited _ _ root_inv) in Hv as [Hv|Hv]; [|by right].
  apply root_stack in Hv as [Hv|Hv]; [by left|].
  specialize (Hy Hv). pose proof (root_below y Hv). lia.
Qed.

Lemma root_reaches x y : reaches x y → x ∈ l ++ [v] ∨ x ∈ closed t → y ∈ l ++ [v] ∨ y ∈ closed t.
Proof.
  induction 1 as [x|x z y Hxz _ IH]; [done|]. intros Hx. apply IH. destruct Hx as [Hx|Hx].
  - by apply (root_edges x).
  - right. by apply (inv_closed _ _ root_inv x).
Qed.

Lemma root_scc : is_scc (sort_keys (l ++ [v])).
Proof.
  split.
  { intros E. assert (v ∈ sort_keys (l ++ [v])) as Hv by (rewrite sort_keys_perm; set_solver).
    rewrite E in Hv. by apply elem_of_nil in Hv. }
  intros x Hx y. rewrite elem_of_sort_keys in *. destruct (root_mutual x Hx) as [Hvx Hxv]. split.
  - intros [Hvy Hyv]%root_mutual. split; by etrans.
  - intros [Hxy Hyx]. destruct (root_reaches x y Hxy) as [Hy|Hy]; [by left|done|].
    assert (∀ a b, reaches a b → a ∈ closed t → b ∈ closed t) as Hcl.
    { induction 1 as [|a c b Hac _ IH]; [done|]. intros Ha. by apply IH, (inv_closed _ _ root_inv a). }
    exfalso. apply (inv_disjoint _ _ root_inv x); [|by eapply Hcl]. apply root_stack. by left.
Qed.

(** The state after the component is popped. *)
Definition popped_state : Tarjan :=
  mkTarjan (adjacency t) (next_index t) (index t) (lowlink t) (list_to_set s) s
    (sccs t ++ [sort_keys (l ++ [v])]).

Lemma popped_closed x : x ∈ closed popped_state ↔ x ∈ closed t ∨ x ∈ l ++ [v].
Proof.
  unfold closed, popped_state. simpl. rewrite join_app. simpl. rewrite app_nil_r, elem_of_app.
  by rewrite elem_of_sort_keys.
Qed.

Lemma close_root : close_vertex v t = popped_state.
Proof.
  pose proof root_inv as HI. unfold close_vertex.
  assert (v ∈ visited_set t) as Hv by (eapply stack_visited, inv_gray; [done|done|by left]).
  pose proof Hv as Hl. rewrite <-(inv_low_dom _ _ HI) in Hl.
  unfold visited_set in Hv. apply elem_of_dom in Hv as [i Ei]. apply elem_of_dom in Hl as [m Em].
  pose proof Hroot as Hr. unfold low, idx in Hr. rewrite Ei, Em in Hr. rewrite Ei, Em. simpl in Hr. subst m.
  rewrite N.eqb_refl, (loop_stack _ _ _ _ _ _ HL).
  rewrite pop_until_spec by (intros Hvl; apply (root_not_gray v Hvl); by left).
  unfold popped_state. simpl. f_equal.
  pose proof (stack_NoDup _ _ HI) as Hnd. rewrite (inv_on _ _ HI), (loop_stack _ _ _ _ _ _ HL) in *.
  rewrite cons_middle, app_assoc in Hnd |- *. apply NoDup_app in Hnd as (_ & Hd & _).
  rewrite (list_to_set_app_L (l ++ [v])). apply set_eq. intros x.
  rewrite elem_of_difference, elem_of_union, !elem_of_list_to_set. naive_solver.
Qed.

Lemma popped_inv : Inv gs popped_state.
Proof.
  pose proof root_inv as HI. pose proof (stack_NoDup _ _ HI) as Hnd. pose proof (inv_sorted _ _ HI) as Hs.
  rewrite (loop_stack _ _ _ _ _ _ HL) in Hnd, Hs.
  rewrite cons_middle, app_assoc in Hnd, Hs. apply NoDup_app in Hnd as (Hnl & Hd & Hns).
  assert (∀ x, x ∈ s → x ∈ stack t) as Hsub by (intros x Hx; apply root_stack; by right).
  split; simpl; try apply HI; try done.
  - by eapply StronglySorted_app_1_r.
  - intros x. rewrite popped_closed. change (visited_set popped_state) with (visited_set t).
    rewrite (inv_visited _ _ HI), root_stack. tauto.
  - intros x Hx [Hc|Hc]%popped_closed; [by eapply inv_disjoint; [|apply Hsub|]|by apply (Hd x)].
  - apply HL.
  - intros x y [Hx|Hx]%popped_closed Hxy; apply popped_closed.
    + left. by apply (inv_closed _ _ HI x).
    + destruct (root_edges x y Hx Hxy); auto.
  - intros x y Hx Hg Hxy. destruct (decide (x = v)) as [->|Hne]; [by apply (loop_seen _ _ _ _ _ _ HL)|].
    apply (inv_black _ _ HI x y); [done| |done]. by intros [?|?]%elem_of_cons.
  - intros x Hx. destruct (inv_to_gray _ _ HI x (Hsub x Hx)) as (g & Hg & Hle & Hxg).
    apply elem_of_cons in Hg as [->|Hg]; [|by exists g]. pose proof (root_below x Hx).
    change (idx popped_state) with (idx t) in *. lia.
  - intros g x Hg Hx. apply (inv_from_gray _ _ HI); [by right|auto].
  - apply Forall_app. split; [apply HI|]. apply Forall_singleton, root_scc.
  - apply Forall_app. split; [apply HI|]. apply Forall_singleton, sort_keys_sorted.
  - unfold closed, popped_state. simpl. rewrite join_app. simpl. rewrite app_nil_r. apply NoDup_app.
    split; [apply HI|]. split.
    + intros x Hx Hc. rewrite elem_of_sort_keys in Hc. apply (inv_disjoint _ _ HI x); [|done].
      apply root_stack. by left.
    + by rewrite sort_keys_perm.
Qed.
End root.

(** *** The recursive calls *)

(** What a call of [strongconnect] does, for fewer than [n] vertices left. *)
Definition Connects (rec : V → Tarjan → option Tarjan) (n : nat) : Prop :=
  ∀ gs t v, Inv gs t → v ∉ visited_set t → v ∈ vertices adj → (∀ g, g ∈ gs → reaches g v) →
    (size (vertices adj ∖ visited_set t) < n)%nat →
    ∃ l t', rec v t = Some t' ∧ Inv gs t' ∧ Grows l t t' ∧ v ∈ visited_set t' ∧ Low l v t t'.

Lemma loop_weaken gs v s seen seen' l t :
  (∀ y, y ∈ seen' → y ∈ seen) → Loop gs v s seen l t → Loop gs v s seen' l t.
Proof. intros Hs [A B C D E F G]. split; auto. Qed.

Lemma default_low gs t x d : Inv gs t → x ∈ visited_set t → default d (lowlink t !! x) = low t x.
Proof.
  intros HI Hx. rewrite <-(inv_low_dom _ _ HI) in Hx. apply elem_of_dom in Hx as [m Em].
  unfold low. by rewrite Em.
Qed.

Lemma default_idx t x d : x ∈ visited_set t → default d (index t !! x) = idx t x.
Proof. unfold visited_set. intros [m Em]%elem_of_dom. unfold idx. by rewrite Em. Qed.

Lemma fewer_left t t' : visited_set t ⊆ visited_set t' →
  (size (vertices adj ∖ visited_set t') <= size (vertices adj ∖ visited_set t))%nat.
Proof. intros Hs. apply subseteq_size. set_solver. Qed.

Lemma visit_spec rec n gs v s t0 :
  Connects rec n → v ∉ visited_set t0 → ∀ succs seen l t,
  (∀ w, w ∈ succs → edge v w) → Loop gs v s seen l t → Grows (l ++ [v]) t0 t →
  (size (vertices adj ∖ visited_set t) < n)%nat →
  ∃ l' t', visit rec v succs t = Some t' ∧ Loop gs v s (reverse succs ++ seen) l' t' ∧
    Grows (l' ++ [v]) t0 t'.
Proof.
  intros Hrec Hv0 succs. induction succs as [|w succs IH]; intros seen l t Hsucc HL HG Hn; simpl.
  { by exists l, t. }
  rewrite reverse_cons, <-app_assoc. simpl.
  assert (edge v w) as Hvw by (apply Hsucc; by left).
  assert (∀ w', w' ∈ succs → edge v w') as Hsucc' by (intros w' ?; apply Hsucc; by right).
  pose proof (loop_inv _ _ _ _ _ _ HL) as HI.
  assert (v ∈ stack t) as Hv by (apply (inv_gray _ _ HI); by left).
  case_decide as Hw; [|case_decide as Hon].
  - apply not_visited in Hw.
    destruct (Hrec (v :: gs) t w HI Hw) as (l' & t' & -> & HI' & HG' & Hwv & Hlow); [..|done|].
    { by apply (edge_vertices _ _ Hvw). }
    { intros g Hg. etrans; [|by apply rtc_once]. apply elem_of_cons in Hg as [->|Hg]; [done|].
      apply (inv_from_gray _ _ HI); [by right|done|].
      pose proof (inv_sorted _ _ HI) as Hs. rewrite (loop_stack _ _ _ _ _ _ HL) in Hs.
      apply stack_split in Hs as [_ Hb]. pose proof (Hb g (loop_gray _ _ _ _ _ _ HL g Hg)). lia. }
    rewrite (default_low _ _ _ _ HI' Hwv). apply (IH _ (l' ++ l)); [done|by eapply loop_call|..].
    + apply lower_grows; [|done]. rewrite <-app_assoc. by eapply grows_trans.
    + pose proof (fewer_left _ _ (grow_visited _ _ _ HG')) as Hf. change (visited_set (lower v (low t' w) t')) with (visited_set t'). lia.
  - assert (w ∈ visited_set t) as Hwv by (by apply dec_stable; intros Hn'; apply Hw, not_visited).
    rewrite (default_idx _ _ _ Hwv). apply (IH _ l); [done| |by apply lower_grows|done].
    apply loop_lower; [done..| |done]. right. exists w. rewrite (inv_on _ _ HI), elem_of_list_to_set in Hon.
    repeat split; [done|]. by apply rtc_once.
  - assert (w ∈ visited_set t) as Hwv by (by apply dec_stable; intros Hn'; apply Hw, not_visited).
    apply (IH _ l); [done| |done|done]. destruct HL as [A B C D E F G]. split; try done.
    intros y [->|Hy]%elem_of_cons; [|by apply G]. split; [done|]. intros Hs. destruct Hon.
    rewrite (inv_on _ _ HI), elem_of_list_to_set, B. apply elem_of_app. right. by right.
Qed.

Lemma enter_loop gs v t :
  Inv gs t → v ∉ visited_set t → v ∈ vertices adj → (∀ g, g ∈ gs → reaches g v) →
  Loop gs v (stack t) [] [] (enter v t).
Proof.
  intros HI Hv Hvv Hg. assert (low (enter v t) v = next_index t) as El.
  { unfold low, enter. simpl. by rewrite lookup_insert_eq. }
  split; [by apply enter_inv|done|apply HI|..]; rewrite ?El, ?idx_enter_self; [done|..].
  - exists v. split; [by left|]. split; [apply idx_enter_self|apply rtc_refl].
  - by intros x y ?%elem_of_nil.
  - by intros y ?%elem_of_nil.
Qed.

(** Closing the vertex, whether it is a root or not. *)
Lemma close_spec gs v l t t1 :
  Loop gs v (stack t) (default [] (adj !! v)) l t1 → Grows (l ++ [v]) t t1 →
  ∃ l' t', close_vertex v t1 = t' ∧ Inv gs t' ∧ Grows l' t t' ∧ v ∈ visited_set t' ∧ Low l' v t t'.
Proof.
  intros HL HG. pose proof (loop_inv _ _ _ _ _ _ HL) as HI.
  assert (v ∈ visited_set t1) as Hv by (eapply stack_visited, inv_gray; [done|done|by left]).
  destruct (decide (low t1 v = idx t1 v)) as [Hr|Hr].
  - exists [], (popped_state v (stack t) l t1). split; [by eapply close_root|]. split; [by eapply popped_inv|].
    split; [|split; [done|split; [by left|by intros x y ?%elem_of_nil]]].
    destruct HG as [A B C D E F G]. split; try done. by intros x ?%elem_of_nil.
  - exists (l ++ [v]), t1. split.
    { unfold close_vertex. pose proof (default_idx t1 v 0 Hv) as Ei. pose proof (default_low _ t1 v 0 HI Hv) as Em.
      destruct (index t1 !! v); [|done]. destruct (lowlink t1 !! v); [|done]. simpl in *. subst.
      by destruct (N.eqb_spec (low t1 v) (idx t1 v)). }
    split; [by eapply open_inv|]. split; [done|]. split; [done|]. split.
    + right. apply HL.
    + intros x y Hx Hxy. by eapply root_succ.
Qed.

Lemma strongconnect_connects n : Connects (strongconnect n) n.
Proof.
  induction n as [|n IH]; intros gs t v HI Hv Hvv Hg Hn; [lia|]. simpl.
  rewrite (inv_adj _ _ HI).
  destruct (visit_spec (strongconnect n) n gs v (stack t) t IH Hv (default [] (adj !! v)) [] [] (enter v t))
    as (l & t1 & -> & HL & HG).
  - done.
  - by apply enter_loop.
  - by apply enter_grows.
  - apply (Nat.lt_le_trans _ (size (vertices adj ∖ visited_set t))); [|lia].
    apply subset_size. split.
    + intros x. rewrite !elem_of_difference, visited_enter. tauto.
    + intros Hs. specialize (Hs v). rewrite !elem_of_difference, visited_enter in Hs. tauto.
  - destruct (close_spec gs v l t t1) as (l' & t' & E & Hrest); [|done|].
    { eapply loop_weaken; [|exact HL]. intros y Hy. rewrite app_nil_r. by apply elem_of_reverse. }
    exists l', t'. simpl. by rewrite E.
Qed.

(** *** The whole search *)

Lemma tarjan_new_inv : Inv [] (tarjan_new adj).
Proof.
  split; simpl; try done; try constructor; try (intros ? ?%elem_of_nil; done);
    try (intros ? ? ?%elem_of_nil; done).
  - intros Hx. exfalso. by apply elem_of_empty in Hx.
  - intros [Hx|Hx]; exfalso; by apply elem_of_nil in Hx.
Qed.

Lemma search_spec n ids t :
  Inv [] t → (∀ x, x ∈ ids → x ∈ vertices adj) → (size (vertices adj) < n)%nat →
  ∃ t', search n ids t = Some t' ∧ Inv [] t' ∧ visited_set t ⊆ visited_set t' ∧ ∀ x, x ∈ ids → x ∈ visited_set t'.
Proof.
  revert t. induction ids as [|id ids IH]; intros t HI Hids Hn; simpl.
  { exists t. split_and!; [done..|]. by intros x ?%elem_of_nil. }
  assert (∀ x, x ∈ ids → x ∈ vertices adj) as Hids' by (intros x ?; apply Hids; by right).
  case_decide as Hid.
  - apply not_visited in Hid.
    destruct (strongconnect_connects n [] t id HI Hid) as (l & t1 & -> & HI1 & HG & Hv & _).
    { apply Hids. by left. } { by intros g ?%elem_of_nil. }
    { eapply Nat.le_lt_trans; [|exact Hn]. apply subseteq_size. set_solver. }
    destruct (IH t1 HI1 Hids' Hn) as (t' & E & HI' & Hsub & Hall). exists t'. rewrite E.
    split_and!; [done|done| |].
    + etrans; [apply (grow_visited _ _ _ HG)|done].
    + intros x [->|Hx]%elem_of_cons; auto.
  - destruct (IH t HI Hids' Hn) as (t' & E & HI' & Hsub & Hall). exists t'. rewrite E.
    split_and!; [done..|]. intros x [->|Hx]%elem_of_cons; [|by apply Hall].
    apply Hsub. apply dec_stable. by rewrite <-not_visited.
Qed.

(** A search whose calls have all ended has emptied the stack. *)
Lemma done_stack t : Inv [] t → stack t = [].
Proof.
  intros HI. destruct (stack t) as [|x s] eqn:E; [done|].
  destruct (inv_to_gray _ _ HI x) as (g & Hg & _); [rewrite E; by left|]. by apply elem_of_nil in Hg.
Qed.

(** *** What [run_tarjan] computes *)

Lemma keys_vertices x : x ∈ map_keys adj → x ∈ vertices adj.
Proof. rewrite elem_of_map_keys. intros Hx. apply elem_of_union. left. by apply elem_of_dom. Qed.

Lemma run_tarjan_inv : ∃ t, run_tarjan adj = Some (sccs t) ∧ Inv [] t ∧ ∀ x, x ∈ vertices adj → x ∈ closed t.
Proof.
  destruct (search_spec (depth adj) (map_keys adj) (tarjan_new adj) tarjan_new_inv keys_vertices) as (t & E & HI & _ & Hall).
  { unfold depth. lia. }
  exists t. unfold run_tarjan. rewrite E. split; [done|]. split; [done|].
  assert (∀ x, x ∈ visited_set t → x ∈ closed t) as Hvc.
  { intros x [Hx|Hx]%(inv_visited _ _ HI); [|done]. rewrite (done_stack _ HI) in Hx. by apply elem_of_nil in Hx. }
  intros x [Hx|Hx]%elem_of_union.
  - apply Hvc, Hall, elem_of_map_keys. by apply elem_of_dom in Hx.
  - rewrite elem_of_list_to_set, list_elem_of_join in Hx. destruct Hx as (succ & Hx & Hs).
    apply list_elem_of_fmap in Hs as ([y succ'] & -> & Hy). apply elem_of_map_to_list in Hy. simpl in Hx.
    apply (inv_closed _ _ HI y); [|unfold edge; by rewrite Hy].
    apply Hvc, Hall, elem_of_map_keys. by exists succ'.
Qed.

(** The search never runs out of depth. *)
Lemma run_tarjan_total : is_Some (run_tarjan adj).
Proof. destruct run_tarjan_inv as (t & -> & _). eauto. Qed.

(** Its components are the classes of mutual reachability, sorted, each
    vertex in one of them, once. *)
Lemma run_tarjan_spec cs :
  run_tarjan adj = Some cs →
  Forall is_scc cs ∧ Forall (StronglySorted key_le) cs ∧ NoDup (mjoin cs) ∧
  ∀ x, x ∈ mjoin cs ↔ x ∈ vertices adj.
Proof.
  intros E. destruct run_tarjan_inv as (t & E' & HI & Hall). rewrite E in E'. injection E' as ->.
  split; [apply HI|]. split; [apply HI|]. split; [apply HI|]. intros x. split; [|apply Hall].
  intros Hx. apply (inv_vertices _ _ HI), (inv_visited _ _ HI). by right.
Qed.
End search.
End tarjan.
