(* ===== verification/TypeUrn.v ===== *)
(** * Type URNs

    Models [src/crates/astrs-data/src/urn/parse.rs]: the identifier a port's
    type carries, [std/<category>/v<n>/<Name>[key=value,...]], its parser, its
    canonical text and the operations that build one; and of
    [src/crates/astrs-data/src/urn/error.rs] the errors of its syntax.

    A parsed URN's text parses back to it ([urn_roundtrip]), and the order its
    parameters are written in does not matter
    ([parameter_order_is_irrelevant]). *)

From Stdlib Require Import Lia.
From stdpp Require Import base tactics list gmap strings numbers sorting.
From S2P Require Import Prelude Text Utf8 Ordered.

Open Scope N_scope.

(** ** Characters *)

Definition is_ascii_lowercase (c : char) : bool := N.leb 97 c && N.leb c 122.
Definition is_ascii_uppercase (c : char) : bool := N.leb 65 c && N.leb c 90.
Definition is_alphanumeric (c : char) : bool :=
  is_ascii_lowercase c || is_ascii_uppercase c || is_ascii_digit c.

(** [text.len()]: bytes. *)
Definition text_len (s : str) : N := N.of_nat (length (as_bytes s)).

(** ** Errors *)

Inductive TypeUrnError : Set :=
  | UrnEmpty
  | UrnTooLong (len max : N)
  | SegmentCount (found : nat)
  | UnsupportedNamespace (namespace : str)
  | InvalidCategory (category : str)
  | InvalidVersion (version : str)
  | InvalidName (name : str)
  | UnterminatedParams
  | TrailingData (rest : str)
  | EmptyParams
  | MalformedParam (param : str)
  | EmptyParamKey
  | EmptyParamValue (key : str)
  | InvalidParamKey (key : str)
  | InvalidParamValue (key value : str)
  | DuplicateParam (key : str)
  | TooManyParams (found max : nat).

Notation UrnResult A := (result TypeUrnError A).

(** ** [TypeUrn] *)

Record Span := mkSpan { sp_start : N; sp_end : N }.

Definition u16_max : N := 65535.

Definition span_new (start end_ : N) : Span :=
  mkSpan (if N.leb start u16_max then start else u16_max) (if N.leb end_ u16_max then end_ else u16_max).

(** [text.get(start..end).unwrap_or_default()]; the text is ASCII. *)
Definition span_slice (sp : Span) (text : str) : str :=
  if N.leb (sp_start sp) (sp_end sp) && N.leb (sp_end sp) (text_len text) then
    take (N.to_nat (sp_end sp - sp_start sp)) (drop (N.to_nat (sp_start sp)) text)
  else [].

Record TypeUrn := mkTypeUrn {
  repr : str;
  u_category : Span;
  u_name : Span;
  u_version : N;
  u_params : gmap str str;
}.

Definition NAMESPACE : str := lit "std".
Definition MAX_LEN : N := 512.
Definition MAX_PARAMS : nat := 16.
Definition MAX_SEGMENT_LEN : N := 64.

Definition as_str (u : TypeUrn) : str := repr u.
Definition category (u : TypeUrn) : str := span_slice (u_category u) (repr u).
Definition urn_name (u : TypeUrn) : str := span_slice (u_name u) (repr u).
Definition param (key : str) (u : TypeUrn) : option str := u_params u !! key.
Definition param_count (u : TypeUrn) : nat := size (u_params u).
Definition has_params (u : TypeUrn) : bool := negb (bool_decide (u_params u = ∅)).

(** ** The grammar *)

(** [[a-z][a-z0-9_]*] *)
Definition is_identifier (text : str) : bool :=
  match text with
  | [] => false
  | c :: _ =>
      N.leb (text_len text) MAX_SEGMENT_LEN && is_ascii_lowercase c
      && forallb (λ c, is_ascii_lowercase c || is_ascii_digit c || N.eqb c 95) text
  end.

(** [[A-Z][A-Za-z0-9]*] *)
Definition is_type_name (text : str) : bool :=
  match text with
  | [] => false
  | c :: _ =>
      N.leb (text_len text) MAX_SEGMENT_LEN && is_ascii_uppercase c && forallb is_alphanumeric text
  end.

(** [[A-Za-z0-9_.:+*-]+] *)
Definition is_value_char (c : char) : bool :=
  is_alphanumeric c || N.eqb c 95 || N.eqb c 46 || N.eqb c 58 || N.eqb c 43 || N.eqb c 42 || N.eqb c 45.

Definition is_param_value (text : str) : bool :=
  match text with
  | [] => false
  | _ => N.leb (text_len text) MAX_SEGMENT_LEN && forallb is_value_char text
  end.

Definition parse_version (text : str) : UrnResult N :=
  match strip_prefix (lit "v") text with
  | None => Err (InvalidVersion text)
  | Some digits =>
      if bool_decide (digits = []) || N.ltb 5 (text_len digits) || negb (forallb is_ascii_digit digits)
      then Err (InvalidVersion text)
      else if N.ltb 1 (text_len digits) && bool_decide (head digits = Some 48) then Err (InvalidVersion text)
      else match parse_uint u16_max digits with Ok v => Ok v | Err _ => Err (InvalidVersion text) end
  end.

Definition check_param (key value : str) : UrnResult unit :=
  if bool_decide (key = []) then Err EmptyParamKey
  else if negb (is_identifier key) then Err (InvalidParamKey key)
  else if bool_decide (value = []) then Err (EmptyParamValue key)
  else if negb (is_param_value value) then Err (InvalidParamValue key value)
  else Ok tt.

(** [s.rfind(c)] and the two slices around it. *)
Fixpoint rsplit_once (sep : char) (s : str) : option (str * str) :=
  match s with
  | [] => None
  | c :: s' =>
      match rsplit_once sep s' with
      | Some (a, b) => Some (c :: a, b)
      | None => if N.eqb sep c then Some ([], s') else None
      end
  end.

(** The head before the first [\[] and what the brackets hold; a closing
    bracket before the opening one does not count. *)
Definition split_params (input : str) : UrnResult (str * option str) :=
  match split_once 91 input with
  | None => Ok (input, None)
  | Some (head, rest) =>
      match rsplit_once 93 rest with
      | None => Err UnterminatedParams
      | Some (inner, []) => Ok (head, Some inner)
      | Some (_, tail) => Err (TrailingData tail)
      end
  end.

(** One entry of a parameter list into the map. *)
Definition insert_param (key value : str) (map : gmap str str) : UrnResult (gmap str str) :=
  let? _ := check_param key value in
  if bool_decide (is_Some (map !! key)) then Err (DuplicateParam key)
  else
    let map := <[key := value]> map in
    if Nat.ltb MAX_PARAMS (size map) then Err (TooManyParams (size map) MAX_PARAMS) else Ok map.

Fixpoint parse_entries (map_entries : list str) (map : gmap str str) : UrnResult (gmap str str) :=
  match map_entries with
  | [] => Ok map
  | entry :: rest =>
      match split_once 61 entry with
      | None => Err (MalformedParam entry)
      | Some (key, value) => let? map := insert_param key value map in parse_entries rest map
      end
  end.

Definition parse_params (inner : str) : UrnResult (gmap str str) :=
  if bool_decide (inner = []) then Err EmptyParams else parse_entries (split 44 inner) ∅.

(** ** The canonical text *)

Definition push_u16 (out : str) (value : N) : str := out ++ decimal_loop 5 value [].

(** [key=value,key=value,...] *)
Fixpoint push_params (params : list (str * str)) (first : bool) : str :=
  match params with
  | [] => []
  | (key, value) :: rest => (if first then [] else [44]) ++ key ++ 61 :: value ++ push_params rest false
  end.

Definition assemble (category : str) (version : N) (name : str) (params : gmap str str) : UrnResult TypeUrn :=
  let text := NAMESPACE ++ [47] in
  let category_start := text_len text in
  let text := text ++ category in
  let category_span := span_new category_start (text_len text) in
  let text := push_u16 (text ++ lit "/v") version ++ [47] in
  let name_start := text_len text in
  let text := text ++ name in
  let name_span := span_new name_start (text_len text) in
  let text := if bool_decide (params = ∅) then text else text ++ 91 :: push_params (map_entries params) true ++ [93] in
  if N.ltb MAX_LEN (text_len text) then Err (UrnTooLong (text_len text) MAX_LEN)
  else Ok (mkTypeUrn text category_span name_span version params).

(** ** Constructors *)

Definition parse (input : str) : UrnResult TypeUrn :=
  if N.ltb MAX_LEN (text_len input) then Err (UrnTooLong (text_len input) MAX_LEN)
  else if bool_decide (trim input = []) then Err UrnEmpty
  else
    let? (head, params_text) := split_params input in
    match split 47 head with
    | [namespace; category; version; name] =>
        if negb (bool_decide (namespace = NAMESPACE)) then Err (UnsupportedNamespace namespace)
        else if negb (is_identifier category) then Err (InvalidCategory category)
        else if negb (is_type_name name) then Err (InvalidName name)
        else
          let? version := parse_version version in
          let? params := match params_text with Some text => parse_params text | None => Ok ∅ end in
          assemble category version name params
    | segments => Err (SegmentCount (length segments))
    end.

Fixpoint insert_params (params : list (str * str)) (map : gmap str str) : UrnResult (gmap str str) :=
  match params with
  | [] => Ok map
  | (key, value) :: rest => let? map := insert_param key value map in insert_params rest map
  end.

Definition try_with_params (category : str) (version : N) (name : str) (params : list (str * str)) : UrnResult TypeUrn :=
  if negb (is_identifier category) then Err (InvalidCategory category)
  else if negb (is_type_name name) then Err (InvalidName name)
  else let? map := insert_params params ∅ in assemble category version name map.

Definition try_new (category : str) (version : N) (name : str) : UrnResult TypeUrn :=
  try_with_params category version name [].

Definition with_param (key value : str) (u : TypeUrn) : UrnResult TypeUrn :=
  let? _ := check_param key value in
  let params := <[key := value]> (u_params u) in
  if Nat.ltb MAX_PARAMS (size params) then Err (TooManyParams (size params) MAX_PARAMS)
  else assemble (category u) (u_version u) (urn_name u) params.

Definition without_param (key : str) (u : TypeUrn) : UrnResult TypeUrn :=
  if negb (bool_decide (is_Some (u_params u !! key))) then Ok u
  else assemble (category u) (u_version u) (urn_name u) (delete key (u_params u)).

(** [repr.get(..end).unwrap_or(&repr)] *)
Definition base_str (u : TypeUrn) : str :=
  if N.leb (sp_end (u_name u)) (text_len (repr u)) then take (N.to_nat (sp_end (u_name u))) (repr u) else repr u.

Definition base (u : TypeUrn) : TypeUrn :=
  if negb (has_params u) then u
  else mkTypeUrn (base_str u) (u_category u) (u_name u) (u_version u) ∅.

Definition base_eq (u v : TypeUrn) : bool := bool_decide (base_str u = base_str v).

Example parse_image :
  (as_str <$> match parse (lit "std/media/v1/Image[width=640,pixel=rgb8]") with Ok u => Some u | Err _ => None end)
  = Some (lit "std/media/v1/Image[pixel=rgb8,width=640]").
Proof. vm_compute. reflexivity. Qed.

Example parse_accessors :
  ((λ u, (category u, urn_name u, as_str (base u))) <$>
     match parse (lit "std/media/v12/Image[pixel=rgb8]") with Ok u => Some u | Err _ => None end)
  = Some (lit "media", lit "Image", lit "std/media/v12/Image").
Proof. vm_compute. reflexivity. Qed.

(** ** Facts about the grammar *)

(** Every piece of a URN is made of value characters, and none of them
    separates pieces. *)
Definition plain (s : str) : Prop := Forall (λ c, is_value_char c = true) s.

Lemma alphanumeric_value c : is_alphanumeric c = true → is_value_char c = true.
Proof. unfold is_value_char. by intros ->. Qed.

Lemma value_char_spec c :
  is_value_char c = true → c < 128 ∧ c ≠ 47 ∧ c ≠ 91 ∧ c ≠ 93 ∧ c ≠ 44 ∧ c ≠ 61 ∧ is_whitespace c = false.
Proof.
  intros Hc. assert (42 <= c /\ c <> 44 /\ c <> 47 /\ c <> 91 /\ c <> 93 /\ c <> 61 /\ c <= 122) as Hr.
  { unfold is_value_char, is_alphanumeric, is_ascii_lowercase, is_ascii_uppercase, is_ascii_digit in Hc.
    repeat (apply orb_true_iff in Hc as [Hc|Hc]); bool_to_prop; lia. }
  repeat split; try lia. unfold is_whitespace.
  repeat match goal with
  | |- context [N.leb ?a ?b] => destruct (N.leb_spec a b); try lia
  | |- context [N.eqb ?a ?b] => destruct (N.eqb_spec a b); try lia
  end; done.
Qed.

Lemma plain_without s sep : plain s → sep ∈ [47; 91; 93; 44; 61] → Forall (λ c, c ≠ sep) s.
Proof.
  intros Hs Hsep. eapply Forall_impl; [exact Hs|]. intros c Hc.
  pose proof (value_char_spec c Hc) as Hv. set_unfold. naive_solver.
Qed.

Lemma identifier_plain s : is_identifier s = true → s ≠ [] ∧ plain s.
Proof.
  destruct s as [|c s]; [done|]. cbn [is_identifier]. intros Hs. bool_to_prop. split; [done|].
  apply Forall_forall. intros x Hx. rewrite forallb_forall in H0. apply list_elem_of_In in Hx. specialize (H0 x Hx).
  apply orb_true_iff in H0 as [H0|H0]; [apply orb_true_iff in H0 as [H0|H0]|].
  - apply alphanumeric_value. unfold is_alphanumeric. by rewrite H0.
  - apply alphanumeric_value. unfold is_alphanumeric. rewrite H0. by rewrite orb_true_r.
  - apply N.eqb_eq in H0 as ->. done.
Qed.

Lemma type_name_plain s : is_type_name s = true → s ≠ [] ∧ plain s.
Proof.
  destruct s as [|c s]; [done|]. cbn [is_type_name]. intros Hs. bool_to_prop. split; [done|].
  apply Forall_forall. intros x Hx. rewrite forallb_forall in H0. apply list_elem_of_In in Hx.
  by apply alphanumeric_value, H0.
Qed.

Lemma value_plain s : is_param_value s = true → s ≠ [] ∧ plain s.
Proof.
  destruct s as [|c s]; [done|]. cbn [is_param_value]. intros Hs. bool_to_prop. split; [done|].
  apply Forall_forall. intros x Hx. rewrite forallb_forall in H0. apply list_elem_of_In in Hx. by apply H0.
Qed.

Lemma digits_plain s : Forall (λ c, is_ascii_digit c = true) s → plain s.
Proof.
  intros Hs. eapply Forall_impl; [exact Hs|]. intros c Hc. apply alphanumeric_value.
  unfold is_alphanumeric. rewrite Hc. by rewrite !orb_true_r.
Qed.

Lemma check_param_ok k v : check_param k v = Ok tt → is_identifier k = true ∧ is_param_value v = true.
Proof.
  unfold check_param. case_bool_decide; [done|]. destruct (is_identifier k); [|done]. cbn.
  case_bool_decide; [done|]. by destruct (is_param_value v).
Qed.

(** ASCII text is as long in bytes as in characters. *)
Lemma ascii_len s : Forall (λ c, c < 128) s → text_len s = N.of_nat (length s).
Proof.
  unfold text_len, as_bytes. induction 1 as [|c s Hc Hs IH]; [done|].
  cbn [fmap list_fmap concat]. rewrite length_app.
  assert (encode_char c = [c]) as -> by (unfold encode_char; by rewrite (proj2 (N.ltb_lt c 128) Hc)). simpl in *. lia.
Qed.

Lemma plain_ascii s : plain s → Forall (λ c, c < 128) s.
Proof. intros Hs. eapply Forall_impl; [exact Hs|]. intros c Hc. by apply value_char_spec. Qed.

Lemma text_len_app a b : text_len (a ++ b) = text_len a + text_len b.
Proof. unfold text_len, as_bytes. rewrite fmap_app, concat_app, length_app. lia. Qed.

(** *** Splitting *)

Lemma split_sep_app sep a b : Forall (λ c, c ≠ sep) a → split sep (a ++ sep :: b) = a :: split sep b.
Proof.
  induction 1 as [|c a Hc Ha IH]; simpl; [by rewrite N.eqb_refl|].
  destruct (N.eqb_spec sep c); [congruence|]. by rewrite IH.
Qed.

Lemma split_last sep a : Forall (λ c, c ≠ sep) a → split sep a = [a].
Proof.
  induction 1 as [|c a Hc Ha IH]; simpl; [done|].
  destruct (N.eqb_spec sep c); [congruence|]. by rewrite IH.
Qed.

Lemma split_once_none sep a : Forall (λ c, c ≠ sep) a → split_once sep a = None.
Proof.
  intros Ha. unfold split_once. rewrite <-(app_nil_r a), split_at_first_app; [done| |done].
  eapply Forall_impl; [exact Ha|]. intros c Hc. apply N.eqb_neq. congruence.
Qed.

Lemma rsplit_once_end sep a : rsplit_once sep (a ++ [sep]) = Some (a, []).
Proof. induction a as [|c a IH]; simpl; [by rewrite N.eqb_refl|]. by rewrite IH. Qed.

Lemma trim_start_nonempty f s c : c ∈ s → f c = false → c ∈ trim_start_matches f s.
Proof.
  intros Hin Hc. induction s as [|d s IH]; [done|]. simpl. destruct (f d) eqn:Ed; [|done].
  apply IH. apply elem_of_cons in Hin as [->|Hin]; [congruence|done].
Qed.

Lemma trim_nonempty s c : c ∈ s → is_whitespace c = false → trim s ≠ [].
Proof.
  intros Hin Hc E. assert (c ∈ trim s) as Hn; [|rewrite E in Hn; by apply elem_of_nil in Hn].
  unfold trim. apply elem_of_reverse, trim_start_nonempty; [|done].
  by apply elem_of_reverse, trim_start_nonempty.
Qed.

Lemma split_params_none s : Forall (λ c, c ≠ 91) s → split_params s = Ok (s, None).
Proof. intros Hs. unfold split_params. by rewrite split_once_none. Qed.

Lemma split_params_some head inner :
  Forall (λ c, c ≠ 91) head → split_params (head ++ 91 :: inner ++ [93]) = Ok (head, Some inner).
Proof. intros Hs. unfold split_params. rewrite split_once_app by done. by rewrite rsplit_once_end. Qed.

(** *** Parameter lists *)

Definition valid_param (p : str * str) : Prop := check_param p.1 p.2 = Ok tt.

Lemma valid_param_plain p : valid_param p → plain p.1 ∧ plain p.2 ∧ p.1 ≠ [].
Proof.
  intros [Hk Hv]%check_param_ok. apply identifier_plain in Hk as [? ?]. apply value_plain in Hv as [? ?]. done.
Qed.

(** The entries of a written list are the parameters it was written from. *)
Lemma parse_entries_written ps map :
  Forall valid_param ps → ps ≠ [] → parse_entries (split 44 (push_params ps true)) map = insert_params ps map.
Proof.
  intros Hps. revert map. induction Hps as [|[k v] ps Hp Hps IH]; intros map Hne; [done|].
  destruct (valid_param_plain _ Hp) as (Hk & Hv & Hkne). simpl in Hk, Hv.
  assert (split_once 61 (k ++ 61 :: v) = Some (k, v)) as Hs.
  { apply split_once_app, (plain_without _ _ Hk). set_solver. }
  assert (Forall (λ c, c ≠ 44) (k ++ 61 :: v)) as Hno.
  { apply Forall_app_2; [apply (plain_without _ _ Hk); set_solver|].
    constructor; [done|]. apply (plain_without _ _ Hv). set_solver. }
  cbn [push_params insert_params]. rewrite app_nil_l. destruct ps as [|[k' v'] ps].
  - cbn [push_params]. rewrite app_nil_r, split_last by done. cbn [parse_entries insert_params].
    by rewrite Hs.
  - cbn [push_params]. rewrite (app_assoc v). change (61 :: v ++ ?x) with ((61 :: v) ++ x).
    replace (k ++ 61 :: (v ++ [44]) ++ k' ++ 61 :: v' ++ push_params ps false)
      with ((k ++ 61 :: v) ++ 44 :: push_params ((k', v') :: ps) true)
      by (cbn [push_params]; rewrite app_nil_l; by rewrite <-!app_assoc).
    rewrite split_sep_app by done. cbn [parse_entries]. rewrite Hs.
    destruct (insert_param k v map) as [m|e]; [|done]. cbn [rbind]. by rewrite IH.
Qed.

Lemma insert_params_spec ps m m' :
  Forall valid_param ps →
  insert_params ps m = Ok m' ↔
  NoDup ps.*1 ∧ (∀ k, k ∈ ps.*1 → m !! k = None) ∧ (ps = [] ∨ (size m + length ps <= MAX_PARAMS)%nat) ∧
  m' = foldl (λ m p, <[p.1 := p.2]> m) m ps.
Proof.
  intros Hps. revert m. induction Hps as [|[k v] ps Hp Hps IH]; intros m; cbn [insert_params].
  { cbn. split.
    - intros [= ->]. split; [constructor|]. split; [by intros k ?%elem_of_nil|]. split; [by left|done].
    - intros (_ & _ & _ & ->). done. }
  change (check_param k v = Ok tt) in Hp. unfold insert_param. rewrite Hp. cbn [rbind fmap list_fmap fst snd foldl length].
  case_bool_decide as Hd; cbn [rbind].
  { split; [done|]. intros (_ & Hn & _). rewrite (Hn k) in Hd by (by left). by destruct Hd. }
  assert (m !! k = None) as Hk by (destruct (m !! k); [by destruct Hd|done]).
  rewrite map_size_insert_None by done.
  destruct (Nat.ltb_spec MAX_PARAMS (S (size m))) as [Hmax|Hmax]; cbn [rbind].
  { split; [done|]. intros (_ & _ & [?|Hs] & _); [done|]. lia. }
  rewrite IH, map_size_insert_None by done. split.
  - intros (Hnd & Hn & Hs & ->). split.
    + constructor; [|done]. intros Hin. specialize (Hn k Hin). by rewrite lookup_insert_eq in Hn.
    + split; [|split; [right|done]].
      * intros k' [->|Hin]%elem_of_cons; [done|]. specialize (Hn k' Hin).
        by apply lookup_insert_None in Hn as [? _].
      * destruct Hs as [->|Hs]; [simpl; lia|lia].
  - intros (Hnd & Hn & Hs & ->). apply NoDup_cons in Hnd as [Hnk Hnd]. split; [done|]. split.
    + intros k' Hin. rewrite lookup_insert_ne by (intros ->; done). apply Hn. by right.
    + split; [|done]. right. destruct Hs as [?|Hs]; [done|]. lia.
Qed.

Lemma foldl_insert_map ps m :
  NoDup ps.*1 → foldl (λ (m : gmap str str) p, <[p.1 := p.2]> m) m ps = list_to_map ps ∪ m.
Proof.
  revert m. induction ps as [|[k v] ps IH]; intros m Hnd; cbn.
  { by rewrite (left_id_L ∅ (∪)). }
  apply NoDup_cons in Hnd as [Hk Hnd]. rewrite IH by done. rewrite <-insert_union_l, insert_union_r; [done|].
  by apply not_elem_of_list_to_map_1.
Qed.

(** Which lists are accepted, and the map they make. *)
Lemma insert_params_ok ps m :
  Forall valid_param ps →
  insert_params ps ∅ = Ok m ↔ NoDup ps.*1 ∧ (length ps <= MAX_PARAMS)%nat ∧ m = list_to_map ps.
Proof.
  intros Hps. rewrite insert_params_spec by done. rewrite map_size_empty. split.
  - intros (Hnd & _ & Hs & ->). split; [done|]. split; [destruct Hs as [->|?]; cbn; lia|].
    rewrite foldl_insert_map by done. by rewrite (right_id_L ∅ (∪)).
  - intros (Hnd & Hs & ->). split; [done|]. split; [done|]. split; [by right|].
    rewrite foldl_insert_map by done. by rewrite (right_id_L ∅ (∪)).
Qed.

(** A permutation of a parameter list has the same text length. *)
Lemma push_params_len ps first :
  text_len (push_params ps first)
  = (if first then match ps with [] => 0 | _ => N.of_nat (length ps) - 1 end else N.of_nat (length ps))
    + foldr (λ p n, text_len p.1 + 1 + text_len p.2 + n) 0 ps.
Proof.
  assert (∀ x s, x < 128 → text_len (x :: s) = 1 + text_len s) as Hcons.
  { intros x s Hx. change (x :: s) with ([x] ++ s). rewrite text_len_app, ascii_len by (by apply Forall_singleton). done. }
  revert first. induction ps as [|[k v] ps IH]; intros first; [by destruct first|]. cbn [push_params foldr].
  rewrite !text_len_app, Hcons, text_len_app, IH by done. cbn [fst snd length].
  destruct first; rewrite ?(ascii_len [44]) by (by apply Forall_singleton); cbn [length].
  - change (text_len []) with 0. lia.
  - lia.
Qed.

Lemma push_params_perm ps qs : ps ≡ₚ qs → text_len (push_params ps true) = text_len (push_params qs true).
Proof.
  intros Hp. rewrite !push_params_len. f_equal.
  - rewrite (Permutation_length Hp). destruct ps, qs; [done|..|done]; apply Permutation_length in Hp; done.
  - induction Hp; cbn; lia.
Qed.

(** *** Versions *)

Lemma decimal_loop_lead fuel n acc :
  n < 10 ^ N.of_nat fuel → fuel ≠ 0%nat →
  ∃ d ds, decimal_loop fuel n acc = d :: ds ++ acc ∧ Forall (λ c, is_ascii_digit c = true) (d :: ds) ∧
    (length (d :: ds) <= fuel)%nat ∧ digits_value 0 (d :: ds) = n ∧ (n ≠ 0 → d ≠ 48) ∧ (n = 0 → ds = []).
Proof.
  revert n acc. induction fuel as [|fuel IH]; intros n acc Hn Hf; [done|]. cbn [decimal_loop].
  pose proof (N.mod_lt n 10 ltac:(done)) as Hm. pose proof (N.div_mod' n 10) as Hdm.
  revert Hm Hdm. generalize (n mod 10) (n / 10). intros r q Hm Hdm.
  assert (is_ascii_digit (48 + r) = true) as Hd.
  { unfold is_ascii_digit. apply andb_true_iff. split; apply N.leb_le; lia. }
  destruct (N.eqb_spec q 0) as [->|Hq].
  - exists (48 + r), []. split; [done|]. split; [by apply Forall_singleton|]. split; [cbn; lia|].
    split; [unfold digits_value; cbn -[N.add N.sub N.mul]; lia|]. split; [lia|done].
  - rewrite Nat2N.inj_succ, N.pow_succ_r' in Hn.
    destruct fuel as [|fuel]; [cbn in Hn; lia|].
    destruct (IH q ((48 + r) :: acc)) as (d & ds & -> & Hds & Hl & Hv & Hnz & _); [lia|done|].
    exists d, (ds ++ [48 + r]). split; [by rewrite <-app_assoc|].
    split; [rewrite app_comm_cons; apply Forall_app_2; [done|by apply Forall_singleton]|].
    split; [cbn [length] in *; rewrite length_app; cbn [length]; lia|].
    split; [|split; [auto|lia]].
    unfold digits_value in *. rewrite app_comm_cons, foldl_app, Hv. cbn [foldl]. lia.
Qed.

Definition version_text (v : N) : str := decimal_loop 5 v [].

Lemma version_text_plain v : v <= u16_max → plain (version_text v).
Proof.
  unfold u16_max. intros Hv. destruct (decimal_loop_lead 5 v []) as (d & ds & E & Hd & _); [cbn; lia|done|].
  unfold version_text. rewrite E, app_nil_r. by apply digits_plain.
Qed.

Lemma parse_version_text v : v <= u16_max → parse_version (118 :: version_text v) = Ok v.
Proof.
  intros Hv. destruct (decimal_loop_lead 5 v []) as (d & ds & E & Hd & Hl & Hval & Hnz & Hz); [unfold u16_max in Hv; cbn; lia|done|].
  unfold version_text. rewrite E, app_nil_r. unfold parse_version.
  change (strip_prefix (lit "v") (118 :: d :: ds)) with (Some (d :: ds)). cbn iota.
  rewrite bool_decide_eq_false_2 by done.
  rewrite (ascii_len (d :: ds)) by (apply plain_ascii; by apply digits_plain).
  rewrite (proj2 (N.ltb_ge 5 _)) by (clear -Hl; unfold char in *; lia).
  assert (forallb is_ascii_digit (d :: ds) = true) as ->.
  { apply forallb_forall. rewrite Forall_forall in Hd. intros x Hx. apply Hd. by apply list_elem_of_In. }
  cbn [orb negb]. destruct (decide (ds = [])) as [->|Hne].
  - cbn [length]. cbn [andb]. rewrite (parse_uint_digits u16_max [d]); [by rewrite Hval|done|done|by rewrite Hval].
  - assert (bool_decide (head (d :: ds) = Some 48) = false) as ->.
    { apply bool_decide_eq_false. intros [= ->]. destruct (decide (v = 0)); [auto|]. by apply Hnz. }
    rewrite andb_false_r. rewrite (parse_uint_digits u16_max (d :: ds)); [by rewrite Hval|done|done|by rewrite Hval].
Qed.

Lemma parse_version_u16 text v : parse_version text = Ok v → v <= u16_max.
Proof.
  unfold parse_version. destruct (strip_prefix _ text) as [ds|]; [|done]. destruct (_ || _ || _); [done|].
  destruct (_ && _); [done|]. destruct (parse_uint u16_max ds) as [n|] eqn:E; [|done]. intros [= <-].
  assert (∀ s acc m, acc <= u16_max → parse_digits u16_max acc s = Ok m → m <= u16_max) as Hp.
  { intros s. induction s as [|c s IH]; intros acc m Ha; cbn [parse_digits]; [by intros [= <-]|].
    destruct (negb _); [done|]. destruct (N.ltb_spec u16_max (acc * 10)); [done|].
    destruct (N.ltb_spec u16_max (acc * 10 + (c - 48))); [done|]. by apply IH. }
  unfold parse_uint in E. destruct ds as [|c [|c' ds]]; [done|..].
  - destruct (_ || _); [done|]. by eapply Hp; [|exact E].
  - destruct (N.eqb c 43); by eapply Hp; [|exact E].
Qed.

(** *** Writing and reading a whole URN *)

Definition head_text (category : str) (version : N) (name : str) : str :=
  NAMESPACE ++ 47 :: category ++ 47 :: (118 :: version_text version) ++ 47 :: name.

(** The parameter list, where there is one. *)
Definition params_text (ps : list (str * str)) : str :=
  if bool_decide (ps = []) then [] else 91 :: push_params ps true ++ [93].

Definition urn_of (category : str) (version : N) (name : str) (params : gmap str str) : TypeUrn :=
  let c0 := text_len (NAMESPACE ++ [47]) in
  let c1 := text_len ((NAMESPACE ++ [47]) ++ category) in
  let n1 := text_len (head_text category version name) in
  mkTypeUrn (head_text category version name ++ params_text (map_entries params))
    (span_new c0 c1) (span_new (n1 - text_len name) n1) version params.

Lemma assemble_eq category version name params :
  assemble category version name params
  = let u := urn_of category version name params in
    if N.ltb MAX_LEN (text_len (repr u)) then Err (UrnTooLong (text_len (repr u)) MAX_LEN) else Ok u.
Proof.
  assert (push_u16 (((NAMESPACE ++ [47]) ++ category) ++ lit "/v") version ++ [47]
    = NAMESPACE ++ 47 :: category ++ 47 :: (118 :: version_text version) ++ [47]) as E1.
  { unfold push_u16, version_text. rewrite <-!app_assoc. done. }
  assert ((NAMESPACE ++ 47 :: category ++ 47 :: (118 :: version_text version) ++ [47]) ++ name
    = head_text category version name) as E2.
  { unfold head_text. repeat (rewrite <-?app_assoc; cbn [app]). done. }
  assert (text_len (NAMESPACE ++ 47 :: category ++ 47 :: (118 :: version_text version) ++ [47])
    = text_len (head_text category version name) - text_len name) as E3.
  { rewrite <-E2, (text_len_app _ name). symmetry. apply N.add_sub. }
  assert (params_text (map_entries params)
    = if decide (params = ∅) then [] else 91 :: push_params (map_entries params) true ++ [93]) as E4.
  { unfold params_text. case_decide as Hd.
    - subst. by rewrite map_entries_empty, bool_decide_eq_true_2.
    - rewrite bool_decide_eq_false_2; [done|]. intros He. apply Hd, map_empty. intros k.
      destruct (params !! k) as [v|] eqn:E; [|done]. apply elem_of_map_entries in E. rewrite He in E.
      by apply elem_of_nil in E. }
  unfold assemble, urn_of. rewrite E1, E2, E3, E4. cbv zeta. cbn [repr].
  destruct (decide (params = ∅)) as [Hd|Hd].
  - rewrite bool_decide_eq_true_2 by done. by rewrite app_nil_r.
  - by rewrite bool_decide_eq_false_2 by done.
Qed.

Lemma head_no_bracket category version name :
  plain category → plain name → version <= u16_max → Forall (λ c, c ≠ 91) (head_text category version name).
Proof.
  intros Hc Hn Hv. pose proof (version_text_plain _ Hv) as Hvt. unfold head_text.
  repeat first [apply Forall_app_2 | apply Forall_cons_2; [done|]]; try (apply plain_without; [done|set_solver]).
  by repeat constructor.
Qed.

Lemma head_segments category version name :
  plain category → plain name → version <= u16_max →
  split 47 (head_text category version name) = [NAMESPACE; category; 118 :: version_text version; name].
Proof.
  intros Hc Hn Hv. pose proof (version_text_plain _ Hv) as Hvt. unfold head_text.
  rewrite split_sep_app by (by repeat constructor).
  rewrite split_sep_app by (apply plain_without; [done|set_solver]).
  rewrite split_sep_app by (apply Forall_cons_2; [done|]; apply plain_without; [done|set_solver]).
  by rewrite split_last by (apply plain_without; [done|set_solver]).
Qed.

(** The parser on a well-formed text, its parameters in any order. *)
Lemma parse_written category version name ps :
  is_identifier category = true → is_type_name name = true → version <= u16_max → Forall valid_param ps →
  parse (head_text category version name ++ params_text ps)
  = let text := head_text category version name ++ params_text ps in
    if N.ltb MAX_LEN (text_len text) then Err (UrnTooLong (text_len text) MAX_LEN)
    else let? m := insert_params ps ∅ in assemble category version name m.
Proof.
  intros Hc Hn Hv Hps. cbv zeta. unfold parse. destruct (N.ltb MAX_LEN _); [done|].
  rewrite bool_decide_eq_false_2 by (apply (trim_nonempty _ 115); [by left|done]).
  pose proof (identifier_plain _ Hc) as [_ Hcp]. pose proof (type_name_plain _ Hn) as [_ Hnp].
  pose proof (head_no_bracket _ _ _ Hcp Hnp Hv) as Hnb.
  assert (split_params (head_text category version name ++ params_text ps)
    = Ok (head_text category version name, if bool_decide (ps = []) then None else Some (push_params ps true))) as ->.
  { unfold params_text. case_bool_decide; [by rewrite app_nil_r, split_params_none|by rewrite split_params_some]. }
  cbn [rbind]. rewrite head_segments by done. rewrite bool_decide_eq_true_2 by done. rewrite Hc, Hn. cbn [negb].
  rewrite parse_version_text by done. cbn [rbind]. case_bool_decide as He; [by subst|].
  unfold parse_params. rewrite bool_decide_eq_false_2; [by rewrite parse_entries_written|].
  destruct ps as [|[k v] ps]; [done|]. cbn [push_params]. apply Forall_cons_1 in Hps as [Hp _].
  apply valid_param_plain in Hp as (_ & _ & Hk). cbn in Hk. by destruct k.
Qed.

(** ** Well-formed URNs *)

(** The pieces a URN is assembled from. *)
Record pieces (category : str) (version : N) (name : str) (params : gmap str str) : Prop := {
  pc_category : is_identifier category = true;
  pc_name : is_type_name name = true;
  pc_version : version <= u16_max;
  pc_params : map_Forall (λ k v, check_param k v = Ok tt) params;
  pc_count : (size params <= MAX_PARAMS)%nat;
}.

Definition well_formed (u : TypeUrn) : Prop :=
  ∃ category version name params, pieces category version name params ∧
    u = urn_of category version name params ∧ text_len (repr u) <= MAX_LEN.

Lemma assemble_well_formed category version name params u :
  pieces category version name params → assemble category version name params = Ok u → well_formed u.
Proof.
  intros Hp. rewrite assemble_eq. cbv zeta. destruct (N.ltb_spec MAX_LEN (text_len (repr (urn_of category version name params)))); [done|].
  intros [= <-]. by exists category, version, name, params.
Qed.

Lemma entries_valid params : map_Forall (λ k v, check_param k v = Ok tt) params → Forall valid_param (map_entries params).
Proof. intros Hp. apply Forall_forall. intros [k v] Hin%elem_of_map_entries. by apply Hp. Qed.

Lemma insert_entries params :
  map_Forall (λ k v, check_param k v = Ok tt) params → (size params <= MAX_PARAMS)%nat →
  insert_params (map_entries params) ∅ = Ok params.
Proof.
  intros Hp Hs. apply insert_params_ok; [by apply entries_valid|]. split; [apply NoDup_map_keys|]. split.
  - rewrite map_entries_perm. by rewrite length_map_to_list.
  - rewrite (list_to_map_proper (M:=gmap str) (map_entries params) (map_to_list params)).
    + by rewrite list_to_map_to_list.
    + apply NoDup_map_keys.
    + apply map_entries_perm.
Qed.

Lemma well_formed_parse u : well_formed u → parse (as_str u) = Ok u.
Proof.
  intros (c & v & n & m & [Hc Hn Hv Hm Hs] & -> & Hl). unfold as_str, urn_of in *. cbn [repr] in *.
  rewrite parse_written by (try done; by apply entries_valid). cbv zeta.
  rewrite (proj2 (N.ltb_ge _ _)) by done. rewrite insert_entries by done. cbn [rbind].
  rewrite assemble_eq. cbv zeta. unfold urn_of. cbn [repr]. by rewrite (proj2 (N.ltb_ge _ _)).
Qed.

Lemma insert_param_valid k v m m' :
  insert_param k v m = Ok m' → map_Forall (λ k v, check_param k v = Ok tt) m →
  map_Forall (λ k v, check_param k v = Ok tt) m' ∧ (size m' <= MAX_PARAMS)%nat.
Proof.
  unfold insert_param. destruct (check_param k v) as [[]|] eqn:E; [|done]. cbn [rbind].
  case_bool_decide; [done|]. destruct (Nat.ltb_spec MAX_PARAMS (size (<[k:=v]> m))); [done|].
  intros [= <-] Hm. split; [by apply map_Forall_insert_2|done].
Qed.

Lemma parse_entries_valid es m m' :
  parse_entries es m = Ok m' → map_Forall (λ k v, check_param k v = Ok tt) m → (size m <= MAX_PARAMS)%nat →
  map_Forall (λ k v, check_param k v = Ok tt) m' ∧ (size m' <= MAX_PARAMS)%nat.
Proof.
  revert m. induction es as [|e es IH]; intros m; cbn [parse_entries]; [by intros [= ->]|].
  destruct (split_once 61 e) as [[k v]|]; [|done].
  destruct (insert_param k v m) as [m1|] eqn:E; [|done]. cbn [rbind]. intros H1 Hm _.
  destruct (insert_param_valid _ _ _ _ E Hm). by eapply IH.
Qed.

Lemma insert_params_valid ps m m' :
  insert_params ps m = Ok m' → map_Forall (λ k v, check_param k v = Ok tt) m → (size m <= MAX_PARAMS)%nat →
  map_Forall (λ k v, check_param k v = Ok tt) m' ∧ (size m' <= MAX_PARAMS)%nat.
Proof.
  revert m. induction ps as [|[k v] ps IH]; intros m; cbn [insert_params]; [by intros [= ->]|].
  destruct (insert_param k v m) as [m1|] eqn:E; [|done]. cbn [rbind]. intros H1 Hm _.
  destruct (insert_param_valid _ _ _ _ E Hm). by eapply IH.
Qed.

Lemma parse_well_formed input u : parse input = Ok u → well_formed u.
Proof.
  unfold parse. destruct (N.ltb _ _); [done|]. case_bool_decide; [done|].
  destruct (split_params input) as [[head pt]|]; [|done]. cbn [rbind].
  destruct (split 47 head) as [|ns [|c [|v [|n [|? ?]]]]]; try done.
  destruct (negb (bool_decide (ns = NAMESPACE))); [done|].
  destruct (is_identifier c) eqn:Hc; [|done]. destruct (is_type_name n) eqn:Hn; [|done]. cbn [negb].
  destruct (parse_version v) as [v'|] eqn:Hv; [|done]. cbn [rbind].
  destruct (match pt with Some text => parse_params text | None => Ok ∅ end) as [m|] eqn:Hm; [|done]. cbn [rbind].
  apply assemble_well_formed. apply parse_version_u16 in Hv.
  assert (map_Forall (λ k v, check_param k v = Ok tt) m ∧ (size m <= MAX_PARAMS)%nat) as [Hval Hsz]; [|by split].
  destruct pt as [text|]; [|injection Hm as <-; split; [apply map_Forall_empty|rewrite map_size_empty; unfold MAX_PARAMS; lia]].
  unfold parse_params in Hm. case_bool_decide; [done|].
  eapply parse_entries_valid; [done|apply map_Forall_empty|rewrite map_size_empty; unfold MAX_PARAMS; lia].
Qed.

(** *** Accessors *)

Lemma slice_middle a b c :
  Forall (λ x, x < 128) (a ++ b ++ c) → text_len (a ++ b ++ c) <= u16_max →
  span_slice (span_new (text_len a) (text_len a + text_len b)) (a ++ b ++ c) = b.
Proof.
  intros Ha Hl. rewrite !text_len_app in Hl. apply Forall_app in Ha as [Ha Hb].
  apply Forall_app in Hb as [Hb Hc]. unfold span_slice, span_new. cbn [sp_start sp_end].
  rewrite !(proj2 (N.leb_le _ u16_max)) by lia. rewrite !text_len_app.
  rewrite !(proj2 (N.leb_le _ _)) by lia. cbn [andb].
  replace (text_len a + text_len b - text_len a) with (text_len b) by lia.
  rewrite !ascii_len, !Nat2N.id by done. rewrite drop_app_length. apply take_app_length.
Qed.

Lemma push_params_ascii ps first : Forall valid_param ps → Forall (λ c, c < 128) (push_params ps first).
Proof.
  intros Hps. revert first. induction Hps as [|[k v] ps Hp Hps IH]; intros first; cbn [push_params]; [constructor|].
  apply valid_param_plain in Hp as (Hk & Hv & _). cbn in Hk, Hv.
  repeat first [apply Forall_app_2 | apply Forall_cons_2; [done|]]; try (by apply plain_ascii); [|apply IH].
  destruct first; by repeat constructor.
Qed.

Lemma pieces_ascii c v n m :
  pieces c v n m →
  Forall (λ x, x < 128) (head_text c v n) ∧ Forall (λ x, x < 128) (params_text (map_entries m)).
Proof.
  intros [Hc Hn Hv Hm _]. apply identifier_plain in Hc as [_ Hc]. apply type_name_plain in Hn as [_ Hn].
  apply version_text_plain in Hv. split.
  - unfold head_text. repeat first [apply Forall_app_2 | apply Forall_cons_2; [done|]]; try (by apply plain_ascii).
    by repeat constructor.
  - unfold params_text. case_bool_decide; [constructor|]. apply Forall_cons_2; [done|].
    apply Forall_app_2; [by apply push_params_ascii, entries_valid|by repeat constructor].
Qed.

Section accessors.
Context (c : str) (v : N) (n : str) (m : gmap str str).
Hypothesis Hp : pieces c v n m.
Hypothesis Hlen : text_len (repr (urn_of c v n m)) <= MAX_LEN.

Lemma accessor_head :
  text_len (head_text c v n) <= text_len (repr (urn_of c v n m)) ∧ text_len (repr (urn_of c v n m)) <= u16_max.
Proof. unfold MAX_LEN, u16_max in *. cbn [urn_of repr] in *. rewrite text_len_app in *. lia. Qed.

Lemma category_urn_of : category (urn_of c v n m) = c.
Proof.
  destruct accessor_head as [_ Hu]. destruct (pieces_ascii _ _ _ _ Hp) as [Ha Hb].
  unfold category. cbn [urn_of repr u_category] in *.
  assert (head_text c v n ++ params_text (map_entries m)
    = (NAMESPACE ++ [47]) ++ c ++ ((47 :: (118 :: version_text v) ++ 47 :: n) ++ params_text (map_entries m))) as E.
  { unfold head_text. repeat (rewrite <-?app_assoc; cbn [app]). done. }
  rewrite (text_len_app _ c), E. apply slice_middle.
  - exact (eq_ind _ (λ s : str, Forall (λ x, x < 128) s) (Forall_app_2 _ _ _ Ha Hb) _ E).
  - exact (eq_ind _ (λ s : str, text_len s <= u16_max) Hu _ E).
Qed.

Lemma urn_name_urn_of : urn_name (urn_of c v n m) = n.
Proof.
  destruct accessor_head as [_ Hu]. destruct (pieces_ascii _ _ _ _ Hp) as [Ha Hb].
  unfold urn_name. cbn [urn_of repr u_name] in *.
  assert (head_text c v n = (NAMESPACE ++ 47 :: c ++ 47 :: (118 :: version_text v) ++ [47]) ++ n) as E.
  { unfold head_text. repeat (rewrite <-?app_assoc; cbn [app]). done. }
  assert (head_text c v n ++ params_text (map_entries m)
    = (NAMESPACE ++ 47 :: c ++ 47 :: (118 :: version_text v) ++ [47]) ++ n ++ params_text (map_entries m)) as E'.
  { rewrite E. by rewrite <-app_assoc. }
  rewrite E'. replace (text_len (head_text c v n) - text_len n)
    with (text_len (NAMESPACE ++ 47 :: c ++ 47 :: (118 :: version_text v) ++ [47])) by (rewrite E, (text_len_app _ n); symmetry; apply N.add_sub).
  rewrite E, (text_len_app _ n). apply slice_middle.
  - exact (eq_ind _ (λ s : str, Forall (λ x, x < 128) s) (Forall_app_2 _ _ _ Ha Hb) _ E').
  - exact (eq_ind _ (λ s : str, text_len s <= u16_max) Hu _ E').
Qed.

Lemma base_str_urn_of : base_str (urn_of c v n m) = head_text c v n.
Proof.
  destruct accessor_head as [Hh Hu]. destruct (pieces_ascii _ _ _ _ Hp) as [Ha Hb].
  unfold base_str. cbn [urn_of repr u_name span_new sp_end] in *.
  rewrite (proj2 (N.leb_le _ u16_max)) by lia. rewrite (proj2 (N.leb_le _ _)) by lia.
  rewrite (ascii_len (head_text c v n)), Nat2N.id by done. apply take_app_length.
Qed.
End accessors.

(** ** Theorems *)

(** A URN some sequence of the public operations builds. *)
Inductive built : TypeUrn → Prop :=
  | built_parse text u : parse text = Ok u → built u
  | built_new c v n ps u : v <= u16_max → try_with_params c v n ps = Ok u → built u
  | built_with k x u u' : built u → with_param k x u = Ok u' → built u'
  | built_without k u u' : built u → without_param k u = Ok u' → built u'
  | built_base u : built u → built (base u).

Lemma no_params_pieces c v n m : pieces c v n m → pieces c v n ∅.
Proof.
  intros [A B C D E]. split; [done..|apply map_Forall_empty|rewrite map_size_empty; unfold MAX_PARAMS; lia].
Qed.

Lemma base_well_formed u : well_formed u → well_formed (base u).
Proof.
  intros (c & v & n & m & Hp & -> & Hl). unfold base, has_params. cbn [urn_of u_params].
  case_bool_decide as Hm; cbn [negb]; [by exists c, v, n, m|].
  exists c, v, n, ∅. split; [by eapply no_params_pieces|].
  pose proof (accessor_head c v n m Hl) as [Hh _]. rewrite base_str_urn_of by done.
  unfold urn_of in *. cbn [repr u_category u_name u_version] in *. rewrite map_entries_empty. cbn [params_text].
  unfold params_text. rewrite bool_decide_eq_true_2, app_nil_r by done. split; [done|].
  cbn [repr]. etrans; [exact Hh|done].
Qed.

Lemma built_well_formed u : built u → well_formed u.
Proof.
  induction 1 as [text u E|c v n ps u Hv E|k x u u' _ IH E|k u u' _ IH E|u _ IH].
  - by eapply parse_well_formed.
  - unfold try_with_params in E. destruct (is_identifier c) eqn:Hc; [|done].
    destruct (is_type_name n) eqn:Hn; [|done]. cbn [negb] in E.
    destruct (insert_params ps ∅) as [m|] eqn:Em; [|done]. cbn [rbind] in E.
    eapply assemble_well_formed; [|exact E].
    destruct (insert_params_valid _ _ _ Em); [apply map_Forall_empty|rewrite map_size_empty; unfold MAX_PARAMS; lia|done].
  - destruct IH as (c & v & n & m & Hp & -> & Hl). unfold with_param in E.
    destruct (check_param k x) as [[]|] eqn:Ek; [|done]. cbn [rbind urn_of u_params u_version] in E.
    destruct (Nat.ltb_spec MAX_PARAMS (size (<[k:=x]> m))); [done|].
    change (mkTypeUrn _ _ _ _ _) with (urn_of c v n m) in E.
    rewrite category_urn_of, urn_name_urn_of in E by done.
    eapply assemble_well_formed; [|exact E]. destruct Hp as [A B C D F]. split; try done. by apply map_Forall_insert_2.
  - destruct IH as (c & v & n & m & Hp & -> & Hl). unfold without_param in E. cbn [urn_of u_params u_version] in E.
    case_bool_decide; cbn [negb] in E; [|injection E as <-; by exists c, v, n, m].
    change (mkTypeUrn _ _ _ _ _) with (urn_of c v n m) in E.
    rewrite category_urn_of, urn_name_urn_of in E by done.
    eapply assemble_well_formed; [|exact E]. destruct Hp as [A B C D F]. split; try done.
    + by apply map_Forall_delete.
    + rewrite map_size_delete. clear -F. destruct (m !! k); cbn; lia.
  - by apply base_well_formed.
Qed.

(** Every URN that parsing, the constructors and the operations on
    parameters can build is the parse of its own text: the canonical text
    carries the whole value. *)
Theorem urn_roundtrip (u : TypeUrn) : built u → parse (as_str u) = Ok u.
Proof. intros Hu. by apply well_formed_parse, built_well_formed. Qed.

(** Two built URNs with the same text are the same. *)
Lemma built_eq u u' : built u → built u' → as_str u = as_str u' → u = u'.
Proof.
  intros Hu%built_well_formed%well_formed_parse Hu'%built_well_formed%well_formed_parse E.
  rewrite E in Hu. congruence.
Qed.

(** The parameters of a URN may be written in any order: a permutation of
    them parses to the same URN. *)
Theorem parameter_order_is_irrelevant head ps qs u :
  Forall (λ c, c ≠ 91) head → Forall valid_param ps → ps ≡ₚ qs →
  parse (head ++ params_text ps) = Ok u → parse (head ++ params_text qs) = Ok u.
Proof.
  intros Hh Hps Hperm. destruct (decide (ps = [])) as [->|Hne].
  { by apply Permutation_nil_l in Hperm as ->. }
  assert (qs ≠ []) as Hne' by (intros ->; by apply Permutation_nil_r in Hperm).
  assert (Forall valid_param qs) as Hqs by (by rewrite <-Hperm).
  assert (∀ rs, rs ≠ [] → params_text rs = 91 :: push_params rs true ++ [93]) as Et.
  { intros rs Hr. unfold params_text. by rewrite bool_decide_eq_false_2. }
  assert (text_len (head ++ params_text qs) = text_len (head ++ params_text ps)) as El.
  { rewrite !Et by done. rewrite !(app_comm_cons _ _ 91), !app_assoc, !text_len_app. f_equal.
    change (91 :: ?x) with ([91] ++ x). rewrite !text_len_app. by rewrite (push_params_perm ps qs). }
  unfold parse. rewrite El. destruct (N.ltb _ _); [done|].
  rewrite !Et by done.
  assert (∀ rs, rs ≠ [] → trim (head ++ 91 :: push_params rs true ++ [93]) ≠ []) as Htr.
  { intros rs _. apply (trim_nonempty _ 91); [|done]. apply elem_of_app. right. by left. }
  rewrite !bool_decide_eq_false_2 by (by apply Htr). rewrite !split_params_some by done. cbn [rbind].
  destruct (split 47 head) as [|ns [|c [|v [|n [|? ?]]]]]; try done.
  destruct (negb _); [done|]. destruct (negb _); [done|]. destruct (negb _); [done|].
  destruct (parse_version v) as [v'|]; [|done]. cbn [rbind].
  assert (∀ rs, rs ≠ [] → Forall valid_param rs → parse_params (push_params rs true) = insert_params rs ∅) as Hpp.
  { intros rs Hr Hv. unfold parse_params. rewrite bool_decide_eq_false_2; [by apply parse_entries_written|].
    destruct rs as [|[k x] rs]; [done|]. apply Forall_cons_1 in Hv as [Hv _].
    apply valid_param_plain in Hv as (_ & _ & Hk). cbn in *. by destruct k. }
  rewrite !Hpp by done. destruct (insert_params ps ∅) as [m|] eqn:Em; [|done].
  apply insert_params_ok in Em as (Hnd & Hlen & ->); [|done].
  assert (insert_params qs ∅ = Ok (list_to_map ps)) as ->; [|done].
  apply insert_params_ok; [done|]. split; [by rewrite <-Hperm|]. split; [by rewrite <-Hperm|].
  by apply list_to_map_proper.
Qed.

(** Two spellings of one type. *)
Lemma urn_roundtrip_witness :
  parse (lit "std/media/v1/Image[pixel=rgb8,width=640]") = parse (lit "std/media/v1/Image[width=640,pixel=rgb8]").
Proof.
  destruct (parse (lit "std/media/v1/Image[width=640,pixel=rgb8]")) as [u|e] eqn:E; [|by vm_compute in E].
  assert (as_str u = lit "std/media/v1/Image[pixel=rgb8,width=640]") as Eu.
  { assert (rbind (parse (lit "std/media/v1/Image[width=640,pixel=rgb8]")) (λ u, Ok (as_str u))
      = Ok (lit "std/media/v1/Image[pixel=rgb8,width=640]")) as Es by (vm_compute; reflexivity).
    rewrite E in Es. by injection Es. }
  rewrite <-Eu. exact (urn_roundtrip u (built_parse _ _ E)).
Defined.

Lemma parameter_order_is_irrelevant_witness :
  parse (lit "std/media/v1/Image[pixel=rgb8,width=640]") = parse (lit "std/media/v1/Image[width=640,pixel=rgb8]").
Proof.
  pose (ps := [(lit "width", lit "640"); (lit "pixel", lit "rgb8")]).
  destruct (parse (lit "std/media/v1/Image" ++ params_text ps)) as [u|] eqn:E; [|vm_compute in E; done].
  assert (parse (lit "std/media/v1/Image" ++ params_text (reverse ps)) = Ok u) as E'.
  { apply (parameter_order_is_irrelevant (lit "std/media/v1/Image") ps (reverse ps) u).
    - by vm_compute; repeat constructor.
    - repeat constructor.
    - symmetry. apply reverse_Permutation.
    - exact E. }
  etrans; [exact E'|]. symmetry. exact E.
Defined.
