(* ===== verification/Manifest.v ===== *)
(** * Manifests

    Models of [src/crates/astrs-manifest/src]: the manifest and its nodes
    ([root.rs], [node/mod.rs], [node/io.rs], [node/enums.rs], [node/hub.rs],
    [node/operator.rs], [node/restart.rs], [node/rt.rs], [deploy.rs],
    [type_rule.rs], [module_header.rs]; the fields the checks and the graph
    read), the recogniser of virtual sources ([virtual_source.rs]), the syntax
    of type URNs ([urn.rs]) and the whole validation pass ([validate.rs],
    with the document paths of [error.rs]).  Reading YAML is outside.

    What a manifest that passes guarantees is used in [GraphLaws.v]. *)

From Stdlib Require Import Lia QArith Qcanon.
From stdpp Require Import base tactics list gmap strings numbers sorting.
From S2P Require Import Prelude Text Utf8 Ordered TypeUrn.

Open Scope N_scope.

(** ** Data *)

(** A finite, non-negative [f64], by its value. *)
Definition DurationSecs : Type := Qc.

(** [Urn(String)] of [urn.rs] *)
Definition Urn : Type := str.

Inductive QueuePolicy : Set := DropOldest | Backpressure.
Inductive PriorityLane : Set := LaneData | LaneControl.
Inductive Pattern : Set := ServiceServer | ServiceClient | ActionServer | ActionClient.
Inductive RestartPolicy : Set := Never | OnFailure | Always.
Inductive RtPolicy : Set := Normal | Fifo | Rr.

#[global] Instance QueuePolicy_eq_dec : EqDecision QueuePolicy.
Proof. solve_decision. Defined.
#[global] Instance Pattern_eq_dec : EqDecision Pattern.
Proof. solve_decision. Defined.

(** [EnvValue] of [env.rs]; a float by its 64 bits. *)
Inductive EnvValue : Set :=
| EnvString (s : str)
| EnvBool (b : bool)
| EnvInt (i : Z)
| EnvFloat (bits : N).

(** [PartialEq for f64]: a NaN differs from itself, the two zeros are equal. *)
Definition f64_is_nan (bits : N) : bool := N.ltb 9218868437227405312 (N.land bits (N.ones 63)).

Definition f64_eqb (a b : N) : bool :=
  negb (f64_is_nan a) && negb (f64_is_nan b) && (N.eqb a b || N.eqb (N.land (N.lor a b) (N.ones 63)) 0).

Definition env_eqb (a b : EnvValue) : bool :=
  match a, b with
  | EnvString s, EnvString t => bool_decide (s = t)
  | EnvBool b, EnvBool c => Bool.eqb b c
  | EnvInt i, EnvInt j => Z.eqb i j
  | EnvFloat x, EnvFloat y => f64_eqb x y
  | _, _ => false
  end.

Definition default_queue_size : N := 10.

Record Input := mkInput {
  in_source : str;
  in_queue_size : N;
  in_queue_policy : QueuePolicy;
  in_timeout : option DurationSecs;
  in_priority_lane : PriorityLane;
  in_deadline : option DurationSecs;
}.

Definition from_source (source : str) : Input := mkInput source default_queue_size DropOldest None LaneData None.

Record Deploy := mkDeploy { dp_machine : option str; dp_labels : gmap str str; dp_working_dir : option str }.

Record TypeRule := mkTypeRule { tr_from : Urn; tr_to : Urn }.

#[global] Instance TypeRule_eq_dec : EqDecision TypeRule.
Proof. solve_decision. Defined.

Record ModuleHeader := mkModuleHeader { mh_name : str; mh_inputs : list str; mh_outputs : list str }.

Record HubSource := mkHubSource { hub_name : str; hub_rev : option str }.

Record RtConfig := mkRtConfig { rt_policy : RtPolicy; rt_priority : option N }.

Record OperatorConfig := mkOperatorConfig {
  op_id : str;
  op_operator : str;
  op_dylib : option str;
  op_wasm : option str;
  op_hub : option HubSource;
  op_inputs : gmap str Input;
  op_outputs : list str;
}.

Inductive RosCompat : Set := Humble | Jazzy.
Inductive BridgeDirection : Set := ToAstrs | FromAstrs.
Inductive Ros2Role : Set := RoleServer | RoleClient.
Inductive Durability : Set := Volatile | TransientLocal.

Record Qos := mkQos {
  q_reliable : option bool;
  q_durability : option Durability;
  q_keep_last : option N;
  q_keep_all : option bool;
  q_deadline : option DurationSecs;
  q_lease_duration : option DurationSecs;
}.

Record Ros2Topic := mkRos2Topic { rt_topic : str; rt_message_type : str; rt_direction : BridgeDirection }.

Record Ros2Config := mkRos2Config {
  ros_compat : RosCompat;
  ros_topic : option str;
  ros_message_type : option str;
  ros_direction : option BridgeDirection;
  ros_topics : list Ros2Topic;
  ros_service : option str;
  ros_action : option str;
  ros_role : option Ros2Role;
  ros_qos : option Qos;
  ros_namespace : option str;
  ros_node_name : option str;
}.

Record Node := mkNode {
  n_id : str;
  n_path : option str;
  n_git : option str;
  n_branch : option str;
  n_tag : option str;
  n_rev : option str;
  n_hub : option HubSource;
  n_module : option str;
  n_operators : option (list OperatorConfig);
  n_ros2 : option Ros2Config;
  n_record : option (list str);
  n_inputs : gmap str Input;
  n_outputs : list str;
  n_input_types : gmap str Urn;
  n_output_types : gmap str Urn;
  n_pattern : option Pattern;
  n_restart_policy : option RestartPolicy;
  n_max_restarts : option N;
  n_deploy : option Deploy;
  n_cpu_affinity : option (list N);
  n_rt : option RtConfig;
  n_env : gmap str EnvValue;
}.

Record Manifest := mkManifest {
  m_nodes : list Node;
  m_strict_types : bool;
  m_type_rules : list TypeRule;
  m_deploy : option Deploy;
  m_module : option ModuleHeader;
  m_env : gmap str EnvValue;
}.

Definition DYNAMIC_PATH_SENTINEL : str := lit "dynamic".
Definition MODULE_BOUNDARY_NODE_ID : str := lit "_mod".
Definition RT_PRIORITY_MIN : N := 1.
Definition RT_PRIORITY_MAX : N := 99.

Definition with_path (id path : str) : Node :=
  mkNode id (Some path) None None None None None None None None None ∅ [] ∅ ∅ None None None None None None ∅.

Definition is_dynamic_path (n : Node) : bool := bool_decide (n_path n = Some DYNAMIC_PATH_SENTINEL).

Definition effective_env (graph_env : gmap str EnvValue) (n : Node) : gmap str EnvValue := n_env n ∪ graph_env.

Definition effective_restart_policy (n : Node) : RestartPolicy := default Never (n_restart_policy n).

Definition restarts_at_all (p : RestartPolicy) : bool := match p with Never => false | _ => true end.

Definition is_realtime (p : RtPolicy) : bool := match p with Fifo | Rr => true | Normal => false end.

Definition has_valid_realtime_priority (r : RtConfig) : bool :=
  match rt_priority r with
  | Some p => N.leb RT_PRIORITY_MIN p && N.leb p RT_PRIORITY_MAX
  | None => false
  end.

(** [is_some()] *)
Definition present {A} (o : option A) : bool := match o with Some _ => true | None => false end.

Definition locator_kinds (o : OperatorConfig) : list str :=
  (if present (op_dylib o) then [lit "dylib"] else [])
  ++ (if present (op_wasm o) then [lit "wasm"] else [])
  ++ (if present (op_hub o) then [lit "hub"] else []).

(** *** [node/hub.rs] *)

Definition hub_latest (name : str) : HubSource := mkHubSource name None.
Definition hub_pinned (name rev : str) : HubSource := mkHubSource name (Some rev).

Definition hub_parse (value : str) : HubSource :=
  match split_once 64 value with
  | Some (name, []) => hub_latest name
  | Some (name, rev) => hub_pinned name rev
  | None => hub_latest value
  end.

Definition hub_is_short_form (h : HubSource) : bool :=
  match hub_rev h with Some rev => negb (bool_decide (64 ∈ rev)) | None => true end.

Definition to_short_form (h : HubSource) : str :=
  match hub_rev h with Some rev => hub_name h ++ [64] ++ rev | None => hub_name h end.

Definition is_valid_hub_name (name : str) : bool :=
  match name with
  | [] => false
  | _ => forallb (λ c, is_ascii_lowercase c || is_ascii_digit c || N.eqb c 45) name
  end.

(** ** [virtual_source.rs] *)

Inductive VirtualSource : Set :=
  | TimerMillis (n : N)
  | TimerSecs (n : N)
  | TimerHz (n : N)
  | Logs (level node : option str)
  | Status.

Inductive VirtualSourceError : Set :=
  | UnknownFamily
  | VInvalidTimer (message : str)
  | VInvalidLogs (message : str)
  | VInvalidStatus (message : str).

Definition LOG_LEVELS : list str := [lit "trace"; lit "debug"; lit "info"; lit "warn"; lit "error"].

(** [{:?}] of a list of strings without escapes. *)
Definition debug_strs (l : list str) : str :=
  let quoted s := [34] ++ s ++ [34] in
  lit "[" ++ match l with
             | [] => []
             | s :: rest => quoted s ++ mjoin ((λ s, lit ", " ++ quoted s) <$> rest)
             end ++ lit "]".

Definition recognize_timer (segments : list str) : result VirtualSourceError VirtualSource :=
  match segments with
  | [] => Err (VInvalidTimer (lit "astrs/timer/ requires a kind (millis, secs, or hz) and a period N"))
  | [kind] =>
      Err (VInvalidTimer (lit "astrs/timer/" ++ kind ++ lit "/ requires a period N, e.g. astrs/timer/" ++ kind ++ lit "/50"))
  | kind :: n_str :: _ :: _ =>
      Err (VInvalidTimer (lit "astrs/timer/" ++ kind ++ lit "/" ++ n_str ++ lit " has unexpected trailing path segments"))
  | [kind; n_str] =>
      match parse_uint u64_max n_str with
      | Err _ =>
          Err (VInvalidTimer (lit "`" ++ n_str ++ lit "` in astrs/timer/" ++ kind ++ lit "/" ++ n_str ++ lit " is not a positive integer"))
      | Ok n =>
          if N.eqb n 0 then Err (VInvalidTimer (lit "astrs/timer/" ++ kind ++ lit "/0 is invalid: N must be > 0"))
          else if bool_decide (kind = lit "millis") then Ok (TimerMillis n)
          else if bool_decide (kind = lit "secs") then Ok (TimerSecs n)
          else if bool_decide (kind = lit "hz") then Ok (TimerHz n)
          else Err (VInvalidTimer (lit "`" ++ kind ++ lit "` is not a recognized timer kind (expected millis, secs, or hz)"))
      end
  end.

Definition recognize_logs (segments : list str) : result VirtualSourceError VirtualSource :=
  match segments with
  | _ :: _ :: _ :: _ =>
      Err (VInvalidLogs (lit "astrs/logs accepts at most two path segments: astrs/logs[/level[/node]]"))
  | _ =>
      let level := head segments in
      let node := segments !! 1%nat in
      match level with
      | Some l =>
          if bool_decide (l ∈ LOG_LEVELS) then Ok (Logs level node)
          else Err (VInvalidLogs (lit "`" ++ l ++ lit "` is not a recognized log level (expected one of "
                                    ++ debug_strs LOG_LEVELS ++ lit ")"))
      | None => Ok (Logs level node)
      end
  end.

Definition recognize_status (segments : list str) : result VirtualSourceError VirtualSource :=
  match segments with
  | [] => Ok Status
  | extra :: _ => Err (VInvalidStatus (lit "astrs/status takes no further path segments, found `" ++ extra ++ lit "`"))
  end.

Definition recognize_rest (rest : str) : result VirtualSourceError VirtualSource :=
  match split 47 rest with
  | family :: segments =>
      if bool_decide (family = lit "timer") then recognize_timer segments
      else if bool_decide (family = lit "logs") then recognize_logs segments
      else if bool_decide (family = lit "status") then recognize_status segments
      else Err UnknownFamily
  | [] => Err UnknownFamily
  end.

Definition recognize (source : str) : option (result VirtualSourceError VirtualSource) :=
  recognize_rest <$> strip_prefix (lit "astrs/") source.

(** ** [urn.rs] *)

Definition is_ascii_alphabetic (c : char) : bool := is_ascii_lowercase c || is_ascii_uppercase c.

(** A letter, then characters of a class. *)
Definition letter_word (tail : char → bool) (s : str) : bool :=
  match s with [] => false | c :: rest => is_ascii_alphabetic c && forallb tail rest end.

Definition urn_ns : str → bool := letter_word (λ c, is_alphanumeric c || N.eqb c 95 || N.eqb c 45).
Definition urn_ident : str → bool := letter_word (λ c, is_alphanumeric c || N.eqb c 95).
Definition urn_value (s : str) : bool :=
  match s with
  | [] => false
  | _ => forallb (λ c, is_alphanumeric c || N.eqb c 95 || N.eqb c 46 || N.eqb c 58 || N.eqb c 43 || N.eqb c 45) s
  end.
Definition urn_version (s : str) : bool :=
  match strip_prefix (lit "v") s with
  | Some (c :: ds) => forallb is_ascii_digit (c :: ds)
  | _ => false
  end.

Definition urn_param (s : str) : bool :=
  match split_once 61 s with Some (k, v) => urn_ident k && urn_value v | None => false end.

(** The last two segments are the version and the type, the others the
    namespace. *)
Definition urn_head (s : str) : bool :=
  match reverse (split 47 s) with
  | ty :: ver :: n0 :: ns => urn_ident ty && urn_version ver && forallb urn_ns (n0 :: ns)
  | _ => false
  end.

(** [URN_PATTERN]: no class of it holds a [/], a [\[], a [\]], a [,] or a [=],
    so the text splits at them. *)
Definition urn_is_match (s : str) : bool :=
  match split_once 91 s with
  | None => urn_head s
  | Some (h, rest) =>
      urn_head h && match rsplit_once 93 rest with
                    | Some (inner, []) => forallb urn_param (split 44 inner)
                    | _ => false
                    end
  end.

Definition MALFORMED_REASON : str :=
  lit "expected `<namespace>/v<version>/<Type>` or `<namespace>/v<version>/<Type>[k=v,...]`, e.g. `std/vision/v1/Detections` or `std/media/v1/Image[pixel=rgb8]`".

(** The message of the error, where the URN is malformed. *)
Definition urn_validate (u : Urn) : result str unit :=
  if urn_is_match u then Ok tt else Err (lit "malformed type URN `" ++ u ++ lit "`: " ++ MALFORMED_REASON).

(** ** [error.rs]: document paths *)

Definition path_new (root : str) : str := root.
Definition path_index (i : nat) (p : str) : str := p ++ lit "[" ++ decimal (N.of_nat i) ++ lit "]".
Definition path_join (field p : str) : str := p ++ lit "." ++ field.

(** ** [validate.rs] *)

Inductive UnresolvedReferenceReason : Set :=
  | Malformed
  | UnknownNode (id : str)
  | UnknownOutput (node output : str)
  | UnknownVirtualFamily
  | InvalidTimer (message : str)
  | InvalidLogs (message : str)
  | InvalidStatus (message : str)
  | UnknownModuleInput (port : str) (declared : list str).

Inductive ValidationErrorKind : Set :=
  | InvalidIdCharset (id : str)
  | VDuplicateNodeId (id : str)
  | NoSourceDeclared
  | MultipleSourcesDeclared (found : list str)
  | GitFieldWithoutGit (field : str)
  | ConflictingGitRefs (found : list str)
  | DynamicSentinelWithGit
  | QueueSizeTooSmall (found : N)
  | MaxRestartsRequiresPolicy
  | InvalidUrn (urn reason : str)
  | EmptyCpuAffinity
  | UnresolvedReference (value : str) (reason : UnresolvedReferenceReason)
  | InvalidHubName (name : str)
  | RtPriorityRequired (policy : RtPolicy) (min max : N)
  | RtPriorityOutOfRange (found min max : N)
  | RtPriorityWithNormalPolicy
  | MultipleOperatorLocators (found : list str)
  | TypeForUndeclaredPort (map port_kind name : str).

Record ValidationError := mkValidationError { ve_path : str; ve_kind : ValidationErrorKind }.

Definition reason_of (e : VirtualSourceError) : UnresolvedReferenceReason :=
  match e with
  | UnknownFamily => UnknownVirtualFamily
  | VInvalidTimer m => InvalidTimer m
  | VInvalidLogs m => InvalidLogs m
  | VInvalidStatus m => InvalidStatus m
  end.

(** An error where a condition holds. *)
Definition error_if (b : bool) (path : str) (kind : ValidationErrorKind) : list ValidationError :=
  if b then [mkValidationError path kind] else [].

(** [for (i, node) in manifest.nodes.iter().enumerate()] *)
Definition each_node (m : Manifest) (f : str → Node → list ValidationError) : list ValidationError :=
  mjoin (imap (λ i node, f (path_index i (path_new (lit "nodes"))) node) (m_nodes m)).

(** *** Check 1 *)

Definition is_valid_id_charset (id : str) : bool :=
  match id with
  | [] => false
  | _ => forallb (λ c, is_alphanumeric c || N.eqb c 95 || N.eqb c 46 || N.eqb c 45) id
  end.

Fixpoint check_ids (nodes : list Node) (i : nat) (seen : gset str) : list ValidationError :=
  match nodes with
  | [] => []
  | node :: rest =>
      let path := path_join (lit "id") (path_index i (path_new (lit "nodes"))) in
      error_if (negb (is_valid_id_charset (n_id node))) path (InvalidIdCharset (n_id node))
      ++ error_if (bool_decide (n_id node ∈ seen)) path (VDuplicateNodeId (n_id node))
      ++ check_ids rest (S i) ({[n_id node]} ∪ seen)
  end.

Definition check_node_ids (m : Manifest) : list ValidationError := check_ids (m_nodes m) 0 ∅.

(** *** Check 2 *)

Definition source_kinds (node : Node) : list str :=
  let has_git := present (n_git node) in
  (if has_git then [lit "git"] else [])
  ++ (if present (n_path node) && negb has_git then [lit "path"] else [])
  ++ (if present (n_hub node) then [lit "hub"] else [])
  ++ (if present (n_module node) then [lit "module"] else [])
  ++ (if present (n_operators node) then [lit "operators"] else [])
  ++ (if present (n_ros2 node) then [lit "ros2"] else [])
  ++ (if present (n_record node) then [lit "record"] else []).

Definition check_git_ref_fields (node_path : str) (node : Node) : list ValidationError :=
  let ref_fields := [(lit "branch", present (n_branch node)); (lit "tag", present (n_tag node)); (lit "rev", present (n_rev node))] in
  let present_refs := (filter (λ p, p.2 = true) ref_fields).*1 in
  if negb (present (n_git node)) then
    (λ field, mkValidationError (path_join field node_path) (GitFieldWithoutGit field)) <$> present_refs
  else error_if (Nat.ltb 1 (length present_refs)) (path_join (lit "git") node_path) (ConflictingGitRefs present_refs).

Definition check_node_sources (m : Manifest) : list ValidationError :=
  each_node m (λ node_path node,
    match source_kinds node with
    | [] => [mkValidationError node_path NoSourceDeclared]
    | [_] => []
    | kinds => [mkValidationError node_path (MultipleSourcesDeclared kinds)]
    end
    ++ check_git_ref_fields node_path node
    ++ error_if (present (n_git node) && is_dynamic_path node) (path_join (lit "path") node_path) DynamicSentinelWithGit).

(** *** References *)

Record NodeIndex := mkNodeIndex { ni_outputs : gmap str (list str); ni_module_inputs : option (list str) }.

Definition index_build (m : Manifest) : NodeIndex :=
  mkNodeIndex (foldl (λ outputs node, <[n_id node := n_outputs node]> outputs) ∅ (m_nodes m))
    (mh_inputs <$> m_module m).

Definition resolve (value : str) (index : NodeIndex) : result UnresolvedReferenceReason unit :=
  match recognize value with
  | Some (Ok _) => Ok tt
  | Some (Err e) => Err (reason_of e)
  | None =>
      match split_once 47 value with
      | None => Err Malformed
      | Some (node_id, output_name) =>
          if bool_decide (node_id = []) || bool_decide (output_name = []) then Err Malformed
          else if bool_decide (node_id = MODULE_BOUNDARY_NODE_ID) then
            match ni_module_inputs index with
            | Some declared =>
                if bool_decide (output_name ∈ declared) then Ok tt else Err (UnknownModuleInput output_name declared)
            | None => Err (UnknownNode node_id)
            end
          else
            match ni_outputs index !! node_id with
            | None => Err (UnknownNode node_id)
            | Some declared_outputs =>
                if bool_decide (output_name ∈ declared_outputs) then Ok tt else Err (UnknownOutput node_id output_name)
            end
      end
  end.

Definition check_reference (value path : str) (index : NodeIndex) : list ValidationError :=
  match resolve value index with
  | Ok _ => []
  | Err reason => [mkValidationError path (UnresolvedReference value reason)]
  end.

(** *** Checks 3 and 4 *)

Definition check_inputs (index : NodeIndex) (m : Manifest) : list ValidationError :=
  each_node m (λ node_path node,
    mjoin ((λ '(name, input),
      let field_path := path_join name (path_join (lit "inputs") node_path) in
      error_if (N.ltb (in_queue_size input) 1) field_path (QueueSizeTooSmall (in_queue_size input))
      ++ check_reference (in_source input) field_path index) <$> map_entries (n_inputs node))).

Definition check_record (index : NodeIndex) (m : Manifest) : list ValidationError :=
  each_node m (λ node_path node,
    match n_record node with
    | None => []
    | Some record =>
        let record_path := path_join (lit "record") node_path in
        mjoin (imap (λ j value, check_reference value (path_index j record_path) index) record)
    end).

(** *** Checks 5 to 12 *)

Definition check_restart_consistency (m : Manifest) : list ValidationError :=
  each_node m (λ node_path node,
    error_if (present (n_max_restarts node) && negb (restarts_at_all (effective_restart_policy node)))
      (path_join (lit "max_restarts") node_path) MaxRestartsRequiresPolicy).

Definition check_one_urn (urn : Urn) (path : str) : list ValidationError :=
  match urn_validate urn with Ok _ => [] | Err reason => [mkValidationError path (InvalidUrn urn reason)] end.

Definition check_urns (m : Manifest) : list ValidationError :=
  each_node m (λ node_path node,
    mjoin ((λ '(name, urn), check_one_urn urn (path_join name (path_join (lit "input_types") node_path)))
           <$> map_entries (n_input_types node))
    ++ mjoin ((λ '(name, urn), check_one_urn urn (path_join name (path_join (lit "output_types") node_path)))
              <$> map_entries (n_output_types node))).

Definition check_type_rules (m : Manifest) : list ValidationError :=
  mjoin (imap (λ i rule,
    let rule_path := path_index i (path_new (lit "type_rules")) in
    check_one_urn (tr_from rule) (path_join (lit "from") rule_path)
    ++ check_one_urn (tr_to rule) (path_join (lit "to") rule_path)) (m_type_rules m)).

Definition check_cpu_affinity (m : Manifest) : list ValidationError :=
  each_node m (λ node_path node,
    match n_cpu_affinity node with
    | Some [] => [mkValidationError (path_join (lit "cpu_affinity") node_path) EmptyCpuAffinity]
    | _ => []
    end).

Definition check_type_annotations_match_ports (m : Manifest) : list ValidationError :=
  each_node m (λ node_path node,
    mjoin ((λ name, error_if (negb (present (n_inputs node !! name)))
                      (path_join name (path_join (lit "input_types") node_path))
                      (TypeForUndeclaredPort (lit "input_types") (lit "input") name)) <$> map_keys (n_input_types node))
    ++ mjoin ((λ name, error_if (negb (bool_decide (name ∈ n_outputs node)))
                         (path_join name (path_join (lit "output_types") node_path))
                         (TypeForUndeclaredPort (lit "output_types") (lit "output") name)) <$> map_keys (n_output_types node))).

Definition check_hub (path : str) (hub : option HubSource) : list ValidationError :=
  match hub with
  | Some h => error_if (negb (is_valid_hub_name (hub_name h))) path (InvalidHubName (hub_name h))
  | None => []
  end.

(** [node.operators.iter().flatten().enumerate()] *)
Definition each_operator (node : Node) (f : nat → OperatorConfig → list ValidationError) : list ValidationError :=
  mjoin (imap f (default [] (n_operators node))).

Definition check_hub_names (m : Manifest) : list ValidationError :=
  each_node m (λ node_path node,
    check_hub (path_join (lit "hub") node_path) (n_hub node)
    ++ each_operator node (λ j operator,
         check_hub (path_join (lit "hub") (path_index j (path_join (lit "operators") node_path))) (op_hub operator))).

Definition check_rt (m : Manifest) : list ValidationError :=
  each_node m (λ node_path node,
    match n_rt node with
    | None => []
    | Some rt =>
        let path := path_join (lit "priority") (path_join (lit "rt") node_path) in
        if is_realtime (rt_policy rt) then
          match rt_priority rt with
          | None => [mkValidationError path (RtPriorityRequired (rt_policy rt) RT_PRIORITY_MIN RT_PRIORITY_MAX)]
          | Some priority =>
              error_if (negb (has_valid_realtime_priority rt)) path (RtPriorityOutOfRange priority RT_PRIORITY_MIN RT_PRIORITY_MAX)
          end
        else error_if (present (rt_priority rt)) path RtPriorityWithNormalPolicy
    end).

Definition check_operator_locators (m : Manifest) : list ValidationError :=
  each_node m (λ node_path node,
    each_operator node (λ j operator,
      error_if (Nat.ltb 1 (length (locator_kinds operator))) (path_index j (path_join (lit "operators") node_path))
        (MultipleOperatorLocators (locator_kinds operator)))).

(** Every violation, in the order of the pipeline. *)
Definition violations (m : Manifest) : list ValidationError :=
  let index := index_build m in
  check_node_ids m ++ check_node_sources m ++ check_inputs index m ++ check_record index m
  ++ check_restart_consistency m ++ check_urns m ++ check_type_rules m ++ check_cpu_affinity m
  ++ check_type_annotations_match_ports m ++ check_hub_names m ++ check_rt m ++ check_operator_locators m.

Definition validate (m : Manifest) : result (list ValidationError) unit :=
  match violations m with [] => Ok tt | errors => Err errors end.
