(* ===== verification/Graph.v ===== *)
(** * The dataflow graph

    Models of [src/crates/astrs-graph/src]: identifiers, edges, nodes and
    diagnostics ([ids.rs], [edge.rs], [node.rs], [diagnostic.rs]), the graph
    and its construction from a manifest ([graph.rs]), type checking
    ([typecheck.rs]), service and action pairing ([pattern.rs]), cycle
    detection ([scc.rs], over [Tarjan.v]), placement ([placement.rs]), and the
    comparison and editing of graphs ([diff.rs]).

    The theorems are in [GraphLaws.v]. *)

From Stdlib Require Import Lia.
From stdpp Require Import base tactics list gmap strings numbers sorting.
From S2P Require Import Prelude Text Utf8 Ordered Tarjan TypeUrn Manifest.

Open Scope N_scope.

(** ** Identifiers ([ids.rs])

    [NodeId] and [PortName] are strings under other names. *)

Notation NodeId := str.
Notation PortName := str.

Inductive MachineId : Set := CoordinatorLocal | Named (name : str).

#[global] Instance MachineId_eq_dec : EqDecision MachineId.
Proof. solve_decision. Defined.

Definition machine_name (m : MachineId) : option str := match m with CoordinatorLocal => None | Named n => Some n end.

#[global] Instance MachineId_countable : Countable MachineId.
Proof.
  refine (inj_countable' machine_name (λ o, match o with None => CoordinatorLocal | Some n => Named n end) _).
  by intros [].
Defined.

(** The derived order: the variants in the order they are declared. *)
Definition machine_key (m : MachineId) : list str := match m with CoordinatorLocal => [] | Named n => [n] end.

#[global] Instance machine_key_inj : Inj (=) (=) machine_key.
Proof. intros [|a] [|b] E; try done. by injection E as ->. Qed.

#[global] Instance MachineId_key_order : KeyOrder MachineId := inj_key_order machine_key.

Definition machine_resolve (graph_deploy node_deploy : option Deploy) : MachineId :=
  match (match node_deploy with Some d => dp_machine d | None => None end) with
  | Some name => Named name
  | None =>
      match (match graph_deploy with Some d => dp_machine d | None => None end) with
      | Some name => Named name
      | None => CoordinatorLocal
      end
  end.

(** ** Edges ([edge.rs]) *)

Record EdgeKey := mkEdgeKey { consumer : NodeId; ek_input : PortName }.

#[global] Instance EdgeKey_eq_dec : EqDecision EdgeKey.
Proof. solve_decision. Defined.

Definition edge_key_pair (k : EdgeKey) : str * str := (consumer k, ek_input k).

#[global] Instance EdgeKey_countable : Countable EdgeKey.
Proof. refine (inj_countable' edge_key_pair (λ p, mkEdgeKey p.1 p.2) _). by intros []. Defined.

#[global] Instance edge_key_pair_inj : Inj (=) (=) edge_key_pair.
Proof. intros [a b] [c d] E. by injection E as -> ->. Qed.

(** The derived order: the consumer, then the input. *)
#[global] Instance EdgeKey_key_order : KeyOrder EdgeKey := inj_key_order edge_key_pair.

Inductive EdgeSource : Set := NodeOutput (node : str) (output : str) | Virtual (source : str).

#[global] Instance EdgeSource_eq_dec : EqDecision EdgeSource.
Proof. solve_decision. Defined.

Definition producer_node (s : EdgeSource) : option NodeId :=
  match s with NodeOutput node _ => Some node | Virtual _ => None end.

Definition is_virtual (s : EdgeSource) : bool := match s with Virtual _ => true | _ => false end.

Record QueueConfig := mkQueueConfig { qc_size : N; qc_policy : QueuePolicy; qc_timeout : option DurationSecs }.

#[global] Instance DurationSecs_eq_dec : EqDecision DurationSecs.
Proof. unfold DurationSecs. apply _. Defined.

#[global] Instance QueueConfig_eq_dec : EqDecision QueueConfig.
Proof. solve_decision. Defined.

Definition queue_default : QueueConfig := mkQueueConfig default_queue_size DropOldest None.

Record Edge := mkEdge { e_from : EdgeSource; e_queue : QueueConfig }.

#[global] Instance Edge_eq_dec : EqDecision Edge.
Proof. solve_decision. Defined.

(** ** Nodes ([node.rs]) *)

(** [OutputPort] and [InputPort] *)
Record Port := mkPort { type_urn : option Urn }.

#[global] Instance Port_eq_dec : EqDecision Port.
Proof. solve_decision. Defined.

Record GraphNode := mkGraphNode {
  gn_id : NodeId;
  gn_outputs : gmap PortName Port;
  gn_inputs : gmap PortName Port;
  gn_pattern : option Pattern;
  gn_machine : MachineId;
  gn_spawns_process : bool;
}.

#[global] Instance GraphNode_eq_dec : EqDecision GraphNode.
Proof. solve_decision. Defined.

Definition output_type (name : PortName) (n : GraphNode) : option Urn :=
  match gn_outputs n !! name with Some p => type_urn p | None => None end.
Definition input_type (name : PortName) (n : GraphNode) : option Urn :=
  match gn_inputs n !! name with Some p => type_urn p | None => None end.

(** ** Diagnostics ([diagnostic.rs]) *)

Inductive Severity : Set := Info | Warning | Error.

#[global] Instance Severity_eq_dec : EqDecision Severity.
Proof. solve_decision. Defined.

(** [PatternKind] of [pattern.rs] *)
Inductive PatternKind : Set := Service | Action.

#[global] Instance PatternKind_eq_dec : EqDecision PatternKind.
Proof. solve_decision. Defined.

Inductive DiagnosticKind : Type :=
  | TypeMismatch (edge : EdgeKey) (expected found : Urn)
  | Cycle (nodes : list NodeId) (uncorrelated_edges : list EdgeKey)
  | UnpairedPatternNode (node : NodeId) (pattern : Pattern)
  | PartialPatternPair (client server : NodeId) (kind : PatternKind) (has_request_edge has_response_edge : bool)
  | UnconsumedOutput (node : NodeId) (output : PortName)
  | OrphanedOutputType (node : NodeId) (output : PortName)
  | OrphanedInputType (node : NodeId) (input : PortName)
  | RecordSugarPortCollision (node : NodeId) (port : PortName).

Record Diagnostic := mkDiagnostic { severity : Severity; d_kind : DiagnosticKind }.

Definition diagnostic_edge (d : Diagnostic) : option EdgeKey :=
  match d_kind d with TypeMismatch edge _ _ => Some edge | _ => None end.

(** ** [DataflowGraph] ([graph.rs]) *)

Notation Nodes := (gmap NodeId GraphNode).
Notation Edges := (gmap EdgeKey Edge).

Record DataflowGraph := mkGraph {
  g_nodes : Nodes;
  g_edges : Edges;
  g_strict_types : bool;
  g_type_rules : list TypeRule;
}.

#[global] Instance DataflowGraph_eq_dec : EqDecision DataflowGraph.
Proof. solve_decision. Defined.

Definition graph_new (strict_types : bool) (type_rules : list TypeRule) : DataflowGraph :=
  mkGraph ∅ ∅ strict_types type_rules.

Definition edges_into (node : NodeId) (g : DataflowGraph) : list (EdgeKey * Edge) :=
  filter (λ p, consumer p.1 = node) (map_entries (g_edges g)).

Definition edges_from (node : NodeId) (g : DataflowGraph) : list (EdgeKey * Edge) :=
  filter (λ p, producer_node (e_from p.2) = Some node) (map_entries (g_edges g)).

(** *** Construction from a manifest *)

Inductive GraphBuildError : Set :=
  | DuplicateNodeId (id : str)
  | MalformedSource (node input source_text : str).

Definition RECORD_PORT_PREFIX : str := lit "_record".

(** The ports a list of names declares. *)
Definition declare_ports (names : list str) (types : gmap str Urn) : gmap PortName Port :=
  foldl (λ ports name, <[name := mkPort (types !! name)]> ports) ∅ names.

Definition build_graph_node (m : Manifest) (node : Node) (id : NodeId) : GraphNode * list Diagnostic :=
  let outputs := declare_ports (n_outputs node) (n_output_types node) in
  let orphan_outputs :=
    (λ name, mkDiagnostic Warning (OrphanedOutputType id name))
      <$> filter (λ name, name ∉ n_outputs node) (map_keys (n_output_types node)) in
  let inputs := declare_ports (map_keys (n_inputs node)) (n_input_types node) in
  let orphan_inputs :=
    (λ name, mkDiagnostic Warning (OrphanedInputType id name))
      <$> filter (λ name, n_inputs node !! name = None) (map_keys (n_input_types node)) in
  (mkGraphNode id outputs inputs (n_pattern node) (machine_resolve (m_deploy m) (n_deploy node))
     (negb (is_dynamic_path node)),
   orphan_outputs ++ orphan_inputs).

Definition parse_source (source : str) : option EdgeSource :=
  match recognize source with
  | Some _ => Some (Virtual source)
  | None =>
      match split_once 47 source with
      | None => None
      | Some (node_id, output) =>
          if bool_decide (node_id = []) || bool_decide (output = []) then None else Some (NodeOutput node_id output)
      end
  end.

Fixpoint wire_inputs (node : Node) (id : NodeId) (inputs : list (str * Input)) (edges : Edges) : result GraphBuildError Edges :=
  match inputs with
  | [] => Ok edges
  | (name, input) :: rest =>
      match parse_source (in_source input) with
      | None => Err (MalformedSource (n_id node) name (in_source input))
      | Some from =>
          let queue := mkQueueConfig (in_queue_size input) (in_queue_policy input) (in_timeout input) in
          wire_inputs node id rest (<[mkEdgeKey id name := mkEdge from queue]> edges)
      end
  end.

Definition wire_explicit_inputs (node : Node) (id : NodeId) (edges : Edges) : result GraphBuildError Edges :=
  wire_inputs node id (map_entries (n_inputs node)) edges.

Definition record_port (index : nat) : PortName := RECORD_PORT_PREFIX ++ lit "/" ++ decimal (N.of_nat index).

Definition add_input (port : PortName) (n : GraphNode) : GraphNode :=
  mkGraphNode (gn_id n) (gn_outputs n) (<[port := mkPort None]> (gn_inputs n)) (gn_pattern n) (gn_machine n)
    (gn_spawns_process n).

Fixpoint wire_records (node : Node) (id : NodeId) (record : list str) (index : nat) (nodes : Nodes) (edges : Edges)
    (diagnostics : list Diagnostic) : result GraphBuildError (Nodes * Edges * list Diagnostic) :=
  match record with
  | [] => Ok (nodes, edges, diagnostics)
  | value :: rest =>
      let port := record_port index in
      if bool_decide (is_Some (n_inputs node !! port)) then
        wire_records node id rest (S index) nodes edges
          (diagnostics ++ [mkDiagnostic Warning (RecordSugarPortCollision id port)])
      else
        match parse_source value with
        | None => Err (MalformedSource (n_id node) port value)
        | Some from =>
            wire_records node id rest (S index) (alter (add_input port) id nodes)
              (<[mkEdgeKey id port := mkEdge from queue_default]> edges) diagnostics
        end
  end.

Definition wire_record_sugar (node : Node) (id : NodeId) (nodes : Nodes) (edges : Edges) (diagnostics : list Diagnostic) :
    result GraphBuildError (Nodes * Edges * list Diagnostic) :=
  match n_record node with
  | None => Ok (nodes, edges, diagnostics)
  | Some record => wire_records node id record 0 nodes edges diagnostics
  end.

(** The first loop of [from_manifest]. *)
Fixpoint declare_nodes (m : Manifest) (l : list Node) (nodes : Nodes) (diagnostics : list Diagnostic) :
    result GraphBuildError (Nodes * list Diagnostic) :=
  match l with
  | [] => Ok (nodes, diagnostics)
  | node :: rest =>
      if bool_decide (is_Some (nodes !! n_id node)) then Err (DuplicateNodeId (n_id node))
      else
        let '(graph_node, ds) := build_graph_node m node (n_id node) in
        declare_nodes m rest (<[n_id node := graph_node]> nodes) (diagnostics ++ ds)
  end.

(** The second loop. *)
Fixpoint wire_nodes (l : list Node) (nodes : Nodes) (edges : Edges) (diagnostics : list Diagnostic) :
    result GraphBuildError (Nodes * Edges * list Diagnostic) :=
  match l with
  | [] => Ok (nodes, edges, diagnostics)
  | node :: rest =>
      let? edges := wire_explicit_inputs node (n_id node) edges in
      let? (nodes, edges, diagnostics) := wire_record_sugar node (n_id node) nodes edges diagnostics in
      wire_nodes rest nodes edges diagnostics
  end.

Definition from_manifest (m : Manifest) : result GraphBuildError (DataflowGraph * list Diagnostic) :=
  let? (nodes, diagnostics) := declare_nodes m (m_nodes m) ∅ [] in
  let? (nodes, edges, diagnostics) := wire_nodes (m_nodes m) nodes ∅ diagnostics in
  Ok (mkGraph nodes edges (m_strict_types m) (m_type_rules m), diagnostics).

(** ** Type checking ([typecheck.rs]) *)

Definition canonical_form (urn : Urn) : str :=
  match TypeUrn.parse urn with Ok parsed => as_str parsed | Err _ => urn end.

Definition urns_equivalent (a b : Urn) : bool := bool_decide (canonical_form a = canonical_form b).

Inductive EdgeTypeStatus : Type := AnyOrAbsent | Compatible | Mismatch (expected found : Urn).

Definition producer_output_type (nodes : Nodes) (source : EdgeSource) : option Urn :=
  match source with
  | NodeOutput node output => match nodes !! node with Some n => output_type output n | None => None end
  | Virtual _ => None
  end.

Definition rule_allows (type_rules : list TypeRule) (found expected : Urn) : bool :=
  existsb (λ rule, urns_equivalent (tr_from rule) found && urns_equivalent (tr_to rule) expected) type_rules.

Definition edge_status (nodes : Nodes) (key : EdgeKey) (edge : Edge) (type_rules : list TypeRule) : EdgeTypeStatus :=
  let expected := match nodes !! consumer key with Some n => input_type (ek_input key) n | None => None end in
  let found := producer_output_type nodes (e_from edge) in
  match expected, found with
  | Some expected, Some found =>
      if urns_equivalent expected found || rule_allows type_rules found expected then Compatible
      else Mismatch expected found
  | _, _ => AnyOrAbsent
  end.

Definition check_types (nodes : Nodes) (edges : Edges) (type_rules : list TypeRule) (strict_types : bool) : list Diagnostic :=
  omap (λ '(key, edge),
    match edge_status nodes key edge type_rules with
    | Mismatch expected found =>
        Some (mkDiagnostic (if strict_types then Error else Warning) (TypeMismatch key expected found))
    | _ => None
    end) (map_entries edges).

Definition edge_type_status (key : EdgeKey) (g : DataflowGraph) : option EdgeTypeStatus :=
  match g_edges g !! key with
  | Some edge => Some (edge_status (g_nodes g) key edge (g_type_rules g))
  | None => None
  end.

(** ** Pairing ([pattern.rs]) *)

Inductive Role : Set := Client | Server.

Definition kind_role (p : Pattern) : PatternKind * Role :=
  match p with
  | ServiceServer => (Service, Server)
  | ServiceClient => (Service, Client)
  | ActionServer => (Action, Server)
  | ActionClient => (Action, Client)
  end.

Record PatternPair := mkPatternPair {
  pp_kind : PatternKind;
  pp_client : NodeId;
  pp_server : NodeId;
  client_to_server : list EdgeKey;
  server_to_client : list EdgeKey;
}.

Definition pair_edges (p : PatternPair) : list EdgeKey := client_to_server p ++ server_to_client p.
Definition has_request_edge (p : PatternPair) : bool := negb (bool_decide (client_to_server p = [])).
Definition has_response_edge (p : PatternPair) : bool := negb (bool_decide (server_to_client p = [])).
Definition is_fully_wired (p : PatternPair) : bool := has_request_edge p && has_response_edge p.

(** The index by producer and the lookup in it. *)
Definition edges_between (edges : Edges) (from to : NodeId) : list EdgeKey :=
  (filter (λ p : EdgeKey * Edge, producer_node (e_from p.2) = Some from ∧ consumer p.1 = to) (map_entries edges)).*1.

(** The nodes of one kind and role, by their own id. *)
Definition role_nodes (nodes : Nodes) (kind : PatternKind) (role : Role) : list NodeId :=
  omap (λ n, match gn_pattern n with
             | Some p => match kind_role p, role with
                         | (k, Client), Client | (k, Server), Server => if decide (k = kind) then Some (gn_id n) else None
                         | _, _ => None
                         end
             | None => None
             end) (map_values nodes).

(** One client against one server. *)
Definition pair_of (edges : Edges) (kind : PatternKind) (client server : NodeId) : option PatternPair :=
  let c2s := edges_between edges client server in
  let s2c := edges_between edges server client in
  if bool_decide (c2s = []) && bool_decide (s2c = []) then None
  else Some (mkPatternPair kind client server c2s s2c).

(** The kinds in their order, the clients of each, the servers for each. *)
Definition wired_pairs (nodes : Nodes) (edges : Edges) : list PatternPair :=
  kind ← [Service; Action];
  client ← role_nodes nodes kind Client;
  omap (pair_of edges kind client) (role_nodes nodes kind Server).

Definition partial_diagnostic (p : PatternPair) : option Diagnostic :=
  if is_fully_wired p then None
  else Some (mkDiagnostic Warning
               (PartialPatternPair (pp_client p) (pp_server p) (pp_kind p) (has_request_edge p) (has_response_edge p))).

Definition unpaired_diagnostic (paired : list NodeId) (n : GraphNode) : option Diagnostic :=
  match gn_pattern n with
  | Some pattern =>
      if decide (gn_id n ∈ paired) then None else Some (mkDiagnostic Warning (UnpairedPatternNode (gn_id n) pattern))
  | None => None
  end.

Definition pattern_pair_le (p q : PatternPair) : Prop :=
  key_le (pp_client p, pp_server p) (pp_client q, pp_server q).

#[global] Instance pattern_pair_le_dec : RelDecision pattern_pair_le.
Proof. intros p q. apply key_le_dec. Defined.

Definition derive_pattern_pairs (nodes : Nodes) (edges : Edges) : list PatternPair * list Diagnostic :=
  let pairs := wired_pairs nodes edges in
  let paired := mjoin ((λ p, [pp_client p; pp_server p]) <$> pairs) in
  (merge_sort pattern_pair_le pairs, omap partial_diagnostic pairs ++ omap (unpaired_diagnostic paired) (map_values nodes)).

(** ** Cycles ([scc.rs]) *)

(** Successors without duplicates, in order. *)
Definition node_adjacency (nodes : Nodes) (edges : Edges) : gmap NodeId (list NodeId) :=
  let sets := foldl (λ (adj : gmap NodeId (gset NodeId)) '(key, edge),
                match producer_node (e_from edge) with
                | Some producer => alter (λ successors, {[consumer key]} ∪ successors) producer adj
                | None => adj
                end) ((λ _, ∅) <$> nodes) (map_entries edges) in
  sorted_elements <$> sets.

(** [sort_by(|a, b| a.nodes.first().cmp(&b.nodes.first()))] *)
Definition first_le (a b : list NodeId) : Prop :=
  match head a, head b with
  | None, _ => True
  | Some _, None => False
  | Some x, Some y => key_le x y
  end.

#[global] Instance first_le_dec : RelDecision first_le.
Proof. intros a b. unfold first_le. destruct (head a), (head b); apply _. Defined.

Definition compute_sccs (nodes : Nodes) (edges : Edges) : option (list (list NodeId)) :=
  merge_sort first_le <$> run_tarjan (node_adjacency nodes edges).

(** Whether an edge stays within a set of nodes. *)
Definition edge_within (members : list NodeId) (p : EdgeKey * Edge) : Prop :=
  consumer p.1 ∈ members ∧ match producer_node (e_from p.2) with Some n => n ∈ members | None => False end.

#[global] Instance edge_within_dec members p : Decision (edge_within members p).
Proof. unfold edge_within. destruct (producer_node _); apply _. Defined.

Definition self_loop (only : NodeId) (edges : Edges) : bool :=
  existsb (λ '(key, edge), bool_decide (consumer key = only) && bool_decide (producer_node (e_from edge) = Some only))
    (map_entries edges).

Definition scc_diagnostic (edges : Edges) (correlated : gset EdgeKey) (scc : list NodeId) : option Diagnostic :=
  let members : gset NodeId := list_to_set scc in
  let cyclic :=
    if Nat.ltb (size members) 2 then match scc with [] => false | only :: _ => self_loop only edges end else true in
  if negb cyclic then None
  else
    let edges_in_scc := (filter (edge_within scc) (map_entries edges)).*1 in
    let uncorrelated := filter (λ key, key ∉ correlated) edges_in_scc in
    if bool_decide (uncorrelated = []) then None else Some (mkDiagnostic Warning (Cycle scc uncorrelated)).

Definition cycle_diagnostics (sccs : list (list NodeId)) (edges : Edges) (correlated : gset EdgeKey) : list Diagnostic :=
  omap (scc_diagnostic edges correlated) sccs.

(** ** The report ([graph.rs], [diagnostics]) *)

Definition consumed_outputs (edges : Edges) : gset (NodeId * PortName) :=
  list_to_set (omap (λ '(_, edge), match e_from edge with NodeOutput node output => Some (node, output) | Virtual _ => None end)
                 (map_entries edges)).

Definition unconsumed_output_diagnostics (g : DataflowGraph) : list Diagnostic :=
  let consumed := consumed_outputs (g_edges g) in
  '(node_id, node) ← map_entries (g_nodes g);
  (λ output, mkDiagnostic Info (UnconsumedOutput node_id output))
    <$> filter (λ output, (node_id, output) ∉ consumed) (map_keys (gn_outputs node)).

Definition correlated_edges (pairs : list PatternPair) : gset EdgeKey := list_to_set (mjoin (pair_edges <$> pairs)).

Definition diagnostics (g : DataflowGraph) : option (list Diagnostic) :=
  let '(pairs, pattern_diagnostics) := derive_pattern_pairs (g_nodes g) (g_edges g) in
  match compute_sccs (g_nodes g) (g_edges g) with
  | None => None
  | Some sccs =>
      Some (check_types (g_nodes g) (g_edges g) (g_type_rules g) (g_strict_types g) ++ pattern_diagnostics
            ++ cycle_diagnostics sccs (g_edges g) (correlated_edges pairs) ++ unconsumed_output_diagnostics g)
  end.

(** ** Placement ([placement.rs]) *)

Record MachinePlan := mkMachinePlan { mp_machine : MachineId; mp_spawns : list NodeId }.

Record CrossMachineRoute := mkRoute {
  producer_machine : MachineId;
  consumer_machine : MachineId;
  cr_edge : EdgeKey;
}.

Record PlacementPlan := mkPlan { pl_machines : list MachinePlan; cross_machine_routes : list CrossMachineRoute }.

Definition plan_machine (id : MachineId) (p : PlacementPlan) : option MachinePlan :=
  head (filter (λ plan, mp_machine plan = id) (pl_machines p)).

Definition total_spawns (p : PlacementPlan) : nat := sum_list ((λ plan, length (mp_spawns plan)) <$> pl_machines p).

(** One node into the lists by machine. *)
Definition place_node (by_machine : gmap MachineId (list NodeId)) (n : GraphNode) : gmap MachineId (list NodeId) :=
  let spawns := default [] (by_machine !! gn_machine n) in
  <[gn_machine n := if gn_spawns_process n then spawns ++ [gn_id n] else spawns]> by_machine.

Definition route_of (nodes : Nodes) (key : EdgeKey) (edge : Edge) : option CrossMachineRoute :=
  match producer_node (e_from edge) with
  | None => None
  | Some producer_id =>
      match nodes !! producer_id, nodes !! consumer key with
      | Some producer, Some target =>
          if decide (gn_machine producer = gn_machine target) then None
          else Some (mkRoute (gn_machine producer) (gn_machine target) key)
      | _, _ => None
      end
  end.

Definition plan_placement (g : DataflowGraph) : PlacementPlan :=
  let by_machine := foldl place_node ∅ (map_values (g_nodes g)) in
  mkPlan ((λ '(machine, spawns), mkMachinePlan machine spawns) <$> map_entries by_machine)
    (omap (λ '(key, edge), route_of (g_nodes g) key edge) (map_entries (g_edges g))).

(** ** Comparing and editing graphs ([diff.rs]) *)

Inductive TopologyOp : Type :=
  | AddNode (id : NodeId) (node : GraphNode)
  | RemoveNode (id : NodeId)
  | ReplaceNode (id : NodeId) (old new : GraphNode)
  | AddEdge (key : EdgeKey) (edge : Edge)
  | RemoveEdge (key : EdgeKey).

Inductive ApplyError : Type :=
  | NodeAlreadyExists (id : NodeId)
  | NodeNotFound (op : str) (id : NodeId)
  | StaleReplace (id : NodeId)
  | EdgeNotFound (key : EdgeKey)
  | DanglingConsumer (key : EdgeKey)
  | UndeclaredInput (key : EdgeKey)
  | DanglingProducer (key : EdgeKey) (node : NodeId)
  | UndeclaredOutput (key : EdgeKey) (node : NodeId) (output : PortName)
  | TypeUnsafe (count : nat) (mismatches : list Diagnostic).

Definition diff (old new : DataflowGraph) : list TopologyOp :=
  omap (λ id, match g_nodes new !! id with None => Some (RemoveNode id) | Some _ => None end) (map_keys (g_nodes old))
  ++ omap (λ '(id, node),
       match g_nodes old !! id with
       | None => Some (AddNode id node)
       | Some old_node => if decide (old_node = node) then None else Some (ReplaceNode id old_node node)
       end) (map_entries (g_nodes new))
  ++ omap (λ key, match g_edges new !! key with None => Some (RemoveEdge key) | Some _ => None end) (map_keys (g_edges old))
  ++ omap (λ '(key, edge),
       if decide (g_edges old !! key = Some edge) then None else Some (AddEdge key edge)) (map_entries (g_edges new)).

(** The five phases of [apply]. *)
Fixpoint remove_nodes (ops : list TopologyOp) (nodes : Nodes) : result ApplyError Nodes :=
  match ops with
  | [] => Ok nodes
  | RemoveNode id :: rest =>
      match nodes !! id with
      | None => Err (NodeNotFound (lit "RemoveNode") id)
      | Some _ => remove_nodes rest (delete id nodes)
      end
  | _ :: rest => remove_nodes rest nodes
  end.

Fixpoint add_nodes (ops : list TopologyOp) (nodes : Nodes) : result ApplyError Nodes :=
  match ops with
  | [] => Ok nodes
  | AddNode id node :: rest =>
      match nodes !! id with
      | Some _ => Err (NodeAlreadyExists id)
      | None => add_nodes rest (<[id := node]> nodes)
      end
  | _ :: rest => add_nodes rest nodes
  end.

Fixpoint replace_nodes (ops : list TopologyOp) (nodes : Nodes) : result ApplyError Nodes :=
  match ops with
  | [] => Ok nodes
  | ReplaceNode id old new :: rest =>
      match nodes !! id with
      | None => Err (NodeNotFound (lit "ReplaceNode") id)
      | Some current =>
          if decide (current = old) then replace_nodes rest (<[id := new]> nodes) else Err (StaleReplace id)
      end
  | _ :: rest => replace_nodes rest nodes
  end.

Fixpoint remove_edges (ops : list TopologyOp) (edges : Edges) : result ApplyError Edges :=
  match ops with
  | [] => Ok edges
  | RemoveEdge key :: rest =>
      match edges !! key with
      | None => Err (EdgeNotFound key)
      | Some _ => remove_edges rest (delete key edges)
      end
  | _ :: rest => remove_edges rest edges
  end.

Fixpoint add_edges (ops : list TopologyOp) (edges : Edges) : Edges :=
  match ops with
  | [] => edges
  | AddEdge key edge :: rest => add_edges rest (<[key := edge]> edges)
  | _ :: rest => add_edges rest edges
  end.

Definition check_edge (nodes : Nodes) (key : EdgeKey) (edge : Edge) : result ApplyError unit :=
  match nodes !! consumer key with
  | None => Err (DanglingConsumer key)
  | Some target =>
      match gn_inputs target !! ek_input key with
      | None => Err (UndeclaredInput key)
      | Some _ =>
          match e_from edge with
          | Virtual _ => Ok tt
          | NodeOutput node output =>
              match nodes !! node with
              | None => Err (DanglingProducer key node)
              | Some producer =>
                  match gn_outputs producer !! output with
                  | None => Err (UndeclaredOutput key node output)
                  | Some _ => Ok tt
                  end
              end
          end
      end
  end.

Fixpoint check_edges (nodes : Nodes) (l : list (EdgeKey * Edge)) : result ApplyError unit :=
  match l with
  | [] => Ok tt
  | (key, edge) :: rest => let? _ := check_edge nodes key edge in check_edges nodes rest
  end.

Definition check_referential_integrity (g : DataflowGraph) : result ApplyError unit :=
  check_edges (g_nodes g) (map_entries (g_edges g)).

(** An error about an edge that was not one before. *)
Definition newly_unsafe (mismatched_before : gset EdgeKey) (d : Diagnostic) : Prop :=
  severity d = Error ∧ match diagnostic_edge d with Some edge => edge ∉ mismatched_before | None => False end.

#[global] Instance newly_unsafe_dec before d : Decision (newly_unsafe before d).
Proof. unfold newly_unsafe. destruct (diagnostic_edge d); apply _. Defined.

(** Mismatches of a candidate that the base did not have. *)
Definition new_violations (base candidate : DataflowGraph) : list Diagnostic :=
  let mismatched_before : gset EdgeKey :=
    list_to_set (omap diagnostic_edge (check_types (g_nodes base) (g_edges base) (g_type_rules base) (g_strict_types base))) in
  filter (newly_unsafe mismatched_before)
    (check_types (g_nodes candidate) (g_edges candidate) (g_type_rules candidate) (g_strict_types candidate)).

Definition check_type_safety (base candidate : DataflowGraph) : result ApplyError unit :=
  if negb (g_strict_types candidate) then Ok tt
  else
    match new_violations base candidate with
    | [] => Ok tt
    | vs => Err (TypeUnsafe (length vs) vs)
    end.

(** The graph the five phases leave, before it is checked. *)
Definition edit (ops : list TopologyOp) (g : DataflowGraph) : result ApplyError DataflowGraph :=
  let? nodes := remove_nodes ops (g_nodes g) in
  let? nodes := add_nodes ops nodes in
  let? nodes := replace_nodes ops nodes in
  let? edges := remove_edges ops (g_edges g) in
  Ok (mkGraph nodes (add_edges ops edges) (g_strict_types g) (g_type_rules g)).

Definition apply (g : DataflowGraph) (ops : list TopologyOp) : result ApplyError DataflowGraph :=
  let? candidate := edit ops g in
  let? _ := check_referential_integrity candidate in
  let? _ := check_type_safety g candidate in
  Ok candidate.
