(* ===== verification/GraphLaws.v ===== *)
(** * What the graph's analyses guarantee

    Theorems on the definitions of [Graph.v] and [Manifest.v]: the components
    and cycles the report names ([sccs_are_mutual_reachability],
    [cycle_report_is_exact]), the graph a validated manifest builds
    ([validated_manifest_builds]), comparing and editing graphs
    ([diff_then_apply], [apply_keeps_the_graph_sound]), placement
    ([placement_is_exact]) and type checking ([type_report_is_exact]). *)

From Stdlib Require Import Lia.
From stdpp Require Import base tactics list gmap strings numbers sorting relations.
From S2P Require Import Prelude Text Utf8 Ordered Tarjan TypeUrn Manifest Graph.

Open Scope N_scope.

(** ** Edges between nodes *)

(** Some output of [a] is wired to some input of [b]. *)
Definition feeds (edges : Edges) (a b : NodeId) : Prop :=
  ∃ key edge, edges !! key = Some edge ∧ producer_node (e_from edge) = Some a ∧ consumer key = b.

(** The ends of an edge exist and declare the ports it joins: the consumer
    the input, and the producer, when there is one, the output. *)
Definition joined (nodes : Nodes) (key : EdgeKey) (edge : Edge) : Prop :=
  (∃ target, nodes !! consumer key = Some target ∧ is_Some (gn_inputs target !! ek_input key)) ∧
  ∀ node output, e_from edge = NodeOutput node output →
    ∃ producer, nodes !! node = Some producer ∧ is_Some (gn_outputs producer !! output).

(** Every reference of a graph resolves: its documented invariant. *)
Definition integral (g : DataflowGraph) : Prop :=
  ∀ key edge, g_edges g !! key = Some edge → joined (g_nodes g) key edge.

(** What the code's test accepts. *)
Lemma check_edge_joined nodes key edge : check_edge nodes key edge = Ok tt ↔ joined nodes key edge.
Proof.
  unfold check_edge, joined. destruct (nodes !! consumer key) as [target|]; [|naive_solver].
  destruct (gn_inputs target !! ek_input key) as [port|] eqn:Ei.
  2: { split; [done|]. intros [(t & [= <-] & [? Hp]) _]. by rewrite Ei in Hp. }
  assert (∃ t, Some target = Some t ∧ is_Some (gn_inputs t !! ek_input key)) as Ht by (exists target; rewrite Ei; eauto).
  destruct (e_from edge) as [node output|s]; [|naive_solver].
  destruct (nodes !! node) as [producer|] eqn:En.
  2: { split; [done|]. intros [_ H]. destruct (H node output eq_refl) as (? & Hn & _). by rewrite En in Hn. }
  destruct (gn_outputs producer !! output) eqn:Eo.
  - split; [|done]. intros _. split; [done|]. intros ? ? [= <- <-]. exists producer. rewrite Eo. eauto.
  - split; [done|]. intros [_ H]. destruct (H node output eq_refl) as (? & Hn & [? Hp]). rewrite En in Hn. injection Hn as <-. by rewrite Eo in Hp.
Qed.

Lemma check_edges_ok nodes l :
  check_edges nodes l = Ok tt ↔ Forall (λ p, check_edge nodes p.1 p.2 = Ok tt) l.
Proof.
  induction l as [|[key edge] l IH]; simpl; [split; [constructor|done]|].
  rewrite Forall_cons. cbn [fst snd]. destruct (check_edge nodes key edge) as [[]|e]; cbn [rbind].
  - rewrite IH. tauto.
  - split; [done|]. by intros [? _].
Qed.

Lemma integral_spec g : check_referential_integrity g = Ok tt ↔ integral g.
Proof.
  unfold check_referential_integrity, integral. rewrite check_edges_ok, Forall_forall. split.
  - intros Hall key edge He. apply check_edge_joined, (Hall (key, edge)). by apply elem_of_map_entries.
  - intros Hall [key edge] Hin. apply check_edge_joined, Hall. by apply elem_of_map_entries.
Qed.

Lemma integral_feeds g a b :
  integral g → feeds (g_edges g) a b → is_Some (g_nodes g !! a) ∧ is_Some (g_nodes g !! b).
Proof.
  intros Hg (key & edge & He & Hp & <-). destruct (Hg _ _ He) as [(t & Ht & _) Hq]. split; [|by eexists].
  destruct (e_from edge) as [node output|]; [|done]. injection Hp as <-. destruct (Hq _ _ eq_refl) as (? & ? & _). by eexists.
Qed.

(** ** The adjacency *)

Section adjacency.
Context (nodes : Nodes) (edges : Edges).

Definition successor_sets (l : list (EdgeKey * Edge)) : gmap NodeId (gset NodeId) :=
  foldl (λ (adj : gmap NodeId (gset NodeId)) '(key, edge),
    match producer_node (e_from edge) with
    | Some producer => alter (λ successors, {[consumer key]} ∪ successors) producer adj
    | None => adj
    end) ((λ _, ∅) <$> nodes) l.

Lemma successor_sets_snoc l key edge :
  successor_sets (l ++ [(key, edge)]) =
  match producer_node (e_from edge) with
  | Some producer => alter (λ successors, {[consumer key]} ∪ successors) producer (successor_sets l)
  | None => successor_sets l
  end.
Proof. unfold successor_sets. by rewrite foldl_app. Qed.

Lemma successor_sets_spec l x :
  (is_Some (successor_sets l !! x) ↔ is_Some (nodes !! x)) ∧
  ∀ s y, successor_sets l !! x = Some s →
    y ∈ s ↔ ∃ key edge, (key, edge) ∈ l ∧ producer_node (e_from edge) = Some x ∧ consumer key = y.
Proof.
  induction l as [|[key edge] l IH] using rev_ind.
  { unfold successor_sets. simpl. rewrite lookup_fmap, fmap_is_Some. split; [done|].
    intros s y Hs. apply fmap_Some in Hs as (n & _ & ->). split; [by intros ?%elem_of_empty|].
    intros (key & edge & Hin & _). by apply elem_of_nil in Hin. }
  destruct IH as [IHd IHs]. rewrite successor_sets_snoc.
  assert (∀ s y, successor_sets l !! x = Some s → producer_node (e_from edge) ≠ Some x →
    y ∈ s ↔ ∃ key' edge', (key', edge') ∈ l ++ [(key, edge)] ∧ producer_node (e_from edge') = Some x ∧ consumer key' = y) as Hother.
  { intros s y Hs Hne. rewrite (IHs s y Hs). split.
    - intros (k & e & Hin & Hr). exists k, e. split; [by apply elem_of_app; left|done].
    - intros (k & e & [Hin|Hin]%elem_of_app & Hp & Hc); [by exists k, e|].
      apply list_elem_of_singleton in Hin. injection Hin as -> ->. done. }
  destruct (producer_node (e_from edge)) as [p|] eqn:Ep; [|split; [done|]; intros; by apply Hother].
  destruct (decide (p = x)) as [->|Hne].
  - rewrite lookup_alter_eq. split; [by rewrite fmap_is_Some|].
    intros s y Hs. apply fmap_Some in Hs as (s' & Hs' & ->). rewrite elem_of_union, elem_of_singleton, (IHs s' y Hs').
    split.
    + intros [->|(k & e & Hin & Hr)].
      * exists key, edge. split; [apply elem_of_app; right; by left|done].
      * exists k, e. split; [by apply elem_of_app; left|done].
    + intros (k & e & [Hin|Hin]%elem_of_app & Hp & Hc); [right; by exists k, e|].
      apply list_elem_of_singleton in Hin. injection Hin as -> ->. by left.
  - rewrite lookup_alter_ne by done. split; [done|]. intros s y Hs. apply Hother; [done|]. congruence.
Qed.

Lemma adjacency_edge x y : Tarjan.edge (node_adjacency nodes edges) x y ↔ is_Some (nodes !! x) ∧ feeds edges x y.
Proof.
  unfold Tarjan.edge. change (node_adjacency nodes edges) with (sorted_elements <$> successor_sets (map_entries edges)).
  rewrite lookup_fmap. destruct (successor_sets_spec (map_entries edges) x) as [Hd Hs].
  destruct (successor_sets (map_entries edges) !! x) as [s|]; cbn.
  - rewrite elem_of_sorted_elements, (Hs s y eq_refl). split.
    + intros (key & edge & Hin & Hp & Hc). split; [by apply Hd|]. exists key, edge. by rewrite <-elem_of_map_entries.
    + intros [_ (key & edge & Hin & Hp & Hc)]. exists key, edge. by rewrite elem_of_map_entries.
  - rewrite elem_of_nil. split; [done|]. intros [Hn _]. apply Hd in Hn as [? ?]. done.
Qed.

Lemma adjacency_dom x : is_Some (node_adjacency nodes edges !! x) ↔ is_Some (nodes !! x).
Proof.
  change (node_adjacency nodes edges) with (sorted_elements <$> successor_sets (map_entries edges)).
  rewrite lookup_fmap, fmap_is_Some. apply successor_sets_spec.
Qed.
End adjacency.

(** In a graph whose edges end at its nodes, the search's edges are the
    graph's. *)
Lemma integral_reaches g a b :
  integral g → reaches (node_adjacency (g_nodes g) (g_edges g)) a b ↔ rtc (feeds (g_edges g)) a b.
Proof.
  intros Hg. unfold reaches. split; intros Hr; induction Hr as [x|x y z Hxy _ IH]; try apply rtc_refl.
  - apply adjacency_edge in Hxy as [_ Hxy]. by eapply rtc_l.
  - eapply rtc_l; [|exact IH]. apply adjacency_edge. split; [|done].
    by destruct (integral_feeds g x y Hg Hxy).
Qed.

Lemma integral_vertices g a :
  integral g → a ∈ vertices (node_adjacency (g_nodes g) (g_edges g)) ↔ is_Some (g_nodes g !! a).
Proof.
  intros Hg. unfold vertices. rewrite elem_of_union, elem_of_dom, adjacency_dom. split; [|by left].
  intros [Ha|Ha]; [done|]. rewrite elem_of_list_to_set, list_elem_of_join in Ha.
  destruct Ha as (s & Ha & Hs). apply list_elem_of_fmap in Hs as ([x s'] & -> & Hx).
  apply elem_of_map_to_list in Hx.
  assert (Tarjan.edge (node_adjacency (g_nodes g) (g_edges g)) x a) as He by (unfold Tarjan.edge; by rewrite Hx).
  apply adjacency_edge in He as [_ He]. by destruct (integral_feeds g x a Hg He).
Qed.

(** ** Components *)

#[global] Instance first_le_total : Total first_le.
Proof.
  intros a b. unfold first_le. destruct (head a) as [x|], (head b) as [y|]; [apply (total key_le)|by right|by left|by left].
Qed.

#[global] Instance first_le_trans : Transitive first_le.
Proof.
  intros a b c. unfold first_le. destruct (head a) as [x|], (head b) as [y|], (head c) as [z|]; try done.
  intros ??. by etrans.
Qed.

(** The lists of nodes that are the components of a graph: every node in one
    of them, once, with exactly the nodes it reaches and that reach it. *)
Record components (g : DataflowGraph) (sccs : list (list NodeId)) : Prop := {
  co_once : NoDup (mjoin sccs);
  co_nodes : ∀ a, a ∈ mjoin sccs ↔ is_Some (g_nodes g !! a);
  co_class : ∀ c a b, c ∈ sccs → a ∈ c → b ∈ c ↔ rtc (feeds (g_edges g)) a b ∧ rtc (feeds (g_edges g)) b a;
  co_sorted : Forall (λ c, c ≠ [] ∧ StronglySorted key_lt c) sccs;
  co_order : StronglySorted first_le sccs;
}.

Lemma mjoin_perm {A} (l l' : list (list A)) : l ≡ₚ l' → mjoin l ≡ₚ mjoin l'.
Proof.
  induction 1 as [|x l l' _ IH|x y l|l1 l2 l3 _ IH1 _ IH2]; cbn; [done|by rewrite IH| |by etrans].
  rewrite !(assoc_L (++)). by rewrite (Permutation_app_comm x y).
Qed.

Lemma NoDup_in_mjoin {A} (ls : list (list A)) l : NoDup (mjoin ls) → l ∈ ls → NoDup l.
Proof.
  intros Hnd Hl. induction ls as [|l' ls IH]; [by apply elem_of_nil in Hl|]. cbn in Hnd.
  apply NoDup_app in Hnd as (Hn & _ & Hr). apply elem_of_cons in Hl as [->|Hl]; auto.
Qed.

Lemma compute_sccs_components g :
  integral g → ∃ sccs, compute_sccs (g_nodes g) (g_edges g) = Some sccs ∧ components g sccs.
Proof.
  intros Hg. set (adj := node_adjacency (g_nodes g) (g_edges g)).
  destruct (run_tarjan_total adj) as [cs Hcs]. destruct (run_tarjan_spec adj cs Hcs) as (Hscc & Hsort & Hnd & Hall).
  exists (merge_sort first_le cs). unfold compute_sccs. fold adj. rewrite Hcs. split; [done|].
  pose proof (merge_sort_Permutation first_le cs) as Hp. split.
  - by rewrite (mjoin_perm _ _ Hp).
  - intros a. rewrite (mjoin_perm _ _ Hp), Hall. by apply integral_vertices.
  - intros c a b Hc Ha. rewrite Hp in Hc. rewrite Forall_forall in Hscc. destruct (Hscc c Hc) as [_ Hm].
    rewrite (Hm a Ha b). unfold mutual, adj. by rewrite !integral_reaches.
  - rewrite Hp. rewrite Forall_forall in *. intros c Hc. split; [by apply Hscc|].
    apply sorted_strictly; [by eapply NoDup_in_mjoin|by apply Hsort].
  - apply StronglySorted_merge_sort; apply _.
Qed.

(** ** Cycles *)

Section cycles.
Context (edges : Edges) (correlated : gset EdgeKey).

(** The edges a diagnostic names as part of a cycle. *)
Definition cycle_edges (d : Diagnostic) : list EdgeKey :=
  match d_kind d with Cycle _ uncorrelated => uncorrelated | _ => [] end.

Lemma self_loop_within scc key edge :
  edge_within scc (key, edge) → edges !! key = Some edge → (size (list_to_set scc : gset NodeId) < 2)%nat →
  match scc with [] => false | only :: _ => self_loop only edges end = true.
Proof.
  intros [Hc Hp] He Hs. cbn in Hc, Hp. destruct (producer_node (e_from edge)) as [p|] eqn:Ep; [|done].
  destruct scc as [|only rest]; [by apply elem_of_nil in Hc|].
  assert (∀ x, x ∈ only :: rest → x = only) as Hsame.
  { intros x Hx. apply dec_stable. intros Hne.
    assert ((size ({[x; only]} : gset NodeId) <= size (list_to_set (only :: rest) : gset NodeId))%nat) as Hle.
    { apply subseteq_size. intros z Hz. rewrite elem_of_list_to_set. set_unfold. naive_solver. }
    rewrite size_union, !size_singleton in Hle by set_solver. lia. }
  apply existsb_exists. exists (key, edge). split; [apply list_elem_of_In; by apply elem_of_map_entries|].
  rewrite (Hsame _ Hc), Ep, (Hsame _ Hp). by rewrite !bool_decide_eq_true_2.
Qed.

Lemma scc_diagnostic_spec scc key :
  (∃ d, scc_diagnostic edges correlated scc = Some d ∧ key ∈ cycle_edges d) ↔
  key ∉ correlated ∧ ∃ edge, edges !! key = Some edge ∧ edge_within scc (key, edge).
Proof.
  set (un := filter (λ key, key ∉ correlated) ((filter (edge_within scc) (map_entries edges)).*1)).
  assert (key ∈ un ↔ key ∉ correlated ∧ ∃ edge, edges !! key = Some edge ∧ edge_within scc (key, edge)) as Hun.
  { unfold un. rewrite list_elem_of_filter, list_elem_of_fmap. apply and_iff_compat_l. split.
    - intros ([k e] & -> & Hin). apply list_elem_of_filter in Hin as [Hw Hin]. exists e. by rewrite <-elem_of_map_entries.
    - intros (e & He & Hw). exists (key, e). split; [done|]. apply list_elem_of_filter. by rewrite elem_of_map_entries. }
  rewrite <-Hun. unfold scc_diagnostic. fold un. split.
  - intros (d & Hd & Hk). destruct (negb _); [done|]. case_bool_decide; [done|]. injection Hd as <-. done.
  - intros Hk. apply Hun in Hk as Hk'. destruct Hk' as (_ & edge & He & Hw).
    assert ((if Nat.ltb (size (list_to_set scc : gset NodeId)) 2
             then match scc with [] => false | only :: _ => self_loop only edges end else true) = true) as ->.
    { destruct (Nat.ltb_spec (size (list_to_set scc : gset NodeId)) 2); [|done]. by eapply self_loop_within. }
    cbn [negb]. rewrite bool_decide_eq_false_2 by (intros E; rewrite E in Hk; by apply elem_of_nil in Hk).
    eexists. split; [done|]. done.
Qed.

Lemma cycle_diagnostics_spec sccs key :
  (∃ d, d ∈ cycle_diagnostics sccs edges correlated ∧ key ∈ cycle_edges d) ↔
  key ∉ correlated ∧ ∃ edge scc, edges !! key = Some edge ∧ scc ∈ sccs ∧ edge_within scc (key, edge).
Proof.
  unfold cycle_diagnostics. split.
  - intros (d & Hd & Hk). apply list_elem_of_omap in Hd as (scc & Hscc & Hd).
    destruct (proj1 (scc_diagnostic_spec scc key)) as (Hc & edge & He & Hw); [by exists d|].
    split; [done|]. by exists edge, scc.
  - intros (Hc & edge & scc & He & Hscc & Hw).
    destruct (proj2 (scc_diagnostic_spec scc key)) as (d & Hd & Hk); [split; [done|by exists edge]|].
    exists d. split; [|done]. apply list_elem_of_omap. by exists scc.
Qed.
End cycles.

(** ** Pairing *)

Section pairing.
Context (nodes : Nodes) (edges : Edges).

(** A node declares a role in a pattern. *)
Definition plays (kind : PatternKind) (role : Role) (a : NodeId) : Prop :=
  ∃ id n p, nodes !! id = Some n ∧ gn_id n = a ∧ gn_pattern n = Some p ∧ kind_role p = (kind, role).

(** Two nodes are the client and the server of one pattern, in some order. *)
Definition counterparts (a b : NodeId) : Prop :=
  ∃ kind, (plays kind Client a ∧ plays kind Server b) ∨ (plays kind Server a ∧ plays kind Client b).

Lemma elem_of_role_nodes kind role a : a ∈ role_nodes nodes kind role ↔ plays kind role a.
Proof.
  unfold role_nodes. rewrite list_elem_of_omap. split.
  - intros (n & Hn & E). apply elem_of_map_values in Hn as [id Hn].
    destruct (gn_pattern n) as [p|] eqn:Ep; [|done].
    destruct (kind_role p) as [k r] eqn:Ek. exists id, n, p.
    destruct r, role; try done; case_decide; simplify_eq; done.
  - intros (id & n & p & Hn & <- & Ep & Ek). exists n. split; [apply elem_of_map_values; eauto|].
    rewrite Ep, Ek. destruct role; by rewrite decide_True.
Qed.

Lemma elem_of_edges_between a b key :
  key ∈ edges_between edges a b ↔
  ∃ edge, edges !! key = Some edge ∧ producer_node (e_from edge) = Some a ∧ consumer key = b.
Proof.
  unfold edges_between. rewrite list_elem_of_fmap. split.
  - intros ([k e] & -> & Hin). apply list_elem_of_filter in Hin as [[Hp Hc] Hin]. exists e. by rewrite <-elem_of_map_entries.
  - intros (e & He & Hp & Hc). exists (key, e). split; [done|]. apply list_elem_of_filter. by rewrite elem_of_map_entries.
Qed.

Lemma pair_of_edges kind c s p key :
  pair_of edges kind c s = Some p → key ∈ pair_edges p ↔ key ∈ edges_between edges c s ∨ key ∈ edges_between edges s c.
Proof. unfold pair_of. destruct (_ && _); [done|]. intros [= <-]. unfold pair_edges. simpl. by rewrite elem_of_app. Qed.

Lemma pair_of_some kind c s key :
  key ∈ edges_between edges c s ∨ key ∈ edges_between edges s c → is_Some (pair_of edges kind c s).
Proof.
  intros Hk. unfold pair_of. case_bool_decide as H1; [case_bool_decide as H2|]; cbn [andb]; [|by eexists..].
  rewrite H1, H2, !elem_of_nil in Hk. naive_solver.
Qed.

Lemma elem_of_wired_pairs p :
  p ∈ wired_pairs nodes edges ↔
  ∃ kind c s, plays kind Client c ∧ plays kind Server s ∧ pair_of edges kind c s = Some p.
Proof.
  unfold wired_pairs. rewrite list_elem_of_bind. split.
  - intros (kind & Hp & _). apply list_elem_of_bind in Hp as (c & Hp & Hc).
    apply list_elem_of_omap in Hp as (s & Hs & Hp). exists kind, c, s. by rewrite <-!elem_of_role_nodes.
  - intros (kind & c & s & Hc & Hs & Hp). exists kind. split; [|destruct kind; set_solver].
    apply list_elem_of_bind. exists c. split; [|by apply elem_of_role_nodes].
    apply list_elem_of_omap. exists s. split; [by apply elem_of_role_nodes|done].
Qed.

(** The correlated edges are those between counterparts. *)
Lemma correlated_spec key edge p :
  edges !! key = Some edge → producer_node (e_from edge) = Some p →
  key ∈ correlated_edges (derive_pattern_pairs nodes edges).1 ↔ counterparts p (consumer key).
Proof.
  intros He Hp. unfold correlated_edges, derive_pattern_pairs. simpl.
  rewrite elem_of_list_to_set, list_elem_of_join. split.
  - intros (es & Hk & Hes). apply list_elem_of_fmap in Hes as (pair & -> & Hpair).
    rewrite merge_sort_Permutation in Hpair. apply elem_of_wired_pairs in Hpair as (kind & c & s & Hc & Hs & Hpo).
    rewrite (pair_of_edges _ _ _ _ _ Hpo), !elem_of_edges_between in Hk.
    exists kind. destruct Hk as [(e & He' & Hp' & <-)|(e & He' & Hp' & <-)]; simplify_eq; [left|right]; done.
  - intros [kind Hk].
    assert (∃ c s, plays kind Client c ∧ plays kind Server s ∧
      (key ∈ edges_between edges c s ∨ key ∈ edges_between edges s c)) as (c & s & Hc & Hs & Hb).
    { destruct Hk as [[Hc Hs]|[Hs Hc]]; [exists p, (consumer key)|exists (consumer key), p];
        (split; [done|]); (split; [done|]); [left|right]; apply elem_of_edges_between; by exists edge. }
    destruct (pair_of_some kind c s key Hb) as [pair Hpo]. exists (pair_edges pair).
    split; [by apply (pair_of_edges _ _ _ _ _ Hpo)|]. apply list_elem_of_fmap. exists pair. split; [done|].
    rewrite merge_sort_Permutation. apply elem_of_wired_pairs. by exists kind, c, s.
Qed.

(** Pairing reports neither cycles nor types. *)
Lemma pattern_no_cycles d : d ∈ (derive_pattern_pairs nodes edges).2 → cycle_edges d = [] ∧ diagnostic_edge d = None.
Proof.
  unfold derive_pattern_pairs. simpl. intros [Hd|Hd]%elem_of_app; apply list_elem_of_omap in Hd as (x & _ & Hd).
  - unfold partial_diagnostic in Hd. destruct (is_fully_wired x); [done|]. by injection Hd as <-.
  - unfold unpaired_diagnostic in Hd. destruct (gn_pattern x); [|done]. case_decide; [done|]. by injection Hd as <-.
Qed.
End pairing.

(** ** The report *)

Lemma elem_of_check_types nodes edges rules strict d :
  d ∈ check_types nodes edges rules strict ↔
  ∃ key edge expected found, edges !! key = Some edge ∧ edge_status nodes key edge rules = Mismatch expected found ∧
    d = mkDiagnostic (if strict then Error else Warning) (TypeMismatch key expected found).
Proof.
  unfold check_types. rewrite list_elem_of_omap. split.
  - intros ([key edge] & Hin%elem_of_map_entries & Hd). destruct (edge_status nodes key edge rules) as [| |e f] eqn:E; [done..|].
    injection Hd as <-. by exists key, edge, e, f.
  - intros (key & edge & e & f & He & Hs & ->). exists (key, edge). split; [by apply elem_of_map_entries|]. by rewrite Hs.
Qed.

(** When the ends of an edge do not fit. *)
Lemma edge_status_mismatch nodes key edge rules expected found :
  edge_status nodes key edge rules = Mismatch expected found ↔
  ∃ n, nodes !! consumer key = Some n ∧ input_type (ek_input key) n = Some expected ∧
    producer_output_type nodes (e_from edge) = Some found ∧ canonical_form expected ≠ canonical_form found ∧
    ∀ rule, rule ∈ rules →
      ¬ (canonical_form (tr_from rule) = canonical_form found ∧ canonical_form (tr_to rule) = canonical_form expected).
Proof.
  assert (∀ e f, rule_allows rules f e = true ↔ ∃ rule, rule ∈ rules ∧
    canonical_form (tr_from rule) = canonical_form f ∧ canonical_form (tr_to rule) = canonical_form e) as Hra.
  { intros e f. unfold rule_allows, urns_equivalent. rewrite existsb_exists. split.
    - intros (rule & Hin & Hb). bool_to_prop. exists rule. by rewrite list_elem_of_In.
    - intros (rule & Hin & H1 & H2). exists rule. rewrite <-list_elem_of_In. split; [done|].
      by rewrite !bool_decide_eq_true_2. }
  unfold edge_status. destruct (nodes !! consumer key) as [n|]; [|split; [done|by intros (? & ? & _)]].
  destruct (input_type (ek_input key) n) as [e|] eqn:Ei; [|split; [done|naive_solver]].
  destruct (producer_output_type nodes (e_from edge)) as [f|] eqn:Eo; [|split; [done|naive_solver]].
  unfold urns_equivalent at 1. specialize (Hra e f). destruct (rule_allows rules f e).
  - rewrite orb_true_r. split; [done|]. intros (? & [= <-] & Hi & [= <-] & _ & Hr).
    rewrite Ei in Hi. injection Hi as <-. destruct (proj1 Hra eq_refl) as (rule & Hin & Hb). by destruct (Hr rule Hin).
  - rewrite orb_false_r. case_bool_decide as Hc.
    + split; [done|]. intros (? & [= <-] & Hi & [= <-] & Hn & _). rewrite Ei in Hi. by injection Hi as <-.
    + split.
      * intros [= <- <-]. exists n. split_and!; [done..|]. intros rule Hin Hb.
        assert (false = true) by (apply Hra; by exists rule). done.
      * intros (? & [= <-] & Hi & [= <-] & _). rewrite Ei in Hi. by injection Hi as <-.
Qed.

Lemma unconsumed_no_cycles g d : d ∈ unconsumed_output_diagnostics g → cycle_edges d = [] ∧ diagnostic_edge d = None.
Proof.
  unfold unconsumed_output_diagnostics. intros ([id n] & Hd & _)%list_elem_of_bind.
  by apply list_elem_of_fmap in Hd as (o & -> & _).
Qed.

(** What a report on a graph consists of. *)
Lemma diagnostics_cycles g :
  integral g → ∃ ds sccs, diagnostics g = Some ds ∧ components g sccs ∧
    ∀ key, (∃ d, d ∈ ds ∧ key ∈ cycle_edges d) ↔
      ∃ d, d ∈ cycle_diagnostics sccs (g_edges g) (correlated_edges (derive_pattern_pairs (g_nodes g) (g_edges g)).1)
        ∧ key ∈ cycle_edges d.
Proof.
  intros Hg. destruct (compute_sccs_components g Hg) as (sccs & Hs & Hc). unfold diagnostics. rewrite Hs.
  pose proof (pattern_no_cycles (g_nodes g) (g_edges g)) as Hpn.
  destruct (derive_pattern_pairs (g_nodes g) (g_edges g)) as [pairs pds]. eexists _, sccs. split; [done|]. split; [done|].
  intros key. split.
  - intros (d & Hd & Hk). exists d. split; [|done].
    assert (cycle_edges d ≠ []) as Hne by (intros E; rewrite E in Hk; by apply elem_of_nil in Hk).
    rewrite !elem_of_app in Hd. destruct Hd as [Hd|[Hd|[Hd|Hd]]]; [..|done|].
    + apply elem_of_check_types in Hd as (? & ? & ? & ? & _ & _ & ->). done.
    + by destruct Hne; apply Hpn.
    + by destruct Hne; eapply unconsumed_no_cycles.
  - intros (d & Hd & Hk). exists d. split; [|done]. rewrite !elem_of_app. auto.
Qed.

(** C24. Every node is in exactly one reported component, and two nodes share
    one exactly when data can flow from each to the other; the components and
    their members come in order, and the search that finds them always ends. *)
Theorem sccs_are_mutual_reachability (g : DataflowGraph) :
  integral g → ∃ sccs, compute_sccs (g_nodes g) (g_edges g) = Some sccs ∧ components g sccs.
Proof. apply compute_sccs_components. Qed.

(** C25. The report's cycle warnings are exact: an edge is named in one exactly
    when it lies on a directed cycle (its consumer reaches its producer) and
    does not join the client and the server of one service or action. *)
Theorem cycle_report_is_exact (g : DataflowGraph) :
  integral g → ∃ ds, diagnostics g = Some ds ∧
    ∀ key, (∃ d, d ∈ ds ∧ key ∈ cycle_edges d) ↔
      ∃ edge p, g_edges g !! key = Some edge ∧ producer_node (e_from edge) = Some p ∧
        rtc (feeds (g_edges g)) (consumer key) p ∧ ¬ counterparts (g_nodes g) p (consumer key).
Proof.
  intros Hg. destruct (diagnostics_cycles g Hg) as (ds & sccs & Hd & Hc & Hiff). exists ds. split; [done|].
  intros key. rewrite Hiff, cycle_diagnostics_spec. split.
  - intros (Hnc & edge & scc & He & Hscc & [Hin Hp]). cbn in Hin, Hp.
    destruct (producer_node (e_from edge)) as [p|] eqn:Ep; [|done]. exists edge, p.
    rewrite (correlated_spec _ _ _ _ _ He Ep) in Hnc. split_and!; [done..| |done].
    by apply (co_class _ _ Hc scc _ p Hscc Hin).
  - intros (edge & p & He & Ep & Hr & Hnc). rewrite (correlated_spec _ _ _ _ _ He Ep). split; [done|].
    assert (feeds (g_edges g) p (consumer key)) as Hf by (by exists key, edge).
    destruct (integral_feeds g _ _ Hg Hf) as [_ Hcn].
    apply (co_nodes _ _ Hc), list_elem_of_join in Hcn as (scc & Hin & Hscc). exists edge, scc.
    split_and!; [done..|]. split; [done|]. cbn. rewrite Ep. apply (co_class _ _ Hc scc _ p Hscc Hin).
    split; [done|]. by apply rtc_once.
Qed.

(** A type error is reported for an edge exactly when both its ends
    declare a type, the two do not have one canonical form, and no rule of the
    manifest bridges them; in strict mode it is an error, otherwise a warning. *)
Theorem type_report_is_exact (g : DataflowGraph) (ds : list Diagnostic) key expected found :
  diagnostics g = Some ds →
  mkDiagnostic (if g_strict_types g then Error else Warning) (TypeMismatch key expected found) ∈ ds ↔
  ∃ edge n, g_edges g !! key = Some edge ∧ g_nodes g !! consumer key = Some n ∧
    input_type (ek_input key) n = Some expected ∧ producer_output_type (g_nodes g) (e_from edge) = Some found ∧
    canonical_form expected ≠ canonical_form found ∧
    ∀ rule, rule ∈ g_type_rules g →
      ¬ (canonical_form (tr_from rule) = canonical_form found ∧ canonical_form (tr_to rule) = canonical_form expected).
Proof.
  intros Hds. unfold diagnostics in Hds. pose proof (pattern_no_cycles (g_nodes g) (g_edges g)) as Hpn.
  destruct (derive_pattern_pairs (g_nodes g) (g_edges g)) as [pairs pds].
  destruct (compute_sccs _ _) as [sccs|]; [|done]. injection Hds as <-. rewrite !elem_of_app. split.
  - intros [Hd|[Hd|[Hd|Hd]]].
    + apply elem_of_check_types in Hd as (k & edge & e & f & He & Hs & [= -> -> ->]).
      apply edge_status_mismatch in Hs as (n & Hn & Hi & Ho & Hc & Hr). by exists edge, n.
    + by destruct (Hpn _ Hd).
    + apply list_elem_of_omap in Hd as (scc & _ & Hd). unfold scc_diagnostic in Hd.
      destruct (negb _); [done|]. by case_bool_decide.
    + by destruct (unconsumed_no_cycles _ _ Hd).
  - intros (edge & n & He & Hn & Hi & Ho & Hc & Hr). left. apply elem_of_check_types.
    exists key, edge, expected, found. split; [done|]. split; [|done]. apply edge_status_mismatch. by exists n.
Qed.

(** ** From a manifest to a graph *)

Lemma error_if_nil b path kind : error_if b path kind = [] ↔ b = false.
Proof. unfold error_if. by destruct b. Qed.

Lemma mjoin_nil {A} (ls : list (list A)) : mjoin ls = [] ↔ ∀ l, l ∈ ls → l = [].
Proof. by rewrite join_nil, Forall_forall. Qed.

Lemma each_node_nil m f n : each_node m f = [] → n ∈ m_nodes m → ∃ path, f path n = [].
Proof.
  unfold each_node. rewrite mjoin_nil. intros Hall Hn. apply list_elem_of_lookup in Hn as [i Hi].
  eexists. eapply Hall. apply list_elem_of_lookup. exists i. rewrite list_lookup_imap, Hi. done.
Qed.

Lemma check_ids_nil l i seen :
  check_ids l i seen = [] → NoDup (n_id <$> l) ∧ ∀ n, n ∈ l → n_id n ∉ seen.
Proof.
  revert i seen. induction l as [|n l IH]; intros i seen; cbn [check_ids].
  { intros _. split; [constructor|]. by intros n ?%elem_of_nil. }
  intros E. apply app_nil in E as [_ E]. apply app_nil in E as [Hs E].
  apply error_if_nil, bool_decide_eq_false in Hs. destruct (IH _ _ E) as [Hnd Hall]. split.
  - cbn. constructor; [|done]. intros Hin. apply list_elem_of_fmap in Hin as (n' & En & Hin).
    specialize (Hall n' Hin). set_solver.
  - intros n' [->|Hin]%elem_of_cons; [done|]. specialize (Hall n' Hin). set_solver.
Qed.

Lemma index_outputs (l : list Node) (acc : gmap str (list str)) id outs :
  foldl (λ outputs node, <[n_id node := n_outputs node]> outputs) acc l !! id = Some outs →
  acc !! id = Some outs ∨ ∃ n, n ∈ l ∧ n_id n = id ∧ n_outputs n = outs.
Proof.
  revert acc. induction l as [|n l IH]; intros acc; cbn; [by left|].
  intros [Ha|(n' & Hin & Hr)]%IH; [|right; exists n'; split; [by right|done]].
  destruct (decide (n_id n = id)) as [<-|Hne].
  - rewrite lookup_insert_eq in Ha. injection Ha as <-. right. exists n. split; [by left|done].
  - rewrite lookup_insert_ne in Ha by done. by left.
Qed.

(** A reference that resolves names a virtual source or a declared output. *)
Lemma resolve_source m value :
  m_module m = None → resolve value (index_build m) = Ok tt →
  ∃ from, parse_source value = Some from ∧
    match from with
    | Virtual _ => True
    | NodeOutput node output => ∃ n, n ∈ m_nodes m ∧ n_id n = node ∧ output ∈ n_outputs n
    end.
Proof.
  intros Hm. unfold resolve, parse_source, index_build. rewrite Hm. simpl.
  destruct (recognize value) as [r|]; [by exists (Virtual value)|].
  destruct (split_once 47 value) as [[node output]|]; [|done].
  destruct (bool_decide (node = []) || bool_decide (output = [])); [done|]. case_bool_decide; [done|].
  destruct (foldl _ ∅ (m_nodes m) !! node) as [outs|] eqn:E; [|done].
  case_bool_decide as Ho; [|done]. intros _. exists (NodeOutput node output). split; [done|].
  apply index_outputs in E as [E|(n & Hin & Hid & <-)]; [by rewrite lookup_empty in E|]. by exists n.
Qed.

(** What the checks of a valid manifest say about its references. *)
Record referenced (m : Manifest) : Prop := {
  rf_ids : NoDup (n_id <$> m_nodes m);
  rf_inputs : ∀ n name input, n ∈ m_nodes m → n_inputs n !! name = Some input →
    resolve (in_source input) (index_build m) = Ok tt;
  rf_records : ∀ n record value, n ∈ m_nodes m → n_record n = Some record → value ∈ record →
    resolve value (index_build m) = Ok tt;
}.

Lemma check_reference_nil value path index : check_reference value path index = [] → resolve value index = Ok tt.
Proof. unfold check_reference. by destruct (resolve value index) as [[]|]. Qed.

Lemma validate_referenced m : validate m = Ok tt → referenced m.
Proof.
  unfold validate. destruct (violations m) eqn:E; [|done]. intros _. unfold violations in E.
  apply app_nil in E as [Hids E]. apply app_nil in E as [_ E]. apply app_nil in E as [Hin E].
  apply app_nil in E as [Hrec _]. split.
  - by destruct (check_ids_nil _ _ _ Hids).
  - intros n name input Hn Hi. destruct (each_node_nil _ _ _ Hin Hn) as [path Hp]. rewrite mjoin_nil in Hp.
    assert ((name, input) ∈ map_entries (n_inputs n)) as He by (by apply elem_of_map_entries).
    specialize (Hp _ (list_elem_of_fmap_2 _ _ _ He)). cbn in Hp. apply app_nil in Hp as [_ Hp].
    by eapply check_reference_nil.
  - intros n record value Hn Hr Hv. destruct (each_node_nil _ _ _ Hrec Hn) as [path Hp]. rewrite Hr, mjoin_nil in Hp.
    apply list_elem_of_lookup in Hv as [j Hj].
    eapply check_reference_nil, Hp, list_elem_of_lookup. exists j. rewrite list_lookup_imap, Hj. done.
Qed.

(** *** Declaring the nodes *)

Lemma declare_ports_lookup (names : list str) (types : gmap str Urn) (acc : gmap PortName Port) (name : str) :
  is_Some (foldl (λ ports name, <[name := mkPort (types !! name)]> ports) acc names !! name) ↔
  name ∈ names ∨ is_Some (acc !! name).
Proof.
  revert acc. induction names as [|x names IH]; intros acc; cbn; [rewrite elem_of_nil; tauto|].
  rewrite IH, elem_of_cons. destruct (decide (x = name)) as [->|Hne].
  - rewrite lookup_insert_eq. naive_solver.
  - rewrite lookup_insert_ne by done. naive_solver.
Qed.

(** A graph node that stands for a node of the manifest. *)
Record declares (n : Node) (gn : GraphNode) : Prop := {
  dc_id : gn_id gn = n_id n;
  dc_outputs : ∀ o, is_Some (gn_outputs gn !! o) ↔ o ∈ n_outputs n;
  dc_inputs : ∀ i, is_Some (n_inputs n !! i) → is_Some (gn_inputs gn !! i);
}.

Lemma build_declares m n : declares n (build_graph_node m n (n_id n)).1.
Proof.
  split; simpl; [done|..].
  - intros o. unfold declare_ports. rewrite declare_ports_lookup, lookup_empty. split; [|by left].
    intros [?|[? ?]]; done.
  - intros i Hi. unfold declare_ports. rewrite declare_ports_lookup. left. by apply elem_of_map_keys.
Qed.

Lemma declare_nodes_spec m l nodes ds :
  NoDup (n_id <$> l) → (∀ n, n ∈ l → nodes !! n_id n = None) →
  ∃ nodes' ds', declare_nodes m l nodes ds = Ok (nodes', ds') ∧
    (∀ n, n ∈ l → ∃ gn, nodes' !! n_id n = Some gn ∧ declares n gn) ∧
    ∀ id, (∀ n, n ∈ l → n_id n ≠ id) → nodes' !! id = nodes !! id.
Proof.
  revert nodes ds. induction l as [|n l IH]; intros nodes ds Hnd Hfresh; cbn [declare_nodes].
  { exists nodes, ds. split; [done|]. split; [by intros n ?%elem_of_nil|done]. }
  cbn in Hnd. apply NoDup_cons in Hnd as [Hn Hnd].
  rewrite bool_decide_eq_false_2 by (rewrite Hfresh by (by left); by intros [? ?]).
  pose proof (build_declares m n) as Hd. destruct (build_graph_node m n (n_id n)) as [gn ds0]. simpl in Hd.
  destruct (IH (<[n_id n := gn]> nodes) (ds ++ ds0) Hnd) as (nodes' & ds' & E & Hall & Hrest).
  { intros n' Hin. rewrite lookup_insert_ne; [apply Hfresh; by right|]. intros Eid. apply Hn. rewrite Eid.
    apply list_elem_of_fmap. by exists n'. }
  exists nodes', ds'. split; [done|]. split.
  - intros n' [->|Hin]%elem_of_cons; [|by apply Hall]. exists gn. split; [|done].
    rewrite Hrest; [by rewrite lookup_insert_eq|]. intros n'' Hin Eid. apply Hn. rewrite <-Eid. apply list_elem_of_fmap. by exists n''.
  - intros id Hid. rewrite Hrest by (intros n' Hin; apply Hid; by right).
    apply lookup_insert_ne. apply Hid. by left.
Qed.

(** *** Wiring the edges *)

Section wiring.
Context (m : Manifest).
Hypothesis Hmodule : m_module m = None.
Hypothesis Href : referenced m.

(** The nodes of the graph are the manifest's. *)
Record nodes_ok (nodes : Nodes) : Prop := {
  nk_all : ∀ n, n ∈ m_nodes m → ∃ gn, nodes !! n_id n = Some gn ∧ declares n gn;
  nk_only : ∀ id, is_Some (nodes !! id) → ∃ n, n ∈ m_nodes m ∧ n_id n = id;
}.

Definition edges_ok (nodes : Nodes) (edges : Edges) : Prop :=
  ∀ key edge, edges !! key = Some edge → check_edge nodes key edge = Ok tt.

(** An explicit input has become its edge. *)
Definition wired (n : Node) (name : str) (input : Input) (edges : Edges) : Prop :=
  ∃ from, parse_source (in_source input) = Some from ∧
    edges !! mkEdgeKey (n_id n) name
    = Some (mkEdge from (mkQueueConfig (in_queue_size input) (in_queue_policy input) (in_timeout input))).

Lemma valid_edge nodes n gn port from queue :
  nodes_ok nodes → nodes !! n_id n = Some gn → is_Some (gn_inputs gn !! port) →
  match from with
  | Virtual _ => True
  | NodeOutput node output => ∃ n, n ∈ m_nodes m ∧ n_id n = node ∧ output ∈ n_outputs n
  end → check_edge nodes (mkEdgeKey (n_id n) port) (mkEdge from queue) = Ok tt.
Proof.
  intros Hnk Hn [p Hp] Hfrom. unfold check_edge. simpl. rewrite Hn, Hp.
  destruct from as [node output|]; [|done]. destruct Hfrom as (n' & Hin & <- & Ho).
  destruct (nk_all _ Hnk n' Hin) as (gn' & -> & Hd).
  destruct (proj2 (dc_outputs _ _ Hd output) Ho) as [? ->]. done.
Qed.

Lemma add_input_check nodes id port key edge :
  check_edge nodes key edge = Ok tt → check_edge (alter (add_input port) id nodes) key edge = Ok tt.
Proof.
  unfold check_edge. intros H.
  assert (∀ x gn, nodes !! x = Some gn → ∃ gn', alter (add_input port) id nodes !! x = Some gn' ∧
    gn_outputs gn' = gn_outputs gn ∧ ∀ i, is_Some (gn_inputs gn !! i) → is_Some (gn_inputs gn' !! i)) as Hx.
  { intros x gn Hg. destruct (decide (id = x)) as [->|Hne].
    - rewrite lookup_alter_eq, Hg. eexists. split; [done|]. split; [done|]. intros i Hi. simpl.
      destruct (decide (port = i)) as [->|]; [rewrite lookup_insert_eq; eauto|by rewrite lookup_insert_ne].
    - rewrite lookup_alter_ne by done. exists gn. done. }
  destruct (nodes !! consumer key) as [gn|] eqn:Ec; [|done].
  destruct (Hx _ _ Ec) as (gn' & -> & _ & Hi).
  destruct (gn_inputs gn !! ek_input key) eqn:Ei; [|done]. destruct (Hi (ek_input key)) as [? ->]; [by rewrite Ei|].
  destruct (e_from edge) as [node output|]; [|done].
  destruct (nodes !! node) as [pn|] eqn:Ep; [|done]. destruct (Hx _ _ Ep) as (pn' & -> & -> & _). done.
Qed.

Lemma add_input_nodes nodes n port :
  nodes_ok nodes → n ∈ m_nodes m → nodes_ok (alter (add_input port) (n_id n) nodes).
Proof.
  intros Hnk Hn. split.
  - intros n' Hin. destruct (nk_all _ Hnk n' Hin) as (gn & Hg & Hd).
    destruct (decide (n_id n = n_id n')) as [E|Hne].
    + rewrite E, lookup_alter_eq, Hg. eexists. split; [done|]. destruct Hd as [A B C]. split; simpl; [done..|].
      intros i Hi. destruct (decide (port = i)) as [->|]; [rewrite lookup_insert_eq; eauto|].
      rewrite lookup_insert_ne by done. by apply C.
    + rewrite lookup_alter_ne by done. by exists gn.
  - intros id [gn Hg]. destruct (decide (n_id n = id)) as [E|Hne]; [by exists n|].
    rewrite lookup_alter_ne in Hg by done. apply (nk_only _ Hnk). by exists gn.
Qed.

Lemma wire_inputs_spec nodes n l edges :
  nodes_ok nodes → n ∈ m_nodes m → NoDup l.*1 → (∀ name input, (name, input) ∈ l → n_inputs n !! name = Some input) →
  edges_ok nodes edges →
  ∃ edges', wire_inputs n (n_id n) l edges = Ok edges' ∧ edges_ok nodes edges' ∧
    (∀ name input, (name, input) ∈ l → wired n name input edges') ∧
    ∀ key, consumer key ≠ n_id n ∨ ek_input key ∉ l.*1 → edges' !! key = edges !! key.
Proof.
  intros Hnk Hn. revert edges. induction l as [|[name input] l IH]; intros edges Hnd Hl He; cbn [wire_inputs].
  { exists edges. split; [done|]. split; [done|]. split; [by intros ? ? ?%elem_of_nil|done]. }
  cbn in Hnd. apply NoDup_cons in Hnd as [Hname Hnd].
  assert (n_inputs n !! name = Some input) as Hi by (apply Hl; by left).
  destruct (resolve_source m (in_source input) Hmodule) as (from & Hs & Hfrom); [by eapply rf_inputs|].
  rewrite Hs. set (edge := mkEdge from _). set (key0 := mkEdgeKey (n_id n) name).
  destruct (nk_all _ Hnk n Hn) as (gn & Hg & Hd).
  destruct (IH (<[key0 := edge]> edges)) as (edges' & E & Hok & Hw & Hrest).
  - done.
  - intros ? ? Hin. apply Hl. by right.
  - intros key e Hke. destruct (decide (key0 = key)) as [<-|Hne].
    + rewrite lookup_insert_eq in Hke. injection Hke as <-. eapply valid_edge; [done|done| |done].
      apply (dc_inputs _ _ Hd). by exists input.
    + rewrite lookup_insert_ne in Hke by done. by apply He.
  - exists edges'. split; [done|]. split; [done|]. split.
    + intros name' input' [Heq|Hin]%elem_of_cons; [|by apply Hw]. injection Heq as -> ->. exists from. split; [done|].
      rewrite Hrest by (by right). unfold key0. by rewrite lookup_insert_eq.
    + intros key Hkey. rewrite Hrest.
      * apply lookup_insert_ne. intros <-. cbn in Hkey. destruct Hkey as [?|Hk]; [done|]. apply Hk. by left.
      * destruct Hkey as [?|Hk]; [by left|right]. intros Hin. apply Hk. by right.
Qed.

Lemma wire_records_spec n record index nodes edges ds :
  n ∈ m_nodes m → (∀ value, value ∈ record → resolve value (index_build m) = Ok tt) →
  nodes_ok nodes → edges_ok nodes edges →
  ∃ nodes' edges' ds', wire_records n (n_id n) record index nodes edges ds = Ok (nodes', edges', ds') ∧
    nodes_ok nodes' ∧ edges_ok nodes' edges' ∧
    ∀ key, consumer key ≠ n_id n ∨ is_Some (n_inputs n !! ek_input key) → edges' !! key = edges !! key.
Proof.
  intros Hn. revert index nodes edges ds. induction record as [|value record IH]; intros index nodes edges ds Hr Hnk He;
    cbn [wire_records]; [by exists nodes, edges, ds|].
  assert (∀ value, value ∈ record → resolve value (index_build m) = Ok tt) as Hr' by (intros ? ?; apply Hr; by right).
  case_bool_decide as Hc; [by apply IH|].
  destruct (resolve_source m value Hmodule) as (from & -> & Hfrom); [apply Hr; by left|].
  pose proof (add_input_nodes nodes n (record_port index) Hnk Hn) as Hnk'.
  destruct (IH (S index) (alter (add_input (record_port index)) (n_id n) nodes)
    (<[mkEdgeKey (n_id n) (record_port index) := mkEdge from queue_default]> edges) ds)
    as (nodes' & edges' & ds' & E & Hok & Heok & Hrest); [done|done|..].
  - intros key e Hke. destruct (decide (mkEdgeKey (n_id n) (record_port index) = key)) as [<-|Hne].
    + rewrite lookup_insert_eq in Hke. injection Hke as <-.
      destruct (nk_all _ Hnk n Hn) as (gn & Hg & Hd).
      eapply valid_edge; [done|by rewrite lookup_alter_eq, Hg| |done]. simpl. rewrite lookup_insert_eq. eauto.
    + rewrite lookup_insert_ne in Hke by done. by apply add_input_check, He.
  - exists nodes', edges', ds'. split; [done|]. split; [done|]. split; [done|]. intros key Hkey. rewrite Hrest by done.
    apply lookup_insert_ne. intros <-. cbn in Hkey. destruct Hkey as [?|?]; done.
Qed.

Lemma wire_nodes_spec l nodes edges ds :
  (∀ n, n ∈ l → n ∈ m_nodes m) → NoDup (n_id <$> l) → nodes_ok nodes → edges_ok nodes edges →
  ∃ nodes' edges' ds', wire_nodes l nodes edges ds = Ok (nodes', edges', ds') ∧ nodes_ok nodes' ∧ edges_ok nodes' edges' ∧
    (∀ n name input, n ∈ l → n_inputs n !! name = Some input → wired n name input edges') ∧
    ∀ key, consumer key ∉ (n_id <$> l) → edges' !! key = edges !! key.
Proof.
  revert nodes edges ds. induction l as [|n l IH]; intros nodes edges ds Hl Hnd Hnk He; cbn [wire_nodes].
  { exists nodes, edges, ds. split_and!; [done..|by intros ? ? ? ?%elem_of_nil|done]. }
  cbn in Hnd. apply NoDup_cons in Hnd as [Hid Hnd]. assert (n ∈ m_nodes m) as Hn by (apply Hl; by left).
  destruct (wire_inputs_spec nodes n (map_entries (n_inputs n)) edges Hnk Hn) as (edges1 & E1 & He1 & Hw1 & Hr1);
    [apply NoDup_map_keys|by intros ? ? ?%elem_of_map_entries|done|].
  unfold wire_explicit_inputs. rewrite E1. cbn [rbind]. unfold wire_record_sugar.
  destruct (wire_records_spec n (default [] (n_record n)) 0 nodes edges1 ds Hn) as (nodes2 & edges2 & ds2 & E2 & Hnk2 & He2 & Hr2);
    [|done|done|].
  { intros value Hv. destruct (n_record n) as [record|] eqn:Er; [|by apply elem_of_nil in Hv]. by eapply rf_records. }
  assert ((match n_record n with None => Ok (nodes, edges1, ds) | Some record => wire_records n (n_id n) record 0 nodes edges1 ds end)
    = Ok (nodes2, edges2, ds2)) as -> by (by destruct (n_record n)).
  cbn [rbind]. destruct (IH nodes2 edges2 ds2) as (nodes3 & edges3 & ds3 & E3 & Hnk3 & He3 & Hw3 & Hr3); [|done..|].
  { intros ? ?. apply Hl. by right. }
  exists nodes3, edges3, ds3. split_and!; [done..| |].
  - intros n' name input [->|Hin]%elem_of_cons Hi; [|by apply Hw3].
    destruct (Hw1 name input) as (from & Hs & Hlk); [by apply elem_of_map_entries|]. exists from. split; [done|].
    rewrite Hr3 by done. rewrite Hr2 by (right; by exists input). done.
  - intros key Hkey. cbn in Hkey. rewrite not_elem_of_cons in Hkey. destruct Hkey as [Hne Hkey].
    rewrite Hr3, Hr2, Hr1 by (done || by left). done.
Qed.
End wiring.

(** What a manifest whose references resolve builds into. *)
Definition builds (m : Manifest) : Prop :=
  ∃ g ds, from_manifest m = Ok (g, ds) ∧ integral g ∧
    (∀ id, is_Some (g_nodes g !! id) ↔ ∃ n, n ∈ m_nodes m ∧ n_id n = id) ∧
    (∀ n, n ∈ m_nodes m → ∃ gn, g_nodes g !! n_id n = Some gn ∧ declares n gn) ∧
    (∀ n name input, n ∈ m_nodes m → n_inputs n !! name = Some input → wired n name input (g_edges g)).

Lemma referenced_builds (m : Manifest) : referenced m → m_module m = None → builds m.
Proof.
  intros Href Hm.
  destruct (declare_nodes_spec m (m_nodes m) ∅ [] (rf_ids _ Href)) as (nodes & ds & E & Hall & Hrest); [by intros; apply lookup_empty|].
  assert (nodes_ok m nodes) as Hnk.
  { split; [done|]. intros id [gn Hg]. destruct (decide (id ∈ (n_id <$> m_nodes m))) as [Hin|Hout].
    - apply list_elem_of_fmap in Hin as (n & -> & Hin). by exists n.
    - rewrite Hrest in Hg; [by rewrite lookup_empty in Hg|]. intros n Hn <-. apply Hout, list_elem_of_fmap. by exists n. }
  destruct (wire_nodes_spec m Hm Href (m_nodes m) nodes ∅ ds) as (nodes' & edges' & ds' & E' & Hnk' & He' & Hw & _);
    [done|apply Href|done|by intros ? ? ?; rewrite lookup_empty in *|].
  unfold builds, from_manifest. rewrite E. cbn [rbind]. rewrite E'. cbn [rbind]. eexists _, ds'. split; [done|].
  split; [intros key edge He; by apply check_edge_joined, He'|].
  simpl. split; [|split; [apply Hnk'|done]]. intros id. split; [apply Hnk'|].
  intros (n & Hn & <-). destruct (nk_all _ _ Hnk' n Hn) as (gn & -> & _). eauto.
Qed.

(** C26. A manifest that passes validation (and is not itself a module) always
    builds: the graph has one node per declared node, under its id, every
    explicit input is wired to the source it names with its queue settings,
    and every edge joins ports that exist. *)
Theorem validated_manifest_builds (m : Manifest) :
  validate m = Ok tt → m_module m = None →
  ∃ g ds, from_manifest m = Ok (g, ds) ∧ integral g ∧
    (∀ id, is_Some (g_nodes g !! id) ↔ ∃ n, n ∈ m_nodes m ∧ n_id n = id) ∧
    (∀ n, n ∈ m_nodes m → ∃ gn, g_nodes g !! n_id n = Some gn ∧ declares n gn) ∧
    (∀ n name input, n ∈ m_nodes m → n_inputs n !! name = Some input → wired n name input (g_edges g)).
Proof. intros Hv. by apply referenced_builds, validate_referenced. Qed.

(** ** Comparing and editing *)

(** The operations of each kind in a list. *)
Definition removed (ops : list TopologyOp) : list NodeId :=
  omap (λ op, match op with RemoveNode id => Some id | _ => None end) ops.
Definition added (ops : list TopologyOp) : list (NodeId * GraphNode) :=
  omap (λ op, match op with AddNode id node => Some (id, node) | _ => None end) ops.
Definition replaced (ops : list TopologyOp) : list (NodeId * (GraphNode * GraphNode)) :=
  omap (λ op, match op with ReplaceNode id old new => Some (id, (old, new)) | _ => None end) ops.
Definition unwired (ops : list TopologyOp) : list EdgeKey :=
  omap (λ op, match op with RemoveEdge key => Some key | _ => None end) ops.
Definition rewired (ops : list TopologyOp) : list (EdgeKey * Edge) :=
  omap (λ op, match op with AddEdge key edge => Some (key, edge) | _ => None end) ops.

Lemma omap_omap {A B C} (f : A → option B) (g : B → option C) (l : list A) : omap g (omap f l) = omap (λ x, f x ≫= g) l.
Proof. induction l as [|x l IH]; cbn; [done|]. destruct (f x) as [y|]; cbn; [|done]. destruct (g y); by rewrite IH. Qed.

Lemma omap_none {A B} (f : A → option B) (l : list A) : (∀ x, f x = None) → omap f l = [].
Proof. intros Hf. induction l as [|x l IH]; cbn; [done|]. by rewrite Hf. Qed.

Lemma NoDup_omap_key {A B K} (f : A → option B) (ka : A → K) (kb : B → K) (l : list A) :
  (∀ x y, f x = Some y → kb y = ka x) → NoDup (ka <$> l) → NoDup (kb <$> omap f l).
Proof.
  intros Hf. induction l as [|x l IH]; cbn; [done|]. intros [Hx Hl]%NoDup_cons.
  destruct (f x) as [y|] eqn:E; [|by apply IH]. cbn. constructor; [|by apply IH].
  rewrite (Hf _ _ E). intros Hin. apply Hx. apply list_elem_of_fmap in Hin as (y' & Ey & Hin).
  apply list_elem_of_omap in Hin as (x' & Hx' & E'). rewrite Ey, (Hf _ _ E'). apply list_elem_of_fmap. by exists x'.
Qed.

Lemma remove_nodes_spec ops nodes :
  NoDup (removed ops) → (∀ id, id ∈ removed ops → is_Some (nodes !! id)) →
  ∃ nodes', remove_nodes ops nodes = Ok nodes' ∧
    ∀ x, nodes' !! x = if decide (x ∈ removed ops) then None else nodes !! x.
Proof.
  revert nodes. induction ops as [|op ops IH]; intros nodes Hnd Hin; [by exists nodes|].
  destruct op as [id n|id|id o n|k e|k]; try by apply IH. cbn in *.
  apply NoDup_cons in Hnd as [Hid Hnd]. destruct (Hin id) as [n Hn]; [by left|]. rewrite Hn.
  destruct (IH (delete id nodes) Hnd) as (nodes' & -> & Hl).
  { intros id' Hid'. rewrite lookup_delete_ne by (intros ->; done). apply Hin. by right. }
  exists nodes'. split; [done|]. intros x. rewrite Hl. destruct (decide (x = id)) as [->|Hne].
  - rewrite (decide_True _ _ (P := id ∈ id :: _)) by (by left). by rewrite lookup_delete_eq, decide_False.
  - rewrite lookup_delete_ne by done. apply decide_ext. rewrite elem_of_cons. tauto.
Qed.

Lemma add_nodes_spec ops nodes :
  NoDup (added ops).*1 → (∀ id, id ∈ (added ops).*1 → nodes !! id = None) →
  ∃ nodes', add_nodes ops nodes = Ok nodes' ∧
    (∀ id n, (id, n) ∈ added ops → nodes' !! id = Some n) ∧
    ∀ x, x ∉ (added ops).*1 → nodes' !! x = nodes !! x.
Proof.
  revert nodes. induction ops as [|op ops IH]; intros nodes Hnd Hin.
  { exists nodes. split; [done|]. split; [by intros ? ? ?%elem_of_nil|done]. }
  destruct op as [id n|id|id o n|k e|k]; try by apply IH. cbn in *.
  apply NoDup_cons in Hnd as [Hid Hnd]. rewrite (Hin id) by (by left).
  destruct (IH (<[id := n]> nodes) Hnd) as (nodes' & -> & Hl & Hr).
  { intros id' Hid'. rewrite lookup_insert_ne by (intros ->; done). apply Hin. by right. }
  exists nodes'. split; [done|]. split.
  - intros id' n' [E|Hi]%elem_of_cons; [|by apply Hl]. injection E as -> ->. rewrite Hr by done. by rewrite lookup_insert_eq.
  - intros x Hx. rewrite not_elem_of_cons in Hx. destruct Hx as [Hne Hx]. rewrite Hr by done. by rewrite lookup_insert_ne.
Qed.

Lemma replace_nodes_spec ops nodes :
  NoDup (replaced ops).*1 → (∀ id old new, (id, (old, new)) ∈ replaced ops → nodes !! id = Some old) →
  ∃ nodes', replace_nodes ops nodes = Ok nodes' ∧
    (∀ id old new, (id, (old, new)) ∈ replaced ops → nodes' !! id = Some new) ∧
    ∀ x, x ∉ (replaced ops).*1 → nodes' !! x = nodes !! x.
Proof.
  revert nodes. induction ops as [|op ops IH]; intros nodes Hnd Hin.
  { exists nodes. split; [done|]. split; [by intros ? ? ? ?%elem_of_nil|done]. }
  destruct op as [id n|id|id o n|k e|k]; try by apply IH. cbn in *.
  apply NoDup_cons in Hnd as [Hid Hnd]. rewrite (Hin id o n) by (by left). rewrite decide_True by done.
  assert (∀ id' old new, (id', (old, new)) ∈ replaced ops → id' ≠ id) as Hne.
  { intros id' old new Hi ->. apply Hid, list_elem_of_fmap. by exists (id, (old, new)). }
  destruct (IH (<[id := n]> nodes) Hnd) as (nodes' & -> & Hl & Hr).
  { intros id' old new Hi. rewrite lookup_insert_ne by (intros ->; by eapply Hne). eapply Hin. by right. }
  exists nodes'. split; [done|]. split.
  - intros id' old new [E|Hi]%elem_of_cons; [|by eapply Hl]. injection E as -> -> ->. rewrite Hr by done. by rewrite lookup_insert_eq.
  - intros x Hx. rewrite not_elem_of_cons in Hx. destruct Hx as [Hx1 Hx]. rewrite Hr by done. by rewrite lookup_insert_ne.
Qed.

Lemma remove_edges_spec ops edges :
  NoDup (unwired ops) → (∀ key, key ∈ unwired ops → is_Some (edges !! key)) →
  ∃ edges', remove_edges ops edges = Ok edges' ∧
    ∀ x, edges' !! x = if decide (x ∈ unwired ops) then None else edges !! x.
Proof.
  revert edges. induction ops as [|op ops IH]; intros edges Hnd Hin; [by exists edges|].
  destruct op as [id n|id|id o n|k e|k]; try by apply IH. cbn in *.
  apply NoDup_cons in Hnd as [Hid Hnd]. destruct (Hin k) as [n Hn]; [by left|]. rewrite Hn.
  destruct (IH (delete k edges) Hnd) as (edges' & -> & Hl).
  { intros k' Hk'. rewrite lookup_delete_ne by (intros ->; done). apply Hin. by right. }
  exists edges'. split; [done|]. intros x. rewrite Hl. destruct (decide (x = k)) as [->|Hne].
  - rewrite (decide_True _ _ (P := k ∈ k :: _)) by (by left). by rewrite lookup_delete_eq, decide_False.
  - rewrite lookup_delete_ne by done. apply decide_ext. rewrite elem_of_cons. tauto.
Qed.

Lemma add_edges_spec ops edges :
  NoDup (rewired ops).*1 →
  (∀ key edge, (key, edge) ∈ rewired ops → add_edges ops edges !! key = Some edge) ∧
  ∀ x, x ∉ (rewired ops).*1 → add_edges ops edges !! x = edges !! x.
Proof.
  revert edges. induction ops as [|op ops IH]; intros edges Hnd.
  { split; [by intros ? ? ?%elem_of_nil|done]. }
  destruct op as [id n|id|id o n|k e|k]; try by apply IH. cbn in *.
  apply NoDup_cons in Hnd as [Hk Hnd]. destruct (IH (<[k := e]> edges) Hnd) as [Hl Hr]. split.
  - intros k' e' [E|Hi]%elem_of_cons; [|by apply Hl]. injection E as -> ->. rewrite Hr by done. by rewrite lookup_insert_eq.
  - intros x Hx. rewrite not_elem_of_cons in Hx. destruct Hx as [Hne Hx]. rewrite Hr by done. by rewrite lookup_insert_ne.
Qed.

Lemma omap_ext_all {A B} (f g : A → option B) (l : list A) : (∀ x, f x = g x) → omap f l = omap g l.
Proof. intros Hfg. induction l as [|x l IH]; cbn; [done|]. by rewrite Hfg, IH. Qed.

(** Case analysis on what an operation of [diff] depends on. *)
Ltac diff_cases :=
  repeat match goal with
  | |- ∀ _, _ => intros ?
  | p : _ * _ |- _ => destruct p
  | |- context [decide ?P] => destruct (decide P); cbn
  | |- context [match ?x with _ => _ end] => destruct x; cbn
  end; done.

(** Of the four blocks of [diff], the operations of one kind come from one. *)
Ltac diff_block :=
  unfold diff; rewrite !omap_app, !omap_omap;
  repeat match goal with |- context [omap ?f ?l ++ _] => rewrite (omap_none f l) by diff_cases; rewrite app_nil_l end;
  repeat match goal with |- context [_ ++ omap ?f ?l] => rewrite (omap_none f l) by diff_cases; rewrite app_nil_r end;
  apply omap_ext_all; diff_cases.

Section diff.
Context (a b : DataflowGraph).

Lemma diff_removed :
  removed (diff a b) = omap (λ id, match g_nodes b !! id with None => Some id | Some _ => None end) (map_keys (g_nodes a)).
Proof. unfold removed. diff_block. Qed.

Lemma diff_added :
  added (diff a b)
  = omap (λ '(id, node), match g_nodes a !! id with None => Some (id, node) | Some _ => None end) (map_entries (g_nodes b)).
Proof. unfold added. diff_block. Qed.

Lemma diff_replaced :
  replaced (diff a b)
  = omap (λ '(id, node), match g_nodes a !! id with
                         | Some old => if decide (old = node) then None else Some (id, (old, node))
                         | None => None
                         end) (map_entries (g_nodes b)).
Proof. unfold replaced. diff_block. Qed.

Lemma diff_unwired :
  unwired (diff a b) = omap (λ key, match g_edges b !! key with None => Some key | Some _ => None end) (map_keys (g_edges a)).
Proof. unfold unwired. diff_block. Qed.

Lemma diff_rewired :
  rewired (diff a b)
  = omap (λ '(key, edge), if decide (g_edges a !! key = Some edge) then None else Some (key, edge)) (map_entries (g_edges b)).
Proof. unfold rewired. diff_block. Qed.

(** *** Which they are *)

Lemma elem_of_removed id : id ∈ removed (diff a b) ↔ is_Some (g_nodes a !! id) ∧ g_nodes b !! id = None.
Proof.
  rewrite diff_removed, list_elem_of_omap. split.
  - intros (x & Hx & E). destruct (g_nodes b !! x) eqn:Eb; [done|]. injection E as <-. by rewrite <-elem_of_map_keys.
  - intros [Ha Hb]. exists id. rewrite elem_of_map_keys, Hb. done.
Qed.

Lemma elem_of_added id n : (id, n) ∈ added (diff a b) ↔ g_nodes b !! id = Some n ∧ g_nodes a !! id = None.
Proof.
  rewrite diff_added, list_elem_of_omap. split.
  - intros ([x n'] & Hx%elem_of_map_entries & E). destruct (g_nodes a !! x) eqn:Ea; [done|]. by injection E as -> ->.
  - intros [Hb Ha]. exists (id, n). rewrite elem_of_map_entries, Ha. done.
Qed.

Lemma elem_of_replaced id old n :
  (id, (old, n)) ∈ replaced (diff a b) ↔ g_nodes b !! id = Some n ∧ g_nodes a !! id = Some old ∧ old ≠ n.
Proof.
  rewrite diff_replaced, list_elem_of_omap. split.
  - intros ([x n'] & Hx%elem_of_map_entries & E). destruct (g_nodes a !! x) eqn:Ea; [|done]. case_decide; [done|].
    injection E as -> -> ->. done.
  - intros (Hb & Ha & Hne). exists (id, n). rewrite elem_of_map_entries, Ha, decide_False by done. done.
Qed.

Lemma elem_of_unwired key : key ∈ unwired (diff a b) ↔ is_Some (g_edges a !! key) ∧ g_edges b !! key = None.
Proof.
  rewrite diff_unwired, list_elem_of_omap. split.
  - intros (x & Hx & E). destruct (g_edges b !! x) eqn:Eb; [done|]. injection E as <-. by rewrite <-elem_of_map_keys.
  - intros [Ha Hb]. exists key. rewrite elem_of_map_keys, Hb. done.
Qed.

Lemma elem_of_rewired key edge :
  (key, edge) ∈ rewired (diff a b) ↔ g_edges b !! key = Some edge ∧ g_edges a !! key ≠ Some edge.
Proof.
  rewrite diff_rewired, list_elem_of_omap. split.
  - intros ([x e] & Hx%elem_of_map_entries & E). case_decide; [done|]. by injection E as -> ->.
  - intros [Hb Ha]. exists (key, edge). rewrite elem_of_map_entries, decide_False by done. done.
Qed.

Lemma diff_NoDup :
  NoDup (removed (diff a b)) ∧ NoDup (added (diff a b)).*1 ∧ NoDup (replaced (diff a b)).*1 ∧
  NoDup (unwired (diff a b)) ∧ NoDup (rewired (diff a b)).*1.
Proof.
  rewrite diff_removed, diff_added, diff_replaced, diff_unwired, diff_rewired. split_and!.
  - rewrite <-(list_fmap_id (omap _ _)). apply (NoDup_omap_key _ id); [|rewrite list_fmap_id; apply NoDup_map_keys].
    intros x y. destruct (g_nodes b !! x); [done|]. by intros [= ->].
  - apply (NoDup_omap_key _ fst); [|apply NoDup_map_keys]. intros [x n] y. destruct (g_nodes a !! x); [done|]. by intros [= <-].
  - apply (NoDup_omap_key _ fst); [|apply NoDup_map_keys]. intros [x n] y. destruct (g_nodes a !! x); [|done].
    case_decide; [done|]. by intros [= <-].
  - rewrite <-(list_fmap_id (omap _ _)). apply (NoDup_omap_key _ id); [|rewrite list_fmap_id; apply NoDup_map_keys].
    intros x y. destruct (g_edges b !! x); [done|]. by intros [= ->].
  - apply (NoDup_omap_key _ fst); [|apply NoDup_map_keys]. intros [x e] y. case_decide; [done|]. by intros [= <-].
Qed.

Lemma not_in_added id : id ∉ (added (diff a b)).*1 ↔ g_nodes b !! id = None ∨ is_Some (g_nodes a !! id).
Proof.
  rewrite list_elem_of_fmap. split.
  - intros Hn. destruct (g_nodes a !! id) eqn:Ea; [by right; eauto|]. destruct (g_nodes b !! id) as [n|] eqn:Eb; [|by left].
    destruct Hn. exists (id, n). split; [done|]. by apply elem_of_added.
  - intros Hor ([x n] & -> & Hin). apply elem_of_added in Hin as [Hb Ha]. cbn in *. rewrite Hb, Ha in Hor.
    destruct Hor as [?|[? ?]]; done.
Qed.

Lemma not_in_replaced id :
  id ∉ (replaced (diff a b)).*1 → g_nodes a !! id = None ∨ g_nodes b !! id = None ∨ g_nodes a !! id = g_nodes b !! id.
Proof.
  rewrite list_elem_of_fmap. intros Hn. destruct (g_nodes a !! id) as [old|] eqn:Ea; [|by left].
  destruct (g_nodes b !! id) as [n|] eqn:Eb; [|by right; left]. right. right.
  destruct (decide (old = n)) as [->|Hne]; [done|]. destruct Hn. exists (id, (old, n)). split; [done|]. by apply elem_of_replaced.
Qed.

Lemma not_in_rewired key :
  key ∉ (rewired (diff a b)).*1 → g_edges b !! key = None ∨ g_edges a !! key = g_edges b !! key.
Proof.
  rewrite list_elem_of_fmap. intros Hn. destruct (g_edges b !! key) as [e|] eqn:Eb; [|by left]. right.
  destruct (decide (g_edges a !! key = Some e)) as [->|Hne]; [done|]. destruct Hn.
  exists (key, e). split; [done|]. by apply elem_of_rewired.
Qed.
End diff.

(** The five phases turn one node map into the other. *)
Lemma edit_diff_nodes a b :
  ∃ n1 n2, remove_nodes (diff a b) (g_nodes a) = Ok n1 ∧ add_nodes (diff a b) n1 = Ok n2 ∧
    replace_nodes (diff a b) n2 = Ok (g_nodes b).
Proof.
  destruct (diff_NoDup a b) as (Hnr & Hna & Hnp & _ & _).
  destruct (remove_nodes_spec (diff a b) (g_nodes a) Hnr) as (n1 & E1 & H1).
  { intros id Hid. by apply elem_of_removed in Hid as [? _]. }
  assert (∀ x, is_Some (g_nodes b !! x) → n1 !! x = g_nodes a !! x) as H1b.
  { intros x [n Hn]. rewrite H1, decide_False; [done|]. rewrite elem_of_removed, Hn. naive_solver. }
  destruct (add_nodes_spec (diff a b) n1 Hna) as (n2 & E2 & H2 & H2r).
  { intros id Hid. apply list_elem_of_fmap in Hid as ([x n] & -> & Hin). apply elem_of_added in Hin as [Hb Ha].
    cbn. rewrite H1b by eauto. done. }
  assert (∀ x old, g_nodes a !! x = Some old → is_Some (g_nodes b !! x) → n2 !! x = Some old) as H2b.
  { intros x old Ha Hb. rewrite H2r by (apply not_in_added; right; eauto). by rewrite H1b. }
  destruct (replace_nodes_spec (diff a b) n2 Hnp) as (n3 & E3 & H3 & H3r).
  { intros id old n Hin. apply elem_of_replaced in Hin as (Hb & Ha & _). apply H2b; eauto. }
  exists n1, n2. split; [done|]. split; [done|]. rewrite E3. f_equal. apply map_eq. intros x.
  destruct (decide (x ∈ (replaced (diff a b)).*1)) as [Hin|Hout].
  { apply list_elem_of_fmap in Hin as ([y [old n]] & -> & Hin). cbn. rewrite (H3 y old n Hin).
    by apply elem_of_replaced in Hin as (-> & _). }
  rewrite H3r by done. apply not_in_replaced in Hout.
  destruct (g_nodes b !! x) as [n|] eqn:Eb.
  - destruct (g_nodes a !! x) as [old|] eqn:Ea.
    + rewrite (H2b x old) by eauto. naive_solver.
    + apply H2. by apply elem_of_added.
  - rewrite H2r by (apply not_in_added; by left). rewrite H1. case_decide as Hd; [done|].
    destruct (g_nodes a !! x) eqn:Ea; [|done]. destruct Hd. apply elem_of_removed. rewrite Ea. eauto.
Qed.

Lemma edit_diff_edges a b :
  ∃ e1, remove_edges (diff a b) (g_edges a) = Ok e1 ∧ add_edges (diff a b) e1 = g_edges b.
Proof.
  destruct (diff_NoDup a b) as (_ & _ & _ & Hnu & Hnw).
  destruct (remove_edges_spec (diff a b) (g_edges a) Hnu) as (e1 & E1 & H1).
  { intros key Hk. by apply elem_of_unwired in Hk as [? _]. }
  exists e1. split; [done|]. apply map_eq. intros x. destruct (add_edges_spec (diff a b) e1 Hnw) as [H2 H2r].
  destruct (decide (x ∈ (rewired (diff a b)).*1)) as [Hin|Hout].
  { apply list_elem_of_fmap in Hin as ([y e] & -> & Hin). cbn. rewrite (H2 y e Hin). by apply elem_of_rewired in Hin as [-> _]. }
  rewrite H2r by done. rewrite H1. apply not_in_rewired in Hout. case_decide as Hd.
  - by apply elem_of_unwired in Hd as [_ ->].
  - destruct Hout as [Hb|Hab]; [|done]. rewrite Hb. destruct (g_edges a !! x) eqn:Ea; [|done].
    destruct Hd. apply elem_of_unwired. rewrite Ea. eauto.
Qed.

Lemma edit_diff a b :
  g_strict_types a = g_strict_types b → g_type_rules a = g_type_rules b → edit (diff a b) a = Ok b.
Proof.
  intros Hs Hr. destruct (edit_diff_nodes a b) as (n1 & n2 & E1 & E2 & E3).
  destruct (edit_diff_edges a b) as (e1 & E4 & E5). unfold edit.
  rewrite E1. cbn [rbind]. rewrite E2. cbn [rbind]. rewrite E3. cbn [rbind]. rewrite E4. cbn [rbind].
  rewrite E5, Hs, Hr. by destruct b.
Qed.

(** C30. Applying the difference of two graphs with the same type settings
    makes no edit fail: it yields the second graph, or exactly the refusal the
    second graph's own references or newly unsafe types deserve. *)
Theorem diff_then_apply (a b : DataflowGraph) :
  g_strict_types a = g_strict_types b → g_type_rules a = g_type_rules b →
  apply a (diff a b) =
    let? _ := check_referential_integrity b in
    let? _ := check_type_safety a b in
    Ok b.
Proof. intros Hs Hr. unfold apply. by rewrite edit_diff. Qed.

(** The edges of a graph whose types do not fit: both ends declare a type,
    the two have different canonical forms and no rule bridges them. *)
Definition mismatched (g : DataflowGraph) (key : EdgeKey) : Prop :=
  ∃ edge target node output producer expected found,
    g_edges g !! key = Some edge ∧ e_from edge = NodeOutput node output ∧
    g_nodes g !! consumer key = Some target ∧ gn_inputs target !! ek_input key = Some (mkPort (Some expected)) ∧
    g_nodes g !! node = Some producer ∧ gn_outputs producer !! output = Some (mkPort (Some found)) ∧
    canonical_form expected ≠ canonical_form found ∧
    ∀ rule, rule ∈ g_type_rules g →
      ¬ (canonical_form (tr_from rule) = canonical_form found ∧ canonical_form (tr_to rule) = canonical_form expected).

Lemma input_type_declared name n urn : input_type name n = Some urn ↔ gn_inputs n !! name = Some (mkPort (Some urn)).
Proof. unfold input_type. destruct (gn_inputs n !! name) as [[t]|]; naive_solver. Qed.
Lemma output_type_declared name n urn : output_type name n = Some urn ↔ gn_outputs n !! name = Some (mkPort (Some urn)).
Proof. unfold output_type. destruct (gn_outputs n !! name) as [[t]|]; naive_solver. Qed.

(** What the code's test reports. *)
Lemma mismatched_spec g key :
  mismatched g key ↔ ∃ edge e f, g_edges g !! key = Some edge ∧
    edge_status (g_nodes g) key edge (g_type_rules g) = Mismatch e f.
Proof.
  split.
  - intros (edge & target & node & output & producer & e & f & He & Ef & Ht & Hi & Hn & Ho & Hc).
    exists edge, e, f. split; [done|]. apply edge_status_mismatch. exists target.
    rewrite input_type_declared. rewrite Ef. cbn. rewrite Hn. by rewrite output_type_declared.
  - intros (edge & e & f & He & (target & Ht & Hi & Ho & Hc)%edge_status_mismatch).
    destruct (e_from edge) as [node output|] eqn:Ef; [|done]. cbn in Ho. destruct (g_nodes g !! node) as [producer|] eqn:En; [|done].
    exists edge, target, node, output, producer, e, f. rewrite <-input_type_declared, <-output_type_declared. done.
Qed.

Lemma elem_of_mismatched g key :
  key ∈ omap diagnostic_edge (check_types (g_nodes g) (g_edges g) (g_type_rules g) (g_strict_types g)) ↔ mismatched g key.
Proof.
  rewrite list_elem_of_omap, mismatched_spec. split.
  - intros (d & Hd & E). apply elem_of_check_types in Hd as (k & edge & e & f & He & Hs & ->). injection E as ->.
    by exists edge, e, f.
  - intros (edge & e & f & He & Hs). eexists. split; [apply elem_of_check_types; by exists key, edge, e, f|done].
Qed.

(** The value the last pair with a key gives it. *)
Fixpoint last_value {K V} `{EqDecision K} (key : K) (l : list (K * V)) : option V :=
  match l with
  | [] => None
  | (k, v) :: rest => match last_value key rest with Some v => Some v | None => if decide (k = key) then Some v else None end
  end.

Definition or_else {V} (x y : option V) : option V := match x with Some v => Some v | None => y end.

(** What a batch of operations makes of a node and of an edge, read off the
    operations: the last replacement of the node, else the node added under
    the id, else nothing when it is removed, else what was there; the last
    wiring of an input, else nothing when it is removed, else what was there. *)
Definition node_after (ops : list TopologyOp) (nodes : Nodes) (id : NodeId) : option GraphNode :=
  or_else (last_value id ((λ r, (r.1, r.2.2)) <$> replaced ops))
    (or_else (last_value id (added ops)) (if decide (id ∈ removed ops) then None else nodes !! id)).
Definition edge_after (ops : list TopologyOp) (edges : Edges) (key : EdgeKey) : option Edge :=
  or_else (last_value key (rewired ops)) (if decide (key ∈ unwired ops) then None else edges !! key).

Lemma remove_nodes_effect ops nodes nodes' : remove_nodes ops nodes = Ok nodes' →
  ∀ x, nodes' !! x = if decide (x ∈ removed ops) then None else nodes !! x.
Proof.
  revert nodes. induction ops as [|op ops IH]; intros nodes E x; [by injection E as <-|].
  destruct op; try by apply IH. cbn in *. destruct (nodes !! id) eqn:En; [|done]. rewrite (IH _ E).
  destruct (decide (x = id)) as [->|Hne].
  - rewrite lookup_delete_eq, (decide_True (P := id ∈ id :: _)) by (by left). by case_decide.
  - rewrite lookup_delete_ne by done. apply decide_ext. rewrite elem_of_cons. tauto.
Qed.

Lemma remove_edges_effect ops edges edges' : remove_edges ops edges = Ok edges' →
  ∀ x, edges' !! x = if decide (x ∈ unwired ops) then None else edges !! x.
Proof.
  revert edges. induction ops as [|op ops IH]; intros edges E x; [by injection E as <-|].
  destruct op; try by apply IH. cbn in *. destruct (edges !! key) eqn:En; [|done]. rewrite (IH _ E).
  destruct (decide (x = key)) as [->|Hne].
  - rewrite lookup_delete_eq, (decide_True (P := key ∈ key :: _)) by (by left). by case_decide.
  - rewrite lookup_delete_ne by done. apply decide_ext. rewrite elem_of_cons. tauto.
Qed.

(** Writing one more pair in front. *)
Lemma last_value_insert {V} `{Countable K} (k x : K) (v : V) l (m : gmap K V) :
  or_else (last_value x l) (<[k := v]> m !! x) = or_else (last_value x ((k, v) :: l)) (m !! x).
Proof.
  cbn. destruct (last_value x l); [done|]. cbn. destruct (decide (k = x)) as [->|]; [by rewrite lookup_insert_eq|by rewrite lookup_insert_ne].
Qed.

Lemma add_nodes_effect ops nodes nodes' : add_nodes ops nodes = Ok nodes' →
  ∀ x, nodes' !! x = or_else (last_value x (added ops)) (nodes !! x).
Proof.
  revert nodes. induction ops as [|op ops IH]; intros nodes E x; [by injection E as <-|].
  destruct op; try by apply IH. cbn [added omap list_omap] in *. cbn in E. destruct (nodes !! id); [done|].
  rewrite (IH _ E). apply last_value_insert.
Qed.

Lemma replace_nodes_effect ops nodes nodes' : replace_nodes ops nodes = Ok nodes' →
  ∀ x, nodes' !! x = or_else (last_value x ((λ r, (r.1, r.2.2)) <$> replaced ops)) (nodes !! x).
Proof.
  revert nodes. induction ops as [|op ops IH]; intros nodes E x; [by injection E as <-|].
  destruct op; try by apply IH. cbn in E. destruct (nodes !! id); [|done]. destruct (decide _); [|done].
  rewrite (IH _ E). apply last_value_insert.
Qed.

Lemma add_edges_effect ops edges x : add_edges ops edges !! x = or_else (last_value x (rewired ops)) (edges !! x).
Proof.
  revert edges. induction ops as [|op ops IH]; intros edges; [done|].
  destruct op; try by apply IH. cbn [add_edges]. rewrite IH. apply last_value_insert.
Qed.

Lemma edit_effect ops g g' : edit ops g = Ok g' →
  (∀ id, g_nodes g' !! id = node_after ops (g_nodes g) id) ∧ (∀ key, g_edges g' !! key = edge_after ops (g_edges g) key).
Proof.
  unfold edit. destruct (remove_nodes _ _) as [n1|] eqn:E1; [|done]. cbn [rbind].
  destruct (add_nodes _ _) as [n2|] eqn:E2; [|done]. cbn [rbind]. destruct (replace_nodes _ _) as [n3|] eqn:E3; [|done]. cbn [rbind].
  destruct (remove_edges _ _) as [e1|] eqn:E4; [|done]. cbn [rbind]. intros [= <-]. cbn [g_nodes g_edges]. split.
  - intros x. unfold node_after. by rewrite (replace_nodes_effect _ _ _ E3), (add_nodes_effect _ _ _ E2), (remove_nodes_effect _ _ _ E1).
  - intros key. unfold edge_after. by rewrite add_edges_effect, (remove_edges_effect _ _ _ E4).
Qed.

Lemma edit_settings ops g g' :
  edit ops g = Ok g' → g_strict_types g' = g_strict_types g ∧ g_type_rules g' = g_type_rules g.
Proof.
  unfold edit. destruct (remove_nodes _ _) as [n1|]; [|done]. cbn [rbind].
  destruct (add_nodes _ _) as [n2|]; [|done]. cbn [rbind]. destruct (replace_nodes _ _) as [n3|]; [|done]. cbn [rbind].
  destruct (remove_edges _ _) as [e1|]; [|done]. cbn [rbind]. by intros [= <-].
Qed.

Lemma no_new_violations a g :
  new_violations a g = [] → g_strict_types g = true → ∀ key, mismatched g key → mismatched a key.
Proof.
  intros Hv Hst key Hm. apply elem_of_mismatched. apply elem_of_mismatched in Hm.
  apply list_elem_of_omap in Hm as (d & Hd & Ek). apply dec_stable. intros Hn.
  assert (d ∈ new_violations a g) as Hin; [|rewrite Hv in Hin; by apply elem_of_nil in Hin].
  unfold new_violations. apply list_elem_of_filter. split; [|done].
  apply elem_of_check_types in Hd as (k & edge & e & f & _ & _ & ->). rewrite Hst. split; [done|].
  cbn in *. injection Ek as ->. by rewrite elem_of_list_to_set.
Qed.

(** C31. [apply] either refuses a batch of operations or leaves a graph with
    exactly the nodes and edges the operations name ([node_after],
    [edge_after]), all of whose references resolve (each edge's consumer
    declares the input, each producer the output), with the settings it had,
    and in strict mode without an ill-typed edge (declared types that differ
    and no rule between them) that was not one before. *)
Theorem apply_keeps_the_graph_sound (g g' : DataflowGraph) (ops : list TopologyOp) :
  apply g ops = Ok g' →
  (∀ id, g_nodes g' !! id = node_after ops (g_nodes g) id) ∧
  (∀ key, g_edges g' !! key = edge_after ops (g_edges g) key) ∧
  integral g' ∧ g_strict_types g' = g_strict_types g ∧ g_type_rules g' = g_type_rules g ∧
  (g_strict_types g = true → ∀ key, mismatched g' key → mismatched g key).
Proof.
  unfold apply. destruct (edit ops g) as [c|] eqn:Ee; [|done]. cbn [rbind].
  destruct (edit_effect _ _ _ Ee) as [Hn He]. apply edit_settings in Ee as [Es Er].
  destruct (check_referential_integrity c) as [[]|] eqn:Ei; [|done]. cbn [rbind]. apply integral_spec in Ei.
  unfold check_type_safety. rewrite Es. destruct (g_strict_types g) eqn:Hst; cbn [negb].
  - destruct (new_violations g c) eqn:Ev; [|done]. cbn [rbind]. intros [= <-].
    split_and!; [done..|]. intros _. apply no_new_violations; [done|]. by rewrite Es.
  - cbn [rbind]. intros [= <-]. split_and!; [done..|]. done.
Qed.

(** ** Placement *)

(** A graph stores its nodes under their own ids, as [from_manifest] does. *)
Definition keyed_by_id (g : DataflowGraph) : Prop := ∀ id n, g_nodes g !! id = Some n → gn_id n = id.

(** The processes of one machine among a list of nodes. *)
Definition spawned_on (machine : MachineId) (l : list GraphNode) : list NodeId :=
  gn_id <$> filter (λ n, gn_machine n = machine ∧ gn_spawns_process n = true) l.

Lemma place_nodes_spec l machine spawns :
  foldl place_node ∅ l !! machine = Some spawns ↔
  (∃ n, n ∈ l ∧ gn_machine n = machine) ∧ spawns = spawned_on machine l.
Proof.
  revert spawns. induction l as [|n l IH] using rev_ind; intros spawns.
  { cbn. rewrite lookup_empty. split; [done|]. intros [(n & Hn & _) _]. by apply elem_of_nil in Hn. }
  rewrite foldl_app. cbn [foldl]. unfold place_node at 1. unfold spawned_on in *. rewrite filter_app, fmap_app.
  destruct (decide (gn_machine n = machine)) as [Em|Hne].
  - rewrite Em, lookup_insert_eq.
    assert (default [] (foldl place_node ∅ l !! machine)
      = gn_id <$> filter (λ n, gn_machine n = machine ∧ gn_spawns_process n = true) l) as ->.
    { destruct (foldl place_node ∅ l !! machine) as [s|] eqn:E; cbn; [by apply IH|].
      destruct (filter _ l) as [|n' r] eqn:Ef; [done|]. exfalso.
      assert (n' ∈ filter (λ n, gn_machine n = machine ∧ gn_spawns_process n = true) l) as Hin by (rewrite Ef; by left).
      apply list_elem_of_filter in Hin as [[Hm _] Hin].
      assert (None = Some (gn_id <$> n' :: r)) as Hbad; [|done]. apply IH. split; [by exists n'|done]. }
    rewrite (filter_cons _ n). rewrite filter_nil. destruct (gn_spawns_process n) eqn:Es.
    + rewrite decide_True by done. cbn. split.
      * intros [= <-]. split; [exists n; split; [apply elem_of_app; right; by left|done]|done].
      * by intros [_ ->].
    + rewrite decide_False by naive_solver. cbn. rewrite app_nil_r. split.
      * intros [= <-]. split; [exists n; split; [apply elem_of_app; right; by left|done]|done].
      * by intros [_ ->].
  - rewrite lookup_insert_ne by done. rewrite IH. rewrite (filter_cons_False _ n) by naive_solver. cbn.
    rewrite app_nil_r. apply and_iff_compat_r. split.
    + intros (n' & Hin & Hm). exists n'. split; [by apply elem_of_app; left|done].
    + intros (n' & [Hin|Hin]%elem_of_app & Hm); [by exists n'|]. apply list_elem_of_singleton in Hin as ->. done.
Qed.

Lemma elem_of_machines g plan :
  plan ∈ pl_machines (plan_placement g) ↔
  (∃ id n, g_nodes g !! id = Some n ∧ gn_machine n = mp_machine plan) ∧
  mp_spawns plan = spawned_on (mp_machine plan) (map_values (g_nodes g)).
Proof.
  unfold plan_placement. cbn [pl_machines]. rewrite list_elem_of_fmap. split.
  - intros ([m s] & -> & Hin%elem_of_map_entries). apply place_nodes_spec in Hin as [(n & Hn & Hm) ->]. cbn.
    apply elem_of_map_values in Hn as [id Hn]. split; [by exists id, n|done].
  - intros [(id & n & Hn & Hm) Hs]. exists (mp_machine plan, mp_spawns plan). split; [by destruct plan|].
    apply elem_of_map_entries, place_nodes_spec. split; [|done]. exists n. split; [apply elem_of_map_values; by exists id|done].
Qed.

Lemma elem_of_spawned g machine id :
  keyed_by_id g → id ∈ spawned_on machine (map_values (g_nodes g)) ↔
    ∃ n, g_nodes g !! id = Some n ∧ gn_machine n = machine ∧ gn_spawns_process n = true.
Proof.
  intros Hk. unfold spawned_on. rewrite list_elem_of_fmap. split.
  - intros (n & -> & Hin). apply list_elem_of_filter in Hin as [Hc Hin]. apply elem_of_map_values in Hin as [id Hn].
    rewrite (Hk _ _ Hn). by exists n.
  - intros (n & Hn & Hc). exists n. rewrite (Hk _ _ Hn). split; [done|]. apply list_elem_of_filter. split; [done|].
    apply elem_of_map_values. by exists id.
Qed.

(** The plan has one entry for each machine that hosts a node; a machine's
    entry lists exactly the nodes placed there that need a process; and the
    routes are exactly the edges between nodes on different machines. *)
Theorem placement_is_exact (g : DataflowGraph) :
  keyed_by_id g → let p := plan_placement g in
  NoDup (mp_machine <$> pl_machines p) ∧
  (∀ plan, plan ∈ pl_machines p → ∀ id, id ∈ mp_spawns plan ↔
     ∃ n, g_nodes g !! id = Some n ∧ gn_machine n = mp_machine plan ∧ gn_spawns_process n = true) ∧
  (∀ id n, g_nodes g !! id = Some n → ∃ plan, plan ∈ pl_machines p ∧ mp_machine plan = gn_machine n) ∧
  (∀ r, r ∈ cross_machine_routes p ↔ ∃ edge a na nb,
     g_edges g !! cr_edge r = Some edge ∧ producer_node (e_from edge) = Some a ∧
     g_nodes g !! a = Some na ∧ g_nodes g !! consumer (cr_edge r) = Some nb ∧
     gn_machine na ≠ gn_machine nb ∧ producer_machine r = gn_machine na ∧ consumer_machine r = gn_machine nb).
Proof.
  intros Hk. cbv zeta. split_and!.
  - unfold plan_placement. cbn [pl_machines]. rewrite <-list_fmap_compose.
    rewrite (list_fmap_ext _ fst); [apply NoDup_map_keys|]. by intros i [m s].
  - intros plan Hp id. apply elem_of_machines in Hp as [_ ->]. by apply elem_of_spawned.
  - intros id n Hn. exists (mkMachinePlan (gn_machine n) (spawned_on (gn_machine n) (map_values (g_nodes g)))).
    split; [|done]. apply elem_of_machines. split; [by exists id, n|done].
  - intros r. unfold plan_placement. cbn [cross_machine_routes]. rewrite list_elem_of_omap. split.
    + intros ([key edge] & He%elem_of_map_entries & E). unfold route_of in E.
      destruct (producer_node (e_from edge)) as [a|] eqn:Ea; [|done].
      destruct (g_nodes g !! a) as [na|] eqn:Ena; [|done].
      destruct (g_nodes g !! consumer key) as [nb|] eqn:Enb; [|done]. case_decide; [done|]. injection E as <-. cbn.
      by exists edge, a, na, nb.
    + intros (edge & a & na & nb & He & Ea & Ena & Enb & Hne & Ep & Ec). exists (cr_edge r, edge).
      split; [by apply elem_of_map_entries|]. unfold route_of. rewrite Ea, Ena, Enb, decide_False by done.
      rewrite <-Ep, <-Ec. by destruct r.
Qed.
