(* ===== verification/GraphScenarios.v ===== *)
(** * A manifest, its graph and its edits

    The theorems of [GraphLaws.v] on concrete manifests and graphs, and what
    editing a graph lets through ([foreign_id_is_spawned]). *)

From stdpp Require Import base tactics list gmap strings numbers sorting relations.
From S2P Require Import Prelude Text Utf8 Ordered Tarjan TypeUrn Manifest Graph GraphLaws.

Open Scope N_scope.

(** ** A small pipeline *)

Definition inputs_of (l : list (str * str)) : gmap str Input :=
  list_to_map ((λ p, (p.1, from_source p.2)) <$> l).

Definition pipeline_node (id path : str) (inputs : list (str * str)) (outputs : list str) (types_in types_out : list (str * Urn))
    (machine : option str) : Node :=
  mkNode id (Some path) None None None None None None None None None (inputs_of inputs) outputs
    (list_to_map types_in) (list_to_map types_out) None None None
    (Some (mkDeploy machine ∅ None)) None None ∅.

Definition recorder (id : str) (record : list str) : Node :=
  mkNode id None None None None None None None None None (Some record) ∅ [] ∅ ∅ None None None None None None ∅.

(** A camera, a detector on another machine, a planner that feeds back to the
    detector, and a recorder. *)
Definition demo : Manifest :=
  mkManifest
    [ pipeline_node (lit "camera") (lit "./camera") [(lit "tick", lit "astrs/timer/hz/50")] [lit "frames"]
        [] [(lit "frames", lit "std/media/v1/Image[width=640,pixel=rgb8]")] None;
      pipeline_node (lit "detector") (lit "./detector")
        [(lit "frames", lit "camera/frames"); (lit "hints", lit "planner/hints")] [lit "boxes"]
        [(lit "frames", lit "std/media/v1/Image[pixel=rgb8,width=640]"); (lit "hints", lit "std/core/v1/Float32")]
        [] (Some (lit "robot-1"));
      pipeline_node (lit "planner") (lit "dynamic") [(lit "boxes", lit "detector/boxes")] [lit "hints"]
        [] [(lit "hints", lit "std/core/v1/Int32")] None;
      recorder (lit "recorder") [lit "camera/frames"; lit "detector/boxes"] ]
    true [] None None ∅.

Definition demo_graph : DataflowGraph :=
  match from_manifest demo with Ok (g, _) => g | Err _ => graph_new false [] end.

Example demo_counts : (size (g_nodes demo_graph), size (g_edges demo_graph)) = (4, 6)%nat.
Proof. vm_compute. reflexivity. Qed.

Example demo_valid : validate demo = Ok tt.
Proof. vm_compute. reflexivity. Qed.

Lemma demo_integral : integral demo_graph.
Proof. apply integral_spec. vm_compute. reflexivity. Qed.

Lemma demo_no_patterns id n : g_nodes demo_graph !! id = Some n → gn_pattern n = None.
Proof.
  assert (bool_decide (map_Forall (λ _ n, gn_pattern n = None) (g_nodes demo_graph)) = true) as H by (vm_compute; reflexivity).
  apply bool_decide_eq_true in H. apply H.
Qed.

Lemma demo_keyed : keyed_by_id demo_graph.
Proof.
  assert (bool_decide (map_Forall (λ id n, gn_id n = id) (g_nodes demo_graph)) = true) as H by (vm_compute; reflexivity).
  apply bool_decide_eq_true in H. exact H.
Qed.

(** What the four analyses say of it. *)
Example demo_sccs :
  compute_sccs (g_nodes demo_graph) (g_edges demo_graph)
  = Some [[lit "camera"]; [lit "detector"; lit "planner"]; [lit "recorder"]].
Proof. vm_compute. reflexivity. Qed.

Example demo_routes :
  cr_edge <$> cross_machine_routes (plan_placement demo_graph)
  = [mkEdgeKey (lit "detector") (lit "frames"); mkEdgeKey (lit "detector") (lit "hints");
     mkEdgeKey (lit "planner") (lit "boxes"); mkEdgeKey (lit "recorder") (lit "_record/1")].
Proof. vm_compute. reflexivity. Qed.

(** *** Witnesses *)

Definition hints_key : EdgeKey := mkEdgeKey (lit "detector") (lit "hints").

Lemma sccs_are_mutual_reachability_witness :
  ∃ sccs, compute_sccs (g_nodes demo_graph) (g_edges demo_graph) = Some sccs ∧ components demo_graph sccs.
Proof. exact (sccs_are_mutual_reachability demo_graph demo_integral). Defined.

Lemma demo_feedback : rtc (feeds (g_edges demo_graph)) (lit "detector") (lit "planner").
Proof.
  apply rtc_once. exists (mkEdgeKey (lit "planner") (lit "boxes")), (mkEdge (NodeOutput (lit "detector") (lit "boxes")) queue_default).
  vm_compute. done.
Qed.

Lemma cycle_report_is_exact_witness :
  ∃ ds, diagnostics demo_graph = Some ds ∧ ∃ d, d ∈ ds ∧ hints_key ∈ cycle_edges d.
Proof.
  destruct (cycle_report_is_exact demo_graph demo_integral) as (ds & Hds & Hiff). exists ds. split; [exact Hds|].
  apply Hiff. exists (mkEdge (NodeOutput (lit "planner") (lit "hints")) queue_default), (lit "planner").
  split; [vm_compute; reflexivity|]. split; [reflexivity|]. split; [exact demo_feedback|].
  intros [kind [[(id & n & p & Hn & _ & Hp & _) _]|[(id & n & p & Hn & _ & Hp & _) _]]];
    rewrite (demo_no_patterns _ _ Hn) in Hp; discriminate Hp.
Defined.

Lemma type_report_is_exact_witness :
  ∃ ds, diagnostics demo_graph = Some ds ∧
    mkDiagnostic Error (TypeMismatch hints_key (lit "std/core/v1/Float32") (lit "std/core/v1/Int32")) ∈ ds.
Proof.
  destruct (diagnostics demo_graph) as [ds|] eqn:E; [|vm_compute in E; discriminate E]. exists ds. split; [reflexivity|].
  apply (type_report_is_exact demo_graph ds hints_key (lit "std/core/v1/Float32") (lit "std/core/v1/Int32") E).
  destruct (g_nodes demo_graph !! lit "detector") as [n|] eqn:En; [|vm_compute in En; discriminate En].
  exists (mkEdge (NodeOutput (lit "planner") (lit "hints")) queue_default), n. split; [vm_compute; reflexivity|].
  split; [exact En|]. split.
  - assert ((g_nodes demo_graph !! lit "detector") ≫= input_type (lit "hints") = Some (lit "std/core/v1/Float32")) as H
      by (vm_compute; reflexivity).
    rewrite En in H. exact H.
  - split; [vm_compute; reflexivity|]. split; [vm_compute; discriminate|]. intros rule Hr.
    assert (g_type_rules demo_graph = []) as Er by (vm_compute; reflexivity). rewrite Er in Hr.
    apply elem_of_nil in Hr. destruct Hr.
Defined.

Lemma validated_manifest_builds_witness :
  ∃ g ds, from_manifest demo = Ok (g, ds) ∧ integral g.
Proof.
  destruct (validated_manifest_builds demo ltac:(vm_compute; reflexivity) eq_refl) as (g & ds & E & Hg & _).
  exists g, ds. split; [exact E|exact Hg].
Defined.

Lemma placement_is_exact_witness :
  NoDup (mp_machine <$> pl_machines (plan_placement demo_graph)).
Proof. exact (proj1 (placement_is_exact demo_graph demo_keyed)). Defined.

(** The pipeline without its planner. *)
Definition demo_smaller : DataflowGraph :=
  mkGraph (delete (lit "planner") (g_nodes demo_graph))
    (delete (mkEdgeKey (lit "planner") (lit "boxes")) (delete hints_key (g_edges demo_graph))) true [].

(** Removing it succeeds; bringing it back is refused, since its hints do not
    have the type the detector declares. *)
Lemma diff_then_apply_witness :
  apply demo_graph (diff demo_graph demo_smaller) = Ok demo_smaller ∧
  apply demo_smaller (diff demo_smaller demo_graph)
  = Err (TypeUnsafe 1 [mkDiagnostic Error (TypeMismatch hints_key (lit "std/core/v1/Float32") (lit "std/core/v1/Int32"))]).
Proof.
  rewrite (diff_then_apply demo_graph demo_smaller ltac:(vm_compute; reflexivity) ltac:(vm_compute; reflexivity)).
  rewrite (diff_then_apply demo_smaller demo_graph ltac:(vm_compute; reflexivity) ltac:(vm_compute; reflexivity)).
  split; vm_compute; reflexivity.
Defined.

Lemma apply_keeps_the_graph_sound_witness :
  let ops := diff demo_graph demo_smaller in
  apply demo_graph ops = Ok demo_smaller ∧ (∀ id, g_nodes demo_smaller !! id = node_after ops (g_nodes demo_graph) id) ∧
  integral demo_smaller.
Proof.
  intros ops. assert (apply demo_graph ops = Ok demo_smaller) as E by (vm_compute; reflexivity).
  destruct (apply_keeps_the_graph_sound demo_graph demo_smaller ops E) as (Hn & _ & Hi & _).
  split; [exact E|]. split; [exact Hn|exact Hi].
Defined.

(** ** A node stored under another id

    [apply] does not compare the id an added node is stored under with the
    node's own: the plan then spawns an id the graph does not have. *)

Definition foreign : GraphNode := mkGraphNode (lit "b") ∅ ∅ None CoordinatorLocal true.

Lemma foreign_id_is_spawned :
  ∃ g, apply (graph_new true []) [AddNode (lit "a") foreign] = Ok g ∧ g_nodes g !! lit "b" = None ∧
    mp_spawns <$> pl_machines (plan_placement g) = [[lit "b"]].
Proof. eexists. split; [vm_compute; reflexivity|]. split; vm_compute; reflexivity. Qed.

(** ** Removing a node and its edges in one batch

    The node goes first; the batch is accepted because the references are
    only checked at the end. *)

Lemma node_removed_before_its_edges :
  edit [RemoveEdge (mkEdgeKey (lit "planner") (lit "boxes")); RemoveEdge hints_key; RemoveNode (lit "planner")] demo_graph
  = edit [RemoveNode (lit "planner"); RemoveEdge (mkEdgeKey (lit "planner") (lit "boxes")); RemoveEdge hints_key] demo_graph.
Proof. vm_compute. reflexivity. Qed.
