(* ===== verification/Expand.v ===== *)
(** * Modules of a manifest

    Models [src/crates/astrs-manifest/src/expand]: the paths and references
    of [rewrite.rs], the loaders of [loader.rs], the recursive engine of
    [scope.rs] and the entry points of [mod.rs] that replace every node with a
    [module:] field by the nodes of the manifest it names, renamed and
    rewired.  Reading YAML ([Manifest::from_yaml_str]) is an argument.

    A path is the list of its components on a Unix system: the standard
    library compares and hashes paths by them.  The maps from the index of a
    node to what it expands to are lists aligned with the nodes.  The
    recursion takes fuel, one more than the depth limit; [ExpandLaws.v] shows
    that it is enough. *)

From stdpp Require Import base tactics list gmap strings numbers sorting.
From S2P Require Import Prelude Text Utf8 Ordered TypeUrn Manifest.

Open Scope N_scope.

(** ** [rewrite.rs] and [std::path] *)

Inductive Component : Set := RootDir | CurDir | ParentDir | NormalDir (name : str).

#[global] Instance Component_eq_dec : EqDecision Component.
Proof. solve_decision. Defined.

Definition PathBuf : Set := list Component.

Definition segment (s : str) : option Component :=
  if bool_decide (s = []) || bool_decide (s = lit ".") then None
  else if bool_decide (s = lit "..") then Some ParentDir else Some (NormalDir s).

(** [Path::components] *)
Definition components (s : str) : PathBuf :=
  let segments := split 47 s in
  match segments with
  | first :: _ :: _ => if bool_decide (first = []) then [RootDir] else if bool_decide (first = lit ".") then [CurDir] else []
  | [first] => if bool_decide (first = lit ".") then [CurDir] else []
  | [] => []
  end ++ omap segment segments.

(** [Path::join] *)
Definition join (base path : PathBuf) : PathBuf :=
  match path with
  | RootDir :: _ => path
  | CurDir :: rest => if bool_decide (base = []) then path else base ++ rest
  | _ => base ++ path
  end.

(** [Path::parent] *)
Definition parent (p : PathBuf) : option PathBuf :=
  match last p with
  | Some RootDir | None => None
  | Some _ => Some (take (length p - 1) p)
  end.

Definition component_text (c : Component) : str :=
  match c with RootDir => [] | CurDir => lit "." | ParentDir => lit ".." | NormalDir name => name end.

(** [path.display()] *)
Definition display (p : PathBuf) : str :=
  match p with
  | [RootDir] => lit "/"
  | [] => []
  | c :: rest => foldl (λ acc c, acc ++ [47] ++ component_text c) (component_text c) rest
  end.

Definition normalize_step (out : PathBuf) (component : Component) : PathBuf :=
  match component with
  | CurDir => out
  | ParentDir =>
      match last out with
      | Some (NormalDir _) => take (length out - 1) out
      | Some RootDir => out
      | _ => out ++ [component]
      end
  | _ => out ++ [component]
  end.

Definition normalize_path (path : PathBuf) : PathBuf := foldl normalize_step [] path.

Definition resolve_module_path (base_dir : PathBuf) (module_field : str) : PathBuf :=
  normalize_path (join base_dir (components module_field)).

Definition split_reference (source : str) : option (str * str) :=
  match split_once 47 source with
  | Some (node_id, rest) => if bool_decide (node_id = []) || bool_decide (rest = []) then None else Some (node_id, rest)
  | None => None
  end.

Definition rewrite_reference_node_id (rename : str → option str) (source : str) : str :=
  match recognize source with
  | Some _ => source
  | None =>
      match split_reference source with
      | None => source
      | Some (node_id, rest) =>
          match rename node_id with
          | Some new_id => new_id ++ [47] ++ rest
          | None => source
          end
      end
  end.

(** ** [error.rs] *)

Inductive ExpandError (IoError ParseError : Type) : Type :=
| ExpandDuplicateNodeId (location id : str)
| ExpandIo (path : PathBuf) (source : IoError)
| ExpandParse (path : PathBuf) (source : ParseError)
| NotAModule (path : PathBuf)
| Cycle (chain : list PathBuf)
| DepthExceeded (max_depth : nat)
| ExpandUnknownModuleInput (host_node port : str)
| ExpandUnknownModuleOutput (host_node port : str)
| UnsuppliedModuleInput (location port : str)
| MissingModuleOutputProducer (host_node port : str)
| AmbiguousModuleOutput (host_node port : str) (producers : list str).
Arguments ExpandDuplicateNodeId {_ _}.
Arguments ExpandIo {_ _}.
Arguments ExpandParse {_ _}.
Arguments NotAModule {_ _}.
Arguments Cycle {_ _}.
Arguments DepthExceeded {_ _}.
Arguments ExpandUnknownModuleInput {_ _}.
Arguments ExpandUnknownModuleOutput {_ _}.
Arguments UnsuppliedModuleInput {_ _}.
Arguments MissingModuleOutputProducer {_ _}.
Arguments AmbiguousModuleOutput {_ _}.

(** ** [loader.rs] *)

(** The trait [ModuleLoader]. *)
Class ModuleLoader (IoError : Type) := { read_to_string : PathBuf → result IoError str }.

(** [MemoryModuleLoader]: the files by their paths, a later one replacing an
    earlier one. *)
Record MemoryModuleLoader := mkMemoryLoader { ml_files : list (PathBuf * str) }.

Definition loader_new : MemoryModuleLoader := mkMemoryLoader [].

Definition loader_insert (path : PathBuf) (contents : str) (l : MemoryModuleLoader) : MemoryModuleLoader :=
  mkMemoryLoader ((path, contents) :: ml_files l).

Definition loader_get (path : PathBuf) (l : MemoryModuleLoader) : result str str :=
  match list_find (λ file, file.1 = path) (ml_files l) with
  | Some (_, file) => Ok file.2
  | None => Err (lit "no such module file registered: `" ++ display path ++ lit "`")
  end.

Definition memory_loader (l : MemoryModuleLoader) : ModuleLoader str := {| read_to_string path := loader_get path l |}.

(** ** [scope.rs] *)

Record RecursionState := mkState { st_stack : list PathBuf; st_type_rules : list TypeRule }.

Record Boundary := mkBoundary { bo_inputs : gmap str str; bo_input_types : gmap str Urn }.

Definition boundary_default : Boundary := mkBoundary ∅ ∅.

Record ScopeInput := mkScopeInput {
  sc_base_dir : PathBuf;
  sc_ancestor_env : gmap str EnvValue;
  sc_boundary : Boundary;
  sc_location : str;
}.

Record ScopeResult := mkScopeResult { sr_nodes : list Node; sr_local_ids : gset str }.

(** The fields of a node that expansion touches. *)
Definition rewired (id : str) (record : option (list str)) (inputs : gmap str Input) (input_types output_types : gmap str Urn)
    (env : gmap str EnvValue) (n : Node) : Node :=
  mkNode id (n_path n) (n_git n) (n_branch n) (n_tag n) (n_rev n) (n_hub n) (n_module n) (n_operators n) (n_ros2 n)
    record inputs (n_outputs n) input_types output_types (n_pattern n) (n_restart_policy n) (n_max_restarts n)
    (n_deploy n) (n_cpu_affinity n) (n_rt n) env.

Definition with_source (source : str) (i : Input) : Input :=
  mkInput source (in_queue_size i) (in_queue_policy i) (in_timeout i) (in_priority_lane i) (in_deadline i).

Definition merge_env (base override_layer : gmap str EnvValue) : gmap str EnvValue := override_layer ∪ base.

(** [entry(key).or_insert(value)] *)
Definition or_insert {A} (key : str) (value : A) (m : gmap str A) : gmap str A :=
  match m !! key with Some _ => m | None => <[key := value]> m end.

(** The first of the names that is not declared. *)
Definition first_unknown (declared names : list str) : option str := head (filter (λ p, p ∉ declared) names).

Section scope.
Context {IoError ParseError : Type} `{!ModuleLoader IoError}.
Variable from_yaml_str : str → result ParseError Manifest.

Notation Error := (ExpandError IoError ParseError).

Definition rewrite_plain_source (boundary : Boundary) (output_rewrites : gmap str str) (location source : str)
    : result Error (str * option Urn) :=
  match recognize source with
  | Some _ => Ok (source, None)
  | None =>
      match strip_prefix MODULE_BOUNDARY_NODE_ID source ≫= strip_prefix (lit "/") with
      | Some port =>
          match bo_inputs boundary !! port with
          | Some value => Ok (value, bo_input_types boundary !! port)
          | None => Err (UnsuppliedModuleInput location port)
          end
      | None =>
          match output_rewrites !! source with
          | Some replacement => Ok (replacement, None)
          | None => Ok (source, None)
          end
      end
  end.

(** *** Plain nodes *)

Fixpoint rewrite_inputs (source_of : str → result Error (str * option Urn)) (l : list (str * Input)) (inputs : gmap str Input)
    (type_hints : list (str * Urn)) : result Error (gmap str Input * list (str * Urn)) :=
  match l with
  | [] => Ok (inputs, type_hints)
  | (name, input) :: rest =>
      let? (new_source, type_hint) := source_of (in_source input) in
      rewrite_inputs source_of rest (<[name := with_source new_source input]> inputs)
        (match type_hint with Some ty => type_hints ++ [(name, ty)] | None => type_hints end)
  end.

Fixpoint rewrite_record (source_of : str → result Error (str * option Urn)) (record : list str) : result Error (list str) :=
  match record with
  | [] => Ok []
  | entry :: rest =>
      let? (new_source, _) := source_of entry in
      let? rest := rewrite_record source_of rest in
      Ok (new_source :: rest)
  end.

Definition rewrite_plain_node (boundary : Boundary) (output_rewrites : gmap str str) (location : str) (node : Node) : result Error Node :=
  let source_of := rewrite_plain_source boundary output_rewrites location in
  let? (inputs, type_hints) := rewrite_inputs source_of (map_entries (n_inputs node)) (n_inputs node) [] in
  let input_types := foldl (λ types '(name, ty), or_insert name ty types) (n_input_types node) type_hints in
  let? record :=
    match n_record node with
    | Some record => let? record := rewrite_record source_of record in Ok (Some record)
    | None => Ok None
    end in
  Ok (rewired (n_id node) record inputs input_types (n_output_types node) (n_env node) node).

(** *** Nodes that include a module *)

(** The sources a host supplies, resolved in its own scope. *)
Fixpoint supply (source_of : str → result Error (str * option Urn)) (l : list (str * Input)) (b : Boundary) : result Error Boundary :=
  match l with
  | [] => Ok b
  | (port, value) :: rest =>
      let? (resolved, type_hint) := source_of (in_source value) in
      supply source_of rest
        (mkBoundary (<[port := resolved]> (bo_inputs b))
           (match type_hint with Some ty => <[port := ty]> (bo_input_types b) | None => bo_input_types b end))
  end.

Definition child_boundary (input : ScopeInput) (output_rewrites : gmap str str) (header : ModuleHeader) (host : Node)
    : result Error Boundary :=
  let? b := supply (rewrite_plain_source (sc_boundary input) output_rewrites (sc_location input))
              (map_entries (n_inputs host)) boundary_default in
  Ok (mkBoundary (bo_inputs b)
        (foldl (λ types '(port, ty), if bool_decide (port ∈ mh_inputs header) then <[port := ty]> types else types)
           (bo_input_types b) (map_entries (n_input_types host)))).

(** What [expand_module_host] reads and checks before it recurses. *)
Definition load_module (max_depth : nat) (stack : list PathBuf) (input : ScopeInput) (output_rewrites : gmap str str) (host : Node)
    (module_field : str) : result Error (PathBuf * Manifest * ScopeInput) :=
  let child_path := resolve_module_path (sc_base_dir input) module_field in
  match list_find (λ p, p = child_path) stack with
  | Some (pos, _) => Err (Cycle (drop pos stack ++ [child_path]))
  | None =>
      if Nat.leb max_depth (length stack) then Err (DepthExceeded max_depth)
      else
        let? text := map_err (ExpandIo child_path) (read_to_string child_path) in
        let? child_manifest := map_err (ExpandParse child_path) (from_yaml_str text) in
        match m_module child_manifest with
        | None => Err (NotAModule child_path)
        | Some header =>
            match first_unknown (mh_inputs header) (map_keys (n_inputs host)) with
            | Some port => Err (ExpandUnknownModuleInput (n_id host) port)
            | None =>
                match first_unknown (mh_outputs header) (n_outputs host) with
                | Some port => Err (ExpandUnknownModuleOutput (n_id host) port)
                | None =>
                    let? boundary := child_boundary input output_rewrites header host in
                    Ok (child_path, child_manifest,
                        mkScopeInput (default (sc_base_dir input) (parent child_path))
                          (merge_env (m_env child_manifest) (sc_ancestor_env input)) boundary
                          (lit "module manifest `" ++ display child_path ++ lit "`"))
                end
            end
        end
  end.

(** [Vec<(String, String)>] of the nodes that produce a port, with the
    spelling they use. *)
Definition producers (port : str) (nodes : list Node) : list (str * str) :=
  let mod_spelling := MODULE_BOUNDARY_NODE_ID ++ [47] ++ port in
  mjoin ((λ candidate,
    (if bool_decide (port ∈ n_outputs candidate) then [(n_id candidate, port)] else [])
    ++ (if bool_decide (mod_spelling ∈ n_outputs candidate) then [(n_id candidate, mod_spelling)] else [])) <$> nodes).

(** The first node of that id annotates the output, unless it does already. *)
Fixpoint annotate (id spelling : str) (ty : Urn) (nodes : list Node) : list Node :=
  match nodes with
  | [] => []
  | n :: rest =>
      if bool_decide (n_id n = id) then
        rewired (n_id n) (n_record n) (n_inputs n) (n_input_types n) (or_insert spelling ty (n_output_types n)) (n_env n) n :: rest
      else n :: annotate id spelling ty rest
  end.

Fixpoint expose (host : Node) (ports : list str) (nodes : list Node) (output_rewrites : gmap str str)
    : result Error (list Node * gmap str str) :=
  match ports with
  | [] => Ok (nodes, output_rewrites)
  | port :: rest =>
      match producers port nodes with
      | [] => Err (MissingModuleOutputProducer (n_id host) port)
      | [(producer_id, spelling)] =>
          expose host rest
            (match n_output_types host !! port with Some ty => annotate producer_id spelling ty nodes | None => nodes end)
            (<[n_id host ++ [47] ++ port := n_id host ++ [46] ++ producer_id ++ [47] ++ spelling]> output_rewrites)
      | several => Err (AmbiguousModuleOutput (n_id host) port several.*1)
      end
  end.

Definition record_output_rewrites (host : Node) (child : ScopeResult) (output_rewrites : gmap str str)
    : result Error (ScopeResult * gmap str str) :=
  let? (nodes, output_rewrites) := expose host (n_outputs host) (sr_nodes child) output_rewrites in
  Ok (mkScopeResult nodes (sr_local_ids child), output_rewrites).

Definition prefixed (prefix id : str) : str := prefix ++ [46] ++ id.

Definition prefix_node (prefix : str) (local_ids : gset str) (node : Node) : Node :=
  let rename id := if bool_decide (id ∈ local_ids) then Some (prefixed prefix id) else None in
  rewired (prefixed prefix (n_id node)) (map (rewrite_reference_node_id rename) <$> n_record node)
    ((λ i : Input, with_source (rewrite_reference_node_id rename (in_source i)) i) <$> n_inputs node)
    (n_input_types node) (n_output_types node) (n_env node) node.

Definition prefix_child_nodes (host : Node) (child : ScopeResult) : list Node :=
  prefix_node (n_id host) (sr_local_ids child) <$> sr_nodes child.

(** *** One scope *)

(** [?] on what a call that may run out of fuel returns. *)
Definition obind {A B} (m : option (result Error A)) (k : A → option (result Error B)) : option (result Error B) :=
  match m with
  | None => None
  | Some (Err e) => Some (Err e)
  | Some (Ok a) => k a
  end.

Notation "'let!' x ':=' m 'in' k" := (obind m (λ x, k)) (at level 200, x pattern, m at level 200, k at level 200).

Definition Recurse : Type := RecursionState → Manifest → ScopeInput → option (result Error (ScopeResult * RecursionState)).

Definition expand_module_host (rec : Recurse) (max_depth : nat) (state : RecursionState) (input : ScopeInput)
    (output_rewrites : gmap str str) (host : Node) (module_field : str) : option (result Error (ScopeResult * RecursionState)) :=
  let! (child_path, child_manifest, child_input) :=
    Some (load_module max_depth (st_stack state) input output_rewrites host module_field) in
  let! (result, state) := rec (mkState (st_stack state ++ [child_path]) (st_type_rules state)) child_manifest child_input in
  Some (Ok (result, mkState (take (length (st_stack state) - 1) (st_stack state)) (st_type_rules state))).

(** The first pass: what each host expands to ([None] for a plain node). *)
Fixpoint expand_hosts (rec : Recurse) (max_depth : nat) (input : ScopeInput) (l : list Node) (state : RecursionState)
    (output_rewrites : gmap str str) : option (result Error (list (option (list Node)) * gmap str str * RecursionState)) :=
  match l with
  | [] => Some (Ok ([], output_rewrites, state))
  | host :: rest =>
      match n_module host with
      | None =>
          let! (batches, output_rewrites, state) := expand_hosts rec max_depth input rest state output_rewrites in
          Some (Ok (None :: batches, output_rewrites, state))
      | Some module_field =>
          let! (child, state) := expand_module_host rec max_depth state input output_rewrites host module_field in
          let! (child, output_rewrites) := Some (record_output_rewrites host child output_rewrites) in
          let! (batches, output_rewrites, state) := expand_hosts rec max_depth input rest state output_rewrites in
          Some (Ok (Some (prefix_child_nodes host child) :: batches, output_rewrites, state))
      end
  end.

(** The second pass: the plain nodes, [None] for a host. *)
Fixpoint expand_plain (input : ScopeInput) (output_rewrites : gmap str str) (l : list Node) : result Error (list (option Node)) :=
  match l with
  | [] => Ok []
  | node :: rest =>
      let? plain :=
        match n_module node with
        | Some _ => Ok None
        | None =>
            let baked := rewired (n_id node) (n_record node) (n_inputs node) (n_input_types node) (n_output_types node)
                           (merge_env (sc_ancestor_env input) (n_env node)) node in
            let? node := rewrite_plain_node (sc_boundary input) output_rewrites (sc_location input) baked in
            Ok (Some node)
        end in
      let? rest := expand_plain input output_rewrites rest in
      Ok (plain :: rest)
  end.

Fixpoint collect (location : str) (l : list Node) (nodes : list Node) (local_ids : gset str) : result Error ScopeResult :=
  match l with
  | [] => Ok (mkScopeResult nodes local_ids)
  | node :: rest =>
      if bool_decide (n_id node ∈ local_ids) then Err (ExpandDuplicateNodeId location (n_id node))
      else collect location rest (nodes ++ [node]) ({[n_id node]} ∪ local_ids)
  end.

(** The nodes in the manifest's order, each host replaced by its batch. *)
Definition batch (plain : option Node) (hosted : option (list Node)) : list Node :=
  match plain with Some node => [node] | None => default [] hosted end.

Fixpoint expand_scope (fuel : nat) (max_depth : nat) (state : RecursionState) (manifest : Manifest) (input : ScopeInput)
    : option (result Error (ScopeResult * RecursionState)) :=
  match fuel with
  | O => None
  | S fuel =>
      let state := mkState (st_stack state) (st_type_rules state ++ m_type_rules manifest) in
      let! (hosted, output_rewrites, state) :=
        expand_hosts (expand_scope fuel max_depth) max_depth input (m_nodes manifest) state ∅ in
      let! plain := Some (expand_plain input output_rewrites (m_nodes manifest)) in
      let! result := Some (collect (sc_location input) (mjoin (zip_with batch plain hosted)) [] ∅) in
      Some (Ok (result, state))
  end.

(** ** [mod.rs] *)

Fixpoint dedupe_from (seen : list TypeRule) (rules : list TypeRule) : list TypeRule :=
  match rules with
  | [] => []
  | rule :: rest => if bool_decide (rule ∈ seen) then dedupe_from seen rest else rule :: dedupe_from (rule :: seen) rest
  end.

Definition dedupe_type_rules (rules : list TypeRule) : list TypeRule := dedupe_from [] rules.

(** [root_env.get(k) == Some(v)] *)
Definition redundant (root_env : gmap str EnvValue) (entry : str * EnvValue) : Prop :=
  match root_env !! entry.1 with Some v => env_eqb v entry.2 = true | None => False end.

#[global] Instance redundant_dec root_env entry : Decision (redundant root_env entry).
Proof. unfold redundant. destruct (root_env !! entry.1); apply _. Defined.

Definition prune_node (root_env : gmap str EnvValue) (n : Node) : Node :=
  rewired (n_id n) (n_record n) (n_inputs n) (n_input_types n) (n_output_types n)
    (filter (λ entry, ¬ redundant root_env entry) (n_env n)) n.

Definition prune_redundant_env (m : Manifest) : Manifest :=
  mkManifest (prune_node (m_env m) <$> m_nodes m) (m_strict_types m) (m_type_rules m) (m_deploy m) (m_module m) (m_env m).

Definition expand_with_options (manifest : Manifest) (base_dir : PathBuf) (max_depth : nat) : option (result Error Manifest) :=
  let input := mkScopeInput base_dir (m_env manifest) boundary_default (lit "the root manifest") in
  let! (result, state) := expand_scope (S max_depth) max_depth (mkState [] []) manifest input in
  Some (Ok (prune_redundant_env
    (mkManifest (sr_nodes result) (m_strict_types manifest) (dedupe_type_rules (st_type_rules state)) (m_deploy manifest) None
       (m_env manifest)))).

Definition DEFAULT_MAX_DEPTH : nat := 32.

Definition expand (manifest : Manifest) (base_dir : PathBuf) : option (result Error Manifest) :=
  expand_with_options manifest base_dir DEFAULT_MAX_DEPTH.
End scope.
