(* ===== verification/ExpandLaws.v ===== *)
(** * What module expansion promises

    [expansion_always_ends]: whatever the files hold, expansion returns.
    [expansion_inlines_modules]: its result has a node for each plain node of
    each included module, under the dotted ids of its hosts, with the
    environment its scopes give it, and no other.  [expanded_manifest_builds]:
    valid manifests whose ids do not overlap with those around them expand
    into a manifest that builds; without that condition a reference can be captured
    ([ExpandScenarios.v]). *)

From Stdlib Require Import Lia.
From stdpp Require Import base tactics list gmap strings numbers sorting.
From S2P Require Import Prelude Text Utf8 Ordered TypeUrn Manifest Graph GraphLaws Expand.

Open Scope N_scope.

(** ** References as text *)

Definition reference (id port : str) : str := id ++ [47] ++ port.

Definition plain_id (id : str) : Prop := id ≠ [] ∧ Forall (λ c, c ≠ 47) id.

Lemma split_once_inv sep s a b : split_once sep s = Some (a, b) → s = a ++ sep :: b ∧ Forall (λ c, c ≠ sep) a.
Proof.
  unfold split_once. revert a b. induction s as [|c s IH]; intros a b; cbn; [done|].
  destruct (N.eqb_spec sep c) as [->|Hne]; [intros [= <- <-]; by split; [|constructor]|].
  destruct (split_at_first (N.eqb sep) s) as [x [|d y]] eqn:E; [done|]. intros [= <- <-].
  destruct (IH x y) as [-> Hx]; [done|]. split; [done|]. constructor; [done|exact Hx].
Qed.

Lemma split_reference_ok id port : plain_id id → port ≠ [] → split_reference (reference id port) = Some (id, port).
Proof.
  intros [Hid Hs] Hp. unfold split_reference, reference. cbn [app]. rewrite split_once_app by done.
  by rewrite !bool_decide_eq_false_2.
Qed.

Lemma spelled_reference_inj id port id' port' :
  Forall (λ c, c ≠ 47) id → Forall (λ c, c ≠ 47) id' → reference id port = reference id' port' → id = id' ∧ port = port'.
Proof.
  intros Hi Hi' E. pose proof (split_once_app 47 id port Hi) as H1. pose proof (split_once_app 47 id' port' Hi') as H2.
  assert (Some (id, port) = Some (id', port')) as [= <- <-]; [|done].
  etrans; [symmetry; exact H1|]. etrans; [|exact H2]. exact (f_equal (split_once 47) E).
Qed.

Lemma strip_prefix_inv p s t : strip_prefix p s = Some t → s = p ++ t.
Proof.
  revert s. induction p as [|c p IH]; intros [|d s]; cbn; try congruence.
  destruct (N.eqb_spec c d) as [->|]; [|done]. by intros ->%IH.
Qed.

(** What is not [astrs/...] is not a virtual source. *)
Lemma recognize_reference id port :
  Forall (λ c, c ≠ 47) id → recognize (reference id port) = None ↔ id ≠ lit "astrs".
Proof.
  intros Hid. unfold recognize. rewrite fmap_None. split.
  - intros H ->. assert (Some port = None) as E; [|done].
    etrans; [|exact H]. symmetry. exact (strip_prefix_app (lit "astrs/") port).
  - intros Hne. destruct (strip_prefix (lit "astrs/") (reference id port)) as [t|] eqn:E; [|done].
    apply strip_prefix_inv in E. change (lit "astrs/" ++ t) with (reference (lit "astrs") t) in E.
    apply spelled_reference_inj in E as [-> _]; [done|done|]. repeat constructor; done.
Qed.

(** The boundary form of a source. *)
Lemma boundary_reference source port :
  strip_prefix MODULE_BOUNDARY_NODE_ID source ≫= strip_prefix (lit "/") = Some port ↔
  source = reference MODULE_BOUNDARY_NODE_ID port.
Proof.
  split.
  - intros H. apply bind_Some in H as (rest & Hs & Hr). apply strip_prefix_inv in Hs as ->.
    by apply strip_prefix_inv in Hr as ->.
  - intros ->. unfold reference. rewrite strip_prefix_app. cbn [mbind option_bind]. apply (strip_prefix_app (lit "/")).
Qed.

(** ** Running out of fuel *)

Section laws.
Context {IoError ParseError : Type} `{!ModuleLoader IoError}.
Variable from_yaml_str : str → result ParseError Manifest.

Notation Recurse := (@Recurse IoError ParseError).
Notation expand_hosts := (@expand_hosts IoError ParseError _ from_yaml_str).
Notation expand_scope := (expand_scope from_yaml_str).
Notation load_module := (@load_module IoError ParseError _ from_yaml_str).

(** A call at depth [k] returns, and gives the stack back. *)
Definition Ends (rec : Recurse) (max_depth k : nat) : Prop :=
  ∀ state m input, length (st_stack state) = k →
    ∃ r, rec state m input = Some r ∧ ∀ res state', r = Ok (res, state') → st_stack state' = st_stack state.

Lemma load_module_ok max_depth stack input rewrites host field path child cin :
  load_module max_depth stack input rewrites host field = Ok (path, child, cin) →
  path = resolve_module_path (sc_base_dir input) field ∧ path ∉ stack ∧ (length stack < max_depth)%nat ∧
  (∃ text, read_to_string path = Ok text ∧ from_yaml_str text = Ok child) ∧
  ∃ header, m_module child = Some header ∧ (∀ p, is_Some (n_inputs host !! p) → p ∈ mh_inputs header) ∧
    (∀ p, p ∈ n_outputs host → p ∈ mh_outputs header) ∧
    ∃ boundary, child_boundary (IoError := IoError) (ParseError := ParseError) input rewrites header host = Ok boundary ∧
    cin = mkScopeInput (default (sc_base_dir input) (parent path)) (sc_ancestor_env input ∪ m_env child) boundary
            (lit "module manifest `" ++ display path ++ lit "`").
Proof.
  unfold Expand.load_module. set (p := resolve_module_path _ _).
  destruct (list_find _ stack) as [[pos ?]|] eqn:Ef; [done|]. destruct (Nat.leb_spec max_depth (length stack)); [done|].
  destruct (read_to_string p) as [text|] eqn:Er; [|done]. cbn [map_err rbind].
  destruct (from_yaml_str text) as [m|] eqn:Ey; [|done]. cbn [map_err rbind].
  destruct (m_module m) as [header|] eqn:Eh; [|done].
  assert (∀ declared names, first_unknown declared names = None → ∀ q, q ∈ names → q ∈ declared) as Hu.
  { intros declared names E q Hq. unfold first_unknown in E. apply dec_stable. intros Hn.
    assert (q ∈ filter (λ p, p ∉ declared) names) as Hf by (by apply list_elem_of_filter).
    destruct (filter _ names); [by apply elem_of_nil in Hf|done]. }
  destruct (first_unknown _ (map_keys _)) eqn:Eu; [done|]. destruct (first_unknown _ (n_outputs host)) eqn:Eo; [done|].
  destruct (child_boundary _ _ _ _) as [b|] eqn:Eb; [|done]. cbn [rbind]. intros [= <- <- <-].
  split; [done|]. split; [|split; [done|split; [by exists text|]]].
  { apply list_find_None in Ef. rewrite Forall_forall in Ef. intros Hin. by apply (Ef _ Hin). }
  exists header. split; [done|]. split; [|split; [by apply Hu|by exists b]].
  intros q Hq. apply (Hu _ _ Eu). by apply elem_of_map_keys.
Qed.

Lemma pop_push {A} (l : list A) x : take (length (l ++ [x]) - 1) (l ++ [x]) = l.
Proof. rewrite length_app. cbn. rewrite Nat.add_sub. apply take_app_length. Qed.

Lemma expand_hosts_end rec max_depth k input l state rewrites :
  ((k < max_depth)%nat → Ends rec max_depth (S k)) → length (st_stack state) = k →
  ∃ r, expand_hosts rec max_depth input l state rewrites = Some r ∧
    ∀ hosted rw state', r = Ok (hosted, rw, state') → st_stack state' = st_stack state.
Proof.
  intros Hrec. revert state rewrites. induction l as [|host l IH]; intros state rewrites Hk; cbn [Expand.expand_hosts].
  { eexists. split; [done|]. by intros ? ? ? [= <- <- <-]. }
  destruct (n_module host) as [field|].
  - unfold expand_module_host. destruct (Expand.load_module _ _ _ _ _ _ _) as [[[path child] cin]|e] eqn:El; cbn [obind].
    2: { eexists. split; [done|]. done. }
    apply load_module_ok in El as (_ & _ & Hlt & _). rewrite Hk in Hlt.
    destruct (Hrec Hlt (mkState (st_stack state ++ [path]) (st_type_rules state)) child cin) as (r & Hr & Hst).
    { cbn. rewrite length_app. cbn. lia. }
    rewrite Hr. destruct r as [[res st']|e]; cbn [obind]; [|by eexists]. specialize (Hst _ _ eq_refl). cbn in Hst.
    destruct (record_output_rewrites host res rewrites) as [[res' rw']|e]; cbn [obind]; [|by eexists].
    rewrite Hst, pop_push. cbn.
    destruct (IH (mkState (st_stack state) (st_type_rules st')) rw') as (r' & Hr' & Hst'); [done|]. rewrite Hr'.
    destruct r' as [[[hosted rw] st'']|e]; cbn [obind]; [|by eexists]. eexists. split; [done|].
    intros ? ? ? [= <- <- <-]. by rewrite (Hst' _ _ _ eq_refl).
  - destruct (IH state rewrites Hk) as (r' & Hr' & Hst'). rewrite Hr'.
    destruct r' as [[[hosted rw] st'']|e]; cbn [obind]; [|by eexists]. eexists. split; [done|].
    intros ? ? ? [= <- <- <-]. by rewrite (Hst' _ _ _ eq_refl).
Qed.

(** One unit of fuel per level is enough. *)
Lemma expand_scope_ends fuel max_depth k :
  (max_depth < k + fuel)%nat → (k ≤ max_depth)%nat → Ends (expand_scope fuel max_depth) max_depth k.
Proof.
  revert k. induction fuel as [|fuel IH]; intros k Hf Hk state m input Hs; [lia|]. cbn [Expand.expand_scope].
  destruct (expand_hosts_end (expand_scope fuel max_depth) max_depth k input (m_nodes m)
    (mkState (st_stack state) (st_type_rules state ++ m_type_rules m)) ∅) as (r & Hr & Hst); [|done|].
  { intros Hlt. apply IH; lia. }
  rewrite Hr. destruct r as [[[hosted rw] st']|e]; cbn [obind]; [|by eexists].
  destruct (expand_plain _ _ _) as [plain|e]; cbn [obind]; [|by eexists].
  destruct (collect _ _ _ _) as [res|e]; cbn [obind]; [|by eexists].
  eexists. split; [done|]. intros ? ? [= <- <-]. by rewrite (Hst _ _ _ eq_refl).
Qed.

(** ** One scope, by an invariant of its hosts *)

(** A plain node of a scope, before its sources are rewritten. *)
Definition baked (input : ScopeInput) (n : Node) : Node :=
  rewired (n_id n) (n_record n) (n_inputs n) (n_input_types n) (n_output_types n) (n_env n ∪ sc_ancestor_env input) n.

Definition plain_of (input : ScopeInput) (rewrites : gmap str str) (n : Node) : result (ExpandError IoError ParseError) Node :=
  rewrite_plain_node (sc_boundary input) rewrites (sc_location input) (baked input n).

Lemma collect_ok location l nodes ids res :
  collect (IoError := IoError) (ParseError := ParseError) location l nodes ids = Ok res →
  (∀ id, id ∈ ids ↔ id ∈ n_id <$> nodes) → NoDup (n_id <$> nodes) →
  sr_nodes res = nodes ++ l ∧ NoDup (n_id <$> sr_nodes res) ∧ ∀ id, id ∈ sr_local_ids res ↔ id ∈ n_id <$> sr_nodes res.
Proof.
  revert nodes ids. induction l as [|n l IH]; intros nodes ids; cbn [collect].
  { intros [= <-] Hids Hnd. cbn. by rewrite app_nil_r. }
  case_bool_decide as Hn; [done|]. intros H Hids Hnd. rewrite (cons_middle n nodes l), app_assoc. apply (IH _ _ H).
  - intros id. rewrite elem_of_union, elem_of_singleton, Hids, fmap_app, elem_of_app. cbn. rewrite list_elem_of_singleton. tauto.
  - rewrite fmap_app. apply NoDup_app. split; [done|]. split; [|apply NoDup_singleton].
    intros id Hid. cbn. rewrite list_elem_of_singleton. intros ->. by apply Hn, Hids.
Qed.

Lemma expand_plain_ok input rewrites l plain :
  expand_plain (IoError := IoError) (ParseError := ParseError) input rewrites l = Ok plain →
  Forall2 (λ n p, match n_module n with
                  | Some _ => p = None
                  | None => ∃ n', p = Some n' ∧ plain_of input rewrites n = Ok n'
                  end) l plain.
Proof.
  revert plain. induction l as [|n l IH]; intros plain; cbn [expand_plain]; [by intros [= <-]|].
  destruct (n_module n) eqn:En; cbn [rbind].
  - destruct (expand_plain input rewrites l) as [rest|]; [|done]. intros [= <-]. constructor; [by rewrite En|by apply IH].
  - change (rewrite_plain_node _ _ _ _) with (plain_of input rewrites n). destruct (plain_of input rewrites n) as [n'|] eqn:Ep; [|done]. cbn [rbind].
    destruct (expand_plain input rewrites l) as [rest|]; [|done]. intros [= <-]. constructor; [|by apply IH].
    rewrite En. by exists n'.
Qed.

Lemma elem_of_batches input rewrites l plain hosted n' :
  Forall2 (λ n p, match n_module n with
                  | Some _ => p = None
                  | None => ∃ n', p = Some n' ∧ plain_of input rewrites n = Ok n'
                  end) l plain →
  Forall2 (λ n h, is_Some (n_module n) ↔ is_Some h) l hosted →
  n' ∈ mjoin (zip_with batch plain hosted) ↔
  (∃ n, n ∈ l ∧ n_module n = None ∧ plain_of input rewrites n = Ok n') ∨ n' ∈ mjoin (default [] <$> hosted).
Proof.
  intros Hp. revert hosted. induction Hp as [|n p l plain Hn Hp IH]; intros hosted Hh.
  { apply Forall2_nil_inv_l in Hh as ->. cbn. rewrite elem_of_nil. set_solver. }
  apply Forall2_cons_inv_l in Hh as (h & hosted' & Hnh & Hh & ->). specialize (IH _ Hh). cbn. rewrite !elem_of_app, IH.
  destruct (n_module n) eqn:En.
  - subst p. destruct h as [h|]; [|by destruct (proj1 Hnh ltac:(eauto))]. cbn. split.
    + intros [?|[(n0 & ? & ?)|?]]; [by right; left|left|by right; right]. exists n0. split; [by right|done].
    + intros [(n0 & [->|?]%elem_of_cons & Hm & ?)|[?|?]]; [congruence|right; left; by exists n0|by left|by right; right].
  - destruct Hn as (n1 & -> & Hn1). destruct h as [h|]; [by destruct (proj2 Hnh ltac:(eauto)) as [? ?]|]. cbn.
    rewrite list_elem_of_singleton, elem_of_nil. split.
    + intros [->|[(n0 & ? & ?)|?]]; [left; exists n; split; [by left|done]|left; exists n0; split; [by right|done]|by right; right].
    + intros [(n0 & [->|?]%elem_of_cons & Hm & ?)|[?|?]]; [left; congruence|right; left; by exists n0|done|by right; right].
Qed.

Section scope_rule.
Variables (fuel max_depth : nat) (stack : list PathBuf) (m : Manifest) (input : ScopeInput).
Variable I : list Node → gmap str str → list Node → Prop.
Hypothesis Hfuel : (max_depth < length stack + S fuel)%nat.
Hypothesis Iplain : ∀ n done rw acc, n_module n = None → I done rw acc → I (done ++ [n]) rw acc.
Hypothesis Ihost : ∀ host field done rest rw acc rules path child cin res state' res' rw',
  m_nodes m = done ++ host :: rest → n_module host = Some field → I done rw acc →
  load_module max_depth stack input rw host field = Ok (path, child, cin) →
  expand_scope fuel max_depth (mkState (stack ++ [path]) rules) child cin = Some (Ok (res, state')) →
  record_output_rewrites (IoError := IoError) (ParseError := ParseError) host res rw = Ok (res', rw') →
  I (done ++ [host]) rw' (acc ++ prefix_child_nodes host res').

Lemma expand_hosts_rule l done rules rw acc hosted rw' state' :
  m_nodes m = done ++ l → I done rw acc →
  expand_hosts (expand_scope fuel max_depth) max_depth input l (mkState stack rules) rw = Some (Ok (hosted, rw', state')) →
  I (m_nodes m) rw' (acc ++ mjoin (default [] <$> hosted)) ∧ Forall2 (λ n h, is_Some (n_module n) ↔ is_Some h) l hosted.
Proof.
  revert done rules rw acc hosted. induction l as [|host l IH]; intros done rules rw acc hosted Hm HI; cbn [Expand.expand_hosts].
  { intros [= <- <- <-]. rewrite app_nil_r in Hm. cbn. by rewrite Hm, app_nil_r. }
  assert (m_nodes m = (done ++ [host]) ++ l) as Hm' by (by rewrite <-app_assoc).
  destruct (n_module host) as [field|] eqn:Eh.
  - unfold expand_module_host. cbn [st_stack st_type_rules].
    destruct (Expand.load_module _ _ _ _ _ _ _) as [[[path child] cin]|e] eqn:El; cbn [obind]; [|done].
    pose proof El as (_ & _ & Hlt & _)%load_module_ok.
    destruct (expand_scope_ends fuel max_depth (S (length stack)) ltac:(lia) ltac:(lia)
      (mkState (stack ++ [path]) rules) child cin) as (r & Hr & Hst); [cbn; rewrite length_app; cbn; lia|].
    rewrite Hr. destruct r as [[res st']|e]; cbn [obind]; [|done]. specialize (Hst _ _ eq_refl). cbn in Hst.
    destruct (record_output_rewrites host res rw) as [[res' rw1]|e] eqn:Er; cbn [obind]; [|done].
    rewrite Hst, pop_push.
    destruct (Expand.expand_hosts _ _ _ _ l _ rw1) as [[[[batches rw2] st2]|e]|] eqn:Ee; cbn [obind]; [|done..].
    intros [= <- <- <-]. destruct (IH _ _ _ (acc ++ prefix_child_nodes host res') _ Hm' ltac:(by eapply Ihost) Ee) as [HI' HF].
    split; [|constructor; [|done]; rewrite Eh; split; by eauto]. cbn. by rewrite app_assoc.
  - destruct (Expand.expand_hosts _ _ _ _ l _ rw) as [[[[batches rw2] st2]|e]|] eqn:Ee; cbn [obind]; [|done..].
    intros [= <- <- <-]. destruct (IH _ _ _ acc _ Hm' ltac:(by apply Iplain) Ee) as [HI' HF]. split; [done|].
    constructor; [|done]. rewrite Eh. split; by intros [? ?].
Qed.

(** What a scope that expands returns, given an invariant of its hosts. *)
Lemma expand_scope_rule rules res state' :
  I [] ∅ [] → expand_scope (S fuel) max_depth (mkState stack rules) m input = Some (Ok (res, state')) →
  ∃ rw hosted, I (m_nodes m) rw hosted ∧ NoDup (n_id <$> sr_nodes res) ∧
    (∀ id, id ∈ sr_local_ids res ↔ id ∈ n_id <$> sr_nodes res) ∧
    (∀ n, n ∈ m_nodes m → n_module n = None → ∃ n', plain_of input rw n = Ok n') ∧
    ∀ n', n' ∈ sr_nodes res ↔ (∃ n, n ∈ m_nodes m ∧ n_module n = None ∧ plain_of input rw n = Ok n') ∨ n' ∈ hosted.
Proof.
  intros HI. cbn [Expand.expand_scope st_stack st_type_rules].
  destruct (Expand.expand_hosts _ _ _ _ _ _ _) as [[[[hosted rw] st]|e]|] eqn:Eh; cbn [obind]; [|done..].
  destruct (expand_plain _ _ _) as [plain|e] eqn:Ep; cbn [obind]; [|done].
  destruct (collect _ _ _ _) as [r|e] eqn:Ec; cbn [obind]; [|done]. intros [= <- <-].
  destruct (expand_hosts_rule _ [] _ _ [] _ _ _ eq_refl HI Eh) as [HI' HF]. apply expand_plain_ok in Ep.
  apply collect_ok in Ec as (En & Hnd & Hids); [|set_solver|constructor]. cbn in En.
  exists rw, (mjoin (default [] <$> hosted)). split_and!; [done..| |].
  - intros n Hn Hm. apply list_elem_of_lookup in Hn as [i Hi].
    destruct (Forall2_lookup_l _ _ _ _ _ Ep Hi) as (p & _ & Hp). rewrite Hm in Hp. destruct Hp as (n' & _ & Hn'). by exists n'.
  - intros n'. rewrite En. by eapply elem_of_batches.
Qed.
End scope_rule.

(** ** What becomes of a node *)

(** Every field but those expansion may touch. *)
Definition same_program (n n' : Node) : Prop :=
  n' = rewired (n_id n') (n_record n') (n_inputs n') (n_input_types n') (n_output_types n') (n_env n') n.

Lemma same_program_refl n : same_program n n.
Proof. by destruct n. Qed.

Lemma same_program_trans n n1 n2 : same_program n n1 → same_program n1 n2 → same_program n n2.
Proof. unfold same_program. intros -> ->. by destruct n. Qed.

Lemma same_program_rewired n id record inputs it ot env : same_program n (rewired id record inputs it ot env n).
Proof. done. Qed.

Section rewriting.
Variable source_of : str → result (ExpandError IoError ParseError) (str * option Urn).

Lemma rewrite_inputs_ok l inputs hints inputs' hints' :
  NoDup l.*1 → rewrite_inputs source_of l inputs hints = Ok (inputs', hints') →
  (∀ name i, (name, i) ∈ l → ∃ src hint, source_of (in_source i) = Ok (src, hint) ∧ inputs' !! name = Some (with_source src i)) ∧
  ∀ name, name ∉ l.*1 → inputs' !! name = inputs !! name.
Proof.
  revert inputs hints. induction l as [|[name i] l IH]; intros inputs hints Hnd; cbn [rewrite_inputs].
  { intros [= <- <-]. split; [by intros ? ? ?%elem_of_nil|done]. }
  cbn in Hnd. apply NoDup_cons in Hnd as [Hname Hnd].
  destruct (source_of (in_source i)) as [[src hint]|] eqn:Es; [|done]. cbn [rbind]. intros H.
  destruct (IH _ _ Hnd H) as [Hin Hout]. split.
  - intros name' i' [[= -> ->]|Hl]%elem_of_cons; [|by apply Hin]. exists src, hint. split; [done|].
    by rewrite Hout, lookup_insert_eq.
  - intros name' [Hne Hl]%not_elem_of_cons. rewrite Hout by done. by apply lookup_insert_ne.
Qed.

Lemma rewrite_record_ok record record' :
  rewrite_record source_of record = Ok record' → Forall2 (λ e e', ∃ hint, source_of e = Ok (e', hint)) record record'.
Proof.
  revert record'. induction record as [|e record IH]; intros record'; cbn [rewrite_record]; [by intros [= <-]|].
  destruct (source_of e) as [[src hint]|] eqn:Es; [|done]. cbn [rbind].
  destruct (rewrite_record source_of record) as [rest|]; [|done]. intros [= <-]. constructor; [by exists hint|by apply IH].
Qed.

Lemma supply_ok l b b' port value :
  supply source_of l b = Ok b' → bo_inputs b' !! port = Some value →
  bo_inputs b !! port = Some value ∨ ∃ i hint, (port, i) ∈ l ∧ source_of (in_source i) = Ok (value, hint).
Proof.
  revert b. induction l as [|[p i] l IH]; intros b; cbn [supply]; [intros [= <-]; by left|].
  destruct (source_of (in_source i)) as [[src hint]|] eqn:Es; [|done]. cbn [rbind]. intros H Hv.
  destruct (IH _ H Hv) as [Hb|(i' & h' & Hin & Hs)]; [|right; exists i', h'; split; [by right|done]].
  cbn in Hb. destruct (decide (p = port)) as [->|Hne].
  - rewrite lookup_insert_eq in Hb. injection Hb as <-. right. exists i, hint. split; [by left|done].
  - rewrite lookup_insert_ne in Hb by done. by left.
Qed.
End rewriting.

(** How a scope rewrites a source. *)
Definition scope_source (input : ScopeInput) (rw : gmap str str) (source : str) : result (ExpandError IoError ParseError) (str * option Urn) :=
  rewrite_plain_source (sc_boundary input) rw (sc_location input) source.

(** A plain node keeps its program, and every source of it is rewritten. *)
Lemma plain_of_ok input rw n n' :
  plain_of input rw n = Ok n' → let source_of := scope_source input rw in
  same_program n n' ∧ n_id n' = n_id n ∧ n_env n' = n_env n ∪ sc_ancestor_env input ∧
  (∀ name, match n_inputs n !! name with
           | Some i => ∃ src hint, source_of (in_source i) = Ok (src, hint) ∧ n_inputs n' !! name = Some (with_source src i)
           | None => n_inputs n' !! name = None
           end) ∧
  match n_record n, n_record n' with
  | Some r, Some r' => Forall2 (λ e e', ∃ hint, source_of e = Ok (e', hint)) r r'
  | None, None => True
  | _, _ => False
  end.
Proof.
  unfold plain_of, rewrite_plain_node. cbn [n_inputs n_record baked rewired]. change (rewrite_plain_source _ _ _) with (scope_source input rw). set (source_of := scope_source input rw).
  destruct (rewrite_inputs source_of _ _ _) as [[inputs hints]|] eqn:Ei; [|done]. cbn [rbind].
  apply rewrite_inputs_ok in Ei as [Hin Hout]; [|apply NoDup_map_keys]. intros H. cbv zeta.
  assert (∀ name, match n_inputs n !! name with
           | Some i => ∃ src hint, source_of (in_source i) = Ok (src, hint) ∧ inputs !! name = Some (with_source src i)
           | None => inputs !! name = None
           end) as Hinputs.
  { intros name. destruct (n_inputs n !! name) as [i|] eqn:En; [by apply Hin, elem_of_map_entries|].
    rewrite Hout; [done|]. intros Hk. apply elem_of_map_keys in Hk. rewrite En in Hk. by destruct Hk. }
  destruct (n_record n) as [r|].
  - destruct (rewrite_record source_of r) as [r'|] eqn:Er; [|done]. cbn [rbind] in H. injection H as <-.
    split_and!; [done..|]. by apply rewrite_record_ok.
  - cbn [rbind] in H. injection H as <-. done.
Qed.

(** Only the types of outputs change when outputs are exposed. *)
Definition relabelled (n n' : Node) : Prop :=
  n' = rewired (n_id n) (n_record n) (n_inputs n) (n_input_types n) (n_output_types n') (n_env n) n.

#[local] Instance relabelled_trans : Transitive relabelled.
Proof. intros n1 n2 n3 E2 E3. unfold relabelled in *. rewrite E3, E2. by destruct n1. Qed.

#[local] Instance relabelled_refl : Reflexive relabelled.
Proof. intros n. by destruct n. Qed.

Lemma annotate_relabelled id spelling ty nodes : Forall2 relabelled nodes (annotate id spelling ty nodes).
Proof.
  induction nodes as [|n nodes IH]; cbn; [constructor|]. case_bool_decide; by constructor.
Qed.

Lemma expose_relabelled host ports nodes rw nodes' rw' :
  expose (IoError := IoError) (ParseError := ParseError) host ports nodes rw = Ok (nodes', rw') → Forall2 relabelled nodes nodes'.
Proof.
  revert nodes rw. induction ports as [|port ports IH]; intros nodes rw; cbn [expose]; [by intros [= <- <-]|].
  destruct (producers port nodes) as [|[id spelling] [|]]; [done| |done]. intros H%IH.
  etrans; [|exact H]. destruct (n_output_types host !! port); [apply annotate_relabelled|done].
Qed.

(** ** Where a node of the result comes from *)

(** The text at a path is a manifest. *)
Definition loads (path : PathBuf) (m : Manifest) : Prop := ∃ text, read_to_string path = Ok text ∧ from_yaml_str text = Ok m.

(** [origin m base hosts chain n]: following the hosts from [m] one reaches,
    through the modules of [chain], the plain node [n]. *)
Inductive origin : Manifest → PathBuf → list str → list Manifest → Node → Prop :=
| origin_plain m base n : n ∈ m_nodes m → n_module n = None → origin m base [] [] n
| origin_module m base host field child hosts chain n :
    host ∈ m_nodes m → n_module host = Some field → let path := resolve_module_path base field in
    loads path child → origin child (default base (parent path)) hosts chain n →
    origin m base (n_id host :: hosts) (child :: chain) n.

(** [a.b.c], the id of a node below its hosts. *)
Definition dotted (hosts : list str) (id : str) : str := foldr prefixed id hosts.

(** The environments of the modules on the way, an outer one winning. *)
Definition env_chain (chain : list Manifest) : gmap str EnvValue := foldr (λ m env, m_env m ∪ env) ∅ chain.

(** [n'] is [n] under its hosts: the same program with the same ports and
    queues, its sources rewired. *)
Record instance_of (hosts : list str) (env : gmap str EnvValue) (n n' : Node) : Prop := {
  io_id : n_id n' = dotted hosts (n_id n);
  io_program : same_program n n';
  io_inputs : ∀ name, ∃ source, n_inputs n' !! name = with_source source <$> n_inputs n !! name;
  io_records : length <$> n_record n' = length <$> n_record n;
  io_env : n_env n' = n_env n ∪ env;
}.

Lemma plain_instance input rw n n' : plain_of input rw n = Ok n' → instance_of [] (sc_ancestor_env input ∪ env_chain []) n n'.
Proof.
  intros (Hp & Hid & Henv & Hin & Hrec)%plain_of_ok. split; [done|done| | |].
  - intros name. specialize (Hin name). destruct (n_inputs n !! name) as [i|].
    + destruct Hin as (src & _ & _ & ->). by exists src.
    + rewrite Hin. by exists [].
  - destruct (n_record n) as [r|], (n_record n') as [r'|]; try done. cbn. by rewrite (Forall2_length _ _ _ Hrec).
  - cbn. by rewrite map_union_empty.
Qed.

Lemma relabelled_instance hosts env n n1 n2 : relabelled n1 n2 → instance_of hosts env n n1 → instance_of hosts env n n2.
Proof.
  intros E [Hid Hp Hin Hr Henv]. unfold relabelled in E.
  assert (same_program n1 n2) as Hp' by (unfold same_program; by rewrite E).
  split; [by rewrite E|by eapply same_program_trans|..]; rewrite E; cbn; done.
Qed.

Lemma prefix_instance host ids hosts env n n1 :
  instance_of hosts env n n1 → instance_of (host :: hosts) env n (prefix_node host ids n1).
Proof.
  intros [Hid Hp Hin Hr Henv]. split; cbn.
  - by rewrite Hid.
  - by eapply same_program_trans.
  - intros name. rewrite lookup_fmap. destruct (Hin name) as [src ->]. rewrite <-option_fmap_compose.
    destruct (n_inputs n !! name) as [i|]; [|by exists []]. cbn. eexists (rewrite_reference_node_id _ _). by destruct i.
  - rewrite <-Hr, <-option_fmap_compose. destruct (n_record n1) as [r|]; [|done]. cbn. by rewrite length_map.
  - done.
Qed.

Lemma record_output_rewrites_ok host res rw res' rw' :
  record_output_rewrites (IoError := IoError) (ParseError := ParseError) host res rw = Ok (res', rw') →
  sr_local_ids res' = sr_local_ids res ∧ expose (IoError := IoError) (ParseError := ParseError) host (n_outputs host) (sr_nodes res) rw
    = Ok (sr_nodes res', rw') ∧ Forall2 relabelled (sr_nodes res) (sr_nodes res').
Proof.
  unfold record_output_rewrites. destruct (expose _ _ _ _) as [[nodes rw1]|] eqn:E; [|done]. cbn [rbind]. intros [= <- <-].
  split_and!; [done|done|]. by eapply expose_relabelled.
Qed.

(** What is below a host of the list. *)
Definition hosted_origin (l : list Node) (base : PathBuf) (hosts : list str) (chain : list Manifest) (n : Node) : Prop :=
  ∃ host field child hosts' chain', host ∈ l ∧ n_module host = Some field ∧ let path := resolve_module_path base field in
    loads path child ∧ hosts = n_id host :: hosts' ∧ chain = child :: chain' ∧ origin child (default base (parent path)) hosts' chain' n.

(** The nodes are the instances of a set of origins. *)
Definition instances (env : gmap str EnvValue) (O : list str → list Manifest → Node → Prop) (nodes : list Node) : Prop :=
  (∀ n', n' ∈ nodes → ∃ hosts chain n, O hosts chain n ∧ instance_of hosts (env ∪ env_chain chain) n n') ∧
  ∀ hosts chain n, O hosts chain n → ∃ n', n' ∈ nodes ∧ instance_of hosts (env ∪ env_chain chain) n n'.

Lemma instances_hosted l base env host field child acc nodes ids :
  n_module host = Some field → let path := resolve_module_path base field in loads path child →
  instances env (hosted_origin l base) acc →
  instances (env ∪ m_env child) (origin child (default base (parent path))) nodes →
  instances env (hosted_origin (l ++ [host]) base) (acc ++ (prefix_node (n_id host) ids <$> nodes)).
Proof.
  intros Hm path Hl [Ha Ha'] [Hn Hn']. split.
  - intros n' [Hin|Hin]%elem_of_app.
    + destruct (Ha _ Hin) as (hosts & chain & n & (host' & f & c & hs & cs & Hh & Hrest) & Hi). exists hosts, chain, n. split; [|done].
      exists host', f, c, hs, cs. split; [|done]. rewrite elem_of_app. by left.
    + apply list_elem_of_fmap in Hin as (n1 & -> & Hin). destruct (Hn _ Hin) as (hosts & chain & n & Ho & Hi).
      exists (n_id host :: hosts), (child :: chain), n. split.
      * exists host, field, child, hosts, chain. split_and!; [|done..]. rewrite elem_of_app, list_elem_of_singleton. by right.
      * apply prefix_instance. cbn. by rewrite map_union_assoc.
  - intros hosts chain n (host' & f & c & hs & cs & Hh & Hf & Hload & -> & -> & Ho).
    apply elem_of_app in Hh as [Hh| ->%list_elem_of_singleton].
    + destruct (Ha' (n_id host' :: hs) (c :: cs) n) as (n' & Hin & Hi); [by exists host', f, c, hs, cs|].
      exists n'. split; [|done]. rewrite elem_of_app. by left.
    + assert (f = field) as -> by congruence. destruct Hl as (t & Hr & Hy), Hload as (t' & Hr' & Hy').
      fold path in Hr'. rewrite Hr in Hr'. injection Hr' as <-. rewrite Hy in Hy'. injection Hy' as <-.
      destruct (Hn' _ _ _ Ho) as (n1 & Hin & Hi). exists (prefix_node (n_id host) ids n1). split.
      * rewrite elem_of_app, list_elem_of_fmap. right. by exists n1.
      * apply prefix_instance. cbn. by rewrite map_union_assoc.
Qed.

Lemma instances_relabelled env O l l' : Forall2 relabelled l l' → instances env O l → instances env O l'.
Proof.
  intros HF [H1 H2]. split.
  - intros n2 Hin. apply list_elem_of_lookup in Hin as [i Hi]. destruct (Forall2_lookup_r _ _ _ _ _ HF Hi) as (n1 & Hi1 & Hr).
    destruct (H1 n1) as (hosts & chain & n & Ho & Hio); [by eapply list_elem_of_lookup_2|]. exists hosts, chain, n.
    split; [done|]. by eapply relabelled_instance.
  - intros hosts chain n Ho. destruct (H2 _ _ _ Ho) as (n1 & Hin & Hio). apply list_elem_of_lookup in Hin as [i Hi].
    destruct (Forall2_lookup_l _ _ _ _ _ HF Hi) as (n2 & Hi2 & Hr). exists n2. split; [by eapply list_elem_of_lookup_2|].
    by eapply relabelled_instance.
Qed.

(** A scope that expands has exactly the instances of its plain nodes. *)
Lemma expand_scope_instances fuel max_depth stack rules m input res state' :
  (max_depth < length stack + fuel)%nat →
  expand_scope fuel max_depth (mkState stack rules) m input = Some (Ok (res, state')) →
  instances (sc_ancestor_env input) (origin m (sc_base_dir input)) (sr_nodes res).
Proof.
  revert stack rules m input res state'. induction fuel as [|fuel IH]; intros stack rules m input res state' Hf; [done|]. intros Hs.
  destruct (expand_scope_rule fuel max_depth stack m input
    (λ done _ acc, instances (sc_ancestor_env input) (hosted_origin done (sc_base_dir input)) acc) Hf)
    with (rules := rules) (res := res) (state' := state') as (rw & hosted & [HI HI'] & _ & _ & Hpl & Hin); [| | |done|].
  - intros n done rw acc Hm [H1 H2]. split.
    + intros n' Hn'. destruct (H1 _ Hn') as (hosts & chain & n0 & (h & f & c & hs & cs & Hh & Hrest) & Hi).
      exists hosts, chain, n0. split; [|done]. exists h, f, c, hs, cs. split; [|done]. rewrite elem_of_app. by left.
    + intros hosts chain n0 (h & f & c & hs & cs & Hh & Hf' & Hrest). apply H2. exists h, f, c, hs, cs. split; [|done].
      apply elem_of_app in Hh as [Hh| ->%list_elem_of_singleton]; [done|congruence].
  - intros host field done rest rw acc rules' path child cin r st r' rw' Hm Hfield HI Hload Hrec Hro.
    apply load_module_ok in Hload as (-> & _ & Hlt & Hl & header & _ & _ & _ & b & _ & ->).
    apply record_output_rewrites_ok in Hro as (Hids & _ & Hrel). unfold prefix_child_nodes. rewrite Hids.
    apply (instances_hosted done (sc_base_dir input) _ host field child); [done|done|done|].
    eapply instances_relabelled; [exact Hrel|]. apply IH in Hrec; [done|]. rewrite length_app. cbn. lia.
  - split; [by intros n' ?%elem_of_nil|]. intros hosts chain n (h & f & c & hs & cs & Hh & _). by apply elem_of_nil in Hh.
  - split.
    + intros n' [(n & Hn & Hm & Hp)|Hh]%Hin.
      * exists [], [], n. split; [by constructor|]. by eapply plain_instance.
      * destruct (HI _ Hh) as (hosts & chain & n & (h & f & c & hs & cs & ? & ? & ? & -> & -> & ?) & Hi).
        exists (n_id h :: hs), (c :: cs), n. split; [|done]. by eapply origin_module.
    + intros hosts chain n Ho. destruct Ho as [m base n Hn Hm|m base host field child hosts chain n Hh Hm path Hl Ho].
      * destruct (Hpl _ Hn Hm) as (n' & Hn'). exists n'. split; [apply Hin; left; by exists n|]. by eapply plain_instance.
      * destruct (HI' (n_id host :: hosts) (child :: chain) n) as (n' & Hn' & Hi); [by exists host, field, child, hosts, chain|].
        exists n'. split; [apply Hin; by right|done].
Qed.

(** *** The environment after pruning *)

(** The same value, or an equal one in the sense of [PartialEq]. *)
Definition env_agrees (a b : option EnvValue) : Prop :=
  a = b ∨ ∃ x y, a = Some x ∧ b = Some y ∧ env_eqb x y = true.

Lemma pruned_env root_env n k :
  (∀ v, root_env !! k = Some v → is_Some (n_env n !! k)) →
  env_agrees (effective_env root_env (prune_node root_env n) !! k) (n_env n !! k).
Proof.
  intros Hroot. unfold effective_env. cbn. rewrite lookup_union. destruct (n_env n !! k) as [v|] eqn:Ev.
  - destruct (decide (redundant root_env (k, v))) as [Hr|Hr].
    + rewrite (map_lookup_filter_None_2 _ _ k) by (right; naive_solver). unfold redundant in Hr. cbn in Hr.
      destruct (root_env !! k) as [v0|]; [|done]. right. by exists v0, v.
    + rewrite (map_lookup_filter_Some_2 _ _ k v Ev Hr). left. by destruct (root_env !! k).
  - rewrite (map_lookup_filter_None_2 _ _ k) by (by left). destruct (root_env !! k) as [v|] eqn:Er; [|by left].
    by destruct (Hroot v eq_refl).
Qed.

(** What a plain node [n] below [hosts] has become in the result: its id is
    dotted, its sources are rewired, and its environment is its own over the
    root's over that of the modules, the outer first. *)
Record flattened (root : Manifest) (hosts : list str) (chain : list Manifest) (n n' : Node) : Prop := {
  fl_id : n_id n' = dotted hosts (n_id n);
  fl_program : same_program n n';
  fl_inputs : ∀ name, ∃ source, n_inputs n' !! name = with_source source <$> n_inputs n !! name;
  fl_records : length <$> n_record n' = length <$> n_record n;
  fl_env : ∀ k, env_agrees (effective_env (m_env root) n' !! k) ((n_env n ∪ (m_env root ∪ env_chain chain)) !! k);
}.

Lemma instance_flattened root hosts chain n n' :
  instance_of hosts (m_env root ∪ env_chain chain) n n' → flattened root hosts chain n (prune_node (m_env root) n').
Proof.
  intros [Hid Hp Hin Hr Henv]. split; [done|by eapply same_program_trans|done|done|].
  intros k. rewrite <-Henv. apply pruned_env. intros v Hv. rewrite Henv, !lookup_union, Hv.
  destruct (n_env n !! k), (env_chain chain !! k); cbn; eauto.
Qed.

Lemma origin_plain_node m base hosts chain n : origin m base hosts chain n → n_module n = None.
Proof. by induction 1. Qed.

Lemma expand_inv manifest base max_depth m' :
  expand_with_options (IoError := IoError) from_yaml_str manifest base max_depth = Some (Ok m') →
  ∃ res state', expand_scope (S max_depth) max_depth (mkState [] []) manifest
      (mkScopeInput base (m_env manifest) boundary_default (lit "the root manifest")) = Some (Ok (res, state')) ∧
    m' = prune_redundant_env (mkManifest (sr_nodes res) (m_strict_types manifest) (dedupe_type_rules (st_type_rules state'))
           (m_deploy manifest) None (m_env manifest)).
Proof.
  unfold expand_with_options. destruct (Expand.expand_scope _ _ _ _ _ _) as [[[res st]|e]|]; cbn [obind]; [|done..].
  intros [= <-]. by exists res, st.
Qed.

Lemma expand_scope_ids fuel max_depth stack rules m input res state' :
  (max_depth < length stack + fuel)%nat →
  expand_scope fuel max_depth (mkState stack rules) m input = Some (Ok (res, state')) → NoDup (n_id <$> sr_nodes res).
Proof.
  destruct fuel as [|fuel]; [done|]. intros Hf Hs.
  destruct (expand_scope_rule fuel max_depth stack m input (λ _ _ _, True) Hf)
    with (rules := rules) (res := res) (state' := state') as (_ & _ & _ & ? & _); done.
Qed.

(** ** References after expansion *)

(** The first segment of a dotted id. *)
Definition head_of (id : str) : str := (split_at_first (N.eqb 46) id).1.

Definition heads (m : Manifest) : gset str := list_to_set ((λ n, head_of (n_id n)) <$> m_nodes m).

(** A host's sources name no module hosted at the same place or later. *)
Definition refers_to (source id : str) : bool :=
  match split_reference source with Some (id', _) => bool_decide (id' = id) | None => false end.

Fixpoint hosts_in_order (l : list Node) : bool :=
  match l with
  | [] => true
  | n :: rest =>
      (negb (present (n_module n))
       || forallb (λ i, forallb (λ h, negb (present (n_module h) && refers_to (in_source i) (n_id h))) (n :: rest))
            (map_values (n_inputs n)))
      && hosts_in_order rest
  end.

(** The manifests an expansion opens, from the root down the hosts:
    [included root base dir stack around m] when [m], whose modules are looked
    up from [dir], is reached through the files of [stack] (none of them
    twice), inside the manifests [around]. *)
Inductive included (root : Manifest) (base : PathBuf) : PathBuf → list PathBuf → list Manifest → Manifest → Prop :=
| included_root : included root base base [] [] root
| included_module dir stack around m host field child :
    included root base dir stack around m → host ∈ m_nodes m → n_module host = Some field →
    let path := resolve_module_path dir field in path ∉ stack → loads path child →
    included root base (default dir (parent path)) (stack ++ [path]) (around ++ [m]) child.

(** Manifests that can be put together: each manifest the expansion opens is
    valid, none of its hosts refers to a module hosted later, and its ids
    differ in their first segment from those of the manifests around it. *)
Record composable (root : Manifest) (base : PathBuf) : Prop := {
  cp_no_module : m_module root = None;
  cp_valid : ∀ dir stack around m, included root base dir stack around m → validate m = Ok tt;
  cp_order : ∀ dir stack around m, included root base dir stack around m → hosts_in_order (m_nodes m) = true;
  cp_apart : ∀ dir stack around m m', included root base dir stack around m → m' ∈ around → heads m' ## heads m;
}.

Lemma head_prefixed h id : head_of (prefixed h id) = head_of h.
Proof.
  unfold head_of, prefixed. change ([46] ++ id) with (46 :: id). induction h as [|c h IH]; [done|].
  change ((c :: h) ++ 46 :: id) with (c :: (h ++ 46 :: id)). cbn [split_at_first]. destruct (N.eqb 46 c); [done|].
  destruct (split_at_first (N.eqb 46) (h ++ 46 :: id)) as [x y], (split_at_first (N.eqb 46) h) as [x' y']. cbn in *. by rewrite IH.
Qed.

Lemma prefixed_plain h id : plain_id h → plain_id id → plain_id (prefixed h id).
Proof.
  intros [_ Hh] [_ Hi]. split; [by destruct h|]. unfold prefixed. apply Forall_app. split; [done|]. by constructor.
Qed.

(** A dotted id is neither of the reserved words. *)
Lemma prefixed_dot h id : 46 ∈ prefixed h id.
Proof. unfold prefixed. rewrite elem_of_app. right. cbn. by left. Qed.

Definition reserved (id : str) : Prop := id = lit "astrs" ∨ id = MODULE_BOUNDARY_NODE_ID.

Lemma prefixed_not_reserved h id : ¬ reserved (prefixed h id).
Proof.
  pose proof (prefixed_dot h id) as Hd. intros [E|E]; rewrite E in Hd; revert Hd; apply (bool_decide_eq_false _); vm_compute; reflexivity.
Qed.

Lemma validate_ids m : validate m = Ok tt → ∀ n, n ∈ m_nodes m → plain_id (n_id n).
Proof.
  unfold validate. destruct (violations m) eqn:E; [|done]. intros _. unfold violations in E.
  apply app_nil in E as [Hids _]. revert Hids. unfold check_node_ids. generalize 0%nat, (∅ : gset str).
  induction (m_nodes m) as [|n l IH]; intros i seen; cbn [check_ids]; [by intros _ n ?%elem_of_nil|].
  intros E. apply app_nil in E as [Hc E]. apply app_nil in E as [_ E]. apply error_if_nil in Hc.
  intros n' [->|Hin]%elem_of_cons; [|by eapply IH]. apply negb_false_iff in Hc. unfold is_valid_id_charset in Hc.
  destruct (n_id n) as [|c id]; [done|]. split; [done|]. apply Is_true_true, forallb_True in Hc. eapply Forall_impl; [exact Hc|].
  intros x Hx -> . by vm_compute in Hx.
Qed.

(** *** Which references resolve *)

Definition uses (n : Node) (s : str) : Prop :=
  (∃ name i, n_inputs n !! name = Some i ∧ in_source i = s) ∨ ∃ r, n_record n = Some r ∧ s ∈ r.

Definition avail (nodes : list Node) (id port : str) : Prop := ∃ n, n ∈ nodes ∧ n_id n = id ∧ port ∈ n_outputs n.

(** A reference to a port for which [P] holds. *)
Definition names (P : str → str → Prop) (s : str) : Prop :=
  ∃ id port, s = reference id port ∧ plain_id id ∧ port ≠ [] ∧ ¬ reserved id ∧ P id port.

Definition virtual (s : str) : Prop := ∃ v, recognize s = Some (Ok v).

(** A virtual source, what the including scope supplies, or a reference. *)
Definition good (b : Boundary) (P : str → str → Prop) (s : str) : Prop :=
  virtual s ∨ (∃ port, bo_inputs b !! port = Some s) ∨ names P s.

(** What is supplied from outside: its ids start with a segment in [H]. *)
Definition outer (H : str → Prop) (b : Boundary) : Prop :=
  ∀ port s, bo_inputs b !! port = Some s → virtual s ∨ names (λ id _, H (head_of id)) s.

Lemma names_impl P Q s : (∀ id port, P id port → Q id port) → names P s → names Q s.
Proof. intros HPQ (id & port & ? & ? & ? & ? & ?). exists id, port. split_and!; auto. Qed.

Lemma good_impl b P Q s : (∀ id port, P id port → Q id port) → good b P s → good b Q s.
Proof. intros HPQ [?|[?|?]]; [by left|by right; left|right; right]. by eapply names_impl. Qed.

Lemma recognize_names P s : names P s → recognize s = None.
Proof.
  intros (id & port & -> & [_ Hid] & _ & Hr & _). apply recognize_reference; [done|]. intros ->. apply Hr. by left.
Qed.

(** Renaming the local ids in a source. *)
Lemma rename_virtual rename s : virtual s → rewrite_reference_node_id rename s = s.
Proof. intros [v Hv]. unfold rewrite_reference_node_id. by rewrite Hv. Qed.

Lemma rename_reference rename id port :
  plain_id id → port ≠ [] → ¬ reserved id →
  rewrite_reference_node_id rename (reference id port)
  = match rename id with Some id' => reference id' port | None => reference id port end.
Proof.
  intros Hid Hp Hr. unfold rewrite_reference_node_id.
  rewrite (recognize_names (λ _ _, True)) by (by exists id, port). by rewrite split_reference_ok.
Qed.

Lemma uses_prefixed h ids n s :
  uses (prefix_node h ids n) s → ∃ s0, uses n s0 ∧
    s = rewrite_reference_node_id (λ id, if bool_decide (id ∈ ids) then Some (prefixed h id) else None) s0.
Proof.
  intros [(name & i & Hi & <-)|(r & Hr & Hs)].
  - cbn in Hi. rewrite lookup_fmap in Hi. apply fmap_Some in Hi as (i0 & Hi0 & ->). exists (in_source i0). split; [|done].
    left. by exists name, i0.
  - cbn in Hr. apply fmap_Some in Hr as (r0 & Hr0 & ->). apply list_elem_of_fmap in Hs as (s0 & -> & Hs). exists s0.
    split; [|done]. right. by exists r0.
Qed.

Lemma relabelled_uses n n' s : relabelled n n' → uses n' s → uses n s.
Proof. intros -> H. exact H. Qed.

Lemma avail_prefixed h ids l id port : avail l id port → avail (prefix_node h ids <$> l) (prefixed h id) port.
Proof. intros (n & Hn & <- & Ho). exists (prefix_node h ids n). split; [by apply list_elem_of_fmap_2|done]. Qed.

Lemma avail_relabelled l l' id port : Forall2 relabelled l l' → avail l id port ↔ avail l' id port.
Proof.
  intros HF. split; intros (n & Hn & Hid & Ho); apply list_elem_of_lookup in Hn as [i Hi].
  - destruct (Forall2_lookup_l _ _ _ _ _ HF Hi) as (n' & Hi' & Hr). exists n'. split; [by eapply list_elem_of_lookup_2|].
    by rewrite Hr.
  - destruct (Forall2_lookup_r _ _ _ _ _ HF Hi) as (n' & Hi' & Hr). exists n'. split; [by eapply list_elem_of_lookup_2|].
    by rewrite Hr in Hid, Ho.
Qed.

Lemma elem_of_producers port nodes id spelling :
  (id, spelling) ∈ producers port nodes → avail nodes id spelling ∧ (port ≠ [] → spelling ≠ []).
Proof.
  unfold producers. rewrite list_elem_of_join. intros (l & Hin & Hl). apply list_elem_of_fmap in Hl as (n & -> & Hn).
  apply elem_of_app in Hin as [Hin|Hin]; case_bool_decide as Ho; try (by apply elem_of_nil in Hin);
    apply list_elem_of_singleton in Hin as [= -> ->]; (split; [by exists n|done]).
Qed.

Lemma expose_ok host ports nodes rw nodes' rw' :
  expose (IoError := IoError) (ParseError := ParseError) host ports nodes rw = Ok (nodes', rw') →
  (∀ key v, rw' !! key = Some v → rw !! key = Some v ∨ ∃ port id spelling, key = reference (n_id host) port ∧
     v = reference (prefixed (n_id host) id) spelling ∧ avail nodes id spelling ∧ (port ≠ [] → spelling ≠ [])) ∧
  (∀ key, is_Some (rw !! key) → is_Some (rw' !! key)) ∧ ∀ port, port ∈ ports → is_Some (rw' !! reference (n_id host) port).
Proof.
  revert nodes rw. induction ports as [|port ports IH]; intros nodes rw; cbn [expose].
  { intros [= <- <-]. split_and!; [auto|done|by intros ? ?%elem_of_nil]. }
  destruct (producers port nodes) as [|[id spelling] [|]] eqn:Ep; [done| |done]. intros H.
  assert (Forall2 relabelled nodes (match n_output_types host !! port with Some ty => annotate id spelling ty nodes | None => nodes end))
    as Hrel by (destruct (n_output_types host !! port); [apply annotate_relabelled|done]).
  destruct (elem_of_producers port nodes id spelling) as [Ha Hne]; [rewrite Ep; by left|].
  apply IH in H as (H1 & H2 & H3). fold (reference (n_id host) port) in *. split_and!.
  - intros key v Hk. destruct (H1 _ _ Hk) as [Hin|(p & i & sp & -> & -> & Hav & Hp)].
    + destruct (decide (reference (n_id host) port = key)) as [<-|Hk'].
      * rewrite lookup_insert_eq in Hin. injection Hin as <-. right. exists port, id, spelling. split_and!; [done| |done|done].
        exact (app_assoc (n_id host) ([46] ++ id) ([47] ++ spelling)).
      * rewrite lookup_insert_ne in Hin by done. by left.
    + right. exists p, i, sp. split_and!; [done..| |done]. by rewrite (avail_relabelled _ _ _ _ Hrel).
  - intros key Hk. apply H2. destruct (decide (reference (n_id host) port = key)) as [<-|Hk'].
    + rewrite lookup_insert_eq. eauto.
    + by rewrite lookup_insert_ne.
  - intros p [->|Hp]%elem_of_cons; [|by apply H3]. apply H2. rewrite lookup_insert_eq. eauto.
Qed.

(** *** The invariant of a scope *)

Section composed.
Variables (root : Manifest) (base : PathBuf).
Hypothesis Hc : composable root base.

Notation open_at := (included root base).

(** The first segments of the ids of the manifests around a scope. *)
Definition outside (around : list Manifest) (x : str) : Prop := ∃ m, m ∈ around ∧ x ∈ heads m.

Lemma open_valid dir stack around m : open_at dir stack around m → validate m = Ok tt ∧ hosts_in_order (m_nodes m) = true.
Proof. intros Ho. split; [by eapply cp_valid|by eapply cp_order]. Qed.

Lemma elem_of_heads n m : n ∈ m_nodes m → head_of (n_id n) ∈ heads m.
Proof. intros Hn. apply elem_of_list_to_set, list_elem_of_fmap. by exists n. Qed.

Lemma outside_apart dir stack around child x : open_at dir stack around child → outside around x → x ∉ heads child.
Proof. intros Ho (m & Hin & Hx) Hx'. apply (cp_apart _ _ Hc _ _ _ _ _ Ho Hin x Hx Hx'). Qed.

Lemma outside_push around m x : outside around x → outside (around ++ [m]) x.
Proof. intros (m' & Hin & Hx). exists m'. split; [|done]. rewrite elem_of_app. by left. Qed.

Lemma outside_here around m x : x ∈ heads m → outside (around ++ [m]) x.
Proof. intros Hx. exists m. split; [|done]. rewrite elem_of_app, list_elem_of_singleton. by right. Qed.

Lemma in_order_before m done host rest name i h port :
  hosts_in_order (m_nodes m) = true → m_nodes m = done ++ host :: rest → is_Some (n_module host) →
  n_inputs host !! name = Some i → h ∈ m_nodes m → is_Some (n_module h) → plain_id (n_id h) → port ≠ [] →
  in_source i = reference (n_id h) port → h ∈ done.
Proof.
  intros Ho Hm [f Hf] Hi Hh [f' Hf'] Hid Hp Hs. rewrite Hm in Ho, Hh. clear Hm. apply elem_of_app in Hh as [Hh|Hh]; [done|exfalso]. revert Ho.
  induction done as [|n done IH]; cbn [hosts_in_order app]; [|intros [_ Ho]%andb_true_iff; by apply IH].
  rewrite Hf. cbn [present negb orb]. intros [Ha _]%andb_true_iff. apply Is_true_true, forallb_True in Ha.
  rewrite Forall_forall in Ha. specialize (Ha i). rewrite elem_of_map_values in Ha. specialize (Ha (ex_intro _ name Hi)).
  apply forallb_True in Ha. rewrite Forall_forall in Ha. specialize (Ha h Hh). rewrite Hf' in Ha. cbn in Ha.
  unfold refers_to in Ha. rewrite Hs, split_reference_ok in Ha by done. by rewrite bool_decide_eq_true_2 in Ha.
Qed.

Section one_scope.
Variables (dir : PathBuf) (stack : list PathBuf) (around : list Manifest) (m : Manifest) (input : ScopeInput).
Hypothesis Hopen : open_at dir stack around m.
Hypothesis Houter : outer (outside around) (sc_boundary input).

(** The ports of the scope: of its plain nodes and of what its hosts have
    become so far. *)
Definition ports (acc : list Node) (id port : str) : Prop :=
  (∃ n, n ∈ m_nodes m ∧ n_module n = None ∧ n_id n = id ∧ port ∈ n_outputs n) ∨ avail acc id port.

Record rewritten (done : list Node) (rw : gmap str str) (acc : list Node) : Prop := {
  rw_target : ∀ key v, rw !! key = Some v → ∃ host port id spelling, host ∈ m_nodes m ∧ key = reference (n_id host) port ∧
    v = reference (prefixed (n_id host) id) spelling ∧ plain_id id ∧ avail acc (prefixed (n_id host) id) spelling ∧
    (port ≠ [] → spelling ≠ []);
  rw_known : ∀ host port, host ∈ done → is_Some (n_module host) → port ∈ n_outputs host →
    is_Some (rw !! reference (n_id host) port);
}.

Lemma scope_source_good done rw acc source src hint :
  rewritten done rw acc → resolve source (index_build m) = Ok tt →
  (∀ h port, h ∈ m_nodes m → is_Some (n_module h) → port ≠ [] → source = reference (n_id h) port → h ∈ done) →
  scope_source input rw source = Ok (src, hint) → good (sc_boundary input) (ports acc) src.
Proof.
  intros [Ht Hk] Hres Hdone. unfold resolve in Hres. unfold scope_source, rewrite_plain_source.
  destruct (recognize source) as [[v|e]|] eqn:Ev; [intros [= <- _]; left; by exists v|done|].
  destruct (split_once 47 source) as [[id port]|] eqn:Es; [|done]. apply split_once_inv in Es as [-> Hid].
  case_bool_decide as Hnil; [done|]. case_bool_decide as Hnp; [done|]. cbn [orb] in Hres. fold (reference id port) in *.
  change (id ++ 47 :: port) with (reference id port) in *.
  pose proof (proj1 (recognize_reference id port Hid) Ev) as Ha.
  case_bool_decide as Hmod.
  - subst id. rewrite (proj2 (boundary_reference _ port) eq_refl).
    destruct (bo_inputs (sc_boundary input) !! port) as [value|] eqn:Eb; [|done]. intros [= <- _]. right. left. by exists port.
  - destruct (strip_prefix _ _ ≫= _) as [p|] eqn:Eb.
    { apply boundary_reference, spelled_reference_inj in Eb as [-> _]; [done|done|]. repeat constructor; done. }
    unfold index_build in Hres. cbn in Hres. destruct (foldl _ ∅ _ !! id) as [outs|] eqn:Eo; [|done].
    case_bool_decide as Hport; [|done]. apply index_outputs in Eo as [Eo|(n & Hn & <- & <-)]; [by rewrite lookup_empty in Eo|].
    destruct (rw !! reference (n_id n) port) as [v|] eqn:Er; intros [= <- _]; right; right.
    + destruct (Ht _ _ Er) as (host & p & x & sp & Hh & Hkey & -> & Hx & Hav & Hsp).
      destruct (open_valid _ _ _ _ Hopen) as [Hv _]. pose proof (validate_ids _ Hv _ Hh) as Hhid.
      apply spelled_reference_inj in Hkey as [_ <-]; [|done|apply Hhid].
      exists (prefixed (n_id host) x), sp. split_and!; [done|by apply prefixed_plain|by apply Hsp|apply prefixed_not_reserved|by right].
    + exists (n_id n), port. split_and!; [done|done|done| |].
      * by intros [?|?].
      * left. exists n. split_and!; [done| |done|done]. destruct (n_module n) eqn:Em; [|done].
        destruct (Hk n port) as [v Hv]; [|by rewrite Em|done|congruence]. by apply (Hdone n port); [|rewrite Em| |].
Qed.

Lemma host_source_good done rw acc host rest name i src hint :
  rewritten done rw acc → m_nodes m = done ++ host :: rest → is_Some (n_module host) → n_inputs host !! name = Some i →
  scope_source input rw (in_source i) = Ok (src, hint) → good (sc_boundary input) (ports acc) src.
Proof.
  intros Hr Hm Hh Hi. destruct (open_valid _ _ _ _ Hopen) as [Hv Hord]. apply scope_source_good with (done := done); [done|..].
  - eapply rf_inputs; [by apply validate_referenced| |done]. rewrite Hm, elem_of_app. right. by left.
  - intros h port Hin Hmod Hp Hs. eapply in_order_before; try done. by apply validate_ids with (m := m).
Qed.

(** The ids of a scope start like its manifest's. *)
Definition local_id (id : str) : Prop := plain_id id ∧ head_of id ∈ heads m.

Lemma good_outside acc s :
  (∀ n, n ∈ acc → local_id (n_id n)) → good (sc_boundary input) (ports acc) s →
  virtual s ∨ names (λ id _, outside (around ++ [m]) (head_of id)) s.
Proof.
  intros Hacc [Hv|[[port Hp]|Hn]]; [by left| |right].
  - destruct (Houter _ _ Hp) as [?|Hn]; [by left|right]. eapply names_impl; [|exact Hn]. intros id q. apply outside_push.
  - eapply names_impl; [|exact Hn]. intros id port [(n & Hin & _ & <- & _)|(n & Hin & <- & _)]; apply outside_here.
    + by apply elem_of_heads.
    + by apply Hacc.
Qed.
End one_scope.


(** What a scope's nodes satisfy. *)
Record sound (m : Manifest) (b : Boundary) (P : str → str → Prop) (nodes : list Node) : Prop := {
  so_ids : ∀ n, n ∈ nodes → local_id m (n_id n);
  so_uses : ∀ n s, n ∈ nodes → uses n s → good b P s;
}.

Lemma supplied_good dir stack around m input done rw acc host rest header cb port s :
  open_at dir stack around m → rewritten m done rw acc → m_nodes m = done ++ host :: rest → is_Some (n_module host) →
  child_boundary (IoError := IoError) (ParseError := ParseError) input rw header host = Ok cb → bo_inputs cb !! port = Some s →
  good (sc_boundary input) (ports m acc) s.
Proof.
  intros Ho Hr Hm Hh Hb Hs. unfold child_boundary in Hb. destruct (supply _ _ _) as [b|] eqn:Es; [|done].
  cbn [rbind] in Hb. injection Hb as <-. cbn in Hs.
  destruct (supply_ok _ _ _ _ _ _ Es Hs) as [He|(i & hint & Hin & Hsrc)]; [cbn in He; by apply lookup_empty_Some in He|].
  apply elem_of_map_entries in Hin. by eapply (host_source_good dir stack around m input Ho done rw acc host rest port i s hint).
Qed.

Section hosting.
Variables (dir dir' : PathBuf) (stack stack' : list PathBuf) (around : list Manifest) (m : Manifest) (input : ScopeInput).
Variables (done rest acc : list Node) (rw : gmap str str).
Variables (host : Node) (child : Manifest) (cb : Boundary) (header : ModuleHeader) (nodes : list Node) (ids : gset str).
Hypothesis Hopen : open_at dir stack around m.
Hypothesis Houter : outer (outside around) (sc_boundary input).
Hypothesis Hm : m_nodes m = done ++ host :: rest.
Hypothesis Hhost : is_Some (n_module host).
Hypothesis Hrw : rewritten m done rw acc.
Hypothesis Hacc : sound m (sc_boundary input) (ports m acc) acc.
Hypothesis Hchild : open_at dir' stack' (around ++ [m]) child.
Hypothesis Hcb : child_boundary (IoError := IoError) (ParseError := ParseError) input rw header host = Ok cb.
Hypothesis Hids : ∀ id, id ∈ ids ↔ id ∈ n_id <$> nodes.

Lemma supplied_outer : outer (outside (around ++ [m])) cb.
Proof.
  intros port s Hs. pose proof (supplied_good _ _ _ _ _ _ _ _ _ _ _ _ _ _ Hopen Hrw Hm Hhost Hcb Hs) as Hg.
  exact (good_outside around m input Houter acc s (so_ids _ _ _ _ Hacc) Hg).
Qed.

Hypothesis Hnodes : sound child cb (avail nodes) nodes.

Notation hoisted := (prefix_node (n_id host) ids <$> nodes).

Lemma host_in : host ∈ m_nodes m.
Proof. rewrite Hm, elem_of_app. right. by left. Qed.

Lemma ports_more id port : ports m acc id port → ports m (acc ++ hoisted) id port.
Proof.
  intros [?|(n & Hn & ?)]; [by left|right]. exists n. split; [|done]. rewrite elem_of_app. by left.
Qed.

(** A source of the module, seen from the including scope. *)
Lemma hoisted_good s :
  good cb (avail nodes) s →
  good (sc_boundary input) (ports m (acc ++ hoisted))
    (rewrite_reference_node_id (λ id, if bool_decide (id ∈ ids) then Some (prefixed (n_id host) id) else None) s).
Proof.
  destruct (open_valid _ _ _ _ Hopen) as [Hv _]. pose proof (validate_ids _ Hv _ host_in) as Hhid.
  intros [Hvi|[[port Hp]|(id & port & -> & Hid & Hp & Hr & Hav)]].
  - left. by rewrite rename_virtual.
  - pose proof (supplied_good _ _ _ _ _ _ _ _ _ _ _ _ _ _ Hopen Hrw Hm Hhost Hcb Hp) as Hg.
    destruct (good_outside around m input Houter acc s (so_ids _ _ _ _ Hacc) Hg) as [Hvi|Hn].
    { left. by rewrite rename_virtual. }
    destruct Hn as (id & q & -> & Hid & Hq & Hr & Hout). rewrite rename_reference by done.
    rewrite bool_decide_eq_false_2; [eapply good_impl; [|exact Hg]; apply ports_more|].
    intros Hin%Hids. apply list_elem_of_fmap in Hin as (n & -> & Hn). destruct (so_ids _ _ _ _ Hnodes n Hn) as [_ Hhead].
    by eapply outside_apart.
  - rewrite rename_reference by done. rewrite bool_decide_eq_true_2.
    2: { apply Hids. destruct Hav as (n & Hn & <- & _). by apply list_elem_of_fmap_2. }
    right. right. exists (prefixed (n_id host) id), port.
    split_and!; [done|by apply prefixed_plain|done|apply prefixed_not_reserved|right].
    destruct (avail_prefixed (n_id host) ids _ _ _ Hav) as (n & Hn & ?). exists n. split; [|done]. rewrite elem_of_app. by right.
Qed.

Lemma hosted_sound : sound m (sc_boundary input) (ports m (acc ++ hoisted)) (acc ++ hoisted).
Proof.
  destruct (open_valid _ _ _ _ Hopen) as [Hv _]. pose proof (validate_ids _ Hv _ host_in) as Hhid. split.
  - intros n [Hn|Hn]%elem_of_app; [by apply (so_ids _ _ _ _ Hacc)|]. apply list_elem_of_fmap in Hn as (n0 & -> & Hn).
    destruct (so_ids _ _ _ _ Hnodes n0 Hn) as [Hp _]. split; [by apply prefixed_plain|]. cbn. rewrite head_prefixed.
    apply elem_of_heads, host_in.
  - intros n s [Hn|Hn]%elem_of_app Hu; [eapply good_impl; [|by eapply (so_uses _ _ _ _ Hacc)]; apply ports_more|].
    apply list_elem_of_fmap in Hn as (n0 & -> & Hn). apply uses_prefixed in Hu as (s0 & Hu & ->).
    apply hoisted_good. by eapply (so_uses _ _ _ _ Hnodes).
Qed.

Lemma hosted_rewritten nodes0 rw' :
  (∀ id port, avail nodes0 id port ↔ avail nodes id port) →
  expose (IoError := IoError) (ParseError := ParseError) host (n_outputs host) nodes0 rw = Ok (nodes, rw') →
  rewritten m (done ++ [host]) rw' (acc ++ hoisted).
Proof.
  intros Hsame He. destruct (expose_ok _ _ _ _ _ _ He) as (H1 & H2 & H3). split.
  - intros key v Hk. destruct (H1 _ _ Hk) as [Hold|(port & id & sp & -> & -> & Hav & Hsp)].
    + destruct (rw_target _ _ _ _ Hrw _ _ Hold) as (h & port & id & sp & ? & ? & ? & ? & (n & Hn & ?) & ?).
      exists h, port, id, sp. split_and!; [done..| |done]. exists n. split; [|done]. rewrite elem_of_app. by left.
    + rewrite Hsame in Hav. exists host, port, id, sp. split_and!; [apply host_in|done|done| | |done].
      * destruct Hav as (n & Hn & <- & _). by apply (so_ids _ _ _ _ Hnodes).
      * destruct (avail_prefixed (n_id host) ids _ _ _ Hav) as (n & Hn & ?). exists n. split; [|done]. rewrite elem_of_app. by right.
  - intros h port [Hh| ->%list_elem_of_singleton]%elem_of_app Hmod Hp; [|by apply H3].
    apply H2. by apply (rw_known _ _ _ _ Hrw).
Qed.
End hosting.

Lemma expand_scope_sound fuel max_depth stack around rules m input res state' :
  (max_depth < length stack + fuel)%nat → open_at (sc_base_dir input) stack around m → outer (outside around) (sc_boundary input) →
  expand_scope fuel max_depth (mkState stack rules) m input = Some (Ok (res, state')) →
  sound m (sc_boundary input) (avail (sr_nodes res)) (sr_nodes res) ∧ (∀ id, id ∈ sr_local_ids res ↔ id ∈ n_id <$> sr_nodes res).
Proof.
  revert stack around rules m input res state'. induction fuel as [|fuel IH]; intros stack around rules m input res state' Hf Hopen Hout Hs; [done|].
  destruct (expand_scope_rule fuel max_depth stack m input
    (λ done rw acc, rewritten m done rw acc ∧ sound m (sc_boundary input) (ports m acc) acc) Hf)
    with (rules := rules) (res := res) (state' := state') as (rw & hosted & [Hrw Hso] & _ & Hids & Hpl & Hin); [| | |done|].
  - intros n done rw acc Hm [[Ht Hk] Hso]. split; [split; [done|]|done].
    intros h port [Hh| ->%list_elem_of_singleton]%elem_of_app [f Hf'] Hp; [by apply Hk|congruence].
  - intros host field done rest rw acc rules' path child cin r st r' rw' Hm Hfield [Hrw Hso] Hload Hrec Hro.
    apply load_module_ok in Hload as (-> & Hpath & Hlt & Hl & header & _ & _ & _ & b & Hb & ->).
    assert (host ∈ m_nodes m) as Hhin by (rewrite Hm, elem_of_app; right; by left).
    pose proof (included_module root base _ _ _ _ _ _ _ Hopen Hhin Hfield Hpath Hl) as Hchild. cbv zeta in Hchild.
    apply record_output_rewrites_ok in Hro as (Hids & Hex & Hrel). unfold prefix_child_nodes. rewrite Hids.
    assert (is_Some (n_module host)) as Hh by (rewrite Hfield; eauto).
    pose proof (supplied_outer _ stack around m input done rest acc rw host b header Hopen Hout Hm Hh Hrw Hso Hb) as Hob.
    eapply IH in Hrec as [Hcs Hci]; [|rewrite length_app; cbn; lia|exact Hchild|done].
    cbn in Hcs. assert (∀ id port, avail (sr_nodes r) id port ↔ avail (sr_nodes r') id port) as Hav by (intros; by apply avail_relabelled).
    assert (sound child b (avail (sr_nodes r')) (sr_nodes r')) as Hcs'.
    { destruct Hcs as [C1 C2]. split; intros n; [intros Hn|intros s Hn Hu]; apply list_elem_of_lookup in Hn as [i Hi];
        destruct (Forall2_lookup_r _ _ _ _ _ Hrel Hi) as (n0 & Hi0 & Hr).
      - rewrite Hr. apply (C1 n0). by eapply list_elem_of_lookup_2.
      - eapply good_impl; [intros ? ?; apply Hav|]. apply (C2 n0); [by eapply list_elem_of_lookup_2|]. by eapply relabelled_uses. }
    assert (∀ id, id ∈ sr_local_ids r ↔ id ∈ n_id <$> sr_nodes r') as Hci'.
    { intros id. rewrite Hci. assert (n_id <$> sr_nodes r = n_id <$> sr_nodes r') as ->; [|done].
      clear -Hrel. induction Hrel as [|? ? ? ? Hr]; cbn; [done|]. rewrite IHHrel. by rewrite Hr. }
    split; [by eapply hosted_rewritten|by eapply hosted_sound].
  - split; split.
    + intros key v Hk. by apply lookup_empty_Some in Hk.
    + by intros h port ?%elem_of_nil.
    + by intros n ?%elem_of_nil.
    + by intros n s ?%elem_of_nil.
  - split; [|done]. destruct (open_valid _ _ _ _ Hopen) as [Hv _]. pose proof (validate_referenced _ Hv) as Href.
    assert (∀ id port, ports m hosted id port → avail (sr_nodes res) id port) as Hav.
    { intros id port [(n & Hn & Hmod & <- & Hp)|(n & Hn & ?)].
      - destruct (Hpl n Hn Hmod) as [n' Hn']. exists n'. split; [apply Hin; left; by exists n|].
        destruct (plain_of_ok _ _ _ _ Hn') as (Hsp & Hid & _). split; [done|]. by rewrite Hsp.
      - exists n. split; [apply Hin; by right|done]. }
    split.
    + intros n' [(n & Hn & _ & Hp)|Hn]%Hin; [|by apply (so_ids _ _ _ _ Hso)].
      destruct (plain_of_ok _ _ _ _ Hp) as (_ & -> & _). split; [by apply validate_ids with (m := m)|by apply elem_of_heads].
    + intros n' s [(n & Hn & Hmod & Hp)|Hn]%Hin Hu; eapply good_impl; [exact Hav| |exact Hav|by eapply (so_uses _ _ _ _ Hso)].
      destruct (plain_of_ok _ _ _ _ Hp) as (_ & _ & _ & Hi & Hr).
      assert (∃ s0 hint, resolve s0 (index_build m) = Ok tt ∧ scope_source input rw s0 = Ok (s, hint)) as (s0 & hint & Hres & Hsrc).
      { destruct Hu as [(name & i & Hin' & <-)|(r & Hr' & Hsr)].
        - specialize (Hi name). destruct (n_inputs n !! name) as [i0|] eqn:E0; [|congruence].
          destruct Hi as (src & hint & Hsrc & Hi). rewrite Hi in Hin'. injection Hin' as <-. exists (in_source i0), hint.
          split; [|done]. by eapply rf_inputs.
        - rewrite Hr' in Hr. destruct (n_record n) as [r0|] eqn:E0; [|done]. apply list_elem_of_lookup in Hsr as [k Hk].
          destruct (Forall2_lookup_r _ _ _ _ _ Hr Hk) as (s0 & Hk0 & hint & Hsrc). exists s0, hint. split; [|done].
          eapply rf_records; [done..|]. by eapply list_elem_of_lookup_2. }
      eapply (scope_source_good _ stack around m input Hopen); [done|done| |done]. intros h port Hh _ _ _. done.
Qed.

Lemma unique_outputs (l : list Node) acc n :
  NoDup (n_id <$> l) → n ∈ l →
  foldl (λ (outputs : gmap str (list str)) node, <[n_id node := n_outputs node]> outputs) acc l !! n_id n = Some (n_outputs n).
Proof.
  revert acc. induction l as [|n0 l IH]; intros acc Hnd; [by intros ?%elem_of_nil|]. cbn in *.
  apply NoDup_cons in Hnd as [Hn0 Hnd]. intros [->|Hn]%elem_of_cons; [|by apply IH].
  enough (∀ l acc, n_id n0 ∉ n_id <$> l → foldl (λ (outputs : gmap str (list str)) node, <[n_id node := n_outputs node]> outputs) acc l
    !! n_id n0 = acc !! n_id n0) as -> by (by rewrite ?lookup_insert_eq).
  clear. induction l as [|n1 l IH]; intros acc; cbn; [done|]. rewrite not_elem_of_cons. intros [Hne Hl]. rewrite IH by done.
  by apply lookup_insert_ne.
Qed.

(** References that are good with nothing supplied resolve. *)
Lemma good_resolves m s :
  m_module m = None → NoDup (n_id <$> m_nodes m) → good boundary_default (avail (m_nodes m)) s → resolve s (index_build m) = Ok tt.
Proof.
  intros Hm Hnd [[v Hv]|[[port Hp]|Hn]]; [unfold resolve; by rewrite Hv|cbn in Hp; by apply lookup_empty_Some in Hp|].
  unfold resolve. rewrite (recognize_names _ _ Hn). destruct Hn as (id & port & -> & [Hid Hs] & Hp & Hr & (n & Hn & <- & Ho)).
  unfold reference. cbn [app]. rewrite split_once_app by done. rewrite !bool_decide_eq_false_2 by done. cbn [orb].
  rewrite bool_decide_eq_false_2 by (intros E; apply Hr; by right). unfold index_build. cbn [ni_outputs].
  rewrite unique_outputs by done. by rewrite bool_decide_eq_true_2.
Qed.

Lemma pruned_referenced max_depth m' :
  expand_with_options (IoError := IoError) from_yaml_str root base max_depth = Some (Ok m') → referenced m'.
Proof.
  intros (res & st & Hs & ->)%expand_inv.
  pose proof (expand_scope_ids (S max_depth) max_depth [] [] _ _ _ _ ltac:(cbn; lia) Hs) as Hnd.
  assert (outer (outside []) boundary_default) as Hout by (intros ? ? Hp; cbn in Hp; by apply lookup_empty_Some in Hp).
  eapply expand_scope_sound in Hs as [[_ Hu] _]; [|cbn; lia|apply included_root|done]. cbn in Hu.
  set (m' := prune_redundant_env _).
  assert (NoDup (n_id <$> m_nodes m')) as Hnd' by (cbn; by rewrite <-list_fmap_compose).
  assert (∀ n s, n ∈ m_nodes m' → uses n s → resolve s (index_build m') = Ok tt) as Hres.
  { intros n s Hn Hus. apply list_elem_of_fmap in Hn as (n0 & -> & Hn). apply good_resolves; [done|done|].
    apply (good_impl _ (avail (sr_nodes res))); [|by apply (Hu n0)].
    intros id port (n1 & Hn1 & Hid & Ho). exists (prune_node (m_env root) n1). split; [by apply list_elem_of_fmap_2|done]. }
  split; [done|..].
  - intros n name i Hn Hi. apply (Hres n); [done|]. left. by exists name, i.
  - intros n record value Hn Hr Hv. apply (Hres n); [done|]. right. by exists record.
Qed.
End composed.

(** C29. Expansion always returns, whatever the loader and the parser answer
    for the modules: a cycle of includes and a chain deeper than the limit are
    errors, never an endless recursion. *)
Theorem expansion_always_ends (manifest : Manifest) (base_dir : PathBuf) (max_depth : nat) :
  ∃ r, expand_with_options (IoError := IoError) from_yaml_str manifest base_dir max_depth = Some r.
Proof.
  unfold expand_with_options.
  destruct (expand_scope_ends (S max_depth) max_depth 0 ltac:(lia) ltac:(lia) (mkState [] []) manifest
    (mkScopeInput base_dir (m_env manifest) boundary_default (lit "the root manifest")) eq_refl) as (r & Hr & _).
  rewrite Hr. destruct r as [[res st]|e]; by eexists.
Qed.

(** C27. A successful expansion is exactly the inlining of the modules: the
    nodes of the result, with distinct ids and none of them a module, are the
    plain nodes reachable through hosts, each once under its dotted id, with
    its program, ports and queues, and with the environment in which its own
    values win over the root's and the root's over the modules', the outer
    module first. *)
Theorem expansion_inlines_modules (manifest : Manifest) (base_dir : PathBuf) (max_depth : nat) (m' : Manifest) :
  expand_with_options (IoError := IoError) from_yaml_str manifest base_dir max_depth = Some (Ok m') →
  NoDup (n_id <$> m_nodes m') ∧ m_module m' = None ∧
  (∀ n', n' ∈ m_nodes m' → n_module n' = None ∧
     ∃ hosts chain n, origin manifest base_dir hosts chain n ∧ flattened manifest hosts chain n n') ∧
  ∀ hosts chain n, origin manifest base_dir hosts chain n → ∃ n', n' ∈ m_nodes m' ∧ flattened manifest hosts chain n n'.
Proof.
  intros (res & st & Hs & ->)%expand_inv. cbn.
  pose proof (expand_scope_ids (S max_depth) max_depth [] [] _ _ _ _ ltac:(cbn; lia) Hs) as Hnd.
  destruct (expand_scope_instances (S max_depth) max_depth [] [] _ _ _ _ ltac:(cbn; lia) Hs) as [H1 H2]. cbn in H1, H2.
  split_and!; [by rewrite <-list_fmap_compose|done|..].
  - intros n' Hin. apply list_elem_of_fmap in Hin as (n1 & -> & Hin). destruct (H1 _ Hin) as (hosts & chain & n & Ho & Hi).
    apply instance_flattened in Hi. split; [|by exists hosts, chain, n].
    rewrite (fl_program _ _ _ _ _ Hi). cbn. by eapply origin_plain_node.
  - intros hosts chain n Ho. destruct (H2 _ _ _ Ho) as (n1 & Hin & Hi). exists (prune_node (m_env manifest) n1).
    split; [by apply list_elem_of_fmap_2|]. by apply instance_flattened.
Qed.

(** C28. Valid manifests with distinct ids compose: when each manifest the
    expansion opens, the root and the modules reached from it through hosts,
    passes validation, has no host that refers to a module hosted later, and
    has ids whose first segments differ from those of the manifests that
    enclose it, then what expansion returns builds into a graph whose
    references all resolve and whose inputs are wired as the flattened
    manifest says. *)
Theorem expanded_manifest_builds (manifest : Manifest) (base_dir : PathBuf) (max_depth : nat) (m' : Manifest) :
  composable manifest base_dir →
  expand_with_options (IoError := IoError) from_yaml_str manifest base_dir max_depth = Some (Ok m') → builds m'.
Proof.
  intros Hc He. apply referenced_builds; [by eapply pruned_referenced|]. by apply expand_inv in He as (? & ? & _ & ->).
Qed.
End laws.
