(* ===== verification/ExpandScenarios.v ===== *)
(** * Expansions of small manifests

    A pipeline with one module, evaluated; witnesses for the theorems of
    [ExpandLaws.v]; and two executions that show their conditions are needed:
    a reference supplied from outside is captured by a node of the same id
    inside the module, and pruning takes a negative zero for a positive one. *)

From stdpp Require Import base tactics list gmap strings numbers sorting.
From S2P Require Import Prelude Text Utf8 Ordered TypeUrn Manifest Graph GraphLaws Expand ExpandLaws.

Open Scope N_scope.

Definition scene_inputs (l : list (str * str)) : gmap str Input := list_to_map ((λ p, (p.1, from_source p.2)) <$> l).

Definition stage (id : str) (inputs : list (str * str)) (outputs : list str) (env : gmap str EnvValue) : Node :=
  mkNode id (Some (lit "./bin")) None None None None None None None None None (scene_inputs inputs) outputs ∅ ∅
    None None None None None None env.

Definition include (id module_field : str) (inputs : list (str * str)) (outputs : list str) : Node :=
  mkNode id None None None None None None (Some module_field) None None None (scene_inputs inputs) outputs ∅ ∅
    None None None None None None ∅.

(** The module: a detector between its two ports. *)
Definition leaf (others : list Node) : Manifest :=
  mkManifest (stage (lit "detector") [(lit "frames", lit "_mod/frames")] [lit "boxes"] ∅ :: others) false [] None
    (Some (mkModuleHeader (lit "leaf") [lit "frames"] [lit "boxes"])) {[ lit "LEVEL" := EnvInt 1 ]}.

Definition pipeline (planner_env : gmap str EnvValue) (root_env : gmap str EnvValue) : Manifest :=
  mkManifest
    [ stage (lit "camera") [(lit "tick", lit "astrs/timer/hz/50")] [lit "frames"] ∅;
      stage (lit "planner") [(lit "boxes", lit "perception/boxes")] [] planner_env;
      include (lit "perception") (lit "./modules/../leaf.yaml") [(lit "frames", lit "camera/frames")] [lit "boxes"] ]
    true [] None None root_env.

Definition graphs : PathBuf := components (lit "/graphs").
Definition leaf_path : PathBuf := components (lit "/graphs/leaf.yaml").

Definition scene_files : MemoryModuleLoader := loader_insert leaf_path (lit "leaf") loader_new.

(** A file system: a file is read under any spelling of its path. *)
#[local] Instance scene_loader : ModuleLoader str := {| read_to_string path := loader_get (normalize_path path) scene_files |}.

(** What the parser makes of the one file. *)
Definition scene_parse (others : list Node) (text : str) : result unit Manifest :=
  if bool_decide (text = lit "leaf") then Ok (leaf others) else Err tt.

Definition wiring (m : Manifest) : list (str * list str) := (λ n, (n_id n, in_source <$> map_values (n_inputs n))) <$> m_nodes m.

Definition scene : Manifest := pipeline ∅ {[ lit "LEVEL" := EnvInt 2 ]}.

Definition flat (others : list Node) (m : Manifest) : option Manifest :=
  match expand (scene_parse others) m graphs with Some (Ok m') => Some m' | _ => None end.

Example scene_wiring :
  wiring <$> flat [] scene = Some
    [ (lit "camera", [lit "astrs/timer/hz/50"]); (lit "planner", [lit "perception.detector/boxes"]);
      (lit "perception.detector", [lit "camera/frames"]) ].
Proof. vm_compute. reflexivity. Qed.

(** The root's value wins over the module's. *)
Example scene_env :
  (fmap (λ n, effective_env {[ lit "LEVEL" := EnvInt 2 ]} n !! lit "LEVEL") ∘ m_nodes) <$> flat [] scene
  = Some [Some (EnvInt 2); Some (EnvInt 2); Some (EnvInt 2)].
Proof. vm_compute. reflexivity. Qed.

(** A file that includes itself, and a chain cut at the limit. *)
Example self_inclusion :
  expand (scene_parse [include (lit "again") (lit "leaf.yaml") [] []]) scene graphs = Some (Err (Cycle [leaf_path; leaf_path])).
Proof. vm_compute. reflexivity. Qed.

Example depth_limit : expand_with_options (scene_parse []) scene graphs 0 = Some (Err (DepthExceeded 0)).
Proof. vm_compute. reflexivity. Qed.

(** ** Witnesses *)

Definition scene_flat : Manifest := match flat [] scene with Some m' => m' | None => scene end.

Lemma flat_expands others m m' : flat others m = Some m' → expand_with_options (scene_parse others) m graphs DEFAULT_MAX_DEPTH = Some (Ok m').
Proof. unfold flat, expand. destruct (expand_with_options _ _ _ _) as [[m1|]|]; [|done..]. by intros [= ->]. Qed.

Lemma flat_default others m : present (flat others m) = true → flat others m = Some (match flat others m with Some m' => m' | None => m end).
Proof. by destruct (flat others m). Qed.

Lemma scene_expands : expand_with_options (scene_parse []) scene graphs DEFAULT_MAX_DEPTH = Some (Ok scene_flat).
Proof. apply flat_expands, flat_default. vm_compute. reflexivity. Qed.

Lemma expansion_inlines_modules_witness :
  NoDup (n_id <$> m_nodes scene_flat) ∧ ∃ n', n' ∈ m_nodes scene_flat ∧ n_id n' = lit "perception.detector".
Proof.
  destruct (expansion_inlines_modules (scene_parse []) scene graphs DEFAULT_MAX_DEPTH scene_flat scene_expands)
    as (Hnd & _ & _ & Hall). split; [exact Hnd|].
  destruct (Hall [lit "perception"] [leaf []] (stage (lit "detector") [(lit "frames", lit "_mod/frames")] [lit "boxes"] ∅)) as (n' & Hin & Hf).
  { eapply (origin_module (scene_parse []) scene graphs (include (lit "perception") (lit "./modules/../leaf.yaml")
      [(lit "frames", lit "camera/frames")] [lit "boxes"])); [do 2 right; left|reflexivity| |].
    - exists (lit "leaf"). split; vm_compute; reflexivity.
    - apply origin_plain; [left|reflexivity]. }
  exists n'. split; [exact Hin|]. rewrite (fl_id _ _ _ _ _ Hf). vm_compute. reflexivity.
Defined.

Lemma scene_loads path m : loads (scene_parse []) path m → m = leaf [].
Proof. intros (text & _ & Hp). unfold scene_parse in Hp. case_bool_decide; [|done]. by injection Hp as <-. Qed.

(** The file can be read under another spelling, which the expansion never
    uses. *)
Example leaf_has_two_spellings :
  let other := components (lit "/graphs/../graphs/leaf.yaml") in
  other ≠ leaf_path ∧ read_to_string other = read_to_string leaf_path.
Proof. split; [by vm_compute|vm_compute; reflexivity]. Qed.

Lemma scene_included dir stack around m :
  included (scene_parse []) scene graphs dir stack around m → m = scene ∧ around = [] ∨ m = leaf [] ∧ around = [scene].
Proof.
  induction 1 as [|dir stack around m host field child Hi [[-> ->]|[-> ->]] Hh Hm path Hp Hl]; [by left| |].
  - right. apply scene_loads in Hl as ->. done.
  - apply list_elem_of_singleton in Hh as ->. done.
Qed.

Lemma scene_composable : composable (scene_parse []) scene graphs.
Proof.
  split; [reflexivity|..].
  - intros dir stack around m [[-> _]|[-> _]]%scene_included; vm_compute; reflexivity.
  - intros dir stack around m [[-> _]|[-> _]]%scene_included; vm_compute; reflexivity.
  - intros dir stack around m m' [[_ ->]|[-> ->]]%scene_included Hin; [by apply elem_of_nil in Hin|].
    apply list_elem_of_singleton in Hin as ->. apply (bool_decide_eq_true _). vm_compute. reflexivity.
Qed.

Lemma expanded_manifest_builds_witness : builds scene_flat.
Proof.
  apply (expanded_manifest_builds (scene_parse []) scene graphs DEFAULT_MAX_DEPTH scene_flat scene_composable).
  exact scene_expands.
Defined.

(** ** A captured reference

    The module also has a node called [camera].  The host supplies the root's
    [camera/frames]; after expansion the detector listens to its own module's
    camera. *)

Definition inner_camera : Node := stage (lit "camera") [] [lit "frames"] ∅.

Definition captured : Manifest := match flat [inner_camera] scene with Some m' => m' | None => scene end.

(** The root and the module are valid, the root's camera is supplied, and the
    flattened manifest is valid, but the detector is wired elsewhere. *)
Lemma boundary_reference_is_captured :
  validate scene = Ok tt ∧ validate (leaf [inner_camera]) = Ok tt ∧
  expand_with_options (scene_parse [inner_camera]) scene graphs DEFAULT_MAX_DEPTH = Some (Ok captured) ∧
  validate captured = Ok tt ∧ (lit "perception.detector", [lit "perception.camera/frames"]) ∈ wiring captured.
Proof.
  split; [vm_compute; reflexivity|]. split; [vm_compute; reflexivity|]. split; [|split; [vm_compute; reflexivity|]].
  - apply flat_expands, flat_default. vm_compute. reflexivity.
  - apply (bool_decide_eq_true _). vm_compute. reflexivity.
Qed.

(** ** A negative zero

    The node sets [-0.0], the root [0.0]; the two are equal, so the node's
    value is pruned and the node sees the root's. *)

Definition GAIN : str := lit "GAIN".
Definition negative_zero : EnvValue := EnvFloat 9223372036854775808.

Lemma negative_zero_is_pruned :
  ∃ m', flat [] (pipeline {[ GAIN := negative_zero ]} {[ GAIN := EnvFloat 0 ]}) = Some m' ∧
    (λ n, effective_env (m_env m') n !! GAIN) <$> m_nodes m' !! 1%nat = Some (Some (EnvFloat 0)).
Proof. eexists. split; [vm_compute; reflexivity|]. vm_compute. reflexivity. Qed.
