(* ===== verification/Supervise.v ===== *)
(** * Supervision of a node

    Models [src/crates/astrs-daemon/src/supervise]: the restart decision
    ([policy.rs]) with its budget window ([history.rs]), the taxonomy of exits
    ([exit.rs]), and the tables of deadlines and the ladder from SIGTERM to
    SIGKILL ([watchdog.rs]); with the restart settings and exit causes of
    [src/crates/astrs-wire/src/common].

    Instants and durations are in nanoseconds, the settings of a manifest in
    milliseconds; an earlier instant minus a later one is zero, as in the
    source.

    The theorems: a node is restarted at most [max_restarts] times in any
    window ([restart_budget_holds]), after the delay the documentation promises
    ([backoff_is_exponential]); a node that was told to stop is sent SIGTERM
    once and then SIGKILL once, on schedule ([ladder_climbs_once]). *)

From Stdlib Require Import Lia.
From stdpp Require Import base tactics list gmap strings numbers sorting.
From S2P Require Import Prelude Text Utf8 Ordered.

Open Scope N_scope.

(** ** Settings and causes ([astrs-wire]) *)

Definition u32_limit : N := 4294967295.

(** [DurationMs::to_duration] *)
Definition to_duration (ms : N) : N := ms * 1000000.

(** [DurationMs::checked_mul] *)
Definition ms_checked_mul (ms factor : N) : option N := if ms * factor <=? u64_max then Some (ms * factor) else None.

Inductive RestartPolicy : Set := Never | OnFailure | Always.

Definition should_restart (p : RestartPolicy) (success : bool) : bool :=
  match p with Never => false | OnFailure => negb success | Always => true end.

Record RestartConfig := mkRestart {
  rc_policy : RestartPolicy;
  max_restarts : option N;
  restart_delay : N;
  max_restart_delay : N;
  restart_window : N;
}.

Definition restart_never : RestartConfig := mkRestart Never None 100 30000 60000.

(** [1u64.checked_shl(n)] *)
Definition checked_shl (n : N) : option N := if n <? 64 then Some (2 ^ n) else None.

Definition backoff_for (c : RestartConfig) (restarts_so_far : N) : N :=
  let factor := default u64_max (checked_shl restarts_so_far) in
  N.min (default (max_restart_delay c) (ms_checked_mul (restart_delay c) factor)) (max_restart_delay c).

Definition budget_exhausted (c : RestartConfig) (restarts_in_window : N) : bool :=
  match max_restarts c with Some max => max <=? restarts_in_window | None => false end.

Inductive NodeExitCause : Set :=
| Success
| ExitCode (code : Z)
| Signal (signal : Z) (name : str)
| Panic (message : str)
| SpawnFailed (message : str)
| SpawnDeadlineExceeded (after : N)
| HealthCheckTimeout (after : N)
| Killed (reason : str)
| DaemonShutdown
| RestartBudgetExhausted (restarts window : N)
| Cancelled
| DaemonUnreachable (daemon : str).

Definition is_success (c : NodeExitCause) : bool :=
  match c with Success => true | ExitCode code => Z.eqb code 0 | _ => false end.

Definition is_failure (c : NodeExitCause) : bool :=
  negb (is_success c) && match c with Cancelled | DaemonShutdown => false | _ => true end.

(** ** [exit.rs] *)

Inductive ExitIntent : Set :=
  IntentRunning | StopRequested | TerminatedByWatchdog | KilledByWatchdog | IntentDaemonShutdown.

Definition is_daemon_initiated (i : ExitIntent) : bool :=
  match i with IntentRunning => false | _ => true end.

(** [std::process::ExitStatus] on Unix: a status code or the signal that ended
    the process. *)
Inductive ExitStatus : Set := Exited (code : Z) | Signalled (signal : Z).

Definition signal_of (s : ExitStatus) : option Z := match s with Signalled n => Some n | Exited _ => None end.
Definition status_code (s : ExitStatus) : option Z := match s with Exited n => Some n | Signalled _ => None end.

Definition signed_decimal (z : Z) : str :=
  if Z.ltb z 0 then lit "-" ++ decimal (Z.to_N (- z)) else decimal (Z.to_N z).

Definition signal_name (signal : Z) : str :=
  match signal with
  | 1 => lit "SIGHUP" | 2 => lit "SIGINT" | 3 => lit "SIGQUIT" | 4 => lit "SIGILL" | 5 => lit "SIGTRAP"
  | 6 => lit "SIGABRT" | 7 => lit "SIGBUS" | 8 => lit "SIGFPE" | 9 => lit "SIGKILL" | 10 => lit "SIGUSR1"
  | 11 => lit "SIGSEGV" | 12 => lit "SIGUSR2" | 13 => lit "SIGPIPE" | 14 => lit "SIGALRM" | 15 => lit "SIGTERM"
  | 17 => lit "SIGCHLD" | 18 => lit "SIGCONT" | 19 => lit "SIGSTOP" | 20 => lit "SIGTSTP" | 24 => lit "SIGXCPU"
  | 25 => lit "SIGXFSZ" | 26 => lit "SIGVTALRM" | 27 => lit "SIGPROF" | 31 => lit "SIGSYS"
  | _ => lit "SIG" ++ signed_decimal signal
  end%Z.

Definition is_crash_signal (signal : Z) : bool := bool_decide (signal ∈ [4; 6; 7; 8; 11; 31]%Z).

Definition classify_signal (signal : Z) (intent : ExitIntent) : NodeExitCause :=
  if is_crash_signal signal then Signal signal (signal_name signal)
  else
    match intent with
    | StopRequested | TerminatedByWatchdog => Cancelled
    | KilledByWatchdog => Killed (lit "did not exit within the finish grace period; escalated to " ++ signal_name signal)
    | IntentDaemonShutdown => DaemonShutdown
    | IntentRunning => Signal signal (signal_name signal)
    end.

Definition classify_with_intent (status : ExitStatus) (intent : ExitIntent) : NodeExitCause :=
  match signal_of status with
  | Some signal => classify_signal signal intent
  | None =>
      let code := default (-1)%Z (status_code status) in
      if Z.eqb code 0 then Success
      else match intent with IntentDaemonShutdown => DaemonShutdown | _ => ExitCode code end
  end.

Definition classify (status : ExitStatus) : NodeExitCause := classify_with_intent status IntentRunning.

Definition warrants_peer_notification (cause : NodeExitCause) : bool := is_failure cause.

(** ** [history.rs] *)

Record RestartHistory := mkHistory { h_window : N; h_recent : list N; h_total : N; h_last : option N }.

Definition history_new (window : N) : RestartHistory := mkHistory window [] 0 None.

Definition set_window (window : N) (h : RestartHistory) : RestartHistory :=
  mkHistory window (h_recent h) (h_total h) (h_last h).

(** The timestamps that have aged out leave from the front. *)
Fixpoint aged_out (window now : N) (recent : list N) : list N :=
  match recent with
  | oldest :: rest => if window <=? now - oldest then aged_out window now rest else recent
  | [] => []
  end.

Definition prune (now : N) (h : RestartHistory) : RestartHistory :=
  mkHistory (h_window h) (aged_out (h_window h) now (h_recent h)) (h_total h) (h_last h).

Definition record_restart (now : N) (h : RestartHistory) : RestartHistory :=
  prune now (mkHistory (h_window h) (h_recent h ++ [now]) (N.min (h_total h + 1) u32_limit) (Some now)).

Definition in_window (now : N) (h : RestartHistory) : RestartHistory * N :=
  let h := prune now h in (h, N.min (N.of_nat (length (h_recent h))) u32_limit).

Definition in_window_at (now : N) (h : RestartHistory) : N :=
  N.min (N.of_nat (length (filter (λ instant, now - instant < h_window h) (h_recent h)))) u32_limit.

Definition clear_window (h : RestartHistory) : RestartHistory := mkHistory (h_window h) [] (h_total h) (h_last h).
Definition history_reset (h : RestartHistory) : RestartHistory := mkHistory (h_window h) [] 0 None.

(** ** [policy.rs] *)

Inductive RestartDecision : Set := Restart (delay : N) | StayDown (cause : NodeExitCause).

Definition is_restart (d : RestartDecision) : bool := match d with Restart _ => true | StayDown _ => false end.

Definition decide_restart (config : RestartConfig) (cause : NodeExitCause) (history : RestartHistory) (daemon_initiated : bool)
    (now : N) : RestartHistory * RestartDecision :=
  if daemon_initiated then (history, StayDown cause)
  else if negb (should_restart (rc_policy config) (is_success cause)) then (history, StayDown cause)
  else
    let (history, in_window) := in_window now history in
    if budget_exhausted config in_window then (history, StayDown (RestartBudgetExhausted in_window (restart_window config)))
    else
      let delay := to_duration (backoff_for config (h_total history)) in
      (record_restart now history, Restart delay).

Definition next_backoff (config : RestartConfig) (history : RestartHistory) : N :=
  to_duration (backoff_for config (h_total history)).

Definition config_for (policy : RestartPolicy) : RestartConfig := mkRestart policy None 100 30000 60000.

(** ** [watchdog.rs]: deadlines *)

Record ArmedDeadline := mkArmed { ad_at : N; ad_generation : N }.

Record Expiry (K : Type) := mkExpiry { ex_key : K; ex_generation : N; overdue : N }.
Arguments mkExpiry {K}.
Arguments ex_key {K}.
Arguments ex_generation {K}.
Arguments overdue {K}.

Section deadlines.
Context {K : Type} `{Countable K} `{!KeyOrder K}.

Definition DeadlineTable : Type := gmap K ArmedDeadline.

Definition arm_at (key : K) (generation at_ : N) (t : DeadlineTable) : DeadlineTable := <[key := mkArmed at_ generation]> t.

Definition arm_in (key : K) (generation now after : N) (t : DeadlineTable) : DeadlineTable := arm_at key generation (now + after) t.

Definition disarm (key : K) (t : DeadlineTable) : DeadlineTable * bool := (delete key t, bool_decide (is_Some (t !! key))).

Definition disarm_generation (key : K) (generation : N) (t : DeadlineTable) : DeadlineTable * bool :=
  match t !! key with
  | Some entry => if ad_generation entry =? generation then (delete key t, true) else (t, false)
  | None => (t, false)
  end.

(** The earliest of some instants. *)
Definition earliest (l : list N) : option N :=
  match l with [] => None | x :: rest => Some (foldl N.min x rest) end.

Definition next_deadline (t : DeadlineTable) : option N := earliest (ad_at <$> map_values t).

Fixpoint collect_due (now : N) (due : list K) (t : DeadlineTable) : DeadlineTable * list (Expiry K) :=
  match due with
  | [] => (t, [])
  | key :: rest =>
      match t !! key with
      | None => collect_due now rest t
      | Some entry =>
          let (t, expiries) := collect_due now rest (delete key t) in
          (t, mkExpiry key (ad_generation entry) (now - ad_at entry) :: expiries)
      end
  end.

Definition expired (now : N) (t : DeadlineTable) : DeadlineTable * list (Expiry K) :=
  collect_due now (filter (λ p : K * ArmedDeadline, ad_at p.2 ≤ now) (map_entries t)).*1 t.
End deadlines.
Arguments DeadlineTable K {_ _}.

(** ** [watchdog.rs]: the ladder *)

Inductive EscalationStep : Set := Terminate | Kill.

Definition step_signal (s : EscalationStep) : Z := match s with Terminate => 15 | Kill => 9 end%Z.

Definition step_intent (s : EscalationStep) : ExitIntent :=
  match s with Terminate => TerminatedByWatchdog | Kill => KilledByWatchdog end.

Record Escalation := mkEscalation { es_node : str; es_generation : N; es_step : EscalationStep }.

Record Rung := mkRung { rg_at : N; rg_generation : N; rg_step : EscalationStep }.

Record FinishWatchdogSet := mkWatchdogs { wd_grace : N; wd_kill_grace : N; wd_rungs : gmap str Rung }.

Definition watchdogs_new (grace kill_grace : N) : FinishWatchdogSet := mkWatchdogs grace kill_grace ∅.

Definition set_rungs (rungs : gmap str Rung) (w : FinishWatchdogSet) : FinishWatchdogSet :=
  mkWatchdogs (wd_grace w) (wd_kill_grace w) rungs.

Definition arm_with_grace (node : str) (generation now grace : N) (w : FinishWatchdogSet) : FinishWatchdogSet :=
  set_rungs (<[node := mkRung (now + grace) generation Terminate]> (wd_rungs w)) w.

Definition wd_arm (node : str) (generation now : N) (w : FinishWatchdogSet) : FinishWatchdogSet :=
  arm_with_grace node generation now (wd_grace w) w.

Definition wd_disarm (node : str) (w : FinishWatchdogSet) : FinishWatchdogSet * bool :=
  (set_rungs (delete node (wd_rungs w)) w, bool_decide (is_Some (wd_rungs w !! node))).

Definition wd_disarm_generation (node : str) (generation : N) (w : FinishWatchdogSet) : FinishWatchdogSet * bool :=
  match wd_rungs w !! node with
  | Some rung => if rg_generation rung =? generation then (set_rungs (delete node (wd_rungs w)) w, true) else (w, false)
  | None => (w, false)
  end.

Definition wd_next_deadline (w : FinishWatchdogSet) : option N := earliest (rg_at <$> map_values (wd_rungs w)).

(** The ladder of one node moves on. *)
Definition advance_rung (now kill_grace : N) (node : str) (rung : Rung) (rungs : gmap str Rung) : gmap str Rung :=
  match rg_step rung with
  | Terminate => <[node := mkRung (now + kill_grace) (rg_generation rung) Kill]> rungs
  | Kill => delete node rungs
  end.

Definition wd_due (now : N) (w : FinishWatchdogSet) : list (str * Rung) :=
  filter (λ p : str * Rung, rg_at p.2 ≤ now) (map_entries (wd_rungs w)).

Definition wd_expired (now : N) (w : FinishWatchdogSet) : FinishWatchdogSet * list Escalation :=
  let due := wd_due now w in
  (set_rungs (foldl (λ rungs '(node, rung), advance_rung now (wd_kill_grace w) node rung rungs) (wd_rungs w) due) w,
   (λ p, mkEscalation p.1 (rg_generation p.2) (rg_step p.2)) <$> due).

(** ** The delay before a restart *)

(** The delay before a restart is the configured delay doubled once per
    earlier restart, capped, however many restarts there were and however large
    the numbers are: no overflow shortens it. *)
Theorem backoff_is_exponential (c : RestartConfig) (n : N) :
  is_u64 (max_restart_delay c) → backoff_for c n = N.min (restart_delay c * 2 ^ n) (max_restart_delay c).
Proof.
  unfold is_u64, backoff_for, checked_shl, ms_checked_mul. intros Hmax. destruct (N.ltb_spec n 64) as [Hn|Hn]; cbn [default from_option id].
  - destruct (N.leb_spec (restart_delay c * 2 ^ n) u64_max); cbn; [done|lia].
  - assert (u64_max < 2 ^ n) as Hpow.
    { apply (N.lt_le_trans _ (2 ^ 64)); [done|]. by apply N.pow_le_mono_r. }
    destruct (decide (restart_delay c = 0)) as [->|Hd]; [by destruct (N.leb_spec (0 * u64_max) u64_max)|].
    assert (u64_max < restart_delay c * 2 ^ n) by nia.
    destruct (N.leb_spec (restart_delay c * u64_max) u64_max); cbn; nia.
Qed.

Lemma backoff_is_exponential_witness :
  backoff_for (mkRestart OnFailure (Some 3) 100 30000 60000) 70 = N.min (100 * 2 ^ 70) 30000 ∧
  backoff_for (mkRestart OnFailure (Some 3) 100 30000 60000) 3 = 800.
Proof. split; [by apply (backoff_is_exponential (mkRestart OnFailure (Some 3) 100 30000 60000) 70)|reflexivity]. Defined.

(** ** The restart budget *)

Section budget.
Variable config : RestartConfig.

(** What the supervisor is told of an exit. *)
Record ExitReport := mkExit { xr_cause : NodeExitCause; xr_daemon_initiated : bool; xr_now : N }.

(** The instants at which the supervisor decides to restart the node. *)
Fixpoint restart_times (exits : list ExitReport) (h : RestartHistory) : list N :=
  match exits with
  | [] => []
  | e :: rest =>
      let (h, d) := decide_restart config (xr_cause e) h (xr_daemon_initiated e) (xr_now e) in
      (if is_restart d then [xr_now e] else []) ++ restart_times rest h
  end.

Definition budget_window : N := to_duration (restart_window config).

(** The restarts in the window that ends at [t]. *)
Definition within (t : N) (restarts : list N) : list N := filter (λ r, r ≤ t ∧ t - r < budget_window) restarts.

Lemma aged_out_split window now l : ∃ old, l = old ++ aged_out window now l ∧ Forall (λ x, window ≤ now - x) old.
Proof.
  induction l as [|x l (old & Hl & Hold)]; [by exists []|]. cbn. destruct (N.leb_spec window (now - x)).
  - exists (x :: old). split; [cbn; by f_equal|by constructor].
  - by exists [].
Qed.

(** The history has forgotten only restarts that are out of every later
    window. *)
Definition remembers (past : list N) (now : N) (h : RestartHistory) : Prop :=
  h_window h = budget_window ∧ ∃ old, past = old ++ h_recent h ∧ Forall (λ x, budget_window ≤ now - x) old.

Lemma remembers_prune past u now h : u ≤ now → remembers past u h → remembers past now (prune now h).
Proof.
  intros Hu (Hw & old & -> & Hold). split; [done|]. cbn. rewrite Hw.
  destruct (aged_out_split budget_window now (h_recent h)) as (old' & Hr & Hold'). exists (old ++ old').
  split; [by rewrite <-app_assoc, <-Hr|]. apply Forall_app. split; [|done]. eapply Forall_impl; [done|]. cbn. intros; lia.
Qed.

Lemma remembers_record past now h : remembers past now h → remembers (past ++ [now]) now (record_restart now h).
Proof.
  intros (Hw & old & -> & Hold). apply (remembers_prune _ now now (mkHistory _ _ _ _)); [done|]. split; [done|]. exists old. by rewrite <-app_assoc.
Qed.

Lemma within_app t l1 l2 : within t (l1 ++ l2) = within t l1 ++ within t l2.
Proof. apply filter_app. Qed.

Lemma within_old t now old : now ≤ t → Forall (λ x, budget_window ≤ now - x) old → within t old = [].
Proof.
  intros Ht Hold. unfold within. induction Hold as [|x old Hx _ IH]; [done|]. rewrite filter_cons_False; [done|]. lia.
Qed.

(** What one decision does: it restarts only while the budget lasts. *)
Lemma decide_spends max past u e h h' d :
  max_restarts config = Some max → max ≤ u32_limit → u ≤ xr_now e → remembers past u h →
  decide_restart config (xr_cause e) h (xr_daemon_initiated e) (xr_now e) = (h', d) →
  if is_restart d then remembers (past ++ [xr_now e]) (xr_now e) h' ∧ ∀ t, xr_now e ≤ t → N.of_nat (length (within t (past ++ [xr_now e]))) ≤ max
  else remembers past (xr_now e) h'.
Proof.
  intros Hmax Hu32 Hu Hrem. assert (remembers past (xr_now e) h) as Hkeep.
  { destruct Hrem as (Hw & old & -> & Hold). split; [done|]. exists old. split; [done|]. eapply Forall_impl; [done|]. cbn. intros; lia. }
  unfold decide_restart, in_window, budget_exhausted. rewrite Hmax.
  destruct (xr_daemon_initiated e); [by intros [= <- <-]|].
  destruct (negb _); [by intros [= <- <-]|]. pose proof (remembers_prune _ _ _ _ Hu Hrem) as Hp.
  destruct (N.leb_spec max (N.min (N.of_nat (length (h_recent (prune (xr_now e) h)))) u32_limit)); intros [= <- <-]; cbn [is_restart]; [done|].
  split; [by apply remembers_record|]. intros t Ht. destruct Hp as (_ & old & Hpast & Hold). rewrite Hpast, !within_app, (within_old t _ old Ht Hold).
  rewrite app_nil_l, length_app. unfold within. pose proof (length_filter (λ r, r ≤ t ∧ t - r < budget_window) (h_recent (prune (xr_now e) h))).
  pose proof (length_filter (λ r, r ≤ t ∧ t - r < budget_window) [xr_now e]) as H1. change (length [xr_now e]) with 1%nat in H1. lia.
Qed.

Lemma restarts_in_budget max exits past u h :
  max_restarts config = Some max → max ≤ u32_limit → StronglySorted N.le (u :: (xr_now <$> exits)) → remembers past u h →
  (∀ t, N.of_nat (length (within t past)) ≤ max) →
  ∀ t, N.of_nat (length (within t (past ++ restart_times exits h))) ≤ max.
Proof.
  intros Hmax Hu32. revert past u h. induction exits as [|e exits IH]; intros past u h Hs Hrem Hpast t; cbn [restart_times].
  { by rewrite app_nil_r. }
  apply StronglySorted_inv in Hs as [Hs Hu]. cbn in Hs, Hu. inversion Hu as [|?? Hue _]; subst.
  destruct (decide_restart _ _ _ _ _) as [h' d] eqn:Hd. pose proof (decide_spends _ _ _ _ _ _ _ Hmax Hu32 Hue Hrem Hd) as Hstep.
  destruct (is_restart d).
  - destruct Hstep as [Hrem' Hcount]. rewrite app_assoc. apply (IH _ (xr_now e)); [done..|]. intros t'.
    destruct (decide (xr_now e ≤ t')); [by apply Hcount|]. rewrite within_app. unfold within at 2. rewrite filter_cons_False by lia. cbn.
    rewrite app_nil_r. apply Hpast.
  - apply (IH _ (xr_now e)); done.
Qed.

(** C18. Whatever a node does, however it exits and whatever the daemon asked
    of it, in no window of the configured length is it restarted more often than
    the budget allows. *)
Theorem restart_budget_holds (max : N) (exits : list ExitReport) (t : N) :
  max_restarts config = Some max → max ≤ u32_limit → StronglySorted N.le (xr_now <$> exits) →
  N.of_nat (length (within t (restart_times exits (history_new budget_window)))) ≤ max.
Proof.
  intros Hmax Hu32 Hs. apply (restarts_in_budget max exits [] 0 _ Hmax Hu32); cbn.
  - constructor; [done|]. apply Forall_forall. intros; lia.
  - split; [done|]. exists []. by split.
  - intros _. lia.
Qed.
End budget.

Definition crash_loop : list ExitReport := (λ k, mkExit (ExitCode 1) false (k * 1000000000)) <$> [0; 1; 2; 3; 65].

Lemma restart_budget_holds_witness :
  restart_times (mkRestart OnFailure (Some 2) 100 30000 60000) crash_loop (history_new 60000000000) = [0; 1000000000; 65000000000] ∧
  N.of_nat (length (within (mkRestart OnFailure (Some 2) 100 30000 60000) 2000000000
    (restart_times (mkRestart OnFailure (Some 2) 100 30000 60000) crash_loop (history_new 60000000000)))) ≤ 2.
Proof.
  split; [vm_compute; reflexivity|]. apply (restart_budget_holds (mkRestart OnFailure (Some 2) 100 30000 60000) 2 crash_loop); [reflexivity|done|].
  apply (bool_decide_unpack _). vm_compute. exact I.
Defined.

(** ** The ladder from SIGTERM to SIGKILL *)

Section by_key.
Context {V : Type}.
Implicit Types (l : list (str * V)).

Lemma filter_key_absent k l : k ∉ l.*1 → filter (λ p, p.1 = k) l = [].
Proof.
  induction l as [|[k' v] l IH]; [done|]. rewrite fmap_cons, not_elem_of_cons. intros [Hk Hl].
  rewrite filter_cons_False by (intros <-; by apply Hk). by apply IH.
Qed.

Lemma filter_key k v l : NoDup l.*1 → (k, v) ∈ l → filter (λ p, p.1 = k) l = [(k, v)].
Proof.
  induction l as [|[k' v'] l IH]; [by intros ? ?%not_elem_of_nil|]. rewrite fmap_cons. intros [Hnin Hnd]%NoDup_cons [[= <- <-]|Hin]%elem_of_cons.
  - rewrite filter_cons_True by done. by rewrite filter_key_absent.
  - rewrite filter_cons_False; [by apply IH|]. cbn. intros ->. apply Hnin. apply list_elem_of_fmap. by exists (k, v).
Qed.
End by_key.

Lemma NoDup_due now w : NoDup (wd_due now w).*1.
Proof.
  unfold wd_due. pose proof (NoDup_map_keys (wd_rungs w)) as Hnd. unfold map_keys in Hnd. revert Hnd. generalize (map_entries (wd_rungs w)).
  intros l. induction l as [|[k r] l IH]; [done|]. rewrite fmap_cons. intros [Hnin Hnd]%NoDup_cons.
  rewrite filter_cons. destruct (decide _); [|by apply IH]. cbn. apply NoDup_cons. split; [|by apply IH].
  intros ([??] & -> & [_ Hin]%list_elem_of_filter)%list_elem_of_fmap. apply Hnin. apply list_elem_of_fmap. eexists. split; [|done]. done.
Qed.

Lemma elem_of_due now w node rung : (node, rung) ∈ wd_due now w ↔ wd_rungs w !! node = Some rung ∧ rg_at rung ≤ now.
Proof. unfold wd_due. rewrite list_elem_of_filter, elem_of_map_entries. cbn. tauto. Qed.

Lemma due_absent now w node : (∀ rung, wd_rungs w !! node = Some rung → now < rg_at rung) → node ∉ (wd_due now w).*1.
Proof.
  intros Hno ([n r] & -> & Hin)%list_elem_of_fmap. apply elem_of_due in Hin as [Hr Hat]. cbn in *. apply Hno in Hr. lia.
Qed.

Lemma advance_others now kill node l rungs :
  node ∉ l.*1 → foldl (λ rungs '(n, r), advance_rung now kill n r rungs) rungs l !! node = rungs !! node.
Proof.
  revert rungs. induction l as [|[n r] l IH]; intros rungs; [done|]. rewrite fmap_cons, not_elem_of_cons. cbn [foldl fst]. intros [Hn Hl]. rewrite IH by done.
  unfold advance_rung. destruct (rg_step r); [by rewrite lookup_insert_ne|by rewrite lookup_delete_ne].
Qed.

(** What a sweep does to the ladder of one node, and reports of it. *)
Definition climbed (now kill_grace : N) (rung : Rung) : option Rung :=
  if now <? rg_at rung then Some rung
  else match rg_step rung with Terminate => Some (mkRung (now + kill_grace) (rg_generation rung) Kill) | Kill => None end.

Lemma wd_expired_rung now w node : wd_rungs (wd_expired now w).1 !! node = wd_rungs w !! node ≫= climbed now (wd_kill_grace w).
Proof.
  cbn. destruct (wd_rungs w !! node) as [rung|] eqn:Hr; cbn.
  - unfold climbed. destruct (N.ltb_spec now (rg_at rung)) as [Hlt|Hle].
    + rewrite advance_others; [done|]. apply due_absent. naive_solver.
    + assert ((node, rung) ∈ wd_due now w) as Hin by by apply elem_of_due.
      apply list_elem_of_split in Hin as (l1 & l2 & Hl). pose proof (NoDup_due now w) as Hnd. rewrite Hl in Hnd |- *.
      rewrite fmap_app, fmap_cons in Hnd. apply NoDup_app in Hnd as (_ & _ & [Hn2 _]%NoDup_cons). rewrite foldl_app. cbn.
      rewrite advance_others by done. unfold advance_rung. destruct (rg_step rung); [by rewrite lookup_insert_eq|by rewrite lookup_delete_eq].
  - rewrite advance_others; [done|]. apply due_absent. naive_solver.
Qed.

Lemma wd_expired_of now w node :
  filter (λ e, es_node e = node) (wd_expired now w).2 =
  match wd_rungs w !! node with
  | Some rung => if now <? rg_at rung then [] else [mkEscalation node (rg_generation rung) (rg_step rung)]
  | None => []
  end.
Proof.
  cbn. assert (∀ l : list (str * Rung), filter (λ e, es_node e = node) ((λ p, mkEscalation p.1 (rg_generation p.2) (rg_step p.2)) <$> l) =
    (λ p, mkEscalation p.1 (rg_generation p.2) (rg_step p.2)) <$> filter (λ p, p.1 = node) l) as Hmap.
  { intros l. induction l as [|[n r] l IH]; [done|]. rewrite fmap_cons, !filter_cons. cbn [fst snd es_node]. destruct (decide (n = node)); cbn; by rewrite IH. }
  rewrite Hmap. destruct (wd_rungs w !! node) as [rung|] eqn:Hr; [destruct (N.ltb_spec now (rg_at rung))|].
  - rewrite filter_key_absent; [done|]. apply due_absent. naive_solver.
  - rewrite (filter_key node rung); [done|apply NoDup_due|by apply elem_of_due].
  - rewrite filter_key_absent; [done|]. apply due_absent. naive_solver.
Qed.

(** What happens to the set. *)
Inductive WatchOp : Set :=
| WatchArm (node : str) (generation now grace : N)
| WatchDisarm (node : str) (generation : N)
| WatchPoll (now : N).

Definition watch_step (op : WatchOp) (w : FinishWatchdogSet) : FinishWatchdogSet * list (N * Escalation) :=
  match op with
  | WatchArm node generation now grace => (arm_with_grace node generation now grace w, [])
  | WatchDisarm node generation => ((wd_disarm_generation node generation w).1, [])
  | WatchPoll now => ((wd_expired now w).1, pair now <$> (wd_expired now w).2)
  end.

(** The signals sent, with the instants. *)
Fixpoint watch_run (ops : list WatchOp) (w : FinishWatchdogSet) : list (N * Escalation) :=
  match ops with
  | [] => []
  | op :: rest => (watch_step op w).2 ++ watch_run rest (watch_step op w).1
  end.

Definition watch_touches (node : str) (op : WatchOp) : bool :=
  match op with WatchArm n _ _ _ | WatchDisarm n _ => bool_decide (n = node) | WatchPoll _ => false end.

Definition polls (ops : list WatchOp) : list N := omap (λ op, match op with WatchPoll now => Some now | _ => None end) ops.

(** The first of some instants that is not before [deadline], and those after
    it. *)
Fixpoint first_from (deadline : N) (l : list N) : option (N * list N) :=
  match l with
  | [] => None
  | t :: rest => if t <? deadline then first_from deadline rest else Some (t, rest)
  end.

(** What is still to be sent for a node on the given rung. *)
Definition to_send (node : str) (kill_grace : N) (rung : option Rung) (times : list N) : list (N * Escalation) :=
  match rung with
  | None => []
  | Some rung =>
      match first_from (rg_at rung) times with
      | None => []
      | Some (t, later) =>
          (t, mkEscalation node (rg_generation rung) (rg_step rung)) ::
          match rg_step rung with
          | Kill => []
          | Terminate =>
              match first_from (t + kill_grace) later with
              | None => []
              | Some (t', _) => [(t', mkEscalation node (rg_generation rung) Kill)]
              end
          end
      end
  end.

Lemma to_send_poll node kill_grace rung now times :
  to_send node kill_grace rung (now :: times) =
  match rung with
  | Some r => if now <? rg_at r then [] else [(now, mkEscalation node (rg_generation r) (rg_step r))]
  | None => []
  end ++ to_send node kill_grace (rung ≫= climbed now kill_grace) times.
Proof.
  destruct rung as [[at_ g s]|]; cbn; [|done]. unfold climbed. cbn. destruct (N.ltb_spec now at_); cbn; [done|].
  destruct s; cbn; [|done]. by destruct (first_from _ _) as [[??]|].
Qed.

Lemma watch_step_other node op w :
  watch_touches node op = false →
  wd_kill_grace (watch_step op w).1 = wd_kill_grace w ∧
  ∀ times, to_send node (wd_kill_grace w) (wd_rungs w !! node) (polls [op] ++ times) =
    filter (λ p, es_node p.2 = node) (watch_step op w).2 ++ to_send node (wd_kill_grace w) (wd_rungs (watch_step op w).1 !! node) times.
Proof.
  destruct op as [n g now grace|n g|now]; cbn [watch_touches]; intros Hn; (split; [|intros times]); try done.
  - apply bool_decide_eq_false in Hn. cbn. by rewrite lookup_insert_ne.
  - cbn. unfold wd_disarm_generation. destruct (wd_rungs w !! n) as [r|]; [by destruct (_ =? _)|done].
  - apply bool_decide_eq_false in Hn. cbn. unfold wd_disarm_generation. destruct (wd_rungs w !! n) as [r|]; [|done].
    destruct (_ =? _); [|done]. cbn. by rewrite lookup_delete_ne.
  - change (polls [WatchPoll now] ++ times) with (now :: times). rewrite to_send_poll. cbn [watch_step fst snd].
    rewrite wd_expired_rung. f_equal.
    assert (∀ l : list Escalation, filter (λ p, es_node p.2 = node) (pair now <$> l) = pair now <$> filter (λ e, es_node e = node) l) as ->.
    { intros l. induction l as [|e l IH]; [done|]. rewrite fmap_cons, !filter_cons. cbn [fst snd]. destruct (decide (es_node e = node)); cbn; by rewrite IH. }
    rewrite wd_expired_of. destruct (wd_rungs w !! node) as [r|]; [|done]. by destruct (now <? rg_at r).
Qed.

Lemma watch_run_sends node ops w :
  Forall (λ op, watch_touches node op = false) ops →
  filter (λ p, es_node p.2 = node) (watch_run ops w) = to_send node (wd_kill_grace w) (wd_rungs w !! node) (polls ops).
Proof.
  intros Hops. revert w. induction Hops as [|op ops Hop _ IH]; intros w; cbn [watch_run].
  { by destruct (wd_rungs w !! node). }
  destruct (watch_step_other node op w Hop) as (Hk & Hs).
  change (op :: ops) with ([op] ++ ops). unfold polls. rewrite omap_app. fold (polls [op]). fold (polls ops). rewrite Hs.
  rewrite filter_app, IH. by rewrite Hk.
Qed.

(** C19. A node that was told to stop and is left alone is sent SIGTERM at the
    first look at the clock after its grace period, exactly once, then SIGKILL at
    the first look after the kill grace, exactly once, then nothing; both stamped
    with the incarnation that was told to stop, and whatever happens to other
    nodes' ladders in the meantime. *)
Theorem ladder_climbs_once (node : str) (generation now grace : N) (w : FinishWatchdogSet) (ops : list WatchOp) :
  Forall (λ op, watch_touches node op = false) ops →
  filter (λ p, es_node p.2 = node) (watch_run ops (arm_with_grace node generation now grace w)) =
  match first_from (now + grace) (polls ops) with
  | None => []
  | Some (t, later) =>
      (t, mkEscalation node generation Terminate) ::
      match first_from (t + wd_kill_grace w) later with
      | None => []
      | Some (t', _) => [(t', mkEscalation node generation Kill)]
      end
  end.
Proof. intros Hops. rewrite watch_run_sends by done. cbn. by rewrite lookup_insert_eq. Qed.

Lemma ladder_climbs_once_witness :
  filter (λ p, es_node p.2 = lit "straggler")
    (watch_run [WatchPoll 14; WatchArm (lit "other") 0 14 1; WatchPoll 15; WatchPoll 16; WatchDisarm (lit "other") 0; WatchPoll 20; WatchPoll 30]
       (arm_with_grace (lit "straggler") 3 0 15 (watchdogs_new 15 5))) =
  [(15, mkEscalation (lit "straggler") 3 Terminate); (20, mkEscalation (lit "straggler") 3 Kill)].
Proof. rewrite (ladder_climbs_once (lit "straggler") 3 0 15) by (repeat constructor). reflexivity. Defined.
