(* ===== verification/Daemon.v ===== *)
(** * The daemon's supervision of its dataflows

    Models, of [src/crates/astrs-daemon/src]: what the daemon knows of a node
    and of a dataflow ([state/node.rs], [state/dataflow.rs], [state/routes.rs],
    [state/registry.rs]), the handles it signals ([spawn/handle.rs]), and the
    handlers that start, register, stop, reap, restart and finish nodes
    ([server/core.rs], [server/handlers.rs], [server/closure.rs]).

    The daemon is one loop over events, so a handler is a function from the
    daemon to the daemon; what it reads of the clock, and what the operating
    system answers to an attempt to start a process, are its arguments.  What it
    does to the world is appended to [d_log].  The flag that says a child was
    reaped is shared between the clones of a handle: a handle names its flag,
    [d_reaped] holds the flags that are set.

    Left out are the mailboxes and what is queued in them, the shared-memory and
    peer planes, health bookkeeping (a missed liveness deadline is an event), the
    extension table, the coordinator's orders, node replacement, and metrics:
    none of them is read by what is modelled, and the handlers' calls into them
    change nothing that is. *)

From Stdlib Require Import Lia.
From stdpp Require Import base tactics list gmap strings numbers sorting.
From S2P Require Import Prelude Text Utf8 Ordered Supervise.

Open Scope N_scope.

(** ** Types of [astrs-wire] *)

Inductive DataflowStatus : Set := DfPending | DfBuilding | DfReady | DfStarting | DfRunning | DfStopping | DfFinished | DfFailed.

Inductive NodeRunState : Set := Pending | Spawning | Running | Restarting | Stopping | Finished | Failed.

#[global] Instance DataflowStatus_eq_dec : EqDecision DataflowStatus.
Proof. solve_decision. Defined.
#[global] Instance NodeRunState_eq_dec : EqDecision NodeRunState.
Proof. solve_decision. Defined.

Definition run_state_is_terminal (s : NodeRunState) : bool := match s with Finished | Failed => true | _ => false end.

Inductive StopCause : Set :=
| StopCauseRequested | StopDataflowFinished | StopAllInputsClosed | StopDaemonShutdown | StopPeerFailed (node : str) | StopDestroyed
| StopError (message : str) | StopReplaced.

(** The payloads of a source are not read here. *)
Inductive NodeSource : Set := SourceExecutable | SourceRuntime | SourceDynamic | SourceRos2Bridge | SourceRecorder.

Definition is_spawned (s : NodeSource) : bool := match s with SourceDynamic => false | _ => true end.

(** A node and one of its outputs. *)
Definition PortRef : Set := str * str.

Record InputSpec := mkInputSpec { is_id : str; is_source : PortRef }.

Record NodeSpawnSpec := mkSpec {
  sp_dataflow : N;
  sp_node : str;
  sp_generation : N;
  sp_source : NodeSource;
  sp_inputs : list InputSpec;
  sp_outputs : list str;
  sp_restart : RestartConfig;
  sp_spawn_deadline : option N;
  sp_health_check_timeout : option N;
  sp_finish_grace : option N;
}.

Definition set_sp_generation (v : N) (s : NodeSpawnSpec) : NodeSpawnSpec := mkSpec (sp_dataflow s) (sp_node s) v (sp_source s) (sp_inputs s) (sp_outputs s) (sp_restart s) (sp_spawn_deadline s) (sp_health_check_timeout s) (sp_finish_grace s).

(** ** [spawn]: handles *)

Definition next_generation (current : N) : N := saturating_add current 1.

Record ProcessHandle := mkHandle { ph_dataflow : N; ph_node : str; ph_generation : N; ph_pid : N; ph_flag : N }.

Inductive SignalOutcome : Set := Attempted | AlreadyGone | StaleGeneration (current expected : N).

(** [Pid::from_raw] refuses zero, [i32::try_from] what is too large. *)
Definition checked_pid (h : ProcessHandle) : option N :=
  if (ph_pid h =? 0) || (2147483647 <? ph_pid h) then None else Some (ph_pid h).

(** Whether the system call is made, given the flags that are set. *)
Definition deliver (reaped : gset N) (h : ProcessHandle) : SignalOutcome :=
  if bool_decide (ph_flag h ∈ reaped) then AlreadyGone
  else match checked_pid h with None => AlreadyGone | Some _ => Attempted end.

Definition signal_if_current (reaped : gset N) (generation : N) (h : ProcessHandle) : SignalOutcome :=
  if negb (ph_generation h =? generation) then StaleGeneration (ph_generation h) generation else deliver reaped h.

(** ** [state/node.rs] *)

Record NodeState := mkNodeState {
  ns_spec : NodeSpawnSpec;
  ns_run_state : NodeRunState;
  ns_handle : option ProcessHandle;
  ns_session : option N;
  ns_exit_cause : option NodeExitCause;
  ns_history : RestartHistory;
  ns_subscribed : gset str;
  ns_open_outputs : gset str;
  ns_closed_inputs : gset str;
  ns_stop_cause : option StopCause;
  ns_intent : ExitIntent;
  ns_registered : bool;
  ns_registered_this_incarnation : bool;
  ns_outputs_opened : bool;
  ns_inputs_closed_notified : bool;
}.

Definition set_ns_spec (v : NodeSpawnSpec) (n : NodeState) : NodeState := mkNodeState v (ns_run_state n) (ns_handle n) (ns_session n) (ns_exit_cause n) (ns_history n) (ns_subscribed n) (ns_open_outputs n) (ns_closed_inputs n) (ns_stop_cause n) (ns_intent n) (ns_registered n) (ns_registered_this_incarnation n) (ns_outputs_opened n) (ns_inputs_closed_notified n).
Definition set_ns_run_state (v : NodeRunState) (n : NodeState) : NodeState := mkNodeState (ns_spec n) v (ns_handle n) (ns_session n) (ns_exit_cause n) (ns_history n) (ns_subscribed n) (ns_open_outputs n) (ns_closed_inputs n) (ns_stop_cause n) (ns_intent n) (ns_registered n) (ns_registered_this_incarnation n) (ns_outputs_opened n) (ns_inputs_closed_notified n).
Definition set_ns_handle (v : option ProcessHandle) (n : NodeState) : NodeState := mkNodeState (ns_spec n) (ns_run_state n) v (ns_session n) (ns_exit_cause n) (ns_history n) (ns_subscribed n) (ns_open_outputs n) (ns_closed_inputs n) (ns_stop_cause n) (ns_intent n) (ns_registered n) (ns_registered_this_incarnation n) (ns_outputs_opened n) (ns_inputs_closed_notified n).
Definition set_ns_session (v : option N) (n : NodeState) : NodeState := mkNodeState (ns_spec n) (ns_run_state n) (ns_handle n) v (ns_exit_cause n) (ns_history n) (ns_subscribed n) (ns_open_outputs n) (ns_closed_inputs n) (ns_stop_cause n) (ns_intent n) (ns_registered n) (ns_registered_this_incarnation n) (ns_outputs_opened n) (ns_inputs_closed_notified n).
Definition set_ns_exit_cause (v : option NodeExitCause) (n : NodeState) : NodeState := mkNodeState (ns_spec n) (ns_run_state n) (ns_handle n) (ns_session n) v (ns_history n) (ns_subscribed n) (ns_open_outputs n) (ns_closed_inputs n) (ns_stop_cause n) (ns_intent n) (ns_registered n) (ns_registered_this_incarnation n) (ns_outputs_opened n) (ns_inputs_closed_notified n).
Definition set_ns_history (v : RestartHistory) (n : NodeState) : NodeState := mkNodeState (ns_spec n) (ns_run_state n) (ns_handle n) (ns_session n) (ns_exit_cause n) v (ns_subscribed n) (ns_open_outputs n) (ns_closed_inputs n) (ns_stop_cause n) (ns_intent n) (ns_registered n) (ns_registered_this_incarnation n) (ns_outputs_opened n) (ns_inputs_closed_notified n).
Definition set_ns_subscribed (v : gset str) (n : NodeState) : NodeState := mkNodeState (ns_spec n) (ns_run_state n) (ns_handle n) (ns_session n) (ns_exit_cause n) (ns_history n) v (ns_open_outputs n) (ns_closed_inputs n) (ns_stop_cause n) (ns_intent n) (ns_registered n) (ns_registered_this_incarnation n) (ns_outputs_opened n) (ns_inputs_closed_notified n).
Definition set_ns_open_outputs (v : gset str) (n : NodeState) : NodeState := mkNodeState (ns_spec n) (ns_run_state n) (ns_handle n) (ns_session n) (ns_exit_cause n) (ns_history n) (ns_subscribed n) v (ns_closed_inputs n) (ns_stop_cause n) (ns_intent n) (ns_registered n) (ns_registered_this_incarnation n) (ns_outputs_opened n) (ns_inputs_closed_notified n).
Definition set_ns_closed_inputs (v : gset str) (n : NodeState) : NodeState := mkNodeState (ns_spec n) (ns_run_state n) (ns_handle n) (ns_session n) (ns_exit_cause n) (ns_history n) (ns_subscribed n) (ns_open_outputs n) v (ns_stop_cause n) (ns_intent n) (ns_registered n) (ns_registered_this_incarnation n) (ns_outputs_opened n) (ns_inputs_closed_notified n).
Definition set_ns_stop_cause (v : option StopCause) (n : NodeState) : NodeState := mkNodeState (ns_spec n) (ns_run_state n) (ns_handle n) (ns_session n) (ns_exit_cause n) (ns_history n) (ns_subscribed n) (ns_open_outputs n) (ns_closed_inputs n) v (ns_intent n) (ns_registered n) (ns_registered_this_incarnation n) (ns_outputs_opened n) (ns_inputs_closed_notified n).
Definition set_ns_intent (v : ExitIntent) (n : NodeState) : NodeState := mkNodeState (ns_spec n) (ns_run_state n) (ns_handle n) (ns_session n) (ns_exit_cause n) (ns_history n) (ns_subscribed n) (ns_open_outputs n) (ns_closed_inputs n) (ns_stop_cause n) v (ns_registered n) (ns_registered_this_incarnation n) (ns_outputs_opened n) (ns_inputs_closed_notified n).
Definition set_ns_registered (v : bool) (n : NodeState) : NodeState := mkNodeState (ns_spec n) (ns_run_state n) (ns_handle n) (ns_session n) (ns_exit_cause n) (ns_history n) (ns_subscribed n) (ns_open_outputs n) (ns_closed_inputs n) (ns_stop_cause n) (ns_intent n) v (ns_registered_this_incarnation n) (ns_outputs_opened n) (ns_inputs_closed_notified n).
Definition set_ns_registered_this_incarnation (v : bool) (n : NodeState) : NodeState := mkNodeState (ns_spec n) (ns_run_state n) (ns_handle n) (ns_session n) (ns_exit_cause n) (ns_history n) (ns_subscribed n) (ns_open_outputs n) (ns_closed_inputs n) (ns_stop_cause n) (ns_intent n) (ns_registered n) v (ns_outputs_opened n) (ns_inputs_closed_notified n).
Definition set_ns_outputs_opened (v : bool) (n : NodeState) : NodeState := mkNodeState (ns_spec n) (ns_run_state n) (ns_handle n) (ns_session n) (ns_exit_cause n) (ns_history n) (ns_subscribed n) (ns_open_outputs n) (ns_closed_inputs n) (ns_stop_cause n) (ns_intent n) (ns_registered n) (ns_registered_this_incarnation n) v (ns_inputs_closed_notified n).
Definition set_ns_inputs_closed_notified (v : bool) (n : NodeState) : NodeState := mkNodeState (ns_spec n) (ns_run_state n) (ns_handle n) (ns_session n) (ns_exit_cause n) (ns_history n) (ns_subscribed n) (ns_open_outputs n) (ns_closed_inputs n) (ns_stop_cause n) (ns_intent n) (ns_registered n) (ns_registered_this_incarnation n) (ns_outputs_opened n) v.

Definition ns_generation (n : NodeState) : N := sp_generation (ns_spec n).
Definition is_terminal (n : NodeState) : bool := run_state_is_terminal (ns_run_state n).
Definition is_live (n : NodeState) : bool := match ns_run_state n with Running | Stopping => true | _ => false end.
Definition is_dynamic (n : NodeState) : bool := negb (is_spawned (sp_source (ns_spec n))).
Definition node_finish_grace (n : NodeState) : option N := to_duration <$> sp_finish_grace (ns_spec n).
Definition node_spawn_deadline (n : NodeState) : option N := to_duration <$> sp_spawn_deadline (ns_spec n).

Definition node_new (spec : NodeSpawnSpec) : NodeState :=
  mkNodeState spec Pending None None None (history_new (to_duration (restart_window (sp_restart spec)))) ∅ ∅ ∅ None IntentRunning
    false false false false.

Definition all_inputs_closed (n : NodeState) : bool :=
  negb (bool_decide (sp_inputs (ns_spec n) = []))
  && forallb (λ i, bool_decide (is_id i ∈ ns_closed_inputs n)) (sp_inputs (ns_spec n)).

Definition claim_inputs_closed_notice (n : NodeState) : NodeState * bool :=
  if ns_inputs_closed_notified n || negb (all_inputs_closed n) then (n, false) else (set_ns_inputs_closed_notified true n, true).

Definition open_declared_outputs (n : NodeState) : NodeState :=
  if ns_outputs_opened n then n
  else set_ns_open_outputs (list_to_set (sp_outputs (ns_spec n))) (set_ns_outputs_opened true n).

(** [flag] is the flag of the handle it creates. *)
Definition mark_spawning (pid flag : N) (n : NodeState) : NodeState :=
  let handle := mkHandle (sp_dataflow (ns_spec n)) (sp_node (ns_spec n)) (ns_generation n) pid flag in
  open_declared_outputs
    (set_ns_outputs_opened false (set_ns_inputs_closed_notified false (set_ns_closed_inputs ∅ (set_ns_subscribed ∅
    (set_ns_exit_cause None (set_ns_intent IntentRunning (set_ns_registered_this_incarnation false (set_ns_registered false
    (set_ns_run_state Spawning (set_ns_handle (Some handle) n)))))))))).

Definition mark_awaiting_attach (n : NodeState) : NodeState :=
  set_ns_intent IntentRunning (set_ns_registered_this_incarnation false (set_ns_registered false (set_ns_run_state Spawning n))).

Definition mark_registered (n : NodeState) : NodeState :=
  let n := open_declared_outputs (set_ns_registered_this_incarnation true (set_ns_registered true n)) in
  if is_terminal n then n else set_ns_run_state Running n.

Definition mark_registered_on (session : N) (n : NodeState) : NodeState := mark_registered (set_ns_session (Some session) n).

Definition subscribe (inputs : list str) (n : NodeState) : NodeState :=
  match inputs with
  | [] => set_ns_subscribed (list_to_set (is_id <$> sp_inputs (ns_spec n))) n
  | _ => set_ns_subscribed (ns_subscribed n ∪ list_to_set inputs) n
  end.

Definition close_output (output : str) (n : NodeState) : NodeState * bool :=
  (set_ns_open_outputs (ns_open_outputs n ∖ {[output]}) n, bool_decide (output ∈ ns_open_outputs n)).

Definition close_all_outputs (n : NodeState) : NodeState * list str :=
  (set_ns_open_outputs ∅ n, sorted_elements (ns_open_outputs n)).

Definition close_input (input : str) (n : NodeState) : NodeState * bool :=
  (set_ns_closed_inputs ({[input]} ∪ ns_closed_inputs n) n, bool_decide (input ∉ ns_closed_inputs n)).

Definition reopen_input (input : str) (n : NodeState) : NodeState * bool :=
  if bool_decide (input ∈ ns_closed_inputs n)
  then (set_ns_inputs_closed_notified false (set_ns_closed_inputs (ns_closed_inputs n ∖ {[input]}) n), true)
  else (n, false).

Definition mark_stopping (cause : StopCause) (n : NodeState) : NodeState :=
  let n := set_ns_intent StopRequested (set_ns_stop_cause (Some cause) n) in
  if is_terminal n then n else set_ns_run_state Stopping n.

Definition mark_escalated (intent : ExitIntent) (n : NodeState) : NodeState := set_ns_intent intent n.

Definition mark_daemon_shutdown (n : NodeState) : NodeState :=
  let n := set_ns_intent IntentDaemonShutdown n in
  if is_terminal n then n else set_ns_run_state Stopping n.

(** The flag of the handle it marks is returned. *)
Definition mark_exited (cause : NodeExitCause) (n : NodeState) : NodeState * option N :=
  (set_ns_exit_cause (Some cause) (set_ns_run_state (if is_failure cause then Failed else Finished)
     (set_ns_registered false (set_ns_session None (set_ns_handle None n)))),
   ph_flag <$> ns_handle n).

Definition mark_restarting (n : NodeState) : NodeState := set_ns_run_state Restarting n.

Definition set_generation (generation : N) (n : NodeState) : NodeState :=
  if ns_generation n <? generation then set_ns_spec (set_sp_generation generation (ns_spec n)) n else n.

Definition begin_next_generation (n : NodeState) : NodeState :=
  set_ns_run_state Pending (set_ns_outputs_opened false (set_ns_open_outputs ∅ (set_ns_inputs_closed_notified false
  (set_ns_closed_inputs ∅ (set_ns_subscribed ∅ (set_ns_intent IntentRunning (set_ns_stop_cause None
  (set_ns_registered_this_incarnation false (set_ns_registered false (set_ns_session None (set_ns_handle None
  (set_ns_spec (set_sp_generation (next_generation (ns_generation n)) (ns_spec n)) n)))))))))))).

Definition replace_spec (spec : NodeSpawnSpec) (n : NodeState) : NodeState :=
  set_ns_spec spec (set_ns_history (set_window (to_duration (restart_window (sp_restart spec))) (ns_history n)) n).

(** ** [state/routes.rs] *)

Record Consumer := mkConsumer { co_node : str; co_spec : InputSpec }.

Definition RouteTable : Type := gmap PortRef (list Consumer).

Definition same_input (a b : Consumer) : bool :=
  bool_decide (co_node a = co_node b) && bool_decide (is_id (co_spec a) = is_id (co_spec b)).

(** The first entry for the same input is replaced, or the consumer comes
    last. *)
Fixpoint insert_consumer (c : Consumer) (l : list Consumer) : list Consumer :=
  match l with
  | [] => [c]
  | existing :: rest => if same_input existing c then c :: rest else existing :: insert_consumer c rest
  end.

Definition route_insert (node : str) (spec : InputSpec) (t : RouteTable) : RouteTable :=
  <[is_source spec := insert_consumer (mkConsumer node spec) (default [] (t !! is_source spec))]> t.

Definition consumers (source : PortRef) (t : RouteTable) : list Consumer := default [] (t !! source).

Definition downstream_of (node : str) (t : RouteTable) : list str :=
  sorted_elements (list_to_set (mjoin ((λ p : PortRef * list Consumer, co_node <$> p.2) <$>
    filter (λ p : PortRef * list Consumer, p.1.1 = node) (map_entries t))) : gset str).

(** ** [state/dataflow.rs] *)

Record DataflowState := mkDataflow {
  ds_id : N;
  ds_status : DataflowStatus;
  ds_nodes : gmap str NodeState;
  ds_routes : RouteTable;
  ds_results : gmap str NodeExitCause;
  ds_exit_when_nodes_finish : bool;
}.

Definition set_ds_status (v : DataflowStatus) (s : DataflowState) : DataflowState := mkDataflow (ds_id s) v (ds_nodes s) (ds_routes s) (ds_results s) (ds_exit_when_nodes_finish s).
Definition set_ds_nodes (v : gmap str NodeState) (s : DataflowState) : DataflowState := mkDataflow (ds_id s) (ds_status s) v (ds_routes s) (ds_results s) (ds_exit_when_nodes_finish s).
Definition set_ds_routes (v : RouteTable) (s : DataflowState) : DataflowState := mkDataflow (ds_id s) (ds_status s) (ds_nodes s) v (ds_results s) (ds_exit_when_nodes_finish s).
Definition set_ds_results (v : gmap str NodeExitCause) (s : DataflowState) : DataflowState := mkDataflow (ds_id s) (ds_status s) (ds_nodes s) (ds_routes s) v (ds_exit_when_nodes_finish s).
Definition set_ds_exit_when_nodes_finish (v : bool) (s : DataflowState) : DataflowState := mkDataflow (ds_id s) (ds_status s) (ds_nodes s) (ds_routes s) (ds_results s) v.

Definition dataflow_new (id : N) : DataflowState := mkDataflow id DfPending ∅ ∅ ∅ false.

Definition add_node (spec : NodeSpawnSpec) (s : DataflowState) : DataflowState :=
  let routes := foldl (λ t input, route_insert (sp_node spec) input t) (ds_routes s) (sp_inputs spec) in
  set_ds_nodes (<[sp_node spec := node_new spec]> (ds_nodes s)) (set_ds_routes routes s).

Definition ready_barrier_met (s : DataflowState) : bool :=
  forallb (λ n, ns_registered_this_incarnation n || is_terminal n) (filter (λ n, is_dynamic n = false) (map_values (ds_nodes s))).

Definition all_nodes_finished (s : DataflowState) : bool := forallb is_terminal (map_values (ds_nodes s)).

Definition record_exit (node : str) (cause : NodeExitCause) (s : DataflowState) : DataflowState :=
  set_ds_results (<[node := cause]> (ds_results s)) s.

(** [DataflowResult::has_failures] *)
Definition has_failures (s : DataflowState) : bool := existsb is_failure (map_values (ds_results s)).

Definition finish_dataflow (s : DataflowState) : DataflowState := set_ds_status (if has_failures s then DfFailed else DfFinished) s.

(** ** The daemon *)

Record SessionBinding := mkBinding { sb_dataflow : N; sb_node : str; sb_generation : N }.

Record PendingExit := mkPendingExit { pe_generation : N; pe_cause : NodeExitCause }.

Record PendingClosure := mkPendingClosure { pc_generation : N; pc_sources : list PortRef }.

Inductive NodeEvent : Set :=
| EventStop (cause : StopCause) (grace : N)
| EventAllInputsClosed
| EventNodeFailed (peer : str) (cause : NodeExitCause)
| EventRestarted (peer : str) (generation : N)
| EventRegistered.

(** What the daemon does to the world: an event handed to a session, a signal
    for a process group, a process started (with the flag of its waiter's
    handle), a backoff timer started, an exit reported. *)
Inductive Effect : Set :=
| Sent (session : N) (event : NodeEvent)
| Signal_group (pid : N) (signal : Z)
| Started (dataflow : N) (node : str) (generation pid waiter_flag : N)
| Timer (dataflow : N) (node : str) (generation delay : N)
| Reported (dataflow : N) (node : str) (generation : N) (cause : NodeExitCause) (restarting : bool).

#[global] Instance NodeExitCause_eq_dec : EqDecision NodeExitCause.
Proof. solve_decision. Defined.
#[global] Instance StopCause_eq_dec : EqDecision StopCause.
Proof. solve_decision. Defined.
#[global] Instance NodeEvent_eq_dec : EqDecision NodeEvent.
Proof. solve_decision. Defined.
#[global] Instance Effect_eq_dec : EqDecision Effect.
Proof. solve_decision. Defined.

Record Daemon := mkDaemon {
  d_finish_grace : N;
  d_spawn_deadline : N;
  d_dataflows : gmap N DataflowState;
  d_sessions : gmap N SessionBinding;
  d_shutting_down : bool;
  d_sinks : gset N;
  d_spawn_deadlines : DeadlineTable (N * str);
  d_drain_deadlines : DeadlineTable (N * str);
  d_closure_deadlines : DeadlineTable (N * str);
  d_watchdogs : FinishWatchdogSet;
  d_draining : gmap (N * str) PendingExit;
  d_deferred : gmap (N * str) PendingClosure;
  d_reaped : gset N;
  d_next_flag : N;
  d_log : list Effect;
}.

Definition set_d_dataflows (v : gmap N DataflowState) (d : Daemon) : Daemon := mkDaemon (d_finish_grace d) (d_spawn_deadline d) v (d_sessions d) (d_shutting_down d) (d_sinks d) (d_spawn_deadlines d) (d_drain_deadlines d) (d_closure_deadlines d) (d_watchdogs d) (d_draining d) (d_deferred d) (d_reaped d) (d_next_flag d) (d_log d).
Definition set_d_sessions (v : gmap N SessionBinding) (d : Daemon) : Daemon := mkDaemon (d_finish_grace d) (d_spawn_deadline d) (d_dataflows d) v (d_shutting_down d) (d_sinks d) (d_spawn_deadlines d) (d_drain_deadlines d) (d_closure_deadlines d) (d_watchdogs d) (d_draining d) (d_deferred d) (d_reaped d) (d_next_flag d) (d_log d).
Definition set_d_shutting_down (v : bool) (d : Daemon) : Daemon := mkDaemon (d_finish_grace d) (d_spawn_deadline d) (d_dataflows d) (d_sessions d) v (d_sinks d) (d_spawn_deadlines d) (d_drain_deadlines d) (d_closure_deadlines d) (d_watchdogs d) (d_draining d) (d_deferred d) (d_reaped d) (d_next_flag d) (d_log d).
Definition set_d_sinks (v : gset N) (d : Daemon) : Daemon := mkDaemon (d_finish_grace d) (d_spawn_deadline d) (d_dataflows d) (d_sessions d) (d_shutting_down d) v (d_spawn_deadlines d) (d_drain_deadlines d) (d_closure_deadlines d) (d_watchdogs d) (d_draining d) (d_deferred d) (d_reaped d) (d_next_flag d) (d_log d).
Definition set_d_spawn_deadlines (v : DeadlineTable (N * str)) (d : Daemon) : Daemon := mkDaemon (d_finish_grace d) (d_spawn_deadline d) (d_dataflows d) (d_sessions d) (d_shutting_down d) (d_sinks d) v (d_drain_deadlines d) (d_closure_deadlines d) (d_watchdogs d) (d_draining d) (d_deferred d) (d_reaped d) (d_next_flag d) (d_log d).
Definition set_d_drain_deadlines (v : DeadlineTable (N * str)) (d : Daemon) : Daemon := mkDaemon (d_finish_grace d) (d_spawn_deadline d) (d_dataflows d) (d_sessions d) (d_shutting_down d) (d_sinks d) (d_spawn_deadlines d) v (d_closure_deadlines d) (d_watchdogs d) (d_draining d) (d_deferred d) (d_reaped d) (d_next_flag d) (d_log d).
Definition set_d_closure_deadlines (v : DeadlineTable (N * str)) (d : Daemon) : Daemon := mkDaemon (d_finish_grace d) (d_spawn_deadline d) (d_dataflows d) (d_sessions d) (d_shutting_down d) (d_sinks d) (d_spawn_deadlines d) (d_drain_deadlines d) v (d_watchdogs d) (d_draining d) (d_deferred d) (d_reaped d) (d_next_flag d) (d_log d).
Definition set_d_watchdogs (v : FinishWatchdogSet) (d : Daemon) : Daemon := mkDaemon (d_finish_grace d) (d_spawn_deadline d) (d_dataflows d) (d_sessions d) (d_shutting_down d) (d_sinks d) (d_spawn_deadlines d) (d_drain_deadlines d) (d_closure_deadlines d) v (d_draining d) (d_deferred d) (d_reaped d) (d_next_flag d) (d_log d).
Definition set_d_draining (v : gmap (N * str) PendingExit) (d : Daemon) : Daemon := mkDaemon (d_finish_grace d) (d_spawn_deadline d) (d_dataflows d) (d_sessions d) (d_shutting_down d) (d_sinks d) (d_spawn_deadlines d) (d_drain_deadlines d) (d_closure_deadlines d) (d_watchdogs d) v (d_deferred d) (d_reaped d) (d_next_flag d) (d_log d).
Definition set_d_deferred (v : gmap (N * str) PendingClosure) (d : Daemon) : Daemon := mkDaemon (d_finish_grace d) (d_spawn_deadline d) (d_dataflows d) (d_sessions d) (d_shutting_down d) (d_sinks d) (d_spawn_deadlines d) (d_drain_deadlines d) (d_closure_deadlines d) (d_watchdogs d) (d_draining d) v (d_reaped d) (d_next_flag d) (d_log d).
Definition set_d_reaped (v : gset N) (d : Daemon) : Daemon := mkDaemon (d_finish_grace d) (d_spawn_deadline d) (d_dataflows d) (d_sessions d) (d_shutting_down d) (d_sinks d) (d_spawn_deadlines d) (d_drain_deadlines d) (d_closure_deadlines d) (d_watchdogs d) (d_draining d) (d_deferred d) v (d_next_flag d) (d_log d).
Definition set_d_next_flag (v : N) (d : Daemon) : Daemon := mkDaemon (d_finish_grace d) (d_spawn_deadline d) (d_dataflows d) (d_sessions d) (d_shutting_down d) (d_sinks d) (d_spawn_deadlines d) (d_drain_deadlines d) (d_closure_deadlines d) (d_watchdogs d) (d_draining d) (d_deferred d) (d_reaped d) v (d_log d).
Definition set_d_log (v : list Effect) (d : Daemon) : Daemon := mkDaemon (d_finish_grace d) (d_spawn_deadline d) (d_dataflows d) (d_sessions d) (d_shutting_down d) (d_sinks d) (d_spawn_deadlines d) (d_drain_deadlines d) (d_closure_deadlines d) (d_watchdogs d) (d_draining d) (d_deferred d) (d_reaped d) (d_next_flag d) v.

Definition KILL_GRACE : N := 5000000000.
Definition DRAIN_GRACE : N := 2000000000.
Definition TEARDOWN_CLOSE_GRACE : N := 2000000000.

Definition daemon_new (finish_grace spawn_deadline : N) : Daemon :=
  mkDaemon finish_grace spawn_deadline ∅ ∅ false ∅ ∅ ∅ ∅ (watchdogs_new finish_grace KILL_GRACE) ∅ ∅ ∅ 0 [].

(** [self.state.dataflow(id).and_then(|state| state.node(node))] *)
Definition node_of (d : Daemon) (dataflow : N) (node : str) : option NodeState :=
  s ← d_dataflows d !! dataflow; ds_nodes s !! node.

Definition update_dataflow (dataflow : N) (f : DataflowState → DataflowState) (d : Daemon) : Daemon :=
  match d_dataflows d !! dataflow with
  | Some s => set_d_dataflows (<[dataflow := f s]> (d_dataflows d)) d
  | None => d
  end.

Definition update_node (dataflow : N) (node : str) (f : NodeState → NodeState) : Daemon → Daemon :=
  update_dataflow dataflow (λ s,
    match ds_nodes s !! node with Some n => set_ds_nodes (<[node := f n]> (ds_nodes s)) s | None => s end).

Definition log (e : Effect) (d : Daemon) : Daemon := set_d_log (d_log d ++ [e]) d.

(** A signal for a handle, if the system call is made. *)
Definition send_signal (generation : N) (signal : Z) (h : ProcessHandle) (d : Daemon) : Daemon :=
  match signal_if_current (d_reaped d) generation h with
  | Attempted => log (Signal_group (ph_pid h) signal) d
  | _ => d
  end.

(** [handle.mark_reaped()] *)
Definition mark_reaped (flag : N) (d : Daemon) : Daemon := set_d_reaped ({[flag]} ∪ d_reaped d) d.

(** [node_state.mark_exited(cause)] on the daemon's record. *)
Definition node_exited (dataflow : N) (node : str) (cause : NodeExitCause) (d : Daemon) : Daemon :=
  match node_of d dataflow node with
  | None => d
  | Some n =>
      let d := update_node dataflow node (λ n, (mark_exited cause n).1) d in
      match (mark_exited cause n).2 with Some flag => mark_reaped flag d | None => d end
  end.

(** *** [state/registry.rs] *)

Definition bind_session_at (session dataflow : N) (node : str) (generation : N) (d : Daemon) : Daemon :=
  set_d_sessions (<[session := mkBinding dataflow node generation]> (d_sessions d)) d.

Fixpoint find_session (current : option N) (dataflow : N) (node : str) (l : list (N * SessionBinding)) (fallback : option N) : option N :=
  match l with
  | [] => fallback
  | (session, b) :: rest =>
      if negb (sb_dataflow b =? dataflow) || negb (bool_decide (sb_node b = node)) then find_session current dataflow node rest fallback
      else if bool_decide (current = Some (sb_generation b)) then Some session
      else find_session current dataflow node rest (match fallback with Some f => Some f | None => Some session end)
  end.

Definition session_of (d : Daemon) (dataflow : N) (node : str) : option N :=
  find_session (ns_generation <$> node_of d dataflow node) dataflow node (map_entries (d_sessions d)) None.

(** *** [server/core.rs] *)

Definition send_to (dataflow : N) (node : str) (event : NodeEvent) (d : Daemon) : Daemon :=
  match session_of d dataflow node with
  | Some session => if bool_decide (session ∈ d_sinks d) then log (Sent session event) d else d
  | None => d
  end.

Definition send_all (dataflow : N) (nodes : list str) (event : NodeEvent) (d : Daemon) : Daemon :=
  foldl (λ d node, send_to dataflow node event d) d nodes.

(** The sweep over the nodes in order: the record of each after it, and whether
    it is owed the notice. *)
Definition claim (n : NodeState) : NodeState * bool := if is_live n then claim_inputs_closed_notice n else (n, false).

Definition propagate_input_closure (dataflow : N) (d : Daemon) : Daemon :=
  match d_dataflows d !! dataflow with
  | None => d
  | Some s =>
      let finished := (filter (λ p : str * NodeState, (claim p.2).2 = true) (map_entries (ds_nodes s))).*1 in
      send_all dataflow finished EventAllInputsClosed
        (update_dataflow dataflow (λ s, set_ds_nodes ((λ n, (claim n).1) <$> ds_nodes s) s) d)
  end.

(** Of a node's closed outputs, what the node records know: the queues and
    planes are told, and the sweep runs. *)
Definition close_outputs_of (dataflow : N) (node : str) (d : Daemon) : Daemon :=
  match d_dataflows d !! dataflow with None => d | Some _ => propagate_input_closure dataflow d end.

Definition notify_peers_failed (dataflow : N) (node : str) (cause : NodeExitCause) (d : Daemon) : Daemon :=
  match d_dataflows d !! dataflow with
  | None => d
  | Some s => send_all dataflow (downstream_of node (ds_routes s)) (EventNodeFailed node cause) d
  end.

Definition notify_peers_restarted (dataflow : N) (node : str) (generation : N) (d : Daemon) : Daemon :=
  if generation =? 0 then d
  else
    match d_dataflows d !! dataflow with
    | None => d
    | Some s => send_all dataflow (downstream_of node (ds_routes s)) (EventRestarted node generation) d
    end.

Definition record_and_decide (now dataflow : N) (node : str) (cause : NodeExitCause) (d : Daemon) : Daemon :=
  match node_of d dataflow node with
  | None => d
  | Some n =>
      let (history, decision) := decide_restart (sp_restart (ns_spec n)) cause (ns_history n) (is_daemon_initiated (ns_intent n)) now in
      let d := update_node dataflow node (set_ns_history history) d in
      match decision with
      | Restart delay =>
          log (Timer dataflow node (ns_generation n) delay) (update_node dataflow node mark_restarting d)
      | StayDown cause => update_dataflow dataflow (record_exit node cause) d
      end
  end.

(** No exit of the dataflow is still being drained. *)
Definition is_accounted_for (dataflow : N) (d : Daemon) : bool :=
  negb (existsb (λ key : N * str, key.1 =? dataflow) (map_keys (d_draining d))).

Definition check_dataflow_completion (dataflow : N) (d : Daemon) : Daemon :=
  if negb (is_accounted_for dataflow d) then d
  else
    match d_dataflows d !! dataflow with
    | None => d
    | Some s => if all_nodes_finished s then update_dataflow dataflow finish_dataflow d else d
    end.

Definition take_deferred_closure (dataflow : N) (node : str) (generation : N) (d : Daemon) : Daemon :=
  match d_deferred d !! (dataflow, node) with
  | Some pending =>
      if pc_generation pending =? generation then
        set_d_deferred (delete (dataflow, node) (d_deferred d))
          (set_d_closure_deadlines (disarm_generation (dataflow, node) generation (d_closure_deadlines d)).1 d)
      else d
  | None => d
  end.

Definition after_exit (now dataflow : N) (node : str) (generation : N) (cause : NodeExitCause) (d : Daemon) : Daemon :=
  let d := set_d_watchdogs (wd_disarm_generation node generation (d_watchdogs d)).1 d in
  let d := set_d_spawn_deadlines (disarm_generation (dataflow, node) generation (d_spawn_deadlines d)).1 d in
  let d := take_deferred_closure dataflow node generation d in
  let d := close_outputs_of dataflow node d in
  let d := if warrants_peer_notification cause then notify_peers_failed dataflow node cause d else d in
  let d := record_and_decide now dataflow node cause d in
  let restarting := bool_decide (ns_run_state <$> node_of d dataflow node = Some Restarting) in
  let d := log (Reported dataflow node generation cause restarting) d in
  check_dataflow_completion dataflow d.

Definition fail_node (now dataflow : N) (node : str) (generation : N) (cause : NodeExitCause) (d : Daemon) : Daemon :=
  match node_of d dataflow node with
  | None => d
  | Some n =>
      if negb (ns_generation n =? generation) || is_terminal n then d
      else
        let d := match ns_handle n with Some h => send_signal generation 9 h d | None => d end in
        after_exit now dataflow node generation cause (node_exited dataflow node cause d)
  end.

(** [DurationMs::from_duration] *)
Definition from_duration (ns : N) : N := N.min (ns / 1000000) u64_max.

Definition stop_node_at (now dataflow : N) (node : str) (cause : StopCause) (d : Daemon) : Daemon :=
  match node_of d dataflow node with
  | None => d
  | Some n =>
      if is_terminal n then d
      else
        let mark := match cause with StopDaemonShutdown => mark_daemon_shutdown | _ => mark_stopping cause end in
        let d := update_node dataflow node mark d in
        let n := mark n in
        let grace := default (d_finish_grace d) (node_finish_grace n) in
        if negb (bool_decide (ns_run_state n = Pending)) then
          let d := send_to dataflow node (EventStop cause (from_duration grace)) d in
          set_d_watchdogs (arm_with_grace node (ns_generation n) now grace (d_watchdogs d)) d
        else d
  end.

Definition dataflow_of (node : str) (d : Daemon) : option N :=
  fst <$> head (filter (λ p : N * DataflowState, is_Some (ds_nodes p.2 !! node)) (map_entries (d_dataflows d))).

Definition fire_watchdog (e : Escalation) (d : Daemon) : Daemon :=
  match dataflow_of (es_node e) d with
  | None => d
  | Some dataflow =>
      match node_of d dataflow (es_node e) with
      | None => d
      | Some n =>
          let d := update_node dataflow (es_node e) (mark_escalated (step_intent (es_step e))) d in
          match ns_handle n with
          | Some h => send_signal (es_generation e) (step_signal (es_step e)) h d
          | None => d
          end
      end
  end.

Definition fire_watchdogs (now : N) (d : Daemon) : Daemon :=
  let (watchdogs, escalations) := wd_expired now (d_watchdogs d) in
  foldl (λ d e, fire_watchdog e d) (set_d_watchdogs watchdogs d) escalations.

Definition fire_spawn_deadlines (now : N) (d : Daemon) : Daemon :=
  let (table, expiries) := expired now (d_spawn_deadlines d) in
  foldl (λ d e, fail_node now (ex_key e).1 (ex_key e).2 (ex_generation e) (SpawnDeadlineExceeded (from_duration (d_spawn_deadline d))) d)
    (set_d_spawn_deadlines table d) expiries.

(** The nodes a shutdown asks to stop, with their dataflows. *)
Definition shutdown_targets (d : Daemon) : list (N * str) :=
  mjoin ((λ p : N * DataflowState,
    (λ q : str * NodeState, (p.1, q.1)) <$> filter (λ q : str * NodeState, is_terminal q.2 = false) (map_entries (ds_nodes p.2)))
    <$> map_entries (d_dataflows d)).

Definition begin_shutdown (now : N) (d : Daemon) : Daemon :=
  if d_shutting_down d then d
  else foldl (λ d t, stop_node_at now t.1 t.2 StopDaemonShutdown d) (set_d_shutting_down true d) (shutdown_targets d).

(** *** [server/closure.rs] *)

Inductive ClosureOrigin : Set := Explicit | Teardown.

Inductive ClosureRelease : Set := ReleaseNow | AwaitExit | AlreadySaid.

Record ProcessLiveness := mkLiveness { unreaped : bool; terminal : bool }.

Definition release_for (dataflow : N) (node : str) (generation : N) (origin : ClosureOrigin) (alive : ProcessLiveness) (d : Daemon)
    : ClosureRelease :=
  match origin with
  | Explicit => ReleaseNow
  | Teardown =>
      let exit_pending := match d_draining d !! (dataflow, node) with Some p => pe_generation p =? generation | None => false end in
      if exit_pending || unreaped alive then AwaitExit
      else if terminal alive then AlreadySaid else ReleaseNow
  end.

Definition defer_closure (now dataflow : N) (node : str) (generation : N) (sources : list PortRef) (d : Daemon) : Daemon :=
  let entry :=
    match d_deferred d !! (dataflow, node) with
    | Some e => if pc_generation e =? generation then mkPendingClosure generation (pc_sources e ++ sources) else mkPendingClosure generation sources
    | None => mkPendingClosure generation sources
    end in
  set_d_closure_deadlines (arm_in (dataflow, node) generation now TEARDOWN_CLOSE_GRACE (d_closure_deadlines d))
    (set_d_deferred (<[(dataflow, node) := entry]> (d_deferred d)) d).

Definition mark_inputs_closed (dataflow : N) (source : PortRef) (d : Daemon) : Daemon :=
  match d_dataflows d !! dataflow with
  | None => d
  | Some s =>
      foldl (λ d c, update_node dataflow (co_node c) (λ n, (close_input (is_id (co_spec c)) n).1) d) d (consumers source (ds_routes s))
  end.

Definition close_source (dataflow : N) (source : PortRef) (d : Daemon) : Daemon :=
  match d_dataflows d !! dataflow with
  | None => d
  | Some _ => propagate_input_closure dataflow (mark_inputs_closed dataflow source d)
  end.

Definition close_sources (dataflow : N) (sources : list PortRef) (d : Daemon) : Daemon :=
  propagate_input_closure dataflow (foldl (λ d source, close_source dataflow source d) d sources).

(** The outputs named that were open, and the record without them. *)
Fixpoint close_outputs (outputs : list str) (n : NodeState) : NodeState * list str :=
  match outputs with
  | [] => (n, [])
  | output :: rest =>
      let (n, closed) := close_output output n in
      let (n, others) := close_outputs rest n in
      (n, if closed then output :: others else others)
  end.

Definition apply_close_outputs (now session : N) (outputs : list str) (origin : ClosureOrigin) (d : Daemon) : Daemon :=
  match d_sessions d !! session with
  | None => d
  | Some b =>
      match node_of d (sb_dataflow b) (sb_node b) with
      | None => d
      | Some n =>
          if sb_generation b <? ns_generation n then d
          else
            let closing := match outputs with [] => close_all_outputs | _ => close_outputs outputs end in
            let d := update_node (sb_dataflow b) (sb_node b) (λ n, (closing n).1) d in
            let closed := (closing n).2 in
            let alive := mkLiveness (match ns_handle n with Some _ => true | None => false end) (is_terminal n) in
            if bool_decide (closed = []) then d
            else
              let sources : list PortRef := pair (sb_node b) <$> closed in
              match release_for (sb_dataflow b) (sb_node b) (ns_generation n) origin alive d with
              | AwaitExit => defer_closure now (sb_dataflow b) (sb_node b) (ns_generation n) sources d
              | AlreadySaid => d
              | ReleaseNow => close_sources (sb_dataflow b) sources d
              end
      end
  end.

Definition fire_closure_deadline (e : Expiry (N * str)) (d : Daemon) : Daemon :=
  match d_deferred d !! ex_key e with
  | None => d
  | Some pending =>
      if negb (pc_generation pending =? ex_generation e) then d
      else close_sources (ex_key e).1 (pc_sources pending) (set_d_deferred (delete (ex_key e) (d_deferred d)) d)
  end.

Definition fire_closure_deadlines (now : N) (d : Daemon) : Daemon :=
  let (table, expiries) := expired now (d_closure_deadlines d) in
  foldl (λ d e, fire_closure_deadline e d) (set_d_closure_deadlines table d) expiries.

(** *** [server/handlers.rs] *)

(** A process that could not be started. *)
Definition fail_spawn (now dataflow : N) (node : str) (generation : N) (message : str) (d : Daemon) : Daemon :=
  after_exit now dataflow node generation (SpawnFailed message) (node_exited dataflow node (SpawnFailed message) d).

(** [spawned] is what the spawner answers: a process id, or why there is
    none.  The waiter's handle is created by the spawner, the node's own by
    [mark_spawning]; each has its flag. *)
Definition spawn_node (now dataflow : N) (node : str) (spawned : result str N) (d : Daemon) : Daemon :=
  match node_of d dataflow node with
  | None => d
  | Some n =>
      if is_dynamic n then update_node dataflow node mark_awaiting_attach d
      else
        let generation := ns_generation n in
        match spawned with
        | Err message => fail_spawn now dataflow node generation message d
        | Ok pid =>
            let waiter_flag := d_next_flag d in
            let d := set_d_next_flag (waiter_flag + 2) d in
            let d := update_node dataflow node (mark_spawning pid (waiter_flag + 1)) d in
            let deadline := default (d_spawn_deadline d) (node_spawn_deadline n) in
            let d := set_d_spawn_deadlines (arm_in (dataflow, node) generation now deadline (d_spawn_deadlines d)) d in
            log (Started dataflow node generation pid waiter_flag) d
        end
  end.

Definition handle_restart_due (now dataflow : N) (node : str) (generation : N) (spawned : result str N) (d : Daemon) : Daemon :=
  match node_of d dataflow node with
  | None => d
  | Some n =>
      if negb (ns_generation n =? generation) || negb (bool_decide (ns_run_state n = Restarting)) then d
      else
        let d := update_node dataflow node begin_next_generation d in
        let d := notify_peers_restarted dataflow node (ns_generation (begin_next_generation n)) d in
        spawn_node now dataflow node spawned d
  end.

Definition discharge_pending_exit (now dataflow : N) (node : str) (d : Daemon) : Daemon :=
  match d_draining d !! (dataflow, node) with
  | None => d
  | Some pending =>
      let d := set_d_draining (delete (dataflow, node) (d_draining d)) d in
      let d := set_d_drain_deadlines (disarm_generation (dataflow, node) (pe_generation pending) (d_drain_deadlines d)).1 d in
      after_exit now dataflow node (pe_generation pending) (pe_cause pending) d
  end.

Definition handle_process_exit (now dataflow : N) (node : str) (generation : N) (status : result str ExitStatus) (d : Daemon) : Daemon :=
  match node_of d dataflow node with
  | None => d
  | Some n =>
      if negb (ns_generation n =? generation) then d
      else
        let cause := match status with Ok status => classify_with_intent status (ns_intent n) | Err message => SpawnFailed message end in
        let d := node_exited dataflow node cause d in
        match session_of d dataflow node with
        | Some _ =>
            set_d_drain_deadlines (arm_in (dataflow, node) generation now DRAIN_GRACE (d_drain_deadlines d))
              (set_d_draining (<[(dataflow, node) := mkPendingExit generation cause]> (d_draining d)) d)
        | None => after_exit now dataflow node generation cause d
        end
  end.

Definition fire_drain_deadline (now : N) (e : Expiry (N * str)) (d : Daemon) : Daemon :=
  match d_draining d !! ex_key e with
  | None => d
  | Some pending =>
      if negb (pe_generation pending =? ex_generation e) then d else discharge_pending_exit now (ex_key e).1 (ex_key e).2 d
  end.

Definition fire_drain_deadlines (now : N) (d : Daemon) : Daemon :=
  let (table, expiries) := expired now (d_drain_deadlines d) in
  foldl (λ d e, fire_drain_deadline now e d) (set_d_drain_deadlines table d) expiries.

Definition handle_session_closed (now session : N) (d : Daemon) : Daemon :=
  let d := set_d_sinks (d_sinks d ∖ {[session]}) d in
  match d_sessions d !! session with
  | None => d
  | Some b =>
      let d := set_d_sessions (delete session (d_sessions d)) d in
      let current := ns_generation <$> node_of d (sb_dataflow b) (sb_node b) in
      if match current with Some g => negb (g =? sb_generation b) | None => false end then d
      else
        let d := discharge_pending_exit now (sb_dataflow b) (sb_node b) d in
        match node_of d (sb_dataflow b) (sb_node b) with
        | None => d
        | Some n =>
            match ns_handle n with
            | Some _ => d
            | None =>
                if is_dynamic n && negb (is_terminal n) then
                  after_exit now (sb_dataflow b) (sb_node b) (ns_generation n) Success
                    (node_exited (sb_dataflow b) (sb_node b) Success d)
                else d
            end
        end
  end.

Definition check_ready_barrier (dataflow : N) (d : Daemon) : Daemon :=
  update_dataflow dataflow (λ s,
    if bool_decide (ds_status s = DfStarting) && ready_barrier_met s then set_ds_status DfRunning s else s) d.

(** A registration is accepted, or refused without a trace here. *)
Definition apply_register (session dataflow : N) (node : str) (generation : N) (d : Daemon) : Daemon :=
  match node_of d dataflow node with
  | None => d
  | Some n =>
      if negb (is_dynamic n) && negb (generation =? ns_generation n) then d
      else
        let d := update_node dataflow node (mark_registered_on session) d in
        let generation := ns_generation n in
        let d := bind_session_at session dataflow node generation d in
        let d := set_d_spawn_deadlines (disarm_generation (dataflow, node) generation (d_spawn_deadlines d)).1 d in
        let d := send_to dataflow node EventRegistered d in
        let d := notify_peers_restarted dataflow node generation d in
        check_ready_barrier dataflow d
  end.

Definition apply_subscribe (session : N) (inputs : list str) (d : Daemon) : Daemon :=
  match d_sessions d !! session with
  | None => d
  | Some b => update_node (sb_dataflow b) (sb_node b) (subscribe inputs) d
  end.

(** *** Admission and the loop *)

Record DataflowPlan := mkPlan { pl_dataflow : N; pl_exit_when_nodes_finish : bool; pl_specs : list NodeSpawnSpec }.

Definition admit_dataflow (plan : DataflowPlan) (d : Daemon) : Daemon :=
  if d_shutting_down d then d
  else
    let s := set_ds_exit_when_nodes_finish (pl_exit_when_nodes_finish plan) (dataflow_new (pl_dataflow plan)) in
    let s := foldl (λ s spec, add_node spec s) s (pl_specs plan) in
    set_d_dataflows (<[pl_dataflow plan := s]> (d_dataflows d)) d.

(** [start_all]: the answers of the spawner, one per node of the plan. *)
Definition start_all (now : N) (plan : DataflowPlan) (spawned : list (result str N)) (d : Daemon) : Daemon :=
  foldl (λ d p, spawn_node now (pl_dataflow plan) (sp_node p.1) p.2 d)
    (update_dataflow (pl_dataflow plan) (set_ds_status DfStarting) d) (zip (pl_specs plan) spawned).

(** The part of a tick that concerns supervision. *)
Definition tick (now : N) (d : Daemon) : Daemon :=
  fire_watchdogs now (fire_closure_deadlines now (fire_drain_deadlines now (fire_spawn_deadlines now d))).

Definition should_stop (d : Daemon) : bool :=
  let all_finished := forallb all_nodes_finished (map_values (d_dataflows d)) in
  if bool_decide (map_values (d_dataflows d) = []) then d_shutting_down d
  else if negb (bool_decide (map_keys (d_draining d) = [])) then false
  else if d_shutting_down d then all_finished
  else all_finished && forallb ds_exit_when_nodes_finish (map_values (d_dataflows d)).

(** What [run] returns when the loop ends. *)
Definition finish_all (d : Daemon) : list DataflowState := finish_dataflow <$> map_values (d_dataflows d).

(** The events of the loop, with the clock reading and the spawner's answer
    where the handler takes one. *)
Inductive DaemonEvent : Type :=
| EvAdmit (plan : DataflowPlan)
| EvStart (now : N) (plan : DataflowPlan) (spawned : list (result str N))
| EvAttach (session : N)
| EvRegister (session dataflow : N) (node : str) (generation : N)
| EvSubscribe (session : N) (inputs : list str)
| EvCloseOutputs (now session : N) (outputs : list str) (origin : ClosureOrigin)
| EvSessionClosed (now session : N)
| EvReaped (flag : N)
| EvProcessExited (now dataflow : N) (node : str) (generation : N) (status : result str ExitStatus)
| EvRestartDue (now dataflow : N) (node : str) (generation : N) (spawned : result str N)
| EvHealthExpired (now dataflow : N) (node : str) (generation : N) (cause : NodeExitCause)
| EvStop (now dataflow : N) (node : str) (cause : StopCause)
| EvShutdown (now : N)
| EvTick (now : N).

Definition handle_event (e : DaemonEvent) (d : Daemon) : Daemon :=
  match e with
  | EvAdmit plan => admit_dataflow plan d
  | EvStart now plan spawned => start_all now plan spawned d
  | EvAttach session => set_d_sinks ({[session]} ∪ d_sinks d) d
  | EvRegister session dataflow node generation => apply_register session dataflow node generation d
  | EvSubscribe session inputs => apply_subscribe session inputs d
  | EvCloseOutputs now session outputs origin => apply_close_outputs now session outputs origin d
  | EvSessionClosed now session => handle_session_closed now session d
  | EvReaped flag => mark_reaped flag d
  | EvProcessExited now dataflow node generation status => handle_process_exit now dataflow node generation status d
  | EvRestartDue now dataflow node generation spawned => handle_restart_due now dataflow node generation spawned d
  | EvHealthExpired now dataflow node generation cause => fail_node now dataflow node generation cause d
  | EvStop now dataflow node cause => stop_node_at now dataflow node cause d
  | EvShutdown now => begin_shutdown now d
  | EvTick now => tick now d
  end.

Definition run (events : list DaemonEvent) (d : Daemon) : Daemon := foldl (λ d e, handle_event e d) d events.
