(* ===== verification/DaemonLaws.v ===== *)
(** * What the daemon's supervision guarantees

    The theorems on [Daemon.v]: a node that was told to stop is never started
    again by the daemon itself ([stopped_nodes_stay_down]); SIGTERM goes only to
    processes whose incarnation was told to stop ([only_stopped_incarnations_are_terminated]);
    no run is declared over while a node's result is missing
    ([finished_runs_report_every_node]).

    The first two are proved from one decomposition of the handlers into small
    steps ([micro]), each of which changes little; what the steps of an event may
    do depends on the event. *)

From Stdlib Require Import Lia.
From stdpp Require Import base tactics list gmap strings numbers sorting relations.
From S2P Require Import Prelude Text Utf8 Ordered Supervise Daemon.

Open Scope N_scope.

(** ** The primitives *)

Lemma node_of_update_node df nd f d df' nd' :
  node_of (update_node df nd f d) df' nd' =
  if decide (df = df' ∧ nd = nd') then f <$> node_of d df nd else node_of d df' nd'.
Proof.
  unfold update_node, update_dataflow. destruct (d_dataflows d !! df) as [s|] eqn:Hs.
  - assert (node_of d df nd = ds_nodes s !! nd) as Hnode by (unfold node_of; by rewrite Hs). rewrite Hnode.
    destruct (decide (df = df')) as [<-|Hdf]; [|rewrite decide_False by naive_solver; unfold node_of; cbn; by rewrite lookup_insert_ne].
    unfold node_of. cbn. rewrite lookup_insert_eq, Hs. cbn.
    destruct (ds_nodes s !! nd) as [n|] eqn:Hn; cbn; (destruct (decide (nd = nd')) as [<-|Hnd]; [rewrite decide_True by done|rewrite decide_False by naive_solver]).
    + by rewrite lookup_insert_eq.
    + by rewrite lookup_insert_ne.
    + done.
    + done.
  - destruct (decide _) as [[<- <-]|]; [|done]. unfold node_of. by rewrite Hs.
Qed.

Lemma node_of_update_dataflow df f d df' nd' :
  (∀ s, ds_nodes (f s) = ds_nodes s) → node_of (update_dataflow df f d) df' nd' = node_of d df' nd'.
Proof.
  intros Hf. unfold node_of, update_dataflow. destruct (d_dataflows d !! df) as [s|] eqn:Hs; [|done]. cbn.
  destruct (decide (df = df')) as [<-|]; [rewrite lookup_insert_eq|by rewrite lookup_insert_ne]. rewrite Hs. cbn. by rewrite Hf.
Qed.

Lemma node_of_map df f d df' nd' :
  node_of (update_dataflow df (λ s, set_ds_nodes (f <$> ds_nodes s) s) d) df' nd' =
  if decide (df = df') then f <$> node_of d df' nd' else node_of d df' nd'.
Proof.
  unfold node_of, update_dataflow. destruct (d_dataflows d !! df) as [s|] eqn:Hs; cbn.
  - destruct (decide (df = df')) as [<-|]; [rewrite lookup_insert_eq|by rewrite lookup_insert_ne]. rewrite Hs. cbn. by rewrite lookup_fmap.
  - destruct (decide (df = df')) as [<-|]; [by rewrite Hs|done].
Qed.

Lemma update_dataflow_log df f d : d_log (update_dataflow df f d) = d_log d.
Proof. unfold update_dataflow. by destruct (_ !! _). Qed.
Lemma update_dataflow_watchdogs df f d : d_watchdogs (update_dataflow df f d) = d_watchdogs d.
Proof. unfold update_dataflow. by destruct (_ !! _). Qed.

Lemma claim_keeps n : ns_spec (claim n).1 = ns_spec n ∧ ns_handle (claim n).1 = ns_handle n ∧ ns_intent (claim n).1 = ns_intent n ∧ ns_run_state (claim n).1 = ns_run_state n.
Proof. unfold claim, claim_inputs_closed_notice. destruct (is_live n); [|done]. by destruct (_ || _). Qed.

Lemma open_declared_outputs_keeps n :
  let n' := open_declared_outputs n in
  ns_spec n' = ns_spec n ∧ ns_handle n' = ns_handle n ∧ ns_intent n' = ns_intent n ∧ ns_run_state n' = ns_run_state n.
Proof. unfold open_declared_outputs. by destruct (ns_outputs_opened n). Qed.

(** ** Small steps *)

(** An update that starts nothing: it keeps the incarnation, keeps or drops
    the handle, and leaves a node that the daemon brought down so. *)
Record gentle (f : NodeState → NodeState) : Prop := {
  gentle_generation : ∀ n, ns_generation (f n) = ns_generation n;
  gentle_handle : ∀ n h, ns_handle (f n) = Some h → ns_handle n = Some h;
  gentle_down : ∀ n, is_daemon_initiated (ns_intent n) = true → ns_run_state n ≠ Restarting →
    is_daemon_initiated (ns_intent (f n)) = true ∧ ns_run_state (f n) ≠ Restarting;
}.

Definition harmless (eff : Effect) : Prop :=
  match eff with Sent _ _ | Timer _ _ _ _ | Reported _ _ _ _ _ => True | Signal_group _ s => s = 9%Z | Started _ _ _ _ _ => False end.

(** The event asks for this node to be stopped. *)
Definition stops (e : DaemonEvent) (df : N) (nd : str) : Prop :=
  match e with EvStop _ df' nd' _ => df' = df ∧ nd' = nd | EvShutdown _ => True | _ => False end.

(** The event starts or restarts this node. *)
Definition starts (e : DaemonEvent) (df : N) (nd : str) : Prop :=
  match e with
  | EvStart _ plan _ => pl_dataflow plan = df ∧ nd ∈ sp_node <$> pl_specs plan
  | EvRestartDue _ df' nd' _ _ => df' = df ∧ nd' = nd
  | _ => False
  end.

Definition rungs_within (T : str → N → Prop) (d : Daemon) : Prop :=
  ∀ nd r, wd_rungs (d_watchdogs d) !! nd = Some r → T nd (rg_generation r).

(** [T] are the incarnations that were told to stop, so far. *)
Inductive micro (T : str → N → Prop) (e : DaemonEvent) : Daemon → Daemon → Prop :=
| micro_quiet d d' : d_dataflows d' = d_dataflows d → d_log d' = d_log d → (rungs_within T d → rungs_within T d') → micro T e d d'
| micro_log d eff : harmless eff → micro T e d (log eff d)
| micro_node d df nd f : gentle f → micro T e d (update_node df nd f d)
| micro_nodes d df f : gentle f → micro T e d (update_dataflow df (λ s, set_ds_nodes (f <$> ds_nodes s) s) d)
| micro_result d df f : (∀ s, ds_nodes (f s) = ds_nodes s) → micro T e d (update_dataflow df f d)
| micro_restarting d df nd n :
    node_of d df nd = Some n → is_daemon_initiated (ns_intent n) = false → micro T e d (update_node df nd mark_restarting d)
| micro_term d df nd n h :
    node_of d df nd = Some n → ns_handle n = Some h → T nd (ph_generation h) → micro T e d (log (Signal_group (ph_pid h) 15) d)
| micro_next d df nd n :
    starts e df nd → node_of d df nd = Some n → ns_run_state n = Restarting → micro T e d (update_node df nd begin_next_generation d)
| micro_attach d df nd n :
    starts e df nd → node_of d df nd = Some n → ns_intent n = IntentRunning ∨ (∃ now plan l, e = EvStart now plan l) →
    micro T e d (update_node df nd mark_awaiting_attach d)
| micro_spawn d df nd n pid flag w :
    starts e df nd → node_of d df nd = Some n → ns_intent n = IntentRunning ∨ (∃ now plan l, e = EvStart now plan l) →
    micro T e d (log (Started df nd (ns_generation n) pid w) (update_node df nd (mark_spawning pid flag) d))
| micro_admit d plan : e = EvAdmit plan → micro T e d (admit_dataflow plan d).

Section steps.
Context (T : str → N → Prop) (e : DaemonEvent).
Notation "d ⇝ d'" := (rtc (micro T e) d d') (at level 70).

Lemma steps_quiet d d' d'' :
  d_dataflows d' = d_dataflows d → d_log d' = d_log d → (rungs_within T d → rungs_within T d') → d' ⇝ d'' → d ⇝ d''.
Proof. intros ? ? ? ?. eapply rtc_l; [by apply micro_quiet|done]. Qed.

Lemma steps_sent d df nd ev : d ⇝ send_to df nd ev d.
Proof.
  unfold send_to. destruct (session_of d df nd); [|done]. destruct (bool_decide _); [|done]. by apply rtc_once, micro_log.
Qed.

Lemma steps_fold {A} (f : Daemon → A → Daemon) l d : (∀ d x, x ∈ l → d ⇝ f d x) → d ⇝ foldl f d l.
Proof.
  revert d. induction l as [|x l IH]; intros d Hf; cbn; [done|]. etrans; [apply Hf; by left|]. apply IH. intros d' y Hy. apply Hf. by right.
Qed.

Lemma steps_send_all df nds ev d : d ⇝ send_all df nds ev d.
Proof. apply steps_fold. intros. apply steps_sent. Qed.

Lemma gentle_claim : gentle (λ n, (claim n).1).
Proof.
  split; intros n; destruct (claim_keeps n) as (Hs & Hh & Hi & Hr); unfold ns_generation; rewrite ?Hs, ?Hh, ?Hi, ?Hr; done.
Qed.

Lemma steps_closure df d : d ⇝ propagate_input_closure df d.
Proof.
  unfold propagate_input_closure. destruct (d_dataflows d !! df); [|done].
  eapply rtc_l; [apply (micro_nodes _ _ _ df), gentle_claim|]. apply steps_send_all.
Qed.

Lemma steps_close_outputs_of df nd d : d ⇝ close_outputs_of df nd d.
Proof. unfold close_outputs_of. destruct (_ !! _); [apply steps_closure|done]. Qed.

Lemma steps_failed df nd cause d : d ⇝ notify_peers_failed df nd cause d.
Proof. unfold notify_peers_failed. destruct (_ !! _); [apply steps_send_all|done]. Qed.

Lemma steps_restarted df nd g d : d ⇝ notify_peers_restarted df nd g d.
Proof. unfold notify_peers_restarted. destruct (g =? 0); [done|]. destruct (_ !! _); [apply steps_send_all|done]. Qed.

Lemma gentle_history h : gentle (set_ns_history h).
Proof. by split. Qed.

Lemma steps_decide now df nd cause d : d ⇝ record_and_decide now df nd cause d.
Proof.
  unfold record_and_decide. destruct (node_of d df nd) as [n|] eqn:Hn; [|done].
  destruct (decide_restart _ _ _ _ _) as [h dec] eqn:Hd. eapply rtc_l; [apply (micro_node _ _ _ df nd _ (gentle_history h))|].
  destruct dec as [delay|cause'].
  - assert (is_daemon_initiated (ns_intent n) = false) as Hi.
    { revert Hd. unfold decide_restart. by destruct (is_daemon_initiated _). }
    eapply rtc_l; [apply (micro_restarting _ _ _ df nd (set_ns_history h n))|by apply rtc_once, micro_log].
    + by rewrite node_of_update_node, decide_True, Hn.
    + done.
  - by apply rtc_once, micro_result.
Qed.

Lemma steps_completion df d : d ⇝ check_dataflow_completion df d.
Proof.
  unfold check_dataflow_completion. destruct (negb _); [done|]. destruct (_ !! _); [|done]. destruct (all_nodes_finished _); [|done]. by apply rtc_once, micro_result.
Qed.

Lemma rungs_within_disarm nd g d : rungs_within T d → rungs_within T (set_d_watchdogs (wd_disarm_generation nd g (d_watchdogs d)).1 d).
Proof.
  intros Hw nd' r. cbn. unfold wd_disarm_generation. destruct (_ !! nd); [|apply Hw]. destruct (_ =? _); [|apply Hw]. cbn. rewrite lookup_delete_Some. intros [_ Hr]. by apply (Hw nd').
Qed.

Lemma steps_take df nd g d : d ⇝ take_deferred_closure df nd g d.
Proof.
  unfold take_deferred_closure. destruct (_ !! _); [|done]. destruct (_ =? _); [|done]. by apply rtc_once, micro_quiet.
Qed.

Lemma steps_when (b : bool) d d1 d2 : d ⇝ d1 → d1 ⇝ d2 → d ⇝ (if b then d2 else d1).
Proof. intros. destruct b; [by etrans|done]. Qed.

Lemma steps_exit now df nd g cause d : d ⇝ after_exit now df nd g cause d.
Proof.
  unfold after_exit. cbv zeta. etrans; [|apply steps_completion]. eapply rtc_r; [|by apply micro_log]. etrans; [|apply steps_decide].
  apply steps_when; [|apply steps_failed]. etrans; [|apply steps_close_outputs_of]. etrans; [|apply steps_take].
  apply (rtc_l _ _ (set_d_watchdogs (wd_disarm_generation nd g (d_watchdogs d)).1 d)).
  - apply micro_quiet; [done..|apply rungs_within_disarm].
  - apply rtc_once. by apply micro_quiet.
Qed.

Lemma gentle_exited cause : gentle (λ n, (mark_exited cause n).1).
Proof. split; [done..|]. intros n Hi _. split; [done|]. cbn. by destruct (is_failure cause). Qed.

Lemma steps_node_exited df nd cause d : d ⇝ node_exited df nd cause d.
Proof.
  unfold node_exited. destruct (node_of d df nd) as [n|]; [|done]. cbv zeta.
  eapply rtc_l; [apply (micro_node _ _ _ df nd), gentle_exited|]. destruct (mark_exited cause n).2; [by apply rtc_once, micro_quiet|done].
Qed.

Lemma steps_signal d g h s : s = 9%Z → d ⇝ send_signal g s h d.
Proof. intros ->. unfold send_signal. destruct (signal_if_current _ _ _); [|done..]. by apply rtc_once, micro_log. Qed.

Lemma steps_fail now df nd g cause d : d ⇝ fail_node now df nd g cause d.
Proof.
  unfold fail_node. destruct (node_of d df nd) as [n|]; [|done]. destruct (_ || _); [done|]. cbv zeta.
  etrans; [|apply steps_exit]. etrans; [|apply steps_node_exited]. destruct (ns_handle n); [by apply steps_signal|done].
Qed.

Lemma gentle_stopping cause : gentle (mark_stopping cause).
Proof.
  split; [intros n|intros n h|intros n Hi Hr]; unfold mark_stopping; cbv zeta; destruct (is_terminal _) eqn:Ht; try done.
Qed.

Lemma gentle_shutdown : gentle mark_daemon_shutdown.
Proof.
  split; [intros n|intros n h|intros n Hi Hr]; unfold mark_daemon_shutdown; cbv zeta; destruct (is_terminal _) eqn:Ht; try done.
Qed.

Lemma gentle_stop_mark cause : gentle (match cause with StopDaemonShutdown => mark_daemon_shutdown | _ => mark_stopping cause end).
Proof. destruct cause; first [apply gentle_shutdown|apply gentle_stopping]. Qed.

Lemma steps_stop now df nd cause d :
  (∀ n, node_of d df nd = Some n → T nd (ns_generation n)) → d ⇝ stop_node_at now df nd cause d.
Proof.
  intros HT. unfold stop_node_at. destruct (node_of d df nd) as [n|]; [|done]. destruct (is_terminal n); [done|]. cbv zeta.
  eapply rtc_l; [apply (micro_node _ _ _ df nd), (gentle_stop_mark cause)|]. destruct (negb _); [|done].
  etrans; [apply steps_sent|]. apply rtc_once, micro_quiet; [done..|]. intros Hw nd' r. cbn.
  rewrite lookup_insert_Some. intros [[<- <-]|[_ Hr]]; [|by apply (Hw nd')]. cbn. rewrite (gentle_generation _ (gentle_stop_mark cause)). by apply HT.
Qed.

Lemma gentle_escalated s : gentle (mark_escalated (step_intent s)).
Proof. split; [done..|]. intros n _ Hr. by destruct s. Qed.

Lemma steps_fire_watchdog esc d : T (es_node esc) (es_generation esc) → d ⇝ fire_watchdog esc d.
Proof.
  intros HT. unfold fire_watchdog. destruct (dataflow_of _ d) as [df|]; [|done]. destruct (node_of d df (es_node esc)) as [n|] eqn:Hn; [|done]. cbv zeta.
  eapply rtc_l; [apply (micro_node _ _ _ df (es_node esc)), gentle_escalated|]. destruct (ns_handle n) as [h|] eqn:Hh; [|done].
  unfold send_signal. destruct (signal_if_current _ _ h) eqn:Hs; [|done..]. apply rtc_once.
  assert (ph_generation h = es_generation esc) as Hg.
  { unfold signal_if_current in Hs. by destruct (N.eqb_spec (ph_generation h) (es_generation esc)). }
  destruct (es_step esc); [|by apply micro_log].
  eapply micro_term; [rewrite node_of_update_node, decide_True by done; by rewrite Hn|done|by rewrite Hg].
Qed.

Lemma escalations_within d now esc : rungs_within T d → esc ∈ (wd_expired now (d_watchdogs d)).2 → T (es_node esc) (es_generation esc).
Proof.
  intros Hw ([nd r] & -> & [Hr _]%elem_of_due)%list_elem_of_fmap. cbn. by apply (Hw nd).
Qed.

Lemma rungs_within_expired d now : rungs_within T d → rungs_within T (set_d_watchdogs (wd_expired now (d_watchdogs d)).1 d).
Proof.
  intros Hw nd r. cbn [d_watchdogs set_d_watchdogs]. rewrite wd_expired_rung. intros (r0 & Hr0 & Hc)%bind_Some. apply Hw in Hr0.
  unfold climbed in Hc. destruct (_ <? _); [by simplify_eq|]. destruct (rg_step r0); by simplify_eq.
Qed.

Lemma steps_watchdogs now d : rungs_within T d → d ⇝ fire_watchdogs now d.
Proof.
  intros Hw. unfold fire_watchdogs. pose proof (escalations_within d now) as Hesc. pose proof (rungs_within_expired d now) as Hexp.
  destruct (wd_expired now (d_watchdogs d)) as [w l]. cbn in *. eapply rtc_l; [by apply (micro_quiet _ _ _ (set_d_watchdogs w d))|].
  apply steps_fold. intros. apply steps_fire_watchdog. by apply Hesc.
Qed.

Lemma steps_spawn_deadlines now d : d ⇝ fire_spawn_deadlines now d.
Proof.
  unfold fire_spawn_deadlines. destruct (expired now (d_spawn_deadlines d)) as [t l].
  eapply rtc_l; [by apply (micro_quiet _ _ _ (set_d_spawn_deadlines t d))|]. apply steps_fold. intros. apply steps_fail.
Qed.

Lemma steps_discharge now df nd d : d ⇝ discharge_pending_exit now df nd d.
Proof.
  unfold discharge_pending_exit. destruct (_ !! _); [|done]. cbv zeta. etrans; [|apply steps_exit].
  eapply rtc_l; [|apply rtc_once]; by apply micro_quiet.
Qed.

Lemma steps_drain_deadlines now d : d ⇝ fire_drain_deadlines now d.
Proof.
  unfold fire_drain_deadlines. destruct (expired now (d_drain_deadlines d)) as [t l].
  eapply rtc_l; [by apply (micro_quiet _ _ _ (set_d_drain_deadlines t d))|]. apply steps_fold. intros d' x _.
  unfold fire_drain_deadline. destruct (_ !! _); [|done]. destruct (negb _); [done|]. apply steps_discharge.
Qed.

Lemma gentle_close_input i : gentle (λ n, (close_input i n).1).
Proof. by split. Qed.

Lemma steps_close_source df source d : d ⇝ close_source df source d.
Proof.
  unfold close_source. destruct (d_dataflows d !! df) as [s|] eqn:Hs; [|done]. etrans; [|apply steps_closure].
  unfold mark_inputs_closed. rewrite Hs. apply steps_fold. intros. apply rtc_once, micro_node, gentle_close_input.
Qed.

Lemma steps_close_sources df sources d : d ⇝ close_sources df sources d.
Proof. unfold close_sources. etrans; [|apply steps_closure]. apply steps_fold. intros. apply steps_close_source. Qed.

Lemma steps_closure_deadlines now d : d ⇝ fire_closure_deadlines now d.
Proof.
  unfold fire_closure_deadlines. destruct (expired now (d_closure_deadlines d)) as [t l].
  eapply rtc_l; [by apply (micro_quiet _ _ _ (set_d_closure_deadlines t d))|]. apply steps_fold. intros d' x _.
  unfold fire_closure_deadline. destruct (_ !! _); [|done]. destruct (negb _); [done|]. etrans; [|apply steps_close_sources]. by apply rtc_once, micro_quiet.
Qed.

Lemma close_outputs_keeps outputs n :
  let n' := (close_outputs outputs n).1 in
  ns_spec n' = ns_spec n ∧ ns_handle n' = ns_handle n ∧ ns_intent n' = ns_intent n ∧ ns_run_state n' = ns_run_state n.
Proof.
  revert n. induction outputs as [|o outputs IH]; intros n; [done|]. cbn. specialize (IH (close_output o n).1). cbn in IH.
  by destruct (close_outputs outputs _).
Qed.

Lemma gentle_closing outputs : gentle (λ n, (match outputs with [] => close_all_outputs | _ => close_outputs outputs end n).1).
Proof.
  destruct outputs as [|o outputs]; [by split|]. split; intros n; destruct (close_outputs_keeps (o :: outputs) n) as (Hs & Hh & Hi & Hr);
    unfold ns_generation; rewrite ?Hs, ?Hh, ?Hi, ?Hr; done.
Qed.

Lemma steps_close_outputs now session outputs origin d : d ⇝ apply_close_outputs now session outputs origin d.
Proof.
  unfold apply_close_outputs. destruct (_ !! _) as [b|]; [|done]. destruct (node_of _ _ _) as [n|]; [|done]. destruct (_ <? _); [done|]. cbv zeta.
  eapply rtc_l; [apply (micro_node _ _ _ (sb_dataflow b) (sb_node b)), (gentle_closing outputs)|]. destruct (bool_decide _); [done|].
  destruct (release_for _ _ _ _ _ _); [apply steps_close_sources| |done]. by apply rtc_once, micro_quiet.
Qed.

Lemma steps_fail_spawn now df nd g message d : d ⇝ fail_spawn now df nd g message d.
Proof. unfold fail_spawn. etrans; [|apply steps_exit]. apply steps_node_exited. Qed.

Lemma steps_spawn now df nd spawned d :
  starts e df nd → (∀ n, node_of d df nd = Some n → ns_intent n = IntentRunning ∨ ∃ now plan l, e = EvStart now plan l) →
  d ⇝ spawn_node now df nd spawned d.
Proof.
  intros He Hi. unfold spawn_node. destruct (node_of d df nd) as [n|] eqn:Hn; [|done]. specialize (Hi n eq_refl).
  destruct (is_dynamic n); [by eapply rtc_once, micro_attach|]. cbv zeta. destruct spawned as [pid|message]; [|apply steps_fail_spawn].
  set (d1 := set_d_next_flag _ d). set (d2 := update_node df nd _ d1).
  eapply rtc_l; [by apply (micro_quiet _ _ _ d1)|].
  apply (rtc_l _ _ (log (Started df nd (ns_generation n) pid (d_next_flag d)) d2)); [by apply micro_spawn|].
  by apply rtc_once, micro_quiet.
Qed.

Lemma node_of_dataflows d d' df nd : d_dataflows d' = d_dataflows d → node_of d' df nd = node_of d df nd.
Proof. intros Hd. unfold node_of. by rewrite Hd. Qed.

Lemma send_all_dataflows df nds ev d : d_dataflows (send_all df nds ev d) = d_dataflows d.
Proof.
  revert d. induction nds as [|x nds IH]; intros d; [done|]. unfold send_all in *. cbn. rewrite IH. unfold send_to.
  destruct (session_of d df x); [|done]. by destruct (bool_decide _).
Qed.

Lemma restarted_dataflows df nd g d : d_dataflows (notify_peers_restarted df nd g d) = d_dataflows d.
Proof. unfold notify_peers_restarted. destruct (g =? 0); [done|]. destruct (_ !! _); [apply send_all_dataflows|done]. Qed.

Lemma steps_restart_due now df nd g spawned d :
  e = EvRestartDue now df nd g spawned → d ⇝ handle_restart_due now df nd g spawned d.
Proof.
  intros He. assert (starts e df nd) as Hst by by rewrite He. unfold handle_restart_due. destruct (node_of d df nd) as [n|] eqn:Hn; [|done].
  destruct (negb (_ =? _)); [done|]. cbn [orb]. case_bool_decide as Hr; cbn [negb]; [|done]. cbv zeta.
  eapply rtc_l; [by apply (micro_next _ _ _ df nd n)|]. etrans; [apply steps_restarted|]. apply steps_spawn; [done|]. intros n' Hn'. left.
  rewrite (node_of_dataflows _ _ _ _ (restarted_dataflows _ _ _ _)), node_of_update_node, decide_True, Hn in Hn' by done. cbn in Hn'. by simplify_eq.
Qed.

Lemma steps_process_exit now df nd g status d : d ⇝ handle_process_exit now df nd g status d.
Proof.
  unfold handle_process_exit. destruct (node_of d df nd) as [n|]; [|done]. destruct (negb _); [done|]. cbv zeta.
  set (cause := match status with Ok _ => _ | Err _ => _ end). etrans; [apply (steps_node_exited df nd cause)|].
  destruct (session_of _ df nd); [|apply steps_exit]. by apply rtc_once, micro_quiet.
Qed.

Lemma steps_session_closed now session d : d ⇝ handle_session_closed now session d.
Proof.
  unfold handle_session_closed. cbv zeta. set (d1 := set_d_sinks _ d). eapply rtc_l; [by apply (micro_quiet _ _ _ d1)|].
  destruct (d_sessions d1 !! session) as [b|]; [|done]. set (d2 := set_d_sessions _ d1). eapply rtc_l; [by apply (micro_quiet _ _ _ d2)|].
  destruct (match _ with Some _ => _ | None => false end); [done|]. etrans; [apply (steps_discharge now (sb_dataflow b) (sb_node b))|].
  destruct (node_of _ _ _) as [n|]; [|done]. destruct (ns_handle n); [done|]. destruct (_ && _); [|done].
  etrans; [|apply steps_exit]. apply steps_node_exited.
Qed.

Lemma gentle_registered session : gentle (mark_registered_on session).
Proof.
  split; intros n; unfold mark_registered_on, mark_registered; cbv zeta; set (n0 := set_ns_registered_this_incarnation _ _);
    destruct (open_declared_outputs_keeps n0) as (Hs & Hh & Hi & Hr); cbn in Hs, Hh, Hi, Hr; unfold ns_generation; destruct (is_terminal _); cbn;
    rewrite ?Hs, ?Hh, ?Hi, ?Hr; done.
Qed.

Lemma steps_register session df nd g d : d ⇝ apply_register session df nd g d.
Proof.
  unfold apply_register. destruct (node_of d df nd) as [n|]; [|done]. destruct (_ && _); [done|]. cbv zeta.
  etrans; [|apply rtc_once, micro_result; intros s; by destruct (_ && _)]. etrans; [|apply steps_restarted]. etrans; [|apply steps_sent].
  eapply rtc_l; [apply (micro_node _ _ _ df nd), gentle_registered|]. eapply rtc_l; [|apply rtc_once]; by apply micro_quiet.
Qed.

Lemma gentle_subscribe inputs : gentle (subscribe inputs).
Proof. by destruct inputs; split. Qed.
End steps.

(** ** An event is a run of small steps *)

Lemma micro_rungs T e d d' : micro T e d d' → rungs_within T d → rungs_within T d'.
Proof.
  destruct 1; intros Hw; try done; try (by apply H1); unfold rungs_within, update_node in *; cbn [log d_watchdogs set_d_log]; rewrite ?update_dataflow_watchdogs; try done.
  unfold admit_dataflow. by destruct (d_shutting_down d).
Qed.

Lemma steps_rungs T e d d' : rtc (micro T e) d d' → rungs_within T d → rungs_within T d'.
Proof. induction 1; [done|]. eauto using micro_rungs. Qed.

Lemma stop_node_of now df nd cause d df' nd' n' :
  node_of (stop_node_at now df nd cause d) df' nd' = Some n' → ∃ n, node_of d df' nd' = Some n ∧ ns_generation n' = ns_generation n.
Proof.
  unfold stop_node_at. destruct (node_of d df nd) as [n|] eqn:Hn; [|eauto]. destruct (is_terminal n); [eauto|]. cbv zeta.
  set (mark := match cause with StopDaemonShutdown => _ | _ => _ end). pose proof (gentle_stop_mark cause : gentle mark) as Hg.
  set (d1 := update_node df nd mark d). intros Hn'. assert (node_of d1 df' nd' = Some n') as Hd1.
  { revert Hn'. destruct (negb _); [|done]. intros <-. apply node_of_dataflows. cbn.
    symmetry. apply (send_all_dataflows df [nd]). }
  subst d1. rewrite node_of_update_node in Hd1. destruct (decide _) as [[<- <-]|]; [|eauto]. rewrite Hn in Hd1. cbn in Hd1. simplify_eq. exists n. by rewrite (gentle_generation _ Hg).
Qed.

Lemma steps_event T e d :
  rungs_within T d → (∀ df nd n, stops e df nd → node_of d df nd = Some n → T nd (ns_generation n)) → rtc (micro T e) d (handle_event e d).
Proof.
  intros Hw HT. destruct e as [plan|now plan spawned|s|s df nd g|s l|now s l o|now s|flag|now df nd g st|now df nd g sp|now df nd g c|now df nd c|now|now]; cbn [handle_event].
  - by apply rtc_once, micro_admit.
  - unfold start_all. eapply rtc_l; [by apply (micro_result _ _ _ (pl_dataflow plan) (set_ds_status DfStarting))|]. apply steps_fold.
    intros d' [spec r] Hin. apply steps_spawn; [|by right; eexists _, _, _]. cbn. split; [done|]. apply list_elem_of_fmap. exists spec. by apply elem_of_zip_l in Hin.
  - by apply rtc_once, micro_quiet.
  - apply steps_register.
  - unfold apply_subscribe. destruct (_ !! _); [|done]. apply rtc_once, micro_node, gentle_subscribe.
  - apply steps_close_outputs.
  - apply steps_session_closed.
  - by apply rtc_once, micro_quiet.
  - apply steps_process_exit.
  - by apply steps_restart_due.
  - apply steps_fail.
  - apply steps_stop. intros n. by apply HT.
  - unfold begin_shutdown. destruct (d_shutting_down d); [done|]. generalize (shutdown_targets d) as l. intros l.
    assert (∀ df nd n, node_of (set_d_shutting_down true d) df nd = Some n → T nd (ns_generation n)) as HT' by (intros df nd n; by apply HT).
    eapply rtc_l; [by apply (micro_quiet _ _ _ (set_d_shutting_down true d))|]. clear HT Hw. revert HT'. generalize (set_d_shutting_down true d). clear d.
    induction l as [|[df nd] l IH]; intros d HT; cbn; [done|]. etrans; [apply steps_stop; intros n; by apply HT|]. apply IH.
    intros df' nd' n' (n & Hn & ->)%stop_node_of. by eapply HT.
  - unfold tick. etrans; [|apply steps_watchdogs]; [|eapply (steps_rungs T (EvTick now)); [|done]];
      (etrans; [|apply steps_closure_deadlines]; etrans; [|apply steps_drain_deadlines]; apply steps_spawn_deadlines).
Qed.

(** ** Stopped nodes *)

Section stopped.
Context (df : N) (nd : str).

(** The daemon has brought the node down and will not restart it. *)
Definition brought_down (generation : N) (d : Daemon) : Prop :=
  ∃ n, node_of d df nd = Some n ∧ is_daemon_initiated (ns_intent n) = true ∧ ns_run_state n ≠ Restarting ∧ ns_generation n = generation.

(** An operator starts the node, or loads its dataflow again. *)
Definition started_by_hand (e : DaemonEvent) : Prop :=
  match e with
  | EvAdmit plan => pl_dataflow plan = df
  | EvStart _ plan _ => pl_dataflow plan = df ∧ nd ∈ sp_node <$> pl_specs plan
  | _ => False
  end.

Definition not_started (eff : Effect) : Prop := ∀ g pid w, eff ≠ Started df nd g pid w.

Lemma brought_down_update g df' nd' f d : gentle f → brought_down g d → brought_down g (update_node df' nd' f d).
Proof.
  intros Hf (n & Hn & Hi & Hr & Hg). unfold brought_down. rewrite node_of_update_node. destruct (decide _) as [[-> ->]|]; [|by exists n].
  rewrite Hn. cbn. destruct (gentle_down _ Hf n Hi Hr). exists (f n). split_and!; [done..|]. by rewrite (gentle_generation _ Hf).
Qed.

Lemma brought_down_ne g df' nd' f d : ¬ (df' = df ∧ nd' = nd) → brought_down g d → brought_down g (update_node df' nd' f d).
Proof. intros Hne (n & Hn & Hrest). exists n. rewrite node_of_update_node, decide_False; naive_solver. Qed.

Lemma brought_down_same g d d' : d_dataflows d' = d_dataflows d → brought_down g d → brought_down g d'.
Proof. intros Hd (n & Hn & Hrest). exists n. by rewrite (node_of_dataflows _ _ _ _ Hd). Qed.

Lemma micro_brought_down e g d d' :
  ¬ started_by_hand e → micro (λ _ _, True) e d d' → brought_down g d →
  brought_down g d' ∧ ∃ l, d_log d' = d_log d ++ l ∧ Forall not_started l.
Proof.
  intros Hhand [] Hdown.
  - split; [by eapply brought_down_same|]. exists []. by rewrite app_nil_r.
  - split; [by eapply brought_down_same|]. exists [eff]. split; [done|]. constructor; [|done]. by destruct eff.
  - split; [by apply brought_down_update|]. exists []. unfold update_node. by rewrite update_dataflow_log, app_nil_r.
  - split.
    + destruct Hdown as (n & Hn & Hi & Hr & Hg). unfold brought_down. rewrite node_of_map, Hn. destruct (decide _); [|by exists n]. cbn.
      destruct (gentle_down _ H n Hi Hr). exists (f n). split_and!; [done..|]. by rewrite (gentle_generation _ H).
    + exists []. by rewrite update_dataflow_log, app_nil_r.
  - split.
    + destruct Hdown as (n & Hn & Hrest). exists n. by rewrite node_of_update_dataflow.
    + exists []. by rewrite update_dataflow_log, app_nil_r.
  - split; [apply brought_down_ne; [|done]|exists []; unfold update_node; by rewrite update_dataflow_log, app_nil_r].
    intros [-> ->]. destruct Hdown as (n' & Hn & Hi & _). naive_solver congruence.
  - split; [by eapply brought_down_same|]. eexists [_]. split; [done|]. by constructor.
  - split; [apply brought_down_ne; [|done]|exists []; unfold update_node; by rewrite update_dataflow_log, app_nil_r].
    intros [-> ->]. destruct Hdown as (n' & Hn & _ & Hr & _). naive_solver congruence.
  - assert (¬ (df0 = df ∧ nd0 = nd)) as Hne.
    { intros [-> ->]. destruct Hdown as (n' & Hn & Hi & _). destruct H1 as [Hrun|(now & plan & l & ->)]; [|by apply Hhand].
      rewrite Hn in H0. simplify_eq. by rewrite Hrun in Hi. }
    split; [by apply brought_down_ne|exists []; unfold update_node; by rewrite update_dataflow_log, app_nil_r].
  - assert (¬ (df0 = df ∧ nd0 = nd)) as Hne.
    { intros [-> ->]. destruct Hdown as (n' & Hn & Hi & _). destruct H1 as [Hrun|(now & plan & l & ->)]; [|by apply Hhand].
      rewrite Hn in H0. simplify_eq. by rewrite Hrun in Hi. }
    split; [eapply brought_down_same; [|by apply brought_down_ne]; done|]. eexists [_]. unfold update_node. cbn. rewrite update_dataflow_log. split; [done|].
    constructor; [|done]. intros g' pid' w' [= -> -> _ _ _]. by apply Hne.
  - subst. unfold admit_dataflow. destruct (d_shutting_down d0); [split; [done|]; exists []; by rewrite app_nil_r|]. split; [|exists []; by rewrite app_nil_r].
    destruct Hdown as (n & Hn & Hrest). exists n. split; [|done]. unfold node_of in *. cbn. by rewrite lookup_insert_ne.
Qed.

Lemma steps_brought_down e g d d' :
  ¬ started_by_hand e → rtc (micro (λ _ _, True) e) d d' → brought_down g d →
  brought_down g d' ∧ ∃ l, d_log d' = d_log d ++ l ∧ Forall not_started l.
Proof.
  intros Hhand. induction 1 as [d|d d1 d2 Hd _ IH]; intros Hdown; [split; [done|]; exists []; by rewrite app_nil_r|].
  destruct (micro_brought_down _ _ _ _ Hhand Hd Hdown) as (Hdown1 & l1 & Hl1 & Hn1). destruct (IH Hdown1) as (Hdown2 & l2 & Hl2 & Hn2).
  split; [done|]. exists (l1 ++ l2). rewrite Hl2, Hl1, app_assoc. split; [done|]. by apply Forall_app.
Qed.

Lemma run_brought_down g events d :
  Forall (λ e, ¬ started_by_hand e) events → brought_down g d →
  brought_down g (run events d) ∧ ∃ l, d_log (run events d) = d_log d ++ l ∧ Forall not_started l.
Proof.
  intros Hev. revert d. induction Hev as [|e events He _ IH]; intros d Hdown; [split; [done|]; exists []; by rewrite app_nil_r|]. cbn.
  destruct (steps_brought_down e g d (handle_event e d) He) as (Hdown1 & l1 & Hl1 & Hn1); [by apply steps_event|done|].
  destruct (IH _ Hdown1) as (Hdown2 & l2 & Hl2 & Hn2). split; [done|]. exists (l1 ++ l2). unfold run in Hl2. rewrite Hl2, Hl1, app_assoc. split; [done|]. by apply Forall_app.
Qed.

Lemma stop_brings_down now cause n d :
  node_of d df nd = Some n → is_terminal n = false → brought_down (ns_generation n) (stop_node_at now df nd cause d).
Proof.
  intros Hn Ht. unfold stop_node_at. rewrite Hn, Ht. cbv zeta. set (mark := match cause with StopDaemonShutdown => _ | _ => _ end).
  assert (is_daemon_initiated (ns_intent (mark n)) = true ∧ ns_run_state (mark n) = Stopping ∧ ns_generation (mark n) = ns_generation n) as (Hi & Hr & Hg).
  { subst mark. unfold is_terminal in Ht. destruct cause; unfold mark_stopping, mark_daemon_shutdown, is_terminal; cbn; by rewrite Ht. }
  rewrite Hr. rewrite (bool_decide_eq_false_2 _) by done. cbn [negb].
  eapply (brought_down_same _ (update_node df nd mark d)); [cbn; apply (send_all_dataflows df [nd])|].
  exists (mark n). rewrite node_of_update_node, decide_True, Hn by done. split_and!; [done..|by rewrite Hr|done].
Qed.

Lemma stop_starts_nothing now cause d : d_log (stop_node_at now df nd cause d) = d_log d ∨ ∃ s ev, d_log (stop_node_at now df nd cause d) = d_log d ++ [Sent s ev].
Proof.
  unfold stop_node_at. destruct (node_of d df nd) as [n|]; [|by left]. destruct (is_terminal n); [by left|]. cbv zeta.
  set (mark := match cause with StopDaemonShutdown => _ | _ => _ end). destruct (negb _); cbn; unfold update_node; rewrite ?update_dataflow_log; [|by left].
  unfold send_to. destruct (session_of _ _ _); [|left; by rewrite update_dataflow_log]. destruct (bool_decide _); cbn; rewrite ?update_dataflow_log; eauto.
Qed.
End stopped.

(** C15. A stop is final: once a node that has not ended is told to stop, or
    its daemon shuts down, the daemon never starts another process for it and
    its incarnation stays the same, whatever exits, timers, restarts that were
    already pending, registrations, deadlines and further stops follow, until
    an operator starts it or loads its dataflow again. *)
Theorem stopped_nodes_stay_down (d : Daemon) (now df : N) (nd : str) (cause : StopCause) (n : NodeState) (events : list DaemonEvent) :
  node_of d df nd = Some n → is_terminal n = false → Forall (λ e, ¬ started_by_hand df nd e) events →
  let d' := run events (stop_node_at now df nd cause d) in
  ns_generation <$> node_of d' df nd = Some (ns_generation n) ∧
  ∀ g pid w, Started df nd g pid w ∈ d_log d' → Started df nd g pid w ∈ d_log d.
Proof.
  intros Hn Ht Hev. pose proof (stop_brings_down df nd now cause n d Hn Ht) as Hdown.
  destruct (run_brought_down df nd _ events _ Hev Hdown) as ((n' & Hn' & _ & _ & Hg) & l & Hl & Hns). cbv zeta. rewrite Hn', Hl. cbn. split; [by rewrite Hg|].
  intros g pid w [Hin|Hin]%elem_of_app.
  - destruct (stop_starts_nothing df nd now cause d) as [Hlog|(s & ev & Hlog)]; rewrite Hlog in Hin; [done|].
    by apply elem_of_app in Hin as [?|?%list_elem_of_singleton].
  - eapply Forall_forall in Hns; [|done]. by destruct (Hns g pid w).
Qed.

(** ** Who is sent SIGTERM *)

(** The nodes a loaded plan creates are new. *)
Lemma plan_nodes specs s nd n :
  ds_nodes (foldl (λ s spec, add_node spec s) s specs) !! nd = Some n →
  (∃ spec, spec ∈ specs ∧ nd = sp_node spec ∧ n = node_new spec) ∨ ds_nodes s !! nd = Some n.
Proof.
  revert s. induction specs as [|spec specs IH]; intros s; cbn; [by right|]. intros [(spec' & Hin & Heq)|Hs]%IH; [left; exists spec'; split; [by right|done]|].
  cbn in Hs. rewrite lookup_insert_Some in Hs. destruct Hs as [[<- <-]|[_ Hs]]; [|by right]. left. exists spec. split; [by left|done].
Qed.

Lemma admitted_node plan d df nd n :
  node_of (admit_dataflow plan d) df nd = Some n →
  node_of d df nd = Some n ∨ (df = pl_dataflow plan ∧ nd ∈ sp_node <$> pl_specs plan ∧ ns_handle n = None ∧ is_terminal n = false).
Proof.
  unfold admit_dataflow. destruct (d_shutting_down d); [by left|]. unfold node_of at 1. cbn. destruct (decide (pl_dataflow plan = df)) as [<-|].
  - rewrite lookup_insert_eq. cbn. intros [(spec & Hin & -> & ->)|Hs]%plan_nodes; [|cbn in Hs; by apply lookup_empty_Some in Hs].
    right. split_and!; [done| |done..]. by apply list_elem_of_fmap_2.
  - rewrite lookup_insert_ne by done. by left.
Qed.

(** [P] are the nodes of the plans that were loaded. *)
Record sound (T : str → N → Prop) (P : N → str → Prop) (d : Daemon) : Prop := {
  sound_rungs : rungs_within T d;
  sound_nodes : ∀ df nd n, node_of d df nd = Some n → P df nd;
  sound_handles : ∀ df nd n h, node_of d df nd = Some n → ns_handle n = Some h → ∃ w, Started df nd (ph_generation h) (ph_pid h) w ∈ d_log d;
  sound_started : ∀ df nd g pid w, Started df nd g pid w ∈ d_log d → P df nd;
  sound_terms : ∀ pid, Signal_group pid 15 ∈ d_log d → ∃ df nd g w, T nd g ∧ Started df nd g pid w ∈ d_log d;
}.

Lemma sound_step T P d d' l :
  d_log d' = d_log d ++ l → rungs_within T d' →
  (∀ df nd n', node_of d' df nd = Some n' → P df nd ∧ ∀ h, ns_handle n' = Some h →
     (∃ n, node_of d df nd = Some n ∧ ns_handle n = Some h) ∨ ∃ w, Started df nd (ph_generation h) (ph_pid h) w ∈ l) →
  (∀ df nd g pid w, Started df nd g pid w ∈ l → P df nd) →
  (∀ pid, Signal_group pid 15 ∈ l → ∃ df nd g w, T nd g ∧ Started df nd g pid w ∈ d_log d) →
  sound T P d → sound T P d'.
Proof.
  intros Hlog Hr Hn Hst Hterm Hs. split; rewrite ?Hlog.
  - done.
  - intros df nd n Hnode. by apply (Hn df nd n).
  - intros df nd n' h Hnode Hh. destruct (Hn df nd n' Hnode) as [_ Hhandle]. destruct (Hhandle h Hh) as [(n & Hn0 & Hh0)|(w & Hw)].
    + destruct (sound_handles _ _ _ Hs df nd n h Hn0 Hh0) as (w & Hw). exists w. apply elem_of_app. by left.
    + exists w. apply elem_of_app. by right.
  - intros df nd g pid w [Hin|Hin]%elem_of_app; [by eapply (sound_started _ _ _ Hs)|by eapply Hst].
  - intros pid [Hin|Hin]%elem_of_app.
    + destruct (sound_terms _ _ _ Hs pid Hin) as (df & nd & g & w & HT & Hw). exists df, nd, g, w. split; [done|]. apply elem_of_app. by left.
    + destruct (Hterm pid Hin) as (df & nd & g & w & HT & Hw). exists df, nd, g, w. split; [done|]. apply elem_of_app. by left.
Qed.

(** A step that starts no process and sends no SIGTERM. *)
Lemma sound_quiet T P d d' l :
  d_log d' = d_log d ++ l → Forall harmless l → rungs_within T d' →
  (∀ df nd n', node_of d' df nd = Some n' → P df nd ∧ ∀ h, ns_handle n' = Some h → ∃ n, node_of d df nd = Some n ∧ ns_handle n = Some h) →
  sound T P d → sound T P d'.
Proof.
  intros Hlog Hl Hr Hn. eapply sound_step; [done..| | |].
  - intros df nd n' Hn'. destruct (Hn _ _ _ Hn') as [HP Hh]. split; [done|]. intros h Hh'. left. by apply Hh.
  - intros df nd g pid w Hin. eapply Forall_forall in Hl; [|done]. done.
  - intros pid Hin. eapply Forall_forall in Hl; [|done]. done.
Qed.

Lemma sound_same_node T P d df nd n : sound T P d → node_of d df nd = Some n →
  P df nd ∧ ∀ h, ns_handle n = Some h → ∃ n, node_of d df nd = Some n ∧ ns_handle n = Some h.
Proof. intros Hs Hn. split; [by eapply sound_nodes|]. eauto. Qed.

Lemma sound_update T P d df nd f :
  (∀ n h, node_of d df nd = Some n → ns_handle (f n) = Some h → ns_handle n = Some h) → sound T P d → sound T P (update_node df nd f d).
Proof.
  intros Hf Hs. eapply (sound_quiet T P d _ []); [| | | |done].
  - unfold update_node. by rewrite update_dataflow_log, app_nil_r.
  - done.
  - intros nd' r. unfold update_node. rewrite update_dataflow_watchdogs. apply (sound_rungs _ _ _ Hs).
  - intros df' nd' n' Hn'. rewrite node_of_update_node in Hn'. destruct (decide _) as [[<- <-]|]; [|by apply (sound_same_node T P)].
    destruct (node_of d df nd) as [n|] eqn:Hn; cbn in Hn'; simplify_eq. split; [by eapply sound_nodes|]. intros h Hh. exists n. split; [done|]. by apply Hf.
Qed.

Lemma mark_spawning_handle pid flag n :
  ns_handle (mark_spawning pid flag n) = Some (mkHandle (sp_dataflow (ns_spec n)) (sp_node (ns_spec n)) (ns_generation n) pid flag).
Proof. unfold mark_spawning. cbv zeta. by rewrite (proj1 (proj2 (open_declared_outputs_keeps _))). Qed.

Lemma update_node_log df nd f d : d_log (update_node df nd f d) = d_log d.
Proof. apply update_dataflow_log. Qed.

Lemma node_of_log eff d df nd : node_of (log eff d) df nd = node_of d df nd.
Proof. done. Qed.

Lemma sound_spawn T P d df nd n pid flag w :
  node_of d df nd = Some n → rungs_within T (log (Started df nd (ns_generation n) pid w) (update_node df nd (mark_spawning pid flag) d)) → sound T P d →
  sound T P (log (Started df nd (ns_generation n) pid w) (update_node df nd (mark_spawning pid flag) d)).
Proof.
  intros Hn Hr Hs. eapply (sound_step T P d _ [Started df nd (ns_generation n) pid w]); [|exact Hr| | | |exact Hs].
  - unfold log. cbn [d_log set_d_log]. by rewrite update_node_log.
  - intros df' nd' n'. rewrite node_of_log, node_of_update_node. destruct (decide _) as [[<- <-]|]; intros Hn'.
    + rewrite Hn, fmap_Some in Hn'. destruct Hn' as (n0 & [= <-] & ->). split; [by eapply sound_nodes|]. intros h Hh. right.
      rewrite mark_spawning_handle in Hh. injection Hh as <-. exists w. by left.
    + destruct (sound_same_node T P _ _ _ _ Hs Hn') as [HP' Hh]. split; [done|]. intros h' Hh'. left. eauto.
  - intros df' nd' g' pid' w' Hin. apply list_elem_of_singleton in Hin. injection Hin as -> -> _ _ _. by eapply sound_nodes.
  - intros pid' Hin. by apply list_elem_of_singleton in Hin.
Qed.

Lemma micro_sound T P e d d' :
  (∀ plan nd, e = EvAdmit plan → nd ∈ sp_node <$> pl_specs plan → P (pl_dataflow plan) nd) → micro T e d d' → sound T P d → sound T P d'.
Proof.
  intros HP Hm Hs. pose proof (micro_rungs _ _ _ _ Hm (sound_rungs _ _ _ Hs)) as Hr. destruct Hm.
  - eapply (sound_quiet T P d _ []); [by rewrite app_nil_r|done..| |done]. intros df nd n. rewrite (node_of_dataflows _ _ _ _ H). by apply (sound_same_node T P).
  - eapply (sound_quiet T P d _ [eff]); [done|by constructor|done| |done]. intros df nd n Hn. apply (sound_same_node T P); [done|exact Hn].
  - apply sound_update; [|done]. intros n h _. by apply gentle_handle.
  - eapply (sound_quiet T P d _ []); [by rewrite update_dataflow_log, app_nil_r|done..| |done]. intros df' nd n' Hn'. rewrite node_of_map in Hn'.
    destruct (decide _); [|by apply (sound_same_node T P)]. destruct (node_of d df' nd) as [n|] eqn:Hn; cbn in Hn'; simplify_eq.
    split; [by eapply sound_nodes|]. intros h Hh. exists n. split; [done|]. by apply (gentle_handle _ H).
  - eapply (sound_quiet T P d _ []); [by rewrite update_dataflow_log, app_nil_r|done..| |done]. intros df' nd n'. rewrite node_of_update_dataflow by done. by apply (sound_same_node T P).
  - by apply sound_update.
  - eapply (sound_step T P d _ [_]); [done..| | |intros pid Hin|done].
    + intros df' nd' n' Hn'. destruct (sound_same_node _ _ _ _ _ _ Hs Hn') as [HP' Hh]. split; [done|]. intros h' Hh'. left. eauto.
    + intros df' nd' g pid w Hin. by apply list_elem_of_singleton in Hin.
    + apply list_elem_of_singleton in Hin. simplify_eq. destruct (sound_handles _ _ _ Hs _ _ _ _ H H0) as (w & Hw). by exists df, nd, (ph_generation h), w.
  - apply sound_update; [|done]. intros n' h _ Hh. done.
  - by apply sound_update.
  - by apply sound_spawn.
  - subst. eapply (sound_quiet T P d _ []); [unfold admit_dataflow; destruct (d_shutting_down d); by rewrite app_nil_r|done..| |done].
    intros df nd n [Hn|(-> & Hin & Hh & _)]%admitted_node; [by apply (sound_same_node T P)|]. split; [by apply HP|]. intros h Hh'. by rewrite Hh in Hh'.
Qed.

Lemma steps_sound T P e d d' :
  (∀ plan nd, e = EvAdmit plan → nd ∈ sp_node <$> pl_specs plan → P (pl_dataflow plan) nd) → rtc (micro T e) d d' → sound T P d → sound T P d'.
Proof. intros HP. induction 1; [done|]. eauto using micro_sound. Qed.

Lemma sound_weaken T T' (P P' : N → str → Prop) d :
  (∀ nd g, T nd g → T' nd g) → (∀ df nd, P df nd → P' df nd) → sound T P d → sound T' P' d.
Proof.
  intros HT HP [Hr Hn Hh Hs Ht]. split; [intros nd r Hnd; eauto|eauto..|]. intros pid Hin. destruct (Ht pid Hin) as (df & nd & g & w & ? & ?). exists df, nd, g, w. eauto.
Qed.

Section history.
Context (finish_grace spawn_deadline : N).
Notation fresh := (daemon_new finish_grace spawn_deadline).

(** This incarnation of the node was told to stop at some point of the run. *)
Definition told_to_stop (trace : list DaemonEvent) (df : N) (nd : str) (g : N) : Prop :=
  ∃ pre e post, trace = pre ++ e :: post ∧ stops e df nd ∧ ns_generation <$> node_of (run pre fresh) df nd = Some g.

Definition planned (trace : list DaemonEvent) (df : N) (nd : str) : Prop :=
  ∃ plan, EvAdmit plan ∈ trace ∧ pl_dataflow plan = df ∧ nd ∈ sp_node <$> pl_specs plan.

Lemma planned_app trace l df nd : planned trace df nd → planned (trace ++ l) df nd.
Proof. intros (plan & Hin & Hp). exists plan. split; [|done]. apply elem_of_app. by left. Qed.

Lemma told_app trace l df nd g : told_to_stop trace df nd g → told_to_stop (trace ++ l) df nd g.
Proof. intros (pre & e & post & -> & Hs). exists pre, e, (post ++ l). by rewrite <-app_assoc. Qed.

Lemma run_sound trace : sound (λ nd g, ∃ df, told_to_stop trace df nd g ∧ planned trace df nd) (planned trace) (run trace fresh).
Proof.
  induction trace as [|e trace IH] using rev_ind.
  { split.
    - intros nd r Hr. cbn in Hr. by apply lookup_empty_Some in Hr.
    - intros df nd n Hn. unfold node_of in Hn. cbn in Hn. by rewrite lookup_empty in Hn.
    - intros df nd n h Hn. unfold node_of in Hn. cbn in Hn. by rewrite lookup_empty in Hn.
    - intros df nd g pid w Hin. cbn in Hin. by apply elem_of_nil in Hin.
    - intros pid Hin. cbn in Hin. by apply elem_of_nil in Hin. }
  unfold run in *. rewrite foldl_app. cbn.
  eapply (sound_weaken _ (λ nd g, ∃ df, told_to_stop (trace ++ [e]) df nd g ∧ planned (trace ++ [e]) df nd) _ (planned (trace ++ [e]))) in IH;
    [|intros nd g (df & ? & ?); eauto using told_app, planned_app|eauto using planned_app].
  eapply (steps_sound _ _ e); [| |exact IH].
  - intros plan nd -> Hin. exists plan. split; [|done]. apply elem_of_app. right. by left.
  - apply steps_event; [by eapply sound_rungs|]. intros df nd n Hst Hn. exists df. split; [|by eapply sound_nodes].
    exists trace, e, []. split_and!; [done..|]. unfold run. by rewrite Hn.
Qed.

(** C16. Among dataflows that do not share node ids, every SIGTERM the daemon
    sends goes to a process it started itself as some incarnation of some node,
    and exactly that incarnation had been told to stop before: a restarted node
    never gets the signal its predecessor earned. *)
Theorem only_stopped_incarnations_are_terminated (trace : list DaemonEvent) (pid : N) :
  (∀ nd df df', planned trace df nd → planned trace df' nd → df = df') →
  Signal_group pid 15 ∈ d_log (run trace fresh) →
  ∃ df nd g w, Started df nd g pid w ∈ d_log (run trace fresh) ∧ told_to_stop trace df nd g.
Proof.
  intros Huniq Hin. destruct (run_sound trace) as [_ _ _ Hst Hterm].
  destruct (Hterm pid Hin) as (df & nd & g & w & (df' & Htold & Hp) & Hs). exists df, nd, g, w. split; [done|].
  by rewrite (Huniq nd df df' (Hst _ _ _ _ _ Hs) Hp).
Qed.
End history.

(** ** What a finished run reports *)

Definition result_of (d : Daemon) (df : N) (nd : str) : option NodeExitCause := s ← d_dataflows d !! df; ds_results s !! nd.

(** A node that has ended has its result, or its exit waits for its session. *)
Definition accounted (df : N) (nd : str) (d : Daemon) : Prop :=
  ∀ n, node_of d df nd = Some n → is_terminal n = true → is_Some (result_of d df nd) ∨ is_Some (d_draining d !! (df, nd)).

(** Nothing happens to the node that it would have to account for. *)
Record calm (df : N) (nd : str) (d d' : Daemon) : Prop := {
  calm_node : ∀ n', node_of d' df nd = Some n' → is_terminal n' = true → ∃ n, node_of d df nd = Some n ∧ is_terminal n = true;
  calm_result : is_Some (result_of d df nd) → is_Some (result_of d' df nd);
  calm_draining : is_Some (d_draining d !! (df, nd)) → is_Some (d_draining d' !! (df, nd));
}.

Section accounting.
Context (df : N) (nd : str).
Notation "d ≈> d'" := (calm df nd d d') (at level 70).
Notation accounted := (accounted df nd).

Lemma calm_accounted d d' : d ≈> d' → accounted d → accounted d'.
Proof. intros [Hn Hr Hd] Ha n' Hn' Ht. destruct (Hn _ Hn' Ht) as (n & Hn0 & Ht0). destruct (Ha n Hn0 Ht0); eauto. Qed.

#[global] Instance calm_preorder : PreOrder (calm df nd).
Proof.
  split; [split; eauto|]. intros d1 d2 d3 [Hn Hr Hd] [Hn' Hr' Hd']. split; [|auto..]. intros n Hn3 Ht.
  destruct (Hn' _ Hn3 Ht) as (n2 & Hn2 & Ht2). by apply (Hn n2).
Qed.

Lemma calm_quiet d d' : d_dataflows d' = d_dataflows d → (is_Some (d_draining d !! (df, nd)) → is_Some (d_draining d' !! (df, nd))) → d ≈> d'.
Proof. intros Hd Hr. split; [|by unfold result_of; rewrite Hd|done]. intros n'. rewrite (node_of_dataflows _ _ _ _ Hd). eauto. Qed.

Lemma update_dataflow_draining df' f d : d_draining (update_dataflow df' f d) = d_draining d.
Proof. unfold update_dataflow. by destruct (_ !! _). Qed.

Lemma result_of_update df' f d :
  (∀ s, is_Some (ds_results s !! nd) → is_Some (ds_results (f s) !! nd)) → is_Some (result_of d df nd) → is_Some (result_of (update_dataflow df' f d) df nd).
Proof.
  intros Hf. unfold result_of, update_dataflow. destruct (d_dataflows d !! df') as [s|] eqn:Hs; [|done]. cbn. destruct (decide (df' = df)) as [->|].
  - rewrite lookup_insert_eq, Hs. cbn. apply Hf.
  - by rewrite lookup_insert_ne.
Qed.

Lemma result_of_update_node df' nd' f d : is_Some (result_of d df nd) → is_Some (result_of (update_node df' nd' f d) df nd).
Proof. apply result_of_update. intros s. by destruct (ds_nodes s !! nd'). Qed.

Lemma calm_update df' nd' f d :
  (df' = df → nd' = nd → ∀ n, is_terminal (f n) = true → is_terminal n = true) → d ≈> update_node df' nd' f d.
Proof.
  intros Hf. split; [|apply result_of_update_node|unfold update_node; by rewrite update_dataflow_draining].
  intros n'. rewrite node_of_update_node. destruct (decide _) as [[-> ->]|]; [|eauto]. intros (n & Hn & ->)%fmap_Some Ht. exists n. eauto.
Qed.

Lemma calm_dataflow df' f d :
  (∀ s, ds_nodes (f s) = ds_nodes s) → (∀ s, is_Some (ds_results s !! nd) → is_Some (ds_results (f s) !! nd)) → d ≈> update_dataflow df' f d.
Proof.
  intros Hf Hr. split; [|by apply result_of_update|by rewrite update_dataflow_draining]. intros n'. rewrite node_of_update_dataflow by done. eauto.
Qed.

Lemma calm_send_all df' nds ev d : d ≈> send_all df' nds ev d.
Proof.
  revert d. induction nds as [|x nds IH]; intros d; [done|]. etrans; [|apply IH]. unfold send_to.
  destruct (session_of d df' x); [|done]. destruct (bool_decide _); [by apply calm_quiet|done].
Qed.

Lemma calm_send df' nd' ev d : d ≈> send_to df' nd' ev d.
Proof. apply (calm_send_all df' [nd']). Qed.

Lemma calm_closure df' d : d ≈> propagate_input_closure df' d.
Proof.
  unfold propagate_input_closure. destruct (d_dataflows d !! df'); [|done]. etrans; [|apply calm_send_all].
  split; [|by apply result_of_update|by rewrite update_dataflow_draining]. intros n'. rewrite node_of_map. destruct (decide _); [|eauto].
  intros (n & Hn & ->)%fmap_Some Ht. exists n. split; [done|]. unfold is_terminal in *. by rewrite (proj2 (proj2 (proj2 (claim_keeps n)))) in Ht.
Qed.

Lemma calm_restarted df' nd' g d : d ≈> notify_peers_restarted df' nd' g d.
Proof. unfold notify_peers_restarted. destruct (g =? 0); [done|]. destruct (_ !! _); [apply calm_send_all|done]. Qed.

Lemma calm_completion df' d : d ≈> check_dataflow_completion df' d.
Proof.
  unfold check_dataflow_completion. destruct (negb _); [done|]. destruct (_ !! _); [|done]. destruct (all_nodes_finished _); [|done]. by apply calm_dataflow.
Qed.

(** Up to the decision, an exit changes no record. *)
Definition before_decision (df' : N) (nd' : str) (g : N) (cause : NodeExitCause) (d : Daemon) : Daemon :=
  let d := set_d_watchdogs (wd_disarm_generation nd' g (d_watchdogs d)).1 d in
  let d := set_d_spawn_deadlines (disarm_generation (df', nd') g (d_spawn_deadlines d)).1 d in
  let d := take_deferred_closure df' nd' g d in
  let d := close_outputs_of df' nd' d in
  if warrants_peer_notification cause then notify_peers_failed df' nd' cause d else d.

Lemma calm_before df' nd' g cause d : d ≈> before_decision df' nd' g cause d.
Proof.
  unfold before_decision. cbv zeta. set (d1 := set_d_spawn_deadlines _ _). transitivity d1; [by apply calm_quiet|].
  transitivity (take_deferred_closure df' nd' g d1).
  { unfold take_deferred_closure. destruct (_ !! _); [|done]. destruct (_ =? _); [by apply calm_quiet|done]. }
  set (d2 := take_deferred_closure df' nd' g d1). transitivity (close_outputs_of df' nd' d2).
  { unfold close_outputs_of. destruct (_ !! _); [apply calm_closure|done]. }
  destruct (warrants_peer_notification cause); [|done]. unfold notify_peers_failed. destruct (_ !! _); [apply calm_send_all|done].
Qed.

Lemma decided_accounted now cause d : accounted (record_and_decide now df nd cause d).
Proof.
  unfold record_and_decide. destruct (node_of d df nd) as [n|] eqn:Hn; [|intros n' Hn'; congruence].
  destruct (decide_restart _ _ _ _ _) as [h dec]. cbv zeta. set (d1 := update_node df nd (set_ns_history h) d).
  assert (node_of d1 df nd = Some (set_ns_history h n)) as Hn1 by (unfold d1; by rewrite node_of_update_node, decide_True, Hn). destruct dec as [delay|cause'].
  - intros n'. rewrite node_of_log, node_of_update_node, decide_True, Hn1 by done. by intros [= <-].
  - intros n' _ _. left. unfold node_of in Hn1. unfold result_of, update_dataflow. destruct (d_dataflows d1 !! df) as [s|]; [|done]. cbn.
    rewrite lookup_insert_eq. cbn. rewrite lookup_insert_eq. eauto.
Qed.

Lemma calm_decide now df' nd' cause d : ¬ (df' = df ∧ nd' = nd) → d ≈> record_and_decide now df' nd' cause d.
Proof.
  intros Hne. unfold record_and_decide. destruct (node_of d df' nd'); [|done]. destruct (decide_restart _ _ _ _ _) as [h dec]. cbv zeta.
  etrans; [apply (calm_update df' nd' (set_ns_history h)); naive_solver|]. destruct dec.
  - etrans; [apply (calm_update df' nd' mark_restarting); naive_solver|]. by apply calm_quiet.
  - apply calm_dataflow; [done|]. intros s Hs. cbn. rewrite lookup_insert_is_Some. destruct (decide (nd' = nd)); eauto.
Qed.

Lemma exit_accounted now df' nd' g cause d d0 :
  (¬ (df' = df ∧ nd' = nd) → d0 ≈> d) → accounted d0 → accounted (after_exit now df' nd' g cause d).
Proof.
  intros Hd Ha. unfold after_exit. cbv zeta. fold (before_decision df' nd' g cause d). eapply calm_accounted; [apply calm_completion|].
  eapply calm_accounted; [by apply (calm_quiet (record_and_decide now df' nd' cause (before_decision df' nd' g cause d)))|].
  destruct (decide (df' = df ∧ nd' = nd)) as [[-> ->]|Hne]; [apply decided_accounted|].
  eapply calm_accounted; [|exact Ha]. etrans; [by apply Hd|]. etrans; [apply (calm_before df' nd' g cause)|]. by apply calm_decide.
Qed.

Lemma calm_exited df' nd' cause d : ¬ (df' = df ∧ nd' = nd) → d ≈> node_exited df' nd' cause d.
Proof.
  intros Hne. unfold node_exited. destruct (node_of d df' nd') as [n|]; [|done]. cbv zeta.
  etrans; [apply (calm_update df' nd' (λ n, (mark_exited cause n).1)); naive_solver|]. destruct (mark_exited cause n).2; [by apply calm_quiet|done].
Qed.

Lemma accounted_fail now df' nd' g cause d : accounted d → accounted (fail_node now df' nd' g cause d).
Proof.
  intros Ha. unfold fail_node. destruct (node_of d df' nd') as [n|]; [|done]. destruct (_ || _); [done|]. cbv zeta.
  apply (exit_accounted _ _ _ _ _ _ d); [|done]. intros Hne. etrans; [|by apply calm_exited].
  destruct (ns_handle n); [|done]. unfold send_signal. destruct (signal_if_current _ _ _); [by apply calm_quiet|done..].
Qed.

Lemma accounted_spawn now df' nd' spawned d : accounted d → accounted (spawn_node now df' nd' spawned d).
Proof.
  intros Ha. unfold spawn_node. destruct (node_of d df' nd') as [n|]; [|done]. destruct (is_dynamic n).
  { eapply calm_accounted; [|exact Ha]. by apply calm_update. }
  cbv zeta. destruct spawned as [pid|message].
  - eapply calm_accounted; [|exact Ha]. set (d1 := set_d_next_flag _ d). transitivity d1; [by apply calm_quiet|].
    etrans; [|by apply (calm_quiet (update_node df' nd' (mark_spawning pid (d_next_flag d + 1)) d1))]. apply calm_update. intros _ _ n'.
    unfold mark_spawning, is_terminal. cbv zeta. by rewrite (proj2 (proj2 (proj2 (open_declared_outputs_keeps _)))).
  - unfold fail_spawn. apply (exit_accounted _ _ _ _ _ _ d); [|done]. intros. by apply calm_exited.
Qed.

Lemma accounted_discharge now df' nd' d : accounted d → accounted (discharge_pending_exit now df' nd' d).
Proof.
  intros Ha. unfold discharge_pending_exit. destruct (_ !! _); [|done]. cbv zeta. apply (exit_accounted _ _ _ _ _ _ d); [|done].
  intros Hne. apply calm_quiet; [done|]. cbn. rewrite lookup_delete_ne; [done|]. naive_solver.
Qed.

Lemma accounted_fold {A} (f : Daemon → A → Daemon) l d : (∀ d x, accounted d → accounted (f d x)) → accounted d → accounted (foldl f d l).
Proof. intros Hf. revert d. induction l as [|x l IH]; intros d Ha; cbn; [done|]. apply IH. by apply Hf. Qed.

Lemma accounted_stop now df' nd' cause d : accounted d → accounted (stop_node_at now df' nd' cause d).
Proof.
  intros Ha. unfold stop_node_at. destruct (node_of d df' nd') as [n|]; [|done]. destruct (is_terminal n); [done|]. cbv zeta.
  set (mark := match cause with StopDaemonShutdown => _ | _ => _ end). eapply calm_accounted; [|exact Ha].
  assert (d ≈> update_node df' nd' mark d) as Hm.
  { apply calm_update. intros _ _ n'. subst mark. destruct cause; unfold mark_stopping, mark_daemon_shutdown, is_terminal; cbn; by destruct (run_state_is_terminal (ns_run_state n')). }
  destruct (negb _); [|exact Hm]. etrans; [exact Hm|]. etrans; [apply (calm_send df' nd' (EventStop cause (from_duration (default (d_finish_grace (update_node df' nd' mark d)) (node_finish_grace (mark n))))))|]. by apply calm_quiet.
Qed.

Lemma calm_close_source df' source d : d ≈> close_source df' source d.
Proof.
  unfold close_source. destruct (d_dataflows d !! df') as [s|] eqn:Hs; [|done]. etrans; [|apply calm_closure]. unfold mark_inputs_closed. rewrite Hs.
  clear Hs. generalize (consumers source (ds_routes s)) as l. intros l. revert d. induction l as [|c l IH]; intros d; [done|]. cbn. etrans; [|apply IH]. by apply calm_update.
Qed.

Lemma calm_close_sources df' sources d : d ≈> close_sources df' sources d.
Proof.
  unfold close_sources. etrans; [|apply calm_closure]. revert d. induction sources as [|x l IH]; intros d; [done|]. cbn. etrans; [|apply IH]. apply calm_close_source.
Qed.

Lemma accounted_process_exit now df' nd' g status d : accounted d → accounted (handle_process_exit now df' nd' g status d).
Proof.
  intros Ha. unfold handle_process_exit. destruct (node_of d df' nd') as [n|]; [|done]. destruct (negb _); [done|]. cbv zeta.
  set (cause := match status with Ok _ => _ | Err _ => _ end). destruct (session_of _ df' nd').
  - destruct (decide (df' = df ∧ nd' = nd)) as [[-> ->]|Hne].
    + intros n' _ _. right. cbn. rewrite lookup_insert_eq. eauto.
    + eapply calm_accounted; [|exact Ha]. etrans; [by apply (calm_exited df' nd' cause)|]. apply calm_quiet; [done|]. cbn. rewrite lookup_insert_ne; [done|naive_solver].
  - apply (exit_accounted _ _ _ _ _ _ d); [|done]. intros. by apply calm_exited.
Qed.

Lemma accounted_admit plan d : accounted d → accounted (admit_dataflow plan d).
Proof.
  intros Ha n Hn Ht. pose proof Hn as Hn'. apply admitted_node in Hn' as [Hold|(_ & _ & _ & Hnot)]; [|congruence]. revert Hn. unfold admit_dataflow.
  destruct (d_shutting_down d) eqn:Hsd; [intros _; by apply (Ha n)|]. destruct (decide (pl_dataflow plan = df)) as [<-|Hdf].
  - intros Hn. unfold node_of in Hn. cbn in Hn. rewrite lookup_insert_eq in Hn. cbn in Hn. apply plan_nodes in Hn as [(spec & _ & _ & ->)|Hs]; [done|].
    cbn in Hs. by apply lookup_empty_Some in Hs.
  - intros _. unfold result_of. cbn. rewrite lookup_insert_ne by done. by apply (Ha n).
Qed.

Lemma accounted_session_closed now session d : accounted d → accounted (handle_session_closed now session d).
Proof.
  intros Ha. unfold handle_session_closed. cbv zeta. set (d1 := set_d_sinks _ d). assert (accounted d1) as Ha1 by (eapply calm_accounted; [|exact Ha]; by apply calm_quiet).
  destruct (d_sessions d1 !! session) as [b|]; [|done]. set (d2 := set_d_sessions _ d1). assert (accounted d2) as Ha2 by (eapply calm_accounted; [|exact Ha1]; by apply calm_quiet).
  destruct (match _ with Some _ => _ | None => false end); [done|]. pose proof (accounted_discharge now (sb_dataflow b) (sb_node b) d2 Ha2) as Ha3.
  destruct (node_of _ _ _) as [n|]; [|done]. destruct (ns_handle n); [done|]. destruct (_ && _); [|done].
  eapply exit_accounted; [|exact Ha3]. intros. by apply calm_exited.
Qed.

Lemma accounted_event e d : accounted d → accounted (handle_event e d).
Proof.
  intros Ha. destruct e as [plan|now plan spawned|s|s df' nd' g|s l|now s l o|now s|flag|now df' nd' g st|now df' nd' g sp|now df' nd' g c|now df' nd' c|now|now]; cbn [handle_event].
  - by apply accounted_admit.
  - unfold start_all. apply accounted_fold; [intros; by apply accounted_spawn|]. eapply calm_accounted; [|exact Ha]. by apply calm_dataflow.
  - eapply calm_accounted; [|exact Ha]. by apply calm_quiet.
  - unfold apply_register. destruct (node_of d df' nd') as [n|]; [|done]. destruct (_ && _); [done|]. cbv zeta. eapply calm_accounted; [|exact Ha].
    etrans; [|apply calm_dataflow; [intros x; by destruct (_ && _)|intros x; by destruct (_ && _)]]. etrans; [|apply calm_restarted]. etrans; [|apply calm_send].
    etrans; [|by apply (calm_quiet (update_node df' nd' (mark_registered_on s) d))]. apply calm_update. intros _ _ n'. unfold mark_registered_on, mark_registered. cbv zeta.
    set (n0 := set_ns_registered_this_incarnation _ _). destruct (open_declared_outputs_keeps n0) as (_ & _ & _ & Hr). unfold is_terminal.
    destruct (run_state_is_terminal (ns_run_state (open_declared_outputs n0))) eqn:Ht; [|done]. by rewrite Hr in Ht.
  - unfold apply_subscribe. destruct (_ !! _); [|done]. eapply calm_accounted; [|exact Ha]. apply calm_update. intros _ _ n. by destruct l.
  - unfold apply_close_outputs. destruct (_ !! _) as [b|]; [|done]. destruct (node_of _ _ _) as [n|]; [|done]. destruct (_ <? _); [done|]. cbv zeta.
    eapply calm_accounted; [|exact Ha]. etrans.
    { apply (calm_update (sb_dataflow b) (sb_node b) (λ n, (match l with [] => close_all_outputs | _ => close_outputs l end n).1)). intros _ _ n'. destruct l as [|x l]; [done|].
      unfold is_terminal. by rewrite (proj2 (proj2 (proj2 (close_outputs_keeps (x :: l) n')))). }
    destruct (bool_decide _); [done|]. destruct (release_for _ _ _ _ _ _); [apply calm_close_sources|by apply calm_quiet|done].
  - by apply accounted_session_closed.
  - eapply calm_accounted; [|exact Ha]. by apply calm_quiet.
  - by apply accounted_process_exit.
  - unfold handle_restart_due. destruct (node_of d df' nd') as [n|]; [|done]. destruct (_ || _); [done|]. cbv zeta. apply accounted_spawn.
    eapply calm_accounted; [apply calm_restarted|]. eapply calm_accounted; [|exact Ha]. by apply calm_update.
  - by apply accounted_fail.
  - by apply accounted_stop.
  - unfold begin_shutdown. destruct (d_shutting_down d); [done|]. apply accounted_fold; [intros; by apply accounted_stop|]. eapply calm_accounted; [|exact Ha]. by apply calm_quiet.
  - unfold tick. unfold fire_watchdogs. destruct (wd_expired _ _) as [w esc]. apply accounted_fold.
    { intros d' x Ha'. unfold fire_watchdog. destruct (dataflow_of _ d') as [df'|]; [|done]. destruct (node_of d' df' _) as [n|]; [|done]. cbv zeta.
      eapply calm_accounted; [|exact Ha']. etrans; [by apply (calm_update df' (es_node x) (mark_escalated (step_intent (es_step x))))|].
      destruct (ns_handle n); [|done]. unfold send_signal. destruct (signal_if_current _ _ _); [by apply calm_quiet|done..]. }
    eapply calm_accounted; [by apply (calm_quiet (fire_closure_deadlines now (fire_drain_deadlines now (fire_spawn_deadlines now d))))|].
    unfold fire_closure_deadlines. destruct (expired _ _) as [t3 l3]. apply accounted_fold.
    { intros d' x Ha'. unfold fire_closure_deadline. destruct (_ !! _); [|done]. destruct (negb _); [done|]. eapply calm_accounted; [|exact Ha']. etrans; [|apply calm_close_sources]. by apply calm_quiet. }
    eapply calm_accounted; [by apply (calm_quiet (fire_drain_deadlines now (fire_spawn_deadlines now d)))|].
    unfold fire_drain_deadlines. destruct (expired _ _) as [t2 l2]. apply accounted_fold.
    { intros d' x Ha'. unfold fire_drain_deadline. destruct (_ !! _); [|done]. destruct (negb _); [done|]. by apply accounted_discharge. }
    eapply calm_accounted; [by apply (calm_quiet (fire_spawn_deadlines now d))|].
    unfold fire_spawn_deadlines. destruct (expired _ _) as [t1 l1]. apply accounted_fold; [intros; by apply accounted_fail|]. eapply calm_accounted; [|exact Ha]. by apply calm_quiet.
Qed.

Lemma run_accounted events d : accounted d → accounted (run events d).
Proof. intros Ha. apply accounted_fold; [|done]. intros d' e. apply accounted_event. Qed.
End accounting.

Lemma fresh_accounted df nd finish_grace spawn_deadline : accounted df nd (daemon_new finish_grace spawn_deadline).
Proof. intros n Hn. unfold node_of in Hn. cbn in Hn. by rewrite lookup_empty in Hn. Qed.

(** The status of a finished dataflow is what the recorded causes say. *)
Lemma finish_status s :
  (ds_status (finish_dataflow s) = DfFailed ∧ ∃ nd c, ds_results s !! nd = Some c ∧ is_failure c = true) ∨
  (ds_status (finish_dataflow s) = DfFinished ∧ ∀ nd c, ds_results s !! nd = Some c → is_failure c = false).
Proof.
  unfold finish_dataflow, has_failures. cbn. destruct (existsb _ _) eqn:Hex; [left|right]; split; try done.
  - apply existsb_exists in Hex as (c & Hin & Hc). apply list_elem_of_In, elem_of_map_values in Hin as (nd & Hnd). eauto.
  - intros nd c Hnd. apply not_true_is_false. intros Hc. apply Bool.not_true_iff_false in Hex. apply Hex. apply existsb_exists. exists c.
    split; [|done]. apply list_elem_of_In, elem_of_map_values. eauto.
Qed.

(** C17. When the loop decides it is done, however it came there, the results it
    returns name every node of every dataflow with its cause, and a dataflow is
    reported as failed exactly when a recorded cause is a failure. *)
Theorem finished_runs_report_every_node (finish_grace spawn_deadline : N) (trace : list DaemonEvent) :
  let d := run trace (daemon_new finish_grace spawn_deadline) in
  should_stop d = true → ∀ s, s ∈ finish_all d →
  (∀ nd, is_Some (ds_nodes s !! nd) → is_Some (ds_results s !! nd)) ∧
  ((ds_status s = DfFailed ∧ ∃ nd c, ds_results s !! nd = Some c ∧ is_failure c = true) ∨
   (ds_status s = DfFinished ∧ ∀ nd c, ds_results s !! nd = Some c → is_failure c = false)).
Proof.
  cbv zeta. set (d := run trace _). intros Hstop s (s0 & -> & Hin)%list_elem_of_fmap. split; [|exact (finish_status s0)].
  apply elem_of_map_values in Hin as (df & Hdf). intros nd [n Hn]. cbn in Hn |- *.
  unfold should_stop in Hstop. destruct (bool_decide (map_values (d_dataflows d) = [])) eqn:He.
  { apply bool_decide_eq_true in He. assert (s0 ∈ map_values (d_dataflows d)) as Hin by (apply elem_of_map_values; eauto). rewrite He in Hin. by apply elem_of_nil in Hin. }
  case_bool_decide as Hdrain; cbn [negb] in Hstop; [|done].
  assert (forallb all_nodes_finished (map_values (d_dataflows d)) = true) as Hall.
  { destruct (d_shutting_down d); [done|]. by apply andb_true_iff in Hstop as [? _]. }
  rewrite forallb_forall in Hall. specialize (Hall s0). rewrite <-list_elem_of_In, elem_of_map_values in Hall. specialize (Hall (ex_intro _ df Hdf)).
  unfold all_nodes_finished in Hall. rewrite forallb_forall in Hall. specialize (Hall n). rewrite <-list_elem_of_In, elem_of_map_values in Hall. specialize (Hall (ex_intro _ nd Hn)).
  destruct (run_accounted df nd trace _ (fresh_accounted df nd finish_grace spawn_deadline) n) as [Hres|Hdr]; fold d; [unfold node_of; by rewrite Hdf|done| |].
  - unfold result_of in Hres. fold d in Hres. by rewrite Hdf in Hres.
  - fold d in Hdr. apply elem_of_map_keys in Hdr. rewrite Hdrain in Hdr. by apply elem_of_nil in Hdr.
Qed.
