(* ===== verification/DaemonScenarios.v ===== *)
(** * Concrete runs of the daemon's supervision

    The theorems of [DaemonLaws.v] at work on small dataflows, and the runs in
    which the daemon does not do what its documentation says. *)

From stdpp Require Import base tactics list gmap strings numbers sorting.
From S2P Require Import Prelude Text Utf8 Ordered Supervise Daemon DaemonLaws.

Open Scope N_scope.

(** ** The cast *)

Definition CAMERA : str := lit "camera".
Definition DETECT : str := lit "detect".

Definition seconds (s : N) : N := s * 1000000000.

Definition supervised (df : N) (node : str) (inputs : list InputSpec) (outputs : list str) (restart : RestartConfig) : NodeSpawnSpec :=
  mkSpec df node 0 SourceExecutable inputs outputs restart None None None.

Definition restarting (max : option N) : RestartConfig := mkRestart Always max 100 30000 60000.

Definition camera_plan (df : N) (restart : RestartConfig) : DataflowPlan := mkPlan df true [supervised df CAMERA [] [lit "image"] restart].

Definition fresh : Daemon := daemon_new (seconds 15) (seconds 10).

(** One camera, running as process 100. *)
Definition camera_up (restart : RestartConfig) : list DaemonEvent :=
  [EvAdmit (camera_plan 1 restart); EvStart 0 (camera_plan 1 restart) [Ok 100]; EvAttach 11; EvRegister 11 1 CAMERA 0].

Definition crashed : result str ExitStatus := Ok (Exited 1).

Definition run_state_of (d : Daemon) (df : N) (node : str) : option NodeRunState := ns_run_state <$> node_of d df node.

(** ** Witnesses *)

(** The camera crashed and waits for its restart; it is stopped, and the timer
    that was running fires. *)
Definition backing_off : Daemon :=
  run (camera_up (restarting None) ++ [EvSessionClosed (seconds 1) 11; EvProcessExited (seconds 1) 1 CAMERA 0 crashed]) fresh.

Definition camera_of (d : Daemon) : NodeState := default (node_new (supervised 1 CAMERA [] [] restart_never)) (node_of d 1 CAMERA).

Lemma stopped_nodes_stay_down_witness :
  let d' := run [EvRestartDue (seconds 2) 1 CAMERA 0 (Ok 101); EvTick (seconds 60)] (stop_node_at (seconds 2) 1 CAMERA StopCauseRequested backing_off) in
  run_state_of backing_off 1 CAMERA = Some Restarting ∧ ∀ g pid w, Started 1 CAMERA g pid w ∈ d_log d' → Started 1 CAMERA g pid w ∈ d_log backing_off.
Proof.
  split; [vm_compute; reflexivity|].
  apply (stopped_nodes_stay_down backing_off (seconds 2) 1 CAMERA StopCauseRequested (camera_of backing_off)).
  - vm_compute. reflexivity.
  - vm_compute. reflexivity.
  - repeat constructor; intros [].
Defined.

Definition stopped_camera : list DaemonEvent :=
  camera_up (restarting None) ++ [EvStop (seconds 1) 1 CAMERA StopCauseRequested; EvTick (seconds 16)].

Lemma stopped_camera_planned df nd : planned stopped_camera df nd → df = 1.
Proof.
  intros (plan & Hin & Hdf & _). unfold stopped_camera, camera_up in Hin. cbn in Hin.
  repeat (apply elem_of_cons in Hin as [Hin|Hin]; [try discriminate; injection Hin as ->; by rewrite <-Hdf|]). by apply elem_of_nil in Hin.
Qed.

Lemma only_stopped_incarnations_are_terminated_witness :
  ∃ df nd g w, Started df nd g 100 w ∈ d_log (run stopped_camera fresh) ∧ told_to_stop (seconds 15) (seconds 10) stopped_camera df nd g.
Proof.
  apply (only_stopped_incarnations_are_terminated (seconds 15) (seconds 10)).
  - intros nd df df' H1 H2. rewrite (stopped_camera_planned _ _ H1). by rewrite (stopped_camera_planned _ _ H2).
  - apply (bool_decide_unpack _). vm_compute. exact I.
Defined.

Definition finished_camera : list DaemonEvent :=
  camera_up restart_never ++ [EvProcessExited (seconds 1) 1 CAMERA 0 (Ok (Exited 3)); EvSessionClosed (seconds 1) 11].

Lemma finished_runs_report_every_node_witness :
  should_stop (run finished_camera fresh) = true ∧ length (finish_all (run finished_camera fresh)) = 1%nat ∧
  ∀ s, s ∈ finish_all (run finished_camera fresh) → ∀ nd, is_Some (ds_nodes s !! nd) → is_Some (ds_results s !! nd).
Proof.
  split_and!; [vm_compute; reflexivity..|]. intros s Hs. apply (finished_runs_report_every_node (seconds 15) (seconds 10) finished_camera); [vm_compute; reflexivity|exact Hs].
Defined.

(** ** Runs that end badly *)

(** A node that is stopped while it waits for its restart is never finished:
    the pending restart is dropped, the ladder climbs without a process to
    signal, nothing is left that could end the node, and a daemon that shuts
    down waits for it for ever. *)
Definition stopped_in_backoff : Daemon :=
  run [EvShutdown (seconds 2); EvRestartDue (seconds 2) 1 CAMERA 0 (Ok 101); EvTick (seconds 20); EvTick (seconds 30)] backing_off.

Lemma stop_during_backoff_never_ends :
  run_state_of stopped_in_backoff 1 CAMERA = Some Stopping ∧ d_shutting_down stopped_in_backoff = true ∧
  should_stop stopped_in_backoff = false ∧ map_keys (wd_rungs (d_watchdogs stopped_in_backoff)) = [] ∧
  map_keys (d_spawn_deadlines stopped_in_backoff) = [] ∧ map_keys (d_draining stopped_in_backoff) = [] ∧
  ns_handle <$> node_of stopped_in_backoff 1 CAMERA = Some None.
Proof. vm_compute. split_and!; reflexivity. Qed.

(** A stop that arrives after the process was reaped and before its session
    closed is dropped, and the node is started again. *)
Definition stopped_while_draining : Daemon :=
  run (camera_up (restarting None) ++
       [EvProcessExited (seconds 1) 1 CAMERA 0 crashed; EvStop (seconds 1) 1 CAMERA StopCauseRequested;
        EvSessionClosed (seconds 1) 11; EvRestartDue (seconds 2) 1 CAMERA 0 (Ok 101)]) fresh.

Lemma stop_while_draining_is_lost :
  run_state_of stopped_while_draining 1 CAMERA = Some Spawning ∧ bool_decide (Started 1 CAMERA 1 101 2 ∈ d_log stopped_while_draining) = true.
Proof. vm_compute. split; reflexivity. Qed.

(** A node that misses its spawn deadline is killed and its restart decided;
    the report of the kill, still of the same incarnation, is decided again.  A
    budget of one restart is spent without a restart. *)
Definition late_camera : list DaemonEvent :=
  [EvAdmit (camera_plan 1 (restarting (Some 1))); EvStart 0 (camera_plan 1 (restarting (Some 1))) [Ok 100]; EvTick (seconds 10)].

Definition late_camera_reaped : Daemon :=
  run (late_camera ++ [EvProcessExited (seconds 10) 1 CAMERA 0 (Ok (Signalled 9)); EvRestartDue (seconds 11) 1 CAMERA 0 (Ok 101)]) fresh.

Lemma missed_deadline_is_decided_twice :
  run_state_of (run late_camera fresh) 1 CAMERA = Some Restarting ∧
  run_state_of late_camera_reaped 1 CAMERA = Some Failed ∧ result_of late_camera_reaped 1 CAMERA = Some (RestartBudgetExhausted 1 60000).
Proof. vm_compute. split_and!; reflexivity. Qed.

(** Without a restart the same report replaces the recorded cause. *)
Definition late_once : list DaemonEvent :=
  [EvAdmit (camera_plan 1 restart_never); EvStart 0 (camera_plan 1 restart_never) [Ok 100]; EvTick (seconds 10)].

Lemma deadline_cause_is_overwritten :
  result_of (run late_once fresh) 1 CAMERA = Some (SpawnDeadlineExceeded 10000) ∧
  result_of (run (late_once ++ [EvProcessExited (seconds 10) 1 CAMERA 0 (Ok (Signalled 9))]) fresh) 1 CAMERA = Some (Signal 9 (lit "SIGKILL")).
Proof. vm_compute. split; reflexivity. Qed.

(** Two dataflows with a node of the same id: the second's node is stopped, the
    first's is sent the signal. *)
Definition two_cameras : Daemon :=
  run [EvAdmit (camera_plan 1 restart_never); EvStart 0 (camera_plan 1 restart_never) [Ok 100];
       EvAdmit (camera_plan 2 restart_never); EvStart 0 (camera_plan 2 restart_never) [Ok 200];
       EvAttach 11; EvRegister 11 1 CAMERA 0; EvAttach 12; EvRegister 12 2 CAMERA 0;
       EvStop (seconds 1) 2 CAMERA StopCauseRequested; EvTick (seconds 16)] fresh.

Lemma shared_id_terminates_the_wrong_node :
  bool_decide (Signal_group 100 15 ∈ d_log two_cameras) = true ∧ bool_decide (Signal_group 200 15 ∈ d_log two_cameras) = false ∧
  run_state_of two_cameras 1 CAMERA = Some Running ∧ run_state_of two_cameras 2 CAMERA = Some Stopping.
Proof. vm_compute. split_and!; reflexivity. Qed.

(** The waiter marks its own handle as reaped, not the node's: a ladder that
    climbs before the exit is handled signals a process id that is free. *)
Definition reaped_camera : Daemon :=
  run (camera_up restart_never ++ [EvStop (seconds 1) 1 CAMERA StopCauseRequested; EvReaped 0; EvTick (seconds 16)]) fresh.

Lemma reaped_process_is_signalled :
  bool_decide (Started 1 CAMERA 0 100 0 ∈ d_log reaped_camera) = true ∧ bool_decide (0 ∈ d_reaped reaped_camera) = true ∧
  bool_decide (Signal_group 100 15 ∈ d_log reaped_camera) = true.
Proof. vm_compute. split_and!; reflexivity. Qed.

(** A producer that closes its outputs on the way out and is reaped: its only
    consumer is never told that all its inputs are closed; the same closure of a
    node that goes on running is told at once. *)
Definition pair_plan : DataflowPlan :=
  mkPlan 1 true [supervised 1 CAMERA [] [lit "image"] restart_never;
                 supervised 1 DETECT [mkInputSpec (lit "frames") (CAMERA, lit "image")] [] restart_never].

Definition pair_up : list DaemonEvent :=
  [EvAdmit pair_plan; EvStart 0 pair_plan [Ok 100; Ok 200]; EvAttach 11; EvAttach 12; EvRegister 11 1 CAMERA 0; EvRegister 12 1 DETECT 0].

Definition producer_left : Daemon :=
  run (pair_up ++ [EvCloseOutputs (seconds 1) 11 [] Teardown; EvSessionClosed (seconds 1) 11; EvProcessExited (seconds 1) 1 CAMERA 0 (Ok (Exited 0)); EvTick (seconds 9)]) fresh.

Definition output_done : Daemon := run (pair_up ++ [EvCloseOutputs (seconds 1) 11 [lit "image"] Explicit]) fresh.

Lemma exit_never_completes_closure :
  run_state_of producer_left 1 CAMERA = Some Finished ∧ bool_decide (Sent 12 EventAllInputsClosed ∈ d_log producer_left) = false ∧
  bool_decide (Sent 12 EventAllInputsClosed ∈ d_log output_done) = true.
Proof. vm_compute. split_and!; reflexivity. Qed.
