(* ===== verification/MuxHeader.v ===== *)
(** * The multiplexer's header and bodies

    Models [src/crates/astrs-transport/src/mux/header.rs]: the nine bytes at
    the front of every payload of a multiplexed connection, and the bodies of
    the frames that open, accept and close routes and grant credit; and of
    [src/crates/astrs-transport/src/error.rs] the errors of the multiplexer.

    A header and its body read back as they were written and only well-formed
    payloads are read ([mux_header_roundtrip]); so do the bodies
    ([mux_body_roundtrip]). *)

From Stdlib Require Import Lia.
From stdpp Require Import base tactics list strings numbers.
From S2P Require Import Prelude Crc32c Text Utf8 WireFrame.

Open Scope N_scope.

(** ** Route handles ([astrs-wire/src/ids/route.rs]) *)

Definition RouteId : Set := N.
Definition NONE : RouteId := 0.
Definition FIRST : RouteId := 1.

Definition is_none (r : RouteId) : bool := N.eqb r 0.
Definition route_next (r : RouteId) : RouteId := saturating_add r 1.

(** ** [error.rs] *)

Inductive MuxHeaderError : Set :=
  | HeaderTruncated (len needed : nat)
  | UnknownTag (tag : N)
  | RouteMismatch (tag : str) (route : RouteId)
  | BadBody (tag : str) (expected found : nat).

Inductive CloseReason : Set :=
  | Local (detail : str) | Peer (detail : str) | Eof | Protocol (detail : str)
  | Transport (detail : str) | KeepaliveTimeout | Dropped.

(** [TransportError], less the variants of parts outside the multiplexer. *)
Inductive TransportError : Set :=
  | Wire (e : WireError)
  | Closed (reason : CloseReason)
  | NotConnected
  | FrameTooLarge (actual limit : N)
  | DecompressedTooLarge (declared limit : N)
  | DecompressedLengthMismatch (declared actual : N)
  | TruncatedCompressionHeader (len needed : nat)
  | CodecFailed (codec : Compression) (message : str)
  | CompressionNotNegotiated (codec : Compression)
  | MalformedMux (e : MuxHeaderError)
  | SendQueueFull (route : RouteId) (capacity : N)
  | FlowControlViolation (route : RouteId) (window : N)
  | UnknownRoute (route : RouteId)
  | DuplicateRoute (route : RouteId)
  | RouteLimitReached (limit : N)
  | DatagramTooLarge (actual limit : N).

Abbreviation TransportResult := (result TransportError).

(** ** Tags *)

Definition MUX_HEADER_LEN : nat := 9.
Definition ROUTE_OFFSET : nat := 1.

Definition ACCEPT_STATUS_OK : N := 0.
Definition ACCEPT_STATUS_REFUSED : N := 1.

Definition CLOSE_CODE_NORMAL : N := 0.
Definition CLOSE_CODE_REFUSED : N := 1.
Definition CLOSE_CODE_FLOW_CONTROL : N := 2.
Definition CLOSE_CODE_ROUTE_LIMIT : N := 3.
Definition CLOSE_CODE_DUPLICATE : N := 4.
Definition CLOSE_CODE_SHUTDOWN : N := 5.

(** [MuxTag]; the tag of control frames shares its name with a frame kind. *)
Inductive MuxTag : Set :=
  | TagControl | RouteData | RouteOpen | RouteAccept | RouteClose | Credit | Datagram.

#[global] Instance mux_tag_eq_dec : EqDecision MuxTag.
Proof. solve_decision. Defined.

Definition tag_as_u8 (t : MuxTag) : N :=
  match t with
  | TagControl => 0 | RouteData => 1 | RouteOpen => 2 | RouteAccept => 3
  | RouteClose => 4 | Credit => 5 | Datagram => 6
  end.

Definition tag_from_u8 (value : N) : result MuxHeaderError MuxTag :=
  match value with
  | 0 => Ok TagControl | 1 => Ok RouteData | 2 => Ok RouteOpen | 3 => Ok RouteAccept
  | 4 => Ok RouteClose | 5 => Ok Credit | 6 => Ok Datagram
  | tag => Err (UnknownTag tag)
  end.

Definition tag_as_str (t : MuxTag) : str :=
  match t with
  | TagControl => lit "control" | RouteData => lit "route_data" | RouteOpen => lit "route_open"
  | RouteAccept => lit "route_accept" | RouteClose => lit "route_close"
  | Credit => lit "credit" | Datagram => lit "datagram"
  end.

Definition is_route_scoped (t : MuxTag) : bool :=
  match t with TagControl | Datagram => false | _ => true end.

Definition tag_consumes_credit (t : MuxTag) : bool :=
  match t with RouteData => true | _ => false end.

Definition may_compress (t : MuxTag) : bool :=
  match t with RouteData | TagControl | Datagram => true | _ => false end.

(** ** The header *)

Record MuxHeader := mkMuxHeader { mh_tag : MuxTag; mh_route : RouteId }.

Definition header_control : MuxHeader := mkMuxHeader TagControl NONE.
Definition header_datagram : MuxHeader := mkMuxHeader Datagram NONE.

Definition header_encode_into (h : MuxHeader) (out : list N) : list N :=
  out ++ [tag_as_u8 (mh_tag h)] ++ to_le_bytes 8 (mh_route h).

Definition header_decode (payload : list N) : result MuxHeaderError (MuxHeader * list N) :=
  if Nat.ltb (length payload) MUX_HEADER_LEN
  then Err (HeaderTruncated (length payload) MUX_HEADER_LEN)
  else
    let? tag := tag_from_u8 (hd 0 payload) in
    let route_bytes := take (MUX_HEADER_LEN - ROUTE_OFFSET) (drop ROUTE_OFFSET payload) in
    let route := from_le_bytes route_bytes in
    if Bool.eqb (is_route_scoped tag) (is_none route)
    then Err (RouteMismatch (tag_as_str tag) route)
    else Ok (mkMuxHeader tag route, drop MUX_HEADER_LEN payload).

Definition build_payload (h : MuxHeader) (body : list N) : list N :=
  header_encode_into h [] ++ body.

(** The buffer a caller reuses is cleared first. *)
Definition build_payload_into (h : MuxHeader) (body out : list N) : list N :=
  header_encode_into h [] ++ body.

(** ** Bodies *)

(** [read_u32] *)
Definition read_u32 (body : list N) (tag : MuxTag) : result MuxHeaderError N :=
  match get_range 0 4 body with
  | Some bytes => Ok (from_le_bytes bytes)
  | None => Err (BadBody (tag_as_str tag) 4 (length body))
  end.

Record OpenBody := mkOpen { ob_credit : N; ob_descriptor : list N }.

Definition open_encode_into (b : OpenBody) (out : list N) : list N :=
  out ++ to_le_bytes 4 (ob_credit b) ++ ob_descriptor b.

Definition open_decode (body : list N) : result MuxHeaderError OpenBody :=
  let? credit := read_u32 body RouteOpen in Ok (mkOpen credit (drop 4 body)).

Record AcceptBody := mkAccept { ab_credit : N; ab_accepted : bool; ab_detail : str }.

Definition accepted (credit : N) : AcceptBody := mkAccept credit true [].
Definition refused (detail : str) : AcceptBody := mkAccept 0 false detail.

Definition accept_encode_into (b : AcceptBody) (out : list N) : list N :=
  out ++ to_le_bytes 4 (ab_credit b)
  ++ [if ab_accepted b then ACCEPT_STATUS_OK else ACCEPT_STATUS_REFUSED]
  ++ as_bytes (ab_detail b).

Definition accept_decode (body : list N) : result MuxHeaderError AcceptBody :=
  let? credit := read_u32 body RouteAccept in
  match body !! 4%nat with
  | None => Err (BadBody (tag_as_str RouteAccept) 5 (length body))
  | Some status =>
      Ok (mkAccept credit (N.eqb status ACCEPT_STATUS_OK) (from_utf8_lossy (drop 5 body)))
  end.

Record CloseBody := mkClose { cb_code : N; cb_detail : str }.

Definition close_encode_into (b : CloseBody) (out : list N) : list N :=
  out ++ to_le_bytes 2 (cb_code b) ++ as_bytes (cb_detail b).

Definition close_decode (body : list N) : result MuxHeaderError CloseBody :=
  match get_range 0 2 body with
  | None => Err (BadBody (tag_as_str RouteClose) 2 (length body))
  | Some code_bytes => Ok (mkClose (from_le_bytes code_bytes) (from_utf8_lossy (drop 2 body)))
  end.

Definition encode_credit (delta : N) : list N := to_le_bytes 4 delta.

Definition decode_credit (body : list N) : result MuxHeaderError N :=
  if negb (Nat.eqb (length body) 4)
  then Err (BadBody (tag_as_str Credit) 4 (length body))
  else read_u32 body Credit.

(** ** Round trips *)

(** A header that may be sent. *)
Definition mux_header_ok (h : MuxHeader) : Prop :=
  is_route_scoped (mh_tag h) ≠ is_none (mh_route h) ∧ mh_route h < 2 ^ 64.

Lemma tag_from_as_u8 t : tag_from_u8 (tag_as_u8 t) = Ok t.
Proof. by destruct t. Qed.

Lemma tag_from_u8_inv v t : tag_from_u8 v = Ok t → tag_as_u8 t = v.
Proof.
  unfold tag_from_u8. intros H.
  repeat match type of H with context [match ?x with _ => _ end] => destruct x end; by simplify_eq.
Qed.

Lemma length_header h out : length (header_encode_into h out) = (length out + 9)%nat.
Proof. unfold header_encode_into. rewrite !length_app, length_to_le. simpl. lia. Qed.

Lemma header_decode_build h body :
  mux_header_ok h → header_decode (build_payload h body) = Ok (h, body).
Proof.
  destruct h as [t r]. intros [Hs Hr]; cbn [mh_tag mh_route] in *. unfold header_decode.
  assert (length (build_payload (mkMuxHeader t r) body) = 9 + length body)%nat as Hlen.
  { unfold build_payload. rewrite length_app, length_header. simpl. lia. }
  rewrite Hlen. destruct (Nat.ltb_spec (9 + length body) MUX_HEADER_LEN); [unfold MUX_HEADER_LEN in *; lia|].
  unfold build_payload, header_encode_into. cbn [app hd mh_tag mh_route]. rewrite tag_from_as_u8. cbn [rbind].
  change (drop ROUTE_OFFSET (?x :: ?l)) with l.
  change (MUX_HEADER_LEN - ROUTE_OFFSET)%nat with 8%nat.
  rewrite take_app_le by (rewrite length_to_le; lia). rewrite take_ge by (rewrite length_to_le; lia).
  rewrite from_to_le by done.
  destruct (Bool.eqb _ _) eqn:E; [by apply eqb_prop in E|]. done.
Qed.

Lemma header_decode_inv payload h body :
  Forall is_byte payload → header_decode payload = Ok (h, body) →
  payload = build_payload h body ∧ mux_header_ok h.
Proof.
  unfold header_decode. intros Hb H.
  destruct (Nat.ltb_spec (length payload) MUX_HEADER_LEN) as [|Hlen]; [done|].
  destruct (tag_from_u8 (hd 0 payload)) as [tag|] eqn:Htag; [|done]. cbn [rbind] in H.
  destruct (Bool.eqb _ _) eqn:E; [done|]. simplify_eq. apply eqb_false_iff in E.
  apply tag_from_u8_inv in Htag. unfold MUX_HEADER_LEN, ROUTE_OFFSET in *.
  destruct payload as [|b payload]; [simpl in Hlen; lia|]. cbn [hd] in Htag. subst b.
  inversion_clear Hb as [|?? _ Hb']. cbn [length] in Hlen.
  change (drop 1 (tag_as_u8 tag :: payload)) with payload in *. change (9 - 1)%nat with 8%nat in *.
  assert (length (take 8 payload) = 8%nat) as Ht by (rewrite length_take; lia).
  assert (Forall is_byte (take 8 payload)) as Hbt by (by apply Forall_take).
  pose proof (to_from_le _ Hbt) as Hle. rewrite Ht in Hle.
  split.
  - unfold build_payload, header_encode_into. cbn [app mh_tag mh_route].
    f_equal. rewrite Hle. by rewrite <-(take_drop 8 payload) at 1.
  - split; [done|]. cbn [mh_route].
    pose proof (le_bound _ Hbt) as Hle'. rewrite Ht in Hle'. done.
Qed.

Lemma read_u32_app x rest tag : x < 2 ^ 32 → read_u32 (to_le_bytes 4 x ++ rest) tag = Ok x.
Proof.
  intros. unfold read_u32.
  pose proof (get_range_app [] (to_le_bytes 4 x) rest) as E.
  cbn [length app Nat.add] in E. rewrite length_to_le in E. by rewrite E, from_to_le.
Qed.

Lemma open_decode_encode b :
  ob_credit b < 2 ^ 32 → open_decode (open_encode_into b []) = Ok b.
Proof.
  intros. unfold open_decode, open_encode_into. cbn [app]. rewrite read_u32_app by done.
  by destruct b.
Qed.

Lemma accept_decode_encode b :
  ab_credit b < 2 ^ 32 → Forall is_scalar (ab_detail b) →
  accept_decode (accept_encode_into b []) = Ok b.
Proof.
  intros Hc Hd. unfold accept_decode, accept_encode_into. cbn [app]. rewrite read_u32_app by done.
  cbn [rbind]. change (drop 5 _) with (as_bytes (ab_detail b)).
  rewrite lossy_as_bytes by done. by destruct b as [c [|] d].
Qed.

Lemma close_decode_encode b :
  cb_code b < 2 ^ 16 → Forall is_scalar (cb_detail b) → close_decode (close_encode_into b []) = Ok b.
Proof.
  intros Hc Hd. unfold close_decode, close_encode_into. cbn [app].
  pose proof (get_range_app [] (to_le_bytes 2 (cb_code b)) (as_bytes (cb_detail b))) as E.
  cbn [length app Nat.add] in E. rewrite length_to_le in E. rewrite E, from_to_le by done.
  change (drop 2 _) with (as_bytes (cb_detail b)). rewrite lossy_as_bytes by done. by destruct b.
Qed.

Lemma decode_encode_credit delta : delta < 2 ^ 32 → decode_credit (encode_credit delta) = Ok delta.
Proof.
  intros. unfold decode_credit, encode_credit. cbn [length to_le_bytes Nat.eqb negb].
  rewrite <-(app_nil_r (N.land _ _ :: _)). by apply (read_u32_app delta []).
Qed.

(** A multiplexed payload is read exactly when it was written: decoding
    accepts a payload and splits it into a header and a body if and only if
    building that header and body gives the payload and the header's tag and
    route fit each other. *)
Theorem mux_header_roundtrip payload h body :
  Forall is_byte payload →
  header_decode payload = Ok (h, body) ↔ payload = build_payload h body ∧ mux_header_ok h.
Proof.
  intros Hb. split; [by apply header_decode_inv|].
  intros [-> Hok]. by apply header_decode_build.
Qed.

Lemma mux_header_roundtrip_witness :
  header_decode [1; 9; 0; 0; 0; 0; 0; 0; 0; 98] = Ok (mkMuxHeader RouteData 9, [98]).
Proof.
  apply (mux_header_roundtrip [1; 9; 0; 0; 0; 0; 0; 0; 0; 98]).
  - repeat constructor.
  - split; [reflexivity|]. split; [discriminate|reflexivity].
Defined.

(** The bodies of route frames read back as they were written, with any
    text as their detail. *)
Theorem mux_body_roundtrip credit code ok descriptor detail :
  credit < 2 ^ 32 → code < 2 ^ 16 → Forall is_scalar detail →
  open_decode (open_encode_into (mkOpen credit descriptor) []) = Ok (mkOpen credit descriptor) ∧
  accept_decode (accept_encode_into (mkAccept credit ok detail) []) = Ok (mkAccept credit ok detail) ∧
  close_decode (close_encode_into (mkClose code detail) []) = Ok (mkClose code detail) ∧
  decode_credit (encode_credit credit) = Ok credit.
Proof.
  intros. split_and!; auto using open_decode_encode, accept_decode_encode, close_decode_encode,
    decode_encode_credit.
Qed.

Lemma mux_body_roundtrip_witness :
  close_decode (close_encode_into (mkClose 2 [0xE9; 0x20AC]) []) = Ok (mkClose 2 [0xE9; 0x20AC]).
Proof.
  apply (mux_body_roundtrip 32 2 true [] [0xE9; 0x20AC]); [reflexivity|reflexivity|].
  repeat constructor; left; reflexivity.
Defined.
