(* ===== verification/MuxCompress.v ===== *)
(** * Compressed payloads

    Models [src/crates/astrs-transport/src/compress.rs] and the
    [CompressionPolicy] of [src/crates/astrs-transport/src/config.rs].  The
    codecs ([oxiarc_lz4], [oxiarc_zstd]) are external: a class of operations,
    with the law that decompressing what was compressed gives it back.

    A payload that was compressed, or left alone because that did not pay, is
    restored exactly, and compression never makes it longer
    ([compression_roundtrip]); what comes out of a container is never longer
    than the receiver's limit ([decompression_is_bounded]), but the zstd codec
    runs without that limit ([zstd_expands_before_the_check]). *)

From Stdlib Require Import Lia.
From stdpp Require Import base tactics list strings numbers.
From S2P Require Import Prelude Crc32c Text Utf8 WireFrame MuxHeader.

Open Scope N_scope.

(** ** The codecs *)

Class OxiArc := {
  lz4_compress : list N → result str (list N);
  lz4_decompress : list N → N → result str (list N);
  zstd_compress_with_level : list N → Z → result str (list N);
  zstd_decompress : list N → result str (list N);
}.

Class OxiArcLaws `{OxiArc} := {
  lz4_roundtrip p b n :
    lz4_compress p = Ok b → N.of_nat (length p) = n → lz4_decompress b n = Ok p;
  zstd_roundtrip p level b : zstd_compress_with_level p level = Ok b → zstd_decompress b = Ok p;
}.

(** ** [CompressionPolicy] *)

Definition COMPRESSION_THRESHOLD_BYTES : N := 16 * 1024.
Definition DEFAULT_ZSTD_LEVEL : Z := 3.
Definition MIN_ZSTD_LEVEL : Z := 1.
Definition MAX_ZSTD_LEVEL : Z := 22.

Record CompressionPolicy := mkPolicy {
  codec : Compression;
  threshold_bytes : N;
  ceiling_bytes : N;
  max_ratio_percent : N;
  zstd_level : Z;
}.

Definition policy_disabled : CompressionPolicy :=
  mkPolicy NoCompression COMPRESSION_THRESHOLD_BYTES 0 95 DEFAULT_ZSTD_LEVEL.

Definition policy_codec (c : Compression) : CompressionPolicy :=
  mkPolicy c COMPRESSION_THRESHOLD_BYTES 0 95 DEFAULT_ZSTD_LEVEL.

Definition with_threshold_bytes (bytes : N) (p : CompressionPolicy) : CompressionPolicy :=
  mkPolicy (codec p) bytes (ceiling_bytes p) (max_ratio_percent p) (zstd_level p).

Definition with_ceiling_bytes (bytes : N) (p : CompressionPolicy) : CompressionPolicy :=
  mkPolicy (codec p) (threshold_bytes p) bytes (max_ratio_percent p) (zstd_level p).

Definition with_max_ratio_percent (percent : N) (p : CompressionPolicy) : CompressionPolicy :=
  mkPolicy (codec p) (threshold_bytes p) (ceiling_bytes p) percent (zstd_level p).

Definition with_zstd_level (level : Z) (p : CompressionPolicy) : CompressionPolicy :=
  mkPolicy (codec p) (threshold_bytes p) (ceiling_bytes p) (max_ratio_percent p)
    (if Z.ltb level MIN_ZSTD_LEVEL then MIN_ZSTD_LEVEL
     else if Z.ltb MAX_ZSTD_LEVEL level then MAX_ZSTD_LEVEL else level).

Definition negotiate_codec (c : Compression) (p : CompressionPolicy) : CompressionPolicy :=
  mkPolicy c (threshold_bytes p) (ceiling_bytes p) (max_ratio_percent p) (zstd_level p).

Definition should_try (p : CompressionPolicy) (payload_len : N) : bool :=
  if negb (is_enabled (codec p)) || N.ltb payload_len (threshold_bytes p) then false
  else N.eqb (ceiling_bytes p) 0 || N.leb payload_len (ceiling_bytes p).

(** [usize] has 64 bits. *)
Definition saturating_mul64 (a b : N) : N := N.min (a * b) u64_max.

Definition is_worth_it (p : CompressionPolicy) (original_len compressed_len : N) : bool :=
  if N.eqb original_len 0 then false
  else N.leb (saturating_mul64 compressed_len 100)
             (saturating_mul64 original_len (max_ratio_percent p)).

(** ** [compress.rs] *)

Definition CONTAINER_HEADER_LEN : nat := 4.
Definition MAX_CONTAINER_PAYLOAD_BYTES : N := u32_max.

Definition is_supported_codec (c : Compression) : bool :=
  match c with Lz4 | Zstd => true | NoCompression => false end.

Section compress.
Context `{OxiArc}.

Definition bytes_len (l : list N) : N := N.of_nat (length l).

(** The codec's answer, if the policy names one. *)
Definition run_codec (policy : CompressionPolicy) (payload : list N) :
    option (TransportResult (list N)) :=
  match codec policy with
  | Lz4 => Some (map_err (CodecFailed Lz4) (lz4_compress payload))
  | Zstd => Some (map_err (CodecFailed Zstd) (zstd_compress_with_level payload (zstd_level policy)))
  | NoCompression => None
  end.

Definition compress_payload (policy : CompressionPolicy) (payload : list N) :
    TransportResult (list N * Compression) :=
  if negb (should_try policy (bytes_len payload)) then Ok (payload, NoCompression)
  else if N.ltb MAX_CONTAINER_PAYLOAD_BYTES (bytes_len payload)
  then Err (FrameTooLarge (bytes_len payload) MAX_CONTAINER_PAYLOAD_BYTES)
  else
    match run_codec policy payload with
    | None => Ok (payload, NoCompression)
    | Some answer =>
        let? body := answer in
        let framed_len := saturating_add (bytes_len body) (N.of_nat CONTAINER_HEADER_LEN) in
        if negb (is_worth_it policy (bytes_len payload) framed_len) then Ok (payload, NoCompression)
        else Ok (to_le_bytes 4 (bytes_len payload) ++ body, codec policy)
    end.

(** The buffer of the caller is cleared first: it holds the bytes for the
    wire, or nothing when the codec fails. *)
Definition compress_payload_into (policy : CompressionPolicy) (payload out : list N) :
    list N * TransportResult Compression :=
  if negb (should_try policy (bytes_len payload)) then (payload, Ok NoCompression)
  else
    match compress_payload policy payload with
    | Ok (bytes, c) => (bytes, Ok c)
    | Err e => ([], Err e)
    end.

Definition declared_len (container : list N) : TransportResult N :=
  match get_range 0 CONTAINER_HEADER_LEN container with
  | Some head => Ok (from_le_bytes head)
  | None => Err (TruncatedCompressionHeader (length container) CONTAINER_HEADER_LEN)
  end.

Definition decompress_payload (c : Compression) (container : list N) (max_bytes : N) :
    TransportResult (list N) :=
  if negb (is_enabled c) then Ok container
  else
    let? declared := declared_len container in
    if N.ltb max_bytes declared then Err (DecompressedTooLarge declared max_bytes)
    else
      let body := drop CONTAINER_HEADER_LEN container in
      let? plain :=
        match c with
        | Lz4 => map_err (CodecFailed c) (lz4_decompress body declared)
        | Zstd => map_err (CodecFailed c) (zstd_decompress body)
        | NoCompression => Err (CompressionNotNegotiated c)
        end in
      if negb (N.eqb (bytes_len plain) declared)
      then Err (DecompressedLengthMismatch declared (bytes_len plain))
      else Ok plain.
End compress.

(** ** Proofs *)

Lemma declared_len_app n rest : n < 2 ^ 32 → declared_len (to_le_bytes 4 n ++ rest) = Ok n.
Proof.
  intros. unfold declared_len. pose proof (get_range_app [] (to_le_bytes 4 n) rest) as E.
  cbn [length app Nat.add] in E. rewrite length_to_le in E.
  change CONTAINER_HEADER_LEN with 4%nat. by rewrite E, from_to_le.
Qed.

Lemma decompress_container `{OxiArc} c n body max_bytes :
  is_enabled c = true → n < 2 ^ 32 → n <= max_bytes →
  decompress_payload c (to_le_bytes 4 n ++ body) max_bytes =
    let? plain :=
      match c with
      | Lz4 => map_err (CodecFailed c) (lz4_decompress body n)
      | Zstd => map_err (CodecFailed c) (zstd_decompress body)
      | NoCompression => Err (CompressionNotNegotiated c)
      end in
    if negb (N.eqb (bytes_len plain) n)
    then Err (DecompressedLengthMismatch n (bytes_len plain)) else Ok plain.
Proof.
  intros Hc Hn Hmax. unfold decompress_payload. rewrite Hc. cbn [negb].
  rewrite declared_len_app by done. cbn [rbind].
  destruct (N.ltb_spec max_bytes n); [lia|]. done.
Qed.

(** What [compress_payload] returns: the payload as it is, or a container of
    what the codec made of it, when that paid. *)
Lemma compress_payload_inv `{OxiArc} policy payload wire c :
  compress_payload policy payload = Ok (wire, c) →
  (wire = payload ∧ c = NoCompression) ∨
  ∃ body, wire = to_le_bytes 4 (bytes_len payload) ++ body ∧ c = codec policy ∧
    is_enabled c = true ∧ bytes_len payload <= MAX_CONTAINER_PAYLOAD_BYTES ∧
    is_worth_it policy (bytes_len payload) (saturating_add (bytes_len body) 4) = true ∧
    (c = Lz4 ∧ lz4_compress payload = Ok body ∨
     c = Zstd ∧ zstd_compress_with_level payload (zstd_level policy) = Ok body).
Proof.
  unfold compress_payload. intros Hcp.
  destruct (should_try policy (bytes_len payload)) eqn:Etry; cbn [negb] in Hcp; [|left; by simplify_eq].
  destruct (N.ltb_spec MAX_CONTAINER_PAYLOAD_BYTES (bytes_len payload)) as [|Hlen]; [done|].
  unfold run_codec in Hcp. destruct (codec policy) eqn:Ec; [left; by simplify_eq| |];
    [destruct (lz4_compress payload) as [body|] eqn:El
    |destruct (zstd_compress_with_level _ _) as [body|] eqn:El];
    cbn [map_err rbind] in Hcp; try done;
    (destruct (is_worth_it _ _ _) eqn:Ew; cbn [negb] in Hcp; simplify_eq; [|by left]);
    right; exists body; split_and!; auto.
Qed.

(** What is sent is what is received: whatever the policy decides, the
    payload comes back from the bytes and the codec that were put on the
    wire, when the receiver's limit admits it; and with a ratio of at most
    100 percent the bytes on the wire are never more than the payload's. *)
Theorem compression_roundtrip `{OxiArcLaws} policy payload wire c max_bytes :
  compress_payload policy payload = Ok (wire, c) → bytes_len payload <= max_bytes →
  bytes_len wire < 2 ^ 57 →
  decompress_payload c wire max_bytes = Ok payload ∧
  (max_ratio_percent policy <= 100 → bytes_len wire <= bytes_len payload).
Proof.
  intros [[-> ->]|(body & -> & -> & Hc & Hlen & Hw & Hcodec)]%compress_payload_inv Hmax Hbig;
    [by split|].
  unfold MAX_CONTAINER_PAYLOAD_BYTES, u32_max in Hlen. split.
  - rewrite decompress_container by (done || lia).
    destruct Hcodec as [[-> Hl]|[-> Hz]].
    + by rewrite (lz4_roundtrip _ _ _ Hl) by done; cbn [map_err rbind]; rewrite N.eqb_refl.
    + by rewrite (zstd_roundtrip _ _ _ Hz); cbn [map_err rbind]; rewrite N.eqb_refl.
  - intros Hratio. unfold is_worth_it in Hw. destruct (N.eqb_spec (bytes_len payload) 0); [done|].
    apply N.leb_le in Hw. unfold bytes_len in *. rewrite length_app, length_to_le in *.
    pose proof (N.mul_le_mono_l _ _ (N.of_nat (length payload)) Hratio) as Hq.
    revert Hw Hq. unfold saturating_mul64, saturating_add, u64_max.
    generalize (N.of_nat (length payload) * max_ratio_percent policy). lia.
Qed.

(** A receiver is never handed more than its limit: what a container
    decompresses to has the declared length, at most the limit. *)
Theorem decompression_is_bounded `{OxiArc} c container max_bytes plain :
  decompress_payload c container max_bytes = Ok plain → is_enabled c = true →
  bytes_len plain <= max_bytes ∧ declared_len container = Ok (bytes_len plain).
Proof.
  unfold decompress_payload. intros Hd Hc. rewrite Hc in Hd. cbn [negb] in Hd.
  destruct (declared_len container) as [n|] eqn:En; [|done]. cbn [rbind] in Hd.
  destruct (N.ltb_spec max_bytes n) as [|Hn]; [done|].
  destruct (match c with Lz4 => _ | _ => _ end) as [p|]; [|done]. cbn [rbind] in Hd.
  destruct (N.eqb_spec (bytes_len p) n); [|done]. cbn [negb] in Hd. simplify_eq. done.
Qed.

(** A container that declares a small length and holds a zstd frame that
    expands to more than the limit is expanded in full before it is
    refused: the refusal reports the expanded length. *)
Theorem zstd_expands_before_the_check `{OxiArc} n body plain max_bytes :
  n < 2 ^ 32 → n <= max_bytes → max_bytes < bytes_len plain → zstd_decompress body = Ok plain →
  decompress_payload Zstd (to_le_bytes 4 n ++ body) max_bytes =
    Err (DecompressedLengthMismatch n (bytes_len plain)).
Proof.
  intros Hn Hmax Hbig Hz. rewrite decompress_container by done. rewrite Hz. cbn [map_err rbind].
  by destruct (N.eqb_spec (bytes_len plain) n); [lia|].
Qed.

(** ** A codec to run the definitions with *)

Module RunLength.
Definition pack (p : list N) : list N :=
  match p with
  | x :: _ =>
      if bool_decide (p = replicate (length p) x) && N.ltb (bytes_len p) (2 ^ 32)
      then 0 :: x :: to_le_bytes 4 (bytes_len p) else 1 :: p
  | [] => [1]
  end.

Definition unpack (b : list N) : list N :=
  match b with
  | 0 :: x :: n => replicate (N.to_nat (from_le_bytes n)) x
  | _ :: p => p
  | [] => []
  end.

Lemma unpack_pack p : unpack (pack p) = p.
Proof.
  unfold pack. destruct p as [|x p]; [done|].
  destruct (bool_decide _) eqn:E; [|done]. apply bool_decide_eq_true in E.
  destruct (N.ltb_spec (bytes_len (x :: p)) (2 ^ 32)); [|done]. cbn [andb unpack].
  rewrite from_to_le by done. unfold bytes_len. by rewrite Nat2N.id.
Qed.

#[global] Instance codecs : OxiArc := {|
  lz4_compress p := Ok (pack p);
  lz4_decompress b _ := Ok (unpack b);
  zstd_compress_with_level p _ := Ok (pack p);
  zstd_decompress b := Ok (unpack b);
|}.

#[global] Instance codecs_laws : OxiArcLaws.
Proof. split; cbn; intros; simplify_eq; by rewrite unpack_pack. Qed.
End RunLength.

Lemma compression_roundtrip_witness :
  let policy := with_threshold_bytes 8 (policy_codec Zstd) in
  let payload := replicate 40 7 in
  let wire := [40; 0; 0; 0; 0; 7; 40; 0; 0; 0] in
  compress_payload policy payload = Ok (wire, Zstd) ∧ decompress_payload Zstd wire 1024 = Ok payload.
Proof.
  split; [by vm_compute|].
  apply (compression_roundtrip (with_threshold_bytes 8 (policy_codec Zstd)) (replicate 40 7));
    [by vm_compute|by vm_compute|reflexivity].
Defined.

Lemma decompression_is_bounded_witness : bytes_len (replicate 40 7) <= 40.
Proof.
  apply (decompression_is_bounded Zstd [40; 0; 0; 0; 0; 7; 40; 0; 0; 0] 40); by vm_compute.
Defined.

Lemma zstd_expands_before_the_check_witness :
  decompress_payload Zstd [4; 0; 0; 0; 0; 7; 40; 0; 0; 0] 16 = Err (DecompressedLengthMismatch 4 40).
Proof.
  apply (zstd_expands_before_the_check 4 [0; 7; 40; 0; 0; 0] (replicate 40 7) 16); by vm_compute.
Defined.
