(* ===== verification/Recording.v ===== *)
(** * Recordings: the [.arec] container

    Models the crate [src/crates/astrs-recording/src]: the frames and the
    trailer of [format.rs], the header, entries and index of [header.rs],
    [entry.rs] and [index.rs], the rotating [Writer], the [Reader] and its
    iterators, the recovery scan of [recover.rs], the merge of several
    recordings and the statistics.

    The file system is the part of it the crate touches: the bytes at each
    path, an oracle that says which upcoming system call fails and how many
    bytes a failing write gets out, and the monotonic clock.  Files are
    neither renamed nor removed here, so a handle is its path.  The standard
    library's [BufWriter] is modelled with its buffer, because what a failed
    flush leaves in it is written by the next one.

    A path is the list of its components, which is how [Path] compares; file
    names are Unicode text. *)

From Stdlib Require Import Lia.
From stdpp Require Import base tactics list gmap strings numbers sorting.
From S2P Require Import Prelude Text TimeHlc WireMetadata Crc32c WireFrame Ordered MuxCompress.

Open Scope N_scope.

(** ** Paths *)

Inductive Component : Set :=
  | RootDir
  | CurDir
  | ParentDir
  | Normal (name : str).

#[global] Instance component_eq_dec : EqDecision Component.
Proof. solve_decision. Defined.

#[global] Instance component_countable : Countable Component.
Proof.
  refine (inj_countable'
    (λ c, match c with RootDir => inl 0 | CurDir => inl 1 | ParentDir => inl 2 | Normal s => inr (s : list N) end)
    (λ x, match x with inl 0 => RootDir | inl 1 => CurDir | inl _ => ParentDir | inr s => Normal s end) _).
  by intros [].
Defined.

Definition Path : Set := list Component.

#[global] Instance path_eq_dec : EqDecision Path.
Proof. unfold Path. apply _. Defined.
#[global] Instance path_countable : Countable Path.
Proof. unfold Path. apply _. Defined.

Definition file_name (p : Path) : option str :=
  match last p with Some (Normal name) => Some name | _ => None end.

(** The last dot splits a name, unless the name starts with it. *)
Definition rsplit_file_at_dot (file : str) : option str * option str :=
  match split_once 46 (reverse file) with
  | None => (None, Some file)
  | Some (after, []) => (Some file, None)
  | Some (after, before) => (Some (reverse before), Some (reverse after))
  end.

Definition file_stem (p : Path) : option str :=
  name ← file_name p;
  match rsplit_file_at_dot name with (Some before, _) => Some before | (None, after) => after end.

Definition extension (p : Path) : option str :=
  name ← file_name p;
  match rsplit_file_at_dot name with (Some _, after) => after | (None, _) => None end.

Definition parent (p : Path) : option Path :=
  match last p with
  | None | Some RootDir => None
  | Some _ => Some (removelast p)
  end.

(** ** The world outside *)

Record World := mkWorld {
  files : gmap Path (list N);
  faults : list (option nat);
  clock : N;
  ticks : list N
}.

(** Errors, less the text of what they wrap: the system's error codes, and
    the rendering of a wire error. *)
Inductive RecordingError :=
  | Wire (e : WireError)
  | Io (context : string)
  | BadMagic (reason : string)
  | UnsupportedVersion (found understood : N)
  | Incomplete (offset needed available : N)
  | CrcMismatch (offset : N)
  | UnknownFrameTag (offset found : N)
  | Codec (reason : str)
  | Malformed (offset : N) (reason : WireError)
  | TooShort (len : N)
  | NoTrailer
  | IndexOffsetOutOfRange (offset len : N).

Abbreviation RecResult := (result RecordingError).
Abbreviation SysM := (stM World RecordingError).

(** The fate of the next system call: [None] succeeds, [Some k] fails; a
    write fails when it has more than [k] bytes to write.  Past the end of
    the oracle everything succeeds. *)
Definition next_fault (w : World) : option nat * World :=
  match faults w with
  | [] => (None, w)
  | f :: fs => (f, mkWorld (files w) fs (clock w) (ticks w))
  end.

Definition sys (context : string) : SysM unit := λ w,
  let '(f, w) := next_fault w in
  (w, match f with None => Ok tt | Some _ => Err (Io context) end).

Definition set_file (p : Path) (bytes : list N) (w : World) : World :=
  mkWorld (<[p := bytes]> (files w)) (faults w) (clock w) (ticks w).

(** [Instant::now]: the clock has moved on by some amount. *)
Definition instant_now : SysM N := λ w,
  match ticks w with
  | [] => (w, Ok (clock w))
  | d :: ds => (mkWorld (files w) (faults w) (clock w + d) ds, Ok (clock w + d))
  end.

(** Writing to the end of a file until everything is out or a call fails:
    what is left, and whether it succeeded. *)
Definition write_out (p : Path) (bytes : list N) (w : World) : World * list N * bool :=
  let '(f, w) := next_fault w in
  let put l := set_file p (default [] (files w !! p) ++ l) w in
  match f with
  | Some k =>
      if Nat.ltb k (length bytes) then (put (take k bytes), drop k bytes, false)
      else (put bytes, [], true)
  | None => (put bytes, [], true)
  end.

(** *** [BufWriter<File>] *)

Definition BUF_CAPACITY : N := 8 * 1024.

Record BufWriter := mkBuf { bw_path : Path; bw_buf : list N }.

Abbreviation BufM := (stM (World * BufWriter) unit).

(** What was written before a failure is removed from the buffer, the rest
    stays in it. *)
Definition flush_buf : BufM unit := λ s,
  let '(w, b) := s in
  match bw_buf b with
  | [] => (s, Ok tt)
  | buf =>
      let '(w, rest, ok) := write_out (bw_path b) buf w in
      ((w, mkBuf (bw_path b) rest), if ok then Ok tt else Err tt)
  end.

Definition push_buf (bytes : list N) : BufM unit :=
  modify (λ s, (s.1, mkBuf (bw_path s.2) (bw_buf s.2 ++ bytes))).

Definition spare_capacity (b : BufWriter) : N := BUF_CAPACITY - N.of_nat (length (bw_buf b)).

Definition buf_write_all (bytes : list N) : BufM unit := λ s,
  let len := N.of_nat (length bytes) in
  if len <? spare_capacity s.2 then push_buf bytes s
  else
    ((if spare_capacity s.2 <? len then flush_buf else ret tt) ;;
     if BUF_CAPACITY <=? len then
       λ s, let '(w, rest, ok) := write_out (bw_path s.2) bytes s.1 in
            ((w, s.2), if ok then Ok tt else Err tt)
     else push_buf bytes) s.

(** ** The layout ([format.rs]) *)

(** "ASTRSREC" and "ASTRSEND" *)
Definition FILE_MAGIC : list N := [65; 83; 84; 82; 83; 82; 69; 67].
Definition TRAILER_MAGIC : list N := [65; 83; 84; 82; 83; 69; 78; 68].
Definition FORMAT_VERSION : N := 1.

(** "AHd1", "AEn1", "AFt1" *)
Definition HEADER_FRAME_TAG : N := from_le_bytes [65; 72; 100; 49].
Definition ENTRY_FRAME_TAG : N := from_le_bytes [65; 69; 110; 49].
Definition FOOTER_FRAME_TAG : N := from_le_bytes [65; 70; 116; 49].

Definition FLAG_ZSTD : N := 1.
Definition ZSTD_LEVEL : Z := 3.
Definition TRAILER_LEN : N := 24.
Definition FRAME_OVERHEAD : N := 13.
Definition MINI_HEADER_LEN : N := 9.
Definition PROLOGUE_LEN : N := 10.

(** [bytes[from..to]] *)
Definition slice (from to : N) (bytes : list N) : list N :=
  take (N.to_nat (to - from)) (drop (N.to_nat from) bytes).

Definition len64 (bytes : list N) : N := N.of_nat (length bytes).

(** [u32::try_from(n).unwrap_or(u32::MAX)] *)
Definition clamp_u32 (n : N) : N := N.min n u32_max.

Definition check_prologue (prologue : list N) : RecResult unit :=
  if negb (bool_decide (take 8 prologue = FILE_MAGIC))
  then Err (BadMagic "missing the ASTRSREC magic")
  else
    let version := from_le_bytes (take 2 (drop 8 prologue)) in
    if FORMAT_VERSION <? version then Err (UnsupportedVersion version FORMAT_VERSION) else Ok tt.

Record TrailerInfo := mkTrailer { footer_offset : N; footer_len : N }.

Record ParsedFrame := mkParsed { pf_tag : N; pf_body : list N; pf_consumed : N }.

Section format.
Context (cpu : Cpu) `{OxiArc}.

(** [body.len() as u32] *)
Definition frame_crc (tag flags : N) (body : list N) : N :=
  let hasher := crc_update cpu crc_new (to_le_bytes 4 tag) in
  let hasher := crc_update cpu hasher [flags] in
  let hasher := crc_update cpu hasher (to_le_bytes 4 (len64 body mod 2 ^ 32)) in
  crc_finalize (crc_update cpu hasher body).

Definition trailer_crc (footer_offset footer_len : N) : N :=
  let hasher := crc_update cpu crc_new (to_le_bytes 8 footer_offset) in
  crc_finalize (crc_update cpu hasher (to_le_bytes 4 footer_len)).

Definition write_trailer (out : list N) (footer_offset footer_len : N) : list N :=
  out ++ TRAILER_MAGIC ++ to_le_bytes 8 footer_offset ++ to_le_bytes 4 footer_len
    ++ to_le_bytes 4 (trailer_crc footer_offset footer_len).

Definition read_trailer (tail : list N) : RecResult TrailerInfo :=
  if negb (len64 tail =? TRAILER_LEN) || negb (bool_decide (take 8 tail = TRAILER_MAGIC))
  then Err NoTrailer
  else
    let footer_offset := from_le_bytes (slice 8 16 tail) in
    let footer_len := from_le_bytes (slice 16 20 tail) in
    let expected_crc := from_le_bytes (slice 20 24 tail) in
    if negb (trailer_crc footer_offset footer_len =? expected_crc) then Err NoTrailer
    else Ok (mkTrailer footer_offset footer_len).

Definition compress_for_frame (plain : list N) : list N * N :=
  match zstd_compress_with_level plain ZSTD_LEVEL with
  | Ok compressed =>
      if len64 compressed <? len64 plain then (compressed, FLAG_ZSTD) else (plain, 0)
  | Err _ => (plain, 0)
  end.

Definition write_frame (out : list N) (tag : N) (plain : list N) : list N :=
  let '(body, flags) := compress_for_frame plain in
  let body_len := clamp_u32 (len64 body) in
  out ++ to_le_bytes 4 tag ++ [flags] ++ to_le_bytes 4 body_len ++ body
    ++ to_le_bytes 4 (frame_crc tag flags body).

(** The sum of a [u32] and the overhead does not leave the 64 bits of a
    [usize]. *)
Definition read_frame (bytes : list N) (offset : N) : RecResult ParsedFrame :=
  let available := len64 bytes in
  if available <? FRAME_OVERHEAD then Err (Incomplete offset FRAME_OVERHEAD available)
  else
    let tag := from_le_bytes (slice 0 4 bytes) in
    let flags := nth 4 bytes 0 in
    let body_len := from_le_bytes (slice 5 9 bytes) in
    let total_len := FRAME_OVERHEAD + body_len in
    if available <? total_len then Err (Incomplete offset total_len available)
    else
      let body_raw := slice 9 (9 + body_len) bytes in
      let expected_crc := from_le_bytes (slice (9 + body_len) total_len bytes) in
      if negb (frame_crc tag flags body_raw =? expected_crc) then Err (CrcMismatch offset)
      else
        let? body :=
          if negb (N.land flags FLAG_ZSTD =? 0)
          then map_err Codec (zstd_decompress body_raw) else Ok body_raw in
        Ok (mkParsed tag body total_len).
End format.

(** ** Header, entries, index *)

Record Header := mkRecHeader {
  h_hlc_epoch : HlcTimestamp;
  h_dataflow : N;
  h_manifest_yaml : str
}.

Definition header_new (dataflow : N) (hlc_epoch : HlcTimestamp) : Header :=
  mkRecHeader hlc_epoch dataflow [].

Definition header_with_manifest_yaml (yaml : str) (h : Header) : Header :=
  mkRecHeader (h_hlc_epoch h) (h_dataflow h) yaml.

Record Entry := mkRecEntry {
  en_node : str;
  en_output : str;
  en_meta : Metadata;
  en_payload : list N
}.

Definition entry_hlc (e : Entry) : HlcTimestamp := md_timestamp (en_meta e).

Record IndexEntry := mkIndexEntry {
  ix_offset : N;
  ix_hlc : HlcTimestamp;
  ix_node : str;
  ix_output : str;
  ix_payload_len : N
}.

Record Footer := mkFooter { ft_entries : list IndexEntry }.

(** The row both the writer and the scan make of an entry. *)
Definition index_row (offset : N) (e : Entry) : IndexEntry :=
  mkIndexEntry offset (entry_hlc e) (en_node e) (en_output e) (len64 (en_payload e)).

(** The payload encodings, of the external codec. *)
Class RecCodec := {
  rc_header :: Oxicode Header;
  rc_entry :: Oxicode Entry;
  rc_footer :: Oxicode Footer
}.

(** *** Rotation *)

Record RotationPolicy := mkRotation { max_bytes : option N; max_duration : option N }.

Definition rotation_none : RotationPolicy := mkRotation None None.
Definition rotation_by_size (bytes : N) : RotationPolicy := mkRotation (Some bytes) None.
Definition rotation_by_duration (duration : N) : RotationPolicy := mkRotation None (Some duration).

Definition rotation_enabled (p : RotationPolicy) : bool :=
  bool_decide (is_Some (max_bytes p)) || bool_decide (is_Some (max_duration p)).

Definition is_exceeded (p : RotationPolicy) (size age : N) : bool :=
  match max_bytes p with Some max => max <? size | None => false end
  || match max_duration p with Some max => max <? age | None => false end.

Record WriterOptions := mkOptions {
  wo_dataflow : N;
  wo_hlc_epoch : HlcTimestamp;
  wo_manifest_yaml : str;
  wo_rotation : RotationPolicy
}.

Definition options_new (dataflow : N) (hlc_epoch : HlcTimestamp) : WriterOptions :=
  mkOptions dataflow hlc_epoch [] rotation_none.
Definition options_with_manifest_yaml (yaml : str) (o : WriterOptions) : WriterOptions :=
  mkOptions (wo_dataflow o) (wo_hlc_epoch o) yaml (wo_rotation o).
Definition options_with_rotation (r : RotationPolicy) (o : WriterOptions) : WriterOptions :=
  mkOptions (wo_dataflow o) (wo_hlc_epoch o) (wo_manifest_yaml o) r.

(** [{sequence:04}] *)
Definition pad4 (n : N) : str := let d := decimal n in replicate (4 - length d) 48 ++ d.

Definition segment_path (base : Path) (sequence : N) : Path :=
  let stem := default (lit "recording") (file_stem base) in
  let name :=
    match extension base with
    | Some ext => stem ++ lit "-" ++ pad4 sequence ++ lit "." ++ ext
    | None => stem ++ lit "-" ++ pad4 sequence
    end in
  match parent base with
  | Some ((_ :: _) as p) => p ++ [Normal name]
  | _ => [Normal name]
  end.

(** ** [Writer] *)

Record Writer := mkWriter {
  wr_base_path : Path;
  wr_options : WriterOptions;
  wr_sequence : N;
  wr_current_path : Path;
  wr_file : BufWriter;
  wr_offset : N;
  wr_index : list IndexEntry;
  wr_opened_at : N;
  wr_completed_files : list Path;
  wr_finished : bool
}.

Definition set_wfile (x : BufWriter) (r : Writer) : Writer :=
  mkWriter (wr_base_path r) (wr_options r) (wr_sequence r) (wr_current_path r) x (wr_offset r)
    (wr_index r) (wr_opened_at r) (wr_completed_files r) (wr_finished r).
Definition set_offset (x : N) (r : Writer) : Writer :=
  mkWriter (wr_base_path r) (wr_options r) (wr_sequence r) (wr_current_path r) (wr_file r) x
    (wr_index r) (wr_opened_at r) (wr_completed_files r) (wr_finished r).
Definition set_index (x : list IndexEntry) (r : Writer) : Writer :=
  mkWriter (wr_base_path r) (wr_options r) (wr_sequence r) (wr_current_path r) (wr_file r) (wr_offset r)
    x (wr_opened_at r) (wr_completed_files r) (wr_finished r).
Definition set_opened_at (x : N) (r : Writer) : Writer :=
  mkWriter (wr_base_path r) (wr_options r) (wr_sequence r) (wr_current_path r) (wr_file r) (wr_offset r)
    (wr_index r) x (wr_completed_files r) (wr_finished r).
Definition set_completed (x : list Path) (r : Writer) : Writer :=
  mkWriter (wr_base_path r) (wr_options r) (wr_sequence r) (wr_current_path r) (wr_file r) (wr_offset r)
    (wr_index r) (wr_opened_at r) x (wr_finished r).
Definition set_finished (x : bool) (r : Writer) : Writer :=
  mkWriter (wr_base_path r) (wr_options r) (wr_sequence r) (wr_current_path r) (wr_file r) (wr_offset r)
    (wr_index r) (wr_opened_at r) (wr_completed_files r) x.
Definition set_segment (sequence : N) (p : Path) (r : Writer) : Writer :=
  mkWriter (wr_base_path r) (wr_options r) sequence p (wr_file r) (wr_offset r)
    (wr_index r) (wr_opened_at r) (wr_completed_files r) (wr_finished r).

Abbreviation WrM := (stM (World * Writer) RecordingError).

Definition on_world {A} (m : SysM A) : WrM A := λ s,
  let '(w, r) := m s.1 in ((w, s.2), r).
Definition on_file (context : string) (m : BufM unit) : WrM unit := λ s,
  let '((w, b), r) := m (s.1, wr_file s.2) in
  ((w, set_wfile b s.2), map_err (λ _, Io context) r).
Definition the_writer {A} (f : Writer → A) : WrM A := gets (λ s, f s.2).
Definition update (f : Writer → Writer) : WrM unit := modify (λ s, (s.1, f s.2)).

Definition open_for_write (p : Path) : SysM BufWriter :=
  (match parent p with
   | Some (_ :: _) => sys "creating the recording directory"
   | _ => ret tt
   end) ;;
  sys "creating .arec file" ;;
  modify (set_file p []) ;;
  ret (mkBuf p []).

Section recording.
Context (cpu : Cpu) `{OxiArc} `{RecCodec}.

Definition header_write (h : Header) (out : list N) : RecResult (list N) :=
  let out := out ++ FILE_MAGIC ++ to_le_bytes 2 FORMAT_VERSION in
  let? plain := map_err Wire (encode_to_vec h) in
  Ok (write_frame cpu out HEADER_FRAME_TAG plain).

Definition header_read (bytes : list N) : RecResult (Header * N) :=
  if len64 bytes <? PROLOGUE_LEN then Err (TooShort (len64 bytes))
  else
    let? _ := check_prologue (slice 0 PROLOGUE_LEN bytes) in
    let? frame := read_frame cpu (drop (N.to_nat PROLOGUE_LEN) bytes) PROLOGUE_LEN in
    if negb (pf_tag frame =? HEADER_FRAME_TAG)
    then Err (UnknownFrameTag PROLOGUE_LEN (pf_tag frame))
    else
      let? header := map_err (Malformed PROLOGUE_LEN) (decode_exact (T:=Header) (pf_body frame)) in
      Ok (header, PROLOGUE_LEN + pf_consumed frame).

Definition entry_write (e : Entry) (out : list N) : RecResult (list N) :=
  let? plain := map_err Wire (encode_to_vec e) in
  Ok (write_frame cpu out ENTRY_FRAME_TAG plain).

Definition entry_read (bytes : list N) (offset : N) : RecResult (Entry * N) :=
  let? frame := read_frame cpu bytes offset in
  if negb (pf_tag frame =? ENTRY_FRAME_TAG) then Err (UnknownFrameTag offset (pf_tag frame))
  else
    let? entry := map_err (Malformed offset) (decode_exact (T:=Entry) (pf_body frame)) in
    Ok (entry, pf_consumed frame).

Definition footer_write (f : Footer) (out : list N) : RecResult (list N * N * N) :=
  let start := len64 out in
  let? plain := map_err Wire (encode_to_vec f) in
  let out := write_frame cpu out FOOTER_FRAME_TAG plain in
  Ok (out, start, clamp_u32 (len64 out - start)).

Definition footer_read (bytes : list N) (offset : N) : RecResult Footer :=
  let? frame := read_frame cpu bytes offset in
  if negb (pf_tag frame =? FOOTER_FRAME_TAG) then Err (UnknownFrameTag offset (pf_tag frame))
  else map_err (Malformed offset) (decode_exact (T:=Footer) (pf_body frame)).

(** *** Writing *)

Definition write_all (bytes : list N) : WrM unit :=
  on_file "writing an .arec frame" (buf_write_all bytes) ;;
  on_file "flushing an .arec frame" flush_buf ;;
  update (λ r, set_offset (wr_offset r + len64 bytes) r).

Definition header_of (o : WriterOptions) : Header :=
  header_with_manifest_yaml (wo_manifest_yaml o) (header_new (wo_dataflow o) (wo_hlc_epoch o)).

Definition write_header : WrM unit :=
  options <- the_writer wr_options ;;
  buffer <- lift_result (header_write (header_of options) []) ;;
  write_all buffer.

(** The index is taken out of the writer first. *)
Definition finalize_current : WrM unit :=
  index <- the_writer wr_index ;;
  update (set_index []) ;;
  written <- lift_result (footer_write (mkFooter index) []) ;;
  let '(buffer, footer_offset, footer_len) := written in
  offset <- the_writer wr_offset ;;
  write_all (write_trailer cpu buffer (offset + footer_offset) footer_len) ;;
  update (λ r, set_completed (wr_completed_files r ++ [wr_current_path r]) r).

(** The sequence number is a [u32]. *)
Definition rotate : WrM unit :=
  finalize_current ;;
  update (λ r, let sequence := (wr_sequence r + 1) mod 2 ^ 32 in
               set_segment sequence (segment_path (wr_base_path r) sequence) r) ;;
  path <- the_writer wr_current_path ;;
  file <- on_world (open_for_write path) ;;
  update (set_wfile file) ;;
  update (set_offset 0) ;;
  now <- on_world instant_now ;;
  update (set_opened_at now) ;;
  write_header.

Definition append (e : Entry) : WrM unit :=
  offset <- the_writer wr_offset ;;
  let index_entry := index_row offset e in
  buffer <- lift_result (entry_write e []) ;;
  write_all buffer ;;
  update (λ r, set_index (wr_index r ++ [index_entry]) r) ;;
  now <- on_world instant_now ;;
  r <- the_writer (λ r, r) ;;
  if is_exceeded (wo_rotation (wr_options r)) (wr_offset r) (now - wr_opened_at r)
  then rotate else ret tt.

Definition append_parts (node output : str) (meta : Metadata) (payload : list N) : WrM unit :=
  append (mkRecEntry node output meta payload).

Definition finish : WrM (list Path) :=
  finished <- the_writer wr_finished ;;
  (if (finished : bool) then ret tt else finalize_current ;; update (set_finished true)) ;;
  the_writer wr_completed_files.

(** [Drop for Writer], then that of the [BufWriter], which flushes. *)
Definition writer_drop (s : World * Writer) : World :=
  let s := if wr_finished s.2 then s else (finalize_current s).1 in
  (flush_buf (s.1, wr_file s.2)).1.1.

(** A writer whose header cannot be written is dropped. *)
Definition create (path : Path) (options : WriterOptions) : SysM Writer :=
  let current_path :=
    if rotation_enabled (wo_rotation options) then segment_path path 1 else path in
  file <- open_for_write current_path ;;
  now <- instant_now ;;
  λ w,
    let writer := mkWriter path options 1 current_path file 0 [] now [] false in
    match write_header (w, writer) with
    | ((w, writer), Ok _) => (w, Ok writer)
    | (s, Err e) => (writer_drop s, Err e)
    end.

(** ** Recovery *)

Inductive StopReason : Set := EndOfFile | Truncated | FooterFound | Corrupted.

Record RecoveryReport := mkReport {
  rp_header : Header;
  rp_index : list IndexEntry;
  rp_bytes_recovered : N;
  rp_stopped : StopReason;
  rp_scanned : bool
}.

Definition report_clean (h : Header) : RecoveryReport := mkReport h [] 0 FooterFound false.

Definition was_recovered (r : RecoveryReport) : bool := rp_scanned r.

(** The loop: a frame has at least thirteen bytes, so the length of the file
    bounds the number of rounds. *)
Fixpoint scan_loop (fuel : nat) (bytes : list N) (offset : N) (index : list IndexEntry) :
    list IndexEntry * N * StopReason :=
  match fuel with
  | O => (index, offset, EndOfFile)
  | S fuel =>
      if len64 bytes <=? offset then (index, offset, EndOfFile)
      else
        match read_frame cpu (drop (N.to_nat offset) bytes) offset with
        | Err (Incomplete _ _ _) => (index, offset, Truncated)
        | Err _ => (index, offset, Corrupted)
        | Ok frame =>
            if pf_tag frame =? ENTRY_FRAME_TAG then
              match decode_exact (T:=Entry) (pf_body frame) with
              | Ok entry =>
                  scan_loop fuel bytes (offset + pf_consumed frame) (index ++ [index_row offset entry])
              | Err _ => (index, offset, Corrupted)
              end
            else if pf_tag frame =? FOOTER_FRAME_TAG then (index, offset, FooterFound)
            else (index, offset, Corrupted)
        end
  end.

Definition scan_bytes (bytes : list N) : RecResult RecoveryReport :=
  let? read := header_read bytes in
  let '(header, header_len) := read in
  let '(index, offset, stopped) := scan_loop (S (length bytes)) bytes header_len [] in
  Ok (mkReport header index offset stopped true).

(** [std::fs::read] *)
Definition read_file (context : string) (p : Path) : SysM (list N) :=
  sys context ;;
  file <- gets (λ w, files w !! p) ;;
  match file with Some bytes => ret bytes | None => fail (Io context) end.

Definition scan (p : Path) : SysM RecoveryReport :=
  bytes <- read_file "reading file for recovery" p ;;
  lift_result (scan_bytes bytes).

(** ** [Reader] *)

Record Reader := mkReader {
  rd_path : Path;
  rd_file_len : N;
  rd_header : Header;
  rd_index : list IndexEntry
}.

(** [File::open], and the length [File::metadata] reports. *)
Definition open_file (p : Path) : SysM N :=
  bytes <- read_file "opening .arec file" p ;;
  sys "reading .arec file metadata" ;;
  ret (len64 bytes).

(** [seek] to [offset], then [read_exact] of [len] bytes. *)
Definition read_exact (seeking reading : string) (p : Path) (offset len : N) : SysM (list N) :=
  sys seeking ;;
  bytes <- read_file reading p ;;
  if len64 bytes <? offset + len then fail (Io reading)
  else ret (slice offset (offset + len) bytes).

Definition read_exact_at (p : Path) (file_len offset len : N) : SysM (list N) :=
  if (u64_max <? offset + len) || (file_len <? offset + len)
  then fail (IndexOffsetOutOfRange offset file_len)
  else read_exact "seeking" "reading a frame" p offset len.

(** The second [read_exact] goes on where the first one stopped. *)
Definition read_frame_seeking (p : Path) (file_len offset : N) : SysM ParsedFrame :=
  let available := saturating_sub file_len offset in
  if available <? MINI_HEADER_LEN then fail (Incomplete offset MINI_HEADER_LEN available)
  else
    mini <- read_exact "seeking to a frame" "reading a frame header" p offset MINI_HEADER_LEN ;;
    let body_len := from_le_bytes (slice 5 9 mini) in
    let total_len := MINI_HEADER_LEN + body_len + 4 in
    if available <? total_len then fail (Incomplete offset total_len available)
    else
      bytes <- read_file "reading a frame body" p ;;
      if len64 bytes <? offset + total_len then fail (Io "reading a frame body")
      else
        let rest := slice (offset + MINI_HEADER_LEN) (offset + total_len) bytes in
        lift_result (read_frame cpu (mini ++ rest) offset).

Definition read_header_only (p : Path) (file_len : N) : SysM Header :=
  if file_len <? PROLOGUE_LEN then fail (TooShort file_len)
  else
    prologue <- read_exact "seeking to the header" "reading the header prologue" p 0 PROLOGUE_LEN ;;
    lift_result (check_prologue prologue) ;;
    frame <- read_frame_seeking p file_len PROLOGUE_LEN ;;
    if negb (pf_tag frame =? HEADER_FRAME_TAG)
    then fail (UnknownFrameTag PROLOGUE_LEN (pf_tag frame))
    else lift_result (map_err (Malformed PROLOGUE_LEN) (decode_exact (T:=Header) (pf_body frame))).

Definition open (p : Path) : SysM Reader :=
  file_len <- open_file p ;;
  if file_len <? TRAILER_LEN then fail (TooShort file_len)
  else
    tail <- read_exact "seeking to the trailer" "reading the trailer" p (file_len - TRAILER_LEN) TRAILER_LEN ;;
    trailer <- lift_result (read_trailer cpu tail) ;;
    header <- read_header_only p file_len ;;
    footer_bytes <- read_exact_at p file_len (footer_offset trailer) (footer_len trailer) ;;
    footer <- lift_result (footer_read footer_bytes (footer_offset trailer)) ;;
    ret (mkReader p file_len header (ft_entries footer)).

Definition reopen_with (p : Path) (header : Header) (index : list IndexEntry) : SysM Reader :=
  file_len <- open_file p ;;
  ret (mkReader p file_len header index).

Definition open_or_recover (p : Path) : SysM (Reader * RecoveryReport) := λ w,
  match open p w with
  | (w, Ok reader) => (w, Ok (reader, report_clean (rd_header reader)))
  | (w, Err _) =>
      (report <- scan p ;;
       reader <- reopen_with p (rp_header report) (rp_index report) ;;
       ret (reader, report)) w
  end.

Definition read_at (r : Reader) (entry : IndexEntry) : SysM Entry :=
  frame <- read_frame_seeking (rd_path r) (rd_file_len r) (ix_offset entry) ;;
  if negb (pf_tag frame =? ENTRY_FRAME_TAG)
  then fail (UnknownFrameTag (ix_offset entry) (pf_tag frame))
  else lift_result (map_err (Malformed (ix_offset entry)) (decode_exact (T:=Entry) (pf_body frame))).

(** *** Iterating *)

#[global] Instance hlc_key_order : KeyOrder HlcTimestamp.
Proof.
  refine (inj_key_order (λ t, (physical_ns t, logical t))). by intros [] [] [= -> ->].
Defined.

(** What the rows are sorted by. *)
Definition row_key (x : IndexEntry * N) : HlcTimestamp * (str * (str * N)) :=
  (ix_hlc x.1, (ix_node x.1, (ix_output x.1, x.2))).

Definition row_le (x y : IndexEntry * N) : Prop := key_le (row_key x) (row_key y).

#[global] Instance row_le_dec : RelDecision row_le.
Proof. intros x y. apply key_le_dec. Defined.

(** The rows with their positions. *)
Definition enumerate {A} (l : list A) : list (A * N) := imap (λ i x, (x, N.of_nat i)) l.

Definition hlc_order (index : list IndexEntry) (predicate : IndexEntry → bool) : list N :=
  (merge_sort row_le (filter (λ x, predicate x.1 = true) (enumerate index))).*2.

Record EntryIter := mkIter { it_order : list N; it_cursor : nat }.

Definition ts_leb (a b : HlcTimestamp) : bool :=
  match ts_compare a b with Gt => false | _ => true end.

Definition iter_all (r : Reader) : EntryIter :=
  mkIter (hlc_order (rd_index r) (λ _, true)) 0.
Definition iter_time_range (r : Reader) (from to : HlcTimestamp) : EntryIter :=
  mkIter (hlc_order (rd_index r) (λ e, ts_leb from (ix_hlc e) && ts_leb (ix_hlc e) to)) 0.
Definition iter_port (r : Reader) (node output : str) : EntryIter :=
  mkIter (hlc_order (rd_index r) (λ e, bool_decide (ix_node e = node) && bool_decide (ix_output e = output))) 0.

Definition remaining_len (it : EntryIter) : nat := length (it_order it) - it_cursor it.

(** The positions are positions of the index, so the last case does not
    arise. *)
Definition iter_next (r : Reader) (it : EntryIter) (w : World) :
    World * EntryIter * option (RecResult Entry) :=
  match it_order it !! it_cursor it with
  | None => (w, it, None)
  | Some position =>
      let it := mkIter (it_order it) (S (it_cursor it)) in
      match rd_index r !! N.to_nat position with
      | Some target => let '(w, x) := read_at r target w in (w, it, Some x)
      | None => (w, it, None)
      end
  end.

(** [collect::<Result<Vec<_>, _>>()] *)
Fixpoint collect_loop (fuel : nat) (r : Reader) (it : EntryIter) (acc : list Entry) (w : World) :
    World * RecResult (list Entry) :=
  match fuel with
  | O => (w, Ok acc)
  | S fuel =>
      match iter_next r it w with
      | (w, _, None) => (w, Ok acc)
      | (w, _, Some (Err e)) => (w, Err e)
      | (w, it, Some (Ok x)) => collect_loop fuel r it (acc ++ [x]) w
      end
  end.

Definition collect (r : Reader) (it : EntryIter) : SysM (list Entry) :=
  collect_loop (S (remaining_len it)) r it [].

(** ** Merging *)

Record MergeKey := mkMergeKey { mk_source : N; mk_position : N; mk_entry : IndexEntry }.

Definition merge_key (k : MergeKey) : HlcTimestamp * (str * (str * (N * N))) :=
  (ix_hlc (mk_entry k), (ix_node (mk_entry k), (ix_output (mk_entry k), (mk_source k, mk_position k)))).

Definition merge_le (a b : MergeKey) : Prop := key_le (merge_key a) (merge_key b).

#[global] Instance merge_le_dec : RelDecision merge_le.
Proof. intros x y. apply key_le_dec. Defined.

Definition merge_keys (sources : list Reader) : list MergeKey :=
  mjoin ((λ s, (λ p, mkMergeKey s.2 p.2 p.1) <$> enumerate (rd_index s.1)) <$> enumerate sources).

(** The source of a key is one of the sources. *)
Fixpoint merge_loop (sources : list Reader) (keys : list MergeKey) (written : N) : WrM N :=
  match keys with
  | [] => ret written
  | key :: keys =>
      match sources !! N.to_nat (mk_source key) with
      | Some reader =>
          entry <- on_world (read_at reader (mk_entry key)) ;;
          append entry ;;
          merge_loop sources keys (written + 1)
      | None => ret written
      end
  end.

Definition merge (sources : list Reader) : WrM N :=
  merge_loop sources (merge_sort merge_le (merge_keys sources)) 0.

(** ** Statistics *)

Record PortStats := mkPortStats { ps_count : N; ps_payload_bytes : N }.

Record Stats := mkStats {
  s_dataflow : N;
  s_entry_count : N;
  s_file_size_bytes : N;
  s_uncompressed_payload_bytes : N;
  s_hlc_range : option (HlcTimestamp * HlcTimestamp);
  s_ports : gmap (str * str) PortStats
}.

(** [Ord::min] and [Ord::max] *)
Definition ts_min (a b : HlcTimestamp) : HlcTimestamp := if ts_leb a b then a else b.
Definition ts_max (a b : HlcTimestamp) : HlcTimestamp := if ts_leb a b then b else a.

Definition widen (range : option (HlcTimestamp * HlcTimestamp)) (t : HlcTimestamp) :=
  match range with
  | None => (t, t)
  | Some (min, max) => (ts_min min t, ts_max max t)
  end.

(** [ports.entry(..).or_default()], then the two sums. *)
Definition count_entry (ports : gmap (str * str) PortStats) (e : IndexEntry) :=
  let p := default (mkPortStats 0 0) (ports !! (ix_node e, ix_output e)) in
  <[(ix_node e, ix_output e) := mkPortStats (ps_count p + 1) (ps_payload_bytes p + ix_payload_len e)]> ports.

Definition stats_of (r : Reader) (file_size_bytes : N) : Stats :=
  let '(total, range, ports) :=
    foldl (λ acc e, let '(total, range, ports) := acc in
             (total + ix_payload_len e, Some (widen range (ix_hlc e)), count_entry ports e))
      (0, None, ∅) (rd_index r) in
  mkStats (h_dataflow (rd_header r)) (N.of_nat (length (rd_index r))) file_size_bytes total range ports.
End recording.
