(* ===== verification/RecordingLaws.v ===== *)
(** * Recordings: what is recorded is read back

    The theorems about [Recording]: every entry a writer accepted is in
    exactly one of the files it returns and is read back in timestamp order
    ([recording_is_lossless]); a file cut at any byte gives back exactly the
    entries written in full before the cut ([recovery_is_exact]); an append
    that fails loses nothing that was acknowledged
    ([failed_append_keeps_the_rest]); merging appends the entries of all
    sources in one total order ([merge_is_the_sorted_union]); the statistics
    count what is there ([stats_count_the_entries]). *)

From Stdlib Require Import Lia.
From stdpp Require Import base tactics list gmap strings numbers sorting.
From S2P Require Import Prelude Text TimeHlc WireMetadata Crc32c WireFrame Ordered MuxCompress Recording.

Open Scope N_scope.

(** What the recording relies on of the codecs: encodings decode to what was
    encoded, and compressing bytes gives bytes. *)
Class RecCodecLaws `{RecCodec} := {
  rcl_header :: OxicodeLaws Header;
  rcl_entry :: OxicodeLaws Entry;
  rcl_footer :: OxicodeLaws Footer
}.

Class ZstdBytes `{OxiArc} := zstd_bytes p level b :
  Forall is_byte p → zstd_compress_with_level p level = Ok b → Forall is_byte b.

(** ** Slices *)

Lemma len64_app a b : len64 (a ++ b) = len64 a + len64 b.
Proof. unfold len64. rewrite length_app. lia. Qed.

Lemma len64_le k x : len64 (to_le_bytes k x) = N.of_nat k.
Proof. unfold len64. by rewrite length_to_le. Qed.

Lemma len64_take k l : (k ≤ length l)%nat → len64 (take k l) = N.of_nat k.
Proof. intros. unfold len64. rewrite length_take. lia. Qed.

Lemma slice_at a b c from to :
  from = len64 a → to = len64 a + len64 b → slice from to (a ++ b ++ c) = b.
Proof.
  intros -> ->. unfold slice, len64. rewrite Nat2N.id, drop_app_length.
  rewrite take_app_length'; [done|lia].
Qed.

Lemma slice_prefix from to a b : to <= len64 a → slice from to (a ++ b) = slice from to a.
Proof.
  intros Hto. unfold slice, len64 in *.
  destruct (decide (N.to_nat from ≤ length a)%nat) as [Hf|Hf].
  - rewrite drop_app_le by lia. rewrite take_app_le; [done|]. rewrite length_drop. lia.
  - replace (N.to_nat (to - from)) with 0%nat by lia. done.
Qed.

Lemma slice_length from to l : from <= to → to <= len64 l → len64 (slice from to l) = to - from.
Proof.
  intros. unfold slice, len64 in *. rewrite length_take, length_drop. lia.
Qed.

Lemma slice_split from mid to l :
  from <= mid → mid <= to → slice from mid l ++ slice mid to l = slice from to l.
Proof.
  intros H1 H2. unfold slice.
  replace (N.to_nat mid) with (N.to_nat from + N.to_nat (mid - from))%nat by lia.
  rewrite <-drop_drop, take_take_drop. f_equal. lia.
Qed.

Lemma slice_slice a b from to l :
  b <= to - from → slice a b (slice from to l) = slice (from + a) (from + b) l.
Proof.
  intros Hb. unfold slice.
  replace (N.to_nat (from + a)) with (N.to_nat from + N.to_nat a)%nat by lia.
  rewrite <-drop_drop. replace (from + b - (from + a)) with (b - a) by lia.
  destruct (decide (a <= b)) as [Hab|]; [|by replace (N.to_nat (b - a)) with 0%nat by lia].
  rewrite skipn_firstn_comm, take_take. f_equal. lia.
Qed.

(** ** Frames *)

Section frames.
Context (cpu : Cpu) (Hcpu : cpu_ok cpu) `{OxiArcLaws} `{!ZstdBytes}.

Definition frame (tag : N) (plain : list N) : list N := write_frame cpu [] tag plain.

(** The body, compressed or not, has a length the frame can state. *)
Definition body_fits (plain : list N) : Prop :=
  Forall is_byte plain ∧ len64 (compress_for_frame plain).1 <= u32_max.

Lemma write_frame_app out tag plain : write_frame cpu out tag plain = out ++ frame tag plain.
Proof. unfold frame, write_frame. by destruct (compress_for_frame plain). Qed.

Lemma compress_bytes plain : Forall is_byte plain → Forall is_byte (compress_for_frame plain).1.
Proof.
  intros Hp. unfold compress_for_frame.
  destruct (zstd_compress_with_level plain ZSTD_LEVEL) as [c|] eqn:E; [|done].
  destruct (_ <? _); [|done]. by eapply zstd_bytes.
Qed.

Lemma compress_flags plain :
  let '(body, flags) := compress_for_frame plain in
  is_byte flags ∧
  (if negb (N.land flags FLAG_ZSTD =? 0) then map_err Codec (zstd_decompress body) else Ok body) = Ok plain.
Proof.
  unfold compress_for_frame.
  destruct (zstd_compress_with_level plain ZSTD_LEVEL) as [c|] eqn:E; [|by split].
  destruct (_ <? _); [|by split]. split; [done|]. cbn.
  by rewrite (zstd_roundtrip _ _ _ E).
Qed.

Lemma update_state_u32 s data : is_u32 s → buffer data → is_u32 (update_state cpu s data).
Proof.
  intros Hs Hb. rewrite update_state_reference by done. apply reference_u32; [done|apply Hb].
Qed.

Lemma le_buffer k x : N.of_nat k < 2 ^ 64 → buffer (to_le_bytes k x).
Proof. intros. split; [apply to_le_is_byte|by rewrite length_to_le]. Qed.

Lemma frame_crc_u32 tag flags body :
  is_byte flags → Forall is_byte body → len64 body <= u32_max → frame_crc cpu tag flags body < 2 ^ 32.
Proof.
  intros Hf Hb Hl. unfold frame_crc, crc_finalize, crc_update, crc_new. cbn [crc_state].
  apply not32_u32. repeat (apply update_state_u32; [|try by apply le_buffer]); [done|..].
  - split; [by constructor|done].
  - split; [done|]. unfold len64, u32_max in Hl. lia.
Qed.

Lemma trailer_crc_u32 offset len : trailer_crc cpu offset len < 2 ^ 32.
Proof.
  unfold trailer_crc, crc_finalize, crc_update, crc_new. cbn [crc_state].
  apply not32_u32. repeat (apply update_state_u32; [|by apply le_buffer]). done.
Qed.

Lemma len64_frame tag plain :
  len64 (frame tag plain) = FRAME_OVERHEAD + len64 (compress_for_frame plain).1.
Proof.
  unfold frame, write_frame, len64. destruct (compress_for_frame plain) as [body flags]. cbn [app fst].
  rewrite length_app. cbn [length]. rewrite !length_app, !length_to_le. unfold FRAME_OVERHEAD. lia.
Qed.

(** The fields of what [read_frame] is given, when it starts with a frame. *)
Lemma frame_fields tag flags blen body crc rest :
  let l := to_le_bytes 4 tag ++ [flags] ++ to_le_bytes 4 blen ++ body ++ to_le_bytes 4 crc ++ rest in
  slice 0 4 l = to_le_bytes 4 tag ∧ nth 4 l 0 = flags ∧ slice 5 9 l = to_le_bytes 4 blen ∧
  slice 9 (9 + len64 body) l = body ∧ slice (9 + len64 body) (13 + len64 body) l = to_le_bytes 4 crc.
Proof.
  intros l. unfold l. split_and!.
  - apply (slice_at []); [done|by rewrite len64_le].
  - done.
  - rewrite (app_assoc (to_le_bytes 4 tag)). by apply slice_at.
  - rewrite 2!app_assoc. by apply slice_at; rewrite !len64_app, !len64_le.
  - rewrite 3!app_assoc. apply slice_at; rewrite !len64_app, !len64_le; unfold len64; cbn; lia.
Qed.

(** A frame at the front of anything is read back. *)
Lemma read_frame_written tag plain rest offset :
  tag < 2 ^ 32 → body_fits plain →
  read_frame cpu (frame tag plain ++ rest) offset =
    Ok (mkParsed tag plain (len64 (frame tag plain))).
Proof.
  intros Ht [Hp Hl]. pose proof (len64_frame tag plain) as Hlen.
  pose proof (compress_flags plain) as Hc. pose proof (compress_bytes plain Hp) as Hb.
  revert Hlen Hc Hb Hl. unfold frame, write_frame.
  destruct (compress_for_frame plain) as [body flags]. cbn [fst]. intros Hlen [Hf Hd] Hb Hl.
  unfold clamp_u32 in *. rewrite N.min_l in * by done. cbn [app] in *.
  revert Hlen. set (l := to_le_bytes 4 tag ++ _). intros Hlen.
  pose proof (frame_fields tag flags (len64 body) body (frame_crc cpu tag flags body) rest) as F.
  cbn zeta in F.
  assert (l ++ rest = to_le_bytes 4 tag ++ [flags] ++ to_le_bytes 4 (len64 body) ++ body ++
    to_le_bytes 4 (frame_crc cpu tag flags body) ++ rest) as El
    by (unfold l; rewrite <-!app_assoc; cbn [app]; by rewrite <-!app_assoc).
  rewrite <-El in F. destruct F as (F1 & F2 & F3 & F4 & F5).
  unfold read_frame. rewrite F1, F2, F3.
  assert (from_le_bytes (to_le_bytes 4 (len64 body)) = len64 body) as E1
    by (apply from_to_le; unfold u32_max in Hl; lia).
  rewrite E1, (from_to_le 4 tag) by done.
  rewrite len64_app. unfold FRAME_OVERHEAD in *.
  destruct (N.ltb_spec (len64 l + len64 rest) 13); [lia|].
  destruct (N.ltb_spec (len64 l + len64 rest) (13 + len64 body)); [lia|].
  rewrite F4, F5, from_to_le by (by apply frame_crc_u32).
  rewrite N.eqb_refl. cbn [negb]. rewrite Hd. cbn [rbind]. by rewrite Hlen.
Qed.

(** A frame cut short anywhere is incomplete. *)
Lemma read_frame_cut tag plain k offset :
  body_fits plain → (k < length (frame tag plain))%nat →
  ∃ needed, read_frame cpu (take k (frame tag plain)) offset = Err (Incomplete offset needed (N.of_nat k)).
Proof.
  intros [Hp Hl] Hk. unfold read_frame. rewrite len64_take by lia.
  destruct (N.ltb_spec (N.of_nat k) FRAME_OVERHEAD) as [|Hk13]; [by eexists|].
  pose proof (len64_frame tag plain) as Hlen.
  assert (slice 5 9 (take k (frame tag plain)) = to_le_bytes 4 (len64 (compress_for_frame plain).1)) as ->.
  { unfold FRAME_OVERHEAD in *.
    rewrite <-(slice_prefix 5 9 _ (drop k (frame tag plain))) by (rewrite len64_take; lia).
    rewrite take_drop. unfold frame, write_frame.
    destruct (compress_for_frame plain) as [body flags]. cbn [fst] in *.
    unfold clamp_u32. rewrite N.min_l by done. cbn [app].
    pose proof (frame_fields tag flags (len64 body) body (frame_crc cpu tag flags body) []) as F.
    cbn zeta in F. rewrite app_nil_r in F. apply F. }
  rewrite from_to_le by (unfold u32_max in Hl; lia).
  destruct (N.ltb_spec (N.of_nat k) (FRAME_OVERHEAD + len64 (compress_for_frame plain).1)); [by eexists|].
  rewrite <-Hlen in *. unfold len64 in *. lia.
Qed.

(** *** The trailer *)

Definition trailer (offset len : N) : list N := write_trailer cpu [] offset len.

Lemma len64_trailer offset len : len64 (trailer offset len) = TRAILER_LEN.
Proof. unfold trailer, write_trailer. cbn [app]. by rewrite !len64_app, !len64_le. Qed.

Lemma write_trailer_app out offset len : write_trailer cpu out offset len = out ++ trailer offset len.
Proof. done. Qed.

Lemma read_trailer_written offset len :
  offset <= u64_max → len <= u32_max → read_trailer cpu (trailer offset len) = Ok (mkTrailer offset len).
Proof.
  intros Ho Hl. unfold read_trailer. rewrite len64_trailer, N.eqb_refl. cbn [negb orb].
  unfold trailer, write_trailer. cbn [app].
  set (t := trailer_crc cpu offset len).
  assert (slice 8 16 (TRAILER_MAGIC ++ to_le_bytes 8 offset ++ to_le_bytes 4 len ++ to_le_bytes 4 t)
    = to_le_bytes 8 offset) as -> by (by apply slice_at; rewrite ?len64_le).
  assert (slice 16 20 (TRAILER_MAGIC ++ to_le_bytes 8 offset ++ to_le_bytes 4 len ++ to_le_bytes 4 t)
    = to_le_bytes 4 len) as ->
    by (rewrite (app_assoc TRAILER_MAGIC); by apply slice_at; rewrite ?len64_app, ?len64_le).
  assert (slice 20 24 (TRAILER_MAGIC ++ to_le_bytes 8 offset ++ to_le_bytes 4 len ++ to_le_bytes 4 t)
    = to_le_bytes 4 t) as ->.
  { rewrite 2!(app_assoc _ (to_le_bytes _ _)). rewrite <-(app_nil_r (to_le_bytes 4 t)) at 1.
    by apply slice_at; rewrite ?len64_app, ?len64_le. }
  rewrite take_app_length' by done. rewrite bool_decide_true by done. cbn [negb].
  assert (from_le_bytes (to_le_bytes 8 offset) = offset) as -> by (apply from_to_le; unfold u64_max in Ho; lia).
  assert (from_le_bytes (to_le_bytes 4 len) = len) as -> by (apply from_to_le; unfold u32_max in Hl; lia).
  fold t. rewrite from_to_le by apply trailer_crc_u32. by rewrite N.eqb_refl.
Qed.
End frames.

(** ** The bytes of a recording *)

(** The rows of entries laid out from an offset on. *)
Definition plain_of {T} `{Oxicode T} (v : T) : list N :=
  match encode_to_vec v with Ok bytes => bytes | Err _ => [] end.

Section layout.
Context (cpu : Cpu) `{OxiArc} `{RecCodec}.

Definition entry_bytes (e : Entry) : list N := frame cpu ENTRY_FRAME_TAG (plain_of e).
Definition entries_bytes (es : list Entry) : list N := mjoin (entry_bytes <$> es).
Definition header_bytes (h : Header) : list N :=
  FILE_MAGIC ++ to_le_bytes 2 FORMAT_VERSION ++ frame cpu HEADER_FRAME_TAG (plain_of h).

Fixpoint rows (offset : N) (es : list Entry) : list IndexEntry :=
  match es with
  | [] => []
  | e :: es => index_row offset e :: rows (offset + len64 (entry_bytes e)) es
  end.

Definition footer_bytes (index : list IndexEntry) : list N :=
  frame cpu FOOTER_FRAME_TAG (plain_of (mkFooter index)).

(** A file being recorded, and a finished one. *)
Definition open_bytes (h : Header) (es : list Entry) : list N := header_bytes h ++ entries_bytes es.

Definition closing_bytes (h : Header) (es : list Entry) : list N :=
  let footer := footer_bytes (rows (len64 (header_bytes h)) es) in
  footer ++ trailer cpu (len64 (open_bytes h es)) (len64 footer).

Definition recording_bytes (h : Header) (es : list Entry) : list N :=
  open_bytes h es ++ closing_bytes h es.

(** A value that can be encoded, in a frame that can state its length. *)
Definition encodable {T} `{Oxicode T} (v : T) : Prop :=
  ∃ plain, encode_to_vec v = Ok plain ∧ len64 (compress_for_frame plain).1 <= u32_max.

(** What a file needs of its header and entries: that they, and the index,
    can be encoded, and that the file stays within 64-bit offsets. *)
Definition recordable (h : Header) (es : list Entry) : Prop :=
  encodable h ∧ Forall encodable es ∧
  encodable (mkFooter (rows (len64 (header_bytes h)) es)) ∧
  len64 (footer_bytes (rows (len64 (header_bytes h)) es)) <= u32_max ∧
  len64 (recording_bytes h es) <= u64_max.

(** The entries whose frames end at or before [k]. *)
Fixpoint survivors (k offset : N) (es : list Entry) : list Entry :=
  match es with
  | [] => []
  | e :: es =>
      let next := offset + len64 (entry_bytes e) in
      if next <=? k then e :: survivors k next es else []
  end.

Lemma entries_bytes_app a b : entries_bytes (a ++ b) = entries_bytes a ++ entries_bytes b.
Proof. unfold entries_bytes. by rewrite fmap_app, join_app. Qed.

Lemma entries_bytes_cons e es : entries_bytes (e :: es) = entry_bytes e ++ entries_bytes es.
Proof. done. Qed.

Lemma rows_app offset a b :
  rows offset (a ++ b) = rows offset a ++ rows (offset + len64 (entries_bytes a)) b.
Proof.
  revert offset. induction a as [|e a IH]; intros offset; cbn [rows app].
  - cbn. by rewrite N.add_0_r.
  - rewrite IH, entries_bytes_cons, len64_app. do 3 f_equal. lia.
Qed.

(** Every row is where its entry is. *)
Lemma rows_spec pre es post :
  Forall2 (λ row e, ∃ a b, pre ++ entries_bytes es ++ post = a ++ entry_bytes e ++ b ∧
                           row = index_row (len64 a) e) (rows (len64 pre) es) es.
Proof.
  revert pre. induction es as [|e es IH]; intros pre; cbn [rows]; constructor.
  - exists pre, (entries_bytes es ++ post). split; [|done]. by rewrite entries_bytes_cons, <-app_assoc.
  - specialize (IH (pre ++ entry_bytes e)). rewrite len64_app in IH.
    eapply Forall2_impl; [exact IH|]. intros row e' (a & b & E & ->).
    exists a, b. split; [|done]. rewrite <-E, entries_bytes_cons. by rewrite <-!app_assoc.
Qed.

Lemma length_frame_pos tag plain : (0 < length (frame cpu tag plain))%nat.
Proof. pose proof (len64_frame cpu tag plain). unfold len64, FRAME_OVERHEAD in *. lia. Qed.

(** Where a cut falls among the entries. *)
Lemma cut_entries k es tail :
  ∀ pre, (length pre ≤ k)%nat →
  let kept := survivors (N.of_nat k) (len64 pre) es in
  (kept = es ∧ (length (pre ++ entries_bytes es) ≤ k)%nat ∧
   take k (pre ++ entries_bytes es ++ tail) =
     pre ++ entries_bytes kept ++ take (k - length (pre ++ entries_bytes es)) tail) ∨
  (∃ e rest j, es = kept ++ e :: rest ∧ (j < length (entry_bytes e))%nat ∧
   k = (length (pre ++ entries_bytes kept) + j)%nat ∧
   take k (pre ++ entries_bytes es ++ tail) = pre ++ entries_bytes kept ++ take j (entry_bytes e)).
Proof.
  induction es as [|e es IH]; intros pre Hk; cbn [survivors].
  - left. split_and!; [done|by rewrite app_nil_r|]. cbn. rewrite app_nil_r, take_app_ge by done. done.
  - rewrite entries_bytes_cons. destruct (N.leb_spec (len64 pre + len64 (entry_bytes e)) (N.of_nat k)) as [Hn|Hn].
    + specialize (IH (pre ++ entry_bytes e)). rewrite len64_app in IH.
      destruct IH as [(E & Hl & Et)|(e' & rest & j & E & Hj & Ek & Et)].
      * rewrite length_app. unfold len64 in Hn. lia.
      * left. cbn zeta. rewrite entries_bytes_cons. split_and!; [by f_equal| |].
        -- by rewrite app_assoc.
        -- rewrite <-!app_assoc in *. exact Et.
      * right. exists e', rest, j. cbn zeta. rewrite entries_bytes_cons. split_and!; [cbn [app]; by f_equal|done| |].
        -- rewrite Ek at 1. by rewrite <-app_assoc.
        -- rewrite <-!app_assoc in *. exact Et.
    + right. unfold len64 in Hn.
      exists e, es, (k - length pre)%nat. cbn zeta. split_and!; [done|lia| |].
      * cbn. rewrite app_nil_r. lia.
      * rewrite take_app_ge by done. f_equal. rewrite <-app_assoc, take_app_le by lia. done.
Qed.

Lemma survivors_Forall (P : Entry → Prop) k offset es : Forall P es → Forall P (survivors k offset es).
Proof.
  intros Hp. revert offset. induction Hp as [|e es He _ IH]; intros offset; cbn [survivors]; [done|].
  destruct (_ <=? _); [|done]. by constructor.
Qed.
End layout.

(** ** Scanning *)

Section scanning.
Context (cpu : Cpu) (Hcpu : cpu_ok cpu) `{OxiArcLaws} `{!ZstdBytes} `{RecCodecLaws}.

Lemma encodable_plain {T} `{OxicodeLaws T} (v : T) :
  encodable v →
  encode_to_vec v = Ok (plain_of v) ∧ body_fits (plain_of v) ∧ decode_exact (plain_of v) = Ok v.
Proof.
  intros (plain & E & Hl). unfold plain_of. rewrite E. split_and!; [done|split; [|done]|].
  - apply encode_to_vec_ok in E. pose proof (ox_bytes v) as Hb. by rewrite E in Hb.
  - by apply decode_exact_encode, encode_to_vec_ok.
Qed.

Lemma read_entry_frame e rest offset :
  encodable e →
  read_frame cpu (entry_bytes cpu e ++ rest) offset =
    Ok (mkParsed ENTRY_FRAME_TAG (plain_of e) (len64 (entry_bytes cpu e))).
Proof. intros (_ & Hb & _)%encodable_plain. by apply read_frame_written. Qed.

(** The scan walks over complete entries. *)
Lemma scan_loop_entries es tail :
  Forall encodable es → ∀ pre fuel acc, (length es < fuel)%nat →
  scan_loop cpu fuel (pre ++ entries_bytes cpu es ++ tail) (len64 pre) acc =
  scan_loop cpu (fuel - length es) (pre ++ entries_bytes cpu es ++ tail)
    (len64 (pre ++ entries_bytes cpu es)) (acc ++ rows cpu (len64 pre) es).
Proof.
  induction 1 as [|e es He _ IH]; intros pre fuel acc Hf.
  - change (entries_bytes cpu []) with (@nil N). cbn [length rows].
    by rewrite Nat.sub_0_r, !app_nil_r.
  - destruct fuel as [|fuel]; [cbn in Hf; lia|]. rewrite entries_bytes_cons. cbn [scan_loop rows].
    pose proof (length_frame_pos cpu ENTRY_FRAME_TAG (plain_of e)) as Hpos. fold (entry_bytes cpu e) in Hpos.
    destruct (N.leb_spec (len64 (pre ++ (entry_bytes cpu e ++ entries_bytes cpu es) ++ tail)) (len64 pre)) as [Hl|_].
    { unfold len64 in Hl. rewrite !length_app in Hl. lia. }
    unfold len64 at 1. rewrite Nat2N.id, drop_app_length, <-(app_assoc (entry_bytes cpu e)).
    rewrite read_entry_frame by done. cbn [pf_tag pf_body pf_consumed]. rewrite N.eqb_refl.
    apply encodable_plain in He as (_ & _ & ->).
    specialize (IH (pre ++ entry_bytes cpu e) fuel (acc ++ [index_row (len64 pre) e])).
    rewrite len64_app in IH. rewrite <-!app_assoc in IH. cbn [length Nat.sub] in *.
    cbn [app] in IH. rewrite IH by lia. done.
Qed.

(** It stops at the end, inside a frame cut short, or at the footer. *)
Lemma scan_loop_end fuel pre acc : scan_loop cpu (S fuel) pre (len64 pre) acc = (acc, len64 pre, EndOfFile).
Proof. cbn [scan_loop]. by rewrite N.leb_refl. Qed.

Lemma scan_loop_cut fuel pre tag plain j acc :
  body_fits plain → (0 < j)%nat → (j < length (frame cpu tag plain))%nat →
  scan_loop cpu (S fuel) (pre ++ take j (frame cpu tag plain)) (len64 pre) acc = (acc, len64 pre, Truncated).
Proof.
  intros Hb Hj Hl. cbn [scan_loop]. rewrite len64_app, len64_take by lia.
  destruct (N.leb_spec (len64 pre + N.of_nat j) (len64 pre)); [lia|].
  unfold len64 at 1. rewrite Nat2N.id, drop_app_length.
  by destruct (read_frame_cut cpu tag plain j (len64 pre) Hb Hl) as (needed & ->).
Qed.

Lemma scan_loop_footer fuel pre index rest acc :
  encodable (mkFooter index) →
  scan_loop cpu (S fuel) (pre ++ footer_bytes cpu index ++ rest) (len64 pre) acc =
    (acc, len64 pre, FooterFound).
Proof.
  intros (_ & Hb & _)%encodable_plain. cbn [scan_loop].
  pose proof (length_frame_pos cpu FOOTER_FRAME_TAG (plain_of (mkFooter index))) as Hpos.
  destruct (N.leb_spec (len64 (pre ++ footer_bytes cpu index ++ rest)) (len64 pre)) as [Hl|_].
  { unfold footer_bytes, len64 in Hl. rewrite !length_app in Hl. lia. }
  unfold len64 at 1. rewrite Nat2N.id, drop_app_length. unfold footer_bytes.
  rewrite read_frame_written by done. done.
Qed.

Lemma header_read_written h rest :
  encodable h → header_read cpu (header_bytes cpu h ++ rest) = Ok (h, len64 (header_bytes cpu h)).
Proof.
  intros (_ & Hb & Hd)%encodable_plain. unfold header_read, header_bytes.
  set (f := frame cpu HEADER_FRAME_TAG (plain_of h)).
  assert (len64 (FILE_MAGIC ++ to_le_bytes 2 FORMAT_VERSION ++ f) = PROLOGUE_LEN + len64 f) as El
    by (by rewrite (app_assoc FILE_MAGIC), len64_app).
  rewrite len64_app, El. destruct (N.ltb_spec (PROLOGUE_LEN + len64 f + len64 rest) PROLOGUE_LEN); [lia|].
  rewrite <-!app_assoc, (app_assoc FILE_MAGIC).
  assert (slice 0 PROLOGUE_LEN ((FILE_MAGIC ++ to_le_bytes 2 FORMAT_VERSION) ++ f ++ rest) =
    FILE_MAGIC ++ to_le_bytes 2 FORMAT_VERSION) as -> by (by apply (slice_at [])).
  change (check_prologue (FILE_MAGIC ++ to_le_bytes 2 FORMAT_VERSION)) with (@Ok RecordingError unit tt).
  cbn [rbind]. rewrite drop_app_length' by done. unfold f. rewrite read_frame_written by done.
  cbn [rbind pf_tag pf_body pf_consumed]. rewrite N.eqb_refl. cbn [negb].
  by rewrite Hd.
Qed.

Lemma header_read_cut h k :
  encodable h → (k < length (header_bytes cpu h))%nat →
  ∃ e, header_read cpu (take k (header_bytes cpu h)) = Err e.
Proof.
  intros (_ & Hb & _)%encodable_plain Hk. unfold header_read. rewrite len64_take by lia.
  destruct (N.ltb_spec (N.of_nat k) PROLOGUE_LEN) as [|Hp]; [by eexists|].
  unfold PROLOGUE_LEN in Hp. destruct (check_prologue _) as [[]|]; [|by eexists]. cbn [rbind].
  unfold header_bytes in *. rewrite (app_assoc FILE_MAGIC) in *.
  change (N.to_nat PROLOGUE_LEN) with (length (FILE_MAGIC ++ to_le_bytes 2 FORMAT_VERSION)).
  rewrite take_app_ge by (cbn; lia). rewrite drop_app_length.
  rewrite length_app in Hk.
  destruct (read_frame_cut cpu HEADER_FRAME_TAG (plain_of h)
    (k - length (FILE_MAGIC ++ to_le_bytes 2 FORMAT_VERSION)) PROLOGUE_LEN Hb) as (needed & ->).
  { cbn [length app FILE_MAGIC to_le_bytes] in *. lia. }
  by eexists.
Qed.

Lemma recording_split h es :
  recording_bytes cpu h es = header_bytes cpu h ++ entries_bytes cpu es ++ closing_bytes cpu h es.
Proof. unfold recording_bytes, open_bytes. by rewrite <-app_assoc. Qed.

(** Where the scan ends after the complete entries. *)
Lemma scan_stop fuel pre h es j acc :
  recordable cpu h es →
  scan_loop cpu (S fuel) (pre ++ take j (closing_bytes cpu h es)) (len64 pre) acc =
    (acc, len64 pre,
     if Nat.eqb j 0 then EndOfFile
     else if len64 (footer_bytes cpu (rows cpu (len64 (header_bytes cpu h)) es)) <=? N.of_nat j
     then FooterFound else Truncated).
Proof.
  intros (_ & _ & Hf & _ & _). unfold closing_bytes. cbn zeta.
  set (index := rows cpu (len64 (header_bytes cpu h)) es) in *.
  destruct (Nat.eqb_spec j 0) as [->|Hj].
  { rewrite take_0, app_nil_r. apply scan_loop_end. }
  destruct (N.leb_spec (len64 (footer_bytes cpu index)) (N.of_nat j)) as [Hl|Hl]; unfold len64 in Hl.
  - rewrite take_app_ge by lia. by apply scan_loop_footer.
  - rewrite take_app_le by lia. apply encodable_plain in Hf as (_ & Hb & _).
    apply scan_loop_cut; [done|lia|]. unfold footer_bytes in Hl. lia.
Qed.

Lemma entries_bytes_length es : (length es ≤ length (entries_bytes cpu es))%nat.
Proof.
  induction es as [|e es IH]; [done|]. rewrite entries_bytes_cons, length_app. cbn [length].
  pose proof (length_frame_pos cpu ENTRY_FRAME_TAG (plain_of e)). unfold entry_bytes. lia.
Qed.

(** After the header and the complete entries, some fuel is left. *)
Lemma scan_bytes_entries h es tail :
  encodable h → Forall encodable es →
  ∃ fuel, scan_bytes cpu (header_bytes cpu h ++ entries_bytes cpu es ++ tail) =
    let '(index, offset, stopped) :=
      scan_loop cpu (S fuel) ((header_bytes cpu h ++ entries_bytes cpu es) ++ tail)
        (len64 (header_bytes cpu h ++ entries_bytes cpu es)) (rows cpu (len64 (header_bytes cpu h)) es) in
    Ok (mkReport h index offset stopped true).
Proof.
  intros Hh Hes. unfold scan_bytes. rewrite header_read_written by done. cbn [rbind].
  set (bytes := header_bytes cpu h ++ entries_bytes cpu es ++ tail).
  assert (length es ≤ length bytes)%nat as Hl.
  { unfold bytes. rewrite !length_app. pose proof (entries_bytes_length es). lia. }
  exists (length bytes - length es)%nat. unfold bytes at 2.
  rewrite scan_loop_entries by (done || lia). cbn [app].
  rewrite <-Nat.sub_succ_l by done. by rewrite <-app_assoc.
Qed.

(** The recovery contract: a recording cut at any byte. *)
Lemma scan_truncated h es k :
  recordable cpu h es →
  let start := len64 (header_bytes cpu h) in
  let kept := survivors cpu (N.of_nat k) start es in
  let got := start + len64 (entries_bytes cpu kept) in
  let footer_end := start + len64 (entries_bytes cpu es) + len64 (footer_bytes cpu (rows cpu start es)) in
  start <= N.of_nat k →
  scan_bytes cpu (take k (recording_bytes cpu h es)) =
    Ok (mkReport h (rows cpu start kept) got
          (if N.of_nat k =? got then EndOfFile
           else if footer_end <=? N.of_nat k then FooterFound else Truncated) true).
Proof.
  intros Hr start kept got footer_end Hk. pose proof Hr as (Hh & Hes & _).
  assert (Forall encodable kept) as Hkept by (by apply survivors_Forall).
  assert (length (header_bytes cpu h) ≤ k)%nat as Hk' by (unfold start, len64 in Hk; lia).
  rewrite recording_split.
  pose proof (cut_entries cpu k es (closing_bytes cpu h es) (header_bytes cpu h) Hk') as Hcut.
  cbn zeta in Hcut. fold start kept in Hcut.
  assert (len64 (header_bytes cpu h ++ entries_bytes cpu kept) = got) as Egot by apply len64_app.
  destruct Hcut as [(E & Hl & ->)|(e & rest & j & E & Hj & Ek & ->)].
  - set (j := (k - length (header_bytes cpu h ++ entries_bytes cpu es))%nat) in *.
    destruct (scan_bytes_entries h kept (take j (closing_bytes cpu h es)) Hh Hkept) as [fuel ->].
    rewrite scan_stop, Egot by done. fold start. unfold footer_end. rewrite <-E. fold got.
    assert (N.of_nat k = got + N.of_nat j) as Ek by (rewrite <-Egot, E; unfold len64, j; lia).
    rewrite Ek. do 2 f_equal.
    destruct (Nat.eqb_spec j 0), (N.eqb_spec (got + N.of_nat j) got); try done; [lia..|].
    destruct (N.leb_spec (len64 (footer_bytes cpu (rows cpu start kept))) (N.of_nat j)),
      (N.leb_spec (got + len64 (footer_bytes cpu (rows cpu start kept))) (got + N.of_nat j)); (done || lia).
  - destruct (scan_bytes_entries h kept (take j (entry_bytes cpu e)) Hh Hkept) as [fuel ->].
    rewrite Egot. fold start.
    assert (N.of_nat k = got + N.of_nat j) as Ek' by (rewrite Ek, <-Egot; unfold len64; lia).
    assert (len64 (entries_bytes cpu es) = len64 (entries_bytes cpu kept) + len64 (entry_bytes cpu e ++ entries_bytes cpu rest)) as Ees.
    { rewrite E at 1. rewrite entries_bytes_app, entries_bytes_cons. by rewrite len64_app. }
    rewrite len64_app in Ees. unfold len64 at 3 in Ees.
    destruct (N.leb_spec footer_end (N.of_nat k)) as [Hfe|_]; [unfold footer_end, got in *; lia|].
    rewrite <-Egot. destruct (N.eqb_spec (N.of_nat k) (len64 (header_bytes cpu h ++ entries_bytes cpu kept))) as [E0|E0].
    + assert (j = 0)%nat as -> by lia. rewrite take_0, app_nil_r, scan_loop_end. done.
    + assert (encodable e) as He by (rewrite E in Hes; by apply Forall_app in Hes as [_ ?%Forall_cons_1%proj1]).
      apply encodable_plain in He as (_ & Hb & _).
      unfold entry_bytes in *. rewrite scan_loop_cut by (done || lia). done.
Qed.

Lemma scan_headless h es k :
  recordable cpu h es → (k < length (header_bytes cpu h))%nat →
  ∃ e, scan_bytes cpu (take k (recording_bytes cpu h es)) = Err e.
Proof.
  intros (Hh & _) Hk. rewrite recording_split, take_app_le by lia.
  unfold scan_bytes. destruct (header_read_cut h k Hh Hk) as [e ->]. by exists e.
Qed.
End scanning.

(** ** Reading *)

(** No system call fails, and the file at [p] holds [bytes]. *)
Definition holds (w : World) (p : Path) (bytes : list N) : Prop :=
  faults w = [] ∧ files w !! p = Some bytes.

Section reading.
Context (cpu : Cpu) (Hcpu : cpu_ok cpu) `{OxiArcLaws} `{!ZstdBytes} `{RecCodecLaws}.

Lemma sys_calm context w : faults w = [] → sys context w = (w, Ok tt).
Proof. intros E. unfold sys, next_fault. by rewrite E. Qed.

Lemma read_file_calm context p bytes w : holds w p bytes → read_file context p w = (w, Ok bytes).
Proof.
  intros [Hf Hp]. unfold read_file. rewrite sbind_eq, sys_calm by done. cbn.
  unfold sbind, gets. by rewrite Hp.
Qed.

Lemma open_file_calm p bytes w : holds w p bytes → open_file p w = (w, Ok (len64 bytes)).
Proof.
  intros Hw. unfold open_file. rewrite sbind_eq, (read_file_calm _ _ bytes) by done.
  rewrite sbind_eq, sys_calm by apply Hw. done.
Qed.

Lemma read_exact_calm seeking reading p bytes offset len w :
  holds w p bytes → offset + len <= len64 bytes →
  read_exact seeking reading p offset len w = (w, Ok (slice offset (offset + len) bytes)).
Proof.
  intros Hw Hl. unfold read_exact. rewrite sbind_eq, sys_calm by apply Hw.
  rewrite sbind_eq, (read_file_calm _ _ bytes) by done.
  destruct (N.ltb_spec (len64 bytes) (offset + len)); [lia|done].
Qed.

(** Reading a frame by seeking is reading it from the bytes. *)
Lemma read_frame_seeking_written p pre tag plain post w :
  tag < 2 ^ 32 → body_fits plain →
  let bytes := pre ++ frame cpu tag plain ++ post in
  holds w p bytes →
  read_frame_seeking cpu p (len64 bytes) (len64 pre) w =
    (w, Ok (mkParsed tag plain (len64 (frame cpu tag plain)))).
Proof.
  intros Ht Hb bytes Hw. pose proof Hb as [_ Hl]. pose proof (len64_frame cpu tag plain) as Hlen.
  assert (len64 bytes = len64 pre + len64 (frame cpu tag plain) + len64 post) as El
    by (unfold bytes; rewrite !len64_app; lia).
  unfold FRAME_OVERHEAD in Hlen. unfold read_frame_seeking, saturating_sub, MINI_HEADER_LEN.
  destruct (N.ltb_spec (len64 bytes - len64 pre) 9); [lia|].
  rewrite sbind_eq, (read_exact_calm _ _ _ bytes) by (done || lia).
  rewrite slice_slice by lia.
  assert (slice (len64 pre + 5) (len64 pre + 9) bytes =
    to_le_bytes 4 (len64 (compress_for_frame plain).1)) as ->.
  { unfold bytes, frame, write_frame, clamp_u32. destruct (compress_for_frame plain) as [body flags].
    cbn [fst] in *. rewrite N.min_l by done. cbn [app]. rewrite <-!app_assoc. cbn [app].
    rewrite <-!app_assoc, (app_assoc pre), (cons_middle flags), (app_assoc (pre ++ _)).
    apply slice_at; rewrite !len64_app, !len64_le; change (len64 [flags]) with 1; lia. }
  rewrite from_to_le by (unfold u32_max in Hl; lia).
  set (n := len64 (compress_for_frame plain).1) in *.
  destruct (N.ltb_spec (len64 bytes - len64 pre) (9 + n + 4)); [lia|].
  rewrite sbind_eq, (read_file_calm _ _ bytes) by done.
  destruct (N.ltb_spec (len64 bytes) (len64 pre + (9 + n + 4))); [lia|].
  rewrite slice_split by lia.
  assert (slice (len64 pre) (len64 pre + (9 + n + 4)) bytes = frame cpu tag plain) as ->
    by (unfold bytes; apply slice_at; lia).
  unfold lift_result. rewrite <-(app_nil_r (frame cpu tag plain)) at 1.
  by rewrite read_frame_written.
Qed.

Lemma read_header_written p h rest w :
  encodable h → let bytes := header_bytes cpu h ++ rest in
  holds w p bytes → read_header_only cpu p (len64 bytes) w = (w, Ok h).
Proof.
  intros (_ & Hb & Hd)%encodable_plain bytes Hw. unfold read_header_only.
  set (pre := FILE_MAGIC ++ to_le_bytes 2 FORMAT_VERSION).
  assert (bytes = pre ++ frame cpu HEADER_FRAME_TAG (plain_of h) ++ rest) as E
    by (unfold bytes, header_bytes, pre; by rewrite <-!app_assoc).
  assert (PROLOGUE_LEN <= len64 bytes) as Hl
    by (rewrite E, len64_app; change (len64 pre) with PROLOGUE_LEN; lia).
  destruct (N.ltb_spec (len64 bytes) PROLOGUE_LEN); [lia|].
  rewrite sbind_eq, (read_exact_calm _ _ _ bytes) by done.
  assert (slice 0 (0 + PROLOGUE_LEN) bytes = pre) as -> by (rewrite E; by apply (slice_at [])).
  rewrite sbind_eq. change (check_prologue pre) with (@Ok RecordingError unit tt).
  unfold lift_result at 1. cbn iota beta. change PROLOGUE_LEN with (len64 pre) at 1.
  rewrite E in *. rewrite sbind_eq, read_frame_seeking_written by done.
  cbn [pf_tag pf_body]. rewrite N.eqb_refl. cbn [negb]. unfold lift_result. by rewrite Hd.
Qed.

(** A finished recording opens by its trailer. *)
Lemma open_written p h es w :
  recordable cpu h es → holds w p (recording_bytes cpu h es) →
  open cpu p w =
    (w, Ok (mkReader p (len64 (recording_bytes cpu h es)) h (rows cpu (len64 (header_bytes cpu h)) es))).
Proof.
  intros (Hh & Hes & Hf & Hfl & Hsize) Hw. set (bytes := recording_bytes cpu h es) in *.
  set (index := rows cpu (len64 (header_bytes cpu h)) es) in *.
  set (footer := footer_bytes cpu index) in *.
  assert (bytes = open_bytes cpu h es ++ footer ++ trailer cpu (len64 (open_bytes cpu h es)) (len64 footer)) as E by done.
  assert (len64 bytes = len64 (open_bytes cpu h es) + len64 footer + TRAILER_LEN) as El
    by (rewrite E, !len64_app, len64_trailer; lia).
  unfold open. rewrite sbind_eq, (open_file_calm _ bytes) by done.
  destruct (N.ltb_spec (len64 bytes) TRAILER_LEN); [lia|].
  rewrite sbind_eq, (read_exact_calm _ _ _ bytes) by (done || lia).
  assert (slice (len64 bytes - TRAILER_LEN) (len64 bytes - TRAILER_LEN + TRAILER_LEN) bytes =
    trailer cpu (len64 (open_bytes cpu h es)) (len64 footer)) as ->.
  { rewrite E at 3. rewrite app_assoc, <-(app_nil_r (trailer _ _ _)) at 1.
    apply slice_at; rewrite len64_app, ?len64_trailer; lia. }
  rewrite sbind_eq. unfold lift_result at 1. rewrite read_trailer_written by (done || lia).
  cbn iota beta. rewrite sbind_eq.
  assert (bytes = header_bytes cpu h ++ entries_bytes cpu es ++ closing_bytes cpu h es) as E2
    by apply recording_split.
  rewrite E2 at 1. rewrite read_header_written; [|done|by rewrite <-E2].
  cbn [footer_offset footer_len]. rewrite sbind_eq. unfold read_exact_at.
  destruct (N.ltb_spec u64_max (len64 (open_bytes cpu h es) + len64 footer)); [lia|].
  destruct (N.ltb_spec (len64 bytes) (len64 (open_bytes cpu h es) + len64 footer)); [lia|]. cbn [orb].
  rewrite (read_exact_calm _ _ _ bytes) by (done || lia).
  assert (slice (len64 (open_bytes cpu h es)) (len64 (open_bytes cpu h es) + len64 footer) bytes = footer) as ->
    by (rewrite E; by apply slice_at).
  rewrite sbind_eq. unfold lift_result, footer_read.
  apply encodable_plain in Hf as (_ & Hb & Hd).
  rewrite <-(app_nil_r footer) at 1. unfold footer, footer_bytes.
  rewrite read_frame_written by done. cbn [rbind pf_tag pf_body].
  rewrite N.eqb_refl. cbn [negb]. by rewrite Hd.
Qed.

(** Every row of a file leads to its entry. *)
Definition reads (r : Reader) (w : World) (row : IndexEntry) (e : Entry) : Prop :=
  (∃ offset, row = index_row offset e) ∧ read_at cpu r row w = (w, Ok e).

Lemma rows_read pre es post r w :
  let bytes := pre ++ entries_bytes cpu es ++ post in
  holds w (rd_path r) bytes → rd_file_len r = len64 bytes → Forall encodable es →
  Forall2 (reads r w) (rows cpu (len64 pre) es) es.
Proof.
  intros bytes Hw Hlen Hes. pose proof (rows_spec cpu pre es post) as Hrows. fold bytes in Hrows.
  apply Forall2_same_length_lookup in Hrows as [Hl Hrows].
  apply Forall2_same_length_lookup. split; [done|]. intros i row e Hr He.
  destruct (Hrows i row e Hr He) as (a & b & E & ->). split; [by eexists|].
  apply (Forall_lookup_1 _ _ _ _ Hes), encodable_plain in He as (_ & Hb & Hd).
  unfold read_at. cbn [ix_offset index_row]. rewrite Hlen. unfold entry_bytes in E. rewrite E in *.
  rewrite sbind_eq, read_frame_seeking_written by done. cbn [pf_tag pf_body].
  rewrite N.eqb_refl. cbn [negb]. unfold lift_result. by rewrite Hd.
Qed.
End reading.

(** ** Iterating *)

(** The order of entries: by timestamp, then producer. *)
Definition entry_key (e : Entry) : HlcTimestamp * (str * str) := (entry_hlc e, (en_node e, en_output e)).
Definition entry_le (a b : Entry) : Prop := key_le (entry_key a) (entry_key b).

Lemma key_weaken {A B C K} `{EqDecision A, EqDecision B, EqDecision C, !KeyOrder A, !KeyOrder B, !KeyOrder C, !KeyOrder K}
    (a a' : A) (b b' : B) (c c' : C) (k k' : K) :
  key_le (a, (b, (c, k))) (a', (b', (c', k'))) → key_le (a, (b, c)) (a', (b', c')).
Proof.
  intros [Ha|[Ea [Hb|[Eb [Hc|[Ec Hk]]]]]]; cbn in *; subst.
  - by left.
  - right. split; [done|]. by left.
  - right. split; [done|]. right. split; [done|]. apply Hc.
  - right. split; [done|]. right. split; [done|]. cbn. reflexivity.
Qed.

Lemma StronglySorted_omap {A B} (f : A → option B) (R : relation A) (S : relation B) l :
  (∀ x y a b, x ∈ l → y ∈ l → f x = Some a → f y = Some b → R x y → S a b) →
  StronglySorted R l → StronglySorted S (omap f l).
Proof.
  intros Hf Hs. induction Hs as [|x l Hs IH Hx]; [constructor|].
  assert (StronglySorted S (omap f l)) as Hs'.
  { apply IH. intros y z a b Hy Hz. apply Hf; by right. }
  cbn. destruct (f x) as [a|] eqn:Ex; [|done]. constructor; [done|].
  apply Forall_forall. intros b (y & Hy & Ey)%list_elem_of_omap.
  rewrite Forall_forall in Hx. eapply Hf; [by left|by right|done|done|]. by apply Hx.
Qed.

Lemma list_omap_fmap {A B C} (f : A → B) (g : B → option C) (l : list A) : omap g (f <$> l) = omap (g ∘ f) l.
Proof. induction l as [|x l IH]; [done|]. cbn. by rewrite IH. Qed.

Lemma elem_of_enumerate {A} (l : list A) x p : (x, p) ∈ enumerate l ↔ l !! N.to_nat p = Some x.
Proof.
  unfold enumerate. rewrite elem_of_lookup_imap. split.
  - intros (i & y & [= -> ->] & E). by rewrite Nat2N.id.
  - intros E. exists (N.to_nat p), x. by rewrite N2Nat.id.
Qed.

#[global] Instance row_le_trans : Transitive row_le.
Proof. intros x y z Hxy Hyz. unfold row_le in *. by etrans. Qed.
#[global] Instance row_le_total : Total row_le.
Proof. intros x y. apply (total key_le). Qed.
#[global] Instance merge_le_trans : Transitive merge_le.
Proof. intros x y z Hxy Hyz. unfold merge_le in *. by etrans. Qed.
#[global] Instance merge_le_total : Total merge_le.
Proof. intros x y. apply (total key_le). Qed.

Section iterating.
Context (cpu : Cpu) `{OxiArc} `{RecCodec} (r : Reader) (w : World) (es : list Entry).
Hypothesis Hreads : Forall2 (reads cpu r w) (rd_index r) es.

Definition pick (p : N) : option Entry := es !! N.to_nat p.

Lemma read_position p row :
  rd_index r !! N.to_nat p = Some row →
  ∃ e offset, pick p = Some e ∧ row = index_row offset e ∧ read_at cpu r row w = (w, Ok e).
Proof.
  intros Hrow. destruct (Forall2_lookup_l _ _ _ _ _ Hreads Hrow) as (e & He & [offset ->] & Hr).
  by exists e, offset.
Qed.

Lemma collect_loop_reads todo before fuel acc :
  Forall (λ p, is_Some (rd_index r !! N.to_nat p)) todo → (length todo < fuel)%nat →
  collect_loop cpu fuel r (mkIter (before ++ todo) (length before)) acc w = (w, Ok (acc ++ omap pick todo)).
Proof.
  intros Hall. revert before fuel acc.
  induction Hall as [|p todo [row Hrow] _ IH]; intros before fuel acc Hf;
    (destruct fuel as [|fuel]; [cbn in Hf; lia|]); cbn [collect_loop]; unfold iter_next; cbn [it_order it_cursor].
  - rewrite app_nil_r, lookup_ge_None_2 by done. cbn. by rewrite app_nil_r.
  - rewrite list_lookup_middle by done. rewrite Hrow.
    destruct (read_position p row Hrow) as (e & offset & Hp & -> & ->).
    specialize (IH (before ++ [p]) fuel (acc ++ [e])).
    rewrite <-!app_assoc, length_app, Nat.add_1_r in IH. cbn [app length] in *.
    rewrite IH by lia. cbn. by rewrite Hp.
Qed.

(** The rows of a selection, and their entries. *)
Lemma omap_selected (P : IndexEntry → bool) (Q : Entry → bool) before :
  (∀ offset e, P (index_row offset e) = Q e) →
  ∀ index tail, Forall2 (λ row e, ∃ offset, row = index_row offset e) index tail →
  omap (λ x, (before ++ tail) !! N.to_nat x.2)
    (filter (λ x, P x.1 = true) (imap (λ i x, (x, N.of_nat (length before + i))) index)) =
  filter (λ e, Q e = true) tail.
Proof.
  intros HPQ index tail Hi. revert before.
  induction Hi as [|row e index tail [offset ->] _ IH]; intros before; [done|].
  rewrite imap_cons, !filter_cons. cbn [fst].
  assert (imap ((λ i x, (x, N.of_nat (length before + i))) ∘ S) index =
    imap (λ i x, (x, N.of_nat (length (before ++ [e]) + i))) index) as ->.
  { apply imap_ext. intros i x _. cbn. rewrite length_app. do 2 f_equal. cbn. lia. }
  specialize (IH (before ++ [e])). rewrite <-app_assoc in IH. cbn [app] in IH.
  rewrite (HPQ offset e). case_decide as HQ; [|apply IH]. rewrite <-IH. cbn.
  rewrite Nat.add_0_r, Nat2N.id, list_lookup_middle by done. done.
Qed.

Lemma collect_selects (P : IndexEntry → bool) (Q : Entry → bool) :
  (∀ offset e, P (index_row offset e) = Q e) →
  ∃ l, collect cpu r (mkIter (hlc_order (rd_index r) P) 0) w = (w, Ok l) ∧
       l ≡ₚ filter (λ e, Q e = true) es ∧ StronglySorted entry_le l.
Proof.
  intros HPQ. set (selected := filter (λ x, P x.1 = true) (enumerate (rd_index r))).
  set (sorted := merge_sort row_le selected).
  assert (Forall (λ x, rd_index r !! N.to_nat x.2 = Some x.1) sorted) as Hall.
  { apply Forall_forall. intros [row p] Hin. unfold sorted in Hin.
    rewrite merge_sort_Permutation in Hin. apply list_elem_of_filter in Hin as [_ Hin].
    by apply elem_of_enumerate. }
  exists (omap pick sorted.*2). split_and!.
  - unfold collect, remaining_len, hlc_order. cbn [it_order it_cursor]. fold selected sorted.
    pose proof (collect_loop_reads sorted.*2 [] (S (length sorted.*2 - 0)) []) as Hc.
    cbn [app length] in Hc. apply Hc; [|lia].
    rewrite Forall_fmap. eapply Forall_impl; [exact Hall|]. cbn. intros x ->. by eexists.
  - rewrite list_omap_fmap. unfold sorted. rewrite merge_sort_Permutation.
    rewrite <-(omap_selected P Q [] HPQ (rd_index r) es); [done|].
    eapply Forall2_impl; [exact Hreads|]. by intros row e [? _].
  - rewrite list_omap_fmap. eapply StronglySorted_omap, StronglySorted_merge_sort; [|apply _..].
    intros [rx px] [ry py] a b Hx Hy Ea Eb Hle. unfold compose in *. cbn [fst snd] in *.
    rewrite Forall_forall in Hall. pose proof (Hall _ Hx) as Rx. pose proof (Hall _ Hy) as Ry. cbn [fst snd] in *.
    destruct (read_position _ _ Rx) as (a' & o1 & Ea' & -> & _).
    destruct (read_position _ _ Ry) as (b' & o2 & Eb' & -> & _).
    simplify_eq. exact (key_weaken _ _ _ _ _ _ px py Hle).
Qed.
End iterating.

(** ** Segment names *)

Lemma pad4_value n : digits_value 0 (pad4 n) = n.
Proof.
  unfold pad4. destruct (decimal_spec n) as (_ & _ & Hv). unfold digits_value in *.
  rewrite foldl_app. assert (∀ k, foldl (λ v c : N, v * 10 + (c - 48)) 0 (replicate k 48) = 0) as ->; [|done].
  intros k. induction k as [|k IH]; [done|]. exact IH.
Qed.

(** Different numbers, different files. *)
Lemma segment_path_inj base n m : segment_path base n = segment_path base m → n = m.
Proof.
  unfold segment_path. intros E.
  assert (pad4 n = pad4 m) as Ep.
  { destruct (extension base) as [ext|]; (destruct (parent base) as [[|c p]|]);
      repeat first [apply app_inv_head_iff in E | apply app_inv_tail_iff in E | injection E as E]; done. }
  by rewrite <-(pad4_value n), <-(pad4_value m), Ep.
Qed.

Lemma exceeded_enabled p size age : is_exceeded p size age = true → rotation_enabled p = true.
Proof. unfold is_exceeded, rotation_enabled. by destruct p as [[?|] [?|]]. Qed.

(** ** Writing *)

Section writing.
Context (cpu : Cpu) (Hcpu : cpu_ok cpu) `{OxiArcLaws} `{!ZstdBytes} `{RecCodecLaws}.

Lemma write_out_calm p bytes file w :
  holds w p file → write_out p bytes w = (set_file p (file ++ bytes) w, [], true).
Proof. intros [Hf Hp]. unfold write_out, next_fault. by rewrite Hf, Hp. Qed.

Lemma set_wfile_id r : set_wfile (wr_file r) r = r.
Proof. by destruct r. Qed.

(** Without failures the bytes go to the end of the file. *)
Lemma write_all_calm bytes p file w r :
  bytes ≠ [] → wr_file r = mkBuf p [] → holds w p file →
  write_all bytes (w, r) =
    ((set_file p (file ++ bytes) w, set_offset (wr_offset r + len64 bytes) r), Ok tt).
Proof.
  intros Hne Hb Hw. unfold write_all. rewrite sbind_eq. unfold on_file at 1. cbn [fst snd].
  rewrite Hb. unfold buf_write_all, spare_capacity. cbn [fst snd bw_buf length].
  change (BUF_CAPACITY - N.of_nat 0) with BUF_CAPACITY.
  assert (set_wfile (mkBuf p []) r = r) as Er by (by rewrite <-Hb, set_wfile_id).
  destruct (N.ltb_spec (N.of_nat (length bytes)) BUF_CAPACITY) as [Hl|Hl].
  - unfold push_buf, modify. cbn [map_err fst snd bw_path bw_buf app]. rewrite sbind_eq.
    unfold on_file at 1, flush_buf. cbn [fst snd wr_file set_wfile bw_buf bw_path].
    destruct bytes as [|b bytes]; [done|]. rewrite (write_out_calm _ _ file) by done.
    cbn [map_err]. unfold update, modify. cbn [fst snd].
    change (set_wfile (mkBuf p []) (set_wfile ?x r)) with (set_wfile (mkBuf p []) r).
    by rewrite Er.
  - assert ((if BUF_CAPACITY <? N.of_nat (length bytes) then flush_buf else ret tt) (w, mkBuf p []) =
      ((w, mkBuf p []), Ok tt)) as E by (by destruct (_ <? _)).
    rewrite sbind_eq, E. destruct (N.leb_spec BUF_CAPACITY (N.of_nat (length bytes))); [|lia].
    cbn [fst snd bw_path]. rewrite (write_out_calm _ _ file) by done. cbn [map_err]. rewrite Er.
    rewrite sbind_eq. unfold on_file at 1. cbn [fst snd]. rewrite Hb. cbn [flush_buf bw_buf map_err].
    rewrite Er. done.
Qed.

(** A writer in the middle of a file that holds [es] so far. *)
Record recording (w : World) (r : Writer) (es : list Entry) : Prop := {
  rec_calm : faults w = [];
  rec_buffer : wr_file r = mkBuf (wr_current_path r) [];
  rec_file : files w !! wr_current_path r = Some (open_bytes cpu (header_of (wr_options r)) es);
  rec_offset : wr_offset r = len64 (open_bytes cpu (header_of (wr_options r)) es);
  rec_index : wr_index r = rows cpu (len64 (header_bytes cpu (header_of (wr_options r)))) es;
  rec_open : wr_finished r = false
}.

(** What identifies the file a writer writes. *)
Definition same_segment (r r' : Writer) : Prop :=
  wr_base_path r' = wr_base_path r ∧ wr_options r' = wr_options r ∧
  wr_sequence r' = wr_sequence r ∧ wr_current_path r' = wr_current_path r.

Lemma open_bytes_snoc h es e :
  open_bytes cpu h (es ++ [e]) = open_bytes cpu h es ++ entry_bytes cpu e.
Proof.
  unfold open_bytes. rewrite entries_bytes_app, app_assoc. f_equal.
  unfold entries_bytes. cbn. by rewrite app_nil_r.
Qed.

Lemma frame_ne tag plain : frame cpu tag plain ≠ [].
Proof. intros E. pose proof (length_frame_pos cpu tag plain) as Hp. rewrite E in Hp. cbn in Hp. lia. Qed.

Lemma instant_now_calm w :
  ∃ w' t, instant_now w = (w', Ok t) ∧ files w' = files w ∧ faults w' = faults w.
Proof. unfold instant_now. destruct (ticks w); by do 2 eexists. Qed.

(** An entry is appended and indexed; then the policy is asked. *)
Lemma append_step w r es e :
  recording w r es → encodable e →
  ∃ w' r' age,
    append cpu e (w, r) =
      (if is_exceeded (wo_rotation (wr_options r')) (wr_offset r') age
       then rotate cpu (w', r') else ((w', r'), Ok tt)) ∧
    recording w' r' (es ++ [e]) ∧ same_segment r r' ∧ wr_completed_files r' = wr_completed_files r ∧
    files w' = <[wr_current_path r := open_bytes cpu (header_of (wr_options r)) (es ++ [e])]> (files w).
Proof.
  intros [Hc Hb Hf Ho Hi Hn] He. pose proof He as (Ee & _)%encodable_plain.
  destruct (instant_now_calm (set_file (wr_current_path r)
    (open_bytes cpu (header_of (wr_options r)) (es ++ [e])) w)) as (w' & t & Et & Ew & Ef).
  set (r' := set_index (wr_index r ++ [index_row (wr_offset r) e])
    (set_offset (wr_offset r + len64 (entry_bytes cpu e)) r)).
  exists w', r', (t - wr_opened_at r). split_and!; [|split| |done|].
  - unfold append. rewrite sbind_eq. unfold the_writer at 1, gets at 1. cbn [snd].
    rewrite sbind_eq. unfold lift_result at 1, entry_write. rewrite Ee. cbn [map_err rbind].
    rewrite write_frame_app. cbn [app]. fold (entry_bytes cpu e).
    rewrite sbind_eq, (write_all_calm _ (wr_current_path r) (open_bytes cpu (header_of (wr_options r)) es));
      [|apply frame_ne|done|done].
    rewrite <-open_bytes_snoc. rewrite sbind_eq. unfold update, modify at 1. cbn [fst snd].
    rewrite sbind_eq. unfold on_world at 1. cbn [fst snd]. rewrite Et.
    rewrite sbind_eq. unfold the_writer, gets. cbn [snd].
    change (set_index _ (set_offset _ r)) with r'. change (wr_opened_at r') with (wr_opened_at r).
    by destruct (is_exceeded _ _ _).
  - by rewrite Ef.
  - exact Hb.
  - rewrite Ew. cbn [files set_file r' wr_current_path wr_options set_index set_offset]. by rewrite lookup_insert_eq.
  - cbn [r' wr_offset wr_options set_index set_offset]. by rewrite Ho, open_bytes_snoc, len64_app.
  - cbn [r' wr_index wr_options set_index set_offset]. rewrite Hi, rows_app. cbn [rows].
    do 2 f_equal. rewrite Ho. by rewrite <-len64_app.
  - exact Hn.
  - done.
  - by rewrite Ew.
Qed.

(** Closing a file. *)
Lemma finalize_step w r es :
  recording w r es → recordable cpu (header_of (wr_options r)) es →
  ∃ w' r',
    finalize_current cpu (w, r) = ((w', r'), Ok tt) ∧ same_segment r r' ∧
    wr_completed_files r' = wr_completed_files r ++ [wr_current_path r] ∧
    wr_index r' = [] ∧ wr_finished r' = false ∧ faults w' = [] ∧
    files w' = <[wr_current_path r := recording_bytes cpu (header_of (wr_options r)) es]> (files w).
Proof.
  intros [Hc Hb Hf Ho Hi Hn] (_ & _ & He & Hl & _).
  set (h := header_of (wr_options r)) in *. set (index := rows cpu (len64 (header_bytes cpu h)) es) in *.
  apply encodable_plain in He as (Ee & _).
  assert (finalize_current cpu (w, r) =
    ((set_file (wr_current_path r) (recording_bytes cpu h es) w,
      set_completed (wr_completed_files r ++ [wr_current_path r])
        (set_offset (wr_offset r + len64 (closing_bytes cpu h es)) (set_index [] r))), Ok tt)) as E.
  { unfold finalize_current. rewrite sbind_eq. unfold the_writer at 1, gets at 1. cbn [snd].
    rewrite sbind_eq. unfold update at 1, modify at 1. cbn [fst snd]. rewrite Hi.
    rewrite sbind_eq. unfold lift_result at 1, footer_write. rewrite Ee. cbn [map_err rbind].
    rewrite write_frame_app. cbn [app]. change (frame cpu FOOTER_FRAME_TAG _) with (footer_bytes cpu index).
    rewrite N.sub_0_r. unfold clamp_u32. rewrite N.min_l by done.
    rewrite sbind_eq. unfold the_writer at 1, gets at 1. cbn [snd wr_offset set_index].
    rewrite write_trailer_app, N.add_0_r, Ho.
    change (footer_bytes cpu index ++ trailer cpu _ _) with (closing_bytes cpu h es).
    rewrite sbind_eq, (write_all_calm _ (wr_current_path r) (open_bytes cpu h es)).
    - cbn [update modify fst snd wr_offset set_index]. rewrite Ho. done.
    - unfold closing_bytes. cbn zeta. intros E%app_eq_nil%proj1. by apply frame_ne in E.
    - exact Hb.
    - done. }
  rewrite E. do 2 eexists. split_and!; [done|by split_and!|done..].
Qed.

(** Opening a file and writing its header. *)
Lemma open_for_write_calm p w : faults w = [] → open_for_write p w = (set_file p [] w, Ok (mkBuf p [])).
Proof.
  intros Hf. unfold open_for_write. rewrite sbind_eq.
  assert ((match parent p with Some (_ :: _) => sys "creating the recording directory" | _ => ret tt end) w =
    (w, Ok tt)) as ->.
  { destruct (parent p) as [[|]|]; try done. by apply sys_calm. }
  rewrite sbind_eq, sys_calm by done. done.
Qed.

Lemma write_header_step w r :
  faults w = [] → wr_file r = mkBuf (wr_current_path r) [] → files w !! wr_current_path r = Some [] →
  wr_offset r = 0 → wr_index r = [] → wr_finished r = false → encodable (header_of (wr_options r)) →
  ∃ w' r', write_header cpu (w, r) = ((w', r'), Ok tt) ∧ recording w' r' [] ∧ same_segment r r' ∧
    wr_completed_files r' = wr_completed_files r ∧
    files w' = <[wr_current_path r := header_bytes cpu (header_of (wr_options r))]> (files w).
Proof.
  intros Hc Hb Hf Ho Hi Hn (Ee & _)%encodable_plain. set (h := header_of (wr_options r)) in *.
  assert (write_header cpu (w, r) =
    ((set_file (wr_current_path r) (header_bytes cpu h) w, set_offset (0 + len64 (header_bytes cpu h)) r), Ok tt)) as ->.
  { unfold write_header. rewrite sbind_eq. unfold the_writer at 1, gets at 1. cbn [snd].
    rewrite sbind_eq. unfold lift_result at 1, header_write. fold h. rewrite Ee. cbn [map_err rbind].
    rewrite write_frame_app. cbn [app]. rewrite <-app_assoc.
    change (FILE_MAGIC ++ to_le_bytes 2 FORMAT_VERSION ++ frame cpu HEADER_FRAME_TAG (plain_of h)) with (header_bytes cpu h).
    rewrite (write_all_calm _ (wr_current_path r) []); [by rewrite Ho|done|done|done]. }
  do 2 eexists. split_and!; [done|split|by split_and!|done|done]; cbn [files set_file faults]; try done.
  - cbn [wr_current_path set_offset]. rewrite lookup_insert_eq. unfold open_bytes. by rewrite app_nil_r.
  - cbn [wr_offset set_offset wr_options]. unfold open_bytes. by rewrite app_nil_r.
Qed.

Lemma rotate_step w r es :
  recording w r es → recordable cpu (header_of (wr_options r)) es →
  let sequence := (wr_sequence r + 1) mod 2 ^ 32 in
  let path := segment_path (wr_base_path r) sequence in
  ∃ w' r', rotate cpu (w, r) = ((w', r'), Ok tt) ∧ recording w' r' [] ∧
    wr_base_path r' = wr_base_path r ∧ wr_options r' = wr_options r ∧ wr_sequence r' = sequence ∧
    wr_current_path r' = path ∧ wr_completed_files r' = wr_completed_files r ++ [wr_current_path r] ∧
    files w' = <[path := header_bytes cpu (header_of (wr_options r))]>
      (<[wr_current_path r := recording_bytes cpu (header_of (wr_options r)) es]> (files w)).
Proof.
  intros Hrec Hrd sequence path. pose proof Hrd as (Hh & _).
  destruct (finalize_step w r es Hrec Hrd) as (w1 & r1 & E1 & (Sb & So & Ss & Sp) & Hcomp & Hi1 & Hn1 & Hf1 & Hw1).
  unfold rotate. rewrite sbind_eq, E1. rewrite sbind_eq. unfold update at 1, modify at 1. cbn [fst snd].
  rewrite Ss, Sb. fold sequence path. rewrite sbind_eq. unfold the_writer at 1, gets at 1. cbn [snd wr_current_path set_segment].
  rewrite sbind_eq. unfold on_world at 1. cbn [fst snd]. rewrite open_for_write_calm by done.
  rewrite sbind_eq. unfold update at 1, modify at 1. cbn [fst snd].
  rewrite sbind_eq. unfold update at 1, modify at 1. cbn [fst snd].
  rewrite sbind_eq. unfold on_world at 1. cbn [fst snd].
  destruct (instant_now_calm (set_file path [] w1)) as (w2 & t & Et & Ew & Ef). rewrite Et.
  rewrite sbind_eq. unfold update at 1, modify at 1. cbn [fst snd].
  match goal with |- context [write_header cpu (w2, ?r)] => set (r2 := r) end.
  destruct (write_header_step w2 r2) as (w3 & r3 & E3 & Hrec3 & (Tb & To & Ts & Tp) & Tc & Hw3);
    try done; [by rewrite Ef|by rewrite Ew; cbn; rewrite lookup_insert_eq|by cbn; rewrite So|].
  exists w3, r3. split_and!; [done|done|by rewrite Tb|by rewrite To|by rewrite Ts|by rewrite Tp|by rewrite Tc|].
  rewrite Hw3, Ew. cbn [files set_file r2 wr_current_path wr_options set_opened_at set_offset set_wfile set_segment].
  by rewrite insert_insert_eq, So, Hw1.
Qed.

(** *** Sessions *)

(** The file of segment [i]. *)
Definition path_of (base : Path) (o : WriterOptions) (i : nat) : Path :=
  if rotation_enabled (wo_rotation o) then segment_path base (N.of_nat i + 1) else base.

Definition finished_file (w : World) (o : WriterOptions) (p : Path) (part : list Entry) : Prop :=
  files w !! p = Some (recording_bytes cpu (header_of o) part).

(** A writer that has closed [parts] and is recording [es]. *)
Record session (base : Path) (o : WriterOptions) (w : World) (r : Writer)
    (parts : list (list Entry)) (es : list Entry) : Prop := {
  ses_recording : recording w r es;
  ses_base : wr_base_path r = base;
  ses_options : wr_options r = o;
  ses_sequence : wr_sequence r = N.of_nat (length parts) + 1;
  ses_current : wr_current_path r = path_of base o (length parts);
  ses_completed : wr_completed_files r = path_of base o <$> seq 0 (length parts);
  ses_files : Forall2 (finished_file w o) (path_of base o <$> seq 0 (length parts)) parts;
  ses_single : rotation_enabled (wo_rotation o) = false → parts = []
}.

Lemma path_of_inj base o i j :
  rotation_enabled (wo_rotation o) = true → path_of base o i = path_of base o j → i = j.
Proof. unfold path_of. intros -> E%segment_path_inj. lia. Qed.

(** Writing elsewhere leaves the finished files alone. *)
Lemma finished_elsewhere base o w w' parts n bytes :
  (rotation_enabled (wo_rotation o) = false → parts = []) → (length parts ≤ n)%nat →
  files w' = <[path_of base o n := bytes]> (files w) →
  Forall2 (finished_file w o) (path_of base o <$> seq 0 (length parts)) parts →
  Forall2 (finished_file w' o) (path_of base o <$> seq 0 (length parts)) parts.
Proof.
  intros Hs Hn Hw Hf. apply Forall2_same_length_lookup in Hf as [Hl Hf].
  apply Forall2_same_length_lookup. split; [done|]. intros i p part Hp Hpart. unfold finished_file.
  rewrite Hw, lookup_insert_ne; [by eapply Hf|].
  apply list_lookup_fmap_Some in Hp as (j & -> & [Hj Hj2]%lookup_seq).
  destruct (rotation_enabled (wo_rotation o)) eqn:Er; [|specialize (Hs eq_refl); subst; done].
  intros E%path_of_inj; [|done]. lia.
Qed.

Lemma session_append base o w r parts es e :
  session base o w r parts es → encodable e → recordable cpu (header_of o) (es ++ [e]) →
  N.of_nat (length parts) + 2 < 2 ^ 32 →
  ∃ w' r', append cpu e (w, r) = ((w', r'), Ok tt) ∧
    (session base o w' r' parts (es ++ [e]) ∨ session base o w' r' (parts ++ [es ++ [e]]) []).
Proof.
  intros [Hrec Hb Ho Hs Hp Hc Hf Hone] He Hrd Hbound.
  destruct (append_step w r es e Hrec He) as (w1 & r1 & age & Ea & Hrec1 & (Sb & So & Ss & Sp) & Hc1 & Hw1).
  rewrite Ea. clear Ea. rewrite Ho in *. rewrite Hp in *.
  assert (Forall2 (finished_file w1 o) (path_of base o <$> seq 0 (length parts)) parts) as Hf1
    by (by eapply finished_elsewhere).
  destruct (is_exceeded _ _ _) eqn:Ex.
  - apply exceeded_enabled in Ex as Her. rewrite So in *.
    destruct (rotate_step w1 r1 (es ++ [e])) as (w2 & r2 & Er & Hrec2 & Rb & Ro & Rs & Rp & Rc & Hw2);
      [done|by rewrite So|].
    rewrite Er. exists w2, r2. split; [done|]. right. rewrite So in *.
    assert ((wr_sequence r1 + 1) mod 2 ^ 32 = N.of_nat (length parts + 1) + 1) as Eseq
      by (rewrite Ss, Hs, N.mod_small; lia).
    assert (path_of base o (length parts + 1) = segment_path (wr_base_path r1) ((wr_sequence r1 + 1) mod 2 ^ 32)) as Epath
      by (unfold path_of; by rewrite Her, Eseq, Sb, Hb).
    rewrite <-Epath in Hw2, Rp. rewrite Sp in *.
    split; [done|by rewrite Rb, Sb|done|by rewrite Rs, Eseq, length_app|by rewrite length_app| | |by rewrite Her].
    + rewrite Rc, Hc1, Hc, length_app, seq_app, fmap_app. done.
    + rewrite length_app, seq_app, fmap_app. cbn [length seq Nat.add].
      assert (Forall2 (finished_file w2 o) (path_of base o <$> seq 0 (length parts)) parts) as Hf2.
      { eapply (finished_elsewhere base o (mkWorld (<[path_of base o (length parts) := recording_bytes cpu (header_of o) (es ++ [e])]> (files w1)) (faults w1) (clock w1) (ticks w1))); [done|..|exact Hw2|];
          [lia|]. by eapply finished_elsewhere. }
      apply Forall2_app; [done|]. constructor; [|constructor]. unfold finished_file.
      rewrite Hw2, lookup_insert_ne by (intros E%path_of_inj; [lia|done]). by rewrite lookup_insert_eq.
  - exists w1, r1. split; [done|]. left.
    split; [done|by rewrite Sb|by rewrite So|by rewrite Ss|by rewrite Sp|by rewrite Hc1|done|done].
Qed.

(** The entries of the files closed so far and of the current one, in
    order, are the entries appended. *)
Lemma session_appends base o todo :
  ∀ w r parts es, session base o w r parts es →
  (∀ a part b, mjoin parts ++ es ++ todo = a ++ part ++ b → recordable cpu (header_of o) part) →
  N.of_nat (length parts + length todo) + 1 < 2 ^ 32 →
  ∃ w' r' parts' es', for_each (append cpu) todo (w, r) = ((w', r'), Ok tt) ∧
    session base o w' r' parts' es' ∧ mjoin parts' ++ es' = mjoin parts ++ es ++ todo.
Proof.
  induction todo as [|e todo IH]; intros w r parts es Hses Hrd Hbound.
  { exists w, r, parts, es. by rewrite app_nil_r. }
  cbn [for_each length] in *.
  assert (encodable e) as He.
  { destruct (Hrd (mjoin parts ++ es) [e] todo) as (_ & Hall & _); [by rewrite <-!app_assoc|].
    by apply Forall_cons_1 in Hall as [? _]. }
  destruct (session_append base o w r parts es e) as (w1 & r1 & Ea & Hs1); [done|done| |lia|].
  { apply (Hrd (mjoin parts) (es ++ [e]) todo). by rewrite <-!app_assoc. }
  rewrite sbind_eq, Ea. destruct Hs1 as [Hs1|Hs1].
  - destruct (IH w1 r1 parts (es ++ [e]) Hs1) as (w2 & r2 & p2 & e2 & E2 & S2 & J2); [|lia|].
    { intros a part b E. apply (Hrd a part b). rewrite <-E. by rewrite <-!app_assoc. }
    exists w2, r2, p2, e2. split_and!; [done|done|]. rewrite J2. by rewrite <-!app_assoc.
  - assert (mjoin (parts ++ [es ++ [e]]) = mjoin parts ++ es ++ [e]) as Ej
      by (rewrite join_app; cbn; by rewrite app_nil_r).
    destruct (IH w1 r1 (parts ++ [es ++ [e]]) [] Hs1) as (w2 & r2 & p2 & e2 & E2 & S2 & J2).
    { intros a part b. rewrite Ej. intros E. apply (Hrd a part b). rewrite <-E. by rewrite <-!app_assoc. }
    { rewrite length_app. cbn. lia. }
    exists w2, r2, p2, e2. split_and!; [done|done|]. rewrite J2, Ej. by rewrite <-!app_assoc.
Qed.

Lemma session_create base o w :
  faults w = [] → encodable (header_of o) →
  ∃ w' r, create cpu base o w = (w', Ok r) ∧ session base o w' r [] [].
Proof.
  intros Hf Hh. unfold create.
  assert ((if rotation_enabled (wo_rotation o) then segment_path base 1 else base) = path_of base o 0) as -> by done.
  rewrite sbind_eq, open_for_write_calm by done.
  destruct (instant_now_calm (set_file (path_of base o 0) [] w)) as (w1 & t & Et & Ew & Ef).
  rewrite sbind_eq, Et.
  destruct (write_header_step w1 (mkWriter base o 1 (path_of base o 0) (mkBuf (path_of base o 0) []) 0 [] t [] false))
    as (w2 & r2 & E2 & Hrec & (Sb & So & Ss & Sp) & Hc & _);
    [by rewrite Ef|done|by rewrite Ew; cbn; rewrite lookup_insert_eq|done..|].
  rewrite E2. exists w2, r2. split; [done|]. by split.
Qed.

Lemma session_finish base o w r parts es :
  session base o w r parts es → recordable cpu (header_of o) es →
  let paths := path_of base o <$> seq 0 (length (parts ++ [es])) in
  ∃ w' r', finish cpu (w, r) = ((w', r'), Ok paths) ∧ faults w' = [] ∧ NoDup paths ∧
    wr_finished r' = true ∧
    Forall2 (finished_file w' o) paths (parts ++ [es]).
Proof.
  intros [Hrec Hb Ho Hs Hp Hc Hf Hone] Hrd paths. pose proof Hrec as [_ _ _ _ _ Hn].
  destruct (finalize_step w r es Hrec) as (w1 & r1 & E1 & _ & Hc1 & _ & _ & Hf1 & Hw1); [by rewrite Ho|].
  unfold finish. rewrite sbind_eq. unfold the_writer at 1, gets at 1. cbn [snd]. rewrite Hn.
  rewrite sbind_eq, sbind_eq, E1. unfold update, modify. cbn [fst snd]. unfold the_writer, gets.
  cbn [snd wr_completed_files set_finished]. rewrite Hc1, Hc, Hp.
  assert ((path_of base o <$> seq 0 (length parts)) ++ [path_of base o (length parts)] = paths) as ->.
  { unfold paths. rewrite length_app, seq_app, fmap_app. done. }
  exists w1, (set_finished true r1). split_and!; [done|done| |done|].
  - destruct (rotation_enabled (wo_rotation o)) eqn:Er.
    + apply NoDup_fmap_2_strong; [|apply NoDup_seq]. intros i j _ _. by apply path_of_inj.
    + specialize (Hone eq_refl). subst parts. unfold paths. cbn. apply NoDup_singleton.
  - rewrite Hp, Ho in Hw1. unfold paths. rewrite length_app, seq_app, fmap_app.
    apply Forall2_app; [by eapply finished_elsewhere|]. constructor; [|constructor].
    unfold finished_file. rewrite Hw1. cbn. by rewrite lookup_insert_eq.
Qed.
End writing.

(** ** Failing writes *)

Section failing.
Context (cpu : Cpu) (Hcpu : cpu_ok cpu) `{OxiArcLaws} `{!ZstdBytes} `{RecCodecLaws}.

Definition with_faults (fs : list (option nat)) (w : World) : World :=
  mkWorld (files w) fs (clock w) (ticks w).

Lemma write_out_fault p bytes file k fs w :
  files w !! p = Some file → (k < length bytes)%nat →
  write_out p bytes (with_faults (Some k :: fs) w) =
    (set_file p (file ++ take k bytes) (with_faults fs w), drop k bytes, false).
Proof.
  intros Hp Hk. unfold write_out, next_fault. cbn [faults with_faults files clock ticks].
  destruct (Nat.ltb_spec k (length bytes)); [|lia]. cbn [files]. by rewrite Hp.
Qed.

Lemma write_all_fault bytes p file k fs w r :
  (k < length bytes)%nat → wr_file r = mkBuf p [] → files w !! p = Some file →
  ∃ rest context, write_all bytes (with_faults (Some k :: fs) w, r) =
    ((set_file p (file ++ take k bytes) (with_faults fs w), set_wfile (mkBuf p rest) r), Err (Io context)).
Proof.
  intros Hk Hb Hp. unfold write_all. rewrite sbind_eq. unfold on_file at 1. cbn [fst snd].
  rewrite Hb. unfold buf_write_all, spare_capacity. cbn [fst snd bw_buf length].
  change (BUF_CAPACITY - N.of_nat 0) with BUF_CAPACITY.
  destruct (N.ltb_spec (N.of_nat (length bytes)) BUF_CAPACITY) as [Hl|Hl].
  - unfold push_buf, modify. cbn [map_err fst snd bw_path bw_buf app]. rewrite sbind_eq.
    unfold on_file at 1, flush_buf. cbn [fst snd wr_file set_wfile bw_buf bw_path].
    destruct bytes as [|b bytes]; [cbn in Hk; lia|]. rewrite (write_out_fault _ _ file) by done.
    by do 2 eexists.
  - set (w1 := with_faults (Some k :: fs) w).
    assert ((if BUF_CAPACITY <? N.of_nat (length bytes) then flush_buf else ret tt) (w1, mkBuf p []) =
      ((w1, mkBuf p []), Ok tt)) as E by (by destruct (_ <? _)).
    rewrite sbind_eq, E. destruct (N.leb_spec BUF_CAPACITY (N.of_nat (length bytes))); [|lia].
    cbn [fst snd bw_path]. unfold w1. rewrite (write_out_fault _ _ file) by done.
    by do 2 eexists.
Qed.

Lemma append_fault w r es e k fs :
  recording cpu w r es → encodable e → (k < length (entry_bytes cpu e))%nat →
  ∃ w' r' context, append cpu e (with_faults (Some k :: fs) w, r) = ((w', r'), Err (Io context)) ∧
    files w' = <[wr_current_path r := open_bytes cpu (header_of (wr_options r)) es ++ take k (entry_bytes cpu e)]> (files w).
Proof.
  intros [Hc Hb Hf Ho Hi Hn] (Ee & _)%encodable_plain Hk.
  unfold append. rewrite sbind_eq. unfold the_writer at 1, gets at 1. cbn [snd].
  rewrite sbind_eq. unfold lift_result at 1, entry_write. rewrite Ee. cbn [map_err rbind].
  rewrite write_frame_app. cbn [app]. fold (entry_bytes cpu e).
  destruct (write_all_fault _ _ _ k fs w r Hk Hb Hf) as (rest & context & E).
  rewrite sbind_eq, E. by do 3 eexists.
Qed.

(** What is in a file after a cut append is read back without the cut. *)
Lemma scan_open_cut h es e j :
  encodable h → Forall encodable es → encodable e → (j < length (entry_bytes cpu e))%nat →
  scan_bytes cpu (open_bytes cpu h es ++ take j (entry_bytes cpu e)) =
    Ok (mkReport h (rows cpu (len64 (header_bytes cpu h)) es) (len64 (open_bytes cpu h es))
          (if Nat.eqb j 0 then EndOfFile else Truncated) true).
Proof.
  intros Hh Hes (_ & Hb & _)%encodable_plain Hj. unfold open_bytes. rewrite <-app_assoc.
  destruct (scan_bytes_entries cpu Hcpu h es (take j (entry_bytes cpu e)) Hh Hes) as [fuel ->].
  destruct (Nat.eqb_spec j 0) as [->|Hne].
  - by rewrite take_0, app_nil_r, scan_loop_end.
  - unfold entry_bytes in *. by rewrite scan_loop_cut by (done || lia).
Qed.
End failing.

(** ** Reading and writing at once *)

Section frames_of_files.
Context (cpu : Cpu) `{OxiArc} `{RecCodec}.

(** Reading, without failures, changes nothing and depends on one file. *)
Definition pure_read {A} (p : Path) (m : SysM A) : Prop :=
  ∀ w w', faults w = [] → faults w' = [] → files w !! p = files w' !! p →
  (m w).1 = w ∧ (m w').2 = (m w).2.

Lemma pure_bind {A B} p (m : SysM A) (k : A → SysM B) :
  pure_read p m → (∀ a, pure_read p (k a)) → pure_read p (sbind m k).
Proof.
  intros Hm Hk w w' Hw Hw' E. rewrite !sbind_eq.
  destruct (Hm w w' Hw Hw' E) as [E1 E2]. destruct (Hm w' w Hw' Hw (eq_sym E)) as [E3 _].
  destruct (m w) as [v r] eqn:Em, (m w') as [v' r'] eqn:Em'. cbn in *. subst.
  destruct r as [a|e]; [|done]. by apply Hk.
Qed.

Lemma pure_lift {A} p (x : RecResult A) : pure_read p (lift_result x).
Proof. intros w w' _ _ _. done. Qed.
Lemma pure_ret {A} p (x : A) : pure_read p (ret x).
Proof. intros w w' _ _ _. done. Qed.
Lemma pure_fail {A} p e : pure_read (A:=A) p (fail e).
Proof. intros w w' _ _ _. done. Qed.

Lemma pure_sys p context : pure_read p (sys context).
Proof. intros w w' Hw Hw' _. by rewrite !sys_calm by done. Qed.

Lemma pure_lookup p : pure_read p (gets (λ w, files w !! p)).
Proof. intros w w' _ _ E. unfold gets. cbn. by rewrite E. Qed.

Ltac pure_step :=
  first [apply pure_lift|apply pure_ret|apply pure_fail|apply pure_sys|apply pure_lookup
        |apply pure_bind; [|intros]
        |match goal with |- pure_read _ (if ?b then _ else _) => destruct b end
        |match goal with |- pure_read _ (match ?x with _ => _ end) => destruct x end].

Lemma pure_read_file p context : pure_read p (read_file context p).
Proof. unfold read_file. repeat pure_step. Qed.

Lemma pure_read_at r row : pure_read (rd_path r) (read_at cpu r row).
Proof.
  unfold read_at, read_frame_seeking, read_exact.
  repeat (pure_step || apply pure_read_file || cbn zeta).
Qed.

Lemma reads_elsewhere r w w' row e :
  faults w = [] → faults w' = [] → files w !! rd_path r = files w' !! rd_path r →
  reads cpu r w row e → reads cpu r w' row e.
Proof.
  intros Hw Hw' E [Ho Hr]. split; [done|].
  destruct (pure_read_at r row w w' Hw Hw' E) as [_ E2].
  destruct (pure_read_at r row w' w Hw' Hw (eq_sym E)) as [E1 _].
  destruct (read_at cpu r row w') as [v x]. rewrite Hr in E2. cbn in *. by subst.
Qed.

(** A file the writer does not write, now or after rotating. *)
Definition foreign (r : Writer) (q : Path) : Prop :=
  q ≠ bw_path (wr_file r) ∧ ∀ n, q ≠ segment_path (wr_base_path r) n.

(** The writer's steps keep a calm world calm and foreign files as they
    are. *)
Definition untouched (s s' : World * Writer) : Prop :=
  (faults s.1 = [] → faults s'.1 = []) ∧
  ∀ q, foreign s.2 q → foreign s'.2 q ∧ files s'.1 !! q = files s.1 !! q.

#[global] Instance untouched_preorder : PreOrder untouched.
Proof.
  split; [intros s; split; [done|by intros]|]. intros s1 s2 s3 [F1 H1] [F2 H2].
  split; [auto|]. intros q Hq. destruct (H1 q Hq) as [Hq2 E1]. destruct (H2 q Hq2) as [Hq3 E2].
  split; [done|congruence].
Qed.

Lemma write_out_untouched p bytes w :
  let '(w', _, _) := write_out p bytes w in
  (faults w = [] → faults w' = []) ∧ ∀ q, q ≠ p → files w' !! q = files w !! q.
Proof.
  unfold write_out, next_fault. destruct (faults w) as [|[k|] fs] eqn:Ef;
    [| destruct (Nat.ltb _ _)|]; cbn; (split; [done|]); intros q Hq; by rewrite lookup_insert_ne.
Qed.

(** A step of the buffered file. *)
Definition buf_step (m : BufM unit) : Prop :=
  ∀ w b, let '((w', b'), _) := m (w, b) in
  bw_path b' = bw_path b ∧ (faults w = [] → faults w' = []) ∧
  ∀ q, q ≠ bw_path b → files w' !! q = files w !! q.

Lemma flush_buf_step : buf_step flush_buf.
Proof.
  intros w b. unfold flush_buf. destruct (bw_buf b) as [|x l]; [done|].
  pose proof (write_out_untouched (bw_path b) (x :: l) w) as Hw.
  by destruct (write_out _ _ _) as [[w' rest] ok].
Qed.

Lemma push_buf_step bytes : buf_step (push_buf bytes).
Proof. intros w b. done. Qed.

Lemma buf_write_all_step bytes : buf_step (buf_write_all bytes).
Proof.
  intros w b. unfold buf_write_all. cbn [snd].
  destruct (_ <? spare_capacity b); [apply push_buf_step|]. rewrite sbind_eq.
  set (m := if spare_capacity b <? N.of_nat (length bytes) then flush_buf else ret tt).
  assert (buf_step m) as Hf by (unfold m; destruct (_ <? _); [apply flush_buf_step|by intros ??]).
  specialize (Hf w b). destruct (m (w, b)) as [[w1 b1] [[]|e]]; [|done].
  destruct Hf as (E1 & F1 & H1). destruct (BUF_CAPACITY <=? _).
  - cbn [fst snd]. pose proof (write_out_untouched (bw_path b1) bytes w1) as Hw.
    destruct (write_out _ _ _) as [[w2 rest] ok]. destruct Hw as [F2 H2].
    split_and!; [done|auto|]. intros q Hq. rewrite H2 by congruence. by apply H1.
  - done.
Qed.

Lemma on_file_untouched context m : buf_step m → keeps untouched (on_file context m).
Proof.
  intros Hm [w r]. unfold on_file. cbn [fst snd]. specialize (Hm w (wr_file r)).
  destruct (m (w, wr_file r)) as [[w' b'] x]. destruct Hm as (Ep & Hf & Hq).
  split; [done|]. intros q [Hq1 Hq2]. cbn. split; [by split; cbn; [rewrite Ep|]|by apply Hq].
Qed.

Lemma update_untouched f :
  (∀ r, wr_base_path (f r) = wr_base_path r ∧ bw_path (wr_file (f r)) = bw_path (wr_file r)) →
  keeps untouched (update f).
Proof.
  intros Hf [w r]. unfold update, modify. cbn. destruct (Hf r) as [E1 E2].
  split; [done|]. intros q [Hq1 Hq2]. split; [|done]. split; cbn; [by rewrite E2|by rewrite E1].
Qed.

Lemma instant_now_untouched : keeps untouched (on_world instant_now).
Proof. intros [w r]. unfold on_world, instant_now. cbn. by destruct (ticks w). Qed.

#[local] Hint Resolve on_file_untouched flush_buf_step buf_write_all_step instant_now_untouched : keeps.
#[local] Hint Extern 1 (keeps untouched (update _)) => (apply update_untouched; by intros []) : keeps.
#[local] Hint Extern 1 (keeps untouched (the_writer _)) => (apply keeps_gets; apply _) : keeps.

Lemma write_all_untouched bytes : keeps untouched (write_all bytes).
Proof. unfold write_all. keeps_auto. Qed.
#[local] Hint Resolve write_all_untouched : keeps.

Lemma write_header_untouched : keeps untouched (write_header cpu).
Proof. unfold write_header. keeps_auto. Qed.

Lemma finalize_untouched : keeps untouched (finalize_current cpu).
Proof. unfold finalize_current. keeps_auto. Qed.
#[local] Hint Resolve write_header_untouched finalize_untouched : keeps.

Lemma open_for_write_cases p w :
  (∃ w', open_for_write p w = (set_file p [] w', Ok (mkBuf p [])) ∧ files w' = files w ∧
     (faults w = [] → faults w' = [])) ∨
  (∃ w' e, open_for_write p w = (w', Err e) ∧ files w' = files w ∧ (faults w = [] → faults w' = [])).
Proof.
  assert (∀ context v, ∃ v' x, sys context v = (v', x) ∧ files v' = files v ∧ (faults v = [] → faults v' = [])) as Hsys.
  { intros context v. unfold sys, next_fault. destruct (faults v) as [|f fs] eqn:Ef.
    - exists v. eexists. split_and!; [done|done|by rewrite Ef].
    - eexists _, _. split_and!; [done|done|done]. }
  unfold open_for_write. rewrite sbind_eq.
  assert (∃ v x, (match parent p with Some (_ :: _) => sys "creating the recording directory" | _ => ret tt end) w = (v, x) ∧
    files v = files w ∧ (faults w = [] → faults v = [])) as (v & [[]|e] & -> & Ev & Fv).
  { destruct (parent p) as [[|]|]; [by do 2 eexists|apply Hsys|by do 2 eexists]. }
  - rewrite sbind_eq. destruct (Hsys "creating .arec file" v) as (v2 & [[]|e] & -> & E2 & F2).
    + left. exists v2. split_and!; [done|congruence|auto].
    + right. exists v2, e. split_and!; [done|congruence|auto].
  - right. exists v, e. done.
Qed.

Lemma rotate_untouched : keeps untouched (rotate cpu).
Proof.
  unfold rotate. apply keeps_bind; [apply _|apply finalize_untouched|intros _].
  intros [w r]. rewrite sbind_eq. unfold update at 1, modify at 1. cbn [fst snd].
  rewrite sbind_eq. unfold the_writer at 1, gets at 1. cbn [snd wr_current_path set_segment].
  set (n := (wr_sequence r + 1) mod 2 ^ 32). set (p := segment_path (wr_base_path r) n).
  rewrite sbind_eq. unfold on_world at 1. cbn [fst snd].
  destruct (open_for_write_cases p w) as [(w1 & -> & E1 & F1)|(w1 & e & -> & E1 & F1)].
  - rewrite sbind_eq. unfold update at 1, modify at 1. cbn [fst snd].
    match goal with |- untouched _ (?m (?v, ?x)).1 => assert (untouched (w, r) (v, x)) as Hu end.
    { split; [done|]. intros q [Hq1 Hq2]. cbn. split; [split; cbn; [apply Hq2|exact Hq2]|].
      by rewrite lookup_insert_ne, E1 by (symmetry; apply Hq2). }
    etrans; [exact Hu|].
    match goal with |- untouched _ (?m _).1 => assert (keeps untouched m) as Hk by keeps_auto; apply Hk end.
  - split; [done|]. intros q Hq. cbn. split; [done|]. by rewrite E1.
Qed.
#[local] Hint Resolve rotate_untouched : keeps.

Lemma append_untouched e : keeps untouched (append cpu e).
Proof. unfold append. keeps_auto. Qed.
End frames_of_files.

(** ** Merging *)

Lemma omap_join {A B} (g : A → option B) (ls : list (list A)) : omap g (mjoin ls) = mjoin (omap g <$> ls).
Proof.
  induction ls as [|l ls IH]; [done|]. change (mjoin (l :: ls)) with (l ++ mjoin ls).
  rewrite omap_app, IH. done.
Qed.

Section merging.
Context (cpu : Cpu) `{OxiArc} `{RecCodec} (sources : list Reader) (parts : list (list Entry)).

(** The readers' files hold the parts. *)
Definition serve (w : World) : Prop :=
  Forall2 (λ r part, Forall2 (reads cpu r w) (rd_index r) part) sources parts.

Definition pick_key (k : MergeKey) : option Entry :=
  part ← parts !! N.to_nat (mk_source k); part !! N.to_nat (mk_position k).

Lemma elem_of_merge_keys k :
  k ∈ merge_keys sources ↔
  ∃ r, sources !! N.to_nat (mk_source k) = Some r ∧ rd_index r !! N.to_nat (mk_position k) = Some (mk_entry k).
Proof.
  unfold merge_keys. rewrite list_elem_of_join. split.
  - intros (l & Hk & ([r s] & -> & Hs)%list_elem_of_fmap).
    apply list_elem_of_fmap in Hk as ([row p] & -> & Hp).
    apply elem_of_enumerate in Hs, Hp. by exists r.
  - intros (r & Hs & Hp). destruct k as [s p row]. cbn in *.
    eexists. split; [|apply list_elem_of_fmap; exists (r, s); split; [done|by apply elem_of_enumerate]].
    apply list_elem_of_fmap. exists (row, p). split; [done|by apply elem_of_enumerate].
Qed.

Lemma key_reads w k :
  serve w → k ∈ merge_keys sources →
  ∃ r e offset, sources !! N.to_nat (mk_source k) = Some r ∧ r ∈ sources ∧ pick_key k = Some e ∧
    mk_entry k = index_row offset e ∧ read_at cpu r (mk_entry k) w = (w, Ok e).
Proof.
  intros Hs (r & Er & Erow)%elem_of_merge_keys.
  destruct (Forall2_lookup_l _ _ _ _ _ Hs Er) as (part & Ep & Hp).
  destruct (read_position cpu r w part Hp _ _ Erow) as (e & offset & Ee & Eo & Hr).
  exists r, e, offset. split_and!; try done; [by eapply list_elem_of_lookup_2|].
  unfold pick_key. by rewrite Ep.
Qed.

Lemma serve_untouched w w' r :
  serve w → Forall (λ src, foreign r (rd_path src)) sources → faults w = [] → faults w' = [] →
  (∀ q, foreign r q → files w' !! q = files w !! q) → serve w'.
Proof.
  intros Hs Hf Hw Hw' Hq. unfold serve in *. rewrite Forall2_same_length_lookup in *.
  destruct Hs as [Hl Hs]. split; [done|]. intros i src part Hi Hp.
  eapply Forall2_impl; [by eapply Hs|]. intros row e. apply reads_elsewhere; [done|done|].
  symmetry. apply Hq. by eapply (Forall_lookup_1 _ _ _ _ Hf).
Qed.

(** The loop appends the entries of the keys, one by one. *)
Lemma merge_loop_appends keys :
  (∀ k, k ∈ keys → k ∈ merge_keys sources) → ∀ w r written,
  faults w = [] → serve w → Forall (λ src, foreign r (rd_path src)) sources →
  merge_loop cpu sources keys written (w, r) =
    (for_each (append cpu) (omap pick_key keys) ;;
     ret (written + N.of_nat (length (omap pick_key keys)))) (w, r).
Proof.
  induction keys as [|k keys IH]; intros Hin w r written Hw Hs Hf.
  { cbn. unfold sbind, ret. by rewrite N.add_0_r. }
  destruct (key_reads w k Hs (Hin k (list_elem_of_here _ _))) as (src & e & offset & Esrc & _ & Ee & _ & Hr).
  cbn [merge_loop]. rewrite Esrc. rewrite sbind_eq. unfold on_world at 1. cbn [fst snd]. rewrite Hr.
  assert (omap pick_key (k :: keys) = e :: omap pick_key keys) as -> by (cbn; by rewrite Ee).
  cbn [for_each length]. rewrite sbind_assoc, !(sbind_eq (append cpu e)).
  pose proof (append_untouched cpu e (w, r)) as [Hc Hq]. cbn [fst snd] in *.
  destruct (append cpu e (w, r)) as [[w' r'] [[]|err]]; [|done]. cbn [fst snd] in *.
  rewrite IH.
  - rewrite !sbind_eq. destruct (for_each _ _ _) as [s [[]|]]; [|done]. unfold ret. do 2 f_equal. lia.
  - intros k' Hk'. apply Hin. by right.
  - auto.
  - eapply (serve_untouched w w' r); [done|done|done|auto|]. intros q Hq'. by apply Hq.
  - eapply Forall_impl; [exact Hf|]. intros src' Hsrc. by apply Hq.
Qed.

Lemma merge_keys_entries w : serve w → omap pick_key (merge_keys sources) = mjoin parts.
Proof.
  intros Hs. unfold merge_keys. rewrite omap_join. f_equal. apply list_eq. intros i.
  rewrite !list_lookup_fmap. unfold enumerate at 2. rewrite list_lookup_imap.
  unfold serve in Hs. rewrite Forall2_same_length_lookup in Hs. destruct Hs as [Hl Hs].
  destruct (sources !! i) as [r|] eqn:Er; cbn [fmap option_fmap option_map].
  - destruct (lookup_lt_is_Some_2 parts i) as [part Ep].
    { apply lookup_lt_Some in Er. lia. }
    rewrite Ep. f_equal. specialize (Hs i r part Er Ep).
    rewrite list_omap_fmap. unfold compose, pick_key. cbn [mk_source mk_position fst snd].
    rewrite Nat2N.id, Ep. cbn [mbind option_bind].
    pose proof (omap_selected (λ _, true) (λ _, true) [] (λ _ _, eq_refl) (rd_index r) part) as Ho.
    rewrite !filter_all in Ho by (by apply Forall_true). cbn [app length Nat.add] in Ho. apply Ho.
    eapply Forall2_impl; [exact Hs|]. by intros row e [? _].
  - symmetry. apply lookup_ge_None. apply lookup_ge_None in Er. lia.
Qed.

Lemma merged_sorted w :
  serve w → StronglySorted entry_le (omap pick_key (merge_sort merge_le (merge_keys sources))).
Proof.
  intros Hs. eapply StronglySorted_omap, StronglySorted_merge_sort; [|apply _..].
  intros x y a b Hx Hy Ea Eb Hle. rewrite merge_sort_Permutation in Hx, Hy.
  destruct (key_reads w x Hs Hx) as (_ & a' & o1 & _ & _ & Ea' & Ex & _).
  destruct (key_reads w y Hs Hy) as (_ & b' & o2 & _ & _ & Eb' & Ey & _). simplify_eq.
  unfold merge_le, merge_key in Hle. rewrite Ex, Ey in Hle. exact (key_weaken _ _ _ _ _ _ _ _ Hle).
Qed.
End merging.

(** ** The theorems *)

Section theorems.
Context (cpu : Cpu) (Hcpu : cpu_ok cpu) `{OxiArcLaws} `{!ZstdBytes} `{RecCodecLaws}.

(** Collecting the iterator gives the selected entries, ordered. *)
Definition yields (r : Reader) (w : World) (it : EntryIter) (Q : Entry → bool) (es : list Entry) : Prop :=
  ∃ l, collect cpu r it w = (w, Ok l) ∧ l ≡ₚ filter (λ e, Q e = true) es ∧ StronglySorted entry_le l.

(** The file at [p] opens, every row of its index leads to its entry, and
    the iterators select and order the entries. *)
Definition reads_back (w : World) (h : Header) (p : Path) (es : list Entry) : Prop :=
  ∃ r, open cpu p w = (w, Ok r) ∧ rd_header r = h ∧ Forall2 (reads cpu r w) (rd_index r) es ∧
    yields r w (iter_all r) (λ _, true) es ∧
    (∀ from to, yields r w (iter_time_range r from to)
       (λ e, ts_leb from (entry_hlc e) && ts_leb (entry_hlc e) to) es) ∧
    (∀ node output, yields r w (iter_port r node output)
       (λ e, bool_decide (en_node e = node) && bool_decide (en_output e = output)) es).

Lemma finished_reads_back w h p es :
  recordable cpu h es → holds w p (recording_bytes cpu h es) → reads_back w h p es.
Proof.
  intros Hrd Hw. eexists. split; [by apply open_written|]. split; [done|].
  set (r := mkReader p _ h _).
  assert (Forall2 (reads cpu r w) (rd_index r) es) as Hr.
  { apply (rows_read cpu Hcpu _ _ (closing_bytes cpu h es)); cbn [rd_path rd_file_len r].
    - by rewrite <-recording_split.
    - by rewrite recording_split.
    - apply Hrd. }
  split_and!; [done|..]; intros; by apply collect_selects.
Qed.

(** A writer created and given [es]. *)
Lemma session_reached base o w es :
  faults w = [] → N.of_nat (length es) + 1 < 2 ^ 32 →
  (∀ i n, recordable cpu (header_of o) (take n (drop i es))) →
  ∃ w1 r1 w2 r2 parts cur,
    create cpu base o w = (w1, Ok r1) ∧ for_each (append cpu) es (w1, r1) = ((w2, r2), Ok tt) ∧
    session cpu base o w2 r2 parts cur ∧ mjoin parts ++ cur = es ∧
    ∀ a part b, es = a ++ part ++ b → recordable cpu (header_of o) part.
Proof.
  intros Hw Hlen Hrd.
  assert (∀ a part b, es = a ++ part ++ b → recordable cpu (header_of o) part) as Hinfix.
  { intros a part b E. specialize (Hrd (length a) (length part)).
    by rewrite E, drop_app_length, take_app_length in Hrd. }
  destruct (session_create cpu base o w) as (w1 & r1 & E1 & S1); [done|by apply (Hinfix [] [] es)|].
  destruct (session_appends cpu base o es w1 r1 [] [] S1) as (w2 & r2 & parts & cur & E2 & S2 & J2);
    [exact Hinfix|done|].
  by exists w1, r1, w2, r2, parts, cur.
Qed.

(** C20. Recording is lossless: with the file system working and every entry,
    header and index small enough for its frame, a writer is created,
    accepts all entries and finishes, whatever its rotation policy and
    however time passes; the files it returns are pairwise different, they
    divide the entries in the order they were appended, and each opens with
    the writer's header, leads from every row of its index to the entry, and
    yields its entries (all, of a time range, of a port) in timestamp
    order. *)
Theorem recording_is_lossless base o w es :
  faults w = [] → N.of_nat (length es) + 1 < 2 ^ 32 →
  (∀ i n, recordable cpu (header_of o) (take n (drop i es))) →
  ∃ w1 r1 w2 r2 w3 r3 paths parts,
    create cpu base o w = (w1, Ok r1) ∧
    for_each (append cpu) es (w1, r1) = ((w2, r2), Ok tt) ∧
    finish cpu (w2, r2) = ((w3, r3), Ok paths) ∧
    mjoin parts = es ∧ NoDup paths ∧
    (rotation_enabled (wo_rotation o) = false → paths = [base]) ∧
    Forall2 (λ p part, files w3 !! p = Some (recording_bytes cpu (header_of o) part) ∧
                       reads_back w3 (header_of o) p part) paths parts.
Proof.
  intros Hw Hlen Hrd. set (h := header_of o) in *.
  destruct (session_reached base o w es Hw Hlen Hrd) as (w1 & r1 & w2 & r2 & parts & cur & E1 & E2 & S2 & J2 & Hinfix).
  destruct (session_finish cpu base o w2 r2 parts cur S2) as (w3 & r3 & E3 & F3 & Hnd & _ & Hfiles).
  { apply (Hinfix (mjoin parts) cur []). by rewrite app_nil_r. }
  assert (mjoin (parts ++ [cur]) = es) as Ej by (rewrite join_app; cbn; by rewrite app_nil_r).
  eexists w1, r1, w2, r2, w3, r3, _, (parts ++ [cur]). split_and!; [done..| |].
  - intros Er. rewrite (ses_single _ _ _ _ _ _ _ S2 Er). cbn. unfold path_of. by rewrite Er.
  - rewrite Forall2_same_length_lookup in *. destruct Hfiles as [Hl Hfiles]. split; [done|].
    intros i p part Hp Hpart. specialize (Hfiles i p part Hp Hpart). split; [done|].
    apply finished_reads_back; [|done].
    rewrite <-(take_drop_middle _ _ _ Hpart), join_app in Ej.
    change (mjoin (part :: ?x)) with (part ++ mjoin x) in Ej. by eapply Hinfix.
Qed.

(** C21. Recovery is exact: scanning a finished recording of [es] cut at any
    byte fails only if the cut is inside the header; otherwise it returns
    the header and an index of exactly the entries whose frames lie before
    the cut, each row leading to its entry in the cut file, and says whether
    it stopped at the end, in a frame cut short, or at the footer. *)
Theorem recovery_is_exact h es k :
  recordable cpu h es →
  let start := len64 (header_bytes cpu h) in
  let kept := survivors cpu (N.of_nat k) start es in
  let got := start + len64 (entries_bytes cpu kept) in
  let footer_end := start + len64 (entries_bytes cpu es) + len64 (footer_bytes cpu (rows cpu start es)) in
  let file := take k (recording_bytes cpu h es) in
  if N.of_nat k <? start then ∃ e, scan_bytes cpu file = Err e
  else
    scan_bytes cpu file =
      Ok (mkReport h (rows cpu start kept) got
            (if N.of_nat k =? got then EndOfFile
             else if footer_end <=? N.of_nat k then FooterFound else Truncated) true) ∧
    ∀ w p, holds w p file →
      Forall2 (reads cpu (mkReader p (len64 file) h (rows cpu start kept)) w) (rows cpu start kept) kept.
Proof.
  intros Hrd start kept got footer_end file.
  destruct (N.ltb_spec (N.of_nat k) start) as [Hk|Hk].
  { apply scan_headless; [done..|]. unfold start, len64 in Hk. lia. }
  split; [by apply scan_truncated|]. intros w p Hw.
  assert (∃ tail, file = header_bytes cpu h ++ entries_bytes cpu kept ++ tail) as [tail E].
  { unfold file. rewrite recording_split.
    assert (length (header_bytes cpu h) ≤ k)%nat as Hk' by (unfold start, len64 in Hk; lia).
    pose proof (cut_entries cpu k es (closing_bytes cpu h es) _ Hk') as Hcut. cbn zeta in Hcut.
    destruct Hcut as [(_ & _ & ->)|(? & ? & ? & _ & _ & _ & ->)]; by eexists. }
  rewrite E in *. by apply (rows_read cpu Hcpu _ _ tail _ w); [..|apply survivors_Forall, Hrd].
Qed.

(** C22. What was acknowledged survives a failing append: when the device
    takes only [k] bytes of an entry's frame, the append reports an error,
    the files closed before are as they were, and scanning the current file
    finds exactly the entries appended to it before. *)
Theorem failed_append_keeps_the_rest base o w es e k fs :
  faults w = [] → N.of_nat (length es) + 1 < 2 ^ 32 →
  (∀ i n, recordable cpu (header_of o) (take n (drop i es))) →
  encodable e → (k < length (entry_bytes cpu e))%nat →
  ∃ w1 r1 w2 r2 parts current context w3 r3,
    create cpu base o w = (w1, Ok r1) ∧
    for_each (append cpu) es (w1, r1) = ((w2, r2), Ok tt) ∧
    mjoin parts ++ current = es ∧
    append cpu e (with_faults (Some k :: fs) w2, r2) = ((w3, r3), Err (Io context)) ∧
    Forall2 (finished_file cpu w3 o) (wr_completed_files r2) parts ∧
    ∃ file, files w3 !! wr_current_path r2 = Some file ∧
      let start := len64 (header_bytes cpu (header_of o)) in
      scan_bytes cpu file =
        Ok (mkReport (header_of o) (rows cpu start current)
              (len64 (open_bytes cpu (header_of o) current))
              (if Nat.eqb k 0 then EndOfFile else Truncated) true).
Proof.
  intros Hw Hlen Hrd He Hk. set (h := header_of o) in *.
  destruct (session_reached base o w es Hw Hlen Hrd) as (w1 & r1 & w2 & r2 & parts & cur & E1 & E2 & S2 & J2 & Hinfix).
  destruct (Hinfix (mjoin parts) cur []) as (Hh & Hcur & _); [by rewrite app_nil_r|].
  pose proof S2 as [Hrec Hb Ho Hs Hp Hc Hf Hone].
  destruct (append_fault cpu w2 r2 cur e k fs Hrec He Hk) as (w3 & r3 & context & E3 & Hw3).
  exists w1, r1, w2, r2, parts, cur, context, w3, r3. split_and!; [done..| |].
  - rewrite Hc. rewrite Hp in Hw3. by eapply (finished_elsewhere cpu base o w2 w3).
  - eexists. rewrite Hw3, lookup_insert_eq. split; [done|]. rewrite Ho. fold h.
    by apply scan_open_cut.
Qed.

(** C23. Merging is the sorted union: finished recordings open, and merging
    their readers into a writer that writes none of their files does exactly
    what appending one list to it would do, a list that holds the entries of
    all recordings, each as often as they do, ordered by timestamp, node and
    output; the count returned is its length. *)
Theorem merge_is_the_sorted_union paths recordings w r :
  faults w = [] →
  Forall2 (λ p x, files w !! p = Some (recording_bytes cpu x.1 x.2) ∧ recordable cpu x.1 x.2) paths recordings →
  Forall (foreign r) paths →
  ∃ readers l,
    Forall2 (λ p reader, open cpu p w = (w, Ok reader)) paths readers ∧
    l ≡ₚ mjoin recordings.*2 ∧ StronglySorted entry_le l ∧
    merge cpu readers (w, r) = (for_each (append cpu) l ;; ret (N.of_nat (length l))) (w, r).
Proof.
  intros Hw Hrecs Hforeign.
  assert (∃ readers, Forall2 (λ p reader, open cpu p w = (w, Ok reader)) paths readers ∧
    serve cpu readers recordings.*2 w ∧ Forall (λ src, foreign r (rd_path src)) readers) as (readers & Ho & Hs & Hf).
  { clear -Hcpu Hw Hrecs Hforeign H0 H1 H3.
    induction Hrecs as [|p [h es] paths recordings [Hp Hrd] _ IH]; [exists []; by repeat constructor|].
    apply Forall_cons in Hforeign as [Hp' Hforeign]. destruct (IH Hforeign) as (readers & Ho & Hs & Hf).
    destruct (finished_reads_back w h p es Hrd) as (reader & Er & _ & Hr & _); [done|].
    assert (rd_path reader = p) as Ep by (by rewrite (open_written cpu Hcpu p h es w) in Er; simplify_eq).
    exists (reader :: readers). split_and!; [by constructor|by constructor|]. constructor; [by rewrite Ep|done]. }
  exists readers, (omap (pick_key recordings.*2) (merge_sort merge_le (merge_keys readers))).
  split_and!; [done| |by eapply merged_sorted|].
  - rewrite merge_sort_Permutation. by rewrite (merge_keys_entries cpu readers _ w Hs).
  - unfold merge. rewrite (merge_loop_appends cpu readers recordings.*2) by
      (try done; intros k; by rewrite merge_sort_Permutation). done.
Qed.
End theorems.

(** ** Statistics *)

Definition port_rows (port : str * str) (index : list IndexEntry) : list IndexEntry :=
  filter (λ e, (ix_node e, ix_output e) = port) index.

Definition payload_sum (index : list IndexEntry) : N := foldr (λ e n, ix_payload_len e + n) 0 index.

(** The least and the greatest timestamp of the rows. *)
Definition spans (range : option (HlcTimestamp * HlcTimestamp)) (index : list IndexEntry) : Prop :=
  match range with
  | None => index = []
  | Some (a, b) => a ∈ ix_hlc <$> index ∧ b ∈ ix_hlc <$> index ∧
      Forall (λ e, key_le a (ix_hlc e) ∧ key_le (ix_hlc e) b) index
  end.

Lemma ts_leb_le a b : ts_leb a b = true ↔ key_le a b.
Proof.
  destruct a as [p l], b as [p' l']. unfold ts_leb, ts_compare. cbn. unfold inj_le. cbn. unfold pair_le, strict. cbn.
  destruct (N.compare_spec p p') as [->|Hlt|Hlt]; [destruct (N.compare_spec l l')|..]; split; try done; lia.
Qed.

Lemma spans_snoc range index e :
  spans range index → spans (Some (widen range (ix_hlc e))) (index ++ [e]).
Proof.
  unfold spans. rewrite fmap_app. destruct range as [[a b]|]; cbn [widen].
  - intros (Ha & Hb & Hall). unfold ts_min, ts_max.
    assert (∀ x y, ts_leb x y = false → key_le y x) as Hno.
    { intros x y E. destruct (total key_le x y) as [Hxy|]; [|done]. apply ts_leb_le in Hxy. congruence. }
    rewrite Forall_app, Forall_singleton.
    destruct (ts_leb a (ix_hlc e)) eqn:E1; [apply ts_leb_le in E1|apply Hno in E1];
    (destruct (ts_leb b (ix_hlc e)) eqn:E2; [apply ts_leb_le in E2|apply Hno in E2]);
    (split; [set_solver|]; split; [set_solver|]; split; [|done]);
    eapply Forall_impl; try exact Hall; cbn; intros x [Hx1 Hx2]; split;
      first [done|by etrans; [exact Hx2|exact E2]|by etrans; [exact E1|exact Hx1]].
  - intros ->. cbn. split_and!; [by left|by left|]. by apply Forall_singleton.
Qed.

Lemma payload_sum_app a b : payload_sum (a ++ b) = payload_sum a + payload_sum b.
Proof. induction a as [|e a IH]; cbn; [done|]. unfold payload_sum in *. rewrite IH. lia. Qed.

(** The statistics count what is there: the number of rows, the sum of
    their payload lengths, the least and greatest timestamps, and for every
    port the number and the payload bytes of its rows, with no other port
    listed. *)
Theorem stats_count_the_entries r size :
  let s := stats_of r size in
  s_entry_count s = N.of_nat (length (rd_index r)) ∧
  s_uncompressed_payload_bytes s = payload_sum (rd_index r) ∧
  spans (s_hlc_range s) (rd_index r) ∧
  ∀ port, s_ports s !! port =
    match port_rows port (rd_index r) with
    | [] => None
    | rows => Some (mkPortStats (N.of_nat (length rows)) (payload_sum rows))
    end.
Proof.
  cbn zeta. unfold stats_of.
  set (step := λ acc e, _).
  assert (∀ index, let '(total, range, ports) := foldl step (0, None, ∅) index in
    total = payload_sum index ∧ spans range index ∧
    ∀ port : str * str, ports !! port =
      match port_rows port index with
      | [] => None
      | rows => Some (mkPortStats (N.of_nat (length rows)) (payload_sum rows))
      end) as Hfold.
  { intros index. induction index as [|e index IH] using rev_ind; [done|].
    rewrite foldl_app. cbn [foldl]. destruct (foldl step _ index) as [[total range] ports].
    destruct IH as (-> & Hr & Hp). cbn [step]. split_and!.
    - rewrite payload_sum_app. cbn. lia.
    - by apply spans_snoc.
    - intros port. unfold count_entry, port_rows in *. rewrite filter_app, filter_cons, filter_nil.
      case_decide as Hd.
      + rewrite Hd, lookup_insert_eq, (Hp port).
        destruct (filter _ index) as [|x l]; cbn [default app length ps_count ps_payload_bytes id].
        { unfold payload_sum. cbn. do 2 f_equal. lia. }
        rewrite length_app, app_comm_cons, payload_sum_app. unfold payload_sum. cbn. do 2 f_equal; lia.
      + rewrite app_nil_r, lookup_insert_ne by done. apply Hp. }
  specialize (Hfold (rd_index r)). destruct (foldl step _ _) as [[total range] ports]. by destruct Hfold.
Qed.
