(* ===== verification/RecordingScenarios.v ===== *)
(** * Recordings, evaluated

    A concrete encoding and compressor, so that the model of [Recording]
    runs; the executions that witness the theorems of [RecordingLaws]; and
    executions in which a recording is lost although the calls that made it
    succeeded: a segment whose successor cannot be opened is emptied
    ([failed_rotation_empties_the_segment]), a finish repeated after a
    failure writes an empty index ([retried_finish_forgets_the_entries]), an
    entry appended after [finish] cannot be found
    ([append_after_finish_is_lost]), and after a failed append the offsets
    are wrong ([append_after_a_failure_misplaces_the_index]). *)

From Stdlib Require Import Lia.
From stdpp Require Import base tactics list gmap strings numbers sorting.
From S2P Require Import Prelude Text TimeHlc Crc32c WireFrame RaftWalScenarios WireMetadata Ordered MuxCompress Recording RecordingLaws.

Open Scope N_scope.

(** ** A plain encoding *)

Definition ts_to (t : HlcTimestamp) : N * N := (physical_ns t, logical t).
Definition ts_from (p : N * N) : HlcTimestamp := mkTs p.1 p.2.
Lemma ts_iso t : ts_from (ts_to t) = t.
Proof. by destruct t. Qed.

#[global] Instance bin_ts : Bin HlcTimestamp := bin_via ts_to ts_from.
#[global] Instance bin_ts_laws : BinLaws HlcTimestamp := bin_via_laws _ _ ts_iso.

Definition header_to (h : Header) : HlcTimestamp * (N * list N) := (h_hlc_epoch h, (h_dataflow h, h_manifest_yaml h)).
Definition header_from (p : HlcTimestamp * (N * list N)) : Header := mkRecHeader p.1 p.2.1 p.2.2.
Lemma header_iso h : header_from (header_to h) = h.
Proof. by destruct h. Qed.

#[global] Instance bin_header : Bin Header := bin_via header_to header_from.
#[global] Instance bin_header_laws : BinLaws Header := bin_via_laws _ _ header_iso.

Definition row_to (r : IndexEntry) : N * (HlcTimestamp * (list N * (list N * N))) :=
  (ix_offset r, (ix_hlc r, (ix_node r, (ix_output r, ix_payload_len r)))).
Definition row_from (p : N * (HlcTimestamp * (list N * (list N * N)))) : IndexEntry :=
  mkIndexEntry p.1 p.2.1 p.2.2.1 p.2.2.2.1 p.2.2.2.2.
Lemma row_iso r : row_from (row_to r) = r.
Proof. by destruct r. Qed.

#[global] Instance bin_row : Bin IndexEntry := bin_via row_to row_from.
#[global] Instance bin_row_laws : BinLaws IndexEntry := bin_via_laws _ _ row_iso.

Lemma footer_iso f : mkFooter (ft_entries f) = f.
Proof. by destruct f. Qed.

#[global] Instance bin_footer : Bin Footer := bin_via ft_entries mkFooter.
#[global] Instance bin_footer_laws : BinLaws Footer := bin_via_laws _ _ footer_iso.

(** Entries without parameters; the others are refused. *)
Definition EntryParts : Type := list N * (list N * (HlcTimestamp * list N)).

Definition entry_parts (e : Entry) : EntryParts :=
  (en_node e, (en_output e, (entry_hlc e, en_payload e))).
Definition entry_of_parts (p : EntryParts) : Entry :=
  mkRecEntry p.1 p.2.1 (metadata_new p.2.2.1) p.2.2.2.

Definition is_plain (e : Entry) : bool :=
  (md_version (en_meta e) =? METADATA_VERSION) && bool_decide (md_parameters (en_meta e) = ∅).

Lemma plain_entry_iso e : is_plain e = true → entry_of_parts (entry_parts e) = e.
Proof.
  destruct e as [n o [v t ps] p]. unfold is_plain. cbn.
  intros [->%N.eqb_eq ->%bool_decide_eq_true]%andb_prop. done.
Qed.

Definition entry_oxicode : Oxicode Entry := {|
  ox_size e := Ok (length (bin_enc (entry_parts e)));
  ox_encode e := if is_plain e then (bin_enc (entry_parts e), Ok tt) else ([], Err "parameters"%string);
  ox_decode bytes :=
    match bin_dec (T:=EntryParts) bytes with
    | Some (p, rest) => Ok (entry_of_parts p, (length bytes - length rest)%nat)
    | None => Err "malformed"%string
    end
|}.

Lemma entry_oxicode_laws : @OxicodeLaws Entry entry_oxicode.
Proof.
  split; cbn [ox_encode ox_decode ox_size entry_oxicode].
  - intros e bytes rest. destruct (is_plain e) eqn:Ep; [|done].
    intros E. assert (bytes = bin_enc (entry_parts e)) as -> by congruence.
    rewrite (bin_roundtrip (T:=EntryParts)), length_app, plain_entry_iso by done. do 2 f_equal. lia.
  - intros e bytes. by destruct (is_plain e); intros [= <-].
  - intros e. destruct (is_plain e); [apply bin_bytes|constructor].
  - intros bytes v k. destruct (bin_dec bytes) as [[? rest]|]; [|done]. intros [= _ <-]. lia.
Qed.

#[global] Instance plain_rec_codec : RecCodec := {|
  rc_header := plain_oxicode;
  rc_entry := entry_oxicode;
  rc_footer := plain_oxicode
|}.

#[global] Instance plain_rec_codec_laws : @RecCodecLaws plain_rec_codec.
Proof. split; [apply plain_oxicode_laws|apply entry_oxicode_laws|apply plain_oxicode_laws]. Qed.

#[global] Instance run_length_bytes : @ZstdBytes RunLength.codecs.
Proof.
  intros p level b Hp. cbn. intros [= <-]. unfold RunLength.pack.
  destruct p as [|x p]; [by repeat constructor|]. apply Forall_cons in Hp as [Hx Hp].
  destruct (_ && _); [|by repeat constructor].
  constructor; [done|]. constructor; [done|]. apply to_le_is_byte.
Qed.

(** ** Deciding what the theorems ask for *)

Abbreviation cpu := NoCrcInstructions.

Definition encodableb {T} `{Oxicode T} (v : T) : bool :=
  match encode_to_vec v with
  | Ok plain => len64 (compress_for_frame plain).1 <=? u32_max
  | Err _ => false
  end.

Lemma encodableb_ok {T} `{Oxicode T} (v : T) : encodableb v = true → encodable v.
Proof.
  unfold encodableb. destruct (encode_to_vec v) as [plain|] eqn:E; [|done].
  intros Hl%N.leb_le. by exists plain.
Qed.

Definition recordableb (h : Header) (es : list Entry) : bool :=
  let index := rows cpu (len64 (header_bytes cpu h)) es in
  encodableb h && forallb encodableb es && encodableb (mkFooter index) &&
  (len64 (footer_bytes cpu index) <=? u32_max) && (len64 (recording_bytes cpu h es) <=? u64_max).

Lemma recordableb_ok h es : recordableb h es = true → recordable cpu h es.
Proof.
  unfold recordableb. cbn zeta. intros Hb.
  do 4 (apply andb_prop in Hb as [Hb ?]). split_and!.
  - by apply encodableb_ok.
  - apply Forall_forall. intros e He. apply encodableb_ok.
    apply (proj1 (forallb_forall encodableb es)); [done|]. by apply list_elem_of_In.
  - by apply encodableb_ok.
  - by apply N.leb_le.
  - by apply N.leb_le.
Qed.

(** Every run of consecutive entries. *)
Definition runs_recordableb (h : Header) (es : list Entry) : bool :=
  forallb (λ i, forallb (λ n, recordableb h (take n (drop i es))) (seq 0 (S (length es)))) (seq 0 (S (length es))).

Lemma runs_recordableb_ok h es :
  runs_recordableb h es = true → ∀ i n, recordable cpu h (take n (drop i es)).
Proof.
  intros Hb i n. apply recordableb_ok.
  assert (take n (drop i es) = take (n `min` length es) (drop (i `min` length es) es)) as ->.
  { destruct (decide (i ≤ length es)%nat).
    - rewrite (Nat.min_l i) by done. destruct (decide (n ≤ length es)%nat); [by rewrite Nat.min_l|].
      rewrite Nat.min_r by lia. rewrite !take_ge; [done|rewrite length_drop; lia..].
    - rewrite (Nat.min_r i) by lia. rewrite !drop_ge by lia. by rewrite !take_nil. }
  unfold runs_recordableb in Hb. rewrite forallb_forall in Hb.
  specialize (Hb (i `min` length es)%nat). rewrite forallb_forall in Hb.
  apply Hb; apply in_seq; lia.
Qed.

(** ** A recording with two segments *)

Definition entry_at (t seq : N) : Entry :=
  mkRecEntry (lit "a") (lit "b") (metadata_new (mkTs t 0)) [seq].

Definition three_entries : list Entry := [entry_at 5 1; entry_at 3 2; entry_at 4 3].

Definition session_path : Path := [Normal (lit "s.arec")].

Definition session_options (r : RotationPolicy) : WriterOptions :=
  options_with_rotation r (options_new 1 (mkTs 0 0)).

Definition empty_world : World := mkWorld ∅ [] 0 [].

Lemma recording_is_lossless_witness :
  let o := session_options (rotation_by_size 300) in
  ∃ w1 r1 w2 r2 w3 r3 paths parts,
    create cpu session_path o empty_world = (w1, Ok r1) ∧
    for_each (append cpu) three_entries (w1, r1) = ((w2, r2), Ok tt) ∧
    finish cpu (w2, r2) = ((w3, r3), Ok paths) ∧
    mjoin parts = three_entries ∧ NoDup paths ∧
    (rotation_enabled (wo_rotation o) = false → paths = [session_path]) ∧
    Forall2 (λ p part, files w3 !! p = Some (recording_bytes cpu (header_of o) part) ∧
                       reads_back cpu w3 (header_of o) p part) paths parts.
Proof.
  apply (recording_is_lossless cpu I); [done|done|]. apply runs_recordableb_ok. by vm_compute.
Defined.

Lemma recovery_is_exact_witness :
  let h := header_of (session_options rotation_none) in
  let file := take 300 (recording_bytes cpu h three_entries) in
  scan_bytes cpu file = Ok (mkReport h (rows cpu 28 [entry_at 5 1]) 253 Truncated true) ∧
  ∀ w p, holds w p file →
    Forall2 (reads cpu (mkReader p (len64 file) h (rows cpu 28 [entry_at 5 1])) w)
      (rows cpu 28 [entry_at 5 1]) [entry_at 5 1].
Proof.
  assert (recordable cpu (header_of (session_options rotation_none)) three_entries) as Hr
    by (apply recordableb_ok; by vm_compute).
  pose proof (recovery_is_exact cpu I (header_of (session_options rotation_none)) three_entries 300 Hr) as Hx.
  revert Hx. cbn zeta.
  assert (len64 (header_bytes cpu (header_of (session_options rotation_none))) = 28) as -> by (by vm_compute).
  assert (survivors cpu (N.of_nat 300) 28 three_entries = [entry_at 5 1]) as -> by (by vm_compute).
  assert (28 + len64 (entries_bytes cpu [entry_at 5 1]) = 253) as -> by (by vm_compute).
  assert ((28 + len64 (entries_bytes cpu three_entries) +
    len64 (footer_bytes cpu (rows cpu 28 three_entries)) <=? N.of_nat 300) = false) as -> by (by vm_compute).
  exact id.
Defined.

Lemma failed_append_keeps_the_rest_witness :
  let o := session_options (rotation_by_size 300) in
  ∃ w1 r1 w2 r2 parts current context w3 r3,
    create cpu session_path o empty_world = (w1, Ok r1) ∧
    for_each (append cpu) three_entries (w1, r1) = ((w2, r2), Ok tt) ∧
    mjoin parts ++ current = three_entries ∧
    append cpu (entry_at 9 9) (with_faults [Some 17%nat] w2, r2) = ((w3, r3), Err (Io context)) ∧
    Forall2 (finished_file cpu w3 o) (wr_completed_files r2) parts ∧
    ∃ file, files w3 !! wr_current_path r2 = Some file ∧
      let start := len64 (header_bytes cpu (header_of o)) in
      scan_bytes cpu file =
        Ok (mkReport (header_of o) (rows cpu start current)
              (len64 (open_bytes cpu (header_of o) current)) Truncated true).
Proof.
  apply (failed_append_keeps_the_rest cpu I session_path (session_options (rotation_by_size 300))
    empty_world three_entries (entry_at 9 9) 17 []); [done|done| | |].
  - apply runs_recordableb_ok. by vm_compute.
  - apply encodableb_ok. by vm_compute.
  - apply Nat.ltb_lt. by vm_compute.
Defined.

(** Two recordings and a writer for their union. *)
Definition two_recordings : list (Header * list Entry) :=
  let h := header_of (session_options rotation_none) in
  [(h, [entry_at 1 1; entry_at 5 2]); (h, [entry_at 3 3])].

Definition two_paths : list Path := [[Normal (lit "x.arec")]; [Normal (lit "y.arec")]].

Definition two_files : World :=
  mkWorld (list_to_map (zip two_paths ((λ x, recording_bytes cpu x.1 x.2) <$> two_recordings))) [] 0 [].

Definition union_writer : Writer :=
  mkWriter session_path (session_options rotation_none) 1 session_path (mkBuf session_path []) 0 [] 0 [] false.

Lemma segment_of_session n : segment_path session_path n = [Normal (lit "s-" ++ pad4 n ++ lit ".arec")].
Proof. done. Qed.

Lemma merge_is_the_sorted_union_witness :
  ∃ readers l,
    Forall2 (λ p reader, open cpu p two_files = (two_files, Ok reader)) two_paths readers ∧
    l ≡ₚ mjoin two_recordings.*2 ∧ StronglySorted entry_le l ∧
    merge cpu readers (two_files, union_writer) =
      (for_each (append cpu) l ;; ret (N.of_nat (length l))) (two_files, union_writer).
Proof.
  apply (merge_is_the_sorted_union cpu I two_paths two_recordings two_files union_writer); [done| |].
  - do 2 (apply Forall2_cons_2; [split; [by vm_compute|apply recordableb_ok; by vm_compute]|]).
    apply Forall2_nil_2.
  - do 2 (apply Forall_cons_2; [split; [done|]; intros n; by rewrite segment_of_session|]).
    apply Forall_nil_2.
Defined.

(** ** What is lost *)

(** What a reader gets, and whether it had to scan for it. *)
Definition read_back (p : Path) : SysM (list Entry * bool) :=
  x <- open_or_recover cpu p ;;
  let '(reader, report) := x in
  l <- collect cpu reader (iter_all reader) ;;
  ret (l, was_recovered report).

(** Runs a session of a fresh writer. *)
Definition run {A} (o : WriterOptions) (fs : list (option nat)) (session : WrM A) :
    option (World * Writer * RecResult A) :=
  match create cpu session_path o (with_faults fs empty_world) with
  | (w, Ok r) => Some (session (w, r))
  | (_, Err _) => None
  end.

(** The rotation closes the first segment, then cannot create the second
    one.  The append fails; the segment is complete and readable.  Dropping
    the writer appends an empty footer to it: from then on the recording
    opens, without any sign of damage, and is empty. *)
Theorem failed_rotation_empties_the_segment :
  let first := segment_path session_path 1 in
  match run (session_options (rotation_by_size 100)) [None; None; None; None; Some 0%nat] (append cpu (entry_at 5 1)) with
  | Some ((w, r), result) =>
      result = Err (Io "creating .arec file") ∧
      (read_back first w).2 = Ok ([entry_at 5 1], false) ∧
      (read_back first (writer_drop cpu (w, r))).2 = Ok ([], false)
  | None => False
  end.
Proof. vm_compute. split_and!; reflexivity. Qed.

(** An entry appended after [finish] is acknowledged, but lies behind the
    trailer: the file no longer opens, and the scan stops at the footer
    before it. *)
Theorem append_after_finish_is_lost :
  match run (session_options rotation_none) []
    (append cpu (entry_at 5 1) ;; finish cpu ;; append cpu (entry_at 6 2) ;; finish cpu) with
  | Some ((w, r), result) =>
      result = Ok [session_path] ∧
      (read_back session_path (writer_drop cpu (w, r))).2 = Ok ([entry_at 5 1], true)
  | None => False
  end.
Proof. vm_compute. split_and!; reflexivity. Qed.

(** A second [finish] after a failed one. *)
Definition finish_twice : WrM (RecResult (list Path) * RecResult (list Path)) := λ s,
  let '(s, first) := finish cpu s in
  let '(s, second) := finish cpu s in
  (s, Ok (first, second)).

(** The index is taken from the writer before it is written.  When the write
    of a footer too large for the buffer fails without getting a byte out,
    finishing again succeeds, with an empty index: the recording opens
    without any sign of damage, and is empty. *)
Theorem retried_finish_forgets_the_entries :
  let large := mkRecEntry (lit "a") (lit "b") (metadata_new (mkTs 5 0)) (replicate 4000 0) in
  match run (session_options rotation_none) [None; None; None; None; Some 0%nat]
    (append cpu large ;; append cpu large ;; finish_twice) with
  | Some ((w, r), result) =>
      result = Ok (Err (Io "writing an .arec frame"), Ok [session_path]) ∧
      (read_back session_path (writer_drop cpu (w, r))).2 = Ok ([], false)
  | None => False
  end.
Proof. vm_compute. split_and!; reflexivity. Qed.

(** Going on after an append that failed. *)
Definition ignoring {A} (m : WrM A) : WrM (RecResult A) := λ s, let '(s, x) := m s in (s, Ok x).

(** What a failed flush leaves in the buffer is written with the next entry,
    but was not counted: later offsets are wrong.  The recording finishes,
    and [open] refuses it; the scan finds the entries, and the one that was
    reported as not recorded. *)
Theorem append_after_a_failure_misplaces_the_index :
  match run (session_options rotation_none) [None; None; None; Some 3%nat]
    (append cpu (entry_at 5 1) ;;
     x <- ignoring (append cpu (entry_at 6 2)) ;;
     append cpu (entry_at 7 3) ;;
     paths <- finish cpu ;;
     ret (x, paths)) with
  | Some ((w, r), result) =>
      result = Ok (Err (Io "flushing an .arec frame"), [session_path]) ∧
      (∃ e, (open cpu session_path w).2 = Err e) ∧
      (read_back session_path w).2 = Ok ([entry_at 5 1; entry_at 6 2; entry_at 7 3], true)
  | None => False
  end.
Proof. vm_compute. split_and!; [reflexivity|by eexists|reflexivity]. Qed.
