(* ===== verification/MuxState.v ===== *)
(** * The multiplexer of a connection

    Models [src/crates/astrs-transport/src/mux/state.rs], the handles of
    [mux/handle.rs], the loops of [mux/driver.rs], the [MuxConfig] and [Side]
    of [config.rs], the connection counters of [stats.rs] and the
    classification of errors of [error.rs]: the route table with its credit,
    the send scheduler, and the demultiplexer.

    The state behind the mutex is a record; a method takes it and returns it,
    with the result.  Channels and semaphores are [tokio]'s: classes of
    operations with their documented laws.  They are shared between the table
    and the handles the application holds, so they live in a store and both
    sides hold a location.  Waking tasks up is left out, and so are the
    per-route statistics, which nothing reads back. *)

From Stdlib Require Import Lia.
From stdpp Require Import base tactics gmap strings numbers list.
From S2P Require Import Prelude Crc32c Text Utf8 WireFrame MuxHeader MuxCompress.

Open Scope N_scope.

(** ** [tokio] *)

Inductive TrySendError : Set := Full | ReceiverGone.

(** [tokio::sync::mpsc], a channel of messages of type [A]. *)
Class Mpsc (A : Type) := {
  chan : Type;
  channel : N → chan;
  unbounded_channel : chan;
  try_send : A → chan → chan * result TrySendError unit;
  try_recv : chan → chan * option A;
  drop_receiver : chan → chan;
}.
Arguments chan A {_}.

(** What its documentation says: a message is buffered in order unless the
    receiver is gone or the bound is reached. *)
Class MpscLaws (A : Type) `{Mpsc A} := {
  waiting : chan A → list A;
  bound : chan A → option N;
  alive : chan A → bool;
  channel_new n : 0 < n →
    waiting (channel n) = [] ∧ bound (channel n) = Some n ∧ alive (channel n) = true;
  unbounded_new :
    waiting unbounded_channel = [] ∧ bound unbounded_channel = None ∧ alive unbounded_channel = true;
  try_send_spec a c :
    if negb (alive c) then try_send a c = (c, Err ReceiverGone)
    else if (match bound c with Some n => N.leb n (N.of_nat (length (waiting c))) | None => false end)
    then try_send a c = (c, Err Full)
    else ∃ c', try_send a c = (c', Ok tt) ∧ waiting c' = waiting c ++ [a] ∧
               bound c' = bound c ∧ alive c' = true;
  try_recv_spec c :
    match waiting c with
    | [] => try_recv c = (c, None)
    | a :: rest => ∃ c', try_recv c = (c', Some a) ∧ waiting c' = rest ∧
                         bound c' = bound c ∧ alive c' = alive c
    end;
  drop_receiver_spec c :
    waiting (drop_receiver c) = waiting c ∧ bound (drop_receiver c) = bound c ∧
    alive (drop_receiver c) = false;
}.

(** [tokio::sync::Semaphore]; a permit is returned when it is dropped. *)
Class Semaphore := {
  sem : Type;
  sem_new : N → sem;
  try_acquire : sem → option sem;
  release : sem → sem;
}.

Class SemaphoreLaws `{Semaphore} := {
  available : sem → N;
  sem_new_available n : available (sem_new n) = n;
  try_acquire_spec s :
    match try_acquire s with
    | Some s' => available s = available s' + 1
    | None => available s = 0
    end;
  release_spec s : available (release s) = available s + 1;
}.

(** ** [config.rs] *)

Definition DEFAULT_ROUTE_QUEUE_DEPTH : N := 32.
Definition DEFAULT_CONTROL_QUEUE_DEPTH : N := 256.
Definition DEFAULT_ROUTE_WINDOW_FRAMES : N := 32.
Definition DEFAULT_DATAGRAM_QUEUE_DEPTH : N := 64.
Definition DEFAULT_CONTROL_BURST : N := 8.

Record MuxConfig := mkConfig {
  mc_enabled : bool;
  initial_window_frames : N;
  route_queue_depth : N;
  control_queue_depth : N;
  datagram_queue_depth : N;
  control_burst : N;
  credit_grant_percent : N;
}.

Definition config_new : MuxConfig :=
  mkConfig true DEFAULT_ROUTE_WINDOW_FRAMES DEFAULT_ROUTE_QUEUE_DEPTH DEFAULT_CONTROL_QUEUE_DEPTH
    DEFAULT_DATAGRAM_QUEUE_DEPTH DEFAULT_CONTROL_BURST 50.

Definition credit_grant_threshold (c : MuxConfig) : N :=
  let scaled := (initial_window_frames c * credit_grant_percent c) / 100 in
  if N.eqb scaled 0 then 1 else scaled mod 2 ^ 32.

Definition mux_validate (c : MuxConfig) : result str unit :=
  if mc_enabled c then
    if N.eqb (initial_window_frames c) 0 then Err (lit "mux.initial_window_frames must be at least 1")
    else if N.eqb (route_queue_depth c) 0 then Err (lit "mux.route_queue_depth must be at least 1")
    else if N.eqb (control_queue_depth c) 0 then Err (lit "mux.control_queue_depth must be at least 1")
    else if N.eqb (control_burst c) 0 then Err (lit "mux.control_burst must be at least 1")
    else if N.eqb (credit_grant_percent c) 0 || N.ltb 100 (credit_grant_percent c)
    then Err (lit "mux.credit_grant_percent must be in 1..=100")
    else Ok tt
  else Ok tt.

Inductive Side : Set := Initiator | Acceptor.

#[global] Instance side_eq_dec : EqDecision Side.
Proof. solve_decision. Defined.

Definition peer (s : Side) : Side := match s with Initiator => Acceptor | Acceptor => Initiator end.

Definition first_route (s : Side) : RouteId := match s with Initiator => 1 | Acceptor => 2 end.

Definition owns_route (s : Side) (route : RouteId) : bool :=
  if is_none route then false
  else
    let odd := N.eqb (route mod 2) 1 in
    match s with Initiator => odd | Acceptor => negb odd end.

(** ** [stats.rs]: the counters of a connection

    The counts of events; the totals of bytes are left out. *)

Inductive Counter : Set :=
  | FramesCompressed | CompressionSkipped | DatagramsSent | DatagramsReceived | DatagramsDropped
  | SendStalls | CreditGrantsSent | CreditGrantsReceived | RoutesOpened | RoutesClosed
  | RoutesActive | Errors.

#[global] Instance counter_eq_dec : EqDecision Counter.
Proof. solve_decision. Defined.

Definition Counters : Type := Counter → N.

Definition store (c : Counter) (n : N) (k : Counters) : Counters :=
  λ x, if decide (x = c) then n else k x.

(** [fetch_add(1)] *)
Definition bump (c : Counter) (k : Counters) : Counters := store c ((k c + 1) mod two64) k.

Definition record_route_opened (k : Counters) : Counters :=
  let k := bump RoutesOpened k in store RoutesActive ((k RoutesActive + 1) mod 2 ^ 32) k.

Definition record_route_closed (k : Counters) : Counters :=
  let k := bump RoutesClosed k in store RoutesActive (k RoutesActive - 1) k.

(** ** [error.rs]: what an error does to the connection *)

Definition is_protocol_violation (e : WireError) : bool :=
  match e with SizeHintMismatch _ _ => false | _ => true end.

Definition is_fatal (e : TransportError) : bool :=
  match e with
  | Wire e => is_protocol_violation e
  | Closed _ | NotConnected | MalformedMux _ | FlowControlViolation _ _ | CompressionNotNegotiated _
  | DecompressedTooLarge _ _ | DecompressedLengthMismatch _ _ | TruncatedCompressionHeader _ _ => true
  | _ => false
  end.

Definition is_peer_fault (e : TransportError) : bool :=
  match e with
  | Wire e => is_protocol_violation e
  | MalformedMux _ | FlowControlViolation _ _ | CompressionNotNegotiated _
  | DecompressedTooLarge _ _ | DecompressedLengthMismatch _ _ | TruncatedCompressionHeader _ _
  | DuplicateRoute _ => true
  | _ => false
  end.

(** ** The state behind the mutex *)

Definition loc : Set := N.

Record Outbound := mkOutbound {
  ob_frame : Frame;
  ob_route : RouteId;
  ob_payload_bytes : N;
  ob_consumes_credit : bool;
  ob_permit : option loc;
}.

(** [Outbound::control] *)
Definition outbound_control (frame : Frame) : Outbound := mkOutbound frame NONE 0 false None.

Record RouteEntry := mkEntry {
  re_queue : list Outbound;
  re_credit : N;
  re_window : N;
  re_consumed : N;
  re_inbound : loc;
  re_compression : Compression;
  re_confirmed : bool;
}.

Definition entry_is_ready (e : RouteEntry) : bool :=
  match re_queue e with
  | front :: _ => negb (ob_consumes_credit front) || N.ltb 0 (re_credit e)
  | [] => false
  end.

Definition set_queue (q : list Outbound) (e : RouteEntry) : RouteEntry :=
  mkEntry q (re_credit e) (re_window e) (re_consumed e) (re_inbound e) (re_compression e) (re_confirmed e).
Definition set_credit (c : N) (e : RouteEntry) : RouteEntry :=
  mkEntry (re_queue e) c (re_window e) (re_consumed e) (re_inbound e) (re_compression e) (re_confirmed e).
Definition set_consumed (n : N) (e : RouteEntry) : RouteEntry :=
  mkEntry (re_queue e) (re_credit e) (re_window e) n (re_inbound e) (re_compression e) (re_confirmed e).

(** Where frames for the application go: the control and the datagram
    channel, and whether routes are still announced. *)
Record InboundSinks := mkSinks {
  sink_control : option loc;
  sink_datagrams : option loc;
  sink_accepts : bool;
}.

Definition sinks_default : InboundSinks := mkSinks None None false.

Record MuxState := mkState {
  control : list Outbound;
  datagrams : list Outbound;
  routes : gmap RouteId RouteEntry;
  order : list RouteId;
  control_run : N;
  inbound : InboundSinks;
}.

Definition set_control (l : list Outbound) (s : MuxState) : MuxState :=
  mkState l (datagrams s) (routes s) (order s) (control_run s) (inbound s).
Definition set_datagrams (l : list Outbound) (s : MuxState) : MuxState :=
  mkState (control s) l (routes s) (order s) (control_run s) (inbound s).
Definition set_routes (r : gmap RouteId RouteEntry) (s : MuxState) : MuxState :=
  mkState (control s) (datagrams s) r (order s) (control_run s) (inbound s).
Definition set_order (o : list RouteId) (s : MuxState) : MuxState :=
  mkState (control s) (datagrams s) (routes s) o (control_run s) (inbound s).
Definition set_control_run (n : N) (s : MuxState) : MuxState :=
  mkState (control s) (datagrams s) (routes s) (order s) n (inbound s).
Definition set_entry (route : RouteId) (e : RouteEntry) (s : MuxState) : MuxState :=
  set_routes (<[route := e]> (routes s)) s.

(** ** The scheduler *)

Definition saturating_add32 (a b : N) : N := N.min (a + b) u32_max.

Definition pop_unmetered (s : MuxState) : MuxState * option Outbound :=
  match control s with
  | item :: rest => (set_control rest s, Some item)
  | [] =>
      match datagrams s with
      | item :: rest => (set_datagrams rest s, Some item)
      | [] => (s, None)
      end
  end.

(** The loop of [pop_route], with the number of routes left to look at. *)
Fixpoint pop_route_loop (k : nat) (s : MuxState) : MuxState * option Outbound :=
  match k with
  | O => (s, None)
  | S k =>
      match order s with
      | [] => (s, None)
      | route :: rest =>
          let s := set_order (rest ++ [route]) s in
          match routes s !! route with
          | None => pop_route_loop k s
          | Some entry =>
              if negb (entry_is_ready entry) then pop_route_loop k s
              else
                match re_queue entry with
                | [] => (s, None)
                | item :: queue =>
                    let entry := set_queue queue entry in
                    let entry := if ob_consumes_credit item
                                 then set_credit (re_credit entry - 1) entry else entry in
                    (set_entry route entry s, Some item)
                end
          end
      end
  end.

Definition pop_route (s : MuxState) : MuxState * option Outbound :=
  pop_route_loop (length (order s)) s.

Definition pop_next (burst : N) (s : MuxState) : MuxState * option Outbound :=
  let fallback s :=
    match pop_route s with
    | (s, Some item) => (set_control_run 0 s, Some item)
    | (s, None) =>
        match pop_unmetered s with
        | (s, Some item) => (set_control_run (saturating_add32 (control_run s) 1) s, Some item)
        | (s, None) => (s, None)
        end
    end in
  if N.ltb (control_run s) burst then
    match pop_unmetered s with
    | (s, Some item) => (set_control_run (saturating_add32 (control_run s) 1) s, Some item)
    | (s, None) => fallback s
    end
  else fallback s.

Definition has_work (s : MuxState) : bool :=
  negb (bool_decide (control s = [])) || negb (bool_decide (datagrams s = []))
  || existsb (λ e, entry_is_ready e.2) (map_to_list (routes s)).

(** ** The multiplexer *)

(** A route the peer opened: its receiver and its queue permits are named by
    one location. *)
Record InboundRoute := mkInbound {
  ir_route : RouteId;
  ir_descriptor : list N;
  ir_receiver : loc;
  ir_compression : Compression;
}.

Record OpenedRoute := mkOpened {
  or_route : RouteId;
  or_receiver : loc;
  or_compression : Compression;
}.

(** What a connection is created with. *)
Record MuxEnv := mkEnv {
  me_config : MuxConfig;
  me_side : Side;
  me_max_routes : N;
  me_compression : CompressionPolicy;
}.

Inductive Dispatched : Set := Handled | PeerClosed.

Section mux.
Context {MF : Mpsc Frame} {MI : Mpsc InboundRoute} {SM : Semaphore} {OA : OxiArc}.

(** The channels and semaphores, by location: [CONTROL] and [DATAGRAMS] are
    the application's receivers, [CONTROL] is also the location of the
    control queue's permits; every route gets a location of its own. *)
Record Store := mkStore {
  chans : gmap loc (chan Frame);
  sems : gmap loc sem;
  accepts : chan InboundRoute;
  next_loc : loc;
}.

Record MuxShared := mkShared {
  ms_env : MuxEnv;
  max_payload : N;
  max_datagram : N;
  ms_state : MuxState;
  closed : bool;
  close_reason : option CloseReason;
  next_route : N;
  counters : Counters;
  ms_store : Store;
}.

Definition CONTROL : loc := 0.
Definition DATAGRAMS : loc := 1.

Definition shared_new (config : MuxConfig) (side : Side) (compression : CompressionPolicy)
    (max_payload max_routes : N) : MuxShared :=
  let control_ch := channel (N.max (control_queue_depth config) 1) in
  let datagram_ch := channel (N.max (datagram_queue_depth config) 1) in
  mkShared (mkEnv config side max_routes compression) max_payload 0
    (mkState [] [] ∅ [] 0 (mkSinks (Some CONTROL) (Some DATAGRAMS) true))
    false None (first_route side) (λ _, 0)
    (mkStore (<[CONTROL := control_ch]> {[DATAGRAMS := datagram_ch]})
       {[CONTROL := sem_new (N.max (control_queue_depth config) 1)]} unbounded_channel 2).

Definition config (m : MuxShared) : MuxConfig := me_config (ms_env m).
Definition side (m : MuxShared) : Side := me_side (ms_env m).

Definition with_state (f : MuxState → MuxState) (m : MuxShared) : MuxShared :=
  mkShared (ms_env m) (max_payload m) (max_datagram m) (f (ms_state m)) (closed m) (close_reason m)
    (next_route m) (counters m) (ms_store m).
Definition with_counters (f : Counters → Counters) (m : MuxShared) : MuxShared :=
  mkShared (ms_env m) (max_payload m) (max_datagram m) (ms_state m) (closed m) (close_reason m)
    (next_route m) (f (counters m)) (ms_store m).
Definition with_store (f : Store → Store) (m : MuxShared) : MuxShared :=
  mkShared (ms_env m) (max_payload m) (max_datagram m) (ms_state m) (closed m) (close_reason m)
    (next_route m) (counters m) (f (ms_store m)).
Definition set_max_payload (bytes : N) (m : MuxShared) : MuxShared :=
  mkShared (ms_env m) bytes (max_datagram m) (ms_state m) (closed m) (close_reason m)
    (next_route m) (counters m) (ms_store m).
Definition set_max_datagram_bytes (bytes : N) (m : MuxShared) : MuxShared :=
  mkShared (ms_env m) (max_payload m) bytes (ms_state m) (closed m) (close_reason m)
    (next_route m) (counters m) (ms_store m).
Definition set_closed (reason : option CloseReason) (m : MuxShared) : MuxShared :=
  mkShared (ms_env m) (max_payload m) (max_datagram m) (ms_state m) true reason
    (next_route m) (counters m) (ms_store m).

Definition count (c : Counter) : MuxShared → MuxShared := with_counters (bump c).

Definition set_chan (l : loc) (c : chan Frame) (s : Store) : Store :=
  mkStore (<[l := c]> (chans s)) (sems s) (accepts s) (next_loc s).
Definition set_sem (l : loc) (x : sem) (s : Store) : Store :=
  mkStore (chans s) (<[l := x]> (sems s)) (accepts s) (next_loc s).
Definition set_accepts (c : chan InboundRoute) (s : Store) : Store :=
  mkStore (chans s) (sems s) c (next_loc s).

(** Dropping a queued frame returns its permit. *)
Definition drop_item (s : Store) (item : Outbound) : Store :=
  match ob_permit item with
  | None => s
  | Some l => match sems s !! l with Some x => set_sem l (release x) s | None => s end
  end.

Definition drop_items (items : list Outbound) (m : MuxShared) : MuxShared :=
  with_store (λ s, foldl drop_item s items) m.

(** [take_batch] *)
Fixpoint take_batch (max : nat) (m : MuxShared) : MuxShared * list Outbound :=
  match max with
  | O => (m, [])
  | S max =>
      match pop_next (control_burst (config m)) (ms_state m) with
      | (s, Some item) =>
          let '(m, batch) := take_batch max (with_state (λ _, s) m) in (m, item :: batch)
      | (s, None) => (with_state (λ _, s) m, [])
      end
  end.

(** [next_route_id]: [fetch_add(2)] *)
Definition next_route_id (m : MuxShared) : MuxShared * RouteId :=
  (mkShared (ms_env m) (max_payload m) (max_datagram m) (ms_state m) (closed m) (close_reason m)
     ((next_route m + 2) mod two64) (counters m) (ms_store m),
   next_route m).

Definition push_control (item : Outbound) : MuxShared → MuxShared :=
  with_state (λ s, set_control (control s ++ [item]) s).

Definition max_datagram_bytes (m : MuxShared) : N :=
  if N.eqb (max_datagram m) 0 then max_payload m else N.min (max_datagram m) (max_payload m).

Abbreviation M := (stM MuxShared TransportError).

Definition ensure_open : M unit :=
  c <- gets closed ;; reason <- gets close_reason ;;
  if c then fail (match reason with Some reason => Closed reason | None => NotConnected end)
  else ret tt.

Definition check_payload (len : N) : M unit :=
  limit <- gets max_payload ;;
  if N.ltb limit len then fail (FrameTooLarge len limit) else ret tt.

Definition wire {A} (r : WireResult A) : M A := lift_result (map_err Wire r).

(** A frame of the protocol itself, on the control queue, if it can be
    built. *)
Definition push_protocol (tag : MuxTag) (route : RouteId) (body : list N) (m : MuxShared) : MuxShared :=
  match frame_new PeerEvent EMPTY (build_payload (mkMuxHeader tag route) body) with
  | Ok frame => push_control (outbound_control frame) m
  | Err _ => m
  end.

(** [queue_control_metered]; the permit is dropped when the frame is not
    queued. *)
Definition queue_control_metered (kind : FrameKind) (body : list N) (permit : loc) : M unit :=
  ensure_open ;;
  let payload := build_payload header_control body in
  check_payload (bytes_len payload) ;;
  frame <- wire (frame_new kind EMPTY payload) ;;
  modify (push_control (mkOutbound frame NONE (bytes_len body) false (Some permit))).

Definition queue_datagram (kind : FrameKind) (body : list N) : M unit :=
  ensure_open ;;
  let payload := build_payload header_datagram body in
  limit <- gets max_datagram_bytes ;;
  if N.ltb limit (bytes_len payload) then fail (DatagramTooLarge (bytes_len payload) limit)
  else
    frame <- wire (frame_new kind EMPTY payload) ;;
    let item := mkOutbound frame NONE (bytes_len body) false None in
    queued <- gets (λ m, datagrams (ms_state m)) ;;
    depth <- gets (λ m, N.max (datagram_queue_depth (config m)) 1) ;;
    let dropped := N.leb depth (N.of_nat (length queued)) && negb (bool_decide (queued = [])) in
    let queued := if N.leb depth (N.of_nat (length queued)) then tail queued else queued in
    modify (with_state (set_datagrams (queued ++ [item]))) ;;
    (if dropped then modify (count DatagramsDropped) else ret tt) ;;
    modify (count DatagramsSent).

Definition queue_route_frame (route : RouteId) (frame : Frame) (payload_bytes : N)
    (permit : option loc) : M unit :=
  ensure_open ;;
  check_payload (bytes_len (fr_payload frame)) ;;
  entry <- gets (λ m, routes (ms_state m) !! route) ;;
  match entry with
  | None => fail (UnknownRoute route)
  | Some entry =>
      let item := mkOutbound frame route payload_bytes true permit in
      modify (with_state (set_entry route (set_queue (re_queue entry ++ [item]) entry)))
  end.

Definition insert_route (route : RouteId) (window : N) (confirmed : bool) : M loc :=
  m <- gets (λ m, m) ;;
  let table := routes (ms_state m) in
  if bool_decide (is_Some (table !! route)) then fail (DuplicateRoute route)
  else if N.leb (me_max_routes (ms_env m)) (N.of_nat (size table))
  then fail (RouteLimitReached (me_max_routes (ms_env m)))
  else
    let l := next_loc (ms_store m) in
    let receiver := channel (N.max window 1) in
    let permits := sem_new (N.max (route_queue_depth (config m)) 1) in
    modify (with_store (λ s, mkStore (<[l := receiver]> (chans s)) (<[l := permits]> (sems s))
                               (accepts s) (l + 1))) ;;
    modify (with_state (set_entry route
      (mkEntry [] window window 0 l (codec (me_compression (ms_env m))) confirmed))) ;;
    modify (with_state (λ s, set_order (order s ++ [route]) s)) ;;
    modify (with_counters record_route_opened) ;;
    ret l.

(** A receiver is dropped: by the application, or with a failure. *)
Definition drop_receiver_at (l : loc) (m : MuxShared) : MuxShared :=
  with_store (λ s, match chans s !! l with Some c => set_chan l (drop_receiver c) s | None => s end) m.

Definition or_drop {A} (l : loc) (op : M A) : M A := λ m,
  match op m with
  | (m, Ok a) => (m, Ok a)
  | (m, Err e) => (drop_receiver_at l m, Err e)
  end.

Definition open_route (route : RouteId) (descriptor : list N) : M OpenedRoute :=
  ensure_open ;;
  window <- gets (λ m, initial_window_frames (config m)) ;;
  l <- insert_route route window true ;;
  let body := open_encode_into (mkOpen window descriptor) [] in
  let payload := build_payload (mkMuxHeader RouteOpen route) body in
  frame <- or_drop l (check_payload (bytes_len payload) ;; wire (frame_new PeerEvent EMPTY payload)) ;;
  modify (push_control (outbound_control frame)) ;;
  c <- gets (λ m, codec (me_compression (ms_env m))) ;;
  ret (mkOpened route l c).

(** Takes a route off the table; its queue is dropped with it. *)
Definition remove_route (route : RouteId) (m : MuxShared) : option MuxShared :=
  match routes (ms_state m) !! route with
  | None => None
  | Some entry =>
      let m := with_state (λ s, set_order (filter (λ r, r ≠ route) (order s))
                                  (set_routes (delete route (routes s)) s)) m in
      Some (with_counters record_route_closed (drop_items (re_queue entry) m))
  end.

Definition close_route (route : RouteId) (code : N) (detail : str) (m : MuxShared) : MuxShared :=
  match remove_route route m with
  | None => m
  | Some m =>
      if closed m then m
      else push_protocol RouteClose route (close_encode_into (mkClose code detail) []) m
  end.

Definition close_route_locally (route : RouteId) (m : MuxShared) : MuxShared :=
  match remove_route route m with Some m => m | None => m end.

(** The handles of a [BTreeMap], in order. *)
Definition route_ids (m : MuxShared) : list RouteId := ascending (dom (routes (ms_state m))).

Definition close_all_routes (detail : str) (m : MuxShared) : MuxShared :=
  foldl (λ m route, close_route route CLOSE_CODE_NORMAL detail m) m (route_ids m).

(** Idempotent: the first reason wins. *)
Definition close (reason : CloseReason) (m : MuxShared) : MuxShared :=
  if closed m then m
  else
    let m := set_closed (Some (match close_reason m with Some r => r | None => reason end)) m in
    let m := foldl (λ m route, close_route_locally route m) m (route_ids m) in
    let m := drop_items (control (ms_state m) ++ datagrams (ms_state m)) m in
    with_state (λ s, mkState [] [] (routes s) [] (control_run s) sinks_default) m.

(** [RouteMux::close] *)
Definition mux_close (reason : CloseReason) (m : MuxShared) : MuxShared :=
  close reason (close_all_routes (lit "connection closing") m).

Definition grant_credit (route : RouteId) (delta : N) (m : MuxShared) : MuxShared :=
  if N.eqb delta 0 || closed m then m
  else
    match frame_new PeerEvent EMPTY (build_payload (mkMuxHeader Credit route) (encode_credit delta)) with
    | Ok frame => count CreditGrantsSent (push_control (outbound_control frame) m)
    | Err _ => m
    end.

Definition note_consumed (route : RouteId) (m : MuxShared) : MuxShared :=
  match routes (ms_state m) !! route with
  | None => m
  | Some entry =>
      let consumed := saturating_add32 (re_consumed entry) 1 in
      let threshold := N.min (credit_grant_threshold (config m)) (N.max (re_window entry) 1) in
      if N.ltb consumed threshold
      then with_state (set_entry route (set_consumed consumed entry)) m
      else grant_credit route consumed (with_state (set_entry route (set_consumed 0 entry)) m)
  end.

Definition add_credit (route : RouteId) (delta : N) (m : MuxShared) : MuxShared :=
  match routes (ms_state m) !! route with
  | None => m
  | Some entry =>
      count CreditGrantsReceived
        (with_state (set_entry route (set_credit (saturating_add32 (re_credit entry) delta) entry)) m)
  end.

(** ** The demultiplexer *)

Definition decode_body (compression : Compression) (body : list N) : M (list N) :=
  limit <- gets max_payload ;;
  if negb (is_enabled compression) then ret body
  else if negb (is_supported_codec compression) then fail (CompressionNotNegotiated compression)
  else lift_result (decompress_payload compression body limit).

Definition answer_open (route : RouteId) (accept : AcceptBody) : MuxShared → MuxShared :=
  push_protocol RouteAccept route (accept_encode_into accept []).

Definition reject_route (route : RouteId) (code : N) (detail : str) (m : MuxShared) : MuxShared :=
  push_protocol RouteClose route (close_encode_into (mkClose code detail) [])
    (answer_open route (refused detail) m).

(** [try_send] on a stored channel. *)
Definition send_to (l : loc) (frame : Frame) : M (result TrySendError unit) :=
  c <- gets (λ m, chans (ms_store m) !! l) ;;
  match c with
  | None => ret (Err ReceiverGone)
  | Some c =>
      let '(c, r) := try_send frame c in
      modify (with_store (set_chan l c)) ;; ret r
  end.

Definition dispatch_route_data (route : RouteId) (kind : FrameKind) (compression : Compression)
    (body : list N) : M Dispatched :=
  payload <- decode_body compression body ;;
  inner <- wire (frame_new kind EMPTY payload) ;;
  entry <- gets (λ m, routes (ms_state m) !! route) ;;
  match entry with
  | None => ret Handled
  | Some entry =>
      r <- send_to (re_inbound entry) inner ;;
      match r with
      | Ok _ => ret Handled
      | Err ReceiverGone => ret Handled
      | Err Full =>
          modify (count Errors) ;;
          modify (close_route route CLOSE_CODE_FLOW_CONTROL (lit "flow-control window overrun")) ;;
          fail (FlowControlViolation route (re_window entry))
      end
  end.

(** [insert_route] as a result, for the [match] on it: its own errors are
    answered, not returned. *)
Definition attempt {A} (op : M A) : M (TransportResult A) :=
  λ m, let '(m, r) := op m in (m, Ok r).

Definition dispatch_route_open (route : RouteId) (body : list N) : M Dispatched :=
  open <- lift_result (map_err MalformedMux (open_decode body)) ;;
  m <- gets (λ m, m) ;;
  if owns_route (side m) route then
    modify (reject_route route CLOSE_CODE_DUPLICATE (lit "route handle parity belongs to this end")) ;;
    ret Handled
  else
    let window := if N.eqb (ob_credit open) 0 then initial_window_frames (config m) else ob_credit open in
    inserted <- attempt (insert_route route window true) ;;
    match inserted with
    | Ok l =>
        listening <- gets (λ m, sink_accepts (inbound (ms_state m))) ;;
        if negb listening then modify (drop_receiver_at l) ;; ret PeerClosed
        else
          c <- gets (λ m, accepts (ms_store m)) ;;
          let '(c, sent) := try_send (mkInbound route (ob_descriptor open) l
                              (codec (me_compression (ms_env m)))) c in
          modify (with_store (set_accepts c)) ;;
          match sent with
          | Err _ => modify (drop_receiver_at l) ;; ret PeerClosed
          | Ok _ => modify (answer_open route (accepted window)) ;; ret Handled
          end
    | Err (RouteLimitReached limit) =>
        modify (reject_route route CLOSE_CODE_ROUTE_LIMIT
          (lit "route limit of " ++ decimal limit ++ lit " reached")) ;;
        ret Handled
    | Err (DuplicateRoute _) =>
        modify (reject_route route CLOSE_CODE_DUPLICATE (lit "route handle already in use")) ;;
        ret Handled
    | Err e => fail e
    end.

Definition dispatch_route_accept (route : RouteId) (body : list N) : M Dispatched :=
  accept <- lift_result (map_err MalformedMux (accept_decode body)) ;;
  if negb (ab_accepted accept) then modify (close_route_locally route) ;; ret Handled
  else
    entry <- gets (λ m, routes (ms_state m) !! route) ;;
    match entry with
    | None => ret Handled
    | Some e =>
        let credit := N.min (re_credit e) (ab_credit accept) in
        let window := N.max (ab_credit accept) 1 in
        modify (with_state (set_entry route
          (mkEntry (re_queue e) credit window (re_consumed e) (re_inbound e) (re_compression e) true))) ;;
        ret Handled
    end.

(** [dispatch]; [None] while the application's control channel has no room,
    where the source awaits it. *)
Definition dispatch (frame : Frame) : M (option Dispatched) :=
  let compression := flags_compression (hd_flags (fr_header frame)) in
  let kind := hd_kind (fr_header frame) in
  hb <- lift_result (map_err MalformedMux (header_decode (fr_payload frame))) ;;
  let '(header, body) := hb in
  match mh_tag header with
  | TagControl =>
      payload <- decode_body compression body ;;
      inner <- wire (frame_new kind EMPTY payload) ;;
      sink <- gets (λ m, sink_control (inbound (ms_state m))) ;;
      match sink with
      | None => ret (Some PeerClosed)
      | Some l =>
          r <- send_to l inner ;;
          match r with
          | Ok _ => ret (Some Handled)
          | Err ReceiverGone => ret (Some PeerClosed)
          | Err Full => ret None
          end
      end
  | Datagram =>
      payload <- decode_body compression body ;;
      inner <- wire (frame_new kind EMPTY payload) ;;
      sink <- gets (λ m, sink_datagrams (inbound (ms_state m))) ;;
      match sink with
      | None => ret (Some Handled)
      | Some l =>
          r <- send_to l inner ;;
          (match r with
           | Ok _ => modify (count DatagramsReceived)
           | Err Full => modify (count DatagramsDropped)
           | Err ReceiverGone => ret tt
           end) ;;
          ret (Some Handled)
      end
  | RouteData => d <- dispatch_route_data (mh_route header) kind compression body ;; ret (Some d)
  | RouteOpen => d <- dispatch_route_open (mh_route header) body ;; ret (Some d)
  | RouteAccept => d <- dispatch_route_accept (mh_route header) body ;; ret (Some d)
  | RouteClose =>
      lift_result (map_err MalformedMux (close_decode body)) ;;
      modify (close_route_locally (mh_route header)) ;;
      ret (Some Handled)
  | Credit =>
      delta <- lift_result (map_err MalformedMux (decode_credit body)) ;;
      modify (add_credit (mh_route header) delta) ;;
      ret (Some Handled)
  end.

(** ** The loops of [driver.rs] *)

(** The text of an error, which its [Display] implementation gives. *)
Context (display : TransportError → str).

Definition close_reason_for (e : TransportError) : CloseReason :=
  if is_peer_fault e then Protocol (display e) else Transport (display e).

(** One turn of [run_reader]'s loop, on a frame the source produced: whether
    the frame was consumed. *)
Definition read_frame (frame : Frame) (m : MuxShared) : MuxShared * bool :=
  match dispatch frame m with
  | (m, Ok (Some Handled)) => (m, true)
  | (m, Ok (Some PeerClosed)) => (close (Local (lit "receivers dropped")) m, true)
  | (m, Ok None) => (m, false)
  | (m, Err e) =>
      let m := count Errors m in
      (if is_fatal e then close (close_reason_for e) m else m, true)
  end.

Definition WRITE_BATCH : nat := 64.

(** One turn of [run_writer]'s loop: the frames of a batch go to the sink in
    order, which may refuse one; when they are flushed their permits are
    returned.  [sink] gives the refusals; a flush that fails closes the
    connection, which is [close]. *)
Definition write_batch (sink : Frame → option TransportError) (m : MuxShared) : MuxShared * list Frame :=
  let '(m, batch) := take_batch WRITE_BATCH m in
  let refused := omap (λ item, sink (ob_frame item)) batch in
  let m := Nat.iter (length refused) (count Errors) m in
  let m := drop_items batch m in
  let m := match last refused with
           | Some e => if is_fatal e then close (close_reason_for e) m else m
           | None => m
           end in
  (m, ob_frame <$> filter (λ item, sink (ob_frame item) = None) batch).

(** ** The handles of [handle.rs] *)

(** Runs [op] with a permit, which is dropped if [op] does not keep it. *)
Definition with_permit {A} (l : loc) (full : TransportError) (op : M A) : M A := λ m,
  match sems (ms_store m) !! l ≫= try_acquire with
  | None => (count SendStalls m, Err full)
  | Some s =>
      match op (with_store (set_sem l s) m) with
      | (m, Ok a) => (m, Ok a)
      | (m, Err e) =>
          (with_store (λ st, match sems st !! l with Some s => set_sem l (release s) st | None => st end) m,
           Err e)
      end
  end.

(** [RouteSender]: the route, the location of its permits and its policy. *)
Definition encode_body (policy : CompressionPolicy) (payload : list N) : M (list N * Compression) :=
  if negb (is_enabled (codec policy)) then ret (payload, NoCompression)
  else
    r <- lift_result (compress_payload policy payload) ;;
    let '(bytes, c) := r in
    if is_enabled c then modify (count FramesCompressed) ;; ret (bytes, c)
    else modify (count CompressionSkipped) ;; ret (payload, NoCompression).

Definition enqueue (route : RouteId) (policy : CompressionPolicy) (kind : FrameKind)
    (payload : list N) (permit : loc) : M unit :=
  b <- encode_body policy payload ;;
  let '(body, c) := b in
  let muxed := build_payload (mkMuxHeader RouteData route) body in
  frame <- wire (frame_new kind (with_compression EMPTY c) muxed) ;;
  queue_route_frame route frame (bytes_len payload) (Some permit).

Definition route_try_send (route : RouteId) (permits : loc) (policy : CompressionPolicy)
    (kind : FrameKind) (payload : list N) : M unit :=
  depth <- gets (λ m, route_queue_depth (config m)) ;;
  with_permit permits (SendQueueFull route depth) (enqueue route policy kind payload permits).

(** [RouteReceiver::try_recv] *)
Definition route_try_recv (route : RouteId) (receiver : loc) (m : MuxShared) : MuxShared * option Frame :=
  match chans (ms_store m) !! receiver with
  | None => (m, None)
  | Some c =>
      match try_recv c with
      | (c, Some frame) => (note_consumed route (with_store (set_chan receiver c) m), Some frame)
      | (c, None) => (with_store (set_chan receiver c) m, None)
      end
  end.

(** [ControlSender::try_send] *)
Definition control_try_send (kind : FrameKind) (payload : list N) : M unit :=
  depth <- gets (λ m, control_queue_depth (config m)) ;;
  with_permit CONTROL (SendQueueFull NONE depth) (queue_control_metered kind payload CONTROL).

(** [ControlReceiver::try_recv], [DatagramReceiver::try_recv] *)
Definition channel_try_recv (l : loc) (m : MuxShared) : MuxShared * option Frame :=
  match chans (ms_store m) !! l with
  | None => (m, None)
  | Some c => let '(c, f) := try_recv c in (with_store (set_chan l c) m, f)
  end.

(** [RouteMux::open_route] *)
Definition open_next_route (descriptor : list N) : M OpenedRoute := λ m,
  let '(m, route) := next_route_id m in open_route route descriptor m.
End mux.

(** ** Channels and semaphores to run the definitions with *)

Module ListTokio.
Record lchan (A : Type) := mkLchan { lc_items : list A; lc_bound : option N; lc_alive : bool }.
Arguments mkLchan {A} _ _ _.
Arguments lc_items {A} _.
Arguments lc_bound {A} _.
Arguments lc_alive {A} _.

Definition lc_full {A} (c : lchan A) : bool :=
  match lc_bound c with Some n => N.leb n (N.of_nat (length (lc_items c))) | None => false end.

#[global] Instance list_mpsc A : Mpsc A := {|
  chan := lchan A;
  channel n := mkLchan [] (Some n) true;
  unbounded_channel := mkLchan [] None true;
  try_send a c :=
    if negb (lc_alive c) then (c, Err ReceiverGone)
    else if lc_full c then (c, Err Full)
    else (mkLchan (lc_items c ++ [a]) (lc_bound c) true, Ok tt);
  try_recv c :=
    match lc_items c with
    | [] => (c, None)
    | a :: rest => (mkLchan rest (lc_bound c) (lc_alive c), Some a)
    end;
  drop_receiver c := mkLchan (lc_items c) (lc_bound c) false;
|}.

#[global] Instance list_mpsc_laws A : MpscLaws A.
Proof.
  refine {| waiting := lc_items; bound := lc_bound; alive := lc_alive |}; try done.
  - intros a c. cbn. unfold lc_full. destruct (lc_alive c); cbn [negb]; [|done].
    destruct (match lc_bound c with Some _ => _ | None => _ end); [done|]. eexists. by split_and!.
  - intros c. cbn. destruct (lc_items c); [done|]. eexists. by split_and!.
Defined.

#[global] Instance counting : Semaphore := {|
  sem := N;
  sem_new n := n;
  try_acquire n := if N.eqb n 0 then None else Some (n - 1);
  release n := n + 1;
|}.

#[global] Instance counting_laws : SemaphoreLaws.
Proof.
  unshelve econstructor; [exact (λ n, n)|..]; cbn; try done.
  intros s. destruct (N.eqb_spec s 0); lia.
Defined.
End ListTokio.
