(* ===== verification/MuxSched.v ===== *)
(** * The multiplexer's send scheduler

    Theorems about [MuxState::pop_next] ([mux/state.rs]) in any history of
    calls on a connection: no route and no flood of control frames starves a
    route that has a frame and credit ([mux_scheduler_is_fair]), and
    datagrams stay bounded ([datagrams_stay_bounded]). *)

From Stdlib Require Import Lia.
From stdpp Require Import base tactics gmap strings numbers list.
From S2P Require Import Prelude Crc32c Text Utf8 WireFrame MuxHeader MuxCompress MuxState.

Open Scope N_scope.

(** ** The rotation *)

Definition route_ready (s : MuxState) (r : RouteId) : bool :=
  match routes s !! r with Some e => entry_is_ready e | None => false end.

(** What popping does to an entry. *)
Definition popped_entry (item : Outbound) (queue : list Outbound) (e : RouteEntry) : RouteEntry :=
  let e := set_queue queue e in
  if ob_consumes_credit item then set_credit (re_credit e - 1) e else e.

Lemma pop_route_loop_found l1 y l2 s k :
  order s = l1 ++ y :: l2 → Forall (λ r, route_ready s r = false) l1 → route_ready s y = true →
  (length l1 < k)%nat →
  ∃ e item queue, routes s !! y = Some e ∧ re_queue e = item :: queue ∧
    pop_route_loop k s =
      (set_entry y (popped_entry item queue e) (set_order (l2 ++ l1 ++ [y]) s), Some item).
Proof.
  revert l2 s k. induction l1 as [|r l1 IH]; intros l2 s k Ho Hl Hy Hk; destruct k as [|k]; try (simpl in Hk; lia).
  - unfold route_ready in Hy. destruct (routes s !! y) as [e|] eqn:Ee; [|done].
    cbn [pop_route_loop]. rewrite Ho. cbn [app]. cbn [routes set_order]. rewrite Ee, Hy. cbn [negb].
    unfold entry_is_ready in Hy. destruct (re_queue e) as [|item queue] eqn:Eq; [done|].
    exists e, item, queue. done.
  - cbn [pop_route_loop]. rewrite Ho. cbn [app]. cbn [routes set_order].
    inversion Hl as [|? ? Hr Hl']; subst.
    set (s' := set_order _ s).
    assert (order s' = l1 ++ y :: (l2 ++ [r])) as Ho' by (cbn; by rewrite <-app_assoc).
    destruct (IH (l2 ++ [r]) s' k Ho') as (e & item & queue & He & Hq & Hpop);
      [exact Hl'|exact Hy|simpl in Hk; lia|].
    exists e, item, queue. split_and!; [done..|].
    assert (pop_route_loop k s' = (set_entry y (popped_entry item queue e) (set_order (l2 ++ r :: l1 ++ [y]) s), Some item)) as Hgoal.
    { rewrite Hpop. unfold s', set_entry, set_routes, set_order. cbn. by rewrite <-app_assoc. }
    unfold route_ready in Hr. destruct (routes s !! r) as [er|]; [rewrite Hr; cbn [negb]|]; exact Hgoal.
Qed.

(** A rotation that finds nothing ready comes back to where it started. *)
Lemma pop_route_loop_none s k :
  Forall (λ r, route_ready s r = false) (order s) → (k ≤ length (order s))%nat →
  pop_route_loop k s = (set_order (drop k (order s) ++ take k (order s)) s, None).
Proof.
  revert s. induction k as [|k IH]; intros s Hl Hk.
  { cbn [pop_route_loop]. rewrite drop_0, take_0, app_nil_r. by destruct s. }
  cbn [pop_route_loop]. destruct (order s) as [|r rest] eqn:Eo; [simpl in Hk; lia|].
  inversion Hl as [|? ? Hr Hrest]; subst. cbn [routes set_order].
  set (s' := set_order (rest ++ [r]) s).
  assert (pop_route_loop k s' = (set_order (drop (S k) (r :: rest) ++ take (S k) (r :: rest)) s, None)) as Hgoal.
  { rewrite IH.
    - unfold s'. cbn [order set_order]. simpl in Hk. f_equal.
      rewrite drop_app_le, take_app_le by lia. unfold set_order. cbn. by rewrite <-app_assoc.
    - unfold s'. cbn [order set_order]. apply Forall_app. split; [exact Hrest|]. by constructor.
    - unfold s'. cbn [order set_order]. rewrite length_app. simpl in *. lia. }
  unfold route_ready in Hr. destruct (routes s !! r) as [er|]; [rewrite Hr; cbn [negb]|]; exact Hgoal.
Qed.

(** The next ready route, if there is one. *)
Lemma first_ready s l :
  Forall (λ r, route_ready s r = false) l ∨
  ∃ l1 y l2, l = l1 ++ y :: l2 ∧ Forall (λ r, route_ready s r = false) l1 ∧ route_ready s y = true.
Proof.
  induction l as [|r l IH]; [by left|]. destruct (route_ready s r) eqn:Er.
  { right. by exists [], r, l. }
  destruct IH as [IH|(l1 & y & l2 & -> & H1 & H2)]; [left; by constructor|].
  right. exists (r :: l1), y, l2. split_and!; [done| |done]. by constructor.
Qed.

(** One pop of the route tier: nothing is ready and nothing changes, or the
    first ready route in the rotation is served and moves to its end. *)
Lemma pop_route_spec s :
  (Forall (λ r, route_ready s r = false) (order s) ∧ pop_route s = (s, None)) ∨
  ∃ l1 y l2 e item queue,
    order s = l1 ++ y :: l2 ∧ Forall (λ r, route_ready s r = false) l1 ∧ route_ready s y = true ∧
    routes s !! y = Some e ∧ re_queue e = item :: queue ∧
    pop_route s = (set_entry y (popped_entry item queue e) (set_order (l2 ++ l1 ++ [y]) s), Some item).
Proof.
  unfold pop_route. destruct (first_ready s (order s)) as [Hn|(l1 & y & l2 & Ho & H1 & H2)].
  - left. split; [done|]. rewrite pop_route_loop_none by (done || lia).
    rewrite drop_ge, take_ge by lia. by destruct s.
  - right. destruct (pop_route_loop_found l1 y l2 s (length (order s)) Ho H1 H2) as (e & item & q & ? & ? & ?).
    { rewrite Ho, length_app. simpl. lia. }
    by exists l1, y, l2, e, item, q.
Qed.

(** ** One scheduling decision *)

Definition none_ready (s : MuxState) : Prop := Forall (λ r, route_ready s r = false) (order s).

Inductive popped (burst : N) (s : MuxState) : MuxState → Outbound → Prop :=
  | PopControl item rest :
      control s = item :: rest → control_run s < burst ∨ none_ready s →
      popped burst s (set_control_run (saturating_add32 (control_run s) 1) (set_control rest s)) item
  | PopDatagram item rest :
      control s = [] → datagrams s = item :: rest → control_run s < burst ∨ none_ready s →
      popped burst s (set_control_run (saturating_add32 (control_run s) 1) (set_datagrams rest s)) item
  | PopRoute l1 y l2 e item queue :
      order s = l1 ++ y :: l2 → Forall (λ r, route_ready s r = false) l1 → route_ready s y = true →
      routes s !! y = Some e → re_queue e = item :: queue →
      (control s = [] ∧ datagrams s = []) ∨ burst <= control_run s →
      popped burst s (set_control_run 0 (set_entry y (popped_entry item queue e)
                                          (set_order (l2 ++ l1 ++ [y]) s))) item.

Lemma pop_unmetered_spec s :
  match control s, datagrams s with
  | item :: rest, _ => pop_unmetered s = (set_control rest s, Some item)
  | [], item :: rest => pop_unmetered s = (set_datagrams rest s, Some item)
  | [], [] => pop_unmetered s = (s, None)
  end.
Proof. unfold pop_unmetered. by destruct (control s), (datagrams s). Qed.

Lemma pop_next_spec burst s :
  match pop_next burst s with
  | (s', Some item) => popped burst s s' item
  | (s', None) => s' = s ∧ control s = [] ∧ datagrams s = [] ∧ none_ready s
  end.
Proof.
  unfold pop_next. pose proof (pop_unmetered_spec s) as Hu.
  destruct (N.ltb_spec (control_run s) burst) as [Hb|Hb].
  - destruct (control s) as [|c cs] eqn:Ec; [destruct (datagrams s) as [|d ds] eqn:Ed|]; rewrite Hu.
    + destruct (pop_route_spec s) as [[Hn ->]|(l1 & y & l2 & e & item & q & ? & ? & ? & ? & ? & ->)].
      * rewrite Hu. by split_and!.
      * econstructor; eauto.
    + exact (PopDatagram burst s d ds Ec Ed (or_introl Hb)).
    + exact (PopControl burst s c cs Ec (or_introl Hb)).
  - destruct (pop_route_spec s) as [[Hn ->]|(l1 & y & l2 & e & item & q & ? & ? & ? & ? & ? & ->)];
      [|econstructor; eauto].
    destruct (control s) as [|c cs] eqn:Ec; [destruct (datagrams s) as [|d ds] eqn:Ed|]; rewrite Hu.
    + by split_and!.
    + exact (PopDatagram burst s d ds Ec Ed (or_intror Hn)).
    + exact (PopControl burst s c cs Ec (or_intror Hn)).
Qed.

(** ** How far a route is from being served *)

Definition at_place (x : RouteId) (n : nat) (s : MuxState) : Prop :=
  ∃ l1 l2, order s = l1 ++ x :: l2 ∧ length l1 = n.

(** An upper bound on the frames served before the route at place [n]. *)
Definition distance (burst : N) (n : nat) (s : MuxState) : N :=
  N.of_nat n * (burst + 1) + (burst - control_run s).

Lemma app_cons_split {A} (l1 l2 m1 m2 : list A) x y :
  l1 ++ x :: l2 = m1 ++ y :: m2 → (length l1 < length m1)%nat →
  ∃ k, m1 = l1 ++ x :: k ∧ l2 = k ++ y :: m2.
Proof.
  intros E Hlen. apply (f_equal (drop (length l1))) in E as Ed.
  rewrite drop_app_length, drop_app_le in Ed by lia.
  assert (l1 = take (length l1) m1) as Hl1.
  { apply (f_equal (take (length l1))) in E. by rewrite take_app_length, take_app_le in E by lia. }
  destruct (drop (length l1) m1) as [|z k] eqn:Ek.
  { apply (f_equal length) in Ek. rewrite length_drop in Ek. simpl in Ek. lia. }
  cbn in Ed. simplify_eq. exists k. split; [|done].
  rewrite Hl1, <-Ek at 1. by rewrite <-(take_drop (length l1) m1) at 1; rewrite <-Hl1.
Qed.

Lemma popped_comes_closer burst s s' item x n :
  popped burst s s' item → burst <= u32_max → route_ready s x = true → at_place x n s →
  (∃ e e' queue, routes s !! x = Some e ∧ re_queue e = item :: queue ∧ routes s' !! x = Some e') ∨
  ∃ n', at_place x n' s' ∧ distance burst n' s' < distance burst n s.
Proof.
  intros Hp Hb Hx (m1 & m2 & Ho & Hn).
  assert (¬ none_ready s) as Hnn.
  { intros Hnn. unfold none_ready in Hnn. rewrite Ho, Forall_app in Hnn.
    destruct Hnn as [_ Hnn]. inversion Hnn; congruence. }
  destruct Hp as [item rest Hc [Hrun|]|item rest Hc Hd [Hrun|]|l1 y l2 e item queue Ho' Hl1 Hy He Hq Hcase]; try done.
  1,2: right; exists n; split; [by exists m1, m2|];
    unfold distance; cbn; unfold saturating_add32, u32_max in *; lia.
  destruct (Nat.lt_trichotomy (length l1) (length m1)) as [Hlt|[Heq|Hgt]].
  - right. rewrite Ho in Ho'. symmetry in Ho'.
    destruct (app_cons_split _ _ _ _ _ _ Ho' Hlt) as (k & -> & ->).
    exists (length k). split.
    { exists k, (m2 ++ l1 ++ [y]). cbn. by rewrite <-app_assoc. }
    rewrite length_app in Hn. cbn [length] in Hn. unfold distance. cbn [control_run set_control_run].
    subst n. rewrite Nat2N.inj_add, Nat2N.inj_succ. nia.
  - left. assert (x = y) as <-.
    { rewrite Ho in Ho'. apply (f_equal (λ l, l !! length m1)) in Ho'.
      rewrite list_lookup_middle in Ho' by done. rewrite list_lookup_middle in Ho' by done. congruence. }
    exists e. eexists _, queue. split_and!; [done..|]. cbn. apply lookup_insert_eq.
  - exfalso. rewrite Ho in Ho'. destruct (app_cons_split _ _ _ _ _ _ Ho' Hgt) as (k & -> & ->).
    apply Forall_app in Hl1 as [_ Hl1]. inversion Hl1; congruence.
Qed.

(** ** Histories of calls *)

(** Frames carry the route whose queue they wait in, every route takes part
    in the rotation, and at most [depth] datagrams wait. *)
Record sched_ok (depth : N) (s : MuxState) : Prop := mkSchedOk {
  so_items r e : routes s !! r = Some e → Forall (λ i, ob_route i = r) (re_queue e);
  so_control : Forall (λ i, ob_route i = NONE) (control s);
  so_datagrams : Forall (λ i, ob_route i = NONE) (datagrams s);
  so_order r : is_Some (routes s !! r) → r ∈ order s;
  so_depth : N.of_nat (length (datagrams s)) <= N.max depth 1;
}.

Lemma filter_true {A} (l : list A) : filter (λ _, true = true) l = l.
Proof. apply filter_all. by apply Forall_true. Qed.

Lemma filter_none {A} (l : list A) : filter (λ _, false = true) l = [].
Proof. induction l as [|a l IH]; [done|]. by rewrite filter_cons_False. Qed.

Section history.
Context {MF : Mpsc Frame} {MI : Mpsc InboundRoute} {SM : Semaphore} {OA : OxiArc}.
Context (display : TransportError → str).

Definition depth_of (m : MuxShared) : N := datagram_queue_depth (config m).

(** A call that takes no route into the rotation: the configuration and the
    count of control frames stay, the rotation keeps its order and may lose
    routes. *)
Definition settles (m m' : MuxShared) : Prop :=
  ms_env m' = ms_env m ∧ control_run (ms_state m') = control_run (ms_state m) ∧
  (∃ p : RouteId → bool, order (ms_state m') = filter (λ r, p r = true) (order (ms_state m))) ∧
  (sched_ok (depth_of m) (ms_state m) → sched_ok (depth_of m) (ms_state m')).

#[local] Instance settles_preorder : PreOrder settles.
Proof.
  split.
  - intros m. split_and!; [done..| |done]. exists (λ _, true). symmetry. apply filter_true.
  - intros m1 m2 m3 (E1 & R1 & (p & O1) & S1) (E2 & R2 & (q & O2) & S2). split_and!; [congruence..| |].
    2:{ assert (depth_of m2 = depth_of m1) as Ed by (unfold depth_of, config; congruence).
        rewrite Ed in S2. auto. }
    exists (λ r, p r && q r). rewrite O2, O1, list_filter_filter.
    apply list_filter_iff. intros r. rewrite andb_true_iff. tauto.
Qed.

(** The state of the scheduler is untouched. *)
Lemma settles_same m m' :
  ms_env m' = ms_env m → ms_state m' = ms_state m → settles m m'.
Proof. intros E S. split_and!; rewrite ?S; auto. exists (λ _, true). symmetry. apply filter_true. Qed.

Lemma settles_state f m :
  control_run (f (ms_state m)) = control_run (ms_state m) → order (f (ms_state m)) = order (ms_state m) →
  (sched_ok (depth_of m) (ms_state m) → sched_ok (depth_of m) (f (ms_state m))) → settles m (with_state f m).
Proof.
  intros R O S. split_and!; cbn; auto. exists (λ _, true). rewrite O. symmetry. apply filter_true.
Qed.

Lemma settles_push_control item m : ob_route item = NONE → settles m (push_control item m).
Proof.
  intros Hi. apply settles_state; [done..|]. intros [Hr Hc Hd Ho Hdep]. split; cbn; auto.
  apply Forall_app. split; [done|]. by constructor.
Qed.

Lemma settles_set_entry r e e' m :
  routes (ms_state m) !! r = Some e →
  (Forall (λ i, ob_route i = r) (re_queue e) → Forall (λ i, ob_route i = r) (re_queue e')) →
  settles m (with_state (set_entry r e') m).
Proof.
  intros He Hq. apply settles_state; [done..|]. intros [Hr Hc Hd Ho Hdep]. split; cbn; auto.
  - intros r' e''. rewrite lookup_insert_Some. intros [[<- <-]|[? ?]]; eauto.
  - intros r'. rewrite lookup_insert_is_Some'. intros [<-|?]; eauto.
Qed.

Lemma settles_drop_items l m : settles m (drop_items l m).
Proof. by apply settles_same. Qed.

Lemma settles_remove_route r m m' : remove_route r m = Some m' → settles m m'.
Proof.
  unfold remove_route. destruct (routes (ms_state m) !! r) as [e|] eqn:Ee; [|done]. intros [= <-].
  split_and!; cbn; auto.
  - exists (λ r', bool_decide (r' ≠ r)). apply list_filter_iff. intros. by rewrite bool_decide_eq_true.
  - intros [Hr Hc Hd Ho Hdep]. split; cbn; auto.
    + intros r' e'. rewrite lookup_delete_Some. intros [_ ?]. eauto.
    + intros r'. rewrite lookup_delete_is_Some. intros [? ?]. apply list_elem_of_filter. eauto.
Qed.

Lemma settles_push_protocol tag r body m : settles m (push_protocol tag r body m).
Proof. unfold push_protocol. case_match; [by apply settles_push_control|done]. Qed.

Lemma settles_close_route r code detail m : settles m (close_route r code detail m).
Proof.
  unfold close_route. destruct (remove_route r m) as [m'|] eqn:E; [|done].
  apply settles_remove_route in E. destruct (closed m'); [done|].
  etrans; [done|]. apply settles_push_protocol.
Qed.

Lemma settles_close_locally r m : settles m (close_route_locally r m).
Proof.
  unfold close_route_locally. destruct (remove_route r m) as [m'|] eqn:E; [|done].
  by apply settles_remove_route in E.
Qed.

Lemma settles_foldl {A} (f : MuxShared → A → MuxShared) l m :
  (∀ m a, settles m (f m a)) → settles m (foldl f m l).
Proof.
  intros Hf. revert m. induction l as [|a l IH]; intros m; cbn; [done|]. by etrans; [apply Hf|apply IH].
Qed.

Lemma settles_reject r code detail m : settles m (reject_route r code detail m).
Proof. unfold reject_route, answer_open. etrans; apply settles_push_protocol. Qed.

Lemma routes_close_locally r m :
  routes (ms_state (close_route_locally r m)) = delete r (routes (ms_state m)).
Proof.
  unfold close_route_locally, remove_route.
  destruct (routes (ms_state m) !! r) eqn:E; cbn; [done|]. by rewrite delete_id.
Qed.

Lemma lookup_close_locally l m r :
  routes (ms_state (foldl (λ m r, close_route_locally r m) m l)) !! r =
    if decide (r ∈ l) then None else routes (ms_state m) !! r.
Proof.
  revert m. induction l as [|r' l IH]; intros m; cbn; [done|].
  rewrite IH, routes_close_locally. destruct (decide (r ∈ l)); [by rewrite decide_True by set_solver|].
  destruct (decide (r' = r)) as [->|].
  - by rewrite lookup_delete_eq, decide_True by set_solver.
  - rewrite lookup_delete_ne by done. by rewrite decide_False by set_solver.
Qed.

(** A closed connection has no routes. *)
Lemma routes_close reason m : closed m = false → routes (ms_state (close reason m)) = ∅.
Proof.
  intros Hc. unfold close. rewrite Hc. cbn. apply map_eq. intros r.
  rewrite lookup_close_locally. cbn. rewrite lookup_empty. unfold route_ids.
  destruct (decide _) as [|Hn]; [done|]. rewrite elem_of_ascending in Hn. by apply not_elem_of_dom in Hn.
Qed.

Lemma settles_close reason m : settles m (close reason m).
Proof.
  destruct (closed m) eqn:Hc; [unfold close; by rewrite Hc|].
  pose proof (routes_close reason m Hc) as Hempty. unfold close in *. rewrite Hc in *.
  set (m1 := set_closed _ m) in *. set (m2 := foldl _ m1 _) in *. set (m3 := drop_items _ m2) in *.
  assert (settles m m3) as H3.
  { etrans; [by apply (settles_same m m1)|]. etrans; [|apply settles_drop_items].
    apply settles_foldl. intros. apply settles_close_locally. }
  etrans; [exact H3|]. cbn in Hempty. split_and!; cbn; auto.
  - exists (λ _, false). symmetry. apply filter_none.
  - intros Hok. split; cbn; [| | | |lia].
    2,3: apply Forall_nil_2.
    + intros r e. by rewrite Hempty, lookup_empty.
    + intros r. rewrite Hempty, lookup_empty. by intros [? ?].
Qed.

Lemma settles_grant_credit r delta m : settles m (grant_credit r delta m).
Proof.
  unfold grant_credit. destruct (_ || _); [done|]. destruct (frame_new _ _ _) as [f|]; [|done].
  trans (push_control (outbound_control f) m); [by apply settles_push_control|by apply settles_same].
Qed.

Lemma settles_note_consumed r m : settles m (note_consumed r m).
Proof.
  unfold note_consumed. destruct (routes (ms_state m) !! r) as [e|] eqn:E; [|done].
  destruct (N.ltb _ _); [by eapply settles_set_entry|].
  etrans; [|apply settles_grant_credit]. by eapply settles_set_entry.
Qed.

Lemma settles_add_credit r delta m : settles m (add_credit r delta m).
Proof.
  unfold add_credit. destruct (routes (ms_state m) !! r) as [e|] eqn:E; [|done].
  trans (with_state (set_entry r (set_credit (saturating_add32 (re_credit e) delta) e)) m);
    [by eapply settles_set_entry|by apply settles_same].
Qed.

Lemma settles_route_try_recv r l m : settles m (route_try_recv r l m).1.
Proof.
  unfold route_try_recv. destruct (chans (ms_store m) !! l) as [c|]; [|done].
  destruct (try_recv c) as [c' [f|]]; cbn; [|by apply settles_same].
  etrans; [|apply settles_note_consumed]. by apply settles_same.
Qed.

(** *** The calls that can fail *)

Abbreviation keeps_order op := (keeps (E:=TransportError) settles op).

Lemma keeps_same {A} (op : stM MuxShared TransportError A) :
  (∀ m, ms_env (op m).1 = ms_env m ∧ ms_state (op m).1 = ms_state m) → keeps_order op.
Proof. intros H m. destruct (H m). by apply settles_same. Qed.

Lemma keeps_ensure_open : keeps_order ensure_open.
Proof. unfold ensure_open. keeps_auto. Qed.

Lemma ensure_open_eq m :
  ensure_open m = (m, if closed m then Err (match close_reason m with
                                            | Some reason => Closed reason | None => NotConnected end)
                      else Ok tt).
Proof. unfold ensure_open, sbind, gets, fail, ret. by destruct (closed m). Qed.

Lemma keeps_check_payload n : keeps_order (check_payload n).
Proof. unfold check_payload. keeps_auto. Qed.

Lemma keeps_modify_same f :
  (∀ m, ms_env (f m) = ms_env m ∧ ms_state (f m) = ms_state m) → keeps_order (modify f).
Proof. intros H m. destruct (H m). by apply settles_same. Qed.

Lemma keeps_send_to l f : keeps_order (send_to l f).
Proof.
  intros m. unfold send_to, sbind, gets, modify, ret. destruct (chans (ms_store m) !! l); cbn; [|done].
  destruct (try_send f c); cbn. by apply settles_same.
Qed.
#[local] Hint Resolve keeps_ensure_open keeps_check_payload keeps_send_to : keeps.
#[local] Hint Extern 1 (keeps _ (modify (count _))) => apply keeps_modify_same; done : keeps.
#[local] Hint Extern 1 (keeps _ (wire _)) => apply keeps_lift_result; apply _ : keeps.

Lemma keeps_decode_body c body : keeps_order (decode_body c body).
Proof. unfold decode_body. keeps_auto. Qed.

Lemma keeps_queue_control kind body l : keeps_order (queue_control_metered kind body l).
Proof.
  unfold queue_control_metered. keeps_auto. apply keeps_modify. intros m. by apply settles_push_control.
Qed.

Lemma settles_set_datagrams l m :
  (Forall (λ i, ob_route i = NONE) (datagrams (ms_state m)) → Forall (λ i, ob_route i = NONE) l) →
  (N.of_nat (length (datagrams (ms_state m))) <= N.max (depth_of m) 1 →
   N.of_nat (length l) <= N.max (depth_of m) 1) →
  settles m (with_state (set_datagrams l) m).
Proof. intros Hl Hlen. apply settles_state; [done..|]. intros [Hr Hc Hd Ho Hdep]. split; cbn; auto. Qed.

Lemma keeps_queue_datagram kind body : keeps_order (queue_datagram kind body).
Proof.
  unfold queue_datagram. do 2 (keeps_step; [keeps_auto|]). keeps_step; [keeps_auto|].
  keeps_step; [keeps_auto|]. intros m. cbn.
  set (queued := datagrams (ms_state m)).
  set (l := (if N.leb _ _ then tail queued else queued) ++ [_]).
  trans (with_state (set_datagrams l) m).
  - apply settles_set_datagrams; [intros H|]; unfold l.
    + apply Forall_app. split; [|by constructor]. case_match; [by apply Forall_tail|done].
    + intros Hlen. fold queued in Hlen. rewrite length_app. cbn [length]. unfold depth_of in *.
      destruct (N.leb_spec (N.max (datagram_queue_depth (config m)) 1) (N.of_nat (length queued)));
        destruct queued; cbn in *; lia.
  - case_match; cbn; by apply settles_same.
Qed.

Lemma keeps_queue_route_frame r f n permit : keeps_order (queue_route_frame r f n permit).
Proof.
  unfold queue_route_frame. do 2 (keeps_step; [keeps_auto|]). apply keeps_bind_gets. intros m.
  destruct (routes (ms_state m) !! r) as [e|] eqn:E; [|done].
  apply (settles_set_entry r e); [done|]. intros H. cbn. apply Forall_app. split; [done|]. by constructor.
Qed.

Lemma keeps_with_permit {A} l full (op : stM MuxShared TransportError A) :
  keeps_order op → keeps_order (with_permit l full op).
Proof.
  intros Hop m. unfold with_permit. destruct (_ ≫= _) as [x|]; [|by apply settles_same].
  pose proof (Hop (with_store (set_sem l x) m)) as H.
  destruct (op _) as [m' [a|e]]; cbn in *; (etrans; [by apply (settles_same m (with_store (set_sem l x) m))|]);
    [done|]. etrans; [exact H|by apply settles_same].
Qed.
#[local] Hint Resolve keeps_decode_body keeps_queue_control keeps_queue_route_frame keeps_with_permit : keeps.

Lemma keeps_route_try_send r l policy kind payload : keeps_order (route_try_send r l policy kind payload).
Proof.
  unfold route_try_send. keeps_step; [keeps_auto|]. apply keeps_with_permit.
  unfold enqueue, encode_body. keeps_auto.
Qed.

Lemma keeps_control_try_send kind payload : keeps_order (control_try_send kind payload).
Proof. unfold control_try_send. keeps_auto. Qed.

Lemma keeps_route_data r kind c body : keeps_order (dispatch_route_data r kind c body).
Proof.
  unfold dispatch_route_data. keeps_auto. apply keeps_modify. intros m. apply settles_close_route.
Qed.

Lemma keeps_route_accept r body : keeps_order (dispatch_route_accept r body).
Proof.
  unfold dispatch_route_accept. keeps_step; [keeps_auto|]. keeps_step.
  - keeps_auto. apply keeps_modify. intros m. apply settles_close_locally.
  - apply keeps_bind_gets. intros m. destruct (routes (ms_state m) !! r) as [e|] eqn:E; [|done].
    by apply (settles_set_entry r e).
Qed.

(** *** The calls that open routes *)

(** New routes go to the end of the rotation. *)
Definition grows (m m' : MuxShared) : Prop :=
  ms_env m' = ms_env m ∧ control_run (ms_state m') = control_run (ms_state m) ∧
  (∃ extra, order (ms_state m') = order (ms_state m) ++ extra) ∧
  (sched_ok (depth_of m) (ms_state m) → sched_ok (depth_of m) (ms_state m')).

Definition calm (m m' : MuxShared) : Prop := ∃ mid, grows m mid ∧ settles mid m'.

Lemma grows_refl m : grows m m.
Proof. split_and!; auto. exists []. by rewrite app_nil_r. Qed.

Lemma settles_calm m m' : settles m m' → calm m m'.
Proof. exists m. split; [apply grows_refl|done]. Qed.

Lemma calm_settles m m1 m2 : calm m m1 → settles m1 m2 → calm m m2.
Proof. intros (mid & Hg & Hs) H2. exists mid. split; [done|]. by etrans. Qed.

Lemma insert_route_grows r w c m : grows m (insert_route r w c m).1.
Proof.
  unfold insert_route, sbind, gets, modify, fail, ret. cbn.
  destruct (bool_decide _); [apply grows_refl|]. destruct (N.leb _ _); [apply grows_refl|].
  split_and!; [done..| |]; cbn; [by eexists|]. intros [Hr Hc Hd Ho Hdep]. split; cbn; auto.
  - intros r' e. rewrite lookup_insert_Some. intros [[<- <-]|[? ?]]; [by constructor|eauto].
  - intros r'. rewrite lookup_insert_is_Some', elem_of_app, list_elem_of_singleton. intros [->|?]; auto.
Qed.

Lemma calm_bind {A B} (op : stM MuxShared TransportError A) (k : A → stM MuxShared TransportError B) m :
  grows m (op m).1 → (∀ a, keeps_order (k a)) → calm m (sbind op k m).1.
Proof.
  intros Hg Hk. unfold sbind. destruct (op m) as [m1 [a|e]]; cbn in *.
  - exists m1. split; [done|apply Hk].
  - by exists m1.
Qed.

Lemma settles_drop_receiver l m : settles m (drop_receiver_at l m).
Proof. by apply settles_same. Qed.

Lemma keeps_order_or_drop {A} l (op : stM MuxShared TransportError A) : keeps_order op → keeps_order (or_drop l op).
Proof.
  intros Hop m. specialize (Hop m). unfold or_drop. destruct (op m) as [m' [a|e]]; [done|].
  etrans; [exact Hop|apply settles_drop_receiver].
Qed.

Lemma calm_open_route r d m : calm m (open_route r d m).1.
Proof.
  unfold open_route. rewrite sbind_eq, ensure_open_eq. destruct (closed m); cbn [fst snd]; [by apply settles_calm|].
  rewrite sbind_eq. cbn [fst snd gets].
  apply calm_bind; [apply insert_route_grows|]. intros l. apply keeps_bind; [apply _|apply keeps_order_or_drop; keeps_auto|]. intros. keeps_auto.
  apply keeps_modify. intros m'. by apply settles_push_control.
Qed.

Lemma calm_open_next_route d m : calm m (open_next_route d m).1.
Proof.
  unfold open_next_route. destruct (next_route_id m) as [m1 r] eqn:E.
  destruct (calm_open_route r d m1) as (mid & (Ee & Er & Ho & Hk) & Hs). exists mid.
  split; [|done]. injection E as <- <-. done.
Qed.

Lemma calm_route_open r body m : calm m (dispatch_route_open r body m).1.
Proof.
  unfold dispatch_route_open. rewrite sbind_eq. unfold lift_result.
  destruct (open_decode body) as [open|]; cbn [map_err]; [|by apply settles_calm].
  rewrite sbind_eq. unfold gets at 1. destruct (owns_route (side m) r).
  { apply settles_calm. apply settles_reject. }
  apply (calm_bind (attempt _)).
  { unfold attempt. pose proof (insert_route_grows r
      (if N.eqb (ob_credit open) 0 then initial_window_frames (config m) else ob_credit open) true m) as H.
    by destruct (insert_route _ _ _ m). }
  intros [l|e].
  - keeps_auto; try (apply keeps_modify_same; done); apply keeps_modify; intros;
      first [apply settles_drop_receiver|apply settles_push_protocol].
  - destruct e; try apply keeps_fail; try apply _; keeps_auto; apply keeps_modify; intros; apply settles_reject.
Qed.

Lemma calm_dispatch f m : calm m (dispatch f m).1.
Proof.
  unfold dispatch. rewrite sbind_eq. unfold lift_result at 1.
  destruct (header_decode (fr_payload f)) as [[h body]|]; cbn [map_err]; [|by apply settles_calm].
  destruct (mh_tag h).
  - apply settles_calm. apply keeps_bind; [apply _|keeps_auto|]. intros. keeps_auto.
  - apply settles_calm. apply keeps_bind; [apply _|apply keeps_route_data|]. intros. keeps_auto.
  - pose proof (calm_route_open (mh_route h) body m) as H. unfold sbind.
    by destruct (dispatch_route_open (mh_route h) body m) as [m' [d|e]].
  - apply settles_calm. apply keeps_bind; [apply _|apply keeps_route_accept|]. intros. keeps_auto.
  - apply settles_calm. apply keeps_bind; [apply _|keeps_auto|]. intros. keeps_auto.
    apply keeps_modify. intros. apply settles_close_locally.
  - apply settles_calm. apply keeps_bind; [apply _|keeps_auto|]. intros. keeps_auto.
    apply keeps_modify. intros. apply settles_add_credit.
  - apply settles_calm. apply keeps_bind; [apply _|keeps_auto|]. intros. keeps_auto.
Qed.

Lemma calm_read_frame f m : calm m (read_frame display f m).1.
Proof.
  unfold read_frame. pose proof (calm_dispatch f m) as H.
  destruct (dispatch f m) as [m' [[[|]|]|e]]; cbn in *; [done| |done|].
  - eapply calm_settles; [exact H|]. apply settles_close.
  - eapply calm_settles; [exact H|]. case_match.
    + trans (count Errors m'); [by apply settles_same|]. apply settles_close.
    + by apply settles_same.
Qed.

(** *** Fairness *)

Inductive mux_op : Type :=
  | OWrite
  | OSend (route : RouteId) (permits : loc) (policy : CompressionPolicy) (kind : FrameKind) (payload : list N)
  | OControl (kind : FrameKind) (payload : list N)
  | ODatagram (kind : FrameKind) (payload : list N)
  | OOpen (descriptor : list N)
  | OClose (route : RouteId) (code : N) (detail : str)
  | ORead (frame : Frame)
  | ORecv (route : RouteId) (receiver : loc)
  | OReceive (l : loc)
  | ODropReceiver (l : loc)
  | OShutdown (reason : CloseReason).

Definition mux_step (m : MuxShared) (o : mux_op) : MuxShared :=
  match o with
  | OWrite => let '(m, batch) := take_batch 1 m in drop_items batch m
  | OSend r l policy kind payload => (route_try_send r l policy kind payload m).1
  | OControl kind payload => (control_try_send kind payload m).1
  | ODatagram kind payload => (queue_datagram kind payload m).1
  | OOpen descriptor => (open_next_route descriptor m).1
  | OClose r code detail => close_route r code detail m
  | ORead frame => (read_frame display frame m).1
  | ORecv r l => (route_try_recv r l m).1
  | OReceive l => (channel_try_recv l m).1
  | ODropReceiver l => drop_receiver_at l m
  | OShutdown reason => close reason m
  end.

(** The frames a history writes. *)
Fixpoint written (m : MuxShared) (ops : list mux_op) : list Outbound :=
  match ops with
  | [] => []
  | o :: ops => (match o with OWrite => (take_batch 1 m).2 | _ => [] end) ++ written (mux_step m o) ops
  end.

(** The route has a frame and the credit for it throughout. *)
Fixpoint keeps_ready (x : RouteId) (m : MuxShared) (ops : list mux_op) : Prop :=
  match ops with
  | [] => True
  | o :: ops => route_ready (ms_state m) x = true ∧ keeps_ready x (mux_step m o) ops
  end.

Lemma mux_step_calm m o : o ≠ OWrite → calm m (mux_step m o).
Proof.
  intros Ho. destruct o as [|r l policy kind payload|kind payload|kind payload|d|r code detail|f|r l|l|l|reason];
    cbn [mux_step].
  - done.
  - apply settles_calm, keeps_route_try_send.
  - apply settles_calm, keeps_control_try_send.
  - apply settles_calm, keeps_queue_datagram.
  - apply calm_open_next_route.
  - apply settles_calm, settles_close_route.
  - apply calm_read_frame.
  - apply settles_calm, settles_route_try_recv.
  - apply settles_calm. unfold channel_try_recv. case_match; [|done].
    destruct (try_recv _). by apply settles_same.
  - apply settles_calm. by apply settles_same.
  - apply settles_calm, settles_close.
Qed.

Lemma depth_of_env m m' : ms_env m' = ms_env m → depth_of m' = depth_of m.
Proof. unfold depth_of, config. by intros ->. Qed.

Lemma calm_keeps m m' :
  calm m m' → sched_ok (depth_of m) (ms_state m) →
  ms_env m' = ms_env m ∧ control_run (ms_state m') = control_run (ms_state m) ∧
  sched_ok (depth_of m) (ms_state m').
Proof.
  intros (mid & (E1 & R1 & _ & Hg) & (E2 & R2 & _ & Hs)) Hok.
  rewrite (depth_of_env m mid) in Hs by done. split_and!; [congruence..|auto].
Qed.

Lemma calm_place m m' x n :
  calm m m' → at_place x n (ms_state m) → x ∈ order (ms_state m') →
  ∃ n', (n' ≤ n)%nat ∧ at_place x n' (ms_state m').
Proof.
  intros (mid & (_ & _ & (extra & Hg) & _) & (_ & _ & (p & Hs) & _)) (l1 & l2 & Ho & <-) Hx.
  rewrite Hs in Hx. apply list_elem_of_filter in Hx as [Hp _].
  rewrite Hg, Ho, <-app_assoc in Hs. cbn [app] in Hs.
  rewrite filter_app, filter_cons_True in Hs by done.
  eexists. split; [|by eexists _, _]. apply length_filter.
Qed.

Lemma popped_ok d burst s s' item : popped burst s s' item → sched_ok d s → sched_ok d s'.
Proof.
  intros Hp [Hr Hc Hd Ho Hdep].
  destruct Hp as [item rest E _|item rest _ E _|l1 y l2 e item queue Eo _ _ He Hq _]; split; cbn; auto.
  - rewrite E in Hc. by inversion Hc.
  - rewrite E in Hd. by inversion Hd.
  - rewrite E in Hdep. cbn [length] in Hdep. lia.
  - intros r e'. rewrite lookup_insert_Some. intros [[<- <-]|[? ?]]; [|eauto].
    pose proof (Hr _ _ He) as Hi. rewrite Hq in Hi. inversion Hi.
    unfold popped_entry. by destruct (ob_consumes_credit item).
  - intros r. rewrite lookup_insert_is_Some'. intros H.
    assert (r ∈ order s) as Hin by (destruct H as [<-|]; eauto).
    rewrite Eo in Hin. set_solver.
Qed.

Lemma take_one m :
  take_batch 1 m = match pop_next (control_burst (config m)) (ms_state m) with
                   | (s, Some item) => (with_state (λ _, s) m, [item])
                   | (s, None) => (with_state (λ _, s) m, [])
                   end.
Proof. cbn. by destruct (pop_next _ _) as [s [item|]]. Qed.

Lemma written_bound x ops : ∀ m n,
  sched_ok (depth_of m) (ms_state m) → x ≠ NONE → control_burst (config m) <= u32_max →
  at_place x n (ms_state m) → keeps_ready x m ops → x ∉ ob_route <$> written m ops →
  N.of_nat (length (written m ops)) <= distance (control_burst (config m)) n (ms_state m).
Proof.
  induction ops as [|o ops IH]; intros m n Hok Hx Hb Hn Hready Hnot; [cbn; lia|].
  destruct Hready as [Hr Hready]. cbn [written] in *. rewrite fmap_app in Hnot.
  apply not_elem_of_app in Hnot as [Hnot1 Hnot].
  assert (∀ m' n', ms_env m' = ms_env m → mux_step m o = m' → sched_ok (depth_of m) (ms_state m') →
            (x ∈ order (ms_state m') → at_place x n' (ms_state m')) →
            N.of_nat (length (written m' ops)) <= distance (control_burst (config m)) n' (ms_state m')) as Hrest.
  { intros m' n' He <- Hok' Hplace. destruct ops as [|o' ops]; [cbn; lia|].
    assert (depth_of (mux_step m o) = depth_of m ∧
            control_burst (config (mux_step m o)) = control_burst (config m)) as [Ed Eb]
      by (unfold depth_of, config; by rewrite He).
    rewrite <-Eb. apply IH; rewrite ?Ed, ?Eb; auto. apply Hplace. destruct Hready as [Hr' _]. apply (so_order _ _ Hok').
    unfold route_ready in Hr'. by destruct (routes _ !! x); [eexists|]. }
  assert (o = OWrite ∨ o ≠ OWrite) as [->|Hw] by (destruct o; auto).
  - cbn [mux_step] in *. rewrite take_one in *. pose proof (pop_next_spec (control_burst (config m)) (ms_state m)) as Hp.
    destruct (pop_next _ _) as [s [item|]]; cbn [fst snd] in *.
    + destruct (popped_comes_closer _ _ _ _ x n Hp Hb Hr Hn) as [(e & e' & q & He & Hq & _)|(n' & Hn' & Hd)].
      { exfalso. pose proof (so_items _ _ Hok _ _ He) as Hi. rewrite Hq in Hi. inversion Hi; subst.
        apply Hnot1. cbn. set_solver. }
      pose proof (popped_ok _ _ _ _ _ Hp Hok) as Hok'.
      pose proof (Hrest (drop_items [item] (with_state (λ _, s) m)) n' eq_refl eq_refl Hok' (λ _, Hn')) as H.
      cbn [app length]. rewrite Nat2N.inj_succ. cbn in H. lia.
    + destruct Hp as (-> & _ & _ & Hnone). exfalso. unfold none_ready in Hnone.
      destruct Hn as (l1 & l2 & Ho & _). rewrite Ho in Hnone. apply Forall_app in Hnone as [_ Hnone].
      inversion Hnone; congruence.
  - assert ((match o with OWrite => (take_batch 1 m).2 | _ => [] end) = []) as -> by (by destruct o).
    cbn [app]. pose proof (mux_step_calm m o Hw) as Hcalm.
    assert (ms_env (mux_step m o) = ms_env m ∧ control_run (ms_state (mux_step m o)) = control_run (ms_state m)
            ∧ sched_ok (depth_of m) (ms_state (mux_step m o))) as (He & Hrun & Hok').
    { by apply calm_keeps. }
    destruct (decide (x ∈ order (ms_state (mux_step m o)))) as [Hin|Hout].
    + destruct (calm_place _ _ _ _ Hcalm Hn Hin) as (n' & Hle & Hn').
      pose proof (Hrest _ n' He eq_refl Hok' (λ _, Hn')) as H. unfold distance in *. rewrite Hrun in H. nia.
    + pose proof (Hrest _ n He eq_refl Hok' (λ H, False_ind _ (Hout H))) as H.
      unfold distance in *. by rewrite Hrun in H.
Qed.

Lemma mux_step_ok m o :
  sched_ok (depth_of m) (ms_state m) →
  ms_env (mux_step m o) = ms_env m ∧ sched_ok (depth_of m) (ms_state (mux_step m o)).
Proof.
  intros Hok. assert (o = OWrite ∨ o ≠ OWrite) as [->|Hw] by (destruct o; auto).
  - cbn [mux_step]. rewrite take_one.
    pose proof (pop_next_spec (control_burst (config m)) (ms_state m)) as Hp.
    destruct (pop_next _ _) as [s [item|]]; cbn; [split; [done|]|].
    + by eapply popped_ok.
    + by destruct Hp as (-> & _).
  - pose proof (calm_keeps _ _ (mux_step_calm m o Hw) Hok) as (? & _ & ?). done.
Qed.

Lemma sched_ok_history config side policy max_payload max_routes ops :
  sched_ok (datagram_queue_depth config)
    (ms_state (foldl mux_step (shared_new config side policy max_payload max_routes) ops)).
Proof.
  assert (∀ m, ms_env m = mkEnv config side max_routes policy → sched_ok (datagram_queue_depth config) (ms_state m) →
    sched_ok (datagram_queue_depth config) (ms_state (foldl mux_step m ops))) as Hrun.
  { induction ops as [|o ops IH]; intros m He Hok; [done|]. cbn.
    assert (depth_of m = datagram_queue_depth config) as Ed by (unfold depth_of, MuxState.config; by rewrite He).
    rewrite <-Ed in Hok. pose proof (mux_step_ok m o Hok) as [He' Hok'].
    apply IH; [congruence|by rewrite <-Ed]. }
  apply Hrun; [done|]. split; cbn; [|apply Forall_nil_2..| |lia].
  - intros r e. by rewrite lookup_empty.
  - intros r. rewrite lookup_empty. by intros [? ?].
Qed.
End history.

(** C38. No route starves: in any history of calls on a connection in which a
    route has a frame and the credit for it throughout and is not served,
    fewer frames are written than the number of routes times one more than
    the control burst, whatever control frames, datagrams and other routes
    ask for. *)
Theorem mux_scheduler_is_fair `{Mpsc Frame, Mpsc InboundRoute, Semaphore, OxiArc} display m x ops :
  sched_ok (depth_of m) (ms_state m) → x ≠ NONE → control_burst (config m) <= u32_max →
  keeps_ready display x m ops → x ∉ ob_route <$> written display m ops → ops ≠ [] →
  N.of_nat (length (written display m ops)) <
    N.of_nat (length (order (ms_state m))) * (control_burst (config m) + 1).
Proof.
  intros Hok Hx Hb Hready Hnot Hne.
  assert (x ∈ order (ms_state m)) as (l1 & l2 & Ho)%list_elem_of_split.
  { destruct ops as [|o ops]; [done|]. destruct Hready as [Hr _]. apply (so_order _ _ Hok).
    unfold route_ready in Hr. by destruct (routes _ !! x); [eexists|]. }
  pose proof (written_bound display x ops m (length l1) Hok Hx Hb (ex_intro _ l1 (ex_intro _ l2 (conj Ho eq_refl))) Hready Hnot) as Hw.
  rewrite Ho, length_app. cbn [length]. unfold distance in Hw. nia.
Qed.

(** A connection to try things on. *)
Module Sample.
Import ListTokio RunLength.

Definition quiet (e : TransportError) : str := [].

Definition fresh (s : Side) : MuxShared := shared_new config_new s policy_disabled 1024 4.

Definition after (s : Side) (ops : list mux_op) : MuxShared := foldl (mux_step quiet) (fresh s) ops.

Definition two_busy_routes : list mux_op :=
  [OOpen []; OOpen []; OSend 1 2 policy_disabled Data [7]; OSend 3 3 policy_disabled Data [8]].
End Sample.

Lemma mux_scheduler_is_fair_witness :
  let m := Sample.after Initiator Sample.two_busy_routes in
  let ops := [OControl Data [1]; OWrite; OWrite; OWrite] in
  let n := N.of_nat (length (written Sample.quiet m ops)) in
  n = 3 ∧ n < N.of_nat (length (order (ms_state m))) * 9.
Proof.
  split; [by vm_compute|].
  apply (mux_scheduler_is_fair Sample.quiet (Sample.after Initiator Sample.two_busy_routes) 1
    [OControl Data [1]; OWrite; OWrite; OWrite]).
  - pose proof (λ T, sched_ok_history Sample.quiet config_new Initiator policy_disabled 1024 4 T) as H.
    exact (H Sample.two_busy_routes).
  - done.
  - by vm_compute.
  - cbn [keeps_ready]. split_and!; by vm_compute.
  - apply (bool_decide_unpack _). by vm_compute.
  - done.
Defined.

(** Whatever a producer of datagrams does and however slow the link is,
    at most the configured number of them waits; and every open route takes
    part in the rotation of the scheduler. *)
Theorem datagrams_stay_bounded `{Mpsc Frame, Mpsc InboundRoute, Semaphore, OxiArc}
    display config side policy max_payload max_routes ops :
  let s := ms_state (foldl (mux_step display) (shared_new config side policy max_payload max_routes) ops) in
  N.of_nat (length (datagrams s)) <= N.max (datagram_queue_depth config) 1 ∧
  ∀ r, is_Some (routes s !! r) → r ∈ order s.
Proof.
  pose proof (sched_ok_history display config side policy max_payload max_routes ops) as [_ _ _ Ho Hd]. done.
Qed.
