(* ===== verification/MuxFlow.v ===== *)
(** * What a multiplexer does to credit

    One end of a connection of [MuxState].  A frame weighs what it carries:
    data, a grant of credit, an opening ([data_w], [grant_w], [open_w]).  For
    every call of [mux/state.rs], [mux/handle.rs] and [mux/driver.rs], in
    terms of the frames it reads and writes: it creates no credit and no
    room that was not read, and gives up what it writes ([effect], [still]),
    except that opening or accepting a route puts its window on the table
    once ([gains]).  [MuxLink] composes two ends. *)

From Stdlib Require Import Lia.
From stdpp Require Import base tactics gmap strings numbers list.
From S2P Require Import Prelude Crc32c Text Utf8 WireFrame MuxHeader MuxCompress MuxState MuxSched.

Open Scope N_scope.

(** ** What a frame weighs *)

Definition frame_is (tag : MuxTag) (r : RouteId) (f : Frame) : option (list N) :=
  match header_decode (fr_payload f) with
  | Ok (h, body) => if bool_decide (mh_tag h = tag ∧ mh_route h = r) then Some body else None
  | Err _ => None
  end.

(** A frame of data on the route; the credit it grants; an opening of it. *)
Definition data_w (r : RouteId) (f : Frame) : N :=
  match frame_is RouteData r f with Some _ => 1 | None => 0 end.

Definition grant_w (r : RouteId) (f : Frame) : N :=
  match frame_is Credit r f with
  | Some body => match decode_credit body with Ok d => d | Err _ => 0 end
  | None => 0
  end.

Definition open_w (r : RouteId) (f : Frame) : N :=
  match frame_is RouteOpen r f with Some _ => 1 | None => 0 end.

Definition weigh (w : Frame → N) (l : list Frame) : N := foldr (λ f n, w f + n) 0 l.

Lemma weigh_app w l1 l2 : weigh w (l1 ++ l2) = weigh w l1 + weigh w l2.
Proof. unfold weigh. induction l1 as [|f l1 IH]; cbn; [lia|]. cbn in IH. rewrite IH. lia. Qed.

Lemma weigh_sublist w l1 l2 : l1 `sublist_of` l2 → weigh w l1 <= weigh w l2.
Proof. unfold weigh. induction 1; cbn in *; lia. Qed.

Lemma weigh_nil w : weigh w [] = 0.
Proof. done. Qed.

Lemma weigh_cons w f l : weigh w (f :: l) = w f + weigh w l.
Proof. done. Qed.

Lemma weigh_zero w l : Forall (λ f, w f = 0) l → weigh w l = 0.
Proof. unfold weigh. induction 1 as [|f l Hf _ IH]; [done|]. cbn. by rewrite Hf, IH. Qed.

(** A frame built for a header. *)
Lemma frame_is_build kind flags h body f tag r :
  frame_new kind flags (build_payload h body) = Ok f → mux_header_ok h →
  frame_is tag r f = if bool_decide (mh_tag h = tag ∧ mh_route h = r) then Some body else None.
Proof.
  unfold frame_new. intros Hf Hh. destruct (payload_u32 _); [|done]. cbn [rbind] in Hf. simplify_eq.
  unfold frame_is. cbn [fr_payload]. by rewrite header_decode_build.
Qed.

Lemma header_decode_tag h body h' body' :
  header_decode (build_payload h body) = Ok (h', body') → mh_tag h' = mh_tag h.
Proof.
  unfold header_decode, build_payload, header_encode_into. cbn [app hd]. rewrite tag_from_as_u8.
  cbn [rbind]. intros H. repeat case_match; try done. by simplify_eq.
Qed.

Lemma frame_is_tag kind flags h body f tag r body' :
  frame_new kind flags (build_payload h body) = Ok f → frame_is tag r f = Some body' → tag = mh_tag h.
Proof.
  unfold frame_new. intros Hf. destruct (payload_u32 _); [|done]. cbn [rbind] in Hf. simplify_eq.
  unfold frame_is. cbn [fr_payload]. destruct (header_decode _) as [[h' b']|] eqn:E; [|done].
  apply header_decode_tag in E. destruct (bool_decide _) eqn:Eb; [|done].
  apply bool_decide_eq_true in Eb as [<- _]. done.
Qed.

(** A frame decodes to one header, so it has at most one weight. *)
Lemma frame_is_unique t1 t2 r1 r2 f b1 b2 :
  frame_is t1 r1 f = Some b1 → frame_is t2 r2 f = Some b2 → t1 = t2 ∧ r1 = r2 ∧ b1 = b2.
Proof.
  unfold frame_is. destruct (header_decode _) as [[h body]|]; [|done].
  destruct (bool_decide (mh_tag h = t1 ∧ _)) eqn:E1, (bool_decide (mh_tag h = t2 ∧ _)) eqn:E2; try done.
  apply bool_decide_eq_true in E1 as [<- <-]. apply bool_decide_eq_true in E2 as [<- <-].
  intros. by simplify_eq.
Qed.

(** A frame that is of no route, and a frame of data. *)
Definition weightless (f : Frame) : Prop := ∀ r, data_w r f = 0 ∧ grant_w r f = 0 ∧ open_w r f = 0.

Definition is_data (r : RouteId) (f : Frame) : Prop :=
  (∀ r', data_w r' f = if bool_decide (r' = r) then 1 else 0) ∧ ∀ r', grant_w r' f = 0 ∧ open_w r' f = 0.

(** The tags that neither carry data nor move credit nor open a route. *)
Definition tag_is_plain (t : MuxTag) : bool :=
  match t with RouteData | Credit | RouteOpen => false | _ => true end.

Lemma plain_weightless kind flags h body f :
  frame_new kind flags (build_payload h body) = Ok f → tag_is_plain (mh_tag h) = true → weightless f.
Proof.
  intros Hf Ht r. unfold data_w, grant_w, open_w.
  destruct (frame_is RouteData r f) eqn:E1; [apply (frame_is_tag _ _ _ _ _ _ _ _ Hf) in E1; by rewrite <-E1 in Ht|].
  destruct (frame_is Credit r f) eqn:E2; [apply (frame_is_tag _ _ _ _ _ _ _ _ Hf) in E2; by rewrite <-E2 in Ht|].
  destruct (frame_is RouteOpen r f) eqn:E3; [apply (frame_is_tag _ _ _ _ _ _ _ _ Hf) in E3; by rewrite <-E3 in Ht|].
  done.
Qed.

Definition route_valid (r : RouteId) : Prop := 0 < r < 2 ^ 64.

Lemma route_valid_header t r : route_valid r → is_route_scoped t = true → mux_header_ok (mkMuxHeader t r).
Proof.
  intros [H0 H1] Ht. split; [|done]. cbn. rewrite Ht. unfold is_none.
  destruct (N.eqb_spec r 0); [lia|done].
Qed.

Lemma data_frame kind flags r body f :
  frame_new kind flags (build_payload (mkMuxHeader RouteData r) body) = Ok f → route_valid r → is_data r f.
Proof.
  intros Hf Hr. assert (mux_header_ok (mkMuxHeader RouteData r)) as Hok by (by apply route_valid_header).
  split; intros r'; unfold data_w, grant_w, open_w; rewrite !(frame_is_build _ _ _ _ _ _ _ Hf Hok); cbn [mh_tag mh_route].
  - destruct (decide (r' = r)) as [->|]; [by rewrite !bool_decide_true|].
    rewrite !bool_decide_false; [done|done|]. by intros [_ ?].
  - rewrite !bool_decide_false; [done|..]; by intros [? _].
Qed.

Lemma grant_frame kind flags r delta f :
  frame_new kind flags (build_payload (mkMuxHeader Credit r) (encode_credit delta)) = Ok f →
  route_valid r → delta <= u32_max →
  ∀ r', data_w r' f = 0 ∧ open_w r' f = 0 ∧ grant_w r' f = if bool_decide (r' = r) then delta else 0.
Proof.
  intros Hf Hr Hd r'. assert (mux_header_ok (mkMuxHeader Credit r)) as Hok by (by apply route_valid_header).
  unfold data_w, grant_w, open_w. rewrite !(frame_is_build _ _ _ _ _ _ _ Hf Hok). cbn [mh_tag mh_route].
  rewrite !(bool_decide_false (Credit = RouteData ∧ _)), !(bool_decide_false (Credit = RouteOpen ∧ _)) by (by intros [? _]).
  split_and!; [done..|]. destruct (decide (r' = r)) as [->|].
  - rewrite !bool_decide_true by done. rewrite decode_encode_credit; [done|]. unfold u32_max in Hd. lia.
  - rewrite !bool_decide_false; [done|done|]. by intros [_ ?].
Qed.

Lemma open_frame kind flags r body f :
  frame_new kind flags (build_payload (mkMuxHeader RouteOpen r) body) = Ok f → route_valid r →
  ∀ r', data_w r' f = 0 ∧ grant_w r' f = 0 ∧ open_w r' f = (if bool_decide (r' = r) then 1 else 0) ∧
        (∀ b, frame_is RouteOpen r' f = Some b → r' = r ∧ b = body).
Proof.
  intros Hf Hr r'. assert (mux_header_ok (mkMuxHeader RouteOpen r)) as Hok by (by apply route_valid_header).
  unfold data_w, grant_w, open_w. rewrite !(frame_is_build _ _ _ _ _ _ _ Hf Hok). cbn [mh_tag mh_route].
  rewrite !(bool_decide_false (RouteOpen = RouteData ∧ _)), !(bool_decide_false (RouteOpen = Credit ∧ _)) by (by intros [? _]).
  destruct (decide (r' = r)) as [->|].
  - rewrite !bool_decide_true by done. split_and!; [done..|]. intros b. by intros [= <-].
  - rewrite !(bool_decide_false (_ ∧ _)) by (by intros [_ ?]). rewrite !bool_decide_false by done. done.
Qed.

(** ** One end of a connection *)

Section endpoint.
Context {MF : Mpsc Frame} {MI : Mpsc InboundRoute} {SM : Semaphore} {OA : OxiArc}.
Context {MFL : MpscLaws Frame} {MIL : MpscLaws InboundRoute}.
(** The window of each route. *)
Context (W : RouteId → N).

Definition table (m : MuxShared) : gmap RouteId RouteEntry := routes (ms_state m).
Definition queued_control (m : MuxShared) : list Frame := ob_frame <$> control (ms_state m).

Definition credit_of (m : MuxShared) (r : RouteId) : N :=
  match table m !! r with Some e => re_credit e | None => 0 end.

Definition consumed_of (m : MuxShared) (r : RouteId) : N :=
  match table m !! r with Some e => re_consumed e | None => 0 end.

Definition waiting_at (m : MuxShared) (l : loc) : N :=
  match chans (ms_store m) !! l with Some c => N.of_nat (length (waiting c)) | None => 0 end.

(** The frames that wait for the application. *)
Definition fill (m : MuxShared) (r : RouteId) : N :=
  match table m !! r with Some e => waiting_at m (re_inbound e) | None => 0 end.

(** What the receiving end holds of the peer's window. *)
Definition held (m : MuxShared) (r : RouteId) : N :=
  fill m r + consumed_of m r + weigh (grant_w r) (queued_control m).

Definition openings (m : MuxShared) (r : RouteId) : N := weigh (open_w r) (queued_control m).

(** An opening announces this end's window, for a route of this end. *)
Definition opening_ok (m : MuxShared) (f : Frame) : Prop :=
  ∀ r b, frame_is RouteOpen r f = Some b →
    owns_route (side m) r = true ∧
    ∃ o, open_decode b = Ok o ∧ ob_credit o = initial_window_frames (config m).

Definition entry_ok (m : MuxShared) (r : RouteId) (e : RouteEntry) : Prop :=
  route_valid r ∧
  Forall (λ i, ob_consumes_credit i = true ∧ is_data r (ob_frame i)) (re_queue e) ∧
  2 <= re_inbound e < next_loc (ms_store m) ∧
  ∃ c, chans (ms_store m) !! re_inbound e = Some c ∧ bound c = Some (W r).

(** The application's own channels are not those of routes. *)
Definition sinks_low (s : MuxState) : Prop :=
  (∀ l, sink_control (inbound s) = Some l → l < 2) ∧ ∀ l, sink_datagrams (inbound s) = Some l → l < 2.

Record ep_ok (m : MuxShared) : Prop := mkEpOk {
  eo_entry r e : table m !! r = Some e → entry_ok m r e;
  eo_inj r r' e e' : table m !! r = Some e → table m !! r' = Some e' →
    re_inbound e = re_inbound e' → r = r';
  eo_control : Forall (λ f, opening_ok m f ∧ ∀ r, data_w r f = 0) (queued_control m);
  eo_datagrams : Forall (λ i, weightless (ob_frame i)) (datagrams (ms_state m));
  eo_sinks : sinks_low (ms_state m);
  eo_loc : 2 <= next_loc (ms_store m);
}.

(** The receivers of routes the application has not claimed yet. *)
Definition unclaimed (m : MuxShared) : list (RouteId * loc) :=
  (λ i, (ir_route i, ir_receiver i)) <$> waiting (accepts (ms_store m)).

(** What a call that opens no route does, given the frames it read and the
    frames it wrote: no credit and no holding appears that was not read, and
    what is written is given up. *)
Definition effect (fin fout : list Frame) (m m' : MuxShared) : Prop :=
  ms_env m' = ms_env m ∧ next_route m' = next_route m ∧
  next_loc (ms_store m') = next_loc (ms_store m) ∧ unclaimed m' = unclaimed m ∧
  (ep_ok m →
   ep_ok m' ∧ Forall (opening_ok m) fout ∧
   (∀ r e', table m' !! r = Some e' → ∃ e, table m !! r = Some e ∧ re_inbound e' = re_inbound e) ∧
   ∀ r, credit_of m' r + weigh (data_w r) fout <= credit_of m r + weigh (grant_w r) fin ∧
        held m' r + weigh (grant_w r) fout <= held m r + weigh (data_w r) fin ∧
        openings m' r + weigh (open_w r) fout <= openings m r).

Lemma effect_trans fin1 fout1 fin2 fout2 m1 m2 m3 :
  effect fin1 fout1 m1 m2 → effect fin2 fout2 m2 m3 → effect (fin1 ++ fin2) (fout1 ++ fout2) m1 m3.
Proof.
  intros (E1 & N1 & L1 & U1 & H1) (E2 & N2 & L2 & U2 & H2). split_and!; [congruence..|].
  intros Hok. destruct (H1 Hok) as (Hok2 & O1 & T1 & R1). destruct (H2 Hok2) as (Hok3 & O2 & T2 & R2).
  split_and!; [done| | |].
  - apply Forall_app. split; [done|]. eapply Forall_impl; [exact O2|]. unfold opening_ok, side, config. by rewrite E1.
  - intros r e3 He3. destruct (T2 r e3 He3) as (e2 & He2 & ?). destruct (T1 r e2 He2) as (e1 & He1 & ?).
    exists e1. split; [done|congruence].
  - intros r. destruct (R1 r) as (?&?&?), (R2 r) as (?&?&?). rewrite !weigh_app. lia.
Qed.

Definition still : MuxShared → MuxShared → Prop := effect [] [].

Lemma still_refl m : still m m.
Proof.
  split_and!; [done..|]. intros Hok. split_and!; [done..| |].
  - intros r e He. eauto.
  - intros r. cbn. lia.
Qed.

#[local] Instance still_preorder : PreOrder still.
Proof. split; [intros m; apply still_refl|]. intros m1 m2 m3 H1 H2. exact (effect_trans _ _ _ _ _ _ _ H1 H2). Qed.

(** A call that keeps the table, the control queue and the channels. *)
Lemma still_same m m' :
  ms_env m' = ms_env m → next_route m' = next_route m → next_loc (ms_store m') = next_loc (ms_store m) →
  accepts (ms_store m') = accepts (ms_store m) → chans (ms_store m') = chans (ms_store m) →
  table m' = table m → control (ms_state m') = control (ms_state m) →
  (Forall (λ i, weightless (ob_frame i)) (datagrams (ms_state m)) →
   Forall (λ i, weightless (ob_frame i)) (datagrams (ms_state m'))) →
  (sinks_low (ms_state m) → sinks_low (ms_state m')) →
  still m m'.
Proof.
  intros E N L A C T Q D K. split_and!; [done..| |].
  { unfold unclaimed. by rewrite A. }
  assert (queued_control m' = queued_control m) as Q' by (unfold queued_control; by rewrite Q).
  intros [He Hi Hc Hd Hs Hloc]. split_and!.
  - split.
    + intros r e. rewrite T. intros Hr. destruct (He r e Hr) as (?&?&?&?). unfold entry_ok. rewrite L, C. done.
    + intros r r' e e'. rewrite T. apply Hi.
    + rewrite Q'. eapply Forall_impl; [exact Hc|]. unfold opening_ok, side, config. by rewrite E.
    + auto.
    + auto.
    + by rewrite L.
  - constructor.
  - rewrite T. eauto.
  - intros r. unfold credit_of, held, fill, consumed_of, openings, waiting_at. rewrite T, Q', C. cbn. lia.
Qed.

(** Changing an entry, with credit only from what was read. *)
Lemma effect_set_entry fin r e e' m :
  table m !! r = Some e → re_credit e' <= re_credit e + weigh (grant_w r) fin → re_consumed e' <= re_consumed e →
  re_inbound e' = re_inbound e →
  (entry_ok m r e → Forall (λ i, ob_consumes_credit i = true ∧ is_data r (ob_frame i)) (re_queue e')) →
  effect fin [] m (with_state (set_entry r e') m).
Proof.
  intros Hr Hc Hn Hl Hq. split_and!; [done..|]. intros [He Hi Hctl Hd Hs Hloc].
  assert (∀ r', table (with_state (set_entry r e') m) !! r' = if decide (r' = r) then Some e' else table m !! r') as T.
  { intros r'. unfold table. cbn. destruct (decide (r' = r)) as [->|]; [by rewrite lookup_insert_eq|by rewrite lookup_insert_ne]. }
  split_and!.
  - split.
    + intros r' e''. rewrite T. destruct (decide (r' = r)) as [->|]; [|apply He]. intros [= <-].
      pose proof (He r e Hr) as Hok. specialize (Hq Hok). destruct Hok as (?&?&?&?).
      unfold entry_ok. by rewrite Hl.
    + intros r1 r2 e1 e2. rewrite !T. destruct (decide (r1 = r)) as [->|], (decide (r2 = r)) as [->|];
        intros; simplify_eq; rewrite ?Hl in *; eauto.
    + exact Hctl.
    + exact Hd.
    + exact Hs.
    + exact Hloc.
  - constructor.
  - intros r' e''. rewrite T. destruct (decide (r' = r)) as [->|]; [|eauto]. intros [= <-]. eauto.
  - intros r'. unfold credit_of, held, fill, consumed_of, openings, waiting_at. rewrite T.
    change (queued_control (with_state _ m)) with (queued_control m).
    change (ms_store (with_state _ m)) with (ms_store m). change (weigh (data_w r') []) with 0. change (weigh (grant_w r') []) with 0.
    change (weigh (open_w r') []) with 0.
    destruct (decide (r' = r)) as [->|]; [|lia]. rewrite Hr, Hl. lia.
Qed.

(** Changing an entry without adding credit or holdings. *)
Lemma still_set_entry r e e' m :
  table m !! r = Some e → re_credit e' <= re_credit e → re_consumed e' <= re_consumed e →
  re_inbound e' = re_inbound e →
  (entry_ok m r e → Forall (λ i, ob_consumes_credit i = true ∧ is_data r (ob_frame i)) (re_queue e')) →
  still m (with_state (set_entry r e') m).
Proof. intros. apply (effect_set_entry [] r e); [done|cbn; lia|done..]. Qed.

Lemma drop_items_store items st :
  chans (foldl drop_item st items) = chans st ∧ next_loc (foldl drop_item st items) = next_loc st ∧
  accepts (foldl drop_item st items) = accepts st.
Proof.
  revert st. induction items as [|i l IH]; intros st; cbn; [done|].
  destruct (IH (drop_item st i)) as (-> & -> & ->). unfold drop_item.
  destruct (ob_permit i); [|done]. by destruct (sems st !! _).
Qed.

(** Taking a route off the table. *)
Lemma still_remove_route r m m' : remove_route r m = Some m' → still m m'.
Proof.
  unfold remove_route. destruct (routes (ms_state m) !! r) as [e|] eqn:Ee; [|done]. intros [= <-].
  set (m' := with_counters _ _).
  assert (chans (ms_store m') = chans (ms_store m) ∧ next_loc (ms_store m') = next_loc (ms_store m) ∧
          accepts (ms_store m') = accepts (ms_store m)) as (C & L & A).
  { apply drop_items_store. }
  assert (∀ r', table m' !! r' = if decide (r' = r) then None else table m !! r') as T.
  { intros r'. unfold table. cbn. destruct (decide (r' = r)) as [->|]; [by rewrite lookup_delete_eq|by rewrite lookup_delete_ne]. }
  split_and!; [done..|exact L| |].
  { unfold unclaimed. by rewrite A. }
  intros [He Hi Hctl Hd Hs Hloc]. split_and!.
  - split.
    + intros r' e'. rewrite T. destruct (decide (r' = r)); [done|]. intros Hr'.
      destruct (He r' e' Hr') as (?&?&?&?). unfold entry_ok. by rewrite L, C.
    + intros r1 r2 e1 e2. rewrite !T. destruct (decide (r1 = r)), (decide (r2 = r)); try done. apply Hi.
    + exact Hctl.
    + exact Hd.
    + exact Hs.
    + by rewrite L.
  - constructor.
  - intros r' e'. rewrite T. destruct (decide (r' = r)); [done|]. eauto.
  - intros r'. unfold credit_of, held, fill, consumed_of, openings, waiting_at. rewrite T, C.
    change (queued_control m') with (queued_control m). cbn [weigh foldr].
    destruct (decide (r' = r)); lia.
Qed.

(** Queueing a frame that weighs nothing. *)
Lemma still_push_control item m : weightless (ob_frame item) → still m (push_control item m).
Proof.
  intros Hw. split_and!; [done..|]. intros [He Hi Hctl Hd Hs Hloc].
  assert (queued_control (push_control item m) = queued_control m ++ [ob_frame item]) as Q.
  { unfold queued_control. cbn. by rewrite fmap_app. }
  split_and!.
  - split; [exact He|exact Hi| |exact Hd|exact Hs|exact Hloc]. rewrite Q. apply Forall_app. split; [exact Hctl|].
    constructor; [|constructor]. split; [|apply Hw]. intros r b Hb. exfalso.
    destruct (Hw r) as (_ & _ & Ho). unfold open_w in Ho. by rewrite Hb in Ho.
  - constructor.
  - eauto.
  - intros r. unfold held, openings. rewrite Q, !weigh_app. unfold fill, consumed_of, waiting_at, credit_of.
    change (table (push_control item m)) with (table m).
    change (ms_store (push_control item m)) with (ms_store m).
    destruct (Hw r) as (_ & Eg & Eo). cbn [weigh foldr]. rewrite Eg, Eo. lia.
Qed.

(** *** The calls *)

Ltac still_same := apply still_same; done.

Lemma still_drop_items l m : still m (drop_items l m).
Proof.
  destruct (drop_items_store l (ms_store m)) as (C & L & A). by apply still_same; cbn.
Qed.

Lemma still_push_protocol tag r body m : tag_is_plain tag = true → still m (push_protocol tag r body m).
Proof.
  intros Ht. unfold push_protocol. destruct (frame_new _ _ _) as [f|] eqn:E; [|done].
  apply still_push_control. by apply (plain_weightless _ _ _ _ _ E).
Qed.

Lemma still_close_route r code detail m : still m (close_route r code detail m).
Proof.
  unfold close_route. destruct (remove_route r m) as [m'|] eqn:E; [|done].
  apply still_remove_route in E. destruct (closed m'); [done|].
  etrans; [exact E|]. by apply still_push_protocol.
Qed.

Lemma still_close_locally r m : still m (close_route_locally r m).
Proof.
  unfold close_route_locally. destruct (remove_route r m) as [m'|] eqn:E; [|done].
  by apply still_remove_route in E.
Qed.

Lemma still_foldl {A} (f : MuxShared → A → MuxShared) l m :
  (∀ m a, still m (f m a)) → still m (foldl f m l).
Proof.
  intros Hf. revert m. induction l as [|a l IH]; intros m; cbn; [done|]. by etrans; [apply Hf|apply IH].
Qed.

Lemma still_reject r code detail m : still m (reject_route r code detail m).
Proof. unfold reject_route, answer_open. etrans; by apply still_push_protocol. Qed.

(** Emptying the control queue gives up what was on it. *)
Lemma still_clear m :
  still m (with_state (λ s, mkState [] [] (routes s) [] (control_run s) sinks_default) m).
Proof.
  split_and!; [done..|]. intros [He Hi Hctl Hd Hs Hloc]. split_and!.
  - split; [exact He|exact Hi|constructor|constructor| |exact Hloc]. by split.
  - constructor.
  - eauto.
  - intros r. unfold held, openings, fill, consumed_of, waiting_at, credit_of.
    change (table (with_state _ m)) with (table m). change (ms_store (with_state _ m)) with (ms_store m).
    change (queued_control (with_state _ m)) with (@nil Frame). cbn [weigh foldr]. lia.
Qed.

Lemma still_close reason m : still m (close reason m).
Proof.
  unfold close. destruct (closed m); [done|].
  set (m1 := set_closed _ m). set (m2 := foldl _ m1 _). set (m3 := drop_items _ m2).
  trans m1; [still_same|]. trans m2; [apply still_foldl; intros; apply still_close_locally|].
  trans m3; [apply still_drop_items|]. apply still_clear.
Qed.

(** Changing a channel that no route reads from, or filling one with what was
    read. *)
Lemma effect_set_chan fin (l : loc) c c' m :
  chans (ms_store m) !! l = Some c →
  l < 2 ∨ (bound c' = bound c ∧ (ep_ok m → ∀ r e, table m !! r = Some e → re_inbound e = l →
             N.of_nat (length (waiting c')) <= N.of_nat (length (waiting c)) + weigh (data_w r) fin)) →
  effect fin [] m (with_store (set_chan l c') m).
Proof.
  intros Hl Hc. split_and!; [done..|]. intros Hok. pose proof Hok as [He Hi Hctl Hd Hs Hloc].
  assert (∀ l', chans (ms_store (with_store (set_chan l c') m)) !! l' =
    if decide (l' = l) then Some c' else chans (ms_store m) !! l') as C.
  { intros l'. cbn. destruct (decide (l' = l)) as [->|]; [by rewrite lookup_insert_eq|by rewrite lookup_insert_ne]. }
  split_and!.
  - split; [|exact Hi|exact Hctl|exact Hd|exact Hs|exact Hloc]. intros r e Hr. destruct (He r e Hr) as (?&?&Hb&c0&Hc0&Hbd).
    split_and!; [done..|apply Hb|apply Hb|]. rewrite C. case_decide as El; [|eauto].
    exists c'. split; [done|]. destruct Hc as [|[-> _]]; [lia|]. rewrite El, Hl in Hc0. by simplify_eq.
  - constructor.
  - eauto.
  - intros r. unfold held, openings, fill, consumed_of, waiting_at, credit_of.
    change (table (with_store _ m)) with (table m).
    change (queued_control (with_store _ m)) with (queued_control m).
    change (weigh (data_w r) []) with 0. change (weigh (grant_w r) []) with 0.
    change (weigh (open_w r) []) with 0.
    destruct (table m !! r) as [e|] eqn:Er; [|lia]. rewrite C.
    destruct (He r e Er) as (_&_&Hb&_). case_decide as El; [|lia].
    rewrite El, Hl. destruct Hc as [|[_ Hc]]; [lia|]. specialize (Hc Hok r e Er El). lia.
Qed.

(** Changing a channel that no route reads from, or taking frames out of one. *)
Lemma still_set_chan (l : loc) c c' m :
  chans (ms_store m) !! l = Some c →
  l < 2 ∨ (bound c' = bound c ∧ (length (waiting c') ≤ length (waiting c))%nat) →
  still m (with_store (set_chan l c') m).
Proof.
  intros Hl [?|[? ?]]; apply (effect_set_chan [] l c); auto. right. split; [done|]. intros. cbn. lia.
Qed.

Abbreviation keeps_still op := (keeps (E:=TransportError) still op).

Lemma keeps_wire {A B} (r : WireResult A) (k : A → stM MuxShared TransportError B) :
  (∀ a, r = Ok a → keeps_still (k a)) → keeps_still (sbind (wire r) k).
Proof.
  intros Hk m. unfold sbind, wire, lift_result. destruct r as [a|e]; cbn; [by apply Hk|apply still_refl].
Qed.

Lemma keeps_still_same f :
  (∀ m, ms_env (f m) = ms_env m ∧ next_route (f m) = next_route m ∧
        ms_store (f m) = ms_store m ∧ ms_state (f m) = ms_state m) → keeps_still (modify f).
Proof.
  intros H m. destruct (H m) as (E & N & S & T). apply still_same; unfold table; cbn; rewrite ?S, ?T; done.
Qed.

Lemma keeps_still_open : keeps_still ensure_open.
Proof. unfold ensure_open. keeps_auto. Qed.

Lemma keeps_still_check n : keeps_still (check_payload n).
Proof. unfold check_payload. keeps_auto. Qed.
#[local] Hint Resolve keeps_still_open keeps_still_check : keeps.
#[local] Hint Extern 1 (keeps _ (modify (count _))) => apply keeps_still_same; done : keeps.

Lemma keeps_still_control kind body l : keeps_still (queue_control_metered kind body l).
Proof.
  unfold queue_control_metered. do 2 (keeps_step; [keeps_auto|]). apply keeps_wire. intros f Hf.
  apply keeps_modify. intros m. apply still_push_control. by apply (plain_weightless _ _ _ _ _ Hf).
Qed.

Lemma keeps_still_datagram kind body : keeps_still (queue_datagram kind body).
Proof.
  unfold queue_datagram. do 2 (keeps_step; [keeps_auto|]). keeps_step; [keeps_auto|].
  apply keeps_wire. intros f Hf m. cbn.
  set (queued := datagrams (ms_state m)).
  set (l := (if N.leb _ _ then tail queued else queued) ++ [_]).
  trans (with_state (set_datagrams l) m).
  - apply still_same; try done. intros H. unfold l. cbn. apply Forall_app. split.
    + case_match; [by apply Forall_tail|done].
    + constructor; [|constructor]. by apply (plain_weightless _ _ _ _ _ Hf).
  - case_match; cbn; still_same.
Qed.

Lemma keeps_still_route_frame r kind flags body f n permit :
  frame_new kind flags (build_payload (mkMuxHeader RouteData r) body) = Ok f →
  keeps_still (queue_route_frame r f n permit).
Proof.
  intros Hf. unfold queue_route_frame. do 2 (keeps_step; [keeps_auto|]). apply keeps_bind_gets. intros m.
  destruct (routes (ms_state m) !! r) as [e|] eqn:E; [|done].
  apply (still_set_entry r e); [done|done|done|done|]. intros (Hv & Hq & _). cbn. apply Forall_app.
  split; [done|]. constructor; [|constructor]. split; [done|]. by apply (data_frame _ _ _ _ _ Hf).
Qed.

Lemma keeps_still_permit {A} l full (op : stM MuxShared TransportError A) :
  keeps_still op → keeps_still (with_permit l full op).
Proof.
  intros Hop m. unfold with_permit. destruct (_ ≫= _) as [x|]; [|still_same].
  pose proof (Hop (with_store (set_sem l x) m)) as H.
  destruct (op _) as [m' [a|e]]; cbn in *; (trans (with_store (set_sem l x) m); [still_same|]); [done|].
  etrans; [exact H|]. apply still_same; try done; cbn; by destruct (sems (ms_store m') !! l).
Qed.

Lemma keeps_still_send r l policy kind payload : keeps_still (route_try_send r l policy kind payload).
Proof.
  unfold route_try_send. keeps_step; [keeps_auto|]. apply keeps_still_permit.
  unfold enqueue, encode_body. keeps_step.
  - keeps_auto.
  - destruct a0 as [body c]. apply keeps_wire. intros f Hf. by apply (keeps_still_route_frame _ _ _ _ _ _ _ Hf).
Qed.

Lemma keeps_still_control_send kind payload : keeps_still (control_try_send kind payload).
Proof.
  unfold control_try_send. keeps_step; [keeps_auto|]. apply keeps_still_permit. apply keeps_still_control.
Qed.

Lemma still_drop_receiver l m : still m (drop_receiver_at l m).
Proof.
  unfold drop_receiver_at. destruct (chans (ms_store m) !! l) as [c|] eqn:E.
  - trans (with_store (set_chan l (drop_receiver c)) m); [|apply still_same; try done; cbn; by rewrite E].
    apply (still_set_chan l c); [done|]. right. destruct (drop_receiver_spec c) as (-> & -> & _). done.
  - apply still_same; try done; cbn; by rewrite E.
Qed.

Lemma still_channel_recv (l : loc) m : l < 2 → still m (channel_try_recv l m).1.
Proof.
  intros Hl. unfold channel_try_recv. destruct (chans (ms_store m) !! l) as [c|] eqn:E; [|done].
  destruct (try_recv c) as [c' f]. by apply (still_set_chan l c); [|left].
Qed.

(** Entries keep their receivers and queues, credit does not grow, grants are
    queued out of what is held. *)
Lemma still_shape m m' extra :
  ms_env m' = ms_env m → next_route m' = next_route m → next_loc (ms_store m') = next_loc (ms_store m) →
  accepts (ms_store m') = accepts (ms_store m) → datagrams (ms_state m') = datagrams (ms_state m) →
  inbound (ms_state m') = inbound (ms_state m) →
  (∀ r e', table m' !! r = Some e' → ∃ e, table m !! r = Some e ∧ re_inbound e' = re_inbound e ∧
                                          re_credit e' = re_credit e ∧ re_queue e' = re_queue e) →
  (∀ l c, chans (ms_store m) !! l = Some c → ∃ c', chans (ms_store m') !! l = Some c' ∧ bound c' = bound c) →
  queued_control m' = queued_control m ++ extra →
  (ep_ok m → Forall (λ f, ∀ r, data_w r f = 0 ∧ open_w r f = 0) extra) →
  (ep_ok m → ∀ r, fill m' r + consumed_of m' r + weigh (grant_w r) extra <= fill m r + consumed_of m r) →
  still m m'.
Proof.
  intros E N L A D S T C Q Hx Hheld. split_and!; [done..| |].
  { unfold unclaimed. by rewrite A. }
  intros Hok. specialize (Hx Hok). specialize (Hheld Hok). destruct Hok as [He Hi Hctl Hd Hs Hloc]. split_and!.
  - split.
    + intros r e' Hr. destruct (T r e' Hr) as (e & Hr0 & El & _ & Eq). destruct (He r e Hr0) as (?&?&[? ?]&c&Hc&Hb).
      unfold entry_ok. rewrite L, El, Eq. split_and!; [done..|]. destruct (C _ _ Hc) as (c' & ? & ?).
      exists c'. split; [done|congruence].
    + intros r1 r2 e1 e2 H1 H2 Hl. destruct (T _ _ H1) as (e1' & ? & ? & _), (T _ _ H2) as (e2' & ? & ? & _).
      eapply Hi; [done..|congruence].
    + rewrite Q. apply Forall_app. split.
      * eapply Forall_impl; [exact Hctl|]. unfold opening_ok, side, config. by rewrite E.
      * eapply Forall_impl; [exact Hx|]. intros f Hf. split; [|apply Hf]. intros r b Hb.
        destruct (Hf r) as [_ Ho]. unfold open_w in Ho. by rewrite Hb in Ho.
    + by rewrite D.
    + unfold sinks_low. by rewrite S.
    + by rewrite L.
  - constructor.
  - intros r e' Hr. destruct (T r e' Hr) as (e & ? & ? & _). eauto.
  - intros r. specialize (Hheld r). unfold held, openings. rewrite Q, !weigh_app.
    assert (weigh (open_w r) extra = 0) as ->.
    { apply weigh_zero. eapply Forall_impl; [exact Hx|]. intros f Hf. apply Hf. }
    assert (credit_of m' r <= credit_of m r).
    { unfold credit_of. destruct (table m' !! r) as [e'|] eqn:Er; [|lia].
      destruct (T r e' Er) as (e & -> & _ & -> & _). lia. }
    cbn [weigh foldr] in *. lia.
Qed.

(** A receiver is the route's and no other's. *)
Definition claim_ok (m : MuxShared) (r : RouteId) (l : loc) : Prop :=
  (∀ e, table m !! r = Some e → re_inbound e = l) ∧
  ∀ r' e, table m !! r' = Some e → re_inbound e = l → r' = r.

Lemma still_note_recv (l : loc) c c' a r m :
  chans (ms_store m) !! l = Some c → waiting c = a :: waiting c' → bound c' = bound c →
  claim_ok m r l → still m (note_consumed r (with_store (set_chan l c') m)).
Proof.
  intros Hl Hw Hb [Hc1 Hc2]. unfold note_consumed. set (m1 := with_store (set_chan l c') m).
  change (routes (ms_state m1)) with (table m). change (config m1) with (config m).
  destruct (table m !! r) as [e|] eqn:Er.
  2:{ apply (still_set_chan l c); [done|]. right. rewrite Hw. cbn. split; [done|lia]. }
  specialize (Hc1 e eq_refl) as El. set (n := saturating_add32 (re_consumed e) 1).
  assert (n <= re_consumed e + 1 ∧ n <= u32_max) as [Hn1 Hn2] by (unfold n, saturating_add32; lia).
  (* the common part of both outcomes *)
  assert (∀ k m2 extra, (ep_ok m → k + weigh (grant_w r) extra <= n) →
    ms_env m2 = ms_env m → next_route m2 = next_route m → ms_store m2 = ms_store m1 →
    datagrams (ms_state m2) = datagrams (ms_state m) → inbound (ms_state m2) = inbound (ms_state m) →
    table m2 = <[r := set_consumed k e]> (table m) → queued_control m2 = queued_control m ++ extra →
    (ep_ok m → Forall (λ f, ∀ r', data_w r' f = 0 ∧ open_w r' f = 0 ∧ (r' ≠ r → grant_w r' f = 0)) extra) →
    still m m2) as Hgen.
  { intros k m2 extra Hk E N S D I T Q Hx. apply (still_shape m m2 extra); try done; try (by rewrite S).
    - intros r' e'. rewrite T, lookup_insert_Some. intros [[<- <-]|[? ?]]; eauto.
    - intros l' c0 Hl'. rewrite S. cbn. destruct (decide (l' = l)) as [->|].
      + rewrite lookup_insert_eq. exists c'. split; [done|]. by simplify_eq.
      + rewrite lookup_insert_ne by done. eauto.
    - intros Hok. eapply Forall_impl; [exact (Hx Hok)|]. intros f Hf r'. destruct (Hf r') as (?&?&?). done.
    - intros Hok r'. specialize (Hk Hok). unfold fill, consumed_of, waiting_at. rewrite T, S. cbn -[weigh].
      destruct (decide (r' = r)) as [->|Hr'].
      + rewrite lookup_insert_eq, Er. cbn. rewrite El, lookup_insert_eq, Hl, Hw. cbn. lia.
      + rewrite lookup_insert_ne by done. assert (weigh (grant_w r') extra = 0) as ->.
        { apply weigh_zero. eapply Forall_impl; [exact (Hx Hok)|]. intros f Hf. by apply Hf. }
        destruct (table m !! r') as [e'|] eqn:Er'; [|lia].
        rewrite lookup_insert_ne; [lia|]. intros E'. apply Hr'. symmetry in E'. by apply (Hc2 r' e'). }
  destruct (N.ltb _ _).
  - apply (Hgen n _ []); try done; try (intros; cbn; lia); by rewrite app_nil_r.
  - unfold grant_credit. destruct (_ || _).
    + apply (Hgen 0 _ []); try done; try (intros; cbn; lia); by rewrite app_nil_r.
    + destruct (frame_new _ _ _) as [f|] eqn:Ef; [|apply (Hgen 0 _ []); try done; try (intros; cbn; lia); by rewrite app_nil_r].
      assert (ep_ok m → ∀ r', data_w r' f = 0 ∧ open_w r' f = 0 ∧ grant_w r' f = if bool_decide (r' = r) then n else 0) as Hg.
      { intros Hok. apply (grant_frame _ _ _ _ _ Ef); [|done]. by destruct (eo_entry _ Hok r e Er). }
      apply (Hgen 0 _ [f]); try done.
      * intros Hok. unfold weigh. cbn [foldr]. destruct (Hg Hok r) as (_ & _ & ->).
        rewrite bool_decide_true by done. lia.
      * unfold queued_control. cbn. by rewrite fmap_app.
      * intros Hok. constructor; [|constructor]. intros r'. destruct (Hg Hok r') as (? & ? & Hg').
        split_and!; [done..|]. intros ?. by rewrite Hg', bool_decide_false.
Qed.

Lemma still_route_recv r l m : claim_ok m r l → still m (route_try_recv r l m).1.
Proof.
  intros Hcl. unfold route_try_recv. destruct (chans (ms_store m) !! l) as [c|] eqn:El; [|done].
  pose proof (try_recv_spec c) as Hr. destruct (waiting c) as [|a rest] eqn:Ew.
  - rewrite Hr. cbn. by apply (still_set_chan l c); [|right].
  - destruct Hr as (c' & -> & Hw & Hb & _). cbn. apply (still_note_recv l c c' a); [done| |done|done].
    by rewrite Hw.
Qed.

(** *** Reading a frame *)

Lemma still_reads f m m' : still m m' → effect [f] [] m m'.
Proof.
  intros (E & N & L & U & H). split_and!; [done..|]. intros Hok. destruct (H Hok) as (? & ? & ? & R).
  split_and!; [done..|]. intros r. destruct (R r) as (?&?&?). cbn [weigh foldr] in *. lia.
Qed.

Lemma effect_then_still fin fout m1 m2 m3 : effect fin fout m1 m2 → still m2 m3 → effect fin fout m1 m3.
Proof.
  intros H1 H2. pose proof (effect_trans _ _ _ _ _ _ _ H1 H2) as H. by rewrite !app_nil_r in H.
Qed.

(** Credit that was read. *)
Lemma effect_add_credit r d f body m :
  frame_is Credit r f = Some body → decode_credit body = Ok d → effect [f] [] m (add_credit r d m).
Proof.
  intros Hf Hd. unfold add_credit. destruct (routes (ms_state m) !! r) as [e|] eqn:Er.
  2:{ apply still_reads, still_refl. }
  apply (effect_then_still _ _ _
    (with_state (set_entry r (set_credit (saturating_add32 (re_credit e) d) e)) m)); [|still_same].
  apply (effect_set_entry [f] r e); [done| |done|done|by intros (?&?&_)].
  - unfold weigh, grant_w. cbn. rewrite Hf, Hd. unfold saturating_add32. lia.
Qed.

(** Reading a body changes nothing and is no flow-control error. *)
Lemma decompress_no_violation c container n r w :
  decompress_payload c container n ≠ Err (FlowControlViolation r w).
Proof.
  unfold decompress_payload, declared_len. destruct (is_enabled c); cbn; [|done].
  destruct (get_range _ _ _); cbn; [|done]. destruct (N.ltb _ _); [done|].
  destruct c; cbn; [done|destruct (lz4_decompress _ _)|destruct (zstd_decompress _)]; cbn; try done;
    by destruct (N.eqb _ _).
Qed.

Lemma decode_body_eq c body m :
  (decode_body c body m).1 = m ∧ ∀ r w, (decode_body c body m).2 ≠ Err (FlowControlViolation r w).
Proof.
  unfold decode_body, sbind, gets, ret, fail, lift_result. destruct (is_enabled c); cbn; [|done].
  destruct (is_supported_codec c); cbn; [|done]. split; [done|]. intros. apply decompress_no_violation.
Qed.

(** Data that was read, for a route that is open: it is buffered if the
    window admits it, and the route is torn down otherwise. *)
Lemma effect_route_data r kind c f body m :
  frame_is RouteData r f = Some body →
  effect [f] [] m (dispatch_route_data r kind c body m).1 ∧
  (ep_ok m → held m r < W r → ∀ r' w, (dispatch_route_data r kind c body m).2 ≠ Err (FlowControlViolation r' w)).
Proof.
  intros Hf. unfold dispatch_route_data. rewrite sbind_eq.
  destruct (decode_body_eq c body m) as [Ed Nd]. destruct (decode_body c body m) as [m0 [payload|e]]; cbn in Ed, Nd; subst m0.
  2:{ split; [apply still_reads, still_refl|]. intros _ _ r' w [= ->]. by apply (Nd r' w). }
  rewrite sbind_eq. unfold wire, lift_result. destruct (frame_new kind EMPTY payload) as [inner|e]; cbn [map_err].
  2:{ split; [apply still_reads, still_refl|]. by intros _ _ r' w [=]. }
  rewrite sbind_eq. unfold gets. fold (table m). destruct (table m !! r) as [entry|] eqn:Er.
  2:{ split; [apply still_reads, still_refl|]. by intros _ _ r' w [=]. }
  rewrite sbind_eq. unfold send_to. rewrite sbind_eq. unfold gets.
  destruct (chans (ms_store m) !! re_inbound entry) as [ch|] eqn:Ec.
  2:{ split; [apply still_reads, still_refl|]. by intros _ _ r' w [=]. }
  pose proof (try_send_spec inner ch) as Hs. destruct (alive ch); cbn [negb] in Hs.
  2:{ rewrite Hs. cbn. split; [|by intros _ _ r' w [=]].
      apply still_reads, (still_set_chan _ ch); [done|]. by right. }
  destruct (match bound ch with Some n => _ | None => _ end) eqn:Efull.
  - rewrite Hs. cbn. split.
    + apply still_reads. trans (with_store (set_chan (re_inbound entry) ch) m).
      { apply (still_set_chan _ ch); [done|]. by right. }
      trans (count Errors (with_store (set_chan (re_inbound entry) ch) m)); [still_same|].
      apply still_close_route.
    + intros Hok Hheld. exfalso. destruct (eo_entry _ Hok r entry Er) as (_ & _ & _ & c0 & Hc0 & Hb).
      rewrite Ec in Hc0. simplify_eq. rewrite Hb in Efull. apply N.leb_le in Efull.
      unfold held, fill, waiting_at in Hheld. rewrite Er, Ec in Hheld. lia.
  - destruct Hs as (ch' & -> & Hw & Hb & _). cbn. split; [|by intros _ _ r' w [=]].
    apply (effect_set_chan [f] _ ch); [done|]. right. split; [done|]. intros Hok r' e' Hr' Hl'.
    assert (r' = r) as -> by (by eapply (eo_inj _ Hok)).
    rewrite Hw, length_app. unfold weigh, data_w. cbn. rewrite Hf. lia.
Qed.

(** The answer to an opening lowers credit at most. *)
Lemma still_route_accept r body m : still m (dispatch_route_accept r body m).1.
Proof.
  unfold dispatch_route_accept. rewrite sbind_eq. unfold lift_result.
  destruct (accept_decode body) as [a|]; cbn [map_err]; [|apply still_refl].
  destruct (ab_accepted a); cbn [negb]; [|cbn; apply still_close_locally].
  rewrite sbind_eq. unfold gets. destruct (routes (ms_state m) !! r) as [e|] eqn:Er; [|apply still_refl].
  cbn. apply (still_set_entry r e); [done|cbn; lia|done|done|by intros (?&?&_)].
Qed.

Lemma accept_no_violation r body m r' w :
  (dispatch_route_accept r body m).2 ≠ Err (FlowControlViolation r' w).
Proof.
  unfold dispatch_route_accept, sbind, lift_result, gets, modify, ret.
  destruct (accept_decode body) as [a|]; cbn; [|done]. destruct (ab_accepted a); cbn; [|done].
  by destruct (routes (ms_state m) !! r).
Qed.

(** Delivery to the application's own channels. *)
Lemma still_send_low (l : loc) f m : l < 2 → still m (send_to l f m).1.
Proof.
  intros Hl. unfold send_to. rewrite sbind_eq. unfold gets.
  destruct (chans (ms_store m) !! l) as [c|] eqn:E; [|apply still_refl].
  destruct (try_send f c) as [c' r]. cbn. by apply (still_set_chan l c); [|left].
Qed.

Lemma send_to_ok l f m : ∃ r, (send_to l f m).2 = Ok r.
Proof.
  unfold send_to, sbind, gets, modify, ret. destruct (chans (ms_store m) !! l) as [c|]; cbn; [|eauto].
  destruct (try_send f c). cbn. eauto.
Qed.

(** Only what is read on an end in order matters. *)
Lemma effect_intro fin fout m m' :
  ms_env m' = ms_env m → next_route m' = next_route m → next_loc (ms_store m') = next_loc (ms_store m) →
  unclaimed m' = unclaimed m → (ep_ok m → effect fin fout m m') → effect fin fout m m'.
Proof. intros E N L U H. split_and!; [done..|]. intros Hok. by destruct (H Hok) as (_ & _ & _ & _ & H'); apply H'. Qed.

Lemma send_to_frame l f m :
  ms_env (send_to l f m).1 = ms_env m ∧ next_route (send_to l f m).1 = next_route m ∧
  next_loc (ms_store (send_to l f m).1) = next_loc (ms_store m) ∧
  unclaimed (send_to l f m).1 = unclaimed m.
Proof.
  unfold send_to, sbind, gets, modify, ret. destruct (chans (ms_store m) !! l) as [c|]; [|done].
  by destruct (try_send f c).
Qed.

(** A payload for the application goes through [k] to a channel named by
    [sink]. *)
Lemma still_deliver {A} (sink : MuxState → option loc) kind c body
    (k : result TrySendError unit → stM MuxShared TransportError A) (none : A) m :
  (sinks_low (ms_state m) → ∀ l, sink (ms_state m) = Some l → l < 2) → (∀ r, keeps_still (k r)) →
  (∀ r s r' w, (k r s).2 ≠ Err (FlowControlViolation r' w)) →
  let op := payload <- decode_body c body ;; inner <- wire (frame_new kind EMPTY payload) ;;
            s <- gets (λ m, sink (ms_state m)) ;;
            match s with None => ret none | Some l => r <- send_to l inner ;; k r end in
  still m (op m).1 ∧ ∀ r w, (op m).2 ≠ Err (FlowControlViolation r w).
Proof.
  intros Hlow Hk Hv. cbv zeta. rewrite sbind_eq.
  destruct (decode_body_eq c body m) as [Ed Nd]. destruct (decode_body c body m) as [m0 [payload|e]]; cbn in Ed, Nd; subst m0.
  2:{ split; [apply still_refl|]. intros r' w [= ->]. by apply (Nd r' w). }
  rewrite sbind_eq. unfold wire, lift_result. destruct (frame_new kind EMPTY payload) as [inner|e]; cbn [map_err].
  2:{ split; [apply still_refl|]. by intros r' w [=]. }
  rewrite sbind_eq. unfold gets. destruct (sink (ms_state m)) as [l|] eqn:Es.
  2:{ split; [apply still_refl|]. by intros r' w [=]. }
  rewrite sbind_eq. destruct (send_to_ok l inner m) as [r Er].
  destruct (send_to_frame l inner m) as (E & N & L & U).
  assert (still m (send_to l inner m).1) as Hs.
  { apply effect_intro; [done..|]. intros Hok. apply still_send_low. by apply Hlow; [apply (eo_sinks _ Hok)|]. }
  destruct (send_to l inner m) as [m1 r1]. cbn in Er, Hs. subst r1. split; [|apply Hv].
  etrans; [exact Hs|]. apply Hk.
Qed.

Lemma effect_dispatch f m :
  (∀ r, frame_is RouteOpen r f = None) →
  effect [f] [] m (dispatch f m).1 ∧
  (ep_ok m → (∀ r b, frame_is RouteData r f = Some b → held m r < W r) →
   ∀ r w, (dispatch f m).2 ≠ Err (FlowControlViolation r w)).
Proof.
  intros Hno. unfold dispatch. rewrite sbind_eq. unfold lift_result.
  destruct (header_decode (fr_payload f)) as [[h body]|e] eqn:Eh; cbn [map_err].
  2:{ split; [apply still_reads, still_refl|]. by intros _ _ r w [=]. }
  assert (∀ t, mh_tag h = t → frame_is t (mh_route h) f = Some body) as Hf.
  { intros t <-. unfold frame_is. rewrite Eh. by rewrite bool_decide_true. }
  destruct (mh_tag h) eqn:Et.
  - edestruct (still_deliver (λ s, sink_control (inbound s)) (hd_kind (fr_header f))
      (flags_compression (hd_flags (fr_header f))) body
      (λ r, match r with
            | Ok _ => ret (Some Handled)
            | Err ReceiverGone => ret (Some PeerClosed)
            | Err Full => ret None
            end) (Some PeerClosed) m) as [H1 H2]; [| | |split; [apply still_reads; exact H1|intros _ _; exact H2]].
    + intros [Hl _] l. apply Hl.
    + intros r. cbn. keeps_auto.
    + intros r s r' w. by destruct r as [|[|]].
  - rewrite sbind_eq. edestruct (effect_route_data (mh_route h) (hd_kind (fr_header f))
      (flags_compression (hd_flags (fr_header f))) f body m) as [H1 H2]; [by apply Hf|].
    destruct (dispatch_route_data _ _ _ _ _) as [m' [d|e]]; cbn in *; (split; [exact H1|]).
    + by intros _ _ r w [=].
    + intros Hok Hh r w [= ->]. by apply (H2 Hok (Hh _ _ (Hf _ eq_refl)) r w).
  - specialize (Hf _ eq_refl). by rewrite (Hno (mh_route h)) in Hf.
  - rewrite sbind_eq. pose proof (still_route_accept (mh_route h) body m) as H1.
    pose proof (accept_no_violation (mh_route h) body m) as H2.
    destruct (dispatch_route_accept _ _ _) as [m' [d|e]]; cbn in *; (split; [by apply still_reads|]).
    + by intros _ _ r w [=].
    + intros _ _ r w [= ->]. by apply (H2 r w).
  - rewrite sbind_eq. unfold lift_result. destruct (close_decode body) as [x|]; cbn.
    + split; [|by intros _ _ r w [=]]. apply still_reads, still_close_locally.
    + split; [apply still_reads, still_refl|]. by intros _ _ r w [=].
  - rewrite sbind_eq. unfold lift_result. destruct (decode_credit body) as [d|] eqn:Ed; cbn.
    + split; [|by intros _ _ r w [=]]. by apply (effect_add_credit _ _ _ body); [apply Hf|].
    + split; [apply still_reads, still_refl|]. by intros _ _ r w [=].
  - edestruct (still_deliver (λ s, sink_datagrams (inbound s)) (hd_kind (fr_header f))
      (flags_compression (hd_flags (fr_header f))) body
      (λ r, (match r with
             | Ok _ => modify (count DatagramsReceived)
             | Err Full => modify (count DatagramsDropped)
             | Err ReceiverGone => ret tt
             end) ;; ret (Some Handled)) (Some Handled) m) as [H1 H2]; [| | |split; [apply still_reads; exact H1|intros _ _; exact H2]].
    + intros [_ Hl] l. apply Hl.
    + intros r. cbn. keeps_auto.
    + intros r s r' w. by destruct r as [|[|]].
Qed.

(** *** Writing frames *)

Lemma effect_pop burst s item m :
  popped burst (ms_state m) s item → effect [] [ob_frame item] m (with_state (λ _, s) m).
Proof.
  intros Hp. split_and!; [done..|]. intros [He Hi Hctl Hd Hs Hloc].
  destruct Hp as [item rest E _|item rest _ E _|l1 y l2 e item queue _ _ Hready Hy Hq _].
  - assert (queued_control m = ob_frame item :: (ob_frame <$> rest)) as Q by (unfold queued_control; by rewrite E).
    rewrite Q in Hctl. inversion Hctl as [|? ? [Ho Hdata] Hrest]; subst.
    set (m' := with_state _ m). assert (queued_control m' = ob_frame <$> rest) as Q' by done.
    split_and!.
    + split; [exact He|exact Hi|by rewrite Q'|exact Hd|exact Hs|exact Hloc].
    + by constructor.
    + eauto.
    + intros r. unfold held, openings. rewrite Q, Q'. rewrite !weigh_cons, !weigh_nil.
      change (credit_of m' r) with (credit_of m r). change (fill m' r) with (fill m r).
      change (consumed_of m' r) with (consumed_of m r). rewrite (Hdata r). lia.
  - rewrite E in Hd. inversion Hd as [|? ? Hw Hrest]; subst. set (m' := with_state _ m).
    split_and!.
    + split; [exact He|exact Hi|exact Hctl|exact Hrest|exact Hs|exact Hloc].
    + constructor; [|constructor]. intros r b Hb. destruct (Hw r) as (_ & _ & Ho). unfold open_w in Ho. by rewrite Hb in Ho.
    + eauto.
    + intros r. destruct (Hw r) as (E1 & E2 & E3). rewrite !weigh_cons, !weigh_nil. rewrite E1, E2, E3.
      change (credit_of m' r) with (credit_of m r). change (held m' r) with (held m r).
      change (openings m' r) with (openings m r). lia.
  - destruct (He y e Hy) as (Hv & Hqs & [Hl1 Hl2] & Hc). rewrite Hq in Hqs.
    inversion Hqs as [|? ? [Hcons [Hd1 Hd2]] Hqs']; subst.
    assert (0 < re_credit e) as Hpos.
    { unfold route_ready in Hready. rewrite Hy in Hready. unfold entry_is_ready in Hready. rewrite Hq, Hcons in Hready.
      cbn in Hready. by apply N.ltb_lt. }
    assert (popped_entry item queue e = set_credit (re_credit e - 1) (set_queue queue e)) as Ep.
    { unfold popped_entry. by rewrite Hcons. }
    set (m' := with_state _ m).
    assert (∀ r, table m' !! r = if decide (r = y) then Some (popped_entry item queue e) else table m !! r) as T.
    { intros r. unfold table. cbn. destruct (decide (r = y)) as [->|]; [by rewrite lookup_insert_eq|by rewrite lookup_insert_ne]. }
    split_and!.
    + split; [| |exact Hctl|exact Hd|exact Hs|exact Hloc].
      * intros r e'. rewrite T. destruct (decide (r = y)) as [->|]; [|apply He]. intros [= <-]. rewrite Ep.
        split_and!; done.
      * intros r1 r2 e1 e2. rewrite !T. destruct (decide (r1 = y)) as [->|], (decide (r2 = y)) as [->|];
          intros; simplify_eq; rewrite ?Ep in *; cbn in *; eauto.
    + constructor; [|constructor]. intros r b Hb. destruct (Hd2 r) as (_ & Ho). unfold open_w in Ho. by rewrite Hb in Ho.
    + intros r e'. rewrite T. destruct (decide (r = y)) as [->|]; [|eauto]. intros [= <-]. rewrite Ep. eauto.
    + intros r. rewrite !weigh_cons, !weigh_nil. destruct (Hd2 r) as [-> ->]. rewrite (Hd1 r).
      change (openings m' r) with (openings m r).
      unfold credit_of, held, fill, consumed_of. rewrite T. change (queued_control m') with (queued_control m).
      change (waiting_at m') with (waiting_at m).
      destruct (decide (r = y)) as [->|].
      * unfold table in Hy |- *. rewrite bool_decide_true, Hy, Ep by done. cbn. lia.
      * rewrite bool_decide_false by done. lia.
Qed.

Lemma effect_take_batch n m :
  effect [] (ob_frame <$> (take_batch n m).2) m (take_batch n m).1.
Proof.
  revert m. induction n as [|n IH]; intros m; cbn; [apply still_refl|].
  pose proof (pop_next_spec (control_burst (config m)) (ms_state m)) as Hp.
  destruct (pop_next _ _) as [s [item|]].
  - specialize (IH (with_state (λ _, s) m)). destruct (take_batch n _) as [m' batch]. cbn in *.
    exact (effect_trans [] [ob_frame item] [] _ _ _ _ (effect_pop _ _ _ _ Hp) IH).
  - destruct Hp as (-> & _). cbn. by apply still_same.
Qed.

(** *** Opening a route *)

(** A call that may have put [r] on the table, with its whole window and a
    receiver of its own, and queued [k] openings of it. *)
Definition gains (k : N) (r : RouteId) (m m' : MuxShared) : Prop :=
  ms_env m' = ms_env m ∧ next_loc (ms_store m) <= next_loc (ms_store m') ∧
  (unclaimed m' = unclaimed m ∨
   unclaimed m' = unclaimed m ++ [(r, next_loc (ms_store m))] ∧ next_loc (ms_store m) < next_loc (ms_store m')) ∧
  ep_ok m' ∧
  ∀ r', credit_of m' r' <= (if decide (r' = r) then W r else credit_of m r') ∧
        held m' r' <= held m r' ∧
        openings m' r' <= openings m r' + (if decide (r' = r) then k else 0) ∧
        ∀ e', table m' !! r' = Some e' →
          (∃ e, table m !! r' = Some e ∧ re_inbound e' = re_inbound e) ∨
          (r' = r ∧ re_inbound e' = next_loc (ms_store m) ∧ next_loc (ms_store m) < next_loc (ms_store m')).

Lemma gains_refl k r m : ep_ok m → credit_of m r <= W r → gains k r m m.
Proof.
  intros Hok Hc. split_and!; [done|lia|by left|done|]. intros r'. split_and!; [|lia| |eauto].
  - destruct (decide (r' = r)) as [->|]; lia.
  - destruct (decide (r' = r)); lia.
Qed.

Lemma gains_still k r m m1 m2 : gains k r m m1 → still m1 m2 → gains k r m m2.
Proof.
  intros (E & L & U & Hok & H) (E2 & _ & L2 & U2 & H2). destruct (H2 Hok) as (Hok2 & _ & T2 & R2).
  split_and!; [congruence|by rewrite L2| |done|].
  { rewrite U2, L2. done. }
  intros r'. destruct (H r') as (Hc & Hh & Ho & Ht). destruct (R2 r') as (?&?&?). rewrite !weigh_nil in *.
  split_and!; [lia..|]. intros e' He'. destruct (T2 r' e' He') as (e1 & He1 & El). rewrite El, L2. by apply Ht.
Qed.

Lemma gains_insert r w c m :
  ep_ok m → route_valid r → 0 < w → w = W r →
  match insert_route r w c m with
  | (m', Ok l) => gains 0 r m m' ∧ l = next_loc (ms_store m) ∧ next_loc (ms_store m') = l + 1 ∧
                  unclaimed m' = unclaimed m ∧ table m !! r = None ∧ ms_env m' = ms_env m
  | (m', Err e) => m' = m ∧ ∀ r' w, e ≠ FlowControlViolation r' w
  end.
Proof.
  intros [He Hi Hctl Hd Hs Hloc] Hv Hw0 Hw. unfold insert_route, sbind, gets, modify, fail, ret. cbn.
  fold (table m). destruct (bool_decide (is_Some _)) eqn:Eb; [done|]. destruct (N.leb _ _); [done|].
  apply bool_decide_eq_false in Eb. apply eq_None_not_Some in Eb.
  set (l := next_loc (ms_store m)). set (e0 := mkEntry _ _ _ _ _ _ _). set (m' := with_counters _ _).
  assert (∀ r', table m' !! r' = if decide (r' = r) then Some e0 else table m !! r') as T.
  { intros r'. unfold table. cbn. destruct (decide (r' = r)) as [->|]; [by rewrite lookup_insert_eq|by rewrite lookup_insert_ne]. }
  assert (∀ l' : loc, chans (ms_store m') !! l' = if decide (l' = l) then Some (channel (N.max w 1)) else chans (ms_store m) !! l') as C.
  { intros l'. cbn. destruct (decide (l' = l)) as [->|]; [by rewrite lookup_insert_eq|by rewrite lookup_insert_ne]. }
  assert (∀ r' e, table m !! r' = Some e → re_inbound e < l) as Hfresh.
  { intros r' e Hr'. by destruct (He r' e Hr') as (_ & _ & [_ ?] & _). }
  destruct (channel_new (A:=Frame) (N.max w 1)) as (Cw & Cb & _); [lia|].
  assert (ep_ok m') as Hok'.
  { split; [| |exact Hctl|exact Hd|exact Hs|cbn; unfold l; lia].
    - intros r' e'. rewrite T. destruct (decide (r' = r)) as [->|].
      + intros [= <-]. unfold entry_ok. cbn [re_queue re_inbound e0].
        split_and!; [done|constructor|done|cbn; lia|].
        exists (channel (N.max w 1)). rewrite C, decide_True by done. split; [done|]. rewrite Cb. f_equal. lia.
      + intros Hr'. destruct (He r' e' Hr') as (?&?&[? Hlt]&ch&Hch&?). unfold entry_ok.
        split_and!; [done..|cbn; unfold l; lia|].
        exists ch. rewrite C, decide_False by (unfold l; lia). done.
    - intros r1 r2 e1 e2. rewrite !T. destruct (decide (r1 = r)) as [->|], (decide (r2 = r)) as [->|];
        intros H1 H2 Hl; simplify_eq; eauto; exfalso;
        [specialize (Hfresh _ _ H2)|specialize (Hfresh _ _ H1)]; cbn in Hl; lia. }
  split_and!; [|done..]. split_and!; [done|cbn; unfold l; lia|by left|done|].
  intros r'. assert (queued_control m' = queued_control m) as Q by done.
  unfold credit_of, held, openings, fill, consumed_of, waiting_at. rewrite T, Q.
  destruct (decide (r' = r)) as [->|].
  - rewrite Eb. cbn [re_credit re_consumed re_inbound e0]. rewrite C, decide_True, Cw by done. cbn [length].
    split_and!; [lia..|]. intros e' [= <-]. right. split_and!; [done..|cbn; unfold l; lia].
  - split_and!; [lia| |lia|eauto]. destruct (table m !! r') as [e|] eqn:Er'; [|lia].
    specialize (Hfresh _ _ Er'). rewrite C, decide_False by lia. lia.
Qed.

Lemma gains_push_open r w d f m m1 :
  gains 0 r m m1 → frame_new PeerEvent EMPTY (build_payload (mkMuxHeader RouteOpen r) (open_encode_into (mkOpen w d) [])) = Ok f →
  route_valid r → owns_route (side m) r = true → w = initial_window_frames (config m) → w <= u32_max →
  gains 1 r m (push_control (outbound_control f) m1).
Proof.
  intros (E & L & U & Hok & H) Hf Hv Hown Hw Hmax. set (m2 := push_control _ m1).
  pose proof (open_frame _ _ _ _ _ Hf Hv) as Ho.
  assert (queued_control m2 = queued_control m1 ++ [f]) as Q.
  { unfold queued_control. cbn. by rewrite fmap_app. }
  destruct Hok as [He Hi Hctl Hd Hs Hloc]. split_and!; [done..| |].
  - split; [exact He|exact Hi| |exact Hd|exact Hs|exact Hloc]. rewrite Q. apply Forall_app. split; [exact Hctl|].
    constructor; [|constructor]. split; [|intros r'; apply (Ho r')]. intros r' b Hb.
    destruct (Ho r') as (_ & _ & _ & Hb'). destruct (Hb' b Hb) as [-> ->]. unfold side, config.
    change (ms_env m2) with (ms_env m1). rewrite E. split; [done|]. exists (mkOpen w d).
    rewrite open_decode_encode; [done|]. cbn [ob_credit]. unfold u32_max in Hmax. lia.
  - intros r'. destruct (H r') as (Hc & Hh & Hop & Ht). split_and!; [exact Hc| | |exact Ht].
    + unfold held in *. change (fill m2 r') with (fill m1 r'). change (consumed_of m2 r') with (consumed_of m1 r').
      rewrite Q, weigh_app, weigh_cons, weigh_nil. destruct (Ho r') as (_ & -> & _). lia.
    + unfold openings in *. rewrite Q, weigh_app, weigh_cons, weigh_nil. destruct (Ho r') as (_ & _ & -> & _).
      destruct (decide (r' = r)) as [->|]; [rewrite bool_decide_true by done|rewrite bool_decide_false by done]; lia.
Qed.

Lemma gains_more r m m' : gains 0 r m m' → gains 1 r m m'.
Proof.
  intros (E & L & U & Hok & H). split_and!; [done..|]. intros r'. destruct (H r') as (?&?&?&?).
  split_and!; [done..| |done]. destruct (decide (r' = r)); lia.
Qed.

Lemma gains_open_route r d m m' res :
  open_route r d m = (m', res) →
  ep_ok m → route_valid r → owns_route (side m) r = true →
  W r = initial_window_frames (config m) → 0 < W r <= u32_max → credit_of m r <= W r →
  gains 1 r m m' ∧ next_route m' = next_route m ∧ unclaimed m' = unclaimed m ∧
  ∀ o, res = Ok o → or_route o = r ∧ or_receiver o = next_loc (ms_store m) ∧
                    next_loc (ms_store m) < next_loc (ms_store m').
Proof.
  intros H Hok Hv Hown Hw Hpos Hc.
  assert (gains 1 r m m) as Hsame by (by apply gains_refl).
  revert H. unfold open_route. rewrite sbind_eq, ensure_open_eq.
  destruct (closed m); [by intros [= <- <-]|].
  rewrite sbind_eq. unfold gets at 1. rewrite sbind_eq.
  pose proof (gains_insert r (initial_window_frames (config m)) true m Hok Hv) as Hins.
  rewrite <-Hw in *. specialize (Hins (proj1 Hpos) eq_refl).
  assert (next_route (insert_route r (W r) true m).1 = next_route m) as Nr.
  { unfold insert_route, sbind, gets, modify, fail, ret. cbn. destruct (bool_decide _); [done|]. by destruct (N.leb _ _). }
  destruct (insert_route r _ true m) as [m1 [l|e]]; cbn in Nr.
  2:{ destruct Hins as [-> _]. by intros [= <- <-]. }
  destruct Hins as (Hg & -> & Hl & Hu & _ & He).
  assert (∀ e, (drop_receiver_at (next_loc (ms_store m)) m1, Err e : TransportResult OpenedRoute) = (m', res) →
    gains 1 r m m' ∧ next_route m' = next_route m ∧ unclaimed m' = unclaimed m ∧
    ∀ o, res = Ok o → or_route o = r ∧ or_receiver o = next_loc (ms_store m) ∧
                      next_loc (ms_store m) < next_loc (ms_store m')) as Hfail.
  { intros e [= <- <-]. pose proof (still_drop_receiver (next_loc (ms_store m)) m1) as Hd.
    destruct (Hd) as (_ & Hn & _ & Hu' & _).
    split_and!; [|congruence|congruence|done]. eapply gains_still; [by apply gains_more|exact Hd]. }
  rewrite sbind_eq. unfold or_drop, check_payload. rewrite !sbind_eq. unfold gets at 1.
  destruct (N.ltb _ _); unfold fail, ret; [apply Hfail|].
  unfold wire, lift_result. destruct (frame_new _ _ _) as [f|] eqn:Ef; cbn [map_err]; [|apply Hfail].
  intros [= <- <-]. split_and!; [|done|done|].
  - apply (gains_push_open r (W r) d); try done. lia.
  - intros o [= <-]. cbn. split_and!; [done..|lia].
Qed.

(** A route the peer opened is announced to the application. *)
Lemma gains_announce r c' m m1 :
  gains 0 r m m1 → unclaimed m1 = unclaimed m → next_loc (ms_store m) < next_loc (ms_store m1) →
  (λ i, (ir_route i, ir_receiver i)) <$> waiting c' = unclaimed m ∨
  (λ i, (ir_route i, ir_receiver i)) <$> waiting c' = unclaimed m ++ [(r, next_loc (ms_store m))] →
  gains 0 r m (with_store (set_accepts c') m1).
Proof.
  intros (E & L & _ & Hok & H) Hu Hl Hw. split_and!; [done..| | |exact H].
  - unfold unclaimed at 1 3. cbn [with_store ms_store set_accepts accepts next_loc]. by destruct Hw; [left|right].
  - destruct Hok as [He Hi Hctl Hd Hs Hloc]. by split.
Qed.

Lemma gains_route_open r body o m m' res :
  dispatch_route_open r body m = (m', res) →
  ep_ok m → route_valid r → owns_route (side m) r = false →
  open_decode body = Ok o → ob_credit o = W r → 0 < W r → credit_of m r <= W r →
  gains 0 r m m' ∧ next_route m' = next_route m ∧ ∀ r' w, res ≠ Err (FlowControlViolation r' w).
Proof.
  intros H Hok Hv Hown Ho Hw Hpos Hc. revert H. unfold dispatch_route_open. rewrite sbind_eq. unfold lift_result at 1.
  rewrite Ho. cbn [map_err]. rewrite sbind_eq. unfold gets at 1. rewrite Hown, Hw.
  destruct (N.eqb_spec (W r) 0) as [|_]; [lia|]. rewrite sbind_eq. unfold attempt at 1.
  pose proof (gains_insert r (W r) true m Hok Hv Hpos eq_refl) as Hins.
  assert (next_route (insert_route r (W r) true m).1 = next_route m ∧
          accepts (ms_store (insert_route r (W r) true m).1) = accepts (ms_store m)) as [Nr Ac].
  { unfold insert_route, sbind, gets, modify, fail, ret. cbn. destruct (bool_decide _); [done|]. by destruct (N.leb _ _). }
  assert (∀ code detail, gains 0 r m (reject_route r code detail m) ∧
            next_route (reject_route r code detail m) = next_route m) as Hrej.
  { intros code detail. pose proof (still_reject r code detail m) as Hs.
    split; [|by destruct Hs as (_ & ? & _)]. eapply gains_still; [by apply gains_refl|done]. }
  destruct (insert_route r _ true m) as [m1 [l|e]]; cbn in Nr, Ac.
  - destruct Hins as (Hg & -> & Hl & Hu & _ & _). rewrite sbind_eq. unfold gets at 1.
    assert (∀ m2, gains 0 r m m2 → gains 0 r m (drop_receiver_at (next_loc (ms_store m)) m2)) as Hdrop.
    { intros m2 Hm2. eapply gains_still; [exact Hm2|apply still_drop_receiver]. }
    destruct (negb _).
    { unfold sbind, modify, ret. intros [= <- <-]. split_and!; [by apply Hdrop|done|done]. }
    rewrite sbind_eq. unfold gets at 1. rewrite Ac.
    pose proof (try_send_spec (mkInbound r (ob_descriptor o) (next_loc (ms_store m))
      (codec (me_compression (ms_env m)))) (accepts (ms_store m))) as Hs.
    assert (∀ c', (waiting c' = waiting (accepts (ms_store m)) ∨ waiting c' = waiting (accepts (ms_store m)) ++
              [mkInbound r (ob_descriptor o) (next_loc (ms_store m)) (codec (me_compression (ms_env m)))]) →
            gains 0 r m (with_store (set_accepts c') m1)) as Han.
    { intros c' Hc'. apply gains_announce; [done|done|lia|]. unfold unclaimed.
      destruct Hc' as [->| ->]; [by left|]. right. by rewrite fmap_app. }
    destruct (alive _); cbn [negb] in Hs.
    2:{ rewrite Hs. unfold sbind, modify, ret. intros [= <- <-]. split_and!; [|done..]. apply Hdrop, Han. by left. }
    destruct (match bound _ with Some _ => _ | None => _ end).
    { rewrite Hs. unfold sbind, modify, ret. intros [= <- <-]. split_and!; [|done..]. apply Hdrop, Han. by left. }
    destruct Hs as (c' & -> & Hc' & _). unfold sbind, modify, ret. intros [= <- <-].
    pose proof (still_push_protocol RouteAccept r (accept_encode_into (accepted (W r)) [])
      (with_store (set_accepts c') m1) eq_refl) as Hp.
    split_and!; [|destruct Hp as (_ & Hn & _); by rewrite <-Nr|done].
    eapply gains_still; [|exact Hp]. apply Han. by right.
  - destruct Hins as [-> He]. destruct e; unfold sbind, modify, ret, fail; intros [= <- <-];
      (split_and!; [try apply Hrej; by apply gains_refl|try apply Hrej; done|]); try done;
      intros r' w' [= <- <-]; by eapply He.
Qed.

(** *** The turns of the two loops *)

Context (display : TransportError → str).

Lemma still_count c m : still m (count c m).
Proof. still_same. Qed.

Lemma effect_fewer fin fout fout' m m' :
  fout' `sublist_of` fout → effect fin fout m m' → effect fin fout' m m'.
Proof.
  intros Hs (E & N & L & U & H). split_and!; [done..|]. intros Hok. destruct (H Hok) as (? & Ho & ? & R).
  split_and!; [done| |done|].
  - apply Forall_forall. intros f Hf. rewrite Forall_forall in Ho. apply Ho. by eapply elem_of_sublist.
  - intros r. destruct (R r) as (?&?&?).
    pose proof (weigh_sublist (data_w r) _ _ Hs). pose proof (weigh_sublist (grant_w r) _ _ Hs).
    pose proof (weigh_sublist (open_w r) _ _ Hs). lia.
Qed.

Lemma sublist_fmap {A B} (g : A → B) l1 l2 : l1 `sublist_of` l2 → (g <$> l1) `sublist_of` (g <$> l2).
Proof. induction 1; cbn; by constructor. Qed.

Lemma effect_write_batch sink m :
  effect [] (write_batch display sink m).2 m (write_batch display sink m).1.
Proof.
  unfold write_batch. pose proof (effect_take_batch WRITE_BATCH m) as Ht.
  destruct (take_batch WRITE_BATCH m) as [m1 batch]. cbn [fst snd] in *.
  set (m2 := Nat.iter _ _ m1). set (m3 := drop_items batch m2).
  apply (effect_fewer _ (ob_frame <$> batch)); [apply sublist_fmap, sublist_filter|].
  apply (effect_then_still _ _ _ m1); [done|].
  trans m2. { unfold m2. induction (length _) as [|k IH]; cbn; [done|]. etrans; [exact IH|apply still_count]. }
  trans m3; [apply still_drop_items|]. destruct (last _) as [e|]; [|done]. destruct (is_fatal e); [|done].
  apply still_close.
Qed.

(** What [run_reader] does with the outcome of a dispatch. *)
Definition after_dispatch (res : TransportResult (option Dispatched)) (m : MuxShared) : MuxShared :=
  match res with
  | Ok (Some PeerClosed) => close (Local (lit "receivers dropped")) m
  | Ok _ => m
  | Err e => if is_fatal e then close (close_reason_for display e) (count Errors m) else count Errors m
  end.

Lemma read_frame_eq f m :
  read_frame display f m =
    (after_dispatch (dispatch f m).2 (dispatch f m).1,
     match (dispatch f m).2 with Ok None => false | _ => true end).
Proof. unfold read_frame. by destruct (dispatch f m) as [m' [[[|]|]|e]]. Qed.

Lemma still_after_dispatch res m : still m (after_dispatch res m).
Proof.
  unfold after_dispatch. destruct res as [[[|]|]|e]; [done|apply still_close|done|].
  destruct (is_fatal e); [|apply still_count]. etrans; [apply (still_count Errors)|apply still_close].
Qed.

(** A frame that stays at the head of the stream is for the application's
    control channel. *)
Lemma dispatch_blocked f m : (dispatch f m).2 = Ok None → weightless f.
Proof.
  unfold dispatch. rewrite sbind_eq. unfold lift_result.
  destruct (header_decode (fr_payload f)) as [[h body]|e] eqn:Eh; cbn [map_err]; [|done].
  assert (mh_tag h = TagControl → weightless f) as Hw.
  { intros Ht r. unfold data_w, grant_w, open_w, frame_is. rewrite Eh, Ht.
    by rewrite !bool_decide_false by (by intros [? _]). }
  destruct (mh_tag h) eqn:Et; intros H; [by apply Hw|exfalso..]; revert H;
    unfold sbind, lift_result, gets, modify, ret.
  - by destruct (dispatch_route_data _ _ _ _ _) as [? [|]].
  - by destruct (dispatch_route_open _ _ _) as [? [|]].
  - by destruct (dispatch_route_accept _ _ _) as [? [|]].
  - by destruct (close_decode body).
  - by destruct (decode_credit body).
  - destruct (decode_body _ _ _) as [m0 [a|]]; [|done]. unfold wire, lift_result.
    destruct (frame_new _ _ _) as [a0|]; cbn [map_err]; [|done]. destruct (sink_datagrams _) as [l|]; [|done].
    destruct (send_to_ok l a0 m0) as [x Ex]. destruct (send_to l a0 m0) as [m1 r1]. cbn in Ex. subst r1.
    by destruct x as [|[|]].
Qed.

Lemma effect_read_frame f m :
  (∀ r, frame_is RouteOpen r f = None) →
  effect (if (read_frame display f m).2 then [f] else []) [] m (read_frame display f m).1.
Proof.
  intros Hno. rewrite read_frame_eq. cbn [fst snd].
  eapply effect_then_still; [|apply still_after_dispatch].
  destruct (effect_dispatch f m Hno) as [He _]. pose proof (dispatch_blocked f m) as Hb.
  destruct (dispatch f m) as [m' [[d|]|e]]; cbn [fst snd] in *; [done| |done].
  specialize (Hb eq_refl). destruct He as (E & N & L & U & H). split_and!; [done..|]. intros Hok.
  destruct (H Hok) as (? & ? & ? & R). split_and!; [done..|]. intros r. specialize (R r).
  rewrite !weigh_cons, !weigh_nil in *. destruct (Hb r) as (E1 & E2 & E3). lia.
Qed.

Lemma dispatch_open f r body m :
  frame_is RouteOpen r f = Some body →
  dispatch f m = let '(m', res) := dispatch_route_open r body m in
                 (m', match res with Ok d => Ok (Some d) | Err e => Err e end).
Proof.
  unfold frame_is, dispatch. rewrite sbind_eq. unfold lift_result.
  destruct (header_decode (fr_payload f)) as [[h b]|e] eqn:Eh; [|done].
  destruct (bool_decide _) eqn:Eb; [|done]. apply bool_decide_eq_true in Eb as [Et <-]. intros [= ->].
  cbn [map_err]. rewrite Et. unfold sbind, ret. by destruct (dispatch_route_open _ _ _) as [? [|]].
Qed.

Lemma gains_read_frame f r body o m :
  frame_is RouteOpen r f = Some body → ep_ok m → route_valid r → owns_route (side m) r = false →
  open_decode body = Ok o → ob_credit o = W r → 0 < W r → credit_of m r <= W r →
  (read_frame display f m).2 = true ∧ gains 0 r m (read_frame display f m).1 ∧
  next_route (read_frame display f m).1 = next_route m ∧
  ∀ r' w, (dispatch f m).2 ≠ Err (FlowControlViolation r' w).
Proof.
  intros Hf Hok Hv Hown Ho Hw Hpos Hc. rewrite read_frame_eq, (dispatch_open f r body m Hf). cbn [fst snd].
  destruct (dispatch_route_open r body m) as [m' res] eqn:E. cbn [fst snd].
  destruct (gains_route_open r body o m m' res E Hok Hv Hown Ho Hw Hpos Hc) as (Hg & Hn & Hnv).
  set (res' := match res with Ok d => _ | Err e => _ end).
  destruct (still_after_dispatch res' m') as (E1 & N1 & L1 & U1 & H1) eqn:Es. clear Es.
  split_and!.
  - unfold res'. by destruct res as [[|]|].
  - by eapply gains_still; [exact Hg|apply still_after_dispatch].
  - by rewrite N1.
  - intros r' w. unfold res'. destruct res as [|e]; [done|]. intros [= ->]. by apply (Hnv r' w).
Qed.
End endpoint.
