(* ===== verification/MuxLink.v ===== *)
(** * Two multiplexers on one connection

    The two ends of a connection, joined by two reliable and ordered streams
    as [mux/driver.rs] joins them over a socket: the writer of an end moves
    batches of frames to its stream, the reader of the other end dispatches
    them, and the applications open, accept, use and close routes.  A run is a
    list of such actions, interleaved in any way.

    [flow_control_is_never_violated] is the promise of [mux/state.rs]: a peer
    which spends only the credit it was given never finds the buffer of a
    route full.  It follows from an inequality every action keeps
    ([inv_flow]): the credit of the sender, the frames on the stream, those
    waiting for the application, those it consumed since the last grant and
    the grants on their way back never exceed the window together. *)

From Stdlib Require Import Lia.
From stdpp Require Import base tactics functions gmap strings numbers list.
From S2P Require Import Prelude Crc32c Text Utf8 WireFrame MuxHeader MuxCompress MuxState MuxSched MuxFlow.

Open Scope N_scope.

(** ** Sides and routes *)

Lemma peer_ne s : peer s ≠ s.
Proof. by destruct s. Qed.

Lemma peer_peer s : peer (peer s) = s.
Proof. by destruct s. Qed.

Lemma side_cases s s' : s' = s ∨ s' = peer s.
Proof. destruct s, s'; auto. Qed.

(** The end that allocates a handle. *)
Definition owner (r : RouteId) : Side := if N.eqb (r mod 2) 1 then Initiator else Acceptor.

Lemma owns_owner s r : 0 < r → owns_route s r = bool_decide (owner r = s).
Proof.
  intros Hr. unfold owns_route, owner, is_none. destruct (N.eqb_spec r 0); [lia|].
  by destruct (N.eqb _ _), s.
Qed.

Lemma owns_valid s r : owns_route s r = true → 0 < r ∧ owner r = s.
Proof.
  intros H. destruct (N.eq_dec r 0) as [->|]; [done|]. rewrite owns_owner in H by lia.
  apply bool_decide_eq_true in H. split; [lia|done].
Qed.

Lemma owner_next r : owner (r + 2) = owner r.
Proof. unfold owner. f_equal. rewrite (N.add_mod r 2 2) by lia. by rewrite N.add_0_r, N.mod_mod. Qed.

Section link.
Context {MF : Mpsc Frame} {MI : Mpsc InboundRoute} {SM : Semaphore} {OA : OxiArc}.
Context {MFL : MpscLaws Frame} {MIL : MpscLaws InboundRoute}.
Context (display : TransportError → str).

(** ** The connection *)

(** The ends, the stream from each, and the receivers its application holds. *)
Record Link := mkLink {
  ep : Side → MuxShared;
  out : Side → list Frame;
  handles : Side → list (RouteId * loc);
}.

(** What an application does, with its end of the connection. *)
Inductive call :=
  | CSend (r : RouteId) (permits : loc) (policy : CompressionPolicy) (kind : FrameKind) (payload : list N)
  | CControl (kind : FrameKind) (payload : list N)
  | CDatagram (kind : FrameKind) (payload : list N)
  | CRecv (r : RouteId) (l : loc)
  | CRecvControl
  | CRecvDatagram
  | CDropReceiver (l : loc)
  | CCloseRoute (r : RouteId) (code : N) (detail : str)
  | CMaxPayload (bytes : N)
  | CMaxDatagram (bytes : N)
  | CClose (reason : CloseReason).

Definition run_call (held_by : list (RouteId * loc)) (c : call) (m : MuxShared) : MuxShared :=
  match c with
  | CSend r permits policy kind payload => (route_try_send r permits policy kind payload m).1
  | CControl kind payload => (control_try_send kind payload m).1
  | CDatagram kind payload => (queue_datagram kind payload m).1
  | CRecv r l => if bool_decide ((r, l) ∈ held_by) then (route_try_recv r l m).1 else m
  | CRecvControl => (channel_try_recv CONTROL m).1
  | CRecvDatagram => (channel_try_recv DATAGRAMS m).1
  | CDropReceiver l => drop_receiver_at l m
  | CCloseRoute r code detail => close_route r code detail m
  | CMaxPayload bytes => set_max_payload bytes m
  | CMaxDatagram bytes => set_max_datagram_bytes bytes m
  | CClose reason => mux_close reason m
  end.

Inductive action :=
  | ACall (s : Side) (c : call)
  | AOpen (s : Side) (descriptor : list N)
  | AAccept (s : Side)
  | AWrite (s : Side) (sink : Frame → option TransportError)
  | ARead (s : Side).

(** [RouteAcceptor::accept], when a route waits. *)
Definition accept_route (m : MuxShared) : MuxShared * option InboundRoute :=
  let '(c, i) := try_recv (accepts (ms_store m)) in (with_store (set_accepts c) m, i).

Definition act (a : action) (w : Link) : Link :=
  match a with
  | ACall s c => mkLink (<[s := run_call (handles w s) c (ep w s)]> (ep w)) (out w) (handles w)
  | AOpen s descriptor =>
      let '(m, r) := open_next_route descriptor (ep w s) in
      mkLink (<[s := m]> (ep w)) (out w)
        (match r with
         | Ok o => <[s := handles w s ++ [(or_route o, or_receiver o)]]> (handles w)
         | Err _ => handles w
         end)
  | AAccept s =>
      let '(m, i) := accept_route (ep w s) in
      mkLink (<[s := m]> (ep w)) (out w)
        (match i with
         | Some i => <[s := handles w s ++ [(ir_route i, ir_receiver i)]]> (handles w)
         | None => handles w
         end)
  | AWrite s sink =>
      let '(m, frames) := write_batch display sink (ep w s) in
      mkLink (<[s := m]> (ep w)) (<[s := out w s ++ frames]> (out w)) (handles w)
  | ARead s =>
      match out w (peer s) with
      | [] => w
      | frame :: rest =>
          let '(m, consumed) := read_frame display frame (ep w s) in
          mkLink (<[s := m]> (ep w)) (if consumed then <[peer s := rest]> (out w) else out w) (handles w)
      end
  end.

Definition run (l : list action) (w : Link) : Link := foldl (λ w a, act a w) w l.

(** What the two ends are created with. *)
Record Setup := mkSetup {
  su_config : Side → MuxConfig;
  su_compression : Side → CompressionPolicy;
  su_max_payload : Side → N;
  su_max_routes : Side → N;
}.

Definition connect (u : Setup) : Link :=
  mkLink (λ s, shared_new (su_config u s) s (su_compression u s) (su_max_payload u s) (su_max_routes u s))
    (λ _, []) (λ _, []).

(** ** The invariant *)

Context (u : Setup).

Definition window (s : Side) : N := initial_window_frames (su_config u s).
Definition W (r : RouteId) : N := window (owner r).
Definition env (s : Side) : MuxEnv := mkEnv (su_config u s) s (su_max_routes u s) (su_compression u s).

(** What the frames that side [s] may send on the route amount to, wherever
    they or the credit for them are. *)
Definition flow (w : Link) (s : Side) (r : RouteId) : N :=
  credit_of (ep w s) r + weigh (data_w r) (out w s) +
  held (ep w (peer s)) r + weigh (grant_w r) (out w (peer s)).

Definition opens (w : Link) (s : Side) (r : RouteId) : N :=
  openings (ep w s) r + weigh (open_w r) (out w s).

Definition claims (w : Link) (s : Side) : list (RouteId * loc) := handles w s ++ unclaimed (ep w s).

(** Side [s] has never had the route. *)
Definition untouched (w : Link) (s : Side) (r : RouteId) : Prop :=
  flow w s r = 0 ∧ table (ep w s) !! r = None ∧ ∀ l, (r, l) ∉ claims w s.

Record inv (n : N) (w : Link) : Prop := mkInv {
  inv_env s : ms_env (ep w s) = env s;
  inv_ok s : ep_ok W (ep w s);
  inv_flow s r : flow w s r <= W r;
  inv_frames s : Forall (opening_ok (ep w s)) (out w s);
  inv_open s r : opens w s r <= 1;
  inv_opening s r : 0 < opens w s r → owner r = s ∧ 0 < r < next_route (ep w s) ∧ untouched w (peer s) r;
  inv_fresh s r : owner r = s → next_route (ep w s) <= r → untouched w s r ∧ untouched w (peer s) r;
  inv_claims s r l : (r, l) ∈ claims w s → claim_ok (ep w s) r l ∧ l < next_loc (ms_store (ep w s));
  inv_next s : owner (next_route (ep w s)) = s ∧ 0 < next_route (ep w s) <= 2 + 2 * n;
}.

Lemma connect_untouched s r : untouched (connect u) s r.
Proof.
  split_and!; [by destruct s..|]. intros l. unfold claims, unclaimed. cbn.
  destruct unbounded_new as (-> & _). apply not_elem_of_nil.
Qed.

Lemma inv_connect : inv 0 (connect u).
Proof.
  assert (∀ s r, opens (connect u) s r = 0) as Ho by (by intros []).
  split.
  - done.
  - intros s. split; cbn; try done. split; intros l [= <-]; done.
  - intros s r. destruct (connect_untouched s r) as (-> & _). lia.
  - done.
  - intros s r. rewrite Ho. lia.
  - intros s r. rewrite Ho. lia.
  - intros. split; apply connect_untouched.
  - intros s r l Hl. by destruct (connect_untouched s r) as (_ & _ & []%(λ H, H l Hl)).
  - intros []; cbn; split; try done; lia.
Qed.

(** ** Actions that open no route *)

(** Side [s] acts: it reads [fin] off the peer's stream and writes [fout] to
    its own. *)
Definition acts (s : Side) (m' : MuxShared) (fin fout : list Frame) (w w' : Link) : Prop :=
  ep w' s = m' ∧ ep w' (peer s) = ep w (peer s) ∧ out w' s = out w s ++ fout ∧
  out w (peer s) = fin ++ out w' (peer s) ∧ handles w' (peer s) = handles w (peer s).

Section effect.
Context (w w' : Link) (s : Side) (m' : MuxShared) (fin fout : list Frame).
Hypothesis Hacts : acts s m' fin fout w w'.
Hypothesis Heff : effect W fin fout (ep w s) m'.
Hypothesis Hok : ∀ s, ep_ok W (ep w s).

Lemma effect_flow s0 r : flow w' s0 r <= flow w s0 r.
Proof.
  destruct Hacts as (E1 & E2 & O1 & O2 & _), Heff as (_ & _ & _ & _ & H).
  destruct (H (Hok s)) as (_ & _ & _ & R). destruct (R r) as (Rc & Rh & _).
  unfold flow. destruct (side_cases s s0) as [->| ->]; rewrite ?peer_peer, E1, E2, O1, O2, !weigh_app; lia.
Qed.

Lemma effect_opens s0 r : opens w' s0 r <= opens w s0 r.
Proof.
  destruct Hacts as (E1 & E2 & O1 & O2 & _), Heff as (_ & _ & _ & _ & H).
  destruct (H (Hok s)) as (_ & _ & _ & R). destruct (R r) as (_ & _ & Ro).
  unfold opens. destruct (side_cases s s0) as [->| ->]; rewrite ?E1, ?E2, ?O1, ?O2, !weigh_app; lia.
Qed.

Lemma effect_table s0 r e' :
  table (ep w' s0) !! r = Some e' → ∃ e, table (ep w s0) !! r = Some e ∧ re_inbound e' = re_inbound e.
Proof.
  destruct Hacts as (E1 & E2 & _), Heff as (_ & _ & _ & _ & H). destruct (H (Hok s)) as (_ & _ & T & _).
  destruct (side_cases s s0) as [->| ->]; [rewrite E1; apply T|]. rewrite E2. eauto.
Qed.

Lemma effect_same s0 :
  ms_env (ep w' s0) = ms_env (ep w s0) ∧ next_route (ep w' s0) = next_route (ep w s0) ∧
  next_loc (ms_store (ep w' s0)) = next_loc (ms_store (ep w s0)) ∧ unclaimed (ep w' s0) = unclaimed (ep w s0).
Proof.
  destruct Hacts as (E1 & E2 & _), Heff as (? & ? & ? & ? & _).
  destruct (side_cases s s0) as [->| ->]; [by rewrite E1|by rewrite E2].
Qed.

Lemma inv_effect n : handles w' s = handles w s → inv n w → inv n w'.
Proof.
  intros Hh [Henv _ Hflow Hfr Hop Hopg Hfresh Hcl Hnx].
  assert (∀ s0, claims w' s0 = claims w s0) as Cl.
  { intros s0. unfold claims. destruct (effect_same s0) as (_ & _ & _ & ->). f_equal.
    destruct Hacts as (_ & _ & _ & _ & ?). by destruct (side_cases s s0) as [->| ->]. }
  assert (∀ s0 r, untouched w s0 r → untouched w' s0 r) as Hun.
  { intros s0 r (U1 & U2 & U3). split_and!; [pose proof (effect_flow s0 r); lia| |by rewrite Cl].
    apply eq_None_not_Some. intros [e' He']. destruct (effect_table s0 r e' He') as (e & He & _). by rewrite U2 in He. }
  split.
  - intros s0. destruct (effect_same s0) as (-> & _). apply Henv.
  - intros s0. destruct Hacts as (E1 & E2 & _), Heff as (_ & _ & _ & _ & H).
    destruct (side_cases s s0) as [->| ->]; [rewrite E1; by apply H|by rewrite E2].
  - intros s0 r. pose proof (effect_flow s0 r). specialize (Hflow s0 r). lia.
  - intros s0. eapply (Forall_impl (opening_ok (ep w s0))).
    2:{ intros f. unfold opening_ok, side, config. by destruct (effect_same s0) as (-> & _). }
    destruct Hacts as (E1 & E2 & O1 & O2 & _), Heff as (_ & _ & _ & _ & H).
    destruct (side_cases s s0) as [->| ->].
    + rewrite O1. apply Forall_app. split; [apply Hfr|]. by apply H.
    + specialize (Hfr (peer s)). rewrite O2 in Hfr. by apply Forall_app in Hfr as [_ ?].
  - intros s0 r. pose proof (effect_opens s0 r). specialize (Hop s0 r). lia.
  - intros s0 r Hlt. pose proof (effect_opens s0 r). destruct (Hopg s0 r) as (? & ? & ?); [lia|].
    destruct (effect_same s0) as (_ & -> & _). auto.
  - intros s0 r Ho. destruct (effect_same s0) as (_ & -> & _). intros Hr. destruct (Hfresh s0 r Ho Hr). auto.
  - intros s0 r l. rewrite Cl. intros Hl. destruct (Hcl s0 r l Hl) as [[C1 C2] ?].
    destruct (effect_same s0) as (_ & _ & -> & _). split; [|done]. split.
    + intros e' He'. destruct (effect_table s0 r e' He') as (e & He & ->). auto.
    + intros r' e' He'. destruct (effect_table s0 r' e' He') as (e & He & ->). by apply C2.
  - intros s0. destruct (effect_same s0) as (_ & -> & _). apply Hnx.
Qed.
End effect.

(** ** Actions that open a route *)

Section gains.
Context (w w' : Link) (s : Side) (m' : MuxShared) (fin : list Frame) (k : N) (r : RouteId).
Hypothesis Hacts : acts s m' fin [] w w'.
Hypothesis Hgains : gains W k r (ep w s) m'.
Hypothesis Huntouched : untouched w s r.

(** A claim of [w'] at [s] is one of [w] or that of the new route. *)
Hypothesis Hclaims : ∀ x, x ∈ claims w' s →
  x ∈ claims w s ∨ x = (r, next_loc (ms_store (ep w s))) ∧ next_loc (ms_store (ep w s)) < next_loc (ms_store m').

Lemma gains_flow s0 r' :
  flow w' s0 r' <= (if decide (s0 = s ∧ r' = r) then W r else flow w s0 r').
Proof.
  destruct Hacts as (E1 & E2 & O1 & O2 & _), Hgains as (_ & _ & _ & _ & H), Huntouched as (U & _).
  destruct (H r') as (Rc & Rh & _). rewrite app_nil_r in O1. unfold flow in *.
  destruct (side_cases s s0) as [->| ->]; rewrite ?peer_peer, E1, E2, O1; rewrite O2, !weigh_app in *.
  - destruct (decide (r' = r)) as [->|Hr]; [rewrite decide_True by done|rewrite decide_False by (by intros [_ ?])]; lia.
  - rewrite decide_False by (by intros [?%peer_ne _]). lia.
Qed.

Lemma gains_opens s0 r' :
  opens w' s0 r' + (if decide (s0 = peer s) then weigh (open_w r') fin else 0) <=
  opens w s0 r' + (if decide (s0 = s ∧ r' = r) then k else 0).
Proof.
  destruct Hacts as (E1 & E2 & O1 & O2 & _), Hgains as (_ & _ & _ & _ & H).
  destruct (H r') as (_ & _ & Ro & _). rewrite app_nil_r in O1. unfold opens.
  destruct (side_cases s s0) as [->| ->]; rewrite ?E1, ?E2, ?O1.
  - rewrite decide_False by (intros ?; by apply (peer_ne s)).
    destruct (decide (r' = r)) as [->|Hr]; [rewrite decide_True by done|rewrite decide_False by (by intros [_ ?])]; lia.
  - rewrite decide_True, decide_False by (try done; by intros [?%peer_ne _]). rewrite O2, weigh_app. lia.
Qed.

Lemma gains_table s0 r' e' :
  table (ep w' s0) !! r' = Some e' →
  (∃ e, table (ep w s0) !! r' = Some e ∧ re_inbound e' = re_inbound e) ∨
  (s0 = s ∧ r' = r ∧ re_inbound e' = next_loc (ms_store (ep w s)) ∧
   next_loc (ms_store (ep w s)) < next_loc (ms_store m')).
Proof.
  destruct Hacts as (E1 & E2 & _), Hgains as (_ & _ & _ & _ & H).
  destruct (side_cases s s0) as [->| ->]; [|rewrite E2; eauto].
  rewrite E1. intros He'. destruct (H r') as (_ & _ & _ & T). destruct (T e' He') as [?|(?&?&?)]; eauto 6.
Qed.

Lemma gains_claims s0 x :
  x ∈ claims w' s0 →
  x ∈ claims w s0 ∨ s0 = s ∧ x = (r, next_loc (ms_store (ep w s))) ∧
                    next_loc (ms_store (ep w s)) < next_loc (ms_store m').
Proof.
  destruct Hacts as (_ & E2 & _ & _ & Hh). destruct (side_cases s s0) as [->| ->].
  - intros Hx. destruct (Hclaims x Hx) as [?|[? ?]]; auto.
  - unfold claims. rewrite E2, Hh. auto.
Qed.

Lemma gains_untouched s0 r' : ¬ (s0 = s ∧ r' = r) → untouched w s0 r' → untouched w' s0 r'.
Proof.
  intros Hne (U1 & U2 & U3). split_and!.
  - pose proof (gains_flow s0 r') as H. rewrite decide_False in H by done. lia.
  - apply eq_None_not_Some. intros [e' He']. destruct (gains_table s0 r' e' He') as [(e & He & _)|(?&?&_)]; [|tauto].
    by rewrite U2 in He.
  - intros l Hl. destruct (gains_claims s0 _ Hl) as [?|(?&[= ? ?]&_)]; [by apply (U3 l)|tauto].
Qed.

Lemma gains_claim_ok s0 r' l :
  (∀ s r e, table (ep w s) !! r = Some e → re_inbound e < next_loc (ms_store (ep w s))) →
  (∀ r l, (r, l) ∈ claims w s0 → claim_ok (ep w s0) r l ∧ l < next_loc (ms_store (ep w s0))) →
  (r', l) ∈ claims w' s0 → claim_ok (ep w' s0) r' l ∧ l < next_loc (ms_store (ep w' s0)).
Proof.
  intros Hlow Hcl Hl. destruct Huntouched as (_ & Hnone & Hno), Hacts as (E1 & E2 & _), Hgains as (_ & L & _).
  assert (next_loc (ms_store (ep w s0)) <= next_loc (ms_store (ep w' s0))) as L0.
  { destruct (side_cases s s0) as [->| ->]; [by rewrite E1|by rewrite E2]. }
  destruct (gains_claims s0 _ Hl) as [Hold|(-> & [= -> ->] & Hlt)].
  - destruct (Hcl _ _ Hold) as [[C1 C2] ?]. split; [|lia]. split.
    + intros e' He'. destruct (gains_table s0 r' e' He') as [(e & He & ->)|(-> & -> & _)]; [auto|].
      by destruct (Hno l).
    + intros r1 e' He' Hi. destruct (gains_table s0 r1 e' He') as [(e & He & E)|(-> & -> & E & _)].
      * rewrite E in Hi. by eapply C2.
      * lia.
  - split; [|by rewrite E1]. split.
    + intros e' He'. destruct (gains_table s r e' He') as [(e & He & _)|(_ & _ & E & _)]; [|done]. by rewrite Hnone in He.
    + intros r1 e' He' Hi. destruct (gains_table s r1 e' He') as [(e & He & E)|(_ & -> & _)]; [|done].
      specialize (Hlow s r1 e He). lia.
Qed.

Lemma inv_gains n n' :
  inv n w → n <= n' →
  (∀ s0, 0 < opens w' s0 r → s0 = s ∧ owner r = s ∧ 0 < r < next_route (ep w' s) ∧ untouched w (peer s) r) →
  (∀ s0, opens w' s0 r <= 1) → r < next_route (ep w' (owner r)) →
  (∀ s0, next_route (ep w s0) <= next_route (ep w' s0)) →
  (∀ s0, owner (next_route (ep w' s0)) = s0 ∧ 0 < next_route (ep w' s0) <= 2 + 2 * n') →
  inv n' w'.
Proof.
  intros [Henv Hok Hflow Hfr Hop Hopg Hfresh Hcl Hnx] Hn Ho1 Ho2 Hr Hnext Hnext'.
  assert (∀ s0, ms_env (ep w' s0) = ms_env (ep w s0)) as Env.
  { intros s0. destruct Hacts as (E1 & E2 & _), Hgains as (E & _).
    destruct (side_cases s s0) as [->| ->]; [by rewrite E1|by rewrite E2]. }
  assert (∀ s0 r', r' ≠ r → opens w' s0 r' <= opens w s0 r') as Hopens.
  { intros s0 r' Hne. pose proof (gains_opens s0 r') as H. rewrite (decide_False (P := _ ∧ _)) in H by (by intros [_ ?]). lia. }
  split; [| | | | | | | |done].
  - intros s0. by rewrite Env.
  - intros s0. destruct Hacts as (E1 & E2 & _), Hgains as (_ & _ & _ & ? & _).
    destruct (side_cases s s0) as [->| ->]; [by rewrite E1|by rewrite E2].
  - intros s0 r'. pose proof (gains_flow s0 r'). destruct (decide _) as [[-> ->]|]; [done|]. specialize (Hflow s0 r'). lia.
  - intros s0. eapply (Forall_impl (opening_ok (ep w s0))).
    2:{ intros f. unfold opening_ok, side, config. by rewrite Env. }
    destruct Hacts as (_ & _ & O1 & O2 & _). rewrite app_nil_r in O1. specialize (Hfr s0).
    destruct (side_cases s s0) as [->| ->]; [by rewrite O1|]. rewrite O2 in Hfr. by apply Forall_app in Hfr as [_ ?].
  - intros s0 r'. destruct (decide (r' = r)) as [->|Hne]; [done|]. specialize (Hopens s0 r' Hne). specialize (Hop s0 r'). lia.
  - intros s0 r' Hlt. destruct (decide (r' = r)) as [->|Hne].
    + destruct (Ho1 s0 Hlt) as (-> & Hs & Hr' & Hu). split_and!; [done|apply Hr'|apply Hr'|..];
        apply (gains_untouched (peer s)); try done; by intros [?%peer_ne _].
    + specialize (Hopens s0 r' Hne). destruct (Hopg s0 r') as (? & ? & ?); [lia|]. specialize (Hnext s0).
      split_and!; [done|lia|lia|..]; apply (gains_untouched (peer s0)); try done; by intros [_ ?].
  - intros s0 r' Hs0 Hle. assert (r' ≠ r) as Hne by (intros ->; rewrite Hs0 in Hr; lia). specialize (Hnext s0).
    destruct (Hfresh s0 r' Hs0) as [? ?]; [lia|]. split; apply gains_untouched; try done; by intros [_ ?].
  - intros s0 r' l. apply gains_claim_ok; [|apply Hcl]. intros s1 r1 e He.
    by destruct (eo_entry _ _ (Hok s1) r1 e He) as (_ & _ & [_ ?] & _).
Qed.
End gains.

(** ** Every action keeps the invariant *)

Lemma inv_more n n' w : inv n w → n <= n' → inv n' w.
Proof.
  intros [] Hn. split; try done. intros s. destruct (inv_next0 s) as (? & ? & ?). split_and!; [done|lia..].
Qed.

Lemma inv_still n w s m' :
  inv n w → effect W [] [] (ep w s) m' → inv n (mkLink (<[s := m']> (ep w)) (out w) (handles w)).
Proof.
  intros Hinv He. apply (inv_effect w _ s m' [] []); [|done|apply Hinv|done|done].
  split_and!; cbn; [by rewrite fn_lookup_insert|by rewrite fn_lookup_insert_ne by (by intros ?%eq_sym%peer_ne)
                   |by rewrite app_nil_r|done..].
Qed.

Lemma still_call held_by c m :
  (∀ r l, (r, l) ∈ held_by → claim_ok m r l) → effect W [] [] m (run_call held_by c m).
Proof.
  intros Hcl. destruct c; cbn [run_call].
  - apply keeps_still_send.
  - apply keeps_still_control_send.
  - apply keeps_still_datagram.
  - case_bool_decide; [|apply still_refl]. apply still_route_recv. auto.
  - by apply still_channel_recv.
  - by apply still_channel_recv.
  - apply still_drop_receiver.
  - apply still_close_route.
  - by apply still_same.
  - by apply still_same.
  - eapply (effect_trans _ [] [] [] []); [|apply still_close].
    apply still_foldl. intros. apply still_close_route.
Qed.

Lemma inv_accept n w s : inv n w → inv n (act (AAccept s) w).
Proof.
  intros Hinv. unfold act, accept_route. set (c := accepts (ms_store (ep w s))).
  pose proof (try_recv_spec c) as Hr. destruct (try_recv c) as [c' i]. cbn [fst snd]. set (w' := mkLink _ _ _).
  assert (ep w' s = with_store (set_accepts c') (ep w s)) as E1 by apply fn_lookup_insert.
  assert (ep w' (peer s) = ep w (peer s)) as E2.
  { apply fn_lookup_insert_ne. by intros ?%eq_sym%peer_ne. }
  assert (∀ s0, claims w' s0 = claims w s0) as Cl.
  { intros s0. unfold claims. destruct (side_cases s s0) as [->| ->].
    - unfold unclaimed. rewrite E1. cbn [with_store ms_store set_accepts accepts]. fold c. unfold w'. cbn [handles].
      destruct (waiting c) as [|a rest] eqn:Ew; [simplify_eq; by rewrite Ew|].
      destruct Hr as (c0 & [= -> ->] & -> & _). rewrite fn_lookup_insert, <-app_assoc. done.
    - rewrite E2. unfold w'. cbn [handles]. f_equal. destruct i; [|done].
      apply fn_lookup_insert_ne. by intros ?%eq_sym%peer_ne. }
  assert (∀ s0, out w' s0 = out w s0) as O by done.
  assert (∀ s0, ms_env (ep w' s0) = ms_env (ep w s0) ∧ next_route (ep w' s0) = next_route (ep w s0) ∧
    next_loc (ms_store (ep w' s0)) = next_loc (ms_store (ep w s0)) ∧ ms_state (ep w' s0) = ms_state (ep w s0) ∧
    chans (ms_store (ep w' s0)) = chans (ms_store (ep w s0))) as Same.
  { intros s0. destruct (side_cases s s0) as [->| ->]; [by rewrite E1|by rewrite E2]. }
  assert (∀ s0 r, flow w' s0 r = flow w s0 r ∧ opens w' s0 r = opens w s0 r) as Fl.
  { intros s0 r. destruct (Same s0) as (_ & _ & _ & T1 & _), (Same (peer s0)) as (_ & _ & _ & T2 & C2).
    unfold flow, opens, credit_of, held, openings, fill, consumed_of, queued_control, table, waiting_at.
    by rewrite !O, T1, T2, C2. }
  assert (∀ s0 r, untouched w s0 r → untouched w' s0 r) as Hun.
  { intros s0 r (U1 & U2 & U3). destruct (Fl s0 r) as [F _]. unfold untouched, table.
    destruct (Same s0) as (_ & _ & _ & -> & _). rewrite F, Cl. done. }
  destruct Hinv as [Henv Hok Hflow Hfr Hop Hopg Hfresh Hcl Hnx].
  split; intros s0; destruct (Same s0) as (Ee & En & El & Es & Ec).
  - by rewrite Ee.
  - destruct (Hok s0) as [He Hi Hctl Hd Hs Hloc].
    split; unfold table, entry_ok, queued_control, opening_ok, side, config; by rewrite ?Es, ?El, ?Ec, ?Ee.
  - intros r. destruct (Fl s0 r) as [-> _]. done.
  - rewrite O. unfold opening_ok, side, config. rewrite Ee. exact (Hfr s0).
  - intros r. destruct (Fl s0 r) as [_ ->]. done.
  - intros r. destruct (Fl s0 r) as [_ ->]. rewrite En. intros Hlt. destruct (Hopg s0 r Hlt) as (?&?&?). auto.
  - intros r Ho. rewrite En. intros Hle. destruct (Hfresh s0 r Ho Hle). auto.
  - intros r l. rewrite Cl, El. unfold claim_ok, table. rewrite Es. apply Hcl.
  - by rewrite En.
Qed.

Lemma inv_write n w s sink : inv n w → inv n (act (AWrite s sink) w).
Proof.
  intros Hinv. unfold act. pose proof (effect_write_batch W display sink (ep w s)) as He.
  destruct (write_batch display sink (ep w s)) as [m' fout]. cbn [fst snd] in He.
  apply (inv_effect w _ s m' [] fout); [|done|apply Hinv|done|done].
  split_and!; cbn; [by rewrite fn_lookup_insert| |by rewrite fn_lookup_insert| |done];
    by rewrite fn_lookup_insert_ne by (by intros ?%eq_sym%peer_ne).
Qed.

Section windows.
Hypothesis Hwin : ∀ s, 0 < window s <= u32_max.

Lemma inv_config n w s : inv n w → side (ep w s) = s ∧ initial_window_frames (config (ep w s)) = window s.
Proof. intros Hinv. unfold side, config. by rewrite (inv_env _ _ Hinv s). Qed.

Lemma inv_route_valid n w s r : inv n w → n < 2 ^ 62 → 0 < r <= next_route (ep w s) → route_valid r.
Proof. intros Hinv Hn Hr. destruct (inv_next _ _ Hinv s) as (_ & ?). unfold route_valid. lia. Qed.

Lemma inv_open_route n w s descriptor : inv n w → n < 2 ^ 62 → inv (n + 1) (act (AOpen s descriptor) w).
Proof.
  intros Hinv Hn. unfold act, open_next_route, next_route_id. set (r := next_route (ep w s)).
  destruct (inv_next _ _ Hinv s) as (Hs & Hpos & Hle). fold r in Hs, Hpos, Hle.
  destruct (inv_fresh _ _ Hinv s r Hs) as [U1 U2]; [done|].
  destruct (inv_config _ _ s Hinv) as [Sd Cf].
  set (m0 := mkShared _ _ _ _ _ _ _ _ _).
  assert (ep_ok W m0) as Hok0.
  { destruct (inv_ok _ _ Hinv s) as [He Hi Hctl Hd Hsk Hloc]. by split. }
  assert (next_route m0 = r + 2) as Nr.
  { unfold m0. cbn. unfold two64. rewrite N.mod_small; lia. }
  destruct (open_route r descriptor m0) as [m' res] eqn:E.
  destruct (gains_open_route W r descriptor m0 m' res E Hok0) as (Hg & Hn' & Hu & Ho).
  - eapply inv_route_valid; [done..|]. fold r. split; [done|apply N.le_refl].
  - change (side m0) with (side (ep w s)). rewrite Sd, owns_owner by lia. by apply bool_decide_eq_true.
  - change (config m0) with (config (ep w s)). rewrite Cf. unfold W. by rewrite Hs.
  - apply Hwin.
  - destruct U1 as (U1 & _). unfold flow in U1. change (credit_of m0 r) with (credit_of (ep w s) r). lia.
  - set (w' := mkLink _ _ _).
    assert (ep w' s = m') as E1 by apply fn_lookup_insert.
    assert (ep w' (peer s) = ep w (peer s)) as E2 by (apply fn_lookup_insert_ne; by intros ?%eq_sym%peer_ne).
    assert (handles w' (peer s) = handles w (peer s)) as Hh.
    { unfold w'. cbn. destruct res; [|done]. apply fn_lookup_insert_ne. by intros ?%eq_sym%peer_ne. }
    assert (acts s m' [] [] w w') as Ha by (split_and!; [done..|cbn; by rewrite app_nil_r|done|done]).
    assert (opens w s r = 0 ∧ opens w (peer s) r = 0) as [Os Op].
    { split; apply N.le_antisymm; try lia; apply N.nlt_ge; intros Hlt.
      - destruct (inv_opening _ _ Hinv s r Hlt) as (_ & ? & _). fold r in H. lia.
      - destruct (inv_opening _ _ Hinv _ r Hlt) as (Hp & _). rewrite Hs in Hp. by destruct (peer_ne s). }
    pose proof (gains_opens w w' s m' [] 1 r Ha Hg) as Hops.
    apply (inv_gains w w' s m' [] 1 r Ha Hg U1) with n; [|done|lia| | | | |].
    + intros x Hx. unfold claims in *. rewrite E1 in Hx. rewrite Hu in Hx.
      change (unclaimed m0) with (unclaimed (ep w s)) in Hx. unfold w' in Hx. cbn [handles] in Hx.
      destruct res as [o|]; [|by left]. rewrite fn_lookup_insert in Hx. destruct (Ho o eq_refl) as (Er & El & Hl). rewrite Er, El in Hx.
      apply elem_of_app in Hx as [Hx|Hx]; [|left; apply elem_of_app; by right].
      apply elem_of_app in Hx as [Hx|Hx%list_elem_of_singleton]; [left; apply elem_of_app; by left|by right].
    + intros s0 Hlt. specialize (Hops s0 r). destruct (side_cases s s0) as [->| ->].
      * split_and!; [done|done|done|rewrite E1, Hn', Nr; lia|..]; apply U2.
      * rewrite (decide_False (P := _ ∧ _)) in Hops by (by intros [?%peer_ne _]). lia.
    + intros s0. specialize (Hops s0 r). destruct (side_cases s s0) as [->| ->]; repeat case_decide; lia.
    + rewrite Hs, E1, Hn', Nr. lia.
    + intros s0. destruct (side_cases s s0) as [->| ->]; [rewrite E1, Hn', Nr; fold r; lia|by rewrite E2].
    + intros s0. destruct (side_cases s s0) as [->| ->].
      * rewrite E1, Hn', Nr, owner_next. split_and!; [done|lia|lia].
      * rewrite E2. destruct (inv_next _ _ Hinv (peer s)) as (? & ? & ?). split_and!; [done|lia|lia].
Qed.

Lemma frame_opens f :
  (∃ r b, frame_is RouteOpen r f = Some b) ∨ ∀ r, frame_is RouteOpen r f = None.
Proof.
  unfold frame_is. destruct (header_decode _) as [[h b]|]; [|by right].
  destruct (decide (mh_tag h = RouteOpen)) as [Et|Hne].
  - left. exists (mh_route h), b. by rewrite bool_decide_true.
  - right. intros r. rewrite bool_decide_false; [done|]. by intros [? _].
Qed.

(** What is known of the opening at the head of a stream. *)
Lemma inv_head_open n w s f rest r body :
  inv n w → n < 2 ^ 62 → out w (peer s) = f :: rest → frame_is RouteOpen r f = Some body →
  owner r = peer s ∧ untouched w s r ∧ route_valid r ∧ r < next_route (ep w (peer s)) ∧
  open_w r f = 1 ∧ owns_route (side (ep w s)) r = false ∧
  ∃ o, open_decode body = Ok o ∧ ob_credit o = W r.
Proof.
  intros Hinv Hn Ho Hf. assert (open_w r f = 1) as Hw by (unfold open_w; by rewrite Hf).
  destruct (inv_opening _ _ Hinv (peer s) r) as (Hs & [Hr0 Hr1] & Hu).
  { unfold opens. rewrite Ho, weigh_cons, Hw. lia. }
  rewrite peer_peer in Hu.
  pose proof (inv_frames _ _ Hinv (peer s)) as Hfr. rewrite Ho in Hfr. apply Forall_cons in Hfr as [Hop _].
  destruct (Hop r body Hf) as (_ & o & Hd & Hc). destruct (inv_config _ _ (peer s) Hinv) as [_ Cf].
  destruct (inv_config _ _ s Hinv) as [Sd _].
  split_and!; [done|apply Hu..|done|by eapply (inv_route_valid n w (peer s)); [..|lia]|done|done| |].
  - rewrite Sd, owns_owner, Hs by done. apply bool_decide_eq_false, peer_ne.
  - exists o. split; [done|]. unfold W. by rewrite Hc, Cf, Hs.
Qed.

Lemma inv_read n w s : inv n w → n < 2 ^ 62 → inv n (act (ARead s) w).
Proof.
  intros Hinv Hn. unfold act. destruct (out w (peer s)) as [|f rest] eqn:Ho; [done|].
  assert (∀ X m' (c : bool), acts s m' (if c then [f] else []) [] w
    (mkLink (<[s := m']> (ep w)) (if c then <[peer s := rest]> (out w) else out w) X) ↔
    X (peer s) = handles w (peer s)) as Hacts.
  { intros X m' c. unfold acts. cbn. rewrite fn_lookup_insert, fn_lookup_insert_ne by (by intros ?%eq_sym%peer_ne).
    rewrite app_nil_r, Ho. destruct c; [|rewrite Ho; naive_solver].
    rewrite fn_lookup_insert, fn_lookup_insert_ne by apply peer_ne. naive_solver. }
  destruct (frame_opens f) as [(r & body & Hf)|Hno].
  - destruct (inv_head_open n w s f rest r body Hinv Hn Ho Hf) as (Hs & Hu & Hv & Hr & Hw & Hown & o & Hd & Hc).
    destruct (gains_read_frame W display f r body o (ep w s) Hf (inv_ok _ _ Hinv s) Hv Hown Hd Hc) as (Hcons & Hg & Hnx & _).
    { apply Hwin. } { destruct Hu as (U & _). unfold flow in U. lia. }
    destruct (read_frame display f (ep w s)) as [m' consumed]. cbn [fst snd] in *. subst consumed.
    specialize (Hacts (handles w) m' true). destruct Hacts as [_ Ha]. specialize (Ha eq_refl).
    set (w' := mkLink _ _ _) in *. pose proof (gains_opens w w' s m' [f] 0 r Ha Hg) as Hops.
    assert (∀ s0, opens w' s0 r = 0) as Hzero.
    { intros s0. specialize (Hops s0 r). destruct (side_cases s s0) as [->| ->].
      - assert (opens w s r = 0); [|repeat case_decide; lia].
        apply N.le_antisymm; [|lia]. apply N.nlt_ge. intros Hlt.
        destruct (inv_opening _ _ Hinv s r Hlt) as (Hp & _). rewrite Hs in Hp. by destruct (peer_ne s).
      - pose proof (inv_open _ _ Hinv (peer s) r). rewrite decide_True, weigh_cons, Hw in Hops by done.
        case_decide; lia. }
    assert (∀ s0, next_route (ep w' s0) = next_route (ep w s0)) as Nx.
    { destruct Ha as (E1 & E2 & _). intros s0. destruct (side_cases s s0) as [->| ->]; [by rewrite E1|by rewrite E2]. }
    apply (inv_gains w w' s m' [f] 0 r Ha Hg Hu) with n; [|done|done| | | | |].
    + intros x Hx. destruct Ha as (E1 & _). unfold claims in *. rewrite E1 in Hx. cbn [handles w'] in Hx.
      destruct Hg as (_ & _ & [U|[U ?]] & _); rewrite U in Hx; [by left|].
      rewrite app_assoc in Hx. apply elem_of_app in Hx as [Hx|Hx%list_elem_of_singleton]; [by left|by right].
    + intros s0. rewrite Hzero. lia.
    + intros s0. rewrite Hzero. lia.
    + by rewrite Nx, Hs.
    + intros s0. by rewrite Nx.
    + intros s0. rewrite Nx. apply (inv_next _ _ Hinv).
  - pose proof (effect_read_frame W display f (ep w s) Hno) as He.
    destruct (read_frame display f (ep w s)) as [m' consumed]. cbn [fst snd] in *.
    eapply (inv_effect w _ s m'); [by apply Hacts|done|apply Hinv|done|done].
Qed.

Lemma inv_act n a w : inv n w → n < 2 ^ 62 → inv (n + 1) (act a w).
Proof.
  intros Hinv Hn. assert (∀ w', inv n w' → inv (n + 1) w') as Hmore by (intros w' ?; eapply inv_more; [done|lia]).
  destruct a as [s c|s d|s|s sink|s].
  - apply Hmore, inv_still; [done|]. apply still_call. intros r l Hl.
    apply (inv_claims _ _ Hinv s). unfold claims. apply elem_of_app. by left.
  - by apply inv_open_route.
  - apply Hmore, inv_accept, Hinv.
  - apply Hmore, inv_write, Hinv.
  - apply Hmore. by apply inv_read.
Qed.

Lemma inv_run l : ∀ n w, inv n w → n + N.of_nat (length l) <= 2 ^ 62 → inv (n + N.of_nat (length l)) (run l w).
Proof.
  induction l as [|a l IH]; intros n w Hinv Hn; cbn [length run foldl] in *.
  - by rewrite N.add_0_r.
  - replace (n + N.of_nat (S (length l))) with (n + 1 + N.of_nat (length l)) in * by lia.
    apply (IH (n + 1)); [|done]. apply inv_act; [done|lia].
Qed.

(** The window admits the frame at the head of the stream. *)
Lemma inv_admits n w s f rest :
  inv n w → n < 2 ^ 62 → out w (peer s) = f :: rest →
  ∀ r x, (dispatch f (ep w s)).2 ≠ Err (FlowControlViolation r x).
Proof.
  intros Hinv Hn Ho. destruct (frame_opens f) as [(r & body & Hf)|Hno].
  - destruct (inv_head_open n w s f rest r body Hinv Hn Ho Hf) as (Hs & Hu & Hv & Hr & Hw & Hown & o & Hd & Hc).
    destruct (gains_read_frame W display f r body o (ep w s) Hf (inv_ok _ _ Hinv s) Hv Hown Hd Hc) as (_ & _ & _ & H);
      [apply Hwin| |done]. destruct Hu as (U & _). unfold flow in U. lia.
  - destruct (effect_dispatch W f (ep w s) Hno) as [_ H]. apply H; [apply Hinv|]. intros r b Hf.
    pose proof (inv_flow _ _ Hinv (peer s) r) as Hfl. unfold flow in Hfl. rewrite peer_peer, Ho, weigh_cons in Hfl.
    assert (data_w r f = 1) as Hd by (unfold data_w; by rewrite Hf). lia.
Qed.
End windows.
End link.

(** ** The promise *)

(** C11. Two ends whose windows are positive, joined by two streams, with any
    interleaving of fewer than 2^62 opens, accepts, sends, receives, closes,
    writes and reads: for each direction of each route, the sender's credit,
    the frames on the stream, those in the receiver's buffer, those consumed
    but not granted again and the grants on their way back never exceed the
    window; so the frame at the head of a stream is never refused as a
    violation of flow control. *)
Theorem flow_control_is_never_violated `{MpscLaws Frame, MpscLaws InboundRoute, Semaphore, OxiArc}
    display u actions s :
  (∀ s, 0 < initial_window_frames (su_config u s) <= u32_max) →
  N.of_nat (length actions) < 2 ^ 62 →
  let w := run display actions (connect u) in
  (∀ r, credit_of (ep w s) r + weigh (data_w r) (out w s) +
        held (ep w (peer s)) r + weigh (grant_w r) (out w (peer s)) <=
        initial_window_frames (su_config u (owner r))) ∧
  ∀ f rest, out w (peer s) = f :: rest →
    ∀ r x, (dispatch f (ep w s)).2 ≠ Err (FlowControlViolation r x).
Proof.
  intros Hwin Hn w. pose proof (inv_run display u Hwin actions 0 (connect u) (inv_connect u)) as Hinv.
  rewrite N.add_0_l in Hinv. specialize (Hinv (N.lt_le_incl _ _ Hn)). split.
  - intros r. apply (inv_flow _ _ _ Hinv s r).
  - intros f rest Ho. by eapply (inv_admits display u Hwin).
Qed.

Module LinkSample.
Import ListTokio RunLength.

Definition setup : Setup := mkSetup (λ _, config_new) (λ _, policy_disabled) (λ _, 1024) (λ _, 4).

Definition after (l : list action) : Link := run Sample.quiet l (connect setup).

(** A sink that takes every frame. *)
Definition socket (f : Frame) : option TransportError := None.

(** The initiator opens a route, the acceptor takes it and the answer goes
    back. *)
Definition opened : list action :=
  [AOpen Initiator []; AWrite Initiator socket; ARead Acceptor; AAccept Acceptor;
   AWrite Acceptor socket; ARead Initiator].
End LinkSample.

Lemma flow_control_is_never_violated_witness :
  let w := LinkSample.after (LinkSample.opened ++
    [ACall Initiator (CSend 1 2 policy_disabled Data [7; 8]); AWrite Initiator LinkSample.socket]) in
  credit_of (ep w Initiator) 1 = 31 ∧ weigh (data_w 1) (out w Initiator) = 1 ∧
  match out w (peer Acceptor) with
  | [f] => ∀ r x, (dispatch f (ep w Acceptor)).2 ≠ Err (FlowControlViolation r x)
  | _ => False
  end.
Proof.
  unfold LinkSample.after. split; [by vm_compute|]. split; [by vm_compute|].
  set (actions := LinkSample.opened ++ _).
  destruct (flow_control_is_never_violated Sample.quiet LinkSample.setup actions Acceptor) as [_ H];
    [intros s; by vm_compute|by vm_compute|].
  destruct (out _ (peer Acceptor)) as [|f [|f' rest]] eqn:E; [by vm_compute in E|by apply (H f [])|by vm_compute in E].
Defined.
