(* ===== verification/MuxScenarios.v ===== *)
(** * Executions of the multiplexer

    Runs of two ends of a connection ([MuxLink]), evaluated: what happens to
    data that is sent right after a burst of control frames, to a route whose
    descriptor is too long, to the notices of a closing connection, and to a
    payload that is larger than the ceiling but compresses below it. *)

From Stdlib Require Import Lia.
From stdpp Require Import base tactics functions gmap strings numbers list.
From S2P Require Import Prelude Crc32c Text Utf8 WireFrame MuxHeader MuxCompress MuxState MuxSched MuxFlow MuxLink.

Open Scope N_scope.
Import ListTokio RunLength LinkSample.

Definition times {A} (n : nat) (a : A) : list A := replicate n a.

(** What the applications can observe of a route. *)
Definition frames_waiting (w : Link) (s : Side) (l : loc) : option nat :=
  (λ c, length (waiting c)) <$> chans (ms_store (ep w s)) !! l.

(** After eight control frames the scheduler owes the routes a turn, so the
    data of a new route leaves before the frame that opens it. *)
Definition overtaking : list action :=
  times 8 (ACall Initiator (CControl Data [1])) ++ [AWrite Initiator socket] ++ times 8 (ARead Acceptor) ++
  [AOpen Initiator []; ACall Initiator (CSend 1 2 policy_disabled Data [7; 8]); AWrite Initiator socket].

(** Data sent on a route that was just opened can reach the peer before
    the route does, after a burst of control frames.  The peer drops it, and
    the credit it cost is never given back: when everything was read, the
    route is open at both ends, nothing waits for the application and the
    sender has one credit less than its window. *)
Theorem data_can_overtake_its_opening :
  let sent := after overtaking in
  let w := after (overtaking ++ times 2 (ARead Acceptor) ++
                  [AAccept Acceptor; AWrite Acceptor socket; ARead Initiator]) in
  map (λ f, match header_decode (fr_payload f) with Ok (h, _) => Some (mh_tag h) | Err _ => None end)
    (out sent Initiator) = [Some RouteData; Some RouteOpen] ∧
  out w Initiator = [] ∧ out w Acceptor = [] ∧ handles w Acceptor = [(1, 2)] ∧
  frames_waiting w Acceptor 2 = Some 0%nat ∧ credit_of (ep w Initiator) 1 = 31 ∧ credit_of (ep w Acceptor) 1 = 32.
Proof. by vm_compute. Qed.

(** Opening a route with a descriptor beyond the ceiling fails, but
    leaves the route in the table of the end that opened it: it counts
    against the limit, and four such failures exhaust a limit of four. *)
Theorem refused_descriptor_leaks_its_route :
  let m := foldl (λ m _, (open_next_route (times 2000 0) m).1) (Sample.fresh Initiator) (seq 0 4) in
  (open_next_route (times 2000 0) (Sample.fresh Initiator)).2 = Err (FrameTooLarge 2013 1024) ∧
  control (ms_state m) = [] ∧ (open_next_route [] m).2 = Err (RouteLimitReached 4).
Proof. by vm_compute. Qed.

(** Closing a connection queues a notice for each open route and then
    empties the queue it is on: the writer sends nothing. *)
Theorem closing_notices_are_never_sent :
  let m := Sample.after Initiator [OOpen []; OWrite] in
  length (control (ms_state (close_all_routes (lit "connection closing") m))) = 1%nat ∧
  (write_batch Sample.quiet socket (mux_close (Local (lit "bye")) m)).2 = [].
Proof. by vm_compute. Qed.

(** A link whose initiator compresses. *)
Definition compressing : Setup :=
  mkSetup (λ _, config_new) (λ _, with_threshold_bytes 8 (policy_codec Zstd)) (λ _, 1024) (λ _, 4).

(** The sender checks the ceiling after compressing, the receiver after
    expanding: a payload above the ceiling that compresses below it is
    accepted for sending, and closes the connection when it arrives. *)
Theorem compressed_payload_can_kill_the_connection :
  let big := replicate 2000 7 in
  let ready := run Sample.quiet opened (connect compressing) in
  let policy := with_threshold_bytes 8 (policy_codec Zstd) in
  let w := run Sample.quiet [ACall Initiator (CSend 1 2 policy Data big); AWrite Initiator socket; ARead Acceptor] ready in
  (route_try_send 1 2 policy Data big (ep ready Initiator)).2 = Ok tt ∧
  (route_try_send 1 2 policy_disabled Data big (ep ready Initiator)).2 = Err (FrameTooLarge 2009 1024) ∧
  closed (ep ready Acceptor) = false ∧ closed (ep w Acceptor) = true ∧
  close_reason (ep w Acceptor) = Some (Protocol (Sample.quiet (DecompressedTooLarge 2000 1024))).
Proof. by vm_compute. Qed.
