(* ===== verification/Cdr.v ===== *)
(** * CDR: the serialization of [astrs-cdr]

    Models [src/crates/astrs-cdr/src/]: encodings and encapsulation headers
    ([encoding.rs]), alignment ([align.rs]), the writer over a buffer or a
    counter ([writer.rs], [size.rs]), the reader ([reader.rs]), the traits and
    their implementations for primitives, strings, sequences, arrays, enumerations and
    structs ([traits.rs], [impls/], [bounded.rs], [macros.rs]).  The trait is a record of
    operations; its laws are in [CdrLaws.v].  Positions and lengths are [N]; a
    floating-point number is its bits; the headers of members of mutable types
    ([EMHEADER]) are left out. *)

From Stdlib Require Import Lia.
From stdpp Require Import base tactics strings numbers list.
From S2P Require Import Prelude Crc32c WireFrame Text Utf8.

Open Scope N_scope.

(** ** Octets *)

Definition blen {A} (l : list A) : N := N.of_nat (length l).
Definition zeros_of (count : N) : list N := replicate (N.to_nat count) 0.
Definition btake (count : N) (l : list N) : list N := take (N.to_nat count) l.
Definition bdrop (count : N) (l : list N) : list N := drop (N.to_nat count) l.

(** [to_be_bytes], [from_be_bytes] *)
Definition to_be_bytes (k : nat) (x : N) : list N := reverse (to_le_bytes k x).
Definition from_be_bytes (l : list N) : N := from_le_bytes (reverse l).

(** ** [align.rs] *)

Definition padding_to (position alignment : N) : N :=
  if N.leb alignment 1 then 0
  else let mask := alignment - 1 in N.land (alignment - N.land position mask) mask.

(** ** [encoding.rs] *)

Inductive Endianness : Set := Big | Little.

Inductive CdrVersion : Set := Xcdr1 | Xcdr2.

Definition max_alignment (v : CdrVersion) : N := match v with Xcdr1 => 8 | Xcdr2 => 4 end.

Inductive EncapsulationKind : Set :=
  | CdrBe | CdrLe | PlCdrBe | PlCdrLe | Cdr2Be | Cdr2Le | DCdr2Be | DCdr2Le | PlCdr2Be | PlCdr2Le.

#[global] Instance endianness_eq_dec : EqDecision Endianness.
Proof. solve_decision. Defined.
#[global] Instance encapsulation_kind_eq_dec : EqDecision EncapsulationKind.
Proof. solve_decision. Defined.

Definition identifier (k : EncapsulationKind) : N :=
  match k with
  | CdrBe => 0 | CdrLe => 1 | PlCdrBe => 2 | PlCdrLe => 3 | Cdr2Be => 6 | Cdr2Le => 7
  | DCdr2Be => 8 | DCdr2Le => 9 | PlCdr2Be => 10 | PlCdr2Le => 11
  end.

(** [error.rs], as far as the operations below raise it. *)
Inductive CdrError : Set :=
  | CdrTruncated (needed available : N) (context : str)
  | TrailingBytes (remaining : N)
  | UnknownEncapsulation (identifier : N)
  | PaddingOverrun (padding available : N)
  | LengthOverflow (declared available element_size : N) (context : str)
  | SequenceTooLong (length maximum : N)
  | MissingNulTerminator
  | InteriorNul (index : N)
  | InvalidUtf8
  | InvalidUtf16 (index : N)
  | InvalidBoolean (octet : N)
  | UnsupportedEncapsulation
  | DelimiterOverrun (declared available : N)
  | SizeOverflow (context : str)
  | BoundExceeded (bound actual : N) (context : str)
  | BitBoundExceeded (type_name : str) (discriminant bit_bound : N)
  | UnknownEnumerator (type_name : str) (discriminant : N)
  | MissingSentinel
  | UnsupportedParameter (id : N)
  | ParameterTooLong (id length : N).

Abbreviation CdrResult := (result CdrError).

Definition from_identifier (i : N) : CdrResult EncapsulationKind :=
  match i with
  | 0 => Ok CdrBe | 1 => Ok CdrLe | 2 => Ok PlCdrBe | 3 => Ok PlCdrLe | 6 => Ok Cdr2Be | 7 => Ok Cdr2Le
  | 8 => Ok DCdr2Be | 9 => Ok DCdr2Le | 10 => Ok PlCdr2Be | 11 => Ok PlCdr2Le
  | other => Err (UnknownEncapsulation other)
  end.

Definition kind_endianness (k : EncapsulationKind) : Endianness :=
  if N.eqb (N.land (identifier k) 1) 0 then Big else Little.

Definition kind_version (k : EncapsulationKind) : CdrVersion :=
  match k with CdrBe | CdrLe | PlCdrBe | PlCdrLe => Xcdr1 | _ => Xcdr2 end.

(** The options of an encapsulation: the last two bits count padding. *)
Definition PADDING_MASK : N := 3.
Definition options_padding (options : N) : N := N.land options PADDING_MASK.
Definition with_padding (padding options : N) : N :=
  N.lor (N.land options (N.lxor 0xFFFF PADDING_MASK)) (N.land padding PADDING_MASK).

Definition ENCAPSULATION_HEADER_LEN : N := 4.

Definition header_to_bytes (k : EncapsulationKind) (options : N) : list N :=
  to_be_bytes 2 (identifier k) ++ to_be_bytes 2 options.

Definition header_from_bytes (bytes : list N) : CdrResult (EncapsulationKind * N) :=
  match bytes with
  | i0 :: i1 :: o0 :: o1 :: _ =>
      let? k := from_identifier (from_be_bytes [i0; i1]) in Ok (k, from_be_bytes [o0; o1])
  | _ => Err (CdrTruncated ENCAPSULATION_HEADER_LEN (blen bytes) (lit "encapsulation header"))
  end.

Inductive WCharWidth : Set := Two | Four.

Definition wchar_octets (w : WCharWidth) : N := match w with Two => 2 | Four => 4 end.

Record Encoding := mkEncoding { e_kind : EncapsulationKind; e_wchar_width : WCharWidth }.

Definition encoding_new (k : EncapsulationKind) : Encoding := mkEncoding k Two.
Definition e_endianness (e : Encoding) : Endianness := kind_endianness (e_kind e).
Definition is_v2 (e : Encoding) : bool := match kind_version (e_kind e) with Xcdr2 => true | Xcdr1 => false end.

Definition align_for (natural : N) (e : Encoding) : N :=
  let cap := max_alignment (kind_version (e_kind e)) in if N.ltb cap natural then cap else natural.

(** ** [writer.rs] *)

Inductive Sink : Set := Buffer (octets : list N) | Counted (count : N).

Definition sink_len (s : Sink) : N := match s with Buffer b => blen b | Counted n => n end.

Definition push_slice (octets : list N) (s : Sink) : Sink :=
  match s with Buffer b => Buffer (b ++ octets) | Counted n => Counted (n + blen octets) end.

Definition push_zeros (count : N) (s : Sink) : Sink :=
  match s with Buffer b => Buffer (b ++ zeros_of count) | Counted n => Counted (n + count) end.

(** [slot.copy_from_slice] when the slot is inside. *)
Definition patch (at_ : N) (octets : list N) (s : Sink) : Sink :=
  match s with
  | Buffer b =>
      if N.leb (at_ + blen octets) (blen b)
      then Buffer (btake at_ b ++ octets ++ bdrop (at_ + blen octets) b) else s
  | Counted _ => s
  end.

Record CdrWriter := mkCdrWriter {
  sink : Sink;
  cw_encoding : Encoding;
  cw_origin : N;
  header_at : option N;
}.

Definition set_sink (s : Sink) (w : CdrWriter) : CdrWriter := mkCdrWriter s (cw_encoding w) (cw_origin w) (header_at w).

Definition headerless (e : Encoding) : CdrWriter := mkCdrWriter (Buffer []) e 0 None.

Definition write_encapsulation_header (w : CdrWriter) : CdrWriter :=
  let s := push_slice (header_to_bytes (e_kind (cw_encoding w)) 0) (sink w) in
  mkCdrWriter s (cw_encoding w) (sink_len s) (Some (sink_len (sink w))).

Definition cdr_writer_new (e : Encoding) : CdrWriter := write_encapsulation_header (headerless e).

Definition measuring (e : Encoding) (with_header : bool) : CdrWriter :=
  let w := mkCdrWriter (Counted 0) e 0 None in if with_header then write_encapsulation_header w else w.

Definition w_position (w : CdrWriter) : N := sink_len (sink w) - cw_origin w.

Definition w_align (natural : N) (w : CdrWriter) : CdrWriter :=
  let pad := padding_to (w_position w) (align_for natural (cw_encoding w)) in
  if N.ltb 0 pad then set_sink (push_zeros pad (sink w)) w else w.

Definition write_octets (octets : list N) (w : CdrWriter) : CdrWriter := set_sink (push_slice octets (sink w)) w.
Definition write_zeros (count : N) (w : CdrWriter) : CdrWriter := set_sink (push_zeros count (sink w)) w.

(** The octets of an integer in the stream's byte order. *)
Definition endian_octets (e : Endianness) (k : nat) (x : N) : list N :=
  match e with Big => to_be_bytes k x | Little => to_le_bytes k x end.
Definition from_endian (e : Endianness) (l : list N) : N :=
  match e with Big => from_be_bytes l | Little => from_le_bytes l end.

(** An aligned integer of [k] octets: [write_u16], [write_u32], [write_u64]. *)
Definition write_uint (k : nat) (x : N) (w : CdrWriter) : CdrWriter :=
  let w := w_align (N.of_nat k) w in write_octets (endian_octets (e_endianness (cw_encoding w)) k x) w.

Definition write_u8 (x : N) : CdrWriter → CdrWriter := write_octets [x].
Definition write_u16 (x : N) : CdrWriter → CdrWriter := write_uint 2 x.
Definition write_u32 (x : N) : CdrWriter → CdrWriter := write_uint 4 x.
Definition write_u64 (x : N) : CdrWriter → CdrWriter := write_uint 8 x.

(** [value as u8] and the like: two's complement of [bits] bits. *)
Definition to_unsigned (bits : N) (z : Z) : N := Z.to_N (z mod 2 ^ Z.of_N bits).
Definition to_signed (bits : N) (x : N) : Z :=
  if N.ltb x (2 ^ (bits - 1)) then Z.of_N x else (Z.of_N x - 2 ^ Z.of_N bits)%Z.

Definition write_bool (b : bool) : CdrWriter → CdrWriter := write_u8 (if b then 1 else 0).
Definition write_i32 (z : Z) : CdrWriter → CdrWriter := write_u32 (to_unsigned 32 z).

Definition write_wchar (x : N) (w : CdrWriter) : CdrWriter :=
  match e_wchar_width (cw_encoding w) with Two => write_u16 x w | Four => write_u32 x w end.

Definition u32_limit : N := 0xFFFFFFFF.

Definition write_sequence_len (len : N) (w : CdrWriter) : CdrResult CdrWriter :=
  if N.ltb u32_limit len then Err (SequenceTooLong len u32_limit) else Ok (write_u32 len w).

(** [iter().position(|octet| *octet == 0)] *)
Fixpoint nul_position (l : list N) : option N :=
  match l with
  | [] => None
  | b :: rest => if N.eqb b 0 then Some 0 else N.succ <$> nul_position rest
  end.

Definition write_str (s : str) (w : CdrWriter) : CdrResult CdrWriter :=
  let body := as_bytes s in
  match nul_position body with
  | Some index => Err (InteriorNul index)
  | None =>
      let? w := write_sequence_len (blen body + 1) w in
      Ok (write_octets [0] (write_octets body w))
  end.

Definition write_wstr (units : list N) (w : CdrWriter) : CdrResult CdrWriter :=
  let? w := write_sequence_len (blen units) w in
  Ok (foldl (λ w unit, write_wchar unit w) w units).

Definition write_octet_sequence (octets : list N) (w : CdrWriter) : CdrResult CdrWriter :=
  let? w := write_sequence_len (blen octets) w in Ok (write_octets octets w).

Definition DHEADER_LEN : N := 4.

(** A length in front of what [body] writes. *)
Definition w_delimited (body : CdrWriter → CdrResult CdrWriter) (w : CdrWriter) : CdrResult CdrWriter :=
  let w := w_align 4 w in
  let slot := sink_len (sink w) in
  let w := set_sink (push_zeros DHEADER_LEN (sink w)) w in
  let start := sink_len (sink w) in
  let? w := body w in
  let len := sink_len (sink w) - start in
  if N.ltb u32_limit len then Err (SizeOverflow (lit "writing a DHEADER"))
  else Ok (set_sink (patch slot (endian_octets (e_endianness (cw_encoding w)) 4 len) (sink w)) w).

Definition into_vec (s : Sink) : list N := match s with Buffer b => b | Counted _ => [] end.

Definition w_finish (w : CdrWriter) : list N := into_vec (sink w).

Definition finish_padded (w : CdrWriter) : list N :=
  let pad := padding_to (w_position w) 4 in
  if N.ltb 0 pad then
    let s := push_zeros pad (sink w) in
    into_vec
      (match header_at w with
       | Some at_ => if is_v2 (cw_encoding w) then patch (at_ + 2) (to_be_bytes 2 (with_padding pad 0)) s else s
       | None => s
       end)
  else into_vec (sink w).

(** ** [reader.rs] *)

Record CdrReader := mkCdrReader {
  data : list N;
  pos : N;
  cr_origin : N;
  end_ : N;
  cr_encoding : Encoding;
}.

Definition set_pos (p : N) (r : CdrReader) : CdrReader := mkCdrReader (data r) p (cr_origin r) (end_ r) (cr_encoding r).
Definition set_end (e : N) (r : CdrReader) : CdrReader := mkCdrReader (data r) (pos r) (cr_origin r) e (cr_encoding r).

Definition cdr_reader_new (bytes : list N) : CdrResult CdrReader :=
  let? (kind, options) := header_from_bytes bytes in
  let body_len := blen bytes - ENCAPSULATION_HEADER_LEN in
  let padding := options_padding options in
  if N.ltb body_len padding then Err (PaddingOverrun padding body_len)
  else Ok (mkCdrReader bytes ENCAPSULATION_HEADER_LEN ENCAPSULATION_HEADER_LEN (blen bytes - padding) (encoding_new kind)).

Definition with_encoding (bytes : list N) (e : Encoding) : CdrReader := mkCdrReader bytes 0 0 (blen bytes) e.

Definition r_position (r : CdrReader) : N := pos r - cr_origin r.
Definition r_remaining (r : CdrReader) : N := end_ r - pos r.
Definition peek_remaining (r : CdrReader) : list N := bdrop (pos r) (btake (end_ r) (data r)).

Definition r_align (natural : N) (r : CdrReader) : CdrResult CdrReader :=
  let pad := padding_to (r_position r) (align_for natural (cr_encoding r)) in
  if N.eqb pad 0 then Ok r
  else if N.ltb (r_remaining r) pad then Err (CdrTruncated pad (r_remaining r) (lit "alignment padding"))
  else Ok (set_pos (pos r + pad) r).

(** [data.get(pos..pos + count)] *)
Definition slice_at (r : CdrReader) (count : N) : option (list N) :=
  if N.leb (pos r + count) (blen (data r)) then Some (btake count (bdrop (pos r) (data r))) else None.

Definition take_octets (context : str) (count : N) (r : CdrReader) : CdrResult (list N * CdrReader) :=
  if N.ltb (r_remaining r) count then Err (CdrTruncated count (r_remaining r) context)
  else match slice_at r count with
       | None => Err (CdrTruncated count (r_remaining r) context)
       | Some octets => Ok (octets, set_pos (pos r + count) r)
       end.

Definition read_octets : N → CdrReader → CdrResult (list N * CdrReader) := take_octets (lit "raw octets").

Definition r_skip (count : N) (r : CdrReader) : CdrResult CdrReader :=
  let? (_, r) := read_octets count r in Ok r.

Definition read_u8 (r : CdrReader) : CdrResult (N * CdrReader) :=
  let? (octets, r) := take_octets (lit "u8") 1 r in Ok (nth 0 octets 0, r).

Definition read_bool (r : CdrReader) : CdrResult (bool * CdrReader) :=
  let? (x, r) := read_u8 r in
  match x with 0 => Ok (false, r) | 1 => Ok (true, r) | other => Err (InvalidBoolean other) end.

(** An aligned integer: [read_u16], [read_u32], [read_u64]. *)
Definition read_uint (context : str) (k : nat) (r : CdrReader) : CdrResult (N * CdrReader) :=
  let? r := r_align (N.of_nat k) r in
  let? (octets, r) := take_octets context (N.of_nat k) r in
  Ok (from_endian (e_endianness (cr_encoding r)) octets, r).

Definition read_u16 : CdrReader → CdrResult (N * CdrReader) := read_uint (lit "u16") 2.
Definition read_u32 : CdrReader → CdrResult (N * CdrReader) := read_uint (lit "u32") 4.
Definition read_u64 : CdrReader → CdrResult (N * CdrReader) := read_uint (lit "u64") 8.
Definition read_i32 (r : CdrReader) : CdrResult (Z * CdrReader) := let? (x, r) := read_u32 r in Ok (to_signed 32 x, r).

Definition read_sequence_len (element_min : N) (context : str) (r : CdrReader) : CdrResult (N * CdrReader) :=
  let? (declared, r) := read_u32 r in
  let element := N.max element_min 1 in
  let available := r_remaining r in
  let needed := N.min (declared * element) u64_max in
  if N.ltb available needed then Err (LengthOverflow declared available element context) else Ok (declared, r).

(** [core::str::from_utf8]: the text whose bytes these are. *)
Definition from_utf8 (bytes : list N) : option str :=
  let s := from_utf8_lossy bytes in if bool_decide (as_bytes s = bytes) then Some s else None.

Definition read_str (r : CdrReader) : CdrResult (str * CdrReader) :=
  let? (len, r) := read_sequence_len 1 (lit "string") r in
  if N.eqb len 0 then Err MissingNulTerminator
  else
    let? (raw, r) := read_octets len r in
    match last raw with
    | Some 0 =>
        let body := removelast raw in
        match nul_position body with
        | Some index => Err (InteriorNul index)
        | None => match from_utf8 body with Some s => Ok (s, r) | None => Err InvalidUtf8 end
        end
    | _ => Err MissingNulTerminator
    end.

(** The units of a wide string; the index is for the error. *)
Fixpoint read_units (count : nat) (index : N) (r : CdrReader) : CdrResult (list N * CdrReader) :=
  match count with
  | O => Ok ([], r)
  | S count =>
      let? (unit, r) :=
        match e_wchar_width (cr_encoding r) with
        | Two => read_u16 r
        | Four => let? (wide, r) := read_u32 r in if N.ltb 0xFFFF wide then Err (InvalidUtf16 index) else Ok (wide, r)
        end in
      let? (rest, r) := read_units count (index + 1) r in
      Ok (unit :: rest, r)
  end.

Definition read_wstring (r : CdrReader) : CdrResult (list N * CdrReader) :=
  let? (count, r) := read_sequence_len (wchar_octets (e_wchar_width (cr_encoding r))) (lit "wstring") r in
  read_units (N.to_nat count) 0 r.

Definition read_octet_sequence (r : CdrReader) : CdrResult (list N * CdrReader) :=
  let? (len, r) := read_sequence_len 1 (lit "sequence<octet>") r in read_octets len r.

Definition read_dheader (r : CdrReader) : CdrResult (N * CdrReader) :=
  if negb (is_v2 (cr_encoding r)) then Err UnsupportedEncapsulation
  else
    let? (declared, r) := read_u32 r in
    if N.ltb (r_remaining r) declared then Err (DelimiterOverrun declared (r_remaining r)) else Ok (declared, r).

(** The scope ends where its length says, wherever [body] stops. *)
Definition r_delimited {A} (body : CdrReader → CdrResult (A * CdrReader)) (r : CdrReader) : CdrResult (A * CdrReader) :=
  let? (declared, r) := read_dheader r in
  let scope_end := pos r + declared in
  let outer_end := end_ r in
  let? (a, r) := body (set_end scope_end r) in
  Ok (a, set_pos scope_end (set_end outer_end r)).

Definition MAX_ALIGNMENT_SLACK : N := 3.

Definition r_finish (r : CdrReader) : CdrResult unit :=
  if N.eqb (r_remaining r) 0 then Ok tt else Err (TrailingBytes (r_remaining r)).
Definition finish_tolerant (r : CdrReader) : CdrResult unit :=
  if N.leb (r_remaining r) MAX_ALIGNMENT_SLACK then Ok tt else Err (TrailingBytes (r_remaining r)).

(** ** [traits.rs]: what a type brings to the wire *)

Record CdrSerde (A : Type) := mkSerde {
  IS_PRIMITIVE : bool;
  MIN_SERIALIZED_SIZE : N;
  serialize : A → CdrWriter → CdrResult CdrWriter;
  deserialize : CdrReader → CdrResult (A * CdrReader);
}.
Arguments mkSerde {A}.
Arguments IS_PRIMITIVE {A}.
Arguments MIN_SERIALIZED_SIZE {A}.
Arguments serialize {A}.
Arguments deserialize {A}.

(** *** [impls/primitive.rs] *)

Definition uint_serde (k : nat) (context : str) : CdrSerde N :=
  mkSerde true (N.of_nat k) (λ x w, Ok (write_uint k x w)) (read_uint context k).

Definition bool_serde : CdrSerde bool := mkSerde true 1 (λ b w, Ok (write_bool b w)) read_bool.
Definition u8_serde : CdrSerde N := mkSerde true 1 (λ x w, Ok (write_u8 x w)) read_u8.
Definition u16_serde : CdrSerde N := uint_serde 2 (lit "u16").
Definition u32_serde : CdrSerde N := uint_serde 4 (lit "u32").
Definition u64_serde : CdrSerde N := uint_serde 8 (lit "u64").

(** [write_i16] and so on: the unsigned operation on the cast value. *)
Definition signed_serde (bits : N) (c : CdrSerde N) : CdrSerde Z :=
  mkSerde true (MIN_SERIALIZED_SIZE c) (λ z, serialize c (to_unsigned bits z))
    (λ r, let? (x, r) := deserialize c r in Ok (to_signed bits x, r)).

Definition i8_serde : CdrSerde Z := signed_serde 8 u8_serde.
Definition i16_serde : CdrSerde Z := signed_serde 16 u16_serde.
Definition i32_serde : CdrSerde Z := signed_serde 32 u32_serde.
Definition i64_serde : CdrSerde Z := signed_serde 64 u64_serde.

(** A float travels as its bit pattern ([to_bits], [from_bits]), which is what
    stands for it here. *)
Definition f32_serde : CdrSerde N := u32_serde.
Definition f64_serde : CdrSerde N := u64_serde.

(** *** [impls/string.rs] *)

Definition string_serde : CdrSerde str := mkSerde false 5 write_str read_str.
Definition wstring_serde : CdrSerde (list N) := mkSerde false 4 write_wstr read_wstring.

(** *** [impls/collection.rs] *)

Fixpoint write_items {A} (c : CdrSerde A) (items : list A) (w : CdrWriter) : CdrResult CdrWriter :=
  match items with
  | [] => Ok w
  | item :: rest => let? w := serialize c item w in write_items c rest w
  end.

Fixpoint read_items {A} (c : CdrSerde A) (count : nat) (r : CdrReader) : CdrResult (list A * CdrReader) :=
  match count with
  | O => Ok ([], r)
  | S count => let? (item, r) := deserialize c r in let? (rest, r) := read_items c count r in Ok (item :: rest, r)
  end.

Definition write_sequence_body {A} (c : CdrSerde A) (items : list A) (w : CdrWriter) : CdrResult CdrWriter :=
  let? w := write_sequence_len (blen items) w in write_items c items w.

Definition read_sequence_body {A} (c : CdrSerde A) (r : CdrReader) : CdrResult (list A * CdrReader) :=
  let? (count, r) := read_sequence_len (MIN_SERIALIZED_SIZE c) (lit "sequence") r in read_items c (N.to_nat count) r.

(** [if encoding.is_v2() && !T::IS_PRIMITIVE { delimited(body) } else { body }] *)
Definition write_collection {A} (c : CdrSerde A) (body : CdrWriter → CdrResult CdrWriter) (w : CdrWriter) : CdrResult CdrWriter :=
  if is_v2 (cw_encoding w) && negb (IS_PRIMITIVE c) then w_delimited body w else body w.
Definition read_collection {A B} (c : CdrSerde A) (body : CdrReader → CdrResult (B * CdrReader)) (r : CdrReader) :
    CdrResult (B * CdrReader) :=
  if is_v2 (cr_encoding r) && negb (IS_PRIMITIVE c) then r_delimited body r else body r.

Definition vec_serde {A} (c : CdrSerde A) : CdrSerde (list A) :=
  mkSerde false 4 (λ items, write_collection c (write_sequence_body c items)) (read_collection c (read_sequence_body c)).

(** [[T; N]]: a list of the length in the type. *)
Definition array_serde {A} (n : nat) (c : CdrSerde A) : CdrSerde (list A) :=
  mkSerde false (N.min (N.of_nat n * MIN_SERIALIZED_SIZE c) u64_max)
    (λ items, write_collection c (write_items c items)) (read_collection c (read_items c n)).

(** *** [macros.rs]: a struct is its fields in order *)

Inductive Extensibility : Set := Final | Appendable | Mutable.

Definition has_dheader (x : Extensibility) : bool := match x with Final => false | _ => true end.

Definition no_fields : CdrSerde unit := mkSerde false 0 (λ _ w, Ok w) (λ r, Ok (tt, r)).

Definition field {A B} (c : CdrSerde A) (rest : CdrSerde B) : CdrSerde (A * B) :=
  mkSerde false (N.min (MIN_SERIALIZED_SIZE c + MIN_SERIALIZED_SIZE rest) u64_max)
    (λ v w, let? w := serialize c v.1 w in serialize rest v.2 w)
    (λ r, let? (a, r) := deserialize c r in let? (b, r) := deserialize rest r in Ok ((a, b), r)).

(** [write_struct], [read_struct] around the fields. *)
Definition cdr_struct {A} (x : Extensibility) (fields : CdrSerde A) : CdrSerde A :=
  mkSerde false (MIN_SERIALIZED_SIZE fields)
    (λ v w, if is_v2 (cw_encoding w) && has_dheader x then w_delimited (serialize fields v) w else serialize fields v w)
    (λ r, if is_v2 (cr_encoding r) && has_dheader x then r_delimited (deserialize fields) r else deserialize fields r).

(** *** Enumerations: [CdrEnum], [impl_cdr_enum] *)

Record CdrEnum (A : Type) := mkEnum {
  TYPE_NAME : str;
  BIT_BOUND : N;
  discriminant : A → N;
  from_discriminant : N → CdrResult A;
}.
Arguments mkEnum {A}.
Arguments TYPE_NAME {A}.
Arguments BIT_BOUND {A}.
Arguments discriminant {A}.
Arguments from_discriminant {A}.

Definition check_bit_bound {A} (en : CdrEnum A) (d : N) : CdrResult unit :=
  let fits :=
    if N.eqb (BIT_BOUND en) 8 then N.leb d 0xFF
    else if N.eqb (BIT_BOUND en) 16 then N.leb d 0xFFFF
    else N.eqb (BIT_BOUND en) 32 in
  if fits then Ok tt else Err (BitBoundExceeded (TYPE_NAME en) d (BIT_BOUND en)).

(** [min] is what the [CdrType] of the enumeration declares. *)
Definition enum_serde {A} (en : CdrEnum A) (min : N) : CdrSerde A :=
  mkSerde false min
    (λ v w,
      let d := discriminant en v in
      let? _ := check_bit_bound en d in
      if N.eqb (BIT_BOUND en) 8 then
        if N.ltb 0xFF d then Err (BitBoundExceeded (TYPE_NAME en) d 8) else Ok (write_u8 d w)
      else if N.eqb (BIT_BOUND en) 16 then
        if N.ltb 0xFFFF d then Err (BitBoundExceeded (TYPE_NAME en) d 16) else Ok (write_u16 d w)
      else if N.eqb (BIT_BOUND en) 32 then Ok (write_u32 d w)
      else Err (BitBoundExceeded (TYPE_NAME en) d (BIT_BOUND en)))
    (λ r,
      let? (d, r) :=
        if N.eqb (BIT_BOUND en) 8 then read_u8 r
        else if N.eqb (BIT_BOUND en) 16 then read_u16 r
        else if N.eqb (BIT_BOUND en) 32 then read_u32 r
        else Err (BitBoundExceeded (TYPE_NAME en) 0 (BIT_BOUND en)) in
      let? v := from_discriminant en d in Ok (v, r)).

(** *** [bounded.rs]: the values are the unbounded ones, the bound is checked *)

Definition check_bound (actual bound : N) (context : str) : CdrResult unit :=
  if N.ltb bound actual then Err (BoundExceeded bound actual context) else Ok tt.

Definition bounded_string_serde (n : N) : CdrSerde str :=
  mkSerde false 5
    (λ s w, let? _ := check_bound (blen (as_bytes s)) n (lit "string<N>") in write_str s w)
    (λ r, let? (s, r) := read_str r in let? _ := check_bound (blen (as_bytes s)) n (lit "string<N>") in Ok (s, r)).

Definition bounded_wstring_serde (n : N) : CdrSerde (list N) :=
  mkSerde false 4
    (λ units w, let? _ := check_bound (blen units) n (lit "wstring<N>") in write_wstr units w)
    (λ r, let? (units, r) := read_wstring r in let? _ := check_bound (blen units) n (lit "wstring<N>") in Ok (units, r)).

(** The count is checked before an element is read. *)
Definition read_bounded_body {A} (n : N) (c : CdrSerde A) (r : CdrReader) : CdrResult (list A * CdrReader) :=
  let? (count, r) := read_sequence_len (MIN_SERIALIZED_SIZE c) (lit "sequence<T, N>") r in
  let? _ := check_bound count n (lit "sequence<T, N>") in
  read_items c (N.to_nat count) r.

Definition bounded_sequence_serde {A} (n : N) (c : CdrSerde A) : CdrSerde (list A) :=
  mkSerde false 4
    (λ items w, let? _ := check_bound (blen items) n (lit "sequence<T, N>") in write_collection c (write_sequence_body c items) w)
    (read_collection c (read_bounded_body n c)).

(** *** Whole values *)

Definition to_vec {A} (c : CdrSerde A) (v : A) (e : Encoding) : CdrResult (list N) :=
  let? w := serialize c v (cdr_writer_new e) in Ok (w_finish w).

Definition to_vec_padded {A} (c : CdrSerde A) (v : A) (e : Encoding) : CdrResult (list N) :=
  let? w := serialize c v (cdr_writer_new e) in Ok (finish_padded w).

Definition from_bytes {A} (c : CdrSerde A) (bytes : list N) : CdrResult A :=
  let? r := cdr_reader_new bytes in
  let? (v, r) := deserialize c r in
  let? _ := r_finish r in Ok v.

Definition from_bytes_tolerant {A} (c : CdrSerde A) (bytes : list N) : CdrResult A :=
  let? r := cdr_reader_new bytes in
  let? (v, r) := deserialize c r in
  let? _ := finish_tolerant r in Ok v.

(** [size.rs] *)
Definition serialized_size {A} (c : CdrSerde A) (v : A) (e : Encoding) : CdrResult N :=
  let? w := serialize c v (measuring e true) in Ok (sink_len (sink w)).
