(* ===== verification/CdrLaws.v ===== *)
(** * CDR: what is written is read back

    The theory of [Cdr.v].  [emits] and [accepts] say what a writer appends and
    what a reader takes at a position of a stream; alignment depends on the
    position modulo eight only, so both are stated modulo eight and compose.
    [Lawful] is the law of a type: a valid value is written as octets it is
    read from, in a buffer as in a counter, or refused.  Every implementation
    of the crate is an instance, and the constructors for sequences, arrays
    and structs carry the law from their parts.  [CdrTy] is the closed universe
    of the types these implementations make; by induction on it every
    well-formed type has the law.  The theorems on whole values:
    the round trip with sizes and padding, the reading of a grown appendable
    type by an older reader, and what sequences of empty elements and mutable
    structs do. *)

From Stdlib Require Import Lia.
From stdpp Require Import base tactics strings numbers list.
From S2P Require Import Prelude Crc32c WireFrame Text Utf8 Cdr.

Open Scope N_scope.


(** ** Octets of integers *)

Lemma blen_app {A} (l k : list A) : blen (l ++ k) = blen l + blen k.
Proof. unfold blen. rewrite length_app. lia. Qed.

Lemma blen_zeros n : blen (zeros_of n) = n.
Proof. unfold blen, zeros_of. rewrite length_replicate. lia. Qed.

Lemma blen_endian e k x : blen (endian_octets e k x) = N.of_nat k.
Proof. unfold blen, endian_octets, to_be_bytes. destruct e; rewrite ?length_reverse, length_to_le; done. Qed.

Lemma from_endian_octets e k x : x < 2 ^ (8 * N.of_nat k) → from_endian e (endian_octets e k x) = x.
Proof.
  intros H. unfold from_endian, endian_octets, from_be_bytes, to_be_bytes.
  destruct e; rewrite ?reverse_involutive; by apply from_to_le.
Qed.

Lemma to_signed_unsigned bits z :
  0 < bits → (- 2 ^ Z.of_N (bits - 1) <= z < 2 ^ Z.of_N (bits - 1))%Z → to_signed bits (to_unsigned bits z) = z.
Proof.
  intros Hb Hz. unfold to_signed, to_unsigned.
  assert (2 ^ Z.of_N bits = 2 * 2 ^ Z.of_N (bits - 1))%Z as E.
  { rewrite <-Z.pow_succ_r by lia. f_equal. lia. }
  assert (Z.of_N (2 ^ (bits - 1)) = 2 ^ Z.of_N (bits - 1))%Z as Ep by (rewrite N2Z.inj_pow; done).
  set (h := (2 ^ Z.of_N (bits - 1))%Z) in *. assert (0 < h)%Z by (apply Z.pow_pos_nonneg; lia).
  destruct (Z.ltb_spec z 0).
  - assert ((z mod 2 ^ Z.of_N bits) = z + 2 * h)%Z as Em.
    { rewrite E. symmetry. apply (Z.mod_unique_pos _ _ (-1)); lia. }
    rewrite Em. destruct (N.ltb_spec (Z.to_N (z + 2 * h)) (2 ^ (bits - 1))); lia.
  - rewrite Z.mod_small by lia. destruct (N.ltb_spec (Z.to_N z) (2 ^ (bits - 1))); lia.
Qed.

Lemma to_unsigned_bound bits z : to_unsigned bits z < 2 ^ bits.
Proof.
  unfold to_unsigned. pose proof (Z.mod_pos_bound z (2 ^ Z.of_N bits) ltac:(apply Z.pow_pos_nonneg; lia)).
  assert (Z.of_N (2 ^ bits) = 2 ^ Z.of_N bits)%Z by (rewrite N2Z.inj_pow; done). lia.
Qed.

(** ** Alignment *)

Definition is_alignment (a : N) : Prop := a = 1 ∨ a = 2 ∨ a = 4 ∨ a = 8.

Lemma padding_to_eq p a : is_alignment a → padding_to p a = (a - p mod a) mod a.
Proof.
  unfold padding_to. intros [->|[->|[->| ->]]]; cbn [N.leb N.compare Pos.compare Pos.compare_cont]; [by rewrite N.mod_1_r|..].
  - change (2 - 1) with (N.ones 1). rewrite !N.land_ones. done.
  - change (4 - 1) with (N.ones 2). rewrite !N.land_ones. done.
  - change (8 - 1) with (N.ones 3). rewrite !N.land_ones. done.
Qed.

(** Alignment looks at the position modulo eight only. *)
Lemma padding_to_mod p q a : is_alignment a → p mod 8 = q mod 8 → padding_to p a = padding_to q a.
Proof.
  intros Ha H. rewrite !padding_to_eq by done. f_equal. f_equal. unfold is_alignment in Ha.
  assert (∀ x, x mod a = (x mod 8) mod a) as E.
  { intros x. destruct Ha as [->|[->|[->| ->]]]; zify; Z.to_euclidean_division_equations; lia. }
  rewrite (E p), (E q). by rewrite H.
Qed.

Lemma align_for_alignment n e : is_alignment n → is_alignment (align_for n e).
Proof.
  unfold align_for, is_alignment. intros H. destruct H as [->|[->|[->| ->]]]; destruct (kind_version (e_kind e)); vm_compute; tauto.
Qed.

Lemma padding_to_bound p a : is_alignment a → padding_to p a < 8.
Proof.
  intros Ha. rewrite padding_to_eq by done. unfold is_alignment in Ha.
  pose proof (N.mod_lt (a - p mod a) a). lia.
Qed.

(** ** Writers append, readers move on *)

Definition appended (octets : list N) (w : CdrWriter) : CdrWriter := set_sink (push_slice octets (sink w)) w.

Definition writer_fine (w : CdrWriter) : Prop := cw_origin w <= sink_len (sink w).

Definition reader_fine (r : CdrReader) : Prop := cr_origin r <= pos r ∧ pos r <= end_ r ∧ end_ r <= blen (data r).

Definition forward (count : N) (r : CdrReader) : CdrReader := set_pos (pos r + count) r.

(** [f] writes [bs] at every position [p] modulo eight of a stream in
    encoding [e], whatever the sink; or it fails there. *)
Definition emits (f : CdrWriter → CdrResult CdrWriter) (e : Encoding) (p : N) (bs : list N) : Prop :=
  ∀ w, writer_fine w → cw_encoding w = e → w_position w mod 8 = p mod 8 → f w = Ok (appended bs w).

Definition fails (f : CdrWriter → CdrResult CdrWriter) (e : Encoding) (p : N) (err : CdrError) : Prop :=
  ∀ w, writer_fine w → cw_encoding w = e → w_position w mod 8 = p mod 8 → f w = Err err.

(** [g] reads [v] off [bs] at such a position and stops behind it. *)
Definition accepts {E A} (g : CdrReader → result E (A * CdrReader)) (e : Encoding) (p : N) (bs : list N) (v : A) : Prop :=
  ∀ r tail, reader_fine r → cr_encoding r = e → r_position r mod 8 = p mod 8 → peek_remaining r = bs ++ tail →
    g r = Ok (v, forward (blen bs) r).

Lemma sink_len_push bs s : sink_len (push_slice bs s) = sink_len s + blen bs.
Proof. destruct s; cbn; [apply blen_app|done]. Qed.

Lemma push_slice_app bs cs s : push_slice cs (push_slice bs s) = push_slice (bs ++ cs) s.
Proof. destruct s; cbn; [by rewrite <-app_assoc|]. rewrite blen_app. f_equal. lia. Qed.

Lemma push_zeros_slice n s : push_zeros n s = push_slice (zeros_of n) s.
Proof. destruct s; cbn; [done|]. by rewrite blen_zeros. Qed.

Lemma appended_nil w : appended [] w = w.
Proof. destruct w as [[b|n] ? ? ?]; unfold appended, set_sink; cbn; [by rewrite app_nil_r|]. unfold blen. cbn. by rewrite N.add_0_r. Qed.

Lemma appended_app bs cs w : appended cs (appended bs w) = appended (bs ++ cs) w.
Proof. unfold appended, set_sink. cbn. by rewrite push_slice_app. Qed.

Lemma appended_fine bs w : writer_fine w → writer_fine (appended bs w).
Proof. unfold writer_fine, appended. cbn. rewrite sink_len_push. lia. Qed.

Lemma appended_position bs w : writer_fine w → w_position (appended bs w) = w_position w + blen bs.
Proof. unfold writer_fine, w_position, appended. cbn. rewrite sink_len_push. lia. Qed.

Lemma peek_length r : reader_fine r → blen (peek_remaining r) = r_remaining r.
Proof.
  unfold reader_fine, peek_remaining, r_remaining, blen, bdrop, btake. rewrite length_drop, length_take. lia.
Qed.

Lemma forward_fine bs tail r : reader_fine r → peek_remaining r = bs ++ tail → reader_fine (forward (blen bs) r).
Proof.
  intros Hf H. pose proof (peek_length r Hf) as Hl. rewrite H, blen_app in Hl.
  unfold reader_fine, forward, r_remaining in *. cbn. lia.
Qed.

Lemma forward_peek bs tail r :
  peek_remaining r = bs ++ tail → peek_remaining (forward (blen bs) r) = tail.
Proof.
  unfold peek_remaining, forward, bdrop. cbn. intros H.
  replace (N.to_nat (pos r + blen bs)) with (N.to_nat (pos r) + length bs)%nat by (unfold blen; lia).
  rewrite <-drop_drop, H. by rewrite drop_app_length.
Qed.

Lemma forward_position n r : reader_fine r → r_position (forward n r) = r_position r + n.
Proof. unfold reader_fine, r_position, forward. cbn. lia. Qed.

Lemma forward_forward n m r : forward m (forward n r) = forward (n + m) r.
Proof. unfold forward, set_pos. cbn. f_equal. lia. Qed.

Lemma mod8_add p q n : p mod 8 = q mod 8 → (p + n) mod 8 = (q + n) mod 8.
Proof. intros H. rewrite (N.Div0.add_mod p), (N.Div0.add_mod q). by rewrite H. Qed.

(** *** Sequencing *)

Lemma emits_ret e p : emits Ok e p [].
Proof. intros w _ _ _. by rewrite appended_nil. Qed.

Lemma emits_bind f g e p bs cs :
  emits f e p bs → emits g e (p + blen bs) cs → emits (λ w, let? w := f w in g w) e p (bs ++ cs).
Proof.
  intros Hf Hg w Hw He Hp. rewrite (Hf w) by done. cbn [rbind]. rewrite Hg.
  - by rewrite appended_app.
  - by apply appended_fine.
  - done.
  - rewrite appended_position by done. by apply mod8_add.
Qed.

Lemma fails_bind_l f g e p err : fails f e p err → fails (λ w, let? w := f w in g w) e p err.
Proof. intros Hf w Hw He Hp. by rewrite (Hf w). Qed.

Lemma fails_bind_r f g e p bs err :
  emits f e p bs → fails g e (p + blen bs) err → fails (λ w, let? w := f w in g w) e p err.
Proof.
  intros Hf Hg w Hw He Hp. rewrite (Hf w) by done. cbn [rbind]. apply Hg; [by apply appended_fine|done|].
  rewrite appended_position by done. by apply mod8_add.
Qed.

Lemma accepts_ret {E A} e p (v : A) : accepts (λ r, @Ok E _ (v, r)) e p [] v.
Proof. intros r tail _ _ _ _. unfold forward, set_pos. destruct r. cbn. unfold blen. cbn. by rewrite N.add_0_r. Qed.

Lemma accepts_bind {E A B} (g : CdrReader → result E (A * CdrReader)) (h : A → CdrReader → result E (B * CdrReader))
    e p bs cs v u :
  accepts g e p bs v → accepts (h v) e (p + blen bs) cs u →
  accepts (λ r, let? (a, r) := g r in h a r) e p (bs ++ cs) u.
Proof.
  intros Hg Hh r tail Hr He Hp Hpeek. rewrite <-app_assoc in Hpeek. rewrite (Hg r (cs ++ tail)) by done. cbn [rbind].
  rewrite (Hh _ tail).
  - by rewrite forward_forward, blen_app.
  - by eapply forward_fine.
  - done.
  - rewrite forward_position by done. by apply mod8_add.
  - by eapply forward_peek.
Qed.

(** A last step that only computes. *)
Lemma accepts_map {E A B} (g : CdrReader → result E (A * CdrReader)) (f : A → B) e p bs v :
  accepts g e p bs v → accepts (λ r, let? (a, r) := g r in Ok (f a, r)) e p bs (f v).
Proof.
  intros Hg. rewrite <-(app_nil_r bs). apply (accepts_bind _ _ e p bs [] v (f v) Hg). apply accepts_ret.
Qed.

(** *** Primitives *)

Definition padding_at (e : Encoding) (p natural : N) : list N := zeros_of (padding_to p (align_for natural e)).

Lemma align_emits natural e p : is_alignment natural → emits (λ w, Ok (w_align natural w)) e p (padding_at e p natural).
Proof.
  intros Ha w Hw He Hp. f_equal. unfold w_align. rewrite He.
  rewrite (padding_to_mod _ p) by (done || by apply align_for_alignment). unfold padding_at.
  destruct (N.ltb_spec 0 (padding_to p (align_for natural e))).
  - unfold appended. by rewrite push_zeros_slice.
  - replace (padding_to p (align_for natural e)) with 0 by lia. by rewrite appended_nil.
Qed.

Lemma align_moves natural r p tail :
  is_alignment natural → reader_fine r → r_position r mod 8 = p mod 8 →
  peek_remaining r = padding_at (cr_encoding r) p natural ++ tail →
  r_align natural r = Ok (forward (blen (padding_at (cr_encoding r) p natural)) r).
Proof.
  intros Ha Hr Hp Hpeek. unfold r_align. rewrite (padding_to_mod _ p) by (done || by apply align_for_alignment).
  pose proof (peek_length r Hr) as Hl. rewrite Hpeek, blen_app in Hl. unfold padding_at in *. rewrite blen_zeros in *.
  destruct (N.eqb_spec (padding_to p (align_for natural (cr_encoding r))) 0) as [->|].
  - unfold forward, set_pos. destruct r. cbn. by rewrite N.add_0_r.
  - by rewrite (proj2 (N.ltb_ge _ _)) by lia.
Qed.

Lemma write_octets_emits bs e p : emits (λ w, Ok (write_octets bs w)) e p bs.
Proof. by intros w _ _ _. Qed.

Lemma slice_at_peek r bs tail :
  reader_fine r → peek_remaining r = bs ++ tail → slice_at r (blen bs) = Some bs.
Proof.
  intros Hr Hpeek. pose proof (peek_length r Hr) as Hl. rewrite Hpeek, blen_app in Hl. unfold slice_at, r_remaining in *.
  destruct Hr as (? & ? & ?). rewrite (proj2 (N.leb_le _ _)) by lia. f_equal.
  unfold peek_remaining, btake, bdrop in *.
  rewrite <-(take_drop (N.to_nat (end_ r)) (data r)) at 1. rewrite drop_app_le.
  2: { rewrite length_take. unfold blen in *. lia. }
  rewrite Hpeek. rewrite <-app_assoc. rewrite take_app_le by (unfold blen; lia).
  apply take_ge. unfold blen. lia.
Qed.

Lemma take_octets_accepts context bs e p : accepts (take_octets context (blen bs)) e p bs bs.
Proof.
  intros r tail Hr He Hp Hpeek. unfold take_octets. pose proof (peek_length r Hr) as Hl. rewrite Hpeek, blen_app in Hl.
  rewrite (proj2 (N.ltb_ge _ _)) by lia. by erewrite slice_at_peek.
Qed.

Definition uint_bytes (e : Encoding) (p : N) (k : nat) (x : N) : list N :=
  padding_at e p (N.of_nat k) ++ endian_octets (e_endianness e) k x.

Lemma write_uint_emits k x e p : is_alignment (N.of_nat k) → emits (λ w, Ok (write_uint k x w)) e p (uint_bytes e p k x).
Proof.
  intros Ha w Hw He Hp. unfold write_uint, uint_bytes.
  pose proof (align_emits (N.of_nat k) e p Ha w Hw He Hp) as Hal. injection Hal as ->. rewrite <-appended_app. cbn. by rewrite He.
Qed.

Lemma read_uint_accepts context k x e p :
  is_alignment (N.of_nat k) → x < 2 ^ (8 * N.of_nat k) → accepts (read_uint context k) e p (uint_bytes e p k x) x.
Proof.
  intros Ha Hx r tail Hr He Hp Hpeek. subst e. unfold read_uint, uint_bytes in *. rewrite <-app_assoc in Hpeek.
  rewrite (align_moves _ r p _ Ha Hr Hp Hpeek). cbn [rbind].
  rewrite <-(blen_endian (e_endianness (cr_encoding r)) k x) at 1.
  rewrite (take_octets_accepts context _ (cr_encoding r) (p + blen (padding_at (cr_encoding r) p (N.of_nat k))) _ tail).
  - cbn [rbind]. rewrite forward_forward, <-blen_app. cbn [forward set_pos cr_encoding]. by rewrite from_endian_octets.
  - by eapply forward_fine.
  - done.
  - rewrite forward_position by done. by apply mod8_add.
  - by eapply forward_peek.
Qed.

Lemma uint_bytes_len e p k x : N.of_nat k <= blen (uint_bytes e p k x).
Proof. unfold uint_bytes. rewrite blen_app, blen_endian. lia. Qed.

Lemma read_u8_accepts x e p : accepts read_u8 e p [x] x.
Proof.
  intros r tail Hr He Hp Hpeek. unfold read_u8.
  change 1 with (blen [x]). by rewrite (take_octets_accepts (lit "u8") [x] e p r tail).
Qed.

Lemma alignment_4 : is_alignment 4.
Proof. unfold is_alignment. auto. Qed.

(** *** Lengths *)

Lemma write_sequence_len_emits len e p :
  len <= u32_limit → emits (write_sequence_len len) e p (uint_bytes e p 4 len).
Proof.
  intros Hl w Hw He Hp. unfold write_sequence_len. rewrite (proj2 (N.ltb_ge _ _)) by done.
  by apply (write_uint_emits 4 len e p alignment_4).
Qed.

(** The length is read back when what follows is as long as it must be. *)
Lemma read_sequence_len_ok element_min context len e p bs tail r :
  len <= u32_limit → len * N.max element_min 1 <= blen bs →
  reader_fine r → cr_encoding r = e → r_position r mod 8 = p mod 8 → peek_remaining r = (uint_bytes e p 4 len ++ bs) ++ tail →
  read_sequence_len element_min context r = Ok (len, forward (blen (uint_bytes e p 4 len)) r).
Proof.
  intros Hl Hmin Hr He Hp Hpeek. unfold read_sequence_len.
  assert (accepts read_u32 e p (uint_bytes e p 4 len) len) as Hu.
  { apply read_uint_accepts; [apply alignment_4|]. unfold u32_limit in Hl. cbn. lia. }
  rewrite <-app_assoc in Hpeek. rewrite (Hu r (bs ++ tail)) by done. cbn [rbind].
  pose proof (forward_fine _ _ _ Hr Hpeek) as Hf. pose proof (peek_length _ Hf) as Hlen.
  rewrite (forward_peek _ _ _ Hpeek), blen_app in Hlen.
  by rewrite (proj2 (N.ltb_ge _ _)) by lia.
Qed.

(** A reader that starts with a length, whatever it does to the error. *)
Lemma read_sequence_len_bind {E B} (lift : CdrResult (N * CdrReader) → result E (N * CdrReader)) element_min context len
    (h : N → CdrReader → result E (B * CdrReader)) e p bs (v : B) :
  (∀ a, lift (Ok a) = Ok a) → len <= u32_limit → len * N.max element_min 1 <= blen bs →
  accepts (h len) e (p + blen (uint_bytes e p 4 len)) bs v →
  accepts (λ r, let? (n, r) := lift (read_sequence_len element_min context r) in h n r) e p (uint_bytes e p 4 len ++ bs) v.
Proof.
  intros Hlift Hl Hmin Hh r tail Hr He Hp Hpeek.
  rewrite (read_sequence_len_ok element_min context len e p bs tail r) by done. rewrite Hlift. cbn [rbind].
  rewrite <-app_assoc in Hpeek. rewrite (Hh _ tail).
  - by rewrite forward_forward, blen_app.
  - by eapply forward_fine.
  - done.
  - rewrite forward_position by done. by apply mod8_add.
  - by eapply forward_peek.
Qed.

(** *** Delimited scopes *)

Lemma btake_app_exact l k : btake (blen l) (l ++ k) = l.
Proof. unfold btake, blen. rewrite Nat2N.id. apply take_app_length. Qed.

Lemma bdrop_app_exact l k : bdrop (blen l) (l ++ k) = k.
Proof. unfold bdrop, blen. rewrite Nat2N.id. apply drop_app_length. Qed.

(** Filling in what was left blank. *)
Lemma patch_push s bs cs ds :
  blen bs = blen cs → patch (sink_len s) cs (push_slice (bs ++ ds) s) = push_slice (cs ++ ds) s.
Proof.
  intros Hl. destruct s as [b|n]; cbn.
  - rewrite blen_app, blen_app. rewrite (proj2 (N.leb_le _ _)) by lia. f_equal.
    rewrite btake_app_exact. f_equal. f_equal. replace (blen b + blen cs) with (blen (b ++ bs)) by (rewrite blen_app; lia).
    rewrite (app_assoc b bs ds). apply bdrop_app_exact.
  - rewrite !blen_app. f_equal. lia.
Qed.

Lemma w_delimited_emits body e p bs :
  let start := p + blen (padding_at e p 4) + 4 in
  emits body e start bs → blen bs <= u32_limit → emits (w_delimited body) e p (uint_bytes e p 4 (blen bs) ++ bs).
Proof.
  intros start Hb Hl w Hw He Hp. unfold w_delimited.
  pose proof (align_emits 4 e p alignment_4 w Hw He Hp) as Hal. injection Hal as ->.
  set (w1 := appended (padding_at e p 4) w). assert (writer_fine w1) as Hw1 by by apply appended_fine.
  rewrite push_zeros_slice. change (set_sink (push_slice (zeros_of DHEADER_LEN) (sink w1)) w1) with (appended (zeros_of DHEADER_LEN) w1).
  rewrite (Hb (appended (zeros_of DHEADER_LEN) w1)).
  - cbn [rbind]. rewrite appended_app. cbn [appended set_sink sink cw_encoding]. rewrite !sink_len_push, blen_app.
    replace (sink_len (sink w1) + (blen (zeros_of DHEADER_LEN) + blen bs) - (sink_len (sink w1) + blen (zeros_of DHEADER_LEN)))
      with (blen bs) by lia.
    rewrite (proj2 (N.ltb_ge _ _)) by done. rewrite patch_push by (rewrite blen_endian; done).
    unfold w1, uint_bytes, appended, set_sink. cbn [sink cw_encoding cw_origin header_at].
    by rewrite push_slice_app, <-app_assoc, He.
  - by apply appended_fine.
  - done.
  - rewrite appended_position by done. unfold w1. rewrite appended_position by done. unfold start.
    change (blen (zeros_of DHEADER_LEN)) with 4. by apply mod8_add, mod8_add.
Qed.

Lemma w_delimited_fails body e p err :
  fails body e (p + blen (padding_at e p 4) + 4) err → fails (w_delimited body) e p err.
Proof.
  intros Hb w Hw He Hp. unfold w_delimited.
  pose proof (align_emits 4 e p alignment_4 w Hw He Hp) as Hal. injection Hal as ->.
  rewrite push_zeros_slice. match goal with |- context [body ?x] => rewrite (Hb x) end; [done|..|done|].
  - by apply (appended_fine (zeros_of DHEADER_LEN)), appended_fine.
  - change (set_sink (push_slice ?z (sink ?w1)) ?w1) with (appended z w1).
    rewrite !appended_position by (done || by apply appended_fine). by apply mod8_add, mod8_add.
Qed.

Lemma w_delimited_overflow body e p bs :
  emits body e (p + blen (padding_at e p 4) + 4) bs → u32_limit < blen bs →
  fails (w_delimited body) e p (SizeOverflow (lit "writing a DHEADER")).
Proof.
  intros Hb Hl w Hw He Hp. unfold w_delimited.
  pose proof (align_emits 4 e p alignment_4 w Hw He Hp) as Hal. injection Hal as ->.
  rewrite push_zeros_slice. match goal with |- context [body ?x] => rewrite (Hb x) end.
  - cbn [rbind]. cbn [appended set_sink sink cw_encoding]. rewrite !sink_len_push.
    by rewrite (proj2 (N.ltb_lt _ _)) by lia.
  - by apply (appended_fine (zeros_of DHEADER_LEN)), appended_fine.
  - done.
  - change (set_sink (push_slice ?z (sink ?w1)) ?w1) with (appended z w1).
    rewrite !appended_position by (done || by apply appended_fine). by apply mod8_add, mod8_add.
Qed.

(** The body may stop short of the end of its scope. *)
Lemma r_delimited_accepts {A} (body : CdrReader → CdrResult (A * CdrReader)) e p bs unread v :
  is_v2 e = true → accepts body e (p + blen (padding_at e p 4) + 4) bs v → blen (bs ++ unread) <= u32_limit →
  accepts (r_delimited body) e p (uint_bytes e p 4 (blen (bs ++ unread)) ++ bs ++ unread) v.
Proof.
  set (all := bs ++ unread). intros He2 Hb Hl r tail Hr He Hp Hpeek. rewrite <-app_assoc in Hpeek. unfold r_delimited, read_dheader. rewrite He, He2. cbn [negb].
  assert (accepts read_u32 e p (uint_bytes e p 4 (blen all)) (blen all)) as Hu.
  { apply read_uint_accepts; [apply alignment_4|]. unfold u32_limit in Hl. cbn. lia. }
  rewrite (Hu r (all ++ tail)) by done. cbn [rbind]. set (n := blen (uint_bytes e p 4 (blen all))).
  pose proof (forward_fine _ _ _ Hr Hpeek) as Hf. pose proof (forward_peek _ _ _ Hpeek) as Hp2. fold n in Hf, Hp2.
  pose proof (peek_length _ Hf) as Hlen. rewrite Hp2, blen_app in Hlen.
  rewrite (proj2 (N.ltb_ge _ _)) by lia. cbn [rbind].
  set (inner := set_end (pos (forward n r) + blen all) (forward n r)).
  assert (peek_remaining inner = all) as Hpeek_in.
  { unfold inner, peek_remaining in *. cbn [set_end pos end_ data] in *.
    set (q := pos (forward n r)) in *. set (d := data (forward n r)) in *.
    assert (btake (q + blen all) d = btake q d ++ all) as ->.
    { unfold btake, bdrop in *. replace (N.to_nat (q + blen all)) with (N.to_nat q + length all)%nat by (unfold blen; lia).
      destruct Hf as (_ & Hq & He2'). fold q d in Hq, He2'. unfold r_remaining in Hlen. fold q in Hlen.
      rewrite <-take_take_drop. f_equal.
      apply (f_equal (take (length all))) in Hp2. rewrite take_app_length in Hp2. etrans; [|exact Hp2].
      rewrite !take_drop_commute, take_take. f_equal. f_equal. unfold blen in *. lia. }
    unfold bdrop, btake. destruct Hf as (_ & Hq & He2'). fold q d in Hq, He2'.
    replace (N.to_nat q) with (length (take (N.to_nat q) d)) at 1 by (rewrite length_take; unfold blen in *; lia).
    apply drop_app_length. }
  rewrite (Hb inner unread).
  - cbn [rbind]. f_equal. f_equal. unfold inner, forward, set_pos, set_end. cbn. f_equal. unfold n. rewrite blen_app. lia.
  - unfold inner. destruct Hf as (H1 & H2 & H3). unfold r_remaining in Hlen. split_and!; cbn in *; lia.
  - done.
  - change (r_position inner) with (r_position (forward n r)). rewrite forward_position by done. unfold n, uint_bytes.
    rewrite blen_app, blen_endian. change (N.of_nat 4) with 4. rewrite !N.add_assoc. by apply mod8_add, mod8_add.
  - done.
Qed.

(** ** The law of a type on the wire *)

(** Wherever it stands, a valid value is written as octets it can be read
    from, no fewer than announced, or refused by the writer. *)
Class Lawful {A} (c : CdrSerde A) (valid : A → Prop) : Prop :=
  lawful e p v : valid v →
    (∃ bs, emits (serialize c v) e p bs ∧ accepts (deserialize c) e p bs v ∧ MIN_SERIALIZED_SIZE c <= blen bs) ∨
    (∃ err, fails (serialize c v) e p err).

Definition fits_in (bits : N) (x : N) : Prop := x < 2 ^ bits.
Definition signed_in (bits : N) (z : Z) : Prop := (- 2 ^ Z.of_N (bits - 1) <= z < 2 ^ Z.of_N (bits - 1))%Z.

#[global] Instance u8_lawful : Lawful u8_serde (fits_in 8).
Proof.
  intros e p x Hx. left. exists [x]. split_and!; [apply write_octets_emits|apply read_u8_accepts|done].
Qed.

#[global] Instance bool_lawful : Lawful bool_serde (λ _, True).
Proof.
  intros e p b _. left. exists [if b then 1 else 0]. split_and!; [apply write_octets_emits| |done].
  intros r tail Hr He Hp Hpeek. cbn. unfold read_bool. rewrite (read_u8_accepts _ e p r tail) by done. by destruct b.
Qed.

Lemma uint_lawful k context : is_alignment (N.of_nat k) → Lawful (uint_serde k context) (fits_in (8 * N.of_nat k)).
Proof.
  intros Ha e p x Hx. left. exists (uint_bytes e p k x).
  split_and!; [by apply write_uint_emits|by apply read_uint_accepts|apply uint_bytes_len].
Qed.

#[global] Instance u16_lawful : Lawful u16_serde (fits_in 16).
Proof. apply (uint_lawful 2). unfold is_alignment. auto. Qed.
#[global] Instance u32_lawful : Lawful u32_serde (fits_in 32).
Proof. apply (uint_lawful 4). unfold is_alignment. auto. Qed.
#[global] Instance u64_lawful : Lawful u64_serde (fits_in 64).
Proof. apply (uint_lawful 8). unfold is_alignment. auto. Qed.

Lemma signed_lawful bits c : 0 < bits → Lawful c (fits_in bits) → Lawful (signed_serde bits c) (signed_in bits).
Proof.
  intros Hb Hc e p z Hz. destruct (Hc e p (to_unsigned bits z)) as [(bs & H1 & H2 & H3)|[err H]]; [apply to_unsigned_bound| |right; by exists err].
  left. exists bs. split_and!; [done| |done]. cbn [signed_serde deserialize].
  rewrite <-(to_signed_unsigned bits z) by done. by apply accepts_map.
Qed.

#[global] Instance i8_lawful : Lawful i8_serde (signed_in 8).
Proof. by apply signed_lawful; [|apply u8_lawful]. Qed.
#[global] Instance i16_lawful : Lawful i16_serde (signed_in 16).
Proof. by apply signed_lawful; [|apply u16_lawful]. Qed.
#[global] Instance i32_lawful : Lawful i32_serde (signed_in 32).
Proof. by apply signed_lawful; [|apply u32_lawful]. Qed.
#[global] Instance i64_lawful : Lawful i64_serde (signed_in 64).
Proof. by apply signed_lawful; [|apply u64_lawful]. Qed.

(** *** Sequences and arrays *)

(** The items one after the other. *)
Lemma items_lawful {A} (c : CdrSerde A) valid `{!Lawful c valid} e p items :
  Forall valid items →
  (∃ bs, emits (write_items c items) e p bs ∧ accepts (read_items c (length items)) e p bs items ∧
         N.of_nat (length items) * MIN_SERIALIZED_SIZE c <= blen bs) ∨
  (∃ err, fails (write_items c items) e p err).
Proof.
  intros Hall. revert p. induction Hall as [|x items Hx Hall IH]; intros p; cbn [write_items read_items length].
  { left. exists []. split_and!; [apply emits_ret|apply accepts_ret|cbn; lia]. }
  destruct (lawful e p x Hx) as [(bs & E1 & A1 & M1)|[err F1]]; [|right; exists err; by apply fails_bind_l].
  destruct (IH (p + blen bs)) as [(cs & E2 & A2 & M2)|[err F2]]; [|right; exists err; by eapply fails_bind_r].
  left. exists (bs ++ cs). split_and!.
  - by apply emits_bind.
  - eapply (accepts_bind (deserialize c) _ e p bs cs); [exact A1|]. by apply accepts_map.
  - rewrite blen_app. nia.
Qed.

(** The law for a reader and a writer that may be put in a delimited scope. *)
Lemma scope_lawful {B} (wr : CdrWriter → CdrResult CdrWriter) (rd : CdrReader → CdrResult (B * CdrReader)) (v : B) (m : N) e p scoped :
  (scoped = true → is_v2 e = true) →
  (∀ q, (∃ bs, emits wr e q bs ∧ accepts rd e q bs v ∧ m <= blen bs) ∨ (∃ err, fails wr e q err)) →
  (∃ bs, emits (if scoped : bool then w_delimited wr else wr) e p bs ∧
         accepts (if scoped : bool then r_delimited rd else rd) e p bs v ∧ m <= blen bs) ∨
  (∃ err, fails (if scoped : bool then w_delimited wr else wr) e p err).
Proof.
  intros Hv2 H. destruct scoped; [|apply H].
  destruct (H (p + blen (padding_at e p 4) + 4)) as [(bs & E1 & A1 & M1)|[err F1]]; [|right; exists err; by apply w_delimited_fails].
  destruct (N.leb_spec (blen bs) u32_limit).
  - left. eexists. split_and!; [by apply w_delimited_emits| |rewrite blen_app; lia].
    rewrite <-(app_nil_r bs). apply r_delimited_accepts; [by auto|done|by rewrite app_nil_r].
  - right. eexists. by eapply w_delimited_overflow.
Qed.

Lemma emits_ext f g e p bs : (∀ w, cw_encoding w = e → f w = g w) → emits g e p bs → emits f e p bs.
Proof. intros H Hg w Hw He Hp. rewrite H by done. auto. Qed.

Lemma fails_ext f g e p err : (∀ w, cw_encoding w = e → f w = g w) → fails g e p err → fails f e p err.
Proof. intros H Hg w Hw He Hp. rewrite H by done. auto. Qed.

Lemma accepts_ext {E A} (f g : CdrReader → result E (A * CdrReader)) e p bs v :
  (∀ r, cr_encoding r = e → f r = g r) → accepts g e p bs v → accepts f e p bs v.
Proof. intros H Hg r tail Hr He Hp Hpeek. rewrite H by done. eauto. Qed.

(** A choice on the encoding is made once for the whole stream. *)
Lemma choice_lawful {B} (flag : bool) wr (rd : CdrReader → CdrResult (B * CdrReader)) v m e p :
  (∀ q, (∃ bs, emits wr e q bs ∧ accepts rd e q bs v ∧ m <= blen bs) ∨ (∃ err, fails wr e q err)) →
  (∃ bs, emits (λ w, if is_v2 (cw_encoding w) && flag then w_delimited wr w else wr w) e p bs ∧
         accepts (λ r, if is_v2 (cr_encoding r) && flag then r_delimited rd r else rd r) e p bs v ∧ m <= blen bs) ∨
  (∃ err, fails (λ w, if is_v2 (cw_encoding w) && flag then w_delimited wr w else wr w) e p err).
Proof.
  intros H. destruct (scope_lawful wr rd v m e p (is_v2 e && flag)) as [(bs & E1 & A1 & M1)|[err F1]].
  - by intros [? _]%andb_true_iff.
  - done.
  - left. exists bs. split_and!; [|by eapply accepts_ext; [|exact A1]; intros r ->; destruct (_ && _)|done].
    eapply emits_ext; [|exact E1]. intros w ->. by destruct (_ && _).
  - right. exists err. eapply fails_ext; [|exact F1]. intros w ->. by destruct (_ && _).
Qed.

(** A sequence of elements of at least one octet; [h] reads the elements
    once their number is known. *)
Lemma sequence_lawful {A} (c : CdrSerde A) valid `{!Lawful c valid} context h e p items :
  1 <= MIN_SERIALIZED_SIZE c → Forall valid items → (∀ r, h (blen items) r = read_items c (length items) r) →
  let rd := λ r, let? (count, r) := read_sequence_len (MIN_SERIALIZED_SIZE c) context r in h count r in
  (∃ bs, emits (write_collection c (write_sequence_body c items)) e p bs ∧ accepts (read_collection c rd) e p bs items ∧ 4 <= blen bs) ∨
  (∃ err, fails (write_collection c (write_sequence_body c items)) e p err).
Proof.
  intros Hm Hall Hh rd.
  apply (choice_lawful (negb (IS_PRIMITIVE c)) (write_sequence_body c items) rd items 4 e p).
  intros q. unfold write_sequence_body, rd.
  destruct (N.leb_spec (blen items) u32_limit) as [Hl|Hl].
  2: { right. eexists. apply fails_bind_l. intros w _ _ _. unfold write_sequence_len. by rewrite (proj2 (N.ltb_lt _ _)) by done. }
  destruct (items_lawful c valid e (q + blen (uint_bytes e q 4 (blen items))) items Hall) as [(bs & E1 & A1 & M1)|[err F1]].
  - left. exists (uint_bytes e q 4 (blen items) ++ bs). split_and!.
    + apply emits_bind; [by apply write_sequence_len_emits|done].
    + apply (read_sequence_len_bind (λ x, x)); [done|done| |].
      * rewrite N.max_l by done. done.
      * by eapply accepts_ext; [|exact A1].
    + pose proof (uint_bytes_len e q 4 (blen items)). rewrite blen_app. lia.
  - right. exists err. eapply fails_bind_r; [by apply write_sequence_len_emits|done].
Qed.

Lemma min_size_pos {A} (c : CdrSerde A) : TCEq (N.leb 1 (MIN_SERIALIZED_SIZE c)) true → 1 <= MIN_SERIALIZED_SIZE c.
Proof. intros H. apply N.leb_le. by inversion H. Qed.

#[global] Instance vec_lawful {A} (c : CdrSerde A) valid `{!Lawful c valid} :
  TCEq (N.leb 1 (MIN_SERIALIZED_SIZE c)) true → Lawful (vec_serde c) (Forall valid).
Proof.
  intros Hmin e p items Hall. apply (sequence_lawful c valid); [by apply min_size_pos|done|].
  intros r. unfold blen. by rewrite Nat2N.id.
Qed.

#[global] Instance array_lawful {A} n (c : CdrSerde A) valid `{!Lawful c valid} :
  Lawful (array_serde n c) (λ items, length items = n ∧ Forall valid items).
Proof.
  intros e p items [Hn Hall].
  apply (choice_lawful (negb (IS_PRIMITIVE c)) (write_items c items) (read_items c n) items
           (N.min (N.of_nat n * MIN_SERIALIZED_SIZE c) u64_max) e p).
  intros q. destruct (items_lawful c valid e q items Hall) as [(bs & E1 & A1 & M1)|?]; [left|by right].
  exists bs. rewrite <-Hn. split_and!; [done|done|lia].
Qed.

(** *** Strings *)

Lemma from_utf8_as_bytes s : Forall is_scalar s → from_utf8 (as_bytes s) = Some s.
Proof. intros H. unfold from_utf8. by rewrite lossy_as_bytes, bool_decide_true by done. Qed.

(** What [read_str] makes of the octets behind the length. *)
Lemma read_body_accepts s e p :
  Forall is_scalar s → nul_position (as_bytes s) = None →
  accepts (λ r, let? (raw, r) := read_octets (blen (as_bytes s) + 1) r in
    match last raw with
    | Some 0 =>
        match nul_position (removelast raw) with
        | Some index => Err (InteriorNul index)
        | None => match from_utf8 (removelast raw) with Some s => Ok (s, r) | None => Err InvalidUtf8 end
        end
    | _ => Err MissingNulTerminator
    end) e p (as_bytes s ++ [0]) s.
Proof.
  intros Hs Hn. rewrite <-(app_nil_r (as_bytes s ++ [0])).
  replace (blen (as_bytes s) + 1) with (blen (as_bytes s ++ [0])) by (rewrite blen_app; done).
  eapply (accepts_bind (read_octets _) _ e p (as_bytes s ++ [0]) [] (as_bytes s ++ [0])); [apply take_octets_accepts|].
  rewrite last_snoc, removelast_last, Hn, from_utf8_as_bytes by done. apply accepts_ret.
Qed.

#[global] Instance string_lawful : Lawful string_serde (Forall is_scalar).
Proof.
  intros e p s Hs. cbn [string_serde serialize deserialize MIN_SERIALIZED_SIZE]. unfold write_str, read_str.
  destruct (nul_position (as_bytes s)) as [i|] eqn:Hn; [right; by exists (InteriorNul i)|].
  destruct (N.leb_spec (blen (as_bytes s) + 1) u32_limit) as [Hl|Hl].
  2: { right. eexists. apply fails_bind_l. intros w _ _ _. unfold write_sequence_len. by rewrite (proj2 (N.ltb_lt _ _)) by done. }
  left. set (len := blen (as_bytes s) + 1) in *. exists (uint_bytes e p 4 len ++ as_bytes s ++ [0]). split_and!.
  - apply emits_bind; [by apply write_sequence_len_emits|]. intros w _ _ _. f_equal.
    change (appended [0] (appended (as_bytes s) w) = appended (as_bytes s ++ [0]) w). apply appended_app.
  - apply (read_sequence_len_bind (λ x, x) 1 _ len (λ len r, if N.eqb len 0 then _ else _)); [done|done|rewrite blen_app; change (blen [0]) with 1; lia|].
    rewrite (proj2 (N.eqb_neq len 0)) by lia. by apply read_body_accepts.
  - pose proof (uint_bytes_len e p 4 len). rewrite !blen_app. change (blen [0]) with 1. lia.
Qed.

(** A unit is written and read in the width of the encoding. *)
Definition wchar_bytes (e : Encoding) (p x : N) : list N :=
  match e_wchar_width e with Two => uint_bytes e p 2 x | Four => uint_bytes e p 4 x end.

Lemma units_lawful e units : Forall (fits_in 16) units → ∀ p index, ∃ bs,
  emits (λ w, Ok (foldl (λ w unit, write_wchar unit w) w units)) e p bs ∧
  accepts (read_units (length units) index) e p bs units ∧ blen units * wchar_octets (e_wchar_width e) <= blen bs.
Proof.
  induction 1 as [|x units Hx Hall IH]; intros p index; cbn [foldl length read_units].
  { exists []. split_and!; [apply emits_ret|apply accepts_ret|done]. }
  destruct (IH (p + blen (wchar_bytes e p x)) (index + 1)) as (bs & E1 & A1 & M1).
  assert (emits (λ w, Ok (write_wchar x w)) e p (wchar_bytes e p x)) as Ex.
  { intros w Hw He Hp. unfold write_wchar, wchar_bytes. rewrite He.
    destruct (e_wchar_width e); apply (write_uint_emits _ x e p); unfold is_alignment; auto. }
  exists (wchar_bytes e p x ++ bs). split_and!.
  - exact (emits_bind _ _ e p _ bs Ex E1).
  - eapply accepts_bind; [|by apply accepts_map].
    unfold fits_in in Hx. unfold wchar_bytes. intros r tail Hr He. rewrite He. revert r tail Hr He. destruct (e_wchar_width e).
    + apply read_uint_accepts; [unfold is_alignment; auto|done].
    + rewrite <-(app_nil_r (uint_bytes e p 4 x)). eapply accepts_bind; [apply (read_uint_accepts _ _ x); [apply alignment_4|]|].
      * etrans; [exact Hx|done].
      * change (2 ^ 16) with 65536 in Hx. rewrite (proj2 (N.ltb_ge _ _)) by lia. apply accepts_ret.
  - rewrite blen_app. unfold blen in *. cbn [length]. rewrite Nat2N.inj_succ, N.mul_succ_l.
    enough (wchar_octets (e_wchar_width e) <= N.of_nat (length (wchar_bytes e p x))) by lia.
    unfold wchar_bytes. destruct (e_wchar_width e); [apply (uint_bytes_len e p 2)|apply (uint_bytes_len e p 4)].
Qed.

#[global] Instance wstring_lawful : Lawful wstring_serde (Forall (fits_in 16)).
Proof.
  intros e p units Hall. cbn [wstring_serde serialize deserialize MIN_SERIALIZED_SIZE]. unfold write_wstr, read_wstring.
  destruct (N.leb_spec (blen units) u32_limit) as [Hl|Hl].
  2: { right. eexists. apply fails_bind_l. intros w _ _ _. unfold write_sequence_len. by rewrite (proj2 (N.ltb_lt _ _)) by done. }
  destruct (units_lawful e units Hall (p + blen (uint_bytes e p 4 (blen units))) 0) as (bs & E1 & A1 & M1).
  left. exists (uint_bytes e p 4 (blen units) ++ bs). split_and!.
  - apply emits_bind; [by apply write_sequence_len_emits|done].
  - intros r tail Hr He. rewrite He. revert r tail Hr He. apply (read_sequence_len_bind (λ x, x)); [done|done| |].
    + destruct (e_wchar_width e); cbn [wchar_octets] in *; lia.
    + unfold blen at 1. by rewrite Nat2N.id.
  - pose proof (uint_bytes_len e p 4 (blen units)). rewrite blen_app. lia.
Qed.

(** *** Enumerations and bounded types *)

#[global] Instance enum_lawful {A} (en : CdrEnum A) min :
  TCEq (N.leb (8 * min) (BIT_BOUND en)) true →
  Lawful (enum_serde en min) (λ v, from_discriminant en (discriminant en v) = Ok v ∧ fits_in 32 (discriminant en v)).
Proof.
  intros Hmin e p v [Hv Hd]. assert (8 * min <= BIT_BOUND en) as Hm by (apply N.leb_le; by inversion Hmin). clear Hmin.
  cbn [enum_serde serialize deserialize MIN_SERIALIZED_SIZE]. unfold check_bit_bound. set (d := discriminant en v) in *.
  assert (∀ (rd : CdrReader → CdrResult (N * CdrReader)) bs, accepts rd e p bs d →
    accepts (λ r, let? (x, r) := rd r in let? u := from_discriminant en x in Ok (u, r)) e p bs v) as Hread.
  { intros rd bs H. rewrite <-(app_nil_r bs). eapply accepts_bind; [exact H|]. rewrite Hv. apply accepts_ret. }
  destruct (N.eqb_spec (BIT_BOUND en) 8) as [E|]; [|destruct (N.eqb_spec (BIT_BOUND en) 16) as [E|]; [|destruct (N.eqb_spec (BIT_BOUND en) 32) as [E|]]].
  - destruct (N.leb_spec d 0xFF); [|right; by eexists]. left. exists [d]. cbn [rbind].
    rewrite (proj2 (N.ltb_ge _ _)) by done. split_and!; [apply write_octets_emits| |change (blen [d]) with 1; lia].
    apply Hread, read_u8_accepts.
  - destruct (N.leb_spec d 0xFFFF); [|right; by eexists]. left. exists (uint_bytes e p 2 d). cbn [rbind].
    rewrite (proj2 (N.ltb_ge _ _)) by done. pose proof (uint_bytes_len e p 2 d). split_and!; [| |lia].
    + apply write_uint_emits. unfold is_alignment. auto.
    + apply Hread, read_uint_accepts; [unfold is_alignment; auto|change (2 ^ (8 * N.of_nat 2)) with 65536; lia].
  - left. exists (uint_bytes e p 4 d). cbn [rbind]. pose proof (uint_bytes_len e p 4 d). split_and!; [| |lia].
    + apply write_uint_emits, alignment_4.
    + apply Hread, read_uint_accepts; [apply alignment_4|done].
  - right. by eexists.
Qed.

(** A bound refused by the writer is never seen by the reader. *)
Lemma bounded_lawful {A} (c d : CdrSerde A) valid (size : A → N) n context :
  Lawful c valid → MIN_SERIALIZED_SIZE d = MIN_SERIALIZED_SIZE c →
  (∀ v w, serialize d v w = let? _ := check_bound (size v) n context in serialize c v w) →
  (∀ e p bs v, size v <= n → accepts (deserialize c) e p bs v → accepts (deserialize d) e p bs v) →
  Lawful d valid.
Proof.
  intros Hc Hmin Hser Hde e p v Hv. destruct (N.leb_spec (size v) n) as [Hn|Hn].
  - destruct (lawful e p v Hv) as [(bs & E1 & A1 & M1)|[err F1]]; [left; exists bs|right; exists err].
    + split_and!; [|by apply Hde|by rewrite Hmin]. intros w Hw He Hp. rewrite Hser. unfold check_bound.
      rewrite (proj2 (N.ltb_ge _ _)) by done. by apply E1.
    + intros w Hw He Hp. rewrite Hser. unfold check_bound. rewrite (proj2 (N.ltb_ge _ _)) by done. by apply F1.
  - right. eexists. intros w _ _ _. rewrite Hser. unfold check_bound. by rewrite (proj2 (N.ltb_lt _ _)) by done.
Qed.

(** A reader that checks the value it read. *)
Lemma checked_accepts {A} (rd : CdrReader → CdrResult (A * CdrReader)) (size : A → N) n context e p bs v :
  size v <= n → accepts rd e p bs v →
  accepts (λ r, let? (a, r) := rd r in let? _ := check_bound (size a) n context in Ok (a, r)) e p bs v.
Proof.
  intros Hn H. rewrite <-(app_nil_r bs). eapply accepts_bind; [exact H|]. unfold check_bound.
  rewrite (proj2 (N.ltb_ge _ _)) by done. apply accepts_ret.
Qed.

#[global] Instance bounded_string_lawful n : Lawful (bounded_string_serde n) (Forall is_scalar).
Proof.
  eapply (bounded_lawful string_serde _ _ (λ s, blen (as_bytes s))); [apply _|done|done|].
  intros e p bs v Hn. by apply (checked_accepts read_str (λ s, blen (as_bytes s))).
Qed.

#[global] Instance bounded_wstring_lawful n : Lawful (bounded_wstring_serde n) (Forall (fits_in 16)).
Proof.
  eapply (bounded_lawful wstring_serde _ _ blen); [apply _|done|done|].
  intros e p bs v Hn. by apply (checked_accepts read_wstring blen).
Qed.

#[global] Instance bounded_sequence_lawful {A} n (c : CdrSerde A) valid `{!Lawful c valid} :
  TCEq (N.leb 1 (MIN_SERIALIZED_SIZE c)) true → Lawful (bounded_sequence_serde n c) (Forall valid).
Proof.
  intros Hmin e p items Hall. cbn [bounded_sequence_serde serialize deserialize MIN_SERIALIZED_SIZE]. unfold check_bound.
  destruct (N.leb_spec (blen items) n) as [Hn|Hn].
  2: { right. eexists. intros w _ _ _. by rewrite (proj2 (N.ltb_lt _ _)) by done. }
  rewrite (proj2 (N.ltb_ge _ _)) by done. cbn [rbind].
  apply (sequence_lawful c valid (lit "sequence<T, N>") (λ count r, let? _ := check_bound count n (lit "sequence<T, N>") in _));
    [by apply min_size_pos|done|].
  intros r. unfold check_bound. rewrite (proj2 (N.ltb_ge _ _)) by done. cbn [rbind]. unfold blen. by rewrite Nat2N.id.
Qed.

(** *** Structs *)

#[global] Instance no_fields_lawful : Lawful no_fields (λ _, True).
Proof. intros e p [] _. left. exists []. split_and!; [apply emits_ret|apply accepts_ret|done]. Qed.

#[global] Instance field_lawful {A B} (c : CdrSerde A) (d : CdrSerde B) va vb `{!Lawful c va} `{!Lawful d vb} :
  Lawful (field c d) (λ v, va v.1 ∧ vb v.2).
Proof.
  intros e p [a b] [Ha Hb]. cbn [field serialize deserialize MIN_SERIALIZED_SIZE fst snd].
  destruct (lawful e p a Ha) as [(bs & E1 & A1 & M1)|[err F1]]; [|right; exists err; by apply fails_bind_l].
  destruct (lawful e (p + blen bs) b Hb) as [(cs & E2 & A2 & M2)|[err F2]]; [|right; exists err; by eapply fails_bind_r].
  left. exists (bs ++ cs). split_and!.
  - by apply emits_bind.
  - eapply (accepts_bind (deserialize c) (λ a r, let? (b, r) := deserialize d r in Ok ((a, b), r)) e p bs cs); [exact A1|].
    by apply (accepts_map _ (pair a)).
  - rewrite blen_app. lia.
Qed.

#[global] Instance struct_lawful {A} x (c : CdrSerde A) valid `{!Lawful c valid} : Lawful (cdr_struct x c) valid.
Proof. intros e p v Hv. apply (choice_lawful (has_dheader x) (serialize c v) (deserialize c) v (MIN_SERIALIZED_SIZE c)). intros q. exact (lawful e q v Hv). Qed.

(** ** Whole values *)

Lemma kind_of_identifier k : from_identifier (identifier k) = Ok k.
Proof. by destruct k. Qed.

Lemma header_read k options rest :
  options < 2 ^ 16 → header_from_bytes (header_to_bytes k options ++ rest) = Ok (k, options).
Proof.
  intros Ho. unfold header_from_bytes, header_to_bytes.
  pose proof (from_endian_octets Big 2 (identifier k) ltac:(by destruct k)) as Hk.
  pose proof (from_endian_octets Big 2 options Ho) as Hopt.
  pose proof (blen_endian Big 2 (identifier k)) as L1. pose proof (blen_endian Big 2 options) as L2.
  cbn [from_endian endian_octets] in *. unfold blen in L1, L2.
  destruct (to_be_bytes 2 (identifier k)) as [|i0 [|i1 [|]]]; try (cbn in L1; lia).
  destruct (to_be_bytes 2 options) as [|o0 [|o1 [|]]]; try (cbn in L2; lia).
  cbn [app]. by rewrite Hk, Hopt, kind_of_identifier.
Qed.

Lemma blen_header k options : blen (header_to_bytes k options) = 4.
Proof. unfold header_to_bytes. rewrite blen_app. by rewrite !(blen_endian Big 2). Qed.

(** What a reader of a whole stream starts from: the octets up to the padding the options announce. *)
Lemma reader_starts k options bs pad :
  options < 2 ^ 16 → options_padding options <= blen pad →
  ∃ r, cdr_reader_new (header_to_bytes k options ++ bs ++ pad) = Ok r ∧ reader_fine r ∧ cr_encoding r = encoding_new k ∧
    r_position r = 0 ∧ r_remaining r = blen bs + (blen pad - options_padding options) ∧
    ∃ tail, peek_remaining r = bs ++ tail.
Proof.
  intros Ho Hp. unfold cdr_reader_new. rewrite header_read by done. cbn [rbind].
  rewrite !blen_app, blen_header. unfold ENCAPSULATION_HEADER_LEN. rewrite (proj2 (N.ltb_ge _ _)) by lia.
  eexists. split; [done|]. unfold reader_fine, r_position, r_remaining. cbn [data pos cr_origin end_ cr_encoding].
  rewrite !blen_app, blen_header. split_and!; try lia; [done|].
  exists (take (N.to_nat (blen pad - options_padding options)) pad).
  unfold peek_remaining, btake, bdrop. cbn [data end_ pos].
  assert (length (header_to_bytes k options) = 4%nat) as Hh by (pose proof (blen_header k options); unfold blen in *; lia).
  unfold blen in Hp |- *. rewrite take_app_ge by lia. rewrite Hh. change (N.to_nat 4) with 4%nat. rewrite <-Hh at 1. rewrite drop_app_length.
  rewrite take_app_ge by lia. f_equal. f_equal. lia.
Qed.

(** The writer's result on a whole stream, buffered or counted. *)
Lemma writer_starts {A} (c : CdrSerde A) valid `{!Lawful c valid} v e :
  valid v →
  (∃ bs, serialize c v (cdr_writer_new e) = Ok (appended bs (cdr_writer_new e)) ∧
         serialize c v (measuring e true) = Ok (appended bs (measuring e true)) ∧ accepts (deserialize c) e 0 bs v) ∨
  (∃ err, serialize c v (cdr_writer_new e) = Err err ∧ serialize c v (measuring e true) = Err err).
Proof.
  intros Hv. destruct (lawful e 0 v Hv) as [(bs & E1 & A1 & _)|[err F1]].
  - left. exists bs. split_and!; [apply E1|apply E1|done]; unfold writer_fine, w_position; by destruct e as [[] ?].
  - right. exists err. split; apply F1; unfold writer_fine, w_position; by destruct e as [[] ?].
Qed.

Lemma new_sink e : sink (cdr_writer_new e) = Buffer (header_to_bytes (e_kind e) 0).
Proof. done. Qed.
Lemma new_position bs e : w_position (appended bs (cdr_writer_new e)) = blen bs.
Proof. rewrite appended_position; unfold writer_fine, w_position; by destruct e as [[] ?]. Qed.

Lemma read_back {A} (c : CdrSerde A) k options bs pad v :
  options < 2 ^ 16 → options_padding options <= blen pad → accepts (deserialize c) (encoding_new k) 0 bs v →
  let rest := blen pad - options_padding options in
  from_bytes c (header_to_bytes k options ++ bs ++ pad) = (if N.eqb rest 0 then Ok v else Err (TrailingBytes rest)) ∧
  from_bytes_tolerant c (header_to_bytes k options ++ bs ++ pad) = (if N.leb rest 3 then Ok v else Err (TrailingBytes rest)).
Proof.
  intros Ho Hp Ha rest. destruct (reader_starts k options bs pad Ho Hp) as (r & Hr & Hf & He & Hpos & Hrem & tail & Hpeek).
  unfold from_bytes, from_bytes_tolerant. rewrite Hr. cbn [rbind].
  rewrite (Ha r tail) by (done || by rewrite Hpos). cbn [rbind].
  assert (r_remaining (forward (blen bs) r) = rest) as Hrest.
  { unfold r_remaining, forward in *. cbn. lia. }
  unfold r_finish, finish_tolerant. rewrite Hrest. unfold MAX_ALIGNMENT_SLACK.
  split; [by destruct (N.eqb rest 0)|by destruct (N.leb rest 3)].
Qed.

(** [finish_padded] writes the amount of padding where the reader looks for it. *)
Lemma finish_padded_eq e bs :
  let pad := padding_to (blen bs) 4 in
  finish_padded (appended bs (cdr_writer_new e)) =
    header_to_bytes (e_kind e) (if is_v2 e then with_padding pad 0 else 0) ++ bs ++ zeros_of pad.
Proof.
  intros pad. unfold finish_padded. rewrite new_position. fold pad.
  assert (sink (appended bs (cdr_writer_new e)) = Buffer (header_to_bytes (e_kind e) 0 ++ bs)) as Hs by done.
  assert (header_at (appended bs (cdr_writer_new e)) = Some 0) as -> by done.
  change (cw_encoding (appended bs (cdr_writer_new e))) with e.
  destruct (N.ltb_spec 0 pad) as [Hpad|Hpad].
  - rewrite Hs. cbn [push_zeros]. rewrite <-app_assoc. destruct (is_v2 e); [|done].
    unfold header_to_bytes. rewrite <-!app_assoc.
    pose proof (patch_push (Buffer (to_be_bytes 2 (identifier (e_kind e)))) (to_be_bytes 2 0) (to_be_bytes 2 (with_padding pad 0))
                  (bs ++ zeros_of pad)) as Hpatch.
    specialize (Hpatch eq_refl). cbn [push_slice sink_len] in Hpatch.
    change (blen (to_be_bytes 2 (identifier (e_kind e)))) with (0 + 2) in Hpatch. by rewrite Hpatch.
  - replace pad with 0 by lia. rewrite app_nil_r. unfold with_padding. by destruct (is_v2 e).
Qed.

Lemma with_padding_read pad : pad < 4 → with_padding pad 0 < 2 ^ 16 ∧ options_padding (with_padding pad 0) = pad.
Proof.
  intros H. assert (pad = 0 ∨ pad = 1 ∨ pad = 2 ∨ pad = 3) as [->|[->|[->| ->]]] by lia; by split.
Qed.

(** The whole value of a type with the law. *)
Lemma lawful_roundtrip {A} (c : CdrSerde A) valid `{!Lawful c valid} v kind bytes :
  valid v → to_vec c v (encoding_new kind) = Ok bytes →
  from_bytes c bytes = Ok v ∧
  serialized_size c v (encoding_new kind) = Ok (blen bytes) ∧
  ∃ padded, to_vec_padded c v (encoding_new kind) = Ok padded ∧ from_bytes_tolerant c padded = Ok v ∧
    (is_v2 (encoding_new kind) = true → from_bytes c padded = Ok v) ∧ blen padded mod 4 = 0.
Proof.
  intros Hv Hvec. unfold to_vec, to_vec_padded, serialized_size in *.
  destruct (writer_starts c valid v (encoding_new kind) Hv) as [(bs & Hw & Hm & Ha)|(err & Hw & _)]; rewrite Hw in *; [|done].
  rewrite Hm. cbn [rbind] in *. injection Hvec as <-. rewrite finish_padded_eq. set (pad := padding_to (blen bs) 4).
  assert (pad < 4 ∧ (blen bs + pad) mod 4 = 0) as [Hpad Hmod].
  { unfold pad. rewrite padding_to_eq by apply alignment_4. zify. Z.to_euclidean_division_equations. lia. }
  destruct (with_padding_read pad Hpad) as [Hlim Hopt]. cbn [e_kind encoding_new]. split_and!.
  - change (w_finish _) with (header_to_bytes kind 0 ++ bs). rewrite <-(app_nil_r bs).
    by rewrite (proj1 (read_back c kind 0 bs [] v ltac:(done) ltac:(done) Ha)).
  - change (w_finish _) with (header_to_bytes kind 0 ++ bs). cbn [appended set_sink sink]. by rewrite sink_len_push, blen_app.
  - eexists. split; [done|]. destruct (is_v2 (encoding_new kind)).
    + edestruct (read_back c kind (with_padding pad 0) bs (zeros_of pad) v) as [H1 H2]; [done|by rewrite Hopt, blen_zeros|done|].
      rewrite H1, H2, Hopt, blen_zeros, N.sub_diag. split_and!; [done|done|].
      rewrite !blen_app, blen_header, blen_zeros. rewrite N.Div0.add_mod, Hmod. done.
    + edestruct (read_back c kind 0 bs (zeros_of pad) v) as [H1 H2]; [done|change (options_padding 0) with 0; lia|done|].
      rewrite H2, blen_zeros. change (options_padding 0) with 0. rewrite N.sub_0_r, (proj2 (N.leb_le _ _)) by lia.
      split_and!; [done|done|]. rewrite !blen_app, blen_header, blen_zeros. rewrite N.Div0.add_mod, Hmod. done.
Qed.

(** ** The types of the crate *)

(** An enumeration given by its name, its bit bound and the discriminants of
    its enumerators; a value is the position of its enumerator. *)
Definition enum_of (name : str) (bits : N) (discriminants : list N) : CdrEnum nat :=
  mkEnum name bits (λ i, default 0 (discriminants !! i))
    (λ d, match list_find (d =.) discriminants with Some (i, _) => Ok i | None => Err (UnknownEnumerator name d) end).

(** The types the implementations of the crate make: the primitives and the
    strings, the enumerations of [impl_cdr_enum], what [collection.rs] and
    [bounded.rs] build of other types, and the structs of [cdr_struct], whose
    members are a chain of [TField] ended by [TNoFields]. *)
Inductive CdrTy : Set :=
  | TBool | TU8 | TU16 | TU32 | TU64 | TI8 | TI16 | TI32 | TI64 | TF32 | TF64
  | TString | TWString | TBoundedString (n : N) | TBoundedWString (n : N)
  | TEnum (name : str) (bits min : N) (discriminants : list N)
  | TVec (t : CdrTy) | TBoundedSequence (n : N) (t : CdrTy) | TArray (n : nat) (t : CdrTy)
  | TNoFields | TField (t rest : CdrTy) | TStruct (x : Extensibility) (fields : CdrTy).

Fixpoint cdr_value (t : CdrTy) : Type :=
  match t with
  | TBool => bool
  | TU8 | TU16 | TU32 | TU64 | TF32 | TF64 => N
  | TI8 | TI16 | TI32 | TI64 => Z
  | TString | TBoundedString _ => str
  | TWString | TBoundedWString _ => list N
  | TEnum _ _ _ _ => nat
  | TVec t | TBoundedSequence _ t | TArray _ t => list (cdr_value t)
  | TNoFields => unit
  | TField t rest => cdr_value t * cdr_value rest
  | TStruct _ fields => cdr_value fields
  end.

(** The implementation the crate gives a type. *)
Fixpoint serde_of (t : CdrTy) : CdrSerde (cdr_value t) :=
  match t with
  | TBool => bool_serde
  | TU8 => u8_serde | TU16 => u16_serde | TU32 => u32_serde | TU64 => u64_serde
  | TI8 => i8_serde | TI16 => i16_serde | TI32 => i32_serde | TI64 => i64_serde
  | TF32 => f32_serde | TF64 => f64_serde
  | TString => string_serde | TWString => wstring_serde
  | TBoundedString n => bounded_string_serde n | TBoundedWString n => bounded_wstring_serde n
  | TEnum name bits min ds => enum_serde (enum_of name bits ds) min
  | TVec t => vec_serde (serde_of t)
  | TBoundedSequence n t => bounded_sequence_serde n (serde_of t)
  | TArray n t => array_serde n (serde_of t)
  | TNoFields => no_fields
  | TField t rest => field (serde_of t) (serde_of rest)
  | TStruct x fields => cdr_struct x (serde_of fields)
  end.

(** The values of the Rust type: integers in range, strings of Unicode
    scalar values, arrays of the length of the type.  Bounds and lengths are
    not part of it: the writer checks them. *)
Fixpoint valid_of (t : CdrTy) : cdr_value t → Prop :=
  match t with
  | TBool => λ _, True
  | TU8 => fits_in 8 | TU16 => fits_in 16 | TU32 => fits_in 32 | TU64 => fits_in 64
  | TI8 => signed_in 8 | TI16 => signed_in 16 | TI32 => signed_in 32 | TI64 => signed_in 64
  | TF32 => fits_in 32 | TF64 => fits_in 64
  | TString | TBoundedString _ => Forall is_scalar
  | TWString | TBoundedWString _ => Forall (fits_in 16)
  | TEnum _ _ _ ds => λ i, (i < length ds)%nat
  | TVec t | TBoundedSequence _ t => Forall (valid_of t)
  | TArray n t => λ items, length items = n ∧ Forall (valid_of t) items
  | TNoFields => λ _, True
  | TField t rest => λ v, valid_of t v.1 ∧ valid_of rest v.2
  | TStruct _ fields => valid_of fields
  end.

(** What a declaration must respect: the elements of a sequence take at
    least one octet each, an enumeration has distinct 32-bit discriminants and
    announces no more octets than its bit bound has. *)
Fixpoint well_formed (t : CdrTy) : bool :=
  match t with
  | TEnum _ bits min ds => N.leb (8 * min) bits && bool_decide (NoDup ds) && forallb (λ d, N.ltb d (2 ^ 32)) ds
  | TVec t | TBoundedSequence _ t => N.leb 1 (MIN_SERIALIZED_SIZE (serde_of t)) && well_formed t
  | TArray _ t => well_formed t
  | TField t rest => well_formed t && well_formed rest
  | TStruct _ fields => well_formed fields
  | _ => true
  end.

Lemma enum_of_inverse name bits ds i :
  NoDup ds → forallb (λ d, N.ltb d (2 ^ 32)) ds = true → (i < length ds)%nat →
  let en := enum_of name bits ds in from_discriminant en (discriminant en i) = Ok i ∧ fits_in 32 (discriminant en i).
Proof.
  intros Hnd Hall [d Hd]%lookup_lt_is_Some_2 en. assert (discriminant en i = d) as -> by (cbn; by rewrite Hd). split.
  - cbn [en enum_of from_discriminant]. rewrite (proj2 (list_find_Some (d =.) ds i d)); [done|].
    split_and!; [done|done|]. intros j y Hj Hlt ->. assert (j = i) by (by eapply NoDup_lookup). lia.
  - apply N.ltb_lt. by apply (proj1 (forallb_forall _ ds) Hall), list_elem_of_In, (list_elem_of_lookup_2 _ i).
Qed.

(** Every implementation has the law, by induction on the type. *)
Lemma serde_of_lawful t : well_formed t = true → Lawful (serde_of t) (valid_of t).
Proof.
  induction t; cbn [well_formed]; intros Hok;
    repeat match goal with H : _ && _ = true |- _ => apply andb_true_iff in H as [? ?] end;
    cbn [serde_of valid_of cdr_value]; try apply _.
  - intros e p i Hi. apply (enum_lawful (enum_of name bits discriminants) min); [by apply TCEq_eq|].
    apply enum_of_inverse; [by eapply bool_decide_eq_true|done|done].
  - apply vec_lawful; [by auto|by apply TCEq_eq].
  - apply bounded_sequence_lawful; [by auto|by apply TCEq_eq].
  - apply array_lawful; auto.
  - apply field_lawful; auto.
  - apply struct_lawful; auto.
Qed.

(** C35. For every type the crate's implementations make (the primitives,
    strings, enumerations, sequences, arrays, bounded types and structs of any
    extensibility, nested in any way; the elements of a sequence take at least
    one octet) and every encapsulation: what [to_vec] writes for a value of
    the type [from_bytes] reads back, with no octet left over;
    [serialized_size], which runs the same code on a counter, is its length;
    and the padded form is a multiple of four octets that
    [from_bytes_tolerant] reads, and under XCDR2 [from_bytes] too, since the
    padding is announced in the options. *)
Theorem cdr_roundtrip t v kind bytes :
  let c := serde_of t in
  well_formed t = true → valid_of t v → to_vec c v (encoding_new kind) = Ok bytes →
  from_bytes c bytes = Ok v ∧
  serialized_size c v (encoding_new kind) = Ok (blen bytes) ∧
  ∃ padded, to_vec_padded c v (encoding_new kind) = Ok padded ∧ from_bytes_tolerant c padded = Ok v ∧
    (is_v2 (encoding_new kind) = true → from_bytes c padded = Ok v) ∧ blen padded mod 4 = 0.
Proof. intros c Hok Hv. exact (lawful_roundtrip c (valid_of t) (Lawful0 := serde_of_lawful t Hok) v kind bytes Hv). Qed.

(** ** A struct of the ROS 2 message set *)

(** [builtin_interfaces/Time] and [std_msgs/Header], as [cdr_struct!] makes them. *)
Definition time_ty (x : Extensibility) : CdrTy := TStruct x (TField TI32 (TField TU32 TNoFields)).
Definition header_ty (x : Extensibility) : CdrTy := TStruct x (TField (time_ty x) (TField TString TNoFields)).

Definition sample_header x : cdr_value (header_ty x) := ((7%Z, (9, ())), (lit "map", ())).

Lemma cdr_roundtrip_witness :
  let c := serde_of (TVec (header_ty Appendable)) in
  to_vec c [sample_header Appendable] (encoding_new DCdr2Le) =
    Ok [0; 9; 0; 0; 28; 0; 0; 0; 1; 0; 0; 0; 20; 0; 0; 0; 8; 0; 0; 0; 7; 0; 0; 0; 9; 0; 0; 0; 4; 0; 0; 0; 109; 97; 112; 0] ∧
  from_bytes c [0; 9; 0; 0; 28; 0; 0; 0; 1; 0; 0; 0; 20; 0; 0; 0; 8; 0; 0; 0; 7; 0; 0; 0; 9; 0; 0; 0; 4; 0; 0; 0; 109; 97; 112; 0] =
    Ok [sample_header Appendable].
Proof.
  split; [by vm_compute|]. eapply (cdr_roundtrip (TVec (header_ty Appendable)) [sample_header Appendable] DCdr2Le); [by vm_compute| |by vm_compute].
  constructor; [|done]. cbn. unfold signed_in, fits_in, is_scalar. split_and!; try lia; repeat constructor; cbn; lia.
Defined.

(** Elements that take no octet are written but not read back: the reader
    asks for one octet of input per element. *)
Theorem empty_elements_are_refused :
  to_vec (vec_serde (cdr_struct Final no_fields)) [(); ()] (encoding_new CdrLe) = Ok [0; 1; 0; 0; 2; 0; 0; 0] ∧
  from_bytes (vec_serde (cdr_struct Final no_fields)) [0; 1; 0; 0; 2; 0; 0; 0] = Err (LengthOverflow 2 0 1 (lit "sequence")).
Proof. by vm_compute. Qed.

(** ** Types that grow *)

(** What the added members are written behind is all an older reader needs. *)
Lemma grown_lawful {A B} (old : CdrSerde A) (added : CdrSerde B) va vb `{!Lawful old va} `{!Lawful added vb} e q v u :
  va v → vb u →
  (∃ cs ds, emits (serialize (field old added) (v, u)) e q (cs ++ ds) ∧ accepts (deserialize old) e q cs v) ∨
  (∃ err, fails (serialize (field old added) (v, u)) e q err).
Proof.
  intros Hv Hu. cbn [field serialize fst snd].
  destruct (lawful e q v Hv) as [(cs & E1 & A1 & _)|[err F1]]; [|right; exists err; by apply fails_bind_l].
  destruct (lawful e (q + blen cs) u Hu) as [(ds & E2 & _)|[err F2]]; [|right; exists err; by eapply fails_bind_r].
  left. exists cs, ds. split; [by apply emits_bind|done].
Qed.

(** A delimited scope at the start of a stream. *)
Lemma delimited_vec {A} x (c : CdrSerde A) v kind bs bytes :
  let e := encoding_new kind in
  has_dheader x = true → is_v2 e = true → emits (serialize c v) e 4 bs → to_vec (cdr_struct x c) v e = Ok bytes →
  blen bs <= u32_limit ∧ bytes = header_to_bytes kind 0 ++ (uint_bytes e 0 4 (blen bs) ++ bs) ++ [].
Proof.
  intros e Hx Hv2 Em. assert (0 + blen (padding_at e 0 4) + 4 = 4) as E4 by (by destruct kind).
  unfold to_vec. cbn [cdr_struct serialize]. change (cw_encoding (cdr_writer_new e)) with e. rewrite Hv2, Hx. cbn [andb].
  destruct (N.leb_spec (blen bs) u32_limit) as [Hl|Hl].
  - rewrite (w_delimited_emits _ e 0 bs) by (rewrite ?E4; done || by destruct kind). cbn [rbind].
    intros [= <-]. split; [done|]. by rewrite app_nil_r.
  - rewrite (w_delimited_overflow _ e 0 bs) by (rewrite ?E4; done || by destruct kind). done.
Qed.

(** Under XCDR2 a reader that knows the first members of a type with a
    length in front reads them from a stream of a newer sender that has added
    members at the end, whatever these are, and finds nothing left over. *)
Theorem appendable_types_grow {A B} (old : CdrSerde A) (added : CdrSerde B) va vb `{!Lawful old va} `{!Lawful added vb}
    x v u kind bytes :
  has_dheader x = true → is_v2 (encoding_new kind) = true → va v → vb u →
  to_vec (cdr_struct x (field old added)) (v, u) (encoding_new kind) = Ok bytes →
  from_bytes (cdr_struct x old) bytes = Ok v.
Proof.
  intros Hx Hv2 Hv Hu Hvec. set (e := encoding_new kind) in *.
  destruct (grown_lawful old added va vb e 4 v u Hv Hu) as [(cs & ds & E1 & A1)|[err F1]].
  - destruct (delimited_vec x (field old added) (v, u) kind (cs ++ ds) bytes Hx Hv2 E1 Hvec) as [Hl ->].
    refine (proj1 (read_back _ kind 0 _ [] v _ _ _)); [done|done|]. eapply accepts_ext; [|eapply r_delimited_accepts; [done| |done]].
    + intros r He. cbn [cdr_struct deserialize]. rewrite He. fold e. by rewrite Hv2, Hx.
    + fold e. by replace (0 + blen (padding_at e 0 4) + 4) with 4 by (by destruct kind).
  - exfalso. revert Hvec. unfold to_vec. cbn [cdr_struct serialize]. change (cw_encoding (cdr_writer_new e)) with e.
    rewrite Hv2, Hx. cbn [andb]. rewrite (w_delimited_fails _ e 0 err); [done| |by destruct kind..].
    by replace (0 + blen (padding_at e 0 4) + 4) with 4 by (by destruct kind).
Qed.

Lemma appendable_types_grow_witness :
  from_bytes (cdr_struct Appendable (field u32_serde no_fields)) [0; 9; 0; 0; 16; 0; 0; 0; 5; 0; 0; 0; 7; 0; 0; 0; 4; 0; 0; 0; 109; 97; 112; 0] = Ok (5, ()).
Proof.
  eapply (appendable_types_grow (field u32_serde no_fields) (field (field u32_serde string_serde) no_fields) _ _ Appendable (5, ())
            ((7, lit "map"), ()) DCdr2Le); [done|done| | |by vm_compute].
  - by split.
  - cbn. unfold is_scalar. split_and!; try done. repeat constructor; cbn; lia.
Defined.

(** A mutable struct is written in a scope of its own with no header in
    front of a member. *)
Theorem mutable_struct_has_no_member_headers :
  to_vec (cdr_struct Mutable (field u32_serde no_fields)) (5, ()) (encoding_new PlCdr2Le) = Ok [0; 11; 0; 0; 4; 0; 0; 0; 5; 0; 0; 0].
Proof. by vm_compute. Qed.
