(* ===== verification/RtpsTypes.v ===== *)
(** * RTPS: names, numbers and sets of numbers

    Models the parts of [src/crates/astrs-rtps/src/structure/] that the
    reliability protocol computes with: entity names ([guid.rs]), sequence
    numbers and the bitmap that names a window of them ([sequence.rs]).

    A GUID prefix and an entity id are their octets read as one big-endian
    number, which has the order of the octets; a sequence number is an [i64]
    in [Z] with the saturation of the source. *)

From Stdlib Require Import Lia.
From stdpp Require Import base tactics gmap strings numbers list sorting.
From S2P Require Import Prelude Crc32c Text.

Open Scope Z_scope.

(** ** [guid.rs] *)

Definition GuidPrefix : Set := N.
Definition EntityId : Set := N.

Record Guid := mkGuid { prefix : GuidPrefix; entity_id : EntityId }.

Definition UNKNOWN_ENTITY : EntityId := 0%N.

Definition entity_is_unknown (e : EntityId) : bool := N.eqb e 0.

#[global] Instance guid_eq_dec : EqDecision Guid.
Proof. solve_decision. Defined.

#[global] Program Instance guid_countable : Countable Guid :=
  inj_countable' (λ g, (prefix g, entity_id g)) (λ x, mkGuid x.1 x.2) _.
Next Obligation. by intros []. Qed.

(** The derived order: by prefix, then by entity. *)
Definition guid_le (a b : Guid) : Prop :=
  (prefix a < prefix b)%N ∨ (prefix a = prefix b ∧ (entity_id a <= entity_id b)%N).

#[global] Instance guid_le_dec a b : Decision (guid_le a b).
Proof. unfold guid_le. apply _. Defined.

(** A [Locator] and a [Time] are only compared and carried. *)
Definition Locator : Set := N.
Definition Time : Set := Z * N.

(** ** [sequence.rs]: sequence numbers *)

Definition i64_max : Z := 9223372036854775807.
Definition i64_min : Z := -9223372036854775808.

Definition SequenceNumber : Set := Z.

Definition SN_UNKNOWN : SequenceNumber := - 2 ^ 32.
Definition SN_ZERO : SequenceNumber := 0.
Definition SN_FIRST : SequenceNumber := 1.
Definition SN_MAX : SequenceNumber := i64_max.

(** The halves on the wire: an [i32] and a [u32]. *)
Definition from_halves (high low : Z) : SequenceNumber := Z.lor (Z.shiftl high 32) low.
Definition sn_high (n : SequenceNumber) : Z := Z.shiftr n 32.
Definition sn_low (n : SequenceNumber) : Z := n mod 2 ^ 32.

Definition sn_is_unknown (n : SequenceNumber) : bool := Z.eqb n SN_UNKNOWN.
Definition sn_is_valid (n : SequenceNumber) : bool := Z.ltb 0 n.

Definition sn_saturating_add (n offset : Z) : SequenceNumber :=
  Z.max i64_min (Z.min (n + offset) i64_max).
Definition sn_next (n : SequenceNumber) : SequenceNumber := Z.min (n + 1) i64_max.
Definition sn_previous (n : SequenceNumber) : SequenceNumber := Z.max (n - 1) i64_min.

Definition offset_from (n base : SequenceNumber) : option N :=
  let difference := n - base in
  if Z.ltb difference 0 then None
  else if Z.ltb (Z.of_N u64_max) difference then None
  else Some (Z.to_N difference).

Inductive SetDefect : Set :=
  | BitOutOfRange (offset : Z) | NumBitsTooLarge (declared : N) | BaseNotPositive.

(** [RtpsError], as far as the protocol state raises it and [Message::encode]
    does. *)
Inductive RtpsError : Set :=
  | InvalidSequenceNumber (value : Z) (context : str)
  | InvalidSequenceNumberSet (reason : SetDefect) (context : str)
  | InvalidFragmentNumber (value : N) (context : str)
  | InvalidFragmentNumberSet (reason : SetDefect) (context : str)
  | ZeroFragmentSize
  | NoFragments
  | FragmentLargerThanSample (fragment_size sample_size : N)
  | WindowPastEnd (starting count total : N)
  | PayloadTooShort (needed available : N)
  | RtpsTruncated (context : str) (needed available : N)
  | UnalignedBody (id body_len : N)
  | EmptyBodyNotLast (id : N)
  | TooLong (id length maximum : N).

Abbreviation RtpsResult := (result RtpsError).

Definition check_valid (n : SequenceNumber) (context : str) : RtpsResult SequenceNumber :=
  if sn_is_valid n then Ok n else Err (InvalidSequenceNumber n context).

(** ** [sequence.rs]: the bitmap *)

Definition MAX_SET_BITS : N := 256.
Definition MAX_SET_WORDS : nat := 8.

Record SequenceNumberSet := mkSet {
  set_base : SequenceNumber;
  num_bits : N;
  bitmap : list N;
}.

Definition set_new (base : SequenceNumber) : SequenceNumberSet :=
  mkSet base 0 (replicate MAX_SET_WORDS 0%N).

(** Bit 0 is the most significant bit of word 0. *)
Definition split_bit (bit : N) : nat * N :=
  (N.to_nat (bit / 32), N.shiftl 1 (31 - bit mod 32)).

Definition bit_is_set (words : list N) (bit : N) : bool :=
  let '(word, mask) := split_bit bit in
  match words !! word with
  | Some value => negb (N.eqb (N.land value mask) 0)
  | None => false
  end.

Definition set_is_empty (s : SequenceNumberSet) : bool := forallb (N.eqb 0) (bitmap s).

Definition set_contains (s : SequenceNumberSet) (number : SequenceNumber) : bool :=
  match offset_from number (set_base s) with
  | None => false
  | Some bit => if N.leb (num_bits s) bit then false else bit_is_set (bitmap s) bit
  end.

Definition set_insert (number : SequenceNumber) (s : SequenceNumberSet) : RtpsResult SequenceNumberSet :=
  match offset_from number (set_base s) with
  | Some bit =>
      if N.ltb bit MAX_SET_BITS then
        let '(word, mask) := split_bit bit in
        Ok (mkSet (set_base s) (if N.leb (num_bits s) bit then bit + 1 else num_bits s)%N
              (alter (λ slot, N.lor slot mask) word (bitmap s)))
      else Err (InvalidSequenceNumberSet (BitOutOfRange (number - set_base s)) (lit "SequenceNumberSet::insert"))
  | None => Err (InvalidSequenceNumberSet (BitOutOfRange (number - set_base s)) (lit "SequenceNumberSet::insert"))
  end.

Fixpoint set_from_numbers (s : SequenceNumberSet) (numbers : list SequenceNumber) : RtpsResult SequenceNumberSet :=
  match numbers with
  | [] => Ok s
  | n :: rest => let? s := set_insert n s in set_from_numbers s rest
  end.

(** The numbers the iterator yields, in its order. *)
Definition set_iter (s : SequenceNumberSet) : list SequenceNumber :=
  omap (λ bit, if bit_is_set (bitmap s) bit then Some (sn_saturating_add (set_base s) (Z.of_N bit)) else None)
    (N.of_nat <$> seq 0 (N.to_nat (num_bits s))).

Definition set_validate (s : SequenceNumberSet) (context : str) : RtpsResult unit :=
  if negb (sn_is_valid (set_base s)) then Err (InvalidSequenceNumberSet BaseNotPositive context)
  else if N.ltb MAX_SET_BITS (num_bits s)
  then Err (InvalidSequenceNumberSet (NumBitsTooLarge (num_bits s)) context)
  else Ok tt.

(** One word of [clear_beyond_window]. *)
Definition clear_word (bits index : N) (word : N) : N :=
  let first_bit := (index * 32)%N in
  if N.leb bits first_bit then 0%N
  else if N.ltb bits (first_bit + 32)
  then N.land word (not32 (N.shiftr u32_max (bits - first_bit)))
  else word.

Definition clear_beyond_window (s : SequenceNumberSet) : SequenceNumberSet :=
  mkSet (set_base s) (num_bits s) (imap (λ i w, clear_word (num_bits s) (N.of_nat i) w) (bitmap s)).

Definition set_num_bits (bits : N) (s : SequenceNumberSet) : RtpsResult SequenceNumberSet :=
  if N.ltb MAX_SET_BITS bits
  then Err (InvalidSequenceNumberSet (NumBitsTooLarge bits) (lit "SequenceNumberSet::set_num_bits"))
  else Ok (clear_beyond_window (mkSet (set_base s) bits (bitmap s))).

(** ** Ordered maps and sets of numbers

    A [BTreeMap] or [BTreeSet] keyed by sequence numbers is a finite map or
    set; iteration visits the keys in ascending order. *)

Definition ascending_sn (s : gset SequenceNumber) : list SequenceNumber := merge_sort Z.le (elements s).

Definition keys {A} (m : gmap SequenceNumber A) : list SequenceNumber := ascending_sn (dom m).

Lemma elem_of_ascending_sn n s : n ∈ ascending_sn s ↔ n ∈ s.
Proof. unfold ascending_sn. rewrite (merge_sort_Permutation Z.le (elements s)). apply elem_of_elements. Qed.

Lemma NoDup_ascending_sn s : NoDup (ascending_sn s).
Proof. unfold ascending_sn. rewrite (merge_sort_Permutation Z.le (elements s)). apply NoDup_elements. Qed.

Lemma sorted_ascending_sn s : StronglySorted Z.le (ascending_sn s).
Proof. apply (StronglySorted_merge_sort Z.le). Qed.

Lemma elem_of_keys {A} n (m : gmap SequenceNumber A) : n ∈ keys m ↔ is_Some (m !! n).
Proof. unfold keys. by rewrite elem_of_ascending_sn, elem_of_dom. Qed.

(** The first key is the least. *)
Lemma ascending_sn_least s n rest : ascending_sn s = n :: rest → n ∈ s ∧ ∀ m, m ∈ s → n <= m.
Proof.
  intros E. pose proof (sorted_ascending_sn s) as Hs. rewrite E in Hs. inversion Hs as [|? ? _ Hall]; subst.
  split; [apply elem_of_ascending_sn; rewrite E; left|]. intros m Hm%elem_of_ascending_sn. rewrite E in Hm.
  apply elem_of_cons in Hm as [->|Hm]; [lia|]. rewrite Forall_forall in Hall. auto.
Qed.

(** ** Proofs *)

Lemma sn_halves n : from_halves (sn_high n) (sn_low n) = n.
Proof.
  unfold from_halves, sn_high, sn_low. rewrite <-Z.land_ones by lia.
  apply Z.bits_inj'. intros i Hi. rewrite Z.lor_spec, Z.land_spec.
  destruct (Z.ltb_spec i 32).
  - rewrite Z.shiftl_spec_low, Z.ones_spec_low by lia. by rewrite andb_true_r.
  - rewrite Z.shiftl_spec, Z.shiftr_spec, Z.ones_spec_high by lia.
    replace (i - 32 + 32) with i by lia. by rewrite andb_false_r, orb_false_r.
Qed.

Lemma mask_testbit v k : negb (N.eqb (N.land v (N.shiftl 1 k)) 0) = N.testbit v k.
Proof.
  rewrite N.shiftl_1_l. destruct (N.testbit v k) eqn:E.
  - apply negb_true_iff, N.eqb_neq. intros H. apply (f_equal (λ x, N.testbit x k)) in H.
    by rewrite N.land_spec, E, N.pow2_bits_true, N.bits_0 in H.
  - apply negb_false_iff, N.eqb_eq, N.bits_inj. intros i. rewrite N.land_spec, N.bits_0, N.pow2_bits_eqb.
    destruct (N.eqb_spec k i) as [<-|]; [by rewrite E|by rewrite andb_false_r].
Qed.

Lemma bit_is_set_eq words bit :
  bit_is_set words bit =
    match words !! N.to_nat (bit / 32) with Some v => N.testbit v (31 - bit mod 32) | None => false end.
Proof. unfold bit_is_set, split_bit. destruct (words !! _); [apply mask_testbit|done]. Qed.

(** Setting one bit sets no other. *)
Lemma bit_is_set_alter words bit bit' :
  (N.to_nat (bit / 32) < length words)%nat →
  bit_is_set (alter (λ slot, N.lor slot (split_bit bit).2) (split_bit bit).1 words) bit' =
    bool_decide (bit' = bit) || bit_is_set words bit'.
Proof.
  intros Hlen. rewrite !bit_is_set_eq. unfold split_bit. cbn [fst snd].
  destruct (decide (bit' / 32 = bit / 32)%N) as [E|E].
  - rewrite E. destruct (lookup_lt_is_Some_2 _ _ Hlen) as [v Hv]. rewrite list_lookup_alter_eq, Hv. cbn.
    rewrite N.lor_spec, N.shiftl_1_l, N.pow2_bits_eqb, orb_comm. f_equal.
    pose proof (N.mod_lt bit 32 ltac:(done)). pose proof (N.mod_lt bit' 32 ltac:(done)).
    pose proof (N.div_mod bit 32 ltac:(done)). pose proof (N.div_mod bit' 32 ltac:(done)).
    apply eq_true_iff_eq. rewrite N.eqb_eq, bool_decide_eq_true. rewrite E in *. lia.
  - rewrite list_lookup_alter_ne by (intros ?; apply E; lia). rewrite bool_decide_false; [done|congruence].
Qed.

Lemma bit_is_set_zero n bit : bit_is_set (replicate n 0%N) bit = false.
Proof.
  rewrite bit_is_set_eq. destruct (replicate n 0%N !! _) as [v|] eqn:E; [|done].
  apply lookup_replicate in E as [-> _]. apply N.bits_0.
Qed.

(** Eight words, a window of at most 256 bits, and none set outside it. *)
Definition set_ok (s : SequenceNumberSet) : Prop :=
  length (bitmap s) = MAX_SET_WORDS ∧ (num_bits s <= MAX_SET_BITS)%N ∧
  ∀ bit, (num_bits s <= bit)%N → bit_is_set (bitmap s) bit = false.

Lemma set_new_ok base : set_ok (set_new base).
Proof. split_and!; [done..|]. intros. apply bit_is_set_zero. Qed.

(** The numbers of the set are sequence numbers. *)
Definition set_fits (s : SequenceNumberSet) : Prop := ∀ n, set_contains s n = true → n <= i64_max.

Lemma set_contains_bit s bit :
  set_ok s → bit_is_set (bitmap s) bit = true → set_contains s (set_base s + Z.of_N bit) = true.
Proof.
  intros (Hlen & Hnb & Hbits) Hb. unfold set_contains, offset_from, MAX_SET_BITS in *.
  assert (bit < num_bits s)%N as Hlt.
  { destruct (N.lt_ge_cases bit (num_bits s)) as [|Hge]; [done|]. apply Hbits in Hge. congruence. }
  replace (set_base s + Z.of_N bit - set_base s) with (Z.of_N bit) by lia.
  destruct (Z.ltb_spec (Z.of_N bit) 0); [lia|]. destruct (Z.ltb_spec (Z.of_N u64_max) (Z.of_N bit)); [unfold u64_max in *; lia|].
  rewrite N2Z.id. by destruct (N.leb_spec (num_bits s) bit); [lia|].
Qed.

(** The iterator yields the numbers of the set. *)
Lemma elem_of_set_iter s n :
  set_fits s → i64_min <= set_base s → set_ok s → n ∈ set_iter s ↔ set_contains s n = true.
Proof.
  intros Hfits Hmin Hok. unfold set_iter. rewrite list_elem_of_omap.
  assert (∀ bit, bit_is_set (bitmap s) bit = true →
            sn_saturating_add (set_base s) (Z.of_N bit) = set_base s + Z.of_N bit) as Hsat.
  { intros bit Hb. pose proof (Hfits _ (set_contains_bit s bit Hok Hb)). unfold sn_saturating_add. lia. }
  split.
  - intros (bit & Hin & Hs). destruct (bit_is_set _ _) eqn:E; [|done]. injection Hs as <-.
    rewrite Hsat by done. by apply set_contains_bit.
  - unfold set_contains, offset_from, MAX_SET_BITS in *.
    destruct (Z.ltb_spec (n - set_base s) 0); [done|]. destruct (Z.ltb_spec (Z.of_N u64_max) (n - set_base s)); [done|].
    destruct (N.leb_spec (num_bits s) (Z.to_N (n - set_base s))); [done|]. intros Hb.
    exists (Z.to_N (n - set_base s)). rewrite Hb, Hsat by done. split; [|f_equal; lia].
    apply list_elem_of_fmap. exists (Z.to_nat (n - set_base s)). rewrite elem_of_seq. lia.
Qed.

(** Inserting a number adds it and nothing else. *)
Lemma set_insert_spec n s :
  set_ok s →
  match set_insert n s with
  | Ok s' => set_ok s' ∧ set_base s' = set_base s ∧ set_base s <= n < set_base s + 256 ∧
             ∀ m, set_contains s' m = bool_decide (m = n) || set_contains s m
  | Err _ => ¬ (set_base s <= n < set_base s + 256)
  end.
Proof.
  intros (Hlen & Hnb & Hbits). unfold set_insert, offset_from.
  destruct (Z.ltb_spec (n - set_base s) 0); [lia|].
  destruct (Z.ltb_spec (Z.of_N u64_max) (n - set_base s)); [unfold u64_max in *; lia|].
  destruct (N.ltb_spec (Z.to_N (n - set_base s)) MAX_SET_BITS) as [Hlt|]; [|unfold MAX_SET_BITS in *; lia].
  set (bit := Z.to_N (n - set_base s)) in *. destruct (split_bit bit) as [word mask] eqn:Es.
  assert (N.to_nat (bit / 32) < length (bitmap s))%nat as Hw.
  { rewrite Hlen. unfold MAX_SET_WORDS, MAX_SET_BITS in *. pose proof (N.Div0.div_lt_upper_bound bit 32 8). lia. }
  assert (∀ bit', bit_is_set (alter (λ slot, N.lor slot mask) word (bitmap s)) bit' =
            bool_decide (bit' = bit) || bit_is_set (bitmap s) bit') as Hset.
  { intros bit'. rewrite <-bit_is_set_alter by done. by rewrite Es. }
  unfold MAX_SET_BITS in *. split_and!; cbn [set_base num_bits bitmap]; [|done|lia|lia|].
  - split_and!; cbn [num_bits bitmap].
    + by rewrite length_alter.
    + destruct (N.leb_spec (num_bits s) bit); unfold MAX_SET_BITS; lia.
    + intros bit' Hb. rewrite Hset. destruct (N.leb_spec (num_bits s) bit).
      * rewrite bool_decide_false by lia. cbn. apply Hbits. lia.
      * rewrite bool_decide_false by lia. cbn. by apply Hbits.
  - intros m. unfold set_contains, offset_from. cbn [set_base num_bits bitmap].
    destruct (Z.ltb_spec (m - set_base s) 0); [rewrite bool_decide_false by lia; done|].
    destruct (Z.ltb_spec (Z.of_N u64_max) (m - set_base s)); [rewrite bool_decide_false; [done|unfold u64_max in *; lia]|].
    rewrite Hset. set (bit' := Z.to_N (m - set_base s)).
    assert (bool_decide (bit' = bit) = bool_decide (m = n)) as ->.
    { apply bool_decide_ext. unfold bit', bit. lia. }
    destruct (bool_decide (m = n)) eqn:Em.
    + apply bool_decide_eq_true in Em as ->. fold bit in bit'. subst bit'.
      destruct (N.leb_spec (num_bits s) bit) as [Hge|Hge].
      * destruct (N.leb_spec (bit + 1) bit); [lia|done].
      * destruct (N.leb_spec (num_bits s) bit); [lia|done].
    + cbn. destruct (N.leb_spec (num_bits s) bit) as [Hge|Hge], (N.leb_spec (num_bits s) bit') as [Hge'|Hge'].
      * destruct (N.leb_spec (bit + 1) bit'); [done|]. by apply Hbits.
      * destruct (N.leb_spec (bit + 1) bit'); [lia|done].
      * done.
      * done.
Qed.

Lemma set_contains_new base n : set_contains (set_new base) n = false.
Proof.
  unfold set_contains, offset_from. cbn. destruct (Z.ltb _ _); [done|]. destruct (Z.ltb _ _); [done|].
  by destruct (N.leb_spec 0 (Z.to_N (n - base))); [|lia].
Qed.

(** A set built from numbers holds exactly them. *)
Lemma set_from_numbers_spec numbers s s' :
  set_from_numbers s numbers = Ok s' → set_ok s →
  set_ok s' ∧ set_base s' = set_base s ∧ ∀ m, set_contains s' m = true ↔ m ∈ numbers ∨ set_contains s m = true.
Proof.
  revert s. induction numbers as [|n ns IH]; intros s H Hok; cbn [set_from_numbers] in H.
  { injection H as <-. split; [done|]. split; [done|]. intros m. split; [by right|].
    intros [Hm|?]; [by apply not_elem_of_nil in Hm|done]. }
  pose proof (set_insert_spec n s Hok) as Hins. destruct (set_insert n s) as [s1|e]; [|done]. cbn [rbind] in H.
  destruct Hins as (Hok1 & Hb1 & _ & Hc1). destruct (IH _ H Hok1) as (Hok' & Hb' & Hc'). split; [done|]. split; [congruence|].
  intros m. rewrite Hc', Hc1, orb_true_iff, bool_decide_eq_true, elem_of_cons. tauto.
Qed.
