(* ===== verification/RtpsCache.v ===== *)
(** * RTPS: the history cache

    Models [src/crates/astrs-rtps/src/behavior/cache.rs], the errors of
    [behavior/error.rs] it and its users raise, and the history and resource
    policies of [discovery/qos.rs].  Instants are nanoseconds; an instance
    handle is its sixteen octets as one number. *)

From Stdlib Require Import Lia.
From stdpp Require Import base tactics gmap strings numbers list sorting.
From S2P Require Import Prelude Crc32c Text RtpsTypes.

Open Scope Z_scope.

(** ** [error.rs] *)

Inductive ReassemblyDefect : Set :=
  | SampleSizeChanged (first then_ : N)
  | FragmentSizeChanged (first then_ : N)
  | WindowPastSample (end_ sample_size : N)
  | Contradiction (fragment : N)
  | TooManyFragments (needed limit : N).

(** [BehaviorError], as far as endpoints raise it. *)
Inductive BehaviorError : Set :=
  | HistoryFull (depth : N)
  | SampleTooLarge (len limit : N)
  | Reassembly (writer : Guid) (sequence_number : SequenceNumber) (defect : ReassemblyDefect)
  | RtpsWire (e : RtpsError).

Abbreviation BehaviorResult := (result BehaviorError).

(** ** [qos.rs] *)

Definition UNLIMITED_DEPTH : Z := -1.

Inductive HistoryKind : Set := KeepLast | KeepAll.

Record HistoryQos := mkHistory { hq_kind : HistoryKind; hq_depth : Z }.

Definition keep_last (depth : Z) : HistoryQos := mkHistory KeepLast (if Z.ltb depth 1 then 1 else depth).
Definition keep_all : HistoryQos := mkHistory KeepAll UNLIMITED_DEPTH.

Definition retained (h : HistoryQos) : option nat :=
  match hq_kind h with
  | KeepAll => None
  | KeepLast => if Z.ltb (hq_depth h) 1 then Some 1%nat else Some (Z.to_nat (hq_depth h))
  end.

Record ResourceLimitsQos := mkLimits {
  max_samples : Z;
  max_instances : Z;
  max_samples_per_instance : Z;
}.

Definition unlimited : ResourceLimitsQos := mkLimits UNLIMITED_DEPTH UNLIMITED_DEPTH UNLIMITED_DEPTH.

Definition sample_ceiling (l : ResourceLimitsQos) : option nat :=
  if Z.ltb (max_samples l) 0 then None else Some (Z.to_nat (max_samples l)).

(** ** Changes *)

Definition InstanceHandle : Set := N.
Definition NIL : InstanceHandle := 0%N.

Inductive ChangeKind : Set := Alive | NotAliveDisposed | NotAliveUnregistered.

Definition carries_data (k : ChangeKind) : bool := match k with Alive => true | _ => false end.

(** The last octet of the status; the others are zero. *)
Definition status_info (k : ChangeKind) : list N :=
  [0; 0; 0; match k with Alive => 0 | NotAliveDisposed => 1 | NotAliveUnregistered => 2 end]%N.

Definition from_status_info (octets : list N) : ChangeKind :=
  let flags := nth 3 octets 0%N in
  if negb (N.eqb (N.land flags 1) 0) then NotAliveDisposed
  else if negb (N.eqb (N.land flags 2) 0) then NotAliveUnregistered
  else Alive.

Record CacheChange := mkChange {
  cc_sequence_number : SequenceNumber;
  cc_kind : ChangeKind;
  cc_instance : InstanceHandle;
  cc_payload : list N;
  cc_source_timestamp : option Time;
  cc_written_at : N;
}.

(** [now.saturating_duration_since(written_at) >= lifespan] *)
Definition has_expired (lifespan now : N) (c : CacheChange) : bool := N.leb lifespan (now - cc_written_at c).

Inductive Removal : Set := Evicted (n : SequenceNumber) | Expired (n : SequenceNumber).

Definition removal_number (r : Removal) : SequenceNumber := match r with Evicted n | Expired n => n end.

(** ** The cache *)

Record HistoryCache := mkCache {
  changes : gmap SequenceNumber CacheChange;
  history : HistoryQos;
  limits : ResourceLimitsQos;
  lifespan : option N;
}.

Definition cache_new (h : HistoryQos) : HistoryCache := mkCache ∅ h unlimited None.
Definition with_limits (l : ResourceLimitsQos) (c : HistoryCache) : HistoryCache :=
  mkCache (changes c) (history c) l (lifespan c).
Definition with_lifespan (l : option N) (c : HistoryCache) : HistoryCache :=
  mkCache (changes c) (history c) (limits c) l.
Definition set_changes (m : gmap SequenceNumber CacheChange) (c : HistoryCache) : HistoryCache :=
  mkCache m (history c) (limits c) (lifespan c).

Definition min_sequence_number (c : HistoryCache) : option SequenceNumber := head (keys (changes c)).
Definition max_sequence_number (c : HistoryCache) : option SequenceNumber := last (keys (changes c)).
Definition cache_get (n : SequenceNumber) (c : HistoryCache) : option CacheChange := changes c !! n.
Definition cache_contains (n : SequenceNumber) (c : HistoryCache) : bool := bool_decide (is_Some (changes c !! n)).

(** Whether the change at a number is of the instance. *)
Definition is_of (instance : InstanceHandle) (m : gmap SequenceNumber CacheChange) (n : SequenceNumber) : bool :=
  match m !! n with Some ch => N.eqb (cc_instance ch) instance | None => false end.

Definition instance_len (instance : InstanceHandle) (m : gmap SequenceNumber CacheChange) : nat :=
  length (filter (λ n, is_of instance m n = true) (keys m)).

Definition oldest_of (instance : InstanceHandle) (m : gmap SequenceNumber CacheChange) : option SequenceNumber :=
  head (filter (λ n, is_of instance m n = true) (keys m)).

(** [while self.instance_len(instance) > depth], each turn removes a change:
    the fuel is their number. *)
Fixpoint evict_instance (fuel : nat) (instance : InstanceHandle) (depth : nat)
    (m : gmap SequenceNumber CacheChange) : gmap SequenceNumber CacheChange * list Removal :=
  match fuel with
  | O => (m, [])
  | S fuel =>
      if Nat.ltb depth (instance_len instance m) then
        match oldest_of instance m with
        | None => (m, [])
        | Some oldest =>
            let '(m, removed) := evict_instance fuel instance depth (delete oldest m) in
            (m, Evicted oldest :: removed)
        end
      else (m, [])
  end.

(** [while self.changes.len() > ceiling] *)
Fixpoint evict_oldest (fuel : nat) (ceiling : nat) (m : gmap SequenceNumber CacheChange) :
    gmap SequenceNumber CacheChange * list Removal :=
  match fuel with
  | O => (m, [])
  | S fuel =>
      if Nat.ltb ceiling (size m) then
        match head (keys m) with
        | None => (m, [])
        | Some oldest =>
            let '(m, removed) := evict_oldest fuel ceiling (delete oldest m) in
            (m, Evicted oldest :: removed)
        end
      else (m, [])
  end.

Definition cache_insert (change : CacheChange) (c : HistoryCache) : BehaviorResult (HistoryCache * list Removal) :=
  let n := cc_sequence_number change in
  if bool_decide (is_Some (changes c !! n)) then Ok (set_changes (<[n := change]> (changes c)) c, [])
  else
    let? (m, removed) :=
      match hq_kind (history c) with
      | KeepLast =>
          let depth := match retained (history c) with Some d => d | None => 1%nat end in
          let m := <[n := change]> (changes c) in
          Ok (evict_instance (size m) (cc_instance change) depth m)
      | KeepAll =>
          match sample_ceiling (limits c) with
          | Some ceiling =>
              if Nat.leb ceiling (size (changes c)) then Err (HistoryFull (N.of_nat (size (changes c))))
              else Ok (<[n := change]> (changes c), [])
          | None => Ok (<[n := change]> (changes c), [])
          end
      end in
    match sample_ceiling (limits c) with
    | None => Ok (set_changes m c, removed)
    | Some ceiling =>
        let '(m, more) := evict_oldest (size m) ceiling m in
        Ok (set_changes m c, removed ++ more)
    end.

Definition cache_remove (n : SequenceNumber) (c : HistoryCache) : HistoryCache * option CacheChange :=
  (set_changes (delete n (changes c)) c, changes c !! n).

Definition drop_through (through : SequenceNumber) (c : HistoryCache) : HistoryCache * nat :=
  let doomed := filter (λ n, n <= through) (keys (changes c)) in
  (set_changes (foldl (λ m n, delete n m) (changes c) doomed) c, length doomed).

Definition expire (now : N) (c : HistoryCache) : HistoryCache * list Removal :=
  match lifespan c with
  | None => (c, [])
  | Some lifespan =>
      let doomed := filter (λ n, match changes c !! n with Some ch => has_expired lifespan now ch | None => false end = true)
                      (keys (changes c)) in
      (set_changes (foldl (λ m n, delete n m) (changes c) doomed) c, Expired <$> doomed)
  end.

(** ** Proofs *)

Lemma elem_of_evict_oldest fuel ceiling m m' removed :
  evict_oldest fuel ceiling m = (m', removed) → m' ⊆ m.
Proof.
  revert m m' removed. induction fuel as [|fuel IH]; intros m m' removed; cbn [evict_oldest]; [by intros [= <- <-]|].
  destruct (Nat.ltb _ _); [|by intros [= <- <-]]. destruct (head (keys m)) as [o|]; [|by intros [= <- <-]].
  destruct (evict_oldest fuel ceiling (delete o m)) as [m1 r1] eqn:E. intros [= <- <-].
  etrans; [by eapply IH|apply delete_subseteq].
Qed.

Lemma evict_instance_subseteq fuel instance depth m m' removed :
  evict_instance fuel instance depth m = (m', removed) → m' ⊆ m.
Proof.
  revert m m' removed. induction fuel as [|fuel IH]; intros m m' removed; cbn [evict_instance]; [by intros [= <- <-]|].
  destruct (Nat.ltb _ _); [|by intros [= <- <-]]. destruct (oldest_of instance m) as [o|]; [|by intros [= <- <-]].
  destruct (evict_instance fuel instance depth (delete o m)) as [m1 r1] eqn:E. intros [= <- <-].
  etrans; [by eapply IH|apply delete_subseteq].
Qed.

(** An insert adds at most the change itself. *)
Lemma cache_insert_subseteq change c c' removed :
  cache_insert change c = Ok (c', removed) →
  changes c' ⊆ <[cc_sequence_number change := change]> (changes c) ∧
  history c' = history c ∧ limits c' = limits c ∧ lifespan c' = lifespan c.
Proof.
  unfold cache_insert. destruct (bool_decide _); [by intros [= <- <-]|].
  set (n := cc_sequence_number change). set (first := match hq_kind (history c) with KeepLast => _ | KeepAll => _ end).
  assert (∀ m r, first = Ok (m, r) → m ⊆ <[n := change]> (changes c)) as Hfirst.
  { intros m r. unfold first. destruct (hq_kind (history c)).
    - intros [= E]. by eapply evict_instance_subseteq.
    - destruct (sample_ceiling (limits c)) as [ceiling|]; [destruct (Nat.leb _ _)|]; by intros [= <- <-]. }
  destruct first as [[m r]|e]; [|done]. cbn [rbind]. specialize (Hfirst m r eq_refl).
  destruct (sample_ceiling (limits c)) as [ceiling|]; [|by intros [= <- <-]].
  destruct (evict_oldest _ _ m) as [m2 r2] eqn:E. intros [= <- <-]. cbn.
  split_and!; [|done..]. etrans; [by eapply elem_of_evict_oldest|done].
Qed.

Lemma foldl_delete_subseteq {A} (l : list SequenceNumber) (m : gmap SequenceNumber A) :
  foldl (λ m n, delete n m) m l ⊆ m.
Proof.
  revert m. induction l as [|n l IH]; intros m; cbn; [done|]. etrans; [apply IH|apply delete_subseteq].
Qed.

Lemma foldl_delete_lookup {A} (l : list SequenceNumber) (m : gmap SequenceNumber A) n :
  foldl (λ m n, delete n m) m l !! n = if decide (n ∈ l) then None else m !! n.
Proof.
  revert m. induction l as [|x l IH]; intros m; cbn.
  - by rewrite decide_False by apply not_elem_of_nil.
  - rewrite IH. destruct (decide (n = x)) as [->|Hne].
    + rewrite lookup_delete_eq. rewrite (decide_True (P := x ∈ x :: l)) by (by left). by case_decide.
    + rewrite lookup_delete_ne by done. apply decide_ext. rewrite elem_of_cons. naive_solver.
Qed.

Lemma evict_oldest_nothing fuel ceiling m : (size m <= ceiling)%nat → evict_oldest fuel ceiling m = (m, []).
Proof. intros H. destruct fuel; cbn [evict_oldest]; [done|]. by destruct (Nat.ltb_spec ceiling (size m)); [lia|]. Qed.

(** A cache that keeps all refuses a change rather than give one up. *)
Lemma cache_insert_keep_all change c c' removed :
  hq_kind (history c) = KeepAll → changes c !! cc_sequence_number change = None →
  cache_insert change c = Ok (c', removed) →
  changes c' = <[cc_sequence_number change := change]> (changes c) ∧ removed = [].
Proof.
  intros Hk Hnew. unfold cache_insert. rewrite bool_decide_false by (rewrite Hnew; by intros [? ?]). rewrite Hk.
  destruct (sample_ceiling (limits c)) as [ceiling|]; [|by intros [= <- <-]].
  destruct (Nat.leb_spec ceiling (size (changes c))); [done|]. cbn [rbind].
  rewrite evict_oldest_nothing; [by intros [= <- <-]|]. rewrite map_size_insert_None by done. lia.
Qed.

Lemma expire_subseteq now c c' removed :
  expire now c = (c', removed) →
  changes c' ⊆ changes c ∧ history c' = history c ∧ lifespan c' = lifespan c ∧ (lifespan c = None → c' = c).
Proof.
  unfold expire. destruct (lifespan c) as [l|] eqn:E; [|by intros [= <- <-]]. intros [= <- <-]. cbn.
  split_and!; [apply foldl_delete_subseteq|done|done|done].
Qed.
