(* ===== verification/RtpsProxy.v ===== *)
(** * RTPS: what each side remembers about the other

    Models [src/crates/astrs-rtps/src/behavior/proxy.rs] and the submessages
    it reads and builds ([messages/acknack.rs], [messages/heartbeat.rs],
    [messages/gap.rs]).  A submessage is a record of the fields the protocol
    reads; byte order and preserved unknown octets belong to the encoding.
    An [i32] counter is a [Z] that saturates. *)

From Stdlib Require Import Lia.
From stdpp Require Import base tactics gmap strings numbers list sorting.
From S2P Require Import Prelude Crc32c Text RtpsTypes.

Open Scope Z_scope.

Definition i32_max : Z := 2147483647.
Definition i32_min : Z := -2147483648.
Definition count_next (n : Z) : Z := Z.min (n + 1) i32_max.

(** ** Submessages *)

Record Heartbeat := mkHeartbeat {
  hb_reader_id : EntityId;
  hb_writer_id : EntityId;
  hb_first_sn : SequenceNumber;
  hb_last_sn : SequenceNumber;
  hb_count : Z;
  hb_is_final : bool;
  hb_liveliness : bool;
}.

Record AckNack := mkAckNack {
  an_reader_id : EntityId;
  an_writer_id : EntityId;
  an_reader_sn_state : SequenceNumberSet;
  an_count : Z;
  an_is_final : bool;
}.

Definition acknowledged_through (a : AckNack) : SequenceNumber := sn_previous (set_base (an_reader_sn_state a)).

Record Gap := mkGap {
  gp_reader_id : EntityId;
  gp_writer_id : EntityId;
  gp_start : SequenceNumber;
  gp_list : SequenceNumberSet;
}.

(** The run from the start to the base of the list, then the list. *)
Definition irrelevant (g : Gap) : list SequenceNumber :=
  seqZ (gp_start g) (set_base (gp_list g) - gp_start g) ++ set_iter (gp_list g).

Definition gap_validate (g : Gap) : RtpsResult unit :=
  let? _ := check_valid (gp_start g) (lit "GAP gapStart") in
  set_validate (gp_list g) (lit "GAP gapList").

(** ** [ReaderProxy] *)

Definition MAX_REQUESTED : nat := 4096.
Definition MAX_TRACKED : N := 65536.

Record ReaderProxy := mkReaderProxy {
  rp_guid : Guid;
  rp_unicast : list Locator;
  rp_multicast : list Locator;
  rp_reliable : bool;
  rp_expects_inline_qos : bool;
  rp_wants_history : bool;
  rp_acked_through : SequenceNumber;
  rp_highest_sent : SequenceNumber;
  rp_requested : gset SequenceNumber;
  rp_last_acknack_count : Z;
  rp_active : bool;
}.

Definition reader_proxy_new (guid : Guid) (locators : list Locator) (reliable : bool) : ReaderProxy :=
  mkReaderProxy guid locators [] reliable false true SN_ZERO SN_ZERO ∅ i32_min true.

Definition wanting_history (wants : bool) (p : ReaderProxy) : ReaderProxy :=
  mkReaderProxy (rp_guid p) (rp_unicast p) (rp_multicast p) (rp_reliable p) (rp_expects_inline_qos p) wants
    (rp_acked_through p) (rp_highest_sent p) (rp_requested p) (rp_last_acknack_count p) (rp_active p).

Definition rp_locators (p : ReaderProxy) : list Locator := rp_unicast p ++ rp_multicast p.

Definition rp_set_locators (unicast multicast : list Locator) (p : ReaderProxy) : ReaderProxy :=
  mkReaderProxy (rp_guid p) unicast multicast (rp_reliable p) (rp_expects_inline_qos p) (rp_wants_history p)
    (rp_acked_through p) (rp_highest_sent p) (rp_requested p) (rp_last_acknack_count p) (rp_active p).

Definition rp_deactivate (p : ReaderProxy) : ReaderProxy :=
  mkReaderProxy (rp_guid p) (rp_unicast p) (rp_multicast p) (rp_reliable p) (rp_expects_inline_qos p) (rp_wants_history p)
    (rp_acked_through p) (rp_highest_sent p) (rp_requested p) (rp_last_acknack_count p) false.

Definition set_acked (n : SequenceNumber) (p : ReaderProxy) : ReaderProxy :=
  mkReaderProxy (rp_guid p) (rp_unicast p) (rp_multicast p) (rp_reliable p) (rp_expects_inline_qos p) (rp_wants_history p)
    n (rp_highest_sent p) (rp_requested p) (rp_last_acknack_count p) (rp_active p).
Definition set_highest_sent (n : SequenceNumber) (p : ReaderProxy) : ReaderProxy :=
  mkReaderProxy (rp_guid p) (rp_unicast p) (rp_multicast p) (rp_reliable p) (rp_expects_inline_qos p) (rp_wants_history p)
    (rp_acked_through p) n (rp_requested p) (rp_last_acknack_count p) (rp_active p).
Definition set_requested (r : gset SequenceNumber) (p : ReaderProxy) : ReaderProxy :=
  mkReaderProxy (rp_guid p) (rp_unicast p) (rp_multicast p) (rp_reliable p) (rp_expects_inline_qos p) (rp_wants_history p)
    (rp_acked_through p) (rp_highest_sent p) r (rp_last_acknack_count p) (rp_active p).
Definition set_acknack_seen (count : Z) (p : ReaderProxy) : ReaderProxy :=
  mkReaderProxy (rp_guid p) (rp_unicast p) (rp_multicast p) (rp_reliable p) (rp_expects_inline_qos p) (rp_wants_history p)
    (rp_acked_through p) (rp_highest_sent p) (rp_requested p) count true.

Definition has_acked (n : SequenceNumber) (p : ReaderProxy) : bool := Z.leb n (rp_acked_through p).

Definition record_sent (n : SequenceNumber) (p : ReaderProxy) : ReaderProxy :=
  let p := if Z.ltb (rp_highest_sent p) n then set_highest_sent n p else p in
  set_requested (rp_requested p ∖ {[n]}) p.

Definition rp_is_satisfied (through : SequenceNumber) (p : ReaderProxy) : bool :=
  bool_decide (rp_requested p = ∅) && Z.leb through (rp_acked_through p).

(** The loop over what an [ACKNACK] names, which stops at the bound. *)
Fixpoint request_missing (missing : list SequenceNumber) (p : ReaderProxy) : ReaderProxy :=
  match missing with
  | [] => p
  | n :: rest =>
      if Nat.leb MAX_REQUESTED (size (rp_requested p)) then p
      else
        request_missing rest
          (if Z.ltb (rp_acked_through p) n then set_requested ({[n]} ∪ rp_requested p) p else p)
  end.

Definition accept_acknack (a : AckNack) (p : ReaderProxy) : ReaderProxy * bool :=
  if Z.leb (an_count a) (rp_last_acknack_count p) then (p, false)
  else
    let p := set_acknack_seen (an_count a) p in
    let watermark := acknowledged_through a in
    let p := if Z.ltb (rp_acked_through p) watermark
             then set_requested (filter (λ n, watermark < n) (rp_requested p)) (set_acked watermark p) else p in
    (request_missing (set_iter (an_reader_sn_state a)) p, true).

Definition request_resend (n : SequenceNumber) (p : ReaderProxy) : ReaderProxy :=
  if Z.ltb (rp_acked_through p) n && Nat.ltb (size (rp_requested p)) MAX_REQUESTED
  then set_requested ({[n]} ∪ rp_requested p) p else p.

Definition forget_requested (n : SequenceNumber) (p : ReaderProxy) : ReaderProxy :=
  set_requested (rp_requested p ∖ {[n]}) p.

Definition drop_requested_below (first : SequenceNumber) (p : ReaderProxy) : ReaderProxy :=
  set_requested (filter (λ n, first <= n) (rp_requested p)) p.

Definition assume_acked_through (n : SequenceNumber) (p : ReaderProxy) : ReaderProxy :=
  if Z.ltb (rp_acked_through p) n
  then set_requested (filter (λ held, n < held) (rp_requested p)) (set_acked n p) else p.

Definition skip_history_through (n : SequenceNumber) (p : ReaderProxy) : ReaderProxy :=
  assume_acked_through n (if Z.ltb (rp_highest_sent p) n then set_highest_sent n p else p).

(** ** [WriterProxy] *)

Record WriterProxy := mkWriterProxy {
  wp_guid : Guid;
  wp_unicast : list Locator;
  wp_multicast : list Locator;
  wp_reliable : bool;
  wp_first_available : SequenceNumber;
  wp_last_available : SequenceNumber;
  wp_received : gset SequenceNumber;
  wp_irrelevant : gset SequenceNumber;
  wp_acked_through : SequenceNumber;
  wp_acknack_count : Z;
  wp_last_heartbeat_count : Z;
  wp_heartbeat_pending : bool;
  wp_active : bool;
}.

Definition writer_proxy_new (guid : Guid) (locators : list Locator) (reliable : bool) : WriterProxy :=
  mkWriterProxy guid locators [] reliable SN_FIRST SN_ZERO ∅ ∅ SN_ZERO 0 i32_min false true.

Definition wp_locators (p : WriterProxy) : list Locator := wp_unicast p ++ wp_multicast p.

Definition wp_set_locators (unicast multicast : list Locator) (p : WriterProxy) : WriterProxy :=
  mkWriterProxy (wp_guid p) unicast multicast (wp_reliable p) (wp_first_available p) (wp_last_available p)
    (wp_received p) (wp_irrelevant p) (wp_acked_through p) (wp_acknack_count p) (wp_last_heartbeat_count p)
    (wp_heartbeat_pending p) (wp_active p).

(** The numbers and sets; the counters; the flags. *)
Definition wp_track (first last : SequenceNumber) (received irr : gset SequenceNumber) (acked : SequenceNumber)
    (p : WriterProxy) : WriterProxy :=
  mkWriterProxy (wp_guid p) (wp_unicast p) (wp_multicast p) (wp_reliable p) first last
    received irr acked (wp_acknack_count p) (wp_last_heartbeat_count p) (wp_heartbeat_pending p) (wp_active p).
Definition wp_count (acknack heartbeat : Z) (p : WriterProxy) : WriterProxy :=
  mkWriterProxy (wp_guid p) (wp_unicast p) (wp_multicast p) (wp_reliable p) (wp_first_available p) (wp_last_available p)
    (wp_received p) (wp_irrelevant p) (wp_acked_through p) acknack heartbeat (wp_heartbeat_pending p) (wp_active p).
Definition wp_flag (pending active : bool) (p : WriterProxy) : WriterProxy :=
  mkWriterProxy (wp_guid p) (wp_unicast p) (wp_multicast p) (wp_reliable p) (wp_first_available p) (wp_last_available p)
    (wp_received p) (wp_irrelevant p) (wp_acked_through p) (wp_acknack_count p) (wp_last_heartbeat_count p) pending active.

Definition is_satisfied (n : SequenceNumber) (p : WriterProxy) : bool :=
  Z.leb n (wp_acked_through p) || bool_decide (n ∈ wp_received p) || bool_decide (n ∈ wp_irrelevant p).

Definition is_caught_up (p : WriterProxy) : bool := Z.leb (wp_last_available p) (wp_acked_through p).

(** Walks the watermark up; each turn but the last removes a tracked number,
    the fuel. *)
Fixpoint advance_loop (fuel : nat) (acked : SequenceNumber) (received irr : gset SequenceNumber) :
    SequenceNumber * gset SequenceNumber * gset SequenceNumber :=
  match fuel with
  | O => (acked, received, irr)
  | S fuel =>
      let next := sn_next acked in
      if bool_decide (next ∈ received) then advance_loop fuel next (received ∖ {[next]}) irr
      else if bool_decide (next ∈ irr) then advance_loop fuel next received (irr ∖ {[next]})
      else (acked, received, irr)
  end.

Definition advance (p : WriterProxy) : WriterProxy :=
  let '(acked, received, irr) :=
    advance_loop (S (size (wp_received p) + size (wp_irrelevant p))) (wp_acked_through p) (wp_received p) (wp_irrelevant p) in
  wp_track (wp_first_available p) (wp_last_available p) received irr acked p.

Definition accept_data (n : SequenceNumber) (p : WriterProxy) : WriterProxy * bool :=
  let p := wp_flag (wp_heartbeat_pending p) true p in
  let last := if Z.ltb (wp_last_available p) n then n else wp_last_available p in
  if negb (wp_reliable p) then
    if Z.leb n (wp_acked_through p) then (p, false)
    else (wp_track (wp_first_available p) last ∅ ∅ n p, true)
  else if Z.leb n (wp_acked_through p) || bool_decide (n ∈ wp_received p) then (p, false)
  else if N.leb MAX_TRACKED (N.of_nat (size (wp_received p))) then (p, false)
  else (advance (wp_track (wp_first_available p) last ({[n]} ∪ wp_received p) (wp_irrelevant p) (wp_acked_through p) p), true).

(** Everything the writer has dropped is irrelevant by definition. *)
Definition drop_below (first : SequenceNumber) (p : WriterProxy) : WriterProxy :=
  if Z.ltb (wp_first_available p) first then
    let floor := sn_previous first in
    if Z.ltb (wp_acked_through p) floor
    then wp_track first (wp_last_available p) (filter (λ n, floor < n) (wp_received p))
           (filter (λ n, floor < n) (wp_irrelevant p)) floor p
    else wp_track first (wp_last_available p) (wp_received p) (wp_irrelevant p) (wp_acked_through p) p
  else p.

Definition learn_last (last : SequenceNumber) (p : WriterProxy) : WriterProxy :=
  if Z.ltb (wp_last_available p) last
  then wp_track (wp_first_available p) last (wp_received p) (wp_irrelevant p) (wp_acked_through p) p
  else p.

Definition heartbeat_seen (count : Z) (p : WriterProxy) : WriterProxy :=
  wp_flag (wp_heartbeat_pending p) true (wp_count (wp_acknack_count p) count p).

Definition accept_heartbeat (h : Heartbeat) (p : WriterProxy) : WriterProxy * bool :=
  if Z.leb (hb_count h) (wp_last_heartbeat_count p) then (p, false)
  else
    let p := advance (learn_last (hb_last_sn h) (drop_below (hb_first_sn h) (heartbeat_seen (hb_count h) p))) in
    (if negb (hb_is_final h) || negb (is_caught_up p) then wp_flag true (wp_active p) p else p, true).

(** The loop of [accept_gap], which stops at the bound. *)
Fixpoint gap_loop (numbers : list SequenceNumber) (p : WriterProxy) (added : nat) : WriterProxy * nat :=
  match numbers with
  | [] => (p, added)
  | n :: rest =>
      if Z.leb n (wp_acked_through p) || bool_decide (n ∈ wp_irrelevant p) then gap_loop rest p added
      else if N.leb MAX_TRACKED (N.of_nat (size (wp_irrelevant p))) then (p, added)
      else
        let last := if Z.ltb (wp_last_available p) n then n else wp_last_available p in
        gap_loop rest
          (wp_track (wp_first_available p) last (wp_received p) ({[n]} ∪ wp_irrelevant p) (wp_acked_through p) p)
          (S added)
  end.

Definition accept_gap (g : Gap) (p : WriterProxy) : WriterProxy * nat :=
  let '(p, added) := gap_loop (irrelevant g) (wp_flag (wp_heartbeat_pending p) true p) 0 in
  (advance p, added).

(** The loop of [acknack_state]: at most 256 numbers from the base. *)
Fixpoint acknack_loop (fuel : nat) (number end_ : Z) (p : WriterProxy) (s : SequenceNumberSet) : SequenceNumberSet :=
  match fuel with
  | O => s
  | S fuel =>
      if Z.ltb number end_ then
        let s := if is_satisfied number p then s
                 else match set_insert number s with Ok s => s | Err _ => s end in
        acknack_loop fuel (sn_saturating_add number 1) end_ p s
      else s
  end.

Definition acknack_state (p : WriterProxy) : SequenceNumberSet :=
  let base := sn_next (wp_acked_through p) in
  let end_ := Z.min (sn_saturating_add base (Z.of_N MAX_SET_BITS)) (sn_saturating_add (wp_last_available p) 1) in
  acknack_loop (N.to_nat MAX_SET_BITS) base end_ p (set_new base).

Definition take_acknack (reader_id : EntityId) (p : WriterProxy) : WriterProxy * AckNack :=
  let p := wp_flag false (wp_active p) p in
  let p := wp_count (count_next (wp_acknack_count p)) (wp_last_heartbeat_count p) p in
  let state := acknack_state p in
  (p, mkAckNack reader_id (entity_id (wp_guid p)) state (wp_acknack_count p) (set_is_empty state)).

Definition clear_heartbeat_pending (p : WriterProxy) : WriterProxy := wp_flag false (wp_active p) p.

Definition next_acknack_count (p : WriterProxy) : Z := count_next (wp_acknack_count p).

(** ** The reader proxy *)

(** Watermarks are sequence numbers; what is asked for is above the
    acknowledged one, and bounded. *)
Definition proxy_ok (p : ReaderProxy) : Prop :=
  0 <= rp_acked_through p < i64_max ∧ 0 <= rp_highest_sent p < i64_max ∧
  (∀ n, n ∈ rp_requested p → rp_acked_through p < n) ∧ (size (rp_requested p) <= MAX_REQUESTED)%nat.

Lemma proxy_new_ok guid locators reliable : proxy_ok (reader_proxy_new guid locators reliable).
Proof. unfold proxy_ok, reader_proxy_new, SN_ZERO, i64_max. cbn. split_and!; [lia..|set_solver|]. rewrite size_empty. lia. Qed.

(** Changes that keep the watermarks and shrink the requests. *)
Lemma proxy_ok_shrink r p :
  proxy_ok p → r ⊆ rp_requested p → proxy_ok (set_requested r p).
Proof.
  intros (Ha & Hh & Hr & Hs) Hsub. split_and!; cbn; [lia..| |].
  - intros n Hn. apply Hr. set_solver.
  - pose proof (subseteq_size _ _ Hsub). lia.
Qed.

Lemma record_sent_ok n p : proxy_ok p → n < i64_max → proxy_ok (record_sent n p).
Proof.
  intros Hp Hn. unfold record_sent. apply proxy_ok_shrink; [|set_solver].
  destruct (Z.ltb_spec (rp_highest_sent p) n); [|done].
  destruct Hp as (Ha & Hh & Hr & Hs). split_and!; cbn; auto; lia.
Qed.

Lemma assume_acked_ok n p : proxy_ok p → n < i64_max → proxy_ok (assume_acked_through n p).
Proof.
  intros (Ha & Hh & Hr & Hs) Hn. unfold assume_acked_through. destruct (Z.ltb_spec (rp_acked_through p) n); [|done].
  assert (filter (λ held, n < held) (rp_requested p) ⊆ rp_requested p) as Hsub by set_solver.
  split_and!; cbn; [lia..|set_solver|]. pose proof (subseteq_size _ _ Hsub). lia.
Qed.

Lemma skip_history_ok n p : proxy_ok p → n < i64_max → proxy_ok (skip_history_through n p).
Proof.
  intros Hp Hn. unfold skip_history_through. apply assume_acked_ok; [|done].
  destruct (Z.ltb_spec (rp_highest_sent p) n); [|done]. destruct Hp as (Ha & Hh & Hr & Hs). split_and!; cbn; auto; lia.
Qed.

Lemma request_ok n p : proxy_ok p → (size (rp_requested p) < MAX_REQUESTED)%nat → rp_acked_through p < n →
  proxy_ok (set_requested ({[n]} ∪ rp_requested p) p).
Proof.
  intros (Ha & Hh & Hr & Hs) Hlt Hn. split_and!; cbn; [lia..|set_solver|].
  pose proof (size_union_alt {[n]} (rp_requested p)) as E. rewrite size_singleton in E.
  pose proof (subseteq_size (rp_requested p ∖ {[n]}) (rp_requested p) ltac:(set_solver)). lia.
Qed.

Lemma request_resend_ok n p : proxy_ok p → proxy_ok (request_resend n p).
Proof.
  intros Hp. unfold request_resend. destruct (Z.ltb_spec (rp_acked_through p) n); [|done].
  destruct (Nat.ltb_spec (size (rp_requested p)) MAX_REQUESTED); [|done]. by apply request_ok.
Qed.

Lemma request_missing_ok missing p : proxy_ok p → proxy_ok (request_missing missing p).
Proof.
  revert p. induction missing as [|n ns IH]; intros p Hp; cbn [request_missing]; [done|].
  destruct (Nat.leb_spec MAX_REQUESTED (size (rp_requested p))); [done|]. apply IH.
  destruct (Z.ltb_spec (rp_acked_through p) n); [|done]. by apply request_ok.
Qed.

Lemma request_missing_acked missing p :
  rp_acked_through (request_missing missing p) = rp_acked_through p ∧
  rp_guid (request_missing missing p) = rp_guid p ∧ rp_reliable (request_missing missing p) = rp_reliable p ∧
  rp_active (request_missing missing p) = rp_active p.
Proof.
  revert p. induction missing as [|n ns IH]; intros p; cbn [request_missing]; [done|].
  destruct (Nat.leb _ _); [done|]. destruct (Z.ltb _ _); [|apply IH].
  by destruct (IH (set_requested ({[n]} ∪ rp_requested p) p)) as (-> & -> & -> & ->).
Qed.

Lemma sn_previous_lt n : n <= i64_max → sn_previous n < i64_max.
Proof. unfold sn_previous, i64_max, i64_min. lia. Qed.

(** An [ACKNACK] keeps the invariant and never lowers the watermark; a stale
    one changes nothing. *)
Lemma accept_acknack_ok a p p' applied :
  accept_acknack a p = (p', applied) → proxy_ok p → set_base (an_reader_sn_state a) <= i64_max →
  proxy_ok p' ∧ rp_guid p' = rp_guid p ∧ rp_reliable p' = rp_reliable p ∧
  (rp_active p = true → rp_active p' = true) ∧ (applied = false → p' = p) ∧
  rp_acked_through p' = if applied then Z.max (rp_acked_through p) (acknowledged_through a) else rp_acked_through p.
Proof.
  unfold accept_acknack. destruct (Z.leb _ _); intros [= <- <-] Hp Hb; [done|].
  match goal with |- context [request_missing _ ?q] => set (p1 := q) end.
  assert (proxy_ok p1 ∧ rp_guid p1 = rp_guid p ∧ rp_reliable p1 = rp_reliable p ∧ rp_active p1 = true ∧
          rp_acked_through p1 = Z.max (rp_acked_through p) (acknowledged_through a)) as (H1 & Eg & Er & Et & Ea).
  { unfold p1. cbn. pose proof (sn_previous_lt _ Hb) as Hlt. fold (acknowledged_through a) in Hlt.
    destruct (Z.ltb_spec (rp_acked_through p) (acknowledged_through a)).
    - destruct Hp as (Ha & Hh & Hr & Hs). split; [|cbn; split_and!; [done|done|done|lia]]. split_and!; cbn; [lia..|set_solver|].
      pose proof (subseteq_size (filter (λ n, acknowledged_through a < n) (rp_requested p)) (rp_requested p) ltac:(set_solver)).
      lia.
    - split; [|cbn; split_and!; [done|done|done|lia]]. destruct Hp as (Ha & Hh & Hr & Hs). split_and!; cbn; auto; lia. }
  destruct (request_missing_acked (set_iter (an_reader_sn_state a)) p1) as (E1 & E2 & E3 & E4).
  split; [by apply request_missing_ok|]. split_and!; [congruence|congruence|congruence|done|congruence].
Qed.

(** ** The watermark *)

Lemma sn_next_eq n : n < i64_max → sn_next n = n + 1.
Proof. unfold sn_next. lia. Qed.

(** What the walk keeps: the numbers accounted for are the same, and those
    still tracked were tracked before. *)
Lemma advance_loop_spec fuel acked received irr acked' received' irr' :
  advance_loop fuel acked received irr = (acked', received', irr') → acked <= i64_max →
  acked <= acked' <= i64_max ∧ received' ⊆ received ∧ irr' ⊆ irr ∧
  (∀ n, n ∈ received → n ∈ received' ∨ n <= acked') ∧
  (∀ n, n ∈ irr → n ∈ irr' ∨ n <= acked') ∧
  (∀ n, acked < n <= acked' → n ∈ received ∨ n ∈ irr).
Proof.
  revert acked received irr. induction fuel as [|fuel IH]; intros acked received irr; cbn [advance_loop].
  { intros [= <- <- <-] Ha. split_and!; auto; lia. }
  assert (acked <= i64_max → acked <= sn_next acked <= i64_max ∧ ∀ n, acked < n <= sn_next acked → n = sn_next acked) as Hnext.
  { intros Ha. unfold sn_next. split; [lia|]. intros n Hn. lia. }
  case_bool_decide as H1; [|case_bool_decide as H2].
  - intros E Ha. destruct (Hnext Ha) as [Hn Hu]. destruct (IH _ _ _ E) as (?&?&?&Hr&Hi&Hs); [lia|].
    split_and!; [lia|lia|set_solver|set_solver| |done|].
    + intros n Hin. destruct (decide (n = sn_next acked)) as [->|]; [right; lia|]. apply Hr. set_solver.
    + intros n Hin. destruct (decide (n <= sn_next acked)) as [|]; [left; by rewrite (Hu n) by lia|].
      destruct (Hs n) as [?|?]; [lia|set_solver|auto].
  - intros E Ha. destruct (Hnext Ha) as [Hn Hu]. destruct (IH _ _ _ E) as (?&?&?&Hr&Hi&Hs); [lia|].
    split_and!; [lia|lia|set_solver|set_solver|done| |].
    + intros n Hin. destruct (decide (n = sn_next acked)) as [->|]; [right; lia|]. apply Hi. set_solver.
    + intros n Hin. destruct (decide (n <= sn_next acked)) as [|]; [right; by rewrite (Hu n) by lia|].
      destruct (Hs n) as [?|?]; [lia|auto|set_solver].
  - intros [= <- <- <-] Ha. split_and!; auto; lia.
Qed.

(** With the fuel the code's loop needs, it stops at a number that is not
    tracked. *)
Lemma advance_loop_stops fuel acked received irr acked' received' irr' :
  advance_loop fuel acked received irr = (acked', received', irr') → (size received + size irr < fuel)%nat →
  acked' < i64_max → sn_next acked' ∉ received' ∧ sn_next acked' ∉ irr'.
Proof.
  revert acked received irr. induction fuel as [|fuel IH]; intros acked received irr; cbn [advance_loop]; [lia|].
  case_bool_decide as H1; [|case_bool_decide as H2].
  - intros E Hf Hmax. apply (IH _ _ _ E); [|done]. rewrite size_difference, size_singleton by set_solver.
    assert (size received ≠ 0)%nat; [|lia]. apply size_non_empty_iff. set_solver.
  - intros E Hf Hmax. apply (IH _ _ _ E); [|done]. rewrite size_difference, size_singleton by set_solver.
    assert (size irr ≠ 0)%nat; [|lia]. apply size_non_empty_iff. set_solver.
  - by intros [= <- <- <-].
Qed.

(** ** What the watermark stands for

    [D] holds of the numbers handed to the application, [A] of the numbers
    accounted for: delivered, or never to come. *)

Definition tracks (D A : SequenceNumber → Prop) (p : WriterProxy) : Prop :=
  0 <= wp_acked_through p <= i64_max ∧
  (∀ n, n <= wp_acked_through p → A n) ∧ (∀ n, n ∈ wp_received p → D n) ∧ (∀ n, n ∈ wp_irrelevant p → A n) ∧
  (∀ n, D n → n <= wp_acked_through p ∨ n ∈ wp_received p).

Lemma tracks_weaken (D A A' : SequenceNumber → Prop) p : tracks D A p → (∀ n, A n → A' n) → tracks D A' p.
Proof. intros (H0 & H1 & H2 & H3 & H4) HA. split; [done|]. split_and!; auto. Qed.

(** Flags and counters do not matter. *)
Lemma tracks_same D A p p' :
  tracks D A p → wp_acked_through p' = wp_acked_through p → wp_received p' = wp_received p →
  wp_irrelevant p' = wp_irrelevant p → tracks D A p'.
Proof. intros H E1 E2 E3. unfold tracks. by rewrite E1, E2, E3. Qed.

(** The parts of a proxy that do not change. *)
Definition same_writer (p p' : WriterProxy) : Prop := wp_reliable p' = wp_reliable p ∧ wp_guid p' = wp_guid p.

#[global] Instance same_writer_preorder : PreOrder same_writer.
Proof. split; [by intros p|]. intros p q r (? & ?) (? & ?). split; congruence. Qed.

Lemma flag_tracks D A pending active p :
  tracks D A p → same_writer p (wp_flag pending active p) ∧ tracks D A (wp_flag pending active p).
Proof. done. Qed.

Lemma advance_tracks (D A : SequenceNumber → Prop) p :
  (∀ n, D n → A n) → tracks D A p → tracks D A (advance p).
Proof.
  intros HDA (H0 & H1 & H2 & H3 & H4). unfold advance.
  destruct (advance_loop _ _ _ _) as [[acked received] irr] eqn:E.
  destruct (advance_loop_spec _ _ _ _ _ _ _ E ltac:(lia)) as (Hacked & Hr & Hi & Hkeep & _ & Hnew).
  split; [cbn; lia|]. split_and!; cbn.
  - intros n Hn. destruct (decide (n <= wp_acked_through p)) as [|Hgt]; [auto|].
    destruct (Hnew n ltac:(lia)) as [?|?]; auto.
  - intros n Hn. apply H2. set_solver.
  - intros n Hn. apply H3. set_solver.
  - intros n [Hn|Hn]%H4; [left; lia|]. destruct (Hkeep n Hn); auto.
Qed.

Lemma advance_same p : same_writer p (advance p).
Proof. unfold advance. by destruct (advance_loop _ _ _ _) as [[? ?] ?]. Qed.

(** A new sample on a reliable proxy was not delivered before. *)
Lemma accept_data_tracks (D A : SequenceNumber → Prop) n p p' accepted :
  accept_data n p = (p', accepted) → wp_reliable p = true → (∀ m, D m → A m) → tracks D A p →
  same_writer p p' ∧
  if accepted then ¬ D n ∧ tracks (λ m, m = n ∨ D m) (λ m, m = n ∨ A m) p' else tracks D A p'.
Proof.
  unfold accept_data. intros H Hrel HDA Ht. cbn [wp_reliable wp_flag wp_acked_through wp_received] in H. rewrite Hrel in H. cbn [negb] in H.
  destruct (Z.leb_spec n (wp_acked_through p)) as [|Hgt]; [by injection H as <- <-|]. cbn [orb] in H.
  case_bool_decide as Hin; [by injection H as <- <-|]. destruct (N.leb _ _); [by injection H as <- <-|].
  injection H as <- <-. destruct Ht as (H0 & H1 & H2 & H3 & H4).
  split; [by etrans; [|apply advance_same]|]. split; [by intros [?|?]%H4; [lia|]|].
  apply advance_tracks; [naive_solver|]. split; [done|]. split_and!; cbn; [auto|set_solver|auto|].
  intros m [->|Hm]; [right; set_solver|]. destruct (H4 m Hm); [by left|right; set_solver].
Qed.

(** The numbers below the first available one are never to come. *)
Lemma drop_below_tracks (D A : SequenceNumber → Prop) first p :
  tracks D A p → (∀ m, m < first → A m) → 0 < first <= i64_max →
  same_writer p (drop_below first p) ∧ tracks D A (drop_below first p).
Proof.
  intros Ht Hfirst Hmax. unfold drop_below. destruct (Z.ltb _ _); [|done].
  destruct (Z.ltb_spec (wp_acked_through p) (sn_previous first)) as [Hlt|_]; [|done].
  split; [done|]. destruct Ht as (H0 & H1 & H2 & H3 & H4).
  assert (sn_previous first = first - 1) as Ef by (unfold sn_previous, i64_min; lia).
  unfold tracks. cbn [wp_acked_through wp_received wp_irrelevant wp_track]. rewrite Ef in *. split; [lia|]. split_and!.
  - intros n Hn. destruct (decide (n <= wp_acked_through p)); [auto|]. apply Hfirst. lia.
  - intros n [_ Hn]%elem_of_filter. auto.
  - intros n [_ Hn]%elem_of_filter. auto.
  - intros n [Hn|Hn]%H4; [left; lia|]. destruct (decide (n <= first - 1)); [by left|right].
    apply elem_of_filter. split; [lia|done].
Qed.

Lemma learn_last_tracks D A last p :
  tracks D A p → same_writer p (learn_last last p) ∧ tracks D A (learn_last last p).
Proof. intros Ht. unfold learn_last. by destruct (Z.ltb _ _). Qed.

Lemma accept_heartbeat_tracks (D A : SequenceNumber → Prop) h p p' applied :
  accept_heartbeat h p = (p', applied) → (∀ m, D m → A m) → tracks D A p →
  (∀ m, m < hb_first_sn h → A m) → 0 < hb_first_sn h <= i64_max →
  same_writer p p' ∧ tracks D A p'.
Proof.
  unfold accept_heartbeat. intros H HDA Ht Hfirst Hmax. destruct (Z.leb _ _); [by injection H as <- <-|].
  assert (same_writer p (heartbeat_seen (hb_count h) p) ∧ tracks D A (heartbeat_seen (hb_count h) p)) as [S0 T0] by done.
  destruct (drop_below_tracks D A (hb_first_sn h) _ T0 Hfirst Hmax) as [S1 T1].
  destruct (learn_last_tracks D A (hb_last_sn h) _ T1) as [S2 T2].
  apply advance_tracks in T2; [|done]. pose proof (transitivity S2 (advance_same _)) as S3.
  pose proof (transitivity S0 (transitivity S1 S3)) as S4. clear S0 S1 S2 S3 T0 T1.
  revert H S4 T2. generalize (advance (learn_last (hb_last_sn h) (drop_below (hb_first_sn h) (heartbeat_seen (hb_count h) p)))).
  intros q [= <- _] HS HT. by destruct (_ || _).
Qed.

Lemma gap_loop_tracks (D A : SequenceNumber → Prop) numbers p added p' added' :
  gap_loop numbers p added = (p', added') → tracks D A p → (∀ m, m ∈ numbers → A m) →
  same_writer p p' ∧ tracks D A p'.
Proof.
  revert p added. induction numbers as [|n ns IH]; intros p added H Ht Hns; cbn [gap_loop] in H; [by injection H as <- <-|].
  destruct (_ || _); [apply (IH _ _ H); [done|by intros; apply Hns; right]|].
  destruct (N.leb _ _); [by injection H as <- <-|].
  match type of H with gap_loop _ ?q _ = _ => destruct (IH q _ H) as (E1 & E2); [|by intros; apply Hns; right|done] end.
  destruct Ht as (H0 & H1 & H2 & H3 & H4). split; [done|]. split_and!; cbn; auto. intros m [->%elem_of_singleton|Hm]%elem_of_union; [|auto].
  apply Hns. left.
Qed.

Lemma accept_gap_tracks (D A : SequenceNumber → Prop) g p p' added :
  accept_gap g p = (p', added) → (∀ m, D m → A m) → tracks D A p → (∀ m, m ∈ irrelevant g → A m) →
  same_writer p p' ∧ tracks D A p'.
Proof.
  unfold accept_gap. intros H HDA Ht Hg. destruct (gap_loop _ _ _) as [p1 a1] eqn:E. injection H as <- <-.
  destruct (gap_loop_tracks D A _ _ _ _ _ E) as (S1 & T1); [done|done|].
  split; [etrans; [exact S1|apply advance_same]|]. by apply advance_tracks.
Qed.

(** An [ACKNACK] acknowledges at most the watermark. *)
Lemma acknack_loop_base fuel number end_ p s : set_base (acknack_loop fuel number end_ p s) = set_base s.
Proof.
  revert number s. induction fuel as [|fuel IH]; intros number s; cbn [acknack_loop]; [done|].
  destruct (Z.ltb _ _); [|done]. rewrite IH. destruct (is_satisfied number p); [done|].
  unfold set_insert. destruct (offset_from _ _); [|done]. destruct (N.ltb _ _); [|done]. by destruct (split_bit _).
Qed.

Lemma take_acknack_acks D A reader_id p p' a :
  take_acknack reader_id p = (p', a) → tracks D A p →
  same_writer p p' ∧ tracks D A p' ∧ an_reader_id a = reader_id ∧ an_writer_id a = entity_id (wp_guid p) ∧
  set_base (an_reader_sn_state a) = sn_next (wp_acked_through p) ∧ acknowledged_through a <= wp_acked_through p ∧
  wp_acked_through p' = wp_acked_through p.
Proof.
  unfold take_acknack. intros [= <- <-] Ht. split; [done|]. split; [done|].
  split_and!; try done; unfold acknowledged_through, acknack_state; cbn [an_reader_sn_state]; rewrite acknack_loop_base; cbn.
  - done.
  - destruct Ht as [Hmin _]. unfold sn_previous, sn_next, i64_min in *. lia.
Qed.

(** ** What an [ACKNACK] asks for *)

Lemma acknack_loop_spec fuel number end_ p s :
  set_ok s → set_base s <= number → end_ <= set_base s + 256 → end_ <= i64_max → i64_min <= number →
  end_ - number <= Z.of_nat fuel →
  let s' := acknack_loop fuel number end_ p s in
  set_ok s' ∧ ∀ m, set_contains s' m = true ↔ set_contains s m = true ∨ (number <= m < end_ ∧ is_satisfied m p = false).
Proof.
  cbn zeta. revert number s. induction fuel as [|fuel IH]; intros number s Hok Hb He Hmax Hmin Hf; cbn [acknack_loop].
  { split; [done|]. intros m. split; [by left|]. intros [?|?]; [done|lia]. }
  destruct (Z.ltb_spec number end_) as [Hlt|Hge].
  2: { split; [done|]. intros m. split; [by left|]. intros [?|?]; [done|lia]. }
  replace (sn_saturating_add number 1) with (number + 1) by (unfold sn_saturating_add; lia).
  assert (∃ s1, (if is_satisfied number p then s else match set_insert number s with Ok s => s | Err _ => s end) = s1 ∧
            set_ok s1 ∧ set_base s1 = set_base s ∧
            ∀ m, set_contains s1 m = true ↔ set_contains s m = true ∨ (m = number ∧ is_satisfied number p = false))
    as (s1 & -> & Hok1 & Hb1 & Hc1).
  { eexists; split; [done|]. destruct (is_satisfied number p); [split_and!; [apply Hok..|done|naive_solver]|].
    pose proof (set_insert_spec number s Hok) as Hins. destruct (set_insert number s) as [s1|e]; [|lia].
    destruct Hins as (Hok1 & Hb1 & _ & Hc1). split; [done|]. split; [done|]. intros m.
    rewrite Hc1, orb_true_iff, bool_decide_eq_true. naive_solver. }
  destruct (IH (number + 1) s1) as [Hok' Hc']; [done|lia..|]. split; [done|]. intros m. rewrite Hc', Hc1. split.
  - intros [[?|[-> ?]]|[? ?]]; [by left|right; split; [lia|done]|right; split; [lia|done]].
  - intros [?|[? ?]]; [by left; left|]. destruct (decide (m = number)) as [->|]; [left; by right|right; split; [lia|done]].
Qed.

(** An [ACKNACK] names exactly the missing numbers of the window of 256 above
    the watermark that the writer has announced. *)
Lemma acknack_state_spec p n :
  0 <= wp_acked_through p → wp_acked_through p <= wp_last_available p → wp_last_available p < i64_max →
  n ∈ set_iter (acknack_state p) ↔
    wp_acked_through p < n <= Z.min (wp_acked_through p + 256) (wp_last_available p) ∧ is_satisfied n p = false.
Proof.
  intros Ha Hl Hmax. unfold acknack_state. rewrite sn_next_eq by lia. set (b := wp_acked_through p + 1).
  assert (b = wp_acked_through p + 1) as Eb by done.
  assert (sn_saturating_add (wp_last_available p) 1 = wp_last_available p + 1) as -> by (unfold sn_saturating_add, i64_min; lia).
  set (e := Z.min _ _). assert (e = Z.min (b + 256) (wp_last_available p + 1)) as He.
  { unfold e, b, sn_saturating_add, MAX_SET_BITS, i64_min, i64_max in *. lia. }
  assert (Z.of_nat (N.to_nat MAX_SET_BITS) = 256) as Hfuel by done. revert Hfuel.
  generalize (N.to_nat MAX_SET_BITS) as fuel. intros fuel Hfuel. clearbody b e.
  destruct (acknack_loop_spec fuel b e p (set_new b)) as [Hok Hc].
  - apply set_new_ok.
  - cbn. lia.
  - cbn. lia.
  - lia.
  - unfold i64_min. lia.
  - lia.
  - assert (∀ m, set_contains (acknack_loop fuel b e p (set_new b)) m = true ↔ (b <= m < e ∧ is_satisfied m p = false)) as Hc'.
    { intros m. rewrite Hc, set_contains_new. split; [by intros [?|?]|by right]. }
    rewrite elem_of_set_iter; [|intros m Hm%Hc'; lia|rewrite acknack_loop_base; cbn; unfold i64_min; lia|done].
    rewrite Hc'. split; intros [? ?]; (split; [lia|done]).
Qed.
