(* ===== verification/RtpsFragment.v ===== *)
(** * RTPS: fragmentation and reassembly

    Models [src/crates/astrs-rtps/src/behavior/fragment.rs], the fragment
    numbers and their bitmap ([structure/fragment.rs]) and the [DATA_FRAG]
    submessage with its validity clauses ([messages/data.rs]).  A submessage
    keeps the fields the protocol reads.  Sizes are [N] with the source's
    bounds; octets are a list of [N]. *)

From Stdlib Require Import Lia.
From stdpp Require Import base tactics gmap strings numbers list sorting.
From S2P Require Import Prelude Crc32c Text RtpsTypes RtpsCache.

Open Scope N_scope.

(** ** [structure/fragment.rs] *)

Definition FragmentNumber : Set := N.

Definition fragment_is_valid (n : FragmentNumber) : bool := N.ltb 0 n.
Definition fragment_next (n : FragmentNumber) : FragmentNumber := N.min (n + 1) u32_max.
Definition u32_saturating_add (a b : N) : N := N.min (a + b) u32_max.

Definition fragment_offset_from (n base : FragmentNumber) : option N :=
  if N.ltb n base then None else Some (n - base).

Definition fragment_check_valid (n : FragmentNumber) (context : str) : RtpsResult FragmentNumber :=
  if fragment_is_valid n then Ok n else Err (InvalidFragmentNumber n context).

Record FragmentNumberSet := mkFragmentSet {
  fs_base : FragmentNumber;
  fs_num_bits : N;
  fs_bitmap : list N;
}.

Definition fragment_set_new (base : FragmentNumber) : FragmentNumberSet :=
  mkFragmentSet base 0 (replicate MAX_SET_WORDS 0).

Definition fragment_set_is_empty (s : FragmentNumberSet) : bool := forallb (N.eqb 0) (fs_bitmap s).

Definition fragment_set_contains (s : FragmentNumberSet) (number : FragmentNumber) : bool :=
  match fragment_offset_from number (fs_base s) with
  | None => false
  | Some bit => if N.leb (fs_num_bits s) bit then false else bit_is_set (fs_bitmap s) bit
  end.

Definition fragment_set_insert (number : FragmentNumber) (s : FragmentNumberSet) : RtpsResult FragmentNumberSet :=
  let out_of_range :=
    Err (InvalidFragmentNumberSet (BitOutOfRange (Z.of_N number - Z.of_N (fs_base s))) (lit "FragmentNumberSet::insert")) in
  match fragment_offset_from number (fs_base s) with
  | Some bit =>
      if N.ltb bit MAX_SET_BITS then
        let '(word, mask) := split_bit bit in
        Ok (mkFragmentSet (fs_base s) (if N.leb (fs_num_bits s) bit then bit + 1 else fs_num_bits s)
              (alter (λ slot, N.lor slot mask) word (fs_bitmap s)))
      else out_of_range
  | None => out_of_range
  end.

Definition fragment_set_iter (s : FragmentNumberSet) : list FragmentNumber :=
  omap (λ bit, if bit_is_set (fs_bitmap s) bit then Some (u32_saturating_add (fs_base s) bit) else None)
    (N.of_nat <$> seq 0 (N.to_nat (fs_num_bits s))).

(** ** The [DATA_FRAG] submessage *)

(** Without inline parameters: no fragment of a writer carries any, and no
    reader looks at them. *)
Record DataFrag := mkDataFrag {
  df_reader_id : EntityId;
  df_writer_id : EntityId;
  df_writer_sn : SequenceNumber;
  df_starting_num : FragmentNumber;
  df_count : N;
  df_fragment_size : N;
  df_sample_size : N;
  df_payload : list N;
}.

#[global] Instance data_frag_eq_dec : EqDecision DataFrag.
Proof. solve_decision. Defined.

Definition olen (l : list N) : N := N.of_nat (length l).

Definition div_ceil (a b : N) : N := (a + b - 1) / b.

Definition frag_total_fragments (f : DataFrag) : option N :=
  if N.eqb (df_fragment_size f) 0 then None else Some (div_ceil (df_sample_size f) (df_fragment_size f)).

Definition fragment_end (f : DataFrag) : N := u32_saturating_add (df_starting_num f) (df_count f).

Definition payload_offset (f : DataFrag) : N := (df_starting_num f - 1) * df_fragment_size f.

Definition frag_validate (f : DataFrag) : RtpsResult unit :=
  let? _ := check_valid (df_writer_sn f) (lit "DATA_FRAG writerSN") in
  let? _ := fragment_check_valid (df_starting_num f) (lit "DATA_FRAG fragmentStartingNum") in
  if N.eqb (df_fragment_size f) 0 then Err ZeroFragmentSize
  else if N.eqb (df_count f) 0 then Err NoFragments
  else if N.ltb (df_sample_size f) (df_fragment_size f)
  then Err (FragmentLargerThanSample (df_fragment_size f) (df_sample_size f))
  else
    match frag_total_fragments f with
    | None => Err ZeroFragmentSize
    | Some total =>
        let end_ := fragment_end f in
        if N.ltb total (end_ - 1) then Err (WindowPastEnd (df_starting_num f) (df_count f) total)
        else
          let needed := if N.eqb (end_ - 1) total then (df_count f - 1) * df_fragment_size f + 1
                        else df_count f * df_fragment_size f in
          if N.ltb (olen (df_payload f)) needed then Err (PayloadTooShort needed (olen (df_payload f)))
          else Ok tt
    end.

(** ** [FragmentPlan] *)

Definition FRAGMENTATION_THRESHOLD : N := 65536.
Definition DEFAULT_FRAGMENT_SIZE : N := 1344.
Definition MAX_REASSEMBLY_SAMPLE : N := 67108864.
Definition MAX_FRAGMENTS : N := 1048576.
Definition MAX_ASSEMBLIES_PER_WRITER : nat := 32.

Record FragmentPlan := mkPlan {
  plan_sample_size : N;
  plan_fragment_size : N;
  total_fragments : N;
}.

#[global] Instance plan_eq_dec : EqDecision FragmentPlan.
Proof. solve_decision. Defined.

Definition UNKNOWN_GUID : Guid := mkGuid 0 0.

Definition from_declared (sample_size fragment_size : N) (writer : Guid) (n : SequenceNumber) :
    BehaviorResult FragmentPlan :=
  if N.ltb MAX_REASSEMBLY_SAMPLE sample_size then Err (SampleTooLarge sample_size MAX_REASSEMBLY_SAMPLE)
  else if N.eqb fragment_size 0 then Err (SampleTooLarge sample_size 0)
  else
    let total := div_ceil sample_size fragment_size in
    if N.ltb MAX_FRAGMENTS total then Err (Reassembly writer n (TooManyFragments total MAX_FRAGMENTS))
    else Ok (mkPlan sample_size fragment_size total).

Definition plan_new (sample_size fragment_size : N) : BehaviorResult FragmentPlan :=
  if N.ltb u32_max sample_size then Err (SampleTooLarge sample_size MAX_REASSEMBLY_SAMPLE)
  else from_declared sample_size fragment_size UNKNOWN_GUID SN_FIRST.

Definition window_error (p : FragmentPlan) (number count : N) : BehaviorError :=
  Reassembly UNKNOWN_GUID SN_FIRST
    (WindowPastSample (N.min ((number - 1 + count) * plan_fragment_size p) u64_max) (plan_sample_size p)).

(** The octets [(start, end)] of [count] fragments from [number]. *)
Definition window_of (p : FragmentPlan) (number count : N) : BehaviorResult (N * N) :=
  if N.eqb number 0 || N.eqb count 0 || N.ltb (total_fragments p) number then Err (window_error p number count)
  else
    let start := (number - 1) * plan_fragment_size p in
    let end_ := N.min (N.min (start + count * plan_fragment_size p) u64_max) (plan_sample_size p) in
    if N.leb (plan_sample_size p) start && negb (N.eqb (plan_sample_size p) 0) then Err (window_error p number count)
    else Ok (start, end_).

Definition fragment_len (p : FragmentPlan) (number : N) : BehaviorResult N :=
  let? (s, e) := window_of p number 1 in Ok (e - s).

Definition HEADER_LEN : N := 20.
Definition SUBMESSAGE_HEADER_LEN : N := 4.
Definition DATA_PRELUDE_LEN : N := 20.
Definition DATA_FRAG_PRELUDE_LEN : N := 32.

Definition fragments_per_datagram (p : FragmentPlan) (budget : N) : N :=
  let room := budget - (HEADER_LEN + SUBMESSAGE_HEADER_LEN + DATA_FRAG_PRELUDE_LEN) in
  let per := room / N.max (plan_fragment_size p) 1 in
  N.min (N.max per 1) 65535.

Definition is_needed (p : FragmentPlan) : bool := N.ltb 1 (total_fragments p).

(** ** [fragment_sample] *)

(** [payload.get(window).unwrap_or(&[])] *)
Definition slice (payload : list N) (start end_ : N) : list N :=
  if N.leb start end_ && N.leb end_ (olen payload)
  then take (N.to_nat (end_ - start)) (drop (N.to_nat start) payload) else [].

(** The loop; every turn moves [next] up, the fuel is the number of fragments. *)
Fixpoint fragment_loop (fuel : nat) (reader_id writer_id : EntityId) (n : SequenceNumber) (payload : list N)
    (plan : FragmentPlan) (per_datagram next : N) : BehaviorResult (list DataFrag) :=
  match fuel with
  | O => Ok []
  | S fuel =>
      if N.leb next (total_fragments plan) then
        let remaining := total_fragments plan - next + 1 in
        let count := N.min remaining per_datagram in
        let? (start, end_) := window_of plan next count in
        let f := mkDataFrag reader_id writer_id n next count (plan_fragment_size plan) (plan_sample_size plan)
                   (slice payload start end_) in
        let? rest := fragment_loop fuel reader_id writer_id n payload plan per_datagram
                       (u32_saturating_add next count) in
        Ok (f :: rest)
      else Ok []
  end.

Definition fragment_sample (reader_id writer_id : EntityId) (n : SequenceNumber) (payload : list N)
    (fragment_size datagram_budget : N) : BehaviorResult (list DataFrag) :=
  let? plan := plan_new (olen payload) fragment_size in
  fragment_loop (S (N.to_nat (total_fragments plan))) reader_id writer_id n payload plan
    (fragments_per_datagram plan datagram_budget) 1.

(** ** [Assembly] *)

Record Assembly := mkAssembly {
  asm_plan : FragmentPlan;
  asm_buffer : list N;
  asm_received : list N;
  received_count : N;
}.

Definition assembly_new (p : FragmentPlan) : Assembly :=
  let words := N.max (div_ceil (total_fragments p) 64) 1 in
  mkAssembly p (replicate (N.to_nat (plan_sample_size p)) 0) (replicate (N.to_nat words) 0) 0.

Definition is_complete (a : Assembly) : bool := N.leb (total_fragments (asm_plan a)) (received_count a).

Definition word_of (number : N) : nat := N.to_nat ((number - 1) / 64).
Definition mask_of (number : N) : N := N.shiftl 1 ((number - 1) mod 64).

Definition has (a : Assembly) (number : N) : bool :=
  if N.eqb number 0 || N.ltb (total_fragments (asm_plan a)) number then false
  else
    match asm_received a !! word_of number with
    | None => false
    | Some word => negb (N.eqb (N.land word (mask_of number)) 0)
    end.

Definition mark (number : N) (a : Assembly) : Assembly :=
  if N.eqb number 0 || N.ltb (total_fragments (asm_plan a)) number then a
  else
    match asm_received a !! word_of number with
    | None => a
    | Some word =>
        if N.eqb (N.land word (mask_of number)) 0
        then mkAssembly (asm_plan a) (asm_buffer a)
               (<[word_of number := N.lor word (mask_of number)]> (asm_received a))
               (u32_saturating_add (received_count a) 1)
        else a
    end.

Definition finish (a : Assembly) : option (list N) := if is_complete a then Some (asm_buffer a) else None.

(** The fragment numbers [first..end]. *)
Definition numbers (first end_ : N) : list N := (λ i, first + N.of_nat i) <$> seq 0 (N.to_nat (end_ - first)).

Definition asm_missing (a : Assembly) : option FragmentNumberSet :=
  match find (λ number, negb (has a number)) (numbers 1 (total_fragments (asm_plan a) + 1)) with
  | None => None
  | Some first =>
      let end_ := N.min (u32_saturating_add first MAX_SET_BITS) (u32_saturating_add (total_fragments (asm_plan a)) 1) in
      Some (foldl (λ s number, if has a number then s
                       else match fragment_set_insert number s with Ok s => s | Err _ => s end)
              (fragment_set_new first) (numbers first end_))
  end.

(** ** [Reassembler] *)

Record Reassembler := mkReassembler {
  assemblies : gmap (Guid * SequenceNumber) Assembly;
  per_writer_limit : nat;
}.

Definition reassembler_new : Reassembler := mkReassembler ∅ MAX_ASSEMBLIES_PER_WRITER.

Definition set_assemblies (m : gmap (Guid * SequenceNumber) Assembly) (r : Reassembler) : Reassembler :=
  mkReassembler m (per_writer_limit r).

Definition in_flight (r : Reassembler) (writer : Guid) : list SequenceNumber :=
  ascending_sn (list_to_set (snd <$> filter (λ k, k.1 = writer) (elements (dom (assemblies r))))).

Definition evict_if_needed (writer : Guid) (r : Reassembler) : Reassembler :=
  let held := in_flight r writer in
  if Nat.ltb (length held) (per_writer_limit r) then r
  else match head held with
       | Some oldest => set_assemblies (delete (writer, oldest) (assemblies r)) r
       | None => r
       end.

(** Whether the declared shape agrees with what is held. *)
Definition check_shape (writer : Guid) (n : SequenceNumber) (held plan : FragmentPlan) : BehaviorResult unit :=
  if negb (N.eqb (plan_sample_size held) (plan_sample_size plan))
  then Err (Reassembly writer n (SampleSizeChanged (plan_sample_size held) (plan_sample_size plan)))
  else if negb (N.eqb (plan_fragment_size held) (plan_fragment_size plan))
  then Err (Reassembly writer n (FragmentSizeChanged (plan_fragment_size held) (plan_fragment_size plan)))
  else Ok tt.

(** [buffer.get_mut(window)] and [copy_from_slice]. *)
Definition overwrite (buffer : list N) (start : N) (source : list N) : list N :=
  take (N.to_nat start) buffer ++ source ++ drop (N.to_nat start + length source) buffer.

(** The assembly for the fragment: the held one, or a new one made room for.
    It is inserted before the window is checked. *)
Definition open_assembly (writer : Guid) (f : DataFrag) (plan : FragmentPlan) (r : Reassembler) :
    BehaviorResult (Reassembler * Assembly) :=
  let key := (writer, df_writer_sn f) in
  match assemblies r !! key with
  | Some existing => let? _ := check_shape writer (df_writer_sn f) (asm_plan existing) plan in Ok (r, existing)
  | None =>
      let r := evict_if_needed writer r in
      Ok (set_assemblies (<[key := assembly_new plan]> (assemblies r)) r, assembly_new plan)
  end.

(** Stores the octets of [window] and marks the fragments. *)
Definition store (writer : Guid) (f : DataFrag) (window : N * N) (source : list N) (a : Assembly) : BehaviorResult Assembly :=
  let start := df_starting_num f in
  let covered := (λ i, u32_saturating_add start (N.of_nat i)) <$> seq 0 (N.to_nat (df_count f)) in
  let already_have_all := forallb (has a) covered in
  let? a :=
    if N.leb window.1 window.2 && N.leb window.2 (olen (asm_buffer a)) then
      if already_have_all && negb (bool_decide (slice (asm_buffer a) window.1 window.2 = source))
      then Err (Reassembly writer (df_writer_sn f) (Contradiction start))
      else Ok (mkAssembly (asm_plan a) (overwrite (asm_buffer a) window.1 source) (asm_received a) (received_count a))
    else Ok a in
  Ok (foldl (λ a number, mark number a) a covered).

Definition reassembler_accept (writer : Guid) (f : DataFrag) (r : Reassembler) :
    Reassembler * BehaviorResult (option (list N)) :=
  let n := df_writer_sn f in
  let key := (writer, n) in
  match from_declared (df_sample_size f) (df_fragment_size f) writer n with
  | Err e => (r, Err e)
  | Ok plan =>
      match open_assembly writer f plan r with
      | Err e => (r, Err e)
      | Ok (r, a) =>
          match window_of plan (df_starting_num f) (df_count f) with
          | Err _ =>
              (r, Err (Reassembly writer n
                         (WindowPastSample ((fragment_end f - 1) * df_fragment_size f) (df_sample_size f))))
          | Ok (s, e) =>
              let expected := e - s in
              if N.ltb (olen (df_payload f)) expected
              then (r, Err (RtpsWire (RtpsTruncated (lit "DATA_FRAG serializedPayload") expected (olen (df_payload f)))))
              else
                match store writer f (s, e) (take (N.to_nat expected) (df_payload f)) a with
                | Err e => (r, Err e)
                | Ok a =>
                    if is_complete a then (set_assemblies (delete key (assemblies r)) r, Ok (finish a))
                    else (set_assemblies (<[key := a]> (assemblies r)) r, Ok None)
                end
          end
      end
  end.

Definition reassembler_missing (r : Reassembler) (writer : Guid) (n : SequenceNumber) : option FragmentNumberSet :=
  match assemblies r !! (writer, n) with Some a => asm_missing a | None => None end.

Definition discard (writer : Guid) (n : SequenceNumber) (r : Reassembler) : Reassembler :=
  set_assemblies (delete (writer, n) (assemblies r)) r.

Definition discard_writer (writer : Guid) (r : Reassembler) : Reassembler :=
  set_assemblies (filter (λ x, x.1.1 ≠ writer) (assemblies r)) r.

(** A series of submessages from one writer, and what each returned. *)
Fixpoint accept_series (writer : Guid) (fs : list DataFrag) (r : Reassembler) :
    Reassembler * list (BehaviorResult (option (list N))) :=
  match fs with
  | [] => (r, [])
  | f :: rest =>
      let '(r, x) := reassembler_accept writer f r in
      let '(r, xs) := accept_series writer rest r in
      (r, x :: xs)
  end.

(** ** The bitmap of an assembly *)

Lemma has_eq a n :
  1 <= n <= total_fragments (asm_plan a) →
  has a n = match asm_received a !! word_of n with Some w => N.testbit w ((n - 1) mod 64) | None => false end.
Proof.
  intros Hn. unfold has, mask_of. rewrite (proj2 (N.eqb_neq n 0)), (proj2 (N.ltb_ge _ n)) by lia. cbn.
  destruct (asm_received a !! word_of n); [apply mask_testbit|done].
Qed.

Lemma has_range a n : has a n = true → 1 <= n <= total_fragments (asm_plan a).
Proof. unfold has. destruct (N.eqb_spec n 0); [done|]. destruct (N.ltb_spec (total_fragments (asm_plan a)) n); [done|lia]. Qed.

(** The words cover the fragments of the plan. *)
Definition words_ok (a : Assembly) : Prop :=
  ∀ n, 1 <= n <= total_fragments (asm_plan a) → is_Some (asm_received a !! word_of n).

Lemma mark_plan n a : asm_plan (mark n a) = asm_plan a ∧ asm_buffer (mark n a) = asm_buffer a.
Proof. unfold mark. destruct (_ || _); [done|]. destruct (_ !! _); [|done]. by destruct (N.eqb _ _). Qed.

Lemma same_bit m n : 1 <= m → 1 <= n → word_of m = word_of n → (m - 1) mod 64 = (n - 1) mod 64 → m = n.
Proof.
  unfold word_of. intros Hm Hn Hw Hb.
  pose proof (N.div_mod (m - 1) 64 ltac:(done)). pose proof (N.div_mod (n - 1) 64 ltac:(done)).
  assert ((m - 1) / 64 = (n - 1) / 64) as E by lia. rewrite E, Hb in *. lia.
Qed.

Lemma has_mark n a m :
  words_ok a → 1 <= n <= total_fragments (asm_plan a) →
  has (mark n a) m = bool_decide (m = n) || has a m.
Proof.
  intros Hw Hn. destruct (decide (1 <= m <= total_fragments (asm_plan a))) as [Hm|Hm].
  2: { rewrite bool_decide_false by (intros ->; done). cbn.
       assert (∀ b, asm_plan b = asm_plan a → has b m = false) as Hout.
       { intros b Eb. destruct (has b m) eqn:E; [|done]. apply has_range in E. rewrite Eb in E. done. }
       rewrite !Hout; [done|done|apply mark_plan]. }
  rewrite !has_eq by (rewrite ?(proj1 (mark_plan n a)); done).
  unfold mark. rewrite (proj2 (N.eqb_neq n 0)), (proj2 (N.ltb_ge _ n)) by lia. cbn.
  destruct (Hw n Hn) as [w Ew]. rewrite Ew. destruct (N.eqb_spec (N.land w (mask_of n)) 0) as [E0|E0].
  - cbn [asm_received]. destruct (decide (word_of m = word_of n)) as [Eq|Ne].
    + rewrite Eq, list_lookup_insert_eq, Ew by (by eapply lookup_lt_Some). unfold mask_of.
      rewrite N.lor_spec, N.shiftl_1_l, N.pow2_bits_eqb, orb_comm. f_equal.
      apply eq_true_iff_eq. rewrite N.eqb_eq, bool_decide_eq_true. split; [|by intros ->].
      intros Hb. apply same_bit; [lia|lia|done|done].
    + rewrite list_lookup_insert_ne by done. by rewrite bool_decide_false by (intros ->; done).
  - case_bool_decide as Emn; [|done]. subst m. rewrite Ew. cbn.
    rewrite <-mask_testbit. by apply negb_true_iff, N.eqb_neq.
Qed.

Lemma mark_words n a : words_ok a → words_ok (mark n a).
Proof.
  intros Hw m. rewrite (proj1 (mark_plan n a)). intros Hm. specialize (Hw m Hm).
  unfold mark. destruct (_ || _); [done|]. destruct (_ !! word_of n) as [w|] eqn:Ew; [|done].
  destruct (N.eqb _ _); [|done]. cbn. apply lookup_lt_is_Some. rewrite length_insert. by apply lookup_lt_is_Some.
Qed.

(** ** How many fragments are held *)

Lemma elem_of_numbers first end_ n : n ∈ numbers first end_ ↔ first <= n < end_.
Proof.
  unfold numbers. rewrite list_elem_of_fmap. split.
  - intros (i & -> & Hi%elem_of_seq). lia.
  - intros Hn. exists (N.to_nat (n - first)). rewrite elem_of_seq. lia.
Qed.

Lemma NoDup_numbers first end_ : NoDup (numbers first end_).
Proof. unfold numbers. apply NoDup_fmap_2; [intros x y ?; lia|apply NoDup_seq]. Qed.

Lemma length_numbers first end_ : length (numbers first end_) = N.to_nat (end_ - first).
Proof. unfold numbers. by rewrite length_fmap, length_seq. Qed.

(** The fragments of the plan that are held. *)
Definition held_numbers (a : Assembly) : list N :=
  filter (λ n, has a n = true) (numbers 1 (total_fragments (asm_plan a) + 1)).

Lemma filter_one_more (P Q : N → Prop) `{!∀ x, Decision (P x), !∀ x, Decision (Q x)} n l :
  NoDup l → n ∈ l → ¬ P n → (∀ m, Q m ↔ m = n ∨ P m) →
  length (filter Q l) = S (length (filter P l)).
Proof.
  intros Hnd Hin Hn HQ. induction Hnd as [|x l Hx Hnd IH]; [by apply not_elem_of_nil in Hin|].
  rewrite !filter_cons. apply elem_of_cons in Hin as [->|Hin].
  - rewrite (decide_True (P := Q x)) by naive_solver. rewrite (decide_False (P := P x)) by done. cbn. f_equal.
    clear IH Hnd. induction l as [|y l IH]; [done|]. rewrite !filter_cons. apply not_elem_of_cons in Hx as [Hy Hx].
    destruct (decide (P y)), (decide (Q y)); cbn; rewrite ?IH by done; naive_solver.
  - specialize (IH Hin). destruct (decide (P x)), (decide (Q x)); cbn; rewrite ?IH; naive_solver.
Qed.

Definition count_ok (a : Assembly) : Prop := received_count a = N.of_nat (length (held_numbers a)).

Lemma held_le a : N.of_nat (length (held_numbers a)) <= total_fragments (asm_plan a).
Proof.
  unfold held_numbers. pose proof (length_filter (λ n, has a n = true) (numbers 1 (total_fragments (asm_plan a) + 1))).
  rewrite length_numbers in *. lia.
Qed.

Lemma mark_count n a :
  words_ok a → total_fragments (asm_plan a) < u32_max → 1 <= n <= total_fragments (asm_plan a) →
  count_ok a → count_ok (mark n a).
Proof.
  intros Hw Hmax Hn Hc. destruct (has a n) eqn:Eh.
  - assert (mark n a = a) as ->; [|done]. unfold mark. rewrite has_eq in Eh by done.
    destruct (_ || _); [done|]. destruct (asm_received a !! word_of n); [|done].
    unfold mask_of. rewrite <-mask_testbit in Eh. apply negb_true_iff in Eh. by rewrite Eh.
  - unfold count_ok, held_numbers. rewrite (proj1 (mark_plan n a)).
    rewrite (filter_one_more (λ m, has a m = true) (λ m, has (mark n a) m = true) n).
    + fold (held_numbers a). assert (received_count (mark n a) = received_count a + 1) as ->; [|rewrite Hc; lia].
      rewrite has_eq in Eh by done. unfold mark. rewrite (proj2 (N.eqb_neq n 0)), (proj2 (N.ltb_ge _ n)) by lia. cbn.
      destruct (Hw n Hn) as [w Ew]. rewrite Ew in *. unfold mask_of in *. rewrite <-mask_testbit in Eh.
      apply negb_false_iff in Eh. rewrite Eh. cbn. pose proof (held_le a). unfold count_ok, u32_saturating_add in *. lia.
    + apply NoDup_numbers.
    + apply elem_of_numbers. lia.
    + by rewrite Eh.
    + intros m. rewrite has_mark by done. rewrite orb_true_iff, bool_decide_eq_true. done.
Qed.

(** Marking a run of fragments. *)
Lemma foldl_mark ns a :
  words_ok a → total_fragments (asm_plan a) < u32_max → Forall (λ n, 1 <= n <= total_fragments (asm_plan a)) ns →
  count_ok a →
  let a' := foldl (λ a number, mark number a) a ns in
  asm_plan a' = asm_plan a ∧ asm_buffer a' = asm_buffer a ∧ words_ok a' ∧ count_ok a' ∧
  ∀ m, has a' m = bool_decide (m ∈ ns) || has a m.
Proof.
  cbn zeta. revert a. induction ns as [|n ns IH]; intros a Hw Hmax Hns Hc; cbn [foldl].
  { by split_and!; auto. }
  inversion Hns as [|? ? Hn Hns']; subst. destruct (mark_plan n a) as [Ep Eb].
  destruct (IH (mark n a)) as (Ep' & Eb' & Hw' & Hc' & Hh').
  - by apply mark_words.
  - by rewrite Ep.
  - by rewrite Ep.
  - by apply mark_count.
  - rewrite Ep', Ep, Eb', Eb. split_and!; auto. intros m. rewrite Hh', has_mark by done. rewrite orb_assoc. f_equal.
    apply eq_true_iff_eq. rewrite orb_true_iff, !bool_decide_eq_true, elem_of_cons. tauto.
Qed.

Lemma sublist_full {A} (l k : list A) : l `sublist_of` k → (length k <= length l)%nat → l = k.
Proof.
  induction 1 as [|x l k _ IH|x l k Hs IH]; cbn; intros Hl; [done|f_equal; apply IH; lia|].
  apply sublist_length in Hs. lia.
Qed.

Lemma filter_everything {A} (P : A → Prop) `{!∀ x, Decision (P x)} (l : list A) : (∀ x, x ∈ l → P x) → filter P l = l.
Proof.
  intros Hall. apply sublist_full; [apply sublist_filter|]. induction l as [|x l IH]; [done|].
  rewrite filter_cons, decide_True by (apply Hall; left). cbn. apply le_n_S, IH. intros y Hy. apply Hall. by right.
Qed.

Lemma complete_iff a : count_ok a → is_complete a = true ↔ ∀ n, 1 <= n <= total_fragments (asm_plan a) → has a n = true.
Proof.
  intros Hc. unfold is_complete. rewrite N.leb_le, Hc. set (l := numbers 1 (total_fragments (asm_plan a) + 1)).
  assert (length l = N.to_nat (total_fragments (asm_plan a))) as Hl by (unfold l; rewrite length_numbers; lia). split.
  - intros Hle n Hn. assert (n ∈ held_numbers a) as Hin; [|by apply list_elem_of_filter in Hin as [? _]].
    assert (held_numbers a = l) as ->; [|apply elem_of_numbers; lia].
    apply sublist_full; [apply sublist_filter|]. lia.
  - intros Hall. assert (held_numbers a = l) as ->; [|lia]. unfold held_numbers. fold l.
    apply filter_everything. intros n Hn. apply Hall. apply elem_of_numbers in Hn. lia.
Qed.

(** ** Plans, windows and slices *)

(** What [from_declared] makes. *)
Definition plan_ok (p : FragmentPlan) : Prop :=
  1 <= plan_fragment_size p ∧ plan_sample_size p <= MAX_REASSEMBLY_SAMPLE ∧
  total_fragments p = div_ceil (plan_sample_size p) (plan_fragment_size p) ∧ total_fragments p <= MAX_FRAGMENTS.

Lemma from_declared_ok size fsize writer n p :
  from_declared size fsize writer n = Ok p →
  plan_ok p ∧ plan_sample_size p = size ∧ plan_fragment_size p = fsize.
Proof.
  unfold from_declared. destruct (N.ltb_spec MAX_REASSEMBLY_SAMPLE size); [done|].
  destruct (N.eqb_spec fsize 0); [done|]. destruct (N.ltb_spec MAX_FRAGMENTS (div_ceil size fsize)); [done|].
  intros [= <-]. unfold plan_ok. cbn. split_and!; auto; lia.
Qed.

Lemma plan_ok_declared p writer n :
  plan_ok p → from_declared (plan_sample_size p) (plan_fragment_size p) writer n = Ok p.
Proof.
  destruct p as [size fsize total]. intros (H1 & H2 & H3 & H4). cbn in *. unfold from_declared. subst total.
  rewrite (proj2 (N.ltb_ge _ _)), (proj2 (N.eqb_neq fsize 0)), (proj2 (N.ltb_ge _ _)) by lia. done.
Qed.

(** The last fragment ends at or past the end, the one before it before. *)
Lemma plan_ok_bounds p :
  plan_ok p → plan_sample_size p <= total_fragments p * plan_fragment_size p ∧
  (∀ n, 1 <= n <= total_fragments p → (n - 1) * plan_fragment_size p < plan_sample_size p).
Proof.
  destruct p as [size fsize total]. intros (H1 & _ & H3 & _). cbn in *. unfold div_ceil in H3.
  pose proof (N.div_mod (size + fsize - 1) fsize ltac:(lia)). pose proof (N.mod_lt (size + fsize - 1) fsize ltac:(lia)).
  rewrite <-H3 in *. split; [nia|]. intros n Hn.
  pose proof (N.mul_le_mono_r (n - 1) (total - 1) fsize ltac:(lia)) as Hm.
  rewrite (N.mul_sub_distr_r total) in Hm. clear H3. generalize dependent ((size + fsize - 1) mod fsize). intros r Hr Hlt.
  enough (fsize <= fsize * total) by lia. pose proof (N.mul_le_mono_l 1 total fsize ltac:(lia)). lia.
Qed.

(** A submessage the sample is cut into. *)
Definition piece_of (p : FragmentPlan) (payload : list N) (f : DataFrag) : Prop :=
  df_fragment_size f = plan_fragment_size p ∧ df_sample_size f = plan_sample_size p ∧
  1 <= df_starting_num f ∧ 1 <= df_count f ∧ df_starting_num f + df_count f <= total_fragments p + 1 ∧
  df_payload f = slice payload ((df_starting_num f - 1) * plan_fragment_size p)
                   (N.min ((df_starting_num f - 1 + df_count f) * plan_fragment_size p) (plan_sample_size p)).

Definition covers (f : DataFrag) (n : N) : Prop := df_starting_num f <= n < df_starting_num f + df_count f.

#[global] Instance covers_dec f n : Decision (covers f n).
Proof. unfold covers. apply _. Defined.

Lemma window_of_ok p number count :
  plan_ok p → 1 <= number → 1 <= count → number + count <= total_fragments p + 1 →
  window_of p number count =
    Ok ((number - 1) * plan_fragment_size p, N.min ((number - 1 + count) * plan_fragment_size p) (plan_sample_size p)).
Proof.
  intros Hp Hn Hc Ht. destruct (plan_ok_bounds p Hp) as [_ Hb]. specialize (Hb number ltac:(lia)).
  destruct Hp as (H1 & H2 & _ & _). unfold window_of, MAX_REASSEMBLY_SAMPLE in *.
  rewrite (proj2 (N.eqb_neq number 0)), (proj2 (N.eqb_neq count 0)), (proj2 (N.ltb_ge _ _)) by lia. cbn [orb].
  rewrite (proj2 (N.leb_gt _ _)) by lia. cbn [andb]. do 2 f_equal. rewrite <-N.mul_add_distr_r. unfold u64_max. lia.
Qed.

Lemma length_slice payload s e : s <= e <= olen payload → olen (slice payload s e) = e - s.
Proof.
  intros H. unfold slice, olen in *. rewrite (proj2 (N.leb_le s e)), (proj2 (N.leb_le e _)) by lia. cbn.
  rewrite length_take, length_drop. lia.
Qed.

Lemma lookup_slice payload s e i :
  s <= e <= olen payload → N.of_nat i < e - s → slice payload s e !! i = payload !! (N.to_nat s + i)%nat.
Proof.
  intros H Hi. unfold slice, olen in *. rewrite (proj2 (N.leb_le s e)), (proj2 (N.leb_le e _)) by lia. cbn.
  rewrite lookup_take_lt by lia. by rewrite lookup_drop.
Qed.

Lemma length_overwrite buffer s source :
  s + olen source <= olen buffer → length (overwrite buffer s source) = length buffer.
Proof. unfold overwrite, olen. intros H. rewrite !length_app, length_take, length_drop. lia. Qed.

(** The octets of the window come from the source, the rest is kept. *)
Lemma lookup_overwrite buffer s source i :
  s + olen source <= olen buffer →
  overwrite buffer s source !! i =
    if decide (s <= N.of_nat i < s + olen source) then source !! (i - N.to_nat s)%nat else buffer !! i.
Proof.
  unfold overwrite, olen. intros H. case_decide as Hi.
  - rewrite lookup_app_r by (rewrite length_take; lia). rewrite length_take, Nat.min_l by lia.
    rewrite lookup_app_l by lia. done.
  - destruct (decide (N.of_nat i < s)) as [Hl|Hl].
    + rewrite lookup_app_l by (rewrite length_take; lia). by rewrite lookup_take_lt by lia.
    + rewrite !lookup_app_r; rewrite ?length_take; try lia. rewrite lookup_drop. f_equal. lia.
Qed.

(** An octet is in the window exactly when its fragment is covered. *)
Lemma octet_covered fsize start count i :
  1 <= fsize → 1 <= start →
  (start - 1) * fsize <= i < (start - 1 + count) * fsize ↔ start <= i / fsize + 1 < start + count.
Proof.
  intros Hf Hs. pose proof (N.div_mod i fsize ltac:(lia)). pose proof (N.mod_lt i fsize ltac:(lia)).
  generalize dependent (i / fsize). generalize dependent (i mod fsize). intros r Hr q ->.
  split; intros Hi; split; nia.
Qed.

(** ** The reassembly of one sample *)

Section Reassembly.

Context (payload : list N) (plan : FragmentPlan).
Hypothesis Hplan : plan_ok plan.
Hypothesis Hsize : plan_sample_size plan = olen payload.

(** What an assembly holds after the pieces [seen]. *)
Definition asm_ok (seen : list DataFrag) (a : Assembly) : Prop :=
  asm_plan a = plan ∧ length (asm_buffer a) = length payload ∧ words_ok a ∧ count_ok a ∧
  (∀ n, has a n = true ↔ ∃ f, f ∈ seen ∧ covers f n) ∧
  (∀ i, (i < length payload)%nat → has a (N.of_nat i / plan_fragment_size plan + 1) = true →
        asm_buffer a !! i = payload !! i).

Lemma assembly_new_ok : asm_ok [] (assembly_new plan).
Proof.
  assert (∀ n, has (assembly_new plan) n = false) as Hno.
  { intros n. destruct (has (assembly_new plan) n) eqn:E; [|done]. pose proof (has_range _ _ E) as Hr.
    rewrite has_eq in E by done. cbn in E. destruct (replicate _ 0 !! _) as [w|] eqn:Ew; [|done].
    apply lookup_replicate in Ew as [-> _]. by rewrite N.bits_0 in E. }
  split_and!.
  - done.
  - cbn. rewrite length_replicate, Hsize. unfold olen. lia.
  - intros n Hn. cbn in *. apply lookup_lt_is_Some. rewrite length_replicate. unfold word_of, div_ceil.
    assert ((n - 1) / 64 < (total_fragments plan + 64 - 1) / 64); [|lia].
    pose proof (N.Div0.div_le_mono (n - 1 + 1 * 64) (total_fragments plan + 64 - 1) 64 ltac:(lia)) as Hd.
    rewrite N.div_add in Hd by done. lia.
  - unfold count_ok, held_numbers. cbn [received_count assembly_new]. induction (numbers 1 _) as [|n l IH]; [done|].
    rewrite filter_cons, Hno. rewrite decide_False by done. done.
  - intros n. rewrite Hno. split; [done|]. intros (f & Hf & _). by apply not_elem_of_nil in Hf.
  - intros i Hi. by rewrite Hno.
Qed.

(** The fragments a piece covers, as the loop enumerates them. *)
Lemma covered_numbers f :
  piece_of plan payload f →
  ∀ n, n ∈ (λ i, u32_saturating_add (df_starting_num f) (N.of_nat i)) <$> seq 0 (N.to_nat (df_count f)) ↔ covers f n.
Proof.
  intros (_ & _ & H1 & H2 & H3 & _) n. destruct Hplan as (_ & _ & _ & Hmax).
  unfold covers, MAX_FRAGMENTS, u32_saturating_add, u32_max in *. rewrite list_elem_of_fmap. split.
  - intros (i & -> & Hi%elem_of_seq). lia.
  - intros Hn. exists (N.to_nat (n - df_starting_num f)). rewrite elem_of_seq. lia.
Qed.

(** Storing a piece: the assembly holds it too, and no contradiction is found. *)
Lemma store_ok writer seen a f :
  asm_ok seen a → piece_of plan payload f →
  let s := (df_starting_num f - 1) * plan_fragment_size plan in
  let e := N.min ((df_starting_num f - 1 + df_count f) * plan_fragment_size plan) (plan_sample_size plan) in
  ∃ a', store writer f (s, e) (slice payload s e) a = Ok a' ∧ asm_ok (f :: seen) a'.
Proof.
  intros (Ep & Hl & Hw & Hc & Hh & Hb) Hf s e. pose proof (covered_numbers f Hf) as Hcov.
  destruct Hf as (_ & _ & H1 & H2 & H3 & _). destruct (plan_ok_bounds plan Hplan) as [_ Hbound].
  specialize (Hbound (df_starting_num f) ltac:(lia)).
  assert (1 <= plan_fragment_size plan) as Hfs by apply Hplan.
  pose proof (N.mul_le_mono_r (df_starting_num f - 1) (df_starting_num f - 1 + df_count f)
                (plan_fragment_size plan) ltac:(lia)) as Hmono.
  assert (s <= e <= olen payload) as Hse by (unfold s, e; rewrite <-Hsize; lia).
  assert (olen (slice payload s e) = e - s) as Hls by by apply length_slice.
  assert (olen (asm_buffer a) = olen payload) as Hla by (unfold olen; by rewrite Hl).
  (* the octet [i] is in the window exactly when its fragment is covered *)
  assert (∀ i, (i < length payload)%nat →
            s <= N.of_nat i < e ↔ covers f (N.of_nat i / plan_fragment_size plan + 1)) as Hoct.
  { intros i Hi. unfold covers. rewrite <-octet_covered by done. unfold s, e. rewrite Hsize. unfold olen. lia. }
  clearbody s e. unfold store. cbn [fst snd]. set (ns := _ <$> seq 0 _) in *.
  rewrite (proj2 (N.leb_le s e)), (proj2 (N.leb_le e _)) by lia. cbn [andb].
  assert (forallb (has a) ns && negb (bool_decide (slice (asm_buffer a) s e = slice payload s e)) = false) as ->.
  { apply andb_false_iff. destruct (forallb (has a) ns) eqn:Eall; [right|by left].
    rewrite bool_decide_true; [done|]. rewrite forallb_forall in Eall. apply list_eq_same_length with (n := N.to_nat (e - s)).
    - unfold olen in *. lia.
    - pose proof (length_slice (asm_buffer a) s e ltac:(lia)). unfold olen in *. lia.
    - intros i x y Hi Hx Hy. rewrite lookup_slice in Hx, Hy by lia. rewrite Hb in Hx; [congruence| |].
      + unfold olen in *. lia.
      + apply Eall. apply list_elem_of_In, Hcov, Hoct; unfold olen in *; lia. }
  cbn [rbind]. eexists; split; [done|].
  set (a1 := mkAssembly (asm_plan a) (overwrite (asm_buffer a) s (slice payload s e)) (asm_received a) (received_count a)).
  destruct (foldl_mark ns a1) as (Ep' & Eb' & Hw' & Hc' & Hh').
  - exact Hw.
  - cbn. rewrite Ep. destruct Hplan as (_ & _ & _ & Hm). unfold MAX_FRAGMENTS, u32_max in *. lia.
  - apply Forall_forall. intros n Hn%Hcov. unfold covers in Hn. cbn. rewrite Ep. lia.
  - exact Hc.
  - assert (∀ m, has a1 m = has a m) as Ha1 by done. split_and!.
    + by rewrite Ep'.
    + rewrite Eb'. cbn. rewrite length_overwrite by lia. done.
    + done.
    + done.
    + intros n. rewrite Hh', orb_true_iff, bool_decide_eq_true, Hcov, Ha1, Hh. split.
      * intros [?|(g & ? & ?)]; [exists f; split; [left|done]|exists g; split; [by right|done]].
      * intros (g & [->|Hg]%elem_of_cons & ?); [by left|right; by exists g].
    + intros i Hi. rewrite Eb', Hh', Ha1. cbn [asm_buffer a1]. rewrite lookup_overwrite by lia. rewrite Hls.
      rewrite orb_true_iff, bool_decide_eq_true, Hcov, <-Hoct by done. intros Hor. case_decide as Hd.
      * rewrite lookup_slice by lia. f_equal. lia.
      * apply Hb; [done|]. destruct Hor as [?|?]; [lia|done].
Qed.

(** A complete assembly holds the payload. *)
Lemma complete_payload seen a : asm_ok seen a → is_complete a = true → asm_buffer a = payload.
Proof.
  intros (Ep & Hl & Hw & Hc & Hh & Hb) Hcomp. pose proof (proj1 (complete_iff a Hc) Hcomp) as Hall.
  apply list_eq_same_length with (n := length payload); [done|done|]. intros i x y Hi Hx Hy.
  rewrite Hb in Hx; [congruence|done|]. apply Hall. rewrite Ep.
  destruct (plan_ok_bounds plan Hplan) as [Hcover _]. destruct Hplan as (H1 & _). split; [apply N.le_add_l|].
  rewrite Hsize in Hcover. unfold olen in Hcover. rewrite N.add_1_r. apply N.le_succ_l.
  apply N.Div0.div_lt_upper_bound. lia.
Qed.

(** One more piece: the sample when it completes it, nothing otherwise. *)
Lemma accept_step writer n seen a f r :
  asm_ok seen a → piece_of plan payload f → df_writer_sn f = n →
  (assemblies r !! (writer, n) = Some a ∨ (assemblies r !! (writer, n) = None ∧ a = assembly_new plan)) →
  ∃ a' r', asm_ok (f :: seen) a' ∧
    if is_complete a'
    then reassembler_accept writer f r = (r', Ok (Some payload)) ∧ assemblies r' !! (writer, n) = None
    else reassembler_accept writer f r = (r', Ok None) ∧ assemblies r' !! (writer, n) = Some a'.
Proof.
  intros Ha Hf Hn Hr. destruct (store_ok writer seen a f Ha Hf) as (a' & Hs & Ha').
  pose proof Hf as (Efs & Ess & H1 & H2 & H3 & Ep). exists a'.
  assert (∃ r1, open_assembly writer f plan r = Ok (r1, a)) as [r1 Ho].
  { unfold open_assembly. rewrite Hn. destruct Hr as [->|[-> ->]]; [|eauto]. unfold check_shape.
    destruct Ha as [-> _]. rewrite !N.eqb_refl. cbn. eauto. }
  unfold reassembler_accept. rewrite Efs, Ess, plan_ok_declared, Ho, Hn, window_of_ok by done.
  rewrite Ep. destruct (plan_ok_bounds plan Hplan) as [_ Hbound]. specialize (Hbound (df_starting_num f) ltac:(lia)).
  pose proof (N.mul_le_mono_r (df_starting_num f - 1) (df_starting_num f - 1 + df_count f)
                (plan_fragment_size plan) ltac:(lia)) as Hmono.
  set (s := _ * _) in *. set (e := N.min _ _) in *. assert (s <= e <= olen payload) as Hse by (unfold e; lia).
  pose proof (length_slice payload s e Hse) as Hls. rewrite Hls, N.ltb_irrefl.
  rewrite take_ge by (unfold olen in *; lia). rewrite Hs.
  destruct (is_complete a') eqn:Ec; eexists; (split; [done|]); (split; [|cbn]).
  - unfold finish. by rewrite Ec, (complete_payload _ _ Ha' Ec).
  - apply lookup_delete_eq.
  - done.
  - apply lookup_insert_eq.
Qed.

(** Pieces that leave a fragment uncovered return nothing. *)
Lemma accept_series_open writer n fs seen a r missing :
  asm_ok seen a → (∀ f, f ∈ fs → piece_of plan payload f ∧ df_writer_sn f = n ∧ ¬ covers f missing) →
  1 <= missing <= total_fragments plan → (∀ f, f ∈ seen → ¬ covers f missing) →
  (assemblies r !! (writer, n) = Some a ∨ (assemblies r !! (writer, n) = None ∧ a = assembly_new plan)) →
  ∃ a' r', accept_series writer fs r = (r', replicate (length fs) (Ok None)) ∧ asm_ok (rev fs ++ seen) a' ∧
    (assemblies r' !! (writer, n) = Some a' ∨ (assemblies r' !! (writer, n) = None ∧ a' = assembly_new plan)).
Proof.
  revert seen a r. induction fs as [|f fs IH]; intros seen a r Ha Hfs Hm Hseen Hr; [by exists a, r|].
  destruct (Hfs f ltac:(left)) as (Hf & En & Hno).
  destruct (accept_step writer n seen a f r Ha Hf En Hr) as (a1 & r1 & Ha1 & Hres).
  assert (∀ g, g ∈ f :: seen → ¬ covers g missing) as Hseen1 by (intros g [->|?]%elem_of_cons; auto).
  assert (is_complete a1 = false) as Ec.
  { apply not_true_is_false. intros Hc. pose proof Ha1 as (Ep & _ & _ & Hcount & Hh & _).
    rewrite complete_iff in Hc by done. rewrite Ep in Hc. apply Hc, Hh in Hm as (g & Hg & Hcov). by apply (Hseen1 g). }
  rewrite Ec in Hres. destruct Hres as [Hacc Hlook].
  destruct (IH (f :: seen) a1 r1) as (a' & r' & Hser & Ha' & Hr'); [done|by intros; apply Hfs; right|done|done|by left|].
  exists a', r'. cbn [accept_series]. rewrite Hacc, Hser. split_and!; [done| |done].
  cbn [rev]. by rewrite <-app_assoc.
Qed.

End Reassembly.

(** Other series are left as they are, but for one that may be evicted. *)
Lemma open_assembly_frame writer f plan r r' a k b :
  open_assembly writer f plan r = Ok (r', a) → assemblies r' !! k = Some b → k ≠ (writer, df_writer_sn f) →
  assemblies r !! k = Some b.
Proof.
  unfold open_assembly. destruct (assemblies r !! (writer, df_writer_sn f)) as [ex|].
  - destruct (check_shape _ _ _ _); [|done]. by intros [= <- <-].
  - intros [= <- <-] Hk Hne. cbn in Hk. rewrite lookup_insert_ne in Hk by done. unfold evict_if_needed in Hk.
    destruct (Nat.ltb _ _); [done|]. destruct (head _) as [o|]; [|done]. cbn in Hk.
    by apply lookup_delete_Some in Hk as [_ ?].
Qed.

Lemma accept_frame writer f r r' x k b :
  reassembler_accept writer f r = (r', x) → assemblies r' !! k = Some b → k ≠ (writer, df_writer_sn f) →
  assemblies r !! k = Some b.
Proof.
  unfold reassembler_accept. intros H Hk Hne. destruct (from_declared _ _ _ _) as [plan|e]; [|by injection H as <- <-].
  destruct (open_assembly writer f plan r) as [[r1 a]|e] eqn:Eo; [|by injection H as <- <-].
  pose proof (λ H', open_assembly_frame _ _ _ _ _ _ k b Eo H' Hne) as Hframe.
  destruct (window_of _ _ _) as [[s e]|e]; [|injection H as <- <-; auto].
  destruct (N.ltb _ _); [injection H as <- <-; auto|].
  destruct (store _ _ _ _ _) as [a1|e1]; [|injection H as <- <-; auto].
  destruct (is_complete a1); injection H as <- <-; apply Hframe; cbn in Hk.
  - by apply lookup_delete_Some in Hk as [_ ?].
  - by rewrite lookup_insert_ne in Hk.
Qed.

(** ** Cutting a sample *)

Lemma fragment_loop_ok fuel reader_id writer_id n payload p per next :
  plan_ok p → 1 <= per <= 65535 → 1 <= next → (N.to_nat (total_fragments p + 1 - next) < fuel)%nat →
  ∃ fs, fragment_loop fuel reader_id writer_id n payload p per next = Ok fs ∧
    (∀ f, f ∈ fs → piece_of p payload f ∧ df_writer_sn f = n ∧ next <= df_starting_num f) ∧
    (∀ m, next <= m <= total_fragments p → ∃ f, f ∈ fs ∧ covers f m) ∧
    (∀ f g m, f ∈ fs → g ∈ fs → covers f m → covers g m → f = g).
Proof.
  intros Hp Hper. revert next. induction fuel as [|fuel IH]; intros next Hn Hf; [lia|]. cbn [fragment_loop].
  destruct (N.leb_spec next (total_fragments p)) as [Hle|Hgt].
  2: { exists []. split_and!; [done|by intros f ?%not_elem_of_nil|intros m; lia|by intros f ? ? ?%not_elem_of_nil]. }
  set (count := N.min (total_fragments p - next + 1) per). assert (1 <= count <= total_fragments p - next + 1) as Hc by lia.
  rewrite window_of_ok by (done || lia). cbn [rbind].
  assert (u32_saturating_add next count = next + count) as ->.
  { destruct Hp as (_ & _ & _ & Hmax). unfold u32_saturating_add, u32_max, MAX_FRAGMENTS in *. lia. }
  destruct (IH (next + count)) as (fs & -> & Hpieces & Hcov & Hdis); [lia|lia|]. cbn [rbind].
  set (f0 := mkDataFrag _ _ _ _ _ _ _ _). exists (f0 :: fs). split; [done|].
  assert (∀ g m, g ∈ fs → covers f0 m → ¬ covers g m) as Hsep.
  { intros g m Hg Hm. destruct (Hpieces g Hg) as (_ & _ & Hlow). unfold covers in *. cbn in Hm. lia. }
  split_and!.
  - intros f [->|Hin]%elem_of_cons.
    + split_and!; [|done|cbn; lia]. unfold piece_of. cbn. split_and!; (done || lia).
    + destruct (Hpieces f Hin) as (? & ? & ?). split_and!; [done|done|lia].
  - intros m Hm. destruct (decide (m < next + count)) as [Hl|Hl].
    + exists f0. split; [left|]. unfold covers. cbn. lia.
    + destruct (Hcov m ltac:(lia)) as (f & Hin & Hcf). exists f. split; [by right|done].
  - intros f g m [->|Hin]%elem_of_cons [->|Hing]%elem_of_cons Hcf Hcg; [done| | |by eapply Hdis].
    + by destruct (Hsep g m Hing Hcf).
    + by destruct (Hsep f m Hin Hcg).
Qed.

Lemma per_datagram_bounds p budget : 1 <= fragments_per_datagram p budget <= 65535.
Proof. unfold fragments_per_datagram. lia. Qed.

(** A sample that can be cut is cut into pieces that cover each fragment
    exactly once. *)
Lemma fragment_sample_ok reader_id writer_id n payload fragment_size budget fs :
  fragment_sample reader_id writer_id n payload fragment_size budget = Ok fs →
  ∃ p, plan_ok p ∧ plan_sample_size p = olen payload ∧ plan_fragment_size p = fragment_size ∧
    (∀ f, f ∈ fs → piece_of p payload f ∧ df_writer_sn f = n) ∧
    (∀ m, 1 <= m <= total_fragments p → ∃ f, f ∈ fs ∧ covers f m) ∧
    (∀ f g m, f ∈ fs → g ∈ fs → covers f m → covers g m → f = g).
Proof.
  unfold fragment_sample, plan_new. destruct (N.ltb _ _); [done|].
  destruct (from_declared _ _ _ _) as [p|e] eqn:Ep; [|done]. cbn [rbind].
  apply from_declared_ok in Ep as (Hp & Es & Ef).
  destruct (fragment_loop_ok (S (N.to_nat (total_fragments p))) reader_id writer_id n payload p
              (fragments_per_datagram p budget) 1) as (fs' & -> & H1 & H2 & H3).
  - done.
  - apply per_datagram_bounds.
  - done.
  - lia.
  - intros [= <-]. exists p. split_and!; [done..| |done|done]. intros f Hf. destruct (H1 f Hf) as (? & ? & _). done.
Qed.

(** Every piece names the writer. *)
Lemma fragment_loop_writer fuel reader_id writer_id n payload p per next fs f :
  fragment_loop fuel reader_id writer_id n payload p per next = Ok fs → f ∈ fs → df_writer_id f = writer_id.
Proof.
  revert next fs. induction fuel as [|fuel IH]; intros next fs; cbn [fragment_loop].
  { intros [= <-] Hf. by apply not_elem_of_nil in Hf. }
  destruct (N.leb _ _); [|intros [= <-] Hf; by apply not_elem_of_nil in Hf].
  destruct (window_of _ _ _) as [[s e]|e]; [|done]. cbn [rbind].
  destruct (fragment_loop fuel _ _ _ _ _ _ _) as [rest|e'] eqn:E; [|done]. intros [= <-] [->|Hf]%elem_of_cons; [done|].
  by eapply IH.
Qed.

Lemma fragment_sample_writer reader_id writer_id n payload fragment_size budget fs f :
  fragment_sample reader_id writer_id n payload fragment_size budget = Ok fs → f ∈ fs → df_writer_id f = writer_id.
Proof.
  unfold fragment_sample. destruct (plan_new _ _) as [p|e]; [|done]. apply fragment_loop_writer.
Qed.

Lemma accept_series_app writer fs gs r :
  accept_series writer (fs ++ gs) r =
    let '(r1, xs) := accept_series writer fs r in
    let '(r2, ys) := accept_series writer gs r1 in (r2, xs ++ ys).
Proof.
  revert r. induction fs as [|f fs IH]; intros r; cbn [accept_series app].
  { by destruct (accept_series writer gs r). }
  destruct (reassembler_accept writer f r) as [r1 x]. rewrite IH.
  destruct (accept_series writer fs r1) as [r2 xs]. by destruct (accept_series writer gs r2).
Qed.

(** C33. The submessages a sample is cut into, arriving in any order and any
    number of times, give the sample back at the arrival of the last of them
    and nothing before; a later duplicate would start over. *)
Theorem fragments_reassemble reader_id writer_id n payload fragment_size budget fs writer r before last :
  fragment_sample reader_id writer_id n payload fragment_size budget = Ok fs →
  (∀ f, f ∈ before → f ∈ fs) → last ∈ fs → last ∉ before → (∀ f, f ∈ fs → f ∈ before ∨ f = last) →
  assemblies r !! (writer, n) = None →
  ∃ r', accept_series writer (before ++ [last]) r =
          (r', replicate (length before) (Ok None) ++ [Ok (Some payload)]) ∧
        assemblies r' !! (writer, n) = None.
Proof.
  intros Hs Hbefore Hlast Hnew Hall Hr.
  destruct (fragment_sample_ok _ _ _ _ _ _ _ Hs) as (p & Hp & Es & _ & Hpieces & Hcov & Hdis).
  destruct (Hpieces last Hlast) as [Hpl Enl]. pose proof Hpl as (_ & _ & H1 & H2 & H3 & _).
  destruct (accept_series_open payload p Hp Es writer n before [] (assembly_new p) r (df_starting_num last))
    as (a & r1 & Hser & Ha & Hr1).
  - by apply assembly_new_ok.
  - intros f Hf. destruct (Hpieces f (Hbefore f Hf)) as [? ?]. split_and!; [done..|]. intros Hc.
    apply Hnew. rewrite <-(Hdis f last (df_starting_num last)); [done|auto|done|done|unfold covers; lia].
  - lia.
  - by intros f ?%not_elem_of_nil.
  - by right.
  - destruct (accept_step payload p Hp Es writer n _ a last r1 Ha Hpl Enl Hr1) as (a' & r' & Ha' & Hres).
    assert (is_complete a' = true) as Ec.
    { pose proof Ha' as (Ep & _ & _ & Hcount & Hh & _). apply complete_iff; [done|]. rewrite Ep. intros m Hm. apply Hh.
      destruct (Hcov m Hm) as (f & Hf & Hcf). exists f. split; [|done].
      rewrite app_nil_r. destruct (Hall f Hf) as [Hin| ->]; [right; by apply list_elem_of_In, (proj1 (in_rev _ _)), list_elem_of_In|left]. }
    rewrite Ec in Hres. destruct Hres as [Hacc Hlook]. exists r'. split; [|done].
    rewrite accept_series_app, Hser. cbn [accept_series]. by rewrite Hacc.
Qed.

(** Every piece passes the receiver's validity clauses, provided the sample
    is at least one fragment long. *)
Lemma piece_validates p payload f :
  plan_ok p → plan_sample_size p = olen payload → plan_fragment_size p <= olen payload → piece_of p payload f →
  (0 < df_writer_sn f)%Z → frag_validate f = Ok tt.
Proof.
  intros Hp Es Hsize (Ef & Ess & H1 & H2 & H3 & Epl) Hn. destruct (plan_ok_bounds p Hp) as [Htop Hb].
  pose proof (Hb (df_starting_num f) ltac:(lia)) as Hb1.
  pose proof (Hb (df_starting_num f + df_count f - 1) ltac:(lia)) as Hb2.
  destruct Hp as (H1f & Hmax & Et & Htot). unfold frag_validate, check_valid, fragment_check_valid, sn_is_valid, fragment_is_valid.
  rewrite (proj2 (Z.ltb_lt 0 _)), (proj2 (N.ltb_lt 0 _)) by lia. cbn [rbind].
  rewrite Ef, Ess, (proj2 (N.eqb_neq _ 0)), (proj2 (N.eqb_neq (df_count f) 0)), (proj2 (N.ltb_ge _ _)) by lia.
  unfold frag_total_fragments. rewrite Ef, Ess, (proj2 (N.eqb_neq _ 0)) by lia. rewrite <-Et.
  assert (fragment_end f = df_starting_num f + df_count f) as ->.
  { unfold fragment_end, u32_saturating_add, u32_max, MAX_FRAGMENTS in *. lia. }
  rewrite (proj2 (N.ltb_ge _ _)) by lia. rewrite Epl.
  set (s := (df_starting_num f - 1) * plan_fragment_size p) in *.
  assert ((df_starting_num f - 1 + df_count f) * plan_fragment_size p = s + df_count f * plan_fragment_size p) as ->
    by (unfold s; lia).
  assert ((df_starting_num f + df_count f - 1 - 1) * plan_fragment_size p = s + (df_count f - 1) * plan_fragment_size p) as E2.
  { unfold s. rewrite <-N.mul_add_distr_r. f_equal. lia. }
  rewrite E2 in Hb2. rewrite length_slice by lia. rewrite (proj2 (N.ltb_ge _ _)); [done|].
  destruct (N.eqb_spec (df_starting_num f + df_count f - 1) (total_fragments p)) as [El|El].
  - assert ((df_count f - 1) * plan_fragment_size p < df_count f * plan_fragment_size p); [|lia].
    apply N.mul_lt_mono_pos_r; lia.
  - pose proof (Hb (df_starting_num f + df_count f) ltac:(lia)) as Hb3.
    assert ((df_starting_num f + df_count f - 1) * plan_fragment_size p = s + df_count f * plan_fragment_size p) as E3.
    { unfold s. rewrite <-N.mul_add_distr_r. f_equal. lia. }
    rewrite E3 in Hb3. lia.
Qed.

(** The submessages of a sample of at least one fragment all pass the
    validity clauses of the receiver, and a shorter one's do not. *)
Theorem fragments_validate reader_id writer_id n payload fragment_size budget fs :
  fragment_sample reader_id writer_id n payload fragment_size budget = Ok fs → (0 < n)%Z →
  ∀ f, f ∈ fs →
    frag_validate f = if N.ltb (olen payload) fragment_size
                      then Err (FragmentLargerThanSample fragment_size (olen payload)) else Ok tt.
Proof.
  intros Hs Hn f Hf. destruct (fragment_sample_ok _ _ _ _ _ _ _ Hs) as (p & Hp & Es & Ef & Hpieces & _ & _).
  destruct (Hpieces f Hf) as [Hpf Enf]. destruct (N.ltb_spec (olen payload) fragment_size) as [Hlt|Hge].
  2: { apply (piece_validates p payload); try done; [lia|by rewrite Enf]. }
  destruct Hpf as (Ef1 & Ess & H1 & H2 & _). unfold frag_validate, check_valid, fragment_check_valid, sn_is_valid, fragment_is_valid.
  rewrite Enf, (proj2 (Z.ltb_lt 0 _)), (proj2 (N.ltb_lt 0 _)) by lia. cbn [rbind]. rewrite Ef1, Ess, Ef, Es.
  rewrite (proj2 (N.eqb_neq _ 0)), (proj2 (N.eqb_neq (df_count f) 0)), (proj2 (N.ltb_lt _ _)) by lia. done.
Qed.
