(* ===== verification/RtpsMessage.v ===== *)
(** * RTPS: submessages and datagrams

    Models [src/crates/astrs-rtps/src/messages/]: the submessages an endpoint
    exchanges ([data.rs], [info.rs], [acknack.rs], [submessage.rs]), the
    lengths they take, what [Message::encode] refuses, and the builder that
    packs submessages up to a budget ([message.rs]).  A datagram is kept as
    the message it encodes; [RtpsWire] has its octets and [RtpsWireLaws] shows
    that the two agree. *)

From Stdlib Require Import Lia.
From stdpp Require Import base tactics gmap strings numbers list.
From S2P Require Import Prelude Crc32c Text RtpsTypes RtpsCache RtpsProxy RtpsFragment.

Open Scope N_scope.

(** ** [data.rs] *)

(** A parameter list: identifiers and values in wire order. *)
Definition ParameterList : Set := list (N * list N).

Definition STATUS_INFO : N := 0x0071.
Definition BASE_MASK : N := 0x3FFF.

Definition get_by_base (id : N) (l : ParameterList) : option (N * list N) :=
  find (λ entry, N.eqb (N.land entry.1 BASE_MASK) (N.land id BASE_MASK)) l.

(** A header of four octets and the value padded to four; a sentinel at the
    end. *)
Definition parameters_len (l : ParameterList) : N :=
  foldr (λ entry n, 4 + 4 * div_ceil (olen entry.2) 4 + n) 4 l.

Inductive DataPayload : Set := PayloadNone | PayloadData (octets : list N) | PayloadKey (octets : list N).

(** [payload().map(as_slice).unwrap_or_default()] *)
Definition payload_octets (p : DataPayload) : list N :=
  match p with PayloadNone => [] | PayloadData o | PayloadKey o => o end.

Record Data := mkData {
  da_reader_id : EntityId;
  da_writer_id : EntityId;
  da_writer_sn : SequenceNumber;
  da_inline_qos : option ParameterList;
  da_payload : DataPayload;
}.

Definition data_body_len (d : Data) : N :=
  DATA_PRELUDE_LEN + match da_inline_qos d with Some l => parameters_len l | None => 0 end +
  olen (payload_octets (da_payload d)).

Definition data_validate (d : Data) : RtpsResult unit :=
  let? _ := check_valid (da_writer_sn d) (lit "DATA writerSN") in Ok tt.

Definition frag_body_len (f : DataFrag) : N := DATA_FRAG_PRELUDE_LEN + olen (df_payload f).

(** ** [acknack.rs] *)

Record NackFrag := mkNackFrag {
  nf_reader_id : EntityId;
  nf_writer_id : EntityId;
  nf_writer_sn : SequenceNumber;
  nf_state : FragmentNumberSet;
  nf_count : Z;
}.

(** ** [submessage.rs] *)

Inductive Submessage : Set :=
  | SmInfoTimestamp (timestamp : option Time)
  | SmInfoSource (guid_prefix : GuidPrefix)
  | SmInfoDestination (guid_prefix : GuidPrefix)
  | SmData (data : Data)
  | SmDataFrag (fragment : DataFrag)
  | SmHeartbeat (heartbeat : Heartbeat)
  | SmGap (gap : Gap)
  | SmAckNack (acknack : AckNack)
  | SmNackFrag (nack : NackFrag).

Definition set_serialized_len (s : SequenceNumberSet) : N := 12 + 4 * div_ceil (num_bits s) 32.
Definition fragment_set_serialized_len (s : FragmentNumberSet) : N := 8 + 4 * div_ceil (fs_num_bits s) 32.

Definition body_len (m : Submessage) : N :=
  match m with
  | SmInfoTimestamp (Some _) => 8
  | SmInfoTimestamp None => 0
  | SmInfoSource _ => 20
  | SmInfoDestination _ => 12
  | SmData d => data_body_len d
  | SmDataFrag f => frag_body_len f
  | SmHeartbeat _ => 28
  | SmGap g => 16 + set_serialized_len (gp_list g)
  | SmAckNack a => 12 + set_serialized_len (an_reader_sn_state a)
  | SmNackFrag n => 20 + fragment_set_serialized_len (nf_state n)
  end.

(** [id().raw()] *)
Definition submessage_id (m : Submessage) : N :=
  match m with
  | SmInfoTimestamp _ => 0x09
  | SmInfoSource _ => 0x0c
  | SmInfoDestination _ => 0x0e
  | SmData _ => 0x15
  | SmDataFrag _ => 0x16
  | SmHeartbeat _ => 0x07
  | SmGap _ => 0x08
  | SmAckNack _ => 0x06
  | SmNackFrag _ => 0x12
  end.

Definition serialized_len (m : Submessage) : N := SUBMESSAGE_HEADER_LEN + body_len m.

(** ** [message.rs] *)

Record Message := mkMessage { guid_prefix : GuidPrefix; submessages : list Submessage }.

Definition MAX_OCTETS_TO_NEXT_HEADER : N := 65535.

(** The refusals of [encode_into] for a submessage that is not the last. *)
Definition check_not_last (m : Submessage) : RtpsResult unit :=
  if negb (N.eqb (body_len m mod 4) 0) then Err (UnalignedBody (submessage_id m) (body_len m))
  else if N.eqb (body_len m) 0 && negb (match m with SmInfoTimestamp _ => true | _ => false end) then Err (EmptyBodyNotLast (submessage_id m))
  else if N.leb (body_len m) MAX_OCTETS_TO_NEXT_HEADER then Ok tt
  else Err (TooLong (submessage_id m) (body_len m) MAX_OCTETS_TO_NEXT_HEADER).

(** The last submessage may have any length: past the field it declares zero
    and runs to the end. *)
Fixpoint encode_check (l : list Submessage) : RtpsResult unit :=
  match l with
  | [] | [_] => Ok tt
  | m :: rest => let? _ := check_not_last m in encode_check rest
  end.

(** ** The builder *)

Record MessageBuilder := mkBuilder {
  mb_submessages : list Submessage;
  budget : N;
  used : N;
}.

Definition with_budget (b : N) : MessageBuilder := mkBuilder [] b HEADER_LEN.

Definition remaining (b : MessageBuilder) : N := budget b - used b.

Definition fits (m : Submessage) (b : MessageBuilder) : bool := N.leb (serialized_len m) (remaining b).

Definition builder_push (m : Submessage) (b : MessageBuilder) : MessageBuilder :=
  mkBuilder (mb_submessages b ++ [m]) (budget b) (used b + serialized_len m).

(** The builder afterwards and whether the submessage was taken. *)
Definition try_push (m : Submessage) (b : MessageBuilder) : MessageBuilder * bool :=
  if fits m b then (builder_push m b, true) else (b, false).
