(* ===== verification/RtpsWire.v ===== *)
(** * RTPS: the octets of a datagram

    Models the codec of [src/crates/astrs-rtps/src/messages/]: submessage
    kinds and flags ([kind.rs], [flags.rs]), headers ([header.rs]), the bodies
    of all twelve kinds with their byte order and what they preserve of later
    protocol versions ([data.rs], [heartbeat.rs], [acknack.rs], [gap.rs],
    [info.rs], [submessage.rs]), and whole datagrams ([message.rs]); and the
    parameter lists of [astrs-cdr/src/parameter_list/mod.rs].  Bodies are
    written and read by the CDR writer and reader of [Cdr.v].

    The data of a submessage are the records of the protocol ([RtpsMessage]);
    a [WireSubmessage] adds what only the wire has: the byte order, the flags
    and octets reserved for extensions. *)

From Stdlib Require Import Lia.
From stdpp Require Import base tactics strings numbers list.
From S2P Require Import Prelude Crc32c Text Cdr RtpsTypes RtpsCache RtpsProxy RtpsFragment RtpsMessage.

Open Scope N_scope.

(** ** [kind.rs] *)

Inductive SubmessageId : Set :=
  | IdPad | IdAckNack | IdHeartbeat | IdGap | IdInfoTimestamp | IdInfoSource | IdInfoReplyIp4 | IdInfoDestination
  | IdInfoReply | IdNackFrag | IdHeartbeatFrag | IdData | IdDataFrag | IdSecureBody | IdSecurePrefix | IdSecurePostfix
  | IdSecureRtpsPrefix | IdSecureRtpsPostfix | IdUnknown (raw : N).

Definition raw_id (i : SubmessageId) : N :=
  match i with
  | IdPad => 0x01 | IdAckNack => 0x06 | IdHeartbeat => 0x07 | IdGap => 0x08 | IdInfoTimestamp => 0x09
  | IdInfoSource => 0x0c | IdInfoReplyIp4 => 0x0d | IdInfoDestination => 0x0e | IdInfoReply => 0x0f
  | IdNackFrag => 0x12 | IdHeartbeatFrag => 0x13 | IdData => 0x15 | IdDataFrag => 0x16 | IdSecureBody => 0x30
  | IdSecurePrefix => 0x31 | IdSecurePostfix => 0x32 | IdSecureRtpsPrefix => 0x33 | IdSecureRtpsPostfix => 0x34
  | IdUnknown raw => raw
  end.

Definition from_raw (id : N) : SubmessageId :=
  match id with
  | 0x01 => IdPad | 0x06 => IdAckNack | 0x07 => IdHeartbeat | 0x08 => IdGap | 0x09 => IdInfoTimestamp
  | 0x0c => IdInfoSource | 0x0d => IdInfoReplyIp4 | 0x0e => IdInfoDestination | 0x0f => IdInfoReply
  | 0x12 => IdNackFrag | 0x13 => IdHeartbeatFrag | 0x15 => IdData | 0x16 => IdDataFrag | 0x30 => IdSecureBody
  | 0x31 => IdSecurePrefix | 0x32 => IdSecurePostfix | 0x33 => IdSecureRtpsPrefix | 0x34 => IdSecureRtpsPostfix
  | other => IdUnknown other
  end.

Definition allows_empty_body (i : SubmessageId) : bool :=
  match i with IdPad | IdInfoTimestamp => true | _ => false end.

(** ** [flags.rs] *)

Definition FLAG_ENDIANNESS : N := 0x01.
Definition FLAG_INLINE_QOS : N := 0x02.
Definition FLAG_DATA : N := 0x04.
Definition FLAG_KEY : N := 0x08.
Definition FLAG_NON_STANDARD_PAYLOAD : N := 0x10.
Definition FLAG_KEY_FRAG : N := 0x04.
Definition FLAG_NON_STANDARD_PAYLOAD_FRAG : N := 0x08.
Definition FLAG_FINAL : N := 0x02.
Definition FLAG_LIVELINESS : N := 0x04.
Definition FLAG_INVALIDATE : N := 0x02.
Definition FLAG_MULTICAST : N := 0x02.

(** A flag octet. *)
Definition SubmessageFlags : Set := N.

Definition not8 (x : N) : N := N.lxor x 0xFF.

Definition from_endianness (e : Endianness) : SubmessageFlags := match e with Little => FLAG_ENDIANNESS | Big => 0 end.
Definition flags_has (mask : N) (f : SubmessageFlags) : bool := N.eqb (N.land f mask) mask.
Definition flags_with (mask : N) (f : SubmessageFlags) : SubmessageFlags := N.lor f mask.
Definition flags_set (mask : N) (condition : bool) (f : SubmessageFlags) : SubmessageFlags :=
  if condition then N.lor f mask else N.land f (not8 mask).
Definition flags_endianness (f : SubmessageFlags) : Endianness := if N.eqb (N.land f FLAG_ENDIANNESS) 0 then Big else Little.
Definition flags_reserved (defined : N) (f : SubmessageFlags) : N := N.land f (not8 defined).

Definition body_encoding (e : Endianness) : Encoding := encoding_new match e with Little => CdrLe | Big => CdrBe end.

(** What a later version may have added: flag bits, octets at the end. *)
Record Extension := mkExtension { reserved_flags : N; trailing : list N }.

Definition EMPTY_EXTENSION : Extension := mkExtension 0 [].

(** ** Errors: what the codec adds to [RtpsError] *)

Inductive CodecError : Set :=
  | WireCdr (error : CdrError)
  | WireRtps (error : RtpsError)
  | BadProtocolId (found : list N)
  | UnsupportedProtocolVersion (major minor : N)
  | SubmessageOverrun (id declared available : N)
  | MisalignedSubmessage (offset : N)
  | TooManySubmessages (maximum : N)
  | TooManyLocators (declared maximum : N)
  | ConflictingDataFlags
  | InvalidOctetsToInlineQos (id declared minimum : N).

Abbreviation CodecResult := (result CodecError).

(** The [?] that lifts a [CdrError]. *)
Definition cdr {A} (r : CdrResult A) : CodecResult A := map_err WireCdr r.

(** ** [structure/]: the fields *)

(** Octets of a fixed number, in order of significance. *)
Definition octets_serde (k : nat) : CdrSerde N :=
  mkSerde false (N.of_nat k) (λ x w, Ok (write_octets (to_be_bytes k x) w))
    (λ r, let? (octets, r) := read_octets (N.of_nat k) r in Ok (from_be_bytes octets, r)).

Definition guid_prefix_serde : CdrSerde GuidPrefix := octets_serde 12.
Definition entity_id_serde : CdrSerde EntityId := octets_serde 4.

Definition sequence_number_serde : CdrSerde SequenceNumber :=
  mkSerde false 8
    (λ n w, let? w := serialize i32_serde (sn_high n) w in serialize u32_serde (Z.to_N (sn_low n)) w)
    (λ r, let? (high, r) := deserialize i32_serde r in let? (low, r) := deserialize u32_serde r in
          Ok (from_halves high (Z.of_N low), r)).

Definition fragment_number_serde : CdrSerde FragmentNumber := u32_serde.

Definition rtps_time_serde : CdrSerde Time :=
  mkSerde false 8
    (λ t w, let? w := serialize i32_serde t.1 w in serialize u32_serde t.2 w)
    (λ r, let? (seconds, r) := deserialize i32_serde r in let? (fraction, r) := deserialize u32_serde r in
          Ok ((seconds, fraction), r)).

(** [protocol.rs]: two octets each, read one by one. *)
Record ProtocolVersion := mkVersion { major : N; minor : N }.

Definition CURRENT_VERSION : ProtocolVersion := mkVersion 2 3.
Definition is_understood (v : ProtocolVersion) : bool := N.eqb (major v) 2.
Definition check_understood (v : ProtocolVersion) : CodecResult ProtocolVersion :=
  if is_understood v then Ok v else Err (UnsupportedProtocolVersion (major v) (minor v)).

Definition protocol_version_serde : CdrSerde ProtocolVersion :=
  mkSerde false 2 (λ v w, Ok (write_octets [major v; minor v] w))
    (λ r, let? (a, r) := read_u8 r in let? (b, r) := read_u8 r in Ok (mkVersion a b, r)).

Definition VendorId : Set := N * N.
Definition ASTRS_VENDOR : VendorId := (0x41, 0x53).

Definition vendor_id_serde : CdrSerde VendorId :=
  mkSerde false 2 (λ v w, Ok (write_octets [v.1; v.2] w))
    (λ r, let? (a, r) := read_u8 r in let? (b, r) := read_u8 r in Ok ((a, b), r)).

(** [locator.rs]: a kind, a port and sixteen octets of address. *)
Record WireLocator := mkLocator { lo_kind : Z; lo_port : N; lo_address : N }.

Definition LOCATOR_LEN : N := 24.
Definition MAX_LOCATORS : N := 256.

Definition locator_serde : CdrSerde WireLocator :=
  mkSerde false LOCATOR_LEN
    (λ l w, let? w := serialize i32_serde (lo_kind l) w in let? w := serialize u32_serde (lo_port l) w in
            serialize (octets_serde 16) (lo_address l) w)
    (λ r, let? (kind, r) := deserialize i32_serde r in let? (port, r) := deserialize u32_serde r in
          let? (address, r) := deserialize (octets_serde 16) r in Ok (mkLocator kind port address, r)).

Definition write_locators (l : list WireLocator) (w : CdrWriter) : CdrResult CdrWriter :=
  let? w := write_sequence_len (blen l) w in write_items locator_serde l w.

Definition read_locators (r : CdrReader) : CodecResult (list WireLocator * CdrReader) :=
  let? (count, r) := cdr (read_sequence_len LOCATOR_LEN (lit "locator list") r) in
  if N.ltb MAX_LOCATORS count then Err (TooManyLocators count MAX_LOCATORS)
  else cdr (read_items locator_serde (N.to_nat count) r).

(** *** Sets: a base, a width and the words the width needs *)

Definition num_words (bits : N) : nat := N.to_nat (div_ceil bits 32).

(** The words into an array of eight. *)
Definition slots (words : list N) : list N := words ++ replicate (MAX_SET_WORDS - length words) 0.

Definition write_set (s : SequenceNumberSet) (w : CdrWriter) : CdrResult CdrWriter :=
  let? w := serialize sequence_number_serde (set_base s) w in
  let? w := serialize u32_serde (num_bits s) w in
  write_items u32_serde (take (num_words (num_bits s)) (bitmap s)) w.

Definition read_set (context : str) (r : CdrReader) : CodecResult (SequenceNumberSet * CdrReader) :=
  let? (base, r) := cdr (deserialize sequence_number_serde r) in
  let? (bits, r) := cdr (deserialize u32_serde r) in
  if N.ltb MAX_SET_BITS bits then Err (WireRtps (InvalidSequenceNumberSet (NumBitsTooLarge bits) context))
  else
    let? (words, r) := cdr (read_items u32_serde (num_words bits) r) in
    Ok (clear_beyond_window (mkSet base bits (slots words)), r).

Definition write_fragment_set (s : FragmentNumberSet) (w : CdrWriter) : CdrResult CdrWriter :=
  let? w := serialize fragment_number_serde (fs_base s) w in
  let? w := serialize u32_serde (fs_num_bits s) w in
  write_items u32_serde (take (num_words (fs_num_bits s)) (fs_bitmap s)) w.

Definition fragment_clear_beyond_window (s : FragmentNumberSet) : FragmentNumberSet :=
  mkFragmentSet (fs_base s) (fs_num_bits s) (imap (λ i w, clear_word (fs_num_bits s) (N.of_nat i) w) (fs_bitmap s)).

Definition read_fragment_set (context : str) (r : CdrReader) : CodecResult (FragmentNumberSet * CdrReader) :=
  let? (base, r) := cdr (deserialize fragment_number_serde r) in
  let? (bits, r) := cdr (deserialize u32_serde r) in
  if N.ltb MAX_SET_BITS bits then Err (WireRtps (InvalidFragmentNumberSet (NumBitsTooLarge bits) context))
  else
    let? (words, r) := cdr (read_items u32_serde (num_words bits) r) in
    Ok (fragment_clear_beyond_window (mkFragmentSet base bits (slots words)), r).

(** ** [parameter_list/mod.rs] *)

Definition PID_PAD : N := 0x0000.
Definition PID_SENTINEL : N := 0x0001.
Definition PID_EXTENDED : N := 0x3f01.
Definition PID_LIST_END : N := 0x3f02.
Definition PARAMETER_HEADER_LEN : N := 4.
Definition DEFAULT_MAX_PARAMETERS : N := 16384.

Definition is_unsupported (id : N) : bool := N.eqb id PID_EXTENDED || N.eqb id PID_LIST_END.

Fixpoint write_parameters (l : ParameterList) (w : CdrWriter) : CdrResult CdrWriter :=
  match l with
  | [] =>
      let w := w_align 4 w in
      let? w := serialize u16_serde PID_SENTINEL w in
      serialize u16_serde 0 w
  | (id, value) :: rest =>
      let w := w_align 4 w in
      let declared := blen value in
      if N.ltb 0xFFFF declared then Err (ParameterTooLong id declared)
      else
        let? w := serialize u16_serde id w in
        let? w := serialize u16_serde declared w in
        write_parameters rest (write_zeros (padding_to declared 4) (write_octets value w))
  end.

(** One turn of the loop consumes a header of four octets at least: as much
    fuel as octets remain is enough. *)
Fixpoint read_parameters (fuel : nat) (limit : N) (parameters : ParameterList) (r : CdrReader) :
    CdrResult (ParameterList * CdrReader) :=
  match fuel with
  | O => Err MissingSentinel
  | S fuel =>
      let padding := padding_to (r_position r) 4 in
      if N.ltb (r_remaining r) (padding + PARAMETER_HEADER_LEN) then Err MissingSentinel
      else
        let? r := r_align 4 r in
        let? (id, r) := deserialize u16_serde r in
        let? (declared, r) := deserialize u16_serde r in
        if N.eqb id PID_SENTINEL then Ok (parameters, r)
        else if is_unsupported id then Err (UnsupportedParameter id)
        else if N.ltb (r_remaining r) declared
        then Err (LengthOverflow declared (r_remaining r) 1 (lit "parameter value"))
        else
          let? (value, r) := read_octets declared r in
          if N.eqb id PID_PAD then read_parameters fuel limit parameters r
          else if N.eqb (blen parameters) limit then Err (SequenceTooLong (limit + 1) limit)
          else read_parameters fuel limit (parameters ++ [(id, value)]) r
  end.

(** [read_inline_qos]; the byte order a list is labelled with is that of the
    submessage. *)
Definition read_inline_qos (r : CdrReader) : CdrResult (ParameterList * CdrReader) :=
  read_parameters (S (N.to_nat (r_remaining r))) DEFAULT_MAX_PARAMETERS [] r.

(** ** Submessages *)

Record HeartbeatFrag := mkHeartbeatFrag {
  hf_reader_id : EntityId;
  hf_writer_id : EntityId;
  hf_writer_sn : SequenceNumber;
  hf_last_fragment_num : FragmentNumber;
  hf_count : Z;
}.

(** [info.rs] *)
Record InfoSource := mkInfoSource {
  is_unused : N;
  is_version : ProtocolVersion;
  is_vendor_id : VendorId;
  is_guid_prefix : GuidPrefix;
}.

(** [Submessage]; every kind carries its byte order first. *)
Inductive WireSubmessage : Set :=
  | WsData (e : Endianness) (extra_flags : N) (body : Data) (non_standard : bool) (x : Extension)
  | WsDataFrag (e : Endianness) (extra_flags : N) (body : DataFrag) (inline_qos : option ParameterList) (key non_standard : bool)
      (x : Extension)
  | WsHeartbeat (e : Endianness) (body : Heartbeat) (x : Extension)
  | WsHeartbeatFrag (e : Endianness) (body : HeartbeatFrag) (x : Extension)
  | WsAckNack (e : Endianness) (body : AckNack) (x : Extension)
  | WsNackFrag (e : Endianness) (body : NackFrag) (x : Extension)
  | WsGap (e : Endianness) (body : Gap) (x : Extension)
  | WsInfoTimestamp (e : Endianness) (timestamp : option Time) (reserved : N)
  | WsInfoSource (e : Endianness) (body : InfoSource) (reserved : N)
  | WsInfoDestination (e : Endianness) (guid_prefix : GuidPrefix) (reserved : N)
  | WsInfoReply (e : Endianness) (unicast : list WireLocator) (multicast : option (list WireLocator)) (x : Extension)
  | WsPad (e : Endianness) (padding : list N) (reserved : N)
  | WsOpaque (id : SubmessageId) (flags : SubmessageFlags) (body : list N).

Definition ws_id (m : WireSubmessage) : SubmessageId :=
  match m with
  | WsData _ _ _ _ _ => IdData
  | WsDataFrag _ _ _ _ _ _ _ => IdDataFrag
  | WsHeartbeat _ _ _ => IdHeartbeat
  | WsHeartbeatFrag _ _ _ => IdHeartbeatFrag
  | WsAckNack _ _ _ => IdAckNack
  | WsNackFrag _ _ _ => IdNackFrag
  | WsGap _ _ _ => IdGap
  | WsInfoTimestamp _ _ _ => IdInfoTimestamp
  | WsInfoSource _ _ _ => IdInfoSource
  | WsInfoDestination _ _ _ => IdInfoDestination
  | WsInfoReply _ _ _ _ => IdInfoReply
  | WsPad _ _ _ => IdPad
  | WsOpaque id _ _ => id
  end.

Definition is_some {A} (o : option A) : bool := match o with Some _ => true | None => false end.

(** [DataPayload::flag_bits] *)
Definition payload_bits (p : DataPayload) : N :=
  match p with PayloadNone => 0 | PayloadData _ => FLAG_DATA | PayloadKey _ => FLAG_KEY end.

(** The [flags] of each kind. *)
Definition ws_flags (m : WireSubmessage) : SubmessageFlags :=
  match m with
  | WsData e _ d ns x =>
      flags_with (reserved_flags x) (flags_set FLAG_NON_STANDARD_PAYLOAD ns
        (flags_with (payload_bits (da_payload d)) (flags_set FLAG_INLINE_QOS (is_some (da_inline_qos d)) (from_endianness e))))
  | WsDataFrag e _ _ q key ns x =>
      flags_with (reserved_flags x) (flags_set FLAG_NON_STANDARD_PAYLOAD_FRAG ns
        (flags_set FLAG_KEY_FRAG key (flags_set FLAG_INLINE_QOS (is_some q) (from_endianness e))))
  | WsHeartbeat e h x =>
      flags_with (reserved_flags x) (flags_set FLAG_LIVELINESS (hb_liveliness h)
        (flags_set FLAG_FINAL (hb_is_final h) (from_endianness e)))
  | WsAckNack e a x => flags_with (reserved_flags x) (flags_set FLAG_FINAL (an_is_final a) (from_endianness e))
  | WsHeartbeatFrag e _ x | WsNackFrag e _ x | WsGap e _ x => flags_with (reserved_flags x) (from_endianness e)
  | WsInfoTimestamp e t reserved => flags_with reserved (flags_set FLAG_INVALIDATE (negb (is_some t)) (from_endianness e))
  | WsInfoSource e _ reserved | WsInfoDestination e _ reserved | WsPad e _ reserved => flags_with reserved (from_endianness e)
  | WsInfoReply e _ multicast x =>
      flags_with (reserved_flags x) (flags_set FLAG_MULTICAST (is_some multicast) (from_endianness e))
  | WsOpaque _ flags _ => flags
  end.

Definition ws_endianness (m : WireSubmessage) : Endianness := flags_endianness (ws_flags m).

(** [inline_qos.map_or(0, ParameterList::serialized_len)] *)
Definition qos_len (q : option ParameterList) : N := match q with Some l => parameters_len l | None => 0 end.
Definition locators_len (l : list WireLocator) : N := 4 + LOCATOR_LEN * blen l.

(** The [body_len] of each kind. *)
Definition ws_body_len (m : WireSubmessage) : N :=
  match m with
  | WsData _ _ d _ x => data_body_len d + blen (trailing x)
  | WsDataFrag _ _ f q _ _ x => DATA_FRAG_PRELUDE_LEN + qos_len q + blen (df_payload f) + blen (trailing x)
  | WsHeartbeat _ _ x => 28 + blen (trailing x)
  | WsHeartbeatFrag _ _ x => 24 + blen (trailing x)
  | WsAckNack _ a x => 12 + set_serialized_len (an_reader_sn_state a) + blen (trailing x)
  | WsNackFrag _ n x => 20 + fragment_set_serialized_len (nf_state n) + blen (trailing x)
  | WsGap _ g x => 16 + set_serialized_len (gp_list g) + blen (trailing x)
  | WsInfoTimestamp _ t _ => if is_some t then 8 else 0
  | WsInfoSource _ _ _ => 20
  | WsInfoDestination _ _ _ => 12
  | WsInfoReply _ u m x => locators_len u + match m with Some l => locators_len l | None => 0 end + blen (trailing x)
  | WsPad _ padding _ => blen padding
  | WsOpaque _ _ body => blen body
  end.

Definition ws_serialized_len (m : WireSubmessage) : N := SUBMESSAGE_HEADER_LEN + ws_body_len m.

(** *** Writing *)

Definition DATA_OCTETS_TO_INLINE_QOS : N := 16.
Definition DATA_FRAG_OCTETS_TO_INLINE_QOS : N := 28.

Definition write_qos (q : option ParameterList) (w : CdrWriter) : CdrResult CdrWriter :=
  match q with Some l => write_parameters l w | None => Ok w end.

Definition write_trailing (octets : list N) (w : CdrWriter) : CdrResult CdrWriter := Ok (write_octets octets w).

Definition data_write_body (extra_flags : N) (d : Data) (x : Extension) (w : CdrWriter) : CdrResult CdrWriter :=
  let? w := serialize u16_serde extra_flags w in
  let? w := serialize u16_serde DATA_OCTETS_TO_INLINE_QOS w in
  let? w := serialize entity_id_serde (da_reader_id d) w in
  let? w := serialize entity_id_serde (da_writer_id d) w in
  let? w := serialize sequence_number_serde (da_writer_sn d) w in
  let? w := write_qos (da_inline_qos d) w in
  let w := match da_payload d with PayloadNone => w | PayloadData o | PayloadKey o => write_octets o w end in
  write_trailing (trailing x) w.

Definition data_frag_write_body (extra_flags : N) (f : DataFrag) (q : option ParameterList) (x : Extension) (w : CdrWriter) :
    CdrResult CdrWriter :=
  let? w := serialize u16_serde extra_flags w in
  let? w := serialize u16_serde DATA_FRAG_OCTETS_TO_INLINE_QOS w in
  let? w := serialize entity_id_serde (df_reader_id f) w in
  let? w := serialize entity_id_serde (df_writer_id f) w in
  let? w := serialize sequence_number_serde (df_writer_sn f) w in
  let? w := serialize fragment_number_serde (df_starting_num f) w in
  let? w := serialize u16_serde (df_count f) w in
  let? w := serialize u16_serde (df_fragment_size f) w in
  let? w := serialize u32_serde (df_sample_size f) w in
  let? w := write_qos q w in
  write_trailing (trailing x) (write_octets (df_payload f) w).

Definition heartbeat_write_body (h : Heartbeat) (x : Extension) (w : CdrWriter) : CdrResult CdrWriter :=
  let? w := serialize entity_id_serde (hb_reader_id h) w in
  let? w := serialize entity_id_serde (hb_writer_id h) w in
  let? w := serialize sequence_number_serde (hb_first_sn h) w in
  let? w := serialize sequence_number_serde (hb_last_sn h) w in
  let? w := serialize i32_serde (hb_count h) w in
  write_trailing (trailing x) w.

Definition heartbeat_frag_write_body (h : HeartbeatFrag) (x : Extension) (w : CdrWriter) : CdrResult CdrWriter :=
  let? w := serialize entity_id_serde (hf_reader_id h) w in
  let? w := serialize entity_id_serde (hf_writer_id h) w in
  let? w := serialize sequence_number_serde (hf_writer_sn h) w in
  let? w := serialize fragment_number_serde (hf_last_fragment_num h) w in
  let? w := serialize i32_serde (hf_count h) w in
  write_trailing (trailing x) w.

Definition acknack_write_body (a : AckNack) (x : Extension) (w : CdrWriter) : CdrResult CdrWriter :=
  let? w := serialize entity_id_serde (an_reader_id a) w in
  let? w := serialize entity_id_serde (an_writer_id a) w in
  let? w := write_set (an_reader_sn_state a) w in
  let? w := serialize i32_serde (an_count a) w in
  write_trailing (trailing x) w.

Definition nack_frag_write_body (n : NackFrag) (x : Extension) (w : CdrWriter) : CdrResult CdrWriter :=
  let? w := serialize entity_id_serde (nf_reader_id n) w in
  let? w := serialize entity_id_serde (nf_writer_id n) w in
  let? w := serialize sequence_number_serde (nf_writer_sn n) w in
  let? w := write_fragment_set (nf_state n) w in
  let? w := serialize i32_serde (nf_count n) w in
  write_trailing (trailing x) w.

Definition gap_write_body (g : Gap) (x : Extension) (w : CdrWriter) : CdrResult CdrWriter :=
  let? w := serialize entity_id_serde (gp_reader_id g) w in
  let? w := serialize entity_id_serde (gp_writer_id g) w in
  let? w := serialize sequence_number_serde (gp_start g) w in
  let? w := write_set (gp_list g) w in
  write_trailing (trailing x) w.

Definition info_timestamp_write_body (t : option Time) (w : CdrWriter) : CdrResult CdrWriter :=
  match t with Some t => serialize rtps_time_serde t w | None => Ok w end.

Definition info_source_write_body (s : InfoSource) (w : CdrWriter) : CdrResult CdrWriter :=
  let? w := serialize u32_serde (is_unused s) w in
  let? w := serialize protocol_version_serde (is_version s) w in
  let? w := serialize vendor_id_serde (is_vendor_id s) w in
  serialize guid_prefix_serde (is_guid_prefix s) w.

Definition info_reply_write_body (unicast : list WireLocator) (multicast : option (list WireLocator)) (x : Extension)
    (w : CdrWriter) : CdrResult CdrWriter :=
  let? w := write_locators unicast w in
  let? w := match multicast with Some l => write_locators l w | None => Ok w end in
  write_trailing (trailing x) w.

Definition ws_write_body (m : WireSubmessage) : CdrWriter → CdrResult CdrWriter :=
  match m with
  | WsData _ extra d _ x => data_write_body extra d x
  | WsDataFrag _ extra f q _ _ x => data_frag_write_body extra f q x
  | WsHeartbeat _ h x => heartbeat_write_body h x
  | WsHeartbeatFrag _ h x => heartbeat_frag_write_body h x
  | WsAckNack _ a x => acknack_write_body a x
  | WsNackFrag _ n x => nack_frag_write_body n x
  | WsGap _ g x => gap_write_body g x
  | WsInfoTimestamp _ t _ => info_timestamp_write_body t
  | WsInfoSource _ s _ => info_source_write_body s
  | WsInfoDestination _ p _ => serialize guid_prefix_serde p
  | WsInfoReply _ u m x => info_reply_write_body u m x
  | WsPad _ padding _ => write_trailing padding
  | WsOpaque _ _ body => write_trailing body
  end.

Definition ws_encode_body (m : WireSubmessage) : CdrResult (list N) :=
  let? w := ws_write_body m (headerless (body_encoding (ws_endianness m))) in Ok (w_finish w).

(** *** Reading: the fields of a body, then what is left *)

Definition open_body (f : SubmessageFlags) (body : list N) : CdrReader := with_encoding body (body_encoding (flags_endianness f)).

(** [Extension { reserved_flags, trailing: reader.peek_remaining() }] *)
Definition rest_of (defined : N) (f : SubmessageFlags) (r : CdrReader) : Extension :=
  mkExtension (flags_reserved defined f) (peek_remaining r).

Definition DATA_FLAGS : N := 0x1F.
Definition DATA_FRAG_FLAGS : N := 0x0F.
Definition HEARTBEAT_FLAGS : N := 0x07.
Definition ACKNACK_FLAGS : N := 0x03.
Definition INFO_TS_FLAGS : N := 0x03.
Definition INFO_REPLY_FLAGS : N := 0x03.
Definition ENDIANNESS_ONLY : N := 0x01.

Definition read_qos (present : bool) (r : CdrReader) : CodecResult (option ParameterList * CdrReader) :=
  if present then let? (l, r) := cdr (read_inline_qos r) in Ok (Some l, r) else Ok (None, r).

(** Up to the inline parameters. *)
Definition data_fields (f : SubmessageFlags) (r : CdrReader) :
    CodecResult ((N * EntityId * EntityId * SequenceNumber * option ParameterList) * CdrReader) :=
  let? (extra_flags, r) := cdr (deserialize u16_serde r) in
  let? (declared, r) := cdr (deserialize u16_serde r) in
  if N.ltb declared DATA_OCTETS_TO_INLINE_QOS
  then Err (InvalidOctetsToInlineQos (raw_id IdData) declared DATA_OCTETS_TO_INLINE_QOS)
  else
    let? (reader_id, r) := cdr (deserialize entity_id_serde r) in
    let? (writer_id, r) := cdr (deserialize entity_id_serde r) in
    let? (writer_sn, r) := cdr (deserialize sequence_number_serde r) in
    let? r := cdr (r_skip (declared - DATA_OCTETS_TO_INLINE_QOS) r) in
    let? (inline_qos, r) := read_qos (flags_has FLAG_INLINE_QOS f) r in
    Ok ((extra_flags, reader_id, writer_id, writer_sn, inline_qos), r).

Definition data_read (f : SubmessageFlags) (body : list N) : CodecResult WireSubmessage :=
  let has_data := flags_has FLAG_DATA f in
  let has_key := flags_has FLAG_KEY f in
  if has_data && has_key then Err ConflictingDataFlags
  else
    let? (fields, r) := data_fields f (open_body f body) in
    let '(extra_flags, reader_id, writer_id, writer_sn, inline_qos) := fields in
    let remaining := peek_remaining r in
    let '(payload, tail) :=
      if has_data then (PayloadData remaining, [])
      else if has_key then (PayloadKey remaining, [])
      else (PayloadNone, remaining) in
    Ok (WsData (flags_endianness f) extra_flags (mkData reader_id writer_id writer_sn inline_qos payload)
          (flags_has FLAG_NON_STANDARD_PAYLOAD f) (mkExtension (flags_reserved DATA_FLAGS f) tail)).

Definition data_frag_fields (f : SubmessageFlags) (r : CdrReader) :
    CodecResult ((N * (list N → DataFrag) * option ParameterList) * CdrReader) :=
  let? (extra_flags, r) := cdr (deserialize u16_serde r) in
  let? (declared, r) := cdr (deserialize u16_serde r) in
  if N.ltb declared DATA_FRAG_OCTETS_TO_INLINE_QOS
  then Err (InvalidOctetsToInlineQos (raw_id IdDataFrag) declared DATA_FRAG_OCTETS_TO_INLINE_QOS)
  else
    let? (reader_id, r) := cdr (deserialize entity_id_serde r) in
    let? (writer_id, r) := cdr (deserialize entity_id_serde r) in
    let? (writer_sn, r) := cdr (deserialize sequence_number_serde r) in
    let? (starting_num, r) := cdr (deserialize fragment_number_serde r) in
    let? (count, r) := cdr (deserialize u16_serde r) in
    let? (fragment_size, r) := cdr (deserialize u16_serde r) in
    let? (sample_size, r) := cdr (deserialize u32_serde r) in
    let? r := cdr (r_skip (declared - DATA_FRAG_OCTETS_TO_INLINE_QOS) r) in
    let? (inline_qos, r) := read_qos (flags_has FLAG_INLINE_QOS f) r in
    Ok ((extra_flags, mkDataFrag reader_id writer_id writer_sn starting_num count fragment_size sample_size, inline_qos), r).

(** What is left is the payload, all of it. *)
Definition data_frag_read (f : SubmessageFlags) (body : list N) : CodecResult WireSubmessage :=
  let? (fields, r) := data_frag_fields f (open_body f body) in
  let '(extra_flags, fragment, inline_qos) := fields in
  Ok (WsDataFrag (flags_endianness f) extra_flags (fragment (peek_remaining r)) inline_qos (flags_has FLAG_KEY_FRAG f)
        (flags_has FLAG_NON_STANDARD_PAYLOAD_FRAG f) (mkExtension (flags_reserved DATA_FRAG_FLAGS f) [])).

Definition heartbeat_fields (f : SubmessageFlags) (r : CdrReader) : CodecResult (Heartbeat * CdrReader) :=
  let? (reader_id, r) := cdr (deserialize entity_id_serde r) in
  let? (writer_id, r) := cdr (deserialize entity_id_serde r) in
  let? (first_sn, r) := cdr (deserialize sequence_number_serde r) in
  let? (last_sn, r) := cdr (deserialize sequence_number_serde r) in
  let? (count, r) := cdr (deserialize i32_serde r) in
  Ok (mkHeartbeat reader_id writer_id first_sn last_sn count (flags_has FLAG_FINAL f) (flags_has FLAG_LIVELINESS f), r).

Definition heartbeat_read (f : SubmessageFlags) (body : list N) : CodecResult WireSubmessage :=
  let? (h, r) := heartbeat_fields f (open_body f body) in
  Ok (WsHeartbeat (flags_endianness f) h (rest_of HEARTBEAT_FLAGS f r)).

Definition heartbeat_frag_fields (r : CdrReader) : CodecResult (HeartbeatFrag * CdrReader) :=
  let? (reader_id, r) := cdr (deserialize entity_id_serde r) in
  let? (writer_id, r) := cdr (deserialize entity_id_serde r) in
  let? (writer_sn, r) := cdr (deserialize sequence_number_serde r) in
  let? (last_fragment_num, r) := cdr (deserialize fragment_number_serde r) in
  let? (count, r) := cdr (deserialize i32_serde r) in
  Ok (mkHeartbeatFrag reader_id writer_id writer_sn last_fragment_num count, r).

Definition heartbeat_frag_read (f : SubmessageFlags) (body : list N) : CodecResult WireSubmessage :=
  let? (h, r) := heartbeat_frag_fields (open_body f body) in
  Ok (WsHeartbeatFrag (flags_endianness f) h (rest_of ENDIANNESS_ONLY f r)).

Definition acknack_fields (f : SubmessageFlags) (r : CdrReader) : CodecResult (AckNack * CdrReader) :=
  let? (reader_id, r) := cdr (deserialize entity_id_serde r) in
  let? (writer_id, r) := cdr (deserialize entity_id_serde r) in
  let? (state, r) := read_set (lit "ACKNACK readerSNState") r in
  let? (count, r) := cdr (deserialize i32_serde r) in
  Ok (mkAckNack reader_id writer_id state count (flags_has FLAG_FINAL f), r).

Definition acknack_read (f : SubmessageFlags) (body : list N) : CodecResult WireSubmessage :=
  let? (a, r) := acknack_fields f (open_body f body) in
  Ok (WsAckNack (flags_endianness f) a (rest_of ACKNACK_FLAGS f r)).

Definition nack_frag_fields (r : CdrReader) : CodecResult (NackFrag * CdrReader) :=
  let? (reader_id, r) := cdr (deserialize entity_id_serde r) in
  let? (writer_id, r) := cdr (deserialize entity_id_serde r) in
  let? (writer_sn, r) := cdr (deserialize sequence_number_serde r) in
  let? (state, r) := read_fragment_set (lit "NACK_FRAG fragmentNumberState") r in
  let? (count, r) := cdr (deserialize i32_serde r) in
  Ok (mkNackFrag reader_id writer_id writer_sn state count, r).

Definition nack_frag_read (f : SubmessageFlags) (body : list N) : CodecResult WireSubmessage :=
  let? (n, r) := nack_frag_fields (open_body f body) in
  Ok (WsNackFrag (flags_endianness f) n (rest_of ENDIANNESS_ONLY f r)).

Definition gap_fields (r : CdrReader) : CodecResult (Gap * CdrReader) :=
  let? (reader_id, r) := cdr (deserialize entity_id_serde r) in
  let? (writer_id, r) := cdr (deserialize entity_id_serde r) in
  let? (gap_start, r) := cdr (deserialize sequence_number_serde r) in
  let? (gap_list, r) := read_set (lit "GAP gapList") r in
  Ok (mkGap reader_id writer_id gap_start gap_list, r).

Definition gap_read (f : SubmessageFlags) (body : list N) : CodecResult WireSubmessage :=
  let? (g, r) := gap_fields (open_body f body) in
  Ok (WsGap (flags_endianness f) g (rest_of ENDIANNESS_ONLY f r)).

Definition info_timestamp_read (f : SubmessageFlags) (body : list N) : CodecResult WireSubmessage :=
  let? t :=
    if flags_has FLAG_INVALIDATE f then Ok None
    else let? (t, _) := cdr (deserialize rtps_time_serde (open_body f body)) in Ok (Some t) in
  Ok (WsInfoTimestamp (flags_endianness f) t (flags_reserved INFO_TS_FLAGS f)).

Definition info_source_fields (r : CdrReader) : CodecResult (InfoSource * CdrReader) :=
  let? (unused, r) := cdr (deserialize u32_serde r) in
  let? (version, r) := cdr (deserialize protocol_version_serde r) in
  let? (vendor_id, r) := cdr (deserialize vendor_id_serde r) in
  let? (prefix, r) := cdr (deserialize guid_prefix_serde r) in
  Ok (mkInfoSource unused version vendor_id prefix, r).

Definition info_source_read (f : SubmessageFlags) (body : list N) : CodecResult WireSubmessage :=
  let? (s, _) := info_source_fields (open_body f body) in
  Ok (WsInfoSource (flags_endianness f) s (flags_reserved ENDIANNESS_ONLY f)).

Definition info_destination_read (f : SubmessageFlags) (body : list N) : CodecResult WireSubmessage :=
  let? (p, _) := cdr (deserialize guid_prefix_serde (open_body f body)) in
  Ok (WsInfoDestination (flags_endianness f) p (flags_reserved ENDIANNESS_ONLY f)).

Definition info_reply_fields (f : SubmessageFlags) (r : CdrReader) :
    CodecResult ((list WireLocator * option (list WireLocator)) * CdrReader) :=
  let? (unicast, r) := read_locators r in
  let? (multicast, r) :=
    if flags_has FLAG_MULTICAST f then let? (l, r) := read_locators r in Ok (Some l, r) else Ok (None, r) in
  Ok ((unicast, multicast), r).

Definition info_reply_read (f : SubmessageFlags) (body : list N) : CodecResult WireSubmessage :=
  let? (fields, r) := info_reply_fields f (open_body f body) in
  Ok (WsInfoReply (flags_endianness f) fields.1 fields.2 (rest_of INFO_REPLY_FLAGS f r)).

Definition pad_read (f : SubmessageFlags) (body : list N) : CodecResult WireSubmessage :=
  Ok (WsPad (flags_endianness f) body (flags_reserved ENDIANNESS_ONLY f)).

(** ** [header.rs] *)

Record SubmessageHeader := mkSubmessageHeader { sh_id : SubmessageId; sh_flags : SubmessageFlags; sh_octets : N }.

(** [Submessage::read] *)
Definition ws_read (h : SubmessageHeader) (body : list N) : CodecResult WireSubmessage :=
  match sh_id h with
  | IdData => data_read (sh_flags h) body
  | IdDataFrag => data_frag_read (sh_flags h) body
  | IdHeartbeat => heartbeat_read (sh_flags h) body
  | IdHeartbeatFrag => heartbeat_frag_read (sh_flags h) body
  | IdAckNack => acknack_read (sh_flags h) body
  | IdNackFrag => nack_frag_read (sh_flags h) body
  | IdGap => gap_read (sh_flags h) body
  | IdInfoTimestamp => info_timestamp_read (sh_flags h) body
  | IdInfoSource => info_source_read (sh_flags h) body
  | IdInfoDestination => info_destination_read (sh_flags h) body
  | IdInfoReply => info_reply_read (sh_flags h) body
  | IdPad => pad_read (sh_flags h) body
  | IdInfoReplyIp4 | IdSecureBody | IdSecurePrefix | IdSecurePostfix | IdSecureRtpsPrefix | IdSecureRtpsPostfix
  | IdUnknown _ => Ok (WsOpaque (sh_id h) (sh_flags h) body)
  end.

Definition submessage_header_to_bytes (h : SubmessageHeader) : list N :=
  [raw_id (sh_id h); sh_flags h] ++ endian_octets (flags_endianness (sh_flags h)) 2 (sh_octets h).

Definition submessage_header_decode (bytes : list N) : CodecResult SubmessageHeader :=
  match bytes with
  | id :: flags :: l0 :: l1 :: _ => Ok (mkSubmessageHeader (from_raw id) flags (from_endian (flags_endianness flags) [l0; l1]))
  | _ => Err (WireRtps (RtpsTruncated (lit "submessage header") SUBMESSAGE_HEADER_LEN (blen bytes)))
  end.

Inductive BodyExtent : Set := Exact (len : N) | ToEndOfMessage.

Definition body_extent (available : N) (h : SubmessageHeader) : CodecResult BodyExtent :=
  if N.eqb (sh_octets h) 0 then Ok (if allows_empty_body (sh_id h) then Exact 0 else ToEndOfMessage)
  else if N.ltb available (sh_octets h) then Err (SubmessageOverrun (raw_id (sh_id h)) (sh_octets h) available)
  else Ok (Exact (sh_octets h)).

Definition octets_for (id : SubmessageId) (body_len : N) (is_last : bool) : CodecResult N :=
  if N.leb body_len MAX_OCTETS_TO_NEXT_HEADER then Ok body_len
  else if is_last then Ok 0
  else Err (WireRtps (TooLong (raw_id id) body_len MAX_OCTETS_TO_NEXT_HEADER)).

(** The header of a datagram. *)
Record Header := mkHeader { version : ProtocolVersion; vendor_id : VendorId; hd_guid_prefix : GuidPrefix }.

Definition PROTOCOL_ID : list N := [0x52; 0x54; 0x50; 0x53].

Definition rtps_header_new (p : GuidPrefix) : Header := mkHeader CURRENT_VERSION ASTRS_VENDOR p.

Definition rtps_header_to_bytes (h : Header) : list N :=
  PROTOCOL_ID ++ [major (version h); minor (version h)] ++ [(vendor_id h).1; (vendor_id h).2] ++ to_be_bytes 12 (hd_guid_prefix h).

Definition header_decode_prefix (bytes : list N) : CodecResult (Header * list N) :=
  if N.ltb (blen bytes) HEADER_LEN then Err (WireRtps (RtpsTruncated (lit "RTPS message header") HEADER_LEN (blen bytes)))
  else
    let protocol := take 4 bytes in
    if negb (bool_decide (protocol = PROTOCOL_ID)) then Err (BadProtocolId protocol)
    else
      let? v := check_understood (mkVersion (nth 4 bytes 0) (nth 5 bytes 0)) in
      Ok (mkHeader v (nth 6 bytes 0, nth 7 bytes 0) (from_be_bytes (take 12 (drop 8 bytes))), drop 20 bytes).

(** ** [message.rs] *)

Definition MAX_SUBMESSAGES : N := 16384.

Record WireMessage := mkWireMessage { wm_header : Header; wm_submessages : list WireSubmessage }.

Definition wm_serialized_len (m : WireMessage) : N :=
  foldr (λ s n, ws_serialized_len s + n) HEADER_LEN (wm_submessages m).

(** One turn of the loop of [encode_into]. *)
Definition encode_submessage (is_last : bool) (m : WireSubmessage) : CodecResult (list N) :=
  let? body := cdr (ws_encode_body m) in
  let? _ :=
    if is_last then Ok tt
    else if negb (N.eqb (blen body mod 4) 0) then Err (WireRtps (UnalignedBody (raw_id (ws_id m)) (blen body)))
    else if N.eqb (blen body) 0 && negb (allows_empty_body (ws_id m)) then Err (WireRtps (EmptyBodyNotLast (raw_id (ws_id m))))
    else Ok tt in
  let? octets := octets_for (ws_id m) (blen body) is_last in
  Ok (submessage_header_to_bytes (mkSubmessageHeader (ws_id m) (ws_flags m) octets) ++ body).

Fixpoint encode_submessages (l : list WireSubmessage) : CodecResult (list N) :=
  match l with
  | [] => Ok []
  | m :: rest =>
      let? octets := encode_submessage (match rest with [] => true | _ => false end) m in
      let? others := encode_submessages rest in
      Ok (octets ++ others)
  end.

Definition wm_encode (m : WireMessage) : CodecResult (list N) :=
  let? octets := encode_submessages (wm_submessages m) in
  Ok (rtps_header_to_bytes (wm_header m) ++ octets).

(** [SubmessageIter::step]: the submessage, what is left, and where. *)
Definition iter_step (rest : list N) (offset : N) : CodecResult (WireSubmessage * list N * N) :=
  if negb (N.eqb (offset mod 4) 0) then Err (MisalignedSubmessage offset)
  else
    let? header := submessage_header_decode rest in
    let after_header := bdrop SUBMESSAGE_HEADER_LEN rest in
    let? extent := body_extent (blen after_header) header in
    let body_len := match extent with Exact len => len | ToEndOfMessage => blen after_header end in
    let? m := ws_read header (btake body_len after_header) in
    Ok (m, bdrop body_len after_header, offset + (SUBMESSAGE_HEADER_LEN + body_len)).

(** The loop of [decode]; each turn takes a header of four octets. *)
Fixpoint decode_loop (fuel : nat) (rest : list N) (offset : N) (submessages : list WireSubmessage) :
    CodecResult (list WireSubmessage) :=
  match fuel with
  | O => Ok submessages
  | S fuel =>
      match rest with
      | [] => Ok submessages
      | _ =>
          let step := iter_step rest offset in
          if N.eqb (blen submessages) MAX_SUBMESSAGES then Err (TooManySubmessages MAX_SUBMESSAGES)
          else let? (m, rest, offset) := step in decode_loop fuel rest offset (submessages ++ [m])
      end
  end.

Definition wm_decode (bytes : list N) : CodecResult WireMessage :=
  let? (header, rest) := header_decode_prefix bytes in
  let? submessages := decode_loop (S (length rest)) rest HEADER_LEN [] in
  Ok (mkWireMessage header submessages).
