(* ===== verification/RtpsWireLaws.v ===== *)
(** * RTPS: a datagram decodes to what was encoded

    The theory of [RtpsWire.v].  [carries] says of a writer and a reader that
    the one writes octets of a known number from which the other reads the
    value; it composes along the fields of a body, so that the round trip of
    each kind follows from its fields.  On top: the flag octet, parameter
    lists, submessages with their headers, whole datagrams, and the relation
    between the octets and the messages of [RtpsMessage], whose lengths the
    packing of datagrams relies on. *)

From Stdlib Require Import Lia.
From stdpp Require Import base tactics strings numbers list.
From S2P Require Import Prelude Crc32c Text Cdr CdrLaws RtpsTypes RtpsCache RtpsProxy RtpsFragment RtpsMessage RtpsWire.

Open Scope N_scope.

(** ** Writers and readers that agree *)

(** At a position that is [q] modulo four, [wr] writes [n] octets and then
    [t]; [rd] reads [v] off the first and leaves [t]. *)
Definition carries {E A} (t : list N) (q n : N) (wr : CdrWriter → CdrResult CdrWriter)
    (rd : CdrReader → result E (A * CdrReader)) (v : A) : Prop :=
  ∀ e p, p mod 4 = q → ∃ bs, emits wr e p (bs ++ t) ∧ accepts rd e p bs v ∧ blen bs = n.

Lemma carries_bind {E A B} t q n m wr1 wr2 (rd1 : CdrReader → result E (A * CdrReader)) (rd2 : A → CdrReader → result E (B * CdrReader)) a b :
  carries [] q n wr1 rd1 a → carries t ((q + n) mod 4) m wr2 (rd2 a) b →
  carries t q (n + m) (λ w, let? w := wr1 w in wr2 w) (λ r, let? (x, r) := rd1 r in rd2 x r) b.
Proof.
  intros H1 H2 e p Hp. destruct (H1 e p Hp) as (bs & E1 & A1 & L1). rewrite app_nil_r in E1.
  destruct (H2 e (p + blen bs)) as (cs & E2 & A2 & L2).
  { rewrite L1, <-Hp. by rewrite N.Div0.add_mod_idemp_l. }
  exists (bs ++ cs). split_and!.
  - rewrite <-app_assoc. by apply emits_bind.
  - by apply accepts_bind with a.
  - rewrite blen_app. lia.
Qed.

Lemma carries_ret {E A} t q (v : A) : carries t q 0 (write_trailing t) (λ r, @Ok E _ (v, r)) v.
Proof. intros e p _. exists []. split_and!; [apply write_octets_emits|apply accepts_ret|done]. Qed.

Lemma carries_tail {E A} t q wr (v : A) : (∀ w, wr w = write_trailing t w) → carries t q 0 wr (λ r, @Ok E _ (v, r)) v.
Proof. intros H e p _. exists []. split_and!; [|apply accepts_ret|done]. intros w _ _ _. rewrite H. done. Qed.

Lemma carries_none {E A} q (v : A) : carries [] q 0 Ok (λ r, @Ok E _ (v, r)) v.
Proof. intros e p _. exists []. split_and!; [apply emits_ret|apply accepts_ret|done]. Qed.

(** A reader may compute on what it read. *)
Lemma carries_map {E A B} t q n wr (rd : CdrReader → result E (A * CdrReader)) (f : A → B) v :
  carries t q n wr rd v → carries t q n wr (λ r, let? (x, r) := rd r in Ok (f x, r)) (f v).
Proof.
  intros H e p Hp. destruct (H e p Hp) as (bs & E1 & A1 & L1). exists bs. split_and!; [done| |done]. by apply accepts_map.
Qed.

Lemma carries_cdr {A} t q n wr (rd : CdrReader → CdrResult (A * CdrReader)) v :
  carries t q n wr rd v → carries t q n wr (λ r, cdr (rd r)) v.
Proof.
  intros H e p Hp. destruct (H e p Hp) as (bs & E1 & A1 & L1). exists bs. split_and!; [done| |done].
  intros r tail Hr He Hq Hpeek. by rewrite (A1 r tail).
Qed.

Lemma carries_rd_ext {E A} t q n wr (rd rd' : CdrReader → result E (A * CdrReader)) v :
  (∀ r, reader_fine r → rd' r = rd r) → carries t q n wr rd v → carries t q n wr rd' v.
Proof.
  intros Hx H e p Hp. destruct (H e p Hp) as (bs & E1 & A1 & L1). exists bs. split_and!; [done| |done].
  intros r tail Hr He Hq Hpeek. rewrite Hx by done. by apply (A1 r tail).
Qed.

Lemma carries_len {E A} t q n m wr (rd : CdrReader → result E (A * CdrReader)) v : n = m → carries t q n wr rd v → carries t q m wr rd v.
Proof. by intros ->. Qed.

(** ** Fields *)

Lemma no_padding e p k : p mod 4 = 0 ∧ k = 4 ∨ p mod 2 = 0 ∧ k = 2 → padding_at e p k = [].
Proof.
  intros H. unfold padding_at.
  assert (align_for k e = k ∧ is_alignment k) as [-> Ha].
  { unfold align_for, is_alignment. destruct H as [[_ ->]|[_ ->]]; split; auto; by destruct (kind_version (e_kind e)). }
  rewrite padding_to_eq by done.
  destruct H as [[Hp ->]|[Hp ->]]; rewrite Hp; done.
Qed.

Lemma carries_uint k context x q :
  q mod 4 = 0 ∧ k = 4%nat ∨ q mod 2 = 0 ∧ k = 2%nat → fits_in (8 * N.of_nat k) x →
  carries [] q (N.of_nat k) (serialize (uint_serde k context) x) (deserialize (uint_serde k context)) x.
Proof.
  intros Hk Hx e p Hp. exists (uint_bytes e p k x). rewrite app_nil_r.
  assert (is_alignment (N.of_nat k)) as Ha by (unfold is_alignment; destruct Hk as [[_ ->]|[_ ->]]; auto).
  split_and!; [by apply write_uint_emits|by apply read_uint_accepts|].
  unfold uint_bytes. rewrite no_padding; [by rewrite blen_app, blen_endian|].
  destruct Hk as [[H ->]|[H ->]]; [left|right]; split; try done; subst q.
  - by rewrite N.Div0.mod_mod in H.
  - revert H. clear. intros H. zify. Z.to_euclidean_division_equations. lia.
Qed.

Lemma carries_u32 x : fits_in 32 x → carries [] 0 4 (serialize u32_serde x) (deserialize u32_serde) x.
Proof. intros H. apply (carries_uint 4); [by left|done]. Qed.
Lemma carries_u16 q x : q mod 2 = 0 → fits_in 16 x → carries [] q 2 (serialize u16_serde x) (deserialize u16_serde) x.
Proof. intros Hq H. apply (carries_uint 2); [by right|done]. Qed.

Lemma carries_i32 z : signed_in 32 z → carries [] 0 4 (serialize i32_serde z) (deserialize i32_serde) z.
Proof.
  intros Hz. change (serialize i32_serde z) with (serialize u32_serde (to_unsigned 32 z)).
  replace z with (to_signed 32 (to_unsigned 32 z)) at 2 by by apply to_signed_unsigned.
  apply (carries_map [] 0 4 _ (deserialize u32_serde)). apply carries_u32, to_unsigned_bound.
Qed.

Lemma carries_octets k q x :
  fits_in (8 * N.of_nat k) x → carries [] q (N.of_nat k) (serialize (octets_serde k) x) (deserialize (octets_serde k)) x.
Proof.
  intros Hx e p _. exists (to_be_bytes k x). rewrite app_nil_r. pose proof (blen_endian Big k x) as Hl. cbn [endian_octets] in Hl.
  split_and!; [apply write_octets_emits| |done].
  rewrite <-(app_nil_r (to_be_bytes k x)). cbn [octets_serde deserialize]. rewrite <-Hl.
  eapply accepts_bind; [apply take_octets_accepts|]. rewrite (from_endian_octets Big) by done. apply accepts_ret.
Qed.

Definition is_i64 (z : Z) : Prop := (i64_min <= z <= i64_max)%Z.

Lemma carries_sequence_number n :
  is_i64 n → carries [] 0 8 (serialize sequence_number_serde n) (deserialize sequence_number_serde) n.
Proof.
  unfold is_i64, i64_min, i64_max. intros Hn. apply (carries_len [] 0 (4 + (4 + 0)) 8); [done|].
  assert (0 <= sn_low n < 2 ^ 32)%Z as Hlow by (apply Z.mod_pos_bound; lia).
  assert (signed_in 32 (sn_high n)) as Hhigh.
  { unfold signed_in, sn_high. rewrite Z.shiftr_div_pow2 by lia. change (2 ^ Z.of_N (32 - 1))%Z with 2147483648%Z. change (2 ^ 32)%Z with 4294967296%Z. Z.to_euclidean_division_equations. lia. }
  cbn [sequence_number_serde serialize deserialize].
  eapply carries_bind; [by apply carries_i32|]. change ((0 + 4) mod 4) with 0. rewrite N.add_0_r.
  assert (n = from_halves (sn_high n) (Z.of_N (Z.to_N (sn_low n)))) as E by (rewrite Z2N.id by lia; by rewrite sn_halves).
  rewrite E at 2.
  apply (carries_map [] 0 4 (serialize u32_serde (Z.to_N (sn_low n))) (deserialize u32_serde) (λ low, from_halves (sn_high n) (Z.of_N low))).
  apply carries_u32. unfold fits_in. lia.
Qed.

Lemma carries_time t :
  signed_in 32 t.1 → fits_in 32 t.2 → carries [] 0 8 (serialize rtps_time_serde t) (deserialize rtps_time_serde) t.
Proof.
  intros H1 H2. destruct t as [s f]. apply (carries_len [] 0 (4 + 4) 8); [done|]. cbn [rtps_time_serde serialize deserialize fst snd] in *.
  eapply carries_bind; [by apply carries_i32|]. change ((0 + 4) mod 4) with 0.
  apply (carries_map [] 0 4 _ (deserialize u32_serde) (pair s)). by apply carries_u32.
Qed.

(** Two octets read one by one. *)
Lemma carries_two {A} (mk : N → N → A) q a b :
  carries [] q 2 (λ w, Ok (write_octets [a; b] w)) (λ r, let? (a, r) := read_u8 r in let? (b, r) := read_u8 r in Ok (mk a b, r)) (mk a b).
Proof.
  intros e p _. exists [a; b]. split_and!; [apply write_octets_emits| |done].
  change [a; b] with ([a] ++ [b] ++ []).
  eapply accepts_bind; [apply read_u8_accepts|]. eapply accepts_bind; [apply read_u8_accepts|apply accepts_ret].
Qed.

Lemma carries_items {A} (c : CdrSerde A) k l :
  k mod 4 = 0 → Forall (λ x, carries [] 0 k (serialize c x) (deserialize c) x) l →
  carries [] 0 (k * blen l) (write_items c l) (read_items c (length l)) l.
Proof.
  intros Hk. induction 1 as [|x l Hx Hl IH]; cbn [write_items read_items length].
  - apply (carries_len [] 0 0); [unfold blen; cbn; lia|apply carries_none].
  - apply (carries_len [] 0 (k + k * blen l)); [unfold blen; cbn [length]; lia|].
    eapply carries_bind; [exact Hx|]. rewrite N.add_0_l, Hk. by apply (carries_map [] 0).
Qed.

(** *** Sets *)

(** Eight words of 32 bits, none set outside the window. *)
Definition words_ok (bits : N) (words : list N) : Prop :=
  length words = MAX_SET_WORDS ∧ bits <= MAX_SET_BITS ∧ Forall (fits_in 32) words ∧
  ∀ bit, bits <= bit → bit_is_set words bit = false.

Lemma word_bit words bits i w j :
  words_ok bits words → words !! i = Some w → j < 32 → bits <= 32 * N.of_nat i + j → N.testbit w (31 - j) = false.
Proof.
  intros (_ & _ & _ & Hb) Hw Hj Hle. specialize (Hb (32 * N.of_nat i + j) Hle). rewrite bit_is_set_eq in Hb.
  replace ((32 * N.of_nat i + j) / 32) with (N.of_nat i) in Hb by (zify; Z.to_euclidean_division_equations; lia).
  replace ((32 * N.of_nat i + j) mod 32) with j in Hb by (zify; Z.to_euclidean_division_equations; lia).
  by rewrite Nat2N.id, Hw in Hb.
Qed.

Lemma high_bits w k : fits_in 32 w → 32 <= k → N.testbit w k = false.
Proof.
  intros Hw Hk. destruct (N.eq_dec w 0) as [->|Hnz]; [apply N.bits_0|]. apply N.bits_above_log2.
  unfold fits_in in Hw. apply N.log2_lt_pow2 in Hw; lia.
Qed.

Lemma word_beyond words bits i w : words_ok bits words → words !! i = Some w → bits <= 32 * N.of_nat i → w = 0.
Proof.
  intros Hok Hw Hle. apply N.bits_inj. intros k. rewrite N.bits_0. destruct (N.lt_ge_cases k 32) as [Hk|Hk].
  - replace k with (31 - (31 - k)) by lia. apply (word_bit words bits i w); [done|done|lia|lia].
  - apply high_bits; [|done]. destruct Hok as (_ & _ & Hall & _). by eapply Forall_lookup_1 in Hall.
Qed.

Lemma words_clear bits words : words_ok bits words → imap (λ i w, clear_word bits (N.of_nat i) w) words = words.
Proof.
  intros Hok. apply list_eq. intros i. rewrite list_lookup_imap. destruct (words !! i) as [w|] eqn:Hw; [|done]. cbn. f_equal.
  unfold clear_word. destruct (N.leb_spec bits (N.of_nat i * 32)) as [Hle|Hlt].
  { symmetry. eapply word_beyond; [done|done|lia]. }
  destruct (N.ltb_spec bits (N.of_nat i * 32 + 32)) as [Hin|]; [|done].
  apply N.bits_inj. intros k. unfold not32. rewrite N.land_spec, N.lxor_spec, N.shiftr_spec by lia.
  change u32_max with (N.ones 32). destruct (N.testbit w k) eqn:Hk; [|done]. cbn.
  assert (k < 32) as Hk32.
  { apply N.nle_gt. intros H. rewrite high_bits in Hk; [done| |done]. destruct Hok as (_ & _ & Hall & _). by eapply Forall_lookup_1 in Hall. }
  assert (31 - k < bits - N.of_nat i * 32) as Hkeep.
  { apply N.nle_gt. intros H. replace k with (31 - (31 - k)) in Hk by lia.
    rewrite (word_bit words bits i w (31 - k)) in Hk; [done|done|done|lia|lia]. }
  rewrite N.ones_spec_high by lia. by rewrite N.ones_spec_low by lia.
Qed.

Lemma words_slots bits words : words_ok bits words → slots (take (num_words bits) words) = words.
Proof.
  intros Hok. unfold slots. rewrite <-(take_drop (num_words bits) words) at 3. f_equal. symmetry.
  assert (length words = MAX_SET_WORDS) as Hl by apply Hok. apply list_eq. intros i. rewrite lookup_drop.
  assert (length (take (num_words bits) words) = num_words bits) as ->.
  { rewrite length_take, Hl. destruct Hok as (_ & Hb & _). unfold num_words, div_ceil, MAX_SET_WORDS, MAX_SET_BITS in *.
    zify. Z.to_euclidean_division_equations. lia. }
  destruct (words !! (num_words bits + i)%nat) as [w|] eqn:Hw.
  - apply lookup_lt_Some in Hw as Hlt. rewrite (word_beyond words bits _ w Hok Hw).
    + symmetry. apply lookup_replicate. split; [done|lia].
    + unfold num_words, div_ceil. zify. Z.to_euclidean_division_equations. lia.
  - symmetry. apply lookup_replicate_None. apply lookup_ge_None in Hw. lia.
Qed.

Lemma take_words bits words : words_ok bits words → length (take (num_words bits) words) = num_words bits.
Proof.
  intros (Hl & Hb & _). rewrite length_take, Hl. unfold num_words, div_ceil, MAX_SET_WORDS, MAX_SET_BITS in *.
  zify. Z.to_euclidean_division_equations. lia.
Qed.

(** The part both kinds of set share. *)
Lemma carries_words {A} (mk : list N → A) bits words :
  words_ok bits words →
  carries [] 0 (4 * div_ceil bits 32) (write_items u32_serde (take (num_words bits) words))
    (λ r, let? (ws, r) := cdr (read_items u32_serde (num_words bits) r) in Ok (mk (slots ws), r)) (mk words).
Proof.
  intros Hok. rewrite <-(words_slots bits words Hok) at 2. pose proof (take_words bits words Hok) as Hl.
  apply (carries_map [] 0 _ _ (λ r, cdr (read_items u32_serde (num_words bits) r)) (λ ws, mk (slots ws))).
  apply carries_cdr. rewrite <-Hl at 2. apply (carries_len [] 0 (4 * blen (take (num_words bits) words))).
  { unfold blen. rewrite Hl. unfold num_words. lia. }
  apply carries_items; [done|]. apply Forall_take. destruct Hok as (_ & _ & Hall & _).
  eapply Forall_impl; [exact Hall|]. intros x Hx. by apply carries_u32.
Qed.

Definition wire_set_ok (s : SequenceNumberSet) : Prop := is_i64 (set_base s) ∧ words_ok (num_bits s) (bitmap s).
Definition wire_fragment_set_ok (s : FragmentNumberSet) : Prop := fits_in 32 (fs_base s) ∧ words_ok (fs_num_bits s) (fs_bitmap s).

Lemma carries_set context s : wire_set_ok s → carries [] 0 (set_serialized_len s) (write_set s) (read_set context) s.
Proof.
  intros [Hb Hok]. destruct s as [base bits words]. cbn in *. unfold set_serialized_len. cbn [num_bits].
  apply (carries_len [] 0 (8 + (4 + 4 * div_ceil bits 32))); [lia|]. unfold write_set, read_set. cbn [set_base num_bits bitmap].
  eapply carries_bind; [by apply carries_cdr, carries_sequence_number|].
  assert (bits <= 256) by apply Hok.
  eapply carries_bind; [apply carries_cdr, carries_u32; unfold fits_in; lia|].
  unfold MAX_SET_BITS. rewrite (proj2 (N.ltb_ge _ _)) by lia.
  replace (mkSet base bits words) with (clear_beyond_window (mkSet base bits words))
    by (unfold clear_beyond_window; cbn; by rewrite words_clear).
  by apply (carries_words (λ ws, clear_beyond_window (mkSet base bits ws))).
Qed.

Lemma carries_fragment_set context s :
  wire_fragment_set_ok s → carries [] 0 (fragment_set_serialized_len s) (write_fragment_set s) (read_fragment_set context) s.
Proof.
  intros [Hb Hok]. destruct s as [base bits words]. cbn in *. unfold fragment_set_serialized_len. cbn [fs_num_bits].
  apply (carries_len [] 0 (4 + (4 + 4 * div_ceil bits 32))); [lia|]. unfold write_fragment_set, read_fragment_set. cbn [fs_base fs_num_bits fs_bitmap].
  eapply carries_bind; [by apply carries_cdr, carries_u32|].
  assert (bits <= 256) by apply Hok.
  eapply carries_bind; [apply carries_cdr, carries_u32; unfold fits_in; lia|].
  unfold MAX_SET_BITS. rewrite (proj2 (N.ltb_ge _ _)) by lia.
  replace (mkFragmentSet base bits words) with (fragment_clear_beyond_window (mkFragmentSet base bits words))
    by (unfold fragment_clear_beyond_window; cbn; by rewrite words_clear).
  by apply (carries_words (λ ws, fragment_clear_beyond_window (mkFragmentSet base bits ws))).
Qed.

(** *** Locators *)

Definition wire_locator_ok (l : WireLocator) : Prop := signed_in 32 (lo_kind l) ∧ fits_in 32 (lo_port l) ∧ fits_in 128 (lo_address l).
Definition wire_locators_ok (l : list WireLocator) : Prop := blen l <= MAX_LOCATORS ∧ Forall wire_locator_ok l.

Lemma carries_locator l : wire_locator_ok l → carries [] 0 24 (serialize locator_serde l) (deserialize locator_serde) l.
Proof.
  intros (H1 & H2 & H3). destruct l as [kind port address]. cbn in H1, H2, H3. apply (carries_len [] 0 (4 + (4 + 16))); [done|].
  change (serialize locator_serde (mkLocator kind port address)) with
    (λ w, let? w := serialize i32_serde kind w in let? w := serialize u32_serde port w in serialize (octets_serde 16) address w).
  change (deserialize locator_serde) with
    (λ r, let? (kind, r) := deserialize i32_serde r in let? (port, r) := deserialize u32_serde r in
          let? (address, r) := deserialize (octets_serde 16) r in Ok (mkLocator kind port address, r)).
  eapply carries_bind; [by apply carries_i32|]. eapply carries_bind; [by apply carries_u32|].
  apply (carries_map [] 0 16 _ (deserialize (octets_serde 16)) (mkLocator kind port)). by apply (carries_octets 16).
Qed.

Lemma uint_bytes_4 e p x : p mod 4 = 0 → uint_bytes e p 4 x = endian_octets (e_endianness e) 4 x.
Proof. intros Hp. unfold uint_bytes. rewrite no_padding; [done|]. left. by split. Qed.

Lemma carries_locators l : wire_locators_ok l → carries [] 0 (locators_len l) (write_locators l) read_locators l.
Proof.
  intros [Hl Hall] e p Hp. unfold MAX_LOCATORS in Hl.
  destruct (carries_items locator_serde 24 l eq_refl) with (e := e) (p := p + 4) as (bs & E1 & A1 & L1).
  { eapply Forall_impl; [exact Hall|]. intros x. apply carries_locator. }
  { rewrite <-N.Div0.add_mod_idemp_l, Hp. done. }
  rewrite app_nil_r in E1. exists (uint_bytes e p 4 (blen l) ++ bs). rewrite app_nil_r.
  assert (blen (uint_bytes e p 4 (blen l)) = 4) as Hu by (rewrite uint_bytes_4 by done; by rewrite blen_endian).
  assert (blen l <= u32_limit) by (unfold u32_limit; lia). split_and!.
  - unfold write_locators. apply emits_bind; [by apply write_sequence_len_emits|by rewrite Hu].
  - unfold read_locators. apply (read_sequence_len_bind cdr); [done|done| |].
    + unfold LOCATOR_LEN. lia.
    + rewrite Hu. unfold MAX_LOCATORS. rewrite (proj2 (N.ltb_ge _ _)) by lia.
      replace (N.to_nat (blen l)) with (length l) by (unfold blen; lia). intros r tail Hr He Hq Hpeek. by rewrite (A1 r tail).
  - rewrite blen_app, Hu, L1. unfold locators_len, LOCATOR_LEN. lia.
Qed.

(** *** Parameter lists *)

Definition parameter_ok (entry : N * list N) : Prop :=
  fits_in 16 entry.1 ∧ entry.1 ≠ PID_PAD ∧ entry.1 ≠ PID_SENTINEL ∧ is_unsupported entry.1 = false ∧ blen entry.2 <= 0xFFFF.

Definition parameters_ok (l : ParameterList) : Prop := blen l <= DEFAULT_MAX_PARAMETERS ∧ Forall parameter_ok l.

(** The octets of a list, from a position that is a multiple of four. *)
Fixpoint parameter_bytes (e : Endianness) (l : ParameterList) : list N :=
  match l with
  | [] => endian_octets e 2 PID_SENTINEL ++ endian_octets e 2 0
  | (id, value) :: rest =>
      endian_octets e 2 id ++ endian_octets e 2 (blen value) ++ value ++ zeros_of (padding_to (blen value) 4) ++ parameter_bytes e rest
  end.

Lemma padded p n : p mod 4 = 0 → (p + 4 + n + padding_to n 4) mod 4 = 0.
Proof. rewrite padding_to_eq by apply alignment_4. intros Hp. zify. Z.to_euclidean_division_equations. lia. Qed.

Lemma uint_bytes_2 e p x : p mod 2 = 0 → uint_bytes e p 2 x = endian_octets (e_endianness e) 2 x.
Proof. intros Hp. unfold uint_bytes. rewrite no_padding; [done|]. right. by split. Qed.

(** Two numbers of two octets, as in the header of a parameter. *)
Lemma header_emits e p x y f bs :
  p mod 4 = 0 → emits f e (p + 4) bs →
  emits (λ w, let w := w_align 4 w in let? w := serialize u16_serde x w in let? w := serialize u16_serde y w in f w) e p
    (endian_octets (e_endianness e) 2 x ++ endian_octets (e_endianness e) 2 y ++ bs).
Proof.
  intros Hp Hf.
  assert (is_alignment (N.of_nat 2)) as Ha by (unfold is_alignment; auto).
  assert (p mod 2 = 0) as Hp2 by (zify; Z.to_euclidean_division_equations; lia).
  assert ((p + 2) mod 2 = 0) as Hp3 by (zify; Z.to_euclidean_division_equations; lia).
  intros w Hw He Hq. pose proof (align_emits 4 e p alignment_4 w Hw He Hq) as Hal. injection Hal as Hal. cbn zeta. rewrite Hal.
  rewrite no_padding by (by left). rewrite appended_nil. clear Hal. revert w Hw He Hq.
  rewrite <-(uint_bytes_2 e p x) by done. apply emits_bind; [by apply write_uint_emits|].
  assert (blen (uint_bytes e p 2 x) = 2) as -> by (rewrite uint_bytes_2 by done; by rewrite blen_endian).
  rewrite <-(uint_bytes_2 e (p + 2) y) by done. apply emits_bind; [by apply write_uint_emits|].
  assert (blen (uint_bytes e (p + 2) 2 y) = 2) as -> by (rewrite uint_bytes_2 by done; by rewrite blen_endian).
  by replace (p + 2 + 2) with (p + 4) by lia.
Qed.

Lemma parameters_emitted e l : Forall parameter_ok l → ∀ p, p mod 4 = 0 → emits (write_parameters l) e p (parameter_bytes (e_endianness e) l).
Proof.
  induction 1 as [|[id value] l Hx Hl IH]; intros p Hp; cbn [write_parameters parameter_bytes].
  - rewrite <-(app_nil_r (endian_octets _ 2 0)). apply (header_emits e p PID_SENTINEL 0 Ok []); [done|].
    apply emits_ret.
  - destruct Hx as (_ & _ & _ & _ & Hv). cbn in Hv. rewrite (proj2 (N.ltb_ge _ _)) by done.
    apply (header_emits e p id (blen value) (λ w, write_parameters l _)); [done|].
    rewrite app_assoc. intros w Hw He Hq.
    change (write_zeros ?n (write_octets value w)) with (set_sink (push_zeros n (sink (appended value w))) (appended value w)).
    rewrite push_zeros_slice. change (set_sink (push_slice ?z (sink ?u)) ?u) with (appended z u). rewrite appended_app.
    rewrite (IH (p + 4 + blen value + padding_to (blen value) 4)).
    + by rewrite appended_app.
    + by apply padded.
    + by apply appended_fine.
    + done.
    + rewrite appended_position by done. rewrite blen_app, blen_zeros, N.add_assoc. by apply mod8_add, mod8_add.
Qed.

(** A test the octets pass. *)
Lemma accepts_when {E A} (f g : CdrReader → result E (A * CdrReader)) e p bs v :
  (∀ r tail, reader_fine r → r_position r mod 8 = p mod 8 → peek_remaining r = bs ++ tail → f r = g r) →
  accepts g e p bs v → accepts f e p bs v.
Proof. intros H Hg r tail Hr He Hp Hpeek. rewrite (H r tail) by done. by apply (Hg r tail). Qed.

Lemma accepts_align {A} (g : CdrReader → CdrResult (A * CdrReader)) e p bs v :
  accepts g e (p + padding_to p 4) bs v → accepts (λ r, let? r := r_align 4 r in g r) e p (zeros_of (padding_to p 4) ++ bs) v.
Proof.
  intros Hg r tail Hr He Hp Hpeek. subst e.
  assert (padding_at (cr_encoding r) p 4 = zeros_of (padding_to p 4)) as Hz.
  { unfold padding_at. f_equal. f_equal. unfold align_for. by destruct (kind_version (e_kind (cr_encoding r))). }
  rewrite <-app_assoc in Hpeek. rewrite (align_moves 4 r p (bs ++ tail)); [|apply alignment_4|done|done|by rewrite Hz].
  rewrite Hz. cbn [rbind]. rewrite (Hg _ tail).
  - by rewrite forward_forward, blen_app.
  - by eapply forward_fine.
  - done.
  - rewrite forward_position, blen_zeros by done. by apply mod8_add.
  - by eapply forward_peek.
Qed.

Lemma header_accepts {A} (k : N → N → CdrReader → CdrResult (A * CdrReader)) e p x y bs v :
  p mod 4 = 0 → fits_in 16 x → fits_in 16 y → accepts (k x y) e (p + 4) bs v →
  accepts (λ r, let? (a, r) := deserialize u16_serde r in let? (b, r) := deserialize u16_serde r in k a b r) e p
    (endian_octets (e_endianness e) 2 x ++ endian_octets (e_endianness e) 2 y ++ bs) v.
Proof.
  intros Hp Hx Hy Hk.
  assert (is_alignment (N.of_nat 2)) as Ha by (unfold is_alignment; auto).
  assert (p mod 2 = 0) as Hp2 by (zify; Z.to_euclidean_division_equations; lia).
  assert ((p + 2) mod 2 = 0) as Hp3 by (zify; Z.to_euclidean_division_equations; lia).
  rewrite <-(uint_bytes_2 e p x) by done. eapply accepts_bind; [by apply read_uint_accepts|].
  assert (blen (uint_bytes e p 2 x) = 2) as -> by (rewrite uint_bytes_2 by done; by rewrite blen_endian).
  rewrite <-(uint_bytes_2 e (p + 2) y) by done. eapply accepts_bind; [by apply read_uint_accepts|].
  assert (blen (uint_bytes e (p + 2) 2 y) = 2) as -> by (rewrite uint_bytes_2 by done; by rewrite blen_endian).
  by replace (p + 2 + 2) with (p + 4) by lia.
Qed.

Lemma aligned p : (p + padding_to p 4) mod 4 = 0.
Proof. rewrite padding_to_eq by apply alignment_4. zify. Z.to_euclidean_division_equations. lia. Qed.

Lemma parameter_bytes_len e l : 4 + 4 * blen l <= blen (parameter_bytes e l).
Proof.
  induction l as [|[id value] l IH]; cbn [parameter_bytes]; rewrite !blen_app, !blen_endian; unfold blen in *; cbn [length]; lia.
Qed.

Lemma remaining_enough r bs tail : reader_fine r → peek_remaining r = bs ++ tail → blen bs <= r_remaining r.
Proof. intros Hr H. rewrite <-peek_length by done. rewrite H, blen_app. lia. Qed.

Lemma parameters_read e limit l : Forall parameter_ok l → ∀ p fuel acc,
  (length l < fuel)%nat → blen acc + blen l <= limit →
  accepts (read_parameters fuel limit acc) e p (zeros_of (padding_to p 4) ++ parameter_bytes (e_endianness e) l) (acc ++ l).
Proof.
  induction 1 as [|[id value] l Hx Hl IH]; intros p [|fuel] acc Hfuel Hlimit; cbn [length] in Hfuel; try lia; cbn [read_parameters].
  all: eapply accepts_when.
  1, 3: intros r tail Hr Hp Hpeek; pose proof (remaining_enough _ _ _ Hr Hpeek) as Hrem; rewrite blen_app, blen_zeros in Hrem;
    match type of Hrem with context [parameter_bytes ?e ?l] => pose proof (parameter_bytes_len e l) end;
    rewrite (padding_to_mod _ p 4) by (done || apply alignment_4); unfold PARAMETER_HEADER_LEN;
    rewrite (proj2 (N.ltb_ge _ _)) by lia; reflexivity.
  - apply accepts_align. cbn [parameter_bytes]. rewrite (app_nil_r acc), <-(app_nil_r (endian_octets _ 2 0)).
    eapply (header_accepts _ e _ PID_SENTINEL 0 []); [apply aligned|done..|]. apply accepts_ret.
  - apply accepts_align. cbn [parameter_bytes]. destruct Hx as (Hid & Hpad & Hsent & Hun & Hv). cbn [fst snd] in *.
    eapply (header_accepts _ e _ id (blen value)); [apply aligned|done|unfold fits_in; change (2 ^ 16) with 65536; lia|].
    rewrite (proj2 (N.eqb_neq id PID_SENTINEL)) by done. rewrite Hun.
    eapply accepts_when.
    { intros r tail Hr Hp Hpeek. pose proof (remaining_enough _ _ _ Hr Hpeek) as Hrem. rewrite blen_app in Hrem.
      rewrite (proj2 (N.ltb_ge _ _)) by lia. reflexivity. }
    eapply accepts_bind; [apply take_octets_accepts|].
    rewrite (proj2 (N.eqb_neq id PID_PAD)) by done.
    assert (blen acc + 1 + blen l <= limit) by (unfold blen in *; cbn [length] in Hlimit; lia).
    rewrite (proj2 (N.eqb_neq (blen acc) limit)) by lia.
    replace (acc ++ (id, value) :: l) with ((acc ++ [(id, value)]) ++ l) by by rewrite <-app_assoc.
    replace (padding_to (blen value) 4) with (padding_to (p + padding_to p 4 + 4 + blen value) 4).
    + apply IH; [lia|]. rewrite blen_app. exact H.
    + rewrite !padding_to_eq by apply alignment_4. zify. Z.to_euclidean_division_equations. lia.
Qed.

Lemma carries_parameters l : parameters_ok l → carries [] 0 (parameters_len l) (write_parameters l) read_inline_qos l.
Proof.
  intros [Hcount Hall] e p Hp. exists (parameter_bytes (e_endianness e) l). rewrite app_nil_r.
  split_and!; [by apply parameters_emitted| |].
  - intros r tail Hr He Hq Hpeek. unfold read_inline_qos.
    assert (padding_to p 4 = 0) as Hz by (rewrite padding_to_eq by apply alignment_4; by rewrite Hp).
    pose proof (parameters_read e DEFAULT_MAX_PARAMETERS l Hall p (S (N.to_nat (r_remaining r))) []) as Hacc.
    rewrite Hz in Hacc. cbn [app] in Hacc. change (zeros_of 0) with (@nil N) in Hacc.
    cbn [app] in Hacc. refine (Hacc _ Hcount r tail Hr He Hq Hpeek).
    pose proof (remaining_enough _ _ _ Hr Hpeek). pose proof (parameter_bytes_len (e_endianness e) l). unfold blen in *. lia.
  - clear Hcount Hall. unfold parameters_len. induction l as [|[id value] l IH]; cbn [parameter_bytes foldr].
    + by rewrite blen_app, !blen_endian.
    + rewrite !blen_app, !blen_endian, blen_zeros, IH. cbn [snd]. unfold olen, div_ceil. fold (blen value).
      rewrite padding_to_eq by apply alignment_4. change (N.of_nat 2) with 2. zify. Z.to_euclidean_division_equations. lia.
Qed.

(** ** The flag octet *)

(** The reserved bits are bits the kind does not define. *)
Definition reserved_ok (defined reserved : N) : Prop := N.land reserved (not8 defined) = reserved.

Lemma flags_of defined reserved base :
  reserved_ok defined reserved → N.land base (not8 defined) = 0 → N.land (not8 defined) FLAG_ENDIANNESS = 0 →
  let f := flags_with reserved base in
  flags_reserved defined f = reserved ∧ flags_endianness f = flags_endianness base ∧
  ∀ mask, N.land (not8 defined) mask = 0 → flags_has mask f = flags_has mask base.
Proof.
  intros Hr Hb He f. unfold flags_reserved, flags_endianness, flags_has, f, flags_with.
  assert (∀ mask, N.land (not8 defined) mask = 0 → N.land (N.lor base reserved) mask = N.land base mask) as Hmask.
  { intros mask Hm. rewrite N.land_lor_distr_l. rewrite <-Hr, <-N.land_assoc, Hm, N.land_0_r. apply N.lor_0_r. }
  split_and!.
  - by rewrite N.land_lor_distr_l, Hb, N.lor_0_l.
  - by rewrite Hmask.
  - intros mask Hm. by rewrite Hmask.
Qed.

(** ** Bodies *)

Lemma body_carries {A} t n wr (rd : CdrReader → CodecResult (A * CdrReader)) v e :
  carries t 0 n wr rd v →
  ∃ bs r, wr (headerless e) = Ok (appended (bs ++ t) (headerless e)) ∧ blen bs = n ∧
    rd (with_encoding (bs ++ t) e) = Ok (v, r) ∧ peek_remaining r = t.
Proof.
  intros H. destruct (H e 0 eq_refl) as (bs & E1 & A1 & L1).
  assert (peek_remaining (with_encoding (bs ++ t) e) = bs ++ t) as Hpeek.
  { unfold peek_remaining, with_encoding, btake, bdrop, blen. cbn. rewrite Nat2N.id. by apply take_ge. }
  assert (reader_fine (with_encoding (bs ++ t) e)) as Hfine.
  { unfold reader_fine, with_encoding. cbn. lia. }
  exists bs, (forward (blen bs) (with_encoding (bs ++ t) e)). split_and!.
  - by apply E1.
  - done.
  - by apply (A1 _ t).
  - by apply forward_peek with (tail := t).
Qed.

(** Reads nothing. *)
Lemma carries_skip {A} t q n wr (rd : CdrReader → CodecResult (A * CdrReader)) v :
  carries t q n wr rd v → carries t q n wr (λ r, let? r := cdr (r_skip 0 r) in rd r) v.
Proof.
  apply carries_rd_ext. intros r (H1 & H2 & H3). unfold r_skip, read_octets, take_octets.
  rewrite (proj2 (N.ltb_ge _ _)) by lia. unfold slice_at. rewrite (proj2 (N.leb_le _ _)) by lia. cbn.
  by destruct r as [d p o e' en]; unfold set_pos; cbn; rewrite N.add_0_r.
Qed.

Definition qos_ok (q : option ParameterList) : Prop := match q with Some l => parameters_ok l | None => True end.

Lemma carries_qos q : qos_ok q → carries [] 0 (qos_len q) (write_qos q) (read_qos (is_some q)) q.
Proof.
  destruct q as [l|]; cbn [qos_ok qos_len write_qos read_qos is_some].
  - intros H. apply (carries_map [] 0 _ _ (λ r, cdr (read_inline_qos r)) Some). by apply carries_cdr, carries_parameters.
  - intros _. apply carries_none.
Qed.

Lemma parameters_len_mod l : parameters_len l mod 4 = 0.
Proof.
  unfold parameters_len. induction l as [|x l IH]; cbn [foldr]; [done|].
  revert IH. generalize (foldr (λ entry n, 4 + 4 * div_ceil (olen entry.2) 4 + n) 4 l). intros n Hn.
  zify. Z.to_euclidean_division_equations. lia.
Qed.

#[local] Hint Resolve carries_cdr carries_u32 carries_i32 carries_sequence_number carries_set carries_fragment_set carries_time : carries.
#[local] Hint Extern 1 (carries _ _ _ (serialize u16_serde _) _ _) => apply carries_u16; [done|] : carries.
#[local] Hint Extern 1 (carries _ _ _ (serialize entity_id_serde _) _ _) => apply (carries_octets 4) : carries.
#[local] Hint Extern 1 (carries _ _ _ (serialize guid_prefix_serde _) _ _) => apply (carries_octets 12) : carries.
#[local] Hint Extern 1 (carries _ _ _ (serialize fragment_number_serde _) _ _) => apply carries_u32 : carries.

(** The fields of a body, one after the other. *)
Ltac carry := eapply carries_bind; [solve [eauto 3 with carries]|].

Definition heartbeat_ok (h : Heartbeat) : Prop :=
  fits_in 32 (hb_reader_id h) ∧ fits_in 32 (hb_writer_id h) ∧ is_i64 (hb_first_sn h) ∧ is_i64 (hb_last_sn h) ∧ signed_in 32 (hb_count h).

Lemma heartbeat_carries t h x f :
  heartbeat_ok h → trailing x = t → flags_has FLAG_FINAL f = hb_is_final h → flags_has FLAG_LIVELINESS f = hb_liveliness h →
  carries t 0 28 (heartbeat_write_body h x) (heartbeat_fields f) h.
Proof.
  intros (H1 & H2 & H3 & H4 & H5) <- Hf Hl. unfold heartbeat_write_body, heartbeat_fields. rewrite Hf, Hl. destruct h. cbn in H1, H2, H3, H4, H5.
  eapply carries_len; [|do 5 carry; apply carries_ret]. done.
Qed.

Definition heartbeat_frag_ok (h : HeartbeatFrag) : Prop :=
  fits_in 32 (hf_reader_id h) ∧ fits_in 32 (hf_writer_id h) ∧ is_i64 (hf_writer_sn h) ∧ fits_in 32 (hf_last_fragment_num h) ∧
  signed_in 32 (hf_count h).

Lemma heartbeat_frag_carries h x :
  heartbeat_frag_ok h → carries (trailing x) 0 24 (heartbeat_frag_write_body h x) heartbeat_frag_fields h.
Proof.
  intros (H1 & H2 & H3 & H4 & H5). unfold heartbeat_frag_write_body, heartbeat_frag_fields. destruct h. cbn in H1, H2, H3, H4, H5.
  eapply carries_len; [|do 5 carry; apply carries_ret]. done.
Qed.

Definition acknack_ok (a : AckNack) : Prop :=
  fits_in 32 (an_reader_id a) ∧ fits_in 32 (an_writer_id a) ∧ wire_set_ok (an_reader_sn_state a) ∧ signed_in 32 (an_count a).

Lemma acknack_carries a x f :
  acknack_ok a → flags_has FLAG_FINAL f = an_is_final a →
  carries (trailing x) 0 (12 + set_serialized_len (an_reader_sn_state a)) (acknack_write_body a x) (acknack_fields f) a.
Proof.
  intros (H1 & H2 & H3 & H4) Hf. unfold acknack_write_body, acknack_fields. rewrite Hf. destruct a as [rid wid s count fin]. cbn in H1, H2, H3, H4.
  cbn [an_reader_id an_writer_id an_reader_sn_state an_count an_is_final].
  eapply carries_len; [|do 3 carry]; cycle 1.
  { match goal with |- carries _ ?q _ _ _ _ => replace q with 0 end;
      [carry; apply carries_ret|unfold set_serialized_len; zify; Z.to_euclidean_division_equations; lia]. }
  lia.
Qed.

Definition nack_frag_ok (n : NackFrag) : Prop :=
  fits_in 32 (nf_reader_id n) ∧ fits_in 32 (nf_writer_id n) ∧ is_i64 (nf_writer_sn n) ∧ wire_fragment_set_ok (nf_state n) ∧
  signed_in 32 (nf_count n).

Lemma nack_frag_carries n x :
  nack_frag_ok n → carries (trailing x) 0 (20 + fragment_set_serialized_len (nf_state n)) (nack_frag_write_body n x) nack_frag_fields n.
Proof.
  intros (H1 & H2 & H3 & H4 & H5). unfold nack_frag_write_body, nack_frag_fields. destruct n as [rid wid sn s count]. cbn in H1, H2, H3, H4, H5.
  cbn [nf_reader_id nf_writer_id nf_writer_sn nf_state nf_count].
  eapply carries_len; [|do 4 carry]; cycle 1.
  { match goal with |- carries _ ?q _ _ _ _ => replace q with 0 end;
      [carry; apply carries_ret|unfold fragment_set_serialized_len; zify; Z.to_euclidean_division_equations; lia]. }
  lia.
Qed.

Definition gap_ok (g : Gap) : Prop :=
  fits_in 32 (gp_reader_id g) ∧ fits_in 32 (gp_writer_id g) ∧ is_i64 (gp_start g) ∧ wire_set_ok (gp_list g).

Lemma gap_carries g x : gap_ok g → carries (trailing x) 0 (16 + set_serialized_len (gp_list g)) (gap_write_body g x) gap_fields g.
Proof.
  intros (H1 & H2 & H3 & H4). unfold gap_write_body, gap_fields. destruct g as [rid wid start s]. cbn in H1, H2, H3, H4.
  cbn [gp_reader_id gp_writer_id gp_start gp_list].
  eapply carries_len; [|do 4 carry; apply carries_ret]. lia.
Qed.

Definition info_source_ok (s : InfoSource) : Prop := fits_in 32 (is_unused s) ∧ fits_in 96 (is_guid_prefix s).

Lemma info_source_carries s : info_source_ok s → carries [] 0 20 (info_source_write_body s) info_source_fields s.
Proof.
  intros [H1 H2]. unfold info_source_write_body, info_source_fields. destruct s as [unused [ma mi] [va vb] prefix]. cbn [is_unused is_guid_prefix] in H1, H2.
  eapply (carries_len [] 0 (4 + (2 + (2 + 12)))); [done|]. cbn [is_unused is_version is_vendor_id is_guid_prefix].
  carry. eapply carries_bind; [apply carries_cdr, (carries_two mkVersion)|]. eapply carries_bind; [apply carries_cdr, (carries_two pair)|].
  apply (carries_map [] 0 12 _ (λ r, cdr (deserialize guid_prefix_serde r)) (mkInfoSource unused (mkVersion ma mi) (va, vb))).
  by apply carries_cdr, (carries_octets 12).
Qed.

Lemma info_reply_carries u m x f :
  wire_locators_ok u → match m with Some l => wire_locators_ok l | None => True end → flags_has FLAG_MULTICAST f = is_some m →
  carries (trailing x) 0 (locators_len u + match m with Some l => locators_len l | None => 0 end)
    (info_reply_write_body u m x) (info_reply_fields f) (u, m).
Proof.
  intros Hu Hm Hf. unfold info_reply_write_body, info_reply_fields. rewrite Hf.
  eapply carries_len; [|eapply carries_bind; [by apply carries_locators|]]; cycle 1.
  { match goal with |- carries _ ?q _ _ _ _ => replace q with 0 by (unfold locators_len, LOCATOR_LEN; zify; Z.to_euclidean_division_equations; lia) end.
    eapply (carries_bind (trailing x) 0 match m with Some l => locators_len l | None => 0 end 0); [|apply carries_ret].
    destruct m as [l|]; cbn [is_some]; [|apply carries_none]. by apply (carries_map [] 0 (locators_len l) _ read_locators Some), carries_locators. }
  destruct m; lia.
Qed.

Definition data_ok (extra_flags : N) (d : Data) : Prop :=
  fits_in 16 extra_flags ∧ fits_in 32 (da_reader_id d) ∧ fits_in 32 (da_writer_id d) ∧ is_i64 (da_writer_sn d) ∧ qos_ok (da_inline_qos d).

Lemma data_carries extra d x f :
  data_ok extra d → flags_has FLAG_INLINE_QOS f = is_some (da_inline_qos d) →
  carries (payload_octets (da_payload d) ++ trailing x) 0 (20 + qos_len (da_inline_qos d)) (data_write_body extra d x) (data_fields f)
    (extra, da_reader_id d, da_writer_id d, da_writer_sn d, da_inline_qos d).
Proof.
  intros (H0 & H1 & H2 & H3 & H4) Hf. unfold data_write_body, data_fields. rewrite Hf.
  eapply carries_len; [|carry; eapply carries_bind; [by apply carries_cdr, carries_u16|]]; cycle 1.
  { change (N.ltb DATA_OCTETS_TO_INLINE_QOS DATA_OCTETS_TO_INLINE_QOS) with false. cbv iota. do 3 carry.
    change (DATA_OCTETS_TO_INLINE_QOS - DATA_OCTETS_TO_INLINE_QOS) with 0. apply carries_skip.
    eapply carries_bind; [by apply carries_qos|].
    apply carries_tail. intros w. unfold write_trailing. f_equal. destruct (da_payload d); cbn [payload_octets app]; [done|..]; apply appended_app. }
  lia.
Qed.

Definition data_frag_ok (extra_flags : N) (f : DataFrag) (q : option ParameterList) : Prop :=
  fits_in 16 extra_flags ∧ fits_in 32 (df_reader_id f) ∧ fits_in 32 (df_writer_id f) ∧ is_i64 (df_writer_sn f) ∧
  fits_in 32 (df_starting_num f) ∧ fits_in 16 (df_count f) ∧ fits_in 16 (df_fragment_size f) ∧ fits_in 32 (df_sample_size f) ∧ qos_ok q.

Lemma data_frag_carries extra d q x f :
  data_frag_ok extra d q → flags_has FLAG_INLINE_QOS f = is_some q →
  carries (df_payload d ++ trailing x) 0 (32 + qos_len q) (data_frag_write_body extra d q x) (data_frag_fields f)
    (extra, mkDataFrag (df_reader_id d) (df_writer_id d) (df_writer_sn d) (df_starting_num d) (df_count d) (df_fragment_size d) (df_sample_size d), q).
Proof.
  intros (H0 & H1 & H2 & H3 & H4 & H5 & H6 & H7 & H8) Hf. unfold data_frag_write_body, data_frag_fields. rewrite Hf.
  eapply carries_len; [|carry; eapply carries_bind; [by apply carries_cdr, carries_u16|]]; cycle 1.
  { change (N.ltb DATA_FRAG_OCTETS_TO_INLINE_QOS DATA_FRAG_OCTETS_TO_INLINE_QOS) with false. cbv iota. do 7 carry.
    change (DATA_FRAG_OCTETS_TO_INLINE_QOS - DATA_FRAG_OCTETS_TO_INLINE_QOS) with 0. apply carries_skip.
    eapply carries_bind; [by apply carries_qos|].
    apply carries_tail. intros w. unfold write_trailing. f_equal. apply appended_app. }
  lia.
Qed.

(** ** Submessages *)

Definition is_opaque (i : SubmessageId) : Prop :=
  match i with
  | IdInfoReplyIp4 | IdSecureBody | IdSecurePrefix | IdSecurePostfix | IdSecureRtpsPrefix | IdSecureRtpsPostfix => True
  | IdUnknown raw => from_raw raw = IdUnknown raw
  | _ => False
  end.

(** Every number is of its width, reserved flags are none of the kind's own,
    octets behind a payload are part of it, and padding is short enough for
    its length to be written. *)
Definition ws_ok (m : WireSubmessage) : Prop :=
  match m with
  | WsData _ extra d _ x =>
      reserved_ok DATA_FLAGS (reserved_flags x) ∧ data_ok extra d ∧ (da_payload d = PayloadNone ∨ trailing x = [])
  | WsDataFrag _ extra f q _ _ x => reserved_ok DATA_FRAG_FLAGS (reserved_flags x) ∧ data_frag_ok extra f q ∧ trailing x = []
  | WsHeartbeat _ h x => reserved_ok HEARTBEAT_FLAGS (reserved_flags x) ∧ heartbeat_ok h
  | WsHeartbeatFrag _ h x => reserved_ok ENDIANNESS_ONLY (reserved_flags x) ∧ heartbeat_frag_ok h
  | WsAckNack _ a x => reserved_ok ACKNACK_FLAGS (reserved_flags x) ∧ acknack_ok a
  | WsNackFrag _ n x => reserved_ok ENDIANNESS_ONLY (reserved_flags x) ∧ nack_frag_ok n
  | WsGap _ g x => reserved_ok ENDIANNESS_ONLY (reserved_flags x) ∧ gap_ok g
  | WsInfoTimestamp _ t reserved =>
      reserved_ok INFO_TS_FLAGS reserved ∧ match t with Some t => signed_in 32 t.1 ∧ fits_in 32 t.2 | None => True end
  | WsInfoSource _ s reserved => reserved_ok ENDIANNESS_ONLY reserved ∧ info_source_ok s
  | WsInfoDestination _ p reserved => reserved_ok ENDIANNESS_ONLY reserved ∧ fits_in 96 p
  | WsInfoReply _ u m x =>
      reserved_ok INFO_REPLY_FLAGS (reserved_flags x) ∧ wire_locators_ok u ∧ match m with Some l => wire_locators_ok l | None => True end
  | WsPad _ padding reserved => reserved_ok ENDIANNESS_ONLY reserved ∧ blen padding <= MAX_OCTETS_TO_NEXT_HEADER
  | WsOpaque id _ _ => is_opaque id
  end.

Definition header_of (m : WireSubmessage) (octets : N) : SubmessageHeader := mkSubmessageHeader (ws_id m) (ws_flags m) octets.

(** A submessage is written as many octets as it says and read from them. *)
Definition body_roundtrips (m : WireSubmessage) : Prop :=
  ∃ body, ws_encode_body m = Ok body ∧ blen body = ws_body_len m ∧ ∀ octets, ws_read (header_of m octets) body = Ok m.

(** From the fields of a body to the body. *)
Lemma body_done {A} m t n (rd : CdrReader → CodecResult (A * CdrReader)) v :
  carries t 0 n (ws_write_body m) rd v → n + blen t = ws_body_len m →
  (∀ body r, rd (open_body (ws_flags m) body) = Ok (v, r) → peek_remaining r = t → ∀ octets, ws_read (header_of m octets) body = Ok m) →
  body_roundtrips m.
Proof.
  intros Hc Hlen Hread. destruct (body_carries t n (ws_write_body m) rd v (body_encoding (ws_endianness m)) Hc) as (bs & r & Hw & Hn & Hr & Hp).
  exists (bs ++ t). unfold ws_encode_body. rewrite Hw. split_and!; [done|rewrite blen_app; lia|]. eauto.
Qed.

Lemma rest_eq d x f r : flags_reserved d f = reserved_flags x → peek_remaining r = trailing x → rest_of d f r = x.
Proof. intros H1 H2. unfold rest_of. rewrite H1, H2. by destruct x. Qed.

Lemma data_roundtrips e extra d ns x : ws_ok (WsData e extra d ns x) → body_roundtrips (WsData e extra d ns x).
Proof.
  intros (Hres & Hd & Ht). set (m := WsData e extra d ns x).
  assert (flags_reserved DATA_FLAGS (ws_flags m) = reserved_flags x ∧ flags_endianness (ws_flags m) = e ∧
          flags_has FLAG_INLINE_QOS (ws_flags m) = is_some (da_inline_qos d) ∧ flags_has FLAG_NON_STANDARD_PAYLOAD (ws_flags m) = ns ∧
          flags_has FLAG_DATA (ws_flags m) = (match da_payload d with PayloadData _ => true | _ => false end) ∧
          flags_has FLAG_KEY (ws_flags m) = (match da_payload d with PayloadKey _ => true | _ => false end)) as (F1 & F2 & F3 & F4 & F5 & F6).
  { unfold m. cbn [ws_flags]. match goal with |- context [flags_with (reserved_flags x) ?base] =>
      destruct (flags_of DATA_FLAGS (reserved_flags x) base Hres) as (F1 & F2 & F3) end.
    1, 2: by destruct e, ns, (da_inline_qos d), (da_payload d).
    rewrite F1, F2, !F3 by done. by destruct e, ns, (da_inline_qos d), (da_payload d). }
  eapply body_done; [by apply (data_carries extra d x (ws_flags m))| |].
  - cbn [m ws_body_len]. unfold data_body_len. rewrite blen_app. unfold qos_len, DATA_PRELUDE_LEN, olen, blen.
    destruct (da_inline_qos d); lia.
  - intros body r Hr Hp octets. cbn [ws_read header_of sh_id sh_flags ws_id m]. fold m. unfold data_read.
    rewrite F5, F6, Hr, F1, F2, F4. cbn [rbind]. rewrite Hp. destruct d as [rid wid sn q p], x as [rf tr]. cbn [da_payload trailing] in *.
    unfold m. destruct p; cbn in Ht |- *; [done|..]; destruct Ht as [?| ->]; try done; by rewrite app_nil_r.
Qed.

Lemma data_frag_roundtrips e extra f q key ns x : ws_ok (WsDataFrag e extra f q key ns x) → body_roundtrips (WsDataFrag e extra f q key ns x).
Proof.
  intros (Hres & Hd & Ht). set (m := WsDataFrag e extra f q key ns x).
  assert (flags_reserved DATA_FRAG_FLAGS (ws_flags m) = reserved_flags x ∧ flags_endianness (ws_flags m) = e ∧
          flags_has FLAG_INLINE_QOS (ws_flags m) = is_some q ∧ flags_has FLAG_NON_STANDARD_PAYLOAD_FRAG (ws_flags m) = ns ∧
          flags_has FLAG_KEY_FRAG (ws_flags m) = key) as (F1 & F2 & F3 & F4 & F5).
  { unfold m. cbn [ws_flags]. match goal with |- context [flags_with (reserved_flags x) ?base] =>
      destruct (flags_of DATA_FRAG_FLAGS (reserved_flags x) base Hres) as (F1 & F2 & F3) end.
    1, 2: by destruct e, ns, key, q.
    rewrite F1, F2, !F3 by done. by destruct e, ns, key, q. }
  eapply body_done; [by apply (data_frag_carries extra f q x (ws_flags m))| |].
  - cbn [m ws_body_len]. rewrite blen_app. unfold DATA_FRAG_PRELUDE_LEN. lia.
  - intros body r Hr Hp octets. cbn [ws_read header_of sh_id sh_flags ws_id m]. fold m. unfold data_frag_read.
    rewrite Hr, F1, F2, F4, F5. cbn [rbind]. rewrite Hp. destruct f, x as [rf tr]. cbn in Ht. subst tr. cbn. by rewrite app_nil_r.
Qed.

Lemma plain_flags e reserved : reserved_ok ENDIANNESS_ONLY reserved →
  flags_reserved ENDIANNESS_ONLY (flags_with reserved (from_endianness e)) = reserved ∧
  flags_endianness (flags_with reserved (from_endianness e)) = e.
Proof.
  intros Hr. destruct (flags_of ENDIANNESS_ONLY reserved (from_endianness e) Hr) as (F1 & F2 & _); [by destruct e|done|].
  split; [done|]. rewrite F2. by destruct e.
Qed.

Lemma heartbeat_roundtrips e h x : ws_ok (WsHeartbeat e h x) → body_roundtrips (WsHeartbeat e h x).
Proof.
  intros (Hres & Hh). set (m := WsHeartbeat e h x).
  assert (flags_reserved HEARTBEAT_FLAGS (ws_flags m) = reserved_flags x ∧ flags_endianness (ws_flags m) = e ∧
          flags_has FLAG_FINAL (ws_flags m) = hb_is_final h ∧ flags_has FLAG_LIVELINESS (ws_flags m) = hb_liveliness h) as (F1 & F2 & F3 & F4).
  { unfold m. cbn [ws_flags]. match goal with |- context [flags_with (reserved_flags x) ?base] =>
      destruct (flags_of HEARTBEAT_FLAGS (reserved_flags x) base Hres) as (F1 & F2 & F3) end.
    1, 2: by destruct e, (hb_is_final h), (hb_liveliness h).
    rewrite F1, F2, !F3 by done. by destruct e, (hb_is_final h), (hb_liveliness h). }
  eapply body_done; [by apply (heartbeat_carries (trailing x) h x (ws_flags m))|done|].
  intros body r Hr Hp octets. cbn [ws_read header_of sh_id sh_flags ws_id m]. fold m. unfold heartbeat_read.
  rewrite Hr. cbn [rbind]. by rewrite F2, (rest_eq _ x).
Qed.

Lemma acknack_roundtrips e a x : ws_ok (WsAckNack e a x) → body_roundtrips (WsAckNack e a x).
Proof.
  intros (Hres & Ha). set (m := WsAckNack e a x).
  assert (flags_reserved ACKNACK_FLAGS (ws_flags m) = reserved_flags x ∧ flags_endianness (ws_flags m) = e ∧
          flags_has FLAG_FINAL (ws_flags m) = an_is_final a) as (F1 & F2 & F3).
  { unfold m. cbn [ws_flags]. match goal with |- context [flags_with (reserved_flags x) ?base] =>
      destruct (flags_of ACKNACK_FLAGS (reserved_flags x) base Hres) as (F1 & F2 & F3) end.
    1, 2: by destruct e, (an_is_final a).
    rewrite F1, F2, !F3 by done. by destruct e, (an_is_final a). }
  eapply body_done; [by apply (acknack_carries a x (ws_flags m))|cbn [ws_body_len m]; lia|].
  intros body r Hr Hp octets. cbn [ws_read header_of sh_id sh_flags ws_id m]. fold m. unfold acknack_read.
  rewrite Hr. cbn [rbind]. by rewrite F2, (rest_eq _ x).
Qed.

Lemma plain_roundtrips e x (h : HeartbeatFrag + NackFrag + Gap) :
  let m := match h with inl (inl h) => WsHeartbeatFrag e h x | inl (inr n) => WsNackFrag e n x | inr g => WsGap e g x end in
  ws_ok m → body_roundtrips m.
Proof.
  destruct h as [[h|n]|g]; cbn zeta; intros (Hres & Hh); destruct (plain_flags e (reserved_flags x) Hres) as [F1 F2].
  - set (m := WsHeartbeatFrag e h x). change (flags_with (reserved_flags x) (from_endianness e)) with (ws_flags m) in F1, F2.
    eapply body_done; [by apply heartbeat_frag_carries|done|]. intros body r Hr Hp octets.
    cbn [ws_read header_of sh_id sh_flags ws_id m]. fold m. unfold heartbeat_frag_read. rewrite Hr. cbn [rbind]. by rewrite F2, (rest_eq _ x).
  - set (m := WsNackFrag e n x). change (flags_with (reserved_flags x) (from_endianness e)) with (ws_flags m) in F1, F2.
    eapply body_done; [by apply nack_frag_carries|cbn [ws_body_len m]; lia|]. intros body r Hr Hp octets.
    cbn [ws_read header_of sh_id sh_flags ws_id m]. fold m. unfold nack_frag_read. rewrite Hr. cbn [rbind]. by rewrite F2, (rest_eq _ x).
  - set (m := WsGap e g x). change (flags_with (reserved_flags x) (from_endianness e)) with (ws_flags m) in F1, F2.
    eapply body_done; [by apply gap_carries|cbn [ws_body_len m]; lia|]. intros body r Hr Hp octets.
    cbn [ws_read header_of sh_id sh_flags ws_id m]. fold m. unfold gap_read. rewrite Hr. cbn [rbind]. by rewrite F2, (rest_eq _ x).
Qed.

Lemma info_timestamp_roundtrips e t reserved : ws_ok (WsInfoTimestamp e t reserved) → body_roundtrips (WsInfoTimestamp e t reserved).
Proof.
  intros (Hres & Ht). set (m := WsInfoTimestamp e t reserved).
  assert (flags_reserved INFO_TS_FLAGS (ws_flags m) = reserved ∧ flags_endianness (ws_flags m) = e ∧
          flags_has FLAG_INVALIDATE (ws_flags m) = negb (is_some t)) as (F1 & F2 & F3).
  { unfold m. cbn [ws_flags]. match goal with |- context [flags_with reserved ?base] =>
      destruct (flags_of INFO_TS_FLAGS reserved base Hres) as (F1 & F2 & F3) end.
    1, 2: by destruct e, t.
    rewrite F1, F2, !F3 by done. by destruct e, t. }
  destruct t as [t|].
  - destruct Ht as [H1 H2].
    eapply (body_done m [] 8 (λ r, cdr (deserialize rtps_time_serde r)) t); [by apply carries_cdr, carries_time|done|].
    intros body r Hr Hp octets. cbn [ws_read header_of sh_id sh_flags ws_id m]. fold m. unfold info_timestamp_read.
    rewrite F3. cbn [is_some negb]. rewrite Hr. cbn [rbind]. by rewrite F1, F2.
  - exists []. split_and!; [done|done|]. intros octets. cbn [ws_read header_of sh_id sh_flags ws_id m]. fold m. unfold info_timestamp_read.
    rewrite F3. cbn [is_some negb rbind]. by rewrite F1, F2.
Qed.

Lemma info_roundtrips e reserved (h : InfoSource + GuidPrefix) :
  let m := match h with inl s => WsInfoSource e s reserved | inr p => WsInfoDestination e p reserved end in
  ws_ok m → body_roundtrips m.
Proof.
  destruct h as [s|p]; cbn zeta; intros (Hres & Hh); destruct (plain_flags e reserved Hres) as [F1 F2].
  - set (m := WsInfoSource e s reserved). change (flags_with reserved (from_endianness e)) with (ws_flags m) in F1, F2.
    eapply body_done; [by apply info_source_carries|done|]. intros body r Hr Hp octets.
    cbn [ws_read header_of sh_id sh_flags ws_id m]. fold m. unfold info_source_read. rewrite Hr. cbn [rbind]. by rewrite F1, F2.
  - set (m := WsInfoDestination e p reserved). change (flags_with reserved (from_endianness e)) with (ws_flags m) in F1, F2.
    eapply (body_done m [] 12 (λ r, cdr (deserialize guid_prefix_serde r)) p); [by apply carries_cdr, (carries_octets 12)|done|].
    intros body r Hr Hp octets.
    cbn [ws_read header_of sh_id sh_flags ws_id m]. fold m. unfold info_destination_read. rewrite Hr. cbn [rbind]. by rewrite F1, F2.
Qed.

Lemma info_reply_roundtrips e u mc x : ws_ok (WsInfoReply e u mc x) → body_roundtrips (WsInfoReply e u mc x).
Proof.
  intros (Hres & Hu & Hm). set (m := WsInfoReply e u mc x).
  assert (flags_reserved INFO_REPLY_FLAGS (ws_flags m) = reserved_flags x ∧ flags_endianness (ws_flags m) = e ∧
          flags_has FLAG_MULTICAST (ws_flags m) = is_some mc) as (F1 & F2 & F3).
  { unfold m. cbn [ws_flags]. match goal with |- context [flags_with (reserved_flags x) ?base] =>
      destruct (flags_of INFO_REPLY_FLAGS (reserved_flags x) base Hres) as (F1 & F2 & F3) end.
    1, 2: by destruct e, mc.
    rewrite F1, F2, !F3 by done. by destruct e, mc. }
  eapply body_done; [by apply (info_reply_carries u mc x (ws_flags m))|cbn [ws_body_len m]; lia|].
  intros body r Hr Hp octets. cbn [ws_read header_of sh_id sh_flags ws_id m]. fold m. unfold info_reply_read.
  rewrite Hr. cbn [rbind]. by rewrite F2, (rest_eq _ x).
Qed.

Lemma ws_roundtrips m : ws_ok m → body_roundtrips m.
Proof.
  destruct m as [e extra d ns x|e extra f q key ns x|e h x|e h x|e a x|e n x|e g x|e t reserved|e s reserved|e p reserved|e u mc x|e padding reserved|id flags body].
  - apply data_roundtrips.
  - apply data_frag_roundtrips.
  - apply heartbeat_roundtrips.
  - apply (plain_roundtrips e x (inl (inl h))).
  - apply acknack_roundtrips.
  - apply (plain_roundtrips e x (inl (inr n))).
  - apply (plain_roundtrips e x (inr g)).
  - apply info_timestamp_roundtrips.
  - apply (info_roundtrips e reserved (inl s)).
  - apply (info_roundtrips e reserved (inr p)).
  - apply info_reply_roundtrips.
  - intros [Hres _]. exists padding. split_and!; [done|done|]. intros octets. cbn [ws_read header_of sh_id sh_flags ws_id ws_flags].
    unfold pad_read. by destruct (plain_flags e reserved Hres) as [-> ->].
  - intros Hid. exists body. split_and!; [done|done|]. intros octets. by destruct id.
Qed.

(** ** Datagrams *)

Lemma ws_id_raw m : ws_ok m → from_raw (raw_id (ws_id m)) = ws_id m.
Proof. destruct m as [| | | | | | | | | | | |id flags body]; cbn; [done..|]. by destruct id. Qed.

Lemma submessage_header_read h rest :
  from_raw (raw_id (sh_id h)) = sh_id h → sh_octets h < 2 ^ 16 →
  submessage_header_decode (submessage_header_to_bytes h ++ rest) = Ok h ∧ bdrop 4 (submessage_header_to_bytes h ++ rest) = rest.
Proof.
  intros Hid Ho. destruct h as [id flags octets]. unfold submessage_header_to_bytes, submessage_header_decode. cbn in *.
  pose proof (blen_endian (flags_endianness flags) 2 octets) as Hl. pose proof (from_endian_octets (flags_endianness flags) 2 octets Ho) as Hv.
  destruct (endian_octets (flags_endianness flags) 2 octets) as [|a [|b [|]]]; unfold blen in Hl; cbn in Hl; try lia.
  cbn. by rewrite Hv, Hid.
Qed.

Lemma blen_submessage_header h : blen (submessage_header_to_bytes h) = 4.
Proof. unfold submessage_header_to_bytes. rewrite blen_app, blen_endian. done. Qed.

(** The shape of what one turn of the encoder writes. *)
Lemma encoded_shape m is_last bytes body :
  ws_encode_body m = Ok body → encode_submessage is_last m = Ok bytes →
  ∃ octets, octets_for (ws_id m) (blen body) is_last = Ok octets ∧ bytes = submessage_header_to_bytes (header_of m octets) ++ body ∧
    (is_last = false → blen body mod 4 = 0 ∧ (blen body = 0 → allows_empty_body (ws_id m) = true)).
Proof.
  unfold encode_submessage. intros -> Henc. cbn [cdr map_err rbind] in Henc.
  destruct is_last; cbn [rbind] in Henc.
  { destruct (octets_for (ws_id m) (blen body) true) as [o|] eqn:Ho; [|done]. exists o. split_and!; [done|by injection Henc as <-|done]. }
  destruct (N.eqb_spec (blen body mod 4) 0) as [Hm|]; [|done]. cbn [negb] in Henc.
  destruct (N.eqb (blen body) 0 && negb (allows_empty_body (ws_id m))) eqn:Hz; [done|]. cbn [rbind] in Henc.
  destruct (octets_for (ws_id m) (blen body) false) as [o|] eqn:Ho; [|done]. exists o. split_and!; [done|by injection Henc as <-|].
  intros _. split; [done|]. intros E. rewrite (proj2 (N.eqb_eq _ _) E) in Hz. by destruct (allows_empty_body (ws_id m)).
Qed.

(** Only a body that may not be empty is ever too long for its length. *)
Lemma long_bodies m (body : list N) : ws_ok m → blen body = ws_body_len m → MAX_OCTETS_TO_NEXT_HEADER < blen body → allows_empty_body (ws_id m) = false.
Proof.
  unfold MAX_OCTETS_TO_NEXT_HEADER. intros Hok Hlen Hgt. rewrite Hlen in Hgt.
  destruct m as [| | | | | | |e t reserved| | | |e padding reserved|id flags body']; try done.
  - cbn in Hgt. destruct t; cbn in Hgt; lia.
  - destruct Hok as [_ Hp]. unfold MAX_OCTETS_TO_NEXT_HEADER in Hp. cbn in Hgt. lia.
  - cbn in Hok |- *. by destruct id.
Qed.

(** The extent the header declares is the body. *)
Lemma extent_read m is_last octets (body rest : list N) :
  ws_ok m → blen body = ws_body_len m → octets_for (ws_id m) (blen body) is_last = Ok octets → (is_last = true → rest = []) →
  (is_last = false → blen body = 0 → allows_empty_body (ws_id m) = true) →
  octets < 2 ^ 16 ∧ ∃ extent, body_extent (blen (body ++ rest)) (header_of m octets) = Ok extent ∧
    match extent with Exact len => len | ToEndOfMessage => blen (body ++ rest) end = blen body.
Proof.
  intros Hok Hlen Hoct Hlast Hnl. unfold octets_for, MAX_OCTETS_TO_NEXT_HEADER in Hoct. unfold body_extent. cbn [header_of sh_octets sh_id].
  destruct (N.leb_spec (blen body) 65535) as [Hle|Hgt].
  - injection Hoct as <-. change (2 ^ 16) with 65536. split; [lia|]. destruct (N.eqb_spec (blen body) 0) as [Hz|Hz].
    + destruct (allows_empty_body (ws_id m)) eqn:Ha; [by eexists|]. eexists. split; [done|]. cbn.
      destruct is_last; [|by discriminate (Hnl eq_refl Hz)]. by rewrite Hlast, app_nil_r.
    + rewrite (proj2 (N.ltb_ge _ _)) by (rewrite blen_app; lia). by eexists.
  - destruct is_last; [|done]. injection Hoct as <-. split; [done|].
    rewrite (long_bodies m body Hok Hlen Hgt). eexists. split; [done|]. cbn. by rewrite Hlast, app_nil_r.
Qed.

(** What one turn of the encoder wrote, one step of the iterator reads. *)
Lemma step_reads m is_last bytes rest offset :
  ws_ok m → offset mod 4 = 0 → encode_submessage is_last m = Ok bytes → (is_last = true → rest = []) →
  iter_step (bytes ++ rest) offset = Ok (m, rest, offset + blen bytes) ∧ blen bytes = ws_serialized_len m ∧
  (is_last = false → (offset + blen bytes) mod 4 = 0).
Proof.
  intros Hok Hoff Henc Hlast. destruct (ws_roundtrips m Hok) as (body & Hbody & Hlen & Hread).
  destruct (encoded_shape m is_last bytes body Hbody Henc) as (octets & Hoct & -> & Hnl).
  destruct (extent_read m is_last octets body rest Hok Hlen Hoct Hlast) as (Hlt & extent & Hext & Hsize); [intros Hl; apply (Hnl Hl)|].
  rewrite blen_app, blen_submessage_header. split_and!; [|by rewrite Hlen|].
  - unfold iter_step. rewrite Hoff. cbn [negb N.eqb]. rewrite <-app_assoc.
    destruct (submessage_header_read (header_of m octets) (body ++ rest)) as [Hdec Hdrop]; [by apply ws_id_raw|done|].
    rewrite Hdec. cbn [rbind]. unfold SUBMESSAGE_HEADER_LEN. rewrite Hdrop, Hext. cbn [rbind].
    by rewrite Hsize, btake_app_exact, bdrop_app_exact, Hread.
  - intros Hl. destruct (Hnl Hl) as [Hm _]. revert Hm Hoff. clear. intros. zify. Z.to_euclidean_division_equations. lia.
Qed.

Lemma encoded_length m is_last bytes : ws_ok m → encode_submessage is_last m = Ok bytes → blen bytes = ws_serialized_len m.
Proof.
  intros Hok Henc. destruct (ws_roundtrips m Hok) as (body & Hbody & Hlen & _).
  destruct (encoded_shape m is_last bytes body Hbody Henc) as (octets & _ & -> & _).
  by rewrite blen_app, blen_submessage_header, Hlen.
Qed.

Lemma encoded_lengths l bytes :
  Forall ws_ok l → encode_submessages l = Ok bytes → blen bytes = foldr (λ s n, ws_serialized_len s + n) 0 l ∧ blen l <= blen bytes.
Proof.
  intros Hall. revert bytes. induction Hall as [|m l Hm Hl IH]; intros bytes Henc; cbn [encode_submessages] in Henc.
  { by injection Henc as <-. }
  destruct (encode_submessage _ m) as [octets|] eqn:Ho; [|done]. cbn [rbind] in Henc.
  destruct (encode_submessages l) as [others|]; [|done]. injection Henc as <-. destruct (IH others eq_refl) as [H1 H2].
  rewrite blen_app, (encoded_length m _ octets Hm Ho). cbn [foldr]. rewrite <-H1. split; [done|].
  unfold ws_serialized_len, SUBMESSAGE_HEADER_LEN, blen in *. cbn [length]. lia.
Qed.

Lemma submessages_read l : Forall ws_ok l → ∀ bytes offset acc fuel,
  encode_submessages l = Ok bytes → offset mod 4 = 0 → blen acc + blen l <= MAX_SUBMESSAGES → (length l < fuel)%nat →
  decode_loop fuel bytes offset acc = Ok (acc ++ l).
Proof.
  induction 1 as [|m l Hm Hl IH]; intros bytes offset acc fuel Henc Hoff Hmax Hfuel; (destruct fuel as [|fuel]; [lia|]); cbn [encode_submessages] in Henc.
  { injection Henc as <-. cbn. by rewrite app_nil_r. }
  set (is_last := match l with [] => true | _ => false end) in *.
  destruct (encode_submessage is_last m) as [octets|] eqn:Ho; [|done]. cbn [rbind] in Henc.
  destruct (encode_submessages l) as [others|] eqn:Hothers; [|done]. injection Henc as <-.
  destruct (step_reads m is_last octets others offset Hm Hoff Ho) as (Hstep & Hlen & Hmod).
  { intros Hlast. destruct l; [by injection Hothers as <-|done]. }
  assert (decode_loop (S fuel) (octets ++ others) offset acc =
            decode_loop fuel others (offset + blen octets) (acc ++ [m])) as ->.
  { cbn [decode_loop]. rewrite Hstep. unfold MAX_SUBMESSAGES in *. unfold blen in *. cbn [length] in *.
    rewrite (proj2 (N.eqb_neq _ _)) by lia. cbn [rbind]. destruct octets; [cbn in Hlen; unfold ws_serialized_len, SUBMESSAGE_HEADER_LEN in Hlen; lia|done]. }
  destruct l as [|m' l].
  - injection Hothers as <-. by destruct fuel.
  - rewrite (IH others (offset + blen octets) (acc ++ [m]) fuel eq_refl).
    + by rewrite <-app_assoc.
    + by apply Hmod.
    + rewrite blen_app. unfold blen in *. cbn [length] in *. lia.
    + cbn [length] in *. lia.
Qed.

(** The header of a datagram. *)
Lemma prefix_read h rest :
  is_understood (version h) = true → fits_in 96 (hd_guid_prefix h) → header_decode_prefix (rtps_header_to_bytes h ++ rest) = Ok (h, rest).
Proof.
  intros Hv Hp. destruct h as [[ma mi] [va vb] prefix]. unfold header_decode_prefix, rtps_header_to_bytes, HEADER_LEN. cbn [version vendor_id hd_guid_prefix] in *.
  pose proof (blen_endian Big 12 prefix) as Hl. cbn [endian_octets] in Hl.
  rewrite !blen_app, Hl. rewrite (proj2 (N.ltb_ge _ _)) by (change (blen PROTOCOL_ID) with 4; unfold blen; cbn [length]; lia).
  rewrite <-!app_assoc. change (PROTOCOL_ID ++ ?x) with (0x52 :: 0x54 :: 0x50 :: 0x53 :: x). cbn [major minor fst snd app take drop nth].
  rewrite bool_decide_true by done. cbn [negb]. unfold check_understood. rewrite Hv. cbn [rbind].
  assert (length (to_be_bytes 12 prefix) = 12%nat) as Hl' by (unfold blen in Hl; lia).
  rewrite drop_0, take_app_length', drop_app_length' by done. by rewrite (from_endian_octets Big 12) by done.
Qed.

(** What a message must keep to so that every reader takes it. *)
Definition wm_ok (m : WireMessage) : Prop :=
  is_understood (version (wm_header m)) = true ∧ fits_in 96 (hd_guid_prefix (wm_header m)) ∧
  Forall ws_ok (wm_submessages m) ∧ blen (wm_submessages m) <= MAX_SUBMESSAGES.

Lemma decode_of_encode m bytes : wm_ok m → wm_encode m = Ok bytes → wm_decode bytes = Ok m ∧ blen bytes = wm_serialized_len m.
Proof.
  intros (Hv & Hp & Hall & Hcount) Henc. unfold wm_encode in Henc. destruct (encode_submessages (wm_submessages m)) as [octets|] eqn:Ho; [|done].
  cbn [rbind] in Henc. assert (bytes = rtps_header_to_bytes (wm_header m) ++ octets) as -> by congruence.
  destruct (encoded_lengths _ _ Hall Ho) as [Hlen Hle]. unfold wm_decode. rewrite prefix_read by done. cbn [rbind].
  rewrite (submessages_read _ Hall octets HEADER_LEN [] (S (length octets)) Ho); [|done|done|unfold blen in Hle; lia].
  split; [by destruct m|]. rewrite blen_app, Hlen. unfold wm_serialized_len.
  assert (blen (rtps_header_to_bytes (wm_header m)) = HEADER_LEN) as ->.
  { unfold rtps_header_to_bytes. rewrite !blen_app, (blen_endian Big 12). done. }
  clear. induction (wm_submessages m) as [|x l IH]; cbn [foldr]; lia.
Qed.

(** ** The octets of a message of the protocol *)

(** A submessage as its constructor ([Data::new], [Heartbeat::new], ...)
    makes it: little-endian, without extensions. *)
Definition to_wire (s : Submessage) : WireSubmessage :=
  match s with
  | SmInfoTimestamp t => WsInfoTimestamp Little t 0
  | SmInfoSource p => WsInfoSource Little (mkInfoSource 0 CURRENT_VERSION ASTRS_VENDOR p) 0
  | SmInfoDestination p => WsInfoDestination Little p 0
  | SmData d => WsData Little 0 d false EMPTY_EXTENSION
  | SmDataFrag f => WsDataFrag Little 0 f None false false EMPTY_EXTENSION
  | SmHeartbeat h => WsHeartbeat Little h EMPTY_EXTENSION
  | SmGap g => WsGap Little g EMPTY_EXTENSION
  | SmAckNack a => WsAckNack Little a EMPTY_EXTENSION
  | SmNackFrag n => WsNackFrag Little n EMPTY_EXTENSION
  end.

Definition datagram_of (m : Message) : WireMessage := mkWireMessage (rtps_header_new (guid_prefix m)) (to_wire <$> submessages m).

Definition message_ok (m : Message) : Prop :=
  fits_in 96 (guid_prefix m) ∧ Forall (λ s, ws_ok (to_wire s)) (submessages m) ∧ blen (submessages m) <= MAX_SUBMESSAGES.

Lemma to_wire_len s : ws_body_len (to_wire s) = body_len s.
Proof.
  destruct s as [[t|]|p|p|d|f|h|g|a|n]; cbn [to_wire ws_body_len body_len is_some EMPTY_EXTENSION trailing]; try done;
    change (blen (@nil N)) with 0; rewrite ?N.add_0_r; try lia.
  unfold frag_body_len, qos_len, olen, blen. lia.
Qed.

Lemma to_wire_empty s : allows_empty_body (ws_id (to_wire s)) = match s with SmInfoTimestamp _ => true | _ => false end.
Proof. by destruct s. Qed.

Lemma to_wire_id s : raw_id (ws_id (to_wire s)) = submessage_id s.
Proof. by destruct s. Qed.

(** One submessage is encoded unless [check_not_last] refuses it. *)
Lemma encode_not_last s :
  ws_ok (to_wire s) →
  match check_not_last s with
  | Ok _ => ∃ bytes, encode_submessage false (to_wire s) = Ok bytes
  | Err err => encode_submessage false (to_wire s) = Err (WireRtps err)
  end.
Proof.
  intros Hok. destruct (ws_roundtrips _ Hok) as (body & Hbody & Hlen & _). rewrite to_wire_len in Hlen.
  unfold check_not_last, encode_submessage. rewrite Hbody. cbn [cdr map_err rbind]. rewrite Hlen, to_wire_empty, ?to_wire_id.
  destruct (negb (N.eqb (body_len s mod 4) 0)); [done|].
  destruct (N.eqb (body_len s) 0 && negb match s with SmInfoTimestamp _ => true | _ => false end); [done|]. cbn [rbind].
  unfold octets_for. rewrite to_wire_id. destruct (N.leb (body_len s) MAX_OCTETS_TO_NEXT_HEADER); [|done]. cbn [rbind]. by eexists.
Qed.

Lemma encode_last s : ws_ok (to_wire s) → ∃ bytes, encode_submessage true (to_wire s) = Ok bytes.
Proof.
  intros Hok. destruct (ws_roundtrips _ Hok) as (body & Hbody & Hlen & _). unfold encode_submessage. rewrite Hbody. cbn [cdr map_err rbind].
  unfold octets_for. destruct (N.leb (blen body) MAX_OCTETS_TO_NEXT_HEADER); cbn [rbind]; by eexists.
Qed.

Lemma encode_refines l :
  Forall (λ s, ws_ok (to_wire s)) l →
  match encode_check l with
  | Ok _ => ∃ bytes, encode_submessages (to_wire <$> l) = Ok bytes
  | Err err => encode_submessages (to_wire <$> l) = Err (WireRtps err)
  end.
Proof.
  induction 1 as [|s l Hs Hl IH]; cbn [encode_check fmap list_fmap encode_submessages]; [by eexists|].
  destruct l as [|s' l].
  - destruct (encode_last s Hs) as [bytes Hb]. cbn [fmap list_fmap]. rewrite Hb. cbn. by eexists.
  - cbn [fmap list_fmap] in *. pose proof (encode_not_last s Hs) as Hn. destruct (check_not_last s) as [[]|err]; cbn [rbind].
    + destruct Hn as [bytes ->]. cbn [rbind]. destruct (encode_check (s' :: l)).
      * destruct IH as [others ->]. by eexists.
      * by rewrite IH.
    + by rewrite Hn.
Qed.

(** C40. The datagrams of the protocol are faithful to their octets: a message
    whose numbers have the width of their types is encoded exactly when
    [encode_check] of the model allows it, with the same error otherwise; the
    octets decode to the same message, and there are as many as the lengths
    announce by which datagrams are packed. *)
Theorem datagrams_carry_messages (m : Message) :
  message_ok m →
  match encode_check (submessages m) with
  | Ok _ =>
      ∃ bytes, wm_encode (datagram_of m) = Ok bytes ∧ wm_decode bytes = Ok (datagram_of m) ∧
        blen bytes = foldr (λ s n, serialized_len s + n) HEADER_LEN (submessages m)
  | Err err => wm_encode (datagram_of m) = Err (WireRtps err)
  end.
Proof.
  intros (Hp & Hall & Hcount). pose proof (encode_refines _ Hall) as Href. destruct (encode_check (submessages m)) as [[]|err].
  - destruct Href as [octets Ho]. set (bytes := rtps_header_to_bytes (rtps_header_new (guid_prefix m)) ++ octets).
    assert (wm_encode (datagram_of m) = Ok bytes) as Henc by (unfold wm_encode; cbn [datagram_of wm_submessages]; by rewrite Ho).
    exists bytes. destruct (decode_of_encode (datagram_of m) bytes) as [Hdec Hlen]; [|done|].
    + split_and!; [done|done|by apply Forall_fmap|]. unfold blen in *. cbn [datagram_of wm_submessages]. by rewrite length_fmap.
    + split_and!; [done|done|]. rewrite Hlen. unfold wm_serialized_len. cbn [datagram_of wm_submessages]. clear.
      induction (submessages m) as [|s l IH]; cbn [fmap list_fmap foldr]; [done|]. rewrite IH. unfold ws_serialized_len, serialized_len. by rewrite to_wire_len.
  - unfold wm_encode. cbn [datagram_of wm_submessages]. by rewrite Href.
Qed.

(** Every datagram decodes to what was encoded: for messages of all
    twelve kinds in either byte order, with inline parameters, flags and
    octets of later versions, whenever [encode] succeeds [decode] returns the
    very message, and [serialized_len] is the number of octets. *)
Theorem datagram_roundtrip (m : WireMessage) bytes :
  wm_ok m → wm_encode m = Ok bytes → wm_decode bytes = Ok m ∧ blen bytes = wm_serialized_len m.
Proof. apply decode_of_encode. Qed.

(** ** Decoding stops *)

Lemma iter_step_shrinks rest offset m rest' offset' :
  iter_step rest offset = Ok (m, rest', offset') → (length rest' + 4 <= length rest)%nat.
Proof.
  unfold iter_step. destruct (negb _); [done|]. destruct (submessage_header_decode rest) as [h|] eqn:Hh; [|done]. cbn [rbind].
  assert (4 <= length rest)%nat as Hl by (destruct rest as [|? [|? [|? [|]]]]; cbn in *; (done || lia)).
  destruct (body_extent _ h) as [extent|]; [|done]. cbn [rbind]. destruct (ws_read h _) as [m'|]; [|done]. cbn [rbind].
  intros [= _ <- _]. unfold bdrop, SUBMESSAGE_HEADER_LEN. rewrite !length_drop. change (N.to_nat 4) with 4%nat. lia.
Qed.

(** The fuel of [wm_decode] is enough for any octets: more changes nothing. *)
Lemma decode_loop_fuel fuel fuel' rest offset acc :
  (length rest < fuel)%nat → (fuel <= fuel')%nat → decode_loop fuel' rest offset acc = decode_loop fuel rest offset acc.
Proof.
  revert fuel' rest offset acc. induction fuel as [|fuel IH]; intros [|fuel'] rest offset acc Hf Hle; try lia. cbn [decode_loop].
  destruct rest as [|b rest]; [done|]. destruct (N.eqb (blen acc) MAX_SUBMESSAGES); [done|].
  destruct (iter_step (b :: rest) offset) as [[[m rest'] offset']|] eqn:Hs; [|done]. cbn [rbind].
  pose proof (iter_step_shrinks _ _ _ _ _ Hs). apply IH; lia.
Qed.

(** ** A datagram *)

Definition sample_set : SequenceNumberSet := mkSet 5%Z 3 [0xA0000000; 0; 0; 0; 0; 0; 0; 0].

Definition sample_message : Message :=
  mkMessage 0x0102030405060708090A0B0C
    [SmInfoTimestamp (Some (1%Z, 2)); SmGap (mkGap 4 0x103 3%Z sample_set);
     SmData (mkData 0x107 0x103 8%Z (Some [(0x71, [0; 0; 0; 1])]) (PayloadData [0; 1; 0; 0; 42]))].

Definition sample_bytes : list N :=
  [0x52; 0x54; 0x50; 0x53; 2; 3; 0x41; 0x53; 1; 2; 3; 4; 5; 6; 7; 8; 9; 10; 11; 12;
   0x09; 1; 8; 0; 1; 0; 0; 0; 2; 0; 0; 0;
   0x08; 1; 32; 0; 0; 0; 0; 4; 0; 0; 1; 3; 0; 0; 0; 0; 3; 0; 0; 0; 0; 0; 0; 0; 5; 0; 0; 0; 3; 0; 0; 0; 0; 0; 0; 0xA0;
   0x15; 7; 37; 0; 0; 0; 16; 0; 0; 0; 1; 7; 0; 0; 1; 3; 0; 0; 0; 0; 8; 0; 0; 0; 0x71; 0; 4; 0; 0; 0; 0; 1; 1; 0; 0; 0; 0; 1; 0; 0; 42].

Lemma sample_set_ok : wire_set_ok sample_set.
Proof.
  split; [unfold is_i64, i64_min, i64_max; cbn; lia|]. split_and!; [done|done|repeat constructor|].
  intros bit Hb. rewrite bit_is_set_eq. cbn [sample_set bitmap num_bits] in *.
  destruct (decide (bit < 32)).
  - assert (bit = 3 ∨ 4 <= bit) as [->|Hge] by lia; [done|]. rewrite N.div_small, N.mod_small by done. cbn [lookup N.to_nat list_lookup].
    change 0xA0000000 with (N.shiftl 5 29). apply N.shiftl_spec_low. lia.
  - assert (∀ i, (0 < i)%nat → match [0xA0000000; 0; 0; 0; 0; 0; 0; 0] !! i with Some v => N.testbit v (31 - bit mod 32) | None => false end = false) as H.
    { intros [|[|[|[|[|[|[|[|i]]]]]]]] Hi; [lia|apply N.bits_0..|done]. }
    apply H. zify. Z.to_euclidean_division_equations. lia.
Qed.

Lemma sample_message_ok : message_ok sample_message.
Proof.
  split_and!; [done| |done]. constructor; [|constructor; [|constructor; [|done]]]; cbn [to_wire ws_ok].
  - split_and!; by vm_compute.
  - split_and!; [done|]. split_and!; [done|done|unfold is_i64, i64_min, i64_max; cbn; lia|apply sample_set_ok].
  - split_and!; [done| |by right]. split_and!; [done..|unfold is_i64, i64_min, i64_max; cbn; lia|].
    split; [done|]. constructor; [|done]. by split_and!.
Qed.

Lemma datagrams_carry_messages_witness :
  message_ok sample_message ∧ encode_check (submessages sample_message) = Ok tt ∧
  ∃ bytes, wm_encode (datagram_of sample_message) = Ok bytes ∧ wm_decode bytes = Ok (datagram_of sample_message) ∧ blen bytes = 109.
Proof.
  split_and!; [apply sample_message_ok|done|].
  exact (datagrams_carry_messages sample_message sample_message_ok).
Defined.

Lemma datagram_roundtrip_witness : wm_decode sample_bytes = Ok (datagram_of sample_message) ∧ blen sample_bytes = wm_serialized_len (datagram_of sample_message).
Proof.
  apply (datagram_roundtrip (datagram_of sample_message) sample_bytes); [|by vm_compute].
  destruct sample_message_ok as (H1 & H2 & H3). by split_and!; [done|done|apply Forall_fmap|].
Defined.

(** Padding that is too long for its length field is written with length
    zero, which every reader takes for an empty pad; what follows is then
    read as submessages. *)
Theorem long_padding_is_misread header padding :
  MAX_OCTETS_TO_NEXT_HEADER < blen padding →
  ∃ octets, wm_encode (mkWireMessage header [WsPad Little padding 0]) = Ok (rtps_header_to_bytes header ++ octets) ∧
    iter_step octets HEADER_LEN = Ok (WsPad Little [] 0, padding, HEADER_LEN + 4).
Proof.
  intros Hlong. exists ([1; 1; 0; 0] ++ padding). unfold wm_encode. cbn [wm_submessages encode_submessages].
  unfold encode_submessage. change (ws_encode_body (WsPad Little padding 0)) with (@Ok CdrError _ padding). cbn [cdr map_err rbind].
  unfold octets_for. rewrite (proj2 (N.leb_gt _ _)) by done. cbn [rbind]. rewrite app_nil_r. split; [done|].
  unfold iter_step. change (submessage_header_decode ([1; 1; 0; 0] ++ padding)) with (@Ok CodecError _ (mkSubmessageHeader IdPad 1 0)).
  cbn [rbind negb N.eqb]. done.
Qed.

(** Octets kept as the extension of a fragment come back as payload. *)
Theorem fragment_extension_joins_payload :
  let header := rtps_header_new 7 in
  let fragment := mkDataFrag 1 2 3%Z 1 1 4 8 in
  (let? bytes := wm_encode (mkWireMessage header [WsDataFrag Little 0 (fragment [1; 2; 3; 4]) None false false (mkExtension 0 [9; 9])]) in
   wm_decode bytes) =
  Ok (mkWireMessage header [WsDataFrag Little 0 (fragment [1; 2; 3; 4; 9; 9]) None false false EMPTY_EXTENSION]).
Proof. by vm_compute. Qed.
