(* ===== verification/RtpsReplay.v ===== *)
(** * The anti-replay window

    Models [src/crates/astrs-rtps/src/security/replay.rs]: the highest
    accepted counter of a session and a 64-bit map of the counters below it.

    [replay_window_refines]: on any sequence of counters the window gives the
    verdicts of the set of accepted counters it abbreviates; so no counter is
    ever accepted twice ([no_counter_accepted_twice]), however the counters
    are reordered or repeated. *)

From Stdlib Require Import Lia.
From stdpp Require Import base tactics list gmap numbers.
From S2P Require Import Prelude.

#[local] Open Scope N_scope.

(** ** The window *)

Definition REPLAY_WINDOW : N := 64.

Record ReplayWindow := mkReplayWindow { rw_highest : N; rw_seen : N }.

Definition replay_new : ReplayWindow := mkReplayWindow 0 0.

(** [1_u64 << n] and [x << n]: the bits beyond the sixty-fourth are dropped. *)
Definition shl64 (x n : N) : N := N.land (N.shiftl x n) (N.ones 64).

Definition is_fresh (counter : N) (w : ReplayWindow) : bool :=
  if N.eqb counter 0 then false
  else if N.ltb (rw_highest w) counter then true
  else
    let behind := rw_highest w - counter in
    if N.leb REPLAY_WINDOW behind then false
    else N.eqb (N.land (rw_seen w) (shl64 1 behind)) 0.

Definition accept (counter : N) (w : ReplayWindow) : ReplayWindow * bool :=
  if negb (is_fresh counter w) then (w, false)
  else if N.ltb (rw_highest w) counter then
    let advance := counter - rw_highest w in
    let slid := if N.leb REPLAY_WINDOW advance then 0 else shl64 (rw_seen w) advance in
    (mkReplayWindow counter (N.lor slid 1), true)
  else
    let behind := rw_highest w - counter in
    (mkReplayWindow (rw_highest w) (N.lor (rw_seen w) (shl64 1 behind)), true).

(** The verdicts on a sequence of counters. *)
Fixpoint accept_all (counters : list N) (w : ReplayWindow) : list bool :=
  match counters with
  | [] => []
  | c :: rest => let '(w', ok) := accept c w in ok :: accept_all rest w'
  end.

(** ** The specification

    A counter is fresh when it is not zero, has not been accepted, and no
    accepted counter is sixty-four or more ahead of it. *)

Definition fresh_for (accepted : gset N) (counter : N) : Prop :=
  counter ≠ 0 ∧ counter ∉ accepted ∧ set_Forall (λ a, a < counter + REPLAY_WINDOW) accepted.

#[global] Instance fresh_for_dec accepted counter : Decision (fresh_for accepted counter).
Proof. unfold fresh_for. apply _. Defined.

Fixpoint spec_accept_all (counters : list N) (accepted : gset N) : list bool :=
  match counters with
  | [] => []
  | c :: rest =>
      if decide (fresh_for accepted c) then true :: spec_accept_all rest ({[c]} ∪ accepted)
      else false :: spec_accept_all rest accepted
  end.

(** The window abbreviates the set: its highest element, and the sixty-four
    counters up to it. *)
Record abbreviates (w : ReplayWindow) (accepted : gset N) : Prop := {
  ab_zero : 0 ∉ accepted;
  ab_top : set_Forall (λ a, a <= rw_highest w) accepted;
  ab_highest : rw_highest w ≠ 0 → rw_highest w ∈ accepted;
  ab_seen : ∀ n, N.testbit (rw_seen w) n = true ↔ n < 64 ∧ rw_highest w - n ∈ accepted;
}.

(** *** Bits *)

Lemma shl64_testbit x n i : N.testbit (shl64 x n) i = (N.ltb i 64 && N.leb n i && N.testbit x (i - n))%bool.
Proof.
  unfold shl64. rewrite N.land_spec. destruct (N.ltb_spec i 64) as [Hi|Hi].
  - rewrite N.ones_spec_low by done. rewrite andb_true_r. destruct (N.leb_spec n i).
    + by rewrite N.shiftl_spec_high'.
    + by rewrite N.shiftl_spec_low.
  - rewrite N.ones_spec_high by done. by rewrite andb_false_r.
Qed.

Lemma bit_testbit n i : n < 64 → N.testbit (shl64 1 n) i = true ↔ i = n.
Proof.
  intros Hn. rewrite shl64_testbit, !andb_true_iff, N.ltb_lt, N.leb_le. split.
  - intros [[Hi Hle] Hb]. destruct (N.eq_dec (i - n) 0); [lia|].
    rewrite N.bits_above_log2 in Hb; [done|]. simpl. lia.
  - intros ->. by rewrite N.sub_diag.
Qed.

Lemma land_bit x n : n < 64 → N.land x (shl64 1 n) = 0 ↔ N.testbit x n = false.
Proof.
  intros Hn. split.
  - intros E. assert (N.testbit (N.land x (shl64 1 n)) n = false) as Hb by (by rewrite E).
    rewrite N.land_spec, (proj2 (bit_testbit n n Hn) eq_refl), andb_true_r in Hb. done.
  - intros Hb. apply N.bits_inj. intros i. rewrite N.land_spec, N.bits_0.
    destruct (N.testbit (shl64 1 n) i) eqn:Ei; [|by rewrite andb_false_r].
    apply bit_testbit in Ei as ->; [|done]. by rewrite Hb.
Qed.

(** *** The window against the set *)

Lemma is_fresh_spec w accepted c : abbreviates w accepted → is_fresh c w = true ↔ fresh_for accepted c.
Proof.
  intros [Hz Ht Hh Hs]. unfold is_fresh, fresh_for, REPLAY_WINDOW.
  destruct (N.eqb_spec c 0) as [->|Hc]; [naive_solver|].
  destruct (N.ltb_spec (rw_highest w) c) as [Hlt|Hge].
  { split; [intros _|done]. split; [done|]. split.
    - intros Hin. specialize (Ht c Hin). simpl in Ht. lia.
    - intros a Ha. specialize (Ht a Ha). simpl in Ht. lia. }
  assert (rw_highest w ∈ accepted) as Htop by (apply Hh; lia).
  destruct (N.leb_spec 64 (rw_highest w - c)) as [Hold|Hin].
  { split; [done|]. intros (_ & _ & Hall). specialize (Hall _ Htop). simpl in Hall. lia. }
  rewrite N.eqb_eq, land_bit by lia. rewrite <-not_true_iff_false, Hs.
  replace (rw_highest w - (rw_highest w - c)) with c by lia. split.
  - intros Hn. split; [done|]. split; [tauto|]. intros a Ha. specialize (Ht a Ha). simpl in Ht. lia.
  - tauto.
Qed.

Lemma accept_spec w accepted c :
  abbreviates w accepted →
  if decide (fresh_for accepted c) then
    (accept c w).2 = true ∧ abbreviates (accept c w).1 ({[c]} ∪ accepted)
  else accept c w = (w, false).
Proof.
  intros Hab. pose proof (is_fresh_spec w accepted c Hab) as Hf. unfold accept.
  case_decide as Hd; [|destruct (is_fresh c w); [tauto|done]].
  rewrite (proj2 Hf Hd). simpl. destruct Hd as (Hc & Hnew & Hwin). destruct Hab as [Hz Ht Hh Hs].
  destruct (N.ltb_spec (rw_highest w) c) as [Hlt|Hge]; simpl; (split; [done|]); split; simpl.
  - set_solver.
  - intros a [->%elem_of_singleton|Ha]%elem_of_union; [done|]. specialize (Ht a Ha). simpl in Ht. lia.
  - set_solver.
  - intros n. unfold REPLAY_WINDOW. rewrite N.lor_spec, orb_true_iff, elem_of_union, elem_of_singleton.
    assert (N.testbit 1 n = true ↔ n = 0) as E1.
    { destruct n as [|p]; [done|]. by destruct p. }
    rewrite E1. destruct (decide (n = 0)) as [->|Hn].
    { rewrite N.sub_0_r. split; [intros _; split; [lia|by left]|by right]. }
    destruct (N.leb_spec 64 (c - rw_highest w)) as [Hfar|Hnear].
    + rewrite N.bits_0. split; [intros [?|?]; [done|lia]|]. intros [Hn64 [E|Hin]]; [lia|].
      specialize (Ht _ Hin). simpl in Ht. lia.
    + rewrite shl64_testbit, !andb_true_iff, N.ltb_lt, N.leb_le, Hs. split.
      * intros [[[Hn64 Hle] [_ Hin]]|?]; [|done]. split; [done|]. right.
        by replace (c - n) with (rw_highest w - (n - (c - rw_highest w))) by lia.
      * intros [Hn64 [E|Hin]]; [lia|]. left. pose proof (Ht _ Hin) as Hle. simpl in Hle.
        split; [split; [done|lia]|]. split; [lia|].
        by replace (rw_highest w - (n - (c - rw_highest w))) with (c - n) by lia.
  - set_solver.
  - intros a [->%elem_of_singleton|Ha]%elem_of_union; [lia|by apply Ht].
  - set_solver.
  - assert (rw_highest w - c < 64) as Hb.
    { assert (rw_highest w ∈ accepted) as Htop by (apply Hh; lia). specialize (Hwin _ Htop).
      unfold REPLAY_WINDOW in Hwin. simpl in Hwin. lia. }
    intros n. rewrite N.lor_spec, orb_true_iff, bit_testbit, Hs, elem_of_union, elem_of_singleton by done.
    split.
    + intros [[Hn Hin]| ->]; [split; [done|by right]|]. split; [done|]. left. lia.
    + intros [Hn [E|Hin]]; [right; lia|by left].
Qed.

Lemma replay_new_abbreviates : abbreviates replay_new ∅.
Proof.
  split; simpl; [set_solver|set_solver|done|]. intros n. set_solver.
Qed.

Lemma accept_all_spec counters w accepted :
  abbreviates w accepted → accept_all counters w = spec_accept_all counters accepted.
Proof.
  revert w accepted. induction counters as [|c rest IH]; intros w accepted Hab; [done|]. simpl.
  pose proof (accept_spec w accepted c Hab) as Ha. case_decide.
  - destruct (accept c w) as [w' ok]. simpl in Ha. destruct Ha as [-> Hab']. by rewrite (IH w' _ Hab').
  - rewrite Ha. by rewrite (IH w _ Hab).
Qed.

(** The counters a run accepts. *)
Definition accepted_of (counters : list N) (verdicts : list bool) : list N :=
  (filter (λ p : N * bool, p.2 = true) (zip counters verdicts)).*1.

Lemma spec_accept_once counters accepted :
  NoDup (accepted_of counters (spec_accept_all counters accepted)) ∧
  ∀ c, c ∈ accepted_of counters (spec_accept_all counters accepted) → c ∉ accepted ∧ c ≠ 0.
Proof.
  revert accepted. induction counters as [|c rest IH]; intros accepted.
  { split; [constructor|by intros c ?%elem_of_nil]. }
  unfold accepted_of in *. cbn [spec_accept_all]. case_decide as Hf; cbn [zip zip_with].
  - destruct Hf as (Hc & Hnew & _). destruct (IH ({[c]} ∪ accepted)) as [Hnd Hall].
    rewrite filter_cons_True by done. cbn [fmap list_fmap fst]. split.
    + constructor; [|done]. intros Hin. apply Hall in Hin as [Hin _]. set_solver.
    + intros c' [->|Hin]%elem_of_cons; [done|]. apply Hall in Hin. set_solver.
  - rewrite filter_cons_False by done. apply IH.
Qed.

(** ** Theorems *)

(** The bitmap is an exact abbreviation: on every sequence of counters the
    window accepts precisely those that are not zero, were not accepted before
    and are less than sixty-four behind everything accepted; reordering inside
    the window costs nothing. *)
Theorem replay_window_refines (counters : list N) :
  accept_all counters replay_new = spec_accept_all counters ∅.
Proof. apply accept_all_spec, replay_new_abbreviates. Qed.

(** Whatever arrives, no counter is accepted twice. *)
Theorem no_counter_accepted_twice (counters : list N) :
  NoDup (accepted_of counters (accept_all counters replay_new)).
Proof.
  rewrite (accept_all_spec _ _ _ replay_new_abbreviates). apply spec_accept_once.
Qed.

(** Late but inside the window, then repeated, then too old. *)
Example replay_example :
  accept_all [10; 9; 5; 10; 9; 0; 100; 37; 36] replay_new
  = [true; true; true; false; false; false; true; true; false].
Proof. reflexivity. Qed.
