(* ===== verification/RtpsWriter.v ===== *)
(** * RTPS: the writer

    Models [src/crates/astrs-rtps/src/behavior/writer.rs]: the history, the
    matched readers, what one [produce] call puts on the wire (repairs and new
    samples packed into datagrams, fragments, [GAP]s, [HEARTBEAT]s) and what
    an [ACKNACK] does.  A datagram is its message ([RtpsMessage]); instants
    are nanoseconds.  The quality-of-service and security settings are the
    values the writer reads of them. *)

From Stdlib Require Import Lia.
From stdpp Require Import base tactics gmap strings numbers list sorting.
From S2P Require Import Prelude Crc32c Text RtpsTypes RtpsCache RtpsProxy RtpsFragment RtpsMessage.

Open Scope Z_scope.

(** ** Configuration *)

Definition DATAGRAM_OVERHEAD : N := 20 + 16 + 12 + 24.
Definition FRAGMENT_DATAGRAM_OVERHEAD : N := 20 + 16 + 12 + (4 + DATA_FRAG_PRELUDE_LEN).
Definition MIN_PROTECTED_FRAGMENT_SIZE : N := 64.
Definition MAX_SAMPLES_PER_PRODUCE : nat := 256.
Definition MAX_UDP_PAYLOAD : N := 65507.
Definition DEFAULT_HEARTBEAT_PERIOD : N := 200000000.

Record WriterConfig := mkWriterConfig {
  wc_guid : Guid;
  wc_reliable : bool;
  wc_replays_history : bool;
  wc_history : HistoryQos;
  wc_resource_limits : ResourceLimitsQos;
  wc_lifespan : option N;
  heartbeat_period : N;
  wc_fragment_size : N;
  datagram_budget : N;
  fragmentation_threshold : N;
  is_protecting : bool;
}.

Definition PROTECTION_OVERHEAD : N := (4 + 20) + (4 + 20) + (4 + 4) + 16 + 4.

Definition security_overhead (c : WriterConfig) : N := if is_protecting c then PROTECTION_OVERHEAD else 0%N.

Definition effective_budget (c : WriterConfig) : N := (datagram_budget c - security_overhead c)%N.

Definition effective_fragment_size (c : WriterConfig) : N :=
  if negb (is_protecting c) then wc_fragment_size c
  else
    let room := (effective_budget c - FRAGMENT_DATAGRAM_OVERHEAD)%N in
    let capped := N.max (if N.leb room 65535 then room else 65535) MIN_PROTECTED_FRAGMENT_SIZE in
    N.min (wc_fragment_size c) capped.

Definition effective_threshold (c : WriterConfig) : N :=
  let room := (effective_budget c - DATAGRAM_OVERHEAD)%N in
  if N.ltb room (fragmentation_threshold c) then room else fragmentation_threshold c.

(** ** State *)

Record RtpsWriter := mkWriter {
  w_config : WriterConfig;
  w_cache : HistoryCache;
  last_change : SequenceNumber;
  heartbeat_count : Z;
  w_matched : gmap Guid ReaderProxy;
  last_heartbeat_at : option N;
}.

Definition writer_new (c : WriterConfig) : RtpsWriter :=
  mkWriter c (with_lifespan (wc_lifespan c) (with_limits (wc_resource_limits c) (cache_new (wc_history c))))
    SN_ZERO 0 ∅ None.

Definition set_cache (h : HistoryCache) (w : RtpsWriter) : RtpsWriter :=
  mkWriter (w_config w) h (last_change w) (heartbeat_count w) (w_matched w) (last_heartbeat_at w).
Definition set_w_matched (m : gmap Guid ReaderProxy) (w : RtpsWriter) : RtpsWriter :=
  mkWriter (w_config w) (w_cache w) (last_change w) (heartbeat_count w) m (last_heartbeat_at w).

Definition writer_is_reliable (w : RtpsWriter) : bool := wc_reliable (w_config w).

Definition first_available (w : RtpsWriter) : SequenceNumber :=
  match min_sequence_number (w_cache w) with Some n => n | None => sn_next (last_change w) end.

(** A [BTreeMap] keyed by GUID is visited in order. *)
Definition ascending_guids {A} (m : gmap Guid A) : list Guid := merge_sort guid_le (elements (dom m)).

(** ** Matching *)

Definition replays_history_to (p : ReaderProxy) (w : RtpsWriter) : bool :=
  wc_replays_history (w_config w) && rp_wants_history p.

Definition match_reader (p : ReaderProxy) (w : RtpsWriter) : RtpsWriter :=
  match w_matched w !! rp_guid p with
  | Some existing => set_w_matched (<[rp_guid p := rp_set_locators (rp_locators p) [] existing]> (w_matched w)) w
  | None =>
      let p := if replays_history_to p w then p else skip_history_through (last_change w) p in
      set_w_matched (<[rp_guid p := p]> (w_matched w)) w
  end.

Definition unmatch_reader (g : Guid) (w : RtpsWriter) : RtpsWriter * bool :=
  (set_w_matched (delete g (w_matched w)) w, bool_decide (is_Some (w_matched w !! g))).

Definition writer_unmatch_participant (participant : Guid) (w : RtpsWriter) : RtpsWriter * nat :=
  let doomed := filter (λ g, prefix g = prefix participant) (ascending_guids (w_matched w)) in
  (set_w_matched (foldl (λ m g, delete g m) (w_matched w) doomed) w, length doomed).

(** ** The history *)

Definition write_change (payload : list N) (source_timestamp : option Time) (kind : ChangeKind)
    (instance : InstanceHandle) (now : N) (w : RtpsWriter) : RtpsWriter * BehaviorResult SequenceNumber :=
  if N.ltb MAX_REASSEMBLY_SAMPLE (olen payload) then (w, Err (SampleTooLarge (olen payload) MAX_REASSEMBLY_SAMPLE))
  else
    let n := sn_next (last_change w) in
    match cache_insert (mkChange n kind instance payload source_timestamp now) (w_cache w) with
    | Err e => (w, Err e)
    | Ok (h, _evicted) =>
        (mkWriter (w_config w) h n (heartbeat_count w) (w_matched w) (last_heartbeat_at w), Ok n)
    end.

Definition write (payload : list N) (source_timestamp : option Time) (now : N) (w : RtpsWriter) :=
  write_change payload source_timestamp Alive NIL now w.

(** The sixteen octets of a GUID. *)
Definition be_octets (len : nat) (x : N) : list N :=
  (λ i, N.land (N.shiftr x (8 * N.of_nat (len - 1 - i))) 255) <$> seq 0 len.
Definition guid_to_bytes (g : Guid) : list N := be_octets 12 (prefix g) ++ be_octets 4 (entity_id g).

(** The key after a [CDR_LE] encapsulation header. *)
Definition dispose (key : Guid) (now : N) (w : RtpsWriter) : RtpsWriter * BehaviorResult SequenceNumber :=
  write_change ([0; 1; 0; 0]%N ++ guid_to_bytes key) None NotAliveDisposed NIL now w.

Definition forget (n : SequenceNumber) (w : RtpsWriter) : RtpsWriter * bool :=
  let '(h, removed) := cache_remove n (w_cache w) in (set_cache h w, bool_decide (is_Some removed)).

Definition writer_expire (now : N) (w : RtpsWriter) : RtpsWriter * list SequenceNumber :=
  let '(h, removals) := expire now (w_cache w) in (set_cache h w, removal_number <$> removals).

(** The proxies [reclaim] waits for. *)
Definition counted (p : ReaderProxy) : bool := rp_reliable p && rp_active p.

(** [Iterator::min] *)
Fixpoint least (l : list SequenceNumber) : option SequenceNumber :=
  match l with
  | [] => None
  | n :: rest => match least rest with None => Some n | Some m => Some (Z.min n m) end
  end.

Definition acked_by_all (w : RtpsWriter) : option SequenceNumber :=
  least (rp_acked_through <$> filter (λ p, counted p = true) (snd <$> map_to_list (w_matched w))).

Definition is_acknowledged (w : RtpsWriter) : bool :=
  forallb (λ p, negb (counted p) || Z.leb (last_change w) (rp_acked_through p)) (snd <$> map_to_list (w_matched w)).

Definition reclaim (w : RtpsWriter) : RtpsWriter * nat :=
  if bool_decide (is_Some (retained (wc_history (w_config w)))) || wc_replays_history (w_config w) then (w, 0%nat)
  else
    match acked_by_all w with
    | None => (w, 0%nat)
    | Some watermark => let '(h, dropped) := drop_through watermark (w_cache w) in (set_cache h w, dropped)
    end.

(** ** What a reader answers *)

Definition on_acknack (reader : Guid) (a : AckNack) (w : RtpsWriter) : RtpsWriter * bool :=
  let first := first_available w in
  match w_matched w !! reader with
  | None => (w, false)
  | Some p =>
      let '(p, applied) := accept_acknack a p in
      let p := if applied then drop_requested_below first p else p in
      (set_w_matched (<[reader := p]> (w_matched w)) w, applied)
  end.

Definition on_nack_frag (reader : Guid) (nack : NackFrag) (w : RtpsWriter) : RtpsWriter * bool :=
  let held := cache_contains (nf_writer_sn nack) (w_cache w) in
  match w_matched w !! reader with
  | None => (w, false)
  | Some p =>
      if held then (set_w_matched (<[reader := request_resend (nf_writer_sn nack) p]> (w_matched w)) w, true)
      else (w, false)
  end.

(** ** Datagrams *)

Record Outbound := mkOutbound { ob_locators : list Locator; ob_message : Message }.

(** [Outbound::new(locators, message.encode()?)] *)
Definition encoded (locators : list Locator) (prefix : GuidPrefix) (l : list Submessage) : BehaviorResult Outbound :=
  match encode_check l with
  | Ok _ => Ok (mkOutbound locators (mkMessage prefix l))
  | Err e => Err (RtpsWire e)
  end.

(** A live sample needs no status. *)
Definition status_info_qos (k : ChangeKind) : option ParameterList :=
  if carries_data k then None else Some [(STATUS_INFO, status_info k)].

Definition data_for (writer_id : EntityId) (c : CacheChange) (reader_id : EntityId) : Data :=
  let payload :=
    if carries_data (cc_kind c) then PayloadData (cc_payload c)
    else match cc_payload c with [] => PayloadNone | _ => PayloadKey (cc_payload c) end in
  mkData reader_id writer_id (cc_sequence_number c)
    (if carries_data (cc_kind c) then None else status_info_qos (cc_kind c)) payload.

Definition new_builder (c : WriterConfig) (reader_prefix : GuidPrefix) : MessageBuilder :=
  builder_push (SmInfoDestination reader_prefix) (with_budget (effective_budget c)).

(** The finished submessages, when there are more than the preamble. *)
Definition flush (reader_prefix : GuidPrefix) (b : MessageBuilder) : MessageBuilder * option (list Submessage) :=
  if Nat.leb (length (mb_submessages b)) 1 then (b, None)
  else (builder_push (SmInfoDestination reader_prefix) (with_budget (remaining b + used b)), Some (mb_submessages b)).

(** What [datagrams_for] carries through its loop; the reader it serves. *)
Record Packing := mkPacking {
  pk_outbound : list Outbound;
  pk_builder : MessageBuilder;
  pk_last_timestamp : option Time;
}.

Record Target := mkTarget {
  tg_reader_id : EntityId;
  tg_reader_prefix : GuidPrefix;
  tg_locators : list Locator;
}.

Section Packing.

Context (c : WriterConfig) (t : Target).

(** [if let Some(message) = flush { outbound.push(encode?) }] and the new
    timestamp memory when a message was taken. *)
Definition flush_out (pk : Packing) : BehaviorResult Packing :=
  let '(b, finished) := flush (tg_reader_prefix t) (pk_builder pk) in
  match finished with
  | None => Ok (mkPacking (pk_outbound pk) b (pk_last_timestamp pk))
  | Some l => let? o := encoded (tg_locators t) (prefix (wc_guid c)) l in
              Ok (mkPacking (pk_outbound pk ++ [o]) b (pk_last_timestamp pk))
  end.

Definition with_timestamp (ts : option Time) (pk : Packing) : Packing :=
  mkPacking (pk_outbound pk) (pk_builder pk) ts.
Definition with_builder (b : MessageBuilder) (pk : Packing) : Packing :=
  mkPacking (pk_outbound pk) b (pk_last_timestamp pk).

(** One datagram per [DATA_FRAG]. *)
Fixpoint frag_messages (timestamp : option Time) (fs : list DataFrag) : BehaviorResult (list Outbound) :=
  match fs with
  | [] => Ok []
  | f :: rest =>
      let? o := encoded (tg_locators t) (prefix (wc_guid c))
                  (SmInfoDestination (tg_reader_prefix t) ::
                   match timestamp with Some ts => [SmInfoTimestamp (Some ts)] | None => [] end ++ [SmDataFrag f]) in
      let? os := frag_messages timestamp rest in
      Ok (o :: os)
  end.

Definition fragment_datagrams (change : CacheChange) : BehaviorResult (list Outbound) :=
  let? fs := fragment_sample (tg_reader_id t) (entity_id (wc_guid c)) (cc_sequence_number change) (cc_payload change)
               (effective_fragment_size c) (effective_budget c) in
  frag_messages (cc_source_timestamp change) fs.

(** The [INFO_TS] before a sample whose timestamp differs from the last. *)
Definition push_timestamp (change : CacheChange) (pk : Packing) : BehaviorResult Packing :=
  match cc_source_timestamp change with
  | Some ts =>
      if bool_decide (pk_last_timestamp pk = Some ts) then Ok pk
      else
        let '(b, taken) := try_push (SmInfoTimestamp (Some ts)) (pk_builder pk) in
        let? pk :=
          if taken then Ok (with_builder b pk)
          else let? pk := flush_out pk in
               Ok (with_builder (builder_push (SmInfoTimestamp (Some ts)) (pk_builder pk)) pk) in
        Ok (with_timestamp (Some ts) pk)
  | None => Ok pk
  end.

(** The [DATA] itself, in a new datagram when it does not fit. *)
Definition push_data (change : CacheChange) (pk : Packing) : BehaviorResult Packing :=
  let data := SmData (data_for (entity_id (wc_guid c)) change (tg_reader_id t)) in
  let '(b, taken) := try_push data (pk_builder pk) in
  if taken then Ok (with_builder b pk)
  else
    let? pk := flush_out pk in
    let pk := with_timestamp None pk in
    let pk :=
      match cc_source_timestamp change with
      | Some ts => with_timestamp (Some ts)
                     (with_builder (builder_push (SmInfoTimestamp (Some ts)) (pk_builder pk)) pk)
      | None => pk
      end in
    Ok (with_builder (builder_push data (pk_builder pk)) pk).

Definition must_end_the_datagram (change : CacheChange) : bool :=
  negb (N.eqb (data_body_len (data_for (entity_id (wc_guid c)) change (tg_reader_id t)) mod 4) 0).

(** One turn of the loop of [datagrams_for]. *)
Definition pack_one (change : CacheChange) (pk : Packing) : BehaviorResult Packing :=
  if N.ltb (effective_threshold c) (olen (cc_payload change)) then
    let? pk := flush_out pk in
    let? os := fragment_datagrams change in
    Ok (mkPacking (pk_outbound pk ++ os) (pk_builder pk) None)
  else
    let? pk := push_timestamp change pk in
    let? pk := push_data change pk in
    if must_end_the_datagram change && Nat.ltb 1 (length (mb_submessages (pk_builder pk)))
    then let? pk := flush_out pk in Ok (with_timestamp None pk)
    else Ok pk.

Fixpoint pack_all (h : HistoryCache) (numbers : list SequenceNumber) (pk : Packing) : BehaviorResult Packing :=
  match numbers with
  | [] => Ok pk
  | n :: rest =>
      match cache_get n h with
      | None => pack_all h rest pk
      | Some change => let? pk := pack_one change pk in pack_all h rest pk
      end
  end.

Definition datagrams_for (h : HistoryCache) (numbers : list SequenceNumber) : BehaviorResult (list Outbound) :=
  let? pk := pack_all h numbers (mkPacking [] (new_builder c (tg_reader_prefix t)) None) in
  let? pk := flush_out pk in
  Ok (pk_outbound pk).

(** The numbers after the first that fit the bitmap. *)
Fixpoint gap_bits (base : SequenceNumber) (numbers : list SequenceNumber) (s : SequenceNumberSet) :
    BehaviorResult SequenceNumberSet :=
  match numbers with
  | [] => Ok s
  | n :: rest =>
      if Z.leb (Z.of_N MAX_SET_BITS) (Z.max i64_min (Z.min (n - base) i64_max)) then Ok s
      else
        match set_insert n s with
        | Ok s => gap_bits base rest s
        | Err e => Err (RtpsWire e)
        end
  end.

Definition gap_for (numbers : list SequenceNumber) : BehaviorResult Outbound :=
  let start := match numbers with n :: _ => n | [] => SN_FIRST end in
  let base := sn_next start in
  let? gap_list := gap_bits base (tl numbers) (set_new base) in
  let gap := mkGap (tg_reader_id t) (entity_id (wc_guid c)) start gap_list in
  match gap_validate gap with
  | Err e => Err (RtpsWire e)
  | Ok _ => encoded (tg_locators t) (prefix (wc_guid c)) [SmInfoDestination (tg_reader_prefix t); SmGap gap]
  end.

End Packing.

(** ** [produce] *)

(** [while number <= last_change && wanted.len() < MAX]: a bounded loop. *)
Fixpoint extend_wanted (fuel : nat) (number last : SequenceNumber) (wanted : list SequenceNumber) : list SequenceNumber :=
  match fuel with
  | O => wanted
  | S fuel =>
      if Z.leb number last && Nat.ltb (length wanted) MAX_SAMPLES_PER_PRODUCE
      then extend_wanted fuel (sn_next number) last (wanted ++ [number])
      else wanted
  end.

(** Sorted without duplicates. *)
Definition sort_dedup (l : list SequenceNumber) : list SequenceNumber := ascending_sn (list_to_set l).

(** The numbers a reader is sent or told about in this call. *)
Definition wanted_for (p : ReaderProxy) (last : SequenceNumber) : list SequenceNumber :=
  let floor := Z.max (rp_highest_sent p) (rp_acked_through p) in
  let asked := filter (λ n, rp_acked_through p < n) (ascending_sn (rp_requested p)) in
  take MAX_SAMPLES_PER_PRODUCE (sort_dedup (extend_wanted (S MAX_SAMPLES_PER_PRODUCE) (sn_next floor) last asked)).

Definition produce_for (reader : Guid) (now : N) (w : RtpsWriter) : RtpsWriter * BehaviorResult (list Outbound) :=
  match w_matched w !! reader with
  | None => (w, Ok [])
  | Some p =>
      if negb (rp_active p) then (w, Ok [])
      else
        let locators := rp_locators p in
        match locators with
        | [] => (w, Ok [])
        | _ =>
            let t := mkTarget (entity_id (rp_guid p)) (prefix (rp_guid p)) locators in
            let reliable := rp_reliable p in
            let wanted := wanted_for p (last_change w) in
            let sendable := filter (λ n, cache_contains n (w_cache w) = true) wanted in
            let missing := filter (λ n, cache_contains n (w_cache w) = false ∧ n <= last_change w) wanted in
            let result :=
              let? outbound := datagrams_for (w_config w) t (w_cache w) sendable in
              if reliable && negb (bool_decide (missing = []))
              then let? o := gap_for (w_config w) t missing in Ok (outbound ++ [o])
              else Ok outbound in
            match result with
            | Err e => (w, Err e)
            | Ok outbound =>
                let p := foldl (λ p n, record_sent n p) p sendable in
                let p := foldl (λ p n, forget_requested n p) p missing in
                let p := if reliable then p else assume_acked_through (rp_highest_sent p) p in
                (set_w_matched (<[reader := p]> (w_matched w)) w, Ok outbound)
            end
        end
  end.

Definition should_heartbeat (now : N) (w : RtpsWriter) : bool :=
  if negb (writer_is_reliable w) || bool_decide (w_matched w = ∅) then false
  else match last_heartbeat_at w with
       | None => true
       | Some last => N.leb (heartbeat_period (w_config w)) (now - last)
       end.

(** The heartbeat for one proxy, when it is sent one. *)
Definition heartbeat_for (liveliness : bool) (w : RtpsWriter) (p : ReaderProxy) : option (BehaviorResult Outbound) :=
  if negb (rp_reliable p) || negb (rp_active p) then None
  else
    match rp_locators p with
    | [] => None
    | locators =>
        let is_final := liveliness || Z.leb (last_change w) (rp_acked_through p) in
        let h := mkHeartbeat (entity_id (rp_guid p)) (entity_id (wc_guid (w_config w))) (first_available w)
                   (last_change w) (heartbeat_count w) is_final liveliness in
        Some (encoded locators (prefix (wc_guid (w_config w))) [SmInfoDestination (prefix (rp_guid p)); SmHeartbeat h])
    end.

Fixpoint collect_heartbeats (liveliness : bool) (w : RtpsWriter) (readers : list Guid) : BehaviorResult (list Outbound) :=
  match readers with
  | [] => Ok []
  | g :: rest =>
      match w_matched w !! g with
      | None => collect_heartbeats liveliness w rest
      | Some p =>
          match heartbeat_for liveliness w p with
          | None => collect_heartbeats liveliness w rest
          | Some r => let? o := r in let? os := collect_heartbeats liveliness w rest in Ok (o :: os)
          end
      end
  end.

Definition produce_heartbeat (now : N) (liveliness : bool) (w : RtpsWriter) : RtpsWriter * BehaviorResult (list Outbound) :=
  if negb (writer_is_reliable w) then (w, Ok [])
  else
    let w := mkWriter (w_config w) (w_cache w) (last_change w) (count_next (heartbeat_count w)) (w_matched w) (Some now) in
    (w, collect_heartbeats liveliness w (ascending_guids (w_matched w))).

Definition force_heartbeat (now : N) (w : RtpsWriter) := produce_heartbeat now false w.
Definition assert_liveliness (now : N) (w : RtpsWriter) := produce_heartbeat now true w.

(** The loop over the readers; an error ends it, what was done stays done. *)
Fixpoint produce_readers (readers : list Guid) (now : N) (w : RtpsWriter) : RtpsWriter * BehaviorResult (list Outbound) :=
  match readers with
  | [] => (w, Ok [])
  | g :: rest =>
      let '(w, r) := produce_for g now w in
      match r with
      | Err e => (w, Err e)
      | Ok os =>
          let '(w, r) := produce_readers rest now w in
          (w, match r with Ok more => Ok (os ++ more) | Err e => Err e end)
      end
  end.

Definition produce (now : N) (w : RtpsWriter) : RtpsWriter * BehaviorResult (list Outbound) :=
  let '(w, r) := produce_readers (ascending_guids (w_matched w)) now w in
  match r with
  | Err e => (w, Err e)
  | Ok outbound =>
      if should_heartbeat now w then
        let '(w, r) := produce_heartbeat now false w in
        (w, match r with Ok more => Ok (outbound ++ more) | Err e => Err e end)
      else (w, Ok outbound)
  end.

Definition announce (n : SequenceNumber) (reader_id : EntityId) (targets : list Locator) (w : RtpsWriter) :
    BehaviorResult (option Outbound) :=
  match cache_get n (w_cache w) with
  | None => Ok None
  | Some change =>
      match targets with
      | [] => Ok None
      | _ =>
          let guid := wc_guid (w_config w) in
          let? o := encoded targets (prefix guid)
                      (match cc_source_timestamp change with Some ts => [SmInfoTimestamp (Some ts)] | None => [] end ++
                       [SmData (data_for (entity_id guid) change reader_id)]) in
          Ok (Some o)
      end
  end.

Definition fragment_plan (len : N) (w : RtpsWriter) : BehaviorResult (option FragmentPlan) :=
  if N.leb len (effective_threshold (w_config w)) then Ok None
  else let? p := plan_new len (wc_fragment_size (w_config w)) in Ok (Some p).

(** ** What a writer says

    Everything [produce] puts on the wire is true of the history when it is
    said: samples and fragments are of held changes, a [GAP] names only
    numbers that are gone, a [HEARTBEAT] the range that is held. *)

(** Each change is held at its own number, up to the last one. *)
Definition cache_keyed (w : RtpsWriter) : Prop :=
  ∀ n ch, changes (w_cache w) !! n = Some ch → cc_sequence_number ch = n ∧ 0 < n <= last_change w.

Definition fragments_of (c : WriterConfig) (reader_id : EntityId) (ch : CacheChange) : BehaviorResult (list DataFrag) :=
  fragment_sample reader_id (entity_id (wc_guid c)) (cc_sequence_number ch) (cc_payload ch)
    (effective_fragment_size c) (effective_budget c).

Definition says (w : RtpsWriter) (m : Submessage) : Prop :=
  match m with
  | SmInfoTimestamp _ | SmInfoDestination _ => True
  | SmData d =>
      ∃ ch reader_id, changes (w_cache w) !! cc_sequence_number ch = Some ch ∧
        d = data_for (entity_id (wc_guid (w_config w))) ch reader_id
  | SmDataFrag f =>
      ∃ ch reader_id fs, changes (w_cache w) !! cc_sequence_number ch = Some ch ∧
        (effective_threshold (w_config w) < olen (cc_payload ch))%N ∧
        fragments_of (w_config w) reader_id ch = Ok fs ∧ f ∈ fs
  | SmGap g =>
      gp_writer_id g = entity_id (wc_guid (w_config w)) ∧
      ∀ n, n ∈ irrelevant g → changes (w_cache w) !! n = None ∧ n <= last_change w
  | SmHeartbeat h =>
      hb_writer_id h = entity_id (wc_guid (w_config w)) ∧
      hb_first_sn h = first_available w ∧ hb_last_sn h = last_change w
  | _ => False
  end.

Definition all_says (w : RtpsWriter) (l : list Submessage) : Prop := Forall (says w) l.

Definition outbound_says (w : RtpsWriter) (o : Outbound) : Prop :=
  guid_prefix (ob_message o) = prefix (wc_guid (w_config w)) ∧ all_says w (submessages (ob_message o)).

Lemma encoded_says w locators l o :
  encoded locators (prefix (wc_guid (w_config w))) l = Ok o → all_says w l → outbound_says w o.
Proof. unfold encoded. destruct (encode_check l); [|done]. by intros [= <-] Hl. Qed.

(** *** The packing loop *)

Section Says.

Context (w : RtpsWriter) (t : Target).

Definition packing_says (pk : Packing) : Prop :=
  Forall (outbound_says w) (pk_outbound pk) ∧ all_says w (mb_submessages (pk_builder pk)).

Lemma builder_push_says m b : says w m → all_says w (mb_submessages b) → all_says w (mb_submessages (builder_push m b)).
Proof. intros Hm Hb. unfold all_says. cbn. apply Forall_app. split; [done|]. by constructor. Qed.

Lemma try_push_says m b b' taken :
  try_push m b = (b', taken) → says w m → all_says w (mb_submessages b) → all_says w (mb_submessages b').
Proof.
  unfold try_push. destruct (fits m b); intros [= <- <-] Hm Hb; [by apply builder_push_says|done].
Qed.

Lemma flush_out_says pk pk' :
  flush_out (w_config w) t pk = Ok pk' → packing_says pk → packing_says pk'.
Proof.
  unfold flush_out, flush. intros H [Ho Hb]. destruct (Nat.leb _ _).
  - injection H as <-. done.
  - destruct (encoded _ _ _) as [o|e] eqn:E; [|done]. injection H as <-. split; cbn.
    + apply Forall_app. split; [done|]. constructor; [|done]. by eapply encoded_says.
    + by constructor.
Qed.

Lemma frag_messages_says ts fs os :
  frag_messages (w_config w) t ts fs = Ok os → (∀ f, f ∈ fs → says w (SmDataFrag f)) → Forall (outbound_says w) os.
Proof.
  revert os. induction fs as [|f fs IH]; intros os; cbn [frag_messages]; [by intros [= <-]|].
  destruct (encoded _ _ _) as [o|e] eqn:E; [|done]. cbn [rbind].
  destruct (frag_messages (w_config w) t ts fs) as [rest|e] eqn:E2; [|done]. intros [= <-] Hf. constructor.
  - eapply encoded_says; [done|]. constructor; [done|]. apply Forall_app. split.
    + destruct ts; by repeat constructor.
    + constructor; [|done]. apply Hf. left.
  - apply (IH rest); [done|]. intros g Hg. apply Hf. by right.
Qed.

Context (change : CacheChange).
Hypothesis Hheld : changes (w_cache w) !! cc_sequence_number change = Some change.

Lemma push_timestamp_says pk pk' :
  push_timestamp (w_config w) t change pk = Ok pk' → packing_says pk → packing_says pk'.
Proof.
  unfold push_timestamp. destruct (cc_source_timestamp change) as [ts|]; [|by intros [= <-]].
  case_bool_decide as Hts; [by intros [= <-]|]. destruct (try_push _ _) as [b taken] eqn:E. intros H Hpk.
  destruct taken.
  - injection H as <-. destruct Hpk as [Ho Hb]. split; [done|]. cbn. by eapply try_push_says.
  - destruct (flush_out _ _ pk) as [pk1|e] eqn:E1; [|done]. injection H as <-.
    destruct (flush_out_says _ _ E1 Hpk) as [Ho Hb]. split; [done|]. cbn -[builder_push]. by apply builder_push_says.
Qed.

Lemma data_for_says : says w (SmData (data_for (entity_id (wc_guid (w_config w))) change (tg_reader_id t))).
Proof. exists change, (tg_reader_id t). done. Qed.

Lemma push_data_says pk pk' :
  push_data (w_config w) t change pk = Ok pk' → packing_says pk → packing_says pk'.
Proof.
  unfold push_data. destruct (try_push _ _) as [b taken] eqn:E. intros H Hpk. destruct taken.
  - injection H as <-. destruct Hpk as [Ho Hb]. split; [done|]. cbn. eapply try_push_says; [done|apply data_for_says|done].
  - destruct (flush_out _ _ pk) as [pk1|e] eqn:E1; [|done]. injection H as <-.
    destruct (flush_out_says _ _ E1 Hpk) as [Ho Hb]. destruct (cc_source_timestamp change) as [ts|].
    + split; [done|]. cbn -[builder_push]. apply builder_push_says; [apply data_for_says|]. by apply builder_push_says.
    + split; [done|]. cbn -[builder_push]. by apply builder_push_says; [apply data_for_says|].
Qed.

Lemma pack_one_says pk pk' :
  pack_one (w_config w) t change pk = Ok pk' → packing_says pk → packing_says pk'.
Proof.
  unfold pack_one. intros H Hpk. destruct (N.ltb_spec (effective_threshold (w_config w)) (olen (cc_payload change))).
  - destruct (flush_out _ _ pk) as [pk1|e] eqn:E1; [|done]. cbn [rbind] in H.
    destruct (fragment_datagrams _ _ change) as [os|e] eqn:E2; [|done]. injection H as <-.
    destruct (flush_out_says _ _ E1 Hpk) as [Ho Hb]. split; [|done]. cbn. apply Forall_app. split; [done|].
    unfold fragment_datagrams in E2. destruct (fragment_sample _ _ _ _ _ _) as [fs|e] eqn:E3; [|done]. cbn [rbind] in E2.
    eapply frag_messages_says; [done|]. intros f Hf. by exists change, (tg_reader_id t), fs.
  - destruct (push_timestamp _ _ change pk) as [pk1|e] eqn:E1; [|done]. cbn [rbind] in H.
    destruct (push_data _ _ change pk1) as [pk2|e] eqn:E2; [|done]. cbn [rbind] in H.
    pose proof (push_data_says _ _ E2 (push_timestamp_says _ _ E1 Hpk)) as Hpk2. destruct (_ && _).
    + destruct (flush_out _ _ pk2) as [pk3|e] eqn:E3; [|done]. injection H as <-.
      destruct (flush_out_says _ _ E3 Hpk2) as [Ho Hb]. done.
    + by injection H as <-.
Qed.

End Says.

Lemma pack_all_says w t numbers pk pk' :
  cache_keyed w → pack_all (w_config w) t (w_cache w) numbers pk = Ok pk' → packing_says w pk → packing_says w pk'.
Proof.
  intros Hk. revert pk. induction numbers as [|n ns IH]; intros pk H Hpk; cbn [pack_all] in H; [by injection H as <-|].
  unfold cache_get in H. destruct (changes (w_cache w) !! n) as [ch|] eqn:E; [|by eapply IH].
  destruct (pack_one _ _ ch pk) as [pk1|e] eqn:E1; [|done]. cbn [rbind] in H.
  eapply IH; [done|]. eapply pack_one_says; [|done|done]. by rewrite (proj1 (Hk _ _ E)).
Qed.

Lemma datagrams_for_says w t numbers os :
  cache_keyed w → datagrams_for (w_config w) t (w_cache w) numbers = Ok os → Forall (outbound_says w) os.
Proof.
  intros Hk H. unfold datagrams_for in H. destruct (pack_all _ _ _ _ _) as [pk|e] eqn:E; [|done]. cbn [rbind] in H.
  destruct (flush_out _ _ pk) as [pk1|e] eqn:E1; [|done]. injection H as <-.
  eapply flush_out_says; [done|]. eapply pack_all_says; [done|done|]. split; [done|]. cbn. by constructor.
Qed.

(** *** What a [GAP] names *)

Lemma gap_bits_ok base numbers s s' (P : SequenceNumber → Prop) :
  gap_bits base numbers s = Ok s' → set_ok s → set_base s = base →
  (∀ m, set_contains s m = true → P m) → (∀ m, m ∈ numbers → P m) →
  set_ok s' ∧ set_base s' = base ∧ (∀ m, set_contains s' m = true → P m) ∧
  (∀ m, set_contains s m = true → set_contains s' m = true).
Proof.
  revert s. induction numbers as [|n ns IH]; intros s H Hok Hbase Hs Hns; cbn [gap_bits] in H.
  { injection H as <-. done. }
  destruct (Z.leb _ _); [by injection H as <-|].
  pose proof (set_insert_spec n s Hok) as Hins. destruct (set_insert n s) as [s1|e]; [|done].
  destruct Hins as (Hok1 & Hb1 & _ & Hc1). destruct (IH s1 H) as (? & ? & ? & Hkeep); [done|congruence| |by intros; apply Hns; right|].
  - intros m. rewrite Hc1, orb_true_iff, bool_decide_eq_true. intros [->|?]; [apply Hns; left|auto].
  - split_and!; [done..|]. intros m Hm. apply Hkeep. rewrite Hc1, Hm. apply orb_true_r.
Qed.

Lemma gap_bits_complete base numbers s s' m :
  gap_bits base numbers s = Ok s' → set_ok s → set_base s = base → Sorted Z.lt numbers →
  m ∈ numbers → m < base + 256 → i64_min <= m - base → set_contains s' m = true.
Proof.
  revert s. induction numbers as [|n ns IH]; intros s H Hok Hbase Hsort Hm Hlt Hmin; [by apply not_elem_of_nil in Hm|].
  cbn [gap_bits] in H. apply Sorted_StronglySorted in Hsort; [|intros x y z; lia].
  inversion Hsort as [|? ? Hsort' Hall]; subst. rewrite Forall_forall in Hall.
  assert (n <= m) as Hnm by (apply elem_of_cons in Hm as [->|Hin]; [lia|specialize (Hall m Hin); lia]).
  destruct (Z.leb_spec (Z.of_N MAX_SET_BITS) (Z.max i64_min (Z.min (n - set_base s) i64_max))) as [Hle|_].
  { unfold MAX_SET_BITS, i64_min, i64_max in *. lia. }
  pose proof (set_insert_spec n s Hok) as Hins. destruct (set_insert n s) as [s1|e]; [|done].
  destruct Hins as (Hok1 & Hb1 & _ & Hc1). apply elem_of_cons in Hm as [->|Hin].
  - destruct (gap_bits_ok _ ns s1 s' (λ _, True) H) as (_ & _ & _ & Hkeep); [done..|]. apply Hkeep.
    rewrite Hc1. by rewrite bool_decide_true.
  - apply (IH s1); [congruence|done|done|by apply StronglySorted_Sorted|done|lia|lia].
Qed.

(** The [GAP] built for an ascending list names its first number and those
    that the bitmap reaches, and no other number. *)
Lemma gap_for_spec c t start numbers o :
  gap_for c t (start :: numbers) = Ok o → Sorted Z.lt (start :: numbers) →
  (∀ n, n ∈ start :: numbers → 0 < n < i64_max) →
  ∃ g, submessages (ob_message o) = [SmInfoDestination (tg_reader_prefix t); SmGap g] ∧
    guid_prefix (ob_message o) = prefix (wc_guid c) ∧ ob_locators o = tg_locators t ∧
    gp_writer_id g = entity_id (wc_guid c) ∧ gp_reader_id g = tg_reader_id t ∧
    ∀ n, n ∈ irrelevant g ↔ n ∈ start :: numbers ∧ n < start + 257.
Proof.
  unfold gap_for. cbn [tl]. intros H Hsort Hpos.
  pose proof (Hpos start ltac:(left)) as Hstart. rewrite sn_next_eq in H by lia.
  destruct (gap_bits _ _ _) as [gl|e] eqn:E; [|done]. cbn [rbind] in H.
  destruct (gap_validate _) as [[]|e]; [|done]. unfold encoded in H.
  destruct (encode_check _); [|done]. injection H as <-. eexists. split_and!; try done.
  assert (∀ m, set_contains (set_new (start + 1)) m = true → m ∈ numbers) as Hnew
    by (intros m; by rewrite set_contains_new).
  destruct (gap_bits_ok _ _ _ _ (λ m, m ∈ numbers) E (set_new_ok _) eq_refl Hnew ltac:(done)) as (Hok & Hb & Hin & _).
  assert (set_fits gl) as Hfits by (intros m Hm%Hin; destruct (Hpos m ltac:(by right)); lia).
  assert (∀ m, set_contains gl m = true → m < start + 257) as Hwin.
  { intros m. unfold set_contains, offset_from. rewrite Hb. destruct Hok as (_ & Hnb & _).
    destruct (Z.ltb_spec (m - (start + 1)) 0); [done|]. destruct (Z.ltb_spec (Z.of_N u64_max) (m - (start + 1))); [done|].
    destruct (N.leb_spec (num_bits gl) (Z.to_N (m - (start + 1)))); [done|]. unfold MAX_SET_BITS in *. lia. }
  intros n. unfold irrelevant. cbn [gp_start gp_list]. rewrite Hb, elem_of_app, elem_of_seqZ.
  rewrite elem_of_set_iter; [|done|rewrite Hb; unfold i64_min; lia|done]. rewrite elem_of_cons. split.
  - intros [Hr|Hc]; [split; [left; lia|lia]|]. split; [right; auto|auto].
  - intros [[->|Hn] Hlt]; [left; lia|]. right.
    apply (gap_bits_complete (start + 1) numbers (set_new (start + 1))); [done|apply set_new_ok|done| |done|lia|].
    + by apply Sorted_inv in Hsort as [? _].
    + pose proof (Hpos n ltac:(by right)). unfold i64_min, i64_max in *. lia.
Qed.

(** *** [produce] *)

Lemma Sorted_take {A} (R : relation A) n l : Sorted R l → Sorted R (take n l).
Proof.
  intros Hl. revert n. induction Hl as [|x l Hs IH Hd]; intros [|n]; cbn; auto. constructor; [auto|].
  destruct Hd as [|y l Hxy]; destruct n; cbn; auto.
Qed.

(** Strictly ascending. *)
Lemma ascending_sn_lt s : StronglySorted Z.lt (ascending_sn s).
Proof.
  pose proof (sorted_ascending_sn s) as Hs. pose proof (NoDup_ascending_sn s) as Hn.
  induction Hs as [|x l Hs IH Hall]; [constructor|]. apply NoDup_cons in Hn as [Hx Hn]. constructor; [auto|].
  rewrite Forall_forall in Hall |- *. intros y Hy. specialize (Hall y Hy). assert (x ≠ y) by (intros ->; done). lia.
Qed.

Lemma StronglySorted_sublist {A} (R : relation A) l k : l `sublist_of` k → StronglySorted R k → StronglySorted R l.
Proof.
  induction 1 as [|x l k Hsub IH|x l k Hsub IH]; intros Hk; [constructor| |].
  - inversion Hk as [|? ? Hk' Hall]; subst. constructor; [auto|]. rewrite Forall_forall in Hall |- *.
    intros y Hy. apply Hall. by eapply elem_of_sublist.
  - inversion Hk; auto.
Qed.

Lemma wanted_for_sorted p last : StronglySorted Z.lt (wanted_for p last).
Proof. eapply StronglySorted_sublist; [apply sublist_take|apply ascending_sn_lt]. Qed.

(** Every number sent or declared gone is above the watermark. *)
Lemma extend_wanted_above fuel number last wanted acked :
  Forall (λ n, acked < n) wanted → acked < number → number <= i64_max →
  Forall (λ n, acked < n) (extend_wanted fuel number last wanted).
Proof.
  revert number wanted. induction fuel as [|fuel IH]; intros number wanted Hw Hn Hmax; cbn [extend_wanted]; [done|].
  destruct (_ && _); [|done]. apply IH; [|unfold sn_next; lia|unfold sn_next; lia]. apply Forall_app. split; [done|].
  by constructor.
Qed.

Lemma wanted_for_above p last n :
  rp_acked_through p < i64_max → rp_highest_sent p < i64_max → n ∈ wanted_for p last → rp_acked_through p < n.
Proof.
  intros Ha Hh Hn. unfold wanted_for in Hn. eapply elem_of_sublist in Hn; [|apply sublist_take].
  unfold sort_dedup in Hn. apply elem_of_ascending_sn, elem_of_list_to_set in Hn. revert n Hn. apply Forall_forall.
  apply extend_wanted_above.
  - apply Forall_forall. intros n Hn. by apply list_elem_of_filter in Hn as [? _].
  - unfold sn_next. lia.
  - unfold sn_next. lia.
Qed.

(** *** The invariant *)

Definition writer_ok (w : RtpsWriter) : Prop :=
  cache_keyed w ∧ 0 <= last_change w < i64_max ∧
  ∀ g p, w_matched w !! g = Some p → rp_guid p = g ∧ proxy_ok p.

(** What an active reliable reader has acknowledged, as the writer knows it. *)
Definition acked_of (w : RtpsWriter) (g : Guid) : option SequenceNumber :=
  p ← w_matched w !! g; if counted p then Some (rp_acked_through p) else None.

(** The parts [produce] leaves alone. *)
Definition same_history (w w' : RtpsWriter) : Prop :=
  w_config w' = w_config w ∧ w_cache w' = w_cache w ∧ last_change w' = last_change w ∧
  ∀ g, acked_of w' g = acked_of w g.

#[global] Instance same_history_preorder : PreOrder same_history.
Proof.
  split; [by intros w|]. intros w1 w2 w3 (A1 & A2 & A3 & A4) (B1 & B2 & B3 & B4).
  split_and!; [congruence..|]. intros g. by rewrite B4.
Qed.

Lemma says_same w w' m : same_history w w' → says w m → says w' m.
Proof.
  intros (Ec & Eh & El & _). destruct m; cbn; unfold first_available; rewrite ?Ec, ?Eh, ?El; done.
Qed.

Lemma outbound_says_same w w' o : same_history w w' → outbound_says w o → outbound_says w' o.
Proof.
  intros Hs [Hp Hall]. split; [by destruct Hs as [-> _]|]. eapply Forall_impl; [done|]. intros m. by apply says_same.
Qed.

Definition same_reader (p p' : ReaderProxy) : Prop :=
  rp_guid p' = rp_guid p ∧ rp_reliable p' = rp_reliable p ∧ rp_active p' = rp_active p.

#[global] Instance same_reader_preorder : PreOrder same_reader.
Proof. split; [by intros p|]. intros p q r (? & ? & ?) (? & ? & ?). split_and!; congruence. Qed.

Lemma same_reader_counted p p' : same_reader p p' → counted p' = counted p.
Proof. intros (_ & H1 & H2). unfold counted. by rewrite H1, H2. Qed.

Lemma skip_history_same n p :
  same_reader p (skip_history_through n p) ∧ rp_acked_through (skip_history_through n p) = Z.max (rp_acked_through p) n.
Proof.
  unfold skip_history_through, assume_acked_through.
  destruct (Z.ltb_spec (rp_highest_sent p) n); cbn; destruct (Z.ltb_spec (rp_acked_through p) n); cbn; (split; [done|lia]).
Qed.

Lemma foldl_record_sent numbers p :
  proxy_ok p → (∀ n, n ∈ numbers → n < i64_max) →
  let p' := foldl (λ p n, record_sent n p) p numbers in
  proxy_ok p' ∧ same_reader p p' ∧ rp_acked_through p' = rp_acked_through p.
Proof.
  revert p. induction numbers as [|n ns IH]; intros p Hp Hns; cbn [foldl]; [done|].
  destruct (IH (record_sent n p)) as (H1 & H2 & H3); [apply record_sent_ok; [done|apply Hns; left]|by intros; apply Hns; right|].
  split; [done|]. rewrite H3. split; [etrans; [|done]|]; unfold record_sent; by destruct (Z.ltb _ _).
Qed.

Lemma foldl_forget numbers p :
  proxy_ok p →
  let p' := foldl (λ p n, forget_requested n p) p numbers in
  proxy_ok p' ∧ same_reader p p' ∧ rp_acked_through p' = rp_acked_through p ∧ rp_highest_sent p' = rp_highest_sent p.
Proof.
  revert p. induction numbers as [|n ns IH]; intros p Hp; cbn [foldl]; [done|].
  destruct (IH (forget_requested n p)) as (H1 & H2 & H3 & H4); [apply proxy_ok_shrink; [done|set_solver]|].
  split; [done|]. rewrite H3, H4. split; [by etrans; [|done]|done].
Qed.

(** The proxy after a call. *)
Lemma replace_proxy w g p p' :
  writer_ok w → w_matched w !! g = Some p → proxy_ok p' → same_reader p p' →
  (rp_reliable p = true → rp_acked_through p' = rp_acked_through p) →
  writer_ok (set_w_matched (<[g := p']> (w_matched w)) w) ∧ same_history w (set_w_matched (<[g := p']> (w_matched w)) w).
Proof.
  intros (Hk & Hl & Hm) Eg Hp' Hsr Ea. split.
  - split_and!; [done|cbn; lia|cbn; lia|]. cbn. intros h q. destruct (decide (h = g)) as [->|Hne].
    + rewrite lookup_insert_eq. intros [= <-]. split; [|done]. destruct Hsr as [-> _]. by apply Hm.
    + rewrite lookup_insert_ne by done. apply Hm.
  - split_and!; [done..|]. intros h. unfold acked_of. cbn. destruct (decide (h = g)) as [->|Hne].
    + rewrite lookup_insert_eq, Eg. cbn. rewrite (same_reader_counted _ _ Hsr). unfold counted in *.
      destruct (rp_reliable p); [by rewrite Ea|done].
    + by rewrite lookup_insert_ne.
Qed.

Lemma gap_for_says w t p missing o :
  writer_ok w → proxy_ok p → missing = filter (λ n, cache_contains n (w_cache w) = false ∧ n <= last_change w) (wanted_for p (last_change w)) →
  missing ≠ [] → gap_for (w_config w) t missing = Ok o → outbound_says w o.
Proof.
  intros (Hk & Hl & _) Hp Em Hne Ho. destruct missing as [|start rest]; [done|].
  assert (∀ n, n ∈ start :: rest → changes (w_cache w) !! n = None ∧ rp_acked_through p < n <= last_change w) as Hin.
  { intros n. rewrite Em. intros [[Hc Hn] Hw]%list_elem_of_filter. destruct Hp as (? & ? & _).
    split_and!; [|apply wanted_for_above in Hw; lia|done]. unfold cache_contains in Hc.
    apply bool_decide_eq_false in Hc. by apply eq_None_not_Some. }
  destruct (gap_for_spec _ _ _ _ _ Ho) as (g & Es & Ep & _ & Ew & _ & Hg).
  - apply StronglySorted_Sorted. rewrite Em. eapply StronglySorted_sublist; [apply sublist_filter|apply wanted_for_sorted].
  - intros n Hn. destruct (Hin n Hn) as [_ ?]. destruct Hp as (? & _). lia.
  - split; [done|]. rewrite Es. apply Forall_cons. split; [done|]. apply Forall_singleton. split; [done|].
    intros n [Hn _]%Hg. destruct (Hin n Hn) as [? ?]. split; [done|lia].
Qed.

Lemma produce_for_spec reader now w w' r :
  produce_for reader now w = (w', r) → writer_ok w →
  writer_ok w' ∧ same_history w w' ∧ ∀ os, r = Ok os → Forall (outbound_says w) os.
Proof.
  unfold produce_for. intros H Hok. destruct (w_matched w !! reader) as [p|] eqn:Ep.
  2: { injection H as <- <-. split_and!; [apply Hok..|done|by intros os [= <-]]. }
  destruct (negb _). { injection H as <- <-. split_and!; [apply Hok..|done|by intros os [= <-]]. }
  destruct (rp_locators p) as [|loc locs] eqn:El. { injection H as <- <-. split_and!; [apply Hok..|done|by intros os [= <-]]. }
  set (t := mkTarget _ _ _) in H. set (missing := filter (λ n, _ ∧ _) _) in H. set (sendable := filter _ _) in H.
  pose proof Hok as (Hk & Hl & Hm). destruct (Hm _ _ Ep) as [Eg Hp].
  destruct (datagrams_for _ _ _ _) as [out|e] eqn:Ed; cbn [rbind] in H.
  2: { injection H as <- <-. split_and!; [apply Hok..|done|done]. }
  pose proof (datagrams_for_says w t sendable out Hk Ed) as Hout.
  (* whether a GAP is added *)
  assert (∃ res, (if rp_reliable p && negb (bool_decide (missing = [])) then
                    let? o := gap_for (w_config w) t missing in Ok (out ++ [o]) else Ok out) = res ∧
                 ∀ os, res = Ok os → Forall (outbound_says w) os) as (res & Eres & Hres).
  { eexists; split; [done|]. intros os. destruct (rp_reliable p); [|by intros [= <-]]. cbn [andb].
    case_bool_decide as Hne; [by intros [= <-]|]. destruct (gap_for _ _ _) as [o|e] eqn:Eg'; [|done]. intros [= <-].
    apply Forall_app. split; [done|]. constructor; [|done]. by eapply gap_for_says. }
  rewrite Eres in H. destruct res as [os|e]; cbn [rbind] in H.
  2: { injection H as <- <-. split_and!; [apply Hok..|done|done]. }
  injection H as <- <-.
  assert (∀ n, n ∈ sendable → n < i64_max) as Hsend.
  { intros n [Hc _]%list_elem_of_filter. unfold cache_contains in Hc. apply bool_decide_eq_true in Hc as [ch Hc].
    destruct (Hk _ _ Hc). lia. }
  destruct (foldl_record_sent sendable p Hp Hsend) as (H1 & R1 & A1).
  destruct (foldl_forget missing _ H1) as (H2 & R2 & A2 & S2).
  set (p2 := foldl _ _ missing) in *. clearbody p2. set (p3 := if rp_reliable p then p2 else _).
  assert (proxy_ok p3 ∧ same_reader p p3 ∧ (rp_reliable p = true → rp_acked_through p3 = rp_acked_through p))
    as (H3 & R3 & A3).
  { unfold p3. pose proof (transitivity R1 R2) as R12. destruct (rp_reliable p) eqn:Er.
    - split; [done|]. split; [done|]. congruence.
    - split; [apply assume_acked_ok; [done|]; destruct H2 as (_ & ? & _); lia|]. unfold assume_acked_through.
      by destruct (Z.ltb _ _). }
  destruct (replace_proxy w reader p p3 Hok Ep H3 R3 A3) as [Hok' Hsame]. split_and!; [apply Hok'..|done|].
  intros os' [= <-]. by apply Hres.
Qed.

Lemma collect_heartbeats_says liveliness w readers os :
  collect_heartbeats liveliness w readers = Ok os → Forall (outbound_says w) os.
Proof.
  revert os. induction readers as [|g gs IH]; intros os; cbn [collect_heartbeats]; [by intros [= <-]|].
  destruct (w_matched w !! g) as [p|]; [|apply IH].
  destruct (heartbeat_for liveliness w p) as [r|] eqn:Eh; [|apply IH].
  destruct r as [o|e]; [|done]. cbn [rbind]. destruct (collect_heartbeats liveliness w gs) as [rest|e]; [|done].
  intros [= <-]. constructor; [|by apply IH]. unfold heartbeat_for in Eh. destruct (_ || _); [done|].
  destruct (rp_locators p) as [|loc locs]; [done|]. apply (inj Some) in Eh. eapply encoded_says; [exact Eh|].
  apply Forall_cons. split; [done|]. by apply Forall_singleton.
Qed.

Lemma produce_heartbeat_spec now liveliness w w' r :
  produce_heartbeat now liveliness w = (w', r) → writer_ok w →
  writer_ok w' ∧ same_history w w' ∧ ∀ os, r = Ok os → Forall (outbound_says w) os.
Proof.
  unfold produce_heartbeat. destruct (negb _); intros [= <- <-] Hok.
  { split; [done|]. split; [done|]. by intros os [= <-]. }
  split; [done|]. split; [done|]. intros os Hos%collect_heartbeats_says. eapply Forall_impl; [done|]. intros o.
  by apply outbound_says_same.
Qed.

Lemma produce_readers_spec readers now w w' r :
  produce_readers readers now w = (w', r) → writer_ok w →
  writer_ok w' ∧ same_history w w' ∧ ∀ os, r = Ok os → Forall (outbound_says w) os.
Proof.
  revert w w' r. induction readers as [|g gs IH]; intros w w' r H Hok; cbn [produce_readers] in H.
  { injection H as <- <-. split; [done|]. split; [done|]. by intros os [= <-]. }
  destruct (produce_for g now w) as [w1 r1] eqn:E1. destruct (produce_for_spec _ _ _ _ _ E1 Hok) as (Hok1 & Hs1 & Hos1).
  destruct r1 as [os1|e]; [|injection H as <- <-; done].
  destruct (produce_readers gs now w1) as [w2 r2] eqn:E2. injection H as <- <-.
  destruct (IH _ _ _ E2 Hok1) as (Hok2 & Hs2 & Hos2). split; [done|]. split; [by etrans|]. intros os.
  destruct r2 as [os2|e]; [|done]. intros [= <-]. apply Forall_app. split; [by apply Hos1|].
  eapply Forall_impl; [by apply Hos2|]. intros o. apply outbound_says_same.
  destruct Hs1 as (? & ? & ? & Hg). split_and!; [done..|]. intros h. by rewrite Hg.
Qed.

(** Everything [produce] puts on the wire is true of the history, which it
    leaves alone. *)
Lemma produce_spec now w w' r :
  produce now w = (w', r) → writer_ok w →
  writer_ok w' ∧ same_history w w' ∧ ∀ os, r = Ok os → Forall (outbound_says w) os.
Proof.
  unfold produce. intros H Hok. destruct (produce_readers _ now w) as [w1 r1] eqn:E1.
  destruct (produce_readers_spec _ _ _ _ _ E1 Hok) as (Hok1 & Hs1 & Hos1).
  destruct r1 as [os1|e]; [|injection H as <- <-; done].
  destruct (should_heartbeat now w1); [|injection H as <- <-; done].
  destruct (produce_heartbeat now false w1) as [w2 r2] eqn:E2. injection H as <- <-.
  destruct (produce_heartbeat_spec _ _ _ _ _ E2 Hok1) as (Hok2 & Hs2 & Hos2). split; [done|]. split; [by etrans|].
  intros os. destruct r2 as [os2|e]; [|done]. intros [= <-]. apply Forall_app. split; [by apply Hos1|].
  eapply Forall_impl; [by apply Hos2|]. intros o. apply outbound_says_same.
  destruct Hs1 as (? & ? & ? & Hg). split_and!; [done..|]. intros h. by rewrite Hg.
Qed.

(** *** The other operations *)

(** A smaller cache of the same changes. *)
Lemma set_cache_ok h w :
  writer_ok w → changes h ⊆ changes (w_cache w) → writer_ok (set_cache h w).
Proof.
  intros (Hk & Hl & Hm) Hsub. split; [|split; [done|done]]. intros n ch Hn. apply Hk. by eapply lookup_weaken.
Qed.

Lemma write_change_spec payload ts kind instance now w w' r :
  write_change payload ts kind instance now w = (w', r) → writer_ok w → last_change w + 1 < i64_max →
  match r with
  | Err _ => w' = w
  | Ok n =>
      writer_ok w' ∧ n = last_change w + 1 ∧ last_change w' = n ∧ w_config w' = w_config w ∧
      w_matched w' = w_matched w ∧
      changes (w_cache w') ⊆ <[n := mkChange n kind instance payload ts now]> (changes (w_cache w))
  end.
Proof.
  unfold write_change. intros H (Hk & Hl & Hm) Hmax. destruct (N.ltb _ _); [by injection H as <- <-|].
  rewrite sn_next_eq in H by lia. set (n := last_change w + 1) in *. set (ch := mkChange n _ _ _ _ _) in *.
  destruct (cache_insert ch (w_cache w)) as [[h ev]|e] eqn:Ei; [|by injection H as <- <-].
  injection H as <- <-. destruct (cache_insert_subseteq _ _ _ _ Ei) as (Hsub & _). cbn [cc_sequence_number ch] in Hsub.
  cbn. split; [|done]. split; [|split; [cbn; lia|done]]. intros m c Hc. cbn in *. eapply lookup_weaken in Hc; [|done].
  destruct (decide (m = n)) as [->|Hne].
  - rewrite lookup_insert_eq in Hc. injection Hc as <-. split; [done|lia].
  - rewrite lookup_insert_ne in Hc by done. destruct (Hk _ _ Hc). split; [done|lia].
Qed.

Lemma least_le l n m : least l = Some m → n ∈ l → m <= n.
Proof.
  revert m. induction l as [|x l IH]; intros m Hm Hin; [done|]. cbn [least] in Hm.
  apply elem_of_cons in Hin as [->|Hin].
  - destruct (least l); injection Hm as <-; lia.
  - destruct (least l) as [m'|] eqn:E.
    + injection Hm as <-. specialize (IH m' eq_refl Hin). lia.
    + destruct l as [|y l']; [by apply not_elem_of_nil in Hin|]. cbn [least] in E. by destruct (least l').
Qed.

(** The watermark [reclaim] uses is acknowledged by each reliable reader. *)
Lemma acked_by_all_le w g p m :
  acked_by_all w = Some m → w_matched w !! g = Some p → counted p = true → m <= rp_acked_through p.
Proof.
  intros Hm Hp Hc. eapply least_le; [done|]. apply list_elem_of_fmap. exists p. split; [done|].
  apply list_elem_of_filter. split; [done|]. apply list_elem_of_fmap. exists (g, p). split; [done|].
  by apply elem_of_map_to_list.
Qed.

Lemma on_acknack_spec reader a w w' applied :
  on_acknack reader a w = (w', applied) → writer_ok w → set_base (an_reader_sn_state a) <= i64_max →
  writer_ok w' ∧ w_config w' = w_config w ∧ w_cache w' = w_cache w ∧ last_change w' = last_change w ∧
  (∀ g, g ≠ reader → acked_of w' g = acked_of w g) ∧
  ∀ n, acked_of w reader = Some n → acked_of w' reader = Some (if applied then Z.max n (acknowledged_through a) else n).
Proof.
  unfold on_acknack. intros H Hok Hb. destruct (w_matched w !! reader) as [p|] eqn:Ep.
  2: { injection H as <- <-. split; [done|]. split_and!; try done. }
  destruct (accept_acknack a p) as [p1 ap] eqn:Ea. injection H as <- <-. pose proof Hok as (Hk & Hl & Hm).
  destruct (Hm _ _ Ep) as [Eg Hp]. destruct (accept_acknack_ok _ _ _ _ Ea Hp Hb) as (Hp1 & G1 & R1 & T1 & _ & A1).
  set (p2 := if ap then drop_requested_below (first_available w) p1 else p1).
  assert (proxy_ok p2 ∧ same_reader p1 p2 ∧ rp_acked_through p2 = rp_acked_through p1) as (Hp2 & (G2 & R2 & T2) & A2).
  { unfold p2. destruct ap; [|done]. split; [|done]. apply proxy_ok_shrink; [done|set_solver]. }
  clearbody p2. split; [|split_and!; [done..| |]].
  - split; [done|]. split; [done|]. cbn. intros h q. destruct (decide (h = reader)) as [->|Hne].
    + rewrite lookup_insert_eq. intros [= <-]. split; [congruence|done].
    + rewrite lookup_insert_ne by done. apply Hm.
  - intros h Hne. unfold acked_of. cbn. by rewrite lookup_insert_ne.
  - intros n. unfold acked_of, counted. cbn. rewrite lookup_insert_eq, Ep. cbn. rewrite R2, R1, T2.
    destruct (rp_reliable p), (rp_active p); [|done..]. rewrite T1 by done. cbn. intros [= <-]. f_equal. by rewrite A2, A1.
Qed.

Lemma on_nack_frag_spec reader nack w w' applied :
  on_nack_frag reader nack w = (w', applied) → writer_ok w → writer_ok w' ∧ same_history w w'.
Proof.
  unfold on_nack_frag. intros H Hok. destruct (w_matched w !! reader) as [p|] eqn:Ep; [|by injection H as <- <-].
  destruct (cache_contains _ _); [|by injection H as <- <-]. injection H as <- <-.
  pose proof Hok as (_ & _ & Hm). destruct (Hm _ _ Ep) as [_ Hp].
  assert (same_reader p (request_resend (nf_writer_sn nack) p) ∧
          rp_acked_through (request_resend (nf_writer_sn nack) p) = rp_acked_through p) as (? & ?).
  { unfold request_resend. by destruct (_ && _). }
  apply (replace_proxy w reader p); auto. by apply request_resend_ok.
Qed.
