(* ===== verification/RtpsReader.v ===== *)
(** * RTPS: the reader and the dispatch of a datagram

    Models [src/crates/astrs-rtps/src/behavior/reader.rs] and the loop of
    [behavior/state.rs] that runs the submessages of one datagram through the
    endpoints of a participant ([handle_message], without submessage
    protection).  Instants are nanoseconds. *)

From Stdlib Require Import Lia.
From stdpp Require Import base tactics gmap strings numbers list sorting.
From S2P Require Import Prelude Crc32c Text RtpsTypes RtpsCache RtpsProxy RtpsFragment RtpsMessage RtpsWriter.

Open Scope Z_scope.

(** ** State *)

Definition MAX_UNTAKEN_SAMPLES : N := 8192.

Record ReaderConfig := mkReaderConfig {
  rc_guid : Guid;
  rc_reliable : bool;
  rc_history : HistoryQos;
  rc_deadline : option N;
  rc_stateless : bool;
}.

Record Sample := mkSample {
  sm_writer : Guid;
  sm_sequence_number : SequenceNumber;
  sm_payload : list N;
  sm_source_timestamp : option Time;
  sm_received_at : N;
  sm_kind : ChangeKind;
  sm_instance : InstanceHandle;
}.

Record RtpsReader := mkReader {
  r_config : ReaderConfig;
  r_matched : gmap Guid WriterProxy;
  reassembler : Reassembler;
  ready : list Sample;
  last_sample_at : gmap Guid N;
  fragment_progress : gmap (Guid * SequenceNumber) N;
  dropped : N;
}.

Definition reader_new (c : ReaderConfig) : RtpsReader := mkReader c ∅ reassembler_new [] ∅ ∅ 0.

Definition set_r_matched (m : gmap Guid WriterProxy) (r : RtpsReader) : RtpsReader :=
  mkReader (r_config r) m (reassembler r) (ready r) (last_sample_at r) (fragment_progress r) (dropped r).
Definition set_reassembler (a : Reassembler) (r : RtpsReader) : RtpsReader :=
  mkReader (r_config r) (r_matched r) a (ready r) (last_sample_at r) (fragment_progress r) (dropped r).
Definition set_progress (p : gmap (Guid * SequenceNumber) N) (r : RtpsReader) : RtpsReader :=
  mkReader (r_config r) (r_matched r) (reassembler r) (ready r) (last_sample_at r) p (dropped r).
Definition set_ready (l : list Sample) (r : RtpsReader) : RtpsReader :=
  mkReader (r_config r) (r_matched r) (reassembler r) l (last_sample_at r) (fragment_progress r) (dropped r).

(** ** Matching *)

Definition match_writer (p : WriterProxy) (r : RtpsReader) : RtpsReader :=
  match r_matched r !! wp_guid p with
  | Some existing => set_r_matched (<[wp_guid p := wp_set_locators (wp_locators p) [] existing]> (r_matched r)) r
  | None => set_r_matched (<[wp_guid p := p]> (r_matched r)) r
  end.

Definition unmatch_writer (g : Guid) (r : RtpsReader) : RtpsReader * bool :=
  (mkReader (r_config r) (delete g (r_matched r)) (discard_writer g (reassembler r)) (ready r)
     (delete g (last_sample_at r)) (filter (λ x, x.1.1 ≠ g) (fragment_progress r)) (dropped r),
   bool_decide (is_Some (r_matched r !! g))).

Definition reader_unmatch_participant (participant : Guid) (r : RtpsReader) : RtpsReader * nat :=
  let doomed := filter (λ g, prefix g = prefix participant) (ascending_guids (r_matched r)) in
  (foldl (λ r g, (unmatch_writer g r).1) r doomed, length doomed).

(** ** Taking samples *)

Definition take_one (r : RtpsReader) : RtpsReader * option Sample :=
  match ready r with
  | [] => (r, None)
  | s :: rest => (set_ready rest r, Some s)
  end.

Definition take_all (r : RtpsReader) : RtpsReader * list Sample := (set_ready [] r, ready r).

(** ** Arrivals *)

Definition addresses_me (reader_id : EntityId) (r : RtpsReader) : bool :=
  entity_is_unknown reader_id || N.eqb reader_id (entity_id (rc_guid (r_config r))).

(** A stateless reader takes from writers nobody matched. *)
Definition admit_writer (writer : Guid) (r : RtpsReader) : RtpsReader :=
  if negb (rc_stateless (r_config r)) || bool_decide (is_Some (r_matched r !! writer)) then r
  else set_r_matched (<[writer := writer_proxy_new writer [] false]> (r_matched r)) r.

(** The depth of the queue of untaken samples. *)
Definition ready_depth (c : ReaderConfig) : N :=
  let requested := match retained (rc_history c) with Some n => N.of_nat n | None => MAX_UNTAKEN_SAMPLES end in
  N.min (N.max requested 1) MAX_UNTAKEN_SAMPLES.

(** The loop pops the oldest while the queue is longer than the depth. *)
Definition deliver (writer : Guid) (n : SequenceNumber) (payload : list N) (timestamp : option Time)
    (kind : ChangeKind) (now : N) (r : RtpsReader) : RtpsReader :=
  let queue := ready r ++ [mkSample writer n payload timestamp now kind NIL] in
  let excess := (N.of_nat (length queue) - ready_depth (r_config r))%N in
  mkReader (r_config r) (r_matched r) (reassembler r) (drop (N.to_nat excess) queue)
    (<[writer := now]> (last_sample_at r)) (fragment_progress r) (saturating_add (dropped r) excess).

(** The lifecycle kind out of the inline QoS, or the shape of the payload. *)
Definition payload_kind (d : Data) : ChangeKind :=
  let by_shape := match da_payload d with PayloadData _ => Alive | _ => NotAliveDisposed end in
  match da_inline_qos d with
  | Some l =>
      match get_by_base STATUS_INFO l with
      | Some (_, value) => if Nat.leb 4 (length value) then from_status_info (take 4 value) else by_shape
      | None => by_shape
      end
  | None => by_shape
  end.

Definition on_data (source : GuidPrefix) (d : Data) (timestamp : option Time) (now : N) (r : RtpsReader) :
    RtpsReader * BehaviorResult bool :=
  match data_validate d with
  | Err e => (r, Err (RtpsWire e))
  | Ok _ =>
      if negb (addresses_me (da_reader_id d) r) then (r, Ok false)
      else
        let writer := mkGuid source (da_writer_id d) in
        let r := admit_writer writer r in
        match r_matched r !! writer with
        | None => (r, Ok false)
        | Some p =>
            let '(p, accepted) := accept_data (da_writer_sn d) p in
            let r := set_r_matched (<[writer := p]> (r_matched r)) r in
            if negb accepted && negb (rc_stateless (r_config r)) then (r, Ok false)
            else
              (deliver writer (da_writer_sn d) (payload_octets (da_payload d)) timestamp (payload_kind d) now r, Ok true)
        end
  end.

Definition on_data_frag (source : GuidPrefix) (f : DataFrag) (timestamp : option Time) (now : N) (r : RtpsReader) :
    RtpsReader * BehaviorResult bool :=
  match frag_validate f with
  | Err e => (r, Err (RtpsWire e))
  | Ok _ =>
      if negb (addresses_me (df_reader_id f) r) then (r, Ok false)
      else
        let writer := mkGuid source (df_writer_id f) in
        let r := admit_writer writer r in
        match r_matched r !! writer with
        | None => (r, Ok false)
        | Some p =>
            if is_satisfied (df_writer_sn f) p then (r, Ok false)
            else
              let '(a, res) := reassembler_accept writer f (reassembler r) in
              let r := set_reassembler a r in
              match res with
              | Err e => (r, Err e)
              | Ok None => (r, Ok false)
              | Ok (Some payload) =>
                  let '(p, accepted) := accept_data (df_writer_sn f) p in
                  let r := set_r_matched (<[writer := p]> (r_matched r)) r in
                  if negb accepted then (r, Ok false)
                  else (deliver writer (df_writer_sn f) payload timestamp Alive now r, Ok true)
              end
        end
  end.

Definition on_heartbeat (source : GuidPrefix) (h : Heartbeat) (r : RtpsReader) : RtpsReader * bool :=
  if negb (addresses_me (hb_reader_id h) r) then (r, false)
  else
    let writer := mkGuid source (hb_writer_id h) in
    match r_matched r !! writer with
    | None => (r, false)
    | Some p =>
        let '(p', applied) := accept_heartbeat h p in
        let p' := if wp_reliable p then p' else clear_heartbeat_pending p' in
        (set_r_matched (<[writer := p']> (r_matched r)) r, applied)
    end.

Definition on_gap (source : GuidPrefix) (g : Gap) (r : RtpsReader) : RtpsReader * nat :=
  if negb (addresses_me (gp_reader_id g) r) then (r, 0%nat)
  else
    let writer := mkGuid source (gp_writer_id g) in
    match r_matched r !! writer with
    | None => (r, 0%nat)
    | Some p =>
        let '(p, added) := accept_gap g p in
        let r := set_r_matched (<[writer := p]> (r_matched r)) r in
        (set_reassembler (foldl (λ a n, discard writer n a) (reassembler r) (irrelevant g)) r, added)
    end.

(** ** Answers *)

(** One [ACKNACK] per reliable writer with a heartbeat to answer; an
    [ACKNACK] and its destination always encode. *)
Definition answer_one (r : RtpsReader) (writer : Guid) : RtpsReader * BehaviorResult (list Outbound) :=
  match r_matched r !! writer with
  | None => (r, Ok [])
  | Some p =>
      if negb (wp_reliable p) || negb (wp_heartbeat_pending p) then (r, Ok [])
      else
        match wp_locators p with
        | [] => (r, Ok [])
        | locators =>
            let '(p, a) := take_acknack (entity_id (rc_guid (r_config r))) p in
            let r := set_r_matched (<[writer := p]> (r_matched r)) r in
            (r, let? o := encoded locators (prefix (rc_guid (r_config r)))
                            [SmInfoDestination (prefix writer); SmAckNack a] in Ok [o])
        end
  end.

Fixpoint answer_writers (writers : list Guid) (r : RtpsReader) : RtpsReader * BehaviorResult (list Outbound) :=
  match writers with
  | [] => (r, Ok [])
  | g :: rest =>
      let '(r, res) := answer_one r g in
      match res with
      | Err e => (r, Err e)
      | Ok os =>
          let '(r, res) := answer_writers rest r in
          (r, match res with Ok more => Ok (os ++ more) | Err e => Err e end)
      end
  end.

Definition reader_produce (now : N) (r : RtpsReader) : RtpsReader * BehaviorResult (list Outbound) :=
  answer_writers (ascending_guids (r_matched r)) r.

(** The pending series of one writer: what is asked for and what is noted. *)
Fixpoint nack_series (writer : Guid) (p : WriterProxy) (locators : list Locator) (r : RtpsReader)
    (pending : list SequenceNumber) : BehaviorResult (list Outbound * list (Guid * SequenceNumber * N)) :=
  match pending with
  | [] => Ok ([], [])
  | n :: rest =>
      let received := match assemblies (reassembler r) !! (writer, n) with Some a => received_count a | None => 0%N end in
      let stalled := bool_decide (fragment_progress r !! (writer, n) = Some received) in
      let? out :=
        match (if stalled then reassembler_missing (reassembler r) writer n else None) with
        | None => Ok []
        | Some missing =>
            if fragment_set_is_empty missing then Ok []
            else
              let nack := mkNackFrag (entity_id (rc_guid (r_config r))) (entity_id writer) n missing (next_acknack_count p) in
              let? o := encoded locators (prefix (rc_guid (r_config r))) [SmInfoDestination (prefix writer); SmNackFrag nack] in
              Ok [o]
        end in
      let? (os, noted) := nack_series writer p locators r rest in
      Ok (out ++ os, (writer, n, received) :: noted)
  end.

Fixpoint nack_writers (writers : list Guid) (r : RtpsReader) :
    BehaviorResult (list Outbound * list (Guid * SequenceNumber * N)) :=
  match writers with
  | [] => Ok ([], [])
  | g :: rest =>
      let? (os, noted) :=
        match r_matched r !! g with
        | None => Ok ([], [])
        | Some p =>
            if negb (wp_reliable p) then Ok ([], [])
            else
              match wp_locators p with
              | [] => Ok ([], [])
              | locators => nack_series g p locators r (in_flight (reassembler r) g)
              end
        end in
      let? (os', noted') := nack_writers rest r in
      Ok (os ++ os', noted ++ noted')
  end.

(** An error leaves what was noted before. *)
Definition produce_nack_frags (r : RtpsReader) : RtpsReader * BehaviorResult (list Outbound) :=
  match nack_writers (ascending_guids (r_matched r)) r with
  | Err e => (r, Err e)
  | Ok (os, noted) =>
      (set_progress (foldl (λ m x, <[(x.1.1, x.1.2) := x.2]> m) ∅ noted) r, Ok os)
  end.

(** ** Deadlines *)

Record DeadlineMiss := mkDeadlineMiss { dm_writer : Guid; dm_since : N; dm_period : N }.

Definition missed_deadlines (now : N) (r : RtpsReader) : list DeadlineMiss :=
  match rc_deadline (r_config r) with
  | None => []
  | Some period =>
      omap (λ g, match last_sample_at r !! g with
                 | Some last => if N.ltb period (now - last) then Some (mkDeadlineMiss g (now - last) period) else None
                 | None => None
                 end) (ascending_guids (last_sample_at r))
  end.

(** ** The dispatch of a datagram *)

Record Participant := mkParticipant {
  local_prefix : GuidPrefix;
  readers : gmap EntityId RtpsReader;
  writers : gmap EntityId RtpsWriter;
}.

(** What the interpreter submessages set. *)
Record Interpreter := mkInterpreter {
  in_source : GuidPrefix;
  in_timestamp : option Time;
  in_addressed : bool;
}.

Definition prefix_is_unknown (p : GuidPrefix) : bool := N.eqb p 0.

Definition interpret (local : GuidPrefix) (m : Submessage) (i : Interpreter) : Interpreter :=
  match m with
  | SmInfoTimestamp ts => mkInterpreter (in_source i) ts (in_addressed i)
  | SmInfoSource p => mkInterpreter p None (in_addressed i)
  | SmInfoDestination p => mkInterpreter (in_source i) (in_timestamp i) (prefix_is_unknown p || N.eqb p local)
  | _ => i
  end.

(** What a reader does with a submessage, errors ignored. *)
Definition reader_step (i : Interpreter) (m : Submessage) (now : N) (r : RtpsReader) : RtpsReader :=
  match m with
  | SmData d => (on_data (in_source i) d (in_timestamp i) now r).1
  | SmDataFrag f => (on_data_frag (in_source i) f (in_timestamp i) now r).1
  | SmHeartbeat h => (on_heartbeat (in_source i) h r).1
  | SmGap g => (on_gap (in_source i) g r).1
  | _ => r
  end.

Definition writer_step (i : Interpreter) (m : Submessage) (w : RtpsWriter) : RtpsWriter :=
  match m with
  | SmAckNack a => (on_acknack (mkGuid (in_source i) (an_reader_id a)) a w).1
  | SmNackFrag n => (on_nack_frag (mkGuid (in_source i) (nf_reader_id n)) n w).1
  | _ => w
  end.

(** The writer a submessage names. *)
Definition named_writer (m : Submessage) : option EntityId :=
  match m with SmAckNack a => Some (an_writer_id a) | SmNackFrag n => Some (nf_writer_id n) | _ => None end.

Definition dispatch (i : Interpreter) (m : Submessage) (now : N) (p : Participant) : Participant :=
  if negb (in_addressed i) then p
  else
    mkParticipant (local_prefix p) (reader_step i m now <$> readers p)
      (match named_writer m with Some e => alter (writer_step i m) e (writers p) | None => writers p end).

Fixpoint handle_submessages (l : list Submessage) (now : N) (i : Interpreter) (p : Participant) : Participant :=
  match l with
  | [] => p
  | m :: rest =>
      handle_submessages rest now (interpret (local_prefix p) m i) (dispatch i m now p)
  end.

Definition handle_message (m : Message) (now : N) (p : Participant) : Participant :=
  if N.eqb (guid_prefix m) (local_prefix p) then p
  else handle_submessages (submessages m) now (mkInterpreter (guid_prefix m) None true) p.
