(* ===== verification/RtpsLink.v ===== *)
(** * RTPS: a writer and a reader over a lossy network

    Composes [RtpsWriter] and [RtpsReader]: one reliable writer, one matched
    reliable reader, and a network that may lose, repeat, delay and reorder
    datagrams, but makes none up.  The state carries what was ever written,
    what the writer's history policies gave up, and what the reader handed to
    the application; none of these influences a step.

    The dispatch loop of [RtpsReader.handle_message] is run for the one
    endpoint on each side ([hear], [listen]); that this is what a participant
    does is [participant_hears] and [participant_listens]. *)

From Stdlib Require Import Lia.
From stdpp Require Import base tactics gmap strings numbers list sorting.
From S2P Require Import Prelude Crc32c Text RtpsTypes RtpsCache RtpsProxy RtpsFragment RtpsMessage RtpsWriter RtpsReader.

Open Scope Z_scope.

(** ** Hearing a datagram *)

(** What an accepted sample adds to the queue. *)
Definition fresh (res : BehaviorResult bool) (r : RtpsReader) : list Sample :=
  match res with Ok true => match last (ready r) with Some s => [s] | None => [] end | _ => [] end.

(** [reader_step] with the samples handed over. *)
Definition hear_one (i : Interpreter) (m : Submessage) (now : N) (r : RtpsReader) : RtpsReader * list Sample :=
  if negb (in_addressed i) then (r, [])
  else
    match m with
    | SmData d => let '(r, res) := on_data (in_source i) d (in_timestamp i) now r in (r, fresh res r)
    | SmDataFrag f => let '(r, res) := on_data_frag (in_source i) f (in_timestamp i) now r in (r, fresh res r)
    | m => (reader_step i m now r, [])
    end.

Fixpoint hear_all (local : GuidPrefix) (l : list Submessage) (now : N) (i : Interpreter) (r : RtpsReader) :
    RtpsReader * list Sample :=
  match l with
  | [] => (r, [])
  | m :: rest =>
      let '(r, s1) := hear_one i m now r in
      let '(r, s2) := hear_all local rest now (interpret local m i) r in
      (r, s1 ++ s2)
  end.

Definition hear (m : Message) (now : N) (r : RtpsReader) : RtpsReader * list Sample :=
  let local := prefix (rc_guid (r_config r)) in
  if N.eqb (guid_prefix m) local then (r, [])
  else hear_all local (submessages m) now (mkInterpreter (guid_prefix m) None true) r.

(** What the writer of entity [e] does with a datagram. *)
Fixpoint listen_all (local : GuidPrefix) (e : EntityId) (l : list Submessage) (i : Interpreter) (w : RtpsWriter) : RtpsWriter :=
  match l with
  | [] => w
  | m :: rest =>
      let w := if in_addressed i && bool_decide (named_writer m = Some e) then writer_step i m w else w in
      listen_all local e rest (interpret local m i) w
  end.

Definition listen (m : Message) (w : RtpsWriter) : RtpsWriter :=
  let guid := wc_guid (w_config w) in
  if N.eqb (guid_prefix m) (prefix guid) then w
  else listen_all (prefix guid) (entity_id guid) (submessages m) (mkInterpreter (guid_prefix m) None true) w.

(** A participant with one reader does what [hear] does. *)
Lemma hear_one_step i m now r :
  (hear_one i m now r).1 = if in_addressed i then reader_step i m now r else r.
Proof.
  unfold hear_one. destruct (in_addressed i); [|done]. cbn [negb]. destruct m; try done; cbn [reader_step].
  - by destruct (on_data _ _ _ _ _).
  - by destruct (on_data_frag _ _ _ _ _).
Qed.

Lemma dispatch_prefix i m now p : local_prefix (dispatch i m now p) = local_prefix p.
Proof. unfold dispatch. by destruct (in_addressed i). Qed.

Lemma participant_hears_all l now i p e r :
  readers p = {[e := r]} → writers p = ∅ →
  handle_submessages l now i p = mkParticipant (local_prefix p) {[e := (hear_all (local_prefix p) l now i r).1]} ∅.
Proof.
  revert i p r. induction l as [|m l IH]; intros i p r Er Ew; cbn [handle_submessages hear_all].
  { destruct p. cbn in *. by subst. }
  pose proof (hear_one_step i m now r) as H1. destruct (hear_one i m now r) as [r1 s1]. cbn in H1.
  rewrite (IH _ (dispatch i m now p) r1), dispatch_prefix.
  - by destruct (hear_all _ l now _ r1) as [r2 s2].
  - unfold dispatch. destruct (in_addressed i); cbn; [|by subst]. by rewrite Er, map_fmap_singleton, <-H1.
  - unfold dispatch. destruct (in_addressed i); cbn; [|done]. destruct (named_writer m); [|done]. by rewrite Ew, alter_empty.
Qed.

Lemma participant_hears m now p e r :
  readers p = {[e := r]} → writers p = ∅ → local_prefix p = prefix (rc_guid (r_config r)) →
  handle_message m now p = mkParticipant (local_prefix p) {[e := (hear m now r).1]} ∅.
Proof.
  intros Er Ew El. unfold handle_message, hear. rewrite <-El. destruct (N.eqb _ _).
  { destruct p. cbn in *. by subst. }
  by apply participant_hears_all.
Qed.

Lemma participant_listens_all l now i p e w :
  readers p = ∅ → writers p = {[e := w]} →
  handle_submessages l now i p = mkParticipant (local_prefix p) ∅ {[e := listen_all (local_prefix p) e l i w]}.
Proof.
  revert i p w. induction l as [|m l IH]; intros i p w Er Ew; cbn [handle_submessages listen_all].
  { destruct p. cbn in *. by subst. }
  rewrite (IH _ (dispatch i m now p) (if in_addressed i && bool_decide (named_writer m = Some e) then writer_step i m w else w)),
    dispatch_prefix; [done|..]; unfold dispatch; destruct (in_addressed i); cbn; try done.
  - by rewrite Er, fmap_empty.
  - destruct (named_writer m) as [e'|]; [|by rewrite bool_decide_false]. rewrite Ew. case_bool_decide as He.
    + injection He as ->. by rewrite alter_singleton_eq.
    + rewrite alter_singleton_ne; [done|congruence].
Qed.

Lemma participant_listens m now p w :
  readers p = ∅ → writers p = {[entity_id (wc_guid (w_config w)) := w]} → local_prefix p = prefix (wc_guid (w_config w)) →
  handle_message m now p = mkParticipant (local_prefix p) ∅ {[entity_id (wc_guid (w_config w)) := listen m w]}.
Proof.
  intros Er Ew El. unfold handle_message, listen. rewrite <-El. destruct (N.eqb _ _).
  { destruct p. cbn in *. by subst. }
  by apply participant_listens_all.
Qed.

(** ** What is known of the samples *)

Definition numbers_of (l : list Sample) : list SequenceNumber := sm_sequence_number <$> l.

Section Endpoints.

Context (cfg : WriterConfig) (rcfg : ReaderConfig).
Hypothesis Hstateful : rc_stateless rcfg = false.

Definition writer_guid : Guid := wc_guid cfg.

(** A sample as it was written; the kind of a fragmented one is not carried. *)
Definition exact (written : gmap SequenceNumber CacheChange) (s : Sample) : Prop :=
  ∃ ch, written !! sm_sequence_number s = Some ch ∧ sm_writer s = writer_guid ∧ sm_payload s = cc_payload ch ∧
    (sm_kind s = cc_kind ch ∨ (effective_threshold cfg < olen (cc_payload ch))%N ∧ sm_kind s = Alive).

(** What a submessage of the writer commits it to; [A] holds of the numbers
    accounted for. *)
Definition told (written : gmap SequenceNumber CacheChange) (A : SequenceNumber → Prop) (m : Submessage) : Prop :=
  match m with
  | SmInfoTimestamp _ | SmInfoDestination _ => True
  | SmData d =>
      ∃ ch reader_id, written !! cc_sequence_number ch = Some ch ∧ d = data_for (entity_id writer_guid) ch reader_id
  | SmDataFrag f =>
      ∃ ch reader_id fs, written !! cc_sequence_number ch = Some ch ∧
        (effective_threshold cfg < olen (cc_payload ch))%N ∧ fragments_of cfg reader_id ch = Ok fs ∧ f ∈ fs
  | SmGap g => ∀ n, n ∈ irrelevant g → A n
  | SmHeartbeat h => 0 < hb_first_sn h <= i64_max ∧ ∀ n, n < hb_first_sn h → A n
  | _ => False
  end.

Lemma told_weaken written written' (A A' : SequenceNumber → Prop) m :
  written ⊆ written' → (∀ n, A n → A' n) → told written A m → told written' A' m.
Proof.
  intros Hw HA. destruct m; cbn; try done.
  - intros (ch & rid & H1 & H2). exists ch, rid. split; [by eapply lookup_weaken|done].
  - intros (ch & rid & fs & H1 & H2). exists ch, rid, fs. split; [by eapply lookup_weaken|done].
  - intros [H1 H2]. split; [done|]. auto.
  - auto.
Qed.

(** A series in progress is of a written sample. *)
Definition series_ok (written : gmap SequenceNumber CacheChange) (a : Reassembler) : Prop :=
  ∀ n asm, assemblies a !! (writer_guid, n) = Some asm →
    ∃ ch plan seen, written !! n = Some ch ∧ plan_ok plan ∧ plan_sample_size plan = olen (cc_payload ch) ∧
      plan_fragment_size plan = effective_fragment_size cfg ∧ asm_ok (cc_payload ch) plan seen asm.

(** The reader: [B] holds of the numbers that will not come; what it handed
    over is exact and without repetition. *)
Record reader_inv (written : gmap SequenceNumber CacheChange) (B : SequenceNumber → Prop) (log : list Sample)
    (r : RtpsReader) : Prop := {
  ri_config : r_config r = rcfg;
  ri_proxy : ∃ p, r_matched r = {[writer_guid := p]} ∧ wp_reliable p = true ∧ wp_guid p = writer_guid ∧
    tracks (λ n, n ∈ numbers_of log) (λ n, B n ∨ n ∈ numbers_of log) p;
  ri_once : NoDup (numbers_of log);
  ri_exact : ∀ s, s ∈ log → exact written s;
  ri_series : series_ok written (reassembler r);
}.

(** Two plans of one shape are one plan. *)
Lemma plan_unique p q :
  plan_ok p → plan_ok q → plan_sample_size p = plan_sample_size q → plan_fragment_size p = plan_fragment_size q → p = q.
Proof. destruct p, q. intros (_ & _ & E1 & _) (_ & _ & E2 & _). cbn in *. congruence. Qed.

(** A fragment of a written sample: the sample, or nothing yet. *)
Lemma accept_series_ok written ch reader_id fs f a a' res :
  (∀ n c, written !! n = Some c → cc_sequence_number c = n) →
  written !! cc_sequence_number ch = Some ch → fragments_of cfg reader_id ch = Ok fs → f ∈ fs → series_ok written a →
  reassembler_accept writer_guid f a = (a', res) →
  df_writer_sn f = cc_sequence_number ch ∧ series_ok written a' ∧ (res = Ok None ∨ res = Ok (Some (cc_payload ch))).
Proof.
  intros Hkeys Hch Hfs Hf Hs Hacc.
  destruct (fragment_sample_ok _ _ _ _ _ _ _ Hfs) as (plan & Hp & Es & Ef & Hpieces & _ & _).
  destruct (Hpieces f Hf) as [Hpf En]. set (n := cc_sequence_number ch) in *.
  assert (∃ seen asm, asm_ok (cc_payload ch) plan seen asm ∧
            (assemblies a !! (writer_guid, n) = Some asm ∨ (assemblies a !! (writer_guid, n) = None ∧ asm = assembly_new plan)))
    as (seen & asm & Hasm & Hlook).
  { destruct (assemblies a !! (writer_guid, n)) as [asm|] eqn:E.
    - destruct (Hs _ _ E) as (ch' & plan' & seen & Hch' & Hp' & Es' & Ef' & Hasm). rewrite Hch in Hch'.
      injection Hch' as <-. exists seen, asm. rewrite (plan_unique plan plan') by congruence. auto.
    - exists [], (assembly_new plan). split; [by apply assembly_new_ok|auto]. }
  destruct (accept_step _ plan Hp Es writer_guid n seen asm f a Hasm Hpf En Hlook) as (asm' & a1 & Hasm' & Hres).
  assert (∀ m b, m ≠ n → assemblies a' !! (writer_guid, m) = Some b → assemblies a !! (writer_guid, m) = Some b) as Hframe.
  { intros m b Hne Hb. eapply accept_frame; [done|done|]. rewrite En. congruence. }
  split; [done|]. destruct (is_complete asm').
  - destruct Hres as [E Hnone]. rewrite Hacc in E. injection E as -> ->. split; [|by right].
    intros m b Hb. destruct (decide (m = n)) as [->|Hne]; [congruence|]. apply Hs. by apply Hframe.
  - destruct Hres as [E Hsome]. rewrite Hacc in E. injection E as -> ->. split; [|by left].
    intros m b Hb. destruct (decide (m = n)) as [->|Hne].
    + rewrite Hsome in Hb. injection Hb as <-. exists ch, plan, (f :: seen). done.
    + apply Hs. by apply Hframe.
Qed.

Lemma deliver_last writer n payload ts kind now r :
  last (ready (deliver writer n payload ts kind now r)) = Some (mkSample writer n payload ts now kind NIL).
Proof.
  unfold deliver. cbn. set (s := mkSample _ _ _ _ _ _ _). rewrite length_app. cbn [length].
  assert (1 <= ready_depth (r_config r))%N as Hd by (unfold ready_depth, MAX_UNTAKEN_SAMPLES; lia).
  rewrite drop_app_le by lia. by rewrite last_snoc.
Qed.

(** The kind survives the trip through the inline status. *)
Lemma payload_kind_data writer_id ch reader_id : payload_kind (data_for writer_id ch reader_id) = cc_kind ch.
Proof. unfold data_for, payload_kind. by destruct (cc_kind ch), (cc_payload ch). Qed.

Lemma payload_octets_data writer_id ch reader_id :
  payload_octets (da_payload (data_for writer_id ch reader_id)) = cc_payload ch.
Proof. unfold data_for. cbn. destruct (carries_data (cc_kind ch)); [done|]. by destruct (cc_payload ch). Qed.

(** Handing over a sample that was not handed over before. *)
Lemma reader_inv_deliver written (B : SequenceNumber → Prop) log r p p' n payload ts kind now a :
  reader_inv written B log r → r_matched r = {[writer_guid := p]} → accept_data n p = (p', true) →
  series_ok written a → exact written (mkSample writer_guid n payload ts now kind NIL) →
  reader_inv written B (log ++ [mkSample writer_guid n payload ts now kind NIL])
    (deliver writer_guid n payload ts kind now (set_r_matched (<[writer_guid := p']> (r_matched r)) (set_reassembler a r))).
Proof.
  intros [Hc (q & Eq & Hrel & Hg & Ht) Hnd Hex Hser] Em Hacc Ha Hexact. rewrite Em in Eq.
  apply map_singleton_inj in Eq as [_ <-].
  destruct (accept_data_tracks _ _ n p p' true Hacc Hrel (λ m Hm, or_intror Hm) Ht) as [[R1 G1] [Hnew Ht']].
  set (s := mkSample _ _ _ _ _ _ _) in *. assert (numbers_of (log ++ [s]) = numbers_of log ++ [n]) as En by (unfold numbers_of; by rewrite fmap_app).
  split.
  - done.
  - exists p'. cbn. rewrite Em, insert_singleton_eq, R1, G1. split_and!; [done..|]. rewrite En.
    destruct Ht' as (H0 & H1 & H2 & H3 & H4). split; [done|].
    split_and!; [intros m Hm%H1|intros m Hm%H2|intros m Hm%H3|intros m Hm; apply H4]; set_solver.
  - rewrite En. apply NoDup_app. split_and!; [done| |apply NoDup_singleton].
    intros m Hm ->%list_elem_of_singleton. done.
  - intros x [Hx| ->%list_elem_of_singleton]%elem_of_app; auto.
  - done.
Qed.

(** A step of the proxy that hands nothing over. *)
Lemma reader_inv_proxy written (B : SequenceNumber → Prop) log r p p' a :
  reader_inv written B log r → r_matched r = {[writer_guid := p]} → same_writer p p' →
  tracks (λ n, n ∈ numbers_of log) (λ n, B n ∨ n ∈ numbers_of log) p' → series_ok written a →
  reader_inv written B log (set_reassembler a (set_r_matched (<[writer_guid := p']> (r_matched r)) r)).
Proof.
  intros [Hc (q & Eq & Hrel & Hg & Ht) Hnd Hex Hser] Em [R1 G1] Ht' Ha. rewrite Em in Eq.
  apply map_singleton_inj in Eq as [_ <-]. split; try done.
  exists p'. cbn. rewrite Em, insert_singleton_eq, R1, G1. done.
Qed.

Lemma set_reassembler_same r : set_reassembler (reassembler r) r = r.
Proof. by destruct r. Qed.

Lemma admit_stateful g r : r_config r = rcfg → admit_writer g r = r.
Proof. intros E. unfold admit_writer. by rewrite E, Hstateful. Qed.

Definition keyed (written : gmap SequenceNumber CacheChange) : Prop :=
  ∀ n ch, written !! n = Some ch → cc_sequence_number ch = n.

Lemma guid_eta g : mkGuid (prefix g) (entity_id g) = g.
Proof. by destruct g. Qed.

Lemma on_data_ok written (B : SequenceNumber → Prop) log r ch reader_id ts now r' res :
  keyed written → reader_inv written B log r → written !! cc_sequence_number ch = Some ch →
  on_data (prefix writer_guid) (data_for (entity_id writer_guid) ch reader_id) ts now r = (r', res) →
  reader_inv written B (log ++ fresh res r') r'.
Proof.
  intros Hkey Hinv Hch H. unfold on_data in H. destruct (data_validate _) as [[]|]; [|injection H as <- <-; by rewrite app_nil_r].
  destruct (negb (addresses_me _ r)); [injection H as <- <-; by rewrite app_nil_r|].
  set (d := data_for _ _ _) in H. replace (mkGuid (prefix writer_guid) (da_writer_id d)) with writer_guid in H by (symmetry; apply guid_eta).
  rewrite admit_stateful in H by apply Hinv. destruct (ri_proxy _ _ _ _ Hinv) as (p & Em & Hrel & Hg & Ht).
  rewrite Em, lookup_singleton_eq in H. destruct (accept_data (da_writer_sn d) p) as [p' accepted] eqn:Eacc.
  change (r_config (set_r_matched _ r)) with (r_config r) in H. rewrite (ri_config _ _ _ _ Hinv), Hstateful in H.
  destruct accepted; cbn [negb andb] in H; injection H as <- <-.
  - unfold fresh. rewrite deliver_last. rewrite <-Em.
    replace (set_r_matched (<[writer_guid := p']> (r_matched r)) r)
      with (set_r_matched (<[writer_guid := p']> (r_matched r)) (set_reassembler (reassembler r) r)) by (by destruct r).
    apply (reader_inv_deliver _ _ _ _ p); try done; [apply Hinv|].
    exists ch. split_and!; [done|done|apply (payload_octets_data (entity_id writer_guid) ch reader_id)|].
    left. apply payload_kind_data.
  - rewrite app_nil_r, <-Em. rewrite <-(set_reassembler_same (set_r_matched _ r)).
    destruct (accept_data_tracks _ _ _ _ _ _ Eacc Hrel (λ m Hm, or_intror Hm) Ht) as [Hs Ht'].
    apply (reader_inv_proxy _ _ _ _ p); try done. apply Hinv.
Qed.

Lemma on_data_frag_ok written (B : SequenceNumber → Prop) log r ch reader_id fs f ts now r' res :
  keyed written → reader_inv written B log r → written !! cc_sequence_number ch = Some ch →
  (effective_threshold cfg < olen (cc_payload ch))%N → fragments_of cfg reader_id ch = Ok fs → f ∈ fs →
  on_data_frag (prefix writer_guid) f ts now r = (r', res) → df_writer_id f = entity_id writer_guid →
  reader_inv written B (log ++ fresh res r') r'.
Proof.
  intros Hkey Hinv Hch Hbig Hfs Hf H Hid. unfold on_data_frag in H.
  destruct (frag_validate f) as [[]|]; [|injection H as <- <-; by rewrite app_nil_r].
  destruct (negb (addresses_me _ r)); [injection H as <- <-; by rewrite app_nil_r|].
  rewrite Hid, guid_eta in H. rewrite admit_stateful in H by apply Hinv.
  destruct (ri_proxy _ _ _ _ Hinv) as (p & Em & Hrel & Hg & Ht). rewrite Em, lookup_singleton_eq in H.
  destruct (is_satisfied _ p); [injection H as <- <-; by rewrite app_nil_r|].
  destruct (reassembler_accept writer_guid f (reassembler r)) as [a x] eqn:Ea.
  destruct (accept_series_ok _ _ _ _ _ _ _ _ Hkey Hch Hfs Hf (ri_series _ _ _ _ Hinv) Ea) as (En & Ha & Hx).
  assert (reader_inv written B log (set_reassembler a r)) as Hinv'.
  { destruct Hinv as [? ? ? ? ?]. by split. }
  destruct Hx as [->| ->]; [injection H as <- <-; by rewrite app_nil_r|].
  destruct (accept_data (df_writer_sn f) p) as [p' accepted] eqn:Eacc. change (r_matched (set_reassembler a r)) with (r_matched r) in H.
  destruct accepted; cbn [negb] in H; injection H as <- <-.
  - unfold fresh. rewrite deliver_last. apply (reader_inv_deliver _ _ _ _ p); try done.
    exists ch. cbn. rewrite En. split_and!; [done..|]. by right.
  - rewrite app_nil_r. destruct (accept_data_tracks _ _ _ _ _ _ Eacc Hrel (λ m Hm, or_intror Hm) Ht) as [Hs Ht'].
    rewrite <-(set_reassembler_same (set_r_matched _ _)). by apply (reader_inv_proxy _ _ _ (set_reassembler a r) p).
Qed.

Lemma discard_series_ok written a ns : series_ok written a → series_ok written (foldl (λ a n, discard writer_guid n a) a ns).
Proof.
  revert a. induction ns as [|n ns IH]; intros a Ha; cbn [foldl]; [done|]. apply IH. intros m b Hb. cbn in Hb.
  apply Ha. by apply lookup_delete_Some in Hb as [_ ?].
Qed.

(** One submessage of the writer. *)
Lemma hear_one_ok written (B : SequenceNumber → Prop) log r i m now r' new :
  keyed written → reader_inv written B log r → told written (λ n, B n ∨ n ∈ numbers_of log) m →
  in_source i = prefix writer_guid → hear_one i m now r = (r', new) → reader_inv written B (log ++ new) r'.
Proof.
  intros Hkey Hinv Htold Hsrc H. unfold hear_one in H. destruct (in_addressed i); cbn [negb] in H.
  2: { injection H as <- <-. by rewrite app_nil_r. }
  pose proof (ri_proxy _ _ _ _ Hinv) as (p & Em & Hrel & Hg & Ht).
  destruct m as [ts|sp|dp|d|f|h|g|a|nf]; cbn [told reader_step] in *; rewrite ?Hsrc in H; try done;
    try (injection H as <- <-; by rewrite app_nil_r).
  - destruct (on_data _ d _ _ r) as [r1 res] eqn:E. injection H as <- <-. destruct Htold as (ch & rid & Hch & ->).
    by eapply on_data_ok.
  - destruct (on_data_frag _ f _ _ r) as [r1 res] eqn:E. injection H as <- <-.
    destruct Htold as (ch & rid & fs & Hch & Hbig & Hfs & Hf). eapply on_data_frag_ok; try done.
    by eapply fragment_sample_writer.
  - injection H as <- <-. rewrite app_nil_r. unfold on_heartbeat. destruct (negb _); [done|].
    destruct (r_matched r !! _) as [q|] eqn:Eq; [|done].
    rewrite Em in Eq. apply lookup_singleton_Some in Eq as [<- <-].
    destruct (accept_heartbeat h p) as [p' ap] eqn:Eh. rewrite Hrel. cbn [fst].
    destruct Htold as [Hpos Hlow]. destruct (accept_heartbeat_tracks _ _ _ _ _ _ Eh (λ m Hm, or_intror Hm) Ht Hlow Hpos) as [Hs Ht'].
    rewrite <-(set_reassembler_same (set_r_matched _ r)). apply (reader_inv_proxy _ _ _ _ p); try done. apply Hinv.
  - injection H as <- <-. rewrite app_nil_r. unfold on_gap. destruct (negb _); [done|].
    destruct (r_matched r !! _) as [q|] eqn:Eq; [|done].
    rewrite Em in Eq. apply lookup_singleton_Some in Eq as [<- <-].
    destruct (accept_gap g p) as [p' ad] eqn:Eg. cbn [fst].
    destruct (accept_gap_tracks _ _ _ _ _ _ Eg (λ m Hm, or_intror Hm) Ht Htold) as [Hs Ht'].
    apply (reader_inv_proxy _ _ _ _ p); try done. apply discard_series_ok, Hinv.
Qed.

Lemma numbers_of_app l k n : n ∈ numbers_of (l ++ k) ↔ n ∈ numbers_of l ∨ n ∈ numbers_of k.
Proof. unfold numbers_of. by rewrite fmap_app, elem_of_app. Qed.

Lemma hear_all_ok written (B : SequenceNumber → Prop) local l now : ∀ log i r r' new,
  keyed written → reader_inv written B log r → Forall (told written (λ n, B n ∨ n ∈ numbers_of log)) l →
  in_source i = prefix writer_guid → hear_all local l now i r = (r', new) → reader_inv written B (log ++ new) r'.
Proof.
  induction l as [|m l IH]; intros log i r r' new Hkey Hinv Hl Hsrc H; cbn [hear_all] in H.
  { injection H as <- <-. by rewrite app_nil_r. }
  apply Forall_cons in Hl as [Hm Hl]. destruct (hear_one i m now r) as [r1 s1] eqn:E1.
  destruct (hear_all local l now (interpret local m i) r1) as [r2 s2] eqn:E2. injection H as <- <-.
  assert (in_source (interpret local m i) = prefix writer_guid) as Hsrc' by (destruct m; cbn in Hm |- *; done).
  rewrite app_assoc. eapply IH; [done|by apply (hear_one_ok written B log r i m now)| |exact Hsrc'|exact E2].
  eapply Forall_impl; [done|]. intros x. apply told_weaken; [done|].
  intros n [?|?]; [by left|right]. apply numbers_of_app. by left.
Qed.

Lemma hear_ok written (B : SequenceNumber → Prop) log m now r r' new :
  keyed written → reader_inv written B log r → guid_prefix m = prefix writer_guid →
  Forall (told written (λ n, B n ∨ n ∈ numbers_of log)) (submessages m) →
  hear m now r = (r', new) → reader_inv written B (log ++ new) r'.
Proof.
  intros Hkey Hinv Hp Hm H. unfold hear in H. destruct (N.eqb _ _).
  { injection H as <- <-. by rewrite app_nil_r. }
  eapply hear_all_ok; [exact Hkey|exact Hinv|exact Hm| |exact H]. exact Hp.
Qed.

(** ** The link *)

Record link := mkLink {
  lk_writer : RtpsWriter;
  lk_reader : RtpsReader;
  lk_forth : list Message;
  lk_back : list Message;
  lk_written : gmap SequenceNumber CacheChange;
  lk_lost : gset SequenceNumber;
  lk_delivered : list Sample;
}.

Definition reader_guid : Guid := rc_guid rcfg.

(** What a change of the cache gave up. *)
Definition given_up (before after : gmap SequenceNumber CacheChange) : gset SequenceNumber := dom before ∖ dom after.

Lemma elem_of_given_up before after n : is_Some (before !! n) → after !! n = None → n ∈ given_up before after.
Proof. intros Hb Ha. unfold given_up. rewrite elem_of_difference. by rewrite elem_of_dom, not_elem_of_dom. Qed.

Definition sent (r : BehaviorResult (list Outbound)) : list Message :=
  match r with Ok os => ob_message <$> os | Err _ => [] end.

Definition with_writer (w : RtpsWriter) (k : link) : link :=
  mkLink w (lk_reader k) (lk_forth k) (lk_back k) (lk_written k) (lk_lost k) (lk_delivered k).

(** The writer's cache becomes that of [w]; what it gave up is recorded. *)
Definition drop_history (w : RtpsWriter) (k : link) : link :=
  mkLink w (lk_reader k) (lk_forth k) (lk_back k) (lk_written k)
    (lk_lost k ∪ given_up (changes (w_cache (lk_writer k))) (changes (w_cache w))) (lk_delivered k).

Definition say (w : RtpsWriter) (messages : list Message) (k : link) : link :=
  mkLink w (lk_reader k) (lk_forth k ++ messages) (lk_back k) (lk_written k) (lk_lost k) (lk_delivered k).

Definition answer (r : RtpsReader) (messages : list Message) (k : link) : link :=
  mkLink (lk_writer k) r (lk_forth k) (lk_back k ++ messages) (lk_written k) (lk_lost k) (lk_delivered k).

Definition after_hearing (r : RtpsReader) (new : list Sample) (k : link) : link :=
  mkLink (lk_writer k) r (lk_forth k) (lk_back k) (lk_written k) (lk_lost k) (lk_delivered k ++ new).

Definition after_write (w : RtpsWriter) (n : SequenceNumber) (ch : CacheChange) (k : link) : link :=
  mkLink w (lk_reader k) (lk_forth k) (lk_back k) (<[n := ch]> (lk_written k))
    (lk_lost k ∪ given_up (<[n := ch]> (changes (w_cache (lk_writer k)))) (changes (w_cache w))) (lk_delivered k).

(** One step of either side or of the network.  [forgets] says whether the
    application may drop samples from the history by hand. *)
Inductive step (forgets : bool) : link → link → Prop :=
  | step_write k payload ts kind instance now w n :
      last_change (lk_writer k) + 1 < i64_max →
      write_change payload ts kind instance now (lk_writer k) = (w, Ok n) →
      step forgets k (after_write w n (mkChange n kind instance payload ts now) k)
  | step_forget k n w dropped :
      forgets = true → forget n (lk_writer k) = (w, dropped) → step forgets k (drop_history w k)
  | step_expire k now w gone :
      writer_expire now (lk_writer k) = (w, gone) → step forgets k (drop_history w k)
  | step_reclaim k w n :
      reclaim (lk_writer k) = (w, n) → step forgets k (with_writer w k)
  | step_produce k now w r :
      produce now (lk_writer k) = (w, r) → step forgets k (say w (sent r) k)
  | step_heartbeat k now liveliness w r :
      produce_heartbeat now liveliness (lk_writer k) = (w, r) → step forgets k (say w (sent r) k)
  | step_hear k m now r new :
      m ∈ lk_forth k → hear m now (lk_reader k) = (r, new) → step forgets k (after_hearing r new k)
  | step_answer k now r res :
      reader_produce now (lk_reader k) = (r, res) → step forgets k (answer r (sent res) k)
  | step_nack_frags k r res :
      produce_nack_frags (lk_reader k) = (r, res) → step forgets k (answer r (sent res) k)
  | step_listen k m :
      m ∈ lk_back k → step forgets k (with_writer (listen m (lk_writer k)) k)
  | step_take k r s :
      take_one (lk_reader k) = (r, s) → step forgets k (answer r [] k)
  | step_take_all k r l :
      take_all (lk_reader k) = (r, l) → step forgets k (answer r [] k).

(** The reader starts where the writer's durability says: at the beginning of
    what is held, or after everything written so far. *)
Definition joined_at (w : RtpsWriter) : SequenceNumber := if wc_replays_history (w_config w) then 0 else last_change w.

(** The writer matches the reader, which matches the writer. *)
Definition start (w : RtpsWriter) (reader_locators writer_locators : list Locator) : link :=
  mkLink (match_reader (reader_proxy_new reader_guid reader_locators true) w)
    (match_writer (writer_proxy_new writer_guid writer_locators true) (reader_new rcfg))
    [] [] (changes (w_cache w)) (list_to_set (seqZ 1 (last_change w)) ∖ dom (changes (w_cache w))) [].

Inductive reachable (forgets : bool) (w0 : RtpsWriter) : link → Prop :=
  | reach_start rl wl : reachable forgets w0 (start w0 rl wl)
  | reach_step k k' : reachable forgets w0 k → step forgets k k' → reachable forgets w0 k'.

(** ** The invariant *)

Section Invariant.

Context (joined : SequenceNumber).
Hypothesis Hjoined : 0 <= joined.

(** The numbers that will not come: before the reader joined, or given up. *)
Definition not_coming (k : link) (n : SequenceNumber) : Prop := n <= joined ∨ n ∈ lk_lost k.

Definition accounted (k : link) (n : SequenceNumber) : Prop := not_coming k n ∨ n ∈ numbers_of (lk_delivered k).

(** What a submessage of the reader commits it to. *)
Definition answered (A : SequenceNumber → Prop) (m : Submessage) : Prop :=
  match m with
  | SmInfoDestination _ => True
  | SmAckNack a =>
      an_reader_id a = entity_id reader_guid ∧ set_base (an_reader_sn_state a) <= i64_max ∧
      ∀ n, n <= acknowledged_through a → A n
  | SmNackFrag _ => True
  | _ => False
  end.

Lemma answered_weaken (A A' : SequenceNumber → Prop) m : (∀ n, A n → A' n) → answered A m → answered A' m.
Proof. intros HA. destruct m; cbn; try done. intros (? & ? & ?). split_and!; auto. Qed.

Record link_inv (k : link) : Prop := {
  li_writer : writer_ok (lk_writer k);
  li_config : w_config (lk_writer k) = cfg;
  li_keyed : keyed (lk_written k);
  li_bound : ∀ n ch, lk_written k !! n = Some ch → n <= last_change (lk_writer k);
  li_held : changes (w_cache (lk_writer k)) ⊆ lk_written k;
  li_history : ∀ n, joined < n <= last_change (lk_writer k) →
    is_Some (changes (w_cache (lk_writer k)) !! n) ∨ accounted k n;
  li_acked : ∃ a, acked_of (lk_writer k) reader_guid = Some a ∧ ∀ n, n <= a → accounted k n;
  li_reader : reader_inv (lk_written k) (not_coming k) (lk_delivered k) (lk_reader k);
  li_forth : ∀ m, m ∈ lk_forth k →
    guid_prefix m = prefix writer_guid ∧ Forall (told (lk_written k) (accounted k)) (submessages m);
  li_back : ∀ m, m ∈ lk_back k →
    guid_prefix m = prefix reader_guid ∧ Forall (answered (accounted k)) (submessages m);
}.

Lemma reader_inv_weaken written written' (B B' : SequenceNumber → Prop) log r :
  written ⊆ written' → (∀ n, B n → B' n) → reader_inv written B log r → reader_inv written' B' log r.
Proof.
  intros Hw HB [Hc (p & Em & Hrel & Hg & Ht) Hnd Hex Hser]. split; try done.
  - exists p. split_and!; try done. apply (tracks_weaken _ _ _ _ Ht). naive_solver.
  - intros s Hs. destruct (Hex s Hs) as (ch & Hch & Hrest). exists ch. split; [by eapply lookup_weaken|done].
  - intros n asm Ha. destruct (Hser n asm Ha) as (ch & plan & seen & Hch & Hrest). exists ch, plan, seen.
    split; [by eapply lookup_weaken|done].
Qed.

Lemma forth_weaken written written' (A A' : SequenceNumber → Prop) m :
  written ⊆ written' → (∀ n, A n → A' n) →
  guid_prefix m = prefix writer_guid ∧ Forall (told written A) (submessages m) →
  guid_prefix m = prefix writer_guid ∧ Forall (told written' A') (submessages m).
Proof.
  intros Hw HA [H1 H2]. split; [done|]. eapply Forall_impl; [done|]. intros x. by apply told_weaken.
Qed.

Lemma back_weaken (A A' : SequenceNumber → Prop) m :
  (∀ n, A n → A' n) → guid_prefix m = prefix reader_guid ∧ Forall (answered A) (submessages m) →
  guid_prefix m = prefix reader_guid ∧ Forall (answered A') (submessages m).
Proof. intros HA [H1 H2]. split; [done|]. eapply Forall_impl; [done|]. intros x. by apply answered_weaken. Qed.

(** *** The writer's side *)

Lemma first_available_bounds w : writer_ok w → 0 < first_available w <= i64_max ∧
  ∀ n, n < first_available w → changes (w_cache w) !! n = None ∧ n <= last_change w.
Proof.
  intros (Hk & Hl & _). unfold first_available, min_sequence_number.
  destruct (keys (changes (w_cache w))) as [|n0 rest] eqn:E; cbn [head].
  - rewrite sn_next_eq by lia. split; [lia|]. intros n Hn. split; [|lia]. apply eq_None_not_Some. intros Hs.
    apply elem_of_keys in Hs. rewrite E in Hs. by apply not_elem_of_nil in Hs.
  - unfold keys in E. destruct (ascending_sn_least _ _ _ E) as [Hin Hmin]. apply elem_of_dom in Hin as [ch Hch].
    destruct (Hk _ _ Hch). split; [lia|]. intros n Hn. split; [|lia]. apply eq_None_not_Some. intros Hs.
    apply elem_of_dom, Hmin in Hs. lia.
Qed.

(** A number the history does not hold is accounted for. *)
Lemma absent_accounted k n :
  link_inv k → changes (w_cache (lk_writer k)) !! n = None → n <= last_change (lk_writer k) → accounted k n.
Proof.
  intros Hk Hn Hl. destruct (decide (n <= joined)); [by left; left|].
  destruct (li_history k Hk n ltac:(lia)) as [[ch Hch]|?]; [congruence|done].
Qed.

Lemma says_told k m : link_inv k → says (lk_writer k) m → told (lk_written k) (accounted k) m.
Proof.
  intros Hk. pose proof (li_held k Hk) as Hheld. pose proof (li_config k Hk) as Hc. destruct m; cbn; rewrite ?Hc; try done.
  - intros (ch & rid & Hch & ->). exists ch, rid. split; [by eapply lookup_weaken|done].
  - intros (ch & rid & fs & Hch & Hrest). exists ch, rid, fs. split; [by eapply lookup_weaken|done].
  - intros (_ & -> & _). destruct (first_available_bounds _ (li_writer k Hk)) as [Hpos Hlow]. split; [done|].
    intros n [H1 H2]%Hlow. by apply absent_accounted.
  - intros (_ & Hg) n [H1 H2]%Hg. by apply absent_accounted.
Qed.

(** Speaking leaves the invariant. *)
Lemma say_inv k w os :
  link_inv k → writer_ok w → same_history (lk_writer k) w → Forall (outbound_says (lk_writer k)) os →
  link_inv (say w (ob_message <$> os) k).
Proof.
  intros Hk Hok (Ec & Eh & El & Ea) Hos. split; cbn; rewrite ?Ec, ?Eh, ?El; try apply Hk; [done| |].
  - destruct (li_acked k Hk) as (a & H1 & H2). exists a. by rewrite Ea.
  - intros m [Hm|Hm]%elem_of_app; [by apply Hk|]. apply list_elem_of_fmap in Hm as (o & -> & Ho).
    rewrite Forall_forall in Hos. destruct (Hos o Ho) as [Hp Hall]. rewrite (li_config k Hk) in Hp.
    split; [done|]. eapply Forall_impl; [done|]. intros m'. by apply says_told.
Qed.

(** Giving up part of the history leaves the invariant. *)
Lemma drop_history_inv k h :
  link_inv k → changes h ⊆ changes (w_cache (lk_writer k)) → link_inv (drop_history (set_cache h (lk_writer k)) k).
Proof.
  intros Hk Hsub. set (k' := drop_history _ k).
  assert (∀ n, not_coming k n → not_coming k' n) as HB by (unfold not_coming; cbn; set_solver).
  assert (∀ n, accounted k n → accounted k' n) as HA by (unfold accounted; naive_solver).
  split; cbn; try apply Hk.
  - apply set_cache_ok; [apply Hk|done].
  - etrans; [done|apply Hk].
  - intros n Hn. destruct (li_history k Hk n Hn) as [Hs|?]; [|right; auto].
    destruct (changes h !! n) as [ch|] eqn:E; [left; eauto|right; left; right].
    apply elem_of_union_r. by apply elem_of_given_up.
  - destruct (li_acked k Hk) as (a & H1 & H2). exists a. split; [done|]. auto.
  - apply (reader_inv_weaken (lk_written k) _ (not_coming k)); [done|done|apply Hk].
  - intros m Hm. eapply forth_weaken; [done|exact HA|]. by apply Hk.
  - intros m Hm. eapply back_weaken; [exact HA|]. by apply Hk.
Qed.

Lemma write_inv k payload ts kind instance now w n :
  link_inv k → last_change (lk_writer k) + 1 < i64_max →
  write_change payload ts kind instance now (lk_writer k) = (w, Ok n) →
  link_inv (after_write w n (mkChange n kind instance payload ts now) k).
Proof.
  intros Hk Hmax H. pose proof (write_change_spec _ _ _ _ _ _ _ _ H (li_writer k Hk) Hmax) as (Hok & En & El & Ec & Em & Hsub).
  set (ch := mkChange n _ _ _ _ _) in *. set (k' := after_write _ _ _ k).
  assert (lk_written k !! n = None) as Hnew.
  { apply eq_None_not_Some. intros [c Hc]. apply (li_bound k Hk) in Hc. lia. }
  assert (lk_written k ⊆ lk_written k') as Hw by by apply insert_subseteq.
  assert (∀ m, not_coming k m → not_coming k' m) as HB by (unfold not_coming; cbn; set_solver).
  assert (∀ m, accounted k m → accounted k' m) as HA by (unfold accounted; naive_solver).
  split; cbn.
  - done.
  - rewrite Ec. apply Hk.
  - intros m c. destruct (decide (m = n)) as [->|Hne]; [rewrite lookup_insert_eq; by intros [= <-]|].
    rewrite lookup_insert_ne by done. apply Hk.
  - intros m c. destruct (decide (m = n)) as [->|Hne]; [rewrite lookup_insert_eq; intros [= <-]; lia|].
    rewrite lookup_insert_ne by done. intros Hm%(li_bound k Hk). lia.
  - etrans; [done|]. apply insert_mono, Hk.
  - intros m Hm. destruct (changes (w_cache w) !! m) as [c|] eqn:E; [left; eauto|right].
    destruct (decide (m = n)) as [->|Hne].
    + left; right. apply elem_of_union_r, elem_of_given_up; [|done]. rewrite lookup_insert_eq. eauto.
    + destruct (li_history k Hk m ltac:(lia)) as [Hs|?]; [|auto]. left; right.
      apply elem_of_union_r, elem_of_given_up; [|done]. by rewrite lookup_insert_ne.
  - destruct (li_acked k Hk) as (a & H1 & H2). exists a. split; [|auto]. unfold acked_of in *. by rewrite Em.
  - apply (reader_inv_weaken (lk_written k) _ (not_coming k)); [done|done|apply Hk].
  - intros m Hm. eapply forth_weaken; [done|exact HA|]. by apply Hk.
  - intros m Hm. eapply back_weaken; [exact HA|]. by apply Hk.
Qed.

(** Reclaiming drops only what the reader acknowledged. *)
Lemma reclaim_inv k w n : link_inv k → reclaim (lk_writer k) = (w, n) → link_inv (with_writer w k).
Proof.
  intros Hk H. unfold reclaim in H.
  assert (link_inv (with_writer (lk_writer k) k)) as Hsame by (destruct k; done).
  destruct (_ || _); [injection H as <- <-; done|].
  destruct (acked_by_all _) as [watermark|] eqn:Ea; [|injection H as <- <-; done].
  unfold drop_through in H. injection H as <- _. set (doomed := filter _ _).
  destruct (li_acked k Hk) as (a & Hacked & Hacc).
  assert (watermark <= a) as Hle.
  { unfold acked_of in Hacked. destruct (w_matched (lk_writer k) !! reader_guid) as [p|] eqn:Ep; [|done]. cbn in Hacked.
    destruct (counted p) eqn:Ecp; [|done]. injection Hacked as <-. by eapply acked_by_all_le. }
  split; cbn; try apply Hk.
  - apply set_cache_ok; [apply Hk|apply foldl_delete_subseteq].
  - etrans; [apply foldl_delete_subseteq|apply Hk].
  - intros m Hm. rewrite foldl_delete_lookup. destruct (li_history k Hk m Hm) as [Hs|?]; [|by right].
    case_decide as Hd; [|by left]. right. apply list_elem_of_filter in Hd as [Hd _]. apply Hacc. lia.
Qed.

(** *** The reader's side *)

Lemma ascending_guids_singleton {A} g (x : A) : ascending_guids ({[g := x]} : gmap Guid A) = [g].
Proof. unfold ascending_guids. by rewrite dom_singleton_L, elements_singleton. Qed.

(** Parts of the reader the invariant does not read. *)
Lemma reader_inv_same written B log r r' :
  reader_inv written B log r → r_config r' = r_config r → r_matched r' = r_matched r → reassembler r' = reassembler r →
  reader_inv written B log r'.
Proof. intros [H1 H2 H3 H4 H5] E1 E2 E3. split; rewrite ?E1, ?E2, ?E3; done. Qed.

(** Answering leaves the invariant. *)
Lemma answer_inv k r messages :
  link_inv k → reader_inv (lk_written k) (not_coming k) (lk_delivered k) r →
  (∀ m, m ∈ messages → guid_prefix m = prefix reader_guid ∧ Forall (answered (accounted k)) (submessages m)) →
  link_inv (answer r messages k).
Proof.
  intros Hk Hr Hm. split; cbn; try apply Hk; [done|]. intros m [?|?]%elem_of_app; [by apply Hk|auto].
Qed.

Lemma encoded_message locators p l o : encoded locators p l = Ok o → ob_message o = mkMessage p l.
Proof. unfold encoded. destruct (encode_check l); [|done]. by intros [= <-]. Qed.

Lemma reader_produce_inv k now r res :
  link_inv k → reader_produce now (lk_reader k) = (r, res) → link_inv (answer r (sent res) k).
Proof.
  intros Hk H. pose proof (li_reader k Hk) as Hr. pose proof (ri_proxy _ _ _ _ Hr) as (p & Em & Hrel & Hg & Ht).
  unfold reader_produce in H. rewrite Em, ascending_guids_singleton in H. cbn [answer_writers] in H.
  unfold answer_one in H. rewrite Em, lookup_singleton_eq in H.
  destruct (_ || _) eqn:Ep.
  { injection H as <- <-. apply answer_inv; [done|done|]. by intros m ?%not_elem_of_nil. }
  destruct (wp_locators p) as [|loc locs].
  { injection H as <- <-. apply answer_inv; [done|done|]. by intros m ?%not_elem_of_nil. }
  destruct (take_acknack _ p) as [p' a] eqn:Eta.
  destruct (take_acknack_acks _ _ _ _ _ _ Eta Ht) as (Hs & Ht' & Erid & _ & Eb & Hle & _).
  assert (reader_inv (lk_written k) (not_coming k) (lk_delivered k)
            (set_r_matched (<[writer_guid := p']> (r_matched (lk_reader k))) (lk_reader k))) as Hr'.
  { rewrite <-(set_reassembler_same (set_r_matched _ _)). apply (reader_inv_proxy _ _ _ _ p); try done. apply Hr. }
  rewrite <-Em in H. destruct (encoded _ _ _) as [o|e] eqn:Eo; cbn [rbind] in H; injection H as <- <-.
  - apply answer_inv; [done|done|]. cbn. intros m ->%list_elem_of_singleton. rewrite (encoded_message _ _ _ _ Eo).
    cbn. rewrite (ri_config _ _ _ _ Hr). split; [done|]. apply Forall_cons. split; [done|]. apply Forall_singleton. cbn.
    rewrite Erid, Eb. split_and!.
    + by rewrite (ri_config _ _ _ _ Hr).
    + unfold sn_next. lia.
    + intros n Hn. destruct Ht as (_ & Hacc & _). apply Hacc. lia.
  - apply answer_inv; [done|done|]. by intros m ?%not_elem_of_nil.
Qed.

(** A [NACK_FRAG] commits the reader to nothing. *)
Definition nack_message (m : Message) : Prop :=
  guid_prefix m = prefix reader_guid ∧
  ∃ p nf, submessages m = [SmInfoDestination p; SmNackFrag nf].

Lemma nack_series_messages g p locators r pending os noted :
  r_config r = rcfg → nack_series g p locators r pending = Ok (os, noted) → Forall (λ o, nack_message (ob_message o)) os.
Proof.
  intros Hc. revert os noted. induction pending as [|n ns IH]; intros os noted H; cbn [nack_series] in H; [by injection H as <- <-|].
  match type of H with rbind ?x _ = _ => destruct x as [out|e] eqn:Eout end; [|done]. cbn [rbind] in H.
  destruct (nack_series g p locators r ns) as [[os' noted']|e]; [|done]. injection H as <- <-.
  apply Forall_app. split; [|by eapply IH]. revert Eout. destruct (if bool_decide _ then _ else None) as [missing|]; [|by intros [= <-]].
  destruct (fragment_set_is_empty missing); [by intros [= <-]|].
  destruct (encoded _ _ _) as [o|e] eqn:Eo; [|done]. intros [= <-]. apply Forall_singleton.
  rewrite (encoded_message _ _ _ _ Eo), Hc. split; [done|]. eauto.
Qed.

Lemma nack_writers_messages gs r os noted :
  r_config r = rcfg → nack_writers gs r = Ok (os, noted) → Forall (λ o, nack_message (ob_message o)) os.
Proof.
  intros Hc. revert os noted. induction gs as [|g gs IH]; intros os noted H; cbn [nack_writers] in H; [by injection H as <- <-|].
  match type of H with rbind ?x _ = _ => destruct x as [[os1 n1]|e] eqn:E1 end; [|done]. cbn [rbind] in H.
  destruct (nack_writers gs r) as [[os2 n2]|e]; [|done]. injection H as <- <-.
  apply Forall_app. split; [|by eapply IH]. destruct (r_matched r !! g) as [p|]; [|by injection E1 as <- <-].
  destruct (negb _); [by injection E1 as <- <-|]. destruct (wp_locators p); [by injection E1 as <- <-|].
  by eapply nack_series_messages.
Qed.

Lemma produce_nack_frags_inv k r res :
  link_inv k → produce_nack_frags (lk_reader k) = (r, res) → link_inv (answer r (sent res) k).
Proof.
  intros Hk H. pose proof (li_reader k Hk) as Hr. unfold produce_nack_frags in H.
  destruct (nack_writers _ _) as [[os noted]|e] eqn:E; injection H as <- <-.
  - apply answer_inv; [done|by eapply reader_inv_same|]. intros m Hm. apply list_elem_of_fmap in Hm as (o & -> & Ho).
    pose proof (nack_writers_messages _ _ _ _ (ri_config _ _ _ _ Hr) E) as Hall. rewrite Forall_forall in Hall.
    destruct (Hall o Ho) as (Hp & p & nf & ->). split; [done|]. repeat constructor.
  - apply answer_inv; [done|done|]. by intros m ?%not_elem_of_nil.
Qed.

(** *** The writer listens *)

Lemma writer_step_ok k i m w :
  writer_ok w → answered (accounted k) m → in_source i = prefix reader_guid →
  (∃ a, acked_of w reader_guid = Some a ∧ ∀ n, n <= a → accounted k n) →
  let w' := writer_step i m w in
  writer_ok w' ∧ w_config w' = w_config w ∧ w_cache w' = w_cache w ∧ last_change w' = last_change w ∧
  ∃ a, acked_of w' reader_guid = Some a ∧ ∀ n, n <= a → accounted k n.
Proof.
  intros Hok Hm Hsrc (a & Ha & Hacc). cbn zeta. destruct m as [| | | | | | |an|nf]; cbn in Hm |- *; try done.
  - split; [done|]. split_and!; try done. by exists a.
  - destruct Hm as (Hid & Hb & Hup). rewrite Hsrc, Hid, guid_eta.
    destruct (on_acknack reader_guid an w) as [w' ap] eqn:E.
    destruct (on_acknack_spec _ _ _ _ _ E Hok Hb) as (Hok' & H1 & H2 & H3 & _ & Hack). cbn [fst].
    split; [done|]. split_and!; try done. eexists; split; [by apply Hack|]. destruct ap; [|done].
    intros n Hn. destruct (decide (n <= a)); [auto|]. apply Hup. lia.
  - destruct (on_nack_frag _ nf w) as [w' ap] eqn:E.
    destruct (on_nack_frag_spec _ _ _ _ _ E Hok) as (Hok' & H1 & H2 & H3 & H4). cbn [fst].
    split; [done|]. split_and!; try done. exists a. split; [by rewrite H4|done].
Qed.

Lemma listen_all_ok k local e l : ∀ i w,
  writer_ok w → Forall (answered (accounted k)) l → in_source i = prefix reader_guid →
  (∃ a, acked_of w reader_guid = Some a ∧ ∀ n, n <= a → accounted k n) →
  let w' := listen_all local e l i w in
  writer_ok w' ∧ w_config w' = w_config w ∧ w_cache w' = w_cache w ∧ last_change w' = last_change w ∧
  ∃ a, acked_of w' reader_guid = Some a ∧ ∀ n, n <= a → accounted k n.
Proof.
  cbn zeta. induction l as [|m l IH]; intros i w Hok Hl Hsrc Ha; cbn [listen_all]; [done|].
  apply Forall_cons in Hl as [Hm Hl].
  assert (in_source (interpret local m i) = prefix reader_guid) as Hsrc' by (destruct m; cbn in Hm |- *; done).
  destruct (_ && _); [|by apply IH].
  destruct (writer_step_ok k i m w Hok Hm Hsrc Ha) as (Hok1 & C1 & C2 & C3 & Ha1).
  destruct (IH (interpret local m i) (writer_step i m w) Hok1 Hl Hsrc' Ha1) as (Hok2 & D1 & D2 & D3 & Ha2).
  split; [done|]. split_and!; congruence || done.
Qed.

Lemma listen_inv k m : link_inv k → m ∈ lk_back k → link_inv (with_writer (listen m (lk_writer k)) k).
Proof.
  intros Hk Hm. destruct (li_back k Hk m Hm) as [Hp Hall]. unfold listen. destruct (N.eqb _ _); [by destruct k|].
  match goal with |- link_inv (with_writer ?w _) => set (w' := w) end.
  destruct (listen_all_ok k (prefix (wc_guid (w_config (lk_writer k)))) (entity_id (wc_guid (w_config (lk_writer k)))) (submessages m)
              (mkInterpreter (guid_prefix m) None true) (lk_writer k) (li_writer k Hk) Hall Hp (li_acked k Hk))
    as (Hok & C1 & C2 & C3 & Ha). fold w' in Hok, C1, C2, C3, Ha. clearbody w'.
  split; cbn; rewrite ?C1, ?C2, ?C3; try apply Hk; done.
Qed.

(** Every step keeps the invariant. *)
Lemma link_step_inv forgets k k' : link_inv k → step forgets k k' → link_inv k'.
Proof.
  intros Hk Hstep. destruct Hstep as [k payload ts kind instance now w n Hmax H|k n w d _ H|k now w gone H|k w n H
    |k now w r H|k now lv w r H|k m now r new Hm H|k now r res H|k r res H|k m Hm|k r s H|k r l H].
  - by apply write_inv.
  - injection H as <- <-. apply drop_history_inv; [done|]. cbn. apply delete_subseteq.
  - unfold writer_expire in H. destruct (expire now _) as [h rem] eqn:E. injection H as <- <-.
    apply drop_history_inv; [done|]. by apply expire_subseteq in E as [? _].
  - by eapply reclaim_inv.
  - destruct (produce_spec _ _ _ _ H (li_writer k Hk)) as (Hok & Hs & Hos).
    destruct r as [os|e]; [|apply (say_inv k w []); auto]. apply say_inv; auto.
  - destruct (produce_heartbeat_spec _ _ _ _ _ H (li_writer k Hk)) as (Hok & Hs & Hos).
    destruct r as [os|e]; [|apply (say_inv k w []); auto]. apply say_inv; auto.
  - destruct (li_forth k Hk m Hm) as [Hp Hall].
    pose proof (hear_ok _ _ _ _ _ _ _ _ (li_keyed k Hk) (li_reader k Hk) Hp Hall H) as Hr.
    assert (∀ n, accounted k n → accounted (after_hearing r new k) n) as HA.
    { intros n [?|?]; [by left|right]. apply numbers_of_app. by left. }
    split; cbn; try apply Hk.
    + intros n Hn. destruct (li_history k Hk n Hn); [by left|right; auto].
    + destruct (li_acked k Hk) as (a & H1 & H2). exists a. auto.
    + exact Hr.
    + intros x Hx. eapply forth_weaken; [done|exact HA|]. by apply Hk.
    + intros x Hx. eapply back_weaken; [exact HA|]. by apply Hk.
  - by eapply reader_produce_inv.
  - by eapply produce_nack_frags_inv.
  - by apply listen_inv.
  - apply answer_inv; [done| |by intros m ?%not_elem_of_nil]. unfold take_one in H.
    destruct (ready (lk_reader k)); injection H as <- <-; [apply Hk|]. eapply reader_inv_same; [apply Hk|done..].
  - apply answer_inv; [done| |by intros m ?%not_elem_of_nil]. injection H as <- <-.
    eapply reader_inv_same; [apply Hk|done..].
Qed.

End Invariant.

(** ** The start *)

(** A writer that has not met the reader. *)
Record ready_writer (w : RtpsWriter) : Prop := {
  rw_ok : writer_ok w;
  rw_config : w_config w = cfg;
  rw_unmatched : w_matched w !! reader_guid = None;
}.

Lemma joined_at_bounds w : writer_ok w → 0 <= joined_at w <= last_change w.
Proof. intros (_ & Hl & _). unfold joined_at. destruct (wc_replays_history _); lia. Qed.

Lemma start_inv w rl wl : ready_writer w → link_inv (joined_at w) (start w rl wl).
Proof.
  intros [Hok Hc Hm]. pose proof (joined_at_bounds w Hok) as Hj. pose proof Hok as (Hk & Hl & Hmm).
  set (p0 := reader_proxy_new reader_guid rl true).
  set (p := if replays_history_to p0 w then p0 else skip_history_through (last_change w) p0).
  assert (proxy_ok p ∧ rp_guid p = reader_guid ∧ counted p = true ∧ rp_acked_through p = joined_at w) as (Hp & Eg & Ecnt & Ea).
  { pose proof (proxy_new_ok reader_guid rl true) as H0. fold p0 in H0. unfold p, replays_history_to, joined_at. cbn.
    destruct (wc_replays_history (w_config w)); cbn [andb]; [done|].
    split; [apply skip_history_ok; [done|lia]|]. destruct (skip_history_same (last_change w) p0) as [Hs Ha].
    split; [apply Hs|]. split; [by rewrite (same_reader_counted _ _ Hs)|]. rewrite Ha. cbn. unfold SN_ZERO. lia. }
  assert (match_reader p0 w = set_w_matched (<[reader_guid := p]> (w_matched w)) w) as Ew.
  { unfold match_reader. change (rp_guid p0) with reader_guid at 1. rewrite Hm. cbv zeta. fold p. by rewrite Eg. }
  clearbody p. unfold start. fold p0. rewrite Ew. split; cbn.
  - split; [done|]. split; [done|]. cbn. intros g q. destruct (decide (g = reader_guid)) as [->|Hne].
    + rewrite lookup_insert_eq. by intros [= <-].
    + rewrite lookup_insert_ne by done. apply Hmm.
  - done.
  - intros n ch Hn. by apply Hk.
  - intros n ch Hn. destruct (Hk _ _ Hn). lia.
  - done.
  - intros n Hn. destruct (changes (w_cache w) !! n) as [ch|] eqn:E; [left; eauto|right; left; right]. cbn -[elem_of].
    apply elem_of_difference. rewrite not_elem_of_dom, elem_of_list_to_set, elem_of_seqZ. split; [lia|done].
  - exists (joined_at w). unfold acked_of. cbn. rewrite lookup_insert_eq. cbn. rewrite Ecnt, Ea. split; [done|].
    intros n Hn. left; left. lia.
  - split; try done.
    + eexists. unfold match_writer. cbn. rewrite insert_empty. split_and!; try done. unfold tracks.
      cbn [wp_acked_through wp_received wp_irrelevant writer_proxy_new]. split; [unfold SN_ZERO, i64_max; lia|]. split_and!.
      * intros n Hn. left; left. unfold SN_ZERO in Hn. lia.
      * by intros n ?%not_elem_of_empty.
      * by intros n ?%not_elem_of_empty.
      * by intros n ?%not_elem_of_nil.
    + apply NoDup_nil_2.
    + by intros s ?%not_elem_of_nil.
  - by intros m ?%not_elem_of_nil.
  - by intros m ?%not_elem_of_nil.
Qed.

Lemma link_reachable_inv forgets w0 k : ready_writer w0 → reachable forgets w0 k → link_inv (joined_at w0) k.
Proof.
  intros Hw. induction 1 as [rl wl|k k' _ IH Hstep]; [by apply start_inv|].
  eapply link_step_inv; [|exact IH|exact Hstep]. apply joined_at_bounds, Hw.
Qed.

(** ** The samples that wait *)











(** ** What holds of every run *)


(** C13. Every number the writer believes acknowledged, and every number its
    history no longer holds, was handed to the application, was given up by
    the history policy, or predates the reader: in particular reclaiming
    acknowledged samples loses nothing. *)
Theorem acknowledged_is_delivered forgets w0 k a (n : SequenceNumber) :
  ready_writer w0 → reachable forgets w0 k → acked_of (lk_writer k) reader_guid = Some a →
  joined_at w0 < n → n <= a ∨ (n <= last_change (lk_writer k) ∧ changes (w_cache (lk_writer k)) !! n = None) →
  n ∈ lk_lost k ∨ n ∈ numbers_of (lk_delivered k).
Proof.
  intros Hw Hr Ha Hj Hn. pose proof (link_reachable_inv _ _ _ Hw Hr) as Hk.
  assert (accounted (joined_at w0) k n) as [[?|?]|?]; [|lia|by left|by right].
  destruct Hn as [Hn|[Hl Hnone]]; [|by apply absent_accounted].
  destruct (li_acked _ _ Hk) as (a' & Ha' & Hacc). rewrite Ha in Ha'. injection Ha' as <-. auto.
Qed.

(** *** A history that keeps all *)

Definition keeps_all (w : RtpsWriter) : Prop :=
  hq_kind (history (w_cache w)) = KeepAll ∧ lifespan (w_cache w) = None.

Lemma given_up_same m : given_up m m = ∅.
Proof. unfold given_up. apply difference_diag_L. Qed.

Lemma write_keeps_all payload ts kind instance now w w' n :
  write_change payload ts kind instance now w = (w', Ok n) → keeps_all w → changes (w_cache w) !! n = None →
  keeps_all w' ∧ changes (w_cache w') = <[n := mkChange n kind instance payload ts now]> (changes (w_cache w)).
Proof.
  unfold write_change. intros H [Hh Hl] Hnew. destruct (N.ltb _ _); [done|].
  destruct (cache_insert _ _) as [[h ev]|e] eqn:Ei; [|done]. injection H as <- <-.
  destruct (cache_insert_subseteq _ _ _ _ Ei) as (_ & E1 & _ & E2).
  destruct (cache_insert_keep_all (mkChange (sn_next (last_change w)) kind instance payload ts now) _ _ _ Hh Hnew Ei) as [E3 _]. split; [|done]. split; cbn; [by rewrite E1|by rewrite E2].
Qed.

(** Such a history loses nothing unless the application drops a sample. *)
Lemma reachable_keeps_all w0 k :
  ready_writer w0 → keeps_all w0 → reachable false w0 k →
  keeps_all (lk_writer k) ∧ lk_lost k = list_to_set (seqZ 1 (last_change w0)) ∖ dom (changes (w_cache w0)).
Proof.
  intros Hw Hall Hr. induction Hr as [rl wl|k k' Hr [IH1 IH2] Hstep].
  { cbn. split; [|done]. unfold match_reader. by case_match. }
  pose proof (link_reachable_inv _ _ _ Hw Hr) as Hk. pose proof (li_writer _ _ Hk) as Hok.
  destruct Hstep as [k payload ts kind instance now w n Hmax H|k n w d Hf H|k now w gone H|k w n H
    |k now w r H|k now lv w r H|k m now r new Hm H|k now r res H|k r res H|k m Hm|k r s H|k r l H]; cbn; try done.
  - pose proof (write_change_spec _ _ _ _ _ _ _ _ H Hok Hmax) as (_ & En & _).
    assert (changes (w_cache (lk_writer k)) !! n = None) as Hnew.
    { apply eq_None_not_Some. intros [c Hc]. destruct Hok as (Hkey & _). destruct (Hkey _ _ Hc). lia. }
    destruct (write_keeps_all _ _ _ _ _ _ _ _ H IH1 Hnew) as [H1 ->]. split; [done|].
    by rewrite given_up_same, union_empty_r_L.
  - unfold writer_expire in H. destruct (expire now _) as [h rem] eqn:E. injection H as <- <-.
    destruct (expire_subseteq _ _ _ _ E) as (_ & _ & _ & Hsame). rewrite Hsame by apply IH1. split; [done|].
    cbn. by rewrite given_up_same, union_empty_r_L.
  - split; [|done]. unfold reclaim in H. destruct (_ || _); [by injection H as <- <-|].
    destruct (acked_by_all _); [|by injection H as <- <-]. by injection H as <- _.
  - destruct (produce_spec _ _ _ _ H Hok) as (_ & (_ & E & _) & _). unfold keeps_all. by rewrite E.
  - destruct (produce_heartbeat_spec _ _ _ _ _ H Hok) as (_ & (_ & E & _) & _). unfold keeps_all. by rewrite E.
  - destruct (li_back _ _ Hk m Hm) as [Hp Hallm]. unfold listen. destruct (N.eqb _ _); [done|].
    destruct (listen_all_ok (joined_at w0) k (prefix (wc_guid (w_config (lk_writer k)))) (entity_id (wc_guid (w_config (lk_writer k))))
                (submessages m) (mkInterpreter (guid_prefix m) None true) (lk_writer k) Hok Hallm Hp (li_acked _ _ Hk))
      as (_ & _ & E & _). unfold keeps_all. by rewrite E.
Qed.

(** C14. Under [KEEP_ALL] without a lifespan, what a reliable reader has
    acknowledged was all handed to its application: every number written
    after it joined, and every one held when it joined a writer that replays
    its history. *)
Theorem keep_all_delivers_everything w0 k a (n : SequenceNumber) :
  ready_writer w0 → keeps_all w0 → reachable false w0 k → acked_of (lk_writer k) reader_guid = Some a →
  joined_at w0 < n <= a → last_change w0 < n ∨ is_Some (changes (w_cache w0) !! n) →
  ∃ s, s ∈ lk_delivered k ∧ sm_sequence_number s = n ∧ exact (lk_written k) s.
Proof.
  intros Hw Hall Hr Ha [Hj Hn] Hheld. destruct (reachable_keeps_all _ _ Hw Hall Hr) as [_ Hlost].
  pose proof (link_reachable_inv _ _ _ Hw Hr) as Hk. destruct (li_acked _ _ Hk) as (a' & Ha' & Hacc).
  rewrite Ha in Ha'. injection Ha' as <-. destruct (Hacc n Hn) as [[?|Hin]|Hin]; [lia| |].
  - exfalso. rewrite Hlost in Hin. apply elem_of_difference in Hin as [Hin Hout].
    rewrite elem_of_list_to_set, elem_of_seqZ in Hin. apply not_elem_of_dom in Hout.
    destruct Hheld as [?|[c Hc]]; [lia|]. by rewrite Hc in Hout.
  - apply list_elem_of_fmap in Hin as (s & -> & Hs). exists s. split_and!; [done|done|].
    destruct (li_reader _ _ Hk) as [_ _ _ Hex _]. auto.
Qed.

End Endpoints.
