(* ===== verification/RtpsRepair.v ===== *)
(** * RTPS: repairs are answered

    What one [ACKNACK] asks for is in the next datagrams of the writer: a held
    sample as [DATA] or as its whole series of [DATA_FRAG], a number that is
    gone in a [GAP].  The proofs are about the packing loop of
    [RtpsWriter.datagrams_for]: nothing handed to the builder is dropped. *)

From Stdlib Require Import Lia.
From stdpp Require Import base tactics gmap strings numbers list sorting.
From S2P Require Import Prelude Crc32c Text RtpsTypes RtpsCache RtpsProxy RtpsFragment RtpsMessage RtpsWriter.

Open Scope Z_scope.

(** ** Nothing is dropped while packing *)

Definition all_submessages (os : list Outbound) : list Submessage := mjoin ((λ o, submessages (ob_message o)) <$> os).

Lemma all_submessages_app os ps : all_submessages (os ++ ps) = all_submessages os ++ all_submessages ps.
Proof. unfold all_submessages. by rewrite fmap_app, join_app. Qed.

Section Packed.

Context (c : WriterConfig) (t : Target).

(** The builder starts with the destination, as every builder here does. *)
Definition primed (b : MessageBuilder) : Prop := ∃ rest, mb_submessages b = SmInfoDestination (tg_reader_prefix t) :: rest.

(** In a datagram already, or in the one being built. *)
Definition packed (m : Submessage) (pk : Packing) : Prop :=
  m ∈ all_submessages (pk_outbound pk) ∨ m ∈ mb_submessages (pk_builder pk).

(** A step that keeps the builder primed and drops nothing. *)
Definition grows (pk pk' : Packing) : Prop :=
  (primed (pk_builder pk) → primed (pk_builder pk')) ∧ ∀ m, packed m pk → packed m pk'.

#[global] Instance grows_preorder : PreOrder grows.
Proof.
  split; [by split|]. intros x y z [H1 H2] [H3 H4]. split; auto.
Qed.

Lemma builder_push_grows m pk : grows pk (with_builder (builder_push m (pk_builder pk)) pk).
Proof.
  split.
  - intros [rest E]. exists (rest ++ [m]). cbn. by rewrite E.
  - intros x [?|?]; [by left|right]. cbn. apply elem_of_app. by left.
Qed.

Lemma builder_push_packed m pk : packed m (with_builder (builder_push m (pk_builder pk)) pk).
Proof. right. cbn. apply elem_of_app. right. by apply list_elem_of_singleton. Qed.

Lemma flush_out_grows pk pk' : flush_out c t pk = Ok pk' → grows pk pk'.
Proof.
  unfold flush_out, flush. intros H. destruct (Nat.leb _ _); [by injection H as <-; destruct pk|].
  unfold encoded in H. destruct (encode_check _); [|done]. injection H as <-. split; [by intros _; exists []|].
  intros m [Hm|Hm]; left; cbn [pk_outbound]; rewrite all_submessages_app; apply elem_of_app; [by left|right].
  unfold all_submessages. cbn. by rewrite app_nil_r.
Qed.

(** Of a flushed, primed builder only the destination is left. *)
Lemma flush_out_all pk pk' m :
  flush_out c t pk = Ok pk' → primed (pk_builder pk) → packed m pk → m ≠ SmInfoDestination (tg_reader_prefix t) →
  m ∈ all_submessages (pk_outbound pk').
Proof.
  intros H [rest Erest] Hm Hne. pose proof (flush_out_grows _ _ H) as [_ Hg]. destruct (Hg m Hm) as [?|Hb]; [done|].
  exfalso. revert H Hb. unfold flush_out, flush. rewrite Erest. destruct rest as [|x rest]; cbn [length Nat.leb].
  - intros [= <-]. cbn. rewrite Erest. by intros ->%list_elem_of_singleton.
  - unfold encoded. destruct (encode_check _); [|done]. intros [= <-]. cbn. by intros ->%list_elem_of_singleton.
Qed.

Lemma with_timestamp_grows ts pk : grows pk (with_timestamp ts pk).
Proof. done. Qed.

Lemma try_push_grows m pk b taken :
  try_push m (pk_builder pk) = (b, taken) → grows pk (with_builder b pk) ∧ (taken = true → packed m (with_builder b pk)).
Proof.
  unfold try_push. destruct (fits m (pk_builder pk)); intros [= <- <-].
  - split; [apply builder_push_grows|]. intros _. apply builder_push_packed.
  - by split; [destruct pk|].
Qed.

Context (change : CacheChange).

Lemma push_timestamp_grows pk pk' : push_timestamp c t change pk = Ok pk' → grows pk pk'.
Proof.
  unfold push_timestamp. destruct (cc_source_timestamp change) as [ts|]; [|by intros [= <-]].
  case_bool_decide as Hts; [by intros [= <-]|]. destruct (try_push _ _) as [b taken] eqn:E. intros H.
  destruct (try_push_grows _ _ _ _ E) as [Hg _]. destruct taken; cbn [rbind] in H.
  - injection H as <-. etrans; [exact Hg|apply with_timestamp_grows].
  - destruct (flush_out c t pk) as [pk1|e] eqn:E1; [|done]. injection H as <-.
    etrans; [by eapply flush_out_grows|]. etrans; [apply builder_push_grows|apply with_timestamp_grows].
Qed.

Definition data_of : Submessage := SmData (data_for (entity_id (wc_guid c)) change (tg_reader_id t)).

Lemma push_data_grows pk pk' : push_data c t change pk = Ok pk' → grows pk pk' ∧ packed data_of pk'.
Proof.
  unfold push_data. fold data_of. destruct (try_push _ _) as [b taken] eqn:E. intros H.
  destruct (try_push_grows _ _ _ _ E) as [Hg Hp]. destruct taken.
  - injection H as <-. auto.
  - destruct (flush_out c t pk) as [pk1|e] eqn:E1; [|done]. cbn [rbind] in H. injection H as <-.
    split; [|apply builder_push_packed].
    etrans; [by eapply flush_out_grows|]. etrans; [|apply builder_push_grows].
    destruct (cc_source_timestamp change); [|done].
    etrans; [|apply with_timestamp_grows]. apply (builder_push_grows _ (with_timestamp None pk1)).
Qed.

Lemma frag_messages_all ts fs os f :
  frag_messages c t ts fs = Ok os → f ∈ fs → SmDataFrag f ∈ all_submessages os.
Proof.
  revert os. induction fs as [|g fs IH]; intros os H Hf; [by apply not_elem_of_nil in Hf|]. cbn [frag_messages] in H.
  unfold encoded in H. destruct (encode_check _); [|done]. cbn [rbind] in H.
  destruct (frag_messages c t ts fs) as [rest|e]; [|done]. injection H as <-.
  change (mkOutbound ?l ?m :: rest) with ([mkOutbound l m] ++ rest). rewrite all_submessages_app. apply elem_of_app.
  apply elem_of_cons in Hf as [->|Hf]; [left|right; by apply IH].
  unfold all_submessages. cbn. rewrite app_nil_r. right. apply elem_of_app. right. by apply list_elem_of_singleton.
Qed.

(** What a change becomes in the datagrams. *)
Definition conveyed (P : Submessage → Prop) : Prop :=
  if N.ltb (effective_threshold c) (olen (cc_payload change))
  then ∀ fs f, fragments_of c (tg_reader_id t) change = Ok fs → f ∈ fs → P (SmDataFrag f)
  else P data_of.

Lemma pack_one_grows pk pk' : pack_one c t change pk = Ok pk' → grows pk pk' ∧ conveyed (λ m, packed m pk').
Proof.
  unfold pack_one, conveyed. destruct (N.ltb _ _); intros H.
  - destruct (flush_out c t pk) as [pk1|e] eqn:E1; [|done]. cbn [rbind] in H. unfold fragment_datagrams in H.
    fold (fragments_of c (tg_reader_id t) change) in H.
    destruct (fragments_of c (tg_reader_id t) change) as [fs|e] eqn:Ef; [|done]. cbn [rbind] in H.
    destruct (frag_messages c t _ fs) as [os|e] eqn:Eo; [|done]. injection H as <-. split.
    + etrans; [by eapply flush_out_grows|]. split; [done|]. intros m [?|?]; [left|by right]. cbn [pk_outbound].
      rewrite all_submessages_app. apply elem_of_app. by left.
    + intros fs' f [= <-] Hf. left. cbn [pk_outbound]. rewrite all_submessages_app. apply elem_of_app. right. by eapply frag_messages_all.
  - destruct (push_timestamp c t change pk) as [pk1|e] eqn:E1; [|done]. cbn [rbind] in H.
    destruct (push_data c t change pk1) as [pk2|e] eqn:E2; [|done]. cbn [rbind] in H.
    destruct (push_data_grows _ _ E2) as [G2 P2]. pose proof (transitivity (push_timestamp_grows _ _ E1) G2) as G12.
    destruct (_ && _); [|by injection H as <-].
    destruct (flush_out c t pk2) as [pk3|e] eqn:E3; [|done]. injection H as <-.
    pose proof (flush_out_grows _ _ E3) as G3. split; [by etrans; [exact G12|exact G3]|]. by apply G3.
Qed.

End Packed.

Lemma conveyed_impl c t ch (P Q : Submessage → Prop) :
  (∀ m, (∃ d, m = SmData d) ∨ (∃ f, m = SmDataFrag f) → P m → Q m) → conveyed c t ch P → conveyed c t ch Q.
Proof. unfold conveyed. intros H. destruct (N.ltb _ _); [|apply H; left; by eexists]. intros Hf fs f E1 E2. apply H; eauto. Qed.

Lemma pack_all_conveys c t h numbers pk pk' :
  pack_all c t h numbers pk = Ok pk' →
  grows t pk pk' ∧ ∀ n ch, n ∈ numbers → changes h !! n = Some ch → conveyed c t ch (λ m, packed m pk').
Proof.
  revert pk. induction numbers as [|n ns IH]; intros pk H; cbn [pack_all] in H.
  { injection H as <-. split; [done|]. by intros n ch ?%not_elem_of_nil. }
  unfold cache_get in H. destruct (changes h !! n) as [c1|] eqn:E.
  - destruct (pack_one c t c1 pk) as [pk1|e] eqn:E1; [|done]. cbn [rbind] in H. destruct (IH _ H) as [G2 C2].
    destruct (pack_one_grows _ _ _ _ _ E1) as [G1 C1]. split; [by etrans|].
    intros m ch [->|Hm]%elem_of_cons Hch; [|by eapply C2]. rewrite E in Hch. injection Hch as <-.
    eapply conveyed_impl; [|exact C1]. intros x _. apply G2.
  - destruct (IH _ H) as [G2 C2]. split; [done|]. intros m ch [->|Hm]%elem_of_cons Hch; [congruence|by eapply C2].
Qed.

(** Every held sample of the list is in the datagrams. *)
Lemma datagrams_for_conveys c t h numbers os n ch :
  datagrams_for c t h numbers = Ok os → n ∈ numbers → changes h !! n = Some ch →
  conveyed c t ch (λ m, m ∈ all_submessages os).
Proof.
  unfold datagrams_for. intros H Hn Hch. destruct (pack_all _ _ _ _ _) as [pk|e] eqn:E; [|done]. cbn [rbind] in H.
  destruct (flush_out c t pk) as [pk1|e] eqn:E1; [|done]. injection H as <-.
  destruct (pack_all_conveys _ _ _ _ _ _ E) as [[Hprimed _] Hconv].
  eapply conveyed_impl; [|by eapply Hconv]. intros m Hm Hp. eapply flush_out_all; [done| |done|].
  - apply Hprimed. by exists [].
  - destruct Hm as [[d ->]|[f ->]]; done.
Qed.

(** ** Packing never fails *)

(** A configuration whose samples can always be cut: fragments of at least 64
    octets and datagrams the network layer takes. *)
Definition sound_config (c : WriterConfig) : Prop :=
  (64 <= effective_fragment_size c)%N ∧ (effective_budget c <= MAX_UDP_PAYLOAD)%N.

(** What [write_change] admits. *)
Definition payloads_bounded (w : RtpsWriter) : Prop :=
  ∀ n ch, changes (w_cache w) !! n = Some ch → (olen (cc_payload ch) <= MAX_REASSEMBLY_SAMPLE)%N.

(** A submessage that may stand before another. *)
Definition in_front (m : Submessage) : Prop := check_not_last m = Ok tt.

Lemma encode_check_in_front l m : Forall in_front l → encode_check (l ++ [m]) = Ok tt.
Proof.
  induction 1 as [|x l Hx Hl IH]; [done|]. cbn [app encode_check]. rewrite Hx. cbn [rbind].
  destruct (l ++ [m]) as [|y r] eqn:E; [by destruct l|]. exact IH.
Qed.

Lemma fragment_sample_total reader_id writer_id n payload fragment_size budget :
  (64 <= fragment_size)%N → (olen payload <= MAX_REASSEMBLY_SAMPLE)%N →
  ∃ fs, fragment_sample reader_id writer_id n payload fragment_size budget = Ok fs.
Proof.
  intros Hf Hl. unfold fragment_sample, plan_new, from_declared, MAX_REASSEMBLY_SAMPLE in *.
  rewrite (proj2 (N.ltb_ge u32_max (olen payload))) by (unfold u32_max; lia).
  rewrite (proj2 (N.ltb_ge 67108864 (olen payload))) by lia. rewrite (proj2 (N.eqb_neq fragment_size 0)) by lia.
  assert (div_ceil (olen payload) fragment_size <= MAX_FRAGMENTS)%N as Hd.
  { unfold div_ceil, MAX_FRAGMENTS. apply N.lt_succ_r, N.Div0.div_lt_upper_bound. nia. }
  rewrite (proj2 (N.ltb_ge _ _) Hd). cbn [rbind]. set (p := mkPlan _ _ _).
  assert (plan_ok p) as Hp.
  { apply (from_declared_ok (olen payload) fragment_size UNKNOWN_GUID SN_FIRST p). unfold from_declared, MAX_REASSEMBLY_SAMPLE.
    rewrite (proj2 (N.ltb_ge 67108864 (olen payload))) by lia. rewrite (proj2 (N.eqb_neq fragment_size 0)) by lia.
    by rewrite (proj2 (N.ltb_ge _ _) Hd). }
  destruct (fragment_loop_ok (S (N.to_nat (total_fragments p))) reader_id writer_id n payload p
              (fragments_per_datagram p budget) 1) as (fs & -> & _); [done|apply per_datagram_bounds|done|lia|by exists fs].
Qed.

Section Total.

Context (c : WriterConfig) (t : Target) (Hc : sound_config c).

(** Everything in the builder may stand before what comes next. *)
Definition tidy (pk : Packing) : Prop := primed t (pk_builder pk) ∧ Forall in_front (mb_submessages (pk_builder pk)).

Lemma flush_out_total pk l m :
  mb_submessages (pk_builder pk) = l ++ [m] → Forall in_front l → primed t (pk_builder pk) →
  ∃ pk', flush_out c t pk = Ok pk' ∧ (Nat.ltb 1 (length (l ++ [m])) = true ∨ in_front m → tidy pk').
Proof.
  intros E Hl Hp. unfold flush_out, flush, encoded. rewrite E. destruct (Nat.leb_spec (length (l ++ [m])) 1) as [Hle|Hgt].
  - eexists. split; [done|]. intros [?%Nat.ltb_lt|Hm]; [lia|]. split; cbn; [done|]. rewrite E. apply Forall_app. by split; [|apply Forall_singleton].
  - rewrite encode_check_in_front by done. eexists. split; [done|]. intros _. split; [by exists []|]. by apply Forall_singleton.
Qed.

Lemma flush_out_tidy pk : tidy pk → ∃ pk', flush_out c t pk = Ok pk' ∧ tidy pk'.
Proof.
  intros [Hp Hf]. destruct (exists_last (l := mb_submessages (pk_builder pk))) as (l & m & E).
  { destruct Hp as [rest ->]. done. }
  rewrite E in Hf. apply Forall_app in Hf as [Hl Hm].
  destruct (flush_out_total pk l m E Hl Hp) as (pk' & E' & H). exists pk'. split; [done|]. apply H. right. by inversion Hm.
Qed.

Lemma push_tidy m pk : in_front m → tidy pk → tidy (with_builder (builder_push m (pk_builder pk)) pk).
Proof.
  intros Hm [[rest E] Hf]. split; [exists (rest ++ [m]); cbn; by rewrite E|]. cbn [with_builder pk_builder builder_push mb_submessages]. apply Forall_app. by split; [|apply Forall_singleton].
Qed.

Lemma push_timestamp_total change pk : tidy pk → ∃ pk', push_timestamp c t change pk = Ok pk' ∧ tidy pk'.
Proof.
  intros Ht. unfold push_timestamp. destruct (cc_source_timestamp change) as [ts|]; [|by exists pk].
  case_bool_decide; [by exists pk|]. unfold try_push. destruct (fits _ _); cbn [rbind].
  - eexists. split; [done|]. by apply (push_tidy (SmInfoTimestamp (Some ts)) pk).
  - destruct (flush_out_tidy pk Ht) as (pk1 & -> & H1). cbn [rbind]. eexists. split; [done|]. by apply (push_tidy (SmInfoTimestamp (Some ts)) pk1).
Qed.

(** The sample goes last. *)
Lemma push_data_total change pk :
  tidy pk → ∃ pk' l, push_data c t change pk = Ok pk' ∧ primed t (pk_builder pk') ∧ l ≠ [] ∧
    mb_submessages (pk_builder pk') = l ++ [data_of c t change] ∧ Forall in_front l.
Proof.
  intros Ht. unfold push_data. fold (data_of c t change).
  assert (∀ pk0, tidy pk0 → ∃ l, let pk' := with_builder (builder_push (data_of c t change) (pk_builder pk0)) pk0 in
            primed t (pk_builder pk') ∧ l ≠ [] ∧ mb_submessages (pk_builder pk') = l ++ [data_of c t change] ∧ Forall in_front l) as Hpush.
  { intros pk0 [[rest E] Hf]. exists (mb_submessages (pk_builder pk0)). cbn. split_and!; [|by rewrite E|done|done].
    exists (rest ++ [data_of c t change]). cbn. by rewrite E. }
  unfold try_push. destruct (fits _ _).
  - destruct (Hpush pk Ht) as [l Hl]. eexists _, l. split; [done|exact Hl].
  - destruct (flush_out_tidy pk Ht) as (pk1 & -> & H1). cbn [rbind].
    match goal with |- context [Ok (with_builder (builder_push _ (pk_builder ?x)) _)] => set (pk2 := x) end.
    assert (tidy pk2) as H2.
    { unfold pk2. destruct (cc_source_timestamp change) as [ts|]; [|done]. by apply (push_tidy (SmInfoTimestamp (Some ts)) (with_timestamp None pk1)). }
    destruct (Hpush pk2 H2) as [l Hl]. eexists _, l. split; [done|exact Hl].
Qed.

Lemma data_in_front change :
  (olen (cc_payload change) <= effective_threshold c)%N → must_end_the_datagram c t change = false → in_front (data_of c t change).
Proof.
  intros Hlen Hend. apply negb_false_iff in Hend. unfold in_front, check_not_last. cbn [data_of body_len].
  rewrite Hend. cbn [negb].
  assert (20 <= data_body_len (data_for (entity_id (wc_guid c)) change (tg_reader_id t)) <= 20 + 12 + olen (cc_payload change))%N as Hb.
  { assert (parameters_len [(STATUS_INFO, status_info NotAliveDisposed)] = 12 ∧
            parameters_len [(STATUS_INFO, status_info NotAliveUnregistered)] = 12)%N as [E1 E2] by done.
    unfold data_body_len, DATA_PRELUDE_LEN, data_for, status_info_qos. cbn [da_inline_qos da_payload].
    destruct (cc_kind change); cbn [carries_data payload_octets]; [lia|rewrite E1|rewrite E2];
      destruct (cc_payload change); cbn [payload_octets]; lia. }
  unfold data_of. rewrite (proj2 (N.eqb_neq _ 0)) by lia. cbn [andb].
  unfold sound_config, effective_threshold, DATAGRAM_OVERHEAD, MAX_UDP_PAYLOAD, MAX_OCTETS_TO_NEXT_HEADER in *.
  rewrite (proj2 (N.leb_le _ _)); [done|]. destruct Hc as [_ Hb2]. destruct (N.ltb_spec (effective_budget c - (20 + 16 + 12 + 24)) (fragmentation_threshold c)); lia.
Qed.

Lemma frag_messages_total ts fs : ∃ os, frag_messages c t ts fs = Ok os.
Proof.
  induction fs as [|f fs [os IH]]; cbn [frag_messages]; [by exists []|].
  unfold encoded. destruct ts as [ts|]; cbn [app encode_check check_not_last body_len]; cbn; rewrite IH; by eexists.
Qed.

Lemma pack_one_total change pk :
  (olen (cc_payload change) <= MAX_REASSEMBLY_SAMPLE)%N → tidy pk → ∃ pk', pack_one c t change pk = Ok pk' ∧ tidy pk'.
Proof.
  intros Hlen Ht. unfold pack_one. destruct (N.ltb_spec (effective_threshold c) (olen (cc_payload change))).
  - destruct (flush_out_tidy pk Ht) as (pk1 & -> & H1). cbn [rbind]. unfold fragment_datagrams.
    edestruct fragment_sample_total as [fs ->]; [apply Hc|done|]. cbn [rbind].
    destruct (frag_messages_total (cc_source_timestamp change) fs) as [os ->]. cbn [rbind]. by eexists.
  - destruct (push_timestamp_total change pk Ht) as (pk1 & -> & H1). cbn [rbind].
    destruct (push_data_total change pk1 H1) as (pk2 & l & -> & Hp & Hne & El & Hl). cbn [rbind].
    assert (Nat.ltb 1 (length (l ++ [data_of c t change])) = true) as Hlt.
    { apply Nat.ltb_lt. rewrite length_app. cbn. destruct l; [done|cbn; lia]. }
    rewrite El, Hlt, andb_true_r. destruct (must_end_the_datagram c t change) eqn:Ee.
    + destruct (flush_out_total pk2 l _ El Hl Hp) as (pk3 & -> & H3). cbn [rbind]. eexists. split; [done|]. apply H3. by left.
    + eexists. split; [done|]. split; [done|]. rewrite El. apply Forall_app. split; [done|]. by apply Forall_singleton, data_in_front.
Qed.

Lemma datagrams_for_total h numbers :
  (∀ n ch, changes h !! n = Some ch → (olen (cc_payload ch) <= MAX_REASSEMBLY_SAMPLE)%N) →
  ∃ os, datagrams_for c t h numbers = Ok os.
Proof.
  intros Hb. unfold datagrams_for.
  assert (∀ pk, tidy pk → ∃ pk', pack_all c t h numbers pk = Ok pk' ∧ tidy pk') as Hall.
  { induction numbers as [|n ns IH]; intros pk Ht; cbn [pack_all]; [by exists pk|]. unfold cache_get.
    destruct (changes h !! n) as [ch|] eqn:E; [|by apply IH].
    destruct (pack_one_total ch pk (Hb _ _ E) Ht) as (pk1 & -> & H1). cbn [rbind]. by apply IH. }
  destruct (Hall (mkPacking [] (new_builder c (tg_reader_prefix t)) None)) as (pk & -> & Hpk).
  { split; [by exists []|]. by apply Forall_singleton. }
  cbn [rbind]. destruct (flush_out_tidy pk Hpk) as (pk1 & -> & _). by eexists.
Qed.

Lemma gap_bits_total base numbers s :
  set_ok s → set_base s = base → (∀ n, n ∈ numbers → base <= n <= i64_max) → 0 < base → ∃ s', gap_bits base numbers s = Ok s' ∧ set_base s' = base ∧ (num_bits s' <= MAX_SET_BITS)%N.
Proof.
  revert s. induction numbers as [|n ns IH]; intros s Hs Hb Hn Hpos; cbn [gap_bits].
  { exists s. destruct Hs as (_ & ? & _). done. }
  destruct (Z.leb_spec (Z.of_N MAX_SET_BITS) (Z.max i64_min (Z.min (n - base) i64_max))) as [|Hlt].
  { exists s. destruct Hs as (_ & ? & _). done. }
  pose proof (Hn n ltac:(left)) as Hr. pose proof (set_insert_spec n s Hs) as Hspec. destruct (set_insert n s) as [s1|e].
  - destruct Hspec as (H1 & H2 & _). apply IH; [done|congruence|intros m Hm; apply Hn; by right|done].
  - exfalso. unfold MAX_SET_BITS, i64_min, i64_max in *. lia.
Qed.

Lemma gap_for_total (start : SequenceNumber) (rest : list SequenceNumber) :
  StronglySorted Z.lt (@cons SequenceNumber start rest) → 0 < start → (∀ n, n ∈ start :: rest → n < i64_max) →
  ∃ o, gap_for c t (@cons SequenceNumber start rest) = Ok o.
Proof.
  intros Hs Hpos Hmax. unfold gap_for. cbn [tl].
  assert (sn_next start = start + 1) as En by (pose proof (Hmax start ltac:(left)); unfold sn_next; lia). rewrite En.
  inversion Hs as [|? ? _ Hall]; subst. rewrite Forall_forall in Hall.
  destruct (gap_bits_total (start + 1) rest (set_new (start + 1)) (set_new_ok _) eq_refl) as (s & -> & Eb & Hb).
  { intros n Hn. pose proof (Hall n Hn). pose proof (Hmax n ltac:(by right)). lia. }
  { lia. }
  cbn [rbind]. unfold gap_validate, check_valid, set_validate, sn_is_valid. cbn [gp_start gp_list]. rewrite Eb.
  rewrite (proj2 (Z.ltb_lt 0 start)), (proj2 (Z.ltb_lt 0 (start + 1))), (proj2 (N.ltb_ge MAX_SET_BITS (num_bits s)) Hb) by lia.
  cbn [rbind negb]. by eexists.
Qed.

End Total.

(** A writer whose samples are within the limits. *)
Definition sound_writer (w : RtpsWriter) : Prop := sound_config (w_config w) ∧ payloads_bounded w.

Lemma produce_for_total reader now w :
  writer_ok w → sound_writer w → ∃ w' os, produce_for reader now w = (w', Ok os).
Proof.
  intros Hok [Hc Hb]. pose proof Hok as (_ & Hl & Hm). unfold produce_for.
  destruct (w_matched w !! reader) as [p|] eqn:Ep; [|by eexists _, _].
  destruct (negb _); [by eexists _, _|]. destruct (rp_locators p) as [|l ls] eqn:El; [by eexists _, _|]. rewrite <-El.
  set (missing := filter (λ n, _ ∧ _) _). set (t := mkTarget _ _ _).
  destruct (datagrams_for_total (w_config w) t Hc (w_cache w) (filter (λ n, cache_contains n (w_cache w) = true) (wanted_for p (last_change w))) Hb)
    as [os ->]. cbn [rbind].
  destruct (_ && negb (bool_decide (missing = []))) eqn:Eg; [|by eexists _, _].
  apply andb_true_iff in Eg as [_ Hne%negb_true_iff%bool_decide_eq_false].
  destruct missing as [|start rest] eqn:Em; [done|].
  assert (∀ n, n ∈ start :: rest → 0 < n < i64_max) as Hr.
  { intros n Hn. rewrite <-Em in Hn. apply list_elem_of_filter in Hn as [[_ ?] Hw].
    destruct (Hm _ _ Ep) as [_ (? & ? & _)]. apply wanted_for_above in Hw; lia. }
  destruct (gap_for_total (w_config w) t start rest) as [o ->]; [|apply Hr; left|intros n Hn; by apply Hr|by eexists _, _].
  rewrite <-Em. eapply StronglySorted_sublist; [apply sublist_filter|apply wanted_for_sorted].
Qed.

Lemma sound_writer_same w w' : same_history w w' → sound_writer w → sound_writer w'.
Proof. intros (E1 & E2 & _) [H1 H2]. unfold sound_writer, payloads_bounded. by rewrite E1, E2. Qed.

Lemma write_change_sound payload ts kind instance now w w' n :
  write_change payload ts kind instance now w = (w', Ok n) → sound_writer w → sound_writer w'.
Proof.
  unfold write_change. intros H [Hc Hb]. destruct (N.ltb_spec MAX_REASSEMBLY_SAMPLE (olen payload)); [done|].
  destruct (cache_insert _ _) as [[h ev]|e] eqn:E; [|done]. injection H as <- <-. split; [done|].
  intros m ch Hch. cbn in Hch. destruct (cache_insert_subseteq _ _ _ _ E) as (Hsub & _).
  eapply lookup_weaken in Hch; [|exact Hsub]. apply lookup_insert_Some in Hch as [[_ <-]|[_ Hch]]; [done|by eapply Hb].
Qed.

(** ** One call serves a reader *)

(** How a number is answered: the sample, its fragments, or a [GAP]. *)
Definition served (w : RtpsWriter) (t : Target) (os : list Outbound) (n : SequenceNumber) : Prop :=
  match changes (w_cache w) !! n with
  | Some ch => conveyed (w_config w) t ch (λ m, m ∈ all_submessages os)
  | None => ∃ g, SmGap g ∈ all_submessages os ∧ n ∈ irrelevant g
  end.

Definition target_of (p : ReaderProxy) : Target := mkTarget (entity_id (rp_guid p)) (prefix (rp_guid p)) (rp_locators p).

Lemma conveyed_app c t ch os ps : conveyed c t ch (λ m, m ∈ all_submessages os) →
  conveyed c t ch (λ m, m ∈ all_submessages (os ++ ps)).
Proof.
  apply conveyed_impl. intros m _ Hm. rewrite all_submessages_app. apply elem_of_app. by left.
Qed.

(** Every wanted number in the window of 257 above the watermark is served. *)
Lemma produce_for_serves reader now w p w' os (n : SequenceNumber) :
  writer_ok w → w_matched w !! reader = Some p → rp_active p = true → rp_reliable p = true → rp_locators p ≠ [] →
  produce_for reader now w = (w', Ok os) →
  n ∈ wanted_for p (last_change w) → n <= last_change w → n <= rp_acked_through p + 257 →
  served w (target_of p) os n.
Proof.
  intros (Hk & Hl & Hm) Ep Hact Hrel Hloc H Hn Hlast Hwin. destruct (Hm _ _ Ep) as [_ Hp].
  unfold produce_for in H. rewrite Ep, Hact, Hrel in H. cbn [negb andb] in H.
  destruct (rp_locators p) as [|l ls] eqn:El; [done|]. rewrite <-El in H. fold (target_of p) in H.
  set (sendable := filter (λ n, cache_contains n (w_cache w) = true) _) in H.
  set (missing := filter (λ n, _ ∧ _) _) in H.
  destruct (datagrams_for _ _ _ sendable) as [out|e] eqn:Ed; [|done]. cbn [rbind] in H.
  unfold served. destruct (changes (w_cache w) !! n) as [ch|] eqn:Ech.
  - assert (n ∈ sendable) as Hs.
    { apply list_elem_of_filter. split; [|done]. unfold cache_contains. rewrite Ech. by apply bool_decide_eq_true. }
    pose proof (datagrams_for_conveys _ _ _ _ _ _ _ Ed Hs Ech) as Hc.
    destruct (negb _); [|by injection H as <- <-].
    destruct (gap_for _ _ missing) as [o|e]; [|done]. injection H as <- <-. by apply conveyed_app.
  - assert (n ∈ missing) as Hmiss.
    { apply list_elem_of_filter. split; [|done]. split; [|done]. unfold cache_contains. rewrite Ech.
      apply bool_decide_eq_false. by intros [? ?]. }
    rewrite bool_decide_false in H by (intros E; rewrite E in Hmiss; by apply not_elem_of_nil in Hmiss). cbn [negb] in H.
    destruct (gap_for _ _ missing) as [o|e] eqn:Eg; [|done]. injection H as <- <-.
    destruct missing as [|start rest] eqn:Em; [by apply not_elem_of_nil in Hmiss|].
    assert (∀ m, m ∈ start :: rest → rp_acked_through p < m <= last_change w) as Hbound.
    { intros m Hin. rewrite <-Em in Hin. apply list_elem_of_filter in Hin as [[_ ?] Hw]. destruct Hp as (? & ? & _).
      apply wanted_for_above in Hw; lia. }
    destruct (gap_for_spec _ _ _ _ _ Eg) as (g & Es & _ & _ & _ & _ & Hg).
    + apply StronglySorted_Sorted. rewrite <-Em. eapply StronglySorted_sublist; [apply sublist_filter|apply wanted_for_sorted].
    + intros m Hin. pose proof (Hbound m Hin). destruct Hp as (? & _). lia.
    + exists g. split.
      * rewrite all_submessages_app. apply elem_of_app. right. unfold all_submessages. cbn. rewrite Es. cbn.
        right. by apply list_elem_of_singleton.
      * apply Hg. split; [done|]. pose proof (Hbound start ltac:(left)). lia.
Qed.

(** ** What an [ACKNACK] asks for is wanted *)

Lemma sorted_index (b : Z) l i n :
  StronglySorted Z.lt l → (∀ x, x ∈ l → b < x) → l !! i = Some n → b + 1 + Z.of_nat i <= n.
Proof.
  revert b i. induction l as [|x l IH]; intros b i Hs Hb Hi; [done|]. inversion Hs as [|? ? Hs' Hall]; subst.
  pose proof (Hb x ltac:(left)). destruct i as [|i]; cbn in Hi; [injection Hi as <-; lia|].
  rewrite Forall_forall in Hall. specialize (IH x i Hs' Hall Hi). lia.
Qed.

(** The lowest 256 of a strictly ascending list hold those within 256. *)
Lemma in_first_256 (b n : Z) l :
  StronglySorted Z.lt l → (∀ x, x ∈ l → b < x) → n ∈ l → n <= b + 256 → n ∈ take MAX_SAMPLES_PER_PRODUCE l.
Proof.
  intros Hs Hb Hn Hle. apply list_elem_of_lookup in Hn as [i Hi]. pose proof (sorted_index b l i n Hs Hb Hi).
  apply list_elem_of_lookup. exists i. rewrite lookup_take_lt; [done|]. unfold MAX_SAMPLES_PER_PRODUCE. lia.
Qed.

Lemma extend_wanted_subseteq fuel number last wanted n : n ∈ wanted → n ∈ extend_wanted fuel number last wanted.
Proof.
  revert number wanted. induction fuel as [|fuel IH]; intros number wanted Hn; cbn [extend_wanted]; [done|].
  destruct (_ && _); [|done]. apply IH. apply elem_of_app. by left.
Qed.

(** A request within 256 of the watermark is wanted. *)
Lemma requested_is_wanted p last n :
  proxy_ok p → n ∈ rp_requested p → n <= rp_acked_through p + 256 → n ∈ wanted_for p last.
Proof.
  intros (Ha & Hh & Hr & _) Hn Hle. unfold wanted_for. apply (in_first_256 (rp_acked_through p)).
  - apply ascending_sn_lt.
  - intros x Hx. unfold sort_dedup in Hx. apply elem_of_ascending_sn, elem_of_list_to_set in Hx. revert x Hx.
    apply Forall_forall, extend_wanted_above; [|unfold sn_next; lia|unfold sn_next; lia].
    apply Forall_forall. intros x Hx. by apply list_elem_of_filter in Hx as [? _].
  - apply elem_of_ascending_sn, elem_of_list_to_set, extend_wanted_subseteq, list_elem_of_filter.
    split; [by apply Hr|by apply elem_of_ascending_sn].
  - done.
Qed.

Lemma request_missing_requests missing p n :
  (size (rp_requested p) + length missing <= MAX_REQUESTED)%nat → rp_acked_through p < n →
  n ∈ missing ∨ n ∈ rp_requested p → n ∈ rp_requested (request_missing missing p).
Proof.
  revert p. induction missing as [|m ms IH]; intros p Hsize Ha Hn; cbn [request_missing length] in *.
  { destruct Hn as [Hn|?]; [by apply not_elem_of_nil in Hn|done]. }
  destruct (Nat.leb_spec MAX_REQUESTED (size (rp_requested p))) as [?|_]; [lia|].
  destruct (Z.ltb_spec (rp_acked_through p) m).
  - apply IH; cbn [rp_requested rp_acked_through set_requested].
    + pose proof (size_union_alt {[m]} (rp_requested p)) as E. rewrite size_singleton in E.
      pose proof (subseteq_size (rp_requested p ∖ {[m]}) (rp_requested p) ltac:(set_solver)). lia.
    + done.
    + destruct Hn as [[->|?]%elem_of_cons|?]; [right; set_solver|by left|right; set_solver].
  - apply IH; [lia|done|]. destruct Hn as [[->|?]%elem_of_cons|?]; [lia|by left|by right].
Qed.

Lemma set_iter_length s : (num_bits s <= MAX_SET_BITS)%N → (length (set_iter s) <= 256)%nat.
Proof.
  intros H. unfold set_iter, MAX_SET_BITS in *.
  assert (∀ (f : N → option SequenceNumber) l, (length (omap f l) <= length l)%nat) as Hle.
  { intros f l. induction l as [|x l IH]; cbn; [done|]. destruct (f x); cbn; lia. }
  etrans; [apply Hle|]. rewrite length_fmap, length_seq. lia.
Qed.

(** After an applied [ACKNACK] what it names above the watermark is requested,
    unless the history has moved past it. *)
Lemma on_acknack_requests reader a w w1 p p1 (n : SequenceNumber) :
  on_acknack reader a w = (w1, true) → w_matched w !! reader = Some p → w_matched w1 !! reader = Some p1 →
  (size (rp_requested p) + 256 <= MAX_REQUESTED)%nat → (num_bits (an_reader_sn_state a) <= MAX_SET_BITS)%N →
  n ∈ set_iter (an_reader_sn_state a) → rp_acked_through p1 < n → first_available w <= n → n ∈ rp_requested p1.
Proof.
  unfold on_acknack. intros H Ep Ep1 Hsize Hbits Hn Ha Hfirst. rewrite Ep in H.
  destruct (accept_acknack a p) as [q ap] eqn:Ea. injection H as <- ->. cbn in Ep1. rewrite lookup_insert_eq in Ep1.
  injection Ep1 as <-. unfold accept_acknack in Ea. destruct (Z.leb _ _); [done|].
  match type of Ea with (request_missing _ ?x, _) = _ => set (p0 := x) in Ea end. injection Ea as <-.
  assert (size (rp_requested p0) <= size (rp_requested p))%nat as Hs0.
  { unfold p0. cbn. destruct (Z.ltb _ _); cbn; [|done]. apply subseteq_size. set_solver. }
  clearbody p0. cbn [rp_acked_through drop_requested_below set_requested] in Ha.
  rewrite (proj1 (request_missing_acked _ _)) in Ha. cbn [drop_requested_below rp_requested set_requested].
  apply elem_of_filter. split; [done|]. apply request_missing_requests; [|done|by left].
  pose proof (set_iter_length _ Hbits). lia.
Qed.

(** C32. Of a writer whose fragments have at least 64 octets, whose datagram
    budget is within a UDP payload and whose samples are within the reassembly
    limit: when a matched reader that is reliable, active and has a locator,
    with at most 3840 numbers requested so far, sends an [ACKNACK] that is not
    stale and whose set is well formed with a base in the range of sequence
    numbers, then every number the set names, above what the reader has
    acknowledged and among those the writer announces, is in the datagrams of
    the next call of [produce] for that reader, which does not fail: the
    sample itself, its whole series of fragments, or a [GAP] that names it. *)
Theorem nack_is_answered reader a w w1 p p1 now (n : SequenceNumber) :
  writer_ok w → sound_writer w → w_matched w !! reader = Some p → counted p = true → rp_locators p1 ≠ [] →
  (size (rp_requested p) + 256 <= MAX_REQUESTED)%nat → set_ok (an_reader_sn_state a) →
  0 < set_base (an_reader_sn_state a) <= i64_max →
  on_acknack reader a w = (w1, true) → w_matched w1 !! reader = Some p1 →
  n ∈ set_iter (an_reader_sn_state a) → rp_acked_through p1 < n → first_available w <= n <= last_change w →
  ∃ w2 os, produce_for reader now w1 = (w2, Ok os) ∧ served w (target_of p1) os n.
Proof.
  intros Hok Hsw Ep Hc Hloc Hsize Hset Hbase H Ep1 Hn Ha Hrange.
  destruct (on_acknack_spec _ _ _ _ _ H Hok ltac:(lia)) as (Hok1 & C1 & C2 & C3 & _ & Hacked).
  assert (acked_of w reader = Some (rp_acked_through p)) as Hold by (unfold acked_of; rewrite Ep; cbn; by rewrite Hc).
  pose proof (Hacked _ Hold) as Hnew. unfold acked_of in Hnew. rewrite Ep1 in Hnew. cbn in Hnew.
  destruct (counted p1) eqn:Ec1; [|done]. injection Hnew as Hnew. unfold counted in Ec1. apply andb_true_iff in Ec1 as [Er1 Ea1].
  pose proof Hset as (_ & Hbits & _).
  assert (n <= rp_acked_through p1 + 256) as Hwin.
  { rewrite Hnew. unfold set_iter in Hn. apply list_elem_of_omap in Hn as (bit & Hin & Hs).
    apply list_elem_of_fmap in Hin as (k & -> & Hk%elem_of_seq). destruct (bit_is_set _ _); [|done]. injection Hs as <-.
    unfold acknowledged_through, sn_previous, sn_saturating_add, MAX_SET_BITS, i64_min in *. lia. }
  assert (n ∈ rp_requested p1) as Hreq by (eapply on_acknack_requests; try done; lia).
  pose proof Hok1 as (_ & _ & Hm1). destruct (Hm1 _ _ Ep1) as [_ Hp1].
  destruct (produce_for_total reader now w1 Hok1) as (w2 & os & Hprod).
  { unfold sound_writer, payloads_bounded. by rewrite C1, C2. }
  exists w2, os. split; [done|].
  pose proof (produce_for_serves reader now w1 p1 w2 os n Hok1 Ep1 Ea1 Er1 Hloc Hprod) as Hserved.
  unfold served in *. rewrite C1, C2, C3 in Hserved. apply Hserved; [|lia|lia]. by apply requested_is_wanted.
Qed.

(** ** [produce] never fails *)

Lemma collect_heartbeats_total liveliness w readers : ∃ os, collect_heartbeats liveliness w readers = Ok os.
Proof.
  induction readers as [|g gs [os IH]]; cbn [collect_heartbeats]; [by exists []|].
  destruct (w_matched w !! g) as [p|]; [|by exists os]. unfold heartbeat_for.
  destruct (_ || _); [by exists os|]. destruct (rp_locators p); [by exists os|]. rewrite IH. by eexists.
Qed.

(** A writer whose samples are within the limits, with fragments of at
    least 64 octets and a budget the network layer takes, always produces its
    datagrams: no packing, fragmentation, [GAP] or [HEARTBEAT] of its own is
    refused by the encoder.  Writing keeps it such a writer. *)
Theorem produce_never_fails now w :
  writer_ok w → sound_writer w →
  (∃ w' os, produce now w = (w', Ok os) ∧ writer_ok w' ∧ sound_writer w') ∧
  ∀ payload ts kind instance w' n, write_change payload ts kind instance now w = (w', Ok n) → sound_writer w'.
Proof.
  intros Hok Hs. split; [|by intros; eapply write_change_sound].
  assert (∀ readers w, writer_ok w → sound_writer w → ∃ w' os, produce_readers readers now w = (w', Ok os)) as Hreaders.
  { induction readers as [|g gs IH]; intros v Hv Hsv; cbn [produce_readers]; [by eexists _, _|].
    destruct (produce_for_total g now v Hv Hsv) as (v1 & os1 & E1). rewrite E1.
    destruct (produce_for_spec _ _ _ _ _ E1 Hv) as (Hv1 & Hsame & _).
    destruct (IH v1 Hv1 (sound_writer_same _ _ Hsame Hsv)) as (v2 & os2 & ->). by eexists _, _. }
  assert (∃ w' os, produce now w = (w', Ok os)) as (w' & os & E).
  { unfold produce. destruct (Hreaders (ascending_guids (w_matched w)) w Hok Hs) as (w1 & os1 & ->).
    destruct (should_heartbeat now w1); [|by eexists _, _]. unfold produce_heartbeat. destruct (negb _); [by eexists _, _|].
    cbn. match goal with |- context [collect_heartbeats ?a ?b ?c] => destruct (collect_heartbeats_total a b c) as [os2 ->] end.
    by eexists _, _. }
  destruct (produce_spec _ _ _ _ E Hok) as (Hok' & Hsame & _). exists w', os. split_and!; [done|done|by eapply sound_writer_same].
Qed.
