(* ===== verification/RtpsScenarios.v ===== *)
(** * RTPS: runs

    Concrete runs of [RtpsLink] and of its endpoints: the runs that witness
    the theorems, and runs that show where the code of
    [src/crates/astrs-rtps/src/behavior/] does something other than its
    documentation says. *)

From Stdlib Require Import Lia.
From stdpp Require Import base tactics gmap strings numbers list sorting.
From S2P Require Import Prelude Crc32c Text RtpsTypes RtpsCache RtpsProxy RtpsFragment RtpsMessage RtpsWriter RtpsReader RtpsLink RtpsRepair.

Open Scope Z_scope.

(** ** Runs of the link as lists of actions *)

Inductive action : Set :=
  | ActWrite (payload : list N) (now : N)
  | ActProduce (now : N)
  | ActHeartbeat (now : N)
  | ActHear (i : nat) (now : N)
  | ActAnswer (now : N)
  | ActListen (i : nat)
  | ActForget (n : SequenceNumber)
  | ActReclaim.

Section Runs.

Context (cfg : WriterConfig) (rcfg : ReaderConfig).

Definition exec (a : action) (k : link) : link :=
  match a with
  | ActWrite payload now =>
      if Z.ltb (last_change (lk_writer k) + 1) i64_max then
        match write_change payload None Alive NIL now (lk_writer k) with
        | (w, Ok n) => after_write w n (mkChange n Alive NIL payload None now) k
        | _ => k
        end
      else k
  | ActProduce now => let '(w, r) := produce now (lk_writer k) in say w (sent r) k
  | ActHeartbeat now => let '(w, r) := produce_heartbeat now false (lk_writer k) in say w (sent r) k
  | ActHear i now =>
      match lk_forth k !! i with
      | Some m => let '(r, new) := hear m now (lk_reader k) in after_hearing r new k
      | None => k
      end
  | ActAnswer now => let '(r, res) := reader_produce now (lk_reader k) in answer r (sent res) k
  | ActListen i =>
      match lk_back k !! i with
      | Some m => with_writer (listen m (lk_writer k)) k
      | None => k
      end
  | ActForget n => drop_history (forget n (lk_writer k)).1 k
  | ActReclaim => with_writer (reclaim (lk_writer k)).1 k
  end.

Definition run (acts : list action) (k : link) : link := foldl (λ k a, exec a k) k acts.

Definition is_forget (a : action) : bool := match a with ActForget _ => true | _ => false end.

Lemma link_exec_reachable forgets w0 a k :
  is_forget a = false ∨ forgets = true → reachable cfg rcfg forgets w0 k → reachable cfg rcfg forgets w0 (exec a k).
Proof.
  intros Hf Hr. destruct a as [payload now|now|now|i now|now|i|n|]; cbn [exec].
  - destruct (Z.ltb_spec (last_change (lk_writer k) + 1) i64_max); [|done].
    destruct (write_change _ _ _ _ _ _) as [w [n|e]] eqn:E; [|done]. eapply reach_step; [done|]. by eapply step_write.
  - destruct (produce now _) as [w r] eqn:E. eapply reach_step; [done|]. by eapply step_produce.
  - destruct (produce_heartbeat now false _) as [w r] eqn:E. eapply reach_step; [done|]. by eapply step_heartbeat.
  - destruct (lk_forth k !! i) as [m|] eqn:Em; [|done]. destruct (hear m now _) as [r new] eqn:E.
    eapply reach_step; [done|]. eapply step_hear; [|done]. by eapply list_elem_of_lookup_2.
  - destruct (reader_produce now _) as [r res] eqn:E. eapply reach_step; [done|]. by eapply step_answer.
  - destruct (lk_back k !! i) as [m|] eqn:Em; [|done]. eapply reach_step; [done|]. eapply step_listen. by eapply list_elem_of_lookup_2.
  - destruct (forget n _) as [w d] eqn:E. eapply reach_step; [done|]. cbn. eapply step_forget; [|done]. by destruct Hf.
  - destruct (reclaim _) as [w d] eqn:E. eapply reach_step; [done|]. by eapply step_reclaim.
Qed.

Lemma run_reachable forgets w0 acts k :
  Forall (λ a, is_forget a = false ∨ forgets = true) acts →
  reachable cfg rcfg forgets w0 k → reachable cfg rcfg forgets w0 (run acts k).
Proof.
  revert k. induction acts as [|a acts IH]; intros k Ha Hr; [done|]. apply Forall_cons in Ha as [Ha Has].
  apply IH; [done|]. by apply link_exec_reachable.
Qed.

End Runs.

(** ** A configuration *)

Definition the_writer : Guid := mkGuid 1%N 259%N.
Definition the_reader : Guid := mkGuid 2%N 260%N.

(** [KEEP_ALL], transient-local, reliable; a budget of 1400 octets. *)
Definition kept_config : WriterConfig :=
  mkWriterConfig the_writer true true keep_all unlimited None DEFAULT_HEARTBEAT_PERIOD DEFAULT_FRAGMENT_SIZE 1400%N
    FRAGMENTATION_THRESHOLD false.

(** The same with a depth of one, best effort or reliable, volatile. *)
Definition last_config (reliable : bool) : WriterConfig :=
  mkWriterConfig the_writer reliable false (keep_last 1) unlimited None DEFAULT_HEARTBEAT_PERIOD DEFAULT_FRAGMENT_SIZE 1400%N
    FRAGMENTATION_THRESHOLD false.

Definition the_reader_config : ReaderConfig := mkReaderConfig the_reader true keep_all None false.

Definition start_of (c : WriterConfig) : link := start c the_reader_config (writer_new c) [7%N] [8%N].

Lemma new_writer_ready c :
  ready_writer c the_reader_config (writer_new c).
Proof.
  split; [|done|done]. split; [by intros n ch|]. split; [cbn; unfold SN_ZERO, i64_max; lia|]. by intros g p.
Qed.

(** ** Loss, repetition and reordering

    Three samples; the datagram with the first two is lost, the one with the
    third arrives twice; a heartbeat prompts an acknowledgement that asks for
    the two, and the repair arrives. *)
Definition repair_run : list action :=
  [ActWrite [1; 2; 3; 4]%N 0; ActWrite [5; 6; 7; 8]%N 0; ActProduce 0; ActWrite [9; 9; 9; 9]%N 1; ActProduce 1;
   ActHear 2 2; ActHear 2 3; ActHeartbeat 4; ActHear 3 5; ActAnswer 5; ActListen 0; ActProduce 6; ActHear 4 7;
   ActHeartbeat 8; ActHear 5 9; ActAnswer 9; ActListen 1; ActReclaim].

Definition repaired : link := run repair_run (start_of kept_config).

Lemma repaired_reachable : reachable kept_config the_reader_config false (writer_new kept_config) repaired.
Proof. apply run_reachable; [|constructor]. repeat (constructor; [by left|]). constructor. Qed.

Example repaired_delivered : numbers_of (lk_delivered repaired) = [3; 1; 2].
Proof. vm_compute. reflexivity. Qed.

Example repaired_acked : acked_of (lk_writer repaired) the_reader = Some 3.
Proof. vm_compute. reflexivity. Qed.

(** ** Witnesses *)


(** The last sample is lost with its datagram and dropped by the application;
    the reader is told, and acknowledges. *)
Definition gap_run : list action :=
  [ActWrite [1; 2; 3; 4]%N 0; ActProduce 0; ActHear 0 1; ActWrite [5; 6; 7; 8]%N 2; ActForget 2; ActWrite [9; 9; 9; 9]%N 3;
   ActProduce 4; ActHear 2 5; ActHear 3 5; ActHeartbeat 6; ActHear 4 7; ActAnswer 7; ActListen 0].

Definition gapped : link := run gap_run (start_of kept_config).

Lemma gapped_reachable : reachable kept_config the_reader_config true (writer_new kept_config) gapped.
Proof. apply run_reachable; [|constructor]. repeat (constructor; [by right|]). constructor. Qed.

Lemma acknowledged_is_delivered_witness :
  lk_lost gapped = {[2]} ∧ numbers_of (lk_delivered gapped) = [1; 3] ∧
  acked_of (lk_writer gapped) the_reader = Some 3 ∧ (2 ∈ lk_lost gapped ∨ 2 ∈ numbers_of (lk_delivered gapped)).
Proof.
  split; [vm_compute; reflexivity|]. split; [vm_compute; reflexivity|]. split; [vm_compute; reflexivity|].
  apply (acknowledged_is_delivered kept_config the_reader_config eq_refl true (writer_new kept_config) gapped 3 2
           (new_writer_ready kept_config) gapped_reachable); [vm_compute; reflexivity|vm_compute; reflexivity|left; lia].
Defined.

Lemma keep_all_delivers_everything_witness :
  ∃ s, s ∈ lk_delivered repaired ∧ sm_sequence_number s = 2 ∧ exact kept_config (lk_written repaired) s.
Proof.
  apply (keep_all_delivers_everything kept_config the_reader_config eq_refl (writer_new kept_config) repaired 3 2
           (new_writer_ready kept_config) (conj eq_refl eq_refl) repaired_reachable);
    [vm_compute; reflexivity|split; [vm_compute; reflexivity|lia]|left; vm_compute; reflexivity].
Defined.

Definition ten : list N := [1; 2; 3; 4; 5; 6; 7; 8; 9; 10]%N.

Definition ten_in_threes : list DataFrag :=
  match fragment_sample 260%N 259%N 1 ten 3%N 60%N with Ok fs => fs | Err _ => [] end.

(** Four fragments, the last of one octet, arriving backwards with repeats. *)
Lemma fragments_reassemble_witness :
  ∃ f1 f2 f3 f4, ten_in_threes = [f1; f2; f3; f4] ∧
    ∃ r', accept_series the_writer ([f4; f2; f4; f3; f2] ++ [f1]) reassembler_new =
            (r', replicate 5 (Ok None) ++ [Ok (Some ten)]) ∧ assemblies r' !! (the_writer, 1) = None.
Proof.
  do 4 eexists. split; [vm_compute; reflexivity|].
  eapply (fragments_reassemble 260%N 259%N 1 ten 3%N 60%N ten_in_threes the_writer reassembler_new); try (vm_compute; reflexivity).
  - intros f Hf. repeat (apply elem_of_cons in Hf as [->|Hf]; [vm_compute; repeat constructor|]). by apply not_elem_of_nil in Hf.
  - vm_compute. repeat constructor.
  - intros Hf. repeat (apply elem_of_cons in Hf as [Hf|Hf]; [done|]). by apply not_elem_of_nil in Hf.
  - intros f Hf. apply list_elem_of_In in Hf. vm_compute in Hf.
    destruct Hf as [<-|[<-|[<-|[<-|[]]]]]; [by right|left; repeat constructor..].
Defined.

Lemma fragments_validate_witness :
  ten_in_threes ≠ [] ∧ ∀ f, f ∈ ten_in_threes → frag_validate f = Ok tt.
Proof.
  split; [vm_compute; discriminate|]. intros f Hf.
  exact (fragments_validate 260%N 259%N 1 ten 3%N 60%N ten_in_threes eq_refl ltac:(lia) f Hf).
Defined.

(** A writer that wrote three samples, the second of which is gone, and was
    asked for the first two. *)
Definition asked_writer : RtpsWriter :=
  let w := match_reader (reader_proxy_new the_reader [7%N] true) (writer_new kept_config) in
  let w := (write [1; 2; 3; 4]%N None 0 w).1 in
  let w := (write [5; 6; 7; 8]%N None 0 w).1 in
  let w := (write [9; 9; 9; 9]%N None 0 w).1 in
  (forget 2 w).1.

Definition the_request : AckNack :=
  mkAckNack 260%N 259%N (match set_from_numbers (set_new 1) [1; 2] with Ok s => s | Err _ => set_new 1 end) 1 false.

Definition answering_writer : RtpsWriter := (on_acknack the_reader the_request asked_writer).1.

Definition asked_proxy (w : RtpsWriter) : ReaderProxy :=
  match w_matched w !! the_reader with Some p => p | None => reader_proxy_new the_reader [] true end.

Definition the_answer : list Outbound :=
  match (produce_for the_reader 5 answering_writer).2 with Ok os => os | Err _ => [] end.

Lemma asked_writer_ok : writer_ok asked_writer.
Proof.
  split; [|split; [vm_compute; split; [discriminate|reflexivity]|]].
  - intros n ch Hn. assert (n ∈ dom (changes (w_cache asked_writer))) as Hd by (apply elem_of_dom; eauto).
    replace (dom (changes (w_cache asked_writer))) with ({[1; 3]} : gset SequenceNumber) in Hd by (vm_compute; reflexivity).
    apply elem_of_union in Hd as [->%elem_of_singleton| ->%elem_of_singleton]; vm_compute in Hn; injection Hn as <-;
      (split; [reflexivity|vm_compute; split; [reflexivity|discriminate]]).
  - intros g p Hg. assert (g ∈ dom (w_matched asked_writer)) as Hd by (apply elem_of_dom; eauto).
    replace (dom (w_matched asked_writer)) with ({[the_reader]} : gset Guid) in Hd by (vm_compute; reflexivity).
    apply elem_of_singleton in Hd as ->. vm_compute in Hg. injection Hg as <-. split; [done|].
    apply (proxy_new_ok the_reader [7%N] true).
Qed.

Lemma asked_writer_sound : sound_writer asked_writer.
Proof.
  split; [split; vm_compute; discriminate|]. intros n ch Hn.
  assert (n ∈ dom (changes (w_cache asked_writer))) as Hd by (apply elem_of_dom; eauto).
  replace (dom (changes (w_cache asked_writer))) with ({[1; 3]} : gset SequenceNumber) in Hd by (vm_compute; reflexivity).
  apply elem_of_union in Hd as [->%elem_of_singleton| ->%elem_of_singleton]; vm_compute in Hn; injection Hn as <-;
    vm_compute; discriminate.
Qed.

(** The writer of the example produces, whatever the time. *)
Lemma produce_never_fails_witness : ∃ w' os, produce 7 asked_writer = (w', Ok os) ∧ writer_ok w' ∧ sound_writer w'.
Proof. exact (proj1 (produce_never_fails 7%N asked_writer asked_writer_ok asked_writer_sound)). Defined.

(** ** A sample that cannot be cut blocks the writer

    The fragment size is taken as configured; with a fragment size of zero a
    sample above the threshold is accepted by [write] and every later call of
    [produce] fails, at any time and whatever else is there to send. *)
Definition uncut_config : WriterConfig :=
  mkWriterConfig the_writer true true keep_all unlimited None DEFAULT_HEARTBEAT_PERIOD 0 1400 8 false.

Definition uncut_writer : RtpsWriter :=
  let w := match_reader (reader_proxy_new the_reader [7%N] true) (writer_new uncut_config) in
  (write [1; 2; 3; 4]%N None 0 (write (replicate 12 1%N) None 0 w).1).1.

(** Two samples are in the history and no call sends either. *)
Theorem uncut_sample_blocks_the_writer :
  last_change uncut_writer = 2 ∧ ∀ now, produce now uncut_writer = (uncut_writer, Err (SampleTooLarge 12 0)).
Proof. split; [vm_compute; reflexivity|]. intros now. vm_compute. reflexivity. Qed.

(** The first sample is sent again, the second is declared gone. *)
Lemma nack_is_answered_witness :
  served asked_writer (target_of (asked_proxy answering_writer)) the_answer 1 ∧
  ∃ g, SmGap g ∈ all_submessages the_answer ∧ 2 ∈ irrelevant g.
Proof.
  assert (∀ n, n ∈ set_iter (an_reader_sn_state the_request) → 0 < n → first_available asked_writer <= n <= last_change asked_writer →
            served asked_writer (target_of (asked_proxy answering_writer)) the_answer n) as H.
  { intros n H1 H2 H3.
    assert (∃ w2 os, produce_for the_reader 5 answering_writer = (w2, Ok os) ∧
              served asked_writer (target_of (asked_proxy answering_writer)) os n) as (w2 & os & E & Hs).
    { eapply (nack_is_answered the_reader the_request asked_writer answering_writer (asked_proxy asked_writer)
                (asked_proxy answering_writer) 5%N n asked_writer_ok asked_writer_sound); try done.
      - apply Nat.leb_le. vm_compute. reflexivity.
      - apply (set_from_numbers_spec [1; 2] (set_new 1)); [vm_compute; reflexivity|apply set_new_ok]. }
    unfold the_answer. by rewrite E. }
  split.
  - apply H; vm_compute; repeat constructor; discriminate.
  - apply (H 2); vm_compute; repeat constructor; discriminate.
Defined.

(** ** A best-effort reader can stall for good

    Three hundred samples between two calls, a depth of one: the numbers above
    what was sent are gone, [produce] looks at the first 256 of them, finds
    nothing to send, and leaves the proxy where it was. *)
Fixpoint writes (count : nat) (w : RtpsWriter) : RtpsWriter :=
  match count with O => w | S count => writes count (write [1; 2; 3; 4]%N None 0 w).1 end.

Definition burst_writer : RtpsWriter :=
  writes 300 (match_reader (reader_proxy_new the_reader [7%N] false) (writer_new (last_config false))).

(** The last sample is there, and no call of [produce], at any time, sends it or
    changes anything. *)
Theorem best_effort_reader_stalls :
  keys (changes (w_cache burst_writer)) = [300] ∧ ∀ now, produce now burst_writer = (burst_writer, Ok []).
Proof. split; [vm_compute; reflexivity|]. intros now. vm_compute. reflexivity. Qed.

(** ** A volatile late joiner is never acknowledged

    Depth two; the reader joins after two samples and receives the third.  It
    asks for the second, which the history still announces; the writer counts
    it as acknowledged, so it neither resends nor declares it gone, and the
    reader's watermark stays below. *)
Definition volatile_config : WriterConfig :=
  mkWriterConfig the_writer true false (keep_last 2) unlimited None DEFAULT_HEARTBEAT_PERIOD DEFAULT_FRAGMENT_SIZE 1400
    FRAGMENTATION_THRESHOLD false.

Definition late_start : link := start volatile_config the_reader_config (writes 2 (writer_new volatile_config)) [7%N] [8%N].

(** One round: a heartbeat heard, its answer heard, and what the writer then
    sends. *)
Definition late_run : list action :=
  [ActWrite [9; 9; 9; 9]%N 1; ActProduce 1; ActHear 0 2; ActHear 1 2; ActAnswer 2; ActListen 0; ActProduce 2].

Definition late_round (i : nat) : list action := [ActHeartbeat 3; ActHear (i + 2) 4; ActAnswer 4; ActListen (i + 1); ActProduce 5].

Definition late (rounds : nat) : link := run (late_run ++ mjoin (late_round <$> seq 0 rounds)) late_start.

(** The third sample arrives; then, round after round of heartbeat, answer and
    [produce], the reader stays at one, the writer at two, and nothing but the
    heartbeat is sent. *)
Theorem late_joiner_is_never_acknowledged :
  numbers_of (lk_delivered (late 0)) = [3] ∧
  Forall (λ k, is_acknowledged (lk_writer k) = false ∧ acked_of (lk_writer k) the_reader = Some 2 ∧
               wp_acked_through <$> (r_matched (lk_reader k) !! the_writer) = Some 1 ∧
               length (lk_forth k) = (length (lk_back k) + 1)%nat) [late 0; late 1; late 2; late 3].
Proof. split; [vm_compute; reflexivity|]. repeat constructor; vm_compute; reflexivity. Qed.

(** ** Fragments and the datagram budget *)

Definition message_len (m : Message) : N := (HEADER_LEN + foldr (λ s n, serialized_len s + n) 0 (submessages m))%N.

Definition stamped_writer (len : nat) (kind : ChangeKind) (c : WriterConfig) : RtpsWriter :=
  let w := match_reader (reader_proxy_new the_reader [7%N] true) (writer_new c) in
  (write_change (replicate len 5%N) (Some (1, 0%N)) kind NIL 0 w).1.

Definition produced (w : RtpsWriter) : list Message := sent (produce 0 w).2.

(** A fragment of the default size does not fit the budget it was cut for. *)
Theorem fragment_datagram_exceeds_budget :
  effective_budget kept_config = 1400%N ∧ message_len <$> head (produced (stamped_writer 3000 Alive kept_config)) = Some 1428%N.
Proof. split; vm_compute; reflexivity. Qed.

Definition fresh_reader : RtpsReader :=
  match_writer (writer_proxy_new the_writer [8%N] true) (reader_new the_reader_config).

Definition hears (ms : list Message) : RtpsReader * list Sample :=
  foldl (λ x m, let '(r, new) := hear m 1 x.1 in (r, x.2 ++ new)) (fresh_reader, []) ms.

Definition frag_verdicts (m : Message) : list (RtpsResult unit) :=
  omap (λ s, match s with SmDataFrag f => Some (frag_validate f) | _ => None end) (submessages m).

(** A sample of 1330 octets is too large for one datagram and too small for a
    fragment: every reader refuses what is sent. *)
Theorem sample_no_reader_accepts :
  (effective_threshold kept_config < 1330)%N ∧
  frag_verdicts <$> produced (stamped_writer 1330 Alive kept_config) = [[Err (FragmentLargerThanSample 1344 1330)]; []] ∧
  (hears (produced (stamped_writer 1330 Alive kept_config))).2 = [].
Proof. split; [vm_compute; reflexivity|]. split; vm_compute; reflexivity. Qed.

(** A disposal that is fragmented arrives as a live sample. *)
Theorem fragmented_disposal_is_alive :
  sm_kind <$> (hears (produced (stamped_writer 1400 NotAliveDisposed kept_config))).2 = [Alive] ∧
  sm_kind <$> (hears (produced (stamped_writer 100 NotAliveDisposed kept_config))).2 = [NotAliveDisposed].
Proof. split; vm_compute; reflexivity. Qed.

(** A sample without a timestamp takes that of the one before it in its
    datagram. *)
Theorem timestamp_is_inherited :
  sm_source_timestamp <$>
    (hears (produced (write [1; 2; 3; 4]%N None 0 (stamped_writer 4 Alive kept_config)).1)).2 = [Some (1, 0%N); Some (1, 0%N)].
Proof. vm_compute. reflexivity. Qed.

(** A submessage that also covers a missing fragment rewrites one that was
    received. *)
Theorem received_fragment_is_rewritten :
  let first := mkDataFrag 260%N 259%N 1 1%N 1%N 2%N 4%N [1; 2]%N in
  let both := mkDataFrag 260%N 259%N 1 1%N 2%N 2%N 4%N [9; 9; 3; 4]%N in
  (accept_series the_writer [first; both] reassembler_new).2 = [Ok None; Ok (Some [9; 9; 3; 4]%N)].
Proof. vm_compute. reflexivity. Qed.

(** With as many numbers waiting as a proxy tracks, the one that would let
    the watermark move is refused. *)
Theorem full_proxy_refuses_the_next p :
  wp_reliable p = true → sn_next (wp_acked_through p) ∉ wp_received p → 0 <= wp_acked_through p < i64_max →
  (MAX_TRACKED <= N.of_nat (size (wp_received p)))%N →
  accept_data (sn_next (wp_acked_through p)) p = (wp_flag (wp_heartbeat_pending p) true p, false).
Proof.
  intros Hrel Hnew Ha Hfull. unfold accept_data. cbn [wp_reliable wp_flag wp_acked_through wp_received]. rewrite Hrel. cbn [negb].
  destruct (Z.leb_spec (sn_next (wp_acked_through p)) (wp_acked_through p)) as [Hle|_]; [rewrite sn_next_eq in Hle; lia|].
  rewrite bool_decide_false by done. cbn [orb]. by rewrite (proj2 (N.leb_le _ _)).
Qed.
